(* ===== verification/_CoqProject ===== *)
-Q . S2P
Prelude.v
RustStr.v
PolicyTypes.v
Rules.v
Wrappers.v
SyntaxTree.v
Splitting.v
Script.v
Paths.v
Policy.v
Instances.v
PolicyLaws.v
ShellAccess.v
ShellLaws.v
Preflight.v
ExecRisk.v
Breaker.v
BreakerLaws.v
Delivery.v
ToolCallIds.v
History.v
HistoryLaws.v
Tokens.v
StrFind.v
Tags.v
Compaction.v
CompactionLaws.v
IntegrityLaws.v
Persistence.v
Usage.v
ImageBudget.v
RequestBuilder.v
ChatState.v
ChatCommands.v
ChatStateLaws.v
ChatTheorems.v
RequestLaws.v
IpAddr.v
UrlMatch.v
ManagedPolicy.v
ManagedLaws.v
WebOrigin.v
PublicIp.v
ProxyRequest.v
ClientHello.v
ProxyLaws.v
EgressProxy.v
EgressLaws.v
EgressBudget.v
TextLines.v
HunkTypes.v
HunkDiff.v
DiffLaws.v
HunkTracker.v
HunkLaws.v
HunkInvariant.v
HunkWrites.v
HunkLoc.v
HunkClaims.v
PatchText.v
PatchEngine.v
PatchFormat.v
PatchLaws.v
PatchClaims.v
Anchors.v
HashlineEdit.v
AnchorLaws.v
HashlineLaws.v
HashlineClaims.v
HashlineTool.v
HashlineToolClaims.v
Journal.v
Workflow.v
JournalLaws.v
WorkflowLaws.v
WorkflowBatch.v
WorkflowTrace.v
WorkflowClaims.v
RunTracker.v
RunTrackerLaws.v
