(* ===== verification/Prelude.v ===== *)
(** * Amore Build: a verification library for its decision code

    Amore Build is a coding agent: a terminal program in which a language model
    proposes tool calls (shell commands, edits, reads, web requests) and the
    program decides which of them run, records the conversation and delivers
    messages between turns.  This library models the parts of it whose answers
    other parts rely on, and proves what makes those answers right.  Paths below
    are relative to the repository's [crates] directory.

    ** Parts

    _Permission engine_, [codegen/xai-grok-permission-rules/src].  A tool call
    asks for an access; a policy is a list of rules.  Three passes judge it:
    - the direct pass matches the access against the rules, deny over ask over
      allow; a shell command is allowed only if each of its commands is;
    - the Bash command gate looks inside a script, through wrappers such as
      [env] or [timeout] and into inline scripts, and can only escalate;
    - the shell file gate finds the files a script reads, writes or creates and
      checks them against the Read and Edit rules, and can only escalate.
    The preflight evaluates all three once and says who may answer.  Files:
    - [PolicyTypes]: accesses, rules, decisions ([types.rs]);
    - [Rules]: rule strings and default modes ([rules.rs]);
    - [SyntaxTree]: the tree of a parsed script, its walk, and the decoding of
      one argument ([shell_access.rs], first part);
    - [Wrappers]: peeling of wrappers off an argv ([bash_command_splitting.rs]);
    - [Splitting]: decomposition of a script into plain commands (same file);
    - [Script]: recovery of read-only scripts with variables
      ([bash_permission_script.rs], [env_risk.rs]);
    - [Paths]: Rust paths, [normalize_lexically] of
      [codegen/xai-grok-paths/src/lib.rs], the spellings path rules match and
      symlink resolution ([policy/path_match.rs]);
    - [Policy]: matching, the direct pass, the Bash allow gate and the Bash
      command gate ([policy.rs], [policy/bash_commands.rs], [domain.rs]);
    - [ShellAccess]: the shell file gate and protected edit targets
      ([shell_access.rs]);
    - [Preflight]: the combined evaluation ([gate_preflight.rs]);
    - [ExecRisk]: options of [git] and [sort] that start a program, the git queries
      that run without a question, the directories whose git configuration is read
      before a script runs, and the pins that silence content filters
      ([exec_risk.rs], [git_content_filters.rs]);
    - [IpAddr], [UrlMatch], [ManagedPolicy]: the policy an administrator and a user
      write in settings layers: URL patterns, allow and deny lists, source tiers and
      the folding of all layers into one policy ([managed_policy/]);
    - [Instances]: small executable interfaces used by examples and witnesses.

    _Circuit breaker_, [common/xai-circuit-breaker/src]: [Breaker] (the sliding
    window, the three-state machine over atomics, presets, retry policy) and
    [BreakerLaws].  An operation is a program of atomic actions; [run] executes
    it alone, [cstep] interleaves threads.

    _Message delivery_, [common/xai-message-delivery-core/src/lifecycle.rs]:
    [Delivery], the slots of the lifecycle and a transition system that also
    remembers every delivery admitted and handed back, and what every call returned.

    _Tool-call identifiers_, [codegen/xai-chat-state/src/tool_call_ids.rs]:
    [ToolCallIds], the repair of a stored history and the ingest of new items.

    _Chat state_, [codegen/xai-chat-state/src].  One actor owns the history of a
    session; handles send it commands, it answers, and it writes the history through
    a persistence trait.  Before a prompt is sent the history must be one a provider
    accepts, fit a token budget and a byte budget, and survive compaction, which
    replaces it by a summary and what is carried over.  Files:
    - [History]: conversation items and the passes that make a stored
      history acceptable ([sampling-types/src/conversation.rs],
      [compaction_utils.rs]);
    - [Tokens]: token estimates and threshold tests, the percentages and
      scalings that go through binary64 ([xai-token-estimation/src/lib.rs]);
    - [StrFind], [Tags]: text search and the tag blocks, summaries and image notes
      built on it ([compaction_utils.rs], [compaction_image_context.rs]);
    - [Compaction]: what a summarizing model is shown, and the history that replaces
      the summarized one (the same files);
    - [Persistence]: the persistence trait ([persistence.rs]) and what it promises;
    - [Usage], [ImageBudget]: billing ledgers ([usage.rs]) and eviction of inline
      images ([image_budget.rs]);
    - [RequestBuilder], [ChatState], [ChatCommands]: pruning, reminders and queries,
      the actor's state with one definition per handler, and the dispatch of every
      command ([actor/], [commands.rs]).

    _Egress proxy_, [codegen/xai-grok-egress-proxy/src].  Commands of a session reach
    the network through a proxy that asks a website policy and a decider (the user)
    before it resolves a name.  A connection is a program of effects ([proc]): what the
    client, the resolver, the decider and the upstream answer is arbitrary.  Files:
    - [WebOrigin]: origins, website policies ([sandbox/src/network_policy.rs]) and the
      targets of requests ([request.rs]);
    - [PublicIp]: the test of resolved addresses ([ip.rs]);
    - [ProxyRequest]: errors, the strict subset of HTTP, credentials ([error.rs],
      [request.rs], [http.rs], [credential.rs]);
    - [ClientHello]: the inspection of a tunnel's first bytes ([tls.rs]);
    - [EgressProxy]: a connection from its first byte to its last ([server.rs],
      [connect.rs], [http.rs], [decider.rs], [lib.rs]);
    - [EgressBudget]: any number of connections that share the hold budget.

    _Hunk tracker_, [codegen/xai-hunk-tracker/src].  One actor follows the files an
    agent and its user edit: for each the baseline, the current content and the pending
    hunks, each attributed to a turn; hunks are accepted into the baseline or rejected
    on the disk.  Commands run one after the other, file events that wait together as
    one batch.  Files:
    - [HunkTypes]: hunks, events, file contents and how bytes are classified
      ([types.rs], [events.rs], [actor/state.rs], [actor/file_utils.rs]);
    - [HunkDiff]: hunks out of a diff, patches, matching ([diff.rs]);
    - [HunkTracker]: the actor's state with one definition per operation, its
      commands, batches and loop ([actor/], [commands.rs]);
    - [HunkLoc]: the sink that counts lines by author ([loc/mod.rs]).

    _Patch tool_, [codegen/xai-grok-tools/src/implementations/codex/apply_patch].  A
    model edits files by a patch in a format of its own: the text is parsed, every
    change is computed in memory against the files as they are, the policy of memory
    directories is asked, and only then are files written and writes told.  Files:
    - [PatchText]: the format and its parser ([parser.rs], [errors.rs]);
    - [PatchEngine]: the search for lines ([seek_sequence.rs]), new contents
      ([apply.rs]) and the tool ([tool.rs]).

    _Anchor tools_, [codegen/xai-grok-tools/src/implementations/grok_build_hashline].
    A model reads a file as lines with anchors (line number, hash of the line, hash of
    its surroundings), searches with anchored results, and names the lines it edits by
    their anchors; an anchor that no longer fits is refused with a new one where there is
    just one to suggest.  Files:
    - [Anchors]: the hashes ([util/hash.rs]), the three schemes and the search for lines
      that moved ([scheme.rs], [anchor.rs]);
    - [HashlineEdit]: what is shown of a file ([read_file.rs]), how anchors resolve and
      how a batch of edits is checked and applied ([edit/]);
    - [HashlineTool]: parameters ([config.rs]), anchored search results ([grep.rs]),
      the paths a model writes ([types/resources.rs]) and a call of the edit tool
      ([edit/mod.rs]).
    The files as a map, with the accesses that fail ([TextLines]), serve both tools.

    _Workflow engine_, [codegen/xai-workflow/src].  A script orchestrates agents through
    the functions its host offers; the result of every call goes into a journal, a file
    of one JSON line each, which answers the calls again when the run is resumed.  A
    script is the tree of the host functions it calls ([Script]), with what it does next
    for every answer and every error it can catch; the host is a [World] that answers by
    the number of the call.  Files:
    - [Journal]: the journal, its loading behind a crash, recording, replay and pruning,
      the hashes of calls ([journal.rs]);
    - [Workflow]: requests and outcomes ([host.rs], [run.rs]), one definition per host
      function, batches of agents, and whole runs ([engine.rs], [lib.rs]);
    - [RunTracker]: the runs of a session, from [codegen/xai-grok-shell/src/session/workflow]:
      their status, budget, history and reports ([tracker.rs]), and the requests its host
      answers from them ([host_service.rs]).

    [Prelude], [RustStr] and [TextLines] hold what the parts share: byte strings,
    [result], stable sorting, automation, the [str] methods of Rust's library, and
    texts as lists of lines.

    ** What the theorems show

    - [PolicyLaws]: the direct pass follows deny over ask over allow and does
      not depend on rule order; more deny or ask rules never loosen an answer;
      a Bash allow is conjunctive over the commands of the script and covers
      every command node of its tree; the command gate rejects a script when a
      deny matches any command it runs, and is silent exactly when it saw all of
      it; following a symlink only escalates; narrow allows are sound.
    - [Wrappers], [Splitting], [Script]: an unflagged normalised argv hides
      nothing (and the bound under which that holds), decomposition loses no
      command, recovered scripts only read.
    - [ShellLaws], [Paths]: every path a script touches is checked against the
      deny rules, unpinned paths ask, protected edit targets are recognised,
      traversal cannot reach a rooted rule, the two path normalisers agree.
    - [Rules]: printing and parsing a rule is the identity; accepted text is
      never wider than written.
    - [Preflight]: a rule's ask binds, and the classifier can answer only what
      the policy left open.
    - [ExecRisk]: what an accepted read-only git query looks like, by a grammar of its
      own; a scan without risk has read the configuration every git command of the
      script runs under; the pins cover the commands of every driver.  The examples at
      the end show what both miss.
    - [BreakerLaws]: the window count is exact under every interleaving; alone,
      the breaker refines a sequential specification (a window as the young ones of the
      last samples, and when their failures trip it), keeps its invariant and
      always recovers; one interleaving of a trip loses the cool-down.
    - [Delivery]: every admitted delivery is owned exactly once, no message is returned
      for projection or as delivered more often than it was admitted, and the end of
      a turn routes exactly that turn's deliveries.
    - [ToolCallIds]: identifiers are distinct after repair and ingest, the
      repair is idempotent and results stay with their calls.
    - [UrlMatch], [ManagedLaws]: an allow pattern grants only what it names, a deny
      pattern never fails open, and no layer a user can write lifts what an
      administrator's layer restricts: servers, marketplaces and the three pins.
    - [HistoryLaws], [IntegrityLaws]: a repaired history is one a provider accepts
      (every call answered once, right behind it) and keeps everything else; the
      lighter repair of the running session answers every call.
    - [CompactionLaws], [Tags], [Tokens]: compaction and the fit to a budget keep
      results with their calls, the latest agent message survives exactly once,
      model-written text cannot forge compaction markup, the text loops terminate and
      the thresholds are exact in 64 bits.
    - [ChatStateLaws], [ChatTheorems], [RequestLaws]: over any sequence of commands
      identifiers stay distinct; disk follows memory but for failed writes and restored
      snapshots, from one full rewrite to the next; a captured turn is exactly what was
      pushed during it, but for the commands [keeps_turn] leaves out, of which a repair
      of the history keeps an initial part at most; a user message
      never lands on an open call; rewrites never raise the token total.
    - [EgressLaws], [EgressBudget]: nothing is resolved, connected to or sent upstream
      before it was let through, and only public addresses are; every connection is
      counted once and answered at most once; the hold budget is exact under every
      interleaving, aborted connections included.
    - [ProxyLaws], [ClientHello], [PublicIp]: a relayed request cannot smuggle headers
      or a second request; credentials stop working when they are replaced or revoked;
      a tunnel names the host it was let through for and no other, by a grammar of the
      hello that does not use the parser, however its bytes are cut; the
      address test is the table of special-purpose blocks.
    - [DiffLaws], [HunkLaws], [HunkInvariant], [HunkWrites], [HunkClaims]: in every
      state reached without [SetWorkingDir] and [RestoreState], whatever the disk answers,
      pending hunks are the diff of baseline and content and identified once, and they
      are listed under their turn until a write fails; acting on a file's hunks touches
      at most that file, and leads to the one side or the other for texts of complete
      lines ([settleable]); only rejections touch the disk; what a failed write
      leaves behind; the last event of a path decides; the line records balance.
      The runs at the end of [HunkClaims] show what the comments do not promise.
    - [PatchFormat], [PatchLaws], [PatchClaims]: a printed patch parses to what was
      printed; the search finds the first place of the strongest match; every chunk has
      a stretch of its file ([explains]), stretches that do not overlap are rewritten and
      nothing else ([rewrites_chunks]), and the derivation never panics; a call changes
      only files its patch names, and after a successful one each holds what the last
      hunk that names it says.  The runs at the end show what the tool's description
      does not promise.
    - [AnchorLaws], [HashlineLaws]: every line shown with an anchor is accepted as an
      anchor of that line; which anchors resolve, and to which line; what a stale anchor
      is answered with; anchors depend on lines up to white space, and validating one
      reads no more lines than the scheme declares.
    - [HashlineClaims], [HashlineToolClaims]: a batch of edits is all or nothing and
      rewrites exactly the lines its anchors name, whatever the order of the splices; an
      answer of the edit tool tells what was stored, where, and what it was made from, the
      refused write of a new file included; an anchored search
      result resolves to the line it shows.  The runs at the end show what the comments of
      the source do not promise.
    - [JournalLaws], [WorkflowLaws], [WorkflowBatch], [WorkflowTrace], [WorkflowClaims]: a run that is cut off at any
      byte of its journal is resumed to the outcome, the journal and the file of the run
      without the crash, batches cut in their middle included; what is recorded is never
      asked for again and no agent starts without a reservation, in any world and on any
      disk; the hash of a call does not depend on the order of members.  The last run
      shows why the host of [crash_resume] is asked to be [steady].
    - [RunTrackerLaws]: over any operations, a run's budget bounds the agents its script
      calls, but for what others take off its account; the next report names just the
      ended runs not told of since they were resumed; a status report is left out only when
      nothing changed; names and identifiers of runs stay distinct.  A run is answered
      from the tracker by [served], with any operations between its requests.
    - [Usage], [ImageBudget]: a ledger's total is the sum of its models; eviction
      takes the oldest images and nothing else.

    ** Interfaces and assumptions

    Code outside the repository is a class: [ShellParser] (tree-sitter's bash
    grammar), [PolicyEnv] (the [glob] and [url] crates, Unicode lower-casing and
    JSON values) and [FileSystem] (canonicalize, symlink metadata and read_link;
    [FileSystemLaws] states that they return absolute paths where the containment
    theorem needs it); [GitLib] is libgit2 with the configuration it reads.  In the chat state, [Payloads] and [Opaque] stand for the
    parts of items, configurations and tool definitions the code hands through,
    [JsonSizes] for the lengths [serde_json] produces, and [PersistedHistory] for
    what the persistence trait promises; the session file is an instance.  In the egress proxy [UrlEnv] is the [url]
    crate and [HttpEnv] the [httparse] and [base64] crates.  In the hunk tracker
    [DiffEnv] is the [similar] crate, [DiffSpec] its documented promise that a diff
    lists the lines of both texts, [World] what disk and repository answer during one
    command, and the random identifiers an injective sequence; paths are taken as
    written in one way.  In the patch tool [EditFs] says which accesses of the disk
    fail, [MemoryPolicy] is the policy of memory directories ([policy_stores]: it stores
    what it is given and changes nothing else but files of its own), and the files are a map
    by path as the patch spells it under the working directory; the tool call's
    identifier in a notification is left out.  In the anchor tools [LawfulScheme] is what
    the editor asks of a scheme, with an instance for each of the three, and [PathEnv]
    the look-up of paths (canonical paths, confusable names, suggestions, the home
    directory).  In the workflow engine [JsonText] is the text of entries and the hash
    function, with what is used of it in [JsonLaws] (an entry has one line that reads
    back, and no proper start of it is an entry), which an executable format at the end
    of [JournalLaws] meets; [CharTables] are the tables of Unicode; [DiskFaults] says which accesses of the
    journal's file fail, [SoundDisk] that none does; [Rhai] compiles a script and accepts
    its arguments.  Conversions between JSON and the script's own values are taken not
    to fail.  The home directory of protected targets and the platform's
    lowest [Instant] are arguments.  Text is its UTF-8 byte sequence; paths
    are those of Unix.  The breaker's atomics are taken as sequentially
    consistent.  File-system races between a check and a use are outside.

    ** Bounds and fuel

    Recursions that are not structural carry the bound the source has or one
    computed from the input: inline scripts 8 deep ([MAX_INLINE_SHELL_DEPTH]),
    wrappers and transparent prefixes 8 each and 16 normalisation rounds
    ([Wrappers]), 4096 nodes for recovered scripts ([MAX_NODES]), 40 symlink
    hops ([MAX_SYMLINK_DEPTH]).  Tree walks use the size of the tree, which
    [walk_covers] shows is enough to visit every node.  The search for a free
    tool-call identifier tries one more candidate than there are reserved ones;
    [mint_total] shows that it succeeds.
    The read loops of the proxy carry the byte bound of the source: each read adds a
    byte at least, so the bound is met before the fuel is spent.
    The loops of the patch parser carry the number of lines; each round takes one at
    least.  The loop that strips escapes off a path carries its length;
    each round takes two bytes.  Runs of workflows need no fuel: a script is a finite
    tree ([Script]), so the interpreter's bound on operations is left out.  The loops over model-written text carry their length ([text_loops_terminate]).  The window holds at most
    [MAX_WINDOW_ENTRIES] samples (10000 in the source, any positive number in
    the theorems).

    ** Not modelled

    Display strings, serialisation and logging; the command-line presentation
    helpers of [bash_command_splitting.rs] (primary command, soft breaks,
    heredoc ranges); settings resolution and folder trust; the breaker's
    registry and environment configuration; delivery addresses and envelopes;
    the byte layout of the session file and of the line records; the time stamps and
    the selection flag of hunks; the proxy's accept loop with its connection
    semaphore, its shutdown and its metrics; the reminders about tasks and subagents a
    compaction adds; the run of the anchored read tool, which shares images, notebooks
    and limits with the standard one, the search process behind anchored results, its
    time limit, and the benchmark of the anchors; the dry run of workflows
    ([validate.rs]) and the reading of their metadata ([meta.rs]), which walk the syntax
    trees of the script's interpreter, and the manager, the store and the rest of the
    service around a session's runs (child sessions, scratch files, templates).  The terminal interface, the session driver, the other tools, the
    sampler, the sandbox and telemetry are input and output around these parts and
    are left out. *)

From stdpp Require Export base option list numbers sets gmap strings sorting.
From Stdlib Require Export Ascii.
From Stdlib Require String.

(** ** Byte strings

    A Rust [str] is its UTF-8 byte sequence.  Every character the modelled
    code inspects is ASCII (or Unicode white space, treated in [RustStr]), so
    a byte-wise reading of the [char] loops of the source is exact. *)

Abbreviation bytes := (list ascii).

Declare Scope amore_scope.
Delimit Scope amore_scope with amore.
Open Scope amore_scope.

Notation "$ s" := (String.list_ascii_of_string s%string)
  (at level 1, s at level 0, only parsing) : amore_scope.

(** [a == b] on byte strings, the [==] of the source. *)
Definition beq (a b : bytes) : bool := bool_decide (a = b).

Notation "a =b b" := (beq a b) (at level 70, no associativity) : amore_scope.

(** Membership of a byte string in a table of literals
    ([TABLE.contains(&x)], [matches!(x, "a" | "b")]). *)
Definition mem (x : bytes) (l : list string) : bool :=
  existsb (fun s => x =b $s) l.

(** Rust's [Result]. *)
Inductive result (A E : Type) := Ok (a : A) | Err (e : E).
Arguments Ok {A E} a.
Arguments Err {A E} e.

(** Unsigned integers of 64 bits: [u64::MAX], [u64::saturating_add] and
    [u64::saturating_sub] (and [usize] on the platforms the program runs on). *)
Definition U64_MAX : N := 2 ^ 64 - 1.
Definition saturating_add (a b : N) : N := N.min (a + b) U64_MAX.
Definition saturating_sub (a b : N) : N := a - b.

(** [Vec::sort_by_key]: stable, ascending. *)
Section SortBy.
Context {A : Type} (key : A → nat).

Fixpoint insert_by (x : A) (l : list A) : list A :=
  match l with
  | [] => [x]
  | y :: r => if key y <=? key x then y :: insert_by x r else x :: l
  end.

Definition sort_by_key (l : list A) : list A := foldl (fun acc x => insert_by x acc) [] l.

Lemma insert_by_perm (x : A) (l : list A) : insert_by x l ≡ₚ x :: l.
Proof.
  induction l as [|y r IH]; [done|]. simpl. destruct (key y <=? key x); [|done].
  rewrite IH. apply Permutation_swap.
Qed.

Lemma sort_by_key_perm (l : list A) : sort_by_key l ≡ₚ l.
Proof.
  unfold sort_by_key. assert (∀ acc, foldl (fun acc x => insert_by x acc) acc l ≡ₚ acc ++ l) as H.
  { induction l as [|x r IH]; intros acc; simpl; [by rewrite app_nil_r|].
    rewrite IH, insert_by_perm. apply Permutation_middle. }
  apply (H []).
Qed.

Lemma insert_by_sorted (x : A) (l : list A) :
  StronglySorted (fun a b => key a <= key b) l → StronglySorted (fun a b => key a <= key b) (insert_by x l).
Proof.
  induction 1 as [|y l Hl IH Hy]; simpl; [by repeat constructor|].
  destruct (Nat.leb_spec (key y) (key x)).
  - constructor; [done|]. rewrite insert_by_perm. by constructor.
  - constructor; [by constructor|]. constructor; [lia|]. eapply Forall_impl; [exact Hy|]. simpl. lia.
Qed.

Lemma sort_by_key_sorted (l : list A) : StronglySorted (fun a b => key a <= key b) (sort_by_key l).
Proof.
  unfold sort_by_key.
  assert (∀ acc, StronglySorted (fun a b => key a <= key b) acc →
    StronglySorted (fun a b => key a <= key b) (foldl (fun acc x => insert_by x acc) acc l)) as Hg.
  { induction l as [|x r IH]; intros acc Hacc; [done|]. simpl. by apply IH, insert_by_sorted. }
  apply Hg. constructor.
Qed.

(** A sorted list stays as it is. *)
Lemma insert_by_last (x : A) (l : list A) : Forall (fun y => key y <= key x) l → insert_by x l = l ++ [x].
Proof. induction 1 as [|y l Hy _ IH]; simpl; [done|]. destruct (Nat.leb_spec (key y) (key x)); [by rewrite IH|lia]. Qed.

Lemma sort_by_key_fixed (l : list A) : StronglySorted (fun a b => key a <= key b) l → sort_by_key l = l.
Proof.
  intros Hs. unfold sort_by_key. assert (∀ acc, Forall (fun y => Forall (fun x => key y <= key x) l) acc →
    foldl (fun acc x => insert_by x acc) acc l = acc ++ l) as Hgo; [|by apply (Hgo [])].
  induction Hs as [|x l Hl IH Hx]; intros acc Ha; simpl; [by rewrite app_nil_r|].
  rewrite insert_by_last by (eapply Forall_impl; [exact Ha|]; by intros y Hy; inversion Hy).
  rewrite IH, <-app_assoc; [done|]. apply Forall_app. split; [|by apply Forall_singleton].
  eapply Forall_impl; [exact Ha|]. intros y Hy. by inversion Hy.
Qed.

Lemma sort_by_key_elem (x : A) (l : list A) : x ∈ sort_by_key l ↔ x ∈ l.
Proof. by rewrite sort_by_key_perm. Qed.

(** Sorting is stable: it commutes with leaving elements out. *)
Lemma filter_insert_by (f : A → bool) (x : A) (l : list A) :
  StronglySorted (fun a b => key a <= key b) l →
  List.filter f (insert_by x l) = if f x then insert_by x (List.filter f l) else List.filter f l.
Proof.
  induction 1 as [|y l Hl IH Hy]; [simpl; by destruct (f x)|]. cbn [insert_by]. destruct (Nat.leb_spec (key y) (key x)) as [Hle|Hlt].
  - cbn [List.filter]. rewrite IH. destruct (f y), (f x); cbn [insert_by]; try done. by rewrite (proj2 (Nat.leb_le _ _) Hle).
  - cbn [List.filter]. destruct (f x); [|done]. destruct (f y); cbn [insert_by]; [by rewrite (proj2 (Nat.leb_gt _ _) Hlt)|].
    clear IH. induction l as [|z l IHl]; [done|]. apply StronglySorted_inv in Hl as [Hl _]. apply Forall_cons in Hy as [Hz Hy].
    cbn [List.filter]. destruct (f z); [|by apply IHl]. cbn [insert_by]. by rewrite (proj2 (Nat.leb_gt (key z) (key x))) by lia.
Qed.

Lemma sort_by_key_filter (f : A → bool) (l : list A) : sort_by_key (List.filter f l) = List.filter f (sort_by_key l).
Proof.
  unfold sort_by_key. assert (∀ acc, StronglySorted (fun a b => key a <= key b) acc →
    foldl (fun acc x => insert_by x acc) (List.filter f acc) (List.filter f l) = List.filter f (foldl (fun acc x => insert_by x acc) acc l)) as Hgo;
    [|by apply (Hgo []); constructor].
  induction l as [|x l IH]; intros acc Ha; [done|]. cbn [List.filter foldl]. rewrite <-IH by by apply insert_by_sorted.
  rewrite filter_insert_by by done. by destruct (f x).
Qed.
End SortBy.

(** ** Automation *)

Create HintDb amore discriminated.

(** Split boolean connectives in hypotheses and goal. *)
Ltac bool_prop :=
  repeat match goal with
  | H : _ && _ = true |- _ => apply andb_true_iff in H; destruct H
  | H : _ || _ = false |- _ => apply orb_false_iff in H; destruct H
  | H : negb _ = true |- _ => apply negb_true_iff in H
  | H : negb _ = false |- _ => apply negb_false_iff in H
  | H : bool_decide _ = true |- _ => apply bool_decide_eq_true_1 in H
  | H : bool_decide _ = false |- _ => apply bool_decide_eq_false_1 in H
  | H : beq _ _ = true |- _ => apply bool_decide_eq_true_1 in H
  | H : beq _ _ = false |- _ => apply bool_decide_eq_false_1 in H
  | H : Nat.ltb _ _ = true |- _ => apply Nat.ltb_lt in H
  | H : Nat.ltb _ _ = false |- _ => apply Nat.ltb_ge in H
  | H : Nat.leb _ _ = true |- _ => apply Nat.leb_le in H
  | H : Nat.leb _ _ = false |- _ => apply Nat.leb_gt in H
  end.

(** Case analysis on the innermost scrutinee of the goal or of a hypothesis. *)
Ltac split_match :=
  match goal with
  | |- context [match ?x with _ => _ end] =>
      lazymatch x with context [match _ with _ => _ end] => fail | _ => destruct x eqn:? end
  | H : context [match ?x with _ => _ end] |- _ =>
      lazymatch x with context [match _ with _ => _ end] => fail | _ => destruct x eqn:? end
  end.

Ltac crush := repeat (split_match; simplify_eq/=; try done).

(** ** Generic lemmas *)

Lemma beq_true (a b : bytes) : (a =b b) = true ↔ a = b.
Proof. apply bool_decide_eq_true. Qed.

Lemma beq_false (a b : bytes) : (a =b b) = false ↔ a ≠ b.
Proof. apply bool_decide_eq_false. Qed.

Lemma beq_refl (a : bytes) : (a =b a) = true.
Proof. by apply beq_true. Qed.

Lemma mem_true (x : bytes) (l : list string) :
  mem x l = true ↔ ∃ s, s ∈ l ∧ x = $s.
Proof.
  unfold mem. rewrite existsb_exists.
  split; intros (s & Hin & Hx); exists s; rewrite list_elem_of_In in *;
    split; try done; by apply beq_true.
Qed.

(** A list is a suffix of another when some prefix completes it; every peel of
    the shell normaliser returns a suffix of its input. *)
Lemma suffix_length_eq {A} (l k : list A) :
  l `suffix_of` k → length l = length k → l = k.
Proof.
  intros [p ->] Hl. rewrite length_app in Hl.
  destruct p; [done | simpl in Hl; lia].
Qed.

Lemma suffix_drop {A} (n : nat) (l : list A) : drop n l `suffix_of` l.
Proof. exists (take n l). by rewrite take_drop. Qed.

Lemma suffix_as_drop {A} (l k : list A) :
  l `suffix_of` k → l = drop (length k - length l) k.
Proof.
  intros [p ->]. rewrite length_app.
  replace (length p + length l - length l) with (length p) by lia.
  by rewrite drop_app_length.
Qed.

Lemma sum_list_app (a b : list nat) : sum_list (a ++ b) = sum_list a + sum_list b.
Proof. induction a as [|y a IH]; simpl; [done|]. lia. Qed.

Lemma sum_map_reverse {A} (f : A → nat) (l : list A) :
  sum_list (map f (reverse l)) = sum_list (map f l).
Proof.
  induction l as [|x l IH]; [done|]. rewrite reverse_cons, map_app, sum_list_app. simpl. lia.
Qed.

(** A filter that every element passes. *)
Lemma filter_all {A} (p : A → bool) (l : list A) : (∀ x, x ∈ l → p x = true) → List.filter p l = l.
Proof. induction l as [|x l IH]; intros Hp; [done|]. simpl. rewrite Hp by left. rewrite IH; [done|]. set_solver. Qed.

(** A filter that no element passes. *)
Lemma filter_none {A} (f : A → bool) (l : list A) : (∀ x, x ∈ l → f x = false) → List.filter f l = [].
Proof.
  intros Hf. induction l as [|x l IH]; simpl; [done|]. rewrite (Hf x) by left. apply IH. intros y Hy. apply Hf. by right.
Qed.

#[export] Hint Resolve suffix_drop : amore.
