(* ===== verification/RustStr.v ===== *)
(** * The operations of Rust's [str] that the modelled code uses

    Strings are UTF-8 byte sequences ([bytes]).  Patterns the source passes to
    [find], [split], [replace], [starts_with] and the like are ASCII, for which
    the byte-wise definitions below agree with the [char]-wise ones of the
    standard library; Unicode white space ([trim], [char::is_whitespace]) is
    recognised by its UTF-8 encodings. *)

From S2P Require Import Prelude.

Definition code (a : ascii) : nat := nat_of_ascii a.

(** ** White space: the code points with the Unicode [White_Space] property,
    as one-, two- and three-byte sequences. *)

Definition ws1 (a : ascii) : bool :=
  let c := code a in (9 <=? c) && (c <=? 13) || (c =? 32).

Definition ws2 (a b : ascii) : bool :=
  (code a =? 194) && ((code b =? 133) || (code b =? 160)).

Definition ws3 (a b c : ascii) : bool :=
  let '(x, y, z) := (code a, code b, code c) in
  (x =? 225) && (y =? 154) && (z =? 128)
  || (x =? 226) && (y =? 128)
     && ((128 <=? z) && (z <=? 138) || (z =? 168) || (z =? 169) || (z =? 175))
  || (x =? 226) && (y =? 129) && (z =? 159)
  || (x =? 227) && (y =? 128) && (z =? 128).

Fixpoint trim_start (s : bytes) : bytes :=
  match s with
  | [] => []
  | a :: r =>
      if ws1 a then trim_start r else
      match r with
      | [] => s
      | b :: r2 =>
          if ws2 a b then trim_start r2 else
          match r2 with
          | [] => s
          | c :: r3 => if ws3 a b c then trim_start r3 else s
          end
      end
  end.

(** [trim_start] on the reversed string, encodings read backwards. *)
Fixpoint trim_start_rev (s : bytes) : bytes :=
  match s with
  | [] => []
  | a :: r =>
      if ws1 a then trim_start_rev r else
      match r with
      | [] => s
      | b :: r2 =>
          if ws2 b a then trim_start_rev r2 else
          match r2 with
          | [] => s
          | c :: r3 => if ws3 c b a then trim_start_rev r3 else s
          end
      end
  end.

Definition trim_end (s : bytes) : bytes := reverse (trim_start_rev (reverse s)).

Definition trim (s : bytes) : bytes := trim_end (trim_start s).

(** [s.contains(char::is_whitespace)] *)
Fixpoint contains_ws (s : bytes) : bool :=
  match s with
  | [] => false
  | a :: r =>
      ws1 a
      || match r with
         | b :: r2 => ws2 a b || match r2 with c :: _ => ws3 a b c | [] => false end
         | [] => false
         end
      || contains_ws r
  end.

(** ** Prefixes and suffixes *)

Fixpoint strip_prefix (p s : bytes) : option bytes :=
  match p, s with
  | [], _ => Some s
  | a :: p', b :: s' => if bool_decide (a = b) then strip_prefix p' s' else None
  | _ :: _, [] => None
  end.

Definition starts_with (p s : bytes) : bool := bool_decide (is_Some (strip_prefix p s)).

Definition strip_suffix (p s : bytes) : option bytes :=
  reverse <$> strip_prefix (reverse p) (reverse s).

Definition ends_with (p s : bytes) : bool := bool_decide (is_Some (strip_suffix p s)).

(** ** Searching and splitting *)

Definition contains_byte (c : ascii) (s : bytes) : bool := existsb (fun a => bool_decide (a = c)) s.

(** [s.contains(['x', 'y'])] *)
Definition contains_any (cs : bytes) (s : bytes) : bool := existsb (fun a => contains_byte a cs) s.

(** [s.contains(pat)] for a non-empty literal *)
Fixpoint contains_str (p s : bytes) : bool :=
  starts_with p s || match s with [] => false | _ :: r => contains_str p r end.

(** [s.find(c)]: index of the first occurrence *)
Fixpoint find_byte (c : ascii) (s : bytes) : option nat :=
  match s with
  | [] => None
  | a :: r => if bool_decide (a = c) then Some 0 else S <$> find_byte c r
  end.

(** [s.split(c)]: at least one piece, the empty one for the empty string *)
Fixpoint split_on (c : ascii) (s : bytes) : list bytes :=
  match s with
  | [] => [[]]
  | a :: r =>
      if bool_decide (a = c) then [] :: split_on c r
      else match split_on c r with
           | [] => [[a]]
           | w :: ws => (a :: w) :: ws
           end
  end.

(** [s.split_once(c)] *)
Fixpoint split_once (c : ascii) (s : bytes) : option (bytes * bytes) :=
  match s with
  | [] => None
  | a :: r => if bool_decide (a = c) then Some ([], r)
              else '(x, y) ← split_once c r; Some (a :: x, y)
  end.

(** [s.split_once(p)] for a literal pattern *)
Fixpoint split_once_str (p s : bytes) : option (bytes * bytes) :=
  match strip_prefix p s with
  | Some r => Some ([], r)
  | None => match s with
            | [] => None
            | a :: r => '(x, y) ← split_once_str p r; Some (a :: x, y)
            end
  end.

(** [s.rsplit_once(c)] and [s.rsplit(c).next()] *)
Definition rsplit_once (c : ascii) (s : bytes) : option (bytes * bytes) :=
  '(x, y) ← split_once c (reverse s); Some (reverse y, reverse x).

Definition after_last (c : ascii) (s : bytes) : bytes :=
  match rsplit_once c s with Some (_, y) => y | None => s end.

Definition slash : ascii := "/"%char.
Definition backslash : ascii := "\"%char.

Definition is_path_sep (a : ascii) : bool := bool_decide (a = slash) || bool_decide (a = backslash).

(** [s.rsplit(['/', '\\']).next()]: the piece after the last separator; [rsplit]
    always yields a first piece, so the source's [unwrap_or] is never taken. *)
Fixpoint after_last_sep (s : bytes) : bytes :=
  match s with
  | [] => []
  | a :: r => if existsb is_path_sep r then after_last_sep r
              else if is_path_sep a then r else s
  end.

(** [s.replace(p, rep)], [p] non-empty: left to right, non-overlapping *)
Fixpoint replace_go (p rep : bytes) (skip : nat) (s : bytes) : bytes :=
  match s with
  | [] => []
  | a :: r =>
      match skip with
      | S k => replace_go p rep k r
      | 0 => if starts_with p s then rep ++ replace_go p rep (pred (length p)) r
             else a :: replace_go p rep 0 r
      end
  end.

Definition replace (p rep s : bytes) : bytes := replace_go p rep 0 s.

(** [words.join(sep)] *)
Fixpoint join (sep : bytes) (l : list bytes) : bytes :=
  match l with
  | [] => []
  | [x] => x
  | x :: r => x ++ sep ++ join sep r
  end.

(** [s.trim_end_matches(c)] and [s.trim_matches([..])] *)
Fixpoint trim_start_any (cs : bytes) (s : bytes) : bytes :=
  match s with
  | a :: r => if contains_byte a cs then trim_start_any cs r else s
  | [] => []
  end.

Definition trim_end_any (cs : bytes) (s : bytes) : bytes :=
  reverse (trim_start_any cs (reverse s)).

Definition trim_matches_any (cs : bytes) (s : bytes) : bytes :=
  trim_end_any cs (trim_start_any cs s).

(** ** Characters *)

(** [u8::is_ascii_whitespace]: space, tab, line feed, form feed, carriage return. *)
Definition is_ascii_whitespace (a : ascii) : bool :=
  (code a =? 32) || (code a =? 9) || (code a =? 10) || (code a =? 12) || (code a =? 13).

Definition is_ascii_digit (a : ascii) : bool := (48 <=? code a) && (code a <=? 57).
Definition is_ascii_lower (a : ascii) : bool := (97 <=? code a) && (code a <=? 122).
Definition is_ascii_upper (a : ascii) : bool := (65 <=? code a) && (code a <=? 90).
Definition is_ascii_alphabetic (a : ascii) : bool := is_ascii_lower a || is_ascii_upper a.
Definition is_ascii_alphanumeric (a : ascii) : bool := is_ascii_alphabetic a || is_ascii_digit a.

Definition ascii_lower (a : ascii) : ascii :=
  if is_ascii_upper a then ascii_of_nat (code a + 32) else a.

Definition ascii_upper (a : ascii) : ascii :=
  if is_ascii_lower a then ascii_of_nat (code a - 32) else a.

Definition to_ascii_lowercase (s : bytes) : bytes := map ascii_lower s.

Definition eq_ignore_ascii_case (a b : bytes) : bool := to_ascii_lowercase a =b to_ascii_lowercase b.

(** The order of strings: byte by byte. *)
Fixpoint bytes_leb (a b : bytes) : bool :=
  match a, b with
  | [], _ => true
  | _ :: _, [] => false
  | x :: a, y :: b => (code x <? code y) || ((code x =? code y) && bytes_leb a b)
  end.

(** [str::parse] to an unsigned integer below the given bound: an optional plus
    sign, at least one digit, no overflow. *)
Fixpoint parse_digits (bound : N) (acc : N) (s : bytes) : option N :=
  match s with
  | [] => Some acc
  | a :: r =>
      if is_ascii_digit a then
        let acc := (acc * 10 + N.of_nat (code a - 48))%N in
        if (acc <? bound)%N then parse_digits bound acc r else None
      else None
  end.

Definition parse_unsigned (bound : N) (s : bytes) : option N :=
  let digits := default s (strip_prefix $"+" s) in
  if digits =b [] then None else parse_digits bound 0 digits.

Definition parse_u16 (s : bytes) : option N := parse_unsigned 65536 s.

(** ** Slicing: [s.get(..n)], [s.get(n..)], [None] off a character boundary *)

Definition is_continuation (a : ascii) : bool := (128 <=? code a) && (code a <=? 191).

Definition is_char_boundary (s : bytes) (n : nat) : bool :=
  match s !! n with
  | Some a => (n =? 0) || negb (is_continuation a)
  | None => n =? length s
  end.

(** [while end > 0 && !s.is_char_boundary(end) { end -= 1 }] *)
Fixpoint floor_char_boundary (s : bytes) (e : nat) : nat :=
  match e with
  | O => O
  | S e' => if is_char_boundary s e then e else floor_char_boundary s e'
  end.

Definition get_to (n : nat) (s : bytes) : option bytes :=
  if is_char_boundary s n then Some (take n s) else None.

Definition get_from (n : nat) (s : bytes) : option bytes :=
  if is_char_boundary s n then Some (drop n s) else None.

(** [s.get(a..b)] *)
Definition get_range (a b : nat) (s : bytes) : option bytes :=
  if (a <=? b) && is_char_boundary s a && is_char_boundary s b
  then Some (take (b - a) (drop a s)) else None.

(** ** UTF-8 *)

(** [str::from_utf8] *)

Definition between (lo hi : nat) (a : ascii) : bool := (lo <=? code a) && (code a <=? hi).

Fixpoint is_utf8 (s : bytes) : bool :=
  match s with
  | [] => true
  | a :: r =>
      if code a <? 128 then is_utf8 r
      else if between 194 223 a then
        match r with b :: r => is_continuation b && is_utf8 r | _ => false end
      else if between 224 239 a then
        match r with
        | b :: c :: r =>
            (if code a =? 224 then between 160 191 b else if code a =? 237 then between 128 159 b else is_continuation b)
            && is_continuation c && is_utf8 r
        | _ => false
        end
      else if between 240 244 a then
        match r with
        | b :: c :: d :: r =>
            (if code a =? 240 then between 144 191 b else if code a =? 244 then between 128 143 b else is_continuation b)
            && is_continuation c && is_continuation d && is_utf8 r
        | _ => false
        end
      else false
  end.

(** [String::from_utf8_lossy]: every maximal invalid part becomes U+FFFD. *)
Definition REPLACEMENT : bytes := map ascii_of_nat [239; 191; 189].

(** The second byte a lead byte of three or four bytes allows. *)
Definition second_of_3 (a b : ascii) : bool :=
  if code a =? 224 then between 160 191 b else if code a =? 237 then between 128 159 b else is_continuation b.
Definition second_of_4 (a b : ascii) : bool :=
  if code a =? 240 then between 144 191 b else if code a =? 244 then between 128 143 b else is_continuation b.

Fixpoint from_utf8_lossy (s : bytes) : bytes :=
  match s with
  | [] => []
  | a :: r =>
      let bad (_ : unit) := REPLACEMENT ++ from_utf8_lossy r in
      if code a <? 128 then a :: from_utf8_lossy r
      else if between 194 223 a then
        match r with
        | b :: r' => if is_continuation b then a :: b :: from_utf8_lossy r' else bad tt
        | [] => bad tt
        end
      else if between 224 239 a then
        match r with
        | b :: r' =>
            if second_of_3 a b then
              match r' with
              | c :: r'' => if is_continuation c then a :: b :: c :: from_utf8_lossy r'' else REPLACEMENT ++ from_utf8_lossy r'
              | [] => REPLACEMENT
              end
            else bad tt
        | [] => bad tt
        end
      else if between 240 244 a then
        match r with
        | b :: r' =>
            if second_of_4 a b then
              match r' with
              | c :: r'' =>
                  if is_continuation c then
                    match r'' with
                    | d :: r3 => if is_continuation d then a :: b :: c :: d :: from_utf8_lossy r3 else REPLACEMENT ++ from_utf8_lossy r''
                    | [] => REPLACEMENT
                    end
                  else REPLACEMENT ++ from_utf8_lossy r'
              | [] => REPLACEMENT
              end
            else bad tt
        | [] => bad tt
        end
      else bad tt
  end.

(** ** Lemmas *)

Lemma strip_prefix_Some (p s r : bytes) : strip_prefix p s = Some r ↔ s = p ++ r.
Proof.
  revert s. induction p as [|a p IH]; intros s.
  { simpl. naive_solver. }
  destruct s as [|b s]; simpl; [clear IH; naive_solver|].
  case_bool_decide; [subst; rewrite IH; clear IH; naive_solver | clear IH; naive_solver].
Qed.

Lemma starts_with_true (p s : bytes) : starts_with p s = true ↔ p `prefix_of` s.
Proof.
  unfold starts_with. rewrite bool_decide_eq_true. split.
  - intros [r Hr]. exists r. by apply strip_prefix_Some.
  - intros [r ->]. exists r. by apply strip_prefix_Some.
Qed.

Lemma starts_with_nil (s : bytes) : starts_with [] s = true.
Proof. apply bool_decide_eq_true. by eexists. Qed.

Lemma starts_with_cons (a b : ascii) (p s : bytes) :
  starts_with (a :: p) (b :: s) = bool_decide (a = b) && starts_with p s.
Proof.
  unfold starts_with. simpl. destruct (decide (a = b)) as [H|H].
  - by rewrite (bool_decide_eq_true_2 (a = b)).
  - rewrite (bool_decide_eq_false_2 (a = b)) by done.
    apply bool_decide_eq_false. by intros [? ?].
Qed.

Lemma starts_with_cons_nil (a : ascii) (p : bytes) : starts_with (a :: p) [] = false.
Proof. apply bool_decide_eq_false. by intros [? ?]. Qed.

Lemma starts_with_app (p r : bytes) : starts_with p (p ++ r) = true.
Proof. apply starts_with_true. by exists r. Qed.

Lemma split_once_first (c : ascii) (x y : bytes) : c ∉ x → split_once c (x ++ c :: y) = Some (x, y).
Proof.
  intros Hx. induction x as [|a x IH]; cbn [app split_once]; [by rewrite bool_decide_eq_true_2|].
  apply not_elem_of_cons in Hx as [Ha Hx]. rewrite bool_decide_eq_false_2 by done. by rewrite IH.
Qed.

Lemma split_once_absent (c : ascii) (x : bytes) : c ∉ x → split_once c x = None.
Proof.
  intros Hx. induction x as [|a x IH]; cbn [split_once]; [done|].
  apply not_elem_of_cons in Hx as [Ha Hx]. rewrite bool_decide_eq_false_2 by done. by rewrite IH.
Qed.

Lemma split_once_Some (c : ascii) (s x y : bytes) : split_once c s = Some (x, y) → s = x ++ c :: y ∧ c ∉ x.
Proof.
  revert x. induction s as [|a s IH]; intros x; [done|]. cbn [split_once]. case_bool_decide as Ha.
  - intros [= <- <-]. subst a. split; [done|by apply not_elem_of_nil].
  - intros ([x' y'] & E & [= <- <-])%bind_Some. destruct (IH _ E) as [-> Hx].
    split; [done|]. apply not_elem_of_cons. done.
Qed.

Lemma strip_suffix_Some (p s r : bytes) : strip_suffix p s = Some r ↔ s = r ++ p.
Proof.
  unfold strip_suffix. rewrite fmap_Some. split.
  - intros (q & Hq & ->). apply strip_prefix_Some in Hq.
    rewrite <-(reverse_involutive s), Hq, reverse_app, reverse_involutive. done.
  - intros ->. exists (reverse r). rewrite reverse_involutive. split; [|done].
    apply strip_prefix_Some. by rewrite reverse_app.
Qed.

Lemma ends_with_true (p s : bytes) : ends_with p s = true ↔ p `suffix_of` s.
Proof.
  unfold ends_with. rewrite bool_decide_eq_true. split.
  - intros [r Hr]. exists r. by apply strip_suffix_Some.
  - intros [r ->]. exists r. by apply strip_suffix_Some.
Qed.

Lemma contains_byte_true (c : ascii) (s : bytes) : contains_byte c s = true ↔ c ∈ s.
Proof.
  unfold contains_byte. rewrite existsb_exists. split.
  - intros (a & Hin & ->%bool_decide_eq_true_1). by apply list_elem_of_In.
  - intros Hin. exists c. split; [by apply list_elem_of_In | by apply bool_decide_eq_true].
Qed.

Lemma contains_byte_false (c : ascii) (s : bytes) : contains_byte c s = false ↔ c ∉ s.
Proof. rewrite <-contains_byte_true. destruct (contains_byte c s); naive_solver. Qed.

Lemma trim_start_suffix (s : bytes) : trim_start s `suffix_of` s.
Proof.
  induction s as [s IH] using (induction_ltof1 _ (@length ascii)); unfold ltof in IH.
  destruct s as [|a r]; [done|]. simpl.
  destruct (ws1 a); [by apply suffix_cons_r, IH; simpl; lia|].
  destruct r as [|b r2]; [done|].
  destruct (ws2 a b); [by do 2 apply suffix_cons_r; apply IH; simpl; lia|].
  destruct r2 as [|c r3]; [done|].
  destruct (ws3 a b c); [by do 3 apply suffix_cons_r; apply IH; simpl; lia | done].
Qed.

Lemma trim_start_idem (s : bytes) : trim_start (trim_start s) = trim_start s.
Proof.
  induction s as [s IH] using (induction_ltof1 _ (@length ascii)); unfold ltof in IH.
  destruct s as [|a r]; [done|]. simpl.
  destruct (ws1 a) eqn:E1; [apply IH; simpl; lia|].
  destruct r as [|b r2]; [simpl; by rewrite E1|].
  destruct (ws2 a b) eqn:E2; [apply IH; simpl; lia|].
  destruct r2 as [|c r3]; [simpl; by rewrite E1, E2|].
  destruct (ws3 a b c) eqn:E3; [apply IH; simpl; lia|].
  simpl. by rewrite E1, E2, E3.
Qed.

Lemma split_on_nonempty (c : ascii) (s : bytes) : split_on c s ≠ [].
Proof. destruct s as [|a r]; simpl; [done|]. case_bool_decide; [done|]. by destruct (split_on c r). Qed.

Lemma join_split_on (c : ascii) (s : bytes) : join [c] (split_on c s) = s.
Proof.
  induction s as [|a r IH]; [done|]. simpl.
  pose proof (split_on_nonempty c r) as Hne.
  case_bool_decide as Ha; destruct (split_on c r) as [|w ws] eqn:E; try done.
  - subst a. by rewrite <-IH.
  - destruct ws; simpl in *; by rewrite <-IH.
Qed.

Lemma split_on_no_sep (c : ascii) (s w : bytes) : w ∈ split_on c s → c ∉ w.
Proof.
  revert w. induction s as [|a r IH]; intros w; simpl.
  - intros ->%list_elem_of_singleton. apply not_elem_of_nil.
  - case_bool_decide as Ha.
    + intros [->|Hw]%elem_of_cons; [apply not_elem_of_nil | by apply IH].
    + destruct (split_on c r) as [|v vs]; simpl in *.
      * intros ->%list_elem_of_singleton. intros Hc%list_elem_of_singleton. congruence.
      * intros [->|Hw]%elem_of_cons.
        -- intros [?|Hc]%elem_of_cons; [congruence|]. by apply (IH v); [left|].
        -- apply IH. by right.
Qed.

Lemma split_on_app_sep (c : ascii) (w s : bytes) :
  c ∉ w → split_on c (w ++ c :: s) = w :: split_on c s.
Proof.
  induction w as [|a w IH]; intros Hw; simpl.
  - by rewrite bool_decide_eq_true_2.
  - rewrite bool_decide_eq_false_2 by set_solver. rewrite IH by set_solver. done.
Qed.

Lemma split_on_none (c : ascii) (w : bytes) : c ∉ w → split_on c w = [w].
Proof.
  induction w as [|a w IH]; intros Hw; simpl; [done|].
  rewrite bool_decide_eq_false_2 by set_solver. by rewrite IH by set_solver.
Qed.

Lemma split_join (c : ascii) (l : list bytes) :
  l ≠ [] → Forall (fun w => c ∉ w) l → split_on c (join [c] l) = l.
Proof.
  intros Hne Hf. induction Hf as [|w l Hw Hf IH]; [done|]. destruct l as [|v l]; simpl.
  - by apply split_on_none.
  - rewrite split_on_app_sep by done. simpl in IH. by rewrite IH.
Qed.

Lemma split_on_snoc (c : ascii) (s : bytes) : split_on c (s ++ [c]) = split_on c s ++ [[]].
Proof.
  induction s as [|a s IH]; simpl; [by rewrite bool_decide_eq_true_2|].
  rewrite IH. case_bool_decide; [done|]. pose proof (split_on_nonempty c s).
  by destruct (split_on c s).
Qed.

#[export] Hint Resolve trim_start_suffix split_on_nonempty starts_with_app : amore.

(** ** When trimming is the identity *)

(** White space at the front of a string, and at the back of a reversed one. *)
Definition head_ws (s : bytes) : bool :=
  match s with
  | [] => false
  | a :: r => ws1 a || match r with
      | [] => false
      | b :: r2 => ws2 a b || match r2 with [] => false | c :: _ => ws3 a b c end
      end
  end.

Definition head_ws_rev (s : bytes) : bool :=
  match s with
  | [] => false
  | a :: r => ws1 a || match r with
      | [] => false
      | b :: r2 => ws2 b a || match r2 with [] => false | c :: _ => ws3 c b a end
      end
  end.

Lemma trim_start_fix (s : bytes) : trim_start s = s ↔ head_ws s = false.
Proof.
  destruct s as [|a r]; [done|]. simpl.
  destruct (ws1 a); simpl.
  { split; [|done]. intros H. pose proof (suffix_length _ _ (trim_start_suffix r)) as Hl.
    rewrite H in Hl. simpl in Hl. lia. }
  destruct r as [|b r2]; [done|]. destruct (ws2 a b); simpl.
  { split; [|done]. intros H. pose proof (suffix_length _ _ (trim_start_suffix r2)) as Hl.
    rewrite H in Hl. simpl in Hl. lia. }
  destruct r2 as [|c r3]; [done|]. destruct (ws3 a b c); [|done].
  split; [|done]. intros H. pose proof (suffix_length _ _ (trim_start_suffix r3)) as Hl.
  rewrite H in Hl. simpl in Hl. lia.
Qed.

Lemma trim_start_rev_suffix (s : bytes) : trim_start_rev s `suffix_of` s.
Proof.
  induction s as [s IH] using (induction_ltof1 _ (@length ascii)); unfold ltof in IH.
  destruct s as [|a r]; [done|]. simpl.
  destruct (ws1 a); [by apply suffix_cons_r, IH; simpl; lia|].
  destruct r as [|b r2]; [done|].
  destruct (ws2 b a); [by do 2 apply suffix_cons_r; apply IH; simpl; lia|].
  destruct r2 as [|c r3]; [done|].
  destruct (ws3 c b a); [by do 3 apply suffix_cons_r; apply IH; simpl; lia | done].
Qed.

Lemma trim_start_rev_fix (s : bytes) : trim_start_rev s = s ↔ head_ws_rev s = false.
Proof.
  destruct s as [|a r]; [done|]. simpl.
  destruct (ws1 a); simpl.
  { split; [|done]. intros H. pose proof (suffix_length _ _ (trim_start_rev_suffix r)) as Hl.
    rewrite H in Hl. simpl in Hl. lia. }
  destruct r as [|b r2]; [done|]. destruct (ws2 b a); simpl.
  { split; [|done]. intros H. pose proof (suffix_length _ _ (trim_start_rev_suffix r2)) as Hl.
    rewrite H in Hl. simpl in Hl. lia. }
  destruct r2 as [|c r3]; [done|]. destruct (ws3 c b a); [|done].
  split; [|done]. intros H. pose proof (suffix_length _ _ (trim_start_rev_suffix r3)) as Hl.
  rewrite H in Hl. simpl in Hl. lia.
Qed.

(** A string is trimmed exactly when neither end is white space. *)
Lemma trim_fix (s : bytes) :
  trim s = s ↔ head_ws s = false ∧ head_ws_rev (reverse s) = false.
Proof.
  unfold trim, trim_end. rewrite <-trim_start_fix, <-trim_start_rev_fix. split.
  - intros H.
    assert (Hs : trim_start s = s).
    { apply suffix_length_eq; [apply trim_start_suffix|].
      apply Nat.le_antisymm; [apply suffix_length, trim_start_suffix|].
      rewrite <-H at 1. rewrite length_reverse.
      etrans; [apply suffix_length, trim_start_rev_suffix|]. by rewrite length_reverse. }
    split; [done|]. rewrite Hs in H. by rewrite <-H at 2; rewrite reverse_involutive.
  - intros [-> ->]. apply reverse_involutive.
Qed.

(** An ASCII byte that is not white space protects its end of the string. *)
Definition plain (a : ascii) : bool := negb (ws1 a) && (code a <? 128).

Lemma ws2_ascii (a b : ascii) : code a < 128 ∨ code b < 128 → ws2 a b = false.
Proof.
  unfold ws2. intros H. destruct (Nat.eqb_spec (code a) 194), (Nat.eqb_spec (code b) 133),
    (Nat.eqb_spec (code b) 160); simpl; try done; lia.
Qed.

Lemma ws3_ascii (a b c : ascii) :
  code a < 128 ∨ code b < 128 ∨ code c < 128 → ws3 a b c = false.
Proof.
  intros H. destruct (ws3 a b c) eqn:E; [exfalso|done]. unfold ws3 in E.
  rewrite !orb_true_iff, !andb_true_iff, !orb_true_iff, !andb_true_iff,
    !Nat.eqb_eq, !Nat.leb_le in E. lia.
Qed.

Lemma head_ws_plain (a : ascii) (r : bytes) : plain a = true → head_ws (a :: r) = false.
Proof.
  unfold plain. intros Hp. bool_prop. simpl. rewrite H. simpl.
  destruct r as [|b r2]; [done|]. rewrite ws2_ascii by lia. simpl.
  destruct r2; [done|]. by apply ws3_ascii; left.
Qed.

Lemma head_ws_rev_plain (a : ascii) (r : bytes) : plain a = true → head_ws_rev (a :: r) = false.
Proof.
  unfold plain. intros Hp. bool_prop. simpl. rewrite H. simpl.
  destruct r as [|b r2]; [done|]. rewrite ws2_ascii by lia. simpl.
  destruct r2; [done|]. by apply ws3_ascii; right; right.
Qed.

Lemma trim_plain_ends (a b : ascii) (s : bytes) :
  plain a = true → plain b = true → trim (a :: s ++ [b]) = a :: s ++ [b].
Proof.
  intros Ha Hb. apply trim_fix. split; [by apply head_ws_plain|].
  rewrite app_comm_cons, reverse_app. by apply head_ws_rev_plain.
Qed.

Lemma trim_plain (s : bytes) : Forall (fun a => plain a = true) s → trim s = s.
Proof.
  intros H. apply trim_fix. split.
  - destruct H; [done|]. by apply head_ws_plain.
  - apply Forall_reverse in H. destruct (reverse s); [done|].
    apply head_ws_rev_plain. by inversion H.
Qed.

Lemma trim_start_rev_stops (s : bytes) (a : ascii) : plain a = true → trim_start_rev (s ++ [a]) ≠ [].
Proof.
  intros Ha. pose proof Ha as Hp. unfold plain in Hp. apply andb_true_iff in Hp as [Hw%negb_true_iff Hc%Nat.ltb_lt].
  induction s as [s IH] using (induction_ltof1 _ (@length ascii)); unfold ltof in IH.
  destruct s as [|x [|y [|z s]]]; cbn [app trim_start_rev].
  - by rewrite Hw.
  - destruct (ws1 x); [by rewrite Hw|]. by rewrite ws2_ascii by auto.
  - destruct (ws1 x); [apply (IH [y]); simpl; lia|]. destruct (ws2 y x); [by rewrite Hw|]. by rewrite ws3_ascii by auto.
  - destruct (ws1 x); [apply (IH (y :: z :: s)); simpl; lia|]. destruct (ws2 y x); [apply (IH (z :: s)); simpl; lia|].
    destruct (ws3 z y x); [apply (IH s); simpl; lia|done].
Qed.

(** What starts with such a byte is not all white space. *)
Lemma trim_nonempty (a : ascii) (s : bytes) : plain a = true → trim (a :: s) ≠ [].
Proof.
  intros Ha E. unfold trim in E. rewrite (proj2 (trim_start_fix (a :: s))) in E by (by apply head_ws_plain).
  unfold trim_end in E. apply (f_equal reverse) in E. rewrite reverse_involutive, reverse_cons in E. by apply trim_start_rev_stops in E.
Qed.

(** Searching the indices of a string. *)
Lemma find_seq_first (f : nat → bool) (k n : nat) :
  (∀ i, i < k → f i = false) → f k = true → k < n → find f (seq 0 n) = Some k.
Proof.
  intros Hlo Hk Hn. replace n with (k + S (n - S k)) by lia. rewrite seq_app.
  assert (Hf : ∀ m, m ≤ k → find f (seq (k - m) m ++ seq k (S (n - S k))) = Some k).
  { induction m as [|m IHm]; intros Hm; [simpl; by rewrite Hk|].
    simpl. rewrite Hlo by lia. replace (S (k - S m)) with (k - m) by lia. apply IHm. lia. }
  specialize (Hf k). rewrite Nat.sub_diag in Hf. by apply Hf.
Qed.

(** ** UTF-8 *)

(** Valid text is kept. *)
Lemma from_utf8_lossy_valid (s : bytes) : is_utf8 s = true → from_utf8_lossy s = s.
Proof.
  induction s as [s IH] using (induction_ltof1 _ (@length ascii)); unfold ltof in IH.
  destruct s as [|a r]; [done|]. cbn [is_utf8 from_utf8_lossy]. unfold second_of_3, second_of_4.
  destruct (code a <? 128); [intros H; by rewrite IH by (simpl; lia || done)|].
  destruct (between 194 223 a).
  { destruct r as [|b r]; [done|]. intros [-> H]%andb_true_iff. by rewrite IH by (simpl; lia || done). }
  destruct (between 224 239 a).
  { destruct r as [|b [|c r]]; [done..|]. intros [[-> ->]%andb_true_iff H]%andb_true_iff. by rewrite IH by (simpl; lia || done). }
  destruct (between 240 244 a); [|done].
  destruct r as [|b [|c [|d r]]]; [done..|]. intros [[[-> ->]%andb_true_iff ->]%andb_true_iff H]%andb_true_iff.
  by rewrite IH by (simpl; lia || done).
Qed.

(** ** The order of strings *)

Lemma bytes_leb_total (a b : bytes) : bytes_leb a b = true ∨ bytes_leb b a = true.
Proof.
  revert b. induction a as [|x a IH]; intros [|y b]; cbn [bytes_leb]; [by left..|by right|].
  destruct (Nat.lt_trichotomy (code x) (code y)) as [H|[H|H]].
  - left. apply orb_true_iff. left. by apply Nat.ltb_lt.
  - rewrite H, Nat.ltb_irrefl, Nat.eqb_refl. cbn [orb andb]. apply IH.
  - right. apply orb_true_iff. left. by apply Nat.ltb_lt.
Qed.

Lemma bytes_leb_trans (a b c : bytes) : bytes_leb a b = true → bytes_leb b c = true → bytes_leb a c = true.
Proof.
  revert b c. induction a as [|x a IH]; intros [|y b] [|z c]; cbn [bytes_leb]; try done.
  rewrite !orb_true_iff, !andb_true_iff, !Nat.ltb_lt, !Nat.eqb_eq. intros [H|[H1 H2]] [H'|[H1' H2']]; [left; lia..|].
  right. split; [congruence|by eapply IH].
Qed.

Lemma bytes_leb_antisym (a b : bytes) : bytes_leb a b = true → bytes_leb b a = true → a = b.
Proof.
  revert b. induction a as [|x a IH]; intros [|y b]; cbn [bytes_leb]; try done.
  rewrite !orb_true_iff, !andb_true_iff, !Nat.ltb_lt, !Nat.eqb_eq. intros [H|[H1 H2]] [H'|[H1' H2']]; try lia.
  f_equal; [|by apply IH]. unfold code in H1. rewrite <-(ascii_nat_embedding x), <-(ascii_nat_embedding y). by rewrite H1.
Qed.
