(* ===== verification/PolicyTypes.v ===== *)
(** * Data of the permission engine

    [crates/codegen/xai-grok-permission-rules/src/types.rs]: the accesses a
    tool call asks for, the rules of a policy and the decisions it returns. *)

From S2P Require Import Prelude.

(** [AccessKind]: what a tool call wants to do.  [J] stands for
    [serde_json::Value], which the engine carries and never inspects. *)
Inductive AccessKind {J : Type} :=
| Access_Read (path : option bytes)
| Access_Grep (path : option bytes) (glob : option bytes)
| Access_Edit (path : bytes)
| Access_Bash (cmd : bytes)
| Access_MCPTool (name : bytes) (input : J)
| Access_WebFetch (url : bytes)
| Access_WebSearch (query : bytes)
| Access_AgentMessage (subagent_id : bytes)
| Access_Tool (name : bytes).
Arguments AccessKind J : clear implicits.

Inductive Decision :=
| Decision_Allow
| Decision_Ask
| Decision_FollowupMessage (msg : bytes)
| Decision_Reject (reason : bytes)
| Decision_PolicyDeny (reason : bytes)
| Decision_Cancelled.

Inductive PromptPolicy := Prompt_Ask | Prompt_Deny | Prompt_Auto | Prompt_Allow.

Inductive PatternMode := Mode_Glob | Mode_Domain.

Inductive RuleAction := Rule_Allow | Rule_Deny | Rule_Ask.

Inductive ToolFilter :=
| Filter_Any
| Filter_Bash
| Filter_Edit
| Filter_Read
| Filter_Grep
| Filter_Mcp
| Filter_WebFetch
| Filter_WebSearch
| Filter_AgentMessage.

Record PermissionRule := mkRule {
  rule_action : RuleAction;
  rule_tool : ToolFilter;
  rule_pattern : option bytes;
  rule_mode : PatternMode;
}.

Record PermissionConfig := mkConfig {
  rules : list PermissionRule;
  prompt_policy : PromptPolicy;
  default_mode_configured : bool;
}.

(** [PermissionConfig::new] *)
Definition PermissionConfig_new (rs : list PermissionRule) : PermissionConfig :=
  mkConfig rs Prompt_Ask false.

#[export] Instance RuleAction_eq_dec : EqDecision RuleAction.
Proof. solve_decision. Defined.

#[export] Instance ToolFilter_eq_dec : EqDecision ToolFilter.
Proof. solve_decision. Defined.

#[export] Instance PatternMode_eq_dec : EqDecision PatternMode.
Proof. solve_decision. Defined.

#[export] Instance PermissionRule_eq_dec : EqDecision PermissionRule.
Proof. solve_decision. Defined.

#[export] Instance Decision_eq_dec : EqDecision Decision.
Proof. solve_decision. Defined.

(** [matches!(action, RuleAction::Deny | RuleAction::Ask)] *)
Definition restricts (a : RuleAction) : bool :=
  match a with Rule_Deny | Rule_Ask => true | Rule_Allow => false end.
