(* ===== verification/Rules.v ===== *)
(** * Permission rule strings

    [crates/codegen/xai-grok-permission-rules/src/rules.rs]: the parser of
    settings rules (a tool name with an optional pattern in parentheses, or an
    [mcp__server] name) and of the default modes.  The main theorems are a round trip (a printed rule,
    with its content escaped, parses to exactly the rule meant) and soundness
    of what the parser accepts. *)

From S2P Require Import Prelude RustStr PolicyTypes.

(** ** Default modes *)

Inductive DefaultPermissionMode :=
| DefaultMode_Default
| DefaultMode_AcceptEdits
| DefaultMode_Plan
| DefaultMode_Auto
| DefaultMode_DontAsk
| DefaultMode_BypassPermissions.

(** [DefaultPermissionMode::from_str] *)
Definition DefaultPermissionMode_from_str (s : bytes) : result DefaultPermissionMode bytes :=
  if s =b $"default" then Ok DefaultMode_Default
  else if s =b $"acceptEdits" then Ok DefaultMode_AcceptEdits
  else if s =b $"plan" then Ok DefaultMode_Plan
  else if s =b $"auto" then Ok DefaultMode_Auto
  else if s =b $"dontAsk" then Ok DefaultMode_DontAsk
  else if s =b $"bypassPermissions" then Ok DefaultMode_BypassPermissions
  else Err s.

Record DefaultModeEffects := mkEffects {
  eff_prompt_policy : PromptPolicy;
  eff_accept_edits : bool;
  eff_bypass_permissions : bool;
}.

(** [DefaultPermissionMode::effects] *)
Definition DefaultPermissionMode_effects (m : DefaultPermissionMode) : DefaultModeEffects :=
  match m with
  | DefaultMode_AcceptEdits => mkEffects Prompt_Ask true false
  | DefaultMode_BypassPermissions => mkEffects Prompt_Ask false true
  | DefaultMode_Default | DefaultMode_Plan => mkEffects Prompt_Ask false false
  | DefaultMode_DontAsk => mkEffects Prompt_Deny false false
  | DefaultMode_Auto => mkEffects Prompt_Auto false false
  end.

(** ** The rule parser *)

Inductive RuleParseError :=
| UnsupportedToolPrefix (prefix : bytes)
| UnknownToolPrefix (prefix : bytes)
| MalformedRule (detail : bytes).

Definition tool_name_to_filter (name : bytes) : option ToolFilter :=
  if name =b $"Bash" then Some Filter_Bash
  else if name =b $"Read" then Some Filter_Read
  else if mem name ["Edit"; "Write"]%string then Some Filter_Edit
  else if name =b $"MCPTool" then Some Filter_Mcp
  else if mem name ["Grep"; "Glob"]%string then Some Filter_Grep
  else if name =b $"WebFetch" then Some Filter_WebFetch
  else if name =b $"WebSearch" then Some Filter_WebSearch
  else if mem name ["AgentMessage"; "SendSubagentMessage"; "SendAgentMessage"]%string
  then Some Filter_AgentMessage
  else None.

(** The backslash count of [is_unescaped]'s loop, walking left from [pos]. *)
Fixpoint backslashes_before (bs : bytes) (pos : nat) : nat :=
  match pos with
  | 0 => 0
  | S j => if bool_decide (bs !! j = Some backslash) then S (backslashes_before bs j) else 0
  end.

Definition is_unescaped (bs : bytes) (pos : nat) : bool :=
  Nat.even (backslashes_before bs pos).

Definition unescaped_at (bs : bytes) (target : ascii) (i : nat) : bool :=
  bool_decide (bs !! i = Some target) && is_unescaped bs i.

Definition find_first_unescaped (s : bytes) (target : ascii) : option nat :=
  find (unescaped_at s target) (seq 0 (length s)).

Definition find_last_unescaped (s : bytes) (target : ascii) : option nat :=
  find (unescaped_at s target) (reverse (seq 0 (length s))).

Definition unescape_rule_content (s : bytes) : bytes :=
  if negb (contains_byte backslash s) then s
  else replace [backslash; backslash] [backslash]
         (replace $"\)" $")" (replace $"\(" $"(" s)).

Definition strip_domain_prefix (pattern : bytes) : bytes * PatternMode :=
  match strip_prefix $"domain:" pattern with
  | Some domain => (domain, Mode_Domain)
  | None => (pattern, Mode_Glob)
  end.

Definition strip_bash_colon_wildcard (pattern : bytes) : bytes :=
  match strip_suffix $":*" pattern with
  | Some prefix => prefix
  | None => pattern
  end.

Definition unsupported_tools : list string := ["EnterWorktree"; "NotebookEdit"; "NotebookRead"]%string.

Definition none_if_empty (s : bytes) : option bytes :=
  match s with [] => None | _ => Some s end.

Definition parse_permission_rule (rule : bytes) (action : RuleAction)
  : result PermissionRule RuleParseError :=
  let rule := trim rule in
  match find_first_unescaped rule "("%char with
  | Some open_paren =>
      match get_to open_paren rule with
      | None => Err (MalformedRule $"missing opening parenthesis")
      | Some prefix =>
      let prefix_trimmed := trim prefix in
      match get_from (open_paren + 1) rule with
      | None => Err (MalformedRule $"missing closing parenthesis")
      | Some content_and_close =>
      match find_last_unescaped content_and_close ")"%char with
      | None => Err (MalformedRule $"missing closing parenthesis")
      | Some close_paren =>
      match get_to close_paren content_and_close with
      | None => Err (MalformedRule $"missing closing parenthesis")
      | Some raw_content =>
      let raw_content := trim raw_content in
      let pattern := if (raw_content =b []) || (raw_content =b $"*") then []
                     else unescape_rule_content raw_content in
      match tool_name_to_filter prefix_trimmed with
      | None =>
          if mem prefix_trimmed unsupported_tools
          then Err (UnsupportedToolPrefix prefix_trimmed)
          else Err (UnknownToolPrefix prefix_trimmed)
      | Some tool =>
      let pattern := if bool_decide (tool = Filter_Bash)
                     then strip_bash_colon_wildcard pattern else pattern in
      let '(pattern, pattern_mode) := strip_domain_prefix pattern in
      Ok (mkRule action tool (none_if_empty pattern) pattern_mode)
      end end end end end
  | None =>
      if mem rule unsupported_tools then Err (UnsupportedToolPrefix rule) else
      match tool_name_to_filter rule with
      | Some tool => Ok (mkRule action tool None Mode_Glob)
      | None =>
      match strip_prefix $"mcp__" rule with
      | Some (c :: rest') =>
          let rest := c :: rest' in
          let pattern := if rest =b $"*" then None
                         else if contains_str $"__" rest then Some rest
                         else Some (rest ++ $"__*") in
          Ok (mkRule action Filter_Mcp pattern Mode_Glob)
      | _ => Ok (mkRule action Filter_Any (none_if_empty rule) Mode_Glob)
      end
      end
  end.

Example parse_mcp_server :
  parse_permission_rule $"mcp__github" Rule_Deny
  = Ok (mkRule Rule_Deny Filter_Mcp (Some $"github__*") Mode_Glob).
Proof. vm_compute. reflexivity. Qed.

Example parse_bash_colon :
  parse_permission_rule $" Bash( git push:* ) " Rule_Ask
  = Ok (mkRule Rule_Ask Filter_Bash (Some $"git push") Mode_Glob).
Proof. vm_compute. reflexivity. Qed.

(** ** Escaping, and the round trip

    [unescape_rule_content] undoes an escaping that prefixes every backslash
    and parenthesis with a backslash; this is that escaping. *)

Definition needs_escape (a : ascii) : bool := contains_byte a $"\()".

Fixpoint escape_with (p : ascii → bool) (s : bytes) : bytes :=
  match s with
  | [] => []
  | a :: r => if p a then backslash :: a :: escape_with p r else a :: escape_with p r
  end.

Definition escape_rule_content : bytes → bytes := escape_with needs_escape.

Definition except (p : ascii → bool) (x : ascii) : ascii → bool :=
  fun a => p a && negb (bool_decide (a = x)).

(** Removing one escaped character removes it from the escaped set. *)
Lemma replace_escape (p : ascii → bool) (x : ascii) (s : bytes) :
  p backslash = true → p x = true → x ≠ backslash →
  replace [backslash; x] [x] (escape_with p s) = escape_with (except p x) s.
Proof.
  intros Hb Hx Hne. unfold replace, except.
  assert (Hhd : ∀ r, bool_decide (head (escape_with p r) = Some x) = false).
  { intros [|a r]; [done|]. simpl. apply bool_decide_eq_false.
    destruct (p a) eqn:E; simpl; congruence. }
  induction s as [|a r IH]; [done|]. simpl. specialize (Hhd r).
  destruct (p a) eqn:E; simpl; rewrite ?starts_with_cons.
  - destruct (decide (a = x)) as [->|Hax]; simpl.
    + rewrite !bool_decide_eq_true_2, starts_with_nil by done. simpl. by rewrite IH.
    + rewrite (bool_decide_eq_false_2 (x = a)), (bool_decide_eq_false_2 (a = x)) by done.
      simpl. f_equal.
      assert (starts_with [x] (escape_with p r) = false) as Hsw.
      { destruct (escape_with p r); [apply starts_with_cons_nil|]. simpl in Hhd.
        rewrite starts_with_cons, starts_with_nil, andb_true_r.
        apply bool_decide_eq_false in Hhd. apply bool_decide_eq_false. congruence. }
      rewrite Hsw, andb_false_r, IH. done.
  - rewrite (bool_decide_eq_false_2 (backslash = a)) by congruence. simpl. by rewrite IH.
Qed.

Lemma unescape_last (s : bytes) :
  replace [backslash; backslash] [backslash]
    (escape_with (fun a => bool_decide (a = backslash)) s) = s.
Proof.
  unfold replace. induction s as [|a r IH]; [done|]. simpl.
  case_bool_decide as Ha; simpl; rewrite !starts_with_cons.
  - subst a. rewrite !bool_decide_eq_true_2, starts_with_nil by done. simpl. by rewrite IH.
  - rewrite bool_decide_eq_false_2 by done. simpl. by rewrite IH.
Qed.

Lemma escape_with_ext (p q : ascii → bool) (s : bytes) :
  (∀ a, p a = q a) → escape_with p s = escape_with q s.
Proof. intros H. induction s as [|a r IH]; [done|]. simpl. by rewrite H, IH. Qed.

Lemma escape_none (p : ascii → bool) (s : bytes) :
  contains_byte backslash (escape_with p s) = false → escape_with p s = s.
Proof.
  induction s as [|a r IH]; [done|]. simpl. destruct (p a); simpl; [done|].
  intros [_ H]%orb_false_iff. by rewrite IH.
Qed.

Lemma unescape_escape (s : bytes) : unescape_rule_content (escape_rule_content s) = s.
Proof.
  unfold unescape_rule_content. destruct (contains_byte _ _) eqn:E; simpl.
  - unfold escape_rule_content.
    rewrite (replace_escape needs_escape "("%char), (replace_escape _ ")"%char) by done.
    rewrite <-(unescape_last s) at 2. f_equal. apply escape_with_ext. intros a.
    unfold except, needs_escape, contains_byte. simpl.
    destruct (decide (a = backslash)) as [->|?]; [done|].
    repeat case_bool_decide; naive_solver.
  - by apply escape_none.
Qed.

Lemma escape_app (p : ascii → bool) (s t : bytes) :
  escape_with p (s ++ t) = escape_with p s ++ escape_with p t.
Proof. induction s as [|a r IH]; [done|]. simpl. destruct (p a); simpl; by rewrite IH. Qed.

Lemma backslashes_before_app (s t : bytes) (n : nat) :
  n ≤ length s → backslashes_before (s ++ t) n = backslashes_before s n.
Proof.
  induction n as [|n IH]; intros Hn; [done|]. simpl.
  rewrite lookup_app_l by lia. by rewrite IH by lia.
Qed.

(** The text after an escaped string is never itself escaped. *)
Lemma escape_even (s t : bytes) :
  is_unescaped (escape_rule_content s ++ t) (length (escape_rule_content s)) = true.
Proof.
  unfold is_unescaped. rewrite backslashes_before_app by done.
  unfold escape_rule_content. induction s as [|a s IH] using rev_ind; [done|].
  rewrite escape_app. simpl. destruct (needs_escape a) eqn:E.
  - rewrite length_app. replace (length _ + length [backslash; a])
      with (S (S (length (escape_with needs_escape s)))) by (simpl; lia).
    cbn [backslashes_before].
    rewrite lookup_app_r by lia. replace (S _ - _) with 1 by lia. simpl.
    rewrite lookup_app_r by lia. rewrite Nat.sub_diag. simpl.
    case_bool_decide; [|done]. by rewrite backslashes_before_app.
  - rewrite length_app. replace (length _ + length [a])
      with (S (length (escape_with needs_escape s))) by (simpl; lia).
    cbn [backslashes_before]. rewrite lookup_app_r, Nat.sub_diag by lia. simpl.
    rewrite bool_decide_eq_false_2; [done|]. intros [= ->]. done.
Qed.

Lemma needs_escape_cases (a : ascii) :
  needs_escape a = true → a = backslash ∨ a = "("%char ∨ a = ")"%char.
Proof. unfold needs_escape. rewrite contains_byte_true. simpl. rewrite !elem_of_cons, elem_of_nil. tauto. Qed.

(** Escaping keeps both ends of a trimmed string. *)
Lemma head_ws_escape (s : bytes) :
  head_ws s = false → head_ws (escape_rule_content s) = false.
Proof.
  unfold escape_rule_content. destruct s as [|a [|b r]]; simpl; [done|..]; intros H.
  - destruct (needs_escape a); [by apply head_ws_plain|done].
  - destruct (needs_escape a); [by apply head_ws_plain|].
    apply orb_false_iff in H as [Ha H0]. simpl. rewrite Ha. simpl.
    destruct (needs_escape b) eqn:Eb; simpl.
    { rewrite ws2_ascii by (right; vm_compute; lia). simpl. apply ws3_ascii.
      right; left; vm_compute; lia. }
    apply orb_false_iff in H0 as [-> H0]. simpl. destruct r as [|c r]; simpl; [done|].
    destruct (needs_escape c); [|done]. apply ws3_ascii. right; right; vm_compute; lia.
Qed.

Lemma escape_code (a : ascii) : needs_escape a = true → code a < 128.
Proof. intros [->|[->| ->]]%needs_escape_cases; vm_compute; lia. Qed.

Lemma reverse_escape (a : ascii) (s : bytes) :
  reverse (escape_rule_content (s ++ [a]))
  = a :: (if needs_escape a then [backslash] else []) ++ reverse (escape_rule_content s).
Proof.
  unfold escape_rule_content. rewrite escape_app, reverse_app. simpl.
  by destruct (needs_escape a).
Qed.

Lemma head_ws_rev_escape (s : bytes) :
  head_ws_rev (reverse s) = false → head_ws_rev (reverse (escape_rule_content s)) = false.
Proof.
  destruct s as [|a s _] using rev_ind; [done|].
  rewrite reverse_escape, reverse_app. destruct (needs_escape a) eqn:Ea.
  { intros _. apply head_ws_rev_plain.
    by apply needs_escape_cases in Ea as [->|[->| ->]]. }
  simpl. intros [Ha H]%orb_false_iff. rewrite Ha. simpl.
  destruct s as [|b s _] using rev_ind; [done|].
  rewrite reverse_escape. rewrite reverse_app in H. simpl in H |- *.
  apply orb_false_iff in H as [Hb H]. rewrite Hb. simpl.
  destruct (needs_escape b) eqn:Eb; simpl.
  { apply ws3_ascii. apply escape_code in Eb. tauto. }
  destruct s as [|c s _] using rev_ind; [done|].
  rewrite reverse_escape. by rewrite reverse_app in H.
Qed.

(** The first byte of a UTF-8 string is not a continuation byte. *)
Definition utf8_start (s : bytes) : bool :=
  match s with [] => true | a :: _ => negb (is_continuation a) end.

Lemma tool_names (name : bytes) (f : ToolFilter) :
  tool_name_to_filter name = Some f →
  Forall (fun a => is_ascii_alphabetic a = true) name ∧ name ≠ [].
Proof.
  unfold tool_name_to_filter. intros H.
  repeat match type of H with
  | (if ?b then _ else _) = _ => destruct b eqn:?
  end; simplify_eq;
  match goal with
  | E : (name =b _) = true |- _ => apply beq_true in E as ->
  | E : mem name _ = true |- _ => apply mem_true in E as (x & Hx & ->)
  end;
  repeat match goal with
  | Hx : _ ∈ _ :: _ |- _ => apply elem_of_cons in Hx as [->|Hx]
  | Hx : _ ∈ [] |- _ => by apply elem_of_nil in Hx
  end;
  (split; [|done]); repeat constructor.
Qed.

Lemma alphabetic_plain (a : ascii) :
  is_ascii_alphabetic a = true →
  plain a = true ∧ a ≠ "("%char ∧ a ≠ backslash ∧ is_continuation a = false.
Proof.
  unfold is_ascii_alphabetic, is_ascii_lower, is_ascii_upper, plain, ws1, is_continuation.
  intros H.
  assert (65 ≤ code a ≤ 90 ∨ 97 ≤ code a ≤ 122) as Hc.
  { rewrite orb_true_iff, !andb_true_iff, !Nat.leb_le in H. lia. }
  repeat split.
  - apply andb_true_iff. rewrite negb_true_iff, Nat.ltb_lt. split; [|lia].
    apply orb_false_iff. rewrite andb_false_iff, Nat.leb_gt, Nat.eqb_neq, Nat.leb_gt. lia.
  - intros ->. vm_compute in Hc. lia.
  - intros ->. vm_compute in Hc. lia.
  - apply andb_false_iff. rewrite !Nat.leb_gt. lia.
Qed.

Lemma Forall_alphabetic_plain (s : bytes) :
  Forall (fun a => is_ascii_alphabetic a = true) s → Forall (fun a => plain a = true) s.
Proof. intros H. eapply Forall_impl; [done|]. intros a Ha. by apply alphabetic_plain. Qed.

(** The opening parenthesis of [name ( body] is the first unescaped one. *)
Lemma find_first_open (name body : bytes) :
  Forall (fun a => is_ascii_alphabetic a = true) name →
  find_first_unescaped (name ++ $"(" ++ body) "("%char = Some (length name).
Proof.
  intros Hn. unfold find_first_unescaped. apply find_seq_first.
  - intros i Hi. unfold unescaped_at. apply andb_false_iff. left.
    apply bool_decide_eq_false. rewrite lookup_app_l by done. intros Hl.
    rewrite Forall_lookup in Hn. by apply Hn, alphabetic_plain in Hl as (_ & ? & _).
  - unfold unescaped_at. rewrite lookup_app_r, Nat.sub_diag by done. simpl.
    unfold is_unescaped. rewrite backslashes_before_app by done.
    destruct name as [|a name _] using rev_ind; [done|].
    rewrite length_app, Nat.add_comm. simpl.
    rewrite lookup_app_r, Nat.sub_diag by done. simpl.
    rewrite bool_decide_eq_false_2; [done|]. intros [= ->].
    apply Forall_app in Hn as [_ Hn]. inversion Hn. done.
  - rewrite !length_app. simpl. lia.
Qed.

Lemma find_last_close (s : bytes) :
  find_last_unescaped (escape_rule_content s ++ $")") ")"%char
  = Some (length (escape_rule_content s)).
Proof.
  unfold find_last_unescaped. rewrite length_app, Nat.add_comm. cbn [plus length String.list_ascii_of_string].
  rewrite seq_S, reverse_app. simpl. unfold unescaped_at.
  rewrite lookup_app_r, Nat.sub_diag by done. simpl. by rewrite escape_even.
Qed.

(** The rule a printed tool name and content stand for. *)
Definition rule_of_content (action : RuleAction) (tool : ToolFilter) (c : bytes) : PermissionRule :=
  let '(pattern, mode) :=
    strip_domain_prefix (if bool_decide (tool = Filter_Bash) then strip_bash_colon_wildcard c else c) in
  mkRule action tool (none_if_empty pattern) mode.

Lemma escape_start (s : bytes) (t : bytes) :
  utf8_start s = true → utf8_start t = true → utf8_start (escape_rule_content s ++ t) = true.
Proof.
  unfold escape_rule_content. destruct s as [|a s]; simpl; [done|].
  destruct (needs_escape a) eqn:E; done.
Qed.

Lemma escape_eq_star (s : bytes) : escape_rule_content s = $"*" → s = $"*".
Proof.
  intros H. rewrite <-(unescape_escape s), H. vm_compute. reflexivity.
Qed.

Lemma get_from_app (s t : bytes) : utf8_start t = true → get_from (length s) (s ++ t) = Some t.
Proof.
  intros Ht. unfold get_from, is_char_boundary.
  rewrite lookup_app_r, Nat.sub_diag by done. rewrite drop_app_length.
  destruct t as [|a t]; simpl in *.
  - rewrite length_app. simpl. by rewrite Nat.add_0_r, Nat.eqb_refl.
  - by rewrite Ht, orb_true_r.
Qed.

Lemma get_to_app (s t : bytes) : utf8_start t = true → get_to (length s) (s ++ t) = Some s.
Proof.
  intros Ht. pose proof (get_from_app s t Ht) as H. unfold get_from, get_to in *.
  destruct (is_char_boundary _ _); [|done]. by rewrite take_app_length.
Qed.

Lemma trim_escape (s : bytes) : trim s = s → trim (escape_rule_content s) = escape_rule_content s.
Proof.
  rewrite !trim_fix. intros [H1 H2].
  split; [by apply head_ws_escape | by apply head_ws_rev_escape].
Qed.

Lemma trim_printed (name body : bytes) :
  Forall (fun a => is_ascii_alphabetic a = true) name → name ≠ [] →
  trim (name ++ $"(" ++ body ++ $")") = name ++ $"(" ++ body ++ $")".
Proof.
  intros Hn Hne. destruct name as [|a name]; [done|].
  inversion Hn as [|? ? Ha _]; subst.
  rewrite (app_assoc $"("), (app_assoc (a :: name)).
  apply trim_plain_ends; [by apply alphabetic_plain | done].
Qed.

(** Rule text round-trips: printing a tool name and a content, with parentheses
    and backslashes escaped, and parsing the result gives back the rule for
    that content, for every supported tool name and every trimmed content. *)
Theorem parse_printed (name : bytes) (f : ToolFilter) (action : RuleAction) (c : bytes) :
  tool_name_to_filter name = Some f → trim c = c → c ≠ [] → c ≠ $"*" → utf8_start c = true →
  parse_permission_rule (name ++ $"(" ++ escape_rule_content c ++ $")") action
  = Ok (rule_of_content action f c).
Proof.
  intros Hf Htrim Hne Hstar Hutf. destruct (tool_names _ _ Hf) as [Hal Hnn].
  unfold parse_permission_rule. rewrite trim_printed, find_first_open by done.
  rewrite get_to_app by done.
  rewrite (trim_plain name) by by apply Forall_alphabetic_plain.
  rewrite app_assoc. replace (length name + 1) with (length (name ++ $"("))
    by (rewrite length_app; done).
  rewrite get_from_app by by apply escape_start.
  rewrite find_last_close, get_to_app by done. rewrite trim_escape by done.
  rewrite !(proj2 (beq_false _ _)); simpl.
  - rewrite Hf, unescape_escape. unfold rule_of_content. by destruct (strip_domain_prefix _).
  - by intros ?%escape_eq_star.
  - unfold escape_rule_content. destruct c as [|a c]; [done|]. simpl. by destruct (needs_escape a).
Qed.

(** What an accepted rule looks like: the action is the caller's, a stored
    pattern is never empty, and a rule for every tool arises only from text
    with no unescaped parenthesis, whose pattern is that text verbatim. *)
Definition parsed_ok (text : bytes) (action : RuleAction) (r : PermissionRule) : Prop :=
  rule_action r = action ∧ rule_pattern r ≠ Some [] ∧
  (rule_tool r = Filter_Any →
     find_first_unescaped (trim text) "("%char = None
     ∧ rule_pattern r = none_if_empty (trim text) ∧ rule_mode r = Mode_Glob).

Lemma none_if_empty_ne (s : bytes) : none_if_empty s ≠ Some [].
Proof. by destruct s. Qed.

Lemma tool_filter_not_any (name : bytes) : tool_name_to_filter name ≠ Some Filter_Any.
Proof. unfold tool_name_to_filter. by repeat case_match. Qed.

(** Whatever text is accepted, the rule carries the caller's action, never an
    empty pattern, and reaches every tool only when the text names no tool. *)
Theorem parse_sound (text : bytes) (action : RuleAction) (r : PermissionRule) :
  parse_permission_rule text action = Ok r → parsed_ok text action r.
Proof.
  unfold parse_permission_rule, parsed_ok. intros H. cbv zeta in H.
  pose proof none_if_empty_ne as Hne.
  repeat (case_match; simplify_eq/=; try done); (split_and!; [done|try done; try apply Hne|]);
    try (intros ->; by edestruct tool_filter_not_any); try done.
Qed.

Lemma parse_printed_witness :
  parse_permission_rule $"Bash(echo \(hi\) \\ x)" Rule_Deny
  = Ok (mkRule Rule_Deny Filter_Bash (Some $"echo (hi) \ x") Mode_Glob).
Proof.
  exact (parse_printed $"Bash" Filter_Bash Rule_Deny $"echo (hi) \ x"
    eq_refl eq_refl ltac:(discriminate) ltac:(discriminate) eq_refl).
Defined.

Lemma parse_sound_witness : parsed_ok $"Read(src/**)" Rule_Allow (mkRule Rule_Allow Filter_Read (Some $"src/**") Mode_Glob).
Proof. apply parse_sound. vm_compute. reflexivity. Defined.
