(* ===== verification/Wrappers.v ===== *)
(** * Peeling command wrappers

    The argv normaliser of
    [crates/codegen/xai-grok-permission-rules/src/bash_command_splitting.rs]:
    [env] option scanning, the canonical wrappers ([timeout], [nice], [ionice],
    [chrt], [stdbuf], [env]), the transparent prefixes ([exec], [command],
    [builtin]) and their bounded alternation [normalize_command_words].
    A Rust slice [&[String]] of the argv is the list of its words; an index
    loop over the argv is a recursion over the words that are left, carrying
    the index. *)

From S2P Require Import Prelude RustStr.

Definition dash : bytes := $"-".
Definition ddash : bytes := $"--".

Definition dquote : ascii := ascii_of_nat 34.
Definition squote : ascii := "'"%char.
Definition nul : ascii := ascii_of_nat 0.
Definition newline : ascii := ascii_of_nat 10.
Definition carriage : ascii := ascii_of_nat 13.

(** ** [env] *)

Definition is_env_assignment (tok : bytes) : bool :=
  match find_byte "="%char tok with
  | None => false
  | Some eq =>
      match get_to eq tok with
      | None => false
      | Some name =>
          negb (name =b [])
          && match name with b :: _ => is_ascii_alphabetic b || bool_decide (b = "_"%char) | [] => false end
          && forallb (fun b => is_ascii_alphanumeric b || bool_decide (b = "_"%char)) name
      end
  end.

Record EnvScan := mkEnvScan {
  es_chdir : option bytes;
  es_has_split_string : bool;
  es_options_uncertain : bool;
  es_split_string_script : option bytes;
  es_command_start : nat;
}.

(** The characters a double-quoted backslash folds: dollar, backquote, double
    quote, backslash and newline. *)
Definition dquote_folds (n : ascii) : bool :=
  contains_byte n ["$"%char; "`"%char; dquote; backslash; newline].

Fixpoint decode_literal_go (quote : option ascii) (raw : bytes) : option bytes :=
  match raw with
  | [] => match quote with None => Some [] | Some _ => None end
  | ch :: r =>
      match quote with
      | None =>
          if bool_decide (ch = squote) || bool_decide (ch = dquote)
          then decode_literal_go (Some ch) r
          else if bool_decide (ch = backslash) then
            match r with
            | [] => None
            | n :: r' => cons n <$> decode_literal_go None r'
            end
          else cons ch <$> decode_literal_go None r
      | Some open =>
          if bool_decide (open = ch) then decode_literal_go None r
          else if bool_decide (open = dquote) && bool_decide (ch = backslash) then
            match r with
            | [] => None
            | n :: r' =>
                if dquote_folds n then cons n <$> decode_literal_go quote r'
                else (fun out => backslash :: n :: out) <$> decode_literal_go quote r'
            end
          else cons ch <$> decode_literal_go quote r
      end
  end.

Definition decode_shell_literal_spelling (raw : bytes) : option bytes :=
  decode_literal_go None raw.

Definition decode_env_option_token (raw : bytes) : bytes :=
  if negb (contains_any [squote; dquote] raw) then raw
  else match decode_shell_literal_spelling raw with
       | Some decoded => decoded
       | None => raw
       end.

Definition is_high_confidence_env_s_payload (s : bytes) : bool :=
  negb (s =b []) && negb (contains_byte nul s)
  && negb (contains_any [squote; dquote; backslash; "#"%char; "`"%char; "$"%char; newline; carriage] s).

Definition take_high_confidence_payload (raw : bytes) : option bytes :=
  if is_high_confidence_env_s_payload raw then Some raw else None.

Inductive EnvShort :=
| SplitStringNext
| SplitStringGlued (payload : bytes)
| SplitStringDetect
| NoArg
| ArgNeedNext (kind : ascii)
| ArgGlued (kind : ascii)
| Uncertain.

(** The [while idx < chars.len()] loop of [classify_env_short]. *)
Fixpoint classify_cluster (chars : bytes) : EnvShort :=
  match chars with
  | [] => NoArg
  | c :: r =>
      if contains_byte c $"iv0" then classify_cluster r
      else if bool_decide (c = "S"%char) then SplitStringDetect
      else if contains_byte c $"uCPa" then match r with _ :: _ => ArgGlued c | [] => ArgNeedNext c end
      else Uncertain
  end.

Definition classify_env_short (tok : bytes) : EnvShort :=
  if negb (starts_with dash tok) || starts_with ddash tok || (tok =b dash) then Uncertain
  else match get_from 1 tok with
       | None => Uncertain
       | Some body =>
           if body =b [] then Uncertain
           else match strip_prefix $"S" body with
                | Some rest => if rest =b [] then SplitStringNext else SplitStringGlued rest
                | None => classify_cluster body
                end
       end.

Definition env_long_with_operand : list string := ["--unset"; "--path"; "--argv0"]%string.
Definition env_long_flags : list string :=
  ["--ignore-environment"; "--null"; "--debug"; "--version"; "--help"]%string.

(** The [while let Some(tok_raw) = cmd.get(i)] loop of [env_scan]; [i] is the
    index of the first word of [ws]. *)
Fixpoint env_scan_go (ws : list bytes) (i : nat) (chdir : option bytes) : EnvScan :=
  let stop := mkEnvScan chdir false false None in
  let uncertain := mkEnvScan chdir false true None in
  let split script := mkEnvScan chdir true false script in
  match ws with
  | [] => stop i
  | tok :: r =>
      if tok =b ddash then stop (i + 1)
      else if tok =b dash then env_scan_go r (i + 1) chdir
      else if negb (starts_with dash tok) then
        if is_env_assignment tok then env_scan_go r (i + 1) chdir else stop i
      else if starts_with ddash tok then
        if tok =b $"--chdir" then
          match r with
          | dir :: r' => env_scan_go r' (i + 2) (Some dir)
          | [] => uncertain i
          end
        else match strip_prefix $"--chdir=" tok with
        | Some dir => env_scan_go r (i + 1) (Some dir)
        | None =>
        if mem tok env_long_with_operand then
          match r with
          | _ :: r' => env_scan_go r' (i + 2) chdir
          | [] => uncertain i
          end
        else if starts_with $"--unset=" tok || starts_with $"--path=" tok || starts_with $"--argv0=" tok
        then env_scan_go r (i + 1) chdir
        else if mem tok env_long_flags then env_scan_go r (i + 1) chdir
        else if tok =b $"--split-string" then
          split (match r with raw :: _ => take_high_confidence_payload raw | [] => None end) i
        else match strip_prefix $"--split-string=" tok with
        | Some payload =>
            let payload := default payload
              (strip_prefix $"--split-string=" (decode_env_option_token tok)) in
            split (take_high_confidence_payload payload) i
        | None => uncertain i
        end end
      else match classify_env_short (decode_env_option_token tok) with
      | SplitStringNext =>
          split (match r with raw :: _ => take_high_confidence_payload raw | [] => None end) i
      | SplitStringGlued payload => split (take_high_confidence_payload payload) i
      | SplitStringDetect => split None i
      | NoArg => env_scan_go r (i + 1) chdir
      | ArgNeedNext kind =>
          match r with
          | operand :: r' =>
              env_scan_go r' (i + 2) (if bool_decide (kind = "C"%char) then Some operand else chdir)
          | [] => uncertain i
          end
      | ArgGlued kind =>
          env_scan_go r (i + 1)
            (if bool_decide (kind = "C"%char)
             then Some (default [] (strip_prefix $"-C" tok)) else chdir)
      | Uncertain => uncertain i
      end
  end.

Definition env_scan (cmd : list bytes) : EnvScan := env_scan_go (drop 1 cmd) 1 None.

Definition env_split_string_script (words : list bytes) : option bytes :=
  match words with
  | [] => None
  | w :: _ =>
      if negb (after_last_sep w =b $"env") then None
      else let scan := env_scan words in
           if negb (es_has_split_string scan) then None else es_split_string_script scan
  end.

(** ** Canonical wrappers *)

(** [while cmd.get(i).is_some_and(|t| t.starts_with('-')) {...}], [two] being
    the options that take a separate operand. *)
Fixpoint skip_options (two : list string) (ws : list bytes) (i : nat) : nat :=
  match ws with
  | t :: r =>
      if starts_with dash t then
        if mem t two then match r with _ :: r' => skip_options two r' (i + 2) | [] => i + 2 end
        else skip_options two r (i + 1)
      else i
  | [] => i
  end.

(** [cmd.get(i..)] *)
Definition words_from (i : nat) (cmd : list bytes) : option (list bytes) :=
  if i <=? length cmd then Some (drop i cmd) else None.

Definition ionice_two : list string :=
  ["-c"; "-n"; "-p"; "-P"; "-u"; "--class"; "--classdata"; "--pid"; "--pgid"; "--uid"]%string.

Definition strip_wrapper_command (cmd : list bytes) : option (list bytes) :=
  match cmd with
  | [] => None
  | w :: args =>
      let head := after_last_sep w in
      let finish (i : nat) :=
        match words_from i cmd with
        | Some (x :: inner) => Some (x :: inner)
        | _ => None
        end in
      let mandatory (i : nat) := if length cmd <=? i then None else finish (i + 1) in
      if head =b $"timeout" then
        mandatory (skip_options ["-k"; "-s"; "--kill-after"; "--signal"]%string args 1)
      else if head =b $"nice" then finish (skip_options ["-n"; "--adjustment"]%string args 1)
      else if head =b $"ionice" then finish (skip_options ionice_two args 1)
      else if head =b $"chrt" then mandatory (skip_options [] args 1)
      else if head =b $"stdbuf" then finish (skip_options ["-i"; "-o"; "-e"]%string args 1)
      else if head =b $"env" then
        let scan := env_scan cmd in
        if es_has_split_string scan || es_options_uncertain scan then None
        else finish (es_command_start scan)
      else None
  end.

Definition is_wrapper_command (words : list bytes) : bool :=
  match words with
  | [] => false
  | w :: _ => mem (after_last_sep w) ["timeout"; "nice"; "ionice"; "chrt"; "stdbuf"; "env"]%string
  end.

Definition MAX_WRAPPER_DEPTH : nat := 8.
Definition MAX_INLINE_SHELL_DEPTH : nat := 8.

Record CheckedWrapperPeel := mkWrapperPeel {
  wp_words : list bytes;
  wp_has_chdir : bool;
  wp_has_split_string : bool;
  wp_env_options_uncertain : bool;
  wp_exhausted : bool;
}.

Definition head_is_env (words : list bytes) : bool :=
  match words with w :: _ => after_last_sep w =b $"env" | [] => false end.

Fixpoint unwrap_go (n : nat) (current : list bytes) (chdir split uncertain : bool) : CheckedWrapperPeel :=
  match n with
  | 0 => mkWrapperPeel current chdir split uncertain
           (is_wrapper_command current && bool_decide (is_Some (strip_wrapper_command current)))
  | S n' =>
      let scan := env_scan current in
      let env := head_is_env current in
      let chdir := chdir || env && bool_decide (is_Some (es_chdir scan)) in
      let split := split || env && es_has_split_string scan in
      let uncertain := uncertain || env && es_options_uncertain scan in
      match strip_wrapper_command current with
      | Some inner => unwrap_go n' inner chdir split uncertain
      | None => mkWrapperPeel current chdir split uncertain false
      end
  end.

Definition unwrap_wrappers_checked (words : list bytes) : CheckedWrapperPeel :=
  unwrap_go MAX_WRAPPER_DEPTH words false false false.

Definition unwrap_wrappers (words : list bytes) : list bytes :=
  wp_words (unwrap_wrappers_checked words).

(** ** Transparent prefixes *)

Inductive TransparentStrip :=
| NotPrefix
| Peeled (inner : list bytes)
| StripAmbiguous.

Definition peeled_from (i : nat) (cmd : list bytes) : TransparentStrip :=
  match words_from i cmd with
  | Some (x :: inner) => Peeled (x :: inner)
  | _ => NotPrefix
  end.

(** The option loop of [strip_exec_prefix]: [None] when ambiguous, otherwise
    the index where the command starts. *)
Fixpoint exec_options (ws : list bytes) (i : nat) : option nat :=
  match ws with
  | [] => Some i
  | tok :: r =>
      if tok =b ddash then Some (i + 1)
      else if (tok =b dash) || negb (starts_with dash tok) then Some i
      else if mem tok ["-c"; "-l"; "-cl"; "-lc"]%string then exec_options r (i + 1)
      else if tok =b $"-a" then
        match r with
        | v :: r' => if negb (v =b [nul]) && negb (v =b []) then exec_options r' (i + 2) else None
        | [] => None
        end
      else match strip_prefix $"-a" tok with
      | Some (c :: rest) => if (c :: rest) =b [nul] then None else exec_options r (i + 1)
      | _ =>
          if starts_with dash tok && negb (starts_with ddash tok)
             && forallb (fun c => contains_byte c $"cl") (drop 1 tok)
          then exec_options r (i + 1)
          else None
      end
  end.

Definition strip_exec_prefix (cmd : list bytes) : TransparentStrip :=
  match exec_options (drop 1 cmd) 1 with
  | None => StripAmbiguous
  | Some i => peeled_from i cmd
  end.

Inductive CommandOptions := CommandAt (i : nat) | CommandDisplay | CommandAmbiguous.

(** The option loop of [strip_command_prefix]. *)
Fixpoint command_options (ws : list bytes) (i : nat) : CommandOptions :=
  match ws with
  | [] => CommandAt i
  | tok :: r =>
      if tok =b ddash then CommandAt (i + 1)
      else if (tok =b dash) || negb (starts_with dash tok) then CommandAt i
      else if mem tok ["-v"; "-V"; "--help"; "--version"]%string
              || starts_with dash tok && negb (starts_with ddash tok)
                 && existsb (fun c => contains_byte c $"vV") (drop 1 tok)
      then CommandDisplay
      else if (tok =b $"-p")
              || starts_with dash tok && negb (starts_with ddash tok)
                 && forallb (fun c => bool_decide (c = "p"%char)) (drop 1 tok)
      then command_options r (i + 1)
      else CommandAmbiguous
  end.

Definition strip_command_prefix (cmd : list bytes) : TransparentStrip :=
  match command_options (drop 1 cmd) 1 with
  | CommandDisplay => NotPrefix
  | CommandAmbiguous => StripAmbiguous
  | CommandAt i => peeled_from i cmd
  end.

Definition strip_builtin_prefix (cmd : list bytes) : TransparentStrip :=
  match cmd !! 1 with
  | None => NotPrefix
  | Some tok =>
      if starts_with dash tok && negb (tok =b dash) then StripAmbiguous else peeled_from 1 cmd
  end.

Definition strip_transparent_prefix (cmd : list bytes) : TransparentStrip :=
  match cmd with
  | h :: _ =>
      if negb (h =b []) && negb (h =b [nul]) then
        let head := after_last_sep h in
        if head =b $"exec" then strip_exec_prefix cmd
        else if head =b $"command" then strip_command_prefix cmd
        else if head =b $"builtin" then strip_builtin_prefix cmd
        else NotPrefix
      else NotPrefix
  | [] => NotPrefix
  end.

Inductive TransparentPrefixPeel := Ready (words : list bytes) | PeelAmbiguous.

Definition MAX_TRANSPARENT_PREFIX_DEPTH : nat := 8.
Definition MAX_NORMALIZE_ROUNDS : nat := MAX_WRAPPER_DEPTH + MAX_TRANSPARENT_PREFIX_DEPTH.

Fixpoint peel_go (n : nat) (current : list bytes) : TransparentPrefixPeel :=
  match strip_transparent_prefix current, n with
  | NotPrefix, _ => Ready current
  | StripAmbiguous, _ => PeelAmbiguous
  | Peeled _, 0 => PeelAmbiguous
  | Peeled inner, S n' => peel_go n' inner
  end.

Definition peel_transparent_prefixes (words : list bytes) : TransparentPrefixPeel :=
  peel_go MAX_TRANSPARENT_PREFIX_DEPTH words.

(** ** The bounded alternation *)

Record NormalizedCommandPeel := mkPeel {
  np_words : list bytes;
  np_has_chdir : bool;
  np_has_split_string : bool;
  np_env_options_uncertain : bool;
  np_exhausted : bool;
  np_ambiguous : bool;
}.

(** The loop state is a [NormalizedCommandPeel]; one call is one round.  Every
    slice is a suffix of the argv, so the source's pointer-and-length test that
    a round changed nothing is the length test. *)
Fixpoint normalize_go (n : nat) (s : NormalizedCommandPeel) : NormalizedCommandPeel :=
  match n with
  | 0 => s
  | S n' =>
      let start_len := length (np_words s) in
      let wrapped := unwrap_wrappers_checked (np_words s) in
      let s := mkPeel (wp_words wrapped)
                 (np_has_chdir s || wp_has_chdir wrapped)
                 (np_has_split_string s || wp_has_split_string wrapped)
                 (np_env_options_uncertain s || wp_env_options_uncertain wrapped)
                 (np_exhausted s || wp_exhausted wrapped)
                 (np_ambiguous s) in
      if np_has_split_string s || np_env_options_uncertain s then s
      else match peel_transparent_prefixes (np_words s) with
      | PeelAmbiguous =>
          mkPeel (np_words s) (np_has_chdir s) (np_has_split_string s)
            (np_env_options_uncertain s) (np_exhausted s) true
      | Ready inner =>
          let s := mkPeel inner (np_has_chdir s) (np_has_split_string s)
                     (np_env_options_uncertain s) (np_exhausted s) (np_ambiguous s) in
          if length inner =? start_len then s else normalize_go n' s
      end
  end.

(** The check after the loop: a head that is still peelable exhausted the budget. *)
Definition check_budget (s : NormalizedCommandPeel) : NormalizedCommandPeel :=
  if negb (np_ambiguous s) && negb (np_has_split_string s) && negb (np_env_options_uncertain s) then
    let still_wrapper := is_wrapper_command (np_words s)
                         && bool_decide (is_Some (strip_wrapper_command (np_words s))) in
    let still_transparent := match strip_transparent_prefix (np_words s) with
                             | NotPrefix => false | _ => true end in
    mkPeel (np_words s) (np_has_chdir s) (np_has_split_string s) (np_env_options_uncertain s)
      (np_exhausted s || (still_wrapper || still_transparent)) (np_ambiguous s)
  else s.

Definition normalize_command_words (words : list bytes) : NormalizedCommandPeel :=
  check_budget (normalize_go MAX_NORMALIZE_ROUNDS (mkPeel words false false false false false)).

Example normalize_nested :
  let p := normalize_command_words
    [$"command"; $"timeout"; $"-k"; $"5"; $"30"; $"env"; $"A=1"; $"nice"; $"rm"; $"-rf"; $"/"] in
  (np_words p, np_exhausted p) = ([$"rm"; $"-rf"; $"/"], false).
Proof. vm_compute. reflexivity. Qed.

Example normalize_split_string :
  let p := normalize_command_words [$"env"; $"-S"; $"rm -rf /"] in
  (np_words p, np_has_split_string p, env_split_string_script (np_words p))
  = ([$"env"; $"-S"; $"rm -rf /"], true, Some $"rm -rf /").
Proof. vm_compute. reflexivity. Qed.

(** ** Peels return proper suffixes *)

Definition proper_suffix (inner cmd : list bytes) : Prop :=
  inner `suffix_of` cmd ∧ inner ≠ [] ∧ length inner < length cmd.

Lemma skip_options_ge (two : list string) (ws : list bytes) (i : nat) : i ≤ skip_options two ws i.
Proof.
  revert i. induction ws as [ws IH] using (induction_ltof1 _ (@length bytes)); unfold ltof in IH.
  intros i. destruct ws as [|t r]; [done|]. simpl.
  destruct (starts_with dash t); [|done]. destruct (mem t two).
  - destruct r as [|v r']; [lia|]. etrans; [|apply IH; simpl; lia]. lia.
  - etrans; [|apply IH; simpl; lia]. lia.
Qed.

Lemma env_scan_go_ge (ws : list bytes) (i : nat) (d : option bytes) :
  i ≤ es_command_start (env_scan_go ws i d).
Proof.
  revert i d. induction ws as [ws IH] using (induction_ltof1 _ (@length bytes)); unfold ltof in IH.
  intros i d. destruct ws as [|t r]; [done|]. cbn [env_scan_go].
  assert (Hr : ∀ j d', i ≤ j → i ≤ es_command_start (env_scan_go r j d')).
  { intros j d' Hj. etrans; [exact Hj|]. apply IH. simpl. lia. }
  assert (Hr' : ∀ x r' j d', r = x :: r' → i ≤ j → i ≤ es_command_start (env_scan_go r' j d')).
  { intros x r' j d' -> Hj. etrans; [exact Hj|]. apply IH. simpl. lia. }
  clear IH. repeat case_match; cbn [es_command_start];
    first [lia | eapply Hr; lia | eapply Hr'; [done|lia]].
Qed.

Lemma words_from_proper (i : nat) (cmd inner : list bytes) (x : bytes) :
  1 ≤ i → words_from i cmd = Some (x :: inner) → proper_suffix (x :: inner) cmd.
Proof.
  unfold words_from. intros Hi H. destruct (i <=? length cmd) eqn:E; [|done].
  injection H as H. bool_prop. split_and!; [rewrite <-H; apply suffix_drop|done|].
  pose proof (f_equal length H) as Hl. rewrite length_drop in Hl. simpl in *. lia.
Qed.

Lemma strip_wrapper_proper (cmd inner : list bytes) :
  strip_wrapper_command cmd = Some inner → proper_suffix inner cmd.
Proof.
  unfold strip_wrapper_command. intros H.
  destruct cmd as [|w args]; [done|]. cbv zeta in H.
  pose proof (env_scan_go_ge (drop 1 (w :: args)) 1 None) as Henv.
  repeat case_match; simplify_eq;
    (eapply words_from_proper; [|eassumption]); try exact Henv;
    try (etrans; [|apply Nat.le_add_r]); apply skip_options_ge.
Qed.

Lemma peeled_from_proper (i : nat) (cmd inner : list bytes) :
  1 ≤ i → peeled_from i cmd = Peeled inner → proper_suffix inner cmd.
Proof.
  unfold peeled_from. intros Hi H. repeat case_match; simplify_eq.
  by eapply words_from_proper.
Qed.

Lemma exec_options_ge (ws : list bytes) (i j : nat) : exec_options ws i = Some j → i ≤ j.
Proof.
  revert i. induction ws as [ws IH] using (induction_ltof1 _ (@length bytes)); unfold ltof in IH.
  intros i. destruct ws as [|t r]; simpl; [intros [= ->]; done|].
  intros H. repeat case_match; simplify_eq; try lia;
    apply IH in H; simpl in *; lia.
Qed.

Lemma command_options_ge (ws : list bytes) (i j : nat) : command_options ws i = CommandAt j → i ≤ j.
Proof.
  revert i. induction ws as [|t r IH]; intros i; simpl; [intros [= ->]; done|].
  intros H. repeat case_match; simplify_eq; try lia; apply IH in H; lia.
Qed.

Lemma strip_transparent_proper (cmd inner : list bytes) :
  strip_transparent_prefix cmd = Peeled inner → proper_suffix inner cmd.
Proof.
  unfold strip_transparent_prefix, strip_exec_prefix, strip_command_prefix, strip_builtin_prefix.
  intros H. repeat case_match; simplify_eq; (eapply peeled_from_proper; [|eassumption]);
    eauto using exec_options_ge, command_options_ge.
Qed.

Lemma proper_suffix_trans (a b c : list bytes) :
  proper_suffix a b → b `suffix_of` c → proper_suffix a c.
Proof.
  intros (Hs & Hne & Hl) Hbc. split_and!; [by etrans|done|].
  apply suffix_length in Hbc. lia.
Qed.

(** Every slice produced is a suffix of the argv, non-empty when the argv is. *)
Definition peels_to (words inner : list bytes) : Prop :=
  inner `suffix_of` words ∧ (words ≠ [] → inner ≠ []).

Lemma peels_to_refl (w : list bytes) : peels_to w w.
Proof. done. Qed.

Lemma peels_to_trans (a b c : list bytes) : peels_to a b → peels_to b c → peels_to a c.
Proof. intros [? ?] [? ?]. split; [by etrans|auto]. Qed.

Lemma proper_peels_to (a b : list bytes) : proper_suffix a b → peels_to b a.
Proof. intros (? & ? & ?). by split. Qed.

#[export] Hint Resolve peels_to_refl peels_to_trans proper_peels_to
  strip_wrapper_proper strip_transparent_proper : amore.

Lemma unwrap_go_peels (n : nat) (w : list bytes) (a b c : bool) :
  peels_to w (wp_words (unwrap_go n w a b c)).
Proof.
  revert w a b c. induction n as [|n IH]; intros w a b c; simpl; [done|].
  destruct (strip_wrapper_command w) eqn:E; simpl; [|done].
  eauto with amore.
Qed.

Lemma unwrap_checked_peels (w : list bytes) : peels_to w (wp_words (unwrap_wrappers_checked w)).
Proof. apply unwrap_go_peels. Qed.

Lemma peel_go_peels (n : nat) (w inner : list bytes) :
  peel_go n w = Ready inner → peels_to w inner.
Proof.
  revert w. induction n as [|n IH]; intros w; simpl;
    destruct (strip_transparent_prefix w) eqn:E; intros ?; simplify_eq; try done.
  eauto with amore.
Qed.

Lemma normalize_go_peels (n : nat) (s : NormalizedCommandPeel) :
  peels_to (np_words s) (np_words (normalize_go n s)).
Proof.
  revert s. induction n as [|n IH]; intros s; simpl; [done|].
  pose proof (unwrap_checked_peels (np_words s)) as Hu.
  case_match; simpl; [done|]. case_match eqn:Hp; simpl; [|done].
  apply peel_go_peels in Hp. case_match; simpl; [eauto with amore|].
  eapply peels_to_trans; [exact Hu|]. eapply peels_to_trans; [exact Hp|]. apply IH.
Qed.

Lemma check_budget_words (s : NormalizedCommandPeel) : np_words (check_budget s) = np_words s.
Proof. unfold check_budget. by destruct (negb (np_ambiguous s) && _ && _). Qed.

Lemma normalize_peels (words : list bytes) :
  peels_to words (np_words (normalize_command_words words)).
Proof.
  unfold normalize_command_words. rewrite check_budget_words.
  exact (normalize_go_peels MAX_NORMALIZE_ROUNDS (mkPeel words false false false false false)).
Qed.

(** ** A peel that changed nothing found nothing *)

Lemma unwrap_go_same (n : nat) (w : list bytes) (a b c : bool) :
  length (wp_words (unwrap_go (S n) w a b c)) = length w →
  let scan := env_scan w in
  strip_wrapper_command w = None
  ∧ unwrap_go (S n) w a b c
    = mkWrapperPeel w (a || head_is_env w && bool_decide (is_Some (es_chdir scan)))
        (b || head_is_env w && es_has_split_string scan)
        (c || head_is_env w && es_options_uncertain scan) false.
Proof.
  intros Hl. simpl in Hl |- *. destruct (strip_wrapper_command w) as [inner|] eqn:E; [exfalso|done].
  apply strip_wrapper_proper in E as (_ & _ & Hlt).
  pose proof (unwrap_go_peels n inner (a || head_is_env w && bool_decide (is_Some (es_chdir (env_scan w))))
    (b || head_is_env w && es_has_split_string (env_scan w))
    (c || head_is_env w && es_options_uncertain (env_scan w))) as [Hs _].
  apply suffix_length in Hs. lia.
Qed.

Lemma peel_go_same (n : nat) (w inner : list bytes) :
  peel_go n w = Ready inner → length inner = length w →
  strip_transparent_prefix w = NotPrefix ∧ inner = w.
Proof.
  destruct n as [|n]; simpl; destruct (strip_transparent_prefix w) as [|v|] eqn:E;
    intros H Hl; simplify_eq; try done.
  apply peel_go_peels in H as [Hs _]. apply suffix_length in Hs.
  apply strip_transparent_proper in E as (_ & _ & Hlt). lia.
Qed.

(** What it means for an argv to hide nothing behind its head. *)
Definition fully_peeled (w : list bytes) : Prop :=
  strip_wrapper_command w = None
  ∧ strip_transparent_prefix w = NotPrefix
  ∧ (head_is_env w = true →
       es_has_split_string (env_scan w) = false ∧ es_options_uncertain (env_scan w) = false).

Definition unflagged (p : NormalizedCommandPeel) : Prop :=
  np_has_split_string p = false ∧ np_env_options_uncertain p = false
  ∧ np_exhausted p = false ∧ np_ambiguous p = false.

Lemma normalize_go_clean (n : nat) (s : NormalizedCommandPeel) :
  length (np_words s) ≤ n → np_words s ≠ [] →
  unflagged (normalize_go n s) → fully_peeled (np_words (normalize_go n s)).
Proof.
  revert s. induction n as [|n IH]; intros s Hlen Hne Hun.
  { destruct (np_words s); [done|]. simpl in Hlen. lia. }
  cbn [normalize_go] in Hun |- *.
  destruct (unwrap_checked_peels (np_words s)) as [Hs Hn]. specialize (Hn Hne).
  pose proof (suffix_length _ _ Hs) as Hle.
  case_match eqn:Ef; simpl in Ef.
  { destruct Hun as (H1 & H2 & _). simpl in *. by rewrite H1, H2 in Ef. }
  apply orb_false_iff in Ef as [Ef1 Ef2]. case_match eqn:Hp; simpl in Hp.
  2: { by destruct Hun as (_ & _ & _ & ?). }
  pose proof (peel_go_peels _ _ _ Hp) as [Hps Hpn]. pose proof (suffix_length _ _ Hps) as Hple.
  case_match eqn:El.
  - apply Nat.eqb_eq in El. simpl.
    apply peel_go_same in Hp as [Ht ->]; [|lia]. simpl.
    destruct (unwrap_go_same 7 (np_words s) false false false) as [Hw Hu].
    { change (unwrap_go 8 (np_words s) false false false)
        with (unwrap_wrappers_checked (np_words s)). lia. }
    change (unwrap_go 8 (np_words s) false false false)
      with (unwrap_wrappers_checked (np_words s)) in Hu.
    rewrite Hu in *. simpl in *. split_and!; [done|done|].
    intros Henv. rewrite Henv in *. simpl in *.
    apply orb_false_iff in Ef1 as [_ ?]. apply orb_false_iff in Ef2 as [_ ?]. done.
  - apply Nat.eqb_neq in El. apply IH; simpl; [lia|by apply Hpn|done].
Qed.

Lemma check_budget_unflagged (s : NormalizedCommandPeel) :
  unflagged (check_budget s) →
  unflagged s ∧ strip_wrapper_command (np_words s) = None
  ∧ strip_transparent_prefix (np_words s) = NotPrefix.
Proof.
  unfold unflagged, check_budget.
  destruct (negb (np_ambiguous s) && _ && _) eqn:E;
    cbn [np_words np_has_split_string np_env_options_uncertain np_exhausted np_ambiguous];
    intros (H1 & H2 & H3 & H4).
  2: { by rewrite H1, H2, H4 in E. }
  apply orb_false_iff in H3 as [H3 [Hw Ht]%orb_false_iff].
  split; [by split_and!|]. split; [|by destruct (strip_transparent_prefix _)].
  destruct (strip_wrapper_command (np_words s)) as [inner|] eqn:Es; [exfalso|done].
  rewrite bool_decide_eq_true_2, andb_true_r in Hw by done.
  unfold strip_wrapper_command in Es. unfold is_wrapper_command, mem in Hw.
  destruct (np_words s) as [|w ws]; [done|]. cbn [existsb] in Hw.
  repeat match goal with H : _ || _ = false |- _ => apply orb_false_iff in H as [? ?] end.
  cbv zeta in Es.
  repeat match goal with H : (after_last_sep w =b _) = false |- _ => rewrite H in Es; clear H end.
  done.
Qed.

(** The loop result, kept folded. *)
Lemma normalize_unfold (words : list bytes) :
  ∃ s, s = normalize_go MAX_NORMALIZE_ROUNDS (mkPeel words false false false false false)
       ∧ normalize_command_words words = check_budget s.
Proof. eexists. split; reflexivity. Qed.

(** For an argv of at most [MAX_NORMALIZE_ROUNDS] words the loop reaches its
    fixed point, so an unflagged result hides nothing. *)
Lemma normalize_clean (words : list bytes) :
  words ≠ [] → length words ≤ MAX_NORMALIZE_ROUNDS →
  unflagged (normalize_command_words words) →
  fully_peeled (np_words (normalize_command_words words)).
Proof.
  intros Hne Hlen. destruct (normalize_unfold words) as (s & Hs & ->).
  intros [Hun _]%check_budget_unflagged. rewrite check_budget_words. rewrite Hs in *.
  by apply normalize_go_clean.
Qed.

(** The bound matters.  With alternating wrappers and prefixes that use up
    exactly the round budget, the last round uncovers an [env -S] head that no
    later round scans: the result carries no flag although the packed string
    was never looked at. *)
Definition budget_gap_argv : list bytes :=
  $"command" :: concat (replicate 15 [$"nice"; $"command"]) ++ [$"env"; $"-S"; $"rm\_-rf\_/"].

(** Peeling is faithful: the normalised argv is a suffix of the argv as
    written, never empty when that is not, so a rule that matches it matches
    words the command really runs. *)
Theorem normalize_suffix (words : list bytes) :
  np_words (normalize_command_words words) `suffix_of` words
  ∧ (words ≠ [] → np_words (normalize_command_words words) ≠ []).
Proof. exact (normalize_peels words). Qed.

(** An unflagged result hides nothing: for an argv of at most sixteen words,
    when no flag is set the head is no wrapper, no transparent prefix, and no
    [env] with a packed script or options the scan could not place. *)
Theorem normalize_unflagged_is_peeled (words : list bytes) :
  words ≠ [] → length words ≤ MAX_NORMALIZE_ROUNDS →
  unflagged (normalize_command_words words) →
  fully_peeled (np_words (normalize_command_words words)).
Proof. apply normalize_clean. Qed.

Definition nested_argv : list bytes := [$"command"; $"timeout"; $"30"; $"env"; $"A=1"; $"nice"; $"rm"; $"-rf"; $"/"].

Lemma normalize_unflagged_is_peeled_witness :
  fully_peeled (np_words (normalize_command_words nested_argv))
  ∧ np_words (normalize_command_words nested_argv) = [$"rm"; $"-rf"; $"/"].
Proof.
  split; [|vm_compute; reflexivity]. apply (normalize_unflagged_is_peeled nested_argv).
  - discriminate.
  - vm_compute. lia.
  - vm_compute. repeat split.
Defined.

(** The round budget can be spent without a trace: for an argv that alternates
    [nice] and [command] sixteen times before [env -S], no flag is set although
    the head left over is an [env] whose packed script was never inspected. *)
Theorem normalize_budget_gap :
  let p := normalize_command_words budget_gap_argv in
  unflagged p ∧ head_is_env (np_words p) = true
  ∧ es_has_split_string (env_scan (np_words p)) = true
  ∧ env_split_string_script (np_words p) = None.
Proof. vm_compute. repeat split. Qed.
