(* ===== verification/SyntaxTree.v ===== *)
(** * Shell syntax trees

    The part of tree-sitter's node interface the permission engine reads, the
    explicit-stack tree walk every analysis uses, and the decoding of one
    argument node to text ([shell_access.rs], [node_has_expansion] to
    [shell_node_arg]).  The parser itself is a parameter: class [ShellParser]. *)

From S2P Require Import Prelude RustStr Wrappers.

(** A syntax node: grammar symbol, whether it is a named node, the field name
    its parent gives it, its byte span, [has_error] and its children. *)
Inductive Node := mkNode {
  nd_kind : bytes;
  nd_named : bool;
  nd_field : option bytes;
  nd_start : nat;
  nd_end : nat;
  nd_error : bool;
  nd_children : list Node;
}.

(** tree-sitter-bash, loaded and run by [try_parse_shell]. *)
Class ShellParser := try_parse_shell : bytes → option Node.

(** A node with the path to the root, for [parent] and [next_sibling]: each
    ancestor with the index of the child the path goes through. *)
Record Loc := mkLoc { l_node : Node; l_up : list (Node * nat) }.

Definition root_loc (n : Node) : Loc := mkLoc n [].

Definition l_kind (l : Loc) : bytes := nd_kind (l_node l).
Definition l_start (l : Loc) : nat := nd_start (l_node l).
Definition l_end (l : Loc) : nat := nd_end (l_node l).

Definition l_children (l : Loc) : list Loc :=
  imap (fun i c => mkLoc c ((l_node l, i) :: l_up l)) (nd_children (l_node l)).

Definition l_parent (l : Loc) : option Loc :=
  match l_up l with
  | [] => None
  | (p, _) :: up => Some (mkLoc p up)
  end.

Definition l_next_sibling (l : Loc) : option Loc :=
  match l_up l with
  | [] => None
  | (p, i) :: up => (fun c => mkLoc c ((p, S i) :: up)) <$> nd_children p !! S i
  end.

Definition named_children (n : Node) : list Node := List.filter nd_named (nd_children n).

Definition named_child (n : Node) (i : nat) : option Node := named_children n !! i.

Definition child_by_field_name (n : Node) (f : bytes) : option Node :=
  find (fun c => bool_decide (nd_field c = Some f)) (nd_children n).

(** [source.get(node.byte_range())]; [node.utf8_text(source)] agrees with it
    on a UTF-8 source. *)
Definition node_text (n : Node) (src : bytes) : option bytes := get_range (nd_start n) (nd_end n) src.

(** ** The stack walk

    [while let Some(node) = stack.pop() { ...; push the children in order }]:
    the last child is popped first.  [visit fuel stack] is the sequence of
    popped nodes and the stack left when the fuel runs out. *)
Fixpoint visit (fuel : nat) (stack : list Loc) : list Loc * list Loc :=
  match fuel, stack with
  | 0, _ => ([], stack)
  | S _, [] => ([], [])
  | S f, l :: st =>
      let '(seen, rest) := visit f (reverse (l_children l) ++ st) in (l :: seen, rest)
  end.

Fixpoint tree_size (n : Node) : nat := S (sum_list (map tree_size (nd_children n))).

(** A walk of a whole tree: one step for each node is enough fuel. *)
Definition walk (root : Node) : list Loc := (visit (tree_size root) [root_loc root]).1.

Definition loc_size (l : Loc) : nat := tree_size (l_node l).

Lemma loc_size_children (l : Loc) :
  loc_size l = S (sum_list (map loc_size (l_children l))).
Proof.
  unfold loc_size at 1, l_children. destruct (l_node l) as [k nm f s e er cs]. simpl. f_equal.
  generalize (mkNode k nm f s e er cs) as n. intros n.
  assert (∀ i, sum_list (map tree_size cs)
    = sum_list (map loc_size (imap (fun j c => mkLoc c ((n, i + j) :: l_up l)) cs))) as H.
  { induction cs as [|c cs IH]; intros i; [done|]. simpl. unfold loc_size at 1. simpl. f_equal.
    rewrite (IH (S i)). do 2 f_equal. apply imap_ext. intros j x _. simpl. do 3 f_equal. lia. }
  apply (H 0).
Qed.

(** With a unit of fuel for each node under the stack, the walk empties the
    stack and pops each node once. *)
Lemma visit_complete (fuel : nat) (stack : list Loc) :
  sum_list (map loc_size stack) ≤ fuel →
  (visit fuel stack).2 = [] ∧ length (visit fuel stack).1 = sum_list (map loc_size stack).
Proof.
  revert stack. induction fuel as [|fuel IH]; intros stack Hf.
  - destruct stack as [|l st]; [done|]. simpl in Hf. rewrite loc_size_children in Hf. lia.
  - destruct stack as [|l st]; [done|]. simpl in Hf |- *.
    pose proof (loc_size_children l) as Hl.
    assert (sum_list (map loc_size (reverse (l_children l) ++ st))
            = pred (loc_size l) + sum_list (map loc_size st)) as Hs.
    { rewrite map_app, sum_list_app, sum_map_reverse. lia. }
    destruct (IH (reverse (l_children l) ++ st)) as [H1 H2]; [lia|].
    destruct (visit fuel _) as [seen rest]. simpl in *. split; [done|]. lia.
Qed.

(** The nodes below a node, itself included. *)
Inductive descendant : Loc → Loc → Prop :=
| desc_self l : descendant l l
| desc_child l c d : c ∈ l_children l → descendant c d → descendant l d.

Lemma visit_covers (fuel : nat) (stack : list Loc) (l d : Loc) :
  sum_list (map loc_size stack) ≤ fuel → l ∈ stack → descendant l d → d ∈ (visit fuel stack).1.
Proof.
  revert stack l. induction fuel as [|fuel IH]; intros stack l Hf Hl Hd.
  - destruct stack as [|k st]; [by apply elem_of_nil in Hl|].
    simpl in Hf. rewrite loc_size_children in Hf. lia.
  - destruct stack as [|k st]; [by apply elem_of_nil in Hl|]. simpl in Hf |- *.
    assert (sum_list (map loc_size (reverse (l_children k) ++ st)) ≤ fuel) as Hs.
    { rewrite map_app, sum_list_app, sum_map_reverse. rewrite loc_size_children in Hf. lia. }
    destruct (visit fuel (reverse (l_children k) ++ st)) as [seen rest] eqn:E. simpl.
    assert (∀ x, x ∈ reverse (l_children k) ++ st → descendant x d → d ∈ seen) as Hin.
    { intros x Hx Hxd. specialize (IH _ _ Hs Hx Hxd). by rewrite E in IH. }
    apply elem_of_cons in Hl as [->|Hl].
    + destruct Hd as [|? c d Hc Hcd]; [by left|]. right. apply (Hin c); [|done].
      apply elem_of_app. left. by apply elem_of_reverse.
    + right. apply (Hin l); [|done]. apply elem_of_app. by right.
Qed.

Lemma walk_covers (root : Node) (d : Loc) : descendant (root_loc root) d → d ∈ walk root.
Proof. apply visit_covers; [simpl; unfold loc_size; simpl; lia|by left]. Qed.

(** ** Decoding one argument *)

Inductive ArgText := ArgLiteral (s : bytes) | ArgAmbiguous.

Definition expansion_kinds : list string :=
  ["expansion"; "simple_expansion"; "command_substitution"; "arithmetic_expansion";
   "process_substitution"]%string.

(** Any proper descendant that expands at run time. *)
Definition node_has_expansion (n : Node) : bool :=
  existsb (fun l => mem (l_kind l) expansion_kinds) (drop 1 (walk n)).

Definition is_windows_path_like (raw : bytes) : bool :=
  starts_with [backslash; backslash] raw
  || match raw with
     | b :: r => is_ascii_alphabetic b && bool_decide (r !! 0 = Some ":"%char)
     | [] => false
     end.

Fixpoint fold_backslashes (raw : bytes) : option bytes :=
  match raw with
  | [] => Some []
  | ch :: r =>
      if bool_decide (ch = backslash) then
        match r with
        | [] => None
        | n :: r' => cons n <$> fold_backslashes r'
        end
      else cons ch <$> fold_backslashes r
  end.

Definition decode_unquoted_word (raw : bytes) : option bytes :=
  if negb (contains_byte backslash raw) then Some raw
  else if is_windows_path_like raw then Some raw
  else fold_backslashes raw.

Fixpoint fold_double_quoted (content : bytes) : option bytes :=
  match content with
  | [] => Some []
  | ch :: r =>
      if bool_decide (ch = backslash) then
        match r with
        | [] => None
        | n :: r' =>
            if dquote_folds n then cons n <$> fold_double_quoted r'
            else (fun out => backslash :: n :: out) <$> fold_double_quoted r'
        end
      else cons ch <$> fold_double_quoted r
  end.

Definition decode_double_quoted_content (content : bytes) : option bytes :=
  if negb (contains_byte backslash content) then Some content else fold_double_quoted content.

(** [raw.strip_prefix(q).and_then(|s| s.strip_suffix(q)).unwrap_or(raw)] *)
Definition strip_quotes (q : ascii) (raw : bytes) : bytes :=
  default raw (strip_prefix [q] raw ≫= strip_suffix [q]).

Definition literal_or_ambiguous (o : option bytes) : option ArgText :=
  match o with Some s => Some (ArgLiteral s) | None => Some ArgAmbiguous end.

Definition shell_node_arg (node : Node) (src : bytes) : option ArgText :=
  let k := nd_kind node in
  let text := node_text node src in
  if k =b $"variable_assignment" then None
  else if mem k ["word"; "number"]%string then literal_or_ambiguous (text ≫= decode_unquoted_word)
  else if k =b $"raw_string" then
    raw ← text; Some (ArgLiteral (strip_quotes squote raw))
  else if k =b $"string" then
    if node_has_expansion node then Some ArgAmbiguous
    else raw ← text; literal_or_ambiguous (decode_double_quoted_content (strip_quotes dquote raw))
  else if k =b $"concatenation" then
    if node_has_expansion node then Some ArgAmbiguous
    else literal_or_ambiguous (text ≫= decode_shell_literal_spelling)
  else Some ArgAmbiguous.
