(* ===== verification/Splitting.v ===== *)
(** * Splitting a script into plain commands

    [try_parse_word_only_commands_sequence], [parse_plain_command_from_node]
    and [all_commands_from_script] of
    [crates/codegen/xai-grok-permission-rules/src/bash_command_splitting.rs]:
    a script is decomposed only when every node of its syntax tree is on an
    allow-list; otherwise the answer is [None] and the gates fail closed. *)

From S2P Require Import Prelude RustStr Wrappers SyntaxTree.

Record PlainCommand := mkPlain {
  pc_words : list bytes;
  pc_span_start : nat;
  pc_span_end : nat;
}.

(** [PlainCommand::spans_whole_script] *)
Definition spans_whole_script (c : PlainCommand) (script : bytes) : bool :=
  match get_to (pc_span_start c) script, get_from (pc_span_end c) script with
  | Some before, Some after => (trim before =b []) && (trim after =b [])
  | _, _ => false
  end.

Definition ALLOWED_KINDS : list string :=
  ["program"; "list"; "pipeline";
   "command"; "command_name"; "word"; "string"; "string_content"; "raw_string"; "number";
   "concatenation";
   "variable_assignment"; "variable_name";
   "redirected_statement"; "file_redirect"; "file_descriptor";
   "comment";
   "heredoc_redirect"; "heredoc_start"; "heredoc_body"; "heredoc_content"; "heredoc_end"]%string.

(** The operator tokens; the double-quote token is the second disjunct. *)
Definition allowed_punct (kind : bytes) : bool :=
  mem kind ["&&"; "||"; ";"; "|"; "'"; "="; ">"; ">>"; "<"; "<<"; ">&"; "&>"; "&>>"]%string
  || (kind =b [dquote]).

(** The body of the walk: whether the node may occur in a plain script. *)
Definition node_allowed (n : Node) : bool :=
  let kind := nd_kind n in
  if nd_named n then mem kind ALLOWED_KINDS
  else if contains_any $"&;|" kind && negb (allowed_punct kind) then false
  else allowed_punct kind || (trim kind =b []).

(** State of the loop of [parse_plain_command_from_node]. *)
Record PlainState := mkPlainState {
  ps_words : list bytes;
  ps_start : option nat;
  ps_end : option nat;
}.

Definition push_word (st : PlainState) (text : bytes) (span : Node) : PlainState :=
  mkPlainState (ps_words st ++ [text])
    (Some (default (nd_start span) (ps_start st))) (Some (nd_end span)).

(** A double-quoted string with plain content: three children, quotes around
    one [string_content]. *)
Definition simple_string_content (child : Node) : option Node :=
  match nd_children child with
  | [q1; content; q2] =>
      if (nd_kind q1 =b [dquote]) && (nd_kind content =b $"string_content") && (nd_kind q2 =b [dquote])
      then Some content else None
  | _ => None
  end.

Definition plain_child (src : bytes) (st : PlainState) (child : Node) : option PlainState :=
  let k := nd_kind child in
  if k =b $"variable_assignment" then Some st
  else if k =b $"command_name" then
    word_node ← named_child child 0;
    if negb (nd_kind word_node =b $"word") then None
    else text ← node_text word_node src; Some (push_word st text word_node)
  else if mem k ["word"; "number"]%string then
    text ← node_text child src; Some (push_word st text child)
  else if k =b $"string" then
    content ← simple_string_content child;
    text ← node_text content src; Some (push_word st text child)
  else if k =b $"raw_string" then
    raw ← node_text child src;
    s ← strip_prefix [squote] raw;
    s ← strip_suffix [squote] s;
    Some (push_word st s child)
  else if k =b $"concatenation" then
    text ← node_text child src; Some (push_word st text child)
  else None.

Fixpoint plain_children (src : bytes) (st : PlainState) (cs : list Node) : option PlainState :=
  match cs with
  | [] => Some st
  | c :: r => st' ← plain_child src st c; plain_children src st' r
  end.

Definition parse_plain_command_from_node (cmd : Node) (src : bytes) : option PlainCommand :=
  if negb (nd_kind cmd =b $"command") then None
  else st ← plain_children src (mkPlainState [] None None) (named_children cmd);
       Some (mkPlain (ps_words st) (default (nd_start cmd) (ps_start st))
                     (default (nd_end cmd) (ps_end st))).

Definition command_nodes (root : Node) : list Node :=
  sort_by_key nd_start
    (List.filter (fun n => nd_named n && (nd_kind n =b $"command")) (map l_node (walk root))).

Definition try_parse_word_only_commands_sequence (root : Node) (src : bytes)
  : option (list PlainCommand) :=
  if nd_error root then None
  else if negb (forallb node_allowed (map l_node (walk root))) then None
  else mapM (fun n => parse_plain_command_from_node n src) (command_nodes root).

Definition all_commands_from_script `{ShellParser} (script : bytes) : option (list PlainCommand) :=
  tree ← try_parse_shell script; try_parse_word_only_commands_sequence tree script.

(** ** Setup commands and display spans *)

Definition is_setup_command (cmd : list bytes) : bool :=
  match cmd with
  | [] => true
  | w :: _ => mem w ["cd"; "pushd"; "popd"; "export"; "unset"; "set"; "sleep"; "timeout"]%string
  end.

(** ** What a decomposition guarantees *)

(** The syntax of plain scripts: no substitution, subshell, control flow,
    function or unknown operator anywhere in the tree. *)
Definition plain_tree (root : Node) : Prop :=
  nd_error root = false
  ∧ ∀ l, descendant (root_loc root) l → node_allowed (l_node l) = true.

Lemma word_only_plain (root : Node) (src : bytes) (cs : list PlainCommand) :
  try_parse_word_only_commands_sequence root src = Some cs → plain_tree root.
Proof.
  unfold try_parse_word_only_commands_sequence. intros H.
  destruct (nd_error root) eqn:He; [done|]. split; [done|]. intros l Hl%walk_covers.
  destruct (forallb _ _) eqn:Hall; [|done].
  rewrite forallb_forall in Hall. apply Hall. apply in_map. by apply list_elem_of_In.
Qed.

Lemma mapM_elem {A B} (f : A → option B) (l : list A) (k : list B) (x : A) :
  mapM f l = Some k → x ∈ l → ∃ y, f x = Some y ∧ y ∈ k.
Proof.
  intros H%mapM_Some Hx. induction H as [|a b l k Hab Hl IH]; [by apply elem_of_nil in Hx|].
  apply elem_of_cons in Hx as [->|Hx]; [exists b; split; [done|by left]|].
  destruct (IH Hx) as (y & ? & ?). exists y. split; [done|by right].
Qed.

(** Every command node of the tree is among the commands returned. *)
Lemma word_only_commands (root : Node) (src : bytes) (cs : list PlainCommand) (l : Loc) :
  try_parse_word_only_commands_sequence root src = Some cs →
  descendant (root_loc root) l → nd_named (l_node l) = true → l_kind l = $"command" →
  ∃ c, parse_plain_command_from_node (l_node l) src = Some c ∧ c ∈ cs.
Proof.
  unfold try_parse_word_only_commands_sequence. intros H Hl Hn Hk.
  destruct (nd_error root); [done|]. destruct (forallb _ _); [|done]. simpl in H.
  eapply (mapM_elem (fun n => parse_plain_command_from_node n src)); [exact H|]. unfold command_nodes. rewrite sort_by_key_elem.
  apply list_elem_of_In, filter_In. split.
  - apply in_map. apply list_elem_of_In. by apply walk_covers.
  - rewrite Hn. unfold l_kind in Hk. rewrite Hk. done.
Qed.

(** Words are pushed in order: the words of a command extend those seen. *)
Lemma plain_children_words (src : bytes) (cs : list Node) (st st' : PlainState) :
  plain_children src st cs = Some st' → ps_words st `prefix_of` ps_words st'.
Proof.
  revert st. induction cs as [|c cs IH]; intros st; simpl; [by intros [= ->]|].
  destruct (plain_child src st c) as [st1|] eqn:E; [|done]. simpl. intros H%IH.
  etrans; [|exact H]. clear H IH. unfold plain_child in E.
  repeat (case_match; simplify_option_eq; try done); by apply prefix_app_r.
Qed.

(** A script is split into commands only when its whole tree is plain, and
    then no command is lost: the tree has no error and only allow-listed nodes,
    and every command node of it, however deep, parses to one of the commands
    returned. *)
Theorem decomposition_is_complete `{ShellParser} (script : bytes) (cs : list PlainCommand) :
  all_commands_from_script script = Some cs →
  ∃ root, try_parse_shell script = Some root ∧ plain_tree root
    ∧ ∀ l, descendant (root_loc root) l → nd_named (l_node l) = true → l_kind l = $"command" →
           ∃ c, parse_plain_command_from_node (l_node l) script = Some c ∧ c ∈ cs.
Proof.
  unfold all_commands_from_script. destruct (try_parse_shell script) as [root|]; [|done]. simpl.
  intros Hs. exists root. split_and!; [done|by eapply word_only_plain|].
  intros l Hl Hn Hk. by eapply word_only_commands.
Qed.

(** A one-command parser for the script [ls]. *)
Definition ls_word : Node := mkNode $"word" true None 0 2 false [].
Definition ls_program : Node :=
  mkNode $"program" true None 0 2 false
    [mkNode $"command" true None 0 2 false [mkNode $"command_name" true None 0 2 false [ls_word]]].

Lemma decomposition_is_complete_witness :
  ∃ root, (fun _ => Some ls_program : option Node) $"ls" = Some root ∧ plain_tree root
    ∧ ∀ l, descendant (root_loc root) l → nd_named (l_node l) = true → l_kind l = $"command" →
           ∃ c, parse_plain_command_from_node (l_node l) $"ls" = Some c ∧ c ∈ [mkPlain [$"ls"] 0 2].
Proof.
  apply (@decomposition_is_complete (fun _ => Some ls_program) $"ls" [mkPlain [$"ls"] 0 2]).
  vm_compute. reflexivity.
Defined.
