(* ===== verification/Script.v ===== *)
(** * Permission-only recovery of scripts with variables

    [crates/codegen/xai-grok-permission-rules/src/bash_permission_script.rs]
    and [env_risk.rs]: scripts that do not split into plain words are analysed
    again keeping unresolved argv positions; only read-only commands with
    witnessed file operands are eligible for allow rules. *)

From S2P Require Import Prelude RustStr Wrappers SyntaxTree.

(** ** Environment keys ([env_risk.rs]) *)

Definition SAFE_ENV_KEYS : list string :=
  ["CARGO_TERM_COLOR"; "CARGO_TERM_PROGRESS_WHEN"; "RUST_LOG"; "RUST_LOG_STYLE"; "RUST_BACKTRACE";
   "RUST_TEST_THREADS"; "RUST_MIN_STACK"; "NO_COLOR"; "CLICOLOR"; "CLICOLOR_FORCE"; "FORCE_COLOR";
   "COLORTERM"]%string.

Inductive EnvRisk := Risk_Safe | Risk_Unvetted | Risk_Injection.

#[export] Instance EnvRisk_eq_dec : EqDecision EnvRisk.
Proof. solve_decision. Defined.

Definition INJECTION_ENV_KEYS : list string :=
  ["LD_PRELOAD"; "LD_AUDIT"; "BASH_ENV"; "ENV"; "IFS"; "PATH"; "GIT_EXTERNAL_DIFF";
   "GIT_PROXY_COMMAND"; "PROMPT_COMMAND"]%string.

Definition INJECTION_ENV_KEY_PREFIXES : list string := ["DYLD_"; "GIT_CONFIG"]%string.

Definition any_prefix (ps : list string) (s : bytes) : bool := existsb (fun p => starts_with $p s) ps.

Definition env_key_risk (key : bytes) : EnvRisk :=
  if mem key SAFE_ENV_KEYS then Risk_Safe
  else if mem key INJECTION_ENV_KEYS || any_prefix INJECTION_ENV_KEY_PREFIXES key then Risk_Injection
  else Risk_Unvetted.

(** ** The recovered script *)

Definition WITNESS_DENIED_KEYS : list string :=
  ["RIPGREP_CONFIG_PATH"; "GCONV_PATH"; "GETCONF_DIR"; "GLIBC_TUNABLES"; "HOSTALIASES";
   "LOCALDOMAIN"; "LOCPATH"; "MALLOC_TRACE"; "NIS_PATH"; "NLSPATH"; "RESOLV_HOST_CONF";
   "RES_OPTIONS"; "TZDIR"]%string.

Definition WITNESS_DENIED_KEY_PREFIXES : list string := ["LD_"]%string.

Inductive PermissionWord := WordLiteral (s : bytes) | WordUnresolved (spelling : bytes).

Record PermissionScript := mkScript {
  sc_commands : list (list PermissionWord);
  sc_complete : bool;
  sc_eligible : bool;
  sc_unresolved : bool;
}.

Definition is_path_prefix (value : bytes) : bool := starts_with $"/" value || starts_with $"./" value.

(** A shell variable name. *)
Definition is_variable_name (v : bytes) : bool :=
  match v with
  | [] => false
  | b :: r =>
      (bool_decide (b = "_"%char) || is_ascii_alphabetic b)
      && forallb (fun b => bool_decide (b = "_"%char) || is_ascii_alphabetic b || is_ascii_digit b) r
  end.

(** The child loop of [quoted_filename]: the single plain variable, if any. *)
Fixpoint quoted_variable (cs : list Node) (source : bytes) (name : option bytes) : option (option bytes) :=
  match cs with
  | [] => Some name
  | child :: r =>
      if nd_kind child =b $"string_content" then quoted_variable r source name
      else if negb (mem (nd_kind child) ["simple_expansion"; "expansion"]%string)
              || bool_decide (is_Some name) then None
      else text ← node_text child source;
           variable ← match strip_prefix $"${" text ≫= strip_suffix $"}" with
                      | Some v => Some v
                      | None => strip_prefix $"$" text
                      end;
           if negb (is_variable_name variable) then None
           else quoted_variable r source (Some variable)
  end.

Definition quoted_filename (node : Node) (source : bytes) (assigned : gset bytes)
  : option (bytes * bool) :=
  if negb (nd_kind node =b $"string") then None
  else name ← quoted_variable (named_children node) source None;
       name ← name;
       text ← node_text node source;
       content ← strip_prefix [dquote] text;
       Some (name, is_path_prefix content || starts_with $"$" content && bool_decide (name ∈ assigned)).

Definition readers : list string := ["ls"; "rg"; "echo"; "head"; "tail"]%string.

Definition all_digits (s : bytes) : bool := negb (s =b []) && forallb is_ascii_digit s.

(** Whether an option word is allowed for this reader, and whether it takes a
    numeric value next. *)
Definition reader_option (head arg : bytes) : bool * bool :=
  if head =b $"ls" then
    (match strip_prefix dash arg with
     | Some s => negb (s =b []) && forallb (fun c => contains_byte c $"alhdFRtSr1") s
     | None => false
     end, false)
  else if head =b $"rg" then (mem arg ["-n"; "-v"]%string, false)
  else if mem head ["head"; "tail"]%string then
    let value := mem arg ["-n"; "-c"]%string in
    (value || match strip_prefix dash arg with Some s => all_digits s | None => false end, value)
  else if head =b $"echo" then (mem arg ["-n"; "-e"; "-E"]%string, false)
  else (false, false).

(** The loop of [readers_allow] over the words after the head, with its flags. *)
Fixpoint readers_loop (head : bytes) (ws : list (PermissionWord * bool))
    (boundary pattern value : bool) : bool :=
  match ws with
  | [] => pattern && negb value
  | (WordUnresolved _, safe) :: r =>
      if value || negb pattern || negb (mem head ["ls"; "rg"]%string) || (negb boundary && negb safe)
      then false else readers_loop head r boundary pattern value
  | (WordLiteral arg, _) :: r =>
      if value then
        if all_digits arg then readers_loop head r boundary pattern false else false
      else if negb boundary && (arg =b ddash) then readers_loop head r true pattern value
      else if negb boundary && starts_with dash arg && negb (arg =b dash) then
        let '(allowed, value) := reader_option head arg in
        if allowed then readers_loop head r boundary pattern value else false
      else readers_loop head r boundary true value
  end.

Definition readers_allow (words : list PermissionWord) (safe : list bool) : bool :=
  match words with
  | WordLiteral head :: _ =>
      if negb (mem head readers) then false
      else readers_loop head (drop 1 (zip words safe)) false (negb (head =b $"rg")) false
  | _ => false
  end.

(** Analysis state: the script so far, the witnessed assignments and the ones used. *)
Record Analysis := mkAnalysis {
  an_script : PermissionScript;
  an_assigned : gset bytes;
  an_used : gset bytes;
}.

Definition and_eligible (b : bool) (s : PermissionScript) : PermissionScript :=
  mkScript (sc_commands s) (sc_complete s) (sc_eligible s && b) (sc_unresolved s).
Definition and_complete (b : bool) (s : PermissionScript) : PermissionScript :=
  mkScript (sc_commands s) (sc_complete s && b) (sc_eligible s) (sc_unresolved s).
Definition set_unresolved (s : PermissionScript) : PermissionScript :=
  mkScript (sc_commands s) (sc_complete s) (sc_eligible s) true.
Definition push_command (ws : list PermissionWord) (s : PermissionScript) : PermissionScript :=
  mkScript (sc_commands s ++ [ws]) (sc_complete s) (sc_eligible s) (sc_unresolved s).

Definition field_text (node : Node) (f : bytes) (source : bytes) : option bytes :=
  child_by_field_name node f ≫= fun n => node_text n source.

(** A statement that is a [variable_assignment]: eligible only as a top-level
    witness before any command, with a literal path value and a harmless key. *)
Definition analyze_assignment (source : bytes) (a : Analysis) (l : Loc) : Analysis :=
  let node := l_node l in
  let value := child_by_field_name node $"value" ≫= fun n => shell_node_arg n source in
  let witness :=
    bool_decide (sc_commands (an_script a) = [])
    && match l_parent l with Some p => l_kind p =b $"program" | None => false end
    && match value with Some (ArgLiteral v) => is_path_prefix v | _ => false end in
  match field_text node $"name" source with
  | Some name =>
      let ok := witness && negb (mem name WITNESS_DENIED_KEYS)
                && negb (any_prefix WITNESS_DENIED_KEY_PREFIXES name)
                && negb (bool_decide (env_key_risk name = Risk_Injection)) in
      if ok then mkAnalysis (and_eligible (bool_decide (name ∉ an_assigned a)) (an_script a))
                            ({[name]} ∪ an_assigned a) (an_used a)
      else mkAnalysis (and_eligible false (an_script a)) (an_assigned a) (an_used a)
  | None => mkAnalysis (and_eligible false (an_script a)) (an_assigned a) (an_used a)
  end.

(** State while the words of one command are read. *)
Record WordState := mkWordState {
  ws_analysis : Analysis;
  ws_words : list PermissionWord;
  ws_safe : list bool;
}.

Definition on_script (f : PermissionScript → PermissionScript) (a : Analysis) : Analysis :=
  mkAnalysis (f (an_script a)) (an_assigned a) (an_used a).

Definition glob_chars : bytes := $"*?[~".

Definition analyze_child (source : bytes) (st : WordState) (child : Node) : WordState :=
  let upd f := mkWordState (on_script f (ws_analysis st)) (ws_words st) (ws_safe st) in
  let push w safe a := mkWordState a (ws_words st ++ [w]) (ws_safe st ++ [safe]) in
  if nd_kind child =b $"variable_assignment" then upd (and_eligible false)
  else
    let word := if negb (nd_kind child =b $"command_name") then Some child else named_child child 0 in
    match word with
    | None => upd (and_complete false)
    | Some word =>
        match shell_node_arg word source with
        | Some (ArgLiteral value) =>
            let globbed := mem (nd_kind word) ["word"; "concatenation"]%string
              && match node_text word source with Some s => contains_any glob_chars s | None => false end in
            push (WordLiteral value) true
              (if globbed then on_script (and_eligible false) (ws_analysis st) else ws_analysis st)
        | Some ArgAmbiguous =>
            match node_text word source with
            | None => upd (and_complete false)
            | Some spelling =>
                let a := on_script set_unresolved (ws_analysis st) in
                match quoted_filename word source (an_assigned a) with
                | Some (name, safe) =>
                    push (WordUnresolved spelling) safe
                      (mkAnalysis (an_script a) (an_assigned a)
                         (if bool_decide (name ∈ an_assigned a) then {[name]} ∪ an_used a else an_used a))
                | None => push (WordUnresolved spelling) false (on_script (and_complete false) a)
                end
            end
        | None => upd (and_eligible false)
        end
    end.

Definition head_literal (words : list PermissionWord) : bool :=
  match words with WordLiteral _ :: _ => true | _ => false end.

Definition analyze_command (source : bytes) (a : Analysis) (node : Node) : Analysis :=
  let st := foldl (analyze_child source) (mkWordState a [] []) (named_children node) in
  on_script (fun s => push_command (ws_words st)
      (and_complete (head_literal (ws_words st))
        (and_eligible (readers_allow (ws_words st) (ws_safe st)) s)))
    (ws_analysis st).

Definition analyze_statement (source : bytes) (a : Analysis) (l : Loc) : Analysis :=
  if l_kind l =b $"variable_assignment" then analyze_assignment source a l
  else analyze_command source a (l_node l).

Definition MAX_NODES : nat := 4096.

Definition script_kinds : list string :=
  ["program"; "pipeline"; "list"; "command_name"; "word"; "number"; "raw_string"; "string";
   "string_content"; "concatenation"; "variable_name"; "simple_expansion"; "expansion"; "comment";
   ";"; "&&"; "||"; "|"; "="; "$"; "${"; "}"]%string.

Definition is_statement (k : bytes) : bool := mem k ["command"; "variable_assignment"]%string.

Definition known_kind (k : bytes) : bool := is_statement k || mem k script_kinds || (k =b [dquote]).

(** [PermissionScript::analyze] *)
Definition analyze (root : Node) (source : bytes) : PermissionScript :=
  let '(seen, pending) := visit MAX_NODES [root_loc root] in
  let complete := negb (nd_error root) && forallb (fun l => known_kind (l_kind l)) seen
                  && bool_decide (pending = []) in
  let statements := sort_by_key l_start (List.filter (fun l => is_statement (l_kind l)) seen) in
  let a := foldl (analyze_statement source)
             (mkAnalysis (mkScript [] complete true false) ∅ ∅) statements in
  let s := an_script a in
  and_eligible (sc_complete s && sc_unresolved s && negb (bool_decide (sc_commands s = []))
                && bool_decide (an_assigned a ⊆ an_used a)) s.

Definition is_eligible (s : PermissionScript) : bool := sc_eligible s.

Definition has_unresolved (s : PermissionScript) : bool := sc_complete s && sc_unresolved s.

Definition word_spelling (w : PermissionWord) : bytes :=
  match w with WordLiteral v | WordUnresolved v => v end.

Definition projections (s : PermissionScript) : list (list bytes) :=
  map (map word_spelling) (List.filter head_literal (sc_commands s)).

(** ** Eligible scripts run only readers *)

(** A command the recovery vouches for: its head is a literal reader name. *)
Definition reader_command (ws : list PermissionWord) : Prop :=
  ∃ head rest, ws = WordLiteral head :: rest ∧ mem head readers = true.

Lemma readers_allow_reader (ws : list PermissionWord) (safe : list bool) :
  readers_allow ws safe = true → reader_command ws.
Proof.
  unfold readers_allow. destruct ws as [|[head|?] rest]; try done.
  destruct (mem head readers) eqn:E; simpl; [|done]. intros _. by eexists _, _.
Qed.

(** Eligibility and completeness only go down while a script is analysed, and
    commands are only appended. *)
Definition extends (s s' : PermissionScript) : Prop :=
  (sc_eligible s' = true → sc_eligible s = true)
  ∧ (sc_complete s' = true → sc_complete s = true)
  ∧ sc_commands s `prefix_of` sc_commands s'.

#[export] Instance extends_preorder : PreOrder extends.
Proof.
  split; [by intros s; split_and!|].
  intros a b c (H1 & H2 & H3) (H4 & H5 & H6). split_and!; [auto|auto|by etrans].
Qed.

Lemma extends_and_eligible (b : bool) (s : PermissionScript) : extends s (and_eligible b s).
Proof. split_and!; simpl; [by intros [? _]%andb_true_iff|done|done]. Qed.

Lemma extends_and_complete (b : bool) (s : PermissionScript) : extends s (and_complete b s).
Proof. split_and!; simpl; [done|by intros [? _]%andb_true_iff|done]. Qed.

Lemma extends_unresolved (s : PermissionScript) : extends s (set_unresolved s).
Proof. by split_and!. Qed.

Lemma extends_push (ws : list PermissionWord) (s : PermissionScript) : extends s (push_command ws s).
Proof. split_and!; [done|done|by apply prefix_app_r]. Qed.

#[export] Hint Resolve extends_and_eligible extends_and_complete extends_unresolved extends_push : amore.

Lemma analyze_child_extends (source : bytes) (st : WordState) (child : Node) :
  extends (an_script (ws_analysis st)) (an_script (ws_analysis (analyze_child source st child)))
  ∧ sc_commands (an_script (ws_analysis (analyze_child source st child)))
    = sc_commands (an_script (ws_analysis st)).
Proof.
  unfold analyze_child. repeat case_match; simpl; (split; [|done]); auto with amore; try reflexivity;
    (etrans; [|apply extends_and_complete]); auto with amore.
Qed.

Lemma analyze_children_extends (source : bytes) (cs : list Node) (st : WordState) :
  let st' := foldl (analyze_child source) st cs in
  extends (an_script (ws_analysis st)) (an_script (ws_analysis st'))
  ∧ sc_commands (an_script (ws_analysis st')) = sc_commands (an_script (ws_analysis st)).
Proof.
  revert st. induction cs as [|c cs IH]; intros st; simpl; [by split; [reflexivity|]|].
  destruct (analyze_child_extends source st c) as [H1 H2].
  destruct (IH (analyze_child source st c)) as [H3 H4].
  split; [by etrans|congruence].
Qed.

(** The invariant of the statement loop. *)
Definition readers_only (s : PermissionScript) : Prop :=
  sc_eligible s = true → Forall reader_command (sc_commands s).

Lemma analyze_statement_readers (source : bytes) (a : Analysis) (l : Loc) :
  readers_only (an_script a) → readers_only (an_script (analyze_statement source a l)).
Proof.
  unfold analyze_statement. intros Hr. case_match.
  - unfold analyze_assignment. repeat case_match; simpl; unfold readers_only; simpl;
      intros [He _]%andb_true_iff; by apply Hr.
  - unfold analyze_command.
    set (st := foldl _ _ _).
    destruct (analyze_children_extends source (named_children (l_node l)) (mkWordState a [] []))
      as [(He & _ & _) Hc].
    fold st in He, Hc. simpl in He, Hc. unfold readers_only. simpl.
    intros [Hel Hra]%andb_true_iff. rewrite Hc. apply Forall_app. split.
    + by apply Hr, He.
    + constructor; [|done]. by eapply readers_allow_reader.
Qed.

Lemma analyze_loop_readers (source : bytes) (ls : list Loc) (a : Analysis) :
  readers_only (an_script a) → readers_only (an_script (foldl (analyze_statement source) a ls)).
Proof.
  revert a. induction ls as [|l ls IH]; intros a Ha; simpl; [done|].
  by apply IH, analyze_statement_readers.
Qed.

Lemma analyze_eligible (root : Node) (source : bytes) :
  let s := analyze root source in
  is_eligible s = true →
  sc_complete s = true ∧ sc_commands s ≠ [] ∧ Forall reader_command (sc_commands s).
Proof.
  unfold analyze, is_eligible. destruct (visit _ _) as [seen pending]. simpl.
  match goal with |- context [foldl ?f ?i ?l] => set (a := foldl f i l) end.
  assert (readers_only (an_script a)) as Hr.
  { apply analyze_loop_readers. by intros _; constructor. }
  intros [He H]%andb_true_iff. bool_prop. split_and!; [done|done|by apply Hr].
Qed.

(** An eligible script projects every one of its commands. *)
Lemma projections_eligible (root : Node) (source : bytes) :
  let s := analyze root source in
  is_eligible s = true → length (projections s) = length (sc_commands s).
Proof.
  intros s He. destruct (analyze_eligible root source He) as (_ & _ & Hf). fold s in Hf.
  unfold projections. rewrite length_map. clear He. induction Hf as [|ws l Hw Hf IH]; [done|].
  destruct Hw as (h & r & -> & _). simpl. by rewrite IH.
Qed.

(** A script whose expansions could not be resolved is recovered for allow
    rules only when it is complete, has a command, and each of its commands is
    a known read-only program named literally; and then the rules see every
    one of its commands. *)
Theorem eligible_scripts_only_read (root : Node) (source : bytes) :
  is_eligible (analyze root source) = true →
  sc_complete (analyze root source) = true
  ∧ sc_commands (analyze root source) ≠ []
  ∧ Forall reader_command (sc_commands (analyze root source))
  ∧ length (projections (analyze root source)) = length (sc_commands (analyze root source)).
Proof.
  intros He. destruct (analyze_eligible root source He) as (? & ? & ?).
  split_and!; [done..|]. by apply projections_eligible.
Qed.

(** The tree of ["ls "] followed by a quoted filename that starts with [./]. *)
Definition ls_quoted_src : bytes := $"ls " ++ [dquote] ++ $"./$f" ++ [dquote].

Definition ls_quoted : Node :=
  mkNode $"program" true None 0 9 false
    [mkNode $"command" true None 0 9 false
       [mkNode $"command_name" true None 0 2 false [mkNode $"word" true None 0 2 false []];
        mkNode $"string" true None 3 9 false
          [mkNode [dquote] false None 3 4 false [];
           mkNode $"string_content" true None 4 6 false [];
           mkNode $"simple_expansion" true None 6 8 false
             [mkNode $"$" false None 6 7 false []; mkNode $"variable_name" true None 7 8 false []];
           mkNode [dquote] false None 8 9 false []]]].

Lemma eligible_scripts_only_read_witness :
  is_eligible (analyze ls_quoted ls_quoted_src) = true
  ∧ Forall reader_command (sc_commands (analyze ls_quoted ls_quoted_src)).
Proof.
  assert (is_eligible (analyze ls_quoted ls_quoted_src) = true) as He by (vm_compute; reflexivity).
  split; [exact He|]. exact (proj1 (proj2 (proj2 (eligible_scripts_only_read _ _ He)))).
Defined.
