(* ===== verification/Paths.v ===== *)
(** * Paths and the spellings path rules match

    Rust's [std::path] on Unix, as far as the engine uses it; the lexical
    normaliser [normalize_lexically] of [crates/codegen/xai-grok-paths/src/lib.rs];
    and [crates/codegen/xai-grok-permission-rules/src/policy/path_match.rs]:
    the spellings a path rule is matched against, and symlink resolution.
    The file system is a parameter: class [FileSystem]. *)

From S2P Require Import Prelude RustStr.

(** ** [std::path::Path] on Unix: a byte string read as components *)

Inductive Component := RootDir | CurDir | ParentDir | Normal (s : bytes).

#[export] Instance Component_eq_dec : EqDecision Component.
Proof. solve_decision. Defined.

Definition dot : bytes := $".".
Definition dotdot : bytes := $"..".

(** One piece between separators; empty and [.] pieces are no components. *)
Definition comp_of_seg (seg : bytes) : option Component :=
  if (seg =b []) || (seg =b dot) then None
  else if seg =b dotdot then Some ParentDir
  else Some (Normal seg).

Definition body_components (segs : list bytes) : list Component := omap comp_of_seg segs.

(** How a path starts, with the pieces of its body. *)
Inductive PathStart := StartRoot | StartCur | StartNone.

Definition path_parts (p : bytes) : PathStart * list bytes :=
  match p with
  | a :: r =>
      if bool_decide (a = slash) then (StartRoot, split_on slash r)
      else match split_on slash p with
           | s :: rest => if s =b dot then (StartCur, rest) else (StartNone, s :: rest)
           | [] => (StartNone, [])
           end
  | [] => (StartNone, [[]])
  end.

Definition start_components (s : PathStart) : list Component :=
  match s with StartRoot => [RootDir] | StartCur => [CurDir] | StartNone => [] end.

Definition components (p : bytes) : list Component :=
  let '(s, segs) := path_parts p in start_components s ++ body_components segs.

Definition is_absolute (p : bytes) : bool := starts_with [slash] p.

(** [PathBuf::push] *)
Definition push (buf p : bytes) : bytes :=
  if is_absolute p then p
  else buf ++ match last buf with
              | Some c => if bool_decide (c = slash) then [] else [slash]
              | None => []
              end ++ p.

Definition comp_str (c : Component) : bytes :=
  match c with RootDir => [slash] | CurDir => dot | ParentDir => dotdot | Normal s => s end.

(** [components.into_iter().collect::<PathBuf>()] *)
Definition from_components (cs : list Component) : bytes :=
  foldl (fun buf c => push buf (comp_str c)) [] cs.

(** Pieces left after [n] components, leading empty and [.] pieces dropped. *)
Fixpoint drop_comps (n : nat) (segs : list bytes) : list bytes :=
  match segs with
  | [] => []
  | s :: r =>
      match comp_of_seg s with
      | None => drop_comps n r
      | Some _ => match n with 0 => segs | S n' => drop_comps n' r end
      end
  end.

Definition trim_segs (segs : list bytes) : list bytes := reverse (drop_comps 0 (reverse segs)).

(** [Components::as_path] after [k] components were taken from the front. *)
Definition rest_text (p : bytes) (k : nat) : bytes :=
  let '(st, segs) := path_parts p in
  match k with
  | 0 => match st with
         | StartRoot => slash :: join [slash] (trim_segs segs)
         | StartCur => join [slash] (dot :: trim_segs segs)
         | StartNone => join [slash] (trim_segs segs)
         end
  | S _ => join [slash] (trim_segs (drop_comps (k - length (start_components st)) segs))
  end.

(** [Path::strip_prefix] *)
Definition path_strip_prefix (p base : bytes) : option bytes :=
  if bool_decide (components base `prefix_of` components p)
  then Some (rest_text p (length (components base))) else None.

(** [Path::parent] and [Path::file_name] *)
Definition parent (p : bytes) : option bytes :=
  let '(st, segs) := path_parts p in
  let segs := trim_segs segs in
  let up := trim_segs (removelast segs) in
  match st, segs with
  | StartRoot, [] => None
  | StartRoot, _ => Some (slash :: join [slash] up)
  | StartCur, [] => Some []
  | StartCur, _ => Some (join [slash] (dot :: up))
  | StartNone, [] => None
  | StartNone, _ => Some (join [slash] up)
  end.

Definition file_name (p : bytes) : option bytes :=
  match last (components p) with Some (Normal s) => Some s | _ => None end.

(** ** [normalize_lexically] *)

(** One turn of the component loop; [acc] is the [Vec], last element first. *)
Definition normalize_step (acc : list Component) (c : Component) : list Component :=
  match c with
  | CurDir => acc
  | ParentDir =>
      match acc with
      | Normal _ :: acc' => acc'
      | RootDir :: _ => acc
      | _ => ParentDir :: acc
      end
  | _ => c :: acc
  end.

Definition normalize_components (cs : list Component) : list Component :=
  reverse (foldl normalize_step [] cs).

Definition normalize_lexically (p : bytes) : bytes :=
  match normalize_components (components p) with
  | [] => dot
  | cs => from_components cs
  end.

(** ** The file system the resolver asks *)

Inductive LinkMetadata := MetaSymlink | MetaOther | MetaNotFound | MetaError.

Class FileSystem := {
  canonicalize : bytes → option bytes;
  symlink_metadata : bytes → LinkMetadata;
  read_link : bytes → option bytes;
}.

Section WithFileSystem.
Context `{FileSystem}.

Definition MAX_SYMLINK_DEPTH : nat := 40.

(** [walk path depth]; [n] is the number of levels left, [None] at depth 41. *)
Fixpoint resolve_walk (n : nat) (path : bytes) : option bytes :=
  match n with
  | 0 => None
  | S n' =>
      match canonicalize path with
      | Some c => Some c
      | None =>
          par ← parent path;
          name ← file_name path;
          resolved_parent ← resolve_walk n' par;
          let candidate := push resolved_parent name in
          match symlink_metadata candidate with
          | MetaError => None
          | MetaSymlink =>
              target ← read_link candidate;
              resolve_walk n' (if is_absolute target then target else push resolved_parent target)
          | MetaOther | MetaNotFound => Some candidate
          end
      end
  end.

Definition resolve_following_symlinks (path : bytes) : option bytes :=
  resolve_walk (S MAX_SYMLINK_DEPTH) path.

(** ** Spellings *)

Record RuleBase := mkRuleBase {
  rb_lexical : bytes;
  rb_lexical_normalized : bytes;
  rb_physical : option bytes;
}.

(** [RuleBase::new], with the physical form it computes on first use. *)
Definition RuleBase_new (cwd : bytes) : RuleBase :=
  mkRuleBase cwd (normalize_lexically cwd)
    (if is_absolute cwd then
       p ← resolve_following_symlinks cwd;
       if bool_decide (components p = components (normalize_lexically cwd)) then None else Some p
     else None).

Definition without_physical (b : RuleBase) : RuleBase :=
  mkRuleBase (rb_lexical b) (rb_lexical_normalized b) None.

Definition path_match_string (p : bytes) : bytes :=
  map (fun a => if bool_decide (a = backslash) then slash else a) p.

Definition path_has_parent_dir (p : bytes) : bool := bool_decide (ParentDir ∈ components p).

Definition is_tilde_path (p : bytes) : bool :=
  match components p with Normal first :: _ => starts_with $"~" first | _ => false end.

Definition absolute_normalized_path (path : bytes) (cwd : option bytes) : bytes :=
  if is_tilde_path path then path
  else normalize_lexically
         match cwd with
         | Some cwd => if negb (is_absolute path) then push cwd path else path
         | None => path
         end.

Definition raw_absolute_tool_path (path : bytes) (cwd : option bytes) : option bytes :=
  if is_tilde_path path then None
  else
    let joined := match cwd with
                  | Some cwd => if negb (is_absolute path) then push cwd path else path
                  | None => path
                  end in
    if is_absolute joined then Some (path_match_string joined) else None.

(** The relative spelling under the written or the physical cwd, with the
    extra absolute spelling a physical match adds. *)
Definition relative_to_base (path abs : bytes) (b : RuleBase) : list bytes * option bytes :=
  match path_strip_prefix abs (rb_lexical_normalized b) with
  | Some rel => ([], Some rel)
  | None =>
      if path_has_parent_dir path then ([], None)
      else match (phys ← rb_physical b; path_strip_prefix abs phys) with
           | None => ([], None)
           | Some rel =>
               ([path_match_string
                   (from_components (components (rb_lexical_normalized b) ++ components rel))],
                Some rel)
           end
  end.

Definition path_match_forms (path : bytes) (base : option RuleBase) : list bytes :=
  let abs := absolute_normalized_path path (rb_lexical <$> base) in
  path_match_string abs ::
  match base with
  | Some b =>
      let '(written, rel) := relative_to_base path abs b in
      written ++
      match rel with
      | Some rel =>
          let rel_s := path_match_string rel in
          if (rel_s =b []) || (rel_s =b dot) then [dot; $"./"]
          else [$"./" ++ rel_s; rel_s]
      | None => []
      end
  | None =>
      if negb (is_absolute abs) && negb (path_has_parent_dir abs) && negb (is_tilde_path abs) then
        let lex_s := path_match_string abs in
        if negb (lex_s =b dot) && negb (lex_s =b []) then [$"./" ++ lex_s] else []
      else []
  end.

(** ** Following symlinks *)

Fixpoint symlink_on_path (prefix : bytes) (cs : list Component) : bool :=
  match cs with
  | [] => false
  | c :: r =>
      let prefix := push prefix (comp_str c) in
      match symlink_metadata prefix with
      | MetaSymlink => true
      | _ => symlink_on_path prefix r
      end
  end.

Definition path_has_symlink (absolute : bytes) : bool :=
  is_absolute absolute && symlink_on_path [] (components absolute).

Definition resolve_symlink_target (absolute : bytes) : option bytes :=
  if negb (is_absolute absolute) then None
  else resolved ← resolve_following_symlinks absolute;
       Some (path_match_string (normalize_lexically resolved)).

Inductive SymlinkFollow := FollowNone | FollowTarget (t : bytes) | FollowUnresolvable.

Definition follow_absolute_symlink (raw_absolute lexical_absolute : bytes) : SymlinkFollow :=
  match resolve_symlink_target raw_absolute with
  | Some resolved => if resolved =b lexical_absolute then FollowNone else FollowTarget resolved
  | None => if path_has_symlink raw_absolute then FollowUnresolvable else FollowNone
  end.

End WithFileSystem.

Example normalize_ex : normalize_lexically $"/a/./b//../c/.." = $"/a".
Proof. vm_compute. reflexivity. Qed.

Example strip_ex : path_strip_prefix $"/w/src/main.rs" $"/w" = Some $"src/main.rs".
Proof. vm_compute. reflexivity. Qed.

(** ** Components and text agree *)

(** A component that stands in the body of a normalised path. *)
Definition body_comp (c : Component) : Prop :=
  match c with
  | ParentDir => True
  | Normal s => comp_of_seg s = Some (Normal s) ∧ slash ∉ s
  | RootDir | CurDir => False
  end.

Lemma body_comp_seg (c : Component) :
  body_comp c → comp_of_seg (comp_str c) = Some c ∧ slash ∉ comp_str c.
Proof.
  destruct c as [| | |s]; simpl; try done. intros _. split; [done|].
  by apply contains_byte_false.
Qed.

Lemma comp_of_seg_body (s : bytes) (c : Component) :
  slash ∉ s → comp_of_seg s = Some c → body_comp c.
Proof.
  intros Hs Hc. unfold comp_of_seg in Hc. case_match eqn:E1; [done|]. case_match eqn:E2; simplify_eq.
  - done.
  - simpl. unfold comp_of_seg. by rewrite E1, E2.
Qed.

Lemma body_components_body (segs : list bytes) :
  Forall (fun s => slash ∉ s) segs → Forall body_comp (body_components segs).
Proof.
  induction 1 as [|s segs Hs _ IH]; [constructor|]. unfold body_components in *. simpl.
  destruct (comp_of_seg s) eqn:E; [|done]. constructor; [by eapply comp_of_seg_body|done].
Qed.

Lemma split_on_Forall (s : bytes) : Forall (fun w => slash ∉ w) (split_on slash s).
Proof. apply Forall_forall. intros w. apply split_on_no_sep. Qed.

Lemma path_parts_segs (p : bytes) : Forall (fun s => slash ∉ s) (path_parts p).2.
Proof.
  unfold path_parts. destruct p as [|a r].
  { constructor; [set_solver|constructor]. }
  case_bool_decide; [apply split_on_Forall|].
  pose proof (split_on_Forall (a :: r)) as Hf. destruct (split_on slash (a :: r)) as [|s rest]; [done|].
  inversion Hf; subst. by destruct (s =b dot).
Qed.

(** Components of any path: at most a leading [RootDir] or [CurDir], then a body. *)
Lemma components_shape (p : bytes) :
  ∃ st body, components p = start_components st ++ body ∧ Forall body_comp body
             ∧ (is_absolute p = true ↔ st = StartRoot).
Proof.
  unfold components. pose proof (path_parts_segs p) as Hf.
  destruct (path_parts p) as [st segs] eqn:E. exists st, (body_components segs).
  split_and!; [done|by apply body_components_body|].
  unfold path_parts in E. unfold is_absolute. destruct p as [|a r].
  - simplify_eq. by rewrite starts_with_cons_nil.
  - rewrite starts_with_cons, starts_with_nil, andb_true_r, bool_decide_eq_true.
    case_bool_decide; [naive_solver|]. repeat case_match; naive_solver.
Qed.

Definition body_text (body : list Component) : bytes := join [slash] (map comp_str body).

Lemma body_strs (body : list Component) :
  Forall body_comp body → Forall (fun w => slash ∉ w) (map comp_str body).
Proof. induction 1 as [|c l Hc _ IH]; constructor; [by apply body_comp_seg|done]. Qed.

Lemma body_components_strs (body : list Component) :
  Forall body_comp body → body_components (map comp_str body) = body.
Proof.
  induction 1 as [|c l Hc _ IH]; [done|]. unfold body_components in *. cbn [map omap list_omap].
  destruct (body_comp_seg c Hc) as [-> _]. f_equal. exact IH.
Qed.

Lemma body_split (body : list Component) :
  Forall body_comp body → body_components (split_on slash (body_text body)) = body.
Proof.
  intros Hb. unfold body_text. destruct body as [|c body]; [done|].
  rewrite split_join; [by apply body_components_strs|done|by apply body_strs].
Qed.

Lemma comp_str_nonempty (c : Component) : body_comp c → comp_str c ≠ [] ∧ is_absolute (comp_str c) = false.
Proof.
  intros [Hs Hn]%body_comp_seg. destruct (comp_str c) as [|a r] eqn:E; [done|]. split; [done|].
  unfold is_absolute. rewrite starts_with_cons. rewrite bool_decide_eq_false_2; [done|]. set_solver.
Qed.

Lemma last_not_slash (c : Component) :
  body_comp c → ∃ a, last (comp_str c) = Some a ∧ a ≠ slash.
Proof.
  intros Hc. destruct (comp_str_nonempty c Hc) as [Hne _]. destruct (body_comp_seg c Hc) as [_ Hs].
  destruct (last (comp_str c)) as [a|] eqn:E; [|by apply last_None in E].
  exists a. split; [done|]. intros ->. apply Hs. by apply last_Some_elem_of.
Qed.

(** Pushing body components onto text that needs a separator. *)
Lemma push_body (buf : bytes) (body : list Component) :
  Forall body_comp body → (∃ a, last buf = Some a ∧ a ≠ slash) →
  foldl (fun b c => push b (comp_str c)) buf body
  = buf ++ concat (map (fun c => slash :: comp_str c) body).
Proof.
  intros Hb. revert buf. induction Hb as [|c body Hc Hb IH]; intros buf (a & Ha & Hs); simpl.
  { by rewrite app_nil_r. }
  destruct (comp_str_nonempty c Hc) as [Hne Habs].
  assert (push buf (comp_str c) = buf ++ slash :: comp_str c) as ->.
  { unfold push. rewrite Habs, Ha, bool_decide_eq_false_2 by done. done. }
  rewrite IH; [by rewrite <-app_assoc|].
  destruct (last_not_slash c Hc) as (d & Hd & Hds). exists d. split; [|done].
  by rewrite last_app, last_cons, Hd.
Qed.

Lemma join_concat (c : Component) (body : list Component) :
  body_text (c :: body) = comp_str c ++ concat (map (fun c => slash :: comp_str c) body).
Proof.
  unfold body_text. revert c. induction body as [|d body IH]; intros c; simpl.
  - by rewrite app_nil_r.
  - simpl in IH. by rewrite IH.
Qed.

(** Paths as [from_components] writes them: an optional root and a body. *)
Definition written (cs : list Component) : Prop :=
  Forall body_comp cs ∨ ∃ body, cs = RootDir :: body ∧ Forall body_comp body.

Lemma from_body (body : list Component) :
  Forall body_comp body → from_components body = body_text body.
Proof.
  intros Hb. unfold from_components. destruct Hb as [|c body Hc Hb]; [done|]. simpl.
  destruct (comp_str_nonempty c Hc) as [Hne Habs].
  assert (push [] (comp_str c) = comp_str c) as ->.
  { unfold push. by rewrite Habs. }
  rewrite push_body by (done || by apply last_not_slash). by rewrite join_concat.
Qed.

Lemma from_root (body : list Component) :
  Forall body_comp body → from_components (RootDir :: body) = slash :: body_text body.
Proof.
  intros Hb. unfold from_components. simpl.
  assert (push [] [slash] = [slash]) as -> by done.
  destruct Hb as [|c body Hc Hb]; [done|]. simpl.
  destruct (comp_str_nonempty c Hc) as [Hne Habs].
  assert (push [slash] (comp_str c) = slash :: comp_str c) as ->.
  { unfold push. rewrite Habs. done. }
  destruct (last_not_slash c Hc) as (d & Hd & Hds).
  rewrite push_body; [by rewrite join_concat|done|].
  exists d. split; [|done]. by rewrite last_cons, Hd.
Qed.

Lemma body_parts (body : list Component) :
  Forall body_comp body → path_parts (body_text body) = (StartNone, split_on slash (body_text body)).
Proof.
  intros Hb. destruct Hb as [|c body Hc Hb]; [done|].
  assert (Forall body_comp (c :: body)) as Hcb by by constructor.
  pose proof (split_join slash (map comp_str (c :: body)) ltac:(done) (body_strs _ Hcb)) as Hsp.
  fold (body_text (c :: body)) in Hsp. rewrite Hsp.
  destruct (comp_str_nonempty c Hc) as [Hne _]. destruct (body_comp_seg c Hc) as [Hseg Hsl].
  assert (∃ a r, body_text (c :: body) = a :: r ∧ a ≠ slash) as (a & r & Ht & Ha).
  { rewrite join_concat. destruct (comp_str c) as [|a r]; [done|]. eexists a, _.
    split; [done|]. set_solver. }
  unfold path_parts. rewrite Ht, bool_decide_eq_false_2, <-Ht, Hsp by done. cbn [map].
  destruct (comp_str c =b dot) eqn:Ed; [|done]. apply beq_true in Ed. by rewrite Ed in Hseg.
Qed.

(** Reading back what [from_components] wrote. *)
Lemma components_from (cs : list Component) : written cs → components (from_components cs) = cs.
Proof.
  intros [Hb|(body & -> & Hb)]; unfold components.
  - rewrite from_body, body_parts by done. simpl. by apply body_split.
  - rewrite from_root by done. simpl. by rewrite body_split.
Qed.

Lemma drop_comps_strs (n : nat) (body : list Component) :
  Forall body_comp body → drop_comps n (map comp_str body) = map comp_str (drop n body).
Proof.
  intros Hb. revert n. induction Hb as [|c body Hc Hb IH]; intros n; [by rewrite drop_nil|]. simpl.
  destruct (body_comp_seg c Hc) as [-> _]. destruct n as [|n]; [done|]. apply IH.
Qed.

Lemma map_reverse {A B} (f : A → B) (l : list A) : map f (reverse l) = reverse (map f l).
Proof. induction l as [|x l IH]; [done|]. simpl. by rewrite !reverse_cons, map_app, IH. Qed.

Lemma trim_segs_strs (body : list Component) :
  Forall body_comp body → trim_segs (map comp_str body) = map comp_str body.
Proof.
  intros Hb. unfold trim_segs. rewrite <-map_reverse, drop_comps_strs by by apply Forall_reverse.
  by rewrite drop_0, map_reverse, reverse_involutive.
Qed.

(** Stripping a non-empty prefix of an absolute written path leaves the rest. *)
Lemma strip_prefix_from (body : list Component) (base rel : bytes) :
  Forall body_comp body → components base ≠ [] →
  path_strip_prefix (from_components (RootDir :: body)) base = Some rel →
  ∃ tail, RootDir :: body = components base ++ tail ∧ Forall body_comp tail
          ∧ rel = from_components tail.
Proof.
  intros Hb Hne. unfold path_strip_prefix.
  rewrite components_from by (right; by eexists).
  case_bool_decide as Hp; [|done]. intros [= <-]. destruct Hp as [tail Ht].
  destruct (components base) as [|c0 cb] eqn:Eb; [done|].
  exists tail. simpl in Ht. injection Ht as <- ->.
  apply Forall_app in Hb as [Hcb Htail]. split_and!; [done|done|].
  rewrite from_root by by apply Forall_app.
  unfold rest_text. cbn [path_parts]. rewrite bool_decide_eq_true_2 by done. cbn [length].
  rewrite from_body by done. simpl. rewrite Nat.sub_0_r.
  destruct (decide (cb ++ tail = [])) as [[-> ->]%app_nil|Hnn]; [done|].
  unfold body_text at 1. rewrite split_join; [| |by apply body_strs, Forall_app].
  2: { intros Hm. apply Hnn. by destruct (cb ++ tail). }
  rewrite drop_comps_strs by by apply Forall_app. rewrite drop_app_length.
  by rewrite trim_segs_strs.
Qed.

(** ** Normal forms *)

(** After normalisation: no [.], no [..] below a name or the root.  The list
    is the [Vec] in push order reversed, as in [normalize_step]. *)
Fixpoint canonical_rev (acc : list Component) : Prop :=
  match acc with
  | [] => True
  | CurDir :: _ => False
  | RootDir :: r => r = []
  | ParentDir :: r => Forall (eq ParentDir) r
  | Normal _ :: r => canonical_rev r
  end.

Lemma parents_canonical (acc : list Component) : Forall (eq ParentDir) acc → canonical_rev acc.
Proof. destruct 1 as [|c l <- Hl]; done. Qed.

Lemma normalize_step_canonical (acc : list Component) (c : Component) :
  canonical_rev acc → (c = RootDir → acc = []) → canonical_rev (normalize_step acc c).
Proof.
  intros Ha Hr. destruct c as [| | |s]; simpl; [by apply Hr|done| |done].
  destruct acc as [|[| | |s] acc]; simpl in *; try done. by constructor.
Qed.

Lemma normalize_fold_canonical (cs acc : list Component) :
  canonical_rev acc → Forall body_comp cs → canonical_rev (foldl normalize_step acc cs).
Proof.
  intros Ha Hb. revert acc Ha. induction Hb as [|c cs Hc Hb IH]; intros acc Ha; [done|]. simpl.
  apply IH. apply normalize_step_canonical; [done|]. by intros ->.
Qed.

Lemma normalize_fold_body (cs acc : list Component) :
  Forall body_comp acc → Forall body_comp cs → Forall body_comp (foldl normalize_step acc cs).
Proof.
  intros Ha Hb. revert acc Ha. induction Hb as [|c cs Hc Hb IH]; intros acc Ha; [done|]. simpl.
  apply IH. destruct c as [| | |s]; simpl in *; try done; [|by constructor].
  destruct acc as [|[| | |t] acc]; simpl; [by repeat constructor|..]; inversion Ha; subst; try done.
  by repeat constructor.
Qed.

(** The root stays: folding over a body with the root at the bottom. *)
Lemma normalize_fold_root (cs acc : list Component) :
  Forall (fun c => ∃ s, c = Normal s ∧ body_comp c) acc → Forall body_comp cs →
  ∃ names, foldl normalize_step (acc ++ [RootDir]) cs = names ++ [RootDir]
           ∧ Forall (fun c => ∃ s, c = Normal s ∧ body_comp c) names.
Proof.
  intros Ha Hb. revert acc Ha. induction Hb as [|c cs Hc Hb IH]; intros acc Ha; simpl; [by exists acc|].
  destruct c as [| | |s]; try done.
  - destruct Ha as [|d acc (s & -> & Hs) Ha]; simpl; [by apply (IH [])|by apply IH].
  - apply (IH (Normal s :: acc)). constructor; [by eexists|done].
Qed.

Definition is_name (c : Component) : Prop := ∃ s, c = Normal s ∧ body_comp c.

Lemma names_body (cs : list Component) : Forall is_name cs → Forall body_comp cs.
Proof. intros H. eapply Forall_impl; [done|]. by intros c (s & -> & ?). Qed.

(** Normalising an absolute path: a root followed by names only. *)
Lemma normalize_absolute (p : bytes) :
  is_absolute p = true →
  ∃ names, normalize_lexically p = from_components (RootDir :: names) ∧ Forall is_name names
           ∧ components (normalize_lexically p) = RootDir :: names.
Proof.
  intros Habs. destruct (components_shape p) as (st & body & Hc & Hb & Hst).
  apply Hst in Habs as ->. unfold normalize_lexically, normalize_components. rewrite Hc. simpl.
  destruct (normalize_fold_root body [] ltac:(constructor) Hb) as (names & Hf & Hn).
  simpl in Hf. rewrite Hf, reverse_app. simpl.
  exists (reverse names). assert (Forall is_name (reverse names)) as Hrn by by apply Forall_reverse.
  split_and!; [done|done|]. apply components_from. right. eexists. split; [done|]. by apply names_body.
Qed.

Lemma canonical_tail (c : Component) (acc : list Component) :
  canonical_rev (c :: acc) → canonical_rev acc.
Proof.
  destruct c as [| | |s]; simpl; [by intros ->|done| |done]. by intros ?%parents_canonical.
Qed.

(** A canonical list is a fixed point of the normaliser's loop. *)
Lemma normalize_fold_fix (acc : list Component) :
  canonical_rev acc → foldl normalize_step [] (reverse acc) = acc.
Proof.
  induction acc as [|c acc IH]; [done|]. intros Hc. rewrite reverse_cons, foldl_app.
  rewrite IH by by eapply canonical_tail. simpl.
  destruct c as [| | |s]; simpl in *; try done.
  destruct Hc as [|d l <- Hl]; done.
Qed.

Lemma normalize_components_shape (p : bytes) :
  written (normalize_components (components p))
  ∧ canonical_rev (reverse (normalize_components (components p))).
Proof.
  destruct (components_shape p) as (st & body & Hc & Hb & Hst). unfold normalize_components.
  rewrite Hc, foldl_app, reverse_involutive. destruct st; simpl.
  - destruct (normalize_fold_root body [] ltac:(constructor) Hb) as (names & Hf & Hn). simpl in Hf.
    split; [|by apply normalize_fold_canonical]. rewrite Hf, reverse_app. right. eexists.
    split; [done|]. apply names_body. by apply Forall_reverse.
  - split; [|by apply normalize_fold_canonical]. left. apply Forall_reverse.
    by apply normalize_fold_body.
  - split; [|by apply normalize_fold_canonical]. left. apply Forall_reverse.
    by apply normalize_fold_body.
Qed.

Lemma push_absolute (buf p : bytes) : is_absolute buf = true → is_absolute (push buf p) = true.
Proof.
  unfold push. destruct (is_absolute p) eqn:E; [done|]. unfold is_absolute.
  destruct buf as [|a r]; [by rewrite starts_with_cons_nil|].
  rewrite starts_with_cons, starts_with_nil, andb_true_r, bool_decide_eq_true. intros <-.
  rewrite <-app_comm_cons, starts_with_cons, starts_with_nil. by rewrite bool_decide_eq_true_2.
Qed.

Lemma match_string_absolute (p : bytes) :
  is_absolute p = true → is_absolute (path_match_string p) = true.
Proof.
  unfold is_absolute, path_match_string. destruct p as [|a r]; [done|].
  rewrite starts_with_cons, starts_with_nil, andb_true_r, bool_decide_eq_true. intros <-.
  reflexivity.
Qed.

Lemma from_root_absolute (body : list Component) :
  Forall body_comp body → is_absolute (from_components (RootDir :: body)) = true.
Proof. intros Hb. by rewrite from_root. Qed.

Lemma absolute_components (p : bytes) : is_absolute p = true → ∃ cs, components p = RootDir :: cs.
Proof.
  intros Ha. destruct (components_shape p) as (st & body & -> & _ & Hst).
  apply Hst in Ha as ->. by eexists.
Qed.

(** A spelling without text, or one that reads [.], is the base itself. *)
Lemma trivial_spelling (tail : list Component) :
  Forall is_name tail →
  (path_match_string (from_components tail) =b []) || (path_match_string (from_components tail) =b dot) = true →
  tail = [].
Proof.
  intros Hn Ht. pose proof (components_from tail (or_introl (names_body _ Hn))) as Hc.
  apply orb_true_iff in Ht as [Ht%beq_true|Ht%beq_true].
  - destruct (from_components tail); [|done]. done.
  - assert (from_components tail = dot) as E.
    { destruct (from_components tail) as [|a [|? ?]]; try done. simpl in Ht.
      case_bool_decide; [done|]. done. }
    rewrite E in Hc. destruct Hn as [|c tl (s & -> & _) _]; done.
Qed.

(** What [std::fs::canonicalize] documents: its answer is absolute. *)
Class FileSystemLaws `{FileSystem} : Prop := {
  canonicalize_absolute : ∀ p c, canonicalize p = Some c → is_absolute c = true;
}.

Section Containment.
Context `{FileSystemLaws}.

Lemma file_name_relative (p name : bytes) : file_name p = Some name → is_absolute name = false.
Proof.
  unfold file_name. destruct (last (components p)) as [c|] eqn:E; [|done].
  destruct c as [| | |s]; try done. intros [= <-].
  destruct (components_shape p) as (st & body & Hc & Hb & _).
  apply last_Some_elem_of in E. rewrite Hc, elem_of_app in E.
  destruct E as [E|E]; [destruct st; set_solver|].
  rewrite Forall_forall in Hb. by destruct (comp_str_nonempty _ (Hb _ E)).
Qed.

(** Resolution answers with an absolute path at every depth. *)
Lemma resolve_walk_absolute (n : nat) (path r : bytes) :
  resolve_walk n path = Some r → is_absolute r = true.
Proof.
  revert path r. induction n as [|n IH]; intros path r; simpl; [done|].
  destruct (canonicalize path) as [c|] eqn:Ec.
  { intros [= <-]. by eapply canonicalize_absolute. }
  destruct (parent path) as [par|]; [|done]. simpl.
  destruct (file_name path) as [name|] eqn:En; [|done]. simpl.
  destruct (resolve_walk n par) as [rp|] eqn:Er; [|done]. simpl.
  apply IH in Er.
  destruct (symlink_metadata (push rp name)); try done.
  - destruct (read_link (push rp name)); [|done]. simpl. apply IH.
  - intros [= <-]. by apply push_absolute.
  - intros [= <-]. by apply push_absolute.
Qed.

(** Stripping an absolute base from an absolute normalised path. *)
Lemma strip_normalized (p base rel : bytes) :
  is_absolute p = true → is_absolute base = true →
  path_strip_prefix (normalize_lexically p) base = Some rel →
  ∃ tail, components (normalize_lexically p) = components base ++ tail ∧ Forall is_name tail
          ∧ rel = from_components tail.
Proof.
  intros Hp Hb Hs. destruct (normalize_absolute p Hp) as (names & Hn & Hnames & Hc).
  destruct (absolute_components base Hb) as [cs Hcs].
  rewrite Hn in Hs. apply strip_prefix_from in Hs as (tail & Ht & Htail & ->);
    [|by apply names_body|by rewrite Hcs].
  exists tail. rewrite Hc. split_and!; [done| |done].
  rewrite Hcs in Ht. injection Ht as ->. by apply Forall_app in Hnames as [_ ?].
Qed.

Lemma normalize_is_absolute (p : bytes) : is_absolute p = true → is_absolute (normalize_lexically p) = true.
Proof.
  intros (names & -> & Hn & _)%normalize_absolute. by apply from_root_absolute, names_body.
Qed.

Lemma absolute_tool_path (cwd path : bytes) :
  is_absolute cwd = true → is_tilde_path path = false →
  ∃ joined, is_absolute joined = true
            ∧ absolute_normalized_path path (Some cwd) = normalize_lexically joined.
Proof.
  intros Hc Ht. unfold absolute_normalized_path. rewrite Ht.
  destruct (is_absolute path) eqn:E; simpl; eexists; (split; [|done]); [done|by apply push_absolute].
Qed.

Definition relative_spelling (tail : list Component) (form : bytes) : Prop :=
  form = path_match_string (from_components tail)
  ∨ form = $"./" ++ path_match_string (from_components tail)
  ∨ (tail = [] ∧ (form = dot ∨ form = $"./")).

Lemma relative_to_base_spec (cwd path joined : bytes) (written : list bytes) (rel : option bytes) :
  is_absolute cwd = true → is_absolute joined = true →
  relative_to_base path (normalize_lexically joined) (RuleBase_new cwd) = (written, rel) →
  Forall (fun w => is_absolute w = true) written
  ∧ ∀ r, rel = Some r → ∃ base tail,
      (base = normalize_lexically cwd ∨ resolve_following_symlinks cwd = Some base)
      ∧ components (normalize_lexically joined) = components base ++ tail
      ∧ Forall is_name tail ∧ r = from_components tail.
Proof.
  intros Hcwd Hj. unfold relative_to_base. cbn [RuleBase_new rb_lexical_normalized rb_physical].
  rewrite Hcwd. destruct (path_strip_prefix _ (normalize_lexically cwd)) as [r|] eqn:E.
  { intros [= <- <-]. split; [constructor|]. intros ? [= <-].
    apply strip_normalized in E as (tail & ? & ? & ->); [|done|by apply normalize_is_absolute].
    exists (normalize_lexically cwd), tail. eauto. }
  destruct (path_has_parent_dir path); [by intros [= <- <-]|].
  destruct (resolve_following_symlinks cwd) as [phys|] eqn:Er; [|by intros [= <- <-]]. simpl.
  case_bool_decide; [by intros [= <- <-]|]. simpl.
  destruct (path_strip_prefix _ phys) as [r|] eqn:E2; [|by intros [= <- <-]].
  apply strip_normalized in E2 as (tail & Ht & Hn & ->); [|done|by eapply resolve_walk_absolute].
  intros [= <- <-]. split.
  - constructor; [|constructor]. apply match_string_absolute.
    destruct (normalize_absolute cwd Hcwd) as (names & _ & Hnames & ->).
    rewrite components_from by (left; by apply names_body).
    apply from_root_absolute, Forall_app. split; by apply names_body.
  - intros ? [= <-]. exists phys, tail. eauto.
Qed.

(** Every relative spelling a path rule sees lies below the working directory
    (as written or as resolved): what is left after the base is a list of
    plain names, so [..] in the tool's path cannot make it match [./**]. *)
Theorem relative_forms_contained (cwd path form : bytes) :
  is_absolute cwd = true → is_tilde_path path = false →
  form ∈ path_match_forms path (Some (RuleBase_new cwd)) → is_absolute form = false →
  ∃ base tail,
    (base = normalize_lexically cwd ∨ resolve_following_symlinks cwd = Some base)
    ∧ components (absolute_normalized_path path (Some cwd)) = components base ++ tail
    ∧ Forall is_name tail ∧ relative_spelling tail form.
Proof.
  intros Hcwd Htl Hin Hf. destruct (absolute_tool_path cwd path Hcwd Htl) as (joined & Hj & Habs).
  unfold path_match_forms in Hin. cbn [fmap option_fmap option_map] in Hin.
  change (rb_lexical (RuleBase_new cwd)) with cwd in Hin. rewrite Habs in *.
  apply elem_of_cons in Hin as [->|Hin].
  { by rewrite match_string_absolute in Hf by by apply normalize_is_absolute. }
  destruct (relative_to_base _ _ _) as [written rel] eqn:E.
  apply relative_to_base_spec in E as [Hw Hr]; [|done|done].
  apply elem_of_app in Hin as [Hin|Hin].
  { rewrite Forall_forall in Hw. by rewrite (Hw _ Hin) in Hf. }
  destruct rel as [r|]; [|set_solver].
  destruct (Hr r eq_refl) as (base & tail & Hbase & Hcs & Hn & ->).
  exists base, tail. split_and!; [done..|]. unfold relative_spelling. case_match eqn:Et.
  - apply trivial_spelling in Et; [|done]. set_solver.
  - set_solver.
Qed.

End Containment.

(** Lexical normalisation is idempotent: a normalised path is its own normal form. *)
Theorem normalize_idempotent (p : bytes) :
  normalize_lexically (normalize_lexically p) = normalize_lexically p.
Proof.
  unfold normalize_lexically at 2 3. destruct (normalize_components_shape p) as [Hw Hc].
  destruct (normalize_components (components p)) as [|c cs] eqn:E; [done|].
  unfold normalize_lexically. rewrite components_from by done. unfold normalize_components.
  pose proof (normalize_fold_fix _ Hc) as Hf. rewrite reverse_involutive in Hf.
  by rewrite Hf, reverse_involutive.
Qed.

(** A file system without links, for examples. *)
Definition plain_fs : FileSystem := {|
  canonicalize := fun p => if is_absolute p then Some (normalize_lexically p) else None;
  symlink_metadata := fun _ => MetaOther;
  read_link := fun _ => None;
|}.

Lemma plain_fs_laws : @FileSystemLaws plain_fs.
Proof.
  split. intros p c. simpl. destruct (is_absolute p) eqn:E; [|done]. intros [= <-].
  by apply normalize_is_absolute.
Qed.

Lemma relative_forms_contained_witness :
  ∃ base tail,
    (base = normalize_lexically $"/w" ∨ @resolve_following_symlinks plain_fs $"/w" = Some base)
    ∧ components (absolute_normalized_path $"a/../src/x" (Some $"/w")) = components base ++ tail
    ∧ Forall is_name tail ∧ relative_spelling tail $"src/x".
Proof.
  apply (@relative_forms_contained plain_fs plain_fs_laws $"/w" $"a/../src/x" $"src/x").
  - reflexivity.
  - vm_compute. reflexivity.
  - vm_compute. right. right. left.
  - reflexivity.
Defined.

(** A path that climbs out of the working directory has no relative spelling. *)
Example escape_has_no_relative_form :
  @path_match_forms $"../etc/passwd" (Some (@RuleBase_new plain_fs $"/w")) = [$"/etc/passwd"].
Proof. vm_compute. reflexivity. Qed.
