(* ===== verification/Instances.v ===== *)
(** * Concrete interfaces for examples

    Small executable stand-ins for the third-party code the permission engine
    calls, so that its definitions evaluate on concrete inputs: a parser for
    scripts of plain words, a glob matcher and an in-memory file system.  No
    theorem about the engine depends on them; they only serve the examples. *)

From S2P Require Import Prelude RustStr PolicyTypes Wrappers SyntaxTree Splitting Paths Policy.

(** ** A parser for plain words, ['...'] strings and [;] *)

Inductive token := TWord (s e : nat) | TRaw (s e : nat) | TSemi (s : nat) | TBad.

Inductive lex_state := InGap | InWord (start : nat) | InRaw (start : nat).

Definition flush (st : lex_state) (pos : nat) : list token :=
  match st with InGap => [] | InWord s => [TWord s pos] | InRaw _ => [TBad] end.

Fixpoint lex (st : lex_state) (pos : nat) (s : bytes) : list token :=
  match s with
  | [] => flush st pos
  | a :: r =>
      match st with
      | InRaw start =>
          if bool_decide (a = squote) then TRaw start (S pos) :: lex InGap (S pos) r
          else lex st (S pos) r
      | _ =>
          if bool_decide (a = " "%char) then flush st pos ++ lex InGap (S pos) r
          else if bool_decide (a = ";"%char) then flush st pos ++ TSemi pos :: lex InGap (S pos) r
          else if bool_decide (a = squote) then
            match st with InGap => lex (InRaw pos) (S pos) r | _ => [TBad] end
          else if contains_byte a $"$`(){}|&<>" then [TBad]
          else lex (match st with InGap => InWord pos | st => st end) (S pos) r
      end
  end.

Definition leaf (kind : string) (named : bool) (s e : nat) : Node :=
  mkNode $kind named None s e false [].

Definition word_node (t : token) : option Node :=
  match t with
  | TWord s e => Some (leaf "word" true s e)
  | TRaw s e => Some (leaf "raw_string" true s e)
  | _ => None
  end.

Definition command_node (ws : list Node) : list Node :=
  match ws with
  | [] => []
  | w :: r =>
      [mkNode $"command" true None (nd_start w) (nd_end (List.last r w)) false
         (mkNode $"command_name" true None (nd_start w) (nd_end w) false [w] :: r)]
  end.

Fixpoint parse_tokens (ts : list token) (cur : list Node) : option (list Node) :=
  match ts with
  | [] => Some (command_node (reverse cur))
  | TBad :: _ => None
  | TSemi s :: r =>
      rest ← parse_tokens r [];
      Some (command_node (reverse cur) ++ leaf ";" false s (S s) :: rest)
  | t :: r => w ← word_node t; parse_tokens r (w :: cur)
  end.

#[export] Instance plain_parser : ShellParser := fun script =>
  cs ← parse_tokens (lex InGap 0 script) [];
  Some (mkNode $"program" true None 0 (length script) false cs).

(** ** Globs with [*], [**] and [?] *)

Fixpoint glob_go (sep : bool) (p : bytes) : bytes → bool :=
  match p with
  | [] => fun t => bool_decide (t = [])
  | a :: p' =>
      if bool_decide (a = "*"%char) then
        match p' with
        | b :: p'' =>
            if bool_decide (b = "*"%char) then
              fix star t := glob_go sep p'' t || match t with [] => false | _ :: t' => star t' end
            else
              fix star t := glob_go sep p' t || match t with
                            | [] => false
                            | c :: t' => negb (sep && bool_decide (c = slash)) && star t'
                            end
        | [] => forallb (fun c => negb (sep && bool_decide (c = slash)))
        end
      else fun t => match t with
                    | [] => false
                    | c :: t' => (bool_decide (a = "?"%char) || bool_decide (a = c)) && glob_go sep p' t'
                    end
  end.

#[export] Instance simple_env : PolicyEnv := {|
  Pattern := bytes;
  Pattern_new := fun p => Some p;
  matches_with := fun p sep t => glob_go sep p t;
  url_host := fun u => '(_, rest) ← split_once ":"%char u;
                       host ← strip_prefix $"//" rest;
                       head (split_on slash host);
  to_lowercase := to_ascii_lowercase;
  Json := unit;
  Json_Null := tt;
|}.

(** ** A file system with one link: [/w/link] points at [/etc] *)

#[export] Instance one_link_fs : FileSystem := {|
  canonicalize := fun p =>
    if is_absolute p then
      let n := normalize_lexically p in
      match path_strip_prefix n $"/w/link" with
      | Some rest => Some (if rest =b [] then $"/etc" else push $"/etc" rest)
      | None => Some n
      end
    else None;
  symlink_metadata := fun p => if p =b $"/w/link" then MetaSymlink else MetaOther;
  read_link := fun p => if p =b $"/w/link" then Some $"/etc" else None;
|}.

Example parse_ex :
  option_map (map pc_words) (all_commands_from_script $"cd /tmp; bash -c 'rm -rf x'")
  = Some [[$"cd"; $"/tmp"]; [$"bash"; $"-c"; $"rm -rf x"]].
Proof. vm_compute. reflexivity. Qed.
