(* ===== verification/PolicyLaws.v ===== *)
(** * What rule evaluation guarantees

    Theorems about [Policy]: precedence of deny over ask over allow,
    independence of rule order, restricting rules only tighten, the Bash allow
    gate is conjunctive, the symlink re-check and the command gate only
    escalate. *)

From S2P Require Import Prelude RustStr PolicyTypes Wrappers SyntaxTree Splitting Script Paths Policy Instances.

#[local] Opaque normalize_command_words analyze.

(** ** Combining decisions *)

Definition gate_rank (d : option GateDecision) : nat := default 0 (rank <$> d).

Definition rank_le (x y : option GateDecision) : Prop := gate_rank x ≤ gate_rank y.

#[export] Instance rank_le_preorder : PreOrder rank_le.
Proof. unfold rank_le. split; [by intros ?|]. intros ? ? ? ? ?. lia. Qed.

Lemma rank_pos (g : GateDecision) : 1 ≤ rank g.
Proof. destruct g; simpl; lia. Qed.

Lemma combine_gate_rank (a b : option GateDecision) :
  gate_rank (combine_gate_decisions a b) = gate_rank a `max` gate_rank b.
Proof.
  destruct a as [a|], b as [b|]; unfold gate_rank; simpl; try lia.
  destruct (rank b <=? rank a) eqn:E; bool_prop; simpl; lia.
Qed.

Lemma combine_all_rank (d : option GateDecision) (l : list (option GateDecision)) :
  gate_rank (combine_all d l) = gate_rank d `max` foldr max 0 (map gate_rank l).
Proof.
  unfold combine_all. revert d. induction l as [|x l IH]; intros d; simpl; [lia|].
  rewrite IH, combine_gate_rank. lia.
Qed.

Lemma combine_all_ge (d x : option GateDecision) (l : list (option GateDecision)) :
  x = d ∨ x ∈ l → gate_rank x ≤ gate_rank (combine_all d l).
Proof.
  rewrite combine_all_rank. intros [->|Hx]; [lia|].
  assert (gate_rank x ≤ foldr max 0 (map gate_rank l)); [|lia].
  induction l as [|y l IH]; [by apply elem_of_nil in Hx|]. simpl.
  apply elem_of_cons in Hx as [->|Hx]; [lia|]. specialize (IH Hx). lia.
Qed.

Lemma combine_all_mono (d d' : option GateDecision) (l l' : list (option GateDecision)) :
  gate_rank d ≤ gate_rank d' → Forall2 (fun x y => gate_rank x ≤ gate_rank y) l l' →
  gate_rank (combine_all d l) ≤ gate_rank (combine_all d' l').
Proof.
  rewrite !combine_all_rank. intros Hd Hl.
  assert (foldr max 0 (map gate_rank l) ≤ foldr max 0 (map gate_rank l')); [|lia].
  induction Hl as [|x y l l' Hxy Hl IH]; simpl; lia.
Qed.

Lemma gate_rank_reject (d : option GateDecision) : 3 ≤ gate_rank d → ∃ r, d = Some (Reject r).
Proof. destruct d as [[r| |]|]; unfold gate_rank; simpl; try lia. by exists r. Qed.

(** Deciding over a list of parts is a monoid action: the combination is
    associative with [None] as unit, so nesting of inline scripts is irrelevant. *)
Lemma combine_gate_assoc (a b c : option GateDecision) :
  combine_gate_decisions a (combine_gate_decisions b c)
  = combine_gate_decisions (combine_gate_decisions a b) c.
Proof.
  destruct a as [a|], b as [b|], c as [c|]; simpl; try done.
  destruct (rank c <=? rank b) eqn:E1; destruct (rank b <=? rank a) eqn:E2; simpl; rewrite ?E1, ?E2;
    try done; bool_prop; case_match; bool_prop; try done; lia.
Qed.

(** ** The severity of a decision *)

(** A decision without its text. *)
Definition erase (d : Decision) : Decision :=
  match d with
  | Decision_Reject _ => Decision_Reject []
  | Decision_PolicyDeny _ => Decision_PolicyDeny []
  | Decision_FollowupMessage _ => Decision_FollowupMessage []
  | d => d
  end.

(** Equal decisions up to the reason text. *)
Definition same_class (d e : option Decision) : Prop := erase <$> d = erase <$> e.

#[export] Instance same_class_equivalence : Equivalence same_class.
Proof. unfold same_class. split; red; congruence. Qed.

Definition severity (d : option Decision) : nat := default 0 (decision_rank <$> d).

Lemma erase_rank (d e : Decision) : erase d = erase e → decision_rank d = decision_rank e.
Proof. by destruct d, e. Qed.

Lemma same_class_severity (d e : option Decision) : same_class d e → severity d = severity e.
Proof.
  unfold same_class, severity. destruct d, e; simpl; try done. intros [= ->%erase_rank]. done.
Qed.

(** [new] restricts at least as much as [old]: the same class, or an escalation
    to ask or reject that does not undercut [old]. *)
Definition tightens (old new : option Decision) : Prop :=
  same_class new old ∨ (2 ≤ severity new ∧ severity old ≤ severity new).

#[export] Instance tightens_preorder : PreOrder tightens.
Proof.
  split; [by left|]. intros a b c [Hab|[H1 H2]] [Hbc|[H3 H4]].
  - left. by rewrite Hbc.
  - right. apply same_class_severity in Hab. lia.
  - right. apply same_class_severity in Hbc. lia.
  - right. lia.
Qed.

Lemma combine_decisions_severity (a b : option Decision) :
  severity (combine_decisions a b) = severity a `max` severity b.
Proof.
  unfold severity. destruct a as [a|], b as [b|]; simpl; try lia.
  destruct (decision_rank b <=? decision_rank a) eqn:E; bool_prop; simpl; lia.
Qed.

Lemma escalations_only_severity (d : option Decision) :
  escalations_only d = None ∨ 2 ≤ severity (escalations_only d).
Proof. destruct d as [[]|]; simpl; auto; right; unfold severity; simpl; lia. Qed.

Lemma combine_tightens (d e : option Decision) :
  e = None ∨ 2 ≤ severity e → tightens d (combine_decisions d e).
Proof.
  intros [->|He]; [left; by destruct d|]. right. rewrite combine_decisions_severity. lia.
Qed.

(** Classes of what evaluation returns. *)
Definition is_reject (d : option Decision) : bool :=
  match d with Some (Decision_Reject _) => true | _ => false end.

(** ** Inline scripts *)

(** A short-option word carrying [c]. *)
Definition c_flag (w : bytes) : Prop := starts_with dash w = true ∧ "c"%char ∈ w.

Definition script_at (ws : list ShellWord) (i j : nat) (seen : Prop) : Prop :=
  ∃ pre s post, ws = pre ++ Literal s :: post ∧ j = i + length pre
                ∧ (seen ∨ ∃ w, Literal w ∈ pre ∧ c_flag w).

Lemma script_at_cons (x : ShellWord) (ws : list ShellWord) (i j : nat) (seen seen' : Prop) :
  script_at ws (i + 1) j seen' → (seen' → seen ∨ ∃ w, x = Literal w ∧ c_flag w) →
  script_at (x :: ws) i j seen.
Proof.
  intros (pre & s & post & -> & -> & Hs) Himp. exists (x :: pre), s, post.
  split_and!; [done|simpl; lia|]. destruct Hs as [[?|(w & -> & ?)]%Himp|(w & Hw & ?)]; [by left|right..].
  - exists w. split; [by left|done].
  - exists w. split; [by right|done].
Qed.

Lemma script_at_here (s : bytes) (ws : list ShellWord) (i : nat) (seen : Prop) :
  seen → script_at (Literal s :: ws) i i seen.
Proof. intros Hs. exists [], s, ws. split_and!; [done|simpl; lia|by left]. Qed.

Lemma get_from_1_dash (w flags : bytes) :
  get_from 1 w = Some flags → flags = drop 1 w.
Proof. unfold get_from. case_match; [by intros [= <-]|done]. Qed.

Lemma dash_c_go_literal (dyn : bool) (ws : list ShellWord) (i j : nat) (saw unrec : bool) :
  dash_c_go dyn ws i saw unrec = InlineLiteral j → script_at ws i j (saw = true).
Proof.
  revert i saw unrec. induction ws as [ws IH] using (induction_ltof1 _ (@length ShellWord)).
  unfold ltof in IH. intros i saw unrec. destruct ws as [|[w|] r]; cbn [dash_c_go].
  { unfold plain_outcome. by repeat case_match. }
  2: { unfold ambiguous_inline. by case_match. }
  assert (∀ b u, (b = true → saw = true ∨ ∃ v, Literal w = Literal v ∧ c_flag v) →
    dash_c_go dyn r (i + 1) b u = InlineLiteral j → script_at (Literal w :: r) i j (saw = true)) as H1.
  { intros b u Hb Hr. eapply script_at_cons; [|exact Hb]. eapply IH; [simpl; lia|exact Hr]. }
  assert (∀ x r' u, r = x :: r' → dash_c_go dyn r' (i + 2) saw u = InlineLiteral j →
    script_at (Literal w :: r) i j (saw = true)) as H2.
  { intros x r' u -> Hr. eapply script_at_cons; [|by left].
    eapply script_at_cons; [|by left]. replace (i + 1 + 1) with (i + 2) by lia.
    eapply IH; [simpl; lia|exact Hr]. }
  clear IH. unfold plain_outcome, ambiguous_inline, finish_literal.
  intros Hd. repeat case_match; simplify_eq; bool_prop; try done;
    try (by apply script_at_here); try (by eapply H2); try (by eapply H1; [|eassumption]; auto).
  - by eapply script_at_cons; [apply script_at_here|left].
  - eapply H1; [|exact Hd]. intros [?|Hc]%orb_true_iff; [by left|right]. exists w. split; [done|].
    rewrite (get_from_1_dash w _ ltac:(eassumption)) in Hc. apply contains_byte_true in Hc.
    split; [|rewrite <-(take_drop 1 w); set_solver].
    destruct (starts_with dash w) eqn:Ed; [done|]. by destruct (starts_with $"+" w).
Qed.

(** With a dynamic head no index is ever returned. *)
Lemma dynamic_head_no_literal (ws : list ShellWord) (i j : nat) (saw unrec : bool) :
  dash_c_go true ws i saw unrec ≠ InlineLiteral j.
Proof.
  revert i saw unrec. induction ws as [ws IH] using (induction_ltof1 _ (@length ShellWord)).
  unfold ltof in IH. intros i saw unrec. destruct ws as [|[w|] r]; cbn [dash_c_go];
    unfold plain_outcome, ambiguous_inline, finish_literal;
    repeat case_match; subst; try done; apply IH; simpl; lia.
Qed.

Section Laws.
Context `{PolicyEnv} `{ShellParser} `{FileSystem}.

Implicit Types access : AccessKind Json.
Implicit Types c : PermissionConfig.

(** ** Rules with their matchers *)

Lemma zip_map {A B} (f : A → B) (l : list A) : zip l (map f l) = map (fun x => (x, f x)) l.
Proof. induction l as [|x l IH]; [done|]. simpl. by rewrite IH. Qed.

(** A rule, compiled, applies to an access. *)
Definition rule_applies access (base : option RuleBase) (r : PermissionRule) : bool :=
  rule_reaches access r && pattern_matches access (mkCompiledRule r (compile_matcher r)) base.

Definition applies_as (a : RuleAction) access (base : option RuleBase) (r : PermissionRule) : bool :=
  bool_decide (rule_action r = a) && rule_applies access base r.

Lemma rules_loop_spec access (base : option RuleBase) (rs : list PermissionRule) (ask allow : bool) :
  rules_loop access base (map (fun r => (r, compile_matcher r)) rs) ask allow
  = match find (applies_as Rule_Deny access base) rs with
    | Some r => Err (deny_reason r)
    | None => Ok (ask || existsb (applies_as Rule_Ask access base) rs,
                  allow || existsb (applies_as Rule_Allow access base) rs)
    end.
Proof.
  revert ask allow. induction rs as [|r rs IH]; intros ask allow; simpl; [by rewrite !orb_false_r|].
  unfold applies_as at 1 3 5. unfold rule_applies.
  destruct (rule_reaches access r); simpl; rewrite ?andb_false_r; simpl; [|by rewrite IH].
  destruct (pattern_matches access _ base); simpl; rewrite ?andb_false_r; simpl; [|by rewrite IH].
  destruct (rule_action r); simpl; rewrite ?IH; try done.
  - by rewrite orb_true_r.
  - by rewrite orb_true_r.
Qed.

Definition rule_matched (a : RuleAction) c access (base : option RuleBase) : Prop :=
  ∃ r, r ∈ rules c ∧ rule_action r = a ∧ rule_applies access base r = true.

Lemma existsb_matched (a : RuleAction) c access (base : option RuleBase) :
  existsb (applies_as a access base) (rules c) = true ↔ rule_matched a c access base.
Proof.
  rewrite existsb_exists. unfold applies_as, rule_matched.
  split; intros (r & Hin & Hr); exists r; rewrite list_elem_of_In in *.
  - bool_prop. done.
  - destruct Hr as [-> ->]. by rewrite bool_decide_eq_true_2.
Qed.

(** Whether the allow side grants: conjunctive for Bash, any match otherwise. *)
Definition grants c access (base : option RuleBase) : Prop :=
  match access with
  | Access_Bash cmd =>
      has_bash_allow_rules (CompiledPolicy_new c) = true
      ∧ bash_chain_fully_allowed (CompiledPolicy_new c) ScopeAny MAX_INLINE_SHELL_DEPTH cmd = true
  | _ => rule_matched Rule_Allow c access base
  end.

(** The specification: deny, then ask, then allow. *)
Definition precedence_spec c access (base : option RuleBase) (d : option Decision) : Prop :=
  match d with
  | Some (Decision_Reject reason) =>
      ∃ r, r ∈ rules c ∧ rule_action r = Rule_Deny ∧ rule_applies access base r = true
           ∧ reason = deny_reason r
  | Some Decision_Ask =>
      ¬ rule_matched Rule_Deny c access base ∧ rule_matched Rule_Ask c access base
  | Some Decision_Allow =>
      ¬ rule_matched Rule_Deny c access base ∧ ¬ rule_matched Rule_Ask c access base
      ∧ grants c access base
  | None =>
      ¬ rule_matched Rule_Deny c access base ∧ ¬ rule_matched Rule_Ask c access base
      ∧ ¬ grants c access base
  | _ => False
  end.

Lemma find_deny_none c access (base : option RuleBase) :
  find (applies_as Rule_Deny access base) (rules c) = None → ¬ rule_matched Rule_Deny c access base.
Proof.
  intros Hf (r & Hin & Ha & Hr). apply list_elem_of_In in Hin.
  pose proof (find_none _ _ Hf r Hin) as Hx. unfold applies_as in Hx.
  rewrite Ha, Hr, bool_decide_eq_true_2 in Hx by done. done.
Qed.

Lemma evaluate_rules_spec c access (base : option RuleBase) :
  precedence_spec c access base (evaluate_rules_with_base (CompiledPolicy_new c) access base).
Proof.
  unfold evaluate_rules_with_base. cbn [config matchers CompiledPolicy_new].
  rewrite zip_map, rules_loop_spec.
  destruct (find _ (rules c)) as [r|] eqn:Hf; simpl.
  { apply find_some in Hf as [Hin Hr]. unfold applies_as in Hr. bool_prop.
    exists r. rewrite list_elem_of_In. done. }
  apply find_deny_none in Hf.
  destruct (existsb (applies_as Rule_Ask access base) (rules c)) eqn:Hask; simpl.
  { split; [done|]. by apply existsb_matched. }
  assert (¬ rule_matched Rule_Ask c access base) as Hna.
  { rewrite <-existsb_matched, Hask. done. }
  pose proof (existsb_matched Rule_Allow c access base) as Hallow.
  destruct access; simpl; try (destruct (existsb (applies_as Rule_Allow _ base) _) eqn:Hal; simpl;
    (split_and!; [done|done|]); rewrite <-Hallow; done).
  destruct (existsb _ (rules c) && _) eqn:Hg; simpl; (split; [done|split; [done|]]).
  - by apply andb_true_iff in Hg.
  - intros [H2 H3]. apply not_true_iff_false in Hg. apply Hg. apply andb_true_iff.
    split; [exact H2|exact H3].
Qed.

(** The specification determines the class of the decision. *)
Lemma precedence_spec_class c c' access (base : option RuleBase) (d d' : option Decision) :
  (∀ a, rule_matched a c access base ↔ rule_matched a c' access base) →
  (grants c access base ↔ grants c' access base) →
  precedence_spec c access base d → precedence_spec c' access base d' → same_class d d'.
Proof.
  intros Hm Hg Hd Hd'. pose proof (Hm Rule_Deny) as HD. pose proof (Hm Rule_Ask) as HA.
  assert (∀ c0 reason, precedence_spec c0 access base (Some (Decision_Reject reason))
                → rule_matched Rule_Deny c0 access base) as Hmk.
  { intros c0 reason (r & ? & ? & ? & _). by exists r. }
  destruct d as [[]|], d' as [[]|]; try done; exfalso;
    try apply Hmk in Hd; try apply Hmk in Hd'; simpl in *; tauto.
Qed.

(** ** The allow gate *)

Definition allow_rule_matches (scope : AllowRuleScope) (cmd : bytes) (r : PermissionRule) : bool :=
  negb (narrow_only scope && rule_is_catchall r) && is_allow (rule_action r)
  && reaches_bash (rule_tool r) && bash_allow_pattern_matches cmd r (compile_matcher r).

Lemma words_allowed_compiled c (words : list bytes) (scope : AllowRuleScope) :
  bash_words_allowed (CompiledPolicy_new c) words scope
  = negb (bool_decide (words = [])) && negb (narrow_only scope && head_is_exec_vehicle words)
    && existsb (allow_rule_matches scope (join $" " words)) (rules c).
Proof.
  unfold bash_words_allowed. cbn [config matchers catchall CompiledPolicy_new].
  case_bool_decide; [done|]. destruct (narrow_only scope && _); [done|]. simpl.
  unfold allow_rule_matches. induction (rules c) as [|r rs IH]; [done|]. simpl. by rewrite IH.
Qed.

(** One unfolding of the gate. *)
Definition deeper {A} (f : nat → A) (d : nat) : option A :=
  match d with 0 => None | S d' => Some (f d') end.

Lemma chain_unfold (p : CompiledPolicy) (s : AllowRuleScope) (d : nat) (cmd : bytes) :
  bash_chain_fully_allowed p s d cmd
  = match all_commands_from_script cmd with
    | None => match recovered_commands p cmd s with Some (_, covered) => covered | None => false end
    | Some segments =>
        negb (bool_decide (segments = []))
        && forallb (fun parsed =>
             segment_allowed p s (deeper (bash_chain_fully_allowed p s) d) (pc_words parsed)) segments
    end.
Proof.
  destruct d; cbn [bash_chain_fully_allowed deeper]; destruct (all_commands_from_script cmd) as [segs|];
    try done; by destruct (bool_decide (segs = [])).
Qed.

(** What an allowed segment is. *)
Lemma segment_allowed_spec (p : CompiledPolicy) (s : AllowRuleScope) (rec : option (bytes → bool))
    (words : list bytes) :
  segment_allowed p s rec words = true ↔
  let norm := normalize_command_words words in
  any_flag norm = false ∧ bash_words_allowed p (np_words norm) s = true
  ∧ (shell_dash_c_script (map Literal (np_words norm)) = NotInline
     ∨ ∃ i inner f, shell_dash_c_script (map Literal (np_words norm)) = InlineLiteral i
                    ∧ np_words norm !! i = Some inner ∧ rec = Some f ∧ f inner = true).
Proof.
  unfold segment_allowed. generalize (normalize_command_words words) as norm. intros norm. cbv zeta.
  destruct (any_flag norm); [naive_solver|].
  destruct (bash_words_allowed p (np_words norm) s); simpl; [|naive_solver].
  destruct (shell_dash_c_script _) as [|i| |]; [naive_solver| |naive_solver|naive_solver].
  destruct rec as [f|]; [|naive_solver].
  destruct (np_words norm !! i) as [inner|] eqn:Ei; [|naive_solver].
  split; [|naive_solver]. intros Hf. split_and!; try done. right. by exists i, inner, f.
Qed.

Lemma segment_allowed_mono (p q : CompiledPolicy) (s t : AllowRuleScope) (f g : option (bytes → bool))
    (words : list bytes) :
  (∀ words, bash_words_allowed p words s = true → bash_words_allowed q words t = true) →
  (∀ h, f = Some h → ∃ k, g = Some k ∧ ∀ cmd, h cmd = true → k cmd = true) →
  segment_allowed p s f words = true → segment_allowed q t g words = true.
Proof.
  intros Hpq Hfg. rewrite !segment_allowed_spec.
  generalize (normalize_command_words words) as norm. intros norm. cbv zeta.
  intros (Hfl & Hw & Hi). split_and!; [done|by apply Hpq|].
  destruct Hi as [Hi|(i & inner & h & Hi & Hin & -> & Hh)]; [by left|right].
  destruct (Hfg h eq_refl) as (k & -> & Hk). exists i, inner, k. auto.
Qed.

(** The gate depends on the policy only through single argvs. *)
Lemma chain_mono (p q : CompiledPolicy) (s t : AllowRuleScope) :
  (∀ words, bash_words_allowed p words s = true → bash_words_allowed q words t = true) →
  ∀ d cmd, bash_chain_fully_allowed p s d cmd = true → bash_chain_fully_allowed q t d cmd = true.
Proof.
  intros Hpq d. induction d as [|d IH]; intros cmd; rewrite !chain_unfold;
    (destruct (all_commands_from_script cmd) as [segs|];
     [|unfold recovered_commands; destruct (try_parse_shell cmd); simpl; [|done];
       rewrite !andb_true_iff, !forallb_forall; intros [? Hf]; split; [done|]; intros; by apply Hpq, Hf]);
    rewrite !andb_true_iff, !forallb_forall; intros [Hne Hf]; (split; [done|]);
    intros pc Hpc; specialize (Hf pc Hpc); eapply segment_allowed_mono; try exact Hf; try done.
  intros h [= <-]. by eexists.
Qed.

Lemma chain_ext (p q : CompiledPolicy) (s t : AllowRuleScope) :
  (∀ words, bash_words_allowed p words s = bash_words_allowed q words t) →
  ∀ d cmd, bash_chain_fully_allowed p s d cmd = bash_chain_fully_allowed q t d cmd.
Proof.
  intros Hpq d cmd. apply eq_true_iff_eq.
  split; apply chain_mono; intros words; by rewrite Hpq.
Qed.

Lemma words_allowed_same c c' :
  (∀ r, is_allow (rule_action r) = true → r ∈ rules c ↔ r ∈ rules c') →
  ∀ words scope, bash_words_allowed (CompiledPolicy_new c) words scope
                 = bash_words_allowed (CompiledPolicy_new c') words scope.
Proof.
  intros Hr words scope. rewrite !words_allowed_compiled. f_equal. apply eq_true_iff_eq.
  rewrite !existsb_exists. unfold allow_rule_matches.
  split; intros (r & Hin & Hm); exists r; rewrite <-list_elem_of_In in *; bool_prop;
    (split; [by apply Hr|]); by repeat (apply andb_true_iff; split); try apply negb_true_iff.
Qed.

Lemma has_allow_same c c' :
  (∀ r, is_allow (rule_action r) = true → r ∈ rules c ↔ r ∈ rules c') →
  has_bash_allow_rules (CompiledPolicy_new c) = has_bash_allow_rules (CompiledPolicy_new c').
Proof.
  intros Hr. simpl. apply eq_true_iff_eq. rewrite !existsb_exists.
  split; intros (r & Hin & Hm); exists r; rewrite <-list_elem_of_In in *; bool_prop;
    (split; [by apply Hr|]); by apply andb_true_iff.
Qed.

(** Two configurations with the same allow rules grant the same. *)
Lemma grants_same c c' access (base : option RuleBase) :
  (∀ r, is_allow (rule_action r) = true → r ∈ rules c ↔ r ∈ rules c') →
  grants c access base ↔ grants c' access base.
Proof.
  intros Hr. assert (rule_matched Rule_Allow c access base ↔ rule_matched Rule_Allow c' access base) as Hm.
  { split; intros (r & Hin & Ha & Happ); exists r; (split; [apply Hr; [by rewrite Ha|done]|done]). }
  destruct access; try exact Hm. unfold grants.
  rewrite (chain_ext (CompiledPolicy_new c) (CompiledPolicy_new c') ScopeAny ScopeAny).
  - by rewrite (has_allow_same c c' Hr).
  - intros words. by apply words_allowed_same.
Qed.

(** ** Order does not matter *)

(** Configurations with the same rules in another order. *)
#[global] Instance config_equiv : Equiv PermissionConfig := fun c d => rules c ≡ₚ rules d.

#[global] Instance config_equivalence : Equivalence (≡@{PermissionConfig}).
Proof.
  unfold equiv, config_equiv. split; [by intros ?|by intros ? ?|]. intros x y z Hxy Hyz. by rewrite Hxy.
Qed.

Lemma config_equiv_rules c c' (r : PermissionRule) : c ≡ c' → r ∈ rules c ↔ r ∈ rules c'.
Proof. unfold equiv, config_equiv. intros Hp. by rewrite Hp. Qed.

Lemma rule_matched_equiv (a : RuleAction) c c' access (base : option RuleBase) :
  c ≡ c' → rule_matched a c access base ↔ rule_matched a c' access base.
Proof. intros Hc. unfold rule_matched. by setoid_rewrite (config_equiv_rules c c' _ Hc). Qed.

#[global] Instance evaluate_rules_proper :
  Proper ((≡) ==> eq ==> eq ==> same_class)
    (fun c => evaluate_rules_with_base (CompiledPolicy_new c)).
Proof.
  intros c c' Hc access ? <- base ? <-.
  eapply precedence_spec_class; [| |apply evaluate_rules_spec|apply evaluate_rules_spec].
  - intros a. by apply rule_matched_equiv.
  - apply grants_same. intros r _. by apply config_equiv_rules.
Qed.

#[global] Instance combine_decisions_proper :
  Proper (same_class ==> same_class ==> same_class) combine_decisions.
Proof.
  intros a a' Ha b b' Hb. unfold same_class in *.
  destruct a as [a|], a' as [a'|], b as [b|], b' as [b'|]; simpl in *; try done.
  injection Ha as Ha. injection Hb as Hb. rewrite (erase_rank _ _ Ha), (erase_rank _ _ Hb).
  case_match; simpl; congruence.
Qed.

#[global] Instance escalations_only_proper : Proper (same_class ==> same_class) escalations_only.
Proof. intros [[]|] [[]|] Hd; done. Qed.

(** Native path restrictions see the set of rules. *)
Lemma restrictions_apply_equiv c c' access :
  c ≡ c' → native_path_restrictions_apply (CompiledPolicy_new c) access
           = native_path_restrictions_apply (CompiledPolicy_new c') access.
Proof.
  intros Hc. apply eq_true_iff_eq. unfold native_path_restrictions_apply. simpl.
  rewrite !existsb_exists. split; intros (r & Hin & Hm); exists r; rewrite <-list_elem_of_In in *;
    (split; [by eapply config_equiv_rules|done]).
Qed.

#[global] Instance evaluate_with_cwd_proper :
  Proper ((≡) ==> eq ==> eq ==> same_class) (fun c => evaluate_with_cwd (CompiledPolicy_new c)).
Proof.
  intros c c' Hc access ? <- cwd ? <-. unfold evaluate_with_cwd, evaluate_with_cwd_details.
  pose proof (fun a b => evaluate_rules_proper c c' Hc a a eq_refl b b eq_refl) as He.
  destruct (native_file_path access) as [path|]; [|apply He].
  destruct (raw_absolute_tool_path path cwd) as [raw|]; [|apply He].
  rewrite (restrictions_apply_equiv c c' access Hc).
  destruct (match follow_absolute_symlink _ _ with FollowNone => _ | f => f end) as [|t|]; [apply He| |].
  - simpl. apply combine_decisions_proper, escalations_only_proper; apply He.
  - destruct (native_path_restrictions_apply _ access); [|apply He].
    simpl. apply combine_decisions_proper; [apply He|done].
Qed.

(** ** Restricting rules only tighten *)

(** [c'] has the rules of [c], and every other rule of it denies or asks. *)
Definition restricted_more c c' : Prop :=
  rules c ⊆ rules c' ∧ ∀ r, r ∈ rules c' → r ∈ rules c ∨ restricts (rule_action r) = true.

Lemma restricted_more_allow c c' (r : PermissionRule) :
  restricted_more c c' → is_allow (rule_action r) = true → r ∈ rules c ↔ r ∈ rules c'.
Proof.
  intros [Hs Hr] Ha. split; [apply Hs|]. intros [?|Hx]%Hr; [done|]. by destruct (rule_action r).
Qed.

Lemma rule_matched_mono (a : RuleAction) c c' access (base : option RuleBase) :
  rules c ⊆ rules c' → rule_matched a c access base → rule_matched a c' access base.
Proof. intros Hs (r & Hin & Hr). exists r. split; [by apply Hs|done]. Qed.

(** Outcomes of rule evaluation. *)
Definition rule_outcome (d : option Decision) : Prop :=
  match d with
  | None | Some (Decision_Reject _ | Decision_Ask | Decision_Allow) => True
  | _ => False
  end.

Lemma evaluate_rules_outcome c access (base : option RuleBase) :
  rule_outcome (evaluate_rules_with_base (CompiledPolicy_new c) access base).
Proof.
  pose proof (evaluate_rules_spec c access base) as Hs.
  by destruct (evaluate_rules_with_base _ access base) as [[]|].
Qed.

Lemma precedence_spec_tightens c c' access (base : option RuleBase) (d d' : option Decision) :
  restricted_more c c' → precedence_spec c access base d → precedence_spec c' access base d' →
  tightens d d'.
Proof.
  intros Hrm Hd Hd'. destruct Hrm as [Hs Hr] eqn:E; clear E.
  pose proof (rule_matched_mono Rule_Deny c c' access base Hs) as HD.
  pose proof (rule_matched_mono Rule_Ask c c' access base Hs) as HA.
  pose proof (grants_same c c' access base (fun r => restricted_more_allow c c' r Hrm)) as HG.
  assert (∀ c0 reason, precedence_spec c0 access base (Some (Decision_Reject reason))
                → rule_matched Rule_Deny c0 access base) as Hmk.
  { intros c0 reason (r & ? & ? & ? & _). by exists r. }
  destruct d as [[]|], d' as [[]|]; try done;
    try (by left); try (right; unfold severity; simpl; lia);
    exfalso; try apply Hmk in Hd; simpl in *; tauto.
Qed.

Lemma evaluate_rules_tightens c c' access (base : option RuleBase) :
  restricted_more c c' →
  tightens (evaluate_rules_with_base (CompiledPolicy_new c) access base)
           (evaluate_rules_with_base (CompiledPolicy_new c') access base).
Proof. intros Hrm. eapply precedence_spec_tightens; [done|apply evaluate_rules_spec..]. Qed.

Lemma tightens_severity (d d' : option Decision) : tightens d d' → severity d ≤ severity d'.
Proof. intros [Hc|[? ?]]; [|done]. by rewrite (same_class_severity _ _ Hc). Qed.

Lemma escalations_only_mono (d d' : option Decision) :
  rule_outcome d' → tightens d d' → severity (escalations_only d) ≤ severity (escalations_only d').
Proof.
  intros Ho Ht%tightens_severity. unfold severity in *.
  destruct d as [[]|], d' as [[]|]; simpl in *; try done; lia.
Qed.

Lemma combine_tightens_mono (d d' e e' : option Decision) :
  tightens d d' → severity e ≤ severity e' → (e = None ∨ 2 ≤ severity e) →
  (e' = None ∨ 2 ≤ severity e') → tightens (combine_decisions d e) (combine_decisions d' e').
Proof.
  intros Hd He H1' H2'. pose proof (tightens_severity _ _ Hd) as Hs. destruct H2' as [->|H2'].
  - destruct H1' as [->|H1']; [by destruct d, d'|]. unfold severity in He at 2. simpl in He. lia.
  - right. rewrite !combine_decisions_severity. lia.
Qed.

Lemma restrictions_apply_mono c c' access :
  rules c ⊆ rules c' → native_path_restrictions_apply (CompiledPolicy_new c) access = true →
  native_path_restrictions_apply (CompiledPolicy_new c') access = true.
Proof.
  intros Hs. unfold native_path_restrictions_apply. simpl. rewrite !existsb_exists.
  intros (r & Hin & Hr). exists r. rewrite <-list_elem_of_In in *. split; [by apply Hs|done].
Qed.

Lemma evaluate_with_cwd_tightens c c' access (cwd : option bytes) :
  restricted_more c c' →
  tightens (evaluate_with_cwd (CompiledPolicy_new c) access cwd)
           (evaluate_with_cwd (CompiledPolicy_new c') access cwd).
Proof.
  intros Hrm. unfold evaluate_with_cwd, evaluate_with_cwd_details.
  pose proof (fun a b => evaluate_rules_tightens c c' a b Hrm) as He.
  destruct (native_file_path access) as [path|]; [|apply He].
  destruct (raw_absolute_tool_path path cwd) as [raw|]; [|apply He].
  destruct (match follow_absolute_symlink _ _ with FollowNone => _ | f => f end) as [|t|]; [apply He| |].
  - apply combine_tightens_mono; [apply He| |apply escalations_only_severity..].
    apply escalations_only_mono; [apply evaluate_rules_outcome|apply He].
  - destruct (native_path_restrictions_apply (CompiledPolicy_new c) access) eqn:Ea.
    + rewrite (restrictions_apply_mono c c') by (done || apply Hrm).
      apply combine_tightens_mono; [apply He|done|right; unfold severity; simpl; lia..].
    + destruct (native_path_restrictions_apply (CompiledPolicy_new c') access); [|apply He].
      etrans; [apply He|]. apply combine_tightens. right. unfold severity. simpl. lia.
Qed.

(** ** The command gate *)

(** The argvs the gate looks at for a script. *)
Definition script_argvs (p : CompiledPolicy) (cmd : bytes) : option (list (list bytes) * bool) :=
  match all_commands_from_script cmd with
  | None => recovered_commands p cmd ScopeAny
  | Some segments => Some (map pc_words segments, true)
  end.

Lemma segments_unfold (p : CompiledPolicy) (d : nat) (cmd : bytes) :
  evaluate_bash_command_segments p d cmd
  = match script_argvs p cmd with
    | None => Some AskFailClosed
    | Some (argvs, covered) =>
        combine_all (ask_if (negb covered))
          (map (evaluate_command_words p (deeper (evaluate_bash_command_segments p) d)) argvs)
    end.
Proof.
  unfold script_argvs. destruct d; cbn [evaluate_bash_command_segments deeper];
    (destruct (all_commands_from_script cmd) as [segs|]; [by rewrite map_map|]);
    by destruct (recovered_commands p cmd ScopeAny) as [[]|].
Qed.

Definition inline_parts (rec : option (bytes → option GateDecision)) (inner_words : list bytes)
  : list (option GateDecision) :=
  match shell_dash_c_script (map Literal inner_words), rec with
  | InlineLiteral index, Some rec =>
      [match inner_words !! index with Some inner => rec inner | None => Some AskFailClosed end]
  | NotInline, _ => []
  | _, _ => [Some AskFailClosed]
  end.

Definition split_parts (rec : option (bytes → option GateDecision)) (inner_words : list bytes)
  : list (option GateDecision) :=
  match env_split_string_script inner_words with
  | Some script => [match rec with Some rec => rec script | None => Some AskFailClosed end]
  | None => []
  end.

Definition flag_parts (norm : NormalizedCommandPeel) : list (option GateDecision) :=
  [ask_if (np_exhausted norm || np_ambiguous norm || np_env_options_uncertain norm);
   ask_if (np_has_split_string norm)].

(** The decision on one argv is the combination of its parts. *)
Lemma command_words_parts (p : CompiledPolicy) (rec : option (bytes → option GateDecision))
    (raw : list bytes) :
  let norm := normalize_command_words raw in
  evaluate_command_words p rec raw
  = combine_all None
      (flag_parts norm
       ++ map (fun words => escalate p (join $" " words)) (argv_forms raw (np_words norm))
       ++ inline_parts rec (np_words norm) ++ split_parts rec (np_words norm)).
Proof.
  unfold evaluate_command_words. generalize (normalize_command_words raw) as norm. intros norm.
  cbv zeta. unfold combine_all, flag_parts. rewrite !foldl_app.
  unfold inline_parts, split_parts.
  destruct (shell_dash_c_script _); destruct (env_split_string_script _), rec;
    cbn [foldl combine_gate_decisions]; done.
Qed.

Lemma evaluate_bash (p : CompiledPolicy) (cmd : bytes) :
  evaluate p (Access_Bash cmd) = evaluate_rules_with_base p (Access_Bash cmd) None.
Proof. done. Qed.

Lemma escalate_mono c c' (segment : bytes) :
  restricted_more c c' →
  gate_rank (escalate (CompiledPolicy_new c) segment) ≤ gate_rank (escalate (CompiledPolicy_new c') segment).
Proof.
  intros Hrm. unfold escalate. rewrite !evaluate_bash.
  pose proof (tightens_severity _ _ (evaluate_rules_tightens c c' (Access_Bash segment) None Hrm)) as Ht.
  pose proof (evaluate_rules_outcome c (Access_Bash segment) None) as Ho.
  pose proof (evaluate_rules_outcome c' (Access_Bash segment) None) as Ho'.
  unfold severity, gate_rank in *.
  destruct (evaluate_rules_with_base (CompiledPolicy_new c) _ None) as [[]|],
    (evaluate_rules_with_base (CompiledPolicy_new c') _ None) as [[]|]; simpl in *; try done; lia.
Qed.

(** Recursion into inline scripts, compared at the same depth. *)
Definition rec_le (f g : option (bytes → option GateDecision)) : Prop :=
  option_relation (fun h k => ∀ cmd, rank_le (h cmd) (k cmd)) (fun _ => False) (fun _ => False) f g.

Lemma inline_parts_mono f g (words : list bytes) :
  rec_le f g → Forall2 rank_le (inline_parts f words) (inline_parts g words).
Proof.
  unfold inline_parts, rank_le. intros Hfg. destruct (shell_dash_c_script _); [constructor| |by repeat constructor..].
  destruct f as [f|], g as [g|]; try done.
  constructor; [|constructor]. destruct (words !! index); [apply Hfg|done].
Qed.

Lemma split_parts_mono f g (words : list bytes) :
  rec_le f g → Forall2 rank_le (split_parts f words) (split_parts g words).
Proof.
  unfold split_parts, rank_le. intros Hfg. destruct (env_split_string_script _); [|constructor].
  destruct f as [f|], g as [g|]; try done; repeat constructor. apply Hfg.
Qed.

Lemma command_words_mono (p q : CompiledPolicy) f g (words : list bytes) :
  (∀ s, rank_le (escalate p s) (escalate q s)) → rec_le f g →
  rank_le (evaluate_command_words p f words) (evaluate_command_words q g words).
Proof.
  intros He Hfg. unfold rank_le. rewrite !command_words_parts. apply combine_all_mono; [done|].
  repeat apply Forall2_app.
  - by repeat constructor.
  - induction (argv_forms _ _) as [|w l IH]; constructor; [apply He|done].
  - by apply inline_parts_mono.
  - by apply split_parts_mono.
Qed.

Lemma script_argvs_same (p q : CompiledPolicy) (cmd : bytes) :
  (∀ words, bash_words_allowed p words ScopeAny = bash_words_allowed q words ScopeAny) →
  script_argvs p cmd = script_argvs q cmd.
Proof.
  intros Hw. unfold script_argvs, recovered_commands. destruct (all_commands_from_script cmd); [done|].
  destruct (try_parse_shell cmd); [|done]. simpl. do 3 f_equal.
  induction (projections _) as [|w l IH]; [done|]. simpl. by rewrite Hw, IH.
Qed.

Lemma segments_mono (p q : CompiledPolicy) :
  (∀ words, bash_words_allowed p words ScopeAny = bash_words_allowed q words ScopeAny) →
  (∀ s, rank_le (escalate p s) (escalate q s)) →
  ∀ d cmd, rank_le (evaluate_bash_command_segments p d cmd) (evaluate_bash_command_segments q d cmd).
Proof.
  intros Hw He d. induction d as [|d IH]; intros cmd; unfold rank_le; rewrite !segments_unfold;
    rewrite (script_argvs_same p q cmd Hw); destruct (script_argvs q cmd) as [[argvs cov]|]; try done;
    (apply combine_all_mono; [done|]); induction argvs as [|w l IHl]; constructor; try done;
    apply command_words_mono; try done.
Qed.

Lemma bash_restrictions_mono c c' :
  rules c ⊆ rules c' → has_bash_command_restrictions (CompiledPolicy_new c) = true →
  has_bash_command_restrictions (CompiledPolicy_new c') = true.
Proof.
  intros Hs. simpl. rewrite !existsb_exists.
  intros (r & Hin & Hr). exists r. rewrite <-list_elem_of_In in *. split; [by apply Hs|done].
Qed.

Lemma gate_mono c c' (cmd : bytes) :
  restricted_more c c' →
  gate_rank (evaluate_bash_command_gate (CompiledPolicy_new c) cmd)
  ≤ gate_rank (evaluate_bash_command_gate (CompiledPolicy_new c') cmd).
Proof.
  intros Hrm. unfold evaluate_bash_command_gate.
  destruct (has_bash_command_restrictions (CompiledPolicy_new c)) eqn:Eb; cbn [negb]; [|unfold gate_rank; simpl; lia].
  rewrite (bash_restrictions_mono c c') by (done || apply Hrm). cbn [negb].
  apply segments_mono.
  - intros words. apply words_allowed_same. intros r. by apply restricted_more_allow.
  - intros s. by apply escalate_mono.
Qed.

(** ** What the gate sees *)

(** [runs p d cmd argv]: the script [cmd], followed through at most [d] inline
    scripts, runs a command whose argv, as written or peeled, is [argv]. *)
Inductive runs (p : CompiledPolicy) : nat → bytes → list bytes → Prop :=
| runs_here d cmd argvs cov ws argv :
    script_argvs p cmd = Some (argvs, cov) → ws ∈ argvs →
    argv ∈ argv_forms ws (np_words (normalize_command_words ws)) → runs p d cmd argv
| runs_dash_c d cmd argvs cov ws i inner argv :
    script_argvs p cmd = Some (argvs, cov) → ws ∈ argvs →
    shell_dash_c_script (map Literal (np_words (normalize_command_words ws))) = InlineLiteral i →
    np_words (normalize_command_words ws) !! i = Some inner →
    runs p d inner argv → runs p (S d) cmd argv
| runs_env_split d cmd argvs cov ws inner argv :
    script_argvs p cmd = Some (argvs, cov) → ws ∈ argvs →
    env_split_string_script (np_words (normalize_command_words ws)) = Some inner →
    runs p d inner argv → runs p (S d) cmd argv.

Lemma segments_ge_argv (p : CompiledPolicy) (d : nat) (cmd : bytes) argvs cov (ws : list bytes) :
  script_argvs p cmd = Some (argvs, cov) → ws ∈ argvs →
  rank_le (evaluate_command_words p (deeper (evaluate_bash_command_segments p) d) ws)
          (evaluate_bash_command_segments p d cmd).
Proof.
  intros Hs Hin. unfold rank_le. rewrite (segments_unfold p d cmd), Hs. apply combine_all_ge. right.
  by apply list_elem_of_fmap_2.
Qed.

Lemma command_words_ge (p : CompiledPolicy) rec (raw : list bytes) (x : option GateDecision) :
  let norm := normalize_command_words raw in
  x ∈ flag_parts norm
      ++ map (fun words => escalate p (join $" " words)) (argv_forms raw (np_words norm))
      ++ inline_parts rec (np_words norm) ++ split_parts rec (np_words norm) →
  rank_le x (evaluate_command_words p rec raw).
Proof. intros norm Hx. unfold rank_le. rewrite command_words_parts. apply combine_all_ge. by right. Qed.

Lemma segments_catch (p : CompiledPolicy) (d : nat) (cmd : bytes) (argv : list bytes) :
  runs p d cmd argv →
  rank_le (escalate p (join $" " argv)) (evaluate_bash_command_segments p d cmd).
Proof.
  induction 1 as [d cmd argvs cov ws argv Hs Hin Hf
                 |d cmd argvs cov ws i inner argv Hs Hin Hc Hi _ IH
                 |d cmd argvs cov ws inner argv Hs Hin Hc _ IH];
    (etrans; [|by eapply segments_ge_argv]).
  - apply command_words_ge, elem_of_app. right. apply elem_of_app. left.
    by apply (list_elem_of_fmap_2 (fun words => escalate p (join $" " words))).
  - etrans; [exact IH|]. apply command_words_ge. rewrite !elem_of_app. right. right. left.
    unfold inline_parts. rewrite Hc, Hi. simpl. by left.
  - etrans; [exact IH|]. apply command_words_ge. rewrite !elem_of_app. right. right. right.
    unfold split_parts. rewrite Hc. simpl. by left.
Qed.

(** ** A silent gate has looked at everything *)

Lemma combine_all_None (d : option GateDecision) (l : list (option GateDecision)) :
  combine_all d l = None ↔ d = None ∧ Forall (fun x => x = None) l.
Proof.
  unfold combine_all. revert d. induction l as [|x l IH]; intros d; simpl; [naive_solver|].
  rewrite IH, Forall_cons. destruct d, x; simpl; naive_solver.
Qed.

(** What a script must satisfy for the gate to stay silent, with [d] inline
    levels left: it was decomposed (or recovered and covered by allow rules),
    each argv was fully peeled, no deny or ask rule matches a form of it, and
    each inline script satisfies the same one level down. *)
Fixpoint inspected (p : CompiledPolicy) (d : nat) (cmd : bytes) : Prop :=
  let deeper_ok inner := match d with 0 => False | S d' => inspected p d' inner end in
  ∃ argvs, script_argvs p cmd = Some (argvs, true) ∧
  ∀ ws, ws ∈ argvs →
    let norm := normalize_command_words ws in
    any_flag norm = false
    ∧ (∀ form, form ∈ argv_forms ws (np_words norm) → escalate p (join $" " form) = None)
    ∧ match shell_dash_c_script (map Literal (np_words norm)) with
      | NotInline => True
      | InlineLiteral i => ∃ inner, np_words norm !! i = Some inner ∧ deeper_ok inner
      | _ => False
      end
    ∧ match env_split_string_script (np_words norm) with
      | Some script => deeper_ok script
      | None => True
      end.

Lemma flag_parts_None (norm : NormalizedCommandPeel) :
  Forall (fun x => x = None) (flag_parts norm) ↔ any_flag norm = false.
Proof.
  unfold flag_parts, any_flag, ask_if. rewrite !Forall_cons, Forall_nil.
  destruct (np_exhausted norm), (np_ambiguous norm), (np_env_options_uncertain norm),
    (np_has_split_string norm); simpl; naive_solver.
Qed.

Lemma inline_parts_None (rec : option (bytes → option GateDecision)) (words : list bytes) :
  Forall (fun x => x = None) (inline_parts rec words) ↔
  match shell_dash_c_script (map Literal words) with
  | NotInline => True
  | InlineLiteral i => ∃ inner, words !! i = Some inner
                                ∧ match rec with None => False | Some f => f inner = None end
  | _ => False
  end.
Proof.
  unfold inline_parts. destruct (shell_dash_c_script _) as [|i| |]; rewrite ?Forall_singleton;
    [naive_solver| |naive_solver..].
  destruct rec; rewrite Forall_singleton; [destruct (words !! i)|]; naive_solver.
Qed.

Lemma split_parts_None (rec : option (bytes → option GateDecision)) (words : list bytes) :
  Forall (fun x => x = None) (split_parts rec words) ↔
  match env_split_string_script words with
  | Some script => match rec with None => False | Some f => f script = None end
  | None => True
  end.
Proof.
  unfold split_parts. destruct (env_split_string_script words); [|naive_solver].
  rewrite Forall_singleton. destruct rec; naive_solver.
Qed.

Lemma segments_silent (p : CompiledPolicy) (d : nat) (cmd : bytes) :
  evaluate_bash_command_segments p d cmd = None ↔ inspected p d cmd.
Proof.
  revert cmd. induction d as [|d IH]; intros cmd; rewrite segments_unfold; cbn [inspected deeper];
    (destruct (script_argvs p cmd) as [[argvs cov]|]; [|naive_solver]);
    rewrite combine_all_None, Forall_map, Forall_forall;
    (split; [intros [Hc Hf]; destruct cov; [|done]; exists argvs; split; [done|]; intros ws Hws
            |intros (argvs' & Ha & Hf); simplify_eq; split; [done|]; intros ws Hws]);
    specialize (Hf ws Hws); revert Hf; simpl; rewrite command_words_parts, combine_all_None,
      !Forall_app, flag_parts_None, Forall_map, Forall_forall, inline_parts_None, split_parts_None;
    destruct (shell_dash_c_script _), (env_split_string_script _); simpl; naive_solver (rewrite <-?IH in *; eauto).
Qed.

(** ** What the allow gate vouches for *)

(** One argv is authorised by a Bash or Any allow rule; in the narrow scope by a
    rule that is no catch-all, for a head that does not execute its arguments. *)
Definition authorized c (scope : AllowRuleScope) (words : list bytes) : Prop :=
  words ≠ [] ∧ (scope = NarrowOnly → head_is_exec_vehicle words = false)
  ∧ ∃ r, r ∈ rules c ∧ rule_action r = Rule_Allow ∧ reaches_bash (rule_tool r) = true
         ∧ (scope = NarrowOnly → rule_is_catchall r = false)
         ∧ bash_allow_pattern_matches (join $" " words) r (compile_matcher r) = true.

Fixpoint vetted c (scope : AllowRuleScope) (d : nat) (cmd : bytes) : Prop :=
  match all_commands_from_script cmd with
  | Some segments =>
      segments ≠ [] ∧
      ∀ pc, pc ∈ segments →
        let norm := normalize_command_words (pc_words pc) in
        any_flag norm = false ∧ authorized c scope (np_words norm)
        ∧ match shell_dash_c_script (map Literal (np_words norm)) with
          | NotInline => True
          | InlineLiteral i =>
              ∃ inner, np_words norm !! i = Some inner
                       ∧ match d with 0 => False | S d' => vetted c scope d' inner end
          | _ => False
          end
  | None =>
      ∃ tree, try_parse_shell cmd = Some tree ∧ is_eligible (analyze tree cmd) = true
              ∧ ∀ ws, ws ∈ projections (analyze tree cmd) → authorized c scope ws
  end.

Lemma words_allowed_authorized c (scope : AllowRuleScope) (words : list bytes) :
  bash_words_allowed (CompiledPolicy_new c) words scope = true ↔ authorized c scope words.
Proof.
  rewrite words_allowed_compiled. unfold authorized, allow_rule_matches.
  rewrite !andb_true_iff, !negb_true_iff, bool_decide_eq_false, existsb_exists.
  setoid_rewrite <-list_elem_of_In. setoid_rewrite andb_true_iff. setoid_rewrite andb_true_iff.
  setoid_rewrite andb_true_iff. setoid_rewrite negb_true_iff.
  assert (∀ r, is_allow (rule_action r) = true ↔ rule_action r = Rule_Allow) as Ha.
  { intros r. by destruct (rule_action r). }
  setoid_rewrite Ha. destruct scope; simpl; naive_solver.
Qed.

Lemma segment_vetted c (scope : AllowRuleScope) (rec : option (bytes → bool)) (words : list bytes) :
  segment_allowed (CompiledPolicy_new c) scope rec words = true ↔
  let norm := normalize_command_words words in
  any_flag norm = false ∧ authorized c scope (np_words norm)
  ∧ match shell_dash_c_script (map Literal (np_words norm)) with
    | NotInline => True
    | InlineLiteral i =>
        ∃ inner, np_words norm !! i = Some inner
                 ∧ match rec with None => False | Some f => f inner = true end
    | _ => False
    end.
Proof.
  rewrite segment_allowed_spec. generalize (normalize_command_words words) as norm. intros norm.
  cbv zeta. rewrite words_allowed_authorized.
  destruct (shell_dash_c_script _) as [|i| |]; destruct rec; naive_solver.
Qed.

Lemma chain_vetted c (scope : AllowRuleScope) (d : nat) (cmd : bytes) :
  bash_chain_fully_allowed (CompiledPolicy_new c) scope d cmd = true ↔ vetted c scope d cmd.
Proof.
  revert cmd. induction d as [|d IH]; intros cmd; rewrite chain_unfold; cbn [vetted deeper];
    (destruct (all_commands_from_script cmd) as [segs|];
     [|unfold recovered_commands; destruct (try_parse_shell cmd) as [tree|]; simpl; [|naive_solver];
       rewrite andb_true_iff, forallb_forall;
       setoid_rewrite <-list_elem_of_In; setoid_rewrite words_allowed_authorized; naive_solver]);
    rewrite andb_true_iff, negb_true_iff, bool_decide_eq_false, forallb_forall;
    setoid_rewrite <-list_elem_of_In; (apply and_iff_compat_l);
    (split; intros Hf pc Hpc; specialize (Hf pc Hpc); revert Hf; rewrite segment_vetted; cbv zeta;
     generalize (normalize_command_words (pc_words pc)) as norm; intros norm;
     destruct (shell_dash_c_script _)); naive_solver.
Qed.

(** Vetting is not vacuous: some argv was authorised. *)
Lemma vetted_nonempty c (scope : AllowRuleScope) (d : nat) (cmd : bytes) :
  vetted c scope d cmd → ∃ words, authorized c scope words.
Proof.
  destruct d; cbn [vetted]; (destruct (all_commands_from_script cmd) as [[|pc segs]|]; [by intros [? _]| |]);
    try (intros [_ Hf]; destruct (Hf pc) as (_ & Ha & _); [by left|]; by eexists);
    intros (tree & _ & He & Hall); pose proof (projections_eligible tree cmd He) as Hl;
    destruct (analyze_eligible tree cmd He) as (_ & Hne & _);
    (destruct (projections (analyze tree cmd)) as [|w l]; [by destruct (sc_commands (analyze tree cmd))|]);
    exists w; apply Hall; by left.
Qed.

Lemma authorized_has_allow c (scope : AllowRuleScope) (words : list bytes) :
  authorized c scope words → has_bash_allow_rules (CompiledPolicy_new c) = true.
Proof.
  intros (_ & _ & r & Hin & Ha & Hb & _). simpl. apply existsb_exists. exists r.
  rewrite <-list_elem_of_In, Ha, Hb. done.
Qed.

Lemma grants_vetted c (cmd : bytes) (base : option RuleBase) :
  grants c (Access_Bash cmd) base ↔ vetted c ScopeAny MAX_INLINE_SHELL_DEPTH cmd.
Proof.
  unfold grants. rewrite chain_vetted. split; [by intros [_ ?]|]. intros Hv. split; [|done].
  destruct (vetted_nonempty _ _ _ _ Hv) as [w Hw]. by eapply authorized_has_allow.
Qed.

Lemma vetted_narrow c (d : nat) (cmd : bytes) : vetted c NarrowOnly d cmd → vetted c ScopeAny d cmd.
Proof.
  rewrite <-!chain_vetted. apply chain_mono. intros words. rewrite !words_allowed_authorized.
  intros (? & _ & r & ? & ? & ? & _ & ?). split_and!; [done|done|]. by exists r.
Qed.

(** A deny that applies to a Bash access arms the command gate. *)
Lemma bash_reject_restricts c (cmd reason : bytes) :
  evaluate (CompiledPolicy_new c) (Access_Bash cmd) = Some (Decision_Reject reason) →
  has_bash_command_restrictions (CompiledPolicy_new c) = true.
Proof.
  rewrite evaluate_bash. intros He. pose proof (evaluate_rules_spec c (Access_Bash cmd) None) as Hs.
  rewrite He in Hs. destruct Hs as (r & Hin & Ha & Hr & _). simpl. apply existsb_exists. exists r.
  rewrite <-list_elem_of_In, Ha. split; [done|]. unfold rule_applies, rule_reaches in Hr. bool_prop.
  by destruct (rule_tool r).
Qed.

(** ** The claims *)

(** C1: evaluating an access against the rules follows deny over ask over
    allow: a reject names a deny rule of the policy that applies, an ask means
    an ask rule applies and no deny rule does, an allow (or no decision) means
    neither applies and the allow side grants (or does not). *)
Theorem evaluate_precedence c access (base : option RuleBase) :
  precedence_spec c access base (evaluate_rules_with_base (CompiledPolicy_new c) access base).
Proof. apply evaluate_rules_spec. Qed.

(** The decision does not depend on the order of the rules: two policies
    with the same rules in any order decide every access the same way, up to
    the text of the deny reason. *)
Theorem evaluate_order_independent c c' access (cwd : option bytes) :
  rules c ≡ₚ rules c' →
  same_class (evaluate_with_cwd (CompiledPolicy_new c) access cwd)
             (evaluate_with_cwd (CompiledPolicy_new c') access cwd).
Proof. intros Hp. by apply evaluate_with_cwd_proper. Qed.

(** C25: adding deny or ask rules never loosens anything: every access gets the
    same decision or an escalated one, and the Bash command gate ranks every
    script at least as high. *)
Theorem restricting_rules_tighten c c' access (cwd : option bytes) (cmd : bytes) :
  restricted_more c c' →
  tightens (evaluate_with_cwd (CompiledPolicy_new c) access cwd)
           (evaluate_with_cwd (CompiledPolicy_new c') access cwd)
  ∧ gate_rank (evaluate_bash_command_gate (CompiledPolicy_new c) cmd)
    ≤ gate_rank (evaluate_bash_command_gate (CompiledPolicy_new c') cmd).
Proof. intros Hrm. split; [by apply evaluate_with_cwd_tightens|by apply gate_mono]. Qed.

(** C22: a Bash command is allowed exactly when no deny or ask rule applies to it
    and every command of the script is vetted: the script decomposes into
    commands (or is a recovered read-only script), each peeled argv carries no
    flag and is matched by an allow rule, and inline [-c] scripts are vetted in
    turn. *)
Theorem bash_allow_conjunctive c (cmd : bytes) :
  evaluate (CompiledPolicy_new c) (Access_Bash cmd) = Some Decision_Allow ↔
  ¬ rule_matched Rule_Deny c (Access_Bash cmd) None
  ∧ ¬ rule_matched Rule_Ask c (Access_Bash cmd) None
  ∧ vetted c ScopeAny MAX_INLINE_SHELL_DEPTH cmd.
Proof.
  rewrite evaluate_bash. pose proof (evaluate_rules_spec c (Access_Bash cmd) None) as Hs.
  rewrite <-(grants_vetted c cmd None).
  destruct (evaluate_rules_with_base _ _ None) as [[]|]; simpl in Hs; try done; try tauto;
    try (split; [done|]; tauto).
  destruct Hs as (r & ? & ? & ? & _). split; [done|]. intros [Hd _]. destruct Hd. by exists r.
Qed.

(** Every command node of an allowed script was authorised: if a Bash
    command is allowed and its tree is plain, then each command of the tree
    parses to an argv whose peeled form an allow rule matches. *)
Theorem allow_covers_every_command c (cmd : bytes) (tree : Node) (l : Loc) segments :
  evaluate (CompiledPolicy_new c) (Access_Bash cmd) = Some Decision_Allow →
  try_parse_shell cmd = Some tree →
  try_parse_word_only_commands_sequence tree cmd = Some segments →
  descendant (root_loc tree) l → nd_named (l_node l) = true → l_kind l = $"command" →
  ∃ pc, parse_plain_command_from_node (l_node l) cmd = Some pc
        ∧ unflagged (normalize_command_words (pc_words pc))
        ∧ authorized c ScopeAny (np_words (normalize_command_words (pc_words pc))).
Proof.
  intros He Ht Hs Hl Hn Hk. destruct (word_only_commands tree cmd segments l Hs Hl Hn Hk) as (pc & Hp & Hin).
  exists pc. split; [done|]. rewrite evaluate_bash in He.
  pose proof (evaluate_rules_spec c (Access_Bash cmd) None) as Hsp. rewrite He in Hsp.
  destruct Hsp as (_ & _ & Hg). apply grants_vetted in Hg.
  unfold MAX_INLINE_SHELL_DEPTH in Hg. cbn [vetted] in Hg.
  unfold all_commands_from_script in Hg. rewrite Ht in Hg. cbn [mbind option_bind] in Hg. rewrite Hs in Hg.
  destruct Hg as [_ Hf]. destruct (Hf pc Hin) as (Hfl & Ha & _). split; [|done].
  unfold any_flag in Hfl. unfold unflagged. bool_prop. done.
Qed.

(** Narrow allow rules never authorise what the policy would not allow: when
    the narrow check authorises a command that no deny or ask rule applies to,
    ordinary evaluation allows it, and no blanket rule and no head that
    executes its arguments took part. *)
Theorem narrow_allow_sound c (cmd : bytes) :
  narrow_allow_authorizes (CompiledPolicy_new c) (Access_Bash cmd) = true →
  vetted c NarrowOnly MAX_INLINE_SHELL_DEPTH cmd
  ∧ 1 ≤ severity (evaluate (CompiledPolicy_new c) (Access_Bash cmd)).
Proof.
  unfold narrow_allow_authorizes. rewrite andb_true_iff, chain_vetted. intros [_ Hv].
  split; [done|]. apply vetted_narrow, (grants_vetted c cmd None) in Hv.
  rewrite evaluate_bash. pose proof (evaluate_rules_spec c (Access_Bash cmd) None) as Hs.
  destruct (evaluate_rules_with_base _ _ None) as [[]|]; unfold severity; simpl in *; try lia; try done.
  tauto.
Qed.

(** C26: following a symlink only escalates: the decision with the re-check
    tightens the decision on the path as written, and a deny on the resolved
    target rejects the access. *)
Theorem symlink_recheck_escalates c access (cwd : option bytes) :
  tightens (evaluate_rules_with_base (CompiledPolicy_new c) access (RuleBase_new <$> cwd))
           (evaluate_with_cwd (CompiledPolicy_new c) access cwd)
  ∧ ∀ path raw target access',
      native_file_path access = Some path → raw_absolute_tool_path path cwd = Some raw →
      follow_absolute_symlink raw (path_match_string (absolute_normalized_path path cwd))
        = FollowTarget target →
      access_with_path access target = Some access' →
      severity (escalations_only
        (evaluate_rules_with_base (CompiledPolicy_new c) access' (RuleBase_new <$> cwd)))
      ≤ severity (evaluate_with_cwd (CompiledPolicy_new c) access cwd).
Proof.
  unfold evaluate_with_cwd, evaluate_with_cwd_details. split.
  - destruct (native_file_path access) as [path|]; [|done].
    destruct (raw_absolute_tool_path path cwd) as [raw|]; [|done].
    destruct (match follow_absolute_symlink _ _ with FollowNone => _ | f => f end) as [|t|]; [done| |].
    + apply combine_tightens, escalations_only_severity.
    + destruct (native_path_restrictions_apply _ access); [|done]. apply combine_tightens.
      right. unfold severity. simpl. lia.
  - intros path raw target access' -> -> -> ->. simpl. rewrite combine_decisions_severity. lia.
Qed.

(** C2: the command gate rejects a script as soon as a deny rule matches any
    command it runs: a segment of the chain, as written or with its wrappers
    peeled, or a command inside a [bash -c] or [env -S] script nested in it, up
    to the inline depth limit. *)
Theorem gate_denies_inner_command c (cmd : bytes) (argv : list bytes) (reason : bytes) :
  runs (CompiledPolicy_new c) MAX_INLINE_SHELL_DEPTH cmd argv →
  evaluate (CompiledPolicy_new c) (Access_Bash (join $" " argv)) = Some (Decision_Reject reason) →
  ∃ r, evaluate_bash_command_gate (CompiledPolicy_new c) cmd = Some (Reject r).
Proof.
  intros Hr He. unfold evaluate_bash_command_gate. rewrite (bash_reject_restricts _ _ _ He). simpl negb.
  apply gate_rank_reject. apply segments_catch in Hr. unfold rank_le, escalate in Hr. rewrite He in Hr.
  exact Hr.
Qed.

(** C24: the gate stays silent on a script exactly when it saw through all of it:
    the script decomposed (or was recovered and fully covered), every argv was
    peeled without a flag, no deny or ask rule matches any form of it, and every
    inline script satisfies the same; anything else gives at least an ask. *)
Theorem gate_silent_iff_inspected c (cmd : bytes) :
  has_bash_command_restrictions (CompiledPolicy_new c) = true →
  evaluate_bash_command_gate (CompiledPolicy_new c) cmd = None
  ↔ inspected (CompiledPolicy_new c) MAX_INLINE_SHELL_DEPTH cmd.
Proof. intros Hb. unfold evaluate_bash_command_gate. rewrite Hb. apply segments_silent. Qed.

End Laws.

(** When a shell invocation is classified as running a literal inline script,
    the index is that of a literal word behind a supported shell name and an
    option word that carries [c]. *)
Theorem dash_c_literal_sound (words : list ShellWord) (j : nat) :
  shell_dash_c_script words = InlineLiteral j →
  ∃ program pre script post,
    words = Literal program :: pre ++ Literal script :: post ∧ j = S (length pre)
    ∧ mem (after_last_sep program) dash_c_shells = true ∧ ∃ w, Literal w ∈ pre ∧ c_flag w.
Proof.
  unfold shell_dash_c_script. destruct words as [|[program|] r]; [done| |].
  - destruct (mem _ dash_c_shells) eqn:Em; simpl; [|done].
    intros (pre & s & post & -> & -> & [?|Hc])%dash_c_go_literal; [done|].
    by exists program, pre, s, post.
  - intros Hd. exfalso. revert Hd. apply dynamic_head_no_literal.
Qed.

(** ** Witnesses on a concrete policy *)

Definition allow_ls : PermissionRule := mkRule Rule_Allow Filter_Bash (Some $"ls") Mode_Glob.
Definition deny_rm : PermissionRule := mkRule Rule_Deny Filter_Bash (Some $"rm") Mode_Glob.
Definition deny_etc : PermissionRule := mkRule Rule_Deny Filter_Read (Some $"/etc/**") Mode_Glob.
Definition demo : PermissionConfig := PermissionConfig_new [allow_ls; deny_rm; deny_etc].
Definition demo_reversed : PermissionConfig := PermissionConfig_new [deny_etc; deny_rm; allow_ls].
Definition demo_open : PermissionConfig := PermissionConfig_new [allow_ls].

Definition nested_rm : bytes := $"cd /tmp; bash -c 'rm -rf x'".

Lemma evaluate_order_independent_witness :
  rules demo ≡ₚ rules demo_reversed
  ∧ same_class (evaluate_with_cwd (CompiledPolicy_new demo) (Access_Bash nested_rm) None)
               (evaluate_with_cwd (CompiledPolicy_new demo_reversed) (Access_Bash nested_rm) None).
Proof.
  assert (rules demo ≡ₚ rules demo_reversed) as Hp.
  { exact (Permutation_rev [allow_ls; deny_rm; deny_etc]). }
  split; [exact Hp|]. exact (evaluate_order_independent demo demo_reversed _ None Hp).
Defined.

Lemma demo_restricted : restricted_more demo_open demo.
Proof.
  split; simpl.
  - intros r Hr. by apply list_elem_of_singleton in Hr as ->; left.
  - intros r Hr. repeat (apply elem_of_cons in Hr as [->|Hr]; [simpl; by (left; left) || right|]).
    by apply elem_of_nil in Hr.
Qed.

Lemma restricting_rules_tighten_witness :
  restricted_more demo_open demo
  ∧ tightens (evaluate_with_cwd (CompiledPolicy_new demo_open) (Access_Read (Some $"/w/link/passwd")) (Some $"/w"))
             (evaluate_with_cwd (CompiledPolicy_new demo) (Access_Read (Some $"/w/link/passwd")) (Some $"/w"))
  ∧ gate_rank (evaluate_bash_command_gate (CompiledPolicy_new demo_open) nested_rm)
    ≤ gate_rank (evaluate_bash_command_gate (CompiledPolicy_new demo) nested_rm).
Proof.
  split; [exact demo_restricted|].
  exact (restricting_rules_tighten demo_open demo _ (Some $"/w") nested_rm demo_restricted).
Defined.

(** The restriction is felt: silent before, rejected after. *)
Example restricting_rules_tighten_strict :
  evaluate_bash_command_gate (CompiledPolicy_new demo_open) nested_rm = None
  ∧ gate_rank (evaluate_bash_command_gate (CompiledPolicy_new demo) nested_rm) = 3.
Proof. split; vm_compute; reflexivity. Qed.

Lemma gate_denies_inner_command_witness :
  runs (CompiledPolicy_new demo) MAX_INLINE_SHELL_DEPTH nested_rm [$"rm"; $"-rf"; $"x"]
  ∧ ∃ r, evaluate_bash_command_gate (CompiledPolicy_new demo) nested_rm = Some (Reject r).
Proof.
  assert (runs (CompiledPolicy_new demo) MAX_INLINE_SHELL_DEPTH nested_rm [$"rm"; $"-rf"; $"x"]) as Hr.
  { eapply (runs_dash_c _ 7 nested_rm _ _ [$"bash"; $"-c"; $"rm -rf x"] 2 $"rm -rf x").
    - vm_compute. reflexivity.
    - right. left.
    - vm_compute. reflexivity.
    - vm_compute. reflexivity.
    - eapply (runs_here _ 7 _ _ _ [$"rm"; $"-rf"; $"x"]); [vm_compute; reflexivity|left|].
      vm_compute. left. }
  split; [exact Hr|]. eapply (gate_denies_inner_command demo nested_rm); [exact Hr|].
  vm_compute. reflexivity.
Defined.

Lemma gate_silent_iff_inspected_witness :
  has_bash_command_restrictions (CompiledPolicy_new demo) = true
  ∧ inspected (CompiledPolicy_new demo) MAX_INLINE_SHELL_DEPTH $"cd /tmp; ls -l".
Proof.
  split; [reflexivity|].
  apply (gate_silent_iff_inspected demo $"cd /tmp; ls -l"); [reflexivity|vm_compute; reflexivity].
Defined.

Definition ls_script : bytes := $"ls -l".

Definition ls_tree : Node := default (leaf "program" true 0 0) (plain_parser ls_script).

Definition ls_loc : Loc := default (root_loc ls_tree) (head (l_children (root_loc ls_tree))).

Lemma allow_covers_every_command_witness :
  ∃ pc, parse_plain_command_from_node (l_node ls_loc) ls_script = Some pc
        ∧ unflagged (normalize_command_words (pc_words pc))
        ∧ authorized demo ScopeAny (np_words (normalize_command_words (pc_words pc))).
Proof.
  eapply (allow_covers_every_command demo ls_script ls_tree ls_loc).
  - vm_compute. reflexivity.
  - vm_compute. reflexivity.
  - vm_compute. reflexivity.
  - eapply desc_child; [|apply desc_self]. vm_compute. left.
  - reflexivity.
  - reflexivity.
Defined.

Lemma narrow_allow_sound_witness :
  vetted demo NarrowOnly MAX_INLINE_SHELL_DEPTH ls_script
  ∧ 1 ≤ severity (evaluate (CompiledPolicy_new demo) (Access_Bash ls_script)).
Proof. apply (narrow_allow_sound demo ls_script). vm_compute. reflexivity. Defined.

Lemma symlink_recheck_escalates_witness :
  3 ≤ severity (evaluate_with_cwd (CompiledPolicy_new demo) (Access_Read (Some $"/w/link/passwd")) (Some $"/w")).
Proof.
  destruct (symlink_recheck_escalates demo (Access_Read (Some $"/w/link/passwd")) (Some $"/w")) as [_ Ht].
  etrans; [|eapply (Ht $"/w/link/passwd" $"/w/link/passwd" $"/etc/passwd"); vm_compute; reflexivity].
  vm_compute. reflexivity.
Defined.

Lemma dash_c_literal_sound_witness :
  ∃ program pre script post,
    [Literal $"/bin/bash"; Literal $"-lc"; Literal $"ls"]
    = Literal program :: pre ++ Literal script :: post ∧ 2 = S (length pre)
    ∧ mem (after_last_sep program) dash_c_shells = true ∧ ∃ w, Literal w ∈ pre ∧ c_flag w.
Proof. apply (dash_c_literal_sound _ 2). vm_compute. reflexivity. Defined.
