(* ===== verification/ShellAccess.v ===== *)
(** * File accesses inside a shell command

    [crates/codegen/xai-grok-permission-rules/src/shell_access.rs]: which paths
    a script reads, writes or creates (operands, flag values, redirects), the
    escalate-only gate that checks them against Read and Edit rules, and the
    protection of sensitive edit targets. *)

From S2P Require Import Prelude RustStr PolicyTypes Wrappers SyntaxTree Paths Policy.

(** ** Operands *)

Inductive ShellFileMode := Read | Write | Create.

#[export] Instance ShellFileMode_eq_dec : EqDecision ShellFileMode.
Proof. solve_decision. Defined.

Definition shell_readers : list string :=
  ["cat"; "tac"; "nl"; "head"; "tail"; "grep"; "egrep"; "fgrep"; "rg"; "sed"; "awk"; "less"; "more";
   "bat"; "strings"; "xxd"; "od"; "hexdump"; "base64"; "base32"; "cut"; "sort"; "uniq"; "wc"; "type";
   "get-content"; "gc"; "diff"; "comm"; "rev"; "jq"; "yq"; "select-string"; "sls"; "ag"; "ack"; "zcat";
   "zless"; "zmore"; "zgrep"; "zegrep"; "zfgrep"; "bzcat"; "bzgrep"; "xzcat"; "xzgrep"; "zstdcat";
   "lz4cat"]%string.

Definition shell_writers : list string :=
  ["tee"; "set-content"; "out-file"; "add-content"; "tee-object"; "truncate"]%string.

Definition shell_file_mode (program : bytes) : option ShellFileMode :=
  if mem program shell_readers then Some Read
  else if mem program shell_writers then Some Write
  else None.

Definition shell_program_name (word : bytes) : bytes := after_last_sep word.

(** The loop of [shell_file_candidates] over [words\[1..\]]. *)
Fixpoint candidates_go (ws : list bytes) (end_of_options : bool) : list bytes :=
  match ws with
  | [] => []
  | token :: r =>
      if negb end_of_options && (token =b ddash) then candidates_go r true
      else if end_of_options || (negb (token =b dash) && negb (starts_with dash token))
      then token :: candidates_go r end_of_options
      else candidates_go r end_of_options
  end.

Definition shell_file_candidates (words : list bytes) : list bytes := candidates_go (drop 1 words) false.

Definition shell_sed_in_place (words : list bytes) : bool :=
  existsb (fun word =>
      (word =b $"--in-place") || starts_with $"--in-place=" word
      || starts_with dash word && negb (starts_with ddash word) && contains_byte "i"%char word)
    (drop 1 words).

(** [exec_risk.rs] *)
Definition is_accepted_long_option_prefix (flag full : bytes) (min_len : nat) : bool :=
  starts_with ddash flag && (min_len <=? length flag) && starts_with flag full
  && forallb (fun b => is_ascii_alphanumeric b || bool_decide (b = "-"%char)) flag.

(** One token of [shell_output_flag_values]; [next_or_empty] is the word after it. *)
Definition output_flag_value (clustered_o : bool) (token next_or_empty : bytes) : option bytes :=
  if starts_with ddash token then
    let '(flag, attached) := match split_once "="%char token with
                             | Some (flag, value) => (flag, Some value)
                             | None => (token, None)
                             end in
    if is_accepted_long_option_prefix flag $"--output" 3 then Some (default next_or_empty attached)
    else None
  else if token =b $"-o" then Some next_or_empty
  else match (match strip_prefix $"-o" token with
              | Some value => if value =b [] then None else Some value
              | None => None
              end) with
       | Some value => Some value
       | None =>
           if negb clustered_o then None
           else flags ← strip_prefix dash token;
                if (flags =b []) || starts_with $"o" flags || contains_byte "="%char flags then None
                else '(_, after_o) ← split_once "o"%char flags;
                     Some (if after_o =b [] then next_or_empty else after_o)
       end.

(** [words.iter().enumerate().filter_map(f)] where [f] looks one word ahead. *)
Fixpoint filter_map_next {A} (f : bytes → option bytes → option A) (words : list bytes) : list A :=
  match words with
  | [] => []
  | token :: r =>
      match f token (head r) with Some v => [v] | None => [] end ++ filter_map_next f r
  end.

Definition shell_output_flag_values (words : list bytes) (clustered_o : bool) : list bytes :=
  filter_map_next (fun token next => output_flag_value clustered_o token (default [] next)) words.

Definition value_flag_values (words : list bytes) (flag : bytes) : list bytes :=
  filter_map_next (fun token next =>
      match strip_prefix (flag ++ $"=") token with
      | Some value => Some value
      | None =>
          if token =b flag then next
          else if negb (starts_with ddash flag) then
            value ← strip_prefix flag token; if value =b [] then None else Some value
          else None
      end) words.

Definition special_file_operands (program : bytes) (words : list bytes) : list (bytes * ShellFileMode) :=
  let writes := map (fun path => (path, Write)) in
  if program =b $"dd" then
    omap (fun token => match strip_prefix $"if=" token with
                       | Some path => Some (path, Read)
                       | None => path ← strip_prefix $"of=" token; Some (path, Write)
                       end) (drop 1 words)
  else if program =b $"sort" then writes (shell_output_flag_values words true)
  else if mem program ["go"; "git"]%string then writes (shell_output_flag_values words false)
  else if program =b $"rustc" then
    writes (shell_output_flag_values words false ++ value_flag_values words $"--out-dir")
  else if program =b $"rustfmt" then writes (shell_file_candidates words)
  else [].

Definition is_creation_program (program : bytes) : bool := mem program ["mkdir"; "touch"]%string.

Definition shell_path_command_operands (program : bytes) (words : list bytes)
  : option (list (bytes * ShellFileMode)) :=
  let operands := shell_file_candidates words in
  if mem program ["cp"; "mv"; "ln"; "install"]%string then
    dest ← last operands;
    Some (map (fun s => (s, Read)) (removelast operands) ++ [(dest, Write)])
  else if mem program ["rm"; "rmdir"]%string then Some (map (fun c => (c, Write)) operands)
  else if is_creation_program program then Some (map (fun c => (c, Create)) operands)
  else if program =b $"uniq" then
    match operands with
    | input :: output :: _ => Some [(input, Read); (output, Write)]
    | _ => None
    end
  else None.

Definition shell_arg_is_ambiguous (token : bytes) : bool :=
  contains_byte "*"%char token || contains_byte "?"%char token || contains_byte "["%char token.

Definition is_directory_operand (token : bytes) : bool :=
  (token =b $".") || (token =b $"..") || ends_with $"/" token.

Definition shell_reader_can_recurse (program : bytes) (words candidates : list bytes) : bool :=
  let grep_recursive :=
    mem program ["grep"; "egrep"; "fgrep"]%string
    && existsb (fun word =>
         (word =b $"--recursive") || (word =b $"--dereference-recursive")
         || starts_with dash word && negb (starts_with ddash word)
            && (contains_byte "r"%char word || contains_byte "R"%char word)) words in
  let searches_dir :=
    mem program ["rg"; "ag"; "ack"]%string
    && ((length candidates <=? 1) || existsb is_directory_operand (drop 1 candidates)) in
  grep_recursive || searches_dir.

(** ** Shell path spellings *)

Definition second_is_colon (path : bytes) : bool := bool_decide (path !! 1 = Some ":"%char).

Definition is_absolute_shell_path (path : bytes) : bool :=
  starts_with $"/" path || starts_with $"~/" path || second_is_colon path.

(** One segment of the loop of [lexical_normalize]; [out] is the [Vec], last first. *)
Definition lexical_step (absolute : bool) (out : list bytes) (segment : bytes) : list bytes :=
  if (segment =b []) || (segment =b dot) then out
  else if segment =b dotdot then
    match out with
    | s :: out' =>
        if negb (s =b dotdot) then out' else if negb absolute then dotdot :: out else out
    | [] => if negb absolute then [dotdot] else []
    end
  else segment :: out.

Definition lexical_normalize (path : bytes) : bytes :=
  let prefix_len := if second_is_colon path then 2 else 0 in
  let prefix := take prefix_len path in
  let rest := drop prefix_len path in
  let absolute := starts_with $"/" rest in
  let body := join $"/" (reverse (foldl (lexical_step absolute) [] (split_on slash rest))) in
  match prefix =b [], absolute, body =b [] with
  | false, true, false => prefix ++ $"/" ++ body
  | false, true, true => prefix ++ $"/"
  | false, false, _ => prefix ++ body
  | true, true, false => $"/" ++ body
  | true, true, true => $"/"
  | true, false, _ => body
  end.

Definition normalize_shell_path_raw (path : bytes) : bytes :=
  let p := path_match_string (trim_matches_any [dquote; squote] path) in
  match strip_prefix $"/c/" p with
  | Some rest => $"C:/" ++ rest
  | None => p
  end.

Definition normalize_shell_path (path : bytes) : bytes := lexical_normalize (normalize_shell_path_raw path).

(** ** Where a command runs *)

(** [sc_end = None] is [usize::MAX]. *)
Record ExecutionScope := mkScope { sc_start : nat; sc_end : option nat }.

#[export] Instance ExecutionScope_eq_dec : EqDecision ExecutionScope.
Proof. solve_decision. Defined.

Definition scope_contains (self other : ExecutionScope) : bool :=
  (sc_start self <=? sc_start other)
  && match sc_end self, sc_end other with
     | None, _ => true
     | Some _, None => false
     | Some a, Some b => b <=? a
     end.

Definition node_scope (n : Node) : ExecutionScope := mkScope (nd_start n) (Some (nd_end n)).

(** The climb of [execution_scope]: [up] is the rest of the path to the root. *)
Fixpoint scope_go (current : Node) (up : list (Node * nat)) : ExecutionScope :=
  match up with
  | [] => mkScope 0 None
  | (parent, i) :: up' =>
      if match nd_children parent !! S i with
         | Some sibling => nd_kind sibling =b $"&"
         | None => false
         end
      then node_scope (if nd_kind current =b $"list" then current else parent)
      else if mem (nd_kind parent) ["subshell"; "command_substitution"; "process_substitution"]%string
      then node_scope parent
      else if nd_kind parent =b $"pipeline" then node_scope current
      else scope_go parent up'
  end.

Definition execution_scope (l : Loc) : ExecutionScope := scope_go (l_node l) (l_up l).

Record CwdPoison := mkPoison { po_at : nat; po_scope : ExecutionScope }.

Definition is_cwd_command (program : bytes) : bool := mem program ["cd"; "pushd"; "popd"]%string.

Definition cwd_poison_positions (root : Node) (src : bytes) : list CwdPoison :=
  map (fun l => mkPoison (l_start l) (execution_scope l))
    (List.filter (fun l =>
       (l_kind l =b $"command")
       && match child_by_field_name (l_node l) $"name" ≫= fun name => node_text name src with
          | Some program => is_cwd_command (shell_program_name program)
          | None => false
          end) (walk root)).

Definition script_has_cwd_change (root : Node) (src : bytes) : bool :=
  negb (bool_decide (length (cwd_poison_positions root src) = 0)).

Definition cwd_unpinned_before (positions : list CwdPoison) (at_ : nat) (scope : ExecutionScope) : bool :=
  existsb (fun poison =>
      (po_at poison <? at_)
      && (bool_decide (po_scope poison = scope) || scope_contains (po_scope poison) scope)) positions.

(** ** Invocations *)

Record ShellInvocation := mkInvocation {
  inv_start_byte : nat;
  inv_scope : ExecutionScope;
  inv_words : list ShellWord;
  inv_wrapper_words : list bytes;
}.

(** The words of a [command] node; [InvocationWord] has the shape of [ShellWord]. *)
Definition invocation_words (node : Node) (src : bytes) : list ShellWord :=
  omap (fun child =>
      let operand := if nd_kind child =b $"command_name"
                     then named_child child 0 ≫= fun inner => shell_node_arg inner src
                     else shell_node_arg child src in
      match operand with
      | Some (ArgLiteral word) => Some (Literal word)
      | Some ArgAmbiguous => Some Untrusted
      | None => None
      end) (named_children node).

Definition wrapper_word (w : ShellWord) : bytes :=
  match w with Literal word => word | Untrusted => [nul] end.

Definition invocation_of (src : bytes) (l : Loc) : ShellInvocation :=
  let words := invocation_words (l_node l) src in
  mkInvocation (l_start l) (execution_scope l) words (map wrapper_word words).

Definition shell_command_invocations (root : Node) (src : bytes) : list ShellInvocation :=
  sort_by_key inv_start_byte
    (map (invocation_of src) (List.filter (fun l => l_kind l =b $"command") (walk root))).

Definition literal_words (ws : list ShellWord) : list bytes :=
  omap (fun w => match w with Literal word => Some word | Untrusted => None end) ws.

Record CheckedInvocationPeel := mkInvPeel {
  ip_words : list ShellWord;
  ip_has_chdir : bool;
  ip_has_split_string : bool;
  ip_env_options_uncertain : bool;
  ip_exhausted : bool;
  ip_transparent_ambiguous : bool;
}.

Definition unwrap_invocation_checked (inv : ShellInvocation) : CheckedInvocationPeel :=
  let norm := normalize_command_words (inv_wrapper_words inv) in
  let peeled_count := length (inv_wrapper_words inv) - length (np_words norm) in
  mkInvPeel (drop peeled_count (inv_words inv)) (np_has_chdir norm) (np_has_split_string norm)
    (np_env_options_uncertain norm) (np_exhausted norm) (np_ambiguous norm).

Definition words_are_opaque_shell (words : list ShellWord) : bool :=
  is_potential_inline (shell_dash_c_script words)
  || match words with Literal program :: _ => shell_program_name program =b $"eval" | _ => false end.

Definition tree_has_opaque_shell (root : Node) (src : bytes) : bool :=
  existsb (fun inv => words_are_opaque_shell (ip_words (unwrap_invocation_checked inv)))
    (shell_command_invocations root src).

(** ** Redirects *)

Record ShellRedirectTarget := mkRedirect {
  rd_path : option bytes;
  rd_mode : ShellFileMode;
  rd_ambiguous : bool;
  rd_start_byte : nat;
  rd_scope : ExecutionScope;
}.

(** The operator token: [None] when a here-document token comes first or there is none. *)
Fixpoint redirect_operator (cs : list Node) : option bytes :=
  match cs with
  | [] => None
  | c :: r =>
      let kind := nd_kind c in
      if contains_str $"<<" kind then None
      else if contains_byte ">"%char kind || contains_byte "<"%char kind then Some kind
      else redirect_operator r
  end.

Definition shell_redirect_one (node : Node) (src : bytes) : option (option bytes * ShellFileMode * bool) :=
  redirect ← redirect_operator (nd_children node);
  let mode := if contains_byte ">"%char redirect then Write else Read in
  let duplicates_fd := mem redirect [">&"; "<&"]%string in
  dest ← child_by_field_name node $"destination";
  arg ← shell_node_arg dest src;
  match arg with
  | ArgLiteral s =>
      if (s =b []) || starts_with $"&" s
         || duplicates_fd && ((s =b dash) || forallb is_ascii_digit s)
      then None
      else Some (Some s, mode, shell_arg_is_ambiguous s)
  | ArgAmbiguous => Some (None, mode, true)
  end.

Definition redirect_at (src : bytes) (l : Loc) : option ShellRedirectTarget :=
  if l_kind l =b $"file_redirect" then
    '(path, mode, ambiguous) ← shell_redirect_one (l_node l) src;
    Some (mkRedirect path mode ambiguous (l_start l) (execution_scope l))
  else None.

Definition shell_redirect_targets (root : Node) (src : bytes) : list ShellRedirectTarget :=
  omap (redirect_at src) (walk root).

(** ** Write paths *)

Definition write_operands (l : list (bytes * ShellFileMode)) : list bytes :=
  omap (fun '(path, mode) => if bool_decide (mode = Write) then Some path else None) l.

Definition command_words_write_paths (words : list bytes) : list bytes :=
  let inner := unwrap_wrappers words in
  match inner with
  | [] => []
  | w :: _ =>
      let program := to_ascii_lowercase (shell_program_name w) in
      let out := write_operands (special_file_operands program inner) in
      match shell_path_command_operands program inner with
      | Some operands => out ++ write_operands operands
      | None =>
          if bool_decide (shell_file_mode program = Some Write)
             || (program =b $"sed") && shell_sed_in_place inner
          then out ++ shell_file_candidates inner else out
      end
  end.

Definition command_words_creation_paths (words : list bytes) : list bytes :=
  let inner := unwrap_wrappers words in
  match inner with
  | [] => []
  | w :: _ =>
      omap (fun '(path, mode) => if bool_decide (mode = Create) then Some path else None)
        (default [] (shell_path_command_operands (to_ascii_lowercase (shell_program_name w)) inner))
  end.

Record WritePathsSplit := mkWriteSplit {
  redirect_paths : list bytes;
  unextracted_write_redirect : bool;
  word_paths : list bytes;
  creation_paths : list bytes;
}.

Definition command_write_paths_split (root : Node) (src : bytes) : WritePathsSplit :=
  let writes := List.filter (fun r => bool_decide (rd_mode r = Write)) (shell_redirect_targets root src) in
  let argvs := map (fun inv => literal_words (inv_words inv)) (shell_command_invocations root src) in
  mkWriteSplit (omap rd_path writes)
    (existsb (fun r => bool_decide (rd_path r = None)) writes)
    (concat (map command_words_write_paths argvs))
    (concat (map command_words_creation_paths argvs)).

Definition command_write_paths_in_tree (root : Node) (src : bytes) : list bytes :=
  let split := command_write_paths_split root src in redirect_paths split ++ word_paths split.

Definition is_safe_write_sink (path : bytes) : bool :=
  mem path ["/dev/null"; "/dev/stdout"; "/dev/stderr"]%string.

(** ** The shell file gate *)

Section Gate.
Context `{PolicyEnv} `{ShellParser} `{FileSystem}.

Definition shell_access (mode : ShellFileMode) (path : bytes) : AccessKind Json :=
  match mode with
  | Read => Access_Read (Some path)
  | Write | Create => Access_Edit path
  end.

(** The [escalate] closure: rule [Allow] is dropped. *)
Definition escalate_access (p : CompiledPolicy) (access : AccessKind Json) (base : option RuleBase)
  : option GateDecision :=
  match evaluate_rules_with_base p access base with
  | Some (Decision_Reject reason) => Some (Reject reason)
  | Some Decision_Ask => Some AskRuleMatch
  | _ => None
  end.

Definition evaluate_shell_path (p : CompiledPolicy) (token : bytes) (base : RuleBase)
    (mode : ShellFileMode) (cwd_unpinned : bool) : option GateDecision :=
  let cwd := rb_lexical base in
  let path := normalize_shell_path token in
  let raw := normalize_shell_path_raw token in
  let is_abs := is_absolute_shell_path path in
  let rule_base := if is_abs || negb cwd_unpinned then Some base else None in
  let has_parent_dir := path_has_parent_dir raw in
  let path_rule_base := if has_parent_dir then without_physical <$> rule_base else rule_base in
  let absolute := if is_abs then path else normalize_shell_path (push cwd path) in
  let raw_absolute :=
    if is_absolute_shell_path raw then Some raw
    else if cwd_unpinned then None
    else Some (normalize_shell_path_raw (push cwd raw)) in
  let resolved_decision :=
    raw_absolute ← raw_absolute;
    match follow_absolute_symlink raw_absolute absolute with
    | FollowTarget resolved => escalate_access p (shell_access mode resolved) rule_base
    | FollowNone =>
        if has_parent_dir then escalate_access p (shell_access mode absolute) rule_base else None
    | FollowUnresolvable => Some AskFailClosed
    end in
  let path_decision := escalate_access p (shell_access mode path) path_rule_base in
  let anchored_decision :=
    if cwd_unpinned && negb is_abs then None
    else combine_gate_decisions
           (escalate_access p (shell_access mode absolute) path_rule_base) resolved_decision in
  combine_gate_decisions (combine_gate_decisions path_decision anchored_decision)
    (ask_if (cwd_unpinned && negb is_abs)).

(** Loop state of the gate: the decision so far and [forced_ask]. *)
Record GateState := mkGate { gs_decision : option GateDecision; gs_forced : bool }.

Definition add_decision (d : option GateDecision) (s : GateState) : GateState :=
  mkGate (combine_gate_decisions (gs_decision s) d) (gs_forced s).

Definition force_ask (b : bool) (s : GateState) : GateState := mkGate (gs_decision s) (gs_forced s || b).

Definition redirect_step (p : CompiledPolicy) (base : RuleBase) (cwd_unpinned : bool)
    (changes : list CwdPoison) (s : GateState) (r : ShellRedirectTarget) : GateState :=
  let s := force_ask (rd_ambiguous r) s in
  match rd_path r with
  | Some path =>
      add_decision (evaluate_shell_path p path base (rd_mode r)
        (cwd_unpinned || cwd_unpinned_before changes (rd_start_byte r) (rd_scope r))) s
  | None => s
  end.

(** One file operand in one mode. *)
Definition operand_step (p : CompiledPolicy) (base : RuleBase) (unpinned : bool)
    (s : GateState) (op : bytes * ShellFileMode) : GateState :=
  let '(path, mode) := op in
  add_decision (evaluate_shell_path p path base mode unpinned)
    (force_ask (shell_arg_is_ambiguous path) s).

(** Modes in which each candidate operand of a known program is checked. *)
Definition candidate_modes (program_lower : bytes) (words : list bytes) : option (list ShellFileMode) :=
  match shell_file_mode program_lower with
  | Some mode =>
      if (program_lower =b $"sed") && shell_sed_in_place words then Some [Read; Write]
      else match mode with
           | Read => Some [Read]
           | Write => Some [Write]
           | Create => None
           end
  | None => None
  end.

(** The checks of the body of the invocation loop after the inline script. *)
Definition program_step (p : CompiledPolicy) (base : RuleBase) (parse_failed unpinned : bool)
    (words : list ShellWord) (s : GateState) : GateState :=
  match words with
  | Literal program :: _ =>
      let lits := literal_words words in
      let program_lower := to_ascii_lowercase (shell_program_name program) in
      if is_cwd_command program_lower then s
      else
        let candidates := shell_file_candidates lits in
        let path_operands := shell_path_command_operands program_lower lits in
        let is_known := (program_lower =b $"dd")
                        || bool_decide (is_Some (shell_file_mode program_lower))
                        || bool_decide (is_Some path_operands) in
        let has_ambiguous_word :=
          existsb (fun w => match w with Untrusted => true | Literal _ => false end) words in
        let s := force_ask (is_known && (unpinned || has_ambiguous_word || parse_failed)) s in
        let s := foldl (operand_step p base unpinned) s (special_file_operands program_lower lits) in
        if program_lower =b $"dd" then s
        else match path_operands with
        | Some operands => foldl (operand_step p base unpinned) s operands
        | None =>
            match candidate_modes program_lower lits with
            | None => s
            | Some modes =>
                let ops := concat (map (fun token => map (fun mode => (token, mode)) modes) candidates) in
                let s := foldl (operand_step p base unpinned) s ops in
                force_ask (shell_reader_can_recurse program_lower lits candidates) s
            end
        end
  | _ => s
  end.

(** The body of the invocation loop; [rec] evaluates an inline script with the
    invocation's cwd state, [None] when no inline depth remains. *)
Definition invocation_step (p : CompiledPolicy) (base : RuleBase)
    (rec : option (bool → bytes → option GateDecision)) (parse_failed cwd_unpinned : bool)
    (changes : list CwdPoison) (s : GateState) (inv : ShellInvocation) : GateState :=
  let peeled := unwrap_invocation_checked inv in
  let words := ip_words peeled in
  let unpinned := cwd_unpinned || cwd_unpinned_before changes (inv_start_byte inv) (inv_scope inv)
                  || ip_has_chdir peeled in
  let s := force_ask (ip_exhausted peeled) s in
  let s := force_ask (ip_has_split_string peeled) s in
  let s := force_ask (ip_env_options_uncertain peeled) s in
  let s := force_ask (ip_transparent_ambiguous peeled) s in
  let inline_script := shell_dash_c_script words in
  let s := force_ask (parse_failed && match inline_script with NotInline => false | _ => true end) s in
  let s := match inline_script with
           | InlineLiteral index =>
               match rec with
               | None => force_ask true s
               | Some rec =>
                   match words !! index with
                   | Some (Literal inner) => add_decision (rec unpinned inner) s
                   | _ => s
                   end
               end
           | InlineUntrusted | Unrecognized => force_ask true s
           | NotInline => s
           end in
  program_step p base parse_failed unpinned words s.

Fixpoint evaluate_shell_file_access_inner (p : CompiledPolicy) (base : RuleBase) (inline_depth_remaining : nat)
    (entered_inline cwd_unpinned : bool) (cmd : bytes) : option GateDecision :=
  match try_parse_shell cmd with
  | None => ask_if entered_inline
  | Some root =>
      let parse_failed := nd_error root in
      let changes := cwd_poison_positions root cmd in
      let s := mkGate None (entered_inline && parse_failed) in
      let s := foldl (redirect_step p base cwd_unpinned changes) s (shell_redirect_targets root cmd) in
      let s := foldl (invocation_step p base
                 (match inline_depth_remaining with
                  | 0 => None
                  | S d => Some (evaluate_shell_file_access_inner p base d true)
                  end) parse_failed cwd_unpinned changes)
                 s (shell_command_invocations root cmd) in
      combine_gate_decisions (gs_decision s) (ask_if (gs_forced s))
  end.

Definition evaluate_shell_file_access_gate (p : CompiledPolicy) (cmd cwd : bytes) : option GateDecision :=
  if negb (has_file_restrictions p) then None
  else evaluate_shell_file_access_inner p (RuleBase_new cwd) MAX_INLINE_SHELL_DEPTH false false cmd.

Definition evaluate_shell_file_access (p : CompiledPolicy) (cmd cwd : bytes) : option Decision :=
  into_decision <$> evaluate_shell_file_access_gate p cmd cwd.

End Gate.

(** ** Protected edit targets *)

Inductive ProtectedEditReason :=
| HookRoot | GitHooks | Ssh | StartupFile | Etc | GrokConfig | GrokSandbox | ClaudeSettings
| CursorHooks | Sensitive.

#[export] Instance ProtectedEditReason_eq_dec : EqDecision ProtectedEditReason.
Proof. solve_decision. Defined.

Definition STARTUP_FILES : list string :=
  [".bashrc"; ".bash_profile"; ".bash_login"; ".bash_logout"; ".profile"; ".zshrc"; ".zshenv";
   ".zprofile"; ".zlogin"; ".zlogout"; ".kshrc"; ".cshrc"; ".tcshrc"; ".login"; ".logout"; ".inputrc";
   ".xprofile"]%string.

(** [path == other] and [path.starts_with(base)] on [Path]: by components. *)
Definition path_eq (p q : bytes) : bool := bool_decide (components p = components q).
Definition path_starts_with (p base : bytes) : bool :=
  bool_decide (components base `prefix_of` components p).

(** Lower-cased plain components. *)
Definition name_components (path : bytes) : list bytes :=
  omap (fun c => match c with Normal part => Some (to_ascii_lowercase part) | _ => None end)
    (components path).

Definition lit (l : list string) : list bytes := map (fun s => $s) l.

Definition comps_end_with (cs : list bytes) (l : list string) : bool :=
  bool_decide (lit l `suffix_of` cs).

(** [components.windows(2).any(|pair| pair == \[a, b\])] *)
Fixpoint has_pair (cs : list bytes) (a b : bytes) : bool :=
  match cs with
  | x :: (y :: _) as r => (x =b a) && (y =b b) || has_pair r a b
  | _ => false
  end.

(** [.git/modules/<name>/.../hooks] starting at some [.git]. *)
Fixpoint has_module_hooks (cs : list bytes) : bool :=
  match cs with
  | [] => false
  | x :: r =>
      (x =b $".git")
      && match r with
         | m :: rest => (m =b $"modules") && existsb (fun c => c =b $"hooks") (drop 1 rest)
         | [] => false
         end
      || has_module_hooks r
  end.

Definition protected_git_hooks_path (cs : list bytes) : bool :=
  has_pair cs $".git" $"hooks" || has_module_hooks cs.

(** [components.get(components.len() - k)] *)
Definition nth_from_end (cs : list bytes) (k : nat) : option bytes :=
  if k <=? length cs then cs !! (length cs - k) else None.

Definition is_nth_from_end (cs : list bytes) (k : nat) (s : string) : bool :=
  bool_decide (nth_from_end cs k = Some $s).

Section Protected.
Context `{FileSystem} (user_grok_home : option bytes).

Definition grok_home_matches (pred : bytes → bool) : bool :=
  match user_grok_home with
  | None => false
  | Some home =>
      let lexical := normalize_lexically home in
      pred lexical || match resolve_following_symlinks lexical with
                      | Some resolved => pred resolved
                      | None => false
                      end
  end.

Definition protected_grok_config_file (path : bytes) (cs : list bytes) : option ProtectedEditReason :=
  file ← last cs;
  if ((file =b $"permission.toml") || starts_with $"permission_" file && ends_with $".toml" file)
     && (3 <=? length cs) && is_nth_from_end cs 3 "sessions"
  then
    let in_dot_grok := (4 <=? length cs) && is_nth_from_end cs 4 ".grok" in
    let in_grok_home := grok_home_matches (fun home =>
      match parent path ≫= parent with
      | Some sessions => path_eq sessions (push home $"sessions")
      | None => false
      end) in
    if in_dot_grok || in_grok_home then Some GrokConfig else None
  else
    reason ←
      (if mem file ["config.toml"; "managed_config.toml"; "requirements.toml"]%string then Some GrokConfig
       else if mem file ["mcp.json"; "lsp.json"]%string then Some GrokConfig
       else if file =b $"sandbox.toml" then Some GrokSandbox
       else None);
    let in_dot_grok := (2 <=? length cs) && is_nth_from_end cs 2 ".grok" in
    let in_grok_home := grok_home_matches (fun home =>
      match parent path with Some par => path_eq par home | None => false end) in
    if in_dot_grok || in_grok_home then Some reason else None.

Definition path_is_under_user_grok_hook_root (path grok_home : bytes) : bool :=
  path_starts_with path (push grok_home $"hooks") || path_eq path (push grok_home $"hooks-paths").

Definition protected_grok_hook_root (path : bytes) (cs : list bytes) : bool :=
  has_pair cs $".grok" $"hooks" || comps_end_with cs [".grok"; "hooks-paths"]%string
  || grok_home_matches (path_is_under_user_grok_hook_root path).

Definition protected_edit_reason (path : bytes) : option ProtectedEditReason :=
  let cs := name_components path in
  let file := default [] (last cs) in
  if protected_grok_hook_root path cs then Some HookRoot
  else if comps_end_with cs [".claude"; "settings.json"]%string
          || comps_end_with cs [".claude"; "settings.local.json"]%string then Some ClaudeSettings
  else if comps_end_with cs [".cursor"; "hooks.json"]%string then Some CursorHooks
  else if protected_git_hooks_path cs then Some GitHooks
  else if bool_decide ($".ssh" ∈ cs) then Some Ssh
  else if mem file STARTUP_FILES then Some StartupFile
  else match protected_grok_config_file path cs with
       | Some reason => Some reason
       | None => if path_eq path $"/etc" || path_starts_with path $"/etc" then Some Etc else None
       end.

Definition resolved_path_is_within_root (resolved_path root : bytes) : bool :=
  match resolve_following_symlinks root with
  | Some resolved_root => path_starts_with resolved_path resolved_root
  | None => true
  end.

Definition edit_target_protection (path : bytes) : option ProtectedEditReason :=
  if negb (is_absolute path) then Some Sensitive
  else
    let lexical := normalize_lexically path in
    match protected_edit_reason lexical with
    | Some reason => Some reason
    | None =>
        match resolve_following_symlinks path with
        | None => Some Sensitive
        | Some resolved =>
            match protected_edit_reason resolved with
            | Some reason => Some reason
            | None => if resolved_path_is_within_root resolved $"/etc" then Some Sensitive else None
            end
        end
    end.

End Protected.
