(* ===== verification/ShellLaws.v ===== *)
(** * What the shell file gate guarantees

    Every path a script touches, in redirects, operands or inline scripts, is
    checked; operands that cannot be pinned ask; the two lexical normalisers
    agree; sensitive edit targets are never waved through. *)

From S2P Require Import Prelude RustStr PolicyTypes Wrappers SyntaxTree Paths Policy Instances PolicyLaws ShellAccess.

#[local] Opaque normalize_command_words shell_dash_c_script.

(** ** The loop state only grows *)

Definition state_le (s t : GateState) : Prop :=
  rank_le (gs_decision s) (gs_decision t) ∧ (gs_forced s = true → gs_forced t = true).

#[export] Instance state_le_preorder : PreOrder state_le.
Proof.
  split; [by intros s; split|]. intros a b c [H1 H2] [H3 H4]. split; [by etrans|auto].
Qed.

Lemma combine_ge_l (a b : option GateDecision) : rank_le a (combine_gate_decisions a b).
Proof. unfold rank_le. rewrite combine_gate_rank. lia. Qed.

Lemma combine_ge_r (a b : option GateDecision) : rank_le b (combine_gate_decisions a b).
Proof. unfold rank_le. rewrite combine_gate_rank. lia. Qed.

Lemma add_decision_le (d : option GateDecision) (s : GateState) : state_le s (add_decision d s).
Proof. split; [apply combine_ge_l|done]. Qed.

Lemma force_ask_le (b : bool) (s : GateState) : state_le s (force_ask b s).
Proof. split; [done|]. simpl. intros ->. done. Qed.

#[export] Hint Resolve add_decision_le force_ask_le combine_ge_l combine_ge_r : amore.

(** A fold of growing steps grows, and keeps what any of its steps adds. *)
Lemma fold_le {A} (f : GateState → A → GateState) (l : list A) (s : GateState) :
  (∀ s x, state_le s (f s x)) → state_le s (foldl f s l).
Proof.
  intros Hf. revert s. induction l as [|x l IH]; intros s; simpl; [done|].
  etrans; [apply Hf|apply IH].
Qed.

Lemma fold_adds {A} (f : GateState → A → GateState) (l : list A) (s : GateState) (x : A)
    (d : option GateDecision) :
  (∀ s x, state_le s (f s x)) → x ∈ l → (∀ s, rank_le d (gs_decision (f s x))) →
  rank_le d (gs_decision (foldl f s l)).
Proof.
  intros Hf Hx Hd. revert s. induction l as [|y l IH]; intros s; simpl; [by apply elem_of_nil in Hx|].
  apply elem_of_cons in Hx as [->|Hx]; [|by apply IH].
  etrans; [apply (Hd s)|apply (fold_le f l (f s y) Hf)].
Qed.

Section Shell.
Context `{PolicyEnv} `{ShellParser} `{FileSystem}.

Lemma redirect_step_le p base u ch s r : state_le s (redirect_step p base u ch s r).
Proof.
  unfold redirect_step. destruct (rd_path r); [|apply force_ask_le].
  etrans; [apply force_ask_le|apply add_decision_le].
Qed.

Lemma operand_step_le p base u s op : state_le s (operand_step p base u s op).
Proof. destruct op as [path mode]. etrans; [apply force_ask_le|apply add_decision_le]. Qed.

Lemma operands_le p base u ops s : state_le s (foldl (operand_step p base u) s ops).
Proof. apply fold_le. intros. apply operand_step_le. Qed.

Lemma operands_add p base u ops s (path : bytes) (mode : ShellFileMode) :
  (path, mode) ∈ ops →
  rank_le (evaluate_shell_path p path base mode u) (gs_decision (foldl (operand_step p base u) s ops)).
Proof.
  intros Hin. eapply fold_adds; [intros; apply operand_step_le|exact Hin|]. intros s'. apply combine_ge_r.
Qed.

(** The file operands of one peeled argv. *)
Definition program_operands (words : list ShellWord) : list (bytes * ShellFileMode) :=
  match words with
  | Literal program :: _ =>
      let lits := literal_words words in
      let program_lower := to_ascii_lowercase (shell_program_name program) in
      if is_cwd_command program_lower then []
      else special_file_operands program_lower lits ++
           if program_lower =b $"dd" then []
           else match shell_path_command_operands program_lower lits with
                | Some operands => operands
                | None =>
                    match candidate_modes program_lower lits with
                    | Some modes =>
                        concat (map (fun token => map (fun mode => (token, mode)) modes)
                                  (shell_file_candidates lits))
                    | None => []
                    end
                end
  | _ => []
  end.

(** Name the state after a [force_ask]. *)
Local Ltac generalize_forced s :=
  match goal with |- context [foldl _ (force_ask ?b s) _] =>
    pose proof (force_ask_le b s) as Hf; generalize dependent (force_ask b s); intros s1 Hf
  end.

Lemma program_step_le p base pf u words s : state_le s (program_step p base pf u words s).
Proof.
  unfold program_step. destruct words as [|[program|] r]; [done| |done].
  case_match; [done|]. cbv zeta. generalize_forced s.
  match goal with |- context [foldl ?f ?s1 ?l] => pose proof (operands_le p base u l s1) as Hl;
    generalize dependent (foldl f s1 l); intros s2 Hl end.
  etrans; [exact Hf|]. etrans; [exact Hl|]. clear Hf Hl.
  case_match; [done|]. case_match; [apply operands_le|]. case_match; [|done].
  etrans; [apply operands_le|apply force_ask_le].
Qed.

Lemma program_step_adds p base pf u words s (path : bytes) (mode : ShellFileMode) :
  (path, mode) ∈ program_operands words →
  rank_le (evaluate_shell_path p path base mode u) (gs_decision (program_step p base pf u words s)).
Proof.
  unfold program_operands, program_step. destruct words as [|[program|] r]; try set_solver.
  case_match; [set_solver|]. cbv zeta. generalize_forced s. clear Hf. intros [Hs|Ho]%elem_of_app.
  - eapply (operands_add p base u _ s1) in Hs. etrans; [exact Hs|].
    case_match; [reflexivity|]. case_match; [apply operands_le|]. case_match; [|reflexivity].
    apply operands_le.
  - case_match; [set_solver|]. case_match; [by apply operands_add|]. case_match; [|set_solver].
    simpl. by apply operands_add.
Qed.

(** The inline part of one invocation. *)
Definition inline_step (rec : option (bool → bytes → option GateDecision)) (u : bool)
    (words : list ShellWord) (s : GateState) : GateState :=
  match shell_dash_c_script words with
  | InlineLiteral index =>
      match rec with
      | None => force_ask true s
      | Some rec => match words !! index with
                    | Some (Literal inner) => add_decision (rec u inner) s
                    | _ => s
                    end
      end
  | InlineUntrusted | Unrecognized => force_ask true s
  | NotInline => s
  end.

Definition invocation_unpinned (u : bool) (ch : list CwdPoison) (inv : ShellInvocation) : bool :=
  u || cwd_unpinned_before ch (inv_start_byte inv) (inv_scope inv)
  || ip_has_chdir (unwrap_invocation_checked inv).

(** The flags of an invocation, then its inline script, then its operands. *)
Definition flags_step (pf : bool) (peeled : CheckedInvocationPeel) (s : GateState) : GateState :=
  force_ask (pf && match shell_dash_c_script (ip_words peeled) with NotInline => false | _ => true end)
    (force_ask (ip_transparent_ambiguous peeled)
      (force_ask (ip_env_options_uncertain peeled)
        (force_ask (ip_has_split_string peeled) (force_ask (ip_exhausted peeled) s)))).

Lemma invocation_step_parts p base rec pf u ch s inv :
  let peeled := unwrap_invocation_checked inv in
  invocation_step p base rec pf u ch s inv
  = program_step p base pf (invocation_unpinned u ch inv) (ip_words peeled)
      (inline_step rec (invocation_unpinned u ch inv) (ip_words peeled) (flags_step pf peeled s)).
Proof. done. Qed.

Lemma flags_step_le pf peeled s : state_le s (flags_step pf peeled s).
Proof. unfold flags_step. repeat (etrans; [|apply force_ask_le]). done. Qed.

Lemma inline_step_le rec u words s : state_le s (inline_step rec u words s).
Proof. unfold inline_step. repeat case_match; auto with amore; done. Qed.

Lemma invocation_step_le p base rec pf u ch s inv :
  state_le s (invocation_step p base rec pf u ch s inv).
Proof.
  rewrite invocation_step_parts. etrans; [apply flags_step_le|].
  etrans; [apply inline_step_le|apply program_step_le].
Qed.

(** ** Every touched path is checked *)

(** [touches d u cmd path mode un]: with [d] inline levels left and the working
    directory unpinned or not ([u]), the script [cmd] names the file [path] in
    [mode]; [un] is whether the directory is unpinned where it does. *)
Inductive touches : nat → bool → bytes → bytes → ShellFileMode → bool → Prop :=
| touch_redirect d u cmd root l r path :
    try_parse_shell cmd = Some root → descendant (root_loc root) l →
    redirect_at cmd l = Some r → rd_path r = Some path →
    touches d u cmd path (rd_mode r)
      (u || cwd_unpinned_before (cwd_poison_positions root cmd) (rd_start_byte r) (rd_scope r))
| touch_operand d u cmd root l path mode :
    try_parse_shell cmd = Some root → descendant (root_loc root) l → l_kind l = $"command" →
    (path, mode) ∈ program_operands (ip_words (unwrap_invocation_checked (invocation_of cmd l))) →
    touches d u cmd path mode
      (invocation_unpinned u (cwd_poison_positions root cmd) (invocation_of cmd l))
| touch_inline d u cmd root l i inner path mode un :
    try_parse_shell cmd = Some root → descendant (root_loc root) l → l_kind l = $"command" →
    shell_dash_c_script (ip_words (unwrap_invocation_checked (invocation_of cmd l))) = InlineLiteral i →
    ip_words (unwrap_invocation_checked (invocation_of cmd l)) !! i = Some (Literal inner) →
    touches d (invocation_unpinned u (cwd_poison_positions root cmd) (invocation_of cmd l)) inner path mode un →
    touches (S d) u cmd path mode un.

Lemma invocation_found (root : Node) (cmd : bytes) (l : Loc) :
  descendant (root_loc root) l → l_kind l = $"command" →
  invocation_of cmd l ∈ shell_command_invocations root cmd.
Proof.
  intros Hl Hk. unfold shell_command_invocations. rewrite sort_by_key_elem.
  apply list_elem_of_fmap_2. apply list_elem_of_In, filter_In.
  split; [by apply list_elem_of_In, walk_covers|]. rewrite Hk. apply beq_refl.
Qed.

Lemma redirect_found (root : Node) (cmd : bytes) (l : Loc) (r : ShellRedirectTarget) :
  descendant (root_loc root) l → redirect_at cmd l = Some r → r ∈ shell_redirect_targets root cmd.
Proof. intros Hl Hr. unfold shell_redirect_targets. apply list_elem_of_omap. eauto using walk_covers. Qed.

(** The gate body, with the recursive call named. *)
Lemma inner_unfold p base d e u cmd :
  evaluate_shell_file_access_inner p base d e u cmd
  = match try_parse_shell cmd with
    | None => ask_if e
    | Some root =>
        let ch := cwd_poison_positions root cmd in
        let s := foldl (redirect_step p base u ch) (mkGate None (e && nd_error root))
                   (shell_redirect_targets root cmd) in
        let s := foldl (invocation_step p base
                   (deeper (fun d => evaluate_shell_file_access_inner p base d true) d) (nd_error root) u ch)
                   s (shell_command_invocations root cmd) in
        combine_gate_decisions (gs_decision s) (ask_if (gs_forced s))
    end.
Proof. by destruct d. Qed.

Lemma inner_ge_redirect p base d e u cmd root l r path :
  try_parse_shell cmd = Some root → descendant (root_loc root) l →
  redirect_at cmd l = Some r → rd_path r = Some path →
  rank_le (evaluate_shell_path p path base (rd_mode r)
             (u || cwd_unpinned_before (cwd_poison_positions root cmd) (rd_start_byte r) (rd_scope r)))
          (evaluate_shell_file_access_inner p base d e u cmd).
Proof.
  intros Ht Hl Hr Hp. rewrite inner_unfold, Ht. cbv zeta. etrans; [|apply combine_ge_l].
  etrans; [|apply fold_le; intros; apply invocation_step_le].
  eapply fold_adds; [intros; apply redirect_step_le|by eapply redirect_found|].
  intros s. unfold redirect_step. rewrite Hp. apply combine_ge_r.
Qed.

Lemma inner_ge_invocation p base d e u cmd root l (x : option GateDecision) :
  try_parse_shell cmd = Some root → descendant (root_loc root) l → l_kind l = $"command" →
  (∀ s, rank_le x (gs_decision (invocation_step p base
          (deeper (fun d => evaluate_shell_file_access_inner p base d true) d) (nd_error root) u
          (cwd_poison_positions root cmd) s (invocation_of cmd l)))) →
  rank_le x (evaluate_shell_file_access_inner p base d e u cmd).
Proof.
  intros Ht Hl Hk Hx. rewrite inner_unfold, Ht. cbv zeta. etrans; [|apply combine_ge_l].
  eapply fold_adds; [intros; apply invocation_step_le|by apply invocation_found|exact Hx].
Qed.

Lemma touches_checked p base d e u cmd path mode un :
  touches d u cmd path mode un →
  rank_le (evaluate_shell_path p path base mode un) (evaluate_shell_file_access_inner p base d e u cmd).
Proof.
  intros Ht. revert e. induction Ht as [d u cmd root l r path Hp Hl Hr Hpath
    |d u cmd root l path mode Hp Hl Hk Hin|d u cmd root l i inner path mode un Hp Hl Hk Hc Hi _ IH]; intros e.
  - by eapply inner_ge_redirect.
  - eapply inner_ge_invocation; [done..|]. intros s. rewrite invocation_step_parts.
    by apply program_step_adds.
  - eapply inner_ge_invocation; [done..|]. intros s. rewrite invocation_step_parts. etrans; [apply (IH true)|].
    etrans; [|apply program_step_le]. unfold inline_step. rewrite Hc, Hi. apply combine_ge_r.
Qed.

(** The base an operand's rules are matched with. *)
Definition operand_base (base : RuleBase) (token : bytes) (unpinned : bool) : option RuleBase :=
  let rule_base := if is_absolute_shell_path (normalize_shell_path token) || negb unpinned
                   then Some base else None in
  if path_has_parent_dir (normalize_shell_path_raw token) then without_physical <$> rule_base else rule_base.

Lemma shell_path_ge_rules p token base mode un :
  rank_le (escalate_access p (shell_access mode (normalize_shell_path token)) (operand_base base token un))
          (evaluate_shell_path p token base mode un).
Proof.
  unfold evaluate_shell_path, operand_base. cbv zeta.
  etrans; [|apply combine_ge_l]. apply combine_ge_l.
Qed.

Lemma shell_path_unpinned p token base mode :
  is_absolute_shell_path (normalize_shell_path token) = false →
  rank_le (Some AskFailClosed) (evaluate_shell_path p token base mode true).
Proof. intros Ha. unfold evaluate_shell_path. rewrite Ha. apply combine_ge_r. Qed.

(** A deny on a file access arms the shell file gate. *)
Lemma file_reject_restricts (c : PermissionConfig) (mode : ShellFileMode) (path : bytes)
    (base : option RuleBase) (reason : bytes) :
  evaluate_rules_with_base (CompiledPolicy_new c) (shell_access mode path) base = Some (Decision_Reject reason) →
  has_file_restrictions (CompiledPolicy_new c) = true.
Proof.
  intros He. pose proof (evaluate_rules_spec c (shell_access mode path) base) as Hs.
  rewrite He in Hs. destruct Hs as (r & Hin & Ha & Hr & _). simpl. apply existsb_exists. exists r.
  rewrite <-list_elem_of_In, Ha. split; [done|]. unfold rule_applies, rule_reaches in Hr. bool_prop.
  by destruct mode, (rule_tool r).
Qed.

(** C23: a deny rule on any file a script touches rejects the script: a redirect
    target anywhere in the tree, an operand of a known reader, writer or
    path-moving command, or a file touched inside a nested [bash -c] script, up
    to the inline depth limit. *)
Theorem shell_gate_denies_touched_path (c : PermissionConfig) (cmd cwd path : bytes) (mode : ShellFileMode)
    (un : bool) (reason : bytes) :
  touches MAX_INLINE_SHELL_DEPTH false cmd path mode un →
  evaluate_rules_with_base (CompiledPolicy_new c) (shell_access mode (normalize_shell_path path))
    (operand_base (RuleBase_new cwd) path un) = Some (Decision_Reject reason) →
  ∃ r, evaluate_shell_file_access_gate (CompiledPolicy_new c) cmd cwd = Some (Reject r).
Proof.
  intros Ht He. unfold evaluate_shell_file_access_gate. rewrite (file_reject_restricts _ _ _ _ _ He).
  cbn [negb]. apply gate_rank_reject.
  pose proof (shell_path_ge_rules (CompiledPolicy_new c) path (RuleBase_new cwd) mode un) as H1'.
  unfold escalate_access in H1'. rewrite He in H1'.
  pose proof (touches_checked (CompiledPolicy_new c) (RuleBase_new cwd) _ false _ _ _ _ _ Ht) as H2'.
  unfold rank_le in *. etrans; [exact H1'|exact H2'].
Qed.

(** A relative path touched where the working directory is no longer known
    (after [cd], [pushd], [popd] or [env -C]) makes the gate ask or reject. *)
Theorem shell_gate_unpinned_asks (c : PermissionConfig) (cmd cwd path : bytes) (mode : ShellFileMode) :
  has_file_restrictions (CompiledPolicy_new c) = true →
  touches MAX_INLINE_SHELL_DEPTH false cmd path mode true →
  is_absolute_shell_path (normalize_shell_path path) = false →
  1 ≤ gate_rank (evaluate_shell_file_access_gate (CompiledPolicy_new c) cmd cwd).
Proof.
  intros Hr Ht Ha. unfold evaluate_shell_file_access_gate. rewrite Hr. cbn [negb].
  change 1 with (gate_rank (Some AskFailClosed)).
  pose proof (shell_path_unpinned (CompiledPolicy_new c) path (RuleBase_new cwd) mode Ha) as H1'.
  pose proof (touches_checked (CompiledPolicy_new c) (RuleBase_new cwd) _ false _ _ _ _ _ Ht) as H2'.
  unfold rank_le in *. etrans; [exact H1'|exact H2'].
Qed.

End Shell.

(** ** Two normalisers *)

Lemma lexical_fold_components (segs acc : list bytes) :
  Forall (fun s => s ≠ dotdot) acc →
  foldl normalize_step (map Normal acc ++ [RootDir]) (body_components segs)
  = map Normal (foldl (lexical_step true) acc segs) ++ [RootDir].
Proof.
  revert acc. induction segs as [|s segs IH]; intros acc Ha; [done|].
  unfold body_components in *. cbn [omap list_omap foldl]. unfold comp_of_seg at 1, lexical_step at 2.
  destruct ((s =b []) || (s =b dot)) eqn:E1; [by apply IH|].
  destruct (s =b dotdot) eqn:E2; cbn [foldl].
  - destruct Ha as [|a acc Ha Hacc]; simpl; [by apply (IH [])|].
    apply beq_false in Ha. rewrite Ha. by apply IH.
  - apply (IH (s :: acc)). constructor; [by apply beq_false|done].
Qed.

Lemma map_comp_str_Normal (l : list bytes) : map comp_str (map Normal l) = l.
Proof. rewrite map_map. apply map_id. Qed.

(** The normaliser of shell operands and the normaliser of tool paths agree
    on absolute Unix paths, so a rule sees the same spelling of a file whether
    it is named in a shell command or by a native tool. *)
Theorem lexical_normalisers_agree (p : bytes) :
  is_absolute p = true → second_is_colon p = false → lexical_normalize p = normalize_lexically p.
Proof.
  intros Ha Hc. unfold lexical_normalize. rewrite Hc, drop_0, take_0. cbv zeta.
  unfold is_absolute in Ha. destruct p as [|a r]; [by rewrite starts_with_cons_nil in Ha|].
  rewrite starts_with_cons, starts_with_nil, andb_true_r, bool_decide_eq_true in Ha. subst a.
  change $"/" with [slash]. rewrite starts_with_cons, starts_with_nil, bool_decide_eq_true_2 by done.
  change (beq [] []) with true. cbn [split_on andb]. rewrite bool_decide_eq_true_2 by done. cbn [foldl].
  change (lexical_step true [] []) with (@nil bytes).
  unfold normalize_lexically, normalize_components, components, path_parts.
  rewrite bool_decide_eq_true_2 by done. cbn [start_components app foldl normalize_step].
  pose proof (lexical_fold_components (split_on slash r) [] ltac:(constructor)) as Hf. simpl in Hf. rewrite Hf.
  destruct (normalize_fold_root (body_components (split_on slash r)) [] ltac:(constructor)) as (names & Hn & Hnames).
  { apply body_components_body, split_on_Forall. }
  simpl in Hn. rewrite Hf in Hn. apply app_inj_tail in Hn as [Hn _].
  set (out := foldl (lexical_step true) [] (split_on slash r)) in *.
  rewrite reverse_app. cbn [reverse rev_append app]. rewrite <-map_reverse.
  assert (from_components (RootDir :: map Normal (reverse out)) = slash :: join [slash] (reverse out)) as Hfrom.
  { rewrite from_root.
    - unfold body_text. by rewrite map_comp_str_Normal.
    - rewrite map_reverse, Hn. apply Forall_reverse. by apply names_body. }
  simpl. destruct (join [slash] (reverse out) =b []) eqn:Ej.
  - apply beq_true in Ej. by rewrite Ej in Hfrom.
  - by rewrite <-Hfrom.
Qed.

(** ** Protected edit targets *)

(** A path outside every protected area. *)
Definition unprotected_path `{FileSystem} (home : option bytes) (path : bytes) : Prop :=
  let cs := name_components path in
  $".ssh" ∉ cs
  ∧ has_pair cs $".git" $"hooks" = false ∧ has_module_hooks cs = false
  ∧ has_pair cs $".grok" $"hooks" = false
  ∧ mem (default [] (last cs)) STARTUP_FILES = false
  ∧ ¬ lit [".claude"; "settings.json"]%string `suffix_of` cs
  ∧ ¬ lit [".cursor"; "hooks.json"]%string `suffix_of` cs
  ∧ protected_grok_config_file home path cs = None
  ∧ ¬ components $"/etc" `prefix_of` components path.

Lemma edit_reason_none `{FileSystem} (home : option bytes) (path : bytes) :
  protected_edit_reason home path = None → unprotected_path home path.
Proof.
  unfold protected_edit_reason, unprotected_path, protected_grok_hook_root, protected_git_hooks_path,
    comps_end_with, path_starts_with.
  intros He. repeat case_match; simplify_eq; bool_prop; split_and!; done.
Qed.

(** An edit target that needs no confirmation is absolute, resolves, and
    neither its written nor its physical form lies in a protected area
    ([.ssh], git hooks, agent hooks and configuration, shell startup files,
    [/etc]), whatever symlinks lead there. *)
Theorem unprotected_edit_is_safe `{FileSystem} (home : option bytes) (path : bytes) :
  edit_target_protection home path = None →
  is_absolute path = true ∧ unprotected_path home (normalize_lexically path)
  ∧ ∃ resolved etc, resolve_following_symlinks path = Some resolved ∧ unprotected_path home resolved
      ∧ resolve_following_symlinks $"/etc" = Some etc ∧ ¬ components etc `prefix_of` components resolved.
Proof.
  unfold edit_target_protection, resolved_path_is_within_root, path_starts_with. intros He.
  repeat case_match; simplify_eq; bool_prop. split_and!; [done|by apply edit_reason_none|].
  eexists _, _. split_and!; [done|by apply edit_reason_none|done|done].
Qed.

(** ** Witnesses *)

Definition cat_tree : Node := default (leaf "program" true 0 0) (plain_parser $"cat /etc/passwd").
Definition cat_loc : Loc := default (root_loc cat_tree) (head (l_children (root_loc cat_tree))).

Lemma cat_touches : touches MAX_INLINE_SHELL_DEPTH false $"cat /etc/passwd" $"/etc/passwd" Read false.
Proof.
  apply (touch_operand 8 false $"cat /etc/passwd" cat_tree cat_loc $"/etc/passwd" Read).
  - vm_compute. reflexivity.
  - eapply desc_child; [|apply desc_self]. vm_compute. left.
  - reflexivity.
  - vm_compute. left.
Qed.

Lemma shell_gate_denies_touched_path_witness :
  ∃ r, evaluate_shell_file_access_gate (CompiledPolicy_new demo) $"cat /etc/passwd" $"/w" = Some (Reject r).
Proof.
  eapply (shell_gate_denies_touched_path demo $"cat /etc/passwd" $"/w" $"/etc/passwd" Read false).
  - exact cat_touches.
  - vm_compute. reflexivity.
Defined.

Definition env_tree : Node := default (leaf "program" true 0 0) (plain_parser $"env -C /etc cat passwd").
Definition env_loc : Loc := default (root_loc env_tree) (head (l_children (root_loc env_tree))).

Lemma env_touches : touches MAX_INLINE_SHELL_DEPTH false $"env -C /etc cat passwd" $"passwd" Read true.
Proof.
  apply (touch_operand 8 false $"env -C /etc cat passwd" env_tree env_loc $"passwd" Read).
  - vm_compute. reflexivity.
  - eapply desc_child; [|apply desc_self]. vm_compute. left.
  - reflexivity.
  - vm_compute. left.
Qed.

Lemma shell_gate_unpinned_asks_witness :
  1 ≤ gate_rank (evaluate_shell_file_access_gate (CompiledPolicy_new demo) $"env -C /etc cat passwd" $"/w").
Proof.
  apply (shell_gate_unpinned_asks demo _ $"/w" $"passwd" Read); [reflexivity|exact env_touches|].
  vm_compute. reflexivity.
Defined.

Lemma lexical_normalisers_agree_witness :
  lexical_normalize $"/a/../b/./c" = normalize_lexically $"/a/../b/./c"
  ∧ lexical_normalize $"/a/../b/./c" = $"/b/c".
Proof.
  split; [|vm_compute; reflexivity]. apply lexical_normalisers_agree; vm_compute; reflexivity.
Defined.

Lemma unprotected_edit_is_safe_witness :
  edit_target_protection (Some $"/home/u/.grok") $"/w/src/main.rs" = None
  ∧ is_absolute $"/w/src/main.rs" = true.
Proof.
  assert (edit_target_protection (Some $"/home/u/.grok") $"/w/src/main.rs" = None) as He.
  { vm_compute. reflexivity. }
  split; [exact He|]. exact (proj1 (unprotected_edit_is_safe _ _ He)).
Defined.

(** The same file behind the link is protected. *)
Example link_edit_is_protected :
  edit_target_protection (Some $"/home/u/.grok") $"/w/link/passwd" = Some Etc.
Proof. vm_compute. reflexivity. Qed.
