(* ===== verification/Preflight.v ===== *)
(** * Managed-policy preflight

    [crates/codegen/xai-grok-permission-rules/src/gate_preflight.rs]: the direct
    rule pass and both Bash gates, evaluated once for a request, with the
    provenance of each ask; and what the permission manager reads off it. *)

From S2P Require Import Prelude RustStr PolicyTypes Wrappers SyntaxTree Paths Policy Instances PolicyLaws ShellAccess ShellLaws.

Definition POLICY_ASK : bytes := $"policy_ask".
Definition BASH_COMMAND_GATE_ASK : bytes := $"bash_command_gate_ask".
Definition SHELL_FILE_GATE_ASK : bytes := $"shell_file_gate_ask".

Record GatePreflight := mkPreflight {
  direct : option Decision;
  bash_command : option GateDecision;
  shell_file : option GateDecision;
  native_symlink_fail_closed : bool;
  defers_gate_ask : bool;
}.

Definition is_ask_decision (d : option Decision) : bool :=
  match d with Some Decision_Ask => true | _ => false end.

Definition is_rule_ask (g : option GateDecision) : bool :=
  match g with Some AskRuleMatch => true | _ => false end.

Definition is_fail_closed_ask (g : option GateDecision) : bool :=
  match g with Some AskFailClosed => true | _ => false end.

Definition gate_is_ask (g : option GateDecision) : bool :=
  match g with Some g => is_ask g | None => false end.

(** [GatePreflight::evaluate] *)
Definition preflight_evaluate `{PolicyEnv} `{ShellParser} `{FileSystem} (policy : option CompiledPolicy)
    (access : AccessKind Json) (cwd : bytes) (auto_mode : bool) : GatePreflight :=
  let '(direct, native) :=
    match policy with
    | Some policy => evaluate_with_cwd_details policy access (Some cwd)
    | None => (None, false)
    end in
  let '(bash_command, shell_file) :=
    match policy, access with
    | Some policy, Access_Bash cmd =>
        (evaluate_bash_command_gate policy cmd, evaluate_shell_file_access_gate policy cmd cwd)
    | _, _ => (None, None)
    end in
  let rule_match_ask := is_ask_decision direct || is_rule_ask bash_command || is_rule_ask shell_file in
  let fail_closed_ask := is_fail_closed_ask bash_command || is_fail_closed_ask shell_file in
  mkPreflight direct bash_command shell_file native (auto_mode && fail_closed_ask && negb rule_match_ask).

Definition policy_decision (g : GatePreflight) : option Decision :=
  combine_decisions (combine_decisions (direct g) (into_decision <$> bash_command g))
    (into_decision <$> shell_file g).

Definition policy_forced_prompt (g : GatePreflight) : bool := is_ask_decision (policy_decision g).

Definition shell_file_forced_prompt (g : GatePreflight) : bool := gate_is_ask (shell_file g).

Definition shell_forced_prompt (g : GatePreflight) : bool :=
  gate_is_ask (bash_command g) || shell_file_forced_prompt g || native_symlink_fail_closed g.

Definition admits_auto_classifier (g : GatePreflight) : bool :=
  negb (policy_forced_prompt g) || defers_gate_ask g.

Definition classifier_allowed_decision (g : GatePreflight) : Decision :=
  match policy_decision g with
  | None | Some Decision_Allow => Decision_Allow
  | Some decision => decision
  end.

Definition prompt_trigger (g : GatePreflight) (auto_prompt_reason : option bytes) : option bytes :=
  if is_ask_decision (direct g) then Some POLICY_ASK
  else if defers_gate_ask g then auto_prompt_reason
  else if gate_is_ask (bash_command g) then Some BASH_COMMAND_GATE_ASK
  else if shell_file_forced_prompt g then Some SHELL_FILE_GATE_ASK
  else auto_prompt_reason.

(** ** Coherence *)

Section Preflight.
Context `{PolicyEnv} `{ShellParser} `{FileSystem}.

Definition rule_match_ask (g : GatePreflight) : bool :=
  is_ask_decision (direct g) || is_rule_ask (bash_command g) || is_rule_ask (shell_file g).

Definition fail_closed_ask (g : GatePreflight) : bool :=
  is_fail_closed_ask (bash_command g) || is_fail_closed_ask (shell_file g).

Lemma preflight_defers policy access cwd auto :
  let g := preflight_evaluate policy access cwd auto in
  defers_gate_ask g = auto && fail_closed_ask g && negb (rule_match_ask g).
Proof.
  unfold preflight_evaluate. destruct (match policy with Some p => _ | None => _ end) as [d n].
  by destruct (match policy, access with Some _, Access_Bash _ => _ | _, _ => _ end).
Qed.

Lemma gate_severity (g : option GateDecision) :
  severity (into_decision <$> g) = if gate_is_ask g then 2 else if bool_decide (g = None) then 0 else 3.
Proof. by destruct g as [[]|]. Qed.

Lemma policy_decision_severity (g : GatePreflight) :
  severity (policy_decision g)
  = (severity (direct g) `max` severity (into_decision <$> bash_command g))
    `max` severity (into_decision <$> shell_file g).
Proof. unfold policy_decision. by rewrite !combine_decisions_severity. Qed.

Lemma combine_class (d : option Decision) (e : option GateDecision) :
  rule_outcome d → rule_outcome (combine_decisions d (into_decision <$> e)).
Proof. destruct d as [[]|], e as [[]|]; simpl; done. Qed.

Lemma details_outcome (c : PermissionConfig) access cwd :
  rule_outcome (evaluate_with_cwd (CompiledPolicy_new c) access cwd).
Proof.
  unfold evaluate_with_cwd, evaluate_with_cwd_details.
  pose proof (evaluate_rules_outcome c) as Ho.
  assert (∀ d e, rule_outcome d → rule_outcome (combine_decisions d (escalations_only e))) as Hc.
  { intros d e Hd. destruct d as [[]|], e as [[]|]; simpl in *; done. }
  repeat case_match; simpl; first [apply Ho | apply Hc, Ho | apply (Hc _ (Some Decision_Ask)), Ho].
Qed.

(** A rule-match ask always binds: when a direct rule or a rule seen by one of
    the gates asks, the request is rejected or it stays a prompt that the
    automatic classifier is not admitted to, in every mode. *)
Theorem rule_ask_binds (c : PermissionConfig) access cwd auto :
  let g := preflight_evaluate (Some (CompiledPolicy_new c)) access cwd auto in
  rule_match_ask g = true →
  is_reject (policy_decision g) = true ∨ (policy_forced_prompt g = true ∧ admits_auto_classifier g = false).
Proof.
  intros g Hr. pose proof (preflight_defers (Some (CompiledPolicy_new c)) access cwd auto) as Hd.
  fold g in Hd. cbv zeta in Hd. rewrite Hr, andb_false_r in Hd.
  assert (rule_outcome (direct g)) as Ho.
  { unfold g, preflight_evaluate. pose proof (details_outcome c access (Some cwd)) as Hx.
    unfold evaluate_with_cwd in Hx. destruct (evaluate_with_cwd_details _ _ _).
    destruct access; exact Hx. }
  unfold admits_auto_classifier, policy_forced_prompt, rule_match_ask, policy_decision in *. rewrite Hd. clear Hd.
  clearbody g. destruct (direct g) as [[]|], (bash_command g) as [[]|], (shell_file g) as [[]|];
    simpl in *; try done; auto.
Qed.

(** The classifier cannot override the policy: a call it allowed still runs
    only if no deny or ask came from the direct rules or from either gate, a
    fail-closed ask included. *)
Theorem classifier_allow_respects_policy (c : PermissionConfig) access cwd auto :
  let g := preflight_evaluate (Some (CompiledPolicy_new c)) access cwd auto in
  classifier_allowed_decision g = Decision_Allow ↔
  severity (evaluate_with_cwd (CompiledPolicy_new c) access (Some cwd)) ≤ 1
  ∧ match access with
    | Access_Bash cmd =>
        evaluate_bash_command_gate (CompiledPolicy_new c) cmd = None
        ∧ evaluate_shell_file_access_gate (CompiledPolicy_new c) cmd cwd = None
    | _ => True
    end.
Proof.
  intros g. subst g. unfold preflight_evaluate, classifier_allowed_decision, policy_decision, evaluate_with_cwd.
  pose proof (details_outcome c access (Some cwd)) as Ho. unfold evaluate_with_cwd in Ho.
  destruct (evaluate_with_cwd_details _ _ _) as [d n]. simpl in Ho. unfold severity.
  destruct access;
    try (by destruct d as [[]|]; simpl in *; split; intros; split_and?; try done; try lia);
    simpl; destruct d as [[]|], (evaluate_bash_command_gate _ _) as [[]|],
      (evaluate_shell_file_access_gate _ _ _) as [[]|]; simpl in *; split; intros; split_and?;
      try done; try lia; naive_solver lia.
Qed.

(** The classifier is admitted to a forced prompt only in auto mode, when the
    only asks are fail-closed ones. *)
Theorem classifier_admitted_only_when_deferred (c : PermissionConfig) access cwd auto :
  let g := preflight_evaluate (Some (CompiledPolicy_new c)) access cwd auto in
  admits_auto_classifier g = true → policy_forced_prompt g = true →
  auto = true ∧ fail_closed_ask g = true ∧ rule_match_ask g = false.
Proof.
  intros g Ha Hp. pose proof (preflight_defers (Some (CompiledPolicy_new c)) access cwd auto) as Hd.
  fold g in Hd. cbv zeta in Hd. unfold admits_auto_classifier in Ha. rewrite Hp, Hd in Ha. simpl in Ha.
  bool_prop. done.
Qed.

End Preflight.

(** ** Witnesses *)

Definition ask_push : PermissionRule := mkRule Rule_Ask Filter_Bash (Some $"git push") Mode_Glob.
Definition asking : PermissionConfig := PermissionConfig_new [ask_push; deny_rm].

Lemma rule_ask_binds_witness :
  let g := preflight_evaluate (Some (CompiledPolicy_new asking)) (Access_Bash $"ls; git push") $"/w" true in
  rule_match_ask g = true
  ∧ (is_reject (policy_decision g) = true
     ∨ (policy_forced_prompt g = true ∧ admits_auto_classifier g = false)).
Proof.
  cbv zeta. split; [vm_compute; reflexivity|].
  apply (rule_ask_binds asking (Access_Bash $"ls; git push") $"/w" true). vm_compute. reflexivity.
Defined.

Lemma classifier_admitted_witness :
  let g := preflight_evaluate (Some (CompiledPolicy_new asking)) (Access_Bash $"bash --login") $"/w" true in
  true = true ∧ fail_closed_ask g = true ∧ rule_match_ask g = false.
Proof.
  apply (classifier_admitted_only_when_deferred asking (Access_Bash $"bash --login") $"/w" true);
    vm_compute; reflexivity.
Defined.

Example classifier_allow_examples :
  let d cmd := classifier_allowed_decision
    (preflight_evaluate (Some (CompiledPolicy_new asking)) (Access_Bash cmd) $"/w" false) in
  d $"ls" = Decision_Allow ∧ d $"git push origin main" = Decision_Ask
  ∧ is_reject (Some (d $"bash -c 'rm -rf build'")) = true.
Proof. vm_compute. split_and!; reflexivity. Qed.
