(* ===== verification/ExecRisk.v ===== *)
(** * Commands that run other programs through git and sort

    [exec_risk.rs], [git_content_filters.rs]: options of one command that start a
    program, the git queries that are allowed without a question, the directories whose
    git configuration has to be read before a script runs, and the pins that silence
    content filters.  libgit2 and the files it reads are a parameter. *)

From S2P Require Import Prelude RustStr Rules Wrappers Paths ShellAccess.

#[local] Open Scope nat_scope.

(** ** Normalisation *)

Inductive NormalizedArgv := ReadyArgv (words : list bytes) | Unmodelled.

(** The loop of [normalize_for_exec_risk]; slices are suffixes, told apart by length. *)
Fixpoint exec_risk_rounds (n : nat) (current : list bytes) : NormalizedArgv :=
  match n with
  | 0 => Unmodelled
  | S n =>
      let checked := unwrap_wrappers_checked current in
      if wp_exhausted checked || wp_has_split_string checked || wp_has_chdir checked then Unmodelled
      else match peel_transparent_prefixes (wp_words checked) with
           | PeelAmbiguous => Unmodelled
           | Ready after_trans =>
               if (length after_trans =? length current) || (length after_trans =? length (wp_words checked)) then ReadyArgv after_trans
               else exec_risk_rounds n after_trans
           end
  end.

Definition normalize_for_exec_risk (words : list bytes) : NormalizedArgv := exec_risk_rounds MAX_NORMALIZE_ROUNDS words.

(** ** Programs *)

Definition normalized_token_basename (token : bytes) : bytes :=
  let name := to_ascii_lowercase (after_last_sep token) in
  default name (strip_suffix $".exe" name).

Definition normalized_program_name (words : list bytes) : option bytes :=
  match words with
  | [] => None
  | raw :: _ => if after_last_sep raw =b [] then None else Some (normalized_token_basename raw)
  end.

Definition is_git_program (words : list bytes) : bool := bool_decide (normalized_program_name words = Some $"git").
Definition is_sort_program (words : list bytes) : bool := bool_decide (normalized_program_name words = Some $"sort").

(** The part of an option before its value. *)
Definition flag_of (w : bytes) : bytes := match split_once "="%char w with Some (f, _) => f | None => w end.

(** The loop of [sort_has_compress_program_flag] *)
Fixpoint compress_program_in (ws : list bytes) : bool :=
  match ws with
  | [] => false
  | w :: ws =>
      if w =b $"--" then false
      else if (w =b $"--compress-program") || starts_with $"--compress-program=" w then true
      else if is_accepted_long_option_prefix (flag_of w) $"--compress-program" 4 then true
      else compress_program_in ws
  end.

Definition sort_has_compress_program_flag (words : list bytes) : bool := compress_program_in (drop 1 words).

(** ** git's own options *)

Definition is_git_config_env_flag (tok : bytes) : bool :=
  (tok =b $"--config-env") || starts_with $"--config-env=" tok || is_accepted_long_option_prefix (flag_of tok) $"--config-env" 4.

Definition is_git_repo_retarget_flag (tok : bytes) : bool :=
  (tok =b $"--git-dir") || starts_with $"--git-dir=" tok || (tok =b $"--work-tree") || starts_with $"--work-tree=" tok
  || is_accepted_long_option_prefix (flag_of tok) $"--git-dir" 4 || is_accepted_long_option_prefix (flag_of tok) $"--work-tree" 4.

Definition is_attached_git_config_c (tok : bytes) : bool := starts_with $"-c" tok && (2 <? length tok) && negb (starts_with $"--" tok).

Definition attached_git_c_path (tok : bytes) : option bytes :=
  match strip_prefix $"-C" tok with
  | Some rest => if negb (rest =b []) && negb (starts_with $"--" tok) then Some rest else None
  | None => None
  end.

Definition git_global_option_takes_value (tok : bytes) : bool :=
  existsb (beq tok) [$"-C"; $"-c"; $"--git-dir"; $"--work-tree"; $"--namespace"; $"--super-prefix"; $"--exec-path"; $"--list-cmds"; $"--attr-source"; $"--config-env"]
  || existsb (fun o => is_accepted_long_option_prefix tok o.1 o.2)
       [($"--config-env", 4); ($"--git-dir", 4); ($"--work-tree", 4); ($"--namespace", 7); ($"--super-prefix", 8);
        ($"--exec-path", 7); ($"--list-cmds", 7); ($"--attr-source", 8)].

(** Whether an option takes the word behind it as its value. *)
Definition takes_next (tok : bytes) (rest : list bytes) : bool :=
  negb (contains_byte "="%char tok) && git_global_option_takes_value tok
  && match rest with n :: _ => negb (starts_with $"-" n) || (n =b $"-") | [] => false end.

Definition ends_globals (tok : bytes) : bool := negb (starts_with $"-" tok) || (tok =b $"-").

(** The loop of [git_has_exec_risk_global] *)
Fixpoint risk_in_globals (ws : list bytes) : bool :=
  match ws with
  | [] => false
  | tok :: rest =>
      if (tok =b $"--") || ends_globals tok then false
      else if (tok =b $"-c") || is_attached_git_config_c tok || is_git_config_env_flag tok || is_git_repo_retarget_flag tok then true
      else if bool_decide (is_Some (attached_git_c_path tok)) then risk_in_globals rest
      else if takes_next tok rest then match rest with _ :: rest => risk_in_globals rest | [] => false end
      else risk_in_globals rest
  end.

Definition git_has_exec_risk_global (words : list bytes) : bool := risk_in_globals (drop 1 words).

Definition segment_has_exec_risk_flag (words : list bytes) : bool :=
  if is_sort_program words then sort_has_compress_program_flag words
  else if is_git_program words then git_has_exec_risk_global words
  else false.

Record SegmentExecFacts := mkFacts { exec_risk : bool; has_git : bool }.

Definition segment_exec_facts (words : list bytes) : SegmentExecFacts :=
  match normalize_for_exec_risk words with
  | Unmodelled => mkFacts true false
  | ReadyArgv inner => mkFacts (segment_has_exec_risk_flag inner) (is_git_program inner)
  end.

(** ** Read-only queries *)

Definition SAFE_GIT_SUBCOMMANDS : list bytes :=
  [$"status"; $"branch"; $"log"; $"diff"; $"ls-files"; $"show"; $"rev-parse"; $"blame"; $"grep"; $"describe"; $"merge-base"; $"check-ignore";
   $"check-attr"; $"cat-file"; $"ls-tree"; $"show-ref"; $"for-each-ref"; $"rev-list"; $"name-rev"; $"count-objects"; $"shortlog"].

Definition GIT_QUERY_UNSAFE_OPTIONS : list bytes := [$"--filters"; $"--textconv"; $"--output"; $"--ext-diff"; $"--open-files-in-pager"].

Definition git_query_option_is_unsafe (word : bytes) : bool :=
  (2 <? length (flag_of word)) && existsb (starts_with (flag_of word)) GIT_QUERY_UNSAFE_OPTIONS.

(** The loop of [git_safe_query_verb_index], [i] words in. *)
Fixpoint verb_index_from (i : nat) (ws : list bytes) : option nat :=
  match ws with
  | [] => None
  | tok :: rest =>
      if (tok =b $"-") || (tok =b $"--") then None
      else if negb (starts_with $"-" tok) then Some i
      else if tok =b $"-C" then match rest with _ :: rest => verb_index_from (i + 2) rest | [] => None end
      else if bool_decide (is_Some (attached_git_c_path tok)) || (tok =b $"--no-pager") || (tok =b $"-P") then verb_index_from (i + 1) rest
      else None
  end.

Definition git_safe_query_verb_index (words : list bytes) : option nat := verb_index_from 1 (drop 1 words).

Definition is_git_word (words : list bytes) : bool := match words with w :: _ => w =b $"git" | [] => false end.

Definition git_words_have_unsafe_query_option (words : list bytes) : bool :=
  is_git_word words
  && (existsb git_query_option_is_unsafe (drop 1 words)
      || match git_safe_query_verb_index words with Some i => bool_decide (words !! i = Some $"grep") | None => false end
         && existsb (starts_with $"-O") (drop 1 words)).

Definition git_words_are_read_only_query (words : list bytes) : bool :=
  is_git_word words && negb (git_has_exec_risk_global words)
  && match git_safe_query_verb_index words with
     | Some i => match words !! i with Some verb => existsb (beq verb) SAFE_GIT_SUBCOMMANDS | None => false end
     | None => false
     end
  && negb (git_words_have_unsafe_query_option words).

(** ** Configuration of repositories *)

(** [filter_command_driver] *)
Definition filter_command_driver (name : bytes) : option bytes :=
  head ← get_to 7 name;
  if negb (eq_ignore_ascii_case head $"filter.") then None
  else
    rest ← get_from 7 name;
    '(driver, prop) ← rsplit_once "."%char rest;
    if negb (driver =b [])
       && (eq_ignore_ascii_case prop $"clean" || eq_ignore_ascii_case prop $"smudge" || eq_ignore_ascii_case prop $"process")
    then Some driver else None.

Definition filter_driver_name_is_pinnable (driver : bytes) : bool :=
  match driver with
  | [] => false
  | a :: rest =>
      is_ascii_alphanumeric a
      && forallb (fun c => is_ascii_alphanumeric c || bool_decide (c = "_"%char) || bool_decide (c = "-"%char)) rest
  end.

Definition local_includeif_unsupported (name : bytes) : bool :=
  match get_to 10 name with
  | None => false
  | Some head =>
      eq_ignore_ascii_case head $"includeif."
      && let condition := match split_once ":"%char (default [] (get_from 10 name)) with Some (c, _) => c | None => default [] (get_from 10 name) end in
         negb (existsb (beq (to_ascii_lowercase condition)) [$"gitdir"; $"gitdir/i"; $"onbranch"])
  end.

Inductive ConfigLevel := LocalLevel | WorktreeLevel | OtherLevel.

(** An entry as libgit2 gives it: [None] for what is not UTF-8. *)
Record ConfigEntry := mkConfigEntry {
  level : ConfigLevel;
  entry_name : option bytes;
  has_value : bool;
  entry_value : option bytes;
}.

Inductive Discovered := NoRepository | DiscoverFailed | Discovered_at (git_dir common_dir : bytes).

(** libgit2: discovery, the entries of all levels (a failure to open or list them, or
    to read one), and booleans; and whether a path opens as a regular file. *)
Class GitLib := {
  discover : bytes → Discovered;
  config_entries : bytes → option (list (option ConfigEntry));
  parse_bool_ok : bytes → bool;
  open_regular : bytes → option (option bool);
}.

Section Config.
Context {git : GitLib}.

(** [path_unreadable]: [None] when there is no such file, [Some None] when it does not
    open or has no metadata. *)
Definition path_unreadable (p : bytes) : bool :=
  match open_regular p with None => false | Some None => true | Some (Some is_file) => negb is_file end.

(** The loop over the entries. *)
Fixpoint local_entries (es : list (option ConfigEntry)) : option (list (bytes * bytes)) :=
  match es with
  | [] => Some []
  | None :: _ => None
  | Some e :: es =>
      match level e with
      | OtherLevel => local_entries es
      | _ =>
          match entry_name e with
          | None => None
          | Some name =>
              if local_includeif_unsupported name then None
              else
                let is_filter := bool_decide (is_Some (filter_command_driver name)) in
                if has_value e then
                  match entry_value e with
                  | Some value => cons (name, value) <$> local_entries es
                  | None => if is_filter then None else local_entries es
                  end
                else if is_filter then None
                else cons (name, $"true") <$> local_entries es
          end
      end
  end.

Definition read_local_git_config_entries (cwd : bytes) : option (list (bytes * bytes)) :=
  match discover cwd with
  | NoRepository => Some []
  | DiscoverFailed => None
  | Discovered_at git_dir common =>
      if path_unreadable (push common $"config") || path_unreadable (push git_dir $"config") || path_unreadable (push git_dir $"config.worktree")
      then None
      else es ← config_entries cwd; local_entries es
  end.

Definition local_git_config_entry_is_exec (name value : bytes) : bool :=
  let name := to_ascii_lowercase name in
  let value := trim value in
  if value =b [] then false
  else if name =b $"core.fsmonitor" then negb (parse_bool_ok value)
  else if name =b $"diff.external" then true
  else if match strip_prefix $"diff." name with
          | Some rest => ends_with $".command" rest || ends_with $".textconv" rest || ends_with $".external" rest
          | None => false
          end then true
  else if bool_decide (is_Some (filter_command_driver name)) then true
  else match strip_prefix $"alias." name with
       | Some alias => existsb (beq alias) SAFE_GIT_SUBCOMMANDS && starts_with $"!" value
       | None => false
       end.

Definition local_repo_config_has_exec_risk (cwd : bytes) : bool :=
  match read_local_git_config_entries cwd with
  | None => true
  | Some es => existsb (fun e => local_git_config_entry_is_exec e.1 e.2) es
  end.

(** The drivers whose commands are set, sorted and without repetition. *)
Fixpoint insert_driver (d : bytes) (ds : list bytes) : list bytes :=
  match ds with
  | [] => [d]
  | x :: xs => if d =b x then ds else if bytes_leb d x then d :: ds else x :: insert_driver d xs
  end.

Fixpoint collect_drivers (es : list (bytes * bytes)) (ds : list bytes) : option (list bytes) :=
  match es with
  | [] => Some ds
  | (name, value) :: es =>
      if trim value =b [] then collect_drivers es ds
      else match filter_command_driver name with
           | None => collect_drivers es ds
           | Some driver => if filter_driver_name_is_pinnable driver then collect_drivers es (insert_driver driver ds) else None
           end
  end.

Definition local_content_filter_drivers (cwd : bytes) : option (list bytes) :=
  es ← read_local_git_config_entries cwd; collect_drivers es [].

Definition driver_pins (d : bytes) : list bytes :=
  [$"filter." ++ d ++ $".clean="; $"filter." ++ d ++ $".smudge="; $"filter." ++ d ++ $".process="; $"filter." ++ d ++ $".required=false"].

Definition content_filter_config_pins (cwd : bytes) : option (list bytes) :=
  (fun drivers => concat (map driver_pins drivers)) <$> local_content_filter_drivers cwd.

(** ** Directories of a script *)

Definition is_static_path_operand (p : bytes) : bool :=
  negb (p =b []) && negb (p =b $"-") && negb (starts_with $"-" p) && negb (contains_byte "$"%char p) && negb (contains_byte "`"%char p)
  && negb (contains_str $"$(" p).

Definition join_cwd (base operand : bytes) : bytes := if is_absolute operand then operand else push base operand.

(** The target of a [cd]; [None] when it is not modelled. *)
Fixpoint chdir_target (ws : list bytes) (target : option bytes) : option bytes :=
  match ws with
  | [] => target
  | tok :: rest =>
      if tok =b $"--" then head rest
      else if starts_with $"-" tok then None
      else match target with Some _ => None | None => chdir_target rest (Some tok) end
  end.

Definition apply_literal_chdir (cwd : bytes) (words : list bytes) : option bytes :=
  target ← chdir_target (drop 1 words) None;
  if is_static_path_operand target then Some (join_cwd cwd target) else None.

(** The loop of [git_effective_cwd] *)
Fixpoint effective_cwd_from (cwd : bytes) (ws : list bytes) : option bytes :=
  match ws with
  | [] => Some cwd
  | tok :: rest =>
      if (tok =b $"--") || ends_globals tok then Some cwd
      else if is_git_repo_retarget_flag tok then None
      else if tok =b $"-C" then
        match rest with
        | p :: rest => if is_static_path_operand p then effective_cwd_from (join_cwd cwd p) rest else None
        | [] => None
        end
      else match attached_git_c_path tok with
           | Some p => if is_static_path_operand p then effective_cwd_from (join_cwd cwd p) rest else None
           | None =>
               if takes_next tok rest then match rest with _ :: rest => effective_cwd_from cwd rest | [] => Some cwd end
               else effective_cwd_from cwd rest
           end
  end.

Definition git_effective_cwd (words : list bytes) (start_cwd : bytes) : option bytes := effective_cwd_from start_cwd (drop 1 words).

Inductive AmbientScanPlan := FailClosed | CheckDirs (dirs : list bytes).

(** The loop of [ambient_scan_plan_from_segments] *)
Fixpoint scan_segments (raw : list (list bytes)) (cwd : bytes) (git_cwds : list bytes) : AmbientScanPlan :=
  match raw with
  | [] => match git_cwds with [] => FailClosed | _ => CheckDirs git_cwds end
  | words :: raw =>
      match normalize_for_exec_risk words with
      | Unmodelled => FailClosed
      | ReadyArgv words =>
          let program := normalized_program_name words in
          if bool_decide (program = Some $"cd") || bool_decide (program = Some $"pushd") then
            match apply_literal_chdir cwd words with Some next => scan_segments raw next git_cwds | None => FailClosed end
          else if bool_decide (program = Some $"popd") then FailClosed
          else if bool_decide (program = Some $"git") then
            match git_effective_cwd words cwd with Some effective => scan_segments raw cwd (git_cwds ++ [effective]) | None => FailClosed end
          else scan_segments raw cwd git_cwds
      end
  end.

Definition ambient_scan_plan_from_segments (raw : list (list bytes)) (session_cwd : bytes) : AmbientScanPlan := scan_segments raw session_cwd [].

Definition ambient_exec_risk_from_plan (plan : AmbientScanPlan) : bool :=
  match plan with
  | FailClosed => true
  | CheckDirs dirs => existsb local_repo_config_has_exec_risk dirs
  end.

End Config.

(** ** Scripts that do not parse *)

Definition script_sep (a : ascii) : bool := ws1 a || contains_byte a ["|"; "&"; ";"; "("; ")"; "`"; newline; "<"; ">"]%char.

(** The pieces of [cmd.split(..)], [cur] read so far. *)
Fixpoint script_tokens (cur s : bytes) : list bytes :=
  match s with
  | [] => [cur]
  | a :: r =>
      if script_sep a then cur :: script_tokens [] r else
      match r with
      | [] => [cur ++ [a]]
      | b :: r2 =>
          if ws2 a b then cur :: script_tokens [] r2 else
          match r2 with
          | [] => script_tokens (cur ++ [a]) r
          | c :: r3 => if ws3 a b c then cur :: script_tokens [] r3 else script_tokens (cur ++ [a]) r
          end
      end
  end.

Definition script_may_invoke_git (cmd : bytes) : bool :=
  existsb (fun token =>
      let trimmed := trim_matches_any [squote; dquote; "`"%char] token in
      negb (trimmed =b []) && (normalized_token_basename trimmed =b $"git"))
    (script_tokens [] cmd).

(** ** What an accepted query is *)

(** The global options of a query, with the directories they change to. *)
Inductive benign_globals : list bytes → list bytes → Prop :=
| benign_nil : benign_globals [] []
| benign_C p gs ps : benign_globals gs ps → benign_globals ($"-C" :: p :: gs) (p :: ps)
| benign_attached p gs ps : p ≠ [] → benign_globals gs ps → benign_globals (($"-C" ++ p) :: gs) (p :: ps)
| benign_no_pager gs ps : benign_globals gs ps → benign_globals ($"--no-pager" :: gs) ps
| benign_P gs ps : benign_globals gs ps → benign_globals ($"-P" :: gs) ps.

Lemma attached_Some (tok p : bytes) : attached_git_c_path tok = Some p ↔ tok = $"-C" ++ p ∧ p ≠ [].
Proof.
  unfold attached_git_c_path. destruct (strip_prefix $"-C" tok) as [r|] eqn:E.
  - apply strip_prefix_Some in E as ->. destruct (decide (r = [])) as [->|Hr].
    + split; [done|]. intros [E Hp]. apply (inj (app $"-C")) in E. congruence.
    + rewrite (proj2 (beq_false _ _) Hr). change (starts_with $"--" ($"-C" ++ r)) with false. cbn.
      split; [by intros [= <-]|]. intros [E _]. apply (inj (app $"-C")) in E. congruence.
  - split; [done|]. intros [-> _]. pose proof (proj2 (strip_prefix_Some $"-C" ($"-C" ++ p) p) eq_refl). congruence.
Qed.

Lemma verb_index_sound (i j : nat) (ws : list bytes) :
  verb_index_from i ws = Some j →
  ∃ gs ps verb args, ws = gs ++ verb :: args ∧ benign_globals gs ps ∧ starts_with dash verb = false ∧ j = i + length gs.
Proof.
  revert i. induction ws as [ws IH] using (induction_ltof1 _ length); unfold ltof in IH.
  intros i. destruct ws as [|tok rest]; [done|]. cbn [verb_index_from]. intros E.
  destruct ((tok =b $"-") || (tok =b $"--")); [done|].
  destruct (starts_with $"-" tok) eqn:Ed; cbn [negb] in E.
  2: { injection E as <-. exists [], [], tok, rest. split_and!; [done|constructor|done|cbn; lia]. }
  destruct (tok =b $"-C") eqn:EC.
  { apply beq_true in EC as ->. destruct rest as [|p rest]; [done|].
    apply IH in E as (gs & ps & verb & args & -> & Hb & Hv & ->); [|cbn; lia].
    exists ($"-C" :: p :: gs), (p :: ps), verb, args. split_and!; [done|by constructor|done|cbn; lia]. }
  case_bool_decide as Ha; cbn [orb] in E.
  { destruct Ha as [p [-> Hp]%attached_Some].
    apply IH in E as (gs & ps & verb & args & -> & Hb & Hv & ->); [|cbn; lia].
    exists (($"-C" ++ p) :: gs), (p :: ps), verb, args. split_and!; [done|by constructor|done|cbn; lia]. }
  destruct (tok =b $"--no-pager") eqn:En; cbn [orb] in E; [|destruct (tok =b $"-P") eqn:EP; [|done]].
  all: apply IH in E as (gs & ps & verb & args & -> & Hb & Hv & ->); [|cbn; lia].
  - apply beq_true in En as ->. exists ($"--no-pager" :: gs), ps, verb, args. split_and!; [done|by constructor|done|cbn; lia].
  - apply beq_true in EP as ->. exists ($"-P" :: gs), ps, verb, args. split_and!; [done|by constructor|done|cbn; lia].
Qed.

Lemma verb_index_complete (gs ps : list bytes) (verb : bytes) (args : list bytes) (i : nat) :
  benign_globals gs ps → starts_with dash verb = false → verb_index_from i (gs ++ verb :: args) = Some (i + length gs).
Proof.
  intros Hb Hv. revert i. induction Hb as [|p gs ps Hb IH|p gs ps Hp Hb IH|gs ps Hb IH|gs ps Hb IH]; intros i.
  - cbn [app verb_index_from length]. rewrite (proj2 (beq_false verb $"-")), (proj2 (beq_false verb $"--")) by (intros ->; done).
    cbn [orb]. unfold dash in Hv. rewrite Hv, Nat.add_0_r. done.
  - cbn. rewrite IH. f_equal; lia.
  - assert (Hc : attached_git_c_path ($"-C" ++ p) = Some p) by by apply attached_Some.
    cbn [app verb_index_from]. change (($"-C" ++ p) =b $"-") with false. change (($"-C" ++ p) =b $"--") with false. change (starts_with $"-" ($"-C" ++ p)) with true.
    rewrite (proj2 (beq_false ($"-C" ++ p) $"-C")) by (intros E; apply (app_inv_head $"-C" p []) in E; congruence).
    cbn [orb negb]. rewrite bool_decide_true by (rewrite Hc; by eexists). cbn [orb]. rewrite IH. cbn. f_equal; lia.
  - cbn. rewrite IH. f_equal; lia.
  - cbn. rewrite IH. f_equal; lia.
Qed.

(** An argument that is, or abbreviates, an option of the table. *)
Definition driver_option (w : bytes) : Prop :=
  ∃ o flag, o ∈ GIT_QUERY_UNSAFE_OPTIONS ∧ flag `prefix_of` o ∧ 2 < length flag ∧ (w = flag ∨ ∃ value, w = flag ++ "="%char :: value).

Lemma flag_of_split (w : bytes) : "="%char ∉ flag_of w ∧ (w = flag_of w ∨ ∃ value, w = flag_of w ++ "="%char :: value).
Proof.
  unfold flag_of. destruct (split_once "="%char w) as [[f v]|] eqn:E.
  - apply split_once_Some in E as [-> Hf]. split; [done|]. right. by exists v.
  - split; [|by left]. intros Hin. apply list_elem_of_split in Hin as (l1 & l2 & ->).
    assert (∃ x y, split_once "="%char (l1 ++ "="%char :: l2) = Some (x, y)) as (x & y & E'); [|congruence].
    clear E. induction l1 as [|a l1 (x & y & IH)]; cbn [app split_once]; [rewrite bool_decide_true by done; eauto|].
    case_bool_decide; [eauto|]. rewrite IH. cbn. eauto.
Qed.

Lemma flag_of_plain (flag value : bytes) : "="%char ∉ flag → flag_of flag = flag ∧ flag_of (flag ++ "="%char :: value) = flag.
Proof. intros Hf. unfold flag_of. rewrite split_once_absent, split_once_first by done. done. Qed.

Lemma options_plain : Forall (λ o, "="%char ∉ o) GIT_QUERY_UNSAFE_OPTIONS.
Proof. by apply (bool_decide_unpack _); vm_compute. Qed.

Lemma driver_option_spec (w : bytes) : git_query_option_is_unsafe w = true ↔ driver_option w.
Proof.
  unfold git_query_option_is_unsafe. rewrite andb_true_iff, Nat.ltb_lt, existsb_exists. split.
  - intros (Hl & o & Ho & Hp). exists o, (flag_of w). split_and!; [by apply list_elem_of_In|by apply starts_with_true|done|].
    apply flag_of_split.
  - intros (o & flag & Ho & Hp & Hl & Hw).
    assert (Hf : "="%char ∉ flag).
    { destruct Hp as [r ->]. intros Hin. apply (proj1 (Forall_forall _ _) options_plain _ Ho). apply elem_of_app. by left. }
    assert (flag_of w = flag) as ->.
    { destruct (flag_of_plain flag [] Hf) as [E _]. destruct Hw as [->|[v ->]]; [done|by apply flag_of_plain]. }
    split; [done|]. exists o. split; [by apply list_elem_of_In|by apply starts_with_true].
Qed.

(** No argument names a driver option, and none of a [grep] starts with [-O]. *)
Definition plain_arguments (verb : bytes) (ws : list bytes) : Prop :=
  Forall (λ w, ¬ driver_option w) ws ∧ (verb = $"grep" → Forall (λ w, starts_with $"-O" w = false) ws).

Lemma safe_verbs_plain : Forall (λ v, starts_with dash v = false) SAFE_GIT_SUBCOMMANDS.
Proof. by apply (bool_decide_unpack _); vm_compute. Qed.

Lemma safe_verb (verb : bytes) : existsb (beq verb) SAFE_GIT_SUBCOMMANDS = true ↔ verb ∈ SAFE_GIT_SUBCOMMANDS.
Proof.
  rewrite existsb_exists, list_elem_of_In. split; [intros (v & Hv & ->%beq_true); done|].
  intros Hv. exists verb. by rewrite beq_refl.
Qed.

Lemma existsb_false {A} (f : A → bool) (l : list A) : existsb f l = false ↔ Forall (λ x, f x = false) l.
Proof.
  induction l as [|x l IH]; cbn; [by split|]. rewrite orb_false_iff, Forall_cons, IH. done.
Qed.

Lemma unsafe_option_spec (gs ps : list bytes) (verb : bytes) (args : list bytes) :
  benign_globals gs ps → starts_with dash verb = false →
  git_words_have_unsafe_query_option ($"git" :: gs ++ verb :: args) = false ↔ plain_arguments verb (gs ++ verb :: args).
Proof.
  intros Hb Hv. unfold git_words_have_unsafe_query_option, git_safe_query_verb_index, plain_arguments.
  change (drop 1 ($"git" :: gs ++ verb :: args)) with (gs ++ verb :: args).
  rewrite (verb_index_complete gs ps verb args 1 Hb Hv). cbn [is_git_word andb]. rewrite beq_refl. cbn [andb].
  cbn [Nat.add lookup list_lookup]. rewrite (list_lookup_middle gs args verb) by done.
  rewrite orb_false_iff, andb_false_iff, bool_decide_eq_false, !existsb_false.
  assert (Forall (λ w, git_query_option_is_unsafe w = false) (gs ++ verb :: args) ↔ Forall (λ w, ¬ driver_option w) (gs ++ verb :: args)) as ->.
  { apply Forall_proper; [|done]. intros w. rewrite <-driver_option_spec, not_true_iff_false. done. }
  split; intros [H1 H2]; (split; [done|]).
  - intros ->. destruct H2; [done|done].
  - destruct (decide (verb = $"grep")) as [->|Hn]; [right; auto|left; congruence].
Qed.

Lemma long_option_dashes (tok full : bytes) (n : nat) : starts_with ddash tok = false → is_accepted_long_option_prefix (flag_of tok) full n = false.
Proof.
  intros Ht. unfold is_accepted_long_option_prefix. destruct (starts_with ddash (flag_of tok)) eqn:E; [|done].
  exfalso. destruct (flag_of_split tok) as [_ [Ef|[v Ef]]]; [congruence|].
  apply starts_with_true in E as [r E]. rewrite E, <-app_assoc in Ef. rewrite Ef, starts_with_app in Ht. done.
Qed.

Lemma short_option_no_retarget (tok : bytes) : starts_with ddash tok = false → is_git_config_env_flag tok = false ∧ is_git_repo_retarget_flag tok = false.
Proof.
  intros Ht. unfold is_git_config_env_flag, is_git_repo_retarget_flag. rewrite !long_option_dashes by done.
  assert (Hn : ∀ r, (tok =b (ddash ++ r)) = false) by (intros r; apply beq_false; intros ->; by rewrite starts_with_app in Ht).
  assert (Hs : ∀ r, starts_with (ddash ++ r) tok = false).
  { intros r. apply not_true_iff_false. intros [s ->]%starts_with_true. by rewrite <-app_assoc, starts_with_app in Ht. }
  rewrite (Hn $"config-env" : (tok =b $"--config-env") = false), (Hn $"git-dir" : (tok =b $"--git-dir") = false), (Hn $"work-tree" : (tok =b $"--work-tree") = false).
  rewrite (Hs $"config-env=" : starts_with $"--config-env=" tok = false), (Hs $"git-dir=" : starts_with $"--git-dir=" tok = false),
    (Hs $"work-tree=" : starts_with $"--work-tree=" tok = false).
  done.
Qed.

Lemma attached_no_risk (p : bytes) (ws : list bytes) :
  p ≠ [] → risk_in_globals (($"-C" ++ p) :: ws) = risk_in_globals ws.
Proof.
  intros Hp. cbn [risk_in_globals]. destruct (short_option_no_retarget ($"-C" ++ p)) as [-> ->]; [done|].
  assert (Hc : attached_git_c_path ($"-C" ++ p) = Some p) by by apply attached_Some.
  rewrite Hc. done.
Qed.

Lemma benign_no_risk (gs ps : list bytes) (verb : bytes) (args : list bytes) :
  benign_globals gs ps → Forall (λ p, starts_with dash p = false) ps → starts_with dash verb = false → risk_in_globals (gs ++ verb :: args) = false.
Proof.
  intros Hb Hps Hv. induction Hb as [|p gs ps Hb IH|p gs ps Hp Hb IH|gs ps Hb IH|gs ps Hb IH].
  - cbn. unfold ends_globals. unfold dash in Hv. rewrite Hv. cbn [negb orb]. by rewrite orb_true_r.
  - apply Forall_cons in Hps as [Hp Hps]. cbn [app risk_in_globals].
    assert (takes_next $"-C" (p :: gs ++ verb :: args) = true) as ->; [|by apply IH].
    unfold takes_next. unfold dash in Hp. rewrite Hp. done.
  - apply Forall_cons in Hps as [_ Hps]. rewrite <-app_comm_cons, attached_no_risk by done. by apply IH.
  - cbn. by apply IH.
  - cbn. by apply IH.
Qed.

Lemma read_only_words (words : list bytes) :
  git_words_are_read_only_query words = true →
  ∃ gs ps verb args, words = $"git" :: gs ++ verb :: args ∧ benign_globals gs ps ∧ verb ∈ SAFE_GIT_SUBCOMMANDS ∧ plain_arguments verb (gs ++ verb :: args).
Proof.
  unfold git_words_are_read_only_query, git_safe_query_verb_index.
  intros H. repeat (apply andb_true_iff in H as [H ?]). destruct words as [|w ws]; [done|]. apply beq_true in H as ->.
  change (drop 1 ($"git" :: ws)) with ws in *. destruct (verb_index_from 1 ws) as [i|] eqn:E; [|done].
  apply verb_index_sound in E as (gs & ps & verb & args & -> & Hb & Hv & ->).
  cbn [Nat.add lookup list_lookup] in *. rewrite (list_lookup_middle gs args verb) in * by done.
  exists gs, ps, verb, args. split_and!; [done|done|by apply safe_verb|].
  by apply (unsafe_option_spec gs ps), negb_true_iff.
Qed.

Lemma plain_query_accepted (gs ps : list bytes) (verb : bytes) (args : list bytes) :
  benign_globals gs ps → Forall (λ p, starts_with dash p = false) ps → verb ∈ SAFE_GIT_SUBCOMMANDS →
  plain_arguments verb (gs ++ verb :: args) → git_words_are_read_only_query ($"git" :: gs ++ verb :: args) = true.
Proof.
  unfold git_words_are_read_only_query, git_has_exec_risk_global, git_safe_query_verb_index.
  intros Hb Hps Hs Hp. pose proof (proj1 (Forall_forall _ _) safe_verbs_plain _ Hs) as Hv. cbn beta in Hv.
  change (drop 1 ($"git" :: gs ++ verb :: args)) with (gs ++ verb :: args).
  rewrite (benign_no_risk gs ps), (verb_index_complete gs ps), (proj2 (unsafe_option_spec gs ps verb args Hb Hv) Hp) by done.
  cbn [Nat.add lookup list_lookup]. rewrite (list_lookup_middle gs args verb) by done.
  rewrite (proj2 (safe_verb verb) Hs). by vm_compute.
Qed.

(** A git command is accepted as a read-only query only when it is the word [git],
    then options that change the directory or turn the pager off and nothing else, then
    a verb of the table, and no argument names, abbreviates or attaches a value to an
    option that runs a driver or writes a file, nor starts with the pager option of
    [grep]; and every such command whose directories do not look like options is accepted. *)
Theorem read_only_git_sound (words : list bytes) :
  (git_words_are_read_only_query words = true →
   ∃ gs ps verb args, words = $"git" :: gs ++ verb :: args ∧ benign_globals gs ps ∧ verb ∈ SAFE_GIT_SUBCOMMANDS ∧ plain_arguments verb (gs ++ verb :: args))
  ∧ (∀ gs ps verb args, words = $"git" :: gs ++ verb :: args → benign_globals gs ps → Forall (λ p, starts_with dash p = false) ps →
     verb ∈ SAFE_GIT_SUBCOMMANDS → plain_arguments verb (gs ++ verb :: args) → git_words_are_read_only_query words = true).
Proof.
  split; [apply read_only_words|]. intros gs ps verb args -> Hb Hps Hs Hp. by apply (plain_query_accepted gs ps).
Qed.

(** ** Where a script's git commands run *)

(** The directory a script stands in after some commands, when every one of them is modelled. *)
Fixpoint cwd_after (cwd : bytes) (segs : list (list bytes)) : option bytes :=
  match segs with
  | [] => Some cwd
  | seg :: segs =>
      match normalize_for_exec_risk seg with
      | Unmodelled => None
      | ReadyArgv words =>
          if bool_decide (normalized_program_name words ∈ [Some $"cd"; Some $"pushd"]) then
            next ← apply_literal_chdir cwd words; cwd_after next segs
          else if bool_decide (normalized_program_name words = Some $"popd") then None
          else cwd_after cwd segs
      end
  end.

Lemma cd_test (o : option bytes) :
  bool_decide (o ∈ [Some $"cd"; Some $"pushd"]) = bool_decide (o = Some $"cd") || bool_decide (o = Some $"pushd").
Proof.
  rewrite <-bool_decide_or. apply bool_decide_ext. rewrite !elem_of_cons, elem_of_nil. tauto.
Qed.

Lemma scan_keeps (segs : list (list bytes)) (cwd : bytes) (acc dirs : list bytes) :
  scan_segments segs cwd acc = CheckDirs dirs → acc ⊆ dirs.
Proof.
  revert cwd acc. induction segs as [|seg segs IH]; intros cwd acc; cbn [scan_segments].
  - destruct acc; [done|]. by intros [= <-].
  - destruct (normalize_for_exec_risk seg) as [words|]; [|done].
    destruct (_ || _); [destruct (apply_literal_chdir cwd words); [by apply IH|done]|].
    destruct (bool_decide _); [done|]. destruct (bool_decide _); [|by apply IH].
    destruct (git_effective_cwd words cwd) as [d|]; [|done]. intros H%IH d' Hd. apply H, elem_of_app. by left.
Qed.

Lemma scan_covers (pre : list (list bytes)) (seg : list bytes) (post : list (list bytes)) (words : list bytes) (cwd : bytes) (acc dirs : list bytes) :
  scan_segments (pre ++ seg :: post) cwd acc = CheckDirs dirs → normalize_for_exec_risk seg = ReadyArgv words → is_git_program words = true →
  ∃ here dir, cwd_after cwd pre = Some here ∧ git_effective_cwd words here = Some dir ∧ dir ∈ dirs.
Proof.
  intros Hs Hn Hg. revert cwd acc Hs. induction pre as [|s pre IH]; intros cwd acc; cbn [app scan_segments cwd_after].
  - rewrite Hn. apply bool_decide_eq_true in Hg as ->. cbn [bool_decide].
    rewrite !bool_decide_eq_false_2, bool_decide_eq_true_2 by done. cbn [orb].
    destruct (git_effective_cwd words cwd) as [d|] eqn:Ed; [|done]. intros H%scan_keeps.
    exists cwd, d. split_and!; [done|done|]. apply H, elem_of_app. right. by apply list_elem_of_singleton.
  - destruct (normalize_for_exec_risk s) as [ws|]; [|done]. rewrite cd_test. destruct (_ || _).
    { destruct (apply_literal_chdir cwd ws) as [next|]; [|done]. by apply IH. }
    destruct (bool_decide (_ = Some $"popd")); [done|]. destruct (bool_decide _); [|by apply IH].
    destruct (git_effective_cwd ws cwd) as [d|]; [|done]. by apply IH.
Qed.

Lemma effective_cwd_benign (gs ps : list bytes) (verb : bytes) (args : list bytes) (cwd dir : bytes) :
  benign_globals gs ps → starts_with dash verb = false → effective_cwd_from cwd (gs ++ verb :: args) = Some dir →
  dir = foldl join_cwd cwd ps ∧ Forall (λ p, is_static_path_operand p = true) ps.
Proof.
  intros Hb Hv. revert cwd. induction Hb as [|p gs ps Hb IH|p gs ps Hp Hb IH|gs ps Hb IH|gs ps Hb IH]; intros cwd.
  - cbn. unfold ends_globals. unfold dash in Hv. rewrite Hv. cbn [negb orb]. rewrite orb_true_r. by intros [= <-].
  - cbn [app effective_cwd_from]. change (is_git_repo_retarget_flag $"-C") with false. cbn. fold (effective_cwd_from).
    destruct (is_static_path_operand p) eqn:Ep; [|done]. intros [-> H]%IH. by split; [|constructor].
  - rewrite <-app_comm_cons. cbn [effective_cwd_from]. destruct (short_option_no_retarget ($"-C" ++ p)) as [_ ->]; [done|].
    rewrite (proj2 (beq_false ($"-C" ++ p) $"-C")) by (intros E; apply (app_inv_head $"-C" p []) in E; congruence).
    rewrite (proj2 (attached_Some ($"-C" ++ p) p)) by done. change (ends_globals ($"-C" ++ p)) with false. change (($"-C" ++ p) =b $"--") with false. cbn [orb].
    destruct (is_static_path_operand p) eqn:Ep; [|done]. intros [-> H]%IH. by split; [|constructor].
  - by intros H%IH.
  - by intros H%IH.
Qed.

Section Scan.
Context {git : GitLib}.

(** When the scan of a script reports no risk, then for every git command of the
    script the directory it runs in is known from the changes of directory before it
    and its own options, and the local configuration there was readable and has no
    entry that runs a program; and for an accepted query that directory is exactly the one
    its [-C] operands lead to. *)
Theorem ambient_scan_covers (segs pre post : list (list bytes)) (seg words : list bytes) (session : bytes) :
  ambient_exec_risk_from_plan (ambient_scan_plan_from_segments segs session) = false →
  segs = pre ++ seg :: post → normalize_for_exec_risk seg = ReadyArgv words → is_git_program words = true →
  ∃ here dir es, cwd_after session pre = Some here ∧ git_effective_cwd words here = Some dir
    ∧ read_local_git_config_entries dir = Some es ∧ Forall (λ e, local_git_config_entry_is_exec e.1 e.2 = false) es
    ∧ (git_words_are_read_only_query words = true →
       ∃ gs ps verb args, words = $"git" :: gs ++ verb :: args ∧ benign_globals gs ps
         ∧ Forall (λ p, is_static_path_operand p = true) ps ∧ dir = foldl join_cwd here ps).
Proof.
  intros Hr -> Hn Hg. unfold ambient_scan_plan_from_segments in Hr.
  destruct (scan_segments _ session []) as [|dirs] eqn:Es; [done|]. cbn in Hr.
  destruct (scan_covers _ _ _ _ _ _ _ Es Hn Hg) as (here & dir & Hh & Hd & Hin).
  apply existsb_false, Forall_forall with (x := dir) in Hr; [|done]. unfold local_repo_config_has_exec_risk in Hr.
  destruct (read_local_git_config_entries dir) as [es|] eqn:Er; [|done]. apply existsb_false in Hr.
  exists here, dir, es. split_and!; [done..|]. intros Hq.
  apply read_only_words in Hq as (gs & ps & verb & args & -> & Hb & Hs & _).
  pose proof (proj1 (Forall_forall _ _) safe_verbs_plain _ Hs) as Hv.
  destruct (effective_cwd_benign gs ps verb args here dir Hb Hv Hd) as [-> Hst]. by exists gs, ps, verb, args.
Qed.

End Scan.

(** ** The pins *)

Definition before (a b : bytes) : Prop := bytes_leb a b = true ∧ a ≠ b.

Lemma insert_driver_elem (d x : bytes) (ds : list bytes) : x ∈ insert_driver d ds ↔ x = d ∨ x ∈ ds.
Proof.
  induction ds as [|y ds IH]; cbn [insert_driver]; [set_solver|].
  destruct (d =b y) eqn:E; [apply beq_true in E; set_solver|]. destruct (bytes_leb d y); set_solver.
Qed.

Lemma insert_driver_sorted (d : bytes) (ds : list bytes) : StronglySorted before ds → StronglySorted before (insert_driver d ds).
Proof.
  induction 1 as [|y ds Hs IH Hf]; cbn [insert_driver]; [by repeat constructor|].
  destruct (d =b y) eqn:E; [by constructor|]. apply beq_false in E. destruct (bytes_leb d y) eqn:El.
  - constructor; [by constructor|]. constructor; [by split|]. eapply Forall_impl; [exact Hf|]. intros z [H1 H2]. split.
    + by eapply bytes_leb_trans.
    + intros ->. apply E. by apply bytes_leb_antisym.
  - constructor; [done|]. apply Forall_forall. intros z [->|Hz]%insert_driver_elem.
    + split; [|congruence]. destruct (bytes_leb_total d y); congruence.
    + by apply (proj1 (Forall_forall _ _) Hf).
Qed.

(** A driver one of the entries sets a command of. *)
Definition sets_driver (es : list (bytes * bytes)) (d : bytes) : Prop :=
  ∃ name value, (name, value) ∈ es ∧ trim value ≠ [] ∧ filter_command_driver name = Some d.

Lemma collect_drivers_spec (es : list (bytes * bytes)) (ds ds' : list bytes) :
  collect_drivers es ds = Some ds' → StronglySorted before ds → Forall (λ d, filter_driver_name_is_pinnable d = true) ds →
  StronglySorted before ds' ∧ Forall (λ d, filter_driver_name_is_pinnable d = true) ds' ∧ ∀ d, d ∈ ds' ↔ d ∈ ds ∨ sets_driver es d.
Proof.
  revert ds. induction es as [|[name value] es IH]; intros ds; cbn [collect_drivers].
  - intros [= <-] Hs Hf. split_and!; [done|done|]. intros d. split; [by left|]. by intros [?|(? & ? & []%elem_of_nil & _)].
  - assert (Hskip : trim value = [] ∨ filter_command_driver name = None → ∀ d, sets_driver ((name, value) :: es) d ↔ sets_driver es d).
    { intros H d. unfold sets_driver. setoid_rewrite elem_of_cons. naive_solver. }
    destruct (trim value =b []) eqn:Ev.
    { apply beq_true in Ev. intros H Hs Hf. destruct (IH _ H Hs Hf) as (? & ? & Hd). split_and!; [done|done|]. intros d. rewrite Hskip by tauto. apply Hd. }
    apply beq_false in Ev. destruct (filter_command_driver name) as [driver|] eqn:Ef.
    2: { intros H Hs Hf. destruct (IH _ H Hs Hf) as (? & ? & Hd). split_and!; [done|done|]. intros d. rewrite Hskip by tauto. apply Hd. }
    destruct (filter_driver_name_is_pinnable driver) eqn:Ep; [|done]. intros H Hs Hf.
    destruct (IH _ H) as (? & ? & Hd); [by apply insert_driver_sorted| |].
    { apply Forall_forall. intros x [->|Hx]%insert_driver_elem; [done|]. by apply (proj1 (Forall_forall _ _) Hf). }
    split_and!; [done|done|]. intros d. rewrite Hd, insert_driver_elem. unfold sets_driver. setoid_rewrite elem_of_cons. naive_solver.
Qed.

Lemma pinnable_bytes (d : bytes) :
  filter_driver_name_is_pinnable d = true →
  d ≠ [] ∧ Forall (λ c, is_ascii_alphanumeric c = true ∨ c = "_"%char ∨ c = "-"%char) d.
Proof.
  destruct d as [|a d]; [done|]. cbn. intros [Ha Hd]%andb_true_iff. split; [done|]. constructor; [by left|].
  apply Forall_forall. intros c Hc%list_elem_of_In. rewrite forallb_forall in Hd. apply Hd in Hc.
  rewrite !orb_true_iff, !bool_decide_eq_true in Hc. tauto.
Qed.

(** The keys a driver runs its commands from. *)
Definition driver_commands : list bytes := [$"clean"; $"smudge"; $"process"].
Definition driver_key (d prop : bytes) : bytes := $"filter." ++ d ++ "."%char :: prop.

Lemma driver_key_read (d prop : bytes) :
  filter_driver_name_is_pinnable d = true → prop ∈ driver_commands → filter_command_driver (driver_key d prop) = Some d.
Proof.
  intros Hd Hp. assert (Hu : utf8_start (d ++ "."%char :: prop) = true).
  { destruct d as [|a d]; [done|]. cbn in Hd |- *. apply andb_true_iff in Hd as [Ha _].
    unfold is_ascii_alphanumeric, is_ascii_alphabetic, is_ascii_lower, is_ascii_upper, is_ascii_digit, is_continuation in *. apply negb_true_iff, andb_false_iff.
    rewrite !orb_true_iff, !andb_true_iff, !Nat.leb_le in Ha. rewrite !Nat.leb_gt. lia. }
  unfold filter_command_driver, driver_key. pose proof (get_to_app $"filter." _ Hu) as Ht. pose proof (get_from_app $"filter." _ Hu) as Hf.
  change (length $"filter.") with 7 in *. rewrite Ht, Hf. cbn [mbind option_bind]. change (eq_ignore_ascii_case $"filter." $"filter.") with true. cbn [negb].
  unfold rsplit_once. rewrite reverse_app, reverse_cons, <-app_assoc. cbn [app].
  assert ("."%char ∉ reverse prop ∧ ((eq_ignore_ascii_case prop $"clean" || eq_ignore_ascii_case prop $"smudge") || eq_ignore_ascii_case prop $"process") = true) as [Hdot Hprop].
  { unfold driver_commands in Hp. rewrite !elem_of_cons in Hp. destruct Hp as [->|[->|[->|[]%elem_of_nil]]]; (split; [by apply (bool_decide_unpack _); vm_compute|done]). }
  rewrite split_once_first by done. cbn [mbind option_bind]. rewrite !reverse_involutive, Hprop.
  rewrite (proj2 (beq_false d [])) by (by intros ->). done.
Qed.

Lemma driver_key_plain (d prop : bytes) : filter_driver_name_is_pinnable d = true → prop ∈ driver_commands → "="%char ∉ driver_key d prop.
Proof.
  intros [_ Hd]%pinnable_bytes Hp. unfold driver_key. rewrite !elem_of_app, elem_of_cons. intros [H|[H|[H|H]]]; [| |done|].
  - revert H. by apply (bool_decide_unpack _); vm_compute.
  - by destruct (proj1 (Forall_forall _ _) Hd _ H) as [|[|]].
  - revert H. unfold driver_commands in Hp. rewrite !elem_of_cons in Hp. destruct Hp as [->|[->|[->|[]%elem_of_nil]]]; by apply (bool_decide_unpack _); vm_compute.
Qed.

Section Pins.
Context {git : GitLib}.

(** When the pins of a directory are given, its local configuration was readable;
    they are those of the drivers it sets a command of, each once, in order; and each
    such driver has, for each of its three commands, a pin that the first equals sign
    splits into a key that names the driver and the empty value. *)
Theorem pins_silence_filters (cwd : bytes) (pins : list bytes) :
  content_filter_config_pins cwd = Some pins →
  ∃ es drivers, read_local_git_config_entries cwd = Some es ∧ pins = concat (map driver_pins drivers) ∧ StronglySorted before drivers
    ∧ (∀ d, d ∈ drivers ↔ sets_driver es d)
    ∧ (∀ d prop, sets_driver es d → prop ∈ driver_commands →
       ∃ pin, pin ∈ pins ∧ split_once "="%char pin = Some (driver_key d prop, []) ∧ filter_command_driver (driver_key d prop) = Some d).
Proof.
  unfold content_filter_config_pins, local_content_filter_drivers.
  intros (drivers & (es & Hr & Hc)%bind_Some & ->)%fmap_Some.
  destruct (collect_drivers_spec _ _ _ Hc) as (Hs & Hp & Hd); [constructor..|].
  assert (Hd' : ∀ d, d ∈ drivers ↔ sets_driver es d) by (intros d; rewrite Hd; split; [by intros [[]%elem_of_nil|?]|by right]).
  exists es, drivers. split_and!; [done..|]. intros d prop Hset Hprop. apply Hd' in Hset.
  pose proof (proj1 (Forall_forall _ _) Hp _ Hset) as Hpin. cbn beta in Hpin.
  exists (driver_key d prop ++ ["="%char]). split_and!.
  - apply list_elem_of_In, in_concat. exists (driver_pins d). split; [apply in_map; by apply list_elem_of_In|].
    apply list_elem_of_In. unfold driver_pins, driver_key, driver_commands in *. rewrite !elem_of_cons in Hprop |- *.
    destruct Hprop as [->|[->|[->|[]%elem_of_nil]]]; rewrite <-!app_assoc; tauto.
  - apply split_once_first. by apply driver_key_plain.
  - by apply driver_key_read.
Qed.

End Pins.

(** ** Witnesses *)

(** A repository in [/r] with one content filter, and one without in [/q]. *)
Definition demo_entry (name value : string) : option ConfigEntry := Some (mkConfigEntry LocalLevel (Some $name) true (Some $value)).
#[local] Instance demo_git : GitLib := {|
  discover cwd := if cwd =b $"/r" then Discovered_at $"/r/.git" $"/r/.git" else if cwd =b $"/q" then Discovered_at $"/q/.git" $"/q/.git" else NoRepository;
  config_entries cwd := if cwd =b $"/r" then Some [demo_entry "filter.lfs.clean" "git-lfs clean"; demo_entry "core.bare" "false"; demo_entry "filter.lfs.smudge" "git-lfs smudge"]
                        else Some [demo_entry "core.bare" "false"];
  parse_bool_ok v := existsb (beq v) [$"true"; $"false"];
  open_regular p := Some (Some true);
|}.

Definition words_of (s : string) : list bytes := split_on " "%char $s.

Lemma read_only_git_sound_witness :
  git_words_are_read_only_query (words_of "git -C sub --no-pager log --oneline") = true
  ∧ ∃ gs ps verb args, words_of "git -C sub --no-pager log --oneline" = $"git" :: gs ++ verb :: args ∧ benign_globals gs ps
      ∧ verb ∈ SAFE_GIT_SUBCOMMANDS ∧ plain_arguments verb (gs ++ verb :: args).
Proof.
  split; [by vm_compute|]. destruct (read_only_git_sound (words_of "git -C sub --no-pager log --oneline")) as [H _].
  apply H. by vm_compute.
Defined.

Lemma ambient_scan_covers_witness :
  ambient_exec_risk_from_plan (ambient_scan_plan_from_segments [words_of "cd /q"; words_of "env A=1 git status"] $"/r") = false
  ∧ ∃ here dir es, cwd_after $"/r" [words_of "cd /q"] = Some here ∧ git_effective_cwd (words_of "git status") here = Some dir
      ∧ read_local_git_config_entries dir = Some es ∧ Forall (λ e, local_git_config_entry_is_exec e.1 e.2 = false) es.
Proof.
  split; [by vm_compute|].
  destruct (ambient_scan_covers [words_of "cd /q"; words_of "env A=1 git status"] [words_of "cd /q"] [] (words_of "env A=1 git status")
    (words_of "git status") $"/r") as (here & dir & es & H1 & H2 & H3 & H4 & _); [by vm_compute..|].
  exists here, dir, es. done.
Defined.

Lemma pins_silence_filters_witness :
  ∃ pins, content_filter_config_pins $"/r" = Some pins ∧ length pins = 4 ∧ ∃ es, read_local_git_config_entries $"/r" = Some es.
Proof.
  eexists. split; [by vm_compute|]. split; [done|].
  destruct (pins_silence_filters $"/r" (driver_pins $"lfs")) as (es & _ & H & _); [by vm_compute|]. by exists es.
Defined.

(** ** Observations *)

(** A pager bundled behind another short option of [grep] is not seen. *)
Example grep_bundled_pager : git_words_are_read_only_query (words_of "git grep -nOsh TODO") = true ∧ git_words_are_read_only_query (words_of "git grep -Osh TODO") = false.
Proof. by vm_compute. Qed.

(** Deleting a branch counts as a query. *)
Example branch_delete_is_query : git_words_are_read_only_query (words_of "git branch -D main") = true.
Proof. by vm_compute. Qed.

(** An option of [env] the peel does not know leaves the [git] behind it unseen. *)
Example uncertain_env_hides_git :
  segment_exec_facts (words_of "env --default-signal git -c core.fsmonitor=/x status") = mkFacts false false
  ∧ segment_exec_facts (words_of "git -c core.fsmonitor=/x status") = mkFacts true true.
Proof. by vm_compute. Qed.

(** The ambient scan and the token probe. *)
Example scan_finds_filter : ambient_exec_risk_from_plan (ambient_scan_plan_from_segments [words_of "cd /r"; words_of "git status"] $"/q") = true.
Proof. by vm_compute. Qed.

Example probe_tokens : script_may_invoke_git $"echo `git status`" = true ∧ script_may_invoke_git $"(/usr/bin/GIT.exe log)" = true ∧ script_may_invoke_git $"digit git-x" = false.
Proof. by vm_compute. Qed.

Example sort_examples :
  map (fun c => segment_has_exec_risk_flag (words_of c)) ["sort --co=tools/x in"; "SORT.EXE --compress-program=/tmp/pwn in"; "sort --check big.csv"; "sort -- --compress-program=foo"]%string
  = [true; true; false; false].
Proof. by vm_compute. Qed.
