(* ===== verification/Breaker.v ===== *)
(** * Circuit breaker

    [crates/common/xai-circuit-breaker/src]: the sliding window ([window.rs]),
    the three-state breaker ([breaker.rs], [state.rs]), its configuration
    ([config.rs]) and the HTTP retry policy ([retry_policy.rs]).

    The breaker is a set of atomics and a mutex shared by threads.  Each
    operation is a program of atomic actions ([prog]); running it alone gives
    the sequential behaviour, interleaving the actions of several programs
    ([cstep]) the concurrent one (sequentially consistent).  Durations are
    nanoseconds, instants integers of nanoseconds. *)

From S2P Require Import Prelude RustStr.
From Stdlib Require Import SpecFloat.

Open Scope N_scope.

(** ** Sliding window *)

(** [f64]: IEEE binary64, computed exactly. *)
Definition f64 : Type := spec_float.
Definition f64_of_nat (n : nat) : f64 := binary_normalize 53 1024 (Z.of_nat n) 0 false.
Definition f64_div : f64 → f64 → f64 := SFdiv 53 1024.
Definition f64_ge (x y : f64) : bool := SFleb y x.
Definition f64_zero : f64 := S754_zero false.
Definition f64_half : f64 := f64_div (f64_of_nat 1) (f64_of_nat 2).

Definition Instant : Type := Z.
Definition Duration : Type := N.

Record SlidingWindow := mkWindow { entries : list (Instant * bool); failures : nat }.

Definition SlidingWindow_new : SlidingWindow := mkWindow [] 0.

Section Window.
(** [MAX_WINDOW_ENTRIES], 10000 in the source; the bound of [Instant] below
    which [checked_sub] fails depends on the platform. *)
Context (MAX_WINDOW_ENTRIES : nat) (min_instant : Instant).

(** [usize] subtraction of the failure count; the window invariant shows it
    never underflows. *)
Definition window_push (w : SlidingWindow) (is_failure : bool) (at_ : Instant) : SlidingWindow :=
  let w := if (MAX_WINDOW_ENTRIES <=? length (entries w))%nat then
             match entries w with
             | (_, was_failure) :: rest =>
                 mkWindow rest (if was_failure then failures w - 1 else failures w)%nat
             | [] => w
             end
           else w in
  mkWindow (entries w ++ [(at_, is_failure)]) (if is_failure then S (failures w) else failures w).

(** [Instant::checked_sub] *)
Definition checked_sub (now : Instant) (d : Duration) : option Instant :=
  let r := (now - Z.of_N d)%Z in if (min_instant <=? r)%Z then Some r else None.

Fixpoint evict_go (cutoff : Instant) (es : list (Instant * bool)) (f : nat) : SlidingWindow :=
  match es with
  | (ts, was_failure) :: rest =>
      if (ts <? cutoff)%Z then evict_go cutoff rest (if was_failure then f - 1 else f)%nat
      else mkWindow es f
  | [] => mkWindow [] f
  end.

Definition window_evict (w : SlidingWindow) (window : Duration) (now : Instant) : SlidingWindow :=
  match checked_sub now window with
  | None => w
  | Some cutoff => evict_go cutoff (entries w) (failures w)
  end.

Definition window_error_rate (w : SlidingWindow) : f64 :=
  match entries w with
  | [] => f64_zero
  | _ => f64_div (f64_of_nat (failures w)) (f64_of_nat (length (entries w)))
  end.

Definition sample_count (w : SlidingWindow) : nat := length (entries w).

Definition window_clear (w : SlidingWindow) : SlidingWindow := mkWindow [] 0.

End Window.

(** ** State, configuration *)

Inductive BreakerState := Closed | Open | HalfOpen.

#[export] Instance BreakerState_eq_dec : EqDecision BreakerState.
Proof. solve_decision. Defined.

Inductive Outcome := Success | Failure.

Record BreakerConfig := mkBreakerConfig {
  window_duration : Duration;
  min_samples : nat;
  error_rate_threshold : f64;
  open_duration : Duration;
  half_open_max_probes : N;
  failure_codes : gset N;
  enabled : bool;
}.

(** [CircuitBreakerInner]: the shared cells. *)
Record Shared := mkShared {
  b_state : BreakerState;
  opened_at_millis : N;
  half_open_probes : N;
  probe_claimed_at_millis : N;
  is_open_fast : bool;
  b_window : SlidingWindow;
}.

Inductive Event :=
| StateChange (prev new : BreakerState) (reason : bytes)
| ProbeAdmission (admitted : bool)
| OnOutcome (o : Outcome) (s : BreakerState).

(** ** Atomic actions and programs *)

Inductive Op : Type → Type :=
| LoadState : Op BreakerState
| StoreState (s : BreakerState) : Op unit
| CasState (from to : BreakerState) : Op bool
| LoadOpened : Op N
| StoreOpened (n : N) : Op unit
| FetchAddProbes : Op N
| FetchSubProbes : Op N
| StoreProbes (n : N) : Op unit
| LoadClaimed : Op N
| StoreClaimed (n : N) : Op unit
| CasClaimed (old new : N) : Op bool
| LoadFast : Op bool
| StoreFast (b : bool) : Op unit
| Now : Op Instant
| WithWindow {A : Type} (f : SlidingWindow → A * SlidingWindow) : Op A
| Emit (e : Event) : Op unit.

Inductive prog (A : Type) : Type :=
| Ret (a : A)
| Act {R : Type} (o : Op R) (k : R → prog A).
Arguments Ret {A} a.
Arguments Act {A R} o k.

Fixpoint bind {A B} (p : prog A) (f : A → prog B) : prog B :=
  match p with
  | Ret a => f a
  | Act o k => Act o (fun r => bind (k r) f)
  end.

Definition act {R} (o : Op R) : prog R := Act o Ret.

#[export] Instance prog_ret : MRet prog := fun A a => Ret a.
#[export] Instance prog_bind : MBind prog := fun A B f p => bind p f.

(** ** The operations *)

(** [BreakerOpen] carries [retry_after]. *)
Definition CheckResult : Type := result unit Duration.

Definition u64_max1 : N := 2 ^ 64.
Definition nanos_per_milli : N := 1000000.

Section Ops.
Context (MAX_WINDOW_ENTRIES : nat) (min_instant : Instant).
Context (cfg : BreakerConfig) (baseline : Instant).

Definition as_millis_u64 (d : Duration) : N := (d / nanos_per_milli) mod u64_max1.
Definition from_millis (ms : N) : Duration := ms * nanos_per_milli.

Definition elapsed_millis : prog N :=
  now ← act Now;
  Ret (as_millis_u64 (Z.to_N (now - baseline))).

Definition trip (prev : BreakerState) (reason : bytes) : prog unit :=
  act (StoreState Open) ;;
  now ← elapsed_millis;
  act (StoreOpened now) ;;
  act (StoreProbes 0) ;;
  act (StoreFast true) ;;
  if bool_decide (prev = Open) then Ret tt else act (Emit (StateChange prev Open reason)).

Definition close (prev : BreakerState) (reason : bytes) : prog unit :=
  act (StoreState Closed) ;;
  act (WithWindow (fun w => (tt, window_clear w))) ;;
  act (StoreProbes 0) ;;
  act (StoreFast false) ;;
  if bool_decide (prev = Closed) then Ret tt else act (Emit (StateChange prev Closed reason)).

Definition HALF_OPEN_PROBE_BACKOFF : Duration := from_millis 50.

Definition try_half_open_probe : prog CheckResult :=
  now ← elapsed_millis;
  prev ← act FetchAddProbes;
  if prev <? half_open_max_probes cfg then
    act (StoreClaimed now) ;;
    act (Emit (ProbeAdmission true)) ;;
    Ret (Ok tt)
  else
    act FetchSubProbes ;;
    let lease_millis := as_millis_u64 (open_duration cfg) in
    claimed ← act LoadClaimed;
    won ← (if lease_millis <=? now - claimed then act (CasClaimed claimed now) else Ret false);
    if won : bool then
      act (Emit (ProbeAdmission true)) ;;
      Ret (Ok tt)
    else
      act (Emit (ProbeAdmission false)) ;;
      Ret (Err (N.min HALF_OPEN_PROBE_BACKOFF (open_duration cfg))).

Definition check_open : prog CheckResult :=
  opened ← act LoadOpened;
  now ← elapsed_millis;
  let elapsed := from_millis (now - opened) in
  if open_duration cfg <=? elapsed then
    won ← act (CasState Open HalfOpen);
    if won : bool then
      act (StoreFast false) ;;
      act (Emit (StateChange Open HalfOpen $"open_elapsed")) ;;
      try_half_open_probe
    else
      st ← act LoadState;
      match st with
      | Closed => Ret (Ok tt)
      | HalfOpen => try_half_open_probe
      | Open =>
          opened ← act LoadOpened;
          now ← elapsed_millis;
          Ret (Err (open_duration cfg - from_millis (now - opened)))
      end
  else Ret (Err (open_duration cfg - elapsed)).

Definition check : prog CheckResult :=
  if negb (enabled cfg) then Ret (Ok tt)
  else
    st ← act LoadState;
    match st with
    | Closed => Ret (Ok tt)
    | Open => check_open
    | HalfOpen => try_half_open_probe
    end.

Definition is_failure_outcome (o : Outcome) : bool := match o with Failure => true | Success => false end.

(** The locked section of [record] in state [Closed]. *)
Definition record_closed (is_failure : bool) (now : Instant) (w : SlidingWindow) : bool * SlidingWindow :=
  let w := window_evict min_instant (window_push MAX_WINDOW_ENTRIES w is_failure now) (window_duration cfg) now in
  ((min_samples cfg <=? sample_count w)%nat && f64_ge (window_error_rate w) (error_rate_threshold cfg), w).

Definition record (outcome : Outcome) : prog unit :=
  if negb (enabled cfg) then Ret tt
  else
    let is_failure := is_failure_outcome outcome in
    now ← act Now;
    prev_state ← act LoadState;
    match prev_state with
    | Closed =>
        should_trip ← act (WithWindow (record_closed is_failure now));
        if should_trip : bool then trip prev_state $"trip" else Ret tt
    | HalfOpen =>
        if is_failure then trip prev_state $"probe_failure" else close prev_state $"probe_success"
    | Open =>
        act (WithWindow (fun w =>
          (tt, window_evict min_instant (window_push MAX_WINDOW_ENTRIES w is_failure now) (window_duration cfg) now)))
    end ;;
    new_state ← act LoadState;
    act (Emit (OnOutcome outcome new_state)).

Definition state : prog BreakerState := act LoadState.

Definition is_open : prog bool := act LoadFast.

Definition error_rate : prog f64 :=
  now ← act Now;
  act (WithWindow (fun w => let w := window_evict min_instant w (window_duration cfg) now in (window_error_rate w, w))).

(** Compiled for tests only. *)
Definition force_half_open : prog unit :=
  prev ← state;
  act (StoreState HalfOpen) ;;
  act (StoreFast false) ;;
  act (StoreProbes 0) ;;
  if bool_decide (prev = HalfOpen) then Ret tt else act (Emit (StateChange prev HalfOpen $"force_half_open")).

(** [with_clock]: a fresh breaker; the configuration is clamped by [with_clock_config]. *)
Definition fresh : Shared := mkShared Closed 0 0 0 false SlidingWindow_new.

End Ops.

Definition with_clock_config (c : BreakerConfig) : BreakerConfig :=
  mkBreakerConfig (window_duration c) (min_samples c) (error_rate_threshold c) (open_duration c)
    (N.max (half_open_max_probes c) 1) (failure_codes c) (enabled c).

(** ** Configuration presets and failure codes *)

Definition from_secs (n : N) : Duration := n * 1000000000.

Definition DEFAULT_FAILURE_CODES : list N := [429; 500; 502; 503; 504].

Definition default_failure_codes : gset N := list_to_set DEFAULT_FAILURE_CODES.

Definition BreakerConfig_server : BreakerConfig :=
  mkBreakerConfig (from_secs 60) 10 f64_half (from_secs 10) 1 default_failure_codes true.

Definition BreakerConfig_client : BreakerConfig :=
  mkBreakerConfig (from_secs 60) 5 f64_half (from_secs 60) 1 {[401]} true.

Definition is_failure_status (c : BreakerConfig) (status : N) : bool :=
  bool_decide (status ∈ failure_codes c).

Definition parse_failure_codes (s : bytes) : gset N :=
  list_to_set (omap (fun c => parse_u16 (trim c)) (split_on ","%char s)).

(** ** Retry policy *)

Inductive Disposition := Retryable | AuthRefresh | Terminal.

#[export] Instance Disposition_eq_dec : EqDecision Disposition.
Proof. solve_decision. Defined.

Record RetryPolicy := mkRetryPolicy {
  retryable : list N;
  auth_refresh : list N;
  terminal : list N;
  default_disposition : Disposition;
}.

Definition contains_code (l : list N) (status : N) : bool := existsb (N.eqb status) l.

Definition classify (p : RetryPolicy) (status : N) : option Disposition :=
  if (200 <=? status) && (status <? 300) then None
  else if contains_code (auth_refresh p) status then Some AuthRefresh
  else if contains_code (terminal p) status then Some Terminal
  else if contains_code (retryable p) status || (500 <=? status) && (status <? 600) then Some Retryable
  else Some (default_disposition p).

Definition should_retry (p : RetryPolicy) (status : N) : bool := bool_decide (classify p status = Some Retryable).

Definition RetryPolicy_server : RetryPolicy := mkRetryPolicy [429] [] [] Terminal.
Definition RetryPolicy_edge_client : RetryPolicy := mkRetryPolicy [429] [] [525; 526] Terminal.
Definition RetryPolicy_client_storage : RetryPolicy :=
  mkRetryPolicy [] [401] [400; 403; 404; 525; 526] Retryable.

Example failure_codes_ex : parse_failure_codes $"429, +500,x,70000" = {[429; 500]}.
Proof. vm_compute. reflexivity. Qed.

Lemma contains_code_true (l : list N) (status : N) : contains_code l status = true ↔ status ∈ l.
Proof.
  unfold contains_code. rewrite existsb_exists. setoid_rewrite N.eqb_eq. setoid_rewrite <-list_elem_of_In.
  naive_solver.
Qed.

(** What a policy retries. *)
Lemma should_retry_spec (p : RetryPolicy) (status : N) :
  should_retry p status = true ↔
  ¬ 200 ≤ status < 300 ∧ status ∉ auth_refresh p ∧ status ∉ terminal p
  ∧ (status ∈ retryable p ∨ 500 ≤ status < 600 ∨ default_disposition p = Retryable).
Proof.
  unfold should_retry, classify. rewrite bool_decide_eq_true, <-!contains_code_true.
  destruct (contains_code (auth_refresh p) status), (contains_code (terminal p) status),
    (contains_code (retryable p) status), (default_disposition p),
    (N.leb_spec 200 status), (N.ltb_spec status 300), (N.leb_spec 500 status), (N.ltb_spec status 600);
    simpl; split; intros; destruct_and?; split_and?; try done; try lia; auto; naive_solver lia.
Qed.

(** The retry presets, on every status code: the server retries 429 and any
    5xx, the edge client the same without the origin-TLS codes, and the storage
    client everything but success, the credentials code and its permanent codes. *)
Theorem retry_presets (status : N) :
  (should_retry RetryPolicy_server status = true ↔ status = 429 ∨ 500 ≤ status < 600)
  ∧ (should_retry RetryPolicy_edge_client status = true ↔
       (status = 429 ∨ 500 ≤ status < 600) ∧ status ≠ 525 ∧ status ≠ 526)
  ∧ (should_retry RetryPolicy_client_storage status = true ↔
       ¬ 200 ≤ status < 300 ∧ status ∉ [400; 401; 403; 404; 525; 526]).
Proof.
  rewrite !should_retry_spec. simpl. rewrite !not_elem_of_cons, !list_elem_of_singleton.
  assert (Terminal ≠ Retryable) by done. assert (status ∉ []) by apply not_elem_of_nil.
  split_and!; split; intros; destruct_and?; destruct_or?; split_and?; try done; try lia; auto with lia.
Qed.
