(* ===== verification/BreakerLaws.v ===== *)
(** * What the circuit breaker guarantees

    The window's count invariant under every interleaving, the sequential
    behaviour of [check] against a specification, the invariant of sequential
    use, that a breaker is never stranded, and the interleaving in which a
    fresh trip loses its cool-down. *)

From S2P Require Import Prelude RustStr Breaker.

Open Scope N_scope.

(** ** Running programs *)

Record World := mkWorld { w_shared : Shared; w_now : Instant; w_events : list Event }.

Definition with_shared (f : Shared → Shared) (w : World) : World :=
  mkWorld (f (w_shared w)) (w_now w) (w_events w).

Definition set_state (v : BreakerState) (s : Shared) : Shared :=
  mkShared v (opened_at_millis s) (half_open_probes s) (probe_claimed_at_millis s) (is_open_fast s) (b_window s).
Definition set_opened (v : N) (s : Shared) : Shared :=
  mkShared (b_state s) v (half_open_probes s) (probe_claimed_at_millis s) (is_open_fast s) (b_window s).
Definition set_probes (v : N) (s : Shared) : Shared :=
  mkShared (b_state s) (opened_at_millis s) v (probe_claimed_at_millis s) (is_open_fast s) (b_window s).
Definition set_claimed (v : N) (s : Shared) : Shared :=
  mkShared (b_state s) (opened_at_millis s) (half_open_probes s) v (is_open_fast s) (b_window s).
Definition set_fast (v : bool) (s : Shared) : Shared :=
  mkShared (b_state s) (opened_at_millis s) (half_open_probes s) (probe_claimed_at_millis s) v (b_window s).
Definition set_window (v : SlidingWindow) (s : Shared) : Shared :=
  mkShared (b_state s) (opened_at_millis s) (half_open_probes s) (probe_claimed_at_millis s) (is_open_fast s) v.

Definition emit (e : Event) (w : World) : World := mkWorld (w_shared w) (w_now w) (w_events w ++ [e]).

(** One atomic action; [usize] arithmetic wraps. *)
Definition exec {R} (o : Op R) (w : World) : R * World :=
  let sh := w_shared w in
  match o in Op R return R * World with
  | LoadState => (b_state sh, w)
  | StoreState v => (tt, with_shared (set_state v) w)
  | CasState from to =>
      if bool_decide (b_state sh = from) then (true, with_shared (set_state to) w) else (false, w)
  | LoadOpened => (opened_at_millis sh, w)
  | StoreOpened n => (tt, with_shared (set_opened n) w)
  | FetchAddProbes =>
      (half_open_probes sh, with_shared (set_probes ((half_open_probes sh + 1) mod u64_max1)) w)
  | FetchSubProbes =>
      (half_open_probes sh,
       with_shared (set_probes ((half_open_probes sh + (u64_max1 - 1)) mod u64_max1)) w)
  | StoreProbes n => (tt, with_shared (set_probes n) w)
  | LoadClaimed => (probe_claimed_at_millis sh, w)
  | StoreClaimed n => (tt, with_shared (set_claimed n) w)
  | CasClaimed old new =>
      if bool_decide (probe_claimed_at_millis sh = old) then (true, with_shared (set_claimed new) w)
      else (false, w)
  | LoadFast => (is_open_fast sh, w)
  | StoreFast b => (tt, with_shared (set_fast b) w)
  | Now => (w_now w, w)
  | WithWindow f => let '(a, win) := f (b_window sh) in (a, with_shared (set_window win) w)
  | Emit e => (tt, emit e w)
  end.

(** A program alone. *)
Fixpoint run {A} (p : prog A) (w : World) : A * World :=
  match p with
  | Ret a => (a, w)
  | Act o k => let '(r, w') := exec o w in run (k r) w'
  end.

Definition tick (d : N) (w : World) : World :=
  mkWorld (w_shared w) (w_now w + Z.of_N d)%Z (w_events w).

(** Threads: one action of one thread, or time passing. *)
Definition Pool (A : Type) : Type := World * list (prog A).

Inductive cstep {A} : Pool A → Pool A → Prop :=
| cstep_act w ts i R (o : Op R) k r w' :
    ts !! i = Some (Act o k) → exec o w = (r, w') → cstep (w, ts) (w', <[i := k r]> ts)
| cstep_tick w ts d : cstep (w, ts) (tick d w, ts).

(** A schedule: which thread acts next. *)
Definition run_thread {A} (c : Pool A) (i : nat) : Pool A :=
  let '(w, ts) := c in
  match ts !! i with
  | Some (Act o k) => let '(r, w') := exec o w in (w', <[i := k r]> ts)
  | _ => c
  end.

Definition run_schedule {A} (sched : list nat) (c : Pool A) : Pool A := foldl run_thread c sched.

Lemma run_thread_steps {A} (c : Pool A) (i : nat) : rtc cstep c (run_thread c i).
Proof.
  destruct c as [w ts]. unfold run_thread. destruct (ts !! i) as [[a|R o k]|] eqn:E; [done| |done].
  destruct (exec o w) as [r w'] eqn:Ex. apply rtc_once. by eapply cstep_act.
Qed.

Lemma run_schedule_steps {A} (sched : list nat) (c : Pool A) : rtc cstep c (run_schedule sched c).
Proof.
  revert c. induction sched as [|i sched IH]; intros c; simpl; [done|].
  etrans; [apply run_thread_steps|apply IH].
Qed.

(** Running one thread to its end is an interleaving of a pool of one. *)
Lemma run_is_interleaving {A} (p : prog A) (w : World) :
  rtc cstep (w, [p]) ((run p w).2, [Ret (run p w).1]).
Proof.
  revert w. induction p as [a|R o k IH]; intros w; simpl; [done|].
  destruct (exec o w) as [r w'] eqn:E. eapply rtc_l; [by eapply (cstep_act w [Act o k] 0)|]. apply IH.
Qed.

(** ** The window *)

Section Laws.
Context (MAX_WINDOW_ENTRIES : nat) (min_instant : Instant).
Context (Hmax : (0 < MAX_WINDOW_ENTRIES)%nat).

Definition failure_count (es : list (Instant * bool)) : nat := length (filter (fun e => e.2 = true) es).

(** The count is exact and the window bounded. *)
Definition window_ok (w : SlidingWindow) : Prop :=
  failures w = failure_count (entries w) ∧ (length (entries w) ≤ MAX_WINDOW_ENTRIES)%nat.

Lemma failure_count_cons (t : Instant) (b : bool) (es : list (Instant * bool)) :
  failure_count ((t, b) :: es) = ((if b then 1 else 0) + failure_count es)%nat.
Proof. unfold failure_count. rewrite filter_cons. destruct b; simpl; [done|]. done. Qed.

Lemma failure_count_app (es fs : list (Instant * bool)) :
  failure_count (es ++ fs) = (failure_count es + failure_count fs)%nat.
Proof. unfold failure_count. by rewrite filter_app, length_app. Qed.

Lemma window_push_ok (w : SlidingWindow) (b : bool) (t : Instant) :
  window_ok w → window_ok (window_push MAX_WINDOW_ENTRIES w b t).
Proof.
  intros [Hf Hl]. unfold window_push, window_ok.
  assert (∀ es f, f = failure_count es → (length es < MAX_WINDOW_ENTRIES)%nat →
    (if b then S f else f) = failure_count (es ++ [(t, b)])
    ∧ (length (es ++ [(t, b)]) ≤ MAX_WINDOW_ENTRIES)%nat) as Hpush.
  { intros es f -> Hlt. rewrite failure_count_app, failure_count_cons, length_app. simpl.
    unfold failure_count at 4. simpl. split; [destruct b; lia|lia]. }
  destruct (MAX_WINDOW_ENTRIES <=? length (entries w))%nat eqn:E; bool_prop; simpl; [|by apply Hpush].
  destruct (entries w) as [|[u f] es] eqn:Ee; simpl in *; [lia|].
  rewrite failure_count_cons in Hf. apply Hpush; [|lia]. destruct f; simpl in Hf; lia.
Qed.

Lemma window_clear_ok (w : SlidingWindow) : window_ok (window_clear w).
Proof. split; simpl; [done|lia]. Qed.

Lemma evict_go_ok (cutoff : Instant) (es : list (Instant * bool)) (f : nat) :
  window_ok (mkWindow es f) → window_ok (evict_go cutoff es f).
Proof.
  revert f. induction es as [|[t b] es IH]; intros f [Hf Hl]; simpl in *; [by split|].
  destruct (t <? cutoff)%Z; [|by split]. apply IH. rewrite failure_count_cons in Hf.
  split; simpl; [destruct b; simpl in Hf; lia|lia].
Qed.

Lemma window_evict_ok (w : SlidingWindow) (d : Duration) (now : Instant) :
  window_ok w → window_ok (window_evict min_instant w d now).
Proof.
  intros Hw. unfold window_evict. destruct (checked_sub _ _ _); [|done].
  apply evict_go_ok. by destruct w.
Qed.

(** What eviction keeps: the samples from the first one young enough on. *)
Lemma evict_go_suffix (cutoff : Instant) (es : list (Instant * bool)) (f : nat) :
  entries (evict_go cutoff es f) `suffix_of` es
  ∧ match entries (evict_go cutoff es f) with [] => True | (t, _) :: _ => (cutoff ≤ t)%Z end.
Proof.
  revert f. induction es as [|[t b] es IH]; intros f; simpl; [done|].
  destruct (t <? cutoff)%Z eqn:E.
  - destruct (IH (if b then f - 1 else f)%nat) as [Hs Hh]. split; [by apply suffix_cons_r|done].
  - simpl. split; [done|]. lia.
Qed.

#[local] Hint Resolve window_push_ok window_evict_ok : amore.

(** ** Good programs keep the window good *)

Definition op_good {R} (o : Op R) : Prop :=
  match o with
  | WithWindow f => ∀ w, window_ok w → window_ok (f w).2
  | _ => True
  end.

Fixpoint good {A} (p : prog A) : Prop :=
  match p with
  | Ret _ => True
  | Act o k => op_good o ∧ ∀ r, good (k r)
  end.

Lemma good_bind {A B} (p : prog A) (f : A → prog B) : good p → (∀ a, good (f a)) → good (p ≫= f).
Proof.
  intros Hp Hf. unfold mbind, prog_bind. induction p as [a|R o k IH]; simpl in *; [apply Hf|].
  destruct Hp as [Ho Hk]. split; [done|]. intros r. by apply IH.
Qed.

Ltac solve_good :=
  repeat (first
    [ done
    | apply good_bind; [|intros]
    | progress cbn [good op_good act]
    | match goal with |- _ ∧ _ => split; [|intros] end
    | case_match ]).

Context (cfg : BreakerConfig) (baseline : Instant).

Lemma trip_good prev reason : good (trip baseline prev reason).
Proof. unfold trip, elapsed_millis. solve_good. Qed.

Lemma close_good prev reason : good (close prev reason).
Proof. unfold close. solve_good. simpl. intros. split; simpl; [done|lia]. Qed.

Lemma probe_good : good (try_half_open_probe cfg baseline).
Proof. unfold try_half_open_probe, elapsed_millis. solve_good. Qed.

Lemma check_good : good (check cfg baseline).
Proof.
  unfold check, check_open, elapsed_millis. pose proof probe_good. solve_good.
Qed.

Lemma record_good (o : Outcome) : good (record MAX_WINDOW_ENTRIES min_instant cfg baseline o).
Proof.
  unfold record. pose proof trip_good. pose proof close_good.
  solve_good; unfold record_closed; simpl; auto with amore.
Qed.

Lemma error_rate_good : good (error_rate min_instant cfg).
Proof. unfold error_rate. solve_good. simpl. auto with amore. Qed.

Lemma exec_window_ok {R} (o : Op R) (w : World) :
  op_good o → window_ok (b_window (w_shared w)) → window_ok (b_window (w_shared (exec o w).2)).
Proof.
  intros Ho Hw. destruct o; simpl; try done; try (by case_bool_decide).
  specialize (Ho _ Hw). destruct (f (b_window (w_shared w))). exact Ho.
Qed.

Definition pool_good {A} (c : Pool A) : Prop :=
  window_ok (b_window (w_shared c.1)) ∧ Forall good c.2.

Lemma cstep_good {A} (c c' : Pool A) : pool_good c → cstep c c' → pool_good c'.
Proof.
  intros [Hw Hts] Hs. destruct Hs as [w ts i R o k r w' Hi He|w ts d]; [|done]. simpl in *.
  pose proof (Forall_lookup_1 _ _ _ _ Hts Hi) as [Ho Hk]. split; simpl.
  - pose proof (exec_window_ok o w Ho Hw) as Hx. by rewrite He in Hx.
  - apply Forall_insert; [done|]. apply Hk.
Qed.

Lemma reach_good {A} (c c' : Pool A) : pool_good c → rtc cstep c c' → pool_good c'.
Proof. intros Hg Hr. induction Hr; [done|]. apply IHHr. by eapply cstep_good. Qed.

(** ** Alone, [check] follows its specification *)

(** Milliseconds on the breaker's clock. *)
Definition ms (w : World) : N := as_millis_u64 (Z.to_N (w_now w - baseline)).

Definition max_probes : N := half_open_max_probes cfg.

(** A probe slot is claimed, a stale claim is taken over, or the caller is shed. *)
Definition probe_spec (w : World) : CheckResult * World :=
  let sh := w_shared w in
  if half_open_probes sh <? max_probes then
    (Ok tt, emit (ProbeAdmission true)
              (with_shared (fun s => set_claimed (ms w) (set_probes (half_open_probes sh + 1) s)) w))
  else if as_millis_u64 (open_duration cfg) <=? ms w - probe_claimed_at_millis sh then
    (Ok tt, emit (ProbeAdmission true) (with_shared (set_claimed (ms w)) w))
  else (Err (N.min HALF_OPEN_PROBE_BACKOFF (open_duration cfg)), emit (ProbeAdmission false) w).

(** How long the breaker has been open. *)
Definition open_for (w : World) : Duration := from_millis (ms w - opened_at_millis (w_shared w)).

Definition to_half_open (w : World) : World :=
  emit (StateChange Open HalfOpen $"open_elapsed")
    (with_shared (fun s => set_fast false (set_state HalfOpen s)) w).

Definition check_spec (w : World) : CheckResult * World :=
  if negb (enabled cfg) then (Ok tt, w)
  else match b_state (w_shared w) with
  | Closed => (Ok tt, w)
  | Open =>
      if open_duration cfg <=? open_for w then probe_spec (to_half_open w)
      else (Err (open_duration cfg - open_for w), w)
  | HalfOpen => probe_spec w
  end.

Definition small_probes (w : World) : Prop := half_open_probes (w_shared w) + 1 < u64_max1.

Lemma add_sub_wrap (n : N) : n + 1 < u64_max1 → ((n + 1) mod u64_max1 + (u64_max1 - 1)) mod u64_max1 = n.
Proof.
  unfold u64_max1. intros Hn. rewrite (N.mod_small (n + 1)) by done.
  replace (n + 1 + (2 ^ 64 - 1)) with (n + 1 * 2 ^ 64) by lia.
  rewrite N.Div0.mod_add. apply N.mod_small. lia.
Qed.

Lemma world_eta (w : World) : mkWorld (w_shared w) (w_now w) (w_events w) = w.
Proof. by destruct w. Qed.

Lemma set_probes_same (s : Shared) : set_probes (half_open_probes s) s = s.
Proof. by destruct s. Qed.

Lemma probe_run (w : World) : small_probes w → run (try_half_open_probe cfg baseline) w = probe_spec w.
Proof.
  intros Hp. unfold small_probes in Hp. destruct w as [[st op pr cl fa wi] now ev]. simpl in Hp.
  unfold try_half_open_probe, elapsed_millis, probe_spec, ms, max_probes. cbn.
  destruct (pr <? half_open_max_probes cfg); cbn; [by rewrite N.mod_small|].
  rewrite add_sub_wrap by done.
  destruct (as_millis_u64 (open_duration cfg) <=? _); cbn; [|done].
  by rewrite bool_decide_eq_true_2.
Qed.

Lemma check_run (w : World) : small_probes w → run (check cfg baseline) w = check_spec w.
Proof.
  intros Hp. unfold check, check_spec. destruct (enabled cfg); [|done]. cbn [negb].
  destruct w as [[st op pr cl fa wi] now ev] eqn:Ew. destruct st; [done| |].
  - cbn -[try_half_open_probe from_millis]. unfold open_for, ms. cbn -[try_half_open_probe from_millis].
    destruct (open_duration cfg <=? _); [|done]. cbn -[try_half_open_probe].
    rewrite bool_decide_eq_true_2 by done. cbn -[try_half_open_probe].
    by rewrite probe_run.
  - cbn -[try_half_open_probe]. by rewrite probe_run.
Qed.

(** ** The invariant of sequential use *)

Definition breaker_ok (w : World) : Prop :=
  let sh := w_shared w in
  is_open_fast sh = bool_decide (b_state sh = Open)
  ∧ half_open_probes sh ≤ max_probes
  ∧ (b_state sh = HalfOpen ↔ 1 ≤ half_open_probes sh)
  ∧ opened_at_millis sh ≤ ms w ∧ probe_claimed_at_millis sh ≤ ms w
  ∧ window_ok (b_window sh).

(** Calls by one thread, with time passing in between while the clock stays
    within 64 bits of milliseconds. *)
Inductive calls : World → World → Prop :=
| call_check w : calls w (run (check cfg baseline) w).2
| call_record w o : calls w (run (record MAX_WINDOW_ENTRIES min_instant cfg baseline o) w).2
| call_error_rate w : calls w (run (error_rate min_instant cfg) w).2
| call_tick w d : Z.to_N (w_now w + Z.of_N d - baseline) / nanos_per_milli < u64_max1 → calls w (tick d w).

Definition in_range (w : World) : Prop :=
  (baseline ≤ w_now w)%Z ∧ Z.to_N (w_now w - baseline) / nanos_per_milli < u64_max1.

Lemma ms_in_range (w : World) : in_range w → ms w = Z.to_N (w_now w - baseline) / nanos_per_milli.
Proof. intros [_ Hr]. unfold ms, as_millis_u64. by apply N.mod_small. Qed.

Lemma ms_tick (w : World) (d : N) : in_range w → in_range (tick d w) → ms w ≤ ms (tick d w).
Proof.
  intros Hw Hw'. rewrite !ms_in_range by done. destruct Hw as [Hb _]. apply N.Div0.div_le_mono.
  simpl. lia.
Qed.

Context (Hpos : 1 ≤ max_probes) (Hprobes : max_probes + 1 < u64_max1).

Lemma breaker_ok_small (w : World) : breaker_ok w → small_probes w.
Proof. intros (_ & Hp & _). unfold small_probes. lia. Qed.

Lemma probe_spec_ok (w : World) :
  b_state (w_shared w) = HalfOpen → is_open_fast (w_shared w) = false →
  half_open_probes (w_shared w) ≤ max_probes →
  opened_at_millis (w_shared w) ≤ ms w → probe_claimed_at_millis (w_shared w) ≤ ms w →
  window_ok (b_window (w_shared w)) → breaker_ok (probe_spec w).2.
Proof.
  intros Hs Hf Hp Ho Hc Hw. unfold probe_spec.
  destruct (half_open_probes (w_shared w) <? max_probes) eqn:E.
  - apply N.ltb_lt in E. unfold breaker_ok. simpl. rewrite Hs, Hf, bool_decide_eq_false_2 by done.
    change (ms (emit _ _)) with (ms w). split_and!; try done; try lia; (split; [lia|done]).
  - apply N.ltb_ge in E. destruct (as_millis_u64 (open_duration cfg) <=? _); unfold breaker_ok; simpl;
      rewrite Hs, Hf, bool_decide_eq_false_2 by done; change (ms (emit _ _)) with (ms w);
      split_and!; try done; try lia; (split; [lia|done]).
Qed.

Lemma check_spec_ok (w : World) : breaker_ok w → breaker_ok (check_spec w).2.
Proof.
  intros Hok. unfold check_spec. destruct (enabled cfg); [|done]. cbn [negb].
  destruct Hok as (Hf & Hp & Hh & Ho & Hc & Hw) eqn:Eok. clear Eok.
  destruct (b_state (w_shared w)) eqn:Es; [done| |].
  - destruct (open_duration cfg <=? open_for w); [|done]. by apply probe_spec_ok.
  - apply probe_spec_ok; try done.
Qed.

Definition trip_spec (prev : BreakerState) (reason : bytes) (w : World) : World :=
  let w := with_shared (fun s => set_fast true (set_probes 0 (set_opened (ms w) (set_state Open s)))) w in
  if bool_decide (prev = Open) then w else emit (StateChange prev Open reason) w.

Definition close_spec (prev : BreakerState) (reason : bytes) (w : World) : World :=
  let w := with_shared (fun s => set_fast false (set_probes 0
             (set_window (window_clear (b_window s)) (set_state Closed s)))) w in
  if bool_decide (prev = Closed) then w else emit (StateChange prev Closed reason) w.

(** The actions of [record], run alone. *)
Definition record_steps (o : Outcome) (w : World) : World :=
  if negb (enabled cfg) then w
  else
    let f := is_failure_outcome o in
    let win := b_window (w_shared w) in
    let w' := match b_state (w_shared w) with
    | Closed =>
        let '(should_trip, win) := record_closed MAX_WINDOW_ENTRIES min_instant cfg f (w_now w) win in
        let w := with_shared (set_window win) w in
        if should_trip then trip_spec Closed $"trip" w else w
    | HalfOpen =>
        if f then trip_spec HalfOpen $"probe_failure" w else close_spec HalfOpen $"probe_success" w
    | Open =>
        with_shared (set_window (window_evict min_instant
          (window_push MAX_WINDOW_ENTRIES win f (w_now w)) (window_duration cfg) (w_now w))) w
    end in
    emit (OnOutcome o (b_state (w_shared w'))) w'.

Lemma record_unfold (o : Outcome) (w : World) :
  run (record MAX_WINDOW_ENTRIES min_instant cfg baseline o) w = (tt, record_steps o w).
Proof.
  unfold record, record_steps. destruct (enabled cfg); [|done]. cbn [negb].
  destruct w as [[st op pr cl fa wi] now ev]. destruct st.
  - cbn -[record_closed]. destruct (record_closed _ _ _ _ _ wi) as [should_trip win]. cbn.
    by destruct should_trip.
  - done.
  - by destruct o.
Qed.

Ltac solve_ok := split_and!; try done; try lia; try (split; [done|lia]); try (split; [lia|done]).

Lemma trip_spec_ok (prev : BreakerState) (reason : bytes) (w : World) :
  probe_claimed_at_millis (w_shared w) ≤ ms w → window_ok (b_window (w_shared w)) →
  breaker_ok (trip_spec prev reason w).
Proof.
  intros Hc Hw. unfold trip_spec. destruct (bool_decide (prev = Open)); unfold breaker_ok; simpl;
    solve_ok; apply Hw.
Qed.

Lemma close_spec_ok (prev : BreakerState) (reason : bytes) (w : World) :
  opened_at_millis (w_shared w) ≤ ms w → probe_claimed_at_millis (w_shared w) ≤ ms w →
  breaker_ok (close_spec prev reason w).
Proof.
  intros Ho Hc. unfold close_spec. destruct (bool_decide (prev = Closed)); unfold breaker_ok; simpl;
    solve_ok; apply window_clear_ok.
Qed.

Lemma breaker_ok_emit (e : Event) (w : World) : breaker_ok w → breaker_ok (emit e w).
Proof. done. Qed.

Lemma record_steps_ok (o : Outcome) (w : World) : breaker_ok w → breaker_ok (record_steps o w).
Proof.
  intros Hok. unfold record_steps. destruct (enabled cfg); [|done]. cbn [negb]. cbv zeta. apply breaker_ok_emit.
  pose proof Hok as (Hf & Hp & Hh & Ho & Hc & Hw). destruct (b_state (w_shared w)) eqn:Es.
  - unfold record_closed. simpl.
    set (win := window_evict _ _ _ _). assert (window_ok win) as Hwin by apply window_evict_ok, window_push_ok, Hw.
    destruct (_ && _); [by apply trip_spec_ok|]. unfold breaker_ok. simpl. by rewrite Es.
  - unfold breaker_ok. simpl. rewrite Es. split_and!; try done; apply window_evict_ok; auto with amore.
  - destruct (is_failure_outcome o); [by apply trip_spec_ok|by apply close_spec_ok].
Qed.

Lemma calls_ok (w w' : World) : in_range w → breaker_ok w → calls w w' → in_range w' ∧ breaker_ok w'.
Proof.
  intros Hr Hok Hc. destruct Hc as [w|w o|w|w d Hd].
  - rewrite check_run by by apply breaker_ok_small. split; [|by apply check_spec_ok].
    unfold check_spec, probe_spec. repeat case_match; exact Hr.
  - rewrite record_unfold. split; [|by apply record_steps_ok].
    unfold record_steps, record_closed, trip_spec, close_spec. repeat case_match; simplify_eq; exact Hr.
  - split; [exact Hr|]. unfold error_rate. destruct Hok as (Hf & Hp & Hh & Ho & Hcl & Hw).
    unfold breaker_ok. simpl. split_and!; try done; apply window_evict_ok; done.
  - assert (in_range (tick d w)) as Hr'.
    { destruct Hr. split; [simpl; lia|exact Hd]. }
    split; [done|]. destruct Hok as (Hf & Hp & Hh & Ho & Hcl & Hw).
    pose proof (ms_tick w d Hr Hr'). unfold breaker_ok. simpl. split_and!; try done; try apply Hw.
    + etrans; [exact Ho|done].
    + etrans; [exact Hcl|done].
Qed.

Lemma fresh_ok (now : Instant) :
  (baseline ≤ now)%Z → breaker_ok (mkWorld fresh now []).
Proof. intros Hn. unfold breaker_ok, fresh. simpl. solve_ok. apply (window_clear_ok (mkWindow [] 0)). Qed.

(** ** What is recorded, and when the breaker trips *)

(** A sample that is still in the window; instants before the first representable one are none. *)
Definition young (now : Instant) (e : Instant * bool) : bool :=
  let cutoff := (now - Z.of_N (window_duration cfg))%Z in negb ((min_instant <=? cutoff)%Z && (e.1 <? cutoff)%Z).

Definition last_samples (es : list (Instant * bool)) : list (Instant * bool) := drop (length es - MAX_WINDOW_ENTRIES) es.

(** The window after one more sample: of the last samples, as many as it may hold, the
    young ones. *)
Definition window_spec (failed : bool) (now : Instant) (w : SlidingWindow) : SlidingWindow :=
  let es := List.filter (young now) (last_samples (entries w ++ [(now, failed)])) in mkWindow es (failure_count es).

(** The breaker trips on enough samples of which a large enough share failed. *)
Definition trips (es : list (Instant * bool)) : Prop :=
  (min_samples cfg ≤ length es)%nat
  ∧ f64_ge (f64_div (f64_of_nat (failure_count es)) (f64_of_nat (length es))) (error_rate_threshold cfg) = true.

#[export] Instance trips_dec (es : list (Instant * bool)) : Decision (trips es).
Proof. unfold trips. apply _. Defined.

Definition record_spec (o : Outcome) (w : World) : World :=
  if negb (enabled cfg) then w
  else
    let win := window_spec (is_failure_outcome o) (w_now w) (b_window (w_shared w)) in
    let recorded := with_shared (set_window win) w in
    let w' := match b_state (w_shared w), o with
    | Closed, _ => if decide (trips (entries win)) then trip_spec Closed $"trip" recorded else recorded
    | HalfOpen, Failure => trip_spec HalfOpen $"probe_failure" w
    | HalfOpen, Success => close_spec HalfOpen $"probe_success" w
    | Open, _ => recorded
    end in
    emit (OnOutcome o (b_state (w_shared w'))) w'.

(** Samples stand in the order of their times, none of them in the future. *)
Definition window_timed (now : Instant) (w : SlidingWindow) : Prop :=
  StronglySorted Z.le (map fst (entries w)) ∧ Forall (fun e => (e.1 <= now)%Z) (entries w).

Lemma push_entries (w : SlidingWindow) (b : bool) (t : Instant) :
  window_ok w → entries (window_push MAX_WINDOW_ENTRIES w b t) = last_samples (entries w ++ [(t, b)]).
Proof.
  intros [_ Hl]. unfold window_push, last_samples. rewrite length_app. cbn [length].
  destruct (Nat.leb_spec MAX_WINDOW_ENTRIES (length (entries w))) as [Hle|Hlt].
  - destruct (entries w) as [|[u f] es] eqn:E; [simpl in *; lia|]. cbn [entries app length] in *.
    replace (S (length es) + 1 - MAX_WINDOW_ENTRIES)%nat with 1%nat by lia. done.
  - cbn [entries]. replace (length (entries w) + 1 - MAX_WINDOW_ENTRIES)%nat with 0%nat by lia. done.
Qed.

(** Of samples in order, eviction keeps just the young ones. *)
Lemma evict_go_filter (cutoff : Instant) (es : list (Instant * bool)) (f : nat) :
  StronglySorted Z.le (map fst es) → entries (evict_go cutoff es f) = List.filter (fun e => negb (e.1 <? cutoff)%Z) es.
Proof.
  revert f. induction es as [|[t b] es IH]; intros f Hs; [done|]. cbn [map] in Hs. apply StronglySorted_inv in Hs as [Hs Hf].
  cbn [evict_go List.filter fst]. destruct (Z.ltb_spec t cutoff) as [Hlt|Hge]; cbn [negb]; [by apply IH|]. cbn [entries]. f_equal.
  symmetry. apply filter_all. intros e He. apply negb_true_iff, Z.ltb_ge. rewrite Forall_forall in Hf.
  specialize (Hf e.1). etrans; [exact Hge|]. apply Hf. by apply (list_elem_of_fmap_2 fst).
Qed.

Lemma sorted_last (now : Instant) (w : SlidingWindow) (b : bool) :
  window_timed now w → StronglySorted Z.le (map fst (last_samples (entries w ++ [(now, b)]))) ∧ Forall (fun e => (e.1 <= now)%Z) (last_samples (entries w ++ [(now, b)])).
Proof.
  intros [Hs Hf]. assert (StronglySorted Z.le (map fst (entries w ++ [(now, b)]))) as Hall.
  { rewrite map_app. cbn [map fst]. apply StronglySorted_app_2; [|exact Hs|repeat constructor].
    intros x y (e & -> & He)%list_elem_of_fmap ->%list_elem_of_singleton. rewrite Forall_forall in Hf. by apply Hf. }
  split.
  - unfold last_samples. set (n := (_ - _)%nat). rewrite <-(take_drop n (entries w ++ [(now, b)])), map_app in Hall.
    by apply StronglySorted_app_1_r in Hall.
  - apply Forall_drop, Forall_app_2; [done|]. apply Forall_singleton. done.
Qed.

Lemma window_recorded (failed : bool) (now : Instant) (w : SlidingWindow) :
  window_ok w → window_timed now w →
  window_evict min_instant (window_push MAX_WINDOW_ENTRIES w failed now) (window_duration cfg) now = window_spec failed now w.
Proof.
  intros Hok Ht. set (p := window_push MAX_WINDOW_ENTRIES w failed now).
  assert (window_ok (window_evict min_instant p (window_duration cfg) now)) as [Hc _] by apply window_evict_ok, window_push_ok, Hok.
  pose proof (push_entries w failed now Hok) as Hp. fold p in Hp. destruct (sorted_last now w failed Ht) as [Hs _]. rewrite <-Hp in Hs.
  assert (entries (window_evict min_instant p (window_duration cfg) now) = List.filter (young now) (entries p)) as He.
  { unfold window_evict, checked_sub, young. destruct (min_instant <=? now - Z.of_N (window_duration cfg))%Z; cbn [andb].
    - by rewrite evict_go_filter.
    - symmetry. apply filter_all. done. }
  unfold window_spec. rewrite <-Hp, <-He. destruct (window_evict min_instant p (window_duration cfg) now) as [es f]. cbn in *. by rewrite Hc.
Qed.

Lemma window_spec_timed (failed : bool) (now : Instant) (w : SlidingWindow) : window_timed now w → window_timed now (window_spec failed now w).
Proof.
  intros Ht. destruct (sorted_last now w failed Ht) as [Hs Hf]. unfold window_timed, window_spec. cbn [entries].
  set (es := last_samples _) in *. clearbody es. clear Ht. split.
  - induction es as [|e es IH]; [constructor|]. cbn [map] in Hs. apply StronglySorted_inv in Hs as [Hs Hl]. apply Forall_cons in Hf as [He Hf].
    cbn [List.filter]. destruct (young now e); [|by apply IH]. cbn [map]. constructor; [by apply IH|]. apply Forall_forall.
    intros x (y & -> & Hy)%list_elem_of_fmap. rewrite Forall_forall in Hl. apply Hl. apply (list_elem_of_fmap_2 fst).
    apply list_elem_of_In, filter_In in Hy as [Hy _]. by apply list_elem_of_In.
  - apply Forall_forall. intros x [Hx _]%list_elem_of_In%filter_In. rewrite Forall_forall in Hf. apply Hf. by apply list_elem_of_In.
Qed.

(** The new sample is young. *)
Lemma window_spec_nonempty (failed : bool) (now : Instant) (w : SlidingWindow) : entries (window_spec failed now w) ≠ [].
Proof.
  unfold window_spec, last_samples. cbn [entries]. rewrite length_app. cbn [length]. rewrite drop_app_le by lia. rewrite List.filter_app.
  cbn [List.filter]. assert (young now (now, failed) = true) as ->; [|by intros [_ ?]%app_nil].
  unfold young. cbn [fst]. apply negb_true_iff, andb_false_iff. right. apply Z.ltb_ge. lia.
Qed.

(** Alone, [record] follows its specification. *)
Lemma record_run (o : Outcome) (w : World) :
  window_ok (b_window (w_shared w)) → window_timed (w_now w) (b_window (w_shared w)) →
  run (record MAX_WINDOW_ENTRIES min_instant cfg baseline o) w = (tt, record_spec o w).
Proof.
  intros Hok Ht. rewrite record_unfold. unfold record_steps, record_spec, record_closed. rewrite window_recorded by done.
  pose proof (window_spec_nonempty (is_failure_outcome o) (w_now w) (b_window (w_shared w))) as Hne.
  set (win := window_spec (is_failure_outcome o) (w_now w) (b_window (w_shared w))) in *.
  destruct (enabled cfg); [|done]. cbn [negb]. destruct (b_state (w_shared w)); [|done|by destruct o].
  assert ((min_samples cfg <=? sample_count win)%nat && f64_ge (window_error_rate win) (error_rate_threshold cfg) = bool_decide (trips (entries win))) as ->.
  { symmetry. unfold trips, window_error_rate, sample_count. assert (failures win = failure_count (entries win)) as -> by done.
    destruct (entries win) as [|e es] eqn:E; [done|]. symmetry. apply eq_bool_prop_intro. rewrite !Is_true_true, bool_decide_eq_true, andb_true_iff, Nat.leb_le. done. }
  by destruct (decide (trips (entries win))) as [Hd|Hd]; [rewrite bool_decide_eq_true_2|rewrite bool_decide_eq_false_2].
Qed.

Lemma calls_timed (w w' : World) :
  in_range w → breaker_ok w → window_timed (w_now w) (b_window (w_shared w)) → calls w w' → window_timed (w_now w') (b_window (w_shared w')).
Proof.
  intros Hr Hok Ht Hc. destruct Hc as [w|w o|w|w d Hd].
  - rewrite check_run by by apply breaker_ok_small. unfold check_spec, probe_spec. repeat case_match; exact Ht.
  - rewrite record_run; [|by apply Hok|done]. pose proof (window_spec_timed (is_failure_outcome o) _ _ Ht) as Hs.
    unfold record_spec, trip_spec, close_spec. repeat case_match; first [exact Ht|exact Hs|split; constructor].
  - destruct Ht as [Hs Hf]. cbn. unfold window_evict. destruct (checked_sub _ _ _) as [cutoff|]; [|by split].
    destruct (evict_go_suffix cutoff (entries (b_window (w_shared w))) (failures (b_window (w_shared w)))) as [[pre Hsuf] _].
    rewrite Hsuf in Hs, Hf. rewrite map_app in Hs. split; [by apply StronglySorted_app_1_r in Hs|by apply Forall_app in Hf as [_ Hf]].
  - destruct Ht as [Hs Hf]. split; [done|]. eapply Forall_impl; [exact Hf|]. intros e He. simpl in *. lia.
Qed.

(** ** Never stranded *)

Lemma div_add_ge (a b k : N) : 0 < k → b / k ≤ (a + b) / k - a / k.
Proof.
  intros Hk. pose proof (N.div_add_l (a / k) k b ltac:(lia)) as Hd.
  assert ((a / k * k + b) / k ≤ (a + b) / k) as Hle.
  { apply N.Div0.div_le_mono. pose proof (N.Div0.mul_div_le a k). lia. }
  lia.
Qed.

(** Waiting [d] advances the millisecond clock by at least [d / 1ms]. *)
Lemma ms_wait (w : World) (d : N) :
  in_range w → in_range (tick d w) → d / nanos_per_milli ≤ ms (tick d w) - ms w.
Proof.
  intros Hw Hw'. rewrite !ms_in_range by done. simpl. destruct Hw as [Hb _].
  replace (Z.to_N (w_now w + Z.of_N d - baseline)) with (Z.to_N (w_now w - baseline) + d) by lia.
  apply div_add_ge. done.
Qed.

Lemma wait_covers (d e : N) : d + nanos_per_milli ≤ e → d ≤ from_millis (e / nanos_per_milli).
Proof.
  unfold from_millis, nanos_per_milli. intros He. pose proof (N.div_mod e 1000000 ltac:(lia)).
  pose proof (N.mod_lt e 1000000 ltac:(lia)). lia.
Qed.

(** Once the cool-down (plus clock granularity) has passed since any moment of
    sequential use, [check] admits a caller whatever the state. *)
Lemma check_after_wait (w : World) (d : N) :
  in_range w → in_range (tick d w) → breaker_ok w → open_duration cfg + nanos_per_milli ≤ d →
  (run (check cfg baseline) (tick d w)).1 = Ok tt.
Proof.
  intros Hr Hr' Hok Hd. pose proof (ms_wait w d Hr Hr') as Hms.
  destruct (calls_ok w (tick d w) Hr Hok) as [_ Hok'].
  { apply call_tick. apply Hr'. }
  rewrite check_run by by apply breaker_ok_small.
  pose proof Hok as (_ & _ & _ & Ho & Hc & _).
  assert (∀ v, w_now v = w_now (tick d w) → probe_claimed_at_millis (w_shared v) = probe_claimed_at_millis (w_shared w) →
    (probe_spec v).1 = Ok tt) as Hprobe.
  { intros v Hv Hcv. unfold probe_spec. destruct (_ <? max_probes); [done|].
    replace (as_millis_u64 (open_duration cfg) <=? _) with true; [done|]. symmetry. apply N.leb_le.
    rewrite Hcv. assert (ms v = ms (tick d w)) as -> by (unfold ms; by rewrite Hv).
    etrans; [|apply N.le_trans with (1 := Hms); lia]. unfold as_millis_u64.
    etrans; [apply N.Div0.mod_le|]. apply N.Div0.div_le_mono. lia. }
  unfold check_spec. destruct (enabled cfg); [|done]. cbn [negb].
  destruct (b_state (w_shared (tick d w))); [done| |by apply Hprobe].
  replace (open_duration cfg <=? open_for (tick d w)) with true; [by apply Hprobe|].
  symmetry. apply N.leb_le. unfold open_for.
  etrans; [by apply wait_covers|]. unfold from_millis. apply N.mul_le_mono_r. simpl. lia.
Qed.

(** ** The claims *)

(** Threads report their answers. *)
Inductive Answer := Checked (r : CheckResult) | Recorded | Rate (r : f64).

Definition check_thread : prog Answer := r ← check cfg baseline; Ret (Checked r).
Definition record_thread (o : Outcome) : prog Answer :=
  _ ← record MAX_WINDOW_ENTRIES min_instant cfg baseline o; Ret Recorded.
Definition rate_thread : prog Answer := r ← error_rate min_instant cfg; Ret (Rate r).

Definition api_thread (p : prog Answer) : Prop :=
  p = check_thread ∨ (∃ o, p = record_thread o) ∨ p = rate_thread.

Lemma api_good (p : prog Answer) : api_thread p → good p.
Proof.
  intros [->|[[o ->]| ->]]; apply good_bind; try done;
    [apply check_good|apply record_good|apply error_rate_good].
Qed.

(** Under every interleaving of any number of threads that check, record and
    read the rate, the window's incremental failure count equals the number of
    failures it holds, never underflows, and the window stays within its bound. *)
Theorem window_count_exact (ts : list (prog Answer)) (now : Instant) (c : Pool Answer) :
  Forall api_thread ts → rtc cstep (mkWorld fresh now [], ts) c →
  window_ok (b_window (w_shared c.1)).
Proof.
  intros Hts Hr. refine (proj1 (reach_good _ _ _ Hr)). split.
  - apply (window_clear_ok (mkWindow [] 0)).
  - eapply Forall_impl; [exact Hts|]. apply api_good.
Qed.

Lemma reach_ok (now : Instant) (w : World) :
  in_range (mkWorld fresh now []) → rtc calls (mkWorld fresh now []) w → in_range w ∧ breaker_ok w.
Proof.
  intros Hr Hc. remember (mkWorld fresh now []) as w0.
  assert (breaker_ok w0) as Hok by (subst w0; apply fresh_ok, Hr). clear Heqw0.
  induction Hc as [w0|w0 w1 w Hc _ IH]; [done|].
  destruct (calls_ok w0 w1 Hr Hok Hc) as [Hr1 Hok1]. by apply IH.
Qed.

Lemma reach_timed (now : Instant) (w : World) :
  in_range (mkWorld fresh now []) → rtc calls (mkWorld fresh now []) w → window_timed (w_now w) (b_window (w_shared w)).
Proof.
  intros Hr Hc. remember (mkWorld fresh now []) as w0.
  assert (breaker_ok w0) as Hok by (subst w0; apply fresh_ok, Hr).
  assert (window_timed (w_now w0) (b_window (w_shared w0))) as Ht by (subst w0; by repeat constructor). clear Heqw0.
  induction Hc as [w0|w0 w1 w Hc _ IH]; [done|].
  pose proof (calls_timed w0 w1 Hr Hok Ht Hc). destruct (calls_ok w0 w1 Hr Hok Hc) as [Hr1 Hok1]. by apply IH.
Qed.

(** Used by one thread at a time the breaker keeps its invariant: the
    lock-free mirror says open exactly in state Open, at most the configured
    number of probes is out, probes are out exactly in state HalfOpen, and the
    timestamps are not in the future. *)
Theorem breaker_invariant (now : Instant) (w : World) :
  in_range (mkWorld fresh now []) → rtc calls (mkWorld fresh now []) w → breaker_ok w.
Proof. intros Hr Hc. by apply (reach_ok now). Qed.

(** C27: used by one thread at a time, [check] and [record] do what their
    specification says in every reachable state: which callers are admitted or shed and
    for how long; that an outcome recorded in state Closed or Open leaves in the window
    just the young ones of the last samples, with their failures counted; that the
    closed breaker trips exactly when these are enough and the share of failures in them
    reaches the threshold; and that in state HalfOpen a failure trips it and a success closes it. *)
Theorem breaker_refines_spec (now : Instant) (w : World) (o : Outcome) :
  in_range (mkWorld fresh now []) → rtc calls (mkWorld fresh now []) w →
  run (check cfg baseline) w = check_spec w
  ∧ run (record MAX_WINDOW_ENTRIES min_instant cfg baseline o) w = (tt, record_spec o w).
Proof.
  intros Hr Hc. destruct (reach_ok now w Hr Hc) as [_ Hok]. split.
  - by apply check_run, breaker_ok_small.
  - apply record_run; [apply Hok|by apply (reach_timed now)].
Qed.

(** C34: the breaker is never stranded: from any state it can be in, also with
    every probe lost, once the open duration has passed (plus the clock's
    granularity of a millisecond) a caller is admitted. *)
Theorem breaker_recovers (now : Instant) (w : World) (d : N) :
  in_range (mkWorld fresh now []) → rtc calls (mkWorld fresh now []) w →
  in_range (tick d w) → open_duration cfg + nanos_per_milli ≤ d →
  (run (check cfg baseline) (tick d w)).1 = Ok tt.
Proof. intros Hr Hc. destruct (reach_ok now w Hr Hc). intros. by apply check_after_wait. Qed.

End Laws.

(** ** A breaker that trips while it is checked *)

Definition seconds (n : N) : Duration := n * 1000000000.

Definition one_sample : BreakerConfig :=
  mkBreakerConfig (seconds 60) 1 f64_half (seconds 10) 1 ∅ true.

Definition window_entries_source : nat := N.to_nat 10000.

Definition at_100s : World := mkWorld fresh (Z.of_N (seconds 100)) [].

Definition racing_threads : list (prog Answer) :=
  [record_thread window_entries_source 0%Z one_sample 0%Z Failure;
   check_thread one_sample 0%Z; check_thread one_sample 0%Z].

(** The recording thread stores [Open]; a checking thread runs; the recording
    thread finishes its trip; another checking thread runs. *)
Definition racing_schedule : list nat :=
  replicate 4 0%nat ++ replicate 10 1%nat ++ replicate 7 0%nat ++ replicate 5 2%nat.

(** A trip is not atomic: a [check] that runs between the store of [Open] and
    the store of the opening time reads the old time, skips the cool-down and
    claims the only probe; the rest of the trip then clears the probe count, so
    a second probe is admitted, and leaves the lock-free mirror saying open in
    state HalfOpen.  No time passes. *)
Theorem trip_race_skips_cooldown :
  ∃ c, rtc cstep (at_100s, racing_threads) c
    ∧ c.2 = [Ret Recorded; Ret (Checked (Ok tt)); Ret (Checked (Ok tt))]
    ∧ w_now c.1 = w_now at_100s ∧ half_open_max_probes one_sample = 1
    ∧ b_state (w_shared c.1) = HalfOpen ∧ is_open_fast (w_shared c.1) = true.
Proof.
  exists (run_schedule racing_schedule (at_100s, racing_threads)).
  split; [apply run_schedule_steps|]. vm_compute. split_and!; reflexivity.
Qed.

(** ** Witnesses *)

Definition tripped : World :=
  (run (record window_entries_source 0%Z one_sample 0%Z Failure) at_100s).2.

Lemma fresh_in_range : in_range 0%Z at_100s.
Proof. split; [by vm_compute|]. vm_compute. done. Qed.

Lemma tripped_reached : rtc (calls window_entries_source 0%Z one_sample 0%Z) at_100s tripped.
Proof. apply rtc_once. apply call_record. Qed.

Lemma window_entries_positive : (0 < window_entries_source)%nat.
Proof. by vm_compute; lia. Qed.

Lemma window_count_exact_witness :
  window_ok window_entries_source
    (b_window (w_shared (run_schedule racing_schedule (at_100s, racing_threads)).1)).
Proof.
  apply (window_count_exact window_entries_source 0%Z window_entries_positive one_sample 0%Z racing_threads
    (Z.of_N (seconds 100))).
  - apply Forall_cons. split; [right; left; by eexists|]. apply Forall_cons. split; [by left|].
    apply Forall_singleton. by left.
  - apply run_schedule_steps.
Defined.

Lemma breaker_invariant_witness : breaker_ok window_entries_source one_sample 0%Z tripped.
Proof.
  apply (breaker_invariant window_entries_source 0%Z window_entries_positive one_sample 0%Z
    ltac:(done) ltac:(done) (Z.of_N (seconds 100))); [exact fresh_in_range|exact tripped_reached].
Defined.

Lemma breaker_refines_spec_witness :
  run (check one_sample 0%Z) tripped = check_spec one_sample 0%Z tripped
  ∧ (check_spec one_sample 0%Z tripped).1 = Err (seconds 10).
Proof.
  split; [|vm_compute; reflexivity].
  apply (breaker_refines_spec window_entries_source 0%Z window_entries_positive one_sample 0%Z
    ltac:(done) ltac:(done) (Z.of_N (seconds 100)) tripped Success); [exact fresh_in_range|exact tripped_reached].
Defined.

Lemma breaker_recovers_witness :
  (run (check one_sample 0%Z) (tick (seconds 11) tripped)).1 = Ok tt.
Proof.
  apply (breaker_recovers window_entries_source 0%Z window_entries_positive one_sample 0%Z
    ltac:(done) ltac:(done) (Z.of_N (seconds 100))); [exact fresh_in_range|exact tripped_reached| |].
  - split; [by vm_compute|]. vm_compute. done.
  - vm_compute. done.
Defined.
