(* ===== verification/Delivery.v ===== *)
(** * Message delivery lifecycle

    [crates/common/xai-message-delivery-core/src/lifecycle.rs]: messages owned
    by a turn move from pending to projecting to delivered, until the turn ends
    and each owner is handed back exactly once. *)

From S2P Require Import Prelude.

Section Delivery.
Context {Identity Source Content Completion PromptId Epoch : Type}.
Context `{EqDecision Identity, EqDecision PromptId, EqDecision Epoch}.

Record TurnBinding := mkBinding { prompt_id : PromptId; epoch : Epoch }.

#[export] Instance TurnBinding_eq_dec : EqDecision TurnBinding.
Proof. solve_decision. Defined.

Record DeliveryMessage := mkMessage { identity : Identity; source : Source; content : Content }.

Record OwnedDelivery := mkOwned {
  binding : TurnBinding;
  message : DeliveryMessage;
  completion : Completion;
}.

Inductive DeliverySlot :=
| Pending (o : OwnedDelivery)
| Projecting (o : OwnedDelivery)
| Delivered (o : OwnedDelivery).

Definition owned (s : DeliverySlot) : OwnedDelivery :=
  match s with Pending o | Projecting o | Delivered o => o end.

Inductive TerminalCause := CauseCompletion | SoftCancel | Rewind | HardTeardown | ActorDrop.

Definition falls_back (c : TerminalCause) : bool :=
  match c with CauseCompletion | SoftCancel | Rewind => true | HardTeardown | ActorDrop => false end.

Inductive TerminalTarget := Turn (b : TurnBinding) | All.

Record TerminalTransition := mkTransition {
  fallbacks : list OwnedDelivery;
  completions : list OwnedDelivery;
}.

(** [MessageDeliveryLifecycle]: its slots, front first. *)
Definition Lifecycle : Type := list DeliverySlot.

Definition slot_identity (s : DeliverySlot) : Identity := identity (message (owned s)).

Definition contains_identity (l : Lifecycle) (i : Identity) : bool :=
  existsb (fun s => bool_decide (slot_identity s = i)) l.

Definition admit_pending (l : Lifecycle) (b : TurnBinding) (m : DeliveryMessage) (c : Completion)
  : result Lifecycle DeliveryMessage :=
  if contains_identity l (identity m) then Err m else Ok (l ++ [Pending (mkOwned b m c)]).

Definition is_pending_of (b : TurnBinding) (s : DeliverySlot) : bool :=
  match s with Pending o => bool_decide (binding o = b) | _ => false end.

Definition is_projecting_of (b : TurnBinding) (s : DeliverySlot) : bool :=
  match s with Projecting o => bool_decide (binding o = b) | _ => false end.

Definition slot_message (s : DeliverySlot) : DeliveryMessage := message (owned s).

Definition pending_messages (l : Lifecycle) (b : TurnBinding) : list DeliveryMessage :=
  map slot_message (List.filter (is_pending_of b) l).

Definition begin_slot (b : TurnBinding) (s : DeliverySlot) : DeliverySlot :=
  match s with
  | Pending o => if bool_decide (binding o = b) then Projecting o else s
  | _ => s
  end.

Definition begin_delivery (l : Lifecycle) (b : TurnBinding) : Lifecycle * list DeliveryMessage :=
  let messages := pending_messages l b in
  match messages with
  | [] => (l, messages)
  | _ => (map (begin_slot b) l, messages)
  end.

Definition finish_slot (b : TurnBinding) (s : DeliverySlot) : DeliverySlot :=
  match s with
  | Projecting o => if bool_decide (binding o = b) then Delivered o else s
  | _ => s
  end.

Definition finish_delivery {Error : Type} (l : Lifecycle) (b : TurnBinding)
    (commit : list DeliveryMessage → result unit Error)
  : Lifecycle * result (list DeliveryMessage) Error :=
  let messages := map slot_message (List.filter (is_projecting_of b) l) in
  match messages with
  | [] => (l, Ok messages)
  | _ => match commit messages with
         | Err e => (l, Err e)
         | Ok _ => (map (finish_slot b) l, Ok messages)
         end
  end.

Definition slot_matches (t : TerminalTarget) (s : DeliverySlot) : bool :=
  match t with Turn b => bool_decide (binding (owned s) = b) | All => true end.

(** The [filter_map] of [transition], with the two output lists it pushes to. *)
Fixpoint transition_go (t : TerminalTarget) (c : TerminalCause) (l : Lifecycle) (out : TerminalTransition)
  : Lifecycle * TerminalTransition :=
  match l with
  | [] => ([], out)
  | s :: r =>
      if negb (slot_matches t s) then
        let '(l', out) := transition_go t c r out in (s :: l', out)
      else match s with
           | Pending o =>
               if falls_back c
               then transition_go t c r (mkTransition (fallbacks out ++ [o]) (completions out))
               else transition_go t c r (mkTransition (fallbacks out) (completions out ++ [o]))
           | Projecting o | Delivered o =>
               transition_go t c r (mkTransition (fallbacks out) (completions out ++ [o]))
           end
  end.

Definition transition (l : Lifecycle) (t : TerminalTarget) (c : TerminalCause)
  : Lifecycle * TerminalTransition := transition_go t c l (mkTransition [] []).

(** ** The lifecycle as a transition system *)

(** State with everything that happened: the owners handed in, and those handed
    back by ended turns; and what the callers were given: each message [begin_delivery]
    returned for projection and each one [finish_delivery] returned as delivered, with the turn. *)
Record Ghost := mkGhost {
  g_slots : Lifecycle;
  g_admitted : list OwnedDelivery;
  g_returned : list OwnedDelivery;
  g_projected : list (TurnBinding * DeliveryMessage);
  g_delivered : list (TurnBinding * DeliveryMessage);
}.

Definition answer {Error : Type} (r : result (list DeliveryMessage) Error) : list DeliveryMessage :=
  match r with Ok messages => messages | Err _ => [] end.

Inductive lstep : Ghost → Ghost → Prop :=
| step_admit g b m c l' :
    admit_pending (g_slots g) b m c = Ok l' →
    lstep g (mkGhost l' (g_admitted g ++ [mkOwned b m c]) (g_returned g) (g_projected g) (g_delivered g))
| step_begin g b :
    lstep g (mkGhost (begin_delivery (g_slots g) b).1 (g_admitted g) (g_returned g)
               (g_projected g ++ map (pair b) (begin_delivery (g_slots g) b).2) (g_delivered g))
| step_finish g b (commit : list DeliveryMessage → result unit ()) :
    lstep g (mkGhost (finish_delivery (g_slots g) b commit).1 (g_admitted g) (g_returned g) (g_projected g)
               (g_delivered g ++ map (pair b) (answer (finish_delivery (g_slots g) b commit).2)))
| step_transition g t c :
    lstep g (mkGhost (transition (g_slots g) t c).1 (g_admitted g)
               (g_returned g ++ fallbacks (transition (g_slots g) t c).2
                ++ completions (transition (g_slots g) t c).2) (g_projected g) (g_delivered g)).

Definition empty_ghost : Ghost := mkGhost [] [] [] [] [].

(** ** Lemmas *)

Definition owners (l : Lifecycle) : list OwnedDelivery := map owned l.

Lemma begin_slot_owned (b : TurnBinding) (s : DeliverySlot) : owned (begin_slot b s) = owned s.
Proof. destruct s; simpl; try case_bool_decide; done. Qed.

Lemma finish_slot_owned (b : TurnBinding) (s : DeliverySlot) : owned (finish_slot b s) = owned s.
Proof. destruct s; simpl; try case_bool_decide; done. Qed.

Lemma begin_owners (l : Lifecycle) (b : TurnBinding) : owners (begin_delivery l b).1 = owners l.
Proof.
  unfold begin_delivery. destruct (pending_messages l b); [done|]. simpl. unfold owners.
  rewrite map_map. apply map_ext, begin_slot_owned.
Qed.

Lemma finish_owners {Error : Type} (l : Lifecycle) (b : TurnBinding)
    (commit : list DeliveryMessage → result unit Error) :
  owners (finish_delivery l b commit).1 = owners l.
Proof.
  unfold finish_delivery. destruct (map slot_message _); [done|].
  destruct (commit _); [|done]. simpl. unfold owners. rewrite map_map. apply map_ext, finish_slot_owned.
Qed.

Lemma transition_go_split (t : TerminalTarget) (c : TerminalCause) (l : Lifecycle) (out : TerminalTransition) :
  transition_go t c l out =
    (List.filter (fun s => negb (slot_matches t s)) l,
     mkTransition
       (fallbacks out ++ map owned (List.filter (fun s => slot_matches t s && falls_back c
            && match s with Pending _ => true | _ => false end) l))
       (completions out ++ map owned (List.filter (fun s => slot_matches t s
            && negb (falls_back c && match s with Pending _ => true | _ => false end)) l))).
Proof.
  revert out. induction l as [|s l IH]; intros [fb cp]; simpl; [by rewrite !app_nil_r|].
  destruct (slot_matches t s); simpl; [|by rewrite IH].
  destruct s as [o|o|o]; destruct (falls_back c); simpl; rewrite IH; simpl; by rewrite <-?app_assoc.
Qed.

(** A transition splits the slots: those kept, and those handed back. *)
Lemma transition_owners (l : Lifecycle) (t : TerminalTarget) (c : TerminalCause) :
  owners l ≡ₚ owners (transition l t c).1
              ++ fallbacks (transition l t c).2 ++ completions (transition l t c).2.
Proof.
  unfold transition. rewrite transition_go_split. simpl. unfold owners. rewrite <-!map_app. apply Permutation_map.
  induction l as [|s l IH]; [done|]. simpl.
  destruct (slot_matches t s); simpl; [|by apply Permutation_skip].
  destruct (falls_back c && match s with Pending _ => true | _ => false end); simpl.
  - rewrite <-Permutation_middle. by apply Permutation_skip.
  - rewrite (app_assoc _ _ (s :: _)), <-Permutation_middle, <-app_assoc. by apply Permutation_skip.
Qed.

(** ** The invariant *)

Definition is_pending (s : DeliverySlot) : bool := match s with Pending _ => true | _ => false end.
Definition is_projecting (s : DeliverySlot) : bool := match s with Projecting _ => true | _ => false end.

(** A delivery as its turn's caller sees it. *)
Definition key (o : OwnedDelivery) : TurnBinding * DeliveryMessage := (binding o, message o).

(** The deliveries in the slots of a kind. *)
Definition held (f : DeliverySlot → bool) (l : Lifecycle) : list (TurnBinding * DeliveryMessage) := map (fun s => key (owned s)) (List.filter f l).

Lemma keyed (f : DeliverySlot → bool) (b : TurnBinding) (l : Lifecycle) :
  (∀ s, f s = true → binding (owned s) = b) → map (pair b) (map slot_message (List.filter f l)) = held f l.
Proof.
  intros Hf. unfold held. rewrite map_map. apply map_ext_in. intros s [_ Hs]%filter_In. unfold key, slot_message. by rewrite Hf.
Qed.

Lemma pending_of_binding (b : TurnBinding) (s : DeliverySlot) : is_pending_of b s = true → binding (owned s) = b.
Proof. destruct s; simpl; intros; bool_prop; done. Qed.

Lemma projecting_of_binding (b : TurnBinding) (s : DeliverySlot) : is_projecting_of b s = true → binding (owned s) = b.
Proof. destruct s; simpl; intros; bool_prop; done. Qed.

(** What a begun delivery returns leaves the pending slots for the projecting ones. *)
Lemma begin_held (l : Lifecycle) (b : TurnBinding) :
  held is_pending l ≡ₚ held is_pending (begin_delivery l b).1 ++ map (pair b) (begin_delivery l b).2
  ∧ held is_projecting (begin_delivery l b).1 ≡ₚ held is_projecting l ++ map (pair b) (begin_delivery l b).2.
Proof.
  assert ((begin_delivery l b).2 = pending_messages l b) as -> by (unfold begin_delivery; by destruct (pending_messages l b)).
  unfold pending_messages. rewrite keyed by apply pending_of_binding.
  assert (held is_pending l ≡ₚ held is_pending (map (begin_slot b) l) ++ held (is_pending_of b) l
    ∧ held is_projecting (map (begin_slot b) l) ≡ₚ held is_projecting l ++ held (is_pending_of b) l) as Hmap.
  { unfold held. induction l as [|[o|o|o] l [IH1 IH2]]; simpl; try done.
    - destruct (bool_decide (binding o = b)); simpl; (split; [|rewrite IH2]); rewrite <-?Permutation_middle; try done; by apply Permutation_skip.
    - split; [done|]. by apply Permutation_skip. }
  unfold begin_delivery, pending_messages. destruct (List.filter (is_pending_of b) l) eqn:E; [|exact Hmap].
  unfold held at 3 6. rewrite E. simpl. by rewrite !app_nil_r.
Qed.

(** What a finished delivery returns leaves the projecting slots; a failed commit keeps
    them all. *)
Lemma finish_held {Error : Type} (l : Lifecycle) (b : TurnBinding) (commit : list DeliveryMessage → result unit Error) :
  held is_pending (finish_delivery l b commit).1 = held is_pending l
  ∧ held is_projecting l ≡ₚ held is_projecting (finish_delivery l b commit).1 ++ map (pair b) (answer (finish_delivery l b commit).2).
Proof.
  assert (held is_pending (map (finish_slot b) l) = held is_pending l
    ∧ held is_projecting l ≡ₚ held is_projecting (map (finish_slot b) l) ++ held (is_projecting_of b) l) as Hmap.
  { unfold held. induction l as [|[o|o|o] l [IH1 IH2]]; simpl; try done.
    - by rewrite IH1.
    - destruct (bool_decide (binding o = b)); simpl; (split; [done|]); rewrite <-?Permutation_middle; by apply Permutation_skip. }
  unfold finish_delivery. pose proof (keyed (is_projecting_of b) b l (projecting_of_binding b)) as Hk.
  destruct (map slot_message (List.filter (is_projecting_of b) l)) as [|m ms] eqn:E; simpl; [by rewrite app_nil_r|].
  destruct (commit (m :: ms)) as [u|e]; simpl; [|by rewrite app_nil_r]. simpl in Hk. by rewrite Hk.
Qed.

Lemma filter_held (f g : DeliverySlot → bool) (l : Lifecycle) : held g (List.filter f l) ⊆+ held g l.
Proof.
  unfold held. induction l as [|s l IH]; simpl; [done|]. destruct (f s); simpl; destruct (g s); simpl; try done;
    [by apply submseteq_skip|by apply submseteq_cons].
Qed.

Definition ghost_ok (g : Ghost) : Prop :=
  g_admitted g ≡ₚ owners (g_slots g) ++ g_returned g
  ∧ NoDup (map slot_identity (g_slots g))
  ∧ held is_pending (g_slots g) ++ g_projected g ⊆+ map key (g_admitted g)
  ∧ held is_projecting (g_slots g) ++ g_delivered g ⊆+ g_projected g.

Lemma slot_identity_owners (l : Lifecycle) :
  map slot_identity l = map (fun o => identity (message o)) (owners l).
Proof. unfold owners. by rewrite map_map. Qed.

Lemma contains_identity_true (l : Lifecycle) (i : Identity) :
  contains_identity l i = true ↔ i ∈ map slot_identity l.
Proof.
  unfold contains_identity. rewrite existsb_exists. rewrite list_elem_of_fmap.
  split; intros (s & H1' & H2'); exists s; rewrite list_elem_of_In in *; bool_prop; [by subst|].
  destruct H1'. split; [done|]. by apply bool_decide_eq_true_2.
Qed.

Lemma lstep_ok (g g' : Ghost) : ghost_ok g → lstep g g' → ghost_ok g'.
Proof.
  intros (Hp & Hn & Hs1 & Hs2) Hs. destruct Hs as [g b m c l' Ha|g b|g b commit|g t c]; unfold ghost_ok; simpl.
  - unfold admit_pending in Ha. destruct (contains_identity _ _) eqn:Ec; [done|]. injection Ha as <-.
    split_and!.
    + unfold owners. rewrite map_app, Hp. simpl. rewrite <-!app_assoc.
      apply Permutation_app_head. by rewrite (comm (++)).
    + rewrite map_app. simpl. apply NoDup_app. split_and!; [done| |apply NoDup_singleton].
      intros i Hi ->%list_elem_of_singleton.
      apply not_true_iff_false in Ec. by apply Ec, contains_identity_true.
    + unfold held in *. rewrite List.filter_app, !map_app. simpl. rewrite <-app_assoc. simpl.
      rewrite <-Permutation_middle, <-Permutation_cons_append. by apply submseteq_skip.
    + unfold held in *. rewrite List.filter_app, map_app. simpl. by rewrite app_nil_r.
  - rewrite begin_owners, slot_identity_owners, begin_owners, <-slot_identity_owners.
    destruct (begin_held (g_slots g) b) as [Hb1 Hb2]. split_and!; [done..| |].
    + rewrite Hb1, <-app_assoc in Hs1. by rewrite (Permutation_app_comm (g_projected g)).
    + rewrite Hb2, <-app_assoc, (Permutation_app_comm _ (g_delivered g)), app_assoc. by apply submseteq_app.
  - rewrite finish_owners, slot_identity_owners, finish_owners, <-slot_identity_owners.
    destruct (finish_held (g_slots g) b commit) as [Hf1 Hf2]. rewrite Hf1. split_and!; [done..|].
    rewrite Hf2, <-app_assoc in Hs2. by rewrite (Permutation_app_comm (g_delivered g)).
  - rewrite Hp, (transition_owners (g_slots g) t c). split_and!.
    { rewrite <-app_assoc. apply Permutation_app_head. apply Permutation_app_comm. }
    + rewrite slot_identity_owners in Hn |- *.
      rewrite (transition_owners (g_slots g) t c), map_app in Hn. by apply NoDup_app in Hn as [? _].
    + rewrite <-(transition_owners (g_slots g) t c), <-Hp. etrans; [|exact Hs1].
      apply submseteq_app; [|done]. unfold transition. rewrite transition_go_split. simpl. apply filter_held.
    + etrans; [|exact Hs2]. apply submseteq_app; [|done]. unfold transition. rewrite transition_go_split. simpl. apply filter_held.
Qed.

Lemma history_ok (g : Ghost) : rtc lstep empty_ghost g → ghost_ok g.
Proof.
  assert (∀ g0, rtc lstep g0 g → ghost_ok g0 → ghost_ok g) as Hr.
  { induction 1 as [|g0 g1 g2 Hs _ IH]; [done|]. intros Hg. apply IH. by eapply lstep_ok. }
  intros Hg. apply (Hr _ Hg). split_and!; simpl; [done|constructor|done..].
Qed.

(** C33: in every history of the lifecycle each admitted delivery is owned exactly
    once: it sits in one slot or was handed back by an ended turn, never both
    and never twice; slots have distinct identities; no message is returned for
    projection, to any caller, more often than it was admitted to that turn, and none
    is returned as delivered more often than it was returned for projection. *)
Theorem delivery_owned_exactly_once (g : Ghost) :
  rtc lstep empty_ghost g →
  g_admitted g ≡ₚ owners (g_slots g) ++ g_returned g
  ∧ NoDup (map slot_identity (g_slots g))
  ∧ g_projected g ⊆+ map key (g_admitted g) ∧ g_delivered g ⊆+ g_projected g.
Proof.
  intros (Hp & Hn & Hs1 & Hs2)%history_ok. split_and!; [done..| |]; (etrans; [|done]); by apply submseteq_inserts_l.
Qed.

Lemma owned_filter (f : DeliverySlot → bool) (l : Lifecycle) (o : OwnedDelivery) :
  o ∈ map owned (List.filter f l) ↔ ∃ s, s ∈ l ∧ f s = true ∧ owned s = o.
Proof.
  rewrite list_elem_of_fmap. split.
  - intros (s & -> & Hs). apply list_elem_of_In, filter_In in Hs as [Hin Hf].
    exists s. by rewrite list_elem_of_In.
  - intros (s & Hin & Hf & <-). exists s. split; [done|]. by apply list_elem_of_In, filter_In; rewrite <-list_elem_of_In.
Qed.

Lemma owned_filter_sublist (f : DeliverySlot → bool) (l : Lifecycle) :
  map owned (List.filter f l) `sublist_of` owners l.
Proof.
  unfold owners. induction l as [|s l IH]; simpl; [constructor|]. destruct (f s); simpl; by constructor.
Qed.

(** Ending a turn touches only that turn's deliveries: the others stay as
    they are, in order; a delivery that was already projected or delivered
    completes and never falls back; a pending one falls back when the turn ends
    gracefully and completes on teardown; and both lists keep the order of
    admission. *)
Theorem transition_routes (l : Lifecycle) (t : TerminalTarget) (c : TerminalCause) :
  let '(rest, out) := transition l t c in
  rest = List.filter (fun s => negb (slot_matches t s)) l
  ∧ (∀ o, o ∈ fallbacks out ↔ falls_back c = true ∧ Pending o ∈ l ∧ slot_matches t (Pending o) = true)
  ∧ (∀ o, o ∈ completions out ↔
       ∃ s, s ∈ l ∧ owned s = o ∧ slot_matches t s = true ∧ (falls_back c = true → s ≠ Pending o))
  ∧ fallbacks out `sublist_of` owners l ∧ completions out `sublist_of` owners l.
Proof.
  unfold transition. rewrite transition_go_split. simpl.
  split_and!; [done| | |apply owned_filter_sublist..]; intros o; rewrite owned_filter; split.
  - intros (s & Hin & Hm & <-). bool_prop. destruct s; naive_solver.
  - intros (Hf & Hin & Hm). exists (Pending o). by rewrite Hm, Hf.
  - intros (s & Hin & Hm & <-). apply andb_true_iff in Hm as [Hm Hn]. exists s.
    split_and!; try done. intros Hf Hs. by rewrite Hf, Hs in Hn.
  - intros (s & Hin & <- & Hm & Hf). exists s. split_and!; [done| |done]. rewrite Hm. simpl.
    destruct (falls_back c); [|done]. destruct s; try done. by specialize (Hf eq_refl).
Qed.

End Delivery.

(** A short history: one message, projected, delivered and completed. *)
Definition one_message : @DeliveryMessage nat unit unit := mkMessage 7 tt tt.
Definition one_binding : @TurnBinding nat nat := mkBinding 1 0.
Definition one_owned : @OwnedDelivery nat unit unit unit nat nat := mkOwned one_binding one_message tt.

Definition one_history : @Ghost nat unit unit unit nat nat :=
  mkGhost [Delivered one_owned] [one_owned] [] [(one_binding, one_message)] [(one_binding, one_message)].

Lemma one_history_reached : rtc lstep empty_ghost one_history.
Proof.
  eapply rtc_l; [by eapply (step_admit empty_ghost one_binding one_message tt)|].
  eapply rtc_l; [by eapply (step_begin _ one_binding)|].
  eapply rtc_l; [by eapply (step_finish _ one_binding (fun _ => Ok tt))|]. done.
Qed.

Lemma delivery_owned_exactly_once_witness :
  g_admitted one_history ≡ₚ owners (g_slots one_history) ++ g_returned one_history.
Proof. exact (proj1 (delivery_owned_exactly_once one_history one_history_reached)). Defined.
