(* ===== verification/ToolCallIds.v ===== *)
(** * Tool-call identifiers

    [crates/codegen/xai-chat-state/src/tool_call_ids.rs]: calls whose identifier
    was used before get a fresh one, and the results that follow are re-joined
    to their calls.  The conversation items are those of
    [xai-grok-sampling-types/src/conversation.rs], with the payloads this code
    does not read as parameters. *)

From stdpp Require Import pretty fin_maps fin_sets.
From S2P Require Import Prelude.

#[local] Open Scope nat_scope.

Section ToolCallIds.
Context {System User AssistantMeta ContentPart Backend Reasoning : Type}.

Record ToolCall := mkCall { call_id : bytes; call_name : bytes; call_arguments : bytes }.

Record AssistantItem := mkAssistant {
  assistant_content : bytes;
  tool_calls : list ToolCall;
  assistant_meta : AssistantMeta;
}.

Record ToolResultItem := mkResult {
  tool_call_id : bytes;
  result_content : bytes;
  result_images : list ContentPart;
}.

Inductive ConversationItem :=
| ISystem (s : System)
| IUser (u : User)
| IAssistant (a : AssistantItem)
| IToolResult (r : ToolResultItem)
| IBackendToolCall (b : Backend)
| IReasoning (r : Reasoning).

(** [HashMap<String, VecDeque<String>>]. *)
Abbreviation Bindings := (gmap bytes (list bytes)).

(** ** Identifiers of a history *)

Definition item_call_ids (item : ConversationItem) : list bytes :=
  match item with IAssistant a => map call_id (tool_calls a) | _ => [] end.

Definition call_id_list (items : list ConversationItem) : list bytes := flat_map item_call_ids items.

Definition call_ids (items : list ConversationItem) : gset bytes := list_to_set (call_id_list items).

Definition insert_result_id (ids : gset bytes) (item : ConversationItem) : gset bytes :=
  match item with IToolResult r => {[ tool_call_id r ]} ∪ ids | _ => ids end.

Definition all_ids (items : list ConversationItem) : gset bytes :=
  foldl insert_result_id (call_ids items) items.

(** ** Minting *)

(** [format!("call_amore_{next}")]. *)
Definition candidate (next : N) : bytes := $"call_amore_" ++ $(pretty next).

(** The [loop] of [normalize_calls]; it leaves with the first candidate that is
    not reserved ([mint_total]: within one more round than there are reserved
    identifiers). *)
Fixpoint mint (fuel : nat) (reserved : gset bytes) (next : N) : option (bytes * N) :=
  match fuel with
  | O => None
  | S fuel =>
      if bool_decide (candidate next ∈ reserved) then mint fuel reserved (N.succ next)
      else Some (candidate next, N.succ next)
  end.

(** The local variables of [normalize_calls] and the sets it updates. *)
Record CallState := mkState {
  used : gset bytes;
  reserved : gset bytes;
  bindings : Bindings;
  reminted : nat;
  next : N;
}.

Definition push_back (b : Bindings) (original id : bytes) : Bindings :=
  <[original := default [] (b !! original) ++ [id]]> b.

(** The body of the [for] loop.  [mint] does not fail with this fuel. *)
Definition normalize_call (s : CallState) (call : ToolCall) : CallState * ToolCall :=
  let original := call_id call in
  if bool_decide (original ∈ used s) then
    match mint (S (size (reserved s))) (reserved s) (next s) with
    | Some (c, n) =>
        (mkState ({[ c ]} ∪ used s) ({[ c ]} ∪ reserved s) (push_back (bindings s) original c)
           (S (reminted s)) n,
         mkCall c (call_name call) (call_arguments call))
    | None => (s, call)
    end
  else (mkState ({[ original ]} ∪ used s) (reserved s) (push_back (bindings s) original original)
          (reminted s) (next s), call).

Fixpoint calls_loop (s : CallState) (calls : list ToolCall) : CallState * list ToolCall :=
  match calls with
  | [] => (s, [])
  | call :: r =>
      let '(s, call) := normalize_call s call in
      let '(s, r) := calls_loop s r in
      (s, call :: r)
  end.

(** The item with its calls renamed, and the state: the two sets as the code
    leaves them, and the bindings and count it returns. *)
Definition normalize_calls (item : ConversationItem) (u rs : gset bytes)
  : CallState * ConversationItem :=
  match item with
  | IAssistant a =>
      let '(s, calls) := calls_loop (mkState u rs ∅ 0 1) (tool_calls a) in
      (s, IAssistant (mkAssistant (assistant_content a) calls (assistant_meta a)))
  | _ => (mkState u rs ∅ 0 1, item)
  end.

(** ** Results *)

(** [VecDeque::remove] at [queue.iter().position(..)]. *)
Definition remove_position (id : bytes) (queue : list bytes) : list bytes :=
  match list_find (fun c => c = id) queue with
  | Some (i, _) => delete i queue
  | None => queue
  end.

(** Some queue of [pending.values_mut()] that holds the identifier.  A hash map
    is walked in no particular order; [found_queue_unique] shows that the order
    does not matter. *)
Definition find_queue (pending : Bindings) (id : bytes) : option (bytes * list bytes) :=
  List.find (fun kq => bool_decide (id ∈ kq.2)) (map_to_list pending).

Definition rewrite_result (pending : Bindings) (id : bytes) : Bindings * bytes :=
  match find_queue pending id with
  | Some (k, queue) =>
      if 1 <? length queue then (<[k := remove_position id queue]> pending, id) else (pending, id)
  | None =>
      match pending !! id with
      | Some queue =>
          if 1 <? length queue then
            match queue with
            | canonical :: rest => (<[id := rest]> pending, canonical)
            | [] => (pending, id)
            end
          else match queue with
               | canonical :: _ => (pending, canonical)
               | [] => (pending, id)
               end
      | None => (pending, id)
      end
  end.

Definition with_id (r : ToolResultItem) (id : bytes) : ToolResultItem :=
  mkResult id (result_content r) (result_images r).

(** ** Repair of a history *)

(** One round of the loop of [repair_tool_call_ids]. *)
Definition repair_item (u rs : gset bytes) (pending : Bindings) (item : ConversationItem)
  : gset bytes * gset bytes * Bindings * nat * ConversationItem :=
  match item with
  | IAssistant _ =>
      let '(s, item) := normalize_calls item u rs in (used s, reserved s, bindings s, reminted s, item)
  | IToolResult r =>
      let '(pending, id) := rewrite_result pending (tool_call_id r) in
      (u, rs, pending, 0, IToolResult (with_id r id))
  | _ => (u, rs, ∅, 0, item)
  end.

Fixpoint repair_go (u rs : gset bytes) (pending : Bindings) (items : list ConversationItem)
  : nat * list ConversationItem :=
  match items with
  | [] => (0, [])
  | item :: r =>
      let '(u, rs, pending, count, item) := repair_item u rs pending item in
      let '(n, r) := repair_go u rs pending r in
      (count + n, item :: r)
  end.

Definition repair_tool_call_ids (items : list ConversationItem) : nat * list ConversationItem :=
  repair_go ∅ (all_ids items) ∅ items.

(** ** Ingest *)

(** [ToolCallIdIngest::normalize]; the state is [pending]. *)
Definition ingest_normalize (pending : Bindings) (history : list ConversationItem)
    (item : ConversationItem) : Bindings * ConversationItem :=
  match item with
  | IAssistant _ =>
      let '(s, item) := normalize_calls item (call_ids history) (all_ids history ∪ all_ids [item]) in
      (bindings s, item)
  | IToolResult r =>
      let '(pending, id) := rewrite_result pending (tool_call_id r) in
      (pending, IToolResult (with_id r id))
  | _ => (∅, item)
  end.

Definition ingest_clear (pending : Bindings) : Bindings := ∅.

(** A session: every item is normalised against the history it is appended to. *)
Fixpoint ingest_all (pending : Bindings) (history items : list ConversationItem)
  : list ConversationItem :=
  match items with
  | [] => history
  | item :: r =>
      let '(pending, item) := ingest_normalize pending history item in
      ingest_all pending (history ++ [item]) r
  end.

(** ** Minting terminates with a fresh identifier *)

Lemma candidate_inj (n m : N) : candidate n = candidate m → n = m.
Proof.
  unfold candidate. intros H%(inj _). apply (inj pretty).
  rewrite <-(String.string_of_list_ascii_of_string (pretty n)), H.
  apply String.string_of_list_ascii_of_string.
Qed.

Lemma mint_none (fuel : nat) (rs : gset bytes) (n : N) :
  mint fuel rs n = None → ∀ i, i < fuel → candidate (n + N.of_nat i) ∈ rs.
Proof.
  revert n. induction fuel as [|fuel IH]; intros n Hm i Hi; [lia|]. simpl in Hm.
  case_bool_decide as Hc; [|done]. destruct i as [|i]; [by replace (n + N.of_nat 0)%N with n by lia|].
  replace (n + N.of_nat (S i))%N with (N.succ n + N.of_nat i)%N by lia. apply IH; [done|lia].
Qed.

Lemma mint_total (rs : gset bytes) (n : N) : ∃ c m, mint (S (size rs)) rs n = Some (c, m).
Proof.
  destruct (mint _ _ _) as [[c m]|] eqn:E; [by eauto|]. exfalso.
  pose proof (mint_none _ _ _ E) as Hin.
  set (f := fun i => candidate (n + N.of_nat i)).
  assert (NoDup (f <$> seq 0 (S (size rs)))) as Hnd.
  { apply NoDup_fmap_2; [|apply NoDup_seq]. intros i j Hij%candidate_inj. lia. }
  assert (size (list_to_set (f <$> seq 0 (S (size rs))) : gset bytes) = S (size rs)) as Hsz.
  { rewrite size_list_to_set by done. by rewrite length_fmap, length_seq. }
  assert ((list_to_set (f <$> seq 0 (S (size rs))) : gset bytes) ⊆ rs) as Hsub.
  { intros x Hx. apply elem_of_list_to_set, list_elem_of_fmap in Hx as (i & -> & Hi).
    apply elem_of_seq in Hi. apply Hin. lia. }
  apply subseteq_size in Hsub. lia.
Qed.

Lemma mint_fresh (fuel : nat) (rs : gset bytes) (n m : N) (c : bytes) :
  mint fuel rs n = Some (c, m) → c ∉ rs.
Proof.
  revert n. induction fuel as [|fuel IH]; intros n Hm; simpl in Hm; [done|].
  case_bool_decide as Hc; [by eapply IH|]. by injection Hm as <- <-.
Qed.

(** One round: either the identifier is new and stays, or a reserved one is
    replaced by a fresh one. *)
Lemma normalize_call_cases (s : CallState) (call : ToolCall) :
  (call_id call ∉ used s
   ∧ normalize_call s call = (mkState ({[ call_id call ]} ∪ used s) (reserved s)
       (push_back (bindings s) (call_id call) (call_id call)) (reminted s) (next s), call))
  ∨ (call_id call ∈ used s ∧ ∃ c n, c ∉ reserved s
     ∧ normalize_call s call = (mkState ({[ c ]} ∪ used s) ({[ c ]} ∪ reserved s)
         (push_back (bindings s) (call_id call) c) (S (reminted s)) n,
       mkCall c (call_name call) (call_arguments call))).
Proof.
  unfold normalize_call. case_bool_decide as Hu; [right|left]; [|done].
  split; [done|]. destruct (mint_total (reserved s) (next s)) as (c & n & Hm).
  rewrite Hm. exists c, n. split; [by eapply mint_fresh|done].
Qed.

(** ** What the loop over the calls does *)

Definition ids (calls : list ToolCall) : list bytes := map call_id calls.

(** The call with its identifier erased. *)
Definition payload (call : ToolCall) : bytes * bytes := (call_name call, call_arguments call).

(** The number of calls whose identifier changed. *)
Definition renamed (before after : list bytes) : nat :=
  length (List.filter (fun p => negb (p.1 =b p.2)) (zip before after)).

Record loop_facts (s : CallState) (calls : list ToolCall) (s' : CallState) (calls' : list ToolCall) : Prop := {
  lf_reserved : reserved s ⊆ reserved s';
  lf_used : used s' = used s ∪ list_to_set (ids calls');
  lf_within : used s' ⊆ reserved s';
  lf_nodup : NoDup (ids calls');
  lf_new : ∀ i, i ∈ ids calls' → i ∉ used s;
  lf_kept : ∀ i, i ∈ ids calls → i ∈ used s';
  lf_payload : map payload calls' = map payload calls;
  lf_fresh : Forall2 (fun o i => i = o ∨ i ∉ reserved s) (ids calls) (ids calls');
  lf_count : reminted s' = reminted s + renamed (ids calls) (ids calls');
}.

Lemma renamed_cons (o i : bytes) (os js : list bytes) :
  renamed (o :: os) (i :: js) = (if o =b i then 0 else 1) + renamed os js.
Proof. unfold renamed. simpl. by destruct (o =b i). Qed.

(** The head call got [i], and the rest was treated from [s1]. *)
Lemma loop_facts_cons (s s1 s' : CallState) (call call1 : ToolCall) (calls calls' : list ToolCall) :
  used s1 = {[ call_id call1 ]} ∪ used s → reserved s ⊆ reserved s1 →
  call_id call1 ∉ used s → (call_id call ∈ used s1) → payload call1 = payload call →
  (call_id call1 = call_id call ∨ call_id call1 ∉ reserved s) →
  reminted s1 = reminted s + (if call_id call =b call_id call1 then 0 else 1) →
  loop_facts s1 calls s' calls' → loop_facts s (call :: calls) s' (call1 :: calls').
Proof.
  intros Hu Hr Hn Hk Hpay Hf Hc []. constructor; simpl; try done.
  - set_solver.
  - rewrite lf_used0, Hu. set_solver.
  - constructor; [|done]. intros Hin. apply (lf_new0 _ Hin). set_solver.
  - intros i [->|Hi]%elem_of_cons; [done|]. specialize (lf_new0 _ Hi). set_solver.
  - intros i [->|Hi]%elem_of_cons; [|by apply lf_kept0]. set_solver.
  - by rewrite Hpay, lf_payload0.
  - constructor; [done|]. eapply Forall2_impl; [exact lf_fresh0|]. simpl. set_solver.
  - rewrite renamed_cons, lf_count0, Hc. lia.
Qed.

Lemma calls_loop_facts (calls : list ToolCall) (s : CallState) :
  used s ⊆ reserved s → (∀ i, i ∈ ids calls → i ∈ reserved s) →
  loop_facts s calls (calls_loop s calls).1 (calls_loop s calls).2.
Proof.
  revert s. induction calls as [|call calls IH]; intros s Hw Hin; simpl.
  { constructor; simpl; try done; try set_solver; try constructor. }
  assert (call_id call ∈ reserved s) as Hcall by (apply Hin; simpl; set_solver).
  assert (∀ i, i ∈ ids calls → i ∈ reserved s) as Htl by (intros; apply Hin; simpl; set_solver).
  destruct (normalize_call_cases s call) as [[Hu ->]|(Hu & c & n & Hc & ->)].
  - set (s1 := mkState _ _ _ _ _). specialize (IH s1). destruct (calls_loop s1 calls) as [s' calls'].
    eapply (loop_facts_cons s s1); simpl; try done; [set_solver|by left| |apply IH; simpl; set_solver].
    rewrite beq_refl. lia.
  - set (s1 := mkState _ _ _ _ _). specialize (IH s1). destruct (calls_loop s1 calls) as [s' calls'].
    eapply (loop_facts_cons s s1); simpl; try done; [set_solver..|by right| |apply IH; simpl; set_solver].
    assert ((call_id call =b c) = false) as -> by (apply beq_false; congruence). lia.
Qed.

(** ** Repair of a history *)

(** The item with every tool-call identifier erased. *)
Definition shape (item : ConversationItem) : ConversationItem :=
  match item with
  | IAssistant a =>
      IAssistant (mkAssistant (assistant_content a)
        (map (fun c => mkCall [] (call_name c) (call_arguments c)) (tool_calls a)) (assistant_meta a))
  | IToolResult r => IToolResult (with_id r [])
  | _ => item
  end.

Record go_facts (u : gset bytes) (items : list ConversationItem) (n : nat)
    (items' : list ConversationItem) : Prop := {
  gf_nodup : NoDup (call_id_list items');
  gf_new : ∀ i, i ∈ call_id_list items' → i ∉ u;
  gf_kept : ∀ i, i ∈ call_id_list items → i ∈ u ∨ i ∈ call_id_list items';
  gf_shape : map shape items' = map shape items;
  gf_count : n = renamed (call_id_list items) (call_id_list items');
}.

Lemma payload_shape (calls calls' : list ToolCall) :
  map payload calls' = map payload calls →
  map (fun c => mkCall [] (call_name c) (call_arguments c)) calls'
  = map (fun c => mkCall [] (call_name c) (call_arguments c)) calls.
Proof.
  revert calls'. induction calls as [|c calls IH]; intros [|c' calls'] Hp; try done.
  simpl in *. injection Hp as Hn Ha Hp. by rewrite Hn, Ha, (IH _ Hp).
Qed.

Lemma renamed_app (a a' b b' : list bytes) :
  length a = length a' → renamed (a ++ b) (a' ++ b') = renamed a a' + renamed b b'.
Proof.
  revert a'. induction a as [|x a IH]; intros [|x' a'] Hl; try done.
  simpl in *. rewrite !renamed_cons, IH by lia. lia.
Qed.

Lemma go_facts_silent (u : gset bytes) (item item' : ConversationItem) (n : nat)
    (items items' : list ConversationItem) :
  item_call_ids item = [] → item_call_ids item' = [] → shape item' = shape item →
  go_facts u items n items' → go_facts u (item :: items) n (item' :: items').
Proof.
  intros H0 H1 Hs []. constructor; unfold call_id_list in *; simpl; rewrite ?H0, ?H1; try done.
  by rewrite Hs, gf_shape0.
Qed.

Lemma repair_go_facts (items : list ConversationItem) (u rs : gset bytes) (pending : Bindings) :
  u ⊆ rs → (∀ i, i ∈ call_id_list items → i ∈ rs) →
  go_facts u items (repair_go u rs pending items).1 (repair_go u rs pending items).2.
Proof.
  revert u rs pending. induction items as [|item items IH]; intros u rs pending Hw Hin.
  { constructor; simpl; try done; try set_solver; constructor. }
  assert (∀ i, i ∈ call_id_list items → i ∈ rs) as Htl.
  { intros i Hi. apply Hin. unfold call_id_list in *. simpl. set_solver. }
  destruct item as [x|x|a|r|x|x]; simpl;
    try (specialize (IH u rs ∅ Hw Htl); destruct (repair_go _ _ _ _); by apply go_facts_silent).
  - pose proof (calls_loop_facts (tool_calls a) (mkState u rs ∅ 0 1) Hw) as Hc.
    destruct (calls_loop _ _) as [s' calls']. simpl in *.
    destruct Hc as [Hr Hu Hwi Hnd Hnew Hkept Hpay Hfr Hcnt].
    { intros i Hi. apply Hin. unfold call_id_list. simpl. set_solver. }
    simpl in *. specialize (IH (used s') (reserved s') (bindings s') Hwi).
    destruct (repair_go _ _ _ _) as [n items']. destruct IH as [Gnd Gnew Gk Gsh Gc]; [set_solver|].
    simpl in *.
    assert (∀ l, map call_id l = ids l) as Hids by done.
    constructor; unfold call_id_list in *; simpl; rewrite ?Hids.
    + apply NoDup_app. split_and!; try done. intros i Hi Hi'. apply (Gnew _ Hi'). set_solver.
    + intros i [Hi|Hi]%elem_of_app; [by apply Hnew|]. specialize (Gnew _ Hi). set_solver.
    + intros i [Hi|Hi]%elem_of_app; [specialize (Hkept _ Hi)|specialize (Gk _ Hi)]; set_solver.
    + by rewrite (payload_shape _ _ Hpay), Gsh.
    + rewrite Hcnt, Gc. symmetry. apply renamed_app. by apply Forall2_length in Hfr.
  - destruct (rewrite_result pending (tool_call_id r)) as [pending' id].
    specialize (IH u rs pending' Hw Htl). destruct (repair_go _ _ _ _). by apply go_facts_silent.
Qed.

Lemma foldl_insert_result_id (items : list ConversationItem) (acc : gset bytes) (i : bytes) :
  i ∈ foldl insert_result_id acc items ↔ i ∈ acc ∨ ∃ r, IToolResult r ∈ items ∧ tool_call_id r = i.
Proof.
  revert acc. induction items as [|item items IH]; intros acc; simpl; [set_solver|].
  rewrite IH. destruct item; set_solver.
Qed.

Lemma elem_of_all_ids (items : list ConversationItem) (i : bytes) :
  i ∈ all_ids items ↔ i ∈ call_id_list items ∨ ∃ r, IToolResult r ∈ items ∧ tool_call_id r = i.
Proof. unfold all_ids, call_ids. by rewrite foldl_insert_result_id, elem_of_list_to_set. Qed.

Lemma repair_facts (items : list ConversationItem) :
  go_facts ∅ items (repair_tool_call_ids items).1 (repair_tool_call_ids items).2.
Proof.
  apply repair_go_facts; [set_solver|]. intros i Hi. apply elem_of_all_ids. by left.
Qed.

(** After the repair no two tool calls of the history share an identifier;
    every identifier that was in use still names a call; nothing but identifiers
    changes; and the returned count is the number of calls that were renamed. *)
Theorem repair_unique (items : list ConversationItem) :
  let '(n, items') := repair_tool_call_ids items in
  NoDup (call_id_list items')
  ∧ (∀ i, i ∈ call_id_list items → i ∈ call_id_list items')
  ∧ map shape items' = map shape items
  ∧ n = renamed (call_id_list items) (call_id_list items').
Proof.
  pose proof (repair_facts items) as H. destruct (repair_tool_call_ids items). destruct H as [? _ Hk ? ?].
  split_and!; try done. intros i Hi. destruct (Hk i Hi); set_solver.
Qed.

(** ** Idempotence *)

(** Bindings of calls that kept their identifiers. *)
Definition self_bound (pending : Bindings) : Prop :=
  ∀ k q, pending !! k = Some q → q = [k].

Lemma find_queue_some (pending : Bindings) (id k : bytes) (q : list bytes) :
  find_queue pending id = Some (k, q) → pending !! k = Some q ∧ id ∈ q.
Proof.
  intros [Hin Hq]%List.find_some. simpl in Hq. bool_prop. split; [|done].
  apply elem_of_map_to_list. by apply list_elem_of_In.
Qed.

Lemma find_queue_none (pending : Bindings) (id k : bytes) (q : list bytes) :
  find_queue pending id = None → pending !! k = Some q → id ∉ q.
Proof.
  intros Hn Hk Hq. assert (bool_decide (id ∈ q) = false) as Hf.
  { apply (List.find_none _ _ Hn (k, q)). by apply list_elem_of_In, elem_of_map_to_list. }
  by apply bool_decide_eq_false in Hf.
Qed.

Lemma rewrite_result_self (pending : Bindings) (id : bytes) :
  self_bound pending → rewrite_result pending id = (pending, id).
Proof.
  intros Hs. unfold rewrite_result. destruct (find_queue pending id) as [[k q]|] eqn:E.
  - apply find_queue_some in E as [Hk _]. by rewrite (Hs _ _ Hk).
  - destruct (pending !! id) as [q|] eqn:Hk; [|done]. by rewrite (Hs _ _ Hk).
Qed.

Lemma calls_loop_distinct (calls : list ToolCall) (s : CallState) :
  NoDup (ids calls) → (∀ i, i ∈ ids calls → i ∉ used s ∧ bindings s !! i = None) →
  self_bound (bindings s) →
  (calls_loop s calls).2 = calls
  ∧ used (calls_loop s calls).1 = used s ∪ list_to_set (ids calls)
  ∧ self_bound (bindings (calls_loop s calls).1)
  ∧ reminted (calls_loop s calls).1 = reminted s.
Proof.
  revert s. induction calls as [|call calls IH]; intros s Hnd Hin Hs; simpl; [set_solver|].
  simpl in Hnd. apply NoDup_cons in Hnd as [Hni Hnd].
  destruct (Hin (call_id call)) as [Hu Hb]; [simpl; set_solver|].
  destruct (normalize_call_cases s call) as [[_ ->]|[? _]]; [|done].
  set (s1 := mkState _ _ _ _ _). destruct (IH s1) as (H1 & H2 & H3 & H4); [done|..].
  - intros i Hi. destruct (Hin i) as [? ?]; [simpl; set_solver|].
    assert (call_id call ≠ i) by congruence. unfold s1, push_back. simpl.
    split; [set_solver|]. by rewrite lookup_insert_ne.
  - intros k q. unfold s1, push_back. simpl. rewrite Hb. simpl.
    intros [[<- <-]|[? ?]]%lookup_insert_Some; [done|by apply Hs].
  - destruct (calls_loop s1 calls) as [s' calls']. simpl in *. subst. rewrite H2, H4.
    split_and!; [done|set_solver|done..].
Qed.

Lemma with_id_same (r : ToolResultItem) : with_id r (tool_call_id r) = r.
Proof. by destruct r. Qed.

Lemma repair_go_distinct (items : list ConversationItem) (u rs : gset bytes) (pending : Bindings) :
  NoDup (call_id_list items) → (∀ i, i ∈ call_id_list items → i ∉ u) → self_bound pending →
  repair_go u rs pending items = (0, items).
Proof.
  assert (self_bound ∅) as Hself by (intros k q; by rewrite lookup_empty).
  revert u rs pending. induction items as [|item items IH]; intros u rs pending Hnd Hin Hs; [done|].
  unfold call_id_list in Hnd, Hin. simpl in Hnd, Hin. apply NoDup_app in Hnd as (Hnd1 & Hdis & Hnd).
  destruct item as [x|x|a|r|x|x]; simpl;
    try (rewrite IH by (done || (intros; apply Hin; set_solver)); done).
  - destruct (calls_loop_distinct (tool_calls a) (mkState u rs ∅ 0 1)) as (H1 & H2 & H3 & H4); [done|..|done|].
    { intros i Hi. split; [|apply lookup_empty]. apply Hin. simpl. set_solver. }
    destruct (calls_loop _ _) as [s' calls']. simpl in *. subst. rewrite IH; [|done| |done].
    + by rewrite H4; destruct a.
    + intros i Hi. rewrite H2. specialize (Hin i). specialize (Hdis i). unfold ids. set_solver.
  - rewrite rewrite_result_self by done. rewrite IH by (done || (intros; apply Hin; set_solver)).
    by rewrite with_id_same.
Qed.

Lemma repair_fixed (items : list ConversationItem) :
  NoDup (call_id_list items) → repair_tool_call_ids items = (0, items).
Proof.
  intros Hl. unfold repair_tool_call_ids. apply repair_go_distinct; [done|set_solver|].
  intros k q. by rewrite lookup_empty.
Qed.

(** A history whose calls have distinct identifiers is left as it is, so
    running the repair a second time changes nothing and counts nothing. *)
Theorem repair_idempotent (items : list ConversationItem) :
  (NoDup (call_id_list items) → repair_tool_call_ids items = (0, items))
  ∧ (let '(_, items') := repair_tool_call_ids items in repair_tool_call_ids items' = (0, items')).
Proof.
  split; [apply repair_fixed|]. pose proof (repair_facts items) as H.
  destruct (repair_tool_call_ids items). by apply repair_fixed, H.
Qed.

(** ** Pairing of calls and results *)

(** The second components of the pairs with key [k], in order. *)
Definition queue_of (pairs : list (bytes * bytes)) (k : bytes) : list bytes :=
  map snd (List.filter (fun p => p.1 =b k) pairs).

(** The queue [pending] holds for [k]; an absent and an empty one behave alike. *)
Definition queue_at (pending : Bindings) (k : bytes) : list bytes := default [] (pending !! k).

Lemma queue_of_cons (o i k : bytes) (pairs : list (bytes * bytes)) :
  queue_of ((o, i) :: pairs) k = (if o =b k then [i] else []) ++ queue_of pairs k.
Proof. unfold queue_of. simpl. by destruct (o =b k). Qed.

Lemma push_back_at (b : Bindings) (o i k : bytes) :
  queue_at (push_back b o i) k = queue_at b k ++ (if o =b k then [i] else []).
Proof.
  unfold queue_at, push_back. destruct (o =b k) eqn:E; bool_prop.
  - by rewrite E, lookup_insert_eq.
  - rewrite lookup_insert_ne by done. by rewrite app_nil_r.
Qed.

Lemma calls_loop_bindings (calls : list ToolCall) (s : CallState) (k : bytes) :
  queue_at (bindings (calls_loop s calls).1) k
  = queue_at (bindings s) k ++ queue_of (zip (ids calls) (ids (calls_loop s calls).2)) k.
Proof.
  revert s. induction calls as [|call calls IH]; intros s; simpl; [by rewrite app_nil_r|].
  destruct (normalize_call_cases s call) as [[_ ->]|(_ & c & n & _ & ->)];
    set (s1 := mkState _ _ _ _ _); specialize (IH s1); destruct (calls_loop s1 calls); simpl in *;
    rewrite IH, queue_of_cons, app_assoc; f_equal; apply push_back_at.
Qed.

(** A queue for [k] in which only the front may be an identifier of the history,
    and then it is [k] itself. *)
Definition queue_ok (R : gset bytes) (k : bytes) (q : list bytes) : Prop :=
  match q with
  | [] => True
  | c :: minted => (c = k ∨ c ∉ R) ∧ ∀ m, m ∈ minted → m ∉ R
  end.

Lemma queue_ok_all_minted (R : gset bytes) (k : bytes) (q : list bytes) :
  (∀ m, m ∈ q → m ∉ R) → queue_ok R k q.
Proof. destruct q; simpl; [done|]. intros H. split; [right|]; intros; apply H; set_solver. Qed.

Lemma calls_loop_minted (calls : list ToolCall) (s : CallState) (k : bytes) :
  k ∈ used s →
  ∀ m, m ∈ queue_of (zip (ids calls) (ids (calls_loop s calls).2)) k → m ∉ reserved s.
Proof.
  revert s. induction calls as [|call calls IH]; intros s Hk m; simpl; [set_solver|].
  destruct (normalize_call_cases s call) as [[Hu ->]|(Hu & c & n & Hc & ->)];
    set (s1 := mkState _ _ _ _ _); specialize (IH s1); destruct (calls_loop s1 calls); simpl in *;
    rewrite queue_of_cons; intros [Hm|Hm]%elem_of_app.
  - destruct (_ =b _) eqn:E; [|set_solver]. bool_prop. by subst.
  - apply IH; [set_solver|done].
  - destruct (_ =b _); set_solver.
  - assert (m ∉ {[c]} ∪ reserved s) by (apply IH; [set_solver|done]). set_solver.
Qed.

Lemma calls_loop_queue_ok (calls : list ToolCall) (s : CallState) (k : bytes) :
  queue_ok (reserved s) k (queue_of (zip (ids calls) (ids (calls_loop s calls).2)) k).
Proof.
  revert s. induction calls as [|call calls IH]; intros s; [done|]. simpl.
  destruct (normalize_call_cases s call) as [[Hu E1]|(Hu & c & n & Hc & E1)]; rewrite E1;
    set (s1 := mkState _ _ _ _ _); specialize (IH s1);
    pose proof (calls_loop_minted calls s1 k) as Hm;
    destruct (calls_loop s1 calls); simpl in *; rewrite queue_of_cons; destruct (_ =b k) eqn:E;
    bool_prop; simpl.
  - subst k. split; [by left|]. apply Hm. set_solver.
  - done.
  - subst k. split; [by right|]. intros m Hin. assert (m ∉ {[c]} ∪ reserved s); set_solver.
  - destruct (queue_of _ k); simpl in *; set_solver.
Qed.

(** What is left of a queue after a result was joined to it: the final binding
    stays. *)
Definition next_queue (q : list bytes) : list bytes := if 1 <? length q then tl q else q.

Lemma next_queue_ok (R : gset bytes) (k : bytes) (q : list bytes) : queue_ok R k q → queue_ok R k (next_queue q).
Proof.
  unfold next_queue. destruct (1 <? length q); [|done]. destruct q as [|c q]; [done|].
  simpl. intros [_ Hm]. by apply queue_ok_all_minted.
Qed.

Lemma queue_at_some (pending : Bindings) (k : bytes) (q : list bytes) :
  pending !! k = Some q → queue_at pending k = q.
Proof. unfold queue_at. by intros ->. Qed.

(** At most one queue holds an identifier of the history: its own. *)
Lemma found_queue_unique (R : gset bytes) (pending : Bindings) (r k : bytes) (q : list bytes) :
  (∀ k, queue_ok R k (queue_at pending k)) → r ∈ R →
  pending !! k = Some q → r ∈ q → k = r ∧ ∃ q', q = r :: q'.
Proof.
  intros Hq Hr Hk Hin. specialize (Hq k). rewrite (queue_at_some _ _ _ Hk) in Hq.
  destruct q as [|c q]; [set_solver|]. destruct Hq as [Hc Hm].
  apply elem_of_cons in Hin as [->|Hin]; [|by destruct (Hm _ Hin)].
  destruct Hc as [->|?]; [by eauto|done].
Qed.

Lemma queue_at_insert (pending : Bindings) (r k : bytes) (q : list bytes) :
  queue_at (<[r := q]> pending) k = if k =b r then q else queue_at pending k.
Proof.
  unfold queue_at. destruct (k =b r) eqn:E; bool_prop.
  - by rewrite E, lookup_insert_eq.
  - by rewrite lookup_insert_ne.
Qed.

Lemma queue_at_same (pending : Bindings) (r k : bytes) :
  next_queue (queue_at pending r) = queue_at pending r →
  queue_at pending k = if k =b r then next_queue (queue_at pending r) else queue_at pending k.
Proof. intros ->. destruct (k =b r) eqn:E; bool_prop; by subst. Qed.

Lemma rewrite_result_spec (R : gset bytes) (pending : Bindings) (r : bytes) :
  (∀ k, queue_ok R k (queue_at pending k)) → r ∈ R →
  (rewrite_result pending r).2 = default r (head (queue_at pending r))
  ∧ ∀ k, queue_at (rewrite_result pending r).1 k
         = if k =b r then next_queue (queue_at pending r) else queue_at pending k.
Proof.
  intros Hq Hr. unfold rewrite_result. destruct (find_queue pending r) as [[k q]|] eqn:E.
  - apply find_queue_some in E as [Hk Hin].
    destruct (found_queue_unique R pending r k q) as [-> (q' & ->)]; [done..|].
    rewrite (queue_at_some _ _ _ Hk). destruct (1 <? length (r :: q')) eqn:El; simpl.
    + split; [done|]. intros k. rewrite queue_at_insert. unfold next_queue, remove_position. rewrite El. simpl.
      by rewrite decide_True.
    + split; [done|]. intros k. rewrite <-(queue_at_some _ _ _ Hk). apply queue_at_same.
      rewrite (queue_at_some _ _ _ Hk). unfold next_queue. by rewrite El.
  - destruct (pending !! r) as [[|c q]|] eqn:Hk; simpl.
    + rewrite (queue_at_some _ _ _ Hk). split; [done|]. intros k. rewrite <-(queue_at_some _ _ _ Hk).
      apply queue_at_same. by rewrite (queue_at_some _ _ _ Hk).
    + rewrite (queue_at_some _ _ _ Hk). destruct (1 <? length (c :: q)) eqn:El; simpl in El; rewrite ?El; simpl.
      * split; [done|]. intros k. rewrite queue_at_insert. unfold next_queue. simpl. by rewrite El.
      * split; [done|]. intros k. rewrite <-(queue_at_some _ _ _ Hk). apply queue_at_same.
        rewrite (queue_at_some _ _ _ Hk). unfold next_queue. simpl. by rewrite El.
    + unfold queue_at at 1. rewrite Hk. split; [done|]. intros k. apply queue_at_same.
      unfold queue_at. by rewrite Hk.
Qed.

(** Consecutive results. *)
Fixpoint results_loop (pending : Bindings) (rs : list bytes) : Bindings * list bytes :=
  match rs with
  | [] => (pending, [])
  | r :: rs =>
      let '(pending, r) := rewrite_result pending r in
      let '(pending, rs) := results_loop pending rs in
      (pending, r :: rs)
  end.

Definition count (k : bytes) (l : list bytes) : nat := length (List.filter (fun x => x =b k) l).

Lemma queue_of_length (os js : list bytes) (k : bytes) :
  length os ≤ length js → count k os ≤ length (queue_of (zip os js) k).
Proof.
  revert js. induction os as [|o os IH]; intros [|j js] Hl; simpl in Hl; try lia; [unfold count; simpl; lia..|].
  simpl. rewrite queue_of_cons. specialize (IH js). unfold count in *. simpl.
  destruct (o =b k); simpl; lia.
Qed.

Lemma map_snd_zip (os js : list bytes) : length js ≤ length os → map snd (zip os js) = js.
Proof.
  revert js. induction os as [|o os IH]; intros [|j js] Hl; simpl in *; try done; [lia|].
  rewrite IH by lia. done.
Qed.

(** The i-th result for an identifier is joined to the i-th call that bore it. *)
Lemma results_loop_spec (R : gset bytes) (rs : list bytes) (pending : Bindings) (k : bytes) :
  (∀ k, queue_ok R k (queue_at pending k)) → (∀ r, r ∈ rs → r ∈ R) →
  count k rs ≤ length (queue_at pending k) →
  queue_of (zip rs (results_loop pending rs).2) k = take (count k rs) (queue_at pending k).
Proof.
  revert pending. induction rs as [|r rs IH]; intros pending Hq Hin Hc; [done|].
  destruct (rewrite_result_spec R pending r) as [Hr Hnext]; [done|apply Hin; set_solver|]. simpl.
  destruct (rewrite_result pending r) as [pending' r'] eqn:E. simpl in Hr, Hnext. subst r'.
  specialize (IH pending'). destruct (results_loop pending' rs) as [p2 rs']. simpl in *.
  assert (∀ k, queue_ok R k (queue_at pending' k)) as Hq'.
  { intros k'. rewrite Hnext. destruct (k' =b r) eqn:Ek; [|done]. bool_prop. subst. by apply next_queue_ok. }
  assert (∀ r, r ∈ rs → r ∈ R) as Hin' by (intros; apply Hin; set_solver).
  rewrite queue_of_cons. unfold count in *. simpl in *. specialize (IH Hq' Hin'). rewrite (Hnext k) in IH.
  destruct (r =b k) eqn:Er; bool_prop.
  - subst r. rewrite beq_refl in IH. simpl in Hc |- *. destruct (queue_at pending k) as [|c q]; [simpl in Hc; lia|].
    simpl in Hc |- *. unfold next_queue in IH. simpl in IH. destruct q as [|c' q]; simpl in *.
    + destruct (List.filter _ rs); simpl in *; [|lia]. f_equal. rewrite IH; [done|lia].
    + f_equal. apply IH. lia.
  - destruct (k =b r) eqn:Ek; bool_prop; [by subst|]. apply IH. lia.
Qed.

Lemma queues_submseteq (p q : list (bytes * bytes)) :
  (∀ k, queue_of p k ⊆+ queue_of q k) → map snd p ⊆+ map snd q.
Proof.
  revert q. induction p as [|[k c] p IH]; intros q H; [apply submseteq_nil_l|].
  assert ((k, c) ∈ q) as Hin.
  { assert (c ∈ queue_of q k) as Hc.
    { eapply elem_of_submseteq; [|apply H]. rewrite queue_of_cons, beq_refl. set_solver. }
    unfold queue_of in Hc. apply list_elem_of_fmap in Hc as ([k' c'] & -> & Hf).
    apply list_elem_of_In, filter_In in Hf as [Hf Hk]. simpl in Hk. bool_prop. subst.
    by apply list_elem_of_In. }
  apply list_elem_of_split in Hin as (q1 & q2 & ->).
  assert (map snd (q1 ++ (k, c) :: q2) ≡ₚ c :: map snd (q1 ++ q2)) as ->.
  { rewrite !map_app. simpl. by rewrite <-Permutation_middle. }
  apply submseteq_skip, IH. intros k'. specialize (H k').
  assert (queue_of (q1 ++ (k, c) :: q2) k' ≡ₚ (if k =b k' then [c] else []) ++ queue_of (q1 ++ q2) k') as Hq.
  { unfold queue_of. rewrite !List.filter_app, !map_app. simpl. destruct (k =b k'); simpl; [|done].
    by rewrite <-Permutation_middle. }
  rewrite Hq, queue_of_cons in H. by apply submseteq_app_inv_l in H.
Qed.

Lemma repair_go_app (pre : list ConversationItem) (u rs : gset bytes) (pending : Bindings) :
  u ⊆ rs → (∀ i, i ∈ call_id_list pre → i ∈ rs) →
  ∃ u' rs' pending' n pre', u' ⊆ rs' ∧ rs ⊆ rs' ∧ length pre' = length pre
    ∧ ∀ rest, repair_go u rs pending (pre ++ rest)
              = (n + (repair_go u' rs' pending' rest).1, pre' ++ (repair_go u' rs' pending' rest).2).
Proof.
  revert u rs pending. induction pre as [|item pre IH]; intros u rs pending Hw Hin.
  { exists u, rs, pending, 0, []. split_and!; try done. intros rest. simpl. by destruct (repair_go _ _ _ _). }
  assert (∃ u1 rs1 p1 n1 item1, repair_item u rs pending item = (u1, rs1, p1, n1, item1)
            ∧ u1 ⊆ rs1 ∧ rs ⊆ rs1) as (u1 & rs1 & p1 & n1 & item1 & E & Hw1 & Hr1).
  { unfold call_id_list in Hin. simpl in Hin. destruct item as [x|x|a|r|x|x]; simpl; try by eauto 10.
    - pose proof (calls_loop_facts (tool_calls a) (mkState u rs ∅ 0 1) Hw) as Hc.
      destruct (calls_loop _ _) as [s' calls']. eexists _, _, _, _, _. split; [done|].
      destruct Hc; [|done]. intros i Hi. apply Hin. simpl. set_solver.
    - destruct (rewrite_result _ _). eauto 10. }
  destruct (IH u1 rs1 p1 Hw1) as (u' & rs' & p' & n & pre' & Hw' & Hr' & Hl & Hrest).
  { intros i Hi. apply Hr1, Hin. unfold call_id_list in *. simpl. set_solver. }
  exists u', rs', p', (n1 + n), (item1 :: pre'). split_and!; [done|set_solver|simpl; lia|].
  intros rest. simpl. rewrite E, Hrest. simpl. f_equal. lia.
Qed.

Lemma repair_go_results (u rs : gset bytes) (res : list ToolResultItem) (pending : Bindings)
    (post : list ConversationItem) :
  ∃ out, repair_go u rs pending (map IToolResult res ++ post)
  = (out.1, map IToolResult (zip_with with_id res (results_loop pending (map tool_call_id res)).2) ++ out.2).
Proof.
  revert pending. induction res as [|r res IH]; intros pending; simpl; [by eexists; apply surjective_pairing|].
  destruct (rewrite_result _ _) as [p1 id]. destruct (IH p1) as [out Hout].
  destruct (results_loop p1 _) as [p2 ids']. rewrite Hout. by exists out.
Qed.

(** C28: in a history where the results after a batch of calls answer each call at
    most once, the repaired results answer distinct calls of the repaired batch,
    and the i-th result for an identifier answers the i-th call that bore it,
    whatever order the results arrived in. *)
Theorem repair_pairs_results (pre post : list ConversationItem) (a : AssistantItem)
    (res : list ToolResultItem) :
  (∀ k, count k (map tool_call_id res) ≤ count k (ids (tool_calls a))) →
  ∃ n pre' calls' ids' post',
    repair_tool_call_ids (pre ++ IAssistant a :: map IToolResult res ++ post)
    = (n, pre' ++ IAssistant (mkAssistant (assistant_content a) calls' (assistant_meta a))
            :: map IToolResult (zip_with with_id res ids') ++ post')
    ∧ length pre' = length pre ∧ length calls' = length (tool_calls a) ∧ length ids' = length res
    ∧ NoDup (ids calls') ∧ ids' ⊆+ ids calls'
    ∧ ∀ k, queue_of (zip (map tool_call_id res) ids') k
           `prefix_of` queue_of (zip (ids (tool_calls a)) (ids calls')) k.
Proof.
  intros Hcount. set (items := pre ++ _).
  destruct (repair_go_app pre ∅ (all_ids items) ∅) as (u & rs & p & n & pre' & Hw & Hr & Hl & Hrest); [set_solver|..].
  { intros i Hi. apply elem_of_all_ids. left. unfold items, call_id_list. rewrite flat_map_app. set_solver. }
  unfold repair_tool_call_ids. unfold items at 2. rewrite Hrest. clear Hrest. simpl.
  pose proof (calls_loop_facts (tool_calls a) (mkState u rs ∅ 0 1) Hw) as Hf.
  pose proof (λ k, calls_loop_bindings (tool_calls a) (mkState u rs ∅ 0 1) k) as Hb.
  pose proof (λ k, calls_loop_queue_ok (tool_calls a) (mkState u rs ∅ 0 1) k) as Hq.
  destruct (calls_loop _ _) as [s' calls']. simpl in *.
  destruct Hf as [_ _ _ Hnd _ _ _ Hf2 _].
  { intros i Hi. apply Hr, elem_of_all_ids. left. unfold items, call_id_list. rewrite flat_map_app. simpl. set_solver. }
  apply Forall2_length in Hf2.
  destruct (repair_go_results (used s') (reserved s') res (bindings s') post) as [out ->]. simpl.
  set (ids' := (results_loop _ _).2).
  assert (length ids' = length res) as Hlen.
  { unfold ids'. generalize (bindings s'). clear. induction res as [|r res IH]; intros b; [done|]. simpl.
    destruct (rewrite_result _ _) as [b' ?]. specialize (IH b'). destruct (results_loop _ _). simpl in *. lia. }
  assert (∀ k, queue_of (zip (map tool_call_id res) ids') k
               `prefix_of` queue_of (zip (ids (tool_calls a)) (ids calls')) k) as Hpre.
  { intros k. assert (queue_at ∅ k = []) as Hnil by (unfold queue_at; by rewrite lookup_empty).
    assert (queue_at (bindings s') k = queue_of (zip (ids (tool_calls a)) (ids calls')) k) as Hbk.
    { rewrite Hb. by rewrite Hnil. }
    rewrite <-Hbk. unfold ids'. rewrite (results_loop_spec rs); [apply prefix_take| | |].
    - intros k'. rewrite Hb. unfold queue_at at 1. rewrite lookup_empty. apply Hq.
    - intros r (x & -> & Hx)%list_elem_of_fmap. apply Hr, elem_of_all_ids. right. exists x. split; [|done].
      unfold items. set_solver.
    - rewrite Hbk. etrans; [apply Hcount|]. apply queue_of_length. unfold ids in *. lia. }
  eexists _, pre', calls', ids', _. split_and!; try done.
  - unfold ids in Hf2. rewrite !length_map in Hf2. lia.
  - assert (map snd (zip (map tool_call_id res) ids') ⊆+ map snd (zip (ids (tool_calls a)) (ids calls'))) as Hs.
    { apply queues_submseteq. intros k. destruct (Hpre k) as [tail ->]. by apply submseteq_inserts_r. }
    by rewrite !map_snd_zip in Hs by (unfold ids in *; rewrite ?length_map in *; lia).
Qed.

(** ** Ingest *)

Lemma elem_queue_of (os js : list bytes) (i : bytes) :
  length os = length js → i ∈ js → ∃ o, i ∈ queue_of (zip os js) o.
Proof.
  revert js. induction os as [|o os IH]; intros [|j js] Hl Hi; simpl in Hl; try lia; [set_solver|].
  simpl. apply elem_of_cons in Hi as [->|Hi].
  - exists o. rewrite queue_of_cons, beq_refl. set_solver.
  - destruct (IH js) as [o' Ho']; [lia|done|]. exists o'. rewrite queue_of_cons. set_solver.
Qed.

Lemma ingest_assistant (pending : Bindings) (history : list ConversationItem) (a : AssistantItem) :
  ∃ s' calls',
    calls_loop (mkState (call_ids history) (all_ids history ∪ all_ids [IAssistant a]) ∅ 0 1) (tool_calls a)
    = (s', calls')
    ∧ ingest_normalize pending history (IAssistant a)
      = (bindings s', IAssistant (mkAssistant (assistant_content a) calls' (assistant_meta a)))
    ∧ loop_facts (mkState (call_ids history) (all_ids history ∪ all_ids [IAssistant a]) ∅ 0 1)
        (tool_calls a) s' calls'.
Proof.
  pose proof (calls_loop_facts (tool_calls a)
    (mkState (call_ids history) (all_ids history ∪ all_ids [IAssistant a]) ∅ 0 1)) as Hf.
  destruct (calls_loop _ _) as [s' calls'] eqn:E. exists s', calls'. split_and!; try done.
  - unfold ingest_normalize, normalize_calls. by rewrite E.
  - apply Hf; cbn [used reserved].
    + intros i Hi. apply elem_of_union_l, elem_of_all_ids. left. unfold call_ids in Hi. set_solver.
    + intros i Hi. apply elem_of_union_r, elem_of_all_ids. left. unfold call_id_list. simpl.
      by rewrite app_nil_r.
Qed.

Lemma call_id_list_app (l k : list ConversationItem) :
  call_id_list (l ++ k) = call_id_list l ++ call_id_list k.
Proof. apply flat_map_app. Qed.

Lemma ingest_item_unique (pending : Bindings) (history : list ConversationItem) (item : ConversationItem) :
  NoDup (call_id_list history) →
  NoDup (call_id_list (history ++ [(ingest_normalize pending history item).2])).
Proof.
  intros Hnd. rewrite call_id_list_app.
  destruct item as [x|x|a|r|x|x]; try (simpl; by rewrite app_nil_r).
  - destruct (ingest_assistant pending history a) as (s' & calls' & _ & -> & []).
    unfold call_id_list at 2. simpl in *. rewrite app_nil_r. apply NoDup_app. split_and!; try done.
    intros i Hi Hi'. apply (lf_new0 i Hi'). by apply elem_of_list_to_set.
  - simpl. destruct (rewrite_result _ _). simpl. by rewrite app_nil_r.
Qed.

(** However items arrive, the calls of the ingested history never share an
    identifier. *)
Theorem ingest_unique (pending : Bindings) (history items : list ConversationItem) :
  NoDup (call_id_list history) → NoDup (call_id_list (ingest_all pending history items)).
Proof.
  revert pending history. induction items as [|item items IH]; intros pending history Hnd; [done|]. simpl.
  pose proof (ingest_item_unique pending history item Hnd) as H.
  destruct (ingest_normalize _ _ _). by apply IH.
Qed.

Lemma remove_position_elem (r x : bytes) (q : list bytes) : x ∈ q → x ≠ r → x ∈ remove_position r q.
Proof.
  intros Hx Hne. unfold remove_position. destruct (list_find _ q) as [[i y]|] eqn:E; [|done].
  apply list_find_Some in E as (Hi & -> & _). apply list_elem_of_lookup in Hx as [j Hj].
  rewrite delete_take_drop. apply elem_of_app.
  destruct (decide (j < i)); [left|right]; apply list_elem_of_lookup.
  - exists j. by rewrite lookup_take_lt.
  - assert (j ≠ i) by (intros ->; congruence). exists (j - S i). rewrite lookup_drop.
    by replace (S i + (j - S i)) with j by lia.
Qed.

(** Results that already carry canonical identifiers. *)
Lemma results_loop_canonical (rs : list bytes) (pending : Bindings) :
  NoDup rs → (∀ r, r ∈ rs → ∃ k q, pending !! k = Some q ∧ r ∈ q) → (results_loop pending rs).2 = rs.
Proof.
  revert pending. induction rs as [|r rs IH]; intros pending Hnd Hin; [done|].
  apply NoDup_cons in Hnd as [Hni Hnd]. simpl. unfold rewrite_result.
  destruct (find_queue pending r) as [[k q]|] eqn:E.
  - apply find_queue_some in E as [Hk Hr]. destruct (1 <? length q).
    + specialize (IH (<[k:=remove_position r q]> pending) Hnd).
      destruct (results_loop _ _) as [p2 rs']. simpl in *. rewrite IH; [done|].
      intros r' Hr'. destruct (Hin r') as (k' & q' & Hk' & Hq'); [set_solver|].
      destruct (decide (k = k')) as [<-|Hne].
      * exists k, (remove_position r q). rewrite lookup_insert_eq. split; [done|].
        apply remove_position_elem; [congruence|]. by intros ->.
      * exists k', q'. by rewrite lookup_insert_ne.
    + specialize (IH pending Hnd). destruct (results_loop _ _). simpl in *. rewrite IH; [done|].
      intros r' Hr'. apply Hin. set_solver.
  - destruct (Hin r) as (k & q & Hk & Hq); [set_solver|].
    by destruct (find_queue_none _ _ _ _ E Hk).
Qed.

Lemma ingest_all_results (res : list ToolResultItem) (pending : Bindings) (history : list ConversationItem) :
  ingest_all pending history (map IToolResult res)
  = history ++ map IToolResult (zip_with with_id res (results_loop pending (map tool_call_id res)).2).
Proof.
  revert pending history. induction res as [|r res IH]; intros pending history; simpl; [by rewrite app_nil_r|].
  destruct (rewrite_result _ _) as [p1 id]. rewrite IH. destruct (results_loop _ _). simpl.
  by rewrite <-app_assoc.
Qed.

Lemma with_ids_same (res : list ToolResultItem) : zip_with with_id res (map tool_call_id res) = res.
Proof. induction res as [|r res IH]; simpl; [done|]. by rewrite IH, with_id_same. Qed.

(** Results that name the calls as they were acknowledged, in any order and
    each once, are recorded unchanged. *)
Theorem ingest_acknowledged (pending : Bindings) (history : list ConversationItem) (a a' : AssistantItem)
    (res : list ToolResultItem) :
  (ingest_normalize pending history (IAssistant a)).2 = IAssistant a' →
  NoDup (map tool_call_id res) → (∀ r, r ∈ res → tool_call_id r ∈ ids (tool_calls a')) →
  ingest_all pending history (IAssistant a :: map IToolResult res)
  = history ++ IAssistant a' :: map IToolResult res.
Proof.
  intros Ha Hnd Hin. destruct (ingest_assistant pending history a) as (s' & calls' & Hloop & Heq & Hf).
  rewrite Heq in Ha. simpl in Ha. injection Ha as <-. simpl in Hin.
  assert (ingest_all pending history (IAssistant a :: map IToolResult res)
          = ingest_all (bindings s')
              (history ++ [IAssistant (mkAssistant (assistant_content a) calls' (assistant_meta a))])
              (map IToolResult res)) as ->.
  { unfold ingest_all at 1. fold (ingest_all). by rewrite Heq. }
  rewrite ingest_all_results, results_loop_canonical; [by rewrite with_ids_same, <-app_assoc|done|].
  intros i (r & -> & Hr)%list_elem_of_fmap. specialize (Hin r Hr).
  assert (length (ids (tool_calls a)) = length (ids calls')) as Hlen by (destruct Hf as [_ _ _ _ _ _ _ H _]; by apply Forall2_length in H).
  destruct (elem_queue_of _ _ _ Hlen Hin) as [k Hk].
  pose proof (calls_loop_bindings (tool_calls a)
    (mkState (call_ids history) (all_ids history ∪ all_ids [IAssistant a]) ∅ 0 1) k) as Hb.
  rewrite Hloop in Hb. cbn [fst snd bindings] in Hb.
  unfold queue_at at 2 in Hb. rewrite lookup_empty in Hb. simpl in Hb. rewrite <-Hb in Hk.
  unfold queue_at in Hk. destruct (bindings s' !! k) as [q|] eqn:E; [by eauto|]. simpl in Hk. set_solver.
Qed.

End ToolCallIds.

(** ** A history with colliding batches *)

Abbreviation unit_item := (@ConversationItem unit unit unit unit unit unit).

Definition call_named (id : bytes) : ToolCall := mkCall id $"tool" $"{}".
Definition batch (l : list string) : @AssistantItem unit := mkAssistant [] (map (fun s => call_named $s) l) tt.
Definition result_for (id content : string) : @ToolResultItem unit := mkResult $id $content [].

Definition first_turn : list unit_item :=
  [IAssistant (batch ["a"; "b"]); IToolResult (result_for "b" "first b");
   IToolResult (result_for "a" "first a"); IUser tt].

Definition second_results : list (@ToolResultItem unit) :=
  [result_for "b" "second b"; result_for "unique" "unique result"; result_for "a" "second a"].

Definition second_batch : AssistantItem := batch ["a"; "b"; "unique"].

(** The repair of it: two calls renamed, their results with them. *)
Example repair_history :
  let '(n, items) := repair_tool_call_ids (first_turn ++ IAssistant second_batch :: map IToolResult second_results) in
  n = 2 ∧ call_id_list items = map (fun s => $s) ["a"; "b"; "call_amore_1"; "call_amore_2"; "unique"]%string
  ∧ items !! 5 = Some (IToolResult (result_for "call_amore_2" "second b"))
  ∧ items !! 7 = Some (IToolResult (result_for "call_amore_1" "second a")).
Proof. by vm_compute. Qed.

Lemma second_results_count (k : bytes) :
  count k (map tool_call_id second_results) ≤ count k (ids (tool_calls second_batch)).
Proof.
  unfold count. simpl. repeat (destruct (_ =b k); simpl); lia.
Qed.

Lemma repair_pairs_results_witness :
  ∃ n pre' calls' ids' post',
    repair_tool_call_ids (first_turn ++ IAssistant second_batch :: map IToolResult second_results ++ [])
    = (n, pre' ++ IAssistant (mkAssistant (assistant_content second_batch) calls' (assistant_meta second_batch))
            :: map IToolResult (zip_with with_id second_results ids') ++ post')
    ∧ ids' ⊆+ ids calls'.
Proof.
  destruct (repair_pairs_results first_turn [] second_batch second_results second_results_count)
    as (n & pre' & calls' & ids' & post' & H & _ & _ & _ & _ & Hs & _).
  exists n, pre', calls', ids', post'. exact (conj H Hs).
Defined.

Lemma ingest_unique_witness :
  NoDup (call_id_list (ingest_all ∅ first_turn (IAssistant second_batch :: map IToolResult second_results))).
Proof.
  apply ingest_unique. apply (bool_decide_unpack _). by vm_compute.
Defined.

Definition acknowledged_batch : @AssistantItem unit := batch ["call_amore_1"; "call_amore_2"; "unique"].

Definition acknowledged_results : list (@ToolResultItem unit) :=
  [result_for "call_amore_2" "second b"; result_for "unique" "unique result"].

Lemma ingest_acknowledged_witness :
  ingest_all ∅ first_turn (IAssistant second_batch :: map IToolResult acknowledged_results)
  = first_turn ++ IAssistant acknowledged_batch :: map IToolResult acknowledged_results.
Proof.
  apply ingest_acknowledged.
  - by vm_compute.
  - apply (bool_decide_unpack _). by vm_compute.
  - intros r Hr. apply (bool_decide_unpack _). unfold acknowledged_results in Hr.
    repeat (apply elem_of_cons in Hr as [->|Hr]; [by vm_compute|]). by apply elem_of_nil in Hr.
Defined.
