(* ===== verification/History.v ===== *)
(** * Conversation items and the repair of chat histories

    [sampling-types/src/conversation.rs]: the items of a chat history with their
    fields, their constructors and text.  The payloads of backend calls and of
    reasoning items come from the API bindings and are parameters, with the texts the
    code takes from them.

    The providers refuse a history in which a tool result does not follow the
    call it answers, a call has two results, or a call has none.
    [sampling-types/src/conversation.rs] removes duplicate results and answers
    dangling calls; [xai-chat-state/src/compaction_utils.rs] composes these with
    the identifier repair and the removal of displaced results
    ([repair_history]), and checks and sanitizes compacted histories. *)

From S2P Require Import Prelude RustStr ToolCallIds.

#[local] Open Scope nat_scope.

(** ** Items *)

Inductive ContentPart := Text (text : bytes) | Image (url : bytes).

Inductive SyntheticReason :=
| Human | Primary | CompactionMeta | SystemReminder | LengthContinue | ProjectInstructions
| AutoContinue | AutoRecovery | Interjection | AgentMessage | TaskCompleted | SubagentCompleted
| NotificationDrain | GoalSummary | GoalClassifierNudge | SchedulerFired | StopHookFeedback
| WorkingDirectorySwitch | ParentHumanMessage | SessionPrefix | DirectBash | GoalSetup | Unknown.

#[export] Instance SyntheticReason_eq_dec : EqDecision SyntheticReason.
Proof. solve_decision. Defined.

Definition is_human (r : SyntheticReason) : bool := bool_decide (r = Human).
Definition is_primary (r : SyntheticReason) : bool := bool_decide (r = Primary).

Definition starts_prompt_turn (r : SyntheticReason) : bool :=
  match r with
  | Human | AgentMessage | ParentHumanMessage | DirectBash | GoalSetup | Unknown | TaskCompleted
  | SubagentCompleted | NotificationDrain | GoalClassifierNudge | SchedulerFired => true
  | Primary | SessionPrefix | CompactionMeta | SystemReminder | LengthContinue | ProjectInstructions
  | AutoContinue | AutoRecovery | Interjection | GoalSummary | StopHookFeedback
  | WorkingDirectorySwitch => false
  end.

Inductive PriorTurnInterrupt := MidTurnAbort | PermissionRejected | PermissionCancelled | UnknownInterrupt.

Record SystemItem := mkSystem { system_content : bytes; system_reason : SyntheticReason }.

Record UserItem := mkUser {
  user_content : list ContentPart;
  synthetic_reason : SyntheticReason;
  user_cwd_generation : option N;
  prior_turn_interrupt : option PriorTurnInterrupt;
  user_prompt_index : option nat;
}.

#[export] Instance ContentPart_eq_dec : EqDecision ContentPart.
Proof. solve_decision. Defined.

(** Payloads this code does not build: the model metadata of an assistant item,
    backend tool calls ([text_summary]) and reasoning items
    ([reasoning_item_text], [encrypted_content]). *)
Class Payloads := {
  AssistantMeta : Type;
  Backend : Type;
  Reasoning : Type;
  text_summary : Backend → bytes;
  reasoning_item_text : Reasoning → bytes;
  encrypted_content : Reasoning → option bytes;
}.

Section Conversation.
Context `{Payloads}.

Abbreviation Item := (@ConversationItem SystemItem UserItem AssistantMeta ContentPart Backend Reasoning).
Abbreviation ToolResult := (@ToolResultItem ContentPart).
Abbreviation Assistant := (@AssistantItem AssistantMeta).

(** ** Constructors *)

Definition system (content : bytes) : Item := ISystem (mkSystem content Primary).

Definition user_with_parts (parts : list ContentPart) : Item := IUser (mkUser parts Human None None None).

Definition user_text (reason : SyntheticReason) (content : bytes) : Item :=
  IUser (mkUser [Text content] reason None None None).

Definition user (content : bytes) : Item := user_text Human content.
Definition user_meta (content : bytes) : Item := user_text CompactionMeta content.
Definition system_reminder (content : bytes) : Item := user_text SystemReminder content.
Definition length_continue_reminder (content : bytes) : Item := user_text LengthContinue content.
Definition project_instructions (content : bytes) : Item := user_text ProjectInstructions content.

Definition working_directory_switch (content : bytes) (generation : N) : Item :=
  IUser (mkUser [Text content] WorkingDirectorySwitch (Some generation) None None).

Definition working_directory_switch_generation (item : Item) : option N :=
  match item with
  | IUser u => if bool_decide (synthetic_reason u = WorkingDirectorySwitch) then user_cwd_generation u else None
  | _ => None
  end.

Definition tool_result (id content : bytes) : Item := IToolResult (mkResult id content []).

(** ** Text *)

Definition part_text (p : ContentPart) : option bytes :=
  match p with Text t => Some t | Image _ => None end.

Definition is_image (p : ContentPart) : bool := match p with Image _ => true | Text _ => false end.

Definition text_content (item : Item) : bytes :=
  match item with
  | ISystem s => system_content s
  | IUser u => join $(String.String (ascii_of_nat 10) String.EmptyString) (omap part_text (user_content u))
  | IAssistant a => assistant_content a
  | IToolResult t => result_content t
  | IBackendToolCall b => text_summary b
  | IReasoning r => reasoning_item_text r
  end.

(** ** Kinds *)

Definition is_result (item : Item) : bool := match item with IToolResult _ => true | _ => false end.
Definition is_user (item : Item) : bool := match item with IUser _ => true | _ => false end.
Definition is_system (item : Item) : bool := match item with ISystem _ => true | _ => false end.

(** [Assistant(a) if !a.tool_calls.is_empty()] *)
Definition is_calling (item : Item) : bool :=
  match item with IAssistant a => negb (bool_decide (length (tool_calls a) = 0)) | _ => false end.

(** The tool results a list starts with, and the rest: the inner loops that
    advance while the item is a [ToolResult]. *)
Fixpoint result_run (items : list Item) : list ToolResult * list Item :=
  match items with
  | IToolResult r :: rest => let '(run, tail) := result_run rest in (r :: run, tail)
  | _ => ([], items)
  end.

End Conversation.

Abbreviation Item := (@ConversationItem SystemItem UserItem AssistantMeta ContentPart Backend Reasoning).
Abbreviation ToolResult := (@ToolResultItem ContentPart).
Abbreviation Assistant := (@AssistantItem AssistantMeta).




Section History.
Context `{Payloads}.

(** ** Duplicate results: [dedup_duplicate_tool_results] *)

(** The scan of one run: [seen] holds the last position of every identifier, and
    the position it replaces is the one to remove. *)
Fixpoint duplicate_positions (seen : gmap bytes nat) (idx : nat) (run : list ToolResult) : list nat :=
  match run with
  | [] => []
  | r :: rest =>
      option_list (seen !! tool_call_id r)
      ++ duplicate_positions (<[tool_call_id r := idx]> seen) (S idx) rest
  end.

(** Sorted, then removed from the highest position down. *)
Definition remove_positions {A} (to_remove : list nat) (l : list A) : list A :=
  foldr (fun p l => delete p l) l (sort_by_key id to_remove).

(** The [while] loop.  It goes on with a shorter list in every round, also when
    it scans a run again ([dedup_go_fuel]). *)
Fixpoint dedup_go (fuel : nat) (items : list Item) : nat * list Item :=
  match fuel with
  | O => (0, items)
  | S fuel =>
      match items with
      | [] => (0, [])
      | item :: rest =>
          if is_calling item then
            let '(run, tail) := result_run rest in
            let to_remove := duplicate_positions ∅ 0 run in
            if bool_decide (length to_remove = 0) then
              let '(n, tail) := dedup_go fuel tail in (n, item :: map IToolResult run ++ tail)
            else
              let '(n, items) := dedup_go fuel (item :: remove_positions to_remove rest) in
              (length to_remove + n, items)
          else let '(n, rest) := dedup_go fuel rest in (n, item :: rest)
      end
  end.

Definition dedup_duplicate_tool_results (items : list Item) : nat * list Item :=
  dedup_go (S (length items)) items.

(** ** Dangling calls: [repair_dangling_tool_calls_with] *)

Inductive DanglingToolCallReason := UserCancelled | HarnessHalted (class : bytes).

Definition synthetic_dangling_result_text (name : bytes) (reason : DanglingToolCallReason) : bytes :=
  match reason with
  | UserCancelled =>
      $"Tool execution was cancelled by the user (tool `" ++ name ++ $"` was not executed)."
  | HarnessHalted class =>
      $"Tool execution was halted by the harness (" ++ class ++ $"); the tool `" ++ name
      ++ $"` was not executed."
  end.

Definition unanswered (a : Assistant) (run : list ToolResult) : list ToolCall :=
  let answered : gset bytes := list_to_set (map tool_call_id run) in
  List.filter (fun c => negb (bool_decide (call_id c ∈ answered))) (tool_calls a).

(** [resolve] is an [FnMut]: it threads a state. *)
Section Resolve.
Context {S : Type} (resolve : S → bytes → bytes → S * bytes).

Fixpoint synthesize (s : S) (calls : list ToolCall) : S * list Item :=
  match calls with
  | [] => (s, [])
  | c :: r =>
      let '(s, text) := resolve s (call_id c) (call_name c) in
      let '(s, items) := synthesize s r in
      (s, tool_result (call_id c) text :: items)
  end.

(** Phase 1: where to insert what.  After an assistant item the source goes on
    behind the run of its results; the items it skips are results, at which the
    loop does nothing. *)
Fixpoint dangling_repairs (s : S) (i : nat) (items : list Item) : S * list (nat * list Item) :=
  match items with
  | [] => (s, [])
  | item :: rest =>
      match item with
      | IAssistant a =>
          let run := (result_run rest).1 in
          let '(s, synthetic) := synthesize s (unanswered a run) in
          let '(s, repairs) := dangling_repairs s (i + 1) rest in
          (s, if bool_decide (length synthetic = 0) then repairs
              else (i + 1 + length run, synthetic) :: repairs)
      | _ => dangling_repairs s (i + 1) rest
      end
  end.

(** [splice(p..p, synthetic)] *)
Definition splice (repair : nat * list Item) (items : list Item) : list Item :=
  take repair.1 items ++ repair.2 ++ drop repair.1 items.

(** Phase 2 inserts in reverse order. *)
Definition repair_dangling_tool_calls_with (s : S) (items : list Item) : S * nat * list Item :=
  let '(s, repairs) := dangling_repairs s 0 items in
  (s, sum_list (map (fun r => length r.2) repairs), foldr splice items repairs).
End Resolve.

Definition repair_dangling_tool_calls (items : list Item) (reason : DanglingToolCallReason) : nat * list Item :=
  let '(_, n, items) :=
    repair_dangling_tool_calls_with (fun (s : unit) _ name => (s, synthetic_dangling_result_text name reason))
      () items in
  (n, items).

Fixpoint has_dangling_tool_calls (items : list Item) : bool :=
  match items with
  | [] => false
  | item :: rest =>
      match item with
      | IAssistant a => negb (bool_decide (length (unanswered a (result_run rest).1) = 0))
      | _ => false
      end || has_dangling_tool_calls rest
  end.

(** ** Displaced and orphaned results: [compaction_utils.rs] *)

Definition ids_of (a : Assistant) : gset bytes :=
  list_to_set (map call_id (tool_calls a)).

Fixpoint strip_go (run_ids : gset bytes) (items : list Item) : list bytes * list Item :=
  match items with
  | [] => ([], [])
  | item :: rest =>
      match item with
      | IAssistant a => let '(stripped, rest) := strip_go (ids_of a) rest in (stripped, item :: rest)
      | IToolResult r =>
          let '(stripped, rest) := strip_go run_ids rest in
          if bool_decide (tool_call_id r ∈ run_ids) then (stripped, item :: rest)
          else (tool_call_id r :: stripped, rest)
      | _ => let '(stripped, rest) := strip_go ∅ rest in (stripped, item :: rest)
      end
  end.

Definition strip_displaced_tool_results (items : list Item) : list bytes * list Item := strip_go ∅ items.

Fixpoint validate_go (seen_ids : gset bytes) (items : list Item) : list bytes :=
  match items with
  | [] => []
  | IAssistant a :: rest => validate_go (ids_of a ∪ seen_ids) rest
  | IToolResult r :: rest =>
      if bool_decide (tool_call_id r ∈ seen_ids) then validate_go seen_ids rest
      else tool_call_id r :: validate_go seen_ids rest
  | _ :: rest => validate_go seen_ids rest
  end.

Definition validate_compacted_history (items : list Item) : list bytes := validate_go ∅ items.

Fixpoint sanitize_go (seen_ids : gset bytes) (items : list Item) : list bytes * list Item :=
  match items with
  | [] => ([], [])
  | item :: rest =>
      match item with
      | IAssistant a => let '(stripped, rest) := sanitize_go (ids_of a ∪ seen_ids) rest in (stripped, item :: rest)
      | IToolResult r =>
          let '(stripped, rest) := sanitize_go seen_ids rest in
          if bool_decide (tool_call_id r ∈ seen_ids) then (stripped, item :: rest)
          else (tool_call_id r :: stripped, rest)
      | _ => let '(stripped, rest) := sanitize_go seen_ids rest in (stripped, item :: rest)
      end
  end.

Definition sanitize_compacted_history (items : list Item) : list bytes * list Item := sanitize_go ∅ items.

(** ** [repair_history] *)

Record HistoryRepairReport := mkReport {
  tool_call_ids_reminted : nat;
  duplicates_removed : nat;
  stripped_tool_result_ids : list bytes;
  synthetic_results_inserted : nat;
}.

Definition changed (r : HistoryRepairReport) : bool :=
  (0 <? tool_call_ids_reminted r) || (0 <? duplicates_removed r)
  || negb (bool_decide (length (stripped_tool_result_ids r) = 0)) || (0 <? synthetic_results_inserted r).

Definition repair_history (items : list Item) : HistoryRepairReport * list Item :=
  let '(reminted, items) := repair_tool_call_ids items in
  let '(removed, items) := dedup_duplicate_tool_results items in
  let '(stripped, items) := strip_displaced_tool_results items in
  let '(inserted, items) := repair_dangling_tool_calls items (HarnessHalted $"history_repair") in
  (mkReport reminted removed stripped inserted, items).

End History.
