(* ===== verification/HistoryLaws.v ===== *)
(** * Laws of the history repair

    What a provider accepts ([well_paired]), that [repair_history] establishes
    it, keeps everything else, and changes nothing when there is nothing to
    repair. *)

From S2P Require Import Prelude RustStr ToolCallIds History.

#[local] Open Scope nat_scope.

Section HistoryLaws.
Context `{Payloads}.

(** ** Histories as turns *)

Definition headed (items : list Item) : Prop :=
  match items with IToolResult _ :: _ => False | _ => True end.

(** Every result follows the call it answers, in the run of results right after
    the assistant item, and every call has exactly one. *)
Inductive well_paired : list Item → Prop :=
| wp_nil : well_paired []
| wp_turn a run rest :
    map tool_call_id run ≡ₚ map call_id (tool_calls a) → well_paired rest →
    well_paired (IAssistant a :: map IToolResult run ++ rest)
| wp_other item rest :
    is_result item = false → (∀ a, item ≠ IAssistant a) → well_paired rest → well_paired (item :: rest).

Lemma well_paired_headed (items : list Item) : well_paired items → headed items.
Proof. destruct 1 as [| |item rest Hr]; try done. by destruct item. Qed.

Lemma result_run_app (run : list ToolResult) (rest : list Item) :
  headed rest → result_run (map IToolResult run ++ rest) = (run, rest).
Proof.
  intros Hh. induction run as [|r run IH]; simpl; [by destruct rest as [|[] ?]|]. by rewrite IH.
Qed.

Lemma result_run_spec (items : list Item) :
  ∃ run rest, items = map IToolResult run ++ rest ∧ headed rest ∧ result_run items = (run, rest).
Proof.
  induction items as [|item items (run & rest & -> & Hh & E)]; [by exists [], []|].
  destruct item; try (by eexists [], _). exists (r :: run), rest. split_and!; [done|done|].
  by apply (result_run_app (r :: run)).
Qed.

(** Induction along the turns. *)
Lemma history_ind (P : list Item → Prop) :
  P [] →
  (∀ a run rest, headed rest → P rest → P (IAssistant a :: map IToolResult run ++ rest)) →
  (∀ item rest, (∀ a, item ≠ IAssistant a) → P rest → P (item :: rest)) →
  ∀ items, P items.
Proof.
  intros Hnil Hturn Hother items. induction items as [items IH] using (induction_ltof1 _ (@length Item)).
  unfold ltof in IH. destruct items as [|item items]; [done|].
  destruct item; try (apply Hother; [done|]; apply IH; simpl; lia).
  destruct (result_run_spec items) as (run & rest & -> & Hh & _). apply Hturn; [done|].
  apply IH. simpl. rewrite length_app. lia.
Qed.

(** ** Removing duplicates keeps the last result of every identifier *)

Fixpoint last_of_each (run : list ToolResult) : list ToolResult :=
  match run with
  | [] => []
  | r :: rest =>
      if bool_decide (tool_call_id r ∈ map tool_call_id rest) then last_of_each rest else r :: last_of_each rest
  end.

(** The elements whose position, counted from [k], is not among [ps]. *)
Fixpoint keep_from {A} (k : nat) (ps : list nat) (l : list A) : list A :=
  match l with
  | [] => []
  | x :: r => if bool_decide (k ∈ ps) then keep_from (S k) ps r else x :: keep_from (S k) ps r
  end.

Lemma keep_from_ext {A} (l : list A) (k : nat) (ps qs : list nat) :
  (∀ p, k ≤ p → p ∈ ps ↔ p ∈ qs) → keep_from k ps l = keep_from k qs l.
Proof.
  revert k. induction l as [|x l IH]; intros k Hpq; [done|]. simpl.
  rewrite (bool_decide_ext (k ∈ ps) (k ∈ qs)) by (by apply Hpq).
  by rewrite (IH (S k)) by (intros; apply Hpq; lia).
Qed.

Lemma foldr_delete_keep {A} (l : list A) (k : nat) (ps : list nat) :
  StronglySorted Nat.lt ps → Forall (le k) ps →
  foldr (fun p l => delete (p - k) l) l ps = keep_from k ps l.
Proof.
  revert k ps. induction l as [|x l IH]; intros k ps Hs Hk.
  { clear. induction ps as [|p ps IH]; [done|]. simpl. rewrite IH. by destruct (p - k). }
  assert (∀ qs, Forall (le (S k)) qs →
    foldr (fun p l => delete (p - k) l) (x :: l) qs = x :: foldr (fun p l => delete (p - S k) l) l qs) as Hstep.
  { induction qs as [|q qs IHq]; intros Hq; [done|]. inversion_clear Hq. simpl. rewrite IHq by done.
    by replace (q - k) with (S (q - S k)) by lia. }
  destruct ps as [|p ps].
  { simpl. f_equal. by apply (IH (S k) []). }
  inversion_clear Hs as [|? ? Hs' Hp]. inversion_clear Hk as [|? ? Hkp Hk'].
  assert (Forall (le (S p)) ps) as Hps by (eapply Forall_impl; [exact Hp|]; simpl; lia).
  destruct (decide (p = k)) as [->|Hne].
  - simpl. rewrite bool_decide_eq_true_2 by left. rewrite Hstep by done.
    replace (k - k) with 0 by lia. simpl. rewrite IH by done. apply keep_from_ext. set_solver by lia.
  - simpl. rewrite bool_decide_eq_false_2.
    2:{ intros [->|Hin]%elem_of_cons; [done|]. rewrite Forall_forall in Hps. specialize (Hps _ Hin). lia. }
    rewrite Hstep by (eapply Forall_impl; [exact Hps|]; simpl; lia).
    rewrite <-(IH (S k) (p :: ps)).
    + simpl. by replace (p - k) with (S (p - S k)) by lia.
    + by constructor.
    + constructor; [lia|]. eapply Forall_impl; [exact Hps|]; simpl; lia.
Qed.

Lemma remove_positions_keep {A} (ps : list nat) (l : list A) :
  NoDup ps → remove_positions ps l = keep_from 0 ps l.
Proof.
  intros Hnd. unfold remove_positions.
  assert (StronglySorted Nat.lt (sort_by_key id ps)) as Hs.
  { pose proof (sort_by_key_sorted id ps) as Hle. rewrite <-(sort_by_key_perm id ps) in Hnd.
    induction Hle as [|p qs Hle IH Hp]; [constructor|]. inversion_clear Hnd as [|? ? Hn Hnd'].
    constructor; [by apply IH|]. rewrite Forall_forall in *. intros q Hq. specialize (Hp q Hq). simpl in Hp.
    destruct (decide (p = q)) as [->|]; [done|]. unfold Nat.lt, id in *. lia. }
  rewrite <-(keep_from_ext l 0 (sort_by_key id ps)) by (intros; by rewrite sort_by_key_elem).
  rewrite <-(foldr_delete_keep l 0 _ Hs) by (apply Forall_true; lia).
  generalize (sort_by_key id ps) as qs. induction qs as [|q qs IH]; [done|]. simpl. by rewrite IH, Nat.sub_0_r.
Qed.

(** The map of last positions is injective and holds positions below [idx]. *)
Definition seen_ok (seen : gmap bytes nat) (idx : nat) : Prop :=
  (∀ i p, seen !! i = Some p → p < idx) ∧ (∀ i j p, seen !! i = Some p → seen !! j = Some p → i = j).

Lemma seen_ok_insert (seen : gmap bytes nat) (idx : nat) (i : bytes) :
  seen_ok seen idx → seen_ok (<[i := idx]> seen) (S idx).
Proof.
  intros [Hb Hi]. split.
  - intros j p [[-> <-]|[? ?%Hb]]%lookup_insert_Some; lia.
  - intros j k p [[<- <-]|[? Hj]]%lookup_insert_Some [[<- ?]|[? Hk]]%lookup_insert_Some; try done.
    + apply Hb in Hk. lia.
    + apply Hb in Hj. lia.
    + by eapply Hi.
Qed.

Lemma duplicate_positions_from (run : list ToolResult) (seen : gmap bytes nat) (idx p : nat) :
  p ∈ duplicate_positions seen idx run → (∃ i, seen !! i = Some p) ∨ idx ≤ p < idx + length run.
Proof.
  revert seen idx. induction run as [|r run IH]; intros seen idx; simpl; [by intros ?%elem_of_nil|].
  intros [Hp|Hp]%elem_of_app.
  - destruct (seen !! tool_call_id r) eqn:E; simpl in Hp; [|by apply elem_of_nil in Hp].
    apply list_elem_of_singleton in Hp as ->. eauto.
  - destruct (IH _ _ Hp) as [[i [[_ <-]|[_ ?]]%lookup_insert_Some]|?]; [right; lia|by eauto|right; lia].
Qed.

Lemma duplicate_positions_old (run : list ToolResult) (seen : gmap bytes nat) (idx p : nat) (i : bytes) :
  seen_ok seen idx → seen !! i = Some p →
  p ∈ duplicate_positions seen idx run ↔ i ∈ map tool_call_id run.
Proof.
  revert seen idx. induction run as [|r run IH]; intros seen idx Hok Hi; simpl.
  { by split; intros ?%elem_of_nil. }
  destruct (decide (tool_call_id r = i)) as [->|Hne].
  { rewrite Hi. simpl. set_solver. }
  assert (p ∉ option_list (seen !! tool_call_id r)) as Hnot.
  { destruct (seen !! tool_call_id r) eqn:E; simpl; [|by apply not_elem_of_nil].
    intros ->%list_elem_of_singleton. by destruct Hne; eapply Hok. }
  rewrite elem_of_app, elem_of_cons, (IH _ (S idx)); [|by apply seen_ok_insert|by rewrite lookup_insert_ne].
  clear -Hnot Hne. naive_solver.
Qed.

Lemma duplicate_positions_nodup (run : list ToolResult) (seen : gmap bytes nat) (idx : nat) :
  seen_ok seen idx → NoDup (duplicate_positions seen idx run).
Proof.
  revert seen idx. induction run as [|r run IH]; intros seen idx Hok; simpl; [constructor|].
  specialize (IH _ _ (seen_ok_insert _ _ (tool_call_id r) Hok)).
  destruct (seen !! tool_call_id r) as [p|] eqn:E; [|done]. simpl. constructor; [|done].
  intros [[i [[<- Hi]|[Hne Hi]]%lookup_insert_Some]|[Hle _]]%duplicate_positions_from.
  - apply Hok in E. lia.
  - by destruct Hne; eapply Hok.
  - apply Hok in E. lia.
Qed.

Lemma keep_duplicates (run : list ToolResult) (seen : gmap bytes nat) (idx : nat) :
  seen_ok seen idx → keep_from idx (duplicate_positions seen idx run) run = last_of_each run.
Proof.
  revert seen idx. induction run as [|r run IH]; intros seen idx Hok; [done|]. simpl.
  pose proof (seen_ok_insert _ _ (tool_call_id r) Hok) as Hok'.
  assert (∀ p, idx ≤ p → p ∉ option_list (seen !! tool_call_id r)) as Hnot.
  { intros p Hp. destruct (seen !! tool_call_id r) eqn:E; simpl; [|by apply not_elem_of_nil].
    intros ->%list_elem_of_singleton. apply Hok in E. lia. }
  rewrite (bool_decide_ext _ (tool_call_id r ∈ map tool_call_id run)).
  2:{ rewrite elem_of_app, (duplicate_positions_old _ _ _ _ (tool_call_id r) Hok') by apply lookup_insert_eq.
      specialize (Hnot idx). naive_solver lia. }
  rewrite (keep_from_ext _ (S idx) _ (duplicate_positions (<[tool_call_id r := idx]> seen) (S idx) run)).
  - by rewrite (IH _ _ Hok').
  - intros p Hp. rewrite elem_of_app. specialize (Hnot p). naive_solver lia.
Qed.

Lemma remove_duplicates (run : list ToolResult) :
  remove_positions (duplicate_positions ∅ 0 run) run = last_of_each run.
Proof.
  assert (seen_ok ∅ 0) as Hok by (split; intros *; by rewrite lookup_empty).
  rewrite remove_positions_keep by (by apply duplicate_positions_nodup). by apply keep_duplicates.
Qed.

Lemma keep_from_app {A} (k : nat) (ps : list nat) (l1 l2 : list A) :
  (∀ p, p ∈ ps → p < k + length l1) → keep_from k ps (l1 ++ l2) = keep_from k ps l1 ++ l2.
Proof.
  revert k. induction l1 as [|x l1 IH]; intros k Hps; simpl.
  - assert (∀ (l : list A) k', k ≤ k' → keep_from k' ps l = l) as Hkeep; [|by apply Hkeep].
    induction l as [|y l IHl]; intros k' Hk; [done|]. simpl.
    rewrite bool_decide_eq_false_2, IHl; [done|lia|]. intros Hin%Hps. simpl in Hin. lia.
  - rewrite (IH (S k)); [by destruct (bool_decide _)|]. intros p Hp%Hps. simpl in Hp. lia.
Qed.

Lemma keep_from_map {A B} (f : A → B) (k : nat) (ps : list nat) (l : list A) :
  keep_from k ps (map f l) = map f (keep_from k ps l).
Proof. revert k. induction l as [|x l IH]; intros k; [done|]. simpl. rewrite IH. by destruct (bool_decide _). Qed.

Lemma empty_seen_ok : seen_ok ∅ 0.
Proof. split; intros *; by rewrite lookup_empty. Qed.

Lemma remove_run_duplicates (run : list ToolResult) (rest : list Item) :
  remove_positions (duplicate_positions ∅ 0 run) (map IToolResult run ++ rest)
  = map IToolResult (last_of_each run) ++ rest.
Proof.
  rewrite remove_positions_keep by (apply duplicate_positions_nodup, empty_seen_ok).
  rewrite keep_from_app; [by rewrite keep_from_map, keep_duplicates by apply empty_seen_ok|].
  intros p [[i Hi]|Hp]%duplicate_positions_from; [by rewrite lookup_empty in Hi|]. rewrite length_map. lia.
Qed.

Lemma last_of_each_ids (run : list ToolResult) (i : bytes) :
  i ∈ map tool_call_id (last_of_each run) ↔ i ∈ map tool_call_id run.
Proof. induction run as [|r run IH]; [done|]. simpl. case_bool_decide; set_solver. Qed.

Lemma last_of_each_nodup (run : list ToolResult) : NoDup (map tool_call_id (last_of_each run)).
Proof.
  induction run as [|r run IH]; [constructor|]. simpl. case_bool_decide as Hin; [done|].
  simpl. constructor; [|done]. by rewrite last_of_each_ids.
Qed.

Lemma last_of_each_fixed (run : list ToolResult) :
  NoDup (map tool_call_id run) → last_of_each run = run ∧ duplicate_positions ∅ 0 run = [].
Proof.
  intros Hnd. split.
  - induction run as [|r run IH]; [done|]. simpl in *. inversion_clear Hnd.
    rewrite bool_decide_eq_false_2 by done. by rewrite IH.
  - assert (∀ seen idx, (∀ i, i ∈ map tool_call_id run → seen !! i = None) →
      duplicate_positions seen idx run = []) as Hg; [|apply Hg; intros; apply lookup_empty].
    induction run as [|r run IH]; intros seen idx Hseen; [done|]. simpl in *. inversion_clear Hnd.
    rewrite (Hseen (tool_call_id r)) by set_solver. simpl. apply IH; [done|]. intros i Hi.
    rewrite lookup_insert_ne by set_solver. set_solver.
Qed.

Lemma no_duplicates (run : list ToolResult) : length (duplicate_positions ∅ 0 run) = 0 → last_of_each run = run.
Proof.
  intros Hl. apply length_zero_iff_nil in Hl. rewrite <-(keep_duplicates _ _ _ empty_seen_ok), Hl.
  assert (∀ k, keep_from k [] run = run) as Hk; [|apply Hk]. clear. induction run as [|r run IH]; intros k; [done|].
  simpl. by rewrite IH.
Qed.

(** ** The deduplication, turn by turn *)

Lemma length_last_of_each (run : list ToolResult) :
  length (duplicate_positions ∅ 0 run) ≠ 0 → length (last_of_each run) < length run.
Proof.
  intros Hl. assert (∀ run, length (last_of_each run) ≤ length run) as Hle.
  { clear. induction run as [|r run IH]; [done|]. simpl. case_bool_decide; simpl; lia. }
  assert (¬ NoDup (map tool_call_id run)) as Hnd by (by intros [_ E]%last_of_each_fixed; rewrite E in Hl).
  clear Hl. induction run as [|r run IH]; [by destruct Hnd; constructor|]. simpl in *.
  specialize (Hle run). case_bool_decide as Hin; [lia|]. simpl. apply le_n_S, IH. intros Hr. apply Hnd. by constructor.
Qed.

Lemma dedup_go_fuel (f g : nat) (items : list Item) :
  length items < f → length items < g → dedup_go f items = dedup_go g items.
Proof.
  revert g items. induction f as [|f IH]; intros g items Hf Hg; [lia|]. destruct g as [|g]; [lia|].
  destruct items as [|item items]; [done|]. simpl in Hf, Hg. cbn [dedup_go].
  destruct (is_calling item); [|by rewrite (IH g) by lia].
  destruct (result_run_spec items) as (run & tail & -> & _ & ->). rewrite length_app, length_map in *.
  case_bool_decide as Hd.
  - by rewrite (IH g) by lia.
  - apply length_last_of_each in Hd. rewrite remove_run_duplicates, (IH g); [done|..];
      simpl; rewrite length_app, length_map; lia.
Qed.

Lemma dedup_other (item : Item) (rest : list Item) :
  is_calling item = false →
  dedup_duplicate_tool_results (item :: rest)
  = let '(n, rest) := dedup_duplicate_tool_results rest in (n, item :: rest).
Proof. intros Hc. unfold dedup_duplicate_tool_results. cbn [dedup_go length]. by rewrite Hc. Qed.

Lemma dedup_results (run : list ToolResult) (rest : list Item) :
  dedup_duplicate_tool_results (map IToolResult run ++ rest)
  = let '(n, rest) := dedup_duplicate_tool_results rest in (n, map IToolResult run ++ rest).
Proof.
  induction run as [|r run IH]; simpl; [by destruct (dedup_duplicate_tool_results rest)|].
  rewrite dedup_other, IH by done. by destruct (dedup_duplicate_tool_results rest).
Qed.

Lemma dedup_turn (a : Assistant) (run : list ToolResult) (rest : list Item) :
  headed rest → tool_calls a ≠ [] →
  dedup_duplicate_tool_results (IAssistant a :: map IToolResult run ++ rest)
  = let '(n, rest) := dedup_duplicate_tool_results rest in
    (length (duplicate_positions ∅ 0 run) + n, IAssistant a :: map IToolResult (last_of_each run) ++ rest).
Proof.
  intros Hh Hc. unfold dedup_duplicate_tool_results.
  assert (is_calling (IAssistant a : Item) = true) as Hcall by (simpl; by destruct (tool_calls a)).
  assert (∀ fuel run, length run + length rest < fuel → length (duplicate_positions ∅ 0 run) = 0 →
    dedup_go (S fuel) (IAssistant a :: map IToolResult run ++ rest)
    = let '(n, rest) := dedup_go (S (length rest)) rest in (n, IAssistant a :: map IToolResult run ++ rest)) as Hclean.
  { intros fuel run' Hf Hd. cbn [dedup_go]. rewrite Hcall, result_run_app by done. rewrite bool_decide_eq_true_2 by done.
    by rewrite (dedup_go_fuel fuel (S (length rest))) by lia. }
  set (d := dedup_go (S (length rest)) rest) in *.
  destruct (decide (length (duplicate_positions ∅ 0 run) = 0)) as [Hd|Hd].
  - rewrite (dedup_go_fuel _ (S (S (length run + length rest)))), Hclean by
      (try done; simpl; rewrite ?length_app, ?length_map; lia).
    rewrite no_duplicates, Hd by done. by destruct d.
  - cbn [dedup_go]. rewrite Hcall, result_run_app by done. rewrite bool_decide_eq_false_2 by done.
    rewrite remove_run_duplicates. pose proof (length_last_of_each _ Hd) as Hlen.
    pose proof (last_of_each_fixed _ (last_of_each_nodup run)) as [_ Hfix].
    rewrite (dedup_go_fuel _ (S (S (length (last_of_each run) + length rest)))), Hclean by
      (rewrite ?Hfix; try done; simpl; rewrite ?length_app, ?length_map; lia).
    by destruct d.
Qed.

(** ** The removal of displaced results, turn by turn *)

(** The results of a run that name a call of their assistant item. *)
Definition answering (ids : gset bytes) (run : list ToolResult) : list ToolResult :=
  List.filter (fun r => bool_decide (tool_call_id r ∈ ids)) run.

Definition foreign (ids : gset bytes) (run : list ToolResult) : list bytes :=
  map tool_call_id (List.filter (fun r => negb (bool_decide (tool_call_id r ∈ ids))) run).

Lemma strip_go_headed (ids : gset bytes) (items : list Item) : headed items → strip_go ids items = strip_go ∅ items.
Proof. by destruct items as [|[]]. Qed.

Lemma strip_results (ids : gset bytes) (run : list ToolResult) (rest : list Item) :
  headed rest →
  strip_go ids (map IToolResult run ++ rest)
  = let '(stripped, rest) := strip_displaced_tool_results rest in
    (foreign ids run ++ stripped, map IToolResult (answering ids run) ++ rest).
Proof.
  intros Hh. unfold answering, foreign, strip_displaced_tool_results.
  induction run as [|r run IH]; simpl.
  { rewrite strip_go_headed by done. by destruct (strip_go ∅ rest). }
  rewrite IH. destruct (strip_go ∅ rest). by case_bool_decide.
Qed.

Lemma strip_turn (a : Assistant) (run : list ToolResult) (rest : list Item) :
  headed rest →
  strip_displaced_tool_results (IAssistant a :: map IToolResult run ++ rest)
  = let '(stripped, rest) := strip_displaced_tool_results rest in
    (foreign (ids_of a) run ++ stripped, IAssistant a :: map IToolResult (answering (ids_of a) run) ++ rest).
Proof.
  intros Hh. unfold strip_displaced_tool_results at 1. cbn [strip_go]. rewrite strip_results by done.
  by destruct (strip_displaced_tool_results rest).
Qed.

(** ** The answers to dangling calls, turn by turn *)

Section Dangling.
Context {S : Type} (resolve : S → bytes → bytes → S * bytes).

Definition shift_repair (k : nat) (repair : nat * list Item) : nat * list Item := (k + repair.1, repair.2).

Lemma dangling_repairs_shift (items : list Item) (s : S) (k i : nat) :
  dangling_repairs resolve s (k + i) items
  = let '(s, repairs) := dangling_repairs resolve s i items in (s, map (shift_repair k) repairs).
Proof.
  revert s i. induction items as [|item items IH]; intros s i; [done|].
  destruct item; simpl; replace (k + i + 1) with (k + (i + 1)) by lia; rewrite ?IH; try done.
  destruct (synthesize _ _ _) as [s' syn]. rewrite IH. destruct (dangling_repairs _ s' _ _) as [s'' repairs].
  case_bool_decide; [done|]. simpl. unfold shift_repair at 2. simpl. by rewrite <-!Nat.add_assoc.
Qed.

Lemma dangling_repairs_results (run : list ToolResult) (rest : list Item) (s : S) (i : nat) :
  dangling_repairs resolve s i (map IToolResult run ++ rest) = dangling_repairs resolve s (length run + i) rest.
Proof.
  revert i. induction run as [|r run IH]; intros i; [done|]. simpl. rewrite IH. f_equal. lia.
Qed.

Lemma splice_shift (pre items : list Item) (repairs : list (nat * list Item)) :
  foldr splice (pre ++ items) (map (shift_repair (length pre)) repairs) = pre ++ foldr splice items repairs.
Proof.
  induction repairs as [|[p syn] repairs IH]; [done|]. simpl. rewrite IH. unfold splice. simpl.
  rewrite take_app_add, drop_app_add. by rewrite <-app_assoc.
Qed.

Lemma sum_repairs_shift (k : nat) (repairs : list (nat * list Item)) :
  map (fun r => length r.2) (map (shift_repair k) repairs) = map (fun r => length r.2) repairs.
Proof. rewrite map_map. done. Qed.

Lemma dangling_turn (s : S) (a : Assistant) (run : list ToolResult) (rest : list Item) :
  headed rest →
  repair_dangling_tool_calls_with resolve s (IAssistant a :: map IToolResult run ++ rest)
  = let '(s, syn) := synthesize resolve s (unanswered a run) in
    let '(s, n, rest) := repair_dangling_tool_calls_with resolve s rest in
    (s, length syn + n, IAssistant a :: map IToolResult run ++ syn ++ rest).
Proof.
  intros Hh. unfold repair_dangling_tool_calls_with. cbn [dangling_repairs]. rewrite result_run_app by done. simpl.
  destruct (synthesize _ _ _) as [s' syn]. rewrite dangling_repairs_results.
  replace (length run + 1) with (length (IAssistant a :: map IToolResult run : list Item) + 0)
    by (simpl; rewrite length_map; lia).
  rewrite dangling_repairs_shift. destruct (dangling_repairs _ s' 0 rest) as [s'' repairs].
  pose proof (splice_shift (IAssistant a :: map IToolResult run) rest repairs) as Hsp.
  rewrite <-app_comm_cons in Hsp. simpl app in Hsp.
  case_bool_decide as Hsyn.
  - apply length_zero_iff_nil in Hsyn as ->. rewrite Hsp, sum_repairs_shift. done.
  - match goal with |- context [foldr splice ?l (?r :: ?rs)] =>
      change (foldr splice l (r :: rs)) with (splice r (foldr splice l rs)) end.
    rewrite map_cons, sum_repairs_shift, Hsp. f_equal. unfold splice. simpl. f_equal. rewrite take_app_length', drop_app_length' by (by rewrite length_map). done.
Qed.

Lemma dangling_other (s : S) (item : Item) (rest : list Item) :
  (∀ a, item ≠ IAssistant a) →
  repair_dangling_tool_calls_with resolve s (item :: rest)
  = let '(s, n, rest) := repair_dangling_tool_calls_with resolve s rest in (s, n, item :: rest).
Proof.
  intros Hi. unfold repair_dangling_tool_calls_with.
  assert (dangling_repairs resolve s 0 (item :: rest) = dangling_repairs resolve s (1 + 0) rest) as ->
    by (destruct item; try done; by destruct (Hi a)).
  rewrite dangling_repairs_shift. destruct (dangling_repairs _ _ _ _) as [s' repairs].
  by rewrite (splice_shift [item] rest), sum_repairs_shift.
Qed.
End Dangling.

(** ** The passes of the repair composed, turn by turn *)

Definition halted : DanglingToolCallReason := HarnessHalted $"history_repair".

(** The synthetic result of a call. *)
Definition synthetic (c : ToolCall) : ToolResult :=
  mkResult (call_id c) (synthetic_dangling_result_text (call_name c) halted) [].

Definition clean (items : list Item) : nat * list bytes * nat * list Item :=
  let '(removed, items) := dedup_duplicate_tool_results items in
  let '(stripped, items) := strip_displaced_tool_results items in
  let '(inserted, items) := repair_dangling_tool_calls items halted in
  (removed, stripped, inserted, items).

Lemma repair_history_eq (items : list Item) :
  repair_history items
  = let '(reminted, items) := repair_tool_call_ids items in
    let '(removed, stripped, inserted, items) := clean items in
    (mkReport reminted removed stripped inserted, items).
Proof.
  unfold repair_history, clean, halted. destruct (repair_tool_call_ids items) as [n l].
  destruct (dedup_duplicate_tool_results l) as [m k]. destruct (strip_displaced_tool_results k) as [st j].
  by destruct (repair_dangling_tool_calls j _).
Qed.

Definition run_duplicates (a : Assistant) (run : list ToolResult) : nat :=
  if bool_decide (length (tool_calls a) = 0) then 0 else length (duplicate_positions ∅ 0 run).

Definition run_deduped (a : Assistant) (run : list ToolResult) : list ToolResult :=
  if bool_decide (length (tool_calls a) = 0) then run else last_of_each run.

(** The results of a turn that survive, and all the results it ends up with. *)
Definition settled (a : Assistant) (run : list ToolResult) : list ToolResult :=
  answering (ids_of a) (run_deduped a run).

Definition completed (a : Assistant) (run : list ToolResult) : list ToolResult :=
  settled a run ++ map synthetic (unanswered a (settled a run)).

Lemma dedup_headed (items : list Item) : headed items → headed (dedup_duplicate_tool_results items).2.
Proof.
  intros Hh. destruct items as [|item items]; [done|]. destruct (is_calling item) eqn:Hc.
  - destruct item as [| |a| | |]; try done. destruct (result_run_spec items) as (run & rest & -> & Hr & _).
    rewrite dedup_turn; [by destruct (dedup_duplicate_tool_results rest)|done|].
    simpl in Hc. by destruct (tool_calls a).
  - rewrite dedup_other by done. by destruct (dedup_duplicate_tool_results items), item.
Qed.

Lemma strip_headed (items : list Item) : headed (strip_displaced_tool_results items).2.
Proof.
  unfold strip_displaced_tool_results. induction items as [|item items IH]; [done|].
  destruct item as [| |a|r| |]; simpl;
    first [by destruct (strip_go ∅ items)|by destruct (strip_go (ids_of a) items)].
Qed.

Lemma dedup_assistant (a : Assistant) (run : list ToolResult) (rest : list Item) :
  headed rest →
  dedup_duplicate_tool_results (IAssistant a :: map IToolResult run ++ rest)
  = let '(n, rest) := dedup_duplicate_tool_results rest in
    (run_duplicates a run + n, IAssistant a :: map IToolResult (run_deduped a run) ++ rest).
Proof.
  intros Hh. unfold run_duplicates, run_deduped. case_bool_decide as Hc.
  - rewrite dedup_other, dedup_results; [by destruct (dedup_duplicate_tool_results rest)|].
    simpl. by rewrite Hc.
  - rewrite dedup_turn by (try done; by intros E; rewrite E in Hc). done.
Qed.

Lemma synthesize_halted (calls : list ToolCall) :
  synthesize (fun (s : unit) _ name => (s, synthetic_dangling_result_text name halted)) () calls
  = ((), map IToolResult (map synthetic calls)).
Proof. induction calls as [|c calls IH]; [done|]. cbn [synthesize]. by rewrite IH. Qed.

Lemma clean_turn (a : Assistant) (run : list ToolResult) (rest : list Item) :
  headed rest →
  clean (IAssistant a :: map IToolResult run ++ rest)
  = let '(removed, stripped, inserted, rest) := clean rest in
    (run_duplicates a run + removed, foreign (ids_of a) (run_deduped a run) ++ stripped,
     length (unanswered a (settled a run)) + inserted, IAssistant a :: map IToolResult (completed a run) ++ rest).
Proof.
  intros Hh. unfold clean. rewrite dedup_assistant by done.
  pose proof (dedup_headed rest Hh) as Hd. destruct (dedup_duplicate_tool_results rest) as [n rest1].
  rewrite strip_turn by done. pose proof (strip_headed rest1) as Hs.
  destruct (strip_displaced_tool_results rest1) as [st rest2]. unfold repair_dangling_tool_calls.
  rewrite dangling_turn by done. rewrite synthesize_halted. fold (settled a run).
  destruct (repair_dangling_tool_calls_with _ _ rest2) as [[[] m] rest3].
  rewrite !length_map. unfold completed. by rewrite map_app, <-app_assoc.
Qed.

Lemma clean_result (r : ToolResult) (rest : list Item) :
  clean (IToolResult r :: rest)
  = let '(removed, stripped, inserted, rest) := clean rest in
    (removed, tool_call_id r :: stripped, inserted, rest).
Proof.
  unfold clean. rewrite dedup_other by done. destruct (dedup_duplicate_tool_results rest) as [n rest1].
  unfold strip_displaced_tool_results. cbn [strip_go]. destruct (strip_go ∅ rest1) as [st rest2].
  rewrite bool_decide_eq_false_2 by set_solver. by destruct (repair_dangling_tool_calls rest2 _).
Qed.

Lemma clean_other (item : Item) (rest : list Item) :
  (∀ a, item ≠ IAssistant a) → is_result item = false →
  clean (item :: rest)
  = let '(removed, stripped, inserted, rest) := clean rest in (removed, stripped, inserted, item :: rest).
Proof.
  intros Ha Hr. unfold clean. rewrite dedup_other by (destruct item; try done; by destruct (Ha a)).
  destruct (dedup_duplicate_tool_results rest) as [n rest1].
  assert (strip_displaced_tool_results (item :: rest1)
    = let '(s, rest) := strip_displaced_tool_results rest1 in (s, item :: rest)) as ->
    by (destruct item; try done; by destruct (Ha a)).
  destruct (strip_displaced_tool_results rest1) as [st rest2]. unfold repair_dangling_tool_calls.
  rewrite dangling_other by done. by destruct (repair_dangling_tool_calls_with _ _ rest2) as [[[] m] rest3].
Qed.

(** ** What the repair establishes *)

Lemma map_filter {A B} (f : A → B) (p : B → bool) (l : list A) :
  List.filter p (map f l) = map f (List.filter (fun x => p (f x)) l).
Proof. induction l as [|x l IH]; [done|]. simpl. rewrite IH. by destruct (p (f x)). Qed.

Lemma NoDup_map_filter {A B} (f : A → B) (p : A → bool) (l : list A) :
  NoDup (map f l) → NoDup (map f (List.filter p l)).
Proof.
  induction l as [|x l IH]; [done|]. simpl. inversion_clear 1 as [|? ? Hx Hl]. destruct (p x); [|by apply IH].
  simpl. constructor; [|by apply IH]. intros (y & E & Hy)%list_elem_of_In%in_map_iff.
  apply Hx, list_elem_of_In, in_map_iff. exists y. by apply filter_In in Hy as [??].
Qed.

Lemma settled_nodup (a : Assistant) (run : list ToolResult) : NoDup (map tool_call_id (settled a run)).
Proof.
  unfold settled, answering, run_deduped. case_bool_decide as Hc.
  - apply length_zero_iff_nil in Hc.
    assert (∀ run : list ToolResult, List.filter (fun r => bool_decide (tool_call_id r ∈ ids_of a)) run = []) as ->.
    { unfold ids_of. rewrite Hc. clear. induction run as [|r run IH]; [done|]. simpl. done. }
    constructor.
  - apply NoDup_map_filter, last_of_each_nodup.
Qed.

Lemma completed_paired (a : Assistant) (run : list ToolResult) :
  NoDup (map call_id (tool_calls a)) →
  map tool_call_id (completed a run) ≡ₚ map call_id (tool_calls a).
Proof.
  intros Hnd. unfold completed. rewrite map_app, map_map.
  change (map (fun x => tool_call_id (synthetic x))) with (map call_id).
  assert (map call_id (unanswered a (settled a run))
    = List.filter (fun i => negb (bool_decide (i ∈ (list_to_set (map tool_call_id (settled a run)) : gset bytes))))
        (map call_id (tool_calls a))) as -> by (by rewrite map_filter).
  assert (∀ i, i ∈ map tool_call_id (settled a run) → i ∈ map call_id (tool_calls a)) as Hsub.
  { intros i Hi. apply list_elem_of_In, in_map_iff in Hi as (r & <- & Hr).
    unfold settled, answering in Hr. apply filter_In in Hr as [_ Hr]. bool_prop. unfold ids_of in Hr.
    by apply elem_of_list_to_set in Hr. }
  apply NoDup_Permutation; [|done|].
  - apply NoDup_app. split_and!; [apply settled_nodup| |].
    + intros i Hi [_ Hn]%list_elem_of_In%filter_In. bool_prop. by apply Hn, elem_of_list_to_set.
    + by apply NoDup_ListNoDup, List.NoDup_filter, NoDup_ListNoDup.
  - intros i. rewrite elem_of_app, (list_elem_of_In (List.filter _ _) i), filter_In, <-list_elem_of_In.
    rewrite negb_true_iff, bool_decide_eq_false, elem_of_list_to_set. split; [naive_solver|].
    intros Hi. destruct (decide (i ∈ map tool_call_id (settled a run))); naive_solver.
Qed.

Lemma call_ids_turn (a : Assistant) (run : list ToolResult) (rest : list Item) :
  call_id_list (IAssistant a :: map IToolResult run ++ rest) = map call_id (tool_calls a) ++ call_id_list rest.
Proof. unfold call_id_list. simpl. f_equal. by induction run as [|r run IH]; [|simpl; rewrite <-IH]. Qed.

Lemma clean_paired (items : list Item) : NoDup (call_id_list items) → well_paired (clean items).2.
Proof.
  induction items as [|a run rest Hh IH|item rest Ha IH] using history_ind; intros Hnd.
  - constructor.
  - rewrite call_ids_turn in Hnd. apply NoDup_app in Hnd as (Hnd & _ & Hrest). specialize (IH Hrest).
    rewrite clean_turn by done. destruct (clean rest) as [[[d st] n] rest']. simpl in *. constructor; [|done].
    by apply completed_paired.
  - destruct (is_result item) eqn:Hr.
    + destruct item; try done. rewrite clean_result. specialize (IH Hnd). by destruct (clean rest) as [[[d st] n] rest'].
    + rewrite clean_other by done. assert (call_id_list (item :: rest) = call_id_list rest) as Hids
        by (destruct item; try done; by destruct (Ha a)). rewrite Hids in Hnd. specialize (IH Hnd).
      destruct (clean rest) as [[[d st] n] rest']. simpl in *. by constructor.
Qed.

Definition without_results (items : list Item) : list Item := List.filter (fun i => negb (is_result i)) items.

Lemma without_results_run (run : list ToolResult) (rest : list Item) :
  without_results (map IToolResult run ++ rest) = without_results rest.
Proof. by induction run. Qed.

Lemma clean_others (items : list Item) : without_results (clean items).2 = without_results items.
Proof.
  induction items as [|a run rest Hh IH|item rest Ha IH] using history_ind; [done|..].
  - rewrite clean_turn by done. destruct (clean rest) as [[[d st] n] rest']. simpl in *.
    unfold without_results at 1 2. simpl. fold (without_results (map IToolResult (completed a run) ++ rest')).
    fold (without_results (map IToolResult run ++ rest)). by rewrite !without_results_run, IH.
  - destruct (is_result item) eqn:Hr.
    + destruct item; try done. rewrite clean_result. by destruct (clean rest) as [[[d st] n] rest'].
    + rewrite clean_other by done. destruct (clean rest) as [[[d st] n] rest']. simpl in *.
      unfold without_results. simpl. rewrite Hr. simpl. by f_equal.
Qed.

(** ** Nothing to repair *)

Lemma run_deduped_clean (a : Assistant) (run : list ToolResult) :
  run_duplicates a run = 0 → run_deduped a run = run.
Proof. unfold run_duplicates, run_deduped. case_bool_decide; [done|apply no_duplicates]. Qed.

Lemma run_duplicates_nodup (a : Assistant) (run : list ToolResult) :
  NoDup (map tool_call_id run) → run_duplicates a run = 0.
Proof. intros [_ E]%last_of_each_fixed. unfold run_duplicates. rewrite E. by case_bool_decide. Qed.

Lemma foreign_nil (ids : gset bytes) (run : list ToolResult) : foreign ids run = [] ↔ answering ids run = run.
Proof.
  unfold foreign, answering. split.
  - induction run as [|r run IH]; [done|]. simpl. case_bool_decide; [|done]. simpl. intros. by rewrite IH.
  - induction run as [|r run IH]; [done|]. simpl. case_bool_decide; simpl; [intros [= E]; by apply IH|].
    intros E. assert (length (List.filter (fun r => bool_decide (tool_call_id r ∈ ids)) run) ≤ length run) as Hl
      by apply filter_length_le. rewrite E in Hl. simpl in Hl. lia.
Qed.

Lemma elem_of_map {A B} (f : A → B) (l : list A) (y : B) : y ∈ map f l ↔ ∃ x, y = f x ∧ x ∈ l.
Proof. apply list_elem_of_fmap. Qed.

Lemma paired_settled (a : Assistant) (run : list ToolResult) :
  NoDup (map call_id (tool_calls a)) → map tool_call_id run ≡ₚ map call_id (tool_calls a) →
  run_duplicates a run = 0 ∧ foreign (ids_of a) run = [] ∧ settled a run = run ∧ unanswered a run = [].
Proof.
  intros Hnd Hp. assert (run_duplicates a run = 0) as Hd by (apply run_duplicates_nodup; by rewrite Hp).
  assert (answering (ids_of a) run = run) as Ha.
  { apply filter_all. intros r Hr. apply bool_decide_eq_true. unfold ids_of.
    apply elem_of_list_to_set. rewrite <-Hp. apply elem_of_map. eauto. }
  split_and!; [done|by apply foreign_nil| |].
  - unfold settled. by rewrite run_deduped_clean.
  - apply filter_none. intros c Hc. apply negb_false_iff, bool_decide_eq_true, elem_of_list_to_set.
    rewrite Hp. apply elem_of_map. eauto.
Qed.

Lemma clean_paired_fixed (items : list Item) :
  well_paired items → NoDup (call_id_list items) → clean items = (0, [], 0, items).
Proof.
  induction 1 as [|a run rest Hp Hw IH|item rest Hr Ha Hw IH]; intros Hnd; [done|..].
  - rewrite call_ids_turn in Hnd. apply NoDup_app in Hnd as (Hnd & _ & Hrest).
    rewrite clean_turn by (by apply well_paired_headed). rewrite IH by done.
    destruct (paired_settled a run Hnd Hp) as (Hd & Hf & Hs & Hu).
    unfold completed. rewrite Hs, Hu, Hd, run_deduped_clean, Hf by done. simpl. by rewrite app_nil_r.
  - rewrite clean_other, IH by (try done; destruct item; try done; by destruct (Ha a)). done.
Qed.

Lemma clean_unchanged (items items' : list Item) : clean items = (0, [], 0, items') → items' = items.
Proof.
  revert items'. induction items as [|a run rest Hh IH|item rest Ha IH] using history_ind; intros items'; [by intros [= <-]|..].
  - rewrite clean_turn by done. destruct (clean rest) as [[[d st] n] rest']. intros [= E1 E2 E3 <-].
    assert (run_duplicates a run = 0 ∧ d = 0) as [Hd ->] by lia.
    apply app_eq_nil in E2 as [Hf ->]. rewrite run_deduped_clean in Hf by done.
    assert (length (unanswered a (settled a run)) = 0 ∧ n = 0) as [Hu ->] by lia.
    apply length_zero_iff_nil in Hu. rewrite (IH rest') by done. unfold completed. rewrite Hu. simpl. rewrite app_nil_r.
    unfold settled. rewrite run_deduped_clean by done. apply foreign_nil in Hf. by rewrite Hf.
  - destruct (is_result item) eqn:Hr.
    + destruct item; try done. rewrite clean_result. by destruct (clean rest) as [[[d st] n] rest'].
    + rewrite clean_other by done. destruct (clean rest) as [[[d st] n] rest']. intros [= -> -> -> <-].
      by rewrite (IH rest').
Qed.

Lemma renamed_zero (os js : list bytes) : length os = length js → renamed os js = 0 → os = js.
Proof.
  revert js. induction os as [|o os IH]; intros [|j js] Hl; try done. rewrite renamed_cons. simpl in Hl.
  destruct (o =b j) eqn:E; [|done]. bool_prop. intros Hr. subst. f_equal. apply IH; lia.
Qed.

Lemma shape_call_ids (items items' : list Item) :
  map shape items' = map shape items → length (call_id_list items) = length (call_id_list items').
Proof.
  revert items'. induction items as [|item items IH]; intros [|item' items'] Hs; try done. simpl in Hs.
  injection Hs as Hi Hs. unfold call_id_list in *. simpl. rewrite !length_app, (IH _ Hs). f_equal.
  destruct item, item'; try done. simpl in *. injection Hi as _ Hc _. rewrite !length_map.
  apply (f_equal length) in Hc. by rewrite !length_map in Hc.
Qed.

Lemma repair_ids_unchanged (items items' : list Item) : repair_tool_call_ids items = (0, items') → items' = items.
Proof.
  intros E. pose proof (repair_facts items) as Hf. rewrite E in Hf. destruct Hf as [Hnd _ _ Hs Hc]. simpl in *.
  symmetry in Hc. apply renamed_zero in Hc; [|by apply shape_call_ids]. rewrite <-Hc in Hnd.
  rewrite (repair_fixed _ Hnd) in E. by injection E.
Qed.

Lemma changed_false (r : HistoryRepairReport) : changed r = false ↔ r = mkReport 0 0 [] 0.
Proof.
  destruct r as [n d st k]. unfold changed. simpl. split; [|by intros [= -> -> -> ->]].
  intros. bool_prop. destruct st; [|done]. f_equal; lia.
Qed.

Lemma repair_history_fixed (items : list Item) :
  well_paired items → NoDup (call_id_list items) → repair_history items = (mkReport 0 0 [] 0, items).
Proof. intros Hw Hnd. by rewrite repair_history_eq, repair_fixed, clean_paired_fixed. Qed.

Lemma clean_call_ids (items : list Item) : call_id_list (clean items).2 = call_id_list items.
Proof.
  assert (∀ l, call_id_list l = call_id_list (without_results l)) as Hw.
  { clear. unfold call_id_list. induction l as [|item l IH]; [done|]. destruct item; simpl; by rewrite IH. }
  by rewrite Hw, clean_others, <-Hw.
Qed.

Lemma repair_history_facts (items : list Item) :
  let '(report, items') := repair_history items in
  well_paired items' ∧ NoDup (call_id_list items')
  ∧ map shape (without_results items') = map shape (without_results items).
Proof.
  rewrite repair_history_eq. pose proof (repair_facts items) as Hf.
  destruct (repair_tool_call_ids items) as [n items1]. destruct Hf as [Hnd _ _ Hs _]. simpl in *.
  pose proof (clean_paired _ Hnd) as Hw. pose proof (clean_others items1) as Ho. pose proof (clean_call_ids items1) as Hc.
  destruct (clean items1) as [[[d st] k] items2]. simpl in *. rewrite Hc, Ho. split_and!; [done|done|].
  clear -Hs. revert items Hs. induction items1 as [|i items1 IH]; intros [|j items] Hs; try done.
  simpl in Hs. injection Hs as Hi Hs. unfold without_results. simpl.
  assert (is_result i = is_result j) as -> by (by destruct i, j).
  destruct (is_result j); simpl; [by apply IH|]. rewrite Hi. f_equal. by apply IH.
Qed.

(** C31: a repaired history is one a provider accepts: every tool result stands in
    the run right behind the assistant item whose call it answers, every call has
    exactly one result there, and no two calls share an identifier.  The repair
    adds and removes tool results only: every other item stays, in its order, with
    at most identifiers of calls changed. *)
Theorem repair_history_pairs (items : list Item) :
  let '(report, items') := repair_history items in
  well_paired items' ∧ NoDup (call_id_list items')
  ∧ map shape (without_results items') = map shape (without_results items).
Proof. apply repair_history_facts. Qed.

(** The repair is idempotent and its report is honest: it says "unchanged"
    exactly if the history is the one that went in, exactly if that history was
    acceptable already; and a second repair changes nothing and says so. *)
Theorem repair_history_idempotent (items : list Item) :
  let '(report, items') := repair_history items in
  (changed report = false ↔ items' = items)
  ∧ (changed report = false ↔ well_paired items ∧ NoDup (call_id_list items))
  ∧ repair_history items' = (mkReport 0 0 [] 0, items').
Proof.
  pose proof (repair_history_facts items) as Hf. destruct (repair_history items) as [report items'] eqn:E.
  destruct Hf as (Hw & Hnd & _).
  assert (changed report = false → items' = items) as Hun.
  { intros Hr%changed_false. subst report. rewrite repair_history_eq in E.
    destruct (repair_tool_call_ids items) as [n items1] eqn:E1.
    destruct (clean items1) as [[[d st] k] items2] eqn:E2. injection E as -> -> -> -> ->.
    apply clean_unchanged in E2 as ->. by apply repair_ids_unchanged. }
  assert (well_paired items → NoDup (call_id_list items) → changed report = false) as Hok.
  { intros Hw' Hnd'. rewrite repair_history_fixed in E by done. by injection E as <- <-. }
  split_and!; [| |by apply repair_history_fixed].
  - split; [done|]. intros ->. by apply Hok.
  - split; [intros <-%Hun; done|intros [??]; by apply Hok].
Qed.

End HistoryLaws.
