(* ===== verification/Tokens.v ===== *)
(** * Token estimates

    [crates/codegen/xai-token-estimation/src/lib.rs]: the four-bytes-a-token
    heuristic and the threshold tests on it, in [u64] with saturation; and the
    estimates of conversation items of [xai-chat-state/src/actor/state.rs].
    The byte lengths of strings in memory are exact: only products of given
    counts can reach the end of the range.  The percentages that go through
    [f64] come last. *)

From S2P Require Import Prelude RustStr ToolCallIds History.

#[local] Open Scope N_scope.

(** ** Saturating arithmetic *)

Definition saturating_mul (a b : N) : N := N.min (a * b) U64_MAX.

Definition byte_len (s : bytes) : N := N.of_nat (length s).

(** ** [xai-token-estimation] *)

Definition BYTES_PER_TOKEN : N := 4.
Definition IMAGE_TOKEN_ESTIMATE : N := 765.

Definition estimate_tokens (s : bytes) : N := byte_len s / BYTES_PER_TOKEN.
Definition estimate_chars (tokens : N) : N := saturating_mul tokens BYTES_PER_TOKEN.
Definition estimate_image_tokens (image_count : N) : N := saturating_mul image_count IMAGE_TOKEN_ESTIMATE.

(** [checked_div] fails on a zero total only. *)
Definition usage_percentage_truncated_u8 (used total : N) : N :=
  if total =? 0 then 0 else N.min (saturating_mul used 100 / total) 100.

Definition free_tokens (total used : N) : N := saturating_sub total used.

Definition exceeds_threshold (used context_window threshold_percent : N) : bool :=
  if context_window =? 0 then false
  else saturating_mul context_window threshold_percent <=? saturating_mul used 100.

Definition exceeds_threshold_with_headroom (used context_window threshold_percent headroom : N) : bool :=
  if context_window =? 0 then false
  else saturating_sub (saturating_mul context_window threshold_percent) (saturating_mul headroom 100)
       <=? saturating_mul used 100.

(** ** Estimates of items *)

Section Items.
Context `{Payloads}.

Definition sum_N (l : list N) : N := foldr N.add 0 l.

Definition text_bytes (parts : list ContentPart) : N :=
  sum_N (map (fun p => match p with Text t => byte_len t | Image _ => 0 end) parts).

Definition image_count (parts : list ContentPart) : N :=
  sum_N (map (fun p => if is_image p then 1 else 0) parts).

Definition estimate_item_tokens (item : Item) : N :=
  match item with
  | ISystem s => estimate_tokens (system_content s)
  | IUser u => text_bytes (user_content u) / BYTES_PER_TOKEN + estimate_image_tokens (image_count (user_content u))
  | IAssistant a =>
      (byte_len (assistant_content a) + sum_N (map (fun tc => byte_len (call_arguments tc)) (tool_calls a)))
      / BYTES_PER_TOKEN
  | IToolResult tr => estimate_tokens (result_content tr)
  | IBackendToolCall b => estimate_tokens (text_summary b)
  | IReasoning r =>
      let text_bytes := byte_len (reasoning_item_text r) in
      let enc_bytes := match encrypted_content r with Some e => byte_len e | None => 0 end in
      N.max text_bytes (enc_bytes * 3 / 4) / BYTES_PER_TOKEN
  end.

Definition estimate_system_message_tokens (item : Item) : N :=
  match item with ISystem s => estimate_tokens (system_content s) | _ => 0 end.

Definition estimate_conversation_tokens (items : list Item) : N := sum_N (map estimate_item_tokens items).

Definition estimate_messages_tokens (items : list Item) : N :=
  sum_N (map estimate_item_tokens (List.filter (fun i => negb (is_system i)) items)).

Lemma sum_N_app (a b : list N) : sum_N (a ++ b) = sum_N a + sum_N b.
Proof. induction a as [|x a IH]; [done|]. simpl. rewrite IH. lia. Qed.

Lemma estimate_app (a b : list Item) :
  estimate_conversation_tokens (a ++ b) = estimate_conversation_tokens a + estimate_conversation_tokens b.
Proof. unfold estimate_conversation_tokens. by rewrite map_app, sum_N_app. Qed.

Lemma estimate_cons (i : Item) (l : list Item) :
  estimate_conversation_tokens (i :: l) = estimate_item_tokens i + estimate_conversation_tokens l.
Proof. done. Qed.

End Items.

(** ** Thresholds *)

(** C35: the auto-compaction test is exact: as long as the products stay in 64
    bits it compares [used / window] with the percentage, rounding nowhere; past
    that it errs towards compaction, never away from it; and a headroom only makes
    it fire earlier.  The percentage shown beside it is the floor, at most 100. *)
Theorem threshold_exact (used window percent headroom : N) :
  0 < window → percent ≤ 255 →
  (used * 100 ≤ U64_MAX → window * percent ≤ U64_MAX →
   exceeds_threshold used window percent = true ↔ window * percent ≤ used * 100)
  ∧ (window * percent ≤ used * 100 → exceeds_threshold used window percent = true)
  ∧ (exceeds_threshold used window percent = true →
     exceeds_threshold_with_headroom used window percent headroom = true)
  ∧ exceeds_threshold_with_headroom used window percent 0 = exceeds_threshold used window percent
  ∧ usage_percentage_truncated_u8 used window ≤ 100
  ∧ (used ≤ window → used * 100 ≤ U64_MAX →
     let shown := usage_percentage_truncated_u8 used window in
     shown * window ≤ used * 100 < (shown + 1) * window).
Proof.
  intros Hw Hp. unfold exceeds_threshold, exceeds_threshold_with_headroom, usage_percentage_truncated_u8,
    saturating_sub, saturating_mul.
  assert ((window =? 0) = false) as -> by (apply N.eqb_neq; lia). rewrite !N.leb_le.
  split_and!; [generalize (window * percent); lia..| |apply N.le_min_r|].
  - by rewrite N.sub_0_r.
  - intros Hu Hm. rewrite (N.min_l (used * 100)) by done.
    assert (used * 100 / window ≤ 100) as Hd by (apply N.Div0.div_le_upper_bound; lia).
    rewrite N.min_l by done. split.
    + rewrite N.mul_comm. apply N.Div0.mul_div_le.
    + rewrite N.add_1_r, (N.mul_comm (N.succ _)). apply N.mul_succ_div_gt. lia.
Qed.

Lemma threshold_exact_witness :
  (0 < 1000 ∧ 85 ≤ 255) ∧ exceeds_threshold 850 1000 85 = true ∧ exceeds_threshold 849 1000 85 = false.
Proof.
  split; [lia|].
  destruct (threshold_exact 850 1000 85 0) as (H1 & _); [lia..|].
  destruct (threshold_exact 849 1000 85 0) as (H2 & _); [lia..|].
  split; [apply H1; vm_compute; done|].
  apply not_true_iff_false. intros H3. apply H2 in H3; vm_compute in *; done.
Defined.

(** ** The [f64] arithmetic of the token estimates

    IEEE 754 binary64 from the Standard Library's specification of floating-point
    numbers, which computes: conversion from [u64] (rounding to nearest, ties to
    even), division and multiplication, [min], [round] (ties away from zero) and the
    saturating cast back; and the percentages of
    [crates/codegen/xai-token-estimation/src/lib.rs] that go through them. *)

From Stdlib Require Import Floats.SpecFloat.

#[local] Open Scope Z_scope.

(** ** Operations *)

Definition f64_of_u64 (n : N) : spec_float := binary_normalize 53 1024 (Z.of_N n) 0 false.
Definition f64_div : spec_float → spec_float → spec_float := SFdiv 53 1024.
Definition f64_mul : spec_float → spec_float → spec_float := SFmul 53 1024.

(** [a.min(b)] for a [b] that is a number: it is also the answer when [a] is not. *)
Definition f64_min (a b : spec_float) : spec_float :=
  match SFcompare a b with Some Lt => a | _ => b end.

(** The nearest integer of [m * 2 ^ e], a half away from zero. *)
Definition round_half_up (m : positive) (e : Z) : Z :=
  if 0 <=? e then Zpos m * 2 ^ e else (2 * Zpos m / 2 ^ (- e) + 1) / 2.

(** [x.round() as uN] for the bound [max]: NaN gives zero, everything else
    saturates. *)
Definition round_as (max : N) (x : spec_float) : N :=
  match x with
  | S754_finite false m e => N.min max (Z.to_N (round_half_up m e))
  | S754_infinity false => max
  | _ => 0%N
  end.

Definition round_as_u64 : spec_float → N := round_as U64_MAX.
Definition round_as_u8 : spec_float → N := round_as 255.

(** ** Percentages *)

Definition usage_percentage (used total : N) : spec_float :=
  if (total =? 0)%N then S754_zero false
  else f64_min (f64_mul (f64_div (f64_of_u64 used) (f64_of_u64 total)) (f64_of_u64 100)) (f64_of_u64 100).

Definition usage_percentage_u8 (used total : N) : N := round_as_u8 (usage_percentage used total).

(** The cases the source's own tests fix. *)
Example percentages_round :
  map (fun p => usage_percentage_u8 p.1 p.2)
    [(0, 100); (50, 100); (99, 100); (12700, 256000); (150, 100); (85, 200); (7, 8); (5, 0)]%N
  = [0; 50; 99; 5; 100; 43; 88; 0]%N.
Proof. vm_compute. reflexivity. Qed.

Lemma round_as_bounded (max : N) (x : spec_float) : (round_as max x ≤ max)%N.
Proof. destruct x as [| [] | | [] m e]; simpl; lia. Qed.
