(* ===== verification/StrFind.v ===== *)
(** * Searching and replacing in text

    [str::find], [str::rfind] and [str::lines], and what replacement guarantees:
    a pattern that is broken up everywhere does not occur in the result, and no
    other pattern is created. *)

From stdpp Require Import pretty.
From S2P Require Import Prelude RustStr.

#[local] Open Scope nat_scope.

Definition newline : ascii := ascii_of_nat 10.
Definition carriage_return : ascii := ascii_of_nat 13.

(** [s.find(p)] and [s.rfind(p)] for a non-empty literal. *)
Definition find_str (p s : bytes) : option nat := (fun xy => length xy.1) <$> split_once_str p s.

Definition rfind_str (p s : bytes) : option nat :=
  (fun xy => length xy.2) <$> split_once_str (reverse p) (reverse s).

(** [s.lines()]: a line ends with a line feed, perhaps after a carriage return;
    a last line without one is taken as it is, unless it is empty. *)
Fixpoint strip_line_ends (pieces : list bytes) : list bytes :=
  match pieces with
  | [] => []
  | [last] => match last with [] => [] | _ => [last] end
  | line :: rest => default line (strip_suffix [carriage_return] line) :: strip_line_ends rest
  end.

Definition lines (s : bytes) : list bytes := strip_line_ends (split_on newline s).

(** A number as [format!] prints it. *)
Definition show_decimal (n : N) : bytes := $(pretty n).

(** [s.chars()]: a character is a byte that starts one with the continuation bytes
    behind it. *)
Fixpoint chars_go (s : bytes) : bytes * list bytes :=
  match s with
  | [] => ([], [])
  | a :: r =>
      let '(continuation, rest) := chars_go r in
      if is_continuation a then (a :: continuation, rest) else ([], (a :: continuation) :: rest)
  end.

Definition chars (s : bytes) : list bytes := (chars_go s).2.

(** ** Occurrences *)

Lemma contains_str_true (p s : bytes) : contains_str p s = true ↔ ∃ x y, s = x ++ p ++ y.
Proof.
  split.
  - induction s as [|a s IH]; simpl; rewrite orb_true_iff.
    + intros [[y Hy]%starts_with_true|?]; [|done]. by exists [], y.
    + intros [[y Hy]%starts_with_true|(x & y & ->)%IH]; [by exists [], y|by exists (a :: x), y].
  - intros (x & y & ->). induction x as [|a x IH]; simpl.
    + destruct (p ++ y) eqn:E; simpl; rewrite <-E, starts_with_app; done.
    + by rewrite IH, orb_true_r.
Qed.

Lemma contains_str_false (p s : bytes) : contains_str p s = false ↔ ∀ x y, s ≠ x ++ p ++ y.
Proof.
  rewrite <-not_true_iff_false, contains_str_true. naive_solver.
Qed.

Lemma contains_str_infix (p s x y : bytes) : contains_str p (x ++ s ++ y) = false → contains_str p s = false.
Proof.
  rewrite !contains_str_false. intros Hn u v ->. apply (Hn (x ++ u) (v ++ y)). by rewrite <-!app_assoc.
Qed.

Lemma contains_str_cons (p : bytes) (a : ascii) (s : bytes) :
  contains_str p (a :: s) = starts_with p (a :: s) || contains_str p s.
Proof. done. Qed.

Lemma split_once_str_Some (p s x y : bytes) :
  split_once_str p s = Some (x, y) → s = x ++ p ++ y ∧ ∀ u v, x ≠ [] → (x ++ p) = u ++ p ++ v → v = [].
Proof.
  revert x. induction s as [|a s IH]; intros x; simpl.
  - destruct (strip_prefix p []) as [r|] eqn:E; [|done]. intros [= <- <-]. apply strip_prefix_Some in E. split; [done|].
    by intros u v [].
  - destruct (strip_prefix p (a :: s)) as [r|] eqn:E.
    { intros [= <- <-]. apply strip_prefix_Some in E. split; [done|]. by intros u v []. }
    intros H. destruct (split_once_str p s) as [[x' y']|] eqn:E'; [|done]. injection H as <- <-.
    destruct (IH x') as [-> Hf]; [done|]. split; [done|]. intros u v _ Huv. destruct u as [|b u].
    + exfalso. simpl in Huv. assert (strip_prefix p (a :: x' ++ p ++ y') = Some (v ++ y')) as E2.
      { apply strip_prefix_Some. trans ((a :: x' ++ p) ++ y'); [by simpl; rewrite <-app_assoc|by rewrite Huv, <-app_assoc]. }
      by rewrite E2 in E.
    + injection Huv as -> Huv. destruct x' as [|c x']; [|by eapply Hf].
      simpl in Huv. apply (f_equal length) in Huv. rewrite !length_app in Huv. destruct v; [done|].
      simpl in Huv. lia.
Qed.

Lemma starts_with_strip (p s : bytes) :
  starts_with p s = match strip_prefix p s with Some _ => true | None => false end.
Proof.
  unfold starts_with. destruct (strip_prefix p s); [by apply bool_decide_eq_true|].
  apply bool_decide_eq_false. by intros [? ?].
Qed.

Lemma split_once_str_None (p s : bytes) : split_once_str p s = None ↔ contains_str p s = false.
Proof.
  induction s as [|a s IH].
  - cbn [split_once_str contains_str]. rewrite starts_with_strip. by destruct (strip_prefix p []).
  - cbn [split_once_str contains_str]. rewrite starts_with_strip. destruct (strip_prefix p (a :: s)); [done|].
    simpl. rewrite <-IH. destruct (split_once_str p s) as [[x y]|]; naive_solver.
Qed.

(** The first occurrence: what comes before holds none. *)
Lemma split_once_str_unique (c : ascii) (p x y : bytes) :
  c ∉ x → split_once_str (c :: p) (x ++ (c :: p) ++ y) = Some (x, y).
Proof.
  intros Hx. induction x as [|a x IH].
  - assert (strip_prefix (c :: p) ((c :: p) ++ y) = Some y) as E by (by apply strip_prefix_Some).
    change ([] ++ (c :: p) ++ y) with ((c :: p) ++ y).
    destruct ((c :: p) ++ y) eqn:E'; [done|]. cbn [split_once_str]. by rewrite E.
  - apply not_elem_of_cons in Hx as [Hac Hx]. change ((a :: x) ++ (c :: p) ++ y) with (a :: (x ++ (c :: p) ++ y)).
    cbn [split_once_str]. rewrite IH by done.
    assert (strip_prefix (c :: p) (a :: x ++ (c :: p) ++ y) = None) as ->; [|done].
    simpl. by rewrite bool_decide_eq_false_2.
Qed.

(** ** Replacement *)

Section Replace.
Context (c : ascii) (p rep : bytes).

(** What follows an occurrence of [c] and holds no [c] is untouched. *)
Lemma replace_prefix (t s : bytes) :
  c ∉ t → t `prefix_of` replace_go (c :: p) (c :: rep) 0 s → t `prefix_of` s.
Proof.
  revert s. induction t as [|b t IH]; intros s Hc Hp; [by apply prefix_nil|].
  apply not_elem_of_cons in Hc as [Hcb Hc]. destruct s as [|a s]; simpl in Hp; [by apply prefix_nil_inv in Hp|].
  destruct (starts_with (c :: p) (a :: s)).
  - simpl in Hp. by pose proof (prefix_cons_inv_1 _ _ _ _ Hp).
  - pose proof (prefix_cons_inv_1 _ _ _ _ Hp) as ->. apply prefix_cons. apply IH; [done|]. by eapply prefix_cons_inv_2.
Qed.

(** [q] does not occur in the result if it did not before, or is the pattern. *)
Lemma replace_go_free (b : ascii) (t s : bytes) (k : nat) :
  c ∉ t → (∀ out, contains_str (b :: t) ((c :: rep) ++ out) = contains_str (b :: t) out) →
  (b :: t = c :: p ∨ contains_str (b :: t) s = false) →
  contains_str (b :: t) (replace_go (c :: p) (c :: rep) k s) = false.
Proof.
  intros Hc Hrep. revert k. induction s as [|a s IH]; intros k Hq.
  { cbn [replace_go contains_str]. by rewrite starts_with_cons_nil. }
  assert (b :: t = c :: p ∨ contains_str (b :: t) s = false) as Hq'.
  { destruct Hq as [|Hq]; [by left|right]. rewrite contains_str_cons in Hq. by apply orb_false_iff in Hq as [_ ?]. }
  cbn [replace_go]. destruct k as [|k]; [|by apply IH].
  destruct (starts_with (c :: p) (a :: s)) eqn:E.
  - rewrite Hrep. by apply IH.
  - rewrite contains_str_cons, (IH 0 Hq'), orb_false_r. apply not_true_iff_false. intros Hst%starts_with_true.
    pose proof (prefix_cons_inv_1 _ _ _ _ Hst) as <-. apply prefix_cons_inv_2, replace_prefix in Hst; [|done].
    assert (starts_with (b :: t) (b :: s) = true) as Hs by (apply starts_with_true; by apply prefix_cons).
    destruct Hq as [Hq|Hq]; [congruence|]. rewrite contains_str_cons, Hs in Hq. done.
Qed.
End Replace.

(** A pattern whose first byte is not in the replacement is not created by it. *)
Lemma contains_str_skip (b : ascii) (t rep out : bytes) :
  b ∉ rep → contains_str (b :: t) (rep ++ out) = contains_str (b :: t) out.
Proof.
  induction rep as [|a rep IH]; intros Hb; [done|]. apply not_elem_of_cons in Hb as [Hba Hb].
  simpl app. rewrite contains_str_cons, starts_with_cons, IH by done. by rewrite bool_decide_eq_false_2.
Qed.

(** A replacement that is shorter than the pattern shortens the text. *)
Lemma replace_go_length (p rep s : bytes) (k : nat) :
  0 < length p → length rep ≤ length p → length (replace_go p rep k s) + Nat.min k (length s) ≤ length s.
Proof.
  intros Hp Hr. revert k. induction s as [|a s IH]; intros k; [simpl; lia|].
  cbn [replace_go]. destruct k as [|k].
  - destruct (starts_with p (a :: s)) eqn:E.
    + apply starts_with_true, prefix_length in E. simpl in E. rewrite length_app.
      specialize (IH (pred (length p))). simpl. lia.
    + simpl. specialize (IH 0). lia.
  - simpl. specialize (IH k). lia.
Qed.

Lemma replace_shorter (p rep s : bytes) :
  contains_str p s = true → length rep < length p → length (replace p rep s) < length s.
Proof.
  unfold replace. intros Hc Hl. induction s as [|a s IH].
  - simpl in Hc. rewrite orb_false_r in Hc. apply starts_with_true, prefix_length in Hc. simpl in Hc. lia.
  - rewrite contains_str_cons in Hc. cbn [replace_go]. destruct (starts_with p (a :: s)) eqn:E.
    + apply starts_with_true, prefix_length in E. simpl in E. rewrite length_app.
      pose proof (replace_go_length p rep s (pred (length p))). simpl. lia.
    + simpl in *. specialize (IH Hc). lia.
Qed.

(** ** Numbers and lines *)

Lemma pretty_N_go_digits (n : N) (s : string) :
  forallb is_ascii_digit $s = true → forallb is_ascii_digit $(pretty_N_go n s) = true.
Proof.
  revert s. induction (N.lt_wf_0 n) as [n _ IH]; intros s Hs.
  assert (n = 0 ∨ 0 < n)%N as [->|Hn] by lia; [by rewrite pretty_N_go_0|].
  rewrite pretty_N_go_step by done. apply IH; [by apply N.div_lt|].
  cbn [String.list_ascii_of_string forallb]. rewrite Hs, andb_true_r. unfold pretty_N_char. by repeat case_match.
Qed.

Lemma pretty_N_go_suffix (n : N) (s : string) : ∃ t, $(pretty_N_go n s) = t ++ $s.
Proof.
  revert s. induction (N.lt_wf_0 n) as [n _ IH]; intros s.
  assert (n = 0 ∨ 0 < n)%N as [->|Hn] by lia; [by exists []; rewrite pretty_N_go_0|].
  rewrite pretty_N_go_step by done.
  destruct (IH (n `div` 10)%N ltac:(by apply N.div_lt) (String.String (pretty_N_char (n `mod` 10)) s)) as [t ->].
  exists (t ++ [pretty_N_char (n `mod` 10)]). by rewrite <-app_assoc.
Qed.

Lemma show_decimal_digits (n : N) :
  forallb is_ascii_digit (show_decimal n) = true ∧ show_decimal n ≠ [].
Proof.
  unfold show_decimal, pretty, pretty_N. destruct (decide (n = 0%N)) as [|Hn]; [done|]. split.
  - by apply pretty_N_go_digits.
  - rewrite pretty_N_go_step by lia.
    destruct (pretty_N_go_suffix (n `div` 10) (String.String (pretty_N_char (n `mod` 10)) "")) as [t ->].
    by destruct t.
Qed.

Lemma lines_cons (w s : bytes) :
  newline ∉ w → carriage_return ∉ w → lines (w ++ newline :: s) = w :: lines s.
Proof.
  intros Hn Hc. unfold lines. rewrite split_on_app_sep by done.
  destruct (split_on newline s) as [|v vs] eqn:E; [by apply split_on_nonempty in E|].
  cbn [strip_line_ends]. f_equal. destruct (strip_suffix [carriage_return] w) eqn:Es; [|done].
  apply strip_suffix_Some in Es as ->. set_solver.
Qed.

Lemma lines_single (w : bytes) : newline ∉ w → w ≠ [] → lines w = [w].
Proof. intros Hn Hw. unfold lines. rewrite split_on_none by done. by destruct w. Qed.

(** ** Trimming line feeds and spaces off *)

Lemma head_ws_rev_app (s y : bytes) (a b : ascii) :
  code a < 128 → code b < 128 → s ≠ [] → head_ws_rev s = false → head_ws_rev (s ++ a :: b :: y) = false.
Proof.
  intros Ha Hb. destruct s as [|c [|d [|e s]]]; [done|..]; simpl; intros _ Hs; rewrite ?orb_false_r in Hs.
  - rewrite Hs, ws2_ascii, ws3_ascii by auto. done.
  - apply orb_false_iff in Hs as [-> ->]. simpl. apply ws3_ascii. auto.
  - done.
Qed.

(** A number below [10 ^ k] prints in at most [k] digits. *)
Lemma show_decimal_length (n : N) (k : nat) :
  (n < 10 ^ N.of_nat k)%N → 1 ≤ k → length (show_decimal n) ≤ k.
Proof.
  assert (∀ k n s, (n < 10 ^ N.of_nat k)%N → length $(pretty_N_go n s) ≤ k + length $s) as Hgo.
  { clear. induction k as [|k IH]; intros n s Hn.
    - assert (n = 0%N) as -> by (simpl in Hn; lia). rewrite pretty_N_go_0. lia.
    - assert (n = 0 ∨ 0 < n)%N as [->|Hp] by lia; [rewrite pretty_N_go_0; lia|].
      rewrite pretty_N_go_step by done. etrans; [apply IH|simpl; lia].
      rewrite Nat2N.inj_succ, N.pow_succ_r' in Hn. by apply N.Div0.div_lt_upper_bound. }
  intros Hn Hk. unfold show_decimal, pretty, pretty_N. destruct (decide (n = 0%N)); [done|].
  specialize (Hgo k n "" Hn). simpl in Hgo. lia.
Qed.

(** A printed number parses back. *)
Lemma parse_digits_pretty (bound n : N) (s : string) :
  (n < bound)%N → parse_digits bound 0 $(pretty_N_go n s) = parse_digits bound n $s.
Proof.
  revert s. induction (N.lt_wf_0 n) as [n _ IH]; intros s Hb.
  assert (n = 0 ∨ 0 < n)%N as [->|Hn] by lia; [by rewrite pretty_N_go_0|].
  rewrite pretty_N_go_step by done.
  assert (n `div` 10 < n)%N as Hq by (by apply N.div_lt).
  rewrite IH; [|done|by etrans]. cbn [String.list_ascii_of_string parse_digits].
  assert (is_ascii_digit (pretty_N_char (n `mod` 10)) = true
          ∧ N.of_nat (code (pretty_N_char (n `mod` 10)) - 48) = n `mod` 10)%N as [-> ->].
  { pose proof (N.mod_upper_bound n 10 ltac:(done)) as Hm. revert Hm. generalize (n `mod` 10)%N. intros m Hm.
    assert (m = 0 ∨ m = 1 ∨ m = 2 ∨ m = 3 ∨ m = 4 ∨ m = 5 ∨ m = 6 ∨ m = 7 ∨ m = 8 ∨ m = 9)%N as Hc by lia.
    by repeat destruct Hc as [->|Hc]; [..|subst m]. }
  rewrite (N.mul_comm _ 10), <-N.div_mod by done. by apply N.ltb_lt in Hb as ->.
Qed.

Lemma parse_show_decimal (bound n : N) : (n < bound)%N → parse_unsigned bound (show_decimal n) = Some n.
Proof.
  intros Hb. destruct (show_decimal_digits n) as [Hd Hne]. unfold parse_unsigned.
  assert (strip_prefix $"+" (show_decimal n) = None) as ->.
  { destruct (strip_prefix _ _) as [r|] eqn:E; [|done]. apply strip_prefix_Some in E. by rewrite E in Hd. }
  cbn [default]. unfold beq. rewrite bool_decide_eq_false_2 by done.
  unfold show_decimal, pretty, pretty_N. destruct (decide (n = 0%N)) as [->|Hn]; [|by rewrite parse_digits_pretty].
  change (parse_digits bound 0 ["0"%char] = Some 0%N). cbn [parse_digits]. change (is_ascii_digit "0") with true.
  change (0 * 10 + N.of_nat (code "0" - 48))%N with 0%N. by apply N.ltb_lt in Hb as ->.
Qed.

Lemma show_decimal_inj (a b : N) : show_decimal a = show_decimal b → a = b.
Proof.
  intros E. assert (Some a = Some b) as [=]; [|done].
  rewrite <-(parse_show_decimal (N.max a b + 1) a), <-(parse_show_decimal (N.max a b + 1) b) by lia. by rewrite E.
Qed.
