(* ===== verification/Tags.v ===== *)
(** * Tagged text of compaction

    The text transforms of [xai-chat-state/src/compaction_utils.rs] and
    [compaction_image_context.rs]: the tag blocks the runtime injects, the user
    query inside them, the summary a model wrote for the conversation, and the
    list of attached images.  All patterns are ASCII, so every offset the source
    computes is a character boundary and its [get(..)] never fails. *)

From S2P Require Import Prelude RustStr StrFind.

#[local] Open Scope nat_scope.

(** ** Loops *)

(** [while let Some(next) = step(state)]; [while_done] shows when the fuel is
    enough. *)
Fixpoint while_some {A} (fuel : nat) (step : A → option A) (state : A) : A :=
  match fuel with
  | O => state
  | S fuel => match step state with Some next => while_some fuel step next | None => state end
  end.

Lemma while_done {A} (step : A → option A) (measure : A → nat) (fuel : nat) (state : A) :
  (∀ a a', step a = Some a' → measure a' < measure a) → measure state < fuel →
  step (while_some fuel step state) = None.
Proof.
  intros Hm. revert state. induction fuel as [|fuel IH]; intros state Hf; [lia|]. simpl.
  destruct (step state) as [next|] eqn:E; [|done]. apply IH. apply Hm in E. lia.
Qed.

Lemma while_invariant {A} (P : A → Prop) (step : A → option A) (fuel : nat) (state : A) :
  (∀ a a', step a = Some a' → P a → P a') → P state → P (while_some fuel step state).
Proof.
  intros Hs. revert state. induction fuel as [|fuel IH]; intros state Hp; [done|]. simpl.
  destruct (step state) eqn:E; [|done]. by eapply IH, Hs.
Qed.

(** ** Tag blocks *)

Definition open_tag (tag : bytes) : bytes := $"<" ++ tag ++ $">".
Definition close_tag (tag : bytes) : bytes := $"</" ++ tag ++ $">".

Definition tag_block_range (text tag : bytes) : option (nat * nat) :=
  start ← find_str (open_tag tag) text;
  rel_end ← find_str (close_tag tag) (drop start text);
  Some (start, start + rel_end + length (close_tag tag)).

Definition slice (range : nat * nat) (text : bytes) : bytes := take (range.2 - range.1) (drop range.1 text).

Definition extract_tag_block (text tag : bytes) : option bytes :=
  range ← tag_block_range text tag; Some (slice range text).

Definition SYSTEM_TAGS : list bytes :=
  [$"user_info"; $"project_layout"; $"git_status"; $"fork-context"; $"system-reminder"; $"agent-memory";
   $"system_reminder"; $"background_context"; $"command-name"; $"command-message"; $"command-args"; $"rules"].

(** One round of the [while] loop: [replace_range(range, "")]. *)
Definition remove_block (tag text : bytes) : option bytes :=
  range ← tag_block_range text tag; Some (take range.1 text ++ drop range.2 text).

Definition strip_tag (text tag : bytes) : bytes := while_some (S (length text)) (remove_block tag) text.

Definition strip_system_tags (text : bytes) : bytes := trim (foldl strip_tag text SYSTEM_TAGS).

Definition extract_user_query (text : bytes) : bytes :=
  let stripped := strip_system_tags text in
  match find_str $"<user_query>" stripped with
  | Some start =>
      let content_start := start + length $"<user_query>" in
      match find_str $"</user_query>" (drop content_start stripped) with
      | Some e => trim (take e (drop content_start stripped))
      | None => stripped
      end
  | None => stripped
  end.

Definition wrap_user_query (text : bytes) : bytes :=
  $"<user_query>" ++ newline :: text ++ newline :: $"</user_query>".

Definition AUTO_CONTINUE_PROMPT : bytes :=
  $"Continue the conversation from where it left off without asking the user any further questions. Resume directly - do not acknowledge the summary, do not recap what was happening, do not preface with "
  ++ ascii_of_nat 34 :: $"I'll continue" ++ ascii_of_nat 34 :: $" or similar." ++ newline ::
  $"Pick up the last task as if the break never happened.".

(** [is_bootstrap_reminder_text] is constantly false in this build. *)
Definition is_bootstrap_reminder_text (text : bytes) : bool := false.

Definition is_synthetic_extracted_query (text : bytes) : bool :=
  (text =b []) || (text =b $"__auto_continue__") || (text =b AUTO_CONTINUE_PROMPT)
  || is_bootstrap_reminder_text text.

(** ** The summary of a compaction *)

(** One round of the loop over [<analysis>] blocks; the flag says that the round
    ended with [break]. *)
Definition analysis_step (state : bytes * bool) : option (bytes * bool) :=
  let '(s, broke) := state in
  if (broke : bool) then None
  else
    start ← find_str $"<analysis>" s;
    let is_leading :=
      match find_str $"<summary>" s with
      | Some sp =>
          (start <? sp)
          || (sp + length $"<summary>" <=? start)
             && (trim (slice (sp + length $"<summary>", start) s) =b [])
      | None => trim (take start s) =b []
      end in
    if negb is_leading then None
    else match find_str $"</analysis>" (drop start s) with
         | Some rel => Some (take start s ++ drop (start + rel + length $"</analysis>") s, false)
         | None =>
             let drop_to := match find_str $"<summary>" (drop start s) with
                            | Some rel => start + rel
                            | None => length s
                            end in
             Some (take start s ++ drop drop_to s, true)
         end.

Definition strip_analysis (s : bytes) : bytes := (while_some (S (S (length s))) analysis_step (s, false)).1.

Definition strip_leading_scratchpad (inner : bytes) : bytes :=
  let s := trim inner in
  let lead := trim_start_any ($"#*-> " ++ [ascii_of_nat 9]) s in
  let digit_led := match lead with a :: _ => is_ascii_digit a | [] => false end in
  let s := if digit_led then s
           else match rfind_str $"</analysis>" s with
                | Some pos => trim_start (drop (pos + length $"</analysis>") s)
                | None => s
                end in
  match strip_prefix $"<summary>" s with Some rest => trim_start rest | None => s end.

Definition unwrap_summary (s : bytes) : bytes :=
  match find_str $"<summary>" s, rfind_str $"</summary>" s with
  | Some start, Some e =>
      if start <? e then
        let inner := strip_leading_scratchpad (trim (slice (start + length $"<summary>", e) s)) in
        take start s ++ $"Summary:" ++ newline :: inner ++ drop (e + length $"</summary>") s
      else s
  | _, _ => s
  end.

(** U+200B in UTF-8. *)
Definition ZERO_WIDTH_SPACE : bytes := map ascii_of_nat [226; 128; 139].

(** The tokens after their [<], in the order of the replacements. *)
Definition CONTROL_TOKENS : list bytes :=
  [$"/summary>"; $"summary>"; $"/analysis>"; $"analysis>"; $"/summary_request>"; $"summary_request>"].

Definition less_than : ascii := "<"%char.

Definition neutralize_compaction_control_tokens (text : bytes) : bytes :=
  foldl (fun text t => replace (less_than :: t) (less_than :: ZERO_WIDTH_SPACE ++ t) text) text CONTROL_TOKENS.

Definition three_newlines : bytes := [newline; newline; newline].

Definition collapse_step (s : bytes) : option bytes :=
  if contains_str three_newlines s then Some (replace three_newlines [newline; newline] s) else None.

Definition collapse_newlines (s : bytes) : bytes := while_some (S (length s)) collapse_step s.

Definition format_compact_summary (summary : bytes) : bytes :=
  trim (collapse_newlines (neutralize_compaction_control_tokens (unwrap_summary (strip_analysis summary)))).

Definition format_compact_summary_content (raw_summary : bytes) : bytes :=
  $"This session is being continued from a previous conversation that ran out of context. The summary below covers the earlier portion of the conversation."
  ++ newline :: newline :: format_compact_summary raw_summary.

(** ** Searching finds within the text *)

Lemma find_str_Some (p s : bytes) (i : nat) :
  find_str p s = Some i → i + length p ≤ length s ∧ ∃ y, s = take i s ++ p ++ y.
Proof.
  unfold find_str. intros ([x y] & Hs & ->)%fmap_Some. apply split_once_str_Some in Hs as [-> _]. simpl.
  rewrite !length_app. split; [lia|]. exists y. by rewrite take_app_length.
Qed.

Lemma find_str_None (p s : bytes) : find_str p s = None ↔ contains_str p s = false.
Proof. unfold find_str. rewrite fmap_None. apply split_once_str_None. Qed.

(** ** The loops end *)

Lemma remove_block_shrinks (tag s s' : bytes) : remove_block tag s = Some s' → length s' < length s.
Proof.
  unfold remove_block, tag_block_range.
  intros (range & (i & Ei & (j & Ej & [= <-])%bind_Some)%bind_Some & [= <-])%bind_Some.
  apply find_str_Some in Ei as [Hi _], Ej as [Hj _]. rewrite length_app, length_take, length_drop in *.
  assert (0 < length (close_tag tag)) by (unfold close_tag; rewrite length_app; simpl; lia). simpl. lia.
Qed.

Lemma strip_tag_done (text tag : bytes) : remove_block tag (strip_tag text tag) = None.
Proof. apply (while_done _ length); [intros a a'; apply remove_block_shrinks|lia]. Qed.

Definition analysis_measure (state : bytes * bool) : nat := if state.2 then 0 else S (length state.1).

Lemma analysis_step_shrinks (a a' : bytes * bool) :
  analysis_step a = Some a' → analysis_measure a' < analysis_measure a.
Proof.
  destruct a as [s []]; [done|]. unfold analysis_step, analysis_measure. intros Hs.
  apply bind_Some in Hs as (i & Ei & Hs).
  destruct (negb _); [done|]. apply find_str_Some in Ei as [Hi _].
  destruct (find_str $"</analysis>" (drop i s)) as [j|].
  - injection Hs as <-. cbn [fst snd]. rewrite length_app, length_take, length_drop. simpl length in *. lia.
  - injection Hs as <-. simpl. lia.
Qed.

Lemma collapse_step_shrinks (s s' : bytes) : collapse_step s = Some s' → length s' < length s.
Proof.
  unfold collapse_step. destruct (contains_str three_newlines s) eqn:E; [|done]. intros [= <-].
  apply replace_shorter; [done|simpl; lia].
Qed.

Lemma collapse_done (s : bytes) : collapse_step (collapse_newlines s) = None.
Proof. apply (while_done _ length); [apply collapse_step_shrinks|lia]. Qed.

(** The loops over model-written and user-written text terminate: each leaves
    by its own exit condition, because every round that goes on shortens the text.
    No [<analysis>] block is left to drop, no run of three line feeds is left to
    collapse, and no closed block of a system tag is left in the text its loop
    returns. *)
Theorem text_loops_terminate (text tag : bytes) :
  analysis_step (while_some (S (S (length text))) analysis_step (text, false)) = None
  ∧ collapse_step (collapse_newlines text) = None
  ∧ remove_block tag (strip_tag text tag) = None.
Proof.
  split_and!.
  - apply (while_done _ analysis_measure); [apply analysis_step_shrinks|unfold analysis_measure; simpl; lia].
  - apply collapse_done.
  - apply strip_tag_done.
Qed.

(** ** The summary is inert *)

(** The guarded token [rep] starts with [<] but not with a token. *)
Lemma guarded_free (t tok out : bytes) (a : ascii) (r : bytes) :
  t = a :: r → code a < 128 → less_than ∉ tok →
  contains_str (less_than :: t) ((less_than :: ZERO_WIDTH_SPACE ++ tok) ++ out) = contains_str (less_than :: t) out.
Proof.
  intros -> Ha Htok. cbn [app]. rewrite contains_str_cons, starts_with_cons.
  assert (starts_with (a :: r) ((ZERO_WIDTH_SPACE ++ tok) ++ out) = false) as ->.
  { unfold ZERO_WIDTH_SPACE. cbn [map app]. rewrite starts_with_cons, bool_decide_eq_false_2; [done|].
    intros ->. apply Nat.ltb_lt in Ha. by vm_compute in Ha. }
  rewrite andb_false_r, orb_false_l. apply contains_str_skip. apply not_elem_of_app. split; [|done].
  apply (bool_decide_unpack _). by vm_compute.
Qed.

Lemma control_token_shape (t : bytes) :
  t ∈ CONTROL_TOKENS → less_than ∉ t ∧ newline ∉ t ∧ ∃ a r, t = a :: r ∧ code a < 128.
Proof.
  intros Ht. split_and!.
  - revert t Ht. apply Forall_forall. apply (bool_decide_unpack _). by vm_compute.
  - revert t Ht. apply Forall_forall. apply (bool_decide_unpack _). by vm_compute.
  - assert (Forall (fun t => ∃ a r, t = a :: r ∧ code a < 128) CONTROL_TOKENS) as Hf; [|by rewrite Forall_forall in Hf; apply Hf].
    unfold CONTROL_TOKENS.
    repeat (apply Forall_cons; split; [eexists _, _; split; [reflexivity|vm_compute; lia]|]). apply Forall_nil_2.
Qed.

Lemma neutralize_go (todo : list bytes) (s t : bytes) :
  (∀ u, u ∈ todo → u ∈ CONTROL_TOKENS) → t ∈ CONTROL_TOKENS →
  t ∈ todo ∨ contains_str (less_than :: t) s = false →
  contains_str (less_than :: t)
    (foldl (fun text t => replace (less_than :: t) (less_than :: ZERO_WIDTH_SPACE ++ t) text) s todo) = false.
Proof.
  intros Htodo Ht. destruct (control_token_shape t Ht) as (Hlt & _ & a & r & E & Ha).
  revert s. induction todo as [|u todo IH]; intros s Hs; simpl.
  { by destruct Hs as [?%elem_of_nil|]. }
  apply IH; [intros; apply Htodo; by right|].
  destruct (decide (t ∈ todo)) as [|Hn]; [by left|right].
  destruct (control_token_shape u (Htodo u ltac:(left))) as (Hu & _).
  unfold replace. apply replace_go_free; [done| |].
  - intros out. by eapply guarded_free.
  - destruct Hs as [[->|?]%elem_of_cons|]; [by left|done|by right].
Qed.

Lemma collapse_free (b : ascii) (t s : bytes) :
  newline ∉ b :: t → contains_str (b :: t) s = false → contains_str (b :: t) (collapse_newlines s) = false.
Proof.
  intros [Hb Ht]%not_elem_of_cons Hs. unfold collapse_newlines.
  apply (while_invariant (fun s => contains_str (b :: t) s = false)); [|done].
  intros s1 s2 Hstep H1. unfold collapse_step in Hstep. destruct (contains_str three_newlines s1); [|done].
  injection Hstep as <-. unfold replace, three_newlines. apply replace_go_free; [done| |by right].
  intros out. apply contains_str_skip. rewrite !not_elem_of_cons. split_and!; [done..|apply not_elem_of_nil].
Qed.

Lemma trim_infix (s : bytes) : ∃ x y, s = x ++ trim s ++ y.
Proof.
  destruct (trim_start_suffix s) as [x Hx]. destruct (trim_start_rev_suffix (reverse (trim_start s))) as [y Hy].
  exists x, (reverse y). unfold trim, trim_end. rewrite Hx at 1. f_equal.
  rewrite <-reverse_app, <-Hy. by rewrite reverse_involutive.
Qed.

Lemma trim_free (p s : bytes) : contains_str p s = false → contains_str p (trim s) = false.
Proof. destruct (trim_infix s) as (x & y & E). rewrite E at 1. apply contains_str_infix. Qed.

(** A cleaned summary cannot act as compaction markup, whatever the model
    wrote: no opening or closing [summary], [analysis] or [summary_request] tag is
    left in it, nor three line feeds in a row. *)
Theorem summary_inert (raw t : bytes) :
  t ∈ CONTROL_TOKENS →
  contains_str (less_than :: t) (format_compact_summary raw) = false
  ∧ contains_str three_newlines (format_compact_summary raw) = false.
Proof.
  intros Ht. unfold format_compact_summary. split; apply trim_free.
  - destruct (control_token_shape t Ht) as (_ & Hn & _). apply collapse_free.
    { apply not_elem_of_cons. split; [|done]. apply (bool_decide_unpack _). by vm_compute. }
    unfold neutralize_compaction_control_tokens. apply neutralize_go; [done|done|by left].
  - pose proof (collapse_done (neutralize_compaction_control_tokens (unwrap_summary (strip_analysis raw)))) as Hc.
    unfold collapse_step in Hc. by destruct (contains_str three_newlines _).
Qed.

Lemma summary_inert_witness :
  $"summary>" ∈ CONTROL_TOKENS
  ∧ contains_str (less_than :: $"summary>") (format_compact_summary $"<summary>a<summary>b</summary>") = false.
Proof.
  assert ($"summary>" ∈ CONTROL_TOKENS) as Ht by (apply (bool_decide_unpack _); by vm_compute).
  split; [done|]. by apply (summary_inert $"<summary>a<summary>b</summary>").
Defined.

(** ** Attached images: [compaction_image_context.rs] *)

Definition numbered_path (line : bytes) : option bytes :=
  '(number, path) ← split_once_str $". " (trim line);
  if negb (number =b []) && forallb is_ascii_digit number then Some (trim path) else None.

(** The state is the rest of the text and the paths found. *)
Definition image_files_step (state : bytes * list bytes) : option (bytes * list bytes) :=
  let '(rest, paths) := state in
  range ← tag_block_range rest $"image_files";
  Some (drop range.2 rest, paths ++ omap numbered_path (lines (slice range rest))).

Definition parse_image_files_paths (text : bytes) : list bytes :=
  (while_some (S (length text)) image_files_step (text, [])).2.

(** Control characters go, angle brackets become look-alikes (U+2039, U+203A). *)
Definition scrub_char (a : ascii) : bytes :=
  if bool_decide (a = "<"%char) then map ascii_of_nat [226; 128; 185]
  else if bool_decide (a = ">"%char) then map ascii_of_nat [226; 128; 186]
  else if (code a <? 32) || (code a =? 127) then []
  else [a].

Definition scrub_for_envelope (s : bytes) : bytes := flat_map scrub_char s.

Fixpoint numbered_lines (i : nat) (paths : list bytes) : bytes :=
  match paths with
  | [] => []
  | path :: rest =>
      show_decimal (N.of_nat (i + 1)) ++ $". " ++ scrub_for_envelope path ++ newline :: numbered_lines (i + 1) rest
  end.

Definition image_files_block (lead : bytes) (paths : list bytes) (trailer : bytes) : bytes :=
  $"<image_files>" ++ newline :: lead ++ newline :: numbered_lines 0 paths ++ trailer ++ $"</image_files>".

Definition render_image_files_block (paths : list bytes) : option bytes :=
  if bool_decide (length paths = 0) then None
  else Some (image_files_block
    $"The following images were provided by the user and saved to the workspace for future use:" paths
    (newline :: $"These images can be copied for use in other locations." ++ [newline])).

Definition ATTACHED_LEAD : bytes :=
  $"Images the user attached earlier in this session (before the summary above) are saved at the absolute paths below. They live under the session directory, not the workspace. If one matters for the current task, open it with read_file; do not ask the user to re-send it.".

Definition render_attached_image_paths_note (paths : list bytes) : bytes := image_files_block ATTACHED_LEAD paths [].

(** The order of [collect_attached_image_paths]: a repeated path takes its latest
    position. *)
Definition latest_positions (chronological : list bytes) : list bytes :=
  reverse (foldl (fun seen path => if bool_decide (path ∈ seen) then seen else seen ++ [path]) []
             (reverse chronological)).

(** ** A wrapped query is extracted again *)

Lemma trim_start_snoc (s : bytes) :
  trim_start (s ++ [newline]) = match trim_start s with [] => [] | t => t ++ [newline] end.
Proof.
  assert (code newline < 128) as Hn by (apply Nat.ltb_lt; by vm_compute).
  induction s as [s IH] using (induction_ltof1 _ (@length ascii)); unfold ltof in IH.
  destruct s as [|a [|b [|c r]]]; [done|..].
  - cbn [app trim_start]. destruct (ws1 a); [done|]. by rewrite ws2_ascii by auto.
  - cbn [app trim_start]. destruct (ws1 a); [apply (IH [b]); simpl; lia|]. destruct (ws2 a b); [done|].
    by rewrite ws3_ascii by auto.
  - cbn [app trim_start]. destruct (ws1 a); [apply (IH (b :: c :: r)); simpl; lia|].
    destruct (ws2 a b); [apply (IH (c :: r)); simpl; lia|]. by destruct (ws3 a b c); [apply IH; simpl; lia|].
Qed.

Lemma trim_line_feeds (s : bytes) : trim (newline :: s ++ [newline]) = trim s.
Proof.
  unfold trim. assert (trim_start (newline :: s ++ [newline]) = trim_start (s ++ [newline])) as -> by done.
  rewrite trim_start_snoc. destruct (trim_start s) as [|a t]; [done|]. unfold trim_end.
  by rewrite reverse_snoc.
Qed.

(** The two tags of a wrapped query are not the open tags of other blocks. *)
Lemma wrap_no_tag (tag q : bytes) :
  less_than ∉ q → starts_with (tag ++ $">") ($"user_query>" ++ newline :: q ++ newline :: $"</user_query>") = false →
  starts_with (tag ++ $">") $"/user_query>" = false → remove_block tag (wrap_user_query q) = None.
Proof.
  intros Hq H1 H2. unfold remove_block, tag_block_range.
  assert (find_str (open_tag tag) (wrap_user_query q) = None) as ->; [|done]. apply find_str_None.
  change (open_tag tag) with (less_than :: tag ++ $">").
  change (wrap_user_query q) with (less_than :: $"user_query>" ++ newline :: q ++ newline :: $"</user_query>").
  rewrite contains_str_cons, starts_with_cons, H1, andb_false_r, orb_false_l.
  assert ($"user_query>" ++ newline :: q ++ newline :: $"</user_query>"
    = ($"user_query>" ++ newline :: q ++ [newline]) ++ less_than :: $"/user_query>") as ->
    by (by rewrite <-!app_assoc; simpl; rewrite <-app_assoc).
  rewrite contains_str_skip, contains_str_cons, starts_with_cons, H2, andb_false_r, orb_false_l.
  - apply (bool_decide_unpack _). by vm_compute.
  - rewrite not_elem_of_app, not_elem_of_cons, not_elem_of_app. split_and!; [|done|done|];
      apply (bool_decide_unpack _); by vm_compute.
Qed.

Lemma strip_tags_wrapped (q : bytes) : less_than ∉ q → strip_system_tags (wrap_user_query q) = wrap_user_query q.
Proof.
  intros Hq. unfold strip_system_tags.
  assert (∀ tag, remove_block tag (wrap_user_query q) = None → strip_tag (wrap_user_query q) tag = wrap_user_query q)
    as Hskip by (intros tag E; unfold strip_tag; cbn [while_some]; by rewrite E).
  unfold SYSTEM_TAGS. cbn [foldl].
  repeat (rewrite Hskip; [|apply wrap_no_tag; [exact Hq|rewrite starts_with_strip; by vm_compute..]]).
  apply trim_fix. split; [by apply head_ws_plain|].
  unfold wrap_user_query. rewrite reverse_app, reverse_cons, reverse_app, reverse_cons. by apply head_ws_rev_plain.
Qed.

(** What [wrap_user_query] wraps, [extract_user_query] returns, trimmed: a query
    without angle brackets survives the round trip through the history. *)
Theorem query_roundtrip (q : bytes) : less_than ∉ q → extract_user_query (wrap_user_query q) = trim q.
Proof.
  intros Hq. unfold extract_user_query. rewrite strip_tags_wrapped by done.
  assert (find_str $"<user_query>" (wrap_user_query q) = Some 0) as ->.
  { unfold find_str. change (wrap_user_query q) with ([] ++ (less_than :: $"user_query>")
      ++ (newline :: q ++ newline :: $"</user_query>")).
    change $"<user_query>" with (less_than :: $"user_query>"). by rewrite split_once_str_unique by apply not_elem_of_nil. }
  assert (drop (0 + length $"<user_query>") (wrap_user_query q) = (newline :: q ++ [newline]) ++ (less_than :: $"/user_query>") ++ [])
    as -> by (unfold wrap_user_query; simpl; by rewrite <-app_assoc).
  unfold find_str. change $"</user_query>" with (less_than :: $"/user_query>"). rewrite split_once_str_unique.
  - cbn [fmap option_fmap option_map fst]. rewrite take_app_length. apply trim_line_feeds.
  - rewrite not_elem_of_cons, not_elem_of_app. split_and!; [done|done|]. apply (bool_decide_unpack _). by vm_compute.
Qed.

Lemma query_roundtrip_witness :
  less_than ∉ $"fix the bug" ∧ extract_user_query (wrap_user_query $"fix the bug") = $"fix the bug".
Proof.
  assert (less_than ∉ $"fix the bug") as Hq by (apply (bool_decide_unpack _); by vm_compute).
  split; [done|]. rewrite (query_roundtrip _ Hq). by vm_compute.
Defined.

(** ** The note of attached images is read back *)

(** What [scrub_for_envelope] leaves holds no angle bracket and no line end. *)
Definition envelope_safe (s : bytes) : Prop :=
  less_than ∉ s ∧ newline ∉ s ∧ carriage_return ∉ s.

Lemma envelope_safe_app (s t : bytes) : envelope_safe (s ++ t) ↔ envelope_safe s ∧ envelope_safe t.
Proof. unfold envelope_safe. rewrite !not_elem_of_app. naive_solver. Qed.

Lemma envelope_safe_ascii (s : bytes) :
  forallb (fun a => negb (bool_decide (a ∈ [less_than; newline; carriage_return]))) s = true → envelope_safe s.
Proof.
  unfold envelope_safe. intros Hs. rewrite forallb_forall in Hs.
  split_and!; intros Hin%list_elem_of_In%Hs; bool_prop; apply Hin; set_solver.
Qed.

Lemma scrub_safe (s : bytes) : envelope_safe (scrub_for_envelope s).
Proof.
  induction s as [|a s IH]; [by split_and!; apply not_elem_of_nil|].
  change (scrub_for_envelope (a :: s)) with (scrub_char a ++ scrub_for_envelope s).
  apply envelope_safe_app. split; [|done]. unfold scrub_char.
  repeat case_bool_decide; [by apply envelope_safe_ascii; vm_compute..|].
  destruct ((code a <? 32) || (code a =? 127)) eqn:E; [by split_and!; apply not_elem_of_nil|].
  apply orb_false_iff in E as [E _].
  split_and!; intros Ea%list_elem_of_singleton; subst a; [done|by vm_compute in E..].
Qed.

Lemma digits_safe (n : N) : envelope_safe (show_decimal n).
Proof.
  apply envelope_safe_ascii. destruct (show_decimal_digits n) as [Hd _]. rewrite forallb_forall in *.
  intros a Ha. specialize (Hd a Ha). apply negb_true_iff, bool_decide_eq_false.
  rewrite !elem_of_cons, elem_of_nil. by intros [->|[->|[->|[]]]].
Qed.

Definition numbered_line (i : nat) (path : bytes) : bytes :=
  show_decimal (N.of_nat (i + 1)) ++ $". " ++ scrub_for_envelope path.

Lemma numbered_line_safe (i : nat) (path : bytes) : envelope_safe (numbered_line i path).
Proof.
  unfold numbered_line. rewrite !envelope_safe_app.
  split_and!; [apply digits_safe|by apply envelope_safe_ascii; vm_compute|apply scrub_safe].
Qed.

Lemma numbered_lines_no_tag (i : nat) (paths : list bytes) : less_than ∉ numbered_lines i paths.
Proof.
  revert i. induction paths as [|p paths IH]; intros i; [apply not_elem_of_nil|]. cbn [numbered_lines].
  destruct (numbered_line_safe i p) as (Hl & _). unfold numbered_line in Hl.
  rewrite !not_elem_of_app in Hl. rewrite !not_elem_of_app, not_elem_of_cons. destruct Hl as (? & ? & ?).
  by split_and!.
Qed.

Lemma note_range (paths : list bytes) :
  tag_block_range (render_attached_image_paths_note paths) $"image_files"
  = Some (0, length (render_attached_image_paths_note paths)).
Proof.
  unfold tag_block_range, render_attached_image_paths_note, image_files_block.
  set (inner := newline :: ATTACHED_LEAD ++ newline :: numbered_lines 0 paths).
  assert (less_than ∉ inner) as Hi.
  { unfold inner. rewrite not_elem_of_cons, not_elem_of_app, not_elem_of_cons.
    split_and!; [done| |done|apply numbered_lines_no_tag]. apply (bool_decide_unpack _). by vm_compute. }
  assert ($"<image_files>" ++ newline :: ATTACHED_LEAD ++ newline :: numbered_lines 0 paths ++ [] ++ $"</image_files>"
    = less_than :: ($"image_files>" ++ inner) ++ (less_than :: $"/image_files>") ++ []) as ->
    by (unfold inner; rewrite app_nil_r; repeat (rewrite <-app_assoc || rewrite <-app_comm_cons); done).
  assert (find_str (open_tag $"image_files") (less_than :: ($"image_files>" ++ inner) ++ (less_than :: $"/image_files>") ++ [])
    = Some 0) as ->.
  { unfold find_str. rewrite <-app_assoc.
    change (less_than :: $"image_files>" ++ inner ++ (less_than :: $"/image_files>") ++ [])
      with ([] ++ (less_than :: $"image_files>") ++ (inner ++ (less_than :: $"/image_files>") ++ [])).
    change (open_tag $"image_files") with (less_than :: $"image_files>").
    by rewrite split_once_str_unique by apply not_elem_of_nil. }
  cbn [mbind option_bind]. rewrite drop_0. unfold find_str.
  assert (split_once_str (close_tag $"image_files")
      (less_than :: ($"image_files>" ++ inner) ++ (less_than :: $"/image_files>") ++ [])
    = Some (less_than :: $"image_files>" ++ inner, [])) as ->.
  { change (close_tag $"image_files") with (less_than :: $"/image_files>"). cbn [split_once_str].
    rewrite split_once_str_unique; [done|].
    apply not_elem_of_app. split; [|done]. apply (bool_decide_unpack _). by vm_compute. }
  cbn [fmap option_fmap option_map fst mbind option_bind]. f_equal. f_equal.
  assert (length (close_tag $"image_files") = S (length $"/image_files>")) as -> by done.
  rewrite app_nil_r. cbn [length]. rewrite !length_app. cbn [length]. lia.
Qed.

Lemma lines_numbered (i : nat) (paths : list bytes) :
  lines (numbered_lines i paths ++ $"</image_files>")
  = imap (fun k => numbered_line (i + k)) paths ++ [$"</image_files>"].
Proof.
  revert i. induction paths as [|p paths IH]; intros i.
  { apply lines_single; [|done]. apply (bool_decide_unpack _). by vm_compute. }
  cbn [numbered_lines imap app]. destruct (numbered_line_safe i p) as (_ & Hn & Hc).
  assert ((show_decimal (N.of_nat (i + 1)) ++ $". " ++ scrub_for_envelope p ++ newline :: numbered_lines (i + 1) paths)
    ++ $"</image_files>" = numbered_line i p ++ newline :: numbered_lines (i + 1) paths ++ $"</image_files>") as ->
    by (unfold numbered_line; by rewrite <-!app_assoc).
  rewrite lines_cons, IH by done. rewrite Nat.add_0_r. f_equal. f_equal. apply imap_ext.
  intros k x _. simpl. f_equal. lia.
Qed.

Lemma numbered_path_line (i : nat) (path : bytes) :
  path ≠ [] → scrub_for_envelope path = path → trim path = path → numbered_path (numbered_line i path) = Some path.
Proof.
  intros Hne Hs Ht. unfold numbered_path, numbered_line. rewrite Hs.
  destruct (show_decimal_digits (N.of_nat (i + 1))) as [Hd Hd0]. set (d := show_decimal _) in *.
  assert (trim (d ++ $". " ++ path) = d ++ $". " ++ path) as ->.
  { apply trim_fix in Ht as [Hh Hr]. apply trim_fix. split.
    - destruct d as [|c d]; [done|]. apply head_ws_plain. simpl in Hd. apply andb_true_iff in Hd as [Hd _].
      unfold is_ascii_digit in Hd. unfold plain, ws1. bool_prop.
      rewrite andb_true_iff, negb_true_iff, Nat.ltb_lt. split; [|lia]. unfold code in *. 
      rewrite orb_false_iff, andb_false_iff, !Nat.leb_gt, !Nat.eqb_neq. lia.
    - rewrite !reverse_app. change (reverse $". ") with [" "%char; "."%char]. rewrite <-app_assoc.
      apply head_ws_rev_app; [apply Nat.ltb_lt; by vm_compute..| |done].
      intros E. apply (f_equal reverse) in E. rewrite reverse_involutive in E. done. }
  change $". " with ("."%char :: $" "). rewrite split_once_str_unique.
  - cbn [mbind option_bind]. rewrite Hd, Ht, (proj2 (beq_false d []) Hd0). done.
  - intros Hin%list_elem_of_In. rewrite forallb_forall in Hd. by apply Hd in Hin.
Qed.

(** The note of attached images is read back by the parser that wrote it: the
    block spans the whole note whatever the paths contain, so no path closes the
    envelope early, and paths that are clean and trimmed come back as they are, in
    order. *)
Theorem image_note_roundtrip (paths : list bytes) :
  tag_block_range (render_attached_image_paths_note paths) $"image_files"
  = Some (0, length (render_attached_image_paths_note paths))
  ∧ ((∀ p, p ∈ paths → p ≠ [] ∧ scrub_for_envelope p = p ∧ trim p = p) →
     parse_image_files_paths (render_attached_image_paths_note paths) = paths).
Proof.
  split; [apply note_range|]. intros Hp. unfold parse_image_files_paths.
  set (note := render_attached_image_paths_note paths).
  assert (0 < length note) as Hlen by (unfold note, render_attached_image_paths_note, image_files_block; simpl; lia).
  destruct (length note) as [|n] eqn:El; [lia|]. cbn [while_some image_files_step].
  pose proof (note_range paths) as Hr. fold note in Hr. rewrite Hr. cbn [mbind option_bind fst snd]. rewrite El.
  assert (drop (S n) note = []) as -> by (rewrite <-El; apply drop_all).
  cbn [image_files_step]. assert (tag_block_range [] $"image_files" = None) as -> by done. cbn [mbind option_bind snd app].
  assert (slice (0, S n) note = note) as ->
    by (unfold slice; cbn [fst snd]; rewrite <-El, Nat.sub_0_r, drop_0; apply firstn_all).
  unfold note, render_attached_image_paths_note, image_files_block. cbn [app].
  rewrite (lines_cons $"<image_files>"), (lines_cons ATTACHED_LEAD), lines_numbered by
    (apply (bool_decide_unpack _); by vm_compute).
  assert (omap numbered_path ($"<image_files>" :: ATTACHED_LEAD :: imap (fun k => numbered_line (0 + k)) paths ++ [$"</image_files>"])
    = omap numbered_path (imap (fun k => numbered_line (0 + k)) paths ++ [$"</image_files>"])) as -> by done.
  rewrite omap_app. assert (omap numbered_path [$"</image_files>"] = []) as -> by done. rewrite app_nil_r.
  clear -Hp. generalize 0. induction paths as [|p paths IH]; intros i; [done|].
  cbn [imap omap list_omap]. destruct (Hp p) as (H1 & H2 & H3); [by left|].
  rewrite numbered_path_line by done. f_equal.
  rewrite <-(IH ltac:(intros; apply Hp; by right) (S i)) at 2. f_equal. apply imap_ext. intros k x _. simpl. f_equal. lia.
Qed.

Lemma image_note_roundtrip_witness :
  parse_image_files_paths (render_attached_image_paths_note [$"/a/1.png"; $"/b c/2.png"]) = [$"/a/1.png"; $"/b c/2.png"].
Proof.
  apply image_note_roundtrip. intros p Hp. rewrite !elem_of_cons, elem_of_nil in Hp.
  destruct Hp as [->|[->|[]]]; (split_and!; [done|by vm_compute..]).
Defined.
