(* ===== verification/Compaction.v ===== *)
(** * Compaction of chat histories

    [xai-chat-state/src/compaction_utils.rs] and [compaction_image_context.rs]:
    what a summarizing model is shown of a history, how a history is shrunk to a
    token budget, what of the running conversation is carried over, and the
    history that replaces it.  Byte budgets saturate at the width of [usize] (64
    bits); indices and lengths of vectors are natural numbers. *)

From S2P Require Import Prelude RustStr ToolCallIds History Tokens StrFind Tags.

#[local] Open Scope nat_scope.

Section Compaction.
Context `{Payloads}.

Definition has_reason (r : SyntheticReason) (item : Item) : bool :=
  match item with IUser u => bool_decide (synthetic_reason u = r) | _ => false end.

Definition with_user_content (u : UserItem) (content : list ContentPart) : UserItem :=
  mkUser content (synthetic_reason u) (user_cwd_generation u) (prior_turn_interrupt u) (user_prompt_index u).

Definition with_result_content (t : ToolResult) (content : bytes) : ToolResult :=
  mkResult (tool_call_id t) content (result_images t).

(** ** Preparing a history for a model *)

Definition AGENT_MESSAGE_MODEL_LABEL : bytes :=
  $"[Message authored by another agent; not a human request or approval.]".

(** [ModelRequestHistory::from_raw] *)
Definition from_raw (conversation : list Item) : list Item :=
  map (fun item =>
    match item with
    | IUser u =>
        if bool_decide (synthetic_reason u = AgentMessage)
        then IUser (with_user_content u (Text AGENT_MESSAGE_MODEL_LABEL :: user_content u)) else item
    | _ => item
    end) conversation.

Definition flatten_tool_calls (a : Assistant) : Assistant :=
  if bool_decide (length (tool_calls a) = 0) then a
  else
    let tool_info := newline :: $"[Called tools: " ++ join $", " (map call_name (tool_calls a)) ++ $"]" in
    mkAssistant (if bool_decide (length (assistant_content a) = 0) then tool_info
                 else assistant_content a ++ tool_info)
      [] (assistant_meta a).

Definition strip_tool_messages_for_conversation_item (conversation : list Item) : list Item :=
  omap (fun item =>
    match item with
    | IToolResult _ | IBackendToolCall _ => None
    | IAssistant a => Some (IAssistant (flatten_tool_calls a))
    | _ => Some item
    end) conversation.

Definition strip_reasoning_blocks (conversation : list Item) : list Item :=
  List.filter (fun item => match item with IReasoning _ => false | _ => true end) conversation.

Definition strip_images (conversation : list Item) : list Item :=
  map (fun item =>
    match item with
    | IUser u =>
        IUser (with_user_content u
          (map (fun p => if is_image p then Text $"[image]" else p) (user_content u)))
    | _ => item
    end) conversation.

Definition prepare_conversation_for_summarization (conversation : list Item) : list Item :=
  strip_images (strip_reasoning_blocks (strip_tool_messages_for_conversation_item conversation)).

Definition prepare_conversation_for_segment (conversation : list Item) : list Item :=
  strip_images (strip_reasoning_blocks conversation).

(** The [while] loop pops while the last item is an assistant item with calls. *)
Fixpoint drop_calling (items_rev : list Item) : list Item :=
  match items_rev with
  | item :: rest => if is_calling item then drop_calling rest else items_rev
  | [] => []
  end.

Definition truncate_trailing_incomplete_tool_call (conversation : list Item) : list Item :=
  reverse (drop_calling (reverse conversation)).

Definition prepare_conversation_for_verbatim_summarization (conversation : list Item) (strip_reasoning : bool)
  : list Item :=
  truncate_trailing_incomplete_tool_call
    (if strip_reasoning then strip_reasoning_blocks conversation else conversation).

(** ** Shrinking to a token budget *)

Definition USIZE_MAX : N := U64_MAX.

Definition MARKER_RESERVE : N := 64.

Definition truncation_marker (dropped : nat) : bytes :=
  newline :: $"[... truncated " ++ show_decimal (N.of_nat dropped)
  ++ $" bytes to fit the compaction window ...]".

Definition truncate_text_to_bytes (s : bytes) (max_bytes : N) : option bytes :=
  if (byte_len s <=? max_bytes)%N then None
  else
    let keep := saturating_sub max_bytes MARKER_RESERVE in
    let e := floor_char_boundary s (N.to_nat (N.min keep (byte_len s))) in
    let dropped := length s - e in
    prefix ← get_to e s;
    Some (prefix ++ truncation_marker dropped).

(** [if let Some(s) = truncate_text_to_bytes(..) { *text = s }] *)
Definition truncated (s : bytes) (max_bytes : N) : bytes := default s (truncate_text_to_bytes s max_bytes).

Definition truncate_item_to_tokens (item : Item) (max_tokens : N) : Item :=
  let max_bytes := N.min (max_tokens * 4) USIZE_MAX in
  match item with
  | IToolResult t => IToolResult (with_result_content t (truncated (result_content t) max_bytes))
  | IAssistant a => IAssistant (mkAssistant (truncated (assistant_content a) max_bytes) (tool_calls a) (assistant_meta a))
  | IUser u =>
      IUser (with_user_content u
        (map (fun p => match p with Text t => Text (truncated t max_bytes) | Image _ => p end) (user_content u)))
  | _ => item
  end.

(** The trailing tool results, and what comes before them. *)
Definition trailing_results (body : list Item) : list Item * list ToolResult :=
  let '(run, rest) := result_run (reverse body) in (reverse rest, reverse run).

Definition recover_truncated_tail_unit (body : list Item) (budget : N) : list Item :=
  let '(body, results) := trailing_results body in
  match results with
  | [] => match last body with
          | Some item => [truncate_item_to_tokens item budget]
          | None => []
          end
  | _ =>
      let owner := match last body with Some item => if is_calling item then [item] else [] | None => [] end in
      let owner_cost := estimate_conversation_tokens owner in
      let result_budget := saturating_sub budget owner_cost in
      let per := N.max (result_budget / N.of_nat (length results)) 1 in
      owner ++ map (fun r => truncate_item_to_tokens (IToolResult r) per) results
  end.

(** The loop over the items from the end; [start] is the index of the item last kept. *)
Fixpoint tail_start (items_rev : list Item) (start : nat) (remaining : N) : nat :=
  match items_rev with
  | [] => start
  | item :: rest =>
      let cost := estimate_item_tokens item in
      if (remaining <? cost)%N then start else tail_start rest (start - 1) (remaining - cost)
  end.

Definition fit_conversation_to_budget (conversation : list Item) (max_tokens : N) : list Item :=
  if (estimate_conversation_tokens conversation <=? max_tokens)%N then conversation
  else
    let '(head, body) := match conversation with
                         | item :: rest => if is_system item then ([item], rest) else ([], conversation)
                         | [] => ([], [])
                         end in
    let budget := saturating_sub max_tokens (estimate_conversation_tokens head) in
    let start := tail_start (reverse body) (length body) budget in
    let start := start + length (result_run (drop start body)).1 in
    if start <? length body then head ++ drop start body
    else head ++ recover_truncated_tail_unit body budget.

(** ** User turns *)

Definition extract_last_user_query (conversation : list Item) : option bytes :=
  item ← List.find is_user (reverse conversation);
  let q := extract_user_query (text_content item) in
  if bool_decide (length q = 0) then None else Some q.

Definition is_real_user_turn (item : Item) : bool :=
  match item with
  | IUser u =>
      if negb (is_human (synthetic_reason u)) then false
      else if existsb is_image (user_content u) then true
      else negb (is_synthetic_extracted_query (extract_user_query (text_content item)))
  | _ => false
  end.

Definition extract_real_user_queries (conversation : list Item) : list bytes :=
  map (fun item => extract_user_query (text_content item)) (List.filter is_real_user_turn conversation).

Definition find_last_real_user_item (conversation : list Item) : option Item :=
  List.find is_real_user_turn (reverse conversation).

Definition extract_last_real_user_query (conversation : list Item) : option bytes :=
  (fun item => extract_user_query (text_content item)) <$> find_last_real_user_item conversation.

(** [iter().rposition(..)] *)
Fixpoint rposition {A} (p : A → bool) (l : list A) : option nat :=
  match l with
  | [] => None
  | x :: r => match rposition p r with
              | Some i => Some (S i)
              | None => if p x then Some 0 else None
              end
  end.

Definition omitted (t : ToolResult) : Item := IToolResult (mkResult (tool_call_id t) $"Tool call omitted..." []).

Definition keep_exchange (item : Item) : option Item :=
  match item with
  | IAssistant a => Some (IAssistant a)
  | IToolResult t => Some (omitted t)
  | _ => None
  end.

(** [iter().rev().take_while(..)], then reversed. *)
Fixpoint take_while {A} (p : A → bool) (l : list A) : list A :=
  match l with x :: r => if p x then x :: take_while p r else [] | [] => [] end.

Definition extract_messages_since_last_user (conversation : list Item) : list Item :=
  reverse (omap keep_exchange (take_while (fun item => negb (is_user item)) (reverse conversation))).

Definition extract_messages_since_last_real_user (conversation : list Item) : list Item :=
  let start := match rposition is_real_user_turn conversation with Some idx => idx + 1 | None => 0 end in
  omap keep_exchange (drop start conversation).

(** ** The agent-message anchor *)

Inductive AgentMessagePosition := Only | BeforeHuman | AfterHuman.

Record AgentMessageAnchor := mkAnchor { anchor_item : Item; anchor_position : AgentMessagePosition }.

Definition is_agent_message (item : Item) : bool := has_reason AgentMessage item.

Definition extract_latest_agent_message (conversation : list Item) : option AgentMessageAnchor :=
  agent_message_index ← rposition is_agent_message conversation;
  let position := match rposition is_real_user_turn conversation with
                  | Some human_index => if agent_message_index <? human_index then BeforeHuman else AfterHuman
                  | None => Only
                  end in
  item ← conversation !! agent_message_index;
  Some (mkAnchor item position).

Definition keep_anchored (item : Item) : option Item :=
  match item with
  | IUser u => if bool_decide (synthetic_reason u = AgentMessage) then Some item else None
  | _ => keep_exchange item
  end.

Definition extract_messages_since_last_compaction_anchor (conversation : list Item) : list Item :=
  let start := match rposition (fun item => is_real_user_turn item || is_agent_message item) conversation with
               | None => 0
               | Some idx => match conversation !! idx with
                             | Some item => if is_agent_message item then idx else idx + 1
                             | None => idx + 1
                             end
               end in
  omap keep_anchored (drop start conversation).

(** ** Images carried over *)

Record CompactionImageContext := mkImages {
  last_turn_image_parts : list ContentPart;
  last_turn_image_files : option bytes;
  attached_paths : list bytes;
}.

Definition no_images : CompactionImageContext := mkImages [] None [].

Definition image_context_from_item (item : Item) : CompactionImageContext :=
  match item with
  | IUser u =>
      mkImages (List.filter is_image (user_content u)) (extract_tag_block (text_content item) $"image_files") []
  | _ => no_images
  end.

Definition last_query_item (images : CompactionImageContext) (last_query : bytes) : Item :=
  let query := wrap_user_query last_query in
  let text := match last_turn_image_files images with
              | Some block => if negb (contains_str block last_query) then block ++ newline :: newline :: query else query
              | None => query
              end in
  user_with_parts (Text text :: last_turn_image_parts images).

Definition collect_attached_image_paths (conversation : list Item) (exclude : list bytes) : list bytes :=
  let users := List.filter is_user conversation in
  let '(meta, rest) := (List.filter (has_reason CompactionMeta) users,
                        List.filter (fun i => negb (has_reason CompactionMeta i)) users) in
  latest_positions
    (List.filter (fun path => negb (bool_decide (path ∈ exclude)))
       (flat_map (fun item => parse_image_files_paths (text_content item)) (reverse meta ++ rest))).

(** ** The state carried over, and the new history *)

(** The summaries of tasks, subagents, servers, todos, loops and workflows only
    pass through this code, to be rendered elsewhere: [Live] stands for them. *)
Context {Live : Type}.

Record CompactionStateContext := mkContext {
  cwd_generation : N;
  destination_project_instructions : option bytes;
  agent_message_anchor : option AgentMessageAnchor;
  recent_messages : list Item;
  last_user_query : option bytes;
  images : CompactionImageContext;
  live : Live;
}.

Record CompactionInputs := mkInputs {
  in_cwd_generation : N;
  in_destination_project_instructions : option bytes;
  goal_objective : option bytes;
  in_live : Live;
}.

(** [CompactionStateContext::build] *)
Definition build_context (conversation : list Item) (inputs : CompactionInputs) : CompactionStateContext :=
  let '(query, imgs) :=
    match goal_objective inputs with
    | Some objective =>
        if negb (bool_decide (length (trim objective) = 0)) then (Some objective, no_images)
        else (extract_last_real_user_query conversation,
              default no_images (image_context_from_item <$> find_last_real_user_item conversation))
    | None =>
        (extract_last_real_user_query conversation,
         default no_images (image_context_from_item <$> find_last_real_user_item conversation))
    end in
  let last_turn_paths := parse_image_files_paths (default [] (last_turn_image_files imgs)) in
  let imgs := mkImages (last_turn_image_parts imgs) (last_turn_image_files imgs)
                (collect_attached_image_paths conversation last_turn_paths) in
  mkContext (in_cwd_generation inputs) (in_destination_project_instructions inputs)
    (extract_latest_agent_message conversation)
    (extract_messages_since_last_compaction_anchor conversation) query imgs (in_live inputs).

Definition for_compaction (c : CompactionStateContext) : CompactionStateContext :=
  mkContext (cwd_generation c) (destination_project_instructions c)
    (match agent_message_anchor c with
     | Some a => Some a
     | None => extract_latest_agent_message (recent_messages c)
     end)
    [] (last_user_query c) (images c) (live c).

(** [summary_before_recent] and [summary_count] serve the alternate carrier, which
    this build does not have. *)
Record CompactedHistoryInput := mkInput {
  system_message : Item;
  user_message_prefix : bytes;
  agents_md_reminder : option bytes;
  state_context : CompactionStateContext;
  compaction_summary : bytes;
  reminder : option bytes;
  transcript_hint : option bytes;
}.

(** [summary_before_recent_carrier]: no alternate carrier in this build. *)
Definition summary_before_recent_carrier (input : CompactedHistoryInput) : option bytes := None.

Definition opt_item (f : bytes → Item) (text : option bytes) : list Item :=
  match text with Some t => [f t] | None => [] end.

Definition anchor_before (a : AgentMessageAnchor) : bool :=
  match anchor_position a with BeforeHuman => true | _ => false end.

Definition build_compacted_history (input : CompactedHistoryInput) : list Item :=
  let c := state_context input in
  let carrier := summary_before_recent_carrier input in
  let summary_item := user_meta (match carrier with
    | Some text => text
    | None => format_compact_summary_content (compaction_summary input) ++ default [] (transcript_hint input)
    end) in
  let project := if (cwd_generation c =? 0)%N then agents_md_reminder input
                 else destination_project_instructions c in
  let anchor := match agent_message_anchor c with
                | Some a => if existsb is_agent_message (recent_messages c) then None else Some a
                | None => None
                end in
  let before := match anchor with Some a => if anchor_before a then [anchor_item a] else [] | None => [] end in
  let after := match anchor with Some a => if anchor_before a then [] else [anchor_item a] | None => [] end in
  let paths := attached_paths (images c) in
  let paths_note := if bool_decide (length paths = 0) then []
                    else [user_meta (render_attached_image_paths_note paths)] in
  let summary_block := summary_item :: paths_note in
  [system_message input; user_meta (user_message_prefix input)]
  ++ opt_item project_instructions project
  ++ before
  ++ opt_item (last_query_item (images c)) (last_user_query c)
  ++ after
  ++ (if bool_decide (carrier = None) then recent_messages c ++ summary_block
      else summary_block ++ recent_messages c)
  ++ opt_item system_reminder (reminder input).

End Compaction.
