(* ===== verification/CompactionLaws.v ===== *)
(** * Laws of compaction

    Shrinking and compacting a history keep it acceptable to the providers: every
    tool result stays with its call.  The token budget is met whenever whole items
    can meet it.  The latest agent message survives exactly once. *)

From S2P Require Import Prelude RustStr ToolCallIds History HistoryLaws Tokens StrFind Tags Compaction.

#[local] Open Scope nat_scope.

Section CompactionLaws.
Context `{Payloads}.

(** ** Parts of well-paired histories *)

Lemma well_paired_app (l k : list Item) : well_paired l → well_paired k → well_paired (l ++ k).
Proof.
  intros Hl Hk. induction Hl as [|a run rest Hp Hw IH|item rest Hr Ha Hw IH]; [done|..].
  - rewrite <-app_comm_cons, <-app_assoc. by constructor.
  - simpl. by constructor.
Qed.

Lemma drop_run (n : nat) (run : list ToolResult) (rest : list Item) :
  n ≤ length run → drop n (map IToolResult run ++ rest) = map IToolResult (drop n run) ++ rest.
Proof.
  revert n. induction run as [|r run IH]; intros [|n] Hn; try done; [simpl in Hn; lia|]. simpl. apply IH. simpl in Hn. lia.
Qed.

(** What is left of a well-paired history when a prefix and the results that then
    come first are cut off. *)
Lemma well_paired_drop (items : list Item) (n : nat) :
  well_paired items → well_paired (result_run (drop n items)).2.
Proof.
  intros Hw. revert n. induction Hw as [|a run rest Hp Hw IH|item rest Hr Ha Hw IH]; intros n.
  - rewrite drop_nil. constructor.
  - destruct n as [|n]; [by constructor|]. simpl. destruct (decide (n ≤ length run)).
    + rewrite drop_run by done. rewrite result_run_app by (by apply well_paired_headed). done.
    + rewrite drop_app_ge by (rewrite length_map; lia). apply IH.
  - destruct n as [|n]; [|apply IH]. destruct item; try done; by constructor.
Qed.

Lemma well_paired_drop_headed (items : list Item) (n : nat) :
  well_paired items → headed (drop n items) → well_paired (drop n items).
Proof.
  intros Hw Hh. pose proof (well_paired_drop items n Hw) as Hd.
  by destruct (drop n items) as [|[] ?].
Qed.

(** Replacing items by ones of their kind, and leaving out others. *)
Definition keeps_pairing (f : Item → option Item) : Prop :=
  (∀ a, ∃ a', f (IAssistant a) = Some (IAssistant a') ∧ map call_id (tool_calls a') = map call_id (tool_calls a))
  ∧ (∀ r, ∃ r', f (IToolResult r) = Some (IToolResult r') ∧ tool_call_id r' = tool_call_id r)
  ∧ ∀ item item', is_result item = false → (∀ a, item ≠ IAssistant a) → f item = Some item' →
      is_result item' = false ∧ ∀ a, item' ≠ IAssistant a.

Lemma omap_cons {A B} (f : A → option B) (x : A) (l : list A) :
  omap f (x :: l) = match f x with Some y => y :: omap f l | None => omap f l end.
Proof. done. Qed.

Lemma omap_run (f : Item → option Item) (run : list ToolResult) :
  keeps_pairing f →
  ∃ run', omap f (map IToolResult run) = map IToolResult run' ∧ map tool_call_id run' = map tool_call_id run.
Proof.
  intros (_ & Hr & _). induction run as [|r run (run' & E & Ei)]; [by exists []|].
  destruct (Hr r) as (r' & Er & Hid). exists (r' :: run').
  cbn [map]. by rewrite omap_cons, Er, E, Hid, Ei.
Qed.

Lemma well_paired_omap (f : Item → option Item) (items : list Item) :
  keeps_pairing f → well_paired items → well_paired (omap f items).
Proof.
  intros Hf. induction 1 as [|a run rest Hp Hw IH|item rest Hr Ha Hw IH]; [constructor|..].
  - destruct (omap_run f run Hf) as (run' & E & Ei). destruct Hf as (Hfa & _ & _).
    destruct (Hfa a) as (a' & Ea & Hids). rewrite omap_cons, Ea, omap_app, E. constructor; [|done].
    by rewrite Ei, Hids.
  - rewrite omap_cons. destruct (f item) as [item'|] eqn:E; [|done]. apply Hf in E as [??]; [|done..]. by constructor.
Qed.

Lemma well_paired_map (f : Item → Item) (items : list Item) :
  keeps_pairing (fun i => Some (f i)) → well_paired items → well_paired (map f items).
Proof.
  intros Hf Hw. assert (omap (fun i => Some (f i)) items = map f items) as <-; [|by apply well_paired_omap].
  clear. induction items as [|i items IH]; [done|]. rewrite omap_cons, IH. done.
Qed.

(** The last unit of a well-paired history: an item that is neither a call nor a
    result, or a turn. *)
Lemma well_paired_last (items : list Item) :
  well_paired items →
  items = []
  ∨ (∃ pre item, items = pre ++ [item] ∧ is_result item = false ∧ ∀ a, item ≠ IAssistant a)
  ∨ (∃ pre a run, items = pre ++ IAssistant a :: map IToolResult run
     ∧ map tool_call_id run ≡ₚ map call_id (tool_calls a)).
Proof.
  induction 1 as [|a run rest Hp Hw IH|item rest Hr Ha Hw IH]; [by left|..]; right.
  - destruct IH as [->|[(pre & item & -> & ? & ?)|(pre & a' & run' & -> & ?)]].
    + right. exists [], a, run. by rewrite app_nil_r.
    + left. exists (IAssistant a :: map IToolResult run ++ pre), item. split; [|done]. simpl. by rewrite <-app_assoc.
    + right. exists (IAssistant a :: map IToolResult run ++ pre), a', run'. split; [|done]. simpl. by rewrite <-app_assoc.
  - destruct IH as [->|[(pre & item' & -> & ? & ?)|(pre & a' & run' & -> & ?)]].
    + left. by exists [], item.
    + left. by exists (item :: pre), item'.
    + right. by exists (item :: pre), a', run'.
Qed.

Lemma trailing_results_app (pre : list Item) (run : list ToolResult) :
  match last pre with Some item => is_result item = false | None => True end →
  trailing_results (pre ++ map IToolResult run) = (pre, run).
Proof.
  intros Hl. unfold trailing_results. rewrite reverse_app.
  assert (reverse (map IToolResult run) = map IToolResult (reverse run) :> list Item) as ->
    by (symmetry; apply fmap_reverse).
  rewrite result_run_app; [by rewrite !reverse_involutive|].
  destruct pre as [|i pre _] using rev_ind; [done|]. rewrite last_snoc in Hl. rewrite reverse_snoc. by destruct i.
Qed.

(** ** Shrinking keeps the pairing *)

Lemma truncate_item_result (r : ToolResult) (n : N) :
  ∃ r', truncate_item_to_tokens (IToolResult r) n = IToolResult r' ∧ tool_call_id r' = tool_call_id r.
Proof. by eexists. Qed.

Lemma truncate_run (n : N) (run : list ToolResult) :
  ∃ run', map (fun r => truncate_item_to_tokens (IToolResult r) n) run = map IToolResult run'
          ∧ map tool_call_id run' = map tool_call_id run.
Proof.
  induction run as [|r run (run' & E & Ei)]; [by exists []|].
  destruct (truncate_item_result r n) as (r' & Er & Hid). exists (r' :: run').
  cbn [map]. by rewrite Er, E, Hid, Ei.
Qed.

Lemma recover_well_paired (body : list Item) (budget : N) :
  well_paired body → well_paired (recover_truncated_tail_unit body budget).
Proof.
  intros Hw. unfold recover_truncated_tail_unit.
  destruct (well_paired_last _ Hw) as [->|[(pre & item & -> & Hr & Ha)|(pre & a & run & -> & Hp)]].
  - constructor.
  - pose proof (trailing_results_app (pre ++ [item]) []) as E. rewrite last_snoc, app_nil_r in E. rewrite E by done.
    rewrite last_snoc. destruct item; try done; try (by destruct (Ha a)); by constructor; [..|constructor].
  - replace (pre ++ IAssistant a :: map IToolResult run) with ((pre ++ [IAssistant a]) ++ map IToolResult run : list Item)
      by (by rewrite <-app_assoc).
    rewrite trailing_results_app by (by rewrite last_snoc). rewrite last_snoc.
    destruct run as [|r run].
    + apply Permutation_nil_l in Hp. apply (wp_turn _ [] []); [simpl; by rewrite <-Hp|constructor].
    + assert (is_calling (IAssistant a : Item) = true) as ->.
      { simpl. destruct (tool_calls a); [|done]. by apply Permutation_nil_r in Hp. }
      set (per := N.max _ _). destruct (truncate_run per (r :: run)) as (run' & E & Ei). rewrite E.
      rewrite <-(app_nil_r (map IToolResult run')). apply wp_turn; [by rewrite Ei|constructor].
Qed.

Lemma result_run_drop (l : list Item) : drop (length (result_run l).1) l = (result_run l).2.
Proof.
  destruct (result_run_spec l) as (run & rest & -> & _ & E). rewrite E. simpl.
  rewrite drop_app_length'; [done|]. by rewrite length_map.
Qed.

(** The leading system item, kept whatever the budget, and the rest. *)
Definition head_of (items : list Item) : list Item :=
  match items with item :: _ => if is_system item then [item] else [] | [] => [] end.

Definition body_of (items : list Item) : list Item := drop (length (head_of items)) items.

Lemma head_body (items : list Item) : items = head_of items ++ body_of items.
Proof. unfold body_of. destruct items as [|i items]; [done|]. simpl. by destruct (is_system i). Qed.

(** The tail the loop keeps. *)
Definition kept_tail (items : list Item) (max_tokens : N) : list Item :=
  let budget := (max_tokens - estimate_conversation_tokens (head_of items))%N in
  (result_run (drop (tail_start (reverse (body_of items)) (length (body_of items)) budget) (body_of items))).2.

Lemma fit_cases (items : list Item) (max_tokens : N) :
  fit_conversation_to_budget items max_tokens
  = if (estimate_conversation_tokens items <=? max_tokens)%N then items
    else match kept_tail items max_tokens with
         | [] => head_of items ++ recover_truncated_tail_unit (body_of items)
                   (max_tokens - estimate_conversation_tokens (head_of items))
         | tail => head_of items ++ tail
         end.
Proof.
  unfold fit_conversation_to_budget. destruct (_ <=? _)%N; [done|].
  assert (match items with
          | item :: rest => if is_system item then ([item], rest) else ([], items)
          | [] => ([], [])
          end = (head_of items, body_of items)) as ->.
  { unfold body_of. destruct items as [|i items]; [done|]. simpl. by destruct (is_system i). }
  unfold kept_tail, saturating_sub. set (budget := (max_tokens - _)%N). set (body := body_of items).
  set (s := tail_start _ _ _). rewrite <-drop_drop, result_run_drop.
  destruct (Nat.ltb_spec (s + length (result_run (drop s body)).1) (length body)) as [Hl|Hl].
  - assert ((result_run (drop s body)).2 ≠ []) as Hne.
    { rewrite <-result_run_drop, drop_drop. intros E. apply (f_equal length) in E. rewrite length_drop in E. simpl in E. lia. }
    by destruct (result_run (drop s body)).2.
  - assert ((result_run (drop s body)).2 = []) as ->; [|done].
    rewrite <-result_run_drop, drop_drop. apply drop_ge. lia.
Qed.

Lemma body_well_paired (items : list Item) : well_paired items → well_paired (body_of items).
Proof.
  intros Hw. unfold body_of. destruct Hw as [|a run rest Hp Hw|item rest Hr Ha Hw]; [constructor|by constructor|].
  simpl. destruct (is_system item); [done|by constructor].
Qed.

(** Shrinking a history to a token budget keeps it acceptable: whatever is
    dropped or truncated, every result that is kept still stands in the run behind
    the item that made its call, and every call that is kept has its result. *)
Theorem fit_keeps_pairing (items : list Item) (max_tokens : N) :
  well_paired items → well_paired (fit_conversation_to_budget items max_tokens).
Proof.
  intros Hw. rewrite fit_cases. destruct (_ <=? _)%N; [done|]. pose proof (body_well_paired _ Hw) as Hb.
  assert (∀ l, well_paired l → well_paired (head_of items ++ l)) as Hhead.
  { intros l Hl. destruct items as [|i items]; [done|]. simpl. destruct (is_system i) eqn:E; [|done].
    destruct i; try done. by constructor. }
  assert (well_paired (kept_tail items max_tokens)) as Hk by (by apply well_paired_drop).
  destruct (kept_tail items max_tokens); apply Hhead; [by apply recover_well_paired|done].
Qed.

(** ** Shrinking meets the budget *)

Lemma tail_start_spec (body : list Item) (remaining : N) :
  let s := tail_start (reverse body) (length body) remaining in
  s ≤ length body ∧ (estimate_conversation_tokens (drop s body) ≤ remaining)%N
  ∧ ∀ k, (estimate_conversation_tokens (drop k body) ≤ remaining)%N → s ≤ k.
Proof.
  revert remaining. induction body as [|x body IH] using rev_ind; intros remaining.
  { rewrite reverse_nil. unfold estimate_conversation_tokens. simpl. split_and!; [lia|lia|intros; lia]. }
  rewrite reverse_snoc, length_app. cbn [tail_start length]. replace (length body + 1 - 1) with (length body) by lia.
  assert (∀ k, k ≤ length body → estimate_conversation_tokens (drop k (body ++ [x]))
    = (estimate_conversation_tokens (drop k body) + estimate_item_tokens x)%N) as Hk.
  { intros k Hk. rewrite drop_app_le, estimate_app by done. unfold estimate_conversation_tokens. simpl. lia. }
  destruct (N.ltb_spec remaining (estimate_item_tokens x)) as [Hc|Hc].
  - split_and!; [lia| |].
    + rewrite drop_ge by (rewrite length_app; simpl; lia). unfold estimate_conversation_tokens. simpl. lia.
    + intros k Ht. destruct (decide (k ≤ length body)); [|lia]. rewrite Hk in Ht by done. lia.
  - destruct (IH (remaining - estimate_item_tokens x)%N) as (H1 & H2 & H3). split_and!; [lia| |].
    + rewrite Hk by done. lia.
    + intros k Ht. destruct (decide (k ≤ length body)); [|lia]. rewrite Hk in Ht by done. apply H3. lia.
Qed.

Lemma kept_tail_spec (items : list Item) (max_tokens : N) :
  let budget := (max_tokens - estimate_conversation_tokens (head_of items))%N in
  kept_tail items max_tokens `suffix_of` body_of items
  ∧ (estimate_conversation_tokens (kept_tail items max_tokens) ≤ budget)%N
  ∧ ∀ tail, tail `suffix_of` body_of items → headed tail → (estimate_conversation_tokens tail ≤ budget)%N →
      tail `suffix_of` kept_tail items max_tokens.
Proof.
  intros budget. unfold kept_tail. fold budget. set (body := body_of items).
  destruct (tail_start_spec body budget) as (_ & Hfit & Hmax). set (s := tail_start _ _ _) in *.
  pose proof (result_run_drop (drop s body)) as Hd.
  destruct (result_run_spec (drop s body)) as (run & rest & E & Hh & Er). rewrite Er in *. simpl in *. split_and!.
  - trans (drop s body); [rewrite E; by apply suffix_app_r|apply suffix_drop].
  - rewrite E, estimate_app in Hfit. lia.
  - intros tail Hn%suffix_as_drop Ht Hb. set (n := length body - length tail) in *. rewrite Hn in *. clearbody n. apply Hmax in Hb.
    assert (drop n body = drop (n - s) (drop s body)) as En by (rewrite drop_drop; f_equal; lia).
    rewrite En, E in *. destruct (decide (n - s ≤ length run)).
    + rewrite drop_run in * by done. destruct (drop (n - s) run); [done|]. simpl in Ht. done.
    + rewrite drop_app_ge by (rewrite length_map; lia). apply suffix_drop.
Qed.

(** The budget is met whenever whole items can meet it.  A history within the
    budget stays as it is.  Of a longer one the leading system item is kept, and
    after it the longest tail of whole items that fits into what remains and does
    not start inside a run of results; the total is then within the budget, or is
    the system item alone where that exceeds it.  Only if no such tail exists is
    the last unit truncated in place. *)
Theorem fit_meets_budget (items : list Item) (max_tokens : N) :
  let fitted := fit_conversation_to_budget items max_tokens in
  let head := head_of items in
  let budget := (max_tokens - estimate_conversation_tokens head)%N in
  ((estimate_conversation_tokens items ≤ max_tokens)%N ∧ fitted = items)
  ∨ (∃ tail, fitted = head ++ tail ∧ tail ≠ [] ∧ tail `suffix_of` body_of items
      ∧ (estimate_conversation_tokens fitted ≤ N.max max_tokens (estimate_conversation_tokens head))%N
      ∧ ∀ other, other `suffix_of` body_of items → headed other →
          (estimate_conversation_tokens other ≤ budget)%N → other `suffix_of` tail)
  ∨ (fitted = head ++ recover_truncated_tail_unit (body_of items) budget
      ∧ ∀ other, other `suffix_of` body_of items → headed other → other ≠ [] →
          (budget < estimate_conversation_tokens other)%N).
Proof.
  intros fitted head budget. unfold fitted. rewrite fit_cases. destruct (N.leb_spec (estimate_conversation_tokens items) max_tokens) as [Ht|Ht].
  { by left. }
  right. destruct (kept_tail_spec items max_tokens) as (Hs & Hb & Hm). fold head budget in Hb, Hm.
  destruct (kept_tail items max_tokens) as [|i tail].
  - right. split; [done|]. intros other Ho Hh Hne. apply N.lt_nge. intros Hle. specialize (Hm other Ho Hh Hle).
    by apply suffix_nil_inv in Hm.
  - left. exists (i :: tail). split_and!; [done|done|done| |done]. rewrite estimate_app. fold head. lia.
Qed.

(** ** Truncated text *)

Lemma floor_char_boundary_spec (s : bytes) (e : nat) :
  floor_char_boundary s e ≤ e ∧ is_char_boundary s (floor_char_boundary s e) = true.
Proof.
  induction e as [|e [IH1 IH2]]; simpl.
  - split; [done|]. by destruct s.
  - destruct (is_char_boundary s (S e)) eqn:E; [by split|]. split; [lia|done].
Qed.

Lemma marker_length (dropped : nat) : length (truncation_marker dropped) = 56 + length (show_decimal (N.of_nat dropped)).
Proof. unfold truncation_marker. cbn [length]. rewrite !length_app. simpl. lia. Qed.

(** A text over the budget is cut at a character boundary, 64 bytes short of
    the budget, and gets a marker that counts what was dropped; with a budget of at
    least 64 bytes and a text below a hundred megabytes the result fits.  The
    marker itself takes at least 57 bytes, so that a smaller budget is exceeded. *)
Theorem truncate_text_bounds (s : bytes) (max_bytes : N) :
  match truncate_text_to_bytes s max_bytes with
  | None => (byte_len s ≤ max_bytes)%N
  | Some out =>
      (max_bytes < byte_len s)%N
      ∧ (∃ e, (N.of_nat e ≤ max_bytes - 64)%N ∧ is_char_boundary s e = true
              ∧ out = take e s ++ truncation_marker (length s - e))
      ∧ ((64 ≤ max_bytes)%N → (byte_len s < 10 ^ 8)%N → (byte_len out ≤ max_bytes)%N)
      ∧ (57 ≤ byte_len out)%N
  end.
Proof.
  unfold truncate_text_to_bytes. destruct (N.leb_spec (byte_len s) max_bytes) as [|Hlt]; [done|].
  set (n := N.to_nat _). destruct (floor_char_boundary_spec s n) as [Hle Hb]. set (e := floor_char_boundary s n) in *.
  unfold get_to. rewrite Hb. cbn [mbind option_bind].
  assert (N.of_nat e ≤ max_bytes - 64)%N as He by (unfold n, saturating_sub, MARKER_RESERVE in Hle; lia).
  assert (0 < length (show_decimal (N.of_nat (length s - e)))) as Hd.
  { destruct (show_decimal_digits (N.of_nat (length s - e))) as [_ Hne]. by destruct (show_decimal _); [|simpl; lia]. }
  unfold byte_len in *. rewrite length_app, marker_length. split_and!; [done|by exists e| |lia].
  intros Hm Hs. rewrite length_take. assert (length (show_decimal (N.of_nat (length s - e))) ≤ 8) as Hd8.
  { apply show_decimal_length; [|lia]. simpl N.of_nat. lia. }
  lia.
Qed.

(** ** Compaction keeps the pairing *)

Lemma rposition_Some {A} (p : A → bool) (l : list A) (i : nat) :
  rposition p l = Some i → ∃ x, l !! i = Some x ∧ p x = true ∧ forallb (fun y => negb (p y)) (drop (S i) l) = true.
Proof.
  revert i. induction l as [|y l IH]; intros i; [done|]. cbn [rposition].
  destruct (rposition p l) as [j|] eqn:E; [intros [= <-]; by apply IH|].
  destruct (p y) eqn:Ey; [|done]. intros [= <-]. exists y. split_and!; [done|done|]. simpl. rewrite drop_0.
  clear -E. induction l as [|z l IH]; [done|]. cbn [rposition] in E. simpl.
  destruct (rposition p l); [done|]. destruct (p z); [done|]. by apply IH.
Qed.

Lemma rposition_None {A} (p : A → bool) (l : list A) :
  rposition p l = None → forallb (fun y => negb (p y)) l = true.
Proof.
  induction l as [|y l IH]; [done|]. cbn [rposition]. destruct (rposition p l); [done|].
  destruct (p y) eqn:E; [done|]. intros. simpl. rewrite E. by apply IH.
Qed.

Definition is_anchor (item : Item) : bool := is_real_user_turn item || is_agent_message item.

Lemma anchor_user (item : Item) : is_anchor item = true → ∃ u, item = IUser u.
Proof. by destruct item; [|eauto|..]. Qed.

(** Where the messages since the last anchor start. *)
Definition since_anchor (conversation : list Item) : list Item :=
  match rposition is_anchor conversation with
  | None => conversation
  | Some idx => match drop idx conversation with
                | item :: rest => if is_agent_message item then item :: rest else rest
                | [] => []
                end
  end.

Lemma since_anchor_eq (conversation : list Item) :
  extract_messages_since_last_compaction_anchor conversation = omap keep_anchored (since_anchor conversation).
Proof.
  unfold extract_messages_since_last_compaction_anchor, since_anchor.
  change (fun item => is_real_user_turn item || is_agent_message item) with is_anchor.
  destruct (rposition is_anchor conversation) as [i|] eqn:E; [|by rewrite drop_0].
  apply rposition_Some in E as (x & Hx & _ & _). rewrite Hx. rewrite (drop_S _ x i Hx).
  destruct (is_agent_message x); [by rewrite (drop_S _ x i Hx)|]. by rewrite Nat.add_1_r.
Qed.

Lemma since_anchor_paired (conversation : list Item) :
  well_paired conversation → well_paired (since_anchor conversation).
Proof.
  intros Hw. unfold since_anchor. destruct (rposition is_anchor conversation) as [i|] eqn:E; [|done].
  apply rposition_Some in E as (x & Hx & Hp & _). apply anchor_user in Hp as [u ->].
  pose proof (well_paired_drop_headed conversation i Hw) as Hd. rewrite (drop_S _ _ _ Hx) in *.
  specialize (Hd I). destruct (is_agent_message _); [done|]. by inversion Hd.
Qed.

Lemma keep_exchange_pairing : keeps_pairing keep_exchange.
Proof.
  split_and!; [intros a; by exists a|intros r; by eexists|]. intros [] item' Hr Ha; try done. by destruct (Ha a).
Qed.

Lemma keep_anchored_pairing : keeps_pairing keep_anchored.
Proof.
  split_and!; [intros a; by exists a|intros r; by eexists|]. intros item item' Hr Ha.
  destruct item; try done; [|by destruct (Ha a)]. simpl. case_bool_decide; [|done]. by intros [= <-].
Qed.

Lemma recent_paired (conversation : list Item) :
  well_paired conversation → well_paired (extract_messages_since_last_compaction_anchor conversation).
Proof.
  intros Hw. rewrite since_anchor_eq. apply well_paired_omap; [apply keep_anchored_pairing|by apply since_anchor_paired].
Qed.

(** Items that neither call nor answer. *)
Definition inert (items : list Item) : Prop := Forall (fun i => is_result i = false ∧ ∀ a, i ≠ IAssistant a) items.

Lemma inert_paired (items : list Item) : inert items → well_paired items.
Proof. induction 1 as [|i l [??] _ IH]; by constructor. Qed.

Lemma inert_opt (f : bytes → Item) (t : option bytes) : (∀ x, is_user (f x) = true) → inert (opt_item f t).
Proof. intros Hf. destruct t as [t|]; repeat constructor; specialize (Hf t); by destruct (f t). Qed.

Context {Live : Type}.
Implicit Types (c : @CompactionStateContext _ Live) (inputs : @CompactionInputs Live).

(** A state context as the session takes it. *)
Definition taken_from (conversation : list Item) c : Prop :=
  ∃ inputs, c = build_context conversation inputs ∨ c = for_compaction (build_context conversation inputs).

Lemma build_context_fields (conversation : list Item) inputs :
  recent_messages (build_context conversation inputs) = extract_messages_since_last_compaction_anchor conversation
  ∧ agent_message_anchor (build_context conversation inputs) = extract_latest_agent_message conversation.
Proof. unfold build_context. destruct (goal_objective inputs) as [o|]; [by destruct (negb _)|done]. Qed.

Lemma latest_agent_Some (l : list Item) (a : AgentMessageAnchor) :
  extract_latest_agent_message l = Some a → is_agent_message (anchor_item a) = true.
Proof.
  unfold extract_latest_agent_message. intros (i & Hi & (x & Hx & [= <-])%bind_Some)%bind_Some.
  apply rposition_Some in Hi as (y & Hy & Hp & _). simpl. congruence.
Qed.

Lemma taken_anchor (conversation : list Item) c (a : AgentMessageAnchor) :
  taken_from conversation c → agent_message_anchor c = Some a → is_agent_message (anchor_item a) = true.
Proof.
  intros [inputs [->| ->]].
  - destruct (build_context_fields conversation inputs) as [_ ->]. apply latest_agent_Some.
  - simpl. destruct (build_context_fields conversation inputs) as [_ ->].
    destruct (extract_latest_agent_message conversation) eqn:E; [intros [= <-]; by eapply latest_agent_Some|].
    apply latest_agent_Some.
Qed.

Lemma taken_recent (conversation : list Item) c :
  taken_from conversation c → well_paired conversation → well_paired (recent_messages c).
Proof.
  intros [inputs [->| ->]] Hw; [|constructor]. destruct (build_context_fields conversation inputs) as [-> _].
  by apply recent_paired.
Qed.

(** C29: compaction keeps a history acceptable: from a history in which every result
    stands with its call, the one that replaces it is built so again, whatever
    summary, reminders and images go into it. *)
Theorem compaction_keeps_pairing (conversation : list Item) (input : CompactedHistoryInput (Live := Live)) :
  well_paired conversation → taken_from conversation (state_context input) →
  is_system (system_message input) = true →
  well_paired (build_compacted_history input).
Proof.
  intros Hw Ht Hs. unfold build_compacted_history. cbn [summary_before_recent_carrier].
  pose proof (taken_recent _ _ Ht Hw) as Hr. set (c := state_context input) in *.
  assert (∀ a, agent_message_anchor c = Some a → inert [anchor_item a]) as Ha.
  { intros a Ea. pose proof (taken_anchor _ _ _ Ht Ea). destruct (anchor_item a); try done. by repeat constructor. }
  apply well_paired_app; [apply inert_paired; destruct (system_message input); by repeat constructor|].
  apply well_paired_app; [apply inert_paired, inert_opt; done|].
  apply well_paired_app.
  { apply inert_paired. destruct (agent_message_anchor c) as [a|]; [|constructor].
    destruct (existsb _ _); [constructor|]. destruct (anchor_before a); [by apply Ha|constructor]. }
  apply well_paired_app; [apply inert_paired, inert_opt; done|].
  apply well_paired_app.
  { apply inert_paired. destruct (agent_message_anchor c) as [a|]; [|constructor].
    destruct (existsb _ _); [constructor|]. destruct (anchor_before a); [constructor|by apply Ha]. }
  rewrite bool_decide_eq_true_2 by done. apply well_paired_app; [|apply inert_paired, inert_opt; done].
  apply well_paired_app; [done|]. apply inert_paired. case_bool_decide; by repeat constructor.
Qed.

(** ** The latest agent message *)

Lemma filter_agent_inert (l : list Item) : forallb (fun i => negb (is_agent_message i)) l = true → List.filter is_agent_message l = [].
Proof. intros Hl. apply filter_none. rewrite forallb_forall in Hl. intros x Hx%list_elem_of_In%Hl. by apply negb_true_iff. Qed.

Lemma keep_anchored_agents (l : list Item) : List.filter is_agent_message (omap keep_anchored l) = List.filter is_agent_message l.
Proof.
  induction l as [|i l IH]; [done|]. rewrite omap_cons. destruct i; simpl; rewrite ?IH; try done.
  unfold is_agent_message, has_reason in *. case_bool_decide; simpl; [|done]. by rewrite bool_decide_eq_true_2, IH.
Qed.

(** The last agent message of a history. *)
Definition latest_agent_message (conversation : list Item) : list Item :=
  match rposition is_agent_message conversation with
  | Some i => option_list (conversation !! i)
  | None => []
  end.

Lemma rposition_of {A} (p : A → bool) (l : list A) (i : nat) (x : A) :
  l !! i = Some x → p x = true → forallb (fun y => negb (p y)) (drop (S i) l) = true → rposition p l = Some i.
Proof.
  intros Hx Hp Hd. destruct (rposition p l) as [j|] eqn:E.
  - apply rposition_Some in E as (y & Hy & Hpy & Hdy). f_equal. rewrite forallb_forall in Hd, Hdy.
    destruct (Nat.lt_trichotomy i j) as [Hij|[->|Hij]]; [|done|]; exfalso.
    + assert (In y (drop (S i) l)) as Hin.
      { apply list_elem_of_In, list_elem_of_lookup. exists (j - S i). rewrite lookup_drop. by replace (S i + (j - S i)) with j by lia. }
      apply Hd in Hin. by rewrite Hpy in Hin.
    + assert (In x (drop (S j) l)) as Hin.
      { apply list_elem_of_In, list_elem_of_lookup. exists (i - S j). rewrite lookup_drop. by replace (S j + (i - S j)) with i by lia. }
      apply Hdy in Hin. by rewrite Hp in Hin.
  - apply rposition_None in E. rewrite forallb_forall in E.
    assert (In x l) as Hin by (apply list_elem_of_In; by eapply list_elem_of_lookup_2).
    apply E in Hin. by rewrite Hp in Hin.
Qed.

Lemma no_anchor_no_agent (l : list Item) :
  forallb (fun y => negb (is_anchor y)) l = true → forallb (fun y => negb (is_agent_message y)) l = true.
Proof.
  rewrite !forallb_forall. intros Hl x Hx. specialize (Hl x Hx). unfold is_anchor in Hl.
  apply negb_true_iff, orb_false_iff in Hl as [_ Hl]. by apply negb_true_iff.
Qed.

Lemma rposition_none_of {A} (p : A → bool) (l : list A) :
  forallb (fun y => negb (p y)) l = true → rposition p l = None.
Proof.
  intros Hl. destruct (rposition p l) as [i|] eqn:E; [|done]. apply rposition_Some in E as (x & Hx & Hp & _).
  rewrite forallb_forall in Hl. specialize (Hl x). rewrite Hp in Hl. discriminate Hl.
  apply list_elem_of_In. by eapply list_elem_of_lookup_2.
Qed.

(** The recent messages hold the latest agent message, or none. *)
Lemma recent_agents (conversation : list Item) :
  let recent := extract_messages_since_last_compaction_anchor conversation in
  List.filter is_agent_message recent = latest_agent_message conversation
  ∨ (existsb is_agent_message recent = false ∧ List.filter is_agent_message recent = []).
Proof.
  cbv zeta. rewrite since_anchor_eq, keep_anchored_agents. unfold since_anchor.
  assert (∀ l : list Item, List.filter is_agent_message l = [] → existsb is_agent_message (omap keep_anchored l) = false) as Hex.
  { intros l Hl. rewrite <-keep_anchored_agents in Hl. induction (omap keep_anchored l) as [|i k IH]; [done|].
    simpl in *. destruct (is_agent_message i); [done|]. by apply IH. }
  destruct (rposition is_anchor conversation) as [i|] eqn:E.
  - apply rposition_Some in E as (x & Hx & Hp & Hd). apply no_anchor_no_agent in Hd.
    rewrite (drop_S _ x i Hx). destruct (is_agent_message x) eqn:Ea.
    + left. unfold latest_agent_message. rewrite (rposition_of is_agent_message conversation i x Hx Ea Hd), Hx. simpl.
      rewrite Ea. f_equal. by apply filter_agent_inert.
    + right. split; [apply Hex|]; by apply filter_agent_inert.
  - apply rposition_None, no_anchor_no_agent in E. right. split; [apply Hex|]; by apply filter_agent_inert.
Qed.

Lemma latest_agent_anchor (l : list Item) :
  match extract_latest_agent_message l with
  | Some a => latest_agent_message l = [anchor_item a]
  | None => latest_agent_message l = []
  end.
Proof.
  unfold extract_latest_agent_message, latest_agent_message.
  destruct (rposition is_agent_message l) as [i|] eqn:E; [|done]. simpl.
  apply rposition_Some in E as (x & Hx & _). by rewrite Hx.
Qed.

(** What the anchor and the recent messages hold together. *)
Lemma taken_agents (conversation : list Item) c :
  taken_from conversation c →
  (if existsb is_agent_message (recent_messages c) then List.filter is_agent_message (recent_messages c)
   else match agent_message_anchor c with Some a => [anchor_item a] | None => [] end)
  = latest_agent_message conversation
  ∧ (existsb is_agent_message (recent_messages c) = false → List.filter is_agent_message (recent_messages c) = []).
Proof.
  assert (∀ l : list Item, existsb is_agent_message l = false ↔ List.filter is_agent_message l = []) as Hex.
  { induction l as [|i l IH]; [done|]. simpl. by destruct (is_agent_message i). }
  intros [inputs [->| ->]].
  - destruct (build_context_fields conversation inputs) as [-> ->]. split; [|by apply Hex].
    pose proof (latest_agent_anchor conversation) as Hl.
    destruct (existsb _ _) eqn:E.
    + destruct (recent_agents conversation) as [|[? _]]; [done|congruence].
    + by destruct (extract_latest_agent_message conversation).
  - split; [|done]. simpl. destruct (build_context_fields conversation inputs) as [Hr ->].
    pose proof (latest_agent_anchor conversation) as Hl.
    destruct (extract_latest_agent_message conversation); [done|]. rewrite Hr.
    destruct (extract_latest_agent_message (extract_messages_since_last_compaction_anchor conversation)) as [a|] eqn:E; [|done].
    exfalso. destruct (recent_agents conversation) as [Hf|[_ Hf]]; [rewrite Hl in Hf|];
      (apply Hex in Hf; pose proof (latest_agent_Some _ _ E) as Ha;
       unfold extract_latest_agent_message in E; apply bind_Some in E as (i & Hi & _);
       apply rposition_Some in Hi as (x & Hx & Hp & _);
       apply not_true_iff_false in Hf; apply Hf, existsb_exists; exists x; split; [|done];
       apply list_elem_of_In; by eapply list_elem_of_lookup_2).
Qed.

(** The latest message from another agent survives compaction exactly once and
    word for word, wherever it stood relative to the last human turn; no older one
    does, and none is made up. *)
Theorem agent_message_survives_once (conversation : list Item) (input : CompactedHistoryInput (Live := Live)) :
  taken_from conversation (state_context input) → is_system (system_message input) = true →
  List.filter is_agent_message (build_compacted_history input) = latest_agent_message conversation.
Proof.
  intros Ht Hs. destruct (taken_agents _ _ Ht) as [Hm Hn]. unfold build_compacted_history. cbn [summary_before_recent_carrier].
  set (c := state_context input) in *. rewrite bool_decide_eq_true_2 by done. rewrite !List.filter_app.
  assert (∀ f t, (∀ x, is_agent_message (f x) = false) → List.filter is_agent_message (opt_item f t) = []) as Hopt.
  { intros f [t|] Hf; [|done]. simpl. by rewrite Hf. }
  rewrite !Hopt by done.
  assert (List.filter is_agent_message [system_message input; user_meta (user_message_prefix input)] = []) as ->
    by (by destruct (system_message input)).
  assert (List.filter is_agent_message (user_meta
    (format_compact_summary_content (compaction_summary input) ++ default [] (transcript_hint input))
    :: (if bool_decide (length (attached_paths (images c)) = 0) then []
        else [user_meta (render_attached_image_paths_note (attached_paths (images c)))])) = []) as ->
    by (simpl; by case_bool_decide).
  rewrite !app_nil_r. cbn [app]. destruct (existsb is_agent_message (recent_messages c)) eqn:E.
  - destruct (agent_message_anchor c); simpl; by rewrite Hm.
  - rewrite Hn, app_nil_r by done. rewrite <-Hm. destruct (agent_message_anchor c) as [a|] eqn:Ea; [|done].
    pose proof (taken_anchor _ _ _ Ht Ea) as Ha. destruct (anchor_before a); simpl; by rewrite Ha.
Qed.

End CompactionLaws.

(** ** Instances *)

#[local] Instance demo_payloads : Payloads :=
  {| AssistantMeta := unit; Backend := unit; Reasoning := unit; text_summary _ := []; reasoning_item_text _ := [];
     encrypted_content _ := None |}.

Definition demo_calling : Assistant := mkAssistant $"reading" [mkCall $"c1" $"read_file" $"{}"] tt.

Definition demo_conversation : list Item :=
  [system $"rules"; user $"first question"; user_text AgentMessage $"from a peer"; user $"second question";
   IAssistant demo_calling; tool_result $"c1" $"contents"].

Lemma demo_well_paired : well_paired demo_conversation.
Proof.
  do 4 (apply wp_other; [done|done|]). apply (wp_turn demo_calling [mkResult $"c1" $"contents" []] []); [done|constructor].
Qed.

Definition demo_input : CompactedHistoryInput (Live := unit) :=
  mkInput (system $"rules") $"prefix" None
    (for_compaction (build_context demo_conversation (mkInputs 0 None None tt))) $"summary" None None.

Lemma demo_taken : taken_from demo_conversation (state_context demo_input).
Proof. exists (mkInputs 0 None None tt). by right. Qed.

Lemma fit_keeps_pairing_witness :
  (estimate_conversation_tokens demo_conversation > 8)%N
  ∧ well_paired (fit_conversation_to_budget demo_conversation 8).
Proof. split; [by vm_compute|]. apply (fit_keeps_pairing demo_conversation 8), demo_well_paired. Defined.

Lemma compaction_keeps_pairing_witness : well_paired (build_compacted_history demo_input).
Proof. apply (compaction_keeps_pairing demo_conversation demo_input demo_well_paired demo_taken). done. Defined.

Lemma agent_message_survives_once_witness :
  List.filter is_agent_message (build_compacted_history demo_input) = [user_text AgentMessage $"from a peer"].
Proof.
  rewrite (agent_message_survives_once demo_conversation demo_input demo_taken); [by vm_compute|done].
Defined.
