(* ===== verification/IntegrityLaws.v ===== *)
(** * Laws of the integrity repair

    The chat-state actor repairs its history before it pushes a user message or
    builds a request: identifiers, duplicate results, dangling calls; it does not
    remove displaced results.  What that establishes, whatever answers the dangling
    calls, and that a pass which reports no change made none. *)

From S2P Require Import Prelude RustStr ToolCallIds History HistoryLaws.

#[local] Open Scope nat_scope.

Section IntegrityLaws.
Context `{Payloads}.

Lemma call_ids_without_results (items : list Item) : call_id_list items = call_id_list (without_results items).
Proof. unfold call_id_list. induction items as [|item items IH]; [done|]. destruct item; simpl; by rewrite IH. Qed.

Lemma without_results_turn (a : Assistant) (run : list ToolResult) (rest : list Item) :
  without_results (IAssistant a :: map IToolResult run ++ rest) = IAssistant a :: without_results rest.
Proof.
  change (without_results (IAssistant a :: map IToolResult run ++ rest))
    with (IAssistant a :: without_results (map IToolResult run ++ rest)). by rewrite without_results_run.
Qed.

Lemma without_results_cons (item : Item) (l k : list Item) :
  without_results l = without_results k → without_results (item :: l) = without_results (item :: k).
Proof. unfold without_results. simpl. intros E. destruct (negb _); [by f_equal|done]. Qed.

(** ** Duplicates *)

Lemma dedup_others (items : list Item) : without_results (dedup_duplicate_tool_results items).2 = without_results items.
Proof.
  induction items as [|a run rest Hh IH|item rest Ha IH] using history_ind; [done|..].
  - rewrite dedup_assistant by done. destruct (dedup_duplicate_tool_results rest) as [n rest']. cbn [fst snd] in *.
    rewrite !without_results_turn. by f_equal.
  - rewrite dedup_other by (destruct item; try done; by destruct (Ha a)).
    destruct (dedup_duplicate_tool_results rest) as [n rest']. cbn [fst snd] in *. by apply without_results_cons.
Qed.

Lemma dedup_zero (items items' : list Item) : dedup_duplicate_tool_results items = (0, items') → items' = items.
Proof.
  revert items'. induction items as [|a run rest Hh IH|item rest Ha IH] using history_ind; intros items'; [by intros [= <-]|..].
  - rewrite dedup_assistant by done. destruct (dedup_duplicate_tool_results rest) as [n rest']. intros [= E <-].
    assert (run_duplicates a run = 0 ∧ n = 0) as [Hd ->] by lia. by rewrite run_deduped_clean, (IH rest').
  - rewrite dedup_other by (destruct item; try done; by destruct (Ha a)).
    destruct (dedup_duplicate_tool_results rest) as [n rest']. intros [= -> <-]. by rewrite (IH rest').
Qed.

(** ** Dangling calls *)

Section Resolve.
Context {S : Type} (resolve : S → bytes → bytes → S * bytes).
Implicit Types (s : S) (items : list Item).

Lemma synthesize_spec s (calls : list ToolCall) :
  ∃ s' (rs : list ToolResult), synthesize resolve s calls = (s', map IToolResult rs) ∧ map tool_call_id rs = map call_id calls.
Proof.
  revert s. induction calls as [|c calls IH]; intros s; [by exists s, []|]. cbn [synthesize].
  destruct (resolve s (call_id c) (call_name c)) as [s1 text]. destruct (IH s1) as (s' & rs & -> & E).
  exists s', (mkResult (call_id c) text [] :: rs). split; [done|]. simpl. by rewrite E.
Qed.

(** A turn after its dangling calls were answered. *)
Lemma dangling_turn_spec s (a : Assistant) (run : list ToolResult) (rest : list Item) :
  headed rest →
  ∃ s' rs, map tool_call_id rs = map call_id (unanswered a run)
    ∧ repair_dangling_tool_calls_with resolve s (IAssistant a :: map IToolResult run ++ rest)
      = let '(s, n, rest) := repair_dangling_tool_calls_with resolve s' rest in
        (s, length (unanswered a run) + n, IAssistant a :: map IToolResult (run ++ rs) ++ rest).
Proof.
  intros Hh. rewrite dangling_turn by done. destruct (synthesize_spec s (unanswered a run)) as (s' & rs & -> & E).
  exists s', rs. split; [done|]. destruct (repair_dangling_tool_calls_with resolve s' rest) as [[s'' n] rest'].
  rewrite length_map, map_app, <-app_assoc. apply (f_equal length) in E. rewrite !length_map in E. by rewrite E.
Qed.

Lemma dangling_others s items :
  without_results (repair_dangling_tool_calls_with resolve s items).2 = without_results items.
Proof.
  revert s. induction items as [|a run rest Hh IH|item rest Ha IH] using history_ind; intros s; [done|..].
  - destruct (dangling_turn_spec s a run rest Hh) as (s' & rs & _ & ->). specialize (IH s').
    destruct (repair_dangling_tool_calls_with resolve s' rest) as [[s'' n] rest']. cbn [fst snd] in *.
    rewrite !without_results_turn. by f_equal.
  - rewrite dangling_other by done. specialize (IH s).
    destruct (repair_dangling_tool_calls_with resolve s rest) as [[s'' n] rest']. cbn [fst snd] in *. by apply without_results_cons.
Qed.

Lemma dangling_headed s items : headed items → headed (repair_dangling_tool_calls_with resolve s items).2.
Proof.
  intros Hh. induction items as [|a run rest Hr _|item rest Ha _] using history_ind; [done|..].
  - destruct (dangling_turn_spec s a run rest Hr) as (s' & rs & _ & ->).
    by destruct (repair_dangling_tool_calls_with resolve s' rest) as [[s'' n] rest'].
  - rewrite dangling_other by done. destruct (repair_dangling_tool_calls_with resolve s rest) as [[s'' n] rest'].
    by destruct item.
Qed.

Lemma unanswered_nil (a : Assistant) (run : list ToolResult) :
  unanswered a run = [] ↔ ∀ c, c ∈ tool_calls a → call_id c ∈ map tool_call_id run.
Proof.
  unfold unanswered. split.
  - intros E c Hc. destruct (decide (call_id c ∈ map tool_call_id run)) as [|Hn]; [done|]. exfalso.
    assert (c ∈ ([] : list ToolCall)) as []%elem_of_nil. rewrite <-E. apply list_elem_of_In, filter_In.
    split; [by apply list_elem_of_In|]. apply negb_true_iff, bool_decide_eq_false. by rewrite elem_of_list_to_set.
  - intros Hc. apply filter_none. intros c Hi. apply negb_false_iff, bool_decide_eq_true, elem_of_list_to_set. by apply Hc.
Qed.

Lemma answered_all (a : Assistant) (run rs : list ToolResult) :
  map tool_call_id rs = map call_id (unanswered a run) → unanswered a (run ++ rs) = [].
Proof.
  intros E. apply unanswered_nil. intros c Hc. rewrite map_app, elem_of_app.
  destruct (decide (call_id c ∈ map tool_call_id run)) as [|Hn]; [by left|right]. rewrite E.
  apply elem_of_map. exists c. split; [done|]. apply list_elem_of_In, filter_In. split; [by apply list_elem_of_In|].
  apply negb_true_iff, bool_decide_eq_false. by rewrite elem_of_list_to_set.
Qed.

Lemma has_dangling_turn (a : Assistant) (run : list ToolResult) (rest : list Item) :
  headed rest →
  has_dangling_tool_calls (IAssistant a :: map IToolResult run ++ rest)
  = negb (bool_decide (length (unanswered a run) = 0)) || has_dangling_tool_calls rest.
Proof.
  intros Hh. cbn [has_dangling_tool_calls]. rewrite result_run_app by done. simpl. f_equal. by induction run.
Qed.

Lemma dangling_answered s items : has_dangling_tool_calls (repair_dangling_tool_calls_with resolve s items).2 = false.
Proof.
  revert s. induction items as [|a run rest Hh IH|item rest Ha IH] using history_ind; intros s; [done|..].
  - destruct (dangling_turn_spec s a run rest Hh) as (s' & rs & E & ->). specialize (IH s').
    pose proof (dangling_headed s' rest Hh) as Hh'.
    destruct (repair_dangling_tool_calls_with resolve s' rest) as [[s'' n] rest']. simpl snd in *.
    rewrite has_dangling_turn, answered_all by done. done.
  - rewrite dangling_other by done. specialize (IH s).
    destruct (repair_dangling_tool_calls_with resolve s rest) as [[s'' n] rest']. cbn [fst snd] in *.
    destruct item; try done. by destruct (Ha a).
Qed.

Lemma dangling_zero s items : (repair_dangling_tool_calls_with resolve s items).1.2 = 0 →
  (repair_dangling_tool_calls_with resolve s items).2 = items.
Proof.
  revert s. induction items as [|a run rest Hh IH|item rest Ha IH] using history_ind; intros s; [done|..].
  - destruct (dangling_turn_spec s a run rest Hh) as (s' & rs & E & ->). specialize (IH s').
    destruct (repair_dangling_tool_calls_with resolve s' rest) as [[s'' n] rest']. cbn [fst snd] in *. intros Hz.
    rewrite IH by lia. assert (length (unanswered a run) = 0) as Hu by lia. apply length_zero_iff_nil in Hu.
    rewrite Hu in E. apply map_eq_nil in E as ->. by rewrite app_nil_r.
  - rewrite dangling_other by done. specialize (IH s).
    destruct (repair_dangling_tool_calls_with resolve s rest) as [[s'' n] rest']. cbn [fst snd] in *. intros. by rewrite IH.
Qed.

(** ** Both passes *)

(** Every result stands in the run behind an assistant item that made its call. *)
Definition placed items : Prop := strip_displaced_tool_results items = ([], items).

Lemma placed_turn (a : Assistant) (run : list ToolResult) (rest : list Item) :
  headed rest → placed (IAssistant a :: map IToolResult run ++ rest) → answering (ids_of a) run = run ∧ placed rest.
Proof.
  unfold placed. intros Hh. rewrite strip_turn by done. destruct (strip_displaced_tool_results rest) as [st rest'].
  intros [= [Hf ->]%app_eq_nil E]. apply foreign_nil in Hf. rewrite Hf in E. split; [done|]. f_equal.
  by apply app_inv_head in E.
Qed.

Lemma placed_other (item : Item) (rest : list Item) :
  (∀ a, item ≠ IAssistant a) → placed (item :: rest) → is_result item = false ∧ placed rest.
Proof.
  unfold placed, strip_displaced_tool_results. intros Ha. destruct item as [| |a|r| |]; simpl; [..|]; try (by destruct (Ha a)).
  3: rewrite bool_decide_eq_false_2 by set_solver.
  all: destruct (strip_go ∅ rest) as [st rest']; naive_solver.
Qed.

Lemma run_deduped_ids (a : Assistant) (run : list ToolResult) (i : bytes) :
  i ∈ map tool_call_id (run_deduped a run) → i ∈ map tool_call_id run.
Proof. unfold run_deduped. case_bool_decide; [done|]. by rewrite last_of_each_ids. Qed.

Lemma placed_settled (a : Assistant) (run : list ToolResult) :
  answering (ids_of a) run = run → settled a run = run_deduped a run.
Proof.
  intros E. apply filter_all. intros r Hr. apply bool_decide_eq_true.
  assert (tool_call_id r ∈ map tool_call_id run) as Hin by (eapply run_deduped_ids, elem_of_map; eauto).
  apply elem_of_map in Hin as (r' & -> & Hr'). rewrite <-E in Hr'. unfold answering in Hr'.
  apply list_elem_of_In, filter_In in Hr' as [_ Hr']. by apply bool_decide_eq_true in Hr'.
Qed.

Lemma integrity_paired s items :
  NoDup (call_id_list items) → placed items →
  well_paired (repair_dangling_tool_calls_with resolve s (dedup_duplicate_tool_results items).2).2.
Proof.
  revert s. induction items as [|a run rest Hh IH|item rest Ha IH] using history_ind; intros s Hnd Hp; [constructor|..].
  - rewrite call_ids_turn in Hnd. apply NoDup_app in Hnd as (Hnd & _ & Hrest).
    apply placed_turn in Hp as [Hrun Hp]; [|done]. rewrite dedup_assistant by done.
    pose proof (dedup_headed rest Hh) as Hh'. specialize (λ s, IH s Hrest Hp).
    destruct (dedup_duplicate_tool_results rest) as [n rest1]. cbn [fst snd] in *.
    destruct (dangling_turn_spec s a (run_deduped a run) rest1 Hh') as (s' & rs & E & ->). specialize (IH s').
    destruct (repair_dangling_tool_calls_with resolve s' rest1) as [[s'' m] rest2]. cbn [fst snd] in *.
    constructor; [|done]. pose proof (completed_paired a run Hnd) as Hc. unfold completed in Hc.
    rewrite placed_settled in Hc by done. rewrite map_app, map_map in Hc. rewrite map_app, E. exact Hc.
  - apply placed_other in Hp as [Hr Hp]; [|done]. rewrite dedup_other by (destruct item; try done; by destruct (Ha a)).
    assert (call_id_list (item :: rest) = call_id_list rest) as Hids by (destruct item; try done; by destruct (Ha a)).
    rewrite Hids in Hnd. specialize (IH s Hnd Hp). destruct (dedup_duplicate_tool_results rest) as [n rest1]. cbn [fst snd] in *.
    rewrite dangling_other by done. destruct (repair_dangling_tool_calls_with resolve s rest1) as [[s'' m] rest2]. cbn [fst snd] in *.
    by constructor.
Qed.

End Resolve.

Lemma strip_paired_fixed (items : list Item) : well_paired items → NoDup (call_id_list items) → placed items.
Proof.
  induction 1 as [|a run rest Hp Hw IH|item rest Hr Ha Hw IH]; intros Hnd; [done|..].
  - rewrite call_ids_turn in Hnd. apply NoDup_app in Hnd as (Hnd & _ & Hrest). specialize (IH Hrest). unfold placed in *.
    rewrite strip_turn by (by apply well_paired_headed). rewrite IH.
    destruct (paired_settled a run Hnd Hp) as (_ & Hf & _). apply foreign_nil in Hf as Hans. by rewrite Hf, Hans.
  - assert (call_id_list (item :: rest) = call_id_list rest) as Hids by (destruct item; try done; by destruct (Ha a)).
    rewrite Hids in Hnd. specialize (IH Hnd). unfold placed, strip_displaced_tool_results in *.
    destruct item; try done; simpl; try (by rewrite IH). by destruct (Ha a).
Qed.

End IntegrityLaws.
