(* ===== verification/Persistence.v ===== *)
(** * Persistence of the chat history

    The trait through which the chat-state actor writes its history
    ([xai-chat-state/src/persistence.rs]), as a class of operations, and as a
    second class what the actor relies on: each operation's effect on the history
    a later start reads.  An acknowledgement that was dropped is [None], the
    [io::Error]s carry no data the actor reads. *)

From S2P Require Import Prelude RustStr ToolCallIds History.

Section Persistence.
Context `{Payloads}.

(** ** Acknowledgements: [commands.rs] *)

Inductive StrictAppendAck := Appended | AlreadyPresent (item : Item).

Inductive StrictAppendError :=
| NotCommitted
| Committed (acknowledgement : StrictAppendAck)
| Indeterminate.

Definition SwitchResult : Type := (StrictAppendAck + StrictAppendError)%type.

(** ** The trait *)

Class ChatPersistence (P : Type) := {
  persist_message : Item → P → P;
  persist_working_directory_switch_and_ack : Item → P → P * option SwitchResult;
  replace_history : list Item → P → P;
  replace_history_for_strip_and_ack : list Item → P → P * option bool;
  flush : P → P;
}.

(** ** What it promises *)

Definition is_switch_of (generation : option N) (item : Item) : bool :=
  bool_decide (working_directory_switch_generation item = generation).

Definition find_switch (generation : option N) (items : list Item) : option Item :=
  List.find (is_switch_of generation) items.

(** What a reported result says of the file before ([d]) and after ([d']).
    [Indeterminate] and a dropped acknowledgement say nothing. *)
Definition switch_effect (item : Item) (result : option SwitchResult) (d d' : list Item) : Prop :=
  match result with
  | Some (inl Appended) | Some (inr (Committed Appended)) =>
      d' = d ++ [item] ∧ find_switch (working_directory_switch_generation item) d = None
  | Some (inl (AlreadyPresent authoritative)) | Some (inr (Committed (AlreadyPresent authoritative))) =>
      d' = d ∧ find_switch (working_directory_switch_generation item) d = Some authoritative
  | Some (inr NotCommitted) => d' = d
  | Some (inr Indeterminate) | None => True
  end.

Class PersistedHistory (P : Type) `{ChatPersistence P} := {
  stored : P → list Item;
  stored_message : ∀ item p, stored (persist_message item p) = stored p ++ [item];
  stored_replace : ∀ items p, stored (replace_history items p) = items;
  stored_flush : ∀ p, stored (flush p) = stored p;
  stored_switch : ∀ item p,
    is_Some (working_directory_switch_generation item) →
    let '(p', result) := persist_working_directory_switch_and_ack item p in
    switch_effect item result (stored p) (stored p');
  stored_strip : ∀ items p,
    let '(p', acked) := replace_history_for_strip_and_ack items p in
    acked = Some true → stored p' = items;
}.

(** ** The session file

    [ChannelChatPersistence] over the JSONL store of [session/storage/jsonl/mod.rs]
    when no input or output fails: [append_cwd_switch_line_sync_with] looks the
    generation up before it appends. *)

Definition append_cwd_switch (item : Item) (file : list Item) : list Item * option SwitchResult :=
  match find_switch (working_directory_switch_generation item) file with
  | Some authoritative => (file, Some (inl (AlreadyPresent authoritative)))
  | None => (file ++ [item], Some (inl Appended))
  end.

#[export] Instance session_file : ChatPersistence (list Item) :=
  {| persist_message item file := file ++ [item];
     persist_working_directory_switch_and_ack := append_cwd_switch;
     replace_history items _ := items;
     replace_history_for_strip_and_ack items _ := (items, Some true);
     flush file := file |}.

#[export] Program Instance session_file_laws : PersistedHistory (list Item) := {| stored file := file |}.
Solve Obligations with done.
Next Obligation.
  intros item file _. simpl. unfold append_cwd_switch. by destruct (find_switch _ file) eqn:E.
Qed.

End Persistence.
