(* ===== verification/Usage.v ===== *)
(** * Billing ledgers

    [xai-chat-state/src/usage.rs]: what a prompt and a session used, in total and
    by model.  Counters are [u64] and saturate, costs are [i64] ticks and saturate
    at both ends.  The by-model map keeps insertion order in the source; nothing
    modelled here depends on it. *)

From S2P Require Import Prelude RustStr ToolCallIds History Tokens.

#[local] Open Scope N_scope.

(** [TokenUsage] of the sampling types; its own total is not read here. *)
Record TokenUsage := mkTokenUsage {
  prompt_tokens : N;
  completion_tokens : N;
  usage_total_tokens : N;
  usage_reasoning_tokens : N;
  cached_prompt_tokens : N;
  cache_creation_prompt_tokens : N;
}.

Record UsageTotals := mkTotals {
  input_tokens : N;
  output_tokens : N;
  cached_read_tokens : N;
  cache_creation_tokens : N;
  reasoning_tokens : N;
  model_calls : N;
  api_duration_ms : N;
  cost_usd_ticks : option Z;
  cost_missing_calls : N;
}.

Definition no_usage : UsageTotals := mkTotals 0 0 0 0 0 0 0 None 0.

(** [sampling_types::reported_cost_ticks] *)
Definition reported_cost_ticks (raw : option Z) : option Z :=
  t ← raw; if (0 <? t)%Z then Some t else None.

(** [UsageTotals::from_call] *)
Definition from_call (usage : TokenUsage) (duration : option N) (cost : option Z) : UsageTotals :=
  let cost := reported_cost_ticks cost in
  mkTotals (prompt_tokens usage) (completion_tokens usage) (cached_prompt_tokens usage)
    (cache_creation_prompt_tokens usage) (usage_reasoning_tokens usage) 1 (default 0 duration) cost
    (match cost with None => 1 | Some _ => 0 end).

Definition total_tokens (t : UsageTotals) : N := saturating_add (input_tokens t) (output_tokens t).

Definition cost_is_partial (t : UsageTotals) : bool :=
  match cost_usd_ticks t with Some _ => 0 <? cost_missing_calls t | None => false end.

Definition I64_MAX : Z := 2 ^ 63 - 1.
Definition I64_MIN : Z := - 2 ^ 63.

(** [i64::saturating_add] *)
Definition saturating_add_i64 (a b : Z) : Z := Z.max I64_MIN (Z.min I64_MAX (a + b)).

Definition merge_cost_ticks (a b : option Z) : option Z :=
  match a, b with
  | None, None => None
  | a, b => Some (saturating_add_i64 (default 0%Z a) (default 0%Z b))
  end.

Definition fold_totals (self other : UsageTotals) : UsageTotals :=
  mkTotals
    (saturating_add (input_tokens self) (input_tokens other))
    (saturating_add (output_tokens self) (output_tokens other))
    (saturating_add (cached_read_tokens self) (cached_read_tokens other))
    (saturating_add (cache_creation_tokens self) (cache_creation_tokens other))
    (saturating_add (reasoning_tokens self) (reasoning_tokens other))
    (saturating_add (model_calls self) (model_calls other))
    (saturating_add (api_duration_ms self) (api_duration_ms other))
    (merge_cost_ticks (cost_usd_ticks self) (cost_usd_ticks other))
    (saturating_add (cost_missing_calls self) (cost_missing_calls other)).

Record UsageLedger := mkLedger {
  totals : UsageTotals;
  by_model : gmap bytes UsageTotals;
  main_loop_model_calls : N;
  incomplete : bool;
}.

Definition empty_ledger : UsageLedger := mkLedger no_usage ∅ 0 false.

Definition fold_entry (l : UsageLedger) (model_id : bytes) (t : UsageTotals) : UsageLedger :=
  mkLedger (fold_totals (totals l) t)
    (<[model_id := fold_totals (default no_usage (by_model l !! model_id)) t]> (by_model l))
    (main_loop_model_calls l) (incomplete l).

Definition record_main_loop_call (l : UsageLedger) (model_id : bytes) (usage : TokenUsage) (duration : option N)
    (cost : option Z) : UsageLedger :=
  let call := from_call usage duration cost in
  let l := mkLedger (totals l) (by_model l) (saturating_add (main_loop_model_calls l) 1) (incomplete l) in
  fold_entry l model_id call.

Definition mark_incomplete (l : UsageLedger) : UsageLedger :=
  mkLedger (totals l) (by_model l) (main_loop_model_calls l) true.

Definition record_subagent (l : UsageLedger) (entries : list (bytes * UsageTotals)) (incomplete : bool) : UsageLedger :=
  let l := foldl (fun l e => fold_entry l e.1 e.2) l entries in
  if incomplete then mark_incomplete l else l.

(** ** The total is the sum of the models *)

(** The counters of a record. *)
Definition counters : list (UsageTotals → N) :=
  [input_tokens; output_tokens; cached_read_tokens; cache_creation_tokens; reasoning_tokens; model_calls;
   api_duration_ms; cost_missing_calls].

Definition model_sum (f : UsageTotals → N) (m : gmap bytes UsageTotals) : N :=
  map_fold (fun _ t n => f t + n) 0 m.

Definition saturated (n : N) : N := N.min n U64_MAX.

Definition in_range (t : UsageTotals) : Prop := ∀ f, f ∈ counters → f t ≤ U64_MAX.

Definition balanced (l : UsageLedger) : Prop :=
  in_range (totals l) ∧ map_Forall (fun _ => in_range) (by_model l)
  ∧ (∀ f, f ∈ counters → f (totals l) = saturated (model_sum f (by_model l)))
  ∧ (is_Some (cost_usd_ticks (totals l)) ↔ ∃ model t, by_model l !! model = Some t ∧ is_Some (cost_usd_ticks t)).

Inductive LedgerStep : UsageLedger → UsageLedger → Prop :=
| step_call l model usage duration cost : LedgerStep l (record_main_loop_call l model usage duration cost)
| step_subagent l entries flag : LedgerStep l (record_subagent l entries flag)
| step_incomplete l : LedgerStep l (mark_incomplete l).

Lemma counter_fold (f : UsageTotals → N) (a b : UsageTotals) :
  f ∈ counters → f (fold_totals a b) = saturating_add (f a) (f b).
Proof. unfold counters. rewrite !elem_of_cons, elem_of_nil. intuition (by subst). Qed.

Lemma counter_none (f : UsageTotals → N) : f ∈ counters → f no_usage = 0.
Proof. unfold counters. rewrite !elem_of_cons, elem_of_nil. intuition (by subst). Qed.

Lemma fold_in_range (a b : UsageTotals) : in_range (fold_totals a b).
Proof. intros f Hf. rewrite counter_fold by done. unfold saturating_add. lia. Qed.

Lemma model_sum_insert (f : UsageTotals → N) (m : gmap bytes UsageTotals) (k : bytes) (t : UsageTotals) :
  model_sum f (<[k := t]> m) = f t + model_sum f (delete k m).
Proof.
  unfold model_sum. rewrite <-insert_delete_eq, map_fold_insert_L; [done|lia|by rewrite lookup_delete_eq].
Qed.

Lemma model_sum_delete (f : UsageTotals → N) (m : gmap bytes UsageTotals) (k : bytes) :
  f no_usage = 0 → model_sum f m = f (default no_usage (m !! k)) + model_sum f (delete k m).
Proof.
  intros Hf. destruct (m !! k) as [t|] eqn:E; simpl.
  - by rewrite <-model_sum_insert, insert_id.
  - by rewrite delete_id, Hf.
Qed.

Lemma merge_cost_Some (a b : option Z) : is_Some (merge_cost_ticks a b) ↔ is_Some a ∨ is_Some b.
Proof. destruct a, b; simpl; rewrite ?is_Some_alt; naive_solver. Qed.

Lemma fold_entry_balanced (l : UsageLedger) (model : bytes) (t : UsageTotals) :
  balanced l → balanced (fold_entry l model t).
Proof.
  intros (Ht & Hm & Hs & Hc). split_and!; simpl.
  - apply fold_in_range.
  - apply map_Forall_insert_2; [apply fold_in_range|done].
  - intros f Hf. rewrite counter_fold, Hs, model_sum_insert, counter_fold by done.
    rewrite (model_sum_delete f (by_model l) model) by (by apply counter_none).
    unfold saturated, saturating_add. lia.
  - rewrite merge_cost_Some, Hc. split.
    + intros [(k & u & Hk & Hu)|Hn].
      * destruct (decide (model = k)) as [<-|]; [|exists k, u; by rewrite lookup_insert_ne].
        exists model. eexists. rewrite lookup_insert_eq, Hk. split; [done|]. apply merge_cost_Some. by left.
      * exists model. eexists. rewrite lookup_insert_eq. split; [done|]. apply merge_cost_Some. by right.
    + intros (k & u & Hk & Hu). destruct (decide (model = k)) as [<-|Hne].
      * rewrite lookup_insert_eq in Hk. injection Hk as <-. apply merge_cost_Some in Hu as [Hu|]; [left|by right].
        destruct (by_model l !! model) eqn:E; [by eauto|by destruct Hu].
      * rewrite lookup_insert_ne in Hk by done. left. by eauto.
Qed.

Lemma foldl_balanced (entries : list (bytes * UsageTotals)) (l : UsageLedger) :
  balanced l → balanced (foldl (fun l e => fold_entry l e.1 e.2) l entries).
Proof. revert l. induction entries; intros l Hl; [done|]. by apply IHentries, fold_entry_balanced. Qed.

(** A ledger's books balance: whatever calls and subagents were folded in,
    each total counter is the sum over the models, cut at the width of a counter
    only once; there is a total cost exactly when some model has one; and a ledger
    once marked incomplete stays so. *)
Theorem ledger_balances (l : UsageLedger) :
  rtc LedgerStep empty_ledger l →
  balanced l ∧ ∀ l', rtc LedgerStep l l' → incomplete l = true → incomplete l' = true.
Proof.
  intros Hr. split.
  - assert (∀ l0, balanced l0 → rtc LedgerStep l0 l → balanced l) as Hgen.
    { intros l0 Hb Hr'. clear Hr. induction Hr' as [|l0 l1 l2 Hs _ IH]; [done|]. apply IH.
      destruct Hs as [l0 model usage d c|l0 entries flag|l0]; [by apply fold_entry_balanced| |done].
      unfold record_subagent. destruct flag; by apply foldl_balanced. }
    apply (Hgen empty_ledger); [|done]. split_and!; [intros f Hf; rewrite counter_none by done; lia|done| |].
    + intros f Hf. simpl. rewrite counter_none by done. done.
    + simpl. split; [by intros []|]. intros (k & t & Hk & _). by rewrite lookup_empty in Hk.
  - intros l' Hr'. clear Hr. induction Hr' as [|l0 l1 l2 Hs _ IH]; [done|]. intros Hi. apply IH.
    destruct Hs as [l0 model usage d c|l0 entries flag|l0]; [done| |done].
    unfold record_subagent.
    assert (∀ l, incomplete l = true → incomplete (foldl (fun l e => fold_entry l e.1 e.2) l entries) = true) as Hf.
    { clear. induction entries as [|e entries IHe]; intros l' Hl'; [done|]. simpl. by apply IHe. }
    destruct flag; [done|by apply Hf].
Qed.

Lemma ledger_balances_witness :
  balanced (record_main_loop_call (record_subagent empty_ledger [($"b", from_call (mkTokenUsage 5 1 0 0 0 0) None None)] true)
              $"a" (mkTokenUsage 100 10 0 0 0 0) (Some 7) (Some 70%Z)).
Proof.
  apply (ledger_balances (record_main_loop_call _ _ _ _ _)).
  eapply rtc_l; [apply (step_subagent empty_ledger)|]. eapply rtc_l; [apply step_call|]. apply rtc_refl.
Defined.
