(* ===== verification/ImageBudget.v ===== *)
(** * The byte budget for inline images

    [xai-chat-state/src/image_budget.rs]: when the serialized history reaches a
    trigger, its oldest images are taken out until a lower mark is reached; and
    the removal of images a server rejected
    ([sampling-types/src/conversation.rs]).  The lengths of JSON texts come from
    [serde_json] and are parameters.  Byte counts are far below the width of
    [usize], subtractions saturate as in the source. *)

From S2P Require Import Prelude RustStr ToolCallIds History HistoryLaws Tokens StrFind Compaction.

#[local] Open Scope N_scope.

(** Lengths [serde_json] gives to the texts of a string, a part and a history. *)
Class JsonSizes `{Payloads} := {
  json_str : bytes → N;
  json_part : ContentPart → N;
  json_items : list Item → N;
}.

Section ImageBudget.
Context `{Payloads} `{!JsonSizes}.

(** ** Limits *)

Definition IMAGE_COMPACT_PLACEHOLDER : bytes :=
  $"[An earlier image was removed to keep the request within its size limit and is no longer visible. Do not describe or reason about its contents from memory; ask the user to re-share it if you need to see it again.]".

Definition TOOL_IMAGE_COMPACT_NOTE : bytes :=
  $"[One or more images from this tool result were removed to keep the request within its size limit and are no longer visible. Do not describe or reason about their contents from memory.]".

(** [ApiBackend::ChatCompletions.default_max_request_bytes()] *)
Definition MAX_REQUEST_BYTES : N := 50 * 1024 * 1024.
Definition IMAGE_COMPACT_TRIGGER_BYTES : N := MAX_REQUEST_BYTES - 3 * 1024 * 1024.
Definition IMAGE_COMPACT_RECLAIM_TARGET_BYTES : N := MAX_REQUEST_BYTES / 2.
Definition TRIGGER_HEADROOM_BYTES : N := MAX_REQUEST_BYTES - IMAGE_COMPACT_TRIGGER_BYTES.
Definition MIN_REQUEST_BYTES : N := 4 * TRIGGER_HEADROOM_BYTES.

Definition image_budget_limits (max_request_bytes : option N) : N * N :=
  match max_request_bytes with
  | None => (IMAGE_COMPACT_TRIGGER_BYTES, IMAGE_COMPACT_RECLAIM_TARGET_BYTES)
  | Some m => let cap := N.max m MIN_REQUEST_BYTES in (cap - TRIGGER_HEADROOM_BYTES, cap / 2)
  end.

(** ** Sizes *)

Definition inline_image_count (conversation : list Item) : nat :=
  sum_list (map (fun item =>
    match item with
    | IUser u => length (List.filter is_image (user_content u))
    | IToolResult t => length (List.filter is_image (result_images t))
    | _ => O
    end) conversation).

Definition encoded_url_bytes (url : bytes) : N :=
  match split_once_str $"," url with
  | None => saturating_sub (json_str url) 2
  | Some (header, base64_tail) =>
      if starts_with $"data:" header && ends_with $";base64" header
      then saturating_sub (json_str header) 2 + 1 + byte_len base64_tail
      else saturating_sub (json_str url) 2
  end.

(** The length of [{"type":"image","url":""}]. *)
Definition IMAGE_PART_FRAME_BYTES : N := 25.

(** Only called on images. *)
Definition image_part_bytes (part : ContentPart) : N :=
  match part with Image url => IMAGE_PART_FRAME_BYTES + encoded_url_bytes url | Text _ => 0 end.

(** [blank_image_urls]: the parts, and what to add to the count. *)
Definition blank_image_urls (parts : list ContentPart) : list ContentPart * N :=
  (map (fun p => match p with Image _ => Image [] | Text _ => p end) parts,
   sum_N (map (fun p => match p with Image url => encoded_url_bytes url | Text _ => 0 end) parts)).

Definition with_images (t : ToolResult) (images : list ContentPart) : ToolResult :=
  mkResult (tool_call_id t) (result_content t) images.

Definition blank_item (item : Item) : Item * N :=
  match item with
  | IUser u => let '(parts, n) := blank_image_urls (user_content u) in (IUser (with_user_content u parts), n)
  | IToolResult t => let '(parts, n) := blank_image_urls (result_images t) in (IToolResult (with_images t parts), n)
  | _ => (item, 0)
  end.

Definition conversation_body_bytes (conversation : list Item) : N :=
  json_items (map (fun item => (blank_item item).1) conversation)
  + sum_N (map (fun item => (blank_item item).2) conversation).

(** ** Eviction *)

Inductive ImageLocation := LUser (item part : nat) | LToolResult (item : nat).

Fixpoint user_images (item part : nat) (parts : list ContentPart) : list (ImageLocation * N) :=
  match parts with
  | [] => []
  | p :: rest =>
      (if is_image p then [(LUser item part, image_part_bytes p)] else []) ++ user_images item (S part) rest
  end.

Definition item_images (i : nat) (item : Item) : list (ImageLocation * N) :=
  match item with
  | IUser u => user_images i 0 (user_content u)
  | IToolResult t => map (fun p => (LToolResult i, image_part_bytes p)) (List.filter is_image (result_images t))
  | _ => []
  end.

Fixpoint discover (i : nat) (items : list Item) : list (ImageLocation * N) :=
  match items with
  | [] => []
  | item :: rest => item_images i item ++ discover (S i) rest
  end.

(** [images.remove(images.iter().position(is_image))].  That there is an image is
    [unreachable!] to miss ([evict_next]). *)
Fixpoint remove_first_image (images : list ContentPart) : list ContentPart :=
  match images with
  | [] => []
  | p :: rest => if is_image p then rest else p :: remove_first_image rest
  end.

Definition tool_note_suffix : bytes := newline :: newline :: TOOL_IMAGE_COMPACT_NOTE.

Definition noted (content : bytes) : bytes :=
  if contains_str TOOL_IMAGE_COMPACT_NOTE content then content else content ++ tool_note_suffix.

(** One round of the loop: [None] when it [continue]s. *)
Definition evict_image (loc : ImageLocation) (image_bytes running : N) (conversation : list Item)
    : option (list Item * N) :=
  match loc with
  | LUser item part =>
      match conversation !! item with
      | Some (IUser u) =>
          _ ← user_content u !! part;
          let content := <[part := Text IMAGE_COMPACT_PLACEHOLDER]> (user_content u) in
          Some (<[item := IUser (with_user_content u content)]> conversation,
                saturating_sub running
                  (saturating_sub image_bytes (json_part (Text IMAGE_COMPACT_PLACEHOLDER))))
      | _ => None
      end
  | LToolResult item =>
      match conversation !! item with
      | Some (IToolResult t) =>
          let images := remove_first_image (result_images t) in
          let running := saturating_sub running
            (image_bytes + (if bool_decide (length images = 0)%nat then 0 else 1)) in
          let running :=
            if contains_str TOOL_IMAGE_COMPACT_NOTE (result_content t) then running
            else saturating_add running (saturating_sub (json_str tool_note_suffix) 2) in
          Some (<[item := IToolResult (mkResult (tool_call_id t) (noted (result_content t)) images)]> conversation,
                running)
      | _ => None
      end
  end.

Fixpoint evict_go (images : list (ImageLocation * N)) (running target : N) (evicted : nat) (conversation : list Item)
    : nat * N * list Item :=
  match images with
  | [] => (evicted, running, conversation)
  | (loc, image_bytes) :: rest =>
      if running <=? target then (evicted, running, conversation)
      else match evict_image loc image_bytes running conversation with
           | Some (conversation, running) => evict_go rest running target (S evicted) conversation
           | None => evict_go rest running target evicted conversation
           end
  end.

(** The running count is kept for the laws; the source returns the first and
    mutates the last component. *)
Definition evict_images_to_budget (conversation : list Item) (current target : N) : nat * N * list Item :=
  evict_go (discover 0 conversation) current target 0 conversation.

(** ** The budget *)

Record ImageBudgetOutcome := mkOutcome {
  body_bytes : N;
  body_bytes_after : N;
  inline_images : nat;
  needs_image_compaction : bool;
  evicted : nat;
}.

Definition apply_image_budget_with_limits (items : list Item) (trigger target : N) : list Item * ImageBudgetOutcome :=
  let body := conversation_body_bytes items in
  let images := inline_image_count items in
  let needs := trigger <=? body in
  let '(evicted, items) :=
    if needs && (target <? body) then
      let '(n, _, items) := evict_images_to_budget items body target in (n, items)
    else (O, items) in
  let after := if Nat.eqb evicted 0 then body else conversation_body_bytes items in
  (items, mkOutcome body after images needs evicted).

Definition apply_image_budget (items : list Item) (max_request_bytes : option N) : list Item * ImageBudgetOutcome :=
  let '(trigger, target) := image_budget_limits max_request_bytes in
  apply_image_budget_with_limits items trigger target.

(** ** Images the server rejected: [strip_images_by_url] *)

(** U+2014 in UTF-8. *)
Definition IMAGE_STRIP_PLACEHOLDER : bytes :=
  $"[image removed " ++ map ascii_of_nat [226; 128; 148]%nat
  ++ $" the server could not process it; its contents are unavailable. Ask the user to re-attach the image if it is still needed.]".

Definition rejected (urls : list bytes) (part : ContentPart) : bool :=
  match part with Image url => bool_decide (url ∈ urls) | Text _ => false end.

Definition strip_item (urls : list bytes) (item : Item) : nat * Item :=
  match item with
  | IUser u =>
      (length (List.filter (rejected urls) (user_content u)),
       IUser (with_user_content u
         (map (fun p => if rejected urls p then Text IMAGE_STRIP_PLACEHOLDER else p) (user_content u))))
  | IToolResult t =>
      (length (List.filter (rejected urls) (result_images t)),
       IToolResult (with_images t (List.filter (fun p => negb (rejected urls p)) (result_images t))))
  | _ => (O, item)
  end.

Definition strip_images_by_url (items : list Item) (urls : list bytes) : nat * list Item :=
  (sum_list (map (fun i => (strip_item urls i).1) items), map (fun i => (strip_item urls i).2) items).

(** ** What eviction does *)

Definition part_url (p : ContentPart) : option bytes := match p with Image url => Some url | Text _ => None end.

Definition item_urls (item : Item) : list bytes :=
  match item with
  | IUser u => omap part_url (user_content u)
  | IToolResult t => omap part_url (result_images t)
  | _ => []
  end.

(** The inline images, oldest first. *)
Definition image_urls (items : list Item) : list bytes := flat_map item_urls items.

(** An item after some of its images were evicted. *)
Definition evicted_from (item item' : Item) : Prop :=
  match item with
  | IUser u => ∃ parts, item' = IUser (with_user_content u parts)
      ∧ Forall2 (fun p p' => p' = p ∨ is_image p = true ∧ p' = Text IMAGE_COMPACT_PLACEHOLDER) (user_content u) parts
  | IToolResult t => ∃ content images, item' = IToolResult (mkResult (tool_call_id t) content images)
      ∧ (content = result_content t ∧ images = result_images t
         ∨ content = noted (result_content t) ∧ images `sublist_of` result_images t
           ∧ List.filter (fun p => negb (is_image p)) images
             = List.filter (fun p => negb (is_image p)) (result_images t))
  | _ => item' = item
  end.

Lemma contains_note (content : bytes) : contains_str TOOL_IMAGE_COMPACT_NOTE (noted content) = true.
Proof.
  unfold noted. destruct (contains_str _ content) eqn:E; [done|]. apply contains_str_true.
  exists (content ++ [newline; newline]), []. unfold tool_note_suffix. by rewrite app_nil_r, <-app_assoc.
Qed.

Lemma noted_twice (content : bytes) : noted (noted content) = noted content.
Proof. unfold noted at 1. by rewrite contains_note. Qed.

Lemma evicted_from_refl (item : Item) : evicted_from item item.
Proof.
  destruct item as [| [parts r g t i]| |t| |]; try done; simpl.
  - exists parts. split; [done|]. by apply Forall_Forall2_diag, Forall_forall; left.
  - exists (result_content t), (result_images t). split; [by destruct t|by left].
Qed.

Lemma evicted_from_trans (i1 i2 i3 : Item) : evicted_from i1 i2 → evicted_from i2 i3 → evicted_from i1 i3.
Proof.
  destruct i1 as [|u| |t| |]; simpl; intros H1; [by subst|..|by subst|by subst].
  - destruct H1 as (ps & -> & H1). simpl. intros (qs & -> & H2). exists qs. split; [done|].
    revert qs H2. induction H1 as [|p p' l l' Hp _ IH]; intros qs H2; inversion H2; subst; [constructor|].
    constructor; [|by apply IH]. naive_solver.
  - by subst.
  - destruct H1 as (c & im & -> & H1). simpl. intros (c' & im' & -> & H2). exists c', im'. split; [done|].
    destruct H1 as [[-> ->]|(-> & Hs & Hf)], H2 as [[-> ->]|(-> & Hs' & Hf')]; [by left|by right..|].
    right. split_and!; [by rewrite noted_twice|by etrans|congruence].
Qed.

#[export] Instance evicted_from_preorder : PreOrder evicted_from.
Proof. split; [exact evicted_from_refl|exact evicted_from_trans]. Qed.

Lemma user_images_none (i k : nat) (parts : list ContentPart) :
  user_images i k parts = [] → omap part_url parts = [].
Proof.
  revert k. induction parts as [|[t|url] parts IH]; intros k; [done|apply IH|done].
Qed.

(** Where the next image of a user item is. *)
Lemma user_images_next (i k : nat) (parts : list ContentPart) (loc : ImageLocation) (b : N) rest :
  user_images i k parts = (loc, b) :: rest →
  ∃ pre url post, parts = pre ++ Image url :: post ∧ loc = LUser i (k + length pre) ∧ omap part_url pre = []
    ∧ ∀ text, user_images i k (pre ++ Text text :: post) = rest.
Proof.
  revert k. induction parts as [|[t|url] parts IH]; intros k; [done|..]; simpl.
  - intros (pre & url & post & -> & -> & Hp & Hr)%IH. exists (Text t :: pre), url, post.
    split_and!; [done|simpl; f_equal; lia|done|done].
  - intros [= <- <- <-]. exists [], url, parts. split_and!; [done|simpl; f_equal; lia|done|done].
Qed.

Lemma no_images_filter (images : list ContentPart) : List.filter is_image images = [] ↔ omap part_url images = [].
Proof. induction images as [|[t|url] images IH]; [done|apply IH|done]. Qed.

Lemma remove_first_spec (images : list ContentPart) (p : ContentPart) (rest : list ContentPart) :
  List.filter is_image images = p :: rest →
  ∃ url, p = Image url ∧ omap part_url images = url :: omap part_url (remove_first_image images)
    ∧ List.filter is_image (remove_first_image images) = rest
    ∧ remove_first_image images `sublist_of` images
    ∧ List.filter (fun p => negb (is_image p)) (remove_first_image images)
      = List.filter (fun p => negb (is_image p)) images.
Proof.
  induction images as [|[t|url] images IH]; [done|..]; simpl.
  - intros (url & -> & Ho & Hf & Hs & Hn)%IH. exists url. split_and!; [done|done|done|by constructor|by rewrite Hn].
  - intros [= <- <-]. exists url. split_and!; [done|done|done|by constructor|done].
Qed.

Lemma discover_none (k : nat) (items : list Item) : discover k items = [] → image_urls items = [].
Proof.
  revert k. induction items as [|item items IH]; intros k; [done|]. simpl. intros [Hi Hr]%app_eq_nil.
  rewrite (IH (S k)) by done. rewrite app_nil_r. destruct item as [|u| |t| |]; try done; simpl in *.
  - by eapply user_images_none.
  - apply no_images_filter. by destruct (List.filter is_image (result_images t)).
Qed.

(** The first discovered image is reached and evicted, and the ones discovered
    after it are those of the new history: no round of the loop misses. *)
Lemma evict_next (items : list Item) (loc : ImageLocation) (b running : N) rest :
  discover 0 items = (loc, b) :: rest →
  ∃ items' running' url, evict_image loc b running items = Some (items', running')
    ∧ discover 0 items' = rest ∧ image_urls items = url :: image_urls items' ∧ Forall2 evicted_from items items'.
Proof.
  assert (∀ k, discover k items = (loc, b) :: rest →
    ∃ pre item post rest', items = pre ++ item :: post ∧ discover k pre = [] ∧ image_urls pre = []
      ∧ item_images (k + length pre) item = (loc, b) :: rest'
      ∧ rest = rest' ++ discover (S (k + length pre)) post) as Hfind.
  { induction items as [|item items IH]; intros k; [done|]. simpl. destruct (item_images k item) as [|e es] eqn:E.
    - intros (pre & it & post & rest' & -> & Hd & Hu & Hi & ->)%IH. exists (item :: pre), it, post, rest'.
      simpl. rewrite E, Hd. split_and!; [done|done| |by rewrite <-plus_n_Sm in *|by rewrite <-plus_n_Sm].
      assert (image_urls [item] = []) as Hone by (apply (discover_none k); simpl; by rewrite E).
      simpl in Hone. rewrite app_nil_r in Hone. by rewrite Hone.
    - intros [= -> <-]. exists [], item, items, es. simpl. rewrite Nat.add_0_r. by split_and!. }
  intros (pre & item & post & rest' & -> & Hd & Hu & Hi & ->)%Hfind. simpl in Hi. clear Hfind.
  assert (∀ item', item_images (length pre) item' = rest' → 
    discover 0 (pre ++ item' :: post) = rest' ++ discover (S (length pre)) post) as Hrest.
  { intros item' Hitem'. assert (∀ k, discover k pre = [] →
      item_images (k + length pre) item' = rest' →
      discover k (pre ++ item' :: post) = rest' ++ discover (S (k + length pre)) post) as Hgen; [|by apply (Hgen 0%nat)].
    clear. induction pre as [|p pre IH]; intros k Hk Hit; simpl in *.
    - rewrite Nat.add_0_r in *. by rewrite Hit.
    - apply app_eq_nil in Hk as [-> Hk]. simpl. rewrite <-plus_n_Sm in *. by apply IH. }
  assert (∀ item', evicted_from item item' → Forall2 evicted_from (pre ++ item :: post) (pre ++ item' :: post)) as Hall.
  { intros item' He. apply Forall2_app; [|constructor; [done|]]; apply Forall_Forall2_diag, Forall_forall;
      intros; apply evicted_from_refl. }
  unfold image_urls. rewrite flat_map_app. fold (image_urls pre). rewrite Hu. simpl.
  destruct item as [|u| |t| |]; try done; simpl in Hi.
  - apply user_images_next in Hi as (pp & url & pq & Hc & -> & Hpp & Hr). simpl.
    rewrite list_lookup_middle by done. rewrite Hc, list_lookup_middle by done. simpl.
    eexists _, _, url. split; [done|]. rewrite insert_app_r_alt, Nat.sub_diag by done. simpl.
    rewrite insert_app_r_alt, Nat.sub_diag by done. simpl. split_and!.
    + apply Hrest. apply Hr.
    + rewrite flat_map_app. fold (image_urls pre). rewrite Hu. simpl. rewrite !omap_app, Hpp. done.
    + apply Hall. simpl. eexists. split; [done|]. rewrite Hc.
      apply Forall2_app; [|constructor; [by right|]]; apply Forall_Forall2_diag, Forall_forall; by left.
  - destruct (List.filter is_image (result_images t)) as [|p ps] eqn:E; [done|]. injection Hi as <- <- <-.
    apply remove_first_spec in E as (url & -> & Ho & Hf & Hs & Hn). simpl. rewrite list_lookup_middle by done.
    eexists _, _, url. split; [done|]. rewrite insert_app_r_alt, Nat.sub_diag by done. simpl. split_and!.
    + apply Hrest. simpl. by rewrite Hf.
    + rewrite flat_map_app. fold (image_urls pre). rewrite Hu. simpl. by rewrite Ho.
    + apply Hall. simpl. eexists _, _. split; [done|]. right. by split_and!.
Qed.

Lemma evict_go_spec (images : list (ImageLocation * N)) (running target : N) (n : nat) (items : list Item) :
  discover 0 items = images →
  let '(m, running, items') := evict_go images running target n items in
  ∃ k, m = (n + k)%nat ∧ image_urls items' = drop k (image_urls items) ∧ (k ≤ length (image_urls items))%nat
    ∧ Forall2 evicted_from items items' ∧ (running ≤ target ∨ image_urls items' = []) ∧ (k = O → items' = items).
Proof.
  revert running n items. induction images as [|[loc b] images IH]; intros running n items Hd; simpl.
  - exists O. rewrite drop_0. apply discover_none in Hd as Hu.
    split_and!; [lia|done|lia|reflexivity|by right|done].
  - destruct (N.leb_spec running target) as [Hle|_].
    + exists O. rewrite drop_0. split_and!; [lia|done|lia|reflexivity|by left|done].
    + destruct (evict_next items loc b running images Hd) as (items' & running' & url & -> & Hd' & Hu & He).
      specialize (IH running' (S n) items' Hd'). destruct (evict_go _ _ _ _ _) as [[m r] items''].
      destruct IH as (k & -> & Hk & Hl & He' & Hr & _). exists (S k). rewrite Hu. simpl.
      split_and!; [lia|done|simpl; lia| |done|done].
      by etrans.
Qed.

Lemma inline_image_count_urls (items : list Item) : inline_image_count items = length (image_urls items).
Proof.
  assert (∀ ps, length (List.filter is_image ps) = length (omap part_url ps)) as Hp
    by (induction ps as [|[t|url] ps IHp]; [done|exact IHp|by simpl; rewrite IHp]).
  unfold inline_image_count, image_urls. induction items as [|item items IH]; [done|]. simpl. rewrite length_app, IH.
  f_equal. destruct item; simpl; auto.
Qed.

(** The image budget takes out the oldest images and nothing else: the images
    left are those after the first [evicted] ones; every other text, call and
    identifier stays where it was; nothing happens below the trigger; and the pass
    stops early only when its count of the body has come down to the target. *)
Theorem image_budget_evicts_oldest (items : list Item) (trigger target : N) :
  let '(items', outcome) := apply_image_budget_with_limits items trigger target in
  image_urls items' = drop (evicted outcome) (image_urls items)
  ∧ (evicted outcome ≤ inline_images outcome)%nat ∧ inline_images outcome = length (image_urls items)
  ∧ Forall2 evicted_from items items'
  ∧ (conversation_body_bytes items < trigger → items' = items)
  ∧ ((evicted outcome < inline_images outcome)%nat →
     conversation_body_bytes items < trigger ∨ conversation_body_bytes items ≤ target
     ∨ (evict_images_to_budget items (conversation_body_bytes items) target).1.2 ≤ target)
  ∧ body_bytes outcome = conversation_body_bytes items ∧ body_bytes_after outcome = conversation_body_bytes items'.
Proof.
  unfold apply_image_budget_with_limits. pose proof (inline_image_count_urls items) as Hc.
  destruct (trigger <=? conversation_body_bytes items) eqn:Et.
  2: { simpl. apply N.leb_gt in Et. rewrite drop_0. split_and!; [done|lia|done|reflexivity|done|auto|done|done]. }
  apply N.leb_le in Et. simpl. destruct (N.ltb_spec target (conversation_body_bytes items)) as [Ht|Ht].
  2: { simpl. rewrite drop_0. split_and!; [done|lia|done|reflexivity|done|auto|done|done]. }
  unfold evict_images_to_budget.
  pose proof (evict_go_spec (discover 0 items) (conversation_body_bytes items) target 0 items eq_refl) as Hs.
  destruct (evict_go _ _ _ _ _) as [[m r] items'] eqn:E. destruct Hs as (k & -> & Hu & Hl & He & Hr & Hz). simpl.
  split_and!; [done|by rewrite Hc|done|done|lia| |done|].
  - intros Hlt. rewrite Hc in Hlt. destruct Hr as [Hr|Hr]; [by right; right|].
    rewrite Hr in Hu. symmetry in Hu. apply drop_nil_inv in Hu. lia.
  - destruct (Nat.eqb_spec k 0) as [->|]; [|done]. by rewrite Hz.
Qed.

End ImageBudget.
