(* ===== verification/RequestBuilder.v ===== *)
(** * What a request is built from

    The functions of the chat-state actor that work on a history alone:
    [xai-chat-state/src/actor/request_builder.rs] (pruning of old tool results, the
    memory reminder), the retained pruning of [actor/mutations.rs], the system head of
    [conversation_util.rs] and the queries of [actor/queries.rs]. *)

From S2P Require Import Prelude RustStr ToolCallIds History Tokens StrFind Tags Compaction.

#[local] Open Scope nat_scope.

(** ** Pruning *)

Record PruningConfig := mkPruning {
  enabled : bool;
  keep_last_n_turns : nat;
  soft_trim_threshold : nat;
  soft_trim_head : nat;
  soft_trim_tail : nat;
  hard_clear_age_turns : nat;
}.

Definition default_pruning : PruningConfig := mkPruning true 3 4000 1500 1500 10.

Section RequestBuilder.
Context `{Payloads}.

(** The em dash and the ellipsis in UTF-8. *)
Definition em_dash : bytes := map ascii_of_nat [226; 128; 148].
Definition ellipsis : bytes := map ascii_of_nat [226; 128; 166].

Definition HARD_CLEAR_PLACEHOLDER : bytes := $"[Tool result omitted " ++ em_dash ++ $" too old]".

Definition SOFT_TRIM_SEPARATOR : bytes :=
  newline :: newline :: $"[" ++ ellipsis ++ $"trimmed" ++ ellipsis ++ $"]" ++ [newline; newline].

(** [context_window] is not zero. *)
Definition should_prune (total_tokens context_window : N) : bool := (context_window / 2 <? total_tokens)%N.

Definition safe_char_slice (s : bytes) (start count : nat) : bytes := concat (take count (drop start (chars s))).

Definition safe_char_slice_tail (s : bytes) (count : nat) : bytes :=
  let total := length (chars s) in
  if total <=? count then s else concat (drop (total - count) (chars s)).

Definition prune_result (config : PruningConfig) (turn_from_end : nat) (t : ToolResult) : ToolResult :=
  if turn_from_end <? keep_last_n_turns config then t
  else if hard_clear_age_turns config <=? turn_from_end then
    if negb (result_content t =b HARD_CLEAR_PLACEHOLDER) then with_result_content t HARD_CLEAR_PLACEHOLDER else t
  else if soft_trim_threshold config <? length (chars (result_content t)) then
    with_result_content t
      (safe_char_slice (result_content t) 0 (soft_trim_head config) ++ SOFT_TRIM_SEPARATOR
       ++ safe_char_slice_tail (result_content t) (soft_trim_tail config))
  else t.

(** The loop over the items in reverse; the state is [turn_from_end] and
    [seen_first_user]. *)
Fixpoint age_walk {A} (f : nat → ToolResult → A * ToolResult) (turn_from_end : nat) (seen_first_user : bool)
    (items_rev : list Item) : list A * list Item :=
  match items_rev with
  | [] => ([], [])
  | item :: rest =>
      match item with
      | IUser _ =>
          let '(out, rest) := age_walk f (if seen_first_user then turn_from_end + 1 else turn_from_end) true rest in
          (out, item :: rest)
      | IToolResult t =>
          let '(x, t) := f turn_from_end t in
          let '(out, rest) := age_walk f turn_from_end seen_first_user rest in
          (x :: out, IToolResult t :: rest)
      | _ => let '(out, rest) := age_walk f turn_from_end seen_first_user rest in (out, item :: rest)
      end
  end.

Definition prune_conversation (conversation : list Item) (config : PruningConfig) : list Item :=
  if negb (enabled config) then conversation
  else reverse (age_walk (fun age t => (tt, prune_result config age t)) 0 false (reverse conversation)).2.

(** The closure of [prune_retained_conversation]: the flags count what was cleared. *)
Definition clear_result (effective_threshold age : nat) (t : ToolResult) : bool * ToolResult :=
  if age <? effective_threshold then (false, t)
  else if negb (result_content t =b HARD_CLEAR_PLACEHOLDER) then (true, with_result_content t HARD_CLEAR_PLACEHOLDER)
  else (false, t).

Definition hard_clear (effective_threshold : nat) (conversation : list Item) : nat * list Item :=
  let '(cleared, items) := age_walk (clear_result effective_threshold) 0 false (reverse conversation) in
  (length (List.filter id cleared), reverse items).

Definition user_item_count (conversation : list Item) : nat := length (List.filter is_user conversation).

(** [saturating_sub] on [usize]; the sum cannot reach the width. *)
Definition effective_threshold (config : PruningConfig) (prompt_index : nat) (conversation : list Item) : nat :=
  hard_clear_age_turns config + (user_item_count conversation - prompt_index).

(** ** The memory reminder *)

Definition MEMORY_CONTEXT_OPEN_TAG : bytes := $"<memory-context>".

Definition trim_end_newlines (s : bytes) : bytes := trim_end_any [newline] s.

(** The updated prompt; the source also returns whether it differs. *)
Definition upsert_memory_reminder_text (system_prompt reminder : bytes) : bytes :=
  let existing_start :=
    (fun idx => length (trim_end_newlines (take idx system_prompt))) <$> find_str MEMORY_CONTEXT_OPEN_TAG system_prompt in
  match existing_start with
  | Some prefix_len =>
      let prefix := trim_end_newlines (take prefix_len system_prompt) in
      if prefix =b [] then reminder else prefix ++ newline :: newline :: reminder
  | None =>
      if trim_end system_prompt =b reminder then system_prompt
      else if system_prompt =b [] then reminder
      else trim_end_newlines system_prompt ++ newline :: newline :: reminder
  end.

Definition inject_memory_reminder (items : list Item) (reminder : bytes) : bool * list Item :=
  let reminder := trim reminder in
  if reminder =b [] then (false, items)
  else match items with
       | ISystem sys :: rest =>
           let updated := upsert_memory_reminder_text (system_content sys) reminder in
           if system_content sys =b updated then (false, items)
           else (true, ISystem (mkSystem updated (system_reason sys)) :: rest)
       | _ => (true, system reminder :: items)
       end.

(** ** The system head: [conversation_util.rs] *)

Definition trim_line_ends (s : bytes) : bytes := trim_end_any [newline; carriage_return] s.

Definition canonical_system_prompt_eq (a b : bytes) : bool := trim_line_ends a =b trim_line_ends b.

Definition replace_or_insert_system_head (conversation : list Item) (prompt : bytes) : bool * list Item :=
  match conversation with
  | ISystem sys :: rest =>
      if canonical_system_prompt_eq (system_content sys) prompt then (false, conversation)
      else (true, ISystem (mkSystem prompt (system_reason sys)) :: rest)
  | _ => (true, system prompt :: conversation)
  end.

(** ** Queries *)

(** [u.prompt_index.is_some() || u.synthetic_reason.starts_prompt_turn()] *)
Definition is_turn_boundary (u : UserItem) : bool :=
  bool_decide (is_Some (user_prompt_index u)) || starts_prompt_turn (synthetic_reason u).

Definition has_text (a : Assistant) : bool := negb (trim (assistant_content a) =b []).

(** [iter().rev().find_map(..)] *)
Definition find_map_last {A} (f : Item → option A) (items : list Item) : option A := head (omap f (reverse items)).

Definition get_last_assistant_text (conversation : list Item) : option bytes :=
  find_map_last (fun item =>
    match item with IAssistant a => if has_text a then Some (assistant_content a) else None | _ => None end) conversation.

Fixpoint texts_back (items_rev : list Item) : list bytes :=
  match items_rev with
  | [] => []
  | IAssistant a :: rest => if has_text a then assistant_content a :: texts_back rest else texts_back rest
  | IUser u :: rest => if is_turn_boundary u then [] else texts_back rest
  | _ :: rest => texts_back rest
  end.

Definition assistant_texts_in_turn (conversation : list Item) : list bytes := reverse (texts_back (reverse conversation)).

Definition get_last_assistant_text_in_turn (conversation : list Item) : option bytes :=
  last (assistant_texts_in_turn conversation).

Definition get_assistant_text_in_turn (conversation : list Item) : option bytes :=
  let texts := assistant_texts_in_turn conversation in
  if bool_decide (length texts = 0) then None else Some (join [newline] texts).

(** The second loop of [get_trailing_assistant_report], over what precedes the last
    text, latest first. *)
Fixpoint salvage_segments (items_rev : list Item) : list bytes :=
  match items_rev with
  | IAssistant a :: rest =>
      if negb (bool_decide (length (tool_calls a) = 0)) then []
      else if has_text a then assistant_content a :: salvage_segments rest
      else salvage_segments rest
  | IReasoning _ :: rest => salvage_segments rest
  | IUser u :: rest => if bool_decide (synthetic_reason u = LengthContinue) then salvage_segments rest else []
  | _ => []
  end.

Fixpoint trailing_segments (items_rev : list Item) : option (list bytes) :=
  match items_rev with
  | [] => Some []
  | IAssistant a :: rest =>
      if has_text a then Some (assistant_content a :: salvage_segments rest) else trailing_segments rest
  | IUser u :: rest => if is_turn_boundary u then None else trailing_segments rest
  | _ :: rest => trailing_segments rest
  end.

Definition get_trailing_assistant_report (conversation : list Item) : option bytes :=
  segments ← trailing_segments (reverse conversation);
  if bool_decide (length segments = 0) then None else Some (concat (reverse segments)).

Definition get_first_user_text (conversation : list Item) : option bytes :=
  head (omap (fun item => match item with IUser u => head (user_content u) ≫= part_text | _ => None end) conversation).

Record ConversationCounts := mkCounts { count_total : nat; count_user : nat; count_assistant : nat; count_tool_result : nat }.

Definition get_conversation_counts (conversation : list Item) : ConversationCounts :=
  foldl (fun c item =>
    match item with
    | IUser _ => mkCounts (count_total c) (S (count_user c)) (count_assistant c) (count_tool_result c)
    | IAssistant _ => mkCounts (count_total c) (count_user c) (S (count_assistant c)) (count_tool_result c)
    | IToolResult _ => mkCounts (count_total c) (count_user c) (count_assistant c) (S (count_tool_result c))
    | _ => c
    end) (mkCounts (length conversation) 0 0 0) conversation.

Definition get_system_message (conversation : list Item) : option Item := List.find is_system conversation.

End RequestBuilder.
