(* ===== verification/ChatState.v ===== *)
(** * The chat-state actor

    [xai-chat-state/src/actor/]: the state behind a session and the handler of every
    command, one after the other, as the actor's task runs them.  A handler takes the
    actor to the actor after it and the reply it sends.  Persistence is the interface
    of [Persistence.v]; events are collected in the order they are sent.  Token sums
    stay far below [u64] (an estimate is a quarter of bytes in memory). *)

From S2P Require Import Prelude RustStr ToolCallIds History Tokens StrFind Tags Compaction.
From S2P Require Import Persistence Usage ImageBudget Tokens RequestBuilder.

#[local] Open Scope nat_scope.

(** ** Configuration and credentials: [types.rs], [SamplingConfig] *)

Inductive AuthType := SessionToken | ApiKey.

Record Credentials := mkCredentials {
  api_key : option bytes;
  auth_type : AuthType;
  alpha_test_key : option bytes;
  client_version : option bytes;
}.

Definition default_credentials : Credentials := mkCredentials None SessionToken None None.

(** What a session hands through without reading it: the rest of the sampling
    configuration, tool definitions and trace contexts; and the two fields of an
    assistant item that [get_last_model_metadata] copies. *)
Class Opaque `{Payloads} := {
  SamplingRest : Type;
  Tool : Type;
  Trace : Type;
  model_id : AssistantMeta → option bytes;
  model_fingerprint : AssistantMeta → option bytes;
}.

Section ChatState.
Context `{Payloads} `{!JsonSizes} `{!Opaque} {P : Type} `{!ChatPersistence P}.

Record SamplingConfig := mkSampling {
  model : bytes;
  context_window : N;
  max_request_bytes : option N;
  sampling_rest : SamplingRest;
}.

(** ** State: [state.rs] *)

Record TurnCaptureState := mkCapture {
  turn_start_offset : nat;
  pre_replacement_messages : list Item;
  capture_compaction : bool;
}.

Record ChatState := mkChat {
  conversation : list Item;
  sampling_config : SamplingConfig;
  prompt_index : nat;
  prompt_texts : list bytes;
  total_tokens : N;
  pruning_latched : bool;
  stream_start_ms : option Z;
  turn_start_ms : option Z;
  agent_edited_paths : gset bytes;
  last_compaction_prompt_index : option nat;
  credentials : Credentials;
  estimated_tokens_since_model : N;
  estimate_at_last_response : N;
  last_turn_usage : option TokenUsage;
  prompt_usage : option UsageLedger;
  session_usage : UsageLedger;
  turn_capture : option TurnCaptureState;
  harness_trace_buffer : list Item;
  harness_trace_turns : list (list Item);
}.

(** The first two passes of [ChatState::new]. *)
Definition load_repair (items : list Item) : list Item :=
  let '(_, items) := repair_tool_call_ids items in
  let '(_, items) := dedup_duplicate_tool_results items in
  (repair_dangling_tool_calls items UserCancelled).2.

(** [ChatState::new] *)
Definition new_state (items : list Item) (config : SamplingConfig) : ChatState :=
  let items := load_repair items in
  let initial := estimate_conversation_tokens items in
  mkChat items config 0 [] initial false None None ∅ None default_credentials 0 initial None None empty_ledger None [] [].

(** ** Events and the actor *)

Inductive ChatStateEvent :=
| PromptIndexChanged (new_index : nat)
| TokensUpdated (total_tokens : N)
| ConversationReset (new_len : nat)
| ImageBudget (trigger_bytes reclaim_target_bytes : N) (outcome : ImageBudgetOutcome).

Record Actor := mkActor {
  state : ChatState;
  tool_call_ids : gmap bytes (list bytes);
  pruning_config : PruningConfig;
  persistence : P;
  events : list ChatStateEvent;
}.

(** ** Updates of single fields *)

Definition with_state (f : ChatState → ChatState) (a : Actor) : Actor :=
  mkActor (f (state a)) (tool_call_ids a) (pruning_config a) (persistence a) (events a).
Definition with_ids (f : gmap bytes (list bytes) → gmap bytes (list bytes)) (a : Actor) : Actor :=
  mkActor (state a) (f (tool_call_ids a)) (pruning_config a) (persistence a) (events a).
Definition with_persistence (f : P → P) (a : Actor) : Actor :=
  mkActor (state a) (tool_call_ids a) (pruning_config a) (f (persistence a)) (events a).
Definition send_event (e : ChatStateEvent) (a : Actor) : Actor :=
  mkActor (state a) (tool_call_ids a) (pruning_config a) (persistence a) (events a ++ [e]).

Definition set_conversation (c : list Item) (s : ChatState) : ChatState :=
  mkChat c (sampling_config s) (prompt_index s) (prompt_texts s) (total_tokens s) (pruning_latched s)
    (stream_start_ms s) (turn_start_ms s) (agent_edited_paths s) (last_compaction_prompt_index s) (credentials s)
    (estimated_tokens_since_model s) (estimate_at_last_response s) (last_turn_usage s) (prompt_usage s)
    (session_usage s) (turn_capture s) (harness_trace_buffer s) (harness_trace_turns s).

(** [total_tokens], [estimated_tokens_since_model] and [estimate_at_last_response]. *)
Definition set_tokens (total since at_last : N) (s : ChatState) : ChatState :=
  mkChat (conversation s) (sampling_config s) (prompt_index s) (prompt_texts s) total (pruning_latched s)
    (stream_start_ms s) (turn_start_ms s) (agent_edited_paths s) (last_compaction_prompt_index s) (credentials s)
    since at_last (last_turn_usage s) (prompt_usage s)
    (session_usage s) (turn_capture s) (harness_trace_buffer s) (harness_trace_turns s).

Definition set_since (since : N) (s : ChatState) : ChatState :=
  set_tokens (total_tokens s) since (estimate_at_last_response s) s.

Definition set_latched (b : bool) (s : ChatState) : ChatState :=
  mkChat (conversation s) (sampling_config s) (prompt_index s) (prompt_texts s) (total_tokens s) b
    (stream_start_ms s) (turn_start_ms s) (agent_edited_paths s) (last_compaction_prompt_index s) (credentials s)
    (estimated_tokens_since_model s) (estimate_at_last_response s) (last_turn_usage s) (prompt_usage s)
    (session_usage s) (turn_capture s) (harness_trace_buffer s) (harness_trace_turns s).

Definition set_config (c : SamplingConfig) (s : ChatState) : ChatState :=
  mkChat (conversation s) c (prompt_index s) (prompt_texts s) (total_tokens s) (pruning_latched s)
    (stream_start_ms s) (turn_start_ms s) (agent_edited_paths s) (last_compaction_prompt_index s) (credentials s)
    (estimated_tokens_since_model s) (estimate_at_last_response s) (last_turn_usage s) (prompt_usage s)
    (session_usage s) (turn_capture s) (harness_trace_buffer s) (harness_trace_turns s).

Definition set_prompt (index : nat) (texts : list bytes) (s : ChatState) : ChatState :=
  mkChat (conversation s) (sampling_config s) index texts (total_tokens s) (pruning_latched s)
    (stream_start_ms s) (turn_start_ms s) (agent_edited_paths s) (last_compaction_prompt_index s) (credentials s)
    (estimated_tokens_since_model s) (estimate_at_last_response s) (last_turn_usage s) (prompt_usage s)
    (session_usage s) (turn_capture s) (harness_trace_buffer s) (harness_trace_turns s).

Definition set_session (stream turn : option Z) (paths : gset bytes) (compacted : option nat) (c : Credentials)
    (s : ChatState) : ChatState :=
  mkChat (conversation s) (sampling_config s) (prompt_index s) (prompt_texts s) (total_tokens s) (pruning_latched s)
    stream turn paths compacted c
    (estimated_tokens_since_model s) (estimate_at_last_response s) (last_turn_usage s) (prompt_usage s)
    (session_usage s) (turn_capture s) (harness_trace_buffer s) (harness_trace_turns s).

Definition set_usage (last : option TokenUsage) (prompt : option UsageLedger) (session : UsageLedger) (s : ChatState)
    : ChatState :=
  mkChat (conversation s) (sampling_config s) (prompt_index s) (prompt_texts s) (total_tokens s) (pruning_latched s)
    (stream_start_ms s) (turn_start_ms s) (agent_edited_paths s) (last_compaction_prompt_index s) (credentials s)
    (estimated_tokens_since_model s) (estimate_at_last_response s) last prompt session
    (turn_capture s) (harness_trace_buffer s) (harness_trace_turns s).

Definition set_capture (c : option TurnCaptureState) (s : ChatState) : ChatState :=
  mkChat (conversation s) (sampling_config s) (prompt_index s) (prompt_texts s) (total_tokens s) (pruning_latched s)
    (stream_start_ms s) (turn_start_ms s) (agent_edited_paths s) (last_compaction_prompt_index s) (credentials s)
    (estimated_tokens_since_model s) (estimate_at_last_response s) (last_turn_usage s) (prompt_usage s)
    (session_usage s) c (harness_trace_buffer s) (harness_trace_turns s).

Definition set_harness (buffer : list Item) (turns : list (list Item)) (s : ChatState) : ChatState :=
  mkChat (conversation s) (sampling_config s) (prompt_index s) (prompt_texts s) (total_tokens s) (pruning_latched s)
    (stream_start_ms s) (turn_start_ms s) (agent_edited_paths s) (last_compaction_prompt_index s) (credentials s)
    (estimated_tokens_since_model s) (estimate_at_last_response s) (last_turn_usage s) (prompt_usage s)
    (session_usage s) (turn_capture s) buffer turns.

Definition clear_ids : Actor → Actor := with_ids ingest_clear.
Definition conv (a : Actor) : list Item := conversation (state a).
Definition put_conv (c : list Item) : Actor → Actor := with_state (set_conversation c).
Definition persist_all (a : Actor) : Actor := with_persistence (replace_history (conv a)) a.

(** [seal_harness_trace_turn] *)
Definition seal_harness_trace_turn (s : ChatState) : ChatState :=
  match harness_trace_buffer s with
  | [] => s
  | turn => set_harness [] (harness_trace_turns s ++ [turn]) s
  end.

(** ** Turn capture: [mutations.rs] *)

(** [conversation.get(offset..)], with the empty slice past the end. *)
Definition turn_tail (items : list Item) (offset : nat) : list Item :=
  if offset <=? length items then drop offset items else [].

Definition snapshot_turn_slice : Actor → Actor :=
  with_state (fun s =>
    match turn_capture s with
    | Some cap =>
        set_capture (Some (mkCapture (turn_start_offset cap)
          (pre_replacement_messages cap ++ turn_tail (conversation s) (turn_start_offset cap))
          (capture_compaction cap))) s
    | None => s
    end).

Definition rebase_turn_capture_offset : Actor → Actor :=
  with_state (fun s =>
    match turn_capture s with
    | Some cap =>
        set_capture (Some (mkCapture (length (conversation s)) (pre_replacement_messages cap) (capture_compaction cap))) s
    | None => s
    end).

(** ** Rewrites in place *)

Inductive HistoryRewrite := IntegrityRepair | RetainedPrune | ImageStrip.

(** [rewrite_history]; the acknowledgement is that of the strip flavour. *)
Definition rewrite_history (kind : HistoryRewrite) (mutate : list Item → nat * list Item) (a : Actor)
    : Actor * nat * option (option bool) :=
  let snapshots := match kind with IntegrityRepair => true | _ => false end in
  let a := if snapshots then snapshot_turn_slice a else a in
  let '(changed, items) := mutate (conv a) in
  let a := put_conv items a in
  let '(a, disk_ack) :=
    if 0 <? changed then
      match kind with
      | IntegrityRepair | RetainedPrune => (persist_all a, None)
      | ImageStrip =>
          let '(p, ack) := replace_history_for_strip_and_ack (conv a) (persistence a) in
          (with_persistence (fun _ => p) a, Some ack)
      end
    else (a, None) in
  let a := if snapshots then rebase_turn_capture_offset a else a in
  (a, changed, disk_ack).

(** The closure that answers dangling calls. *)
Definition answer_or_synthesize (reason : DanglingToolCallReason) (answers : gmap bytes bytes) (id name : bytes)
    : gmap bytes bytes * bytes :=
  match answers !! id with
  | Some text => (delete id answers, text)
  | None => (answers, synthetic_dangling_result_text name reason)
  end.

Definition integrity_pass (reason : DanglingToolCallReason) (answers : gmap bytes bytes) (items : list Item)
    : nat * list Item :=
  let '(reminted, items) := repair_tool_call_ids items in
  let '(deduped, items) := dedup_duplicate_tool_results items in
  let '(_, repaired, items) := repair_dangling_tool_calls_with (answer_or_synthesize reason) answers items in
  (repaired + deduped + reminted, items).

Definition ensure_conversation_integrity_answering (reason : DanglingToolCallReason) (answers : gmap bytes bytes)
    (a : Actor) : Actor :=
  let '(a, _, _) := rewrite_history IntegrityRepair (integrity_pass reason answers) a in
  clear_ids a.

Definition ensure_conversation_integrity_with_reason (reason : DanglingToolCallReason) : Actor → Actor :=
  ensure_conversation_integrity_answering reason ∅.

Definition ensure_conversation_integrity : Actor → Actor := ensure_conversation_integrity_with_reason UserCancelled.

Definition is_length_continue (item : Item) : bool := has_reason LengthContinue item.

(** The [while] loop that pops, over the items in reverse. *)
Fixpoint pop_reminders (items_rev : list Item) : nat * list Item :=
  match items_rev with
  | item :: rest => if is_length_continue item then let '(n, r) := pop_reminders rest in (S n, r) else (0, items_rev)
  | [] => (0, [])
  end.

Definition ends_with_reminder (items : list Item) : bool :=
  match last items with Some item => is_length_continue item | None => false end.

Definition pop_stranded_continue_reminder (a : Actor) : Actor :=
  if negb (ends_with_reminder (conv a)) then a
  else
    let '(a, _, _) := rewrite_history IntegrityRepair
      (fun items => let '(n, r) := pop_reminders (reverse items) in (n, reverse r)) a in
    a.

Definition repair_dangling_after_harness_halt (class : bytes) (answers : gmap bytes bytes) (a : Actor) : Actor :=
  ensure_conversation_integrity_answering (HarnessHalted class) answers (pop_stranded_continue_reminder a).

(** ** Replacing the history *)

Definition reseed_total_tokens (s : ChatState) (base_estimate : N) : N :=
  let pre := total_tokens s in
  let estimated :=
    if (0 <? pre)%N && (0 <? estimate_at_last_response s)%N
    then round_as_u64 (f64_mul (f64_of_u64 base_estimate)
                         (f64_div (f64_of_u64 pre) (f64_of_u64 (estimate_at_last_response s))))
    else base_estimate in
  if (0 <? pre)%N then N.min estimated pre else estimated.

Definition mark_compaction : Actor → Actor :=
  with_state (fun s =>
    match turn_capture s with
    | Some cap => set_capture (Some (mkCapture (turn_start_offset cap) (pre_replacement_messages cap) true)) s
    | None => s
    end).

Definition replace_conversation (items : list Item) (is_compaction : bool) (a : Actor) : Actor :=
  let a := snapshot_turn_slice a in
  let a := if is_compaction then mark_compaction a else a in
  let '(_, items) := repair_tool_call_ids items in
  let a := clear_ids a in
  let a := with_persistence (replace_history items) a in
  let base_estimate := estimate_conversation_tokens items in
  let estimated := reseed_total_tokens (state a) base_estimate in
  let a := put_conv items a in
  let a := with_state (fun s => set_latched (should_prune estimated (context_window (sampling_config s)))
                                  (set_tokens estimated 0 base_estimate s)) a in
  let a := rebase_turn_capture_offset a in
  let a := send_event (ConversationReset (length (conv a))) a in
  send_event (TokensUpdated estimated) a.

(** [repair_history]: the items are taken out of the state before
    [replace_conversation] runs. *)
Definition repair_history_command (dry_run : bool) (a : Actor) : Actor * HistoryRepairReport :=
  if dry_run then (a, (repair_history (conv a)).1)
  else
    let items := conv a in
    let a := put_conv [] a in
    let '(report, items) := repair_history items in
    if changed report then (replace_conversation items false a, report) else (put_conv items a, report).

Definition strip_conversation_images (urls : list bytes) (a : Actor) : Actor * option (nat * option bool) :=
  let '(a, stripped, disk_ack) := rewrite_history ImageStrip (fun items => strip_images_by_url items urls) a in
  (a, (fun ack => (stripped, ack)) <$> disk_ack).

Definition replace_system_head (prompt : bytes) (a : Actor) : Actor * bool :=
  match conv a with
  | ISystem sys :: _ =>
      if canonical_system_prompt_eq (system_content sys) prompt then (a, false)
      else let '(changed, items) := replace_or_insert_system_head (conv a) prompt in
           (replace_conversation items false a, changed)
  | _ => let '(changed, items) := replace_or_insert_system_head (conv a) prompt in
         (replace_conversation items false a, changed)
  end.

(** ** Pushing *)

Definition add_since (n : N) : Actor → Actor :=
  with_state (fun s => set_since (estimated_tokens_since_model s + n) s).

Definition persist_and_push_message (item : Item) (a : Actor) : Actor * Item :=
  let '(pending, item) := ingest_normalize (tool_call_ids a) (conv a) item in
  let a := with_ids (fun _ => pending) a in
  let a := with_persistence (persist_message item) a in
  (put_conv (conv a ++ [item]) a, item).

Definition push (item : Item) (a : Actor) : Actor := (persist_and_push_message item a).1.

Definition is_assistant (item : Item) : bool := match item with IAssistant _ => true | _ => false end.

Definition push_message (item : Item) (a : Actor) : Actor :=
  push item (if negb (is_assistant item) then add_since (estimate_item_tokens item) a else a).

Definition push_model_output : Item → Actor → Actor := push.

Definition push_unreported_model_output (item : Item) (a : Actor) : Actor :=
  push item (add_since (estimate_item_tokens item) a).

Definition prune_retained_conversation (a : Actor) : Actor * nat :=
  let config := pruning_config a in
  if negb (enabled config) then (a, 0)
  else if prompt_index (state a) <? hard_clear_age_turns config then (a, 0)
  else
    let threshold := effective_threshold config (prompt_index (state a)) (conv a) in
    let '(a, cleared, _) := rewrite_history RetainedPrune (hard_clear threshold) a in
    (a, cleared).

(** A pushed item that shows a trailing continue reminder to be stranded. *)
Definition strands_reminder (item : Item) : bool :=
  match item with
  | IUser u =>
      starts_prompt_turn (synthetic_reason u)
      || match synthetic_reason u with
         | AutoRecovery | StopHookFeedback | GoalSummary | WorkingDirectorySwitch | Interjection => true
         | _ => false
         end
  | _ => false
  end.

Definition push_user_message_with_repair_reason (item : Item) (reason : DanglingToolCallReason) (a : Actor) : Actor :=
  let a := if strands_reminder item then pop_stranded_continue_reminder a else a in
  let a := ensure_conversation_integrity_with_reason reason a in
  let a := add_since (estimate_item_tokens item) a in
  (prune_retained_conversation (push item a)).1.

Definition push_user_message (item : Item) : Actor → Actor :=
  push_user_message_with_repair_reason item UserCancelled.

(** ** The working-directory switch *)

Fixpoint find_index (generation : N) (items : list Item) : option nat :=
  match items with
  | [] => None
  | item :: rest =>
      if is_switch_of (Some generation) item then Some 0 else S <$> find_index generation rest
  end.

Definition converge_working_directory_switch (generation : N) (authoritative : Item) (a : Actor) : Actor :=
  match find_index generation (conv a) with
  | Some i =>
      match conv a !! i with
      | Some existing =>
          let old_tokens := estimate_item_tokens existing in
          let new_tokens := estimate_item_tokens authoritative in
          let since := estimated_tokens_since_model (state a) in
          let since := if (old_tokens <=? new_tokens)%N then saturating_add since (new_tokens - old_tokens)
                       else saturating_sub since (old_tokens - new_tokens) in
          put_conv (<[i := authoritative]> (conv a)) (with_state (set_since since) a)
      | None => a
      end
  | None =>
      let a := add_since (estimate_item_tokens authoritative) a in
      put_conv (conv a ++ [authoritative]) a
  end.

(** The item a result makes authoritative. *)
Definition authoritative_item (candidate : Item) (result : SwitchResult) : option Item :=
  match result with
  | inl Appended | inr (Committed Appended) => Some candidate
  | inl (AlreadyPresent item) | inr (Committed (AlreadyPresent item)) => Some item
  | inr NotCommitted | inr Indeterminate => None
  end.

Definition append_working_directory_switch (content : bytes) (generation : N) (a : Actor) : Actor * SwitchResult :=
  let candidate := working_directory_switch content generation in
  let a := pop_stranded_continue_reminder a in
  let '(p, received) := persist_working_directory_switch_and_ack candidate (persistence a) in
  let a := with_persistence (fun _ => p) a in
  let result := default (inr Indeterminate) received in
  (match authoritative_item candidate result with
   | Some item => converge_working_directory_switch generation item a
   | None => a
   end, result).

(** ** Usage *)

Definition record_token_usage (total : N) (a : Actor) : Actor :=
  let a := with_state (fun s => set_tokens total 0 (estimate_conversation_tokens (conversation s)) s) a in
  send_event (TokensUpdated total) a.

Definition record_last_turn_usage (usage : TokenUsage) : Actor → Actor :=
  with_state (fun s => set_usage (Some usage) (prompt_usage s) (session_usage s) s).

Definition record_model_call_usage (id : option bytes) (usage : TokenUsage) (duration : option N) (cost : option Z)
    : Actor → Actor :=
  with_state (fun s =>
    let key := match id with
               | Some i => if negb (bool_decide (length i = 0)) then i else model (sampling_config s)
               | None => model (sampling_config s)
               end in
    set_usage (last_turn_usage s)
      (Some (record_main_loop_call (default empty_ledger (prompt_usage s)) key usage duration cost))
      (record_main_loop_call (session_usage s) key usage duration cost) s).

Definition record_subagent_usage (entries : list (bytes * UsageTotals)) (attribute_to_prompt flag : bool) (a : Actor)
    : Actor :=
  if bool_decide (length entries = 0) && negb flag then a
  else with_state (fun s =>
    set_usage (last_turn_usage s)
      (if attribute_to_prompt then Some (record_subagent (default empty_ledger (prompt_usage s)) entries flag)
       else prompt_usage s)
      (record_subagent (session_usage s) entries flag) s) a.

Definition mark_usage_incomplete (prompt session : bool) : Actor → Actor :=
  with_state (fun s =>
    set_usage (last_turn_usage s)
      (if prompt then Some (mark_incomplete (default empty_ledger (prompt_usage s))) else prompt_usage s)
      (if session then mark_incomplete (session_usage s) else session_usage s) s).

Definition clear_prompt_usage (s : ChatState) : ChatState := set_usage (last_turn_usage s) None (session_usage s) s.

Definition increment_prompt_index (a : Actor) : Actor :=
  let a := with_state (fun s => set_prompt (S (prompt_index s)) (prompt_texts s) (clear_prompt_usage s)) a in
  send_event (PromptIndexChanged (prompt_index (state a))) a.

(** ** Snapshots and rewind *)

Record ChatStateSnapshot := mkSnapshot {
  snap_conversation : list Item;
  snap_sampling_config : SamplingConfig;
  snap_prompt_index : nat;
  snap_total_tokens : N;
  snap_estimate_at_last_response : N;
  snap_agent_edited_paths : gset bytes;
  snap_prompt_texts : list bytes;
  snap_stream_start_ms : option Z;
  snap_turn_start_ms : option Z;
  snap_last_compaction_prompt_index : option nat;
  snap_credentials : Credentials;
}.

Definition snapshot (s : ChatState) : ChatStateSnapshot :=
  mkSnapshot (conversation s) (sampling_config s) (prompt_index s) (total_tokens s) (estimate_at_last_response s)
    (agent_edited_paths s) (prompt_texts s) (stream_start_ms s) (turn_start_ms s) (last_compaction_prompt_index s)
    (credentials s).

Definition restore_snapshot (snap : ChatStateSnapshot) (a : Actor) : Actor :=
  let '(reminted, items) := repair_tool_call_ids (snap_conversation snap) in
  let a := if 0 <? reminted then with_persistence (replace_history items) a else a in
  let a := clear_ids a in
  let a := snapshot_turn_slice a in
  let a := put_conv items a in
  let a := rebase_turn_capture_offset a in
  with_state (fun s =>
    let s := set_config (snap_sampling_config snap) s in
    let s := set_prompt (snap_prompt_index snap) (snap_prompt_texts snap) s in
    let s := set_latched (should_prune (snap_total_tokens snap) (context_window (sampling_config s))) s in
    let s := set_tokens (snap_total_tokens snap) 0
               (if (0 <? snap_estimate_at_last_response snap)%N then snap_estimate_at_last_response snap
                else estimate_conversation_tokens (conversation s)) s in
    let s := set_session (snap_stream_start_ms snap) (snap_turn_start_ms snap) (snap_agent_edited_paths snap)
               (snap_last_compaction_prompt_index snap) (snap_credentials snap) s in
    clear_prompt_usage s) a.

(** The position of the [target]-th user item, counting from [count]. *)
Fixpoint truncate_position (count target i : nat) (items : list Item) : option nat :=
  match items with
  | [] => None
  | item :: rest =>
      if is_user item then
        if count =? target then Some i else truncate_position (S count) target (S i) rest
      else truncate_position count target (S i) rest
  end.

Definition truncate_to_prompt_index (target : nat) (a : Actor) : Actor :=
  if prompt_index (state a) <=? target then a
  else
    let truncate_at := default (length (conv a)) (truncate_position 0 target 0 (conv a)) in
    let a := put_conv (take truncate_at (conv a)) a in
    let a := with_state (fun s => set_prompt target (take target (prompt_texts s)) s) a in
    let base_estimate := estimate_conversation_tokens (conv a) in
    let total := reseed_total_tokens (state a) base_estimate in
    let a := with_state (fun s => set_latched (should_prune total (context_window (sampling_config s)))
                                    (set_tokens total 0 base_estimate s)) a in
    let a := persist_all a in
    send_event (ConversationReset (length (conv a))) a.

(** ** Requests: [request_builder.rs] *)

(** The fields a request takes from the actor; the others are constants. *)
Record ConversationRequest := mkRequest {
  req_items : list Item;
  req_tools : list Tool;
  request_model : bytes;
  request_sampling : SamplingRest;
  x_grok_conv_id : bytes;
  x_grok_req_id : bytes;
  req_trace : option Trace;
}.

Definition prune_items_for_turn_request (l : list Item) (a : Actor) : Actor * list Item :=
  let latch := should_prune (total_tokens (state a)) (context_window (sampling_config (state a))) in
  let a := if latch then with_state (set_latched true) a else a in
  (a, if pruning_latched (state a) then prune_conversation l (pruning_config a) else l).

Definition build_conversation_request (tool_definitions : list Tool) (memory_reminder : option bytes)
    (persist_memory_reminder : bool) (trace : option Trace) (conv_id req_id : bytes) (a : Actor)
    : Actor * ConversationRequest :=
  let '(a, memory_reminder) :=
    match memory_reminder with
    | Some reminder =>
        if persist_memory_reminder then
          let a := snapshot_turn_slice a in
          let '(injected, l) := inject_memory_reminder (conv a) reminder in
          let a := put_conv l a in
          let '(a, memory_reminder) := if (injected : bool) then (persist_all a, None) else (a, memory_reminder) in
          (rebase_turn_capture_offset a, memory_reminder)
        else (a, memory_reminder)
    | None => (a, memory_reminder)
    end in
  let '(trigger, target) := image_budget_limits (max_request_bytes (sampling_config (state a))) in
  let '(l, outcome) := apply_image_budget_with_limits (conv a) trigger target in
  let a := if 0 <? inline_images outcome then send_event (ImageBudget trigger target outcome) a else a in
  let '(a, l) := prune_items_for_turn_request l a in
  let l := match memory_reminder with Some reminder => (inject_memory_reminder l reminder).2 | None => l end in
  let l := from_raw l in
  (a, mkRequest l tool_definitions (model (sampling_config (state a))) (sampling_rest (sampling_config (state a)))
        conv_id req_id trace).

(** ** Queries that read more than the history *)

Record AutoCompactTrigger := mkTrigger { trigger_total : N; trigger_window : N; utilization_percent : N }.

Definition check_auto_compact_needed (threshold_percent : N) (s : ChatState) : option AutoCompactTrigger :=
  let cw := context_window (sampling_config s) in
  if exceeds_threshold (total_tokens s) cw threshold_percent
  then Some (mkTrigger (total_tokens s) cw (usage_percentage_truncated_u8 (total_tokens s) cw))
  else None.

(** The default is two absent fields. *)
Definition get_last_model_metadata (l : list Item) : option bytes * option bytes :=
  default (None, None)
    (find_map_last (fun item =>
       match item with
       | IAssistant a => Some (model_id (assistant_meta a), model_fingerprint (assistant_meta a))
       | _ => None
       end) l).

Record TurnCapture := mkTurnCapture { messages : list Item; compaction_occurred : bool }.

(** The arm of [TakeTurnMessages]. *)
Definition take_turn_messages (a : Actor) : Actor * option TurnCapture :=
  (with_state (set_capture None) a,
   (fun cap => mkTurnCapture (pre_replacement_messages cap ++ turn_tail (conv a) (turn_start_offset cap))
                 (capture_compaction cap)) <$> turn_capture (state a)).

Definition begin_turn_capture : Actor → Actor :=
  with_state (fun s => set_capture (Some (mkCapture (length (conversation s)) [] false)) s).

End ChatState.
