(* ===== verification/ChatCommands.v ===== *)
(** * Commands of the chat-state actor

    [xai-chat-state/src/commands.rs] and the dispatch of [actor/mod.rs]: every
    command a handle can send, the reply it is sent back, and the run of the actor's
    loop over the commands it receives.  The reply channels are the second component
    of the result; a command without one gets [RNone]. *)

From S2P Require Import Prelude RustStr ToolCallIds History Tokens StrFind Tags Compaction.
From S2P Require Import Persistence Usage ImageBudget Tokens RequestBuilder ChatState.

#[local] Open Scope nat_scope.

Section ChatCommands.
Context `{Payloads} `{!JsonSizes} `{!Opaque} {P : Type} `{!ChatPersistence P}.

Abbreviation Actor := (@Actor _ _ P).

Inductive ChatStateCommand :=
| PushUserMessage (item : Item)
| PushUserMessagesBatch (items : list Item)
| PushUserMessagesBatchAndAck (items : list Item)
| PushUserMessageAndAck (item : Item)
| AppendWorkingDirectorySwitchAndAck (content : bytes) (cwd_generation : N)
| PushUserMessageWithRepairReason (item : Item) (reason : DanglingToolCallReason)
| PushAssistantResponse (item : Item)
| PushModelOutputAndAck (item : Item) (usage_reported : bool)
| PushToolResult (item : Item)
| PushModelOutput (item : Item)
| PushUnreportedModelOutput (item : Item)
| RecordTokenUsage (total_tokens : N)
| RecordLastTurnUsage (usage : TokenUsage)
| RecordModelCallUsage (model_id : option bytes) (usage : TokenUsage) (api_duration_ms : option N)
    (cost_usd_ticks : option Z)
| RecordSubagentUsage (by_model : list (bytes * UsageTotals)) (attribute_to_prompt incomplete : bool)
| MarkUsageIncomplete (prompt session : bool)
| IncrementPromptIndex
| UpdateSamplingConfig (config : SamplingConfig)
| RecordAgentEditedPath (path : bytes)
| RecordStreamStart (timestamp_ms : Z)
| RecordTurnStart (timestamp_ms : Z)
| ReplaceConversation (items : list Item) (is_compaction : bool)
| RepairHistory (dry_run : bool) (turn_active : option bool)
| StripConversationImages (urls : list bytes)
| ReplaceSystemHead (prompt : bytes)
| CachePromptText (text : bytes)
| RecordCompactionAt (prompt_index : nat)
| Flush
| UpdateCredentials (credentials : Credentials)
| RestoreSnapshot (snapshot : ChatStateSnapshot)
| BeginTurnCapture
| AppendHarnessTraceItems (items : list Item)
| FlushHarnessTraceTurn
| RepairDanglingAfterHarnessHalt (class : bytes) (answers : gmap bytes bytes)
| PopStrandedContinueReminder
| BuildConversationRequest (tool_definitions : list Tool) (memory_reminder : option bytes)
    (persist_memory_reminder : bool) (trace : option Trace) (conv_id req_id : bytes)
| GetConversation | GetPromptIndex | GetLastCompactionPromptIndex | GetTotalTokens | GetLastTurnUsage
| GetPromptUsage | GetSessionUsage | GetEstimatedTotalTokens | GetEstimatedMessagesTokens | GetSamplingConfig
| ApplyTurnRequestPruning (items : list Item)
| GetAgentEditedPaths | GetNotificationMeta | Snapshot
| TruncateToPromptIndex (target_prompt_index : nat)
| CheckAutoCompactNeeded (threshold_percent : N)
| GetCredentials | GetLastModelMetadata | TakeTurnMessages | TakeHarnessTraceTurns
| GetConversationLen | HasDanglingToolCalls | GetLastAssistantText | GetTrailingAssistantReport
| GetLastAssistantTextInTurn | GetAssistantTextInTurn | GetFirstUserText
| GetConversationItemAt (index : nat)
| GetLastUserQueryText | GetConversationCounts | GetSystemMessage.

Inductive StripOutcome := Applied (stripped : nat) | NoMatch | WriteFailed (stripped : nat).

Inductive Reply :=
| RNone | RAck
| RItem (item : Item) | ROptItem (item : option Item) | RItems (items : list Item)
| RSwitch (result : SwitchResult)
| RReport (report : HistoryRepairReport) | RRepairBlocked
| RStrip (outcome : StripOutcome)
| RBool (b : bool) | RNat (n : nat) | ROptNat (n : option nat) | RTokens (n : N)
| RRequest (request : ConversationRequest)
| RUsage (usage : option TokenUsage) | RLedger (ledger : option UsageLedger)
| RConfig (config : SamplingConfig) | RPaths (paths : gset bytes) | RTimes (stream turn : option Z)
| RSnapshot (snapshot : ChatStateSnapshot) | RTrigger (trigger : option AutoCompactTrigger)
| RCredentials (credentials : Credentials) | RMetadata (metadata : option bytes * option bytes)
| RCapture (capture : option TurnCapture) | RTurns (turns : list (list Item))
| RText (text : option bytes) | RCounts (counts : ConversationCounts).

(** The outcome of a strip, from the acknowledgement awaited off the actor. *)
Definition strip_outcome (result : option (nat * option bool)) : StripOutcome :=
  match result with
  | None => NoMatch
  | Some (stripped, Some true) => Applied stripped
  | Some (stripped, _) => WriteFailed stripped
  end.

Definition push_batch (items : list Item) (a : Actor) : Actor := foldl (fun a item => push_user_message item a) a items.

Definition update_sampling_config (config : SamplingConfig) : Actor → Actor :=
  with_state (fun s => set_config config (set_latched (should_prune (total_tokens s) (context_window config)) s)).

(** The five fields of [set_session] one by one. *)
Definition update_session (stream turn : option Z → option Z) (paths : gset bytes → gset bytes)
    (compacted : option nat → option nat) (c : Credentials → Credentials) : Actor → Actor :=
  with_state (fun s => set_session (stream (stream_start_ms s)) (turn (turn_start_ms s)) (paths (agent_edited_paths s))
                         (compacted (last_compaction_prompt_index s)) (c (credentials s)) s).

Definition handle_command (cmd : ChatStateCommand) (a : Actor) : Actor * Reply :=
  let s := state a in
  match cmd with
  | PushUserMessage item => (push_user_message item a, RNone)
  | PushUserMessagesBatch items => (push_batch items a, RNone)
  | PushUserMessagesBatchAndAck items => (push_batch items a, RAck)
  | PushUserMessageAndAck item => (push_user_message item a, RAck)
  | AppendWorkingDirectorySwitchAndAck content generation =>
      let '(a, result) := append_working_directory_switch content generation a in (a, RSwitch result)
  | PushUserMessageWithRepairReason item reason => (push_user_message_with_repair_reason item reason a, RNone)
  | PushAssistantResponse item => (push_message item a, RNone)
  | PushModelOutputAndAck item usage_reported =>
      let a := if negb usage_reported then add_since (estimate_item_tokens item) a else a in
      let '(a, committed) := persist_and_push_message item a in
      (clear_ids a, RItem committed)
  | PushToolResult item => (push_message item a, RNone)
  | PushModelOutput item => (push_model_output item a, RNone)
  | PushUnreportedModelOutput item => (push_unreported_model_output item a, RNone)
  | RecordTokenUsage total => (record_token_usage total a, RNone)
  | RecordLastTurnUsage usage => (record_last_turn_usage usage a, RNone)
  | RecordModelCallUsage id usage duration cost => (record_model_call_usage id usage duration cost a, RNone)
  | RecordSubagentUsage entries attribute flag => (record_subagent_usage entries attribute flag a, RAck)
  | MarkUsageIncomplete prompt session => (mark_usage_incomplete prompt session a, RAck)
  | IncrementPromptIndex => (increment_prompt_index a, RNone)
  | UpdateSamplingConfig config => (update_sampling_config config a, RNone)
  | RecordAgentEditedPath path => (update_session id id (fun paths => {[ path ]} ∪ paths) id id a, RNone)
  | RecordStreamStart ms => (update_session (fun _ => Some ms) id id id id a, RNone)
  | RecordTurnStart ms => (update_session id (fun _ => Some ms) id id id a, RNone)
  | ReplaceConversation items is_compaction => (replace_conversation items is_compaction a, RNone)
  | RepairHistory dry_run turn_active =>
      if default false turn_active then (a, RRepairBlocked)
      else let '(a, report) := repair_history_command dry_run a in (a, RReport report)
  | StripConversationImages urls =>
      let '(a, result) := strip_conversation_images urls a in (a, RStrip (strip_outcome result))
  | ReplaceSystemHead prompt => let '(a, changed) := replace_system_head prompt a in (a, RBool changed)
  | CachePromptText text => (with_state (fun s => set_prompt (prompt_index s) (prompt_texts s ++ [text]) s) a, RNone)
  | RecordCompactionAt index => (update_session id id id (fun _ => Some index) id a, RNone)
  | Flush => (with_persistence flush a, RNone)
  | UpdateCredentials c => (update_session id id id id (fun _ => c) a, RNone)
  | RestoreSnapshot snap => (restore_snapshot snap a, RNone)
  | BeginTurnCapture => (begin_turn_capture a, RNone)
  | AppendHarnessTraceItems items =>
      (with_state (fun s => set_harness (harness_trace_buffer s ++ items) (harness_trace_turns s) s) a, RNone)
  | FlushHarnessTraceTurn => (with_state seal_harness_trace_turn a, RNone)
  | RepairDanglingAfterHarnessHalt class answers => (repair_dangling_after_harness_halt class answers a, RNone)
  | PopStrandedContinueReminder => (pop_stranded_continue_reminder a, RNone)
  | BuildConversationRequest tools reminder persist trace conv_id req_id =>
      let a := ensure_conversation_integrity a in
      let '(a, request) := build_conversation_request tools reminder persist trace conv_id req_id a in
      (a, RRequest request)
  | GetConversation => (a, RItems (conversation s))
  | GetPromptIndex => (a, RNat (prompt_index s))
  | GetLastCompactionPromptIndex => (a, ROptNat (last_compaction_prompt_index s))
  | GetTotalTokens => (a, RTokens (total_tokens s))
  | GetLastTurnUsage => (a, RUsage (last_turn_usage s))
  | GetPromptUsage => (a, RLedger (prompt_usage s))
  | GetSessionUsage => (a, RLedger (Some (session_usage s)))
  | GetEstimatedTotalTokens => (a, RTokens (total_tokens s + estimated_tokens_since_model s))
  | GetEstimatedMessagesTokens => (a, RTokens (estimate_messages_tokens (conversation s)))
  | GetSamplingConfig => (a, RConfig (sampling_config s))
  | ApplyTurnRequestPruning items => let '(a, items) := prune_items_for_turn_request items a in (a, RItems items)
  | GetAgentEditedPaths => (a, RPaths (agent_edited_paths s))
  | GetNotificationMeta => (a, RTimes (stream_start_ms s) (turn_start_ms s))
  | Snapshot => (a, RSnapshot (snapshot s))
  | TruncateToPromptIndex target =>
      let a := truncate_to_prompt_index target a in
      let a := clear_ids a in
      (with_state (fun s => clear_prompt_usage (set_capture None s)) a, RAck)
  | CheckAutoCompactNeeded threshold => (a, RTrigger (check_auto_compact_needed threshold s))
  | GetCredentials => (a, RCredentials (credentials s))
  | GetLastModelMetadata => (a, RMetadata (get_last_model_metadata (conversation s)))
  | TakeTurnMessages => let '(a, capture) := take_turn_messages a in (a, RCapture capture)
  | TakeHarnessTraceTurns =>
      let a := with_state seal_harness_trace_turn a in
      let turns := harness_trace_turns (state a) in
      (with_state (fun s => set_harness (harness_trace_buffer s) [] s) a, RTurns turns)
  | GetConversationLen => (a, RNat (length (conversation s)))
  | HasDanglingToolCalls => (a, RBool (has_dangling_tool_calls (conversation s)))
  | GetLastAssistantText => (a, RText (get_last_assistant_text (conversation s)))
  | GetTrailingAssistantReport => (a, RText (get_trailing_assistant_report (conversation s)))
  | GetLastAssistantTextInTurn => (a, RText (get_last_assistant_text_in_turn (conversation s)))
  | GetAssistantTextInTurn => (a, RText (get_assistant_text_in_turn (conversation s)))
  | GetFirstUserText => (a, RText (get_first_user_text (conversation s)))
  | GetConversationItemAt index => (a, ROptItem (conversation s !! index))
  | GetLastUserQueryText => (a, RText (extract_last_user_query (conversation s)))
  | GetConversationCounts => (a, RCounts (get_conversation_counts (conversation s)))
  | GetSystemMessage => (a, ROptItem (get_system_message (conversation s)))
  end.

(** [spawn_with_pruning], up to the task it starts. *)
Definition spawn (initial : list Item) (config : SamplingConfig) (pruning : PruningConfig) (p : P) : Actor :=
  let '(reminted, initial) := repair_tool_call_ids initial in
  let p := if 0 <? reminted then replace_history initial p else p in
  mkActor (new_state initial config) ∅ pruning p [].

(** [run]: the commands received before cancellation, in order. *)
Definition run (cmds : list ChatStateCommand) (a : Actor) : Actor := foldl (fun a cmd => (handle_command cmd a).1) a cmds.

End ChatCommands.
