(* ===== verification/ChatStateLaws.v ===== *)
(** * Laws of the chat-state actor

    What holds of the actor after any sequence of commands: call identifiers are
    distinct, the turn capture points into the history, memory and disk agree; a
    captured turn is exactly what was pushed during it; a user message lands on a
    history whose calls are all answered; and old results are not cleared early. *)

From S2P Require Import Prelude RustStr ToolCallIds History HistoryLaws Tokens StrFind Tags.
From S2P Require Import Compaction CompactionLaws IntegrityLaws Persistence Usage ImageBudget Tokens.
From S2P Require Import RequestBuilder ChatState ChatCommands.

#[local] Open Scope nat_scope.

Section ChatStateLaws.
Context `{Payloads} `{!JsonSizes} `{!Opaque} {P : Type} `{!ChatPersistence P} `{!PersistedHistory P}.

Abbreviation Actor := (@Actor _ _ P).
Implicit Types (a : Actor) (item : Item) (items : list Item).

(** ** Views *)

Definition cap a : option TurnCaptureState := turn_capture (state a).
Definition disk a : list Item := stored (persistence a).

(** What taking the capture now would return. *)
Definition captured a : option (list Item) :=
  (fun c => pre_replacement_messages c ++ turn_tail (conv a) (turn_start_offset c)) <$> cap a.

(** The capture after a snapshot of the tail and a rebase to [n] items. *)
Definition recaptured (n : nat) a : option TurnCaptureState :=
  (fun c => mkCapture n (pre_replacement_messages c ++ turn_tail (conv a) (turn_start_offset c)) (capture_compaction c))
  <$> cap a.

Definition capture_ok a : Prop := ∀ c, cap a = Some c → turn_start_offset c ≤ length (conv a).

Lemma snapshot_view a :
  conv (snapshot_turn_slice a) = conv a ∧ disk (snapshot_turn_slice a) = disk a
  ∧ cap (snapshot_turn_slice a)
    = (fun c => mkCapture (turn_start_offset c)
                  (pre_replacement_messages c ++ turn_tail (conv a) (turn_start_offset c)) (capture_compaction c)) <$> cap a.
Proof. unfold snapshot_turn_slice, conv, cap, disk. simpl. by destruct (turn_capture (state a)) eqn:E; simpl; rewrite ?E. Qed.

Lemma rebase_view a :
  conv (rebase_turn_capture_offset a) = conv a ∧ disk (rebase_turn_capture_offset a) = disk a
  ∧ cap (rebase_turn_capture_offset a)
    = (fun c => mkCapture (length (conv a)) (pre_replacement_messages c) (capture_compaction c)) <$> cap a.
Proof. unfold rebase_turn_capture_offset, conv, cap, disk. simpl. by destruct (turn_capture (state a)) eqn:E; simpl; rewrite ?E. Qed.

Lemma mark_view a :
  conv (mark_compaction a) = conv a ∧ disk (mark_compaction a) = disk a
  ∧ cap (mark_compaction a)
    = (fun c => mkCapture (turn_start_offset c) (pre_replacement_messages c) true) <$> cap a.
Proof. unfold mark_compaction, conv, cap, disk. simpl. by destruct (turn_capture (state a)) eqn:E; simpl; rewrite ?E. Qed.

(** A rewrite in place: the history, the capture, and the disk when something
    changed. *)
Lemma rewrite_view kind f a a' n ack :
  rewrite_history kind f a = (a', n, ack) →
  n = (f (conv a)).1 ∧ conv a' = (f (conv a)).2
  ∧ cap a' = (match kind with IntegrityRepair => recaptured (length (conv a')) a | _ => cap a end)
  ∧ (n = 0 → disk a' = disk a) ∧ (0 < n → (kind = ImageStrip → ack = Some (Some true)) → disk a' = conv a').
Proof.
  unfold rewrite_history.
  set (a0 := if match kind with IntegrityRepair => true | _ => false end then snapshot_turn_slice a else a).
  assert (conv a0 = conv a ∧ disk a0 = disk a) as [Hc0 Hd0]
    by (unfold a0; destruct kind; [destruct (snapshot_view a) as (? & ? & _)|..]; done).
  rewrite Hc0. destruct (f (conv a)) as [m l]. simpl.
  set (a1 := put_conv l a0).
  assert (conv a1 = l ∧ disk a1 = disk a ∧ cap a1 = cap a0) as (Hc1 & Hd1 & Hk1) by done.
  assert (∀ b b', conv b = l → cap b = cap a0 →
    b' = (if match kind with IntegrityRepair => true | _ => false end then rebase_turn_capture_offset b else b) →
    conv b' = l ∧ disk b' = disk b
    ∧ cap b' = match kind with IntegrityRepair => recaptured (length l) a | _ => cap a end) as Hlast.
  { intros b b' Hb Hk ->. destruct kind; [|done..]. destruct (rebase_view b) as (-> & -> & ->).
    split_and!; [done|done|]. rewrite Hk, Hb. unfold a0. destruct (snapshot_view a) as (_ & _ & ->).
    unfold recaptured. by destruct (cap a). }
  destruct (Nat.ltb_spec 0 m) as [Hm|Hm].
  - assert (kind = ImageStrip ∨ kind ≠ ImageStrip) as [->|Hk] by (destruct kind; auto).
    + pose proof (stored_strip (conv a1) (persistence a0)) as Hs.
      destruct (replace_history_for_strip_and_ack (conv a1) (persistence a0)) as [p ok]. intros [= <- <- <-].
      split_and!; [done|done|done|lia|]. intros _ Hok. unfold disk. simpl. apply Hs. specialize (Hok eq_refl). by simplify_eq.
    + intros E. destruct (Hlast (persist_all a1) a' Hc1 Hk1) as (Hc & Hd & Hkc); [destruct kind; try done; by injection E|].
      assert (n = m) as -> by (destruct kind; try done; by injection E).
      split_and!; [done|done|by rewrite Hc|lia|]. intros _ _. rewrite Hd, Hc. unfold disk. simpl. by rewrite stored_replace.
  - intros [= <- <- <-]. destruct (Hlast a1 _ Hc1 Hk1 eq_refl) as (Hc & Hd & Hkc).
    split_and!; [done|done|by rewrite Hc|by intros _; rewrite Hd|lia].
Qed.

(** ** A pass that counts nothing changes nothing *)

Definition honest (f : list Item → nat * list Item) : Prop := ∀ items, (f items).1 = 0 → (f items).2 = items.

Lemma integrity_honest (reason : DanglingToolCallReason) (answers : gmap bytes bytes) :
  honest (integrity_pass reason answers).
Proof.
  intros items. unfold integrity_pass. destruct (repair_tool_call_ids items) as [n items1] eqn:E1.
  destruct (dedup_duplicate_tool_results items1) as [m items2] eqn:E2.
  pose proof (dangling_zero (answer_or_synthesize reason) answers items2) as Hz.
  destruct (repair_dangling_tool_calls_with _ _ _) as [[s k] items3]. simpl in *. intros Hs.
  rewrite Hz by lia. assert (m = 0 ∧ n = 0) as [-> ->] by lia. apply dedup_zero in E2 as ->.
  by apply repair_ids_unchanged in E1.
Qed.

Lemma pop_reminders_spec (l : list Item) :
  ∃ popped, l = popped ++ (pop_reminders l).2 ∧ length popped = (pop_reminders l).1
    ∧ Forall (fun i => is_user i = true) popped.
Proof.
  induction l as [|item l (popped & El & Hn & Hf)]; [by exists []|]. simpl.
  destruct (is_length_continue item) eqn:E; [|by exists []].
  destruct (pop_reminders l) as [n r]. simpl in *. exists (item :: popped). split_and!; [by rewrite El at 1|simpl; lia|].
  constructor; [|done]. by destruct item.
Qed.

Definition pop_pass (items : list Item) : nat * list Item :=
  let '(n, r) := pop_reminders (reverse items) in (n, reverse r).

Lemma pop_pass_spec items :
  ∃ popped, items = (pop_pass items).2 ++ popped ∧ length popped = (pop_pass items).1
    ∧ Forall (fun i => is_user i = true) popped.
Proof.
  unfold pop_pass. destruct (pop_reminders_spec (reverse items)) as (popped & E & Hn & Hf).
  destruct (pop_reminders (reverse items)) as [n r]. simpl in *. exists (reverse popped). split_and!.
  - apply (f_equal reverse) in E. by rewrite reverse_involutive, reverse_app in E.
  - by rewrite length_reverse.
  - by apply Forall_reverse.
Qed.

Lemma pop_honest : honest pop_pass.
Proof.
  intros items Hz. destruct (pop_pass_spec items) as (popped & E & Hn & _). rewrite Hz in Hn.
  apply length_zero_iff_nil in Hn as ->. by rewrite app_nil_r in E.
Qed.

(** Items whose results differ in content only. *)
Definition same_but_content item item' : Prop :=
  item' = item ∨ ∃ r content, item = IToolResult r ∧ item' = IToolResult (with_result_content r content).

Lemma age_walk_content {A} (f : nat → ToolResult → A * ToolResult) (n : nat) (seen : bool) items :
  (∀ age r, (f age r).2 = r ∨ ∃ content, (f age r).2 = with_result_content r content) →
  Forall2 same_but_content items (age_walk f n seen items).2.
Proof.
  intros Hf. revert n seen. induction items as [|item items IH]; intros n seen; [constructor|].
  destruct item as [|u| |r| |]; simpl;
    try (specialize (IH n seen); destruct (age_walk f n seen items); constructor; [by left|done]).
  - specialize (IH (if seen then n + 1 else n) true). destruct (age_walk f _ true items). constructor; [by left|done].
  - specialize (IH n seen). specialize (Hf n r). destruct (f n r) as [x r']. simpl in Hf.
    destruct (age_walk f n seen items). constructor; [|done].
    destruct Hf as [->|[content ->]]; [by left|right; eauto].
Qed.

Lemma clear_result_content (threshold age : nat) (r : ToolResult) :
  (clear_result threshold age r).2 = r ∨ ∃ content, (clear_result threshold age r).2 = with_result_content r content.
Proof. unfold clear_result. destruct (_ <? _); [by left|]. destruct (negb _); [right; by eexists|by left]. Qed.

Lemma hard_clear_content (threshold : nat) items : Forall2 same_but_content items (hard_clear threshold items).2.
Proof.
  unfold hard_clear.
  pose proof (age_walk_content (clear_result threshold) 0 false (reverse items) (clear_result_content threshold)) as Hw.
  destruct (age_walk _ _ _ _) as [cleared l]. simpl in *. apply Forall2_reverse in Hw. by rewrite reverse_involutive in Hw.
Qed.

Lemma hard_clear_honest (threshold : nat) : honest (hard_clear threshold).
Proof.
  intros items. unfold hard_clear.
  assert (∀ l n seen, length (List.filter id (age_walk (clear_result threshold) n seen l).1) = 0 →
    (age_walk (clear_result threshold) n seen l).2 = l) as Hw.
  { induction l as [|item l IH]; intros n seen; [done|]. destruct item as [|u| |r| |]; simpl;
      try (specialize (IH n seen); destruct (age_walk _ n seen l); simpl in *; intros; f_equal; by apply IH).
    - specialize (IH (if seen then n + 1 else n) true). destruct (age_walk _ _ true l). simpl in *. intros; f_equal; by apply IH.
    - specialize (IH n seen). destruct (clear_result threshold n r) as [x r'] eqn:E.
      destruct (age_walk _ n seen l) as [out l']. simpl in *. destruct x; [done|]. intros; rewrite IH by done.
      unfold clear_result in E. destruct (_ <? _); [by injection E as <-|]. destruct (negb _); [done|by injection E as <-]. }
  specialize (Hw (reverse items) 0 false). destruct (age_walk _ _ _ _) as [out l]. simpl in *. intros Hz.
  rewrite Hw by done. apply reverse_involutive.
Qed.

Lemma strip_honest (urls : list bytes) : honest (fun items => strip_images_by_url items urls).
Proof.
  intros items. unfold strip_images_by_url. simpl. induction items as [|item items IH]; [done|]. simpl. intros Hz.
  rewrite IH by lia. f_equal. clear IH.
  assert (∀ ps, length (List.filter (rejected urls) ps) = 0 → Forall (fun p => rejected urls p = false) ps) as Hp.
  { induction ps as [|p ps IHp]; [constructor|]. simpl. destruct (rejected urls p) eqn:E; [done|]. constructor; auto. }
  destruct item as [|u| |r| |]; try done; simpl in *.
  - assert (length (List.filter (rejected urls) (user_content u)) = 0) as Hu%Hp by lia.
    do 2 f_equal. destruct u as [ps ? ? ? ?]. unfold with_user_content. simpl in *. f_equal.
    clear Hz. induction Hu as [|p ps E _ IHu]; [done|]. simpl. by rewrite E, IHu.
  - assert (length (List.filter (rejected urls) (result_images r)) = 0) as Hu%Hp by lia.
    do 2 f_equal. destruct r as [i c ps]. unfold with_images. simpl in *. f_equal.
    clear Hz. induction Hu as [|p ps E _ IHu]; [done|]. simpl. by rewrite E, IHu.
Qed.

(** ** Call identifiers of rewritten histories *)

Definition keeps_ids (f : list Item → nat * list Item) : Prop :=
  ∀ items, NoDup (call_id_list items) → NoDup (call_id_list (f items).2).

Lemma content_call_ids items items' : Forall2 same_but_content items items' → call_id_list items' = call_id_list items.
Proof.
  unfold call_id_list. induction 1 as [|i i' l l' Hi _ IH]; [done|]. simpl. rewrite IH.
  by destruct Hi as [->|(r & content & -> & ->)].
Qed.

Lemma integrity_ids (reason : DanglingToolCallReason) (answers : gmap bytes bytes) items :
  NoDup (call_id_list (integrity_pass reason answers items).2).
Proof.
  unfold integrity_pass. pose proof (repair_facts items) as Hf. destruct (repair_tool_call_ids items) as [n items1].
  destruct Hf as [Hnd _ _ _ _]. simpl in *. pose proof (dedup_others items1) as Hd.
  destruct (dedup_duplicate_tool_results items1) as [m items2]. simpl in *.
  pose proof (dangling_others (answer_or_synthesize reason) answers items2) as Hg.
  destruct (repair_dangling_tool_calls_with _ _ _) as [[s k] items3]. simpl in *.
  by rewrite call_ids_without_results, Hg, Hd, <-call_ids_without_results.
Qed.

Lemma prefix_ids (l k : list Item) : NoDup (call_id_list (l ++ k)) → NoDup (call_id_list l).
Proof. rewrite call_id_list_app. by intros [? _]%NoDup_app. Qed.

Lemma pop_ids : keeps_ids pop_pass.
Proof. intros items Hnd. destruct (pop_pass_spec items) as (popped & E & _). rewrite E in Hnd. by eapply prefix_ids. Qed.

Lemma hard_clear_ids (threshold : nat) : keeps_ids (hard_clear threshold).
Proof. intros items Hnd. by rewrite (content_call_ids items _ (hard_clear_content threshold items)). Qed.

Lemma strip_ids (urls : list bytes) : keeps_ids (fun items => strip_images_by_url items urls).
Proof.
  intros items Hnd. unfold strip_images_by_url. simpl.
  assert (call_id_list (map (fun i => (strip_item urls i).2) items) = call_id_list items) as ->; [|done].
  unfold call_id_list. clear Hnd. induction items as [|i items IH]; [done|]. simpl. rewrite IH. by destruct i.
Qed.

Lemma inject_ids items (reminder : bytes) : call_id_list (inject_memory_reminder items reminder).2 = call_id_list items.
Proof.
  unfold inject_memory_reminder. destruct (trim reminder =b []); [done|].
  destruct items as [|[sys| | | | |] rest]; try done. by destruct (_ =b _).
Qed.

(** ** The effect of a handler *)

Lemma turn_tail_all items : turn_tail items (length items) = [].
Proof. unfold turn_tail. rewrite (proj2 (Nat.leb_le _ _)) by done. by rewrite drop_all. Qed.

Lemma replace_view items (c : bool) a :
  let a' := replace_conversation items c a in
  NoDup (call_id_list (conv a')) ∧ disk a' = conv a'
  ∧ cap a' = (fun k => mkCapture (length (conv a'))
                (pre_replacement_messages k ++ turn_tail (conv a) (turn_start_offset k)) (capture_compaction k || c)) <$> cap a.
Proof.
  simpl. unfold replace_conversation. pose proof (repair_facts items) as Hf.
  destruct (repair_tool_call_ids items) as [n items']. destruct Hf as [Hnd _ _ _ _]. simpl in Hnd.
  set (a0 := if c then mark_compaction (snapshot_turn_slice a) else snapshot_turn_slice a).
  assert (cap a0 = (fun k => mkCapture (turn_start_offset k)
      (pre_replacement_messages k ++ turn_tail (conv a) (turn_start_offset k)) (capture_compaction k || c)) <$> cap a) as Hk0.
  { unfold a0. destruct (snapshot_view a) as (_ & _ & E). destruct c; [|rewrite E; destruct (cap a); [|done]; simpl; by rewrite orb_false_r].
    destruct (mark_view (snapshot_turn_slice a)) as (_ & _ & ->). rewrite E. destruct (cap a); [|done]. simpl.
    by rewrite orb_true_r. }
  match goal with |- NoDup (call_id_list (conv ?b)) ∧ _ => set (a' := b) end.
  assert (conv a' = items' ∧ disk a' = items' ∧ cap a' = (fun k => mkCapture (length items') (pre_replacement_messages k)
      (capture_compaction k)) <$> cap a0) as (Hc & Hd & Hk).
  { unfold a'. match goal with |- context [rebase_turn_capture_offset ?x] => set (b := x) end.
    assert (conv b = items' ∧ disk b = items' ∧ cap b = cap a0) as (Hc & Hd & Hk)
      by (split_and!; [done|apply stored_replace|done]).
    destruct (rebase_view b) as (Hc' & Hd' & Hk'). rewrite Hc, Hk in *. rewrite Hd in Hd'. by split_and!. }
  clearbody a'. rewrite Hc, Hd, Hk, Hk0. split_and!; [done|done|]. by destruct (cap a).
Qed.

Section Effect.
(** When the disk can be expected to follow. *)
Context (acknowledged : Prop).

(** A handler keeps identifiers distinct and the capture in range, extends what is
    captured by [added], and leaves the disk in step with memory. *)
Record effect a a' (added : list Item) (compacts : bool) : Prop := {
  eff_ids : NoDup (call_id_list (conv a)) → NoDup (call_id_list (conv a'));
  eff_ok : capture_ok a → capture_ok a';
  eff_captured : capture_ok a → captured a' = (fun ms => ms ++ added) <$> captured a;
  eff_compacts : capture_compaction <$> cap a' = (fun c => capture_compaction c || compacts) <$> cap a;
  eff_disk : acknowledged → disk a = conv a → disk a' = conv a';
}.

Lemma effect_frame a a' : conv a' = conv a → cap a' = cap a → disk a' = disk a → effect a a' [] false.
Proof.
  intros Hc Hk Hd. split; rewrite ?Hc, ?Hd; try done.
  - unfold capture_ok. by rewrite Hc, Hk.
  - intros _. unfold captured. rewrite Hc, Hk. destruct (cap a); [|done]. simpl. by rewrite app_nil_r.
  - rewrite Hk. destruct (cap a); [|done]. simpl. by rewrite orb_false_r.
Qed.

Lemma effect_refl a : effect a a [] false.
Proof. by apply effect_frame. Qed.

Lemma effect_trans a b c k1 k2 m1 m2 : effect a b k1 m1 → effect b c k2 m2 → effect a c (k1 ++ k2) (m1 || m2).
Proof.
  intros [I1 O1 C1 M1 D1] [I2 O2 C2 M2 D2]. split; auto.
  - intros Hok. rewrite C2, C1 by auto. destruct (captured a); [|done]. simpl. by rewrite app_assoc.
  - rewrite M2. destruct (cap b) as [cb|], (cap a) as [ca|]; try done. simpl in *. injection M1 as ->.
    by rewrite orb_assoc.
Qed.

(** After a snapshot and a rebase to the whole history. *)
Lemma recaptured_effect a a' :
  (NoDup (call_id_list (conv a)) → NoDup (call_id_list (conv a'))) → cap a' = recaptured (length (conv a')) a →
  (acknowledged → disk a = conv a → disk a' = conv a') → effect a a' [] false.
Proof.
  intros Hi Hk Hd. split; [done|..|done].
  - intros _ c. rewrite Hk. unfold recaptured. destruct (cap a); [|done]. by intros [= <-].
  - intros _. unfold captured. rewrite Hk. unfold recaptured. destruct (cap a); [|done]. simpl.
    by rewrite turn_tail_all, app_nil_r.
  - rewrite Hk. unfold recaptured. destruct (cap a); [|done]. simpl. by rewrite orb_false_r.
Qed.

Lemma rewrite_effect f a a' n ack :
  honest f → keeps_ids f → rewrite_history IntegrityRepair f a = (a', n, ack) → effect a a' [] false.
Proof.
  intros Hf Hi (Hn & Hc & Hk & Hz & Hp)%rewrite_view. apply recaptured_effect; [|done|].
  - rewrite Hc. apply Hi.
  - intros _ Hd. destruct (Nat.eq_0_gt_0_cases n) as [E|]; [|by apply Hp].
    rewrite Hz, Hd, Hc by done. rewrite Hn in E. by rewrite Hf.
Qed.

Lemma ensure_effect (reason : DanglingToolCallReason) (answers : gmap bytes bytes) a :
  effect a (ensure_conversation_integrity_answering reason answers a) [] false
  ∧ conv (ensure_conversation_integrity_answering reason answers a) = (integrity_pass reason answers (conv a)).2
  ∧ cap (ensure_conversation_integrity_answering reason answers a)
    = recaptured (length (conv (ensure_conversation_integrity_answering reason answers a))) a
  ∧ ChatState.tool_call_ids (ensure_conversation_integrity_answering reason answers a) = ∅.
Proof.
  unfold ensure_conversation_integrity_answering.
  destruct (rewrite_history IntegrityRepair _ a) as [[a' n] ack] eqn:E.
  pose proof (rewrite_effect _ _ _ _ _ (integrity_honest reason answers) (fun l _ => integrity_ids reason answers l) E) as He.
  apply rewrite_view in E as (_ & Hc & Hk & _). split_and!; [|done|done|done].
  rewrite <-(app_nil_r []). change false with (false || false). eapply effect_trans; [done|by apply effect_frame].
Qed.

Lemma pop_effect a : effect a (pop_stranded_continue_reminder a) [] false.
Proof.
  unfold pop_stranded_continue_reminder. destruct (negb _); [apply effect_refl|].
  destruct (rewrite_history IntegrityRepair _ a) as [[a' n] ack] eqn:E. by eapply rewrite_effect; [apply pop_honest|apply pop_ids|].
Qed.

Lemma turn_tail_app (l k : list Item) (n : nat) : n ≤ length l → turn_tail (l ++ k) n = turn_tail l n ++ k.
Proof.
  intros Hn. unfold turn_tail. rewrite length_app, !(proj2 (Nat.leb_le _ _)) by lia. by rewrite drop_app_le.
Qed.

Lemma push_effect item a : effect a (push item a) [(ingest_normalize (tool_call_ids a) (conv a) item).2] false.
Proof.
  pose proof (ingest_item_unique (tool_call_ids a) (conv a) item) as Hu. unfold push, persist_and_push_message.
  destruct (ingest_normalize (tool_call_ids a) (conv a) item) as [pending item']. simpl in *. split; [done|..].
  - intros Hok c Hc. specialize (Hok c Hc). unfold conv in *. simpl. rewrite length_app. simpl. lia.
  - intros Hok. unfold captured. change (cap (push _ _)) with (cap a). destruct (cap a) as [c|] eqn:E; [|by unfold cap in *; simpl; rewrite E].
    unfold cap in *. simpl. rewrite E. simpl. unfold conv at 1. simpl. rewrite turn_tail_app by (by apply Hok).
    by rewrite app_assoc.
  - unfold cap. simpl. destruct (turn_capture (state a)); [|done]. simpl. by rewrite orb_false_r.
  - intros _ Hd. unfold disk, conv in *. simpl. by rewrite stored_message, Hd.
Qed.

Lemma replace_effect items (c : bool) a : effect a (replace_conversation items c a) [] c.
Proof.
  destruct (replace_view items c a) as (Hnd & Hd & Hk). set (a' := replace_conversation items c a) in *. split.
  - done.
  - intros _ k. rewrite Hk. destruct (cap a); [|done]. by intros [= <-].
  - intros _. unfold captured. rewrite Hk. destruct (cap a); [|done]. simpl. by rewrite turn_tail_all.
  - rewrite Hk. by destruct (cap a).
  - done.
Qed.

(** ** Pushing a user message *)

Definition newest (n : nat) items : list Item := drop (length items - n) items.

Lemma prune_view a :
  let a' := (prune_retained_conversation a).1 in
  cap a' = cap a ∧ Forall2 same_but_content (conv a) (conv a')
  ∧ (conv a' = conv a ∨ conv a' = (hard_clear (effective_threshold (pruning_config a) (prompt_index (state a)) (conv a)) (conv a)).2)
  ∧ (disk a = conv a → disk a' = conv a').
Proof.
  assert (Forall2 same_but_content (conv a) (conv a)) as Hrefl by (apply Forall_Forall2_diag, Forall_forall; by left).
  simpl. unfold prune_retained_conversation. destruct (negb _); [by split_and!; [..|left|]|].
  destruct (_ <? _); [by split_and!; [..|left|]|]. set (threshold := effective_threshold _ _ _).
  destruct (rewrite_history RetainedPrune _ a) as [[a' n] ack] eqn:E. simpl.
  apply rewrite_view in E as (Hn & Hc & Hk & Hz & Hp). rewrite Hc in *. split_and!; [done|apply hard_clear_content|by right|].
  intros Hd. destruct (Nat.eq_0_gt_0_cases n) as [En|]; [|by apply Hp]. rewrite Hz, Hd by done. rewrite Hn in En.
  by rewrite hard_clear_honest.
Qed.

(** The actor between the repair and the push. *)
Definition repaired item (reason : DanglingToolCallReason) a : Actor :=
  ensure_conversation_integrity_with_reason reason
    (if strands_reminder item then pop_stranded_continue_reminder a else a).

Lemma push_user_view item (reason : DanglingToolCallReason) a :
  let a' := push_user_message_with_repair_reason item reason a in
  ∃ item', Forall2 same_but_content (conv (repaired item reason a) ++ [item']) (conv a')
    ∧ (is_assistant item = false → is_result item = false → item' = item).
Proof.
  simpl. unfold push_user_message_with_repair_reason. fold (repaired item reason a). set (a1 := repaired item reason a).
  match goal with |- context [prune_retained_conversation ?x] => set (a2 := x); destruct (prune_view a2) as (_ & Hf & _) end.
  exists (ingest_normalize (tool_call_ids a1) (conv a1) item).2. unfold a2 in Hf at 1. unfold push, persist_and_push_message in Hf.
  split; [|by destruct item].
  change (tool_call_ids (add_since (estimate_item_tokens item) a1)) with (tool_call_ids a1) in Hf.
  change (conv (add_since (estimate_item_tokens item) a1)) with (conv a1) in Hf.
  destruct (ingest_normalize (tool_call_ids a1) (conv a1) item). exact Hf.
Qed.

Lemma repaired_effect item (reason : DanglingToolCallReason) a :
  effect a (repaired item reason a) [] false
  ∧ (capture_ok a → ∀ c, cap (repaired item reason a) = Some c → turn_start_offset c = length (conv (repaired item reason a))).
Proof.
  unfold repaired, ensure_conversation_integrity_with_reason. set (a0 := if strands_reminder item then _ else a).
  assert (effect a a0 [] false) as He0 by (unfold a0; destruct (strands_reminder item); [apply pop_effect|apply effect_refl]).
  destruct (ensure_effect reason ∅ a0) as (He & _ & Hk & _). split; [by eapply (effect_trans _ _ _ [] [] false false)|].
  intros _ c. rewrite Hk. unfold recaptured. destruct (cap a0); [|done]. by intros [= <-].
Qed.

Lemma push_user_effect item (reason : DanglingToolCallReason) a :
  let a' := push_user_message_with_repair_reason item reason a in effect a a' (newest 1 (conv a')) false.
Proof.
  simpl. unfold push_user_message_with_repair_reason. fold (repaired item reason a).
  destruct (repaired_effect item reason a) as [He1 Hoff]. set (a1 := repaired item reason a) in *.
  pose proof (push_effect item (add_since (estimate_item_tokens item) a1)) as He2.
  change (tool_call_ids (add_since (estimate_item_tokens item) a1)) with (tool_call_ids a1) in He2.
  change (conv (add_since (estimate_item_tokens item) a1)) with (conv a1) in He2.
  set (item' := (ingest_normalize (tool_call_ids a1) (conv a1) item).2) in *.
  set (a2 := push item (add_since (estimate_item_tokens item) a1)) in *.
  assert (conv a2 = conv a1 ++ [item'] ∧ cap a2 = cap a1) as [Hc2 Hk2].
  { unfold a2, push, persist_and_push_message, item'.
    change (tool_call_ids (add_since (estimate_item_tokens item) a1)) with (tool_call_ids a1).
    change (conv (add_since (estimate_item_tokens item) a1)) with (conv a1). by destruct (ingest_normalize _ _ _). }
  assert (effect a1 a2 [item'] false) as He12.
  { rewrite <-(app_nil_l [item']). change false with (false || false).
    eapply effect_trans; [by apply (effect_frame a1 (add_since (estimate_item_tokens item) a1))|done]. }
  pose proof (effect_trans _ _ _ _ _ _ _ He1 He12) as He02. simpl in He02.
  destruct (prune_view a2) as (Hk & Hf & _ & Hd). set (a3 := (prune_retained_conversation a2).1) in *.
  pose proof (Forall2_length _ _ _ Hf) as Hlen. rewrite Hc2, length_app in Hlen. simpl in Hlen. destruct He02 as [I O C M D]. split.
  - intros Hnd. rewrite (content_call_ids _ _ Hf). by apply I.
  - intros Hok c Hc. rewrite Hk in Hc. specialize (O Hok c Hc). rewrite Hc2, length_app in O. simpl in O. lia.
  - intros Hok. specialize (eff_captured _ _ _ _ He1 Hok) as C1. unfold captured at 1. unfold captured in C1 at 1.
    rewrite Hk, Hk2. destruct (cap a1) as [c|] eqn:E1; [|simpl in *; by destruct (captured a)]. simpl in C1. simpl.
    destruct (captured a) as [ms|] eqn:Em; [|done]. simpl in *. injection C1 as C1. rewrite app_nil_r in C1.
    rewrite Hoff in * by done. rewrite turn_tail_all, app_nil_r in C1. subst ms. unfold newest, turn_tail.
    rewrite <-Hlen. rewrite (proj2 (Nat.leb_le _ _)) by lia. by replace (length (conv a1) + 1 - 1) with (length (conv a1)) by lia.
  - by rewrite Hk.
  - intros Ha Hd0. by apply Hd, D.
Qed.

(** ** The other handlers *)

Lemma batch_step item items a : push_batch (item :: items) a = push_batch items (push_user_message item a).
Proof. done. Qed.

Fixpoint batch_added items a : list Item :=
  match items with
  | [] => []
  | item :: rest =>
      newest 1 (conv (push_user_message item a)) ++ batch_added rest (push_user_message item a)
  end.

Lemma push_batch_effect items a : effect a (push_batch items a) (batch_added items a) false.
Proof.
  revert a. induction items as [|item items IH]; intros a; [apply effect_refl|]. rewrite batch_step. cbn [batch_added].
  eapply (effect_trans _ _ _ _ _ false false); [apply push_user_effect|apply IH].
Qed.

Lemma effect_framed a b c added compacts :
  conv b = conv a → cap b = cap a → disk b = disk a → effect b c added compacts → effect a c added compacts.
Proof.
  intros Hc Hk Hd He. rewrite <-(app_nil_l added), <-(orb_false_l compacts).
  eapply effect_trans; [by apply effect_frame|done].
Qed.

Lemma effect_then_framed a b c added compacts :
  effect a b added compacts → conv c = conv b → cap c = cap b → disk c = disk b → effect a c added compacts.
Proof.
  intros He Hc Hk Hd. rewrite <-(app_nil_r added), <-(orb_false_r compacts).
  eapply effect_trans; [done|by apply effect_frame].
Qed.

Lemma system_head_effect (prompt : bytes) a : effect a (replace_system_head prompt a).1 [] false.
Proof.
  unfold replace_system_head.
  assert (effect a (let '(changed, items) := replace_or_insert_system_head (conv a) prompt in
    (replace_conversation items false a, changed)).1 [] false) as Hr
    by (destruct (replace_or_insert_system_head (conv a) prompt); apply replace_effect).
  destruct (conv a) as [|[sys| | | | |] rest]; try done. by destruct (canonical_system_prompt_eq _ _); [apply effect_refl|].
Qed.

Lemma inject_zero items (reminder : bytes) :
  (inject_memory_reminder items reminder).1 = false → (inject_memory_reminder items reminder).2 = items.
Proof.
  unfold inject_memory_reminder. destruct (trim reminder =b []); [done|].
  destruct items as [|[sys| | | | |] rest]; try done. by destruct (_ =b _).
Qed.

Lemma build_effect tools reminder (persist : bool) trace (conv_id req_id : bytes) a :
  effect a (build_conversation_request tools reminder persist trace conv_id req_id a).1 [] false.
Proof.
  unfold build_conversation_request.
  match goal with |- context [let '(a, memory_reminder) := ?x in _] => set (injection := x) end.
  assert (effect a injection.1 [] false) as Hi.
  { unfold injection. destruct reminder as [text|]; [|apply effect_refl]. destruct persist; [|apply effect_refl].
    destruct (snapshot_view a) as (Hc & Hd & Hk). set (a0 := snapshot_turn_slice a) in *. rewrite Hc.
    pose proof (inject_zero (conv a) text) as Hz. pose proof (inject_ids (conv a) text) as Hids.
    destruct (inject_memory_reminder (conv a) text) as [injected l]. simpl in Hz, Hids.
    assert (∀ b, conv b = l → cap b = cap a0 → (disk a = conv a → disk b = l) →
      effect a (rebase_turn_capture_offset b) [] false) as Hlast.
    { intros b Hb Hkb Hdb. destruct (rebase_view b) as (Hc' & Hd' & Hk'). apply recaptured_effect.
      - by rewrite Hc', Hb, Hids.
      - rewrite Hk', Hc', Hkb, Hk. unfold recaptured. by destruct (cap a).
      - intros _ Ha. rewrite Hd', Hc', Hb. auto. }
    destruct injected; simpl; apply Hlast; try done.
    - intros _. apply stored_replace.
    - intros Ha. change (disk a0 = l). rewrite Hd, Ha. symmetry. by apply Hz. }
  destruct injection as [b memory_reminder]. simpl in Hi.
  destruct (image_budget_limits _) as [trigger target]. destruct (apply_image_budget_with_limits _ _ _) as [l outcome].
  unfold prune_items_for_turn_request. eapply effect_then_framed; [exact Hi|..];
    destruct (0 <? inline_images outcome); destruct (should_prune _ _); done.
Qed.

End Effect.

Lemma restore_effect (snap : ChatStateSnapshot) a :
  effect (0 < (repair_tool_call_ids (snap_conversation snap)).1 ∨ snap_conversation snap = conv a)
    a (restore_snapshot snap a) [] false.
Proof.
  unfold restore_snapshot. pose proof (repair_facts (snap_conversation snap)) as Hf.
  destruct (repair_tool_call_ids (snap_conversation snap)) as [n l] eqn:E. destruct Hf as [Hnd _ _ _ _]. simpl in *.
  set (a0 := clear_ids (if 0 <? n then with_persistence (replace_history l) a else a)).
  assert (conv a0 = conv a ∧ cap a0 = cap a) as [Hc0 Hk0] by (unfold a0; by destruct (0 <? n)).
  destruct (snapshot_view a0) as (Hc1 & Hd1 & Hk1). set (a1 := snapshot_turn_slice a0) in *.
  destruct (rebase_view (put_conv l a1)) as (Hc2 & Hd2 & Hk2). set (a2 := rebase_turn_capture_offset (put_conv l a1)) in *.
  eapply (effect_then_framed _ a a2); [|done..].
  assert (conv a2 = l) as Hc by done. clearbody a2. apply recaptured_effect.
  - by rewrite Hc.
  - rewrite Hk2. change (cap (put_conv l a1)) with (cap a1). change (conv (put_conv l a1)) with l.
    rewrite Hk1, Hc0, Hk0, Hc. unfold recaptured. by destruct (cap a).
  - intros Hack Hd. rewrite Hd2, Hc. change (disk (put_conv l a1)) with (disk a1). rewrite Hd1. unfold a0, disk. simpl.
    destruct (Nat.ltb_spec 0 n) as [Hn|Hn]; [by simpl; rewrite stored_replace|].
    destruct Hack as [|Hs]; [lia|]. assert (n = 0) as -> by lia. apply repair_ids_unchanged in E as ->. by rewrite Hs.
Qed.

(** ** Commands *)

(** Commands that end, start or abandon a capture, or change captured items where
    they stand. *)
Definition ordinary (cmd : ChatStateCommand) : bool :=
  match cmd with
  | BeginTurnCapture | TakeTurnMessages | TruncateToPromptIndex _ | RepairHistory _ _ | StripConversationImages _
  | AppendWorkingDirectorySwitchAndAck _ _ => false
  | _ => true
  end.

(** Whether memory and disk can be expected to agree after a command: a restored
    snapshot is written only when it had to be repaired, and writes may fail. *)
Definition acknowledged (cmd : ChatStateCommand) a : Prop :=
  match cmd with
  | RestoreSnapshot snap => 0 < (repair_tool_call_ids (snap_conversation snap)).1 ∨ snap_conversation snap = conv a
  | StripConversationImages _ => ∀ n, (handle_command cmd a).2 ≠ RStrip (WriteFailed n)
  | AppendWorkingDirectorySwitchAndAck _ _ => (handle_command cmd a).2 ≠ RSwitch (inr Indeterminate)
  | _ => True
  end.

(** The items a command pushes, as the history has them when it is done. *)
Definition added (cmd : ChatStateCommand) a : list Item :=
  match cmd with
  | PushUserMessagesBatch items | PushUserMessagesBatchAndAck items => batch_added items a
  | PushUserMessage _ | PushUserMessageAndAck _ | PushUserMessageWithRepairReason _ _ | PushAssistantResponse _
  | PushModelOutputAndAck _ _ | PushToolResult _ | PushModelOutput _ | PushUnreportedModelOutput _ =>
      newest 1 (conv (handle_command cmd a).1)
  | _ => []
  end.

Definition compacts (cmd : ChatStateCommand) : bool :=
  match cmd with ReplaceConversation _ is_compaction => is_compaction | _ => false end.

Lemma newest_app (l k : list Item) : newest (length k) (l ++ k) = k.
Proof. unfold newest. rewrite length_app, Nat.add_sub. apply drop_app_length. Qed.

Lemma push_effect_newest (d : Prop) item a b :
  conv b = conv a → cap b = cap a → disk b = disk a → effect d a (push item b) (newest 1 (conv (push item b))) false.
Proof.
  intros Hc Hk Hd. eapply effect_framed; [exact Hc|exact Hk|exact Hd|]. pose proof (push_effect d item b) as He.
  assert (conv (push item b) = conv b ++ [(ingest_normalize (tool_call_ids b) (conv b) item).2]) as ->.
  { unfold push, persist_and_push_message. by destruct (ingest_normalize _ _ _). }
  by rewrite (newest_app (conv b) [_]).
Qed.

Lemma push_message_effect (d : Prop) item a :
  effect d a (push_message item a) (newest 1 (conv (push_message item a))) false.
Proof. unfold push_message. apply push_effect_newest; by destruct (negb _). Qed.

Lemma push_and_ack_effect (d : Prop) item (reported : bool) a :
  let a' := (handle_command (PushModelOutputAndAck item reported) a).1 in effect d a a' (newest 1 (conv a')) false.
Proof.
  simpl. set (b := if negb reported then _ else a).
  assert (effect d a (push item b) (newest 1 (conv (push item b))) false) as He
    by (apply push_effect_newest; unfold b; by destruct (negb reported)).
  unfold push in He. destruct (persist_and_push_message item b) as [c committed]. simpl in *.
  by eapply effect_then_framed.
Qed.

Lemma halt_effect (d : Prop) (class : bytes) (answers : gmap bytes bytes) a :
  effect d a (repair_dangling_after_harness_halt class answers a) [] false.
Proof.
  unfold repair_dangling_after_harness_halt.
  eapply (effect_trans d _ _ _ [] [] false false); [apply pop_effect|apply ensure_effect].
Qed.

Lemma command_effect (cmd : ChatStateCommand) a :
  ordinary cmd = true → effect (acknowledged cmd a) a (handle_command cmd a).1 (added cmd a) (compacts cmd).
Proof.
  destruct cmd; try done; intros _; cbn [added compacts];
    first [ apply push_user_effect | apply push_batch_effect | apply push_message_effect
          | apply push_and_ack_effect | apply replace_effect | apply restore_effect | apply halt_effect | apply pop_effect
          | idtac ].
  all: cbn [handle_command].
  all: try (by apply effect_frame).
  - by apply push_effect_newest.
  - by apply push_effect_newest.
  - apply effect_frame; unfold record_subagent_usage; by destruct (_ && _).
  - pose proof (system_head_effect (acknowledged (ReplaceSystemHead prompt) a) prompt a) as He.
    by destruct (replace_system_head prompt a).
  - apply effect_frame; [done|done|apply stored_flush].
  - apply effect_frame; unfold conv, cap, disk, seal_harness_trace_turn; simpl; by destruct (harness_trace_buffer (state a)).
  - match goal with |- effect ?d _ _ _ _ =>
      assert (effect d a (build_conversation_request tool_definitions memory_reminder persist_memory_reminder trace
        conv_id req_id (ensure_conversation_integrity a)).1 [] false) as He
    end.
    { eapply (effect_trans _ _ _ _ [] [] false false); [apply ensure_effect|apply build_effect]. }
    by destruct (build_conversation_request _ _ _ _ _ _ _).
  - apply effect_frame; unfold prune_items_for_turn_request; by destruct (should_prune _ _).
  - apply effect_frame; unfold conv, cap, disk, seal_harness_trace_turn; simpl; by destruct (harness_trace_buffer (state a)).
Qed.

(** ** The other commands *)

Lemma truncate_view (target : nat) a :
  let a' := truncate_to_prompt_index target a in
  (∃ n, conv a' = take n (conv a)) ∧ cap a' = cap a ∧ (disk a = conv a → disk a' = conv a').
Proof.
  simpl. unfold truncate_to_prompt_index. destruct (_ <=? _).
  - split_and!; [exists (length (conv a)); by rewrite firstn_all|done|done].
  - split_and!; [by eexists|done|]. intros _. apply stored_replace.
Qed.

Lemma find_index_find (generation : N) items :
  match find_index generation items with
  | Some i => ∃ item, items !! i = Some item ∧ find_switch (Some generation) items = Some item
                      ∧ is_switch_of (Some generation) item = true
  | None => find_switch (Some generation) items = None
  end.
Proof.
  unfold find_switch. induction items as [|item items IH]; [done|]. simpl.
  destruct (is_switch_of (Some generation) item) eqn:E; [by exists item|].
  destruct (find_index generation items) as [i|]; [|done]. exact IH.
Qed.

Lemma switch_call_ids (generation : N) item : is_switch_of (Some generation) item = true → item_call_ids item = [].
Proof. unfold is_switch_of. intros E%bool_decide_eq_true. by destruct item. Qed.

Lemma converge_view (generation : N) item a :
  is_switch_of (Some generation) item = true →
  let a' := converge_working_directory_switch generation item a in
  call_id_list (conv a') = call_id_list (conv a) ∧ length (conv a) ≤ length (conv a') ∧ cap a' = cap a ∧ disk a' = disk a
  ∧ match find_switch (Some generation) (conv a) with
    | Some item' => item' = item → conv a' = conv a
    | None => conv a' = conv a ++ [item]
    end.
Proof.
  intros Hs%switch_call_ids. simpl. unfold converge_working_directory_switch.
  pose proof (find_index_find generation (conv a)) as Hf. destruct (find_index generation (conv a)) as [i|].
  - destruct Hf as (old & Hi & -> & Ho%switch_call_ids). rewrite Hi. split_and!; [|by unfold conv; simpl; rewrite length_insert|done|done|].
    + change (call_id_list (<[i:=item]> (conv a)) = call_id_list (conv a)). unfold call_id_list.
      rewrite <-(take_drop_middle _ _ _ Hi) at 2. rewrite insert_take_drop by (by eapply lookup_lt_Some).
      rewrite !flat_map_app. simpl. by rewrite Hs, Ho.
    + intros ->. by apply list_insert_id.
  - rewrite Hf. split_and!; [|by unfold conv; simpl; rewrite length_app; lia|done|done|done].
    change (call_id_list (conv a ++ [item]) = call_id_list (conv a)). rewrite call_id_list_app. unfold call_id_list at 2. simpl.
    by rewrite Hs, !app_nil_r.
Qed.

Lemma candidate_switch (content : bytes) (generation : N) :
  working_directory_switch_generation (working_directory_switch content generation) = Some generation
  ∧ is_switch_of (Some generation) (working_directory_switch content generation) = true.
Proof. split; [done|]. unfold is_switch_of. by rewrite bool_decide_eq_true. Qed.

Lemma find_switch_is (generation : option N) items item :
  find_switch generation items = Some item → is_switch_of generation item = true.
Proof. by intros [_ ?]%find_some. Qed.

Lemma switch_view (content : bytes) (generation : N) a :
  let '(a', result) := append_working_directory_switch content generation a in
  (NoDup (call_id_list (conv a)) → NoDup (call_id_list (conv a')))
  ∧ (capture_ok a → capture_ok a')
  ∧ (result ≠ inr Indeterminate → disk a = conv a → disk a' = conv a').
Proof.
  unfold append_working_directory_switch. destruct (pop_effect True a) as [I O _ _ D].
  set (a0 := pop_stranded_continue_reminder a) in *. destruct (candidate_switch content generation) as [Hg Hcs].
  set (candidate := working_directory_switch content generation) in *.
  pose proof (stored_switch candidate (persistence a0)) as Hs. rewrite Hg in Hs.
  destruct (persist_working_directory_switch_and_ack candidate (persistence a0)) as [p received].
  specialize (Hs (ex_intro _ _ eq_refl)). set (a1 := with_persistence (fun _ => p) a0).
  assert (conv a1 = conv a0 ∧ cap a1 = cap a0 ∧ disk a1 = stored p) as (Hc1 & Hk1 & Hd1) by done.
  change (stored (persistence a0)) with (disk a0) in Hs. clearbody a1 a0.
  assert (∀ item, is_switch_of (Some generation) item = true →
    (disk a0 = conv a0 → match find_switch (Some generation) (disk a0) with
                         | Some item' => item' = item ∧ stored p = disk a0
                         | None => stored p = disk a0 ++ [item]
                         end) →
    let a' := converge_working_directory_switch generation item a1 in
    (NoDup (call_id_list (conv a)) → NoDup (call_id_list (conv a')))
    ∧ (capture_ok a → capture_ok a') ∧ (disk a = conv a → disk a' = conv a')) as Hconv.
  { intros item Hi Hdisk. destruct (converge_view generation item a1 Hi) as (Hids & Hlen & Hk & Hd & Hm).
    simpl. set (a' := converge_working_directory_switch generation item a1) in *. split_and!.
    - by rewrite Hids, Hc1.
    - intros Hok%O c Hc. rewrite Hk, Hk1 in Hc. specialize (Hok c Hc). rewrite Hc1 in Hlen. lia.
    - intros Hsync%D; [|done]. specialize (Hdisk Hsync). rewrite Hd, Hd1. rewrite Hc1, <-Hsync in Hm.
      destruct (find_switch (Some generation) (disk a0)) as [item'|]; [|by rewrite Hm].
      destruct Hdisk as [-> ->]. by rewrite Hm. }
  assert (∀ (result : SwitchResult), authoritative_item candidate result = None →
    (result ≠ inr Indeterminate → stored p = disk a0) →
    (NoDup (call_id_list (conv a)) → NoDup (call_id_list (conv a1))) ∧ (capture_ok a → capture_ok a1)
    ∧ (result ≠ inr Indeterminate → disk a = conv a → disk a1 = conv a1)) as Hnone.
  { intros result _ Hp. split_and!; [by rewrite Hc1| |].
    - intros Hok%O c Hc. rewrite Hk1 in Hc. rewrite Hc1. by apply Hok.
    - intros Hr Hsync%D; [|done]. by rewrite Hd1, Hc1, Hp. }
  destruct received as [[[|item]|[|[|item]|]]|]; simpl in Hs |- *.
  - destruct Hs as [Hs Hf]. edestruct (Hconv candidate Hcs) as (? & ? & ?); [by rewrite Hf|done].
  - destruct Hs as [Hs Hf]. edestruct (Hconv item) as (? & ? & ?); [by eapply find_switch_is|by rewrite Hf|done].
  - apply (Hnone (inr NotCommitted)); [done|]. by intros.
  - destruct Hs as [Hs Hf]. edestruct (Hconv candidate Hcs) as (? & ? & ?); [by rewrite Hf|done].
  - destruct Hs as [Hs Hf]. edestruct (Hconv item) as (? & ? & ?); [by eapply find_switch_is|by rewrite Hf|done].
  - by apply (Hnone (inr Indeterminate)).
  - by apply (Hnone (inr Indeterminate)).
Qed.

Lemma strip_view (urls : list bytes) a :
  let '(a', result) := strip_conversation_images urls a in
  (NoDup (call_id_list (conv a)) → NoDup (call_id_list (conv a'))) ∧ (capture_ok a → capture_ok a')
  ∧ ((∀ n, strip_outcome result ≠ WriteFailed n) → disk a = conv a → disk a' = conv a').
Proof.
  unfold strip_conversation_images. destruct (rewrite_history ImageStrip _ a) as [[a' n] ack] eqn:E.
  assert (0 < n → is_Some ack) as Hack.
  { unfold rewrite_history in E. destruct (strip_images_by_url (conv a) urls) as [m l]. simpl in E.
    destruct (Nat.ltb_spec 0 m) as [|Hm]; [|injection E as _ <- _; lia].
    destruct (replace_history_for_strip_and_ack _ _). injection E as _ _ <-. by eexists. }
  pose proof (strip_ids urls (conv a)) as Hids. pose proof (strip_honest urls (conv a)) as Hh.
  apply rewrite_view in E as (Hn & Hc & Hk & Hz & Hp). simpl in Hn, Hc, Hids, Hh. split_and!.
  - by rewrite Hc.
  - intros Hok c Ha. rewrite Hk in Ha. specialize (Hok c Ha). rewrite Hc, length_map. done.
  - intros Hr Hsync. destruct (Nat.eq_0_gt_0_cases n) as [En|Hpos].
    + rewrite Hz, Hsync, Hc by done. rewrite Hn in En. by rewrite Hh.
    + apply Hp; [done|]. intros _. destruct (Hack Hpos) as [[[]|] ->]; try done; by destruct (Hr n).
Qed.

End ChatStateLaws.
