(* ===== verification/ChatTheorems.v ===== *)
(** * What the chat-state actor guarantees

    The theorems over sequences of commands: the invariant of the actor, the history
    on disk, captured turns, user messages, token totals and the pruning of old
    results. *)

From S2P Require Import Prelude RustStr ToolCallIds History HistoryLaws Tokens StrFind Tags.
From S2P Require Import Compaction CompactionLaws IntegrityLaws Persistence Usage ImageBudget Tokens.
From S2P Require Import RequestBuilder ChatState ChatCommands ChatStateLaws.

#[local] Open Scope nat_scope.

Section ChatTheorems.
Context `{Payloads} `{!JsonSizes} `{!Opaque} {P : Type} `{!ChatPersistence P} `{!PersistedHistory P}.

Abbreviation Actor := (@Actor _ _ P).
Implicit Types (a : Actor) (item : Item) (items : list Item).

(** ** The commands that are not ordinary *)

Lemma repair_command_core (dry_run : bool) a :
  let a' := (repair_history_command dry_run a).1 in
  (NoDup (call_id_list (conv a)) → NoDup (call_id_list (conv a'))) ∧ (capture_ok a → capture_ok a')
  ∧ (disk a = conv a → disk a' = conv a').
Proof.
  simpl. unfold repair_history_command. destruct dry_run; [done|].
  destruct (repair_history (conv a)) as [report items] eqn:E. destruct (changed report) eqn:Hch; simpl.
  - destruct (replace_view items false (put_conv [] a)) as (Hnd & Hd & Hk). split_and!; [done| |done].
    intros _ c. rewrite Hk. destruct (cap (put_conv [] a)); [|done]. by intros [= <-].
  - assert (items = conv a) as ->; [|split_and!; auto].
    apply changed_false in Hch as ->. rewrite repair_history_eq in E.
    destruct (repair_tool_call_ids (conv a)) as [n items1] eqn:E1.
    destruct (clean items1) as [[[d st] k] items2] eqn:E2. injection E as -> -> -> -> ->.
    apply clean_unchanged in E2 as ->. by apply repair_ids_unchanged in E1.
Qed.

(** One command: distinct identifiers, the capture in range, and the disk. *)
Lemma command_core (cmd : ChatStateCommand) a :
  let a' := (handle_command cmd a).1 in
  (NoDup (call_id_list (conv a)) → NoDup (call_id_list (conv a'))) ∧ (capture_ok a → capture_ok a')
  ∧ (acknowledged cmd a → disk a = conv a → disk a' = conv a').
Proof.
  simpl. destruct (ordinary cmd) eqn:Ho.
  { destruct (command_effect cmd a Ho) as [I O _ _ D]. by split_and!. }
  destruct cmd; try done; cbn [handle_command acknowledged].
  - pose proof (switch_view content cwd_generation a) as Hs.
    destruct (append_working_directory_switch content cwd_generation a) as [a' result]. simpl in *.
    destruct Hs as (? & ? & Hd). split_and!; [done|done|]. intros Hr. apply Hd. congruence.
  - destruct (default false turn_active); [done|]. pose proof (repair_command_core dry_run a) as Hr.
    destruct (repair_history_command dry_run a) as [a' report]. simpl in *. naive_solver.
  - pose proof (strip_view urls a) as Hs. destruct (strip_conversation_images urls a) as [a' result]. simpl in *.
    destruct Hs as (? & ? & Hd). split_and!; [done|done|]. intros Hr. apply Hd. intros n Hn. apply (Hr n). by rewrite Hn.
  - split_and!; [done| |done]. intros _ c [= <-]. done.
  - destruct (truncate_view target_prompt_index a) as ((n & Hc) & _ & Hd). simpl. split_and!; [|done|].
    + change (NoDup (call_id_list (conv a)) → NoDup (call_id_list (conv (truncate_to_prompt_index target_prompt_index a)))).
      rewrite Hc. intros Hnd. rewrite <-(take_drop n (conv a)) in Hnd. by apply prefix_ids in Hnd.
    + intros _. exact Hd.
Qed.

Lemma run_step (cmd : ChatStateCommand) (cmds : list ChatStateCommand) a :
  run (cmd :: cmds) a = run cmds (handle_command cmd a).1.
Proof. done. Qed.

(** ** The invariant *)

(** What every command keeps. *)
Definition actor_ok a : Prop :=
  NoDup (call_id_list (conversation (state a)))
  ∧ ∀ c, turn_capture (state a) = Some c → turn_start_offset c ≤ length (conversation (state a)).

(** C3: whatever commands reach the actor, in whatever order, no two tool calls of
    its history share an identifier, and the offset of a turn capture never points
    past the end of the history, so that taking the capture never falls back to the
    empty tail. *)
Theorem actor_invariant (initial : list Item) (config : SamplingConfig) (pruning : PruningConfig) (p : P)
    (cmds : list ChatStateCommand) :
  actor_ok (run cmds (spawn initial config pruning p)).
Proof.
  assert (∀ a, NoDup (call_id_list (conv a)) → capture_ok a →
    NoDup (call_id_list (conv (run cmds a))) ∧ capture_ok (run cmds a)) as Hrun.
  { induction cmds as [|cmd cmds IH]; intros a Hi Ho; [done|]. rewrite run_step.
    destruct (command_core cmd a) as (I & O & _). apply IH; auto. }
  apply Hrun; unfold spawn; destruct (repair_tool_call_ids initial) as [n l]; [|done].
  unfold conv, new_state, load_repair. simpl. pose proof (repair_facts l) as Hf. destruct (repair_tool_call_ids l) as [m l1].
  destruct Hf as [Hnd _ _ _ _]. simpl in Hnd. pose proof (dedup_others l1) as Hd.
  destruct (dedup_duplicate_tool_results l1) as [k l2]. simpl in Hd. unfold repair_dangling_tool_calls.
  match goal with |- context [repair_dangling_tool_calls_with ?r ?s l2] => pose proof (dangling_others r s l2) as Hg;
    destruct (repair_dangling_tool_calls_with r s l2) as [[s' j] l3] end.
  simpl in *. by rewrite call_ids_without_results, Hg, Hd, <-call_ids_without_results.
Qed.

(** ** Memory and disk *)

(** A command that writes the whole history, and succeeds in it. *)
Definition rewrites (cmd : ChatStateCommand) a : Prop :=
  match cmd with
  | ReplaceConversation _ _ => True
  | TruncateToPromptIndex target => target < prompt_index (state a)
  | RepairHistory false turn_active => default false turn_active = false ∧ changed (repair_history (conversation (state a))).1 = true
  | RestoreSnapshot snap => 0 < (repair_tool_call_ids (snap_conversation snap)).1
  | StripConversationImages _ => ∃ n, (handle_command cmd a).2 = RStrip (Applied n)
  | _ => False
  end.

Lemma rewrites_disk (cmd : ChatStateCommand) a : rewrites cmd a → disk (handle_command cmd a).1 = conv (handle_command cmd a).1.
Proof.
  destruct cmd; try done; cbn [rewrites handle_command].
  - intros _. by apply replace_view.
  - destruct dry_run; [done|]. intros [-> Hc]. unfold repair_history_command. change (conv a) with (conversation (state a)).
    destruct (repair_history (conversation (state a))) as [report items]. simpl in Hc. rewrite Hc. by apply replace_view.
  - intros [n Hr]. unfold strip_conversation_images in *. destruct (rewrite_history ImageStrip _ a) as [[a' m] ack] eqn:E.
    simpl in Hr |- *. assert (0 < m ∧ ack = Some (Some true)) as [Hm ->].
    { destruct ack as [[[]|]|]; try done. split; [|done]. clear Hr. unfold rewrite_history in E.
      destruct (strip_images_by_url (conv a) urls) as [k l]. simpl in E. destruct (Nat.ltb_spec 0 k) as [|Hk]; [|done].
      destruct (replace_history_for_strip_and_ack _ _). by injection E as _ <- _. }
    apply rewrite_view in E as (_ & _ & _ & _ & Hp). by apply Hp.
  - intros Hn. simpl. unfold restore_snapshot. destruct (repair_tool_call_ids (snap_conversation snapshot)) as [n l]. simpl in Hn.
    rewrite (proj2 (Nat.ltb_lt 0 n) Hn). set (a1 := snapshot_turn_slice (clear_ids (with_persistence (replace_history l) a))).
    destruct (rebase_view (put_conv l a1)) as (Hc & Hd & _).
    change (disk (rebase_turn_capture_offset (put_conv l a1)) = conv (rebase_turn_capture_offset (put_conv l a1))).
    rewrite Hd, Hc. destruct (snapshot_view (clear_ids (with_persistence (replace_history l) a))) as (_ & Hd1 & _).
    change (disk (put_conv l a1)) with (disk a1). unfold a1. rewrite Hd1. apply stored_replace.
  - intros Hl. unfold truncate_to_prompt_index. rewrite (proj2 (Nat.leb_gt _ _) Hl). apply stored_replace.
Qed.

(** Whether memory and disk are one history after some commands, [b] telling whether
    they were before: a full rewrite brings them together, and only a write that was
    not acknowledged or the restoration of another history parts them. *)
Fixpoint in_step (b : Prop) (cmds : list ChatStateCommand) a : Prop :=
  match cmds with
  | [] => b
  | cmd :: rest => in_step (rewrites cmd a ∨ (b ∧ acknowledged cmd a)) rest (handle_command cmd a).1
  end.

(** C4: memory and disk are one history, item for item, after any commands whatever,
    unless one of three things happened since the last command that rewrote the whole history: the
    start dropped or answered something besides identifiers, a write was reported to
    have failed, or a snapshot of another history was restored.  A start writes
    exactly the identifiers it repaired; a restored snapshot leaves the disk as it is
    unless its identifiers had to be repaired. *)
Theorem disk_follows_memory (initial : list Item) (config : SamplingConfig) (pruning : PruningConfig) (p : P) :
  stored p = initial →
  let start := spawn initial config pruning p in
  stored (persistence start) = (repair_tool_call_ids initial).2 ∧ conversation (state start) = load_repair initial
  ∧ (∀ cmds, in_step (load_repair initial = (repair_tool_call_ids initial).2) cmds start →
     stored (persistence (run cmds start)) = conversation (state (run cmds start)))
  ∧ (∀ snap cmds, (repair_tool_call_ids (snap_conversation snap)).1 = 0 →
     let a := run cmds start in let a' := (handle_command (RestoreSnapshot snap) a).1 in
     stored (persistence a') = stored (persistence a) ∧ conversation (state a') = snap_conversation snap).
Proof.
  intros Hp. cbv zeta.
  assert (disk (spawn initial config pruning p) = (repair_tool_call_ids initial).2
    ∧ conv (spawn initial config pruning p) = load_repair initial) as [Hd Hc].
  { unfold spawn. pose proof (repair_facts initial) as Hf. destruct (repair_tool_call_ids initial) as [n l] eqn:E.
    destruct Hf as [Hnd _ _ _ _]. simpl in Hnd. unfold disk, conv. simpl. split.
    - destruct (Nat.ltb_spec 0 n); [apply stored_replace|].
      assert (n = 0) as -> by lia. apply repair_ids_unchanged in E as ->. done.
    - unfold load_repair. by rewrite E, repair_fixed. }
  split_and!; [exact Hd|exact Hc| |].
  - intros cmds. assert (load_repair initial = (repair_tool_call_ids initial).2 →
      disk (spawn initial config pruning p) = conv (spawn initial config pruning p)) as Hs by (rewrite Hd, Hc; congruence).
    clear Hd Hc Hp. revert Hs. generalize (load_repair initial = (repair_tool_call_ids initial).2) as b.
    generalize (spawn initial config pruning p) as a. induction cmds as [|cmd cmds IH]; intros a b Hs Hb; [by apply Hs|].
    rewrite run_step. apply (IH _ (rewrites cmd a ∨ (b ∧ acknowledged cmd a))); [|exact Hb].
    intros [Hr|[Hb' Ha]]; [by apply rewrites_disk|]. apply command_core; auto.
  - intros snap cmds Hn. generalize (run cmds (spawn initial config pruning p)) as a. intros a. cbn [handle_command fst].
    unfold restore_snapshot. destruct (repair_tool_call_ids (snap_conversation snap)) as [n l] eqn:E. simpl in Hn. subst n.
    apply repair_ids_unchanged in E as ->. simpl. unfold rebase_turn_capture_offset, snapshot_turn_slice. simpl.
    destruct (turn_capture (state a)) eqn:E; simpl; by rewrite ?E.
Qed.

(** ** Captured turns *)

(** The commands a captured turn is not at the mercy of: all but those that start, take or abandon
    a capture, a repair of the history that changes it, a strip that finds an image, and a
    second switch to a working directory already in the history. *)
Definition keeps_turn (cmd : ChatStateCommand) a : Prop :=
  match cmd with
  | BeginTurnCapture | TakeTurnMessages | TruncateToPromptIndex _ => False
  | RepairHistory dry_run turn_active =>
      dry_run = true ∨ default false turn_active = true ∨ changed (repair_history (conversation (state a))).1 = false
  | StripConversationImages _ => (handle_command cmd a).2 = RStrip NoMatch
  | AppendWorkingDirectorySwitchAndAck _ generation =>
      find_index generation (conversation (state (pop_stranded_continue_reminder a))) = None
  | _ => True
  end.

(** The items a command pushes, as the history has them when it is done. *)
Definition pushed (cmd : ChatStateCommand) a : list Item :=
  match cmd with
  | AppendWorkingDirectorySwitchAndAck _ _ =>
      drop (length (conversation (state (pop_stranded_continue_reminder a)))) (conversation (state (handle_command cmd a).1))
  | _ => added cmd a
  end.

Fixpoint all_keep_turn (cmds : list ChatStateCommand) a : Prop :=
  match cmds with
  | [] => True
  | cmd :: rest => keeps_turn cmd a ∧ all_keep_turn rest (handle_command cmd a).1
  end.

Fixpoint all_pushed (cmds : list ChatStateCommand) a : list Item :=
  match cmds with
  | [] => []
  | cmd :: rest => pushed cmd a ++ all_pushed rest (handle_command cmd a).1
  end.

Lemma append_effect a b (l : list Item) : conv b = conv a ++ l → cap b = cap a → call_id_list l = [] → effect False a b l false.
Proof.
  intros Hc Hk Hl. split; [|..|done].
  - by rewrite Hc, call_id_list_app, Hl, app_nil_r.
  - intros Hok c Hb. rewrite Hk in Hb. specialize (Hok c Hb). rewrite Hc, length_app. lia.
  - intros Hok. unfold captured. rewrite Hk. destruct (cap a) as [c|] eqn:E; [|done]. specialize (Hok c E). simpl. f_equal.
    unfold turn_tail. rewrite Hc, (proj2 (Nat.leb_le _ _)), (proj2 (Nat.leb_le _ _)) by (rewrite ?length_app; lia).
    by rewrite drop_app_le, app_assoc.
  - rewrite Hk. destruct (cap a); [|done]. simpl. by rewrite orb_false_r.
Qed.

Lemma switch_effect_captured (content : bytes) (generation : N) a :
  let cmd := AppendWorkingDirectorySwitchAndAck content generation in
  keeps_turn cmd a → effect False a (handle_command cmd a).1 (pushed cmd a) false.
Proof.
  cbv zeta. cbn [keeps_turn pushed handle_command]. unfold append_working_directory_switch.
  pose proof (pop_effect False a) as Hp. set (a0 := pop_stranded_continue_reminder a) in *. intros Hf.
  destruct (candidate_switch content generation) as [Hg Hcs]. set (candidate := working_directory_switch content generation) in *.
  pose proof (stored_switch candidate (persistence a0)) as Hs. rewrite Hg in Hs.
  destruct (persist_working_directory_switch_and_ack candidate (persistence a0)) as [p received].
  specialize (Hs (ex_intro _ _ eq_refl)). set (a1 := with_persistence (fun _ => p) a0).
  assert (conv a1 = conv a0 ∧ cap a1 = cap a0) as [Hc1 Hk1] by done.
  assert (∀ b l, conv b = conv a0 ++ l → cap b = cap a0 → call_id_list l = [] →
    effect False a b (drop (length (conversation (state a0))) (conversation (state b))) false) as Hlast.
  { intros b l Hb Hk Hl. change (conversation (state b)) with (conv b). change (conversation (state a0)) with (conv a0).
    rewrite Hb, drop_app_length. by eapply (effect_trans _ a a0 b [] l false false); [|apply append_effect]. }
  destruct (authoritative_item candidate (default (inr Indeterminate) received)) as [item|] eqn:Ea.
  - assert (is_switch_of (Some generation) item = true) as Hi.
    { destruct received as [[[|it]|[|[|it]|]]|]; simpl in Ea; try done; injection Ea as <-; try exact Hcs;
        cbn [switch_effect] in Hs; rewrite ?Hg in Hs; destruct Hs as [_ Hs]; by eapply find_switch_is. }
    cbn [fst]. apply (Hlast _ [item]).
    + unfold converge_working_directory_switch. change (conv a1) with (conversation (state a0)). by rewrite Hf.
    + unfold converge_working_directory_switch. change (conv a1) with (conversation (state a0)). by rewrite Hf.
    + unfold call_id_list. simpl. by rewrite (switch_call_ids _ _ Hi).
  - cbn [fst]. apply (Hlast _ []); [by rewrite app_nil_r|done|done].
Qed.

Lemma keeps_turn_effect (cmd : ChatStateCommand) a :
  keeps_turn cmd a → ∃ acknowledged, effect acknowledged a (handle_command cmd a).1 (pushed cmd a) (compacts cmd).
Proof.
  intros Hk. destruct (ordinary cmd) eqn:Ho.
  { exists (acknowledged cmd a). assert (pushed cmd a = added cmd a) as -> by by destruct cmd. by apply command_effect. }
  exists False. destruct cmd; try done.
  - by apply switch_effect_captured.
  - cbn [keeps_turn pushed added compacts handle_command] in *. destruct (default false turn_active); [apply effect_refl|].
    unfold repair_history_command. destruct dry_run; [apply effect_refl|]. change (conv a) with (conversation (state a)).
    destruct Hk as [|[|Hch]]; [done..|]. destruct (repair_history (conversation (state a))) as [report items] eqn:E.
    simpl in Hch. rewrite Hch. apply effect_frame; [|done..]. cbn [fst].
    apply changed_false in Hch as ->. rewrite repair_history_eq in E. change (items = conversation (state a)).
    destruct (repair_tool_call_ids (conversation (state a))) as [n items1] eqn:E1.
    destruct (clean items1) as [[[d st] k] items2] eqn:E2. injection E as -> -> -> -> ->.
    apply clean_unchanged in E2 as ->. by apply repair_ids_unchanged in E1.
  - cbn [keeps_turn pushed added compacts handle_command] in *. unfold strip_conversation_images in *.
    pose proof (strip_honest urls (conv a)) as Hh. simpl in Hh.
    destruct (rewrite_history ImageStrip _ a) as [[a' n] ack] eqn:E. simpl in Hk.
    assert (n = 0) as ->.
    { destruct ack as [[[]|]|]; try done. clear Hk Hh. unfold rewrite_history in E. destruct (strip_images_by_url (conv a) urls) as [k l].
      simpl in E. destruct (Nat.ltb_spec 0 k) as [|Hm]; [|injection E as _ <-; lia]. by destruct (replace_history_for_strip_and_ack _ _). }
    apply rewrite_view in E as (Hn & Hc & Hcap & Hz & _). cbn [fst]. apply effect_frame; [|done|by apply Hz].
    simpl in Hn, Hc. rewrite Hc. by apply Hh.
Qed.

Lemma run_captured (cmds : list ChatStateCommand) a :
  all_keep_turn cmds a → capture_ok a →
  capture_ok (run cmds a)
  ∧ captured (run cmds a) = (fun ms => ms ++ all_pushed cmds a) <$> captured a
  ∧ capture_compaction <$> cap (run cmds a) = (fun c => capture_compaction c || existsb compacts cmds) <$> cap a.
Proof.
  revert a. induction cmds as [|cmd cmds IH]; intros a Ho Hok.
  - simpl. destruct (captured a) eqn:E1, (cap a) eqn:E2; simpl; rewrite ?app_nil_r, ?orb_false_r; rewrite ?E1, ?E2; done.
  - destruct Ho as [Ho Hos]. rewrite run_step.
    destruct (keeps_turn_effect cmd a Ho) as [d [_ O C M _]]. destruct (IH _ Hos (O Hok)) as (IHo & IHc & IHm).
    split; [done|]. rewrite IHc, IHm, C by done. cbn [all_pushed existsb]. split.
    + destruct (captured a); [|done]. simpl. by rewrite app_assoc.
    + destruct (cap (handle_command cmd a).1) as [c'|], (cap a) as [c|]; try done. simpl in *. injection M as ->.
      by rewrite orb_assoc.
Qed.

(** What taking the capture returns. *)
Definition captured_turn a : option TurnCapture := (take_turn_messages a).2.

(** A history repair that changes something loses the running turn: it takes
    the items out of the state before the replacement snapshots them, so that the
    capture keeps only what it had saved before, while the same replacement through
    [ReplaceConversation] keeps the turn. *)
Theorem repair_history_drops_turn (turn_active : option bool) a (c : TurnCaptureState) :
  turn_capture (state a) = Some c → default false turn_active = false →
  turn_start_offset c ≤ length (conversation (state a)) →
  let '(report, items) := repair_history (conversation (state a)) in
  changed report = true →
  captured_turn (handle_command (RepairHistory false turn_active) a).1
  = Some (mkTurnCapture (pre_replacement_messages c) (capture_compaction c))
  ∧ captured_turn (handle_command (ReplaceConversation items false) a).1
    = Some (mkTurnCapture (pre_replacement_messages c ++ drop (turn_start_offset c) (conversation (state a)))
              (capture_compaction c)).
Proof.
  unfold captured_turn. intros Hc Hf Hle. destruct (repair_history (conversation (state a))) as [report items] eqn:E. intros Hch.
  assert (∀ b, cap b = Some c →
    (take_turn_messages (replace_conversation items false b)).2
    = Some (mkTurnCapture (pre_replacement_messages c ++ turn_tail (conv b) (turn_start_offset c)) (capture_compaction c)))
    as Htake.
  { intros b Hb. destruct (replace_view items false b) as (_ & _ & Hk). unfold take_turn_messages. simpl.
    change (turn_capture (state (replace_conversation items false b))) with (cap (replace_conversation items false b)).
    rewrite Hk, Hb. simpl. rewrite turn_tail_all, app_nil_r. by rewrite orb_false_r. }
  split.
  - cbn [handle_command]. rewrite Hf. unfold repair_history_command. change (conv a) with (conversation (state a)).
    rewrite E, Hch. simpl fst. rewrite Htake by done. change (conv (put_conv [] a)) with (@nil Item).
    assert (turn_tail [] (turn_start_offset c) = []) as -> by (unfold turn_tail; destruct (_ <=? _); [apply drop_nil|done]).
    by rewrite app_nil_r.
  - cbn [handle_command fst]. rewrite Htake by done. unfold turn_tail, conv. by rewrite (proj2 (Nat.leb_le _ _)).
Qed.

(** C30: a captured turn is what was pushed during it: after any commands but those [keeps_turn]
    names, the messages taken are the pushed items, each as the history had it when
    its command was done, in order and without a gap, although compactions, new
    system prompts, restored snapshots and the repairs in front of a message or a request replaced the
    history in between; and the capture says whether a compaction was among them.  The
    [RepairHistory] command, when it changes the history while no turn is flagged
    active, keeps at most an initial part of them. *)
Theorem turn_capture_exact (cmds : list ChatStateCommand) a :
  all_keep_turn cmds (begin_turn_capture a) →
  let now := run cmds (begin_turn_capture a) in
  let turn := all_pushed cmds (begin_turn_capture a) in
  captured_turn now = Some (mkTurnCapture turn (existsb compacts cmds))
  ∧ (∀ turn_active, default false turn_active = false → changed (repair_history (conversation (state now))).1 = true →
     ∃ kept, captured_turn (handle_command (RepairHistory false turn_active) now).1 = Some (mkTurnCapture kept (existsb compacts cmds))
       ∧ kept `prefix_of` turn).
Proof.
  intros Ho. cbv zeta. assert (capture_ok (begin_turn_capture a)) as Hok by (intros c [= <-]; done).
  destruct (run_captured cmds _ Ho Hok) as (Hok' & Hc & Hm). set (now := run cmds (begin_turn_capture a)) in *.
  assert (captured (begin_turn_capture a) = Some []) as Hb by (unfold captured; simpl; by rewrite turn_tail_all).
  rewrite Hb in Hc. unfold captured in Hc. destruct (cap now) as [c|] eqn:Ec; [|done]. simpl in Hc, Hm.
  injection Hc as Hc. injection Hm as Hm. split.
  - unfold captured_turn, take_turn_messages. change (turn_capture (state now)) with (cap now). rewrite Ec, <-Hc, <-Hm. done.
  - intros turn_active Hf Hch. pose proof (repair_history_drops_turn turn_active now c Ec Hf (Hok' c Ec)) as Hd.
    destruct (repair_history (conversation (state now))) as [report items]. destruct (Hd Hch) as [-> _].
    exists (pre_replacement_messages c). rewrite Hm. split; [done|]. rewrite <-Hc. by apply prefix_app_r.
Qed.

(** ** User messages *)

Lemma content_results (l l' : list Item) :
  Forall2 same_but_content l l' →
  map tool_call_id (result_run l').1 = map tool_call_id (result_run l).1
  ∧ Forall2 same_but_content (result_run l).2 (result_run l').2.
Proof.
  induction 1 as [|i i' l l' Hi Hl [IH1 IH2]]; [by split|].
  destruct Hi as [->|(r & content & -> & ->)].
  - destruct i as [| | |r| |]; simpl; try (split; [done|]; constructor; [by left|done]).
    destruct (result_run l), (result_run l'). simpl in *. by rewrite IH1.
  - simpl. destruct (result_run l), (result_run l'). simpl in *. by rewrite IH1.
Qed.

Lemma unanswered_ids (c : Assistant) (run run' : list ToolResult) :
  map tool_call_id run' = map tool_call_id run → unanswered c run' = unanswered c run.
Proof. unfold unanswered. by intros ->. Qed.

Lemma content_dangling (l l' : list Item) :
  Forall2 same_but_content l l' → has_dangling_tool_calls l' = has_dangling_tool_calls l.
Proof.
  induction 1 as [|i i' l l' Hi Hl IH]; [done|]. destruct (content_results _ _ Hl) as [Hr _].
  destruct Hi as [->|(r & content & -> & ->)]; simpl; [|by rewrite IH].
  destruct i; simpl; rewrite ?IH; try done. by rewrite (unanswered_ids _ _ _ Hr).
Qed.

Lemma content_run (run : list ToolResult) (l : list Item) :
  Forall2 same_but_content (map IToolResult run) l →
  ∃ run', l = map IToolResult run' ∧ map tool_call_id run' = map tool_call_id run.
Proof.
  revert l. induction run as [|r run IH]; intros l; inversion_clear 1 as [|? i ? l' Hi Hl]; [by exists []|].
  destruct (IH _ Hl) as (run' & -> & E). destruct Hi as [->|(r' & content & [= <-] & ->)].
  - exists (r :: run'). simpl. by rewrite E.
  - exists (with_result_content r content :: run'). simpl. by rewrite E.
Qed.

Lemma content_paired (l l' : list Item) : Forall2 same_but_content l l' → well_paired l → well_paired l'.
Proof.
  intros Hl Hw. revert l' Hl. induction Hw as [|c run rest Hp Hw IH|item rest Hr Ha Hw IH]; intros l' Hl.
  - inversion_clear Hl. constructor.
  - inversion_clear Hl as [|? i ? k Hi Hk]. apply Forall2_app_inv_l in Hk as (k1 & k2 & Hk1 & Hk2 & ->).
    apply content_run in Hk1 as (run' & -> & E). destruct Hi as [->|(? & ? & ? & _)]; [|done].
    constructor; [by rewrite E|by apply IH].
  - inversion_clear Hl as [|? i ? k Hi Hk]. destruct Hi as [->|(? & ? & -> & _)]; [|done]. constructor; [done..|by apply IH].
Qed.

Lemma strip_go_app (ids : gset bytes) (l k : list Item) :
  (strip_go ids (l ++ k)).1 = [] → (strip_go ids l).1 = [].
Proof.
  revert ids. induction l as [|item l IH]; intros ids; [done|]. destruct item as [| |c|r| |]; simpl.
  4: { specialize (IH ids). destruct (strip_go ids (l ++ k)), (strip_go ids l). simpl in *. by destruct (bool_decide _). }
  3: specialize (IH (ids_of c)); destruct (strip_go (ids_of c) (l ++ k)), (strip_go (ids_of c) l); exact IH.
  all: specialize (IH ∅); destruct (strip_go ∅ (l ++ k)), (strip_go ∅ l); exact IH.
Qed.

Lemma strip_go_none (ids : gset bytes) (l : list Item) : (strip_go ids l).1 = [] → (strip_go ids l).2 = l.
Proof.
  revert ids. induction l as [|item l IH]; intros ids; [done|]. destruct item as [| |c|r| |]; simpl.
  4: { specialize (IH ids). destruct (strip_go ids l). simpl in *. destruct (bool_decide _); [|done]. simpl. intros. by rewrite IH. }
  3: specialize (IH (ids_of c)); destruct (strip_go (ids_of c) l); simpl in *; intros; by rewrite IH.
  all: specialize (IH ∅); destruct (strip_go ∅ l); simpl in *; intros; by rewrite IH.
Qed.

Lemma placed_prefix (l k : list Item) : placed (l ++ k) → placed l.
Proof.
  unfold placed, strip_displaced_tool_results. intros E. assert ((strip_go ∅ l).1 = []) as E1.
  { apply (strip_go_app _ l k). by rewrite E. }
  pose proof (strip_go_none _ _ E1) as E2. destruct (strip_go ∅ l). simpl in *. by subst.
Qed.

Lemma pop_prefix a : ∃ popped, conv a = conv (pop_stranded_continue_reminder a) ++ popped.
Proof.
  unfold pop_stranded_continue_reminder. destruct (negb _); [exists []; by rewrite app_nil_r|].
  destruct (rewrite_history IntegrityRepair _ a) as [[a' n] ack] eqn:E. apply rewrite_view in E as (_ & -> & _).
  destruct (pop_pass_spec (conv a)) as (popped & E & _). by exists popped.
Qed.

Lemma integrity_pass_paired (reason : DanglingToolCallReason) items :
  has_dangling_tool_calls (integrity_pass reason ∅ items).2 = false
  ∧ (NoDup (call_id_list items) → placed items → well_paired (integrity_pass reason ∅ items).2).
Proof.
  unfold integrity_pass. split.
  - destruct (repair_tool_call_ids items) as [n l]. destruct (dedup_duplicate_tool_results l) as [m k].
    pose proof (dangling_answered (answer_or_synthesize reason) ∅ k) as Hd.
    by destruct (repair_dangling_tool_calls_with _ _ k) as [[s j] r].
  - intros Hnd Hp. rewrite repair_fixed by done. pose proof (integrity_paired (answer_or_synthesize reason) ∅ items Hnd Hp) as Hw.
    destruct (dedup_duplicate_tool_results items) as [m k]. simpl in Hw.
    by destruct (repair_dangling_tool_calls_with _ _ k) as [[s j] r].
Qed.

(** The history in front of its last item. *)
Definition in_front (items : list Item) : list Item := take (length items - 1) items.

(** A user message never lands on an open call.  Whatever the turn before left
    behind, the history in front of the pushed message answers every call; when its
    results stood with their calls it is one a provider accepts; and the message is
    the last item, as it was sent. *)
Theorem user_message_after_answered_calls item (reason : DanglingToolCallReason) a :
  let history := conversation (state (push_user_message_with_repair_reason item reason a)) in
  let before := in_front history in
  has_dangling_tool_calls before = false
  ∧ (NoDup (call_id_list (conversation (state a))) → placed (conversation (state a)) → well_paired before)
  ∧ (is_assistant item = false → is_result item = false → last history = Some item).
Proof.
  cbv zeta. change (conversation (state (push_user_message_with_repair_reason item reason a)))
    with (conv (push_user_message_with_repair_reason item reason a)).
  destruct (push_user_view item reason a) as (item' & Hf & Hi).
  set (history := conv (push_user_message_with_repair_reason item reason a)) in *.
  apply Forall2_app_inv_l in Hf as (before & tail & Hb & Ht & Eh).
  apply Forall2_cons_inv_l in Ht as (last_item & rest & Hlast & Hrest & ->). apply Forall2_nil_inv_l in Hrest as ->.
  unfold in_front. rewrite Eh, length_app. change (length [last_item]) with 1. rewrite Nat.add_sub, take_app_length.
  destruct (ensure_effect True reason ∅ (if strands_reminder item then pop_stranded_continue_reminder a else a)) as (_ & Hc & _).
  unfold repaired, ensure_conversation_integrity_with_reason in Hb. rewrite Hc in Hb.
  set (a0 := if strands_reminder item then pop_stranded_continue_reminder a else a) in *.
  destruct (integrity_pass_paired reason (conv a0)) as [Hd Hw]. split_and!.
  - by rewrite (content_dangling _ _ Hb).
  - intros Hnd Hp. apply (content_paired _ _ Hb), Hw; unfold a0; destruct (strands_reminder item); try done;
      destruct (pop_prefix a) as [popped E]; change (conversation (state a)) with (conv a) in *; rewrite E in Hnd, Hp;
      [by eapply prefix_ids|by eapply placed_prefix].
  - intros H1' H2'. specialize (Hi H1' H2') as ->. rewrite last_snoc. f_equal.
    destruct Hlast as [->|(r & content & -> & _)]; done.
Qed.

End ChatTheorems.

(** ** Instances *)

#[local] Existing Instance demo_payloads.

#[local] Instance demo_sizes : JsonSizes :=
  {| json_str s := byte_len s + 2; json_part p := byte_len (default [] (part_text p)) + 25; json_items l := N.of_nat (length l) |}%N.

#[local] Instance demo_opaque : Opaque :=
  {| SamplingRest := unit; Tool := unit; Trace := unit; model_id _ := None; model_fingerprint _ := None |}.

Definition demo_config : SamplingConfig := mkSampling $"model" 1000%N None tt.

(** A session over the demonstration history, and a turn in it. *)
Definition demo_actor : @Actor _ _ (list Item) := spawn demo_conversation demo_config default_pruning demo_conversation.

Definition demo_switches : list ChatStateCommand :=
  [PushUserMessage (user $"third question"); AppendWorkingDirectorySwitchAndAck $"moved" 1;
   PushAssistantResponse (IAssistant demo_calling); AppendWorkingDirectorySwitchAndAck $"moved again" 1].

Definition demo_turn : list ChatStateCommand :=
  [PushUserMessage (user $"third question"); PushModelOutputAndAck (IAssistant demo_calling) true;
   ReplaceConversation [system $"rules"; user_meta $"summary"] true; AppendWorkingDirectorySwitchAndAck $"moved" 1;
   RepairHistory true None; PushToolResult (tool_result $"c1" $"late")].

Lemma disk_follows_memory_witness :
  let a := run demo_switches demo_actor in
  stored (persistence a) = conversation (state a) ∧ length (conversation (state a)) = 9.
Proof.
  split; [|by vm_compute].
  destruct (disk_follows_memory demo_conversation demo_config default_pruning demo_conversation) as (_ & _ & H & _); [done|].
  apply (H demo_switches). cbn [demo_switches in_step]. repeat (first [by vm_compute|right; split]).
Defined.

(** A restored snapshot parts memory and disk; the next replacement joins them. *)
Example restore_parts_memory_and_disk :
  let a := run [PushUserMessage (user $"third question"); RestoreSnapshot (snapshot (state demo_actor))] demo_actor in
  stored (persistence a) ≠ conversation (state a)
  ∧ let b := run [ReplaceConversation [system $"rules"] false] a in stored (persistence b) = conversation (state b).
Proof. split; by vm_compute. Qed.

Lemma turn_capture_exact_witness :
  captured_turn (run demo_turn (begin_turn_capture demo_actor))
  = Some (mkTurnCapture (all_pushed demo_turn (begin_turn_capture demo_actor)) true)
  ∧ length (all_pushed demo_turn (begin_turn_capture demo_actor)) = 4.
Proof.
  split; [|by vm_compute]. apply (turn_capture_exact demo_turn demo_actor).
  cbn [demo_turn all_keep_turn keeps_turn]. split_and!; first [by left|by vm_compute].
Defined.

(** A turn whose call is still open when the repair comes. *)
Definition demo_open_turn : @Actor _ _ (list Item) :=
  run [PushModelOutput (IAssistant demo_calling)] (begin_turn_capture demo_actor).

Lemma repair_history_drops_turn_witness :
  captured_turn (handle_command (RepairHistory false None) demo_open_turn).1 = Some (mkTurnCapture [] false)
  ∧ captured demo_open_turn ≠ Some [].
Proof.
  split; [|by vm_compute].
  pose proof (repair_history_drops_turn None demo_open_turn (mkCapture 6 [] false) eq_refl eq_refl) as Hr.
  destruct (repair_history (conversation (state demo_open_turn))) as [report items] eqn:E.
  apply Hr; [by vm_compute; lia|]. assert (report = (repair_history (conversation (state demo_open_turn))).1) as -> by (by rewrite E).
  by vm_compute.
Defined.
