(* ===== verification/RequestLaws.v ===== *)
(** * Laws of pruning, reminders and token totals

    When an old tool result is cleared from the retained history, that re-seeding a
    token total after a rewrite never raises it, and what the queries and the memory
    reminder do with a history. *)

From S2P Require Import Prelude RustStr ToolCallIds History HistoryLaws Tokens StrFind Tags.
From S2P Require Import Compaction CompactionLaws Persistence Usage ImageBudget Tokens RequestBuilder.
From S2P Require Import ChatState ChatCommands ChatStateLaws ChatTheorems.

#[local] Open Scope nat_scope.

Section RequestLaws.
Context `{Payloads} `{!JsonSizes} `{!Opaque} {P : Type} `{!ChatPersistence P} `{!PersistedHistory P}.

Abbreviation Actor := (@Actor _ _ P).
Implicit Types (a : Actor) (item : Item) (items : list Item).

(** ** The age of a result *)

Lemma user_item_count_cons item items :
  user_item_count (item :: items) = (if is_user item then 1 else 0) + user_item_count items.
Proof. unfold user_item_count. simpl. by destruct (is_user item). Qed.

Lemma age_walk_lookup {A} (f : nat → ToolResult → A * ToolResult) (n : nat) (seen : bool) items (j : nat) :
  (age_walk f n seen items).2 !! j
  = match items !! j with
    | Some (IToolResult r) =>
        let users := user_item_count (take j items) in
        Some (IToolResult (f (n + (if seen then users else pred users)) r).2)
    | other => other
    end.
Proof.
  revert n seen j. induction items as [|item items IH]; intros n seen j; [done|].
  destruct j as [|j].
  - destruct item as [|u| |r| |]; simpl; try (by destruct (age_walk f _ _ items)).
    change (user_item_count []) with 0. replace (n + (if seen then 0 else 0)) with n by (destruct seen; lia).
    destruct (f n r). by destruct (age_walk f n seen items).
  - cbn [take]. rewrite user_item_count_cons. destruct item as [|u| |r| |]; cbn [age_walk is_user].
    all: try (specialize (IH n seen j); destruct (age_walk f n seen items); exact IH).
    + specialize (IH (if seen then n + 1 else n) true j). destruct (age_walk f _ true items). simpl in *. rewrite IH.
      destruct (items !! j) as [[| | |r| |]|]; try done. do 2 f_equal.
      replace ((if seen then n + 1 else n) + user_item_count (take j items))
        with (n + (if seen then S (user_item_count (take j items)) else user_item_count (take j items)))
        by (destruct seen; lia). done.
    + specialize (IH n seen j). destruct (f n r). destruct (age_walk f n seen items). exact IH.
Qed.

Lemma user_item_count_reverse items : user_item_count (reverse items) = user_item_count items.
Proof.
  induction items as [|item items IH]; [done|]. rewrite reverse_cons, user_item_count_cons, <-IH.
  unfold user_item_count. rewrite List.filter_app, length_app. simpl. destruct (is_user item); simpl; lia.
Qed.

(** What the pruning makes of a result: only the user items behind it count. *)
Lemma hard_clear_lookup (threshold : nat) items (k : nat) (r : ToolResult) :
  items !! k = Some (IToolResult r) →
  (hard_clear threshold items).2 !! k
  = Some (IToolResult (clear_result threshold (pred (user_item_count (drop (S k) items))) r).2).
Proof.
  intros Hk. pose proof (lookup_lt_Some _ _ _ Hk) as Hlt. unfold hard_clear.
  pose proof (age_walk_lookup (clear_result threshold) 0 false (reverse items) (length items - S k)) as Hw.
  rewrite reverse_lookup in Hw by lia. replace (length items - S (length items - S k)) with k in Hw by lia. rewrite Hk in Hw.
  rewrite take_reverse in Hw. replace (length items - (length items - S k)) with (S k) in Hw by lia.
  rewrite user_item_count_reverse in Hw. simpl in Hw.
  assert (length (age_walk (clear_result threshold) 0 false (reverse items)).2 = length items) as Hlen.
  { pose proof (age_walk_content (clear_result threshold) 0 false (reverse items) (clear_result_content threshold)) as Hf.
    apply Forall2_length in Hf. by rewrite length_reverse in Hf. }
  destruct (age_walk _ _ _ _) as [out l]. simpl in *. rewrite reverse_lookup by lia. by rewrite Hlen.
Qed.

Lemma user_item_count_split items (k : nat) :
  user_item_count items = user_item_count (take k items) + user_item_count (drop k items).
Proof. unfold user_item_count. by rewrite <-length_app, <-List.filter_app, take_drop. Qed.

Lemma filter_sub (p q : Item → bool) items :
  (∀ i, p i = true → q i = true) → length (List.filter p items) ≤ length (List.filter q items).
Proof.
  intros Hpq. induction items as [|i items IH]; [done|]. simpl. specialize (Hpq i).
  destruct (p i); [rewrite Hpq by done; simpl; lia|]. destruct (q i); simpl; lia.
Qed.

(** What the command's pruning does to one result. *)
Lemma prune_lookup a (k : nat) (r : ToolResult) :
  conv a !! k = Some (IToolResult r) →
  conv (prune_retained_conversation a).1 !! k
  = Some (IToolResult
      (if negb (enabled (pruning_config a)) then r
       else if prompt_index (state a) <? hard_clear_age_turns (pruning_config a) then r
       else (clear_result (effective_threshold (pruning_config a) (prompt_index (state a)) (conv a))
               (pred (user_item_count (drop (S k) (conv a)))) r).2)).
Proof.
  intros Hk. unfold prune_retained_conversation. destruct (negb _); [done|]. destruct (_ <? _); [done|].
  destruct (rewrite_history RetainedPrune _ a) as [[a' n] ack] eqn:E. apply rewrite_view in E as (_ & Hc & _). simpl.
  rewrite Hc. by apply hard_clear_lookup.
Qed.

(** A tool result is not cleared from the retained history before the configured
    number of real turns has gone by: as long as every counted prompt is still in the
    history, more than that many real user messages stand behind it, however many
    reminders and notes the session added. *)
Theorem retained_prune_waits (real : Item → bool) a (k : nat) (r r' : ToolResult) :
  (∀ i, real i = true → is_user i = true) →
  prompt_index (state a) ≤ length (List.filter real (conversation (state a))) →
  0 < hard_clear_age_turns (pruning_config a) →
  conversation (state a) !! k = Some (IToolResult r) →
  conversation (state (prune_retained_conversation a).1) !! k = Some (IToolResult r') → r' ≠ r →
  hard_clear_age_turns (pruning_config a) < length (List.filter real (drop (S k) (conversation (state a)))).
Proof.
  intros Hreal Hp Hh Hk Hk' Hne. pose proof (prune_lookup a k r Hk) as Hl. unfold conv in Hl. rewrite Hk' in Hl.
  injection Hl as Hr. destruct (negb _); [done|]. destruct (_ <? _); [done|]. unfold clear_result in Hr.
  destruct (Nat.ltb_spec (pred (user_item_count (drop (S k) (conversation (state a)))))
    (effective_threshold (pruning_config a) (prompt_index (state a)) (conversation (state a)))) as [|Hage]; [done|].
  unfold effective_threshold in Hage. rewrite (user_item_count_split _ (S k)) in Hage.
  set (c := conversation (state a)) in *. set (tail := drop (S k) c) in *. set (front := take (S k) c) in *.
  assert (length (List.filter real c) = length (List.filter real front) + length (List.filter real tail)) as Hsplit
    by (unfold front, tail; by rewrite <-length_app, <-List.filter_app, take_drop).
  pose proof (filter_sub real is_user front Hreal). pose proof (filter_sub real is_user tail Hreal).
  unfold user_item_count in *. lia.
Qed.

(** Once a compaction has dropped counted prompts that bound is gone: when the
    prompts ever counted outnumber the user items left, a result is cleared as soon as
    more than the configured number of user items of any kind stand behind it. *)
Theorem prune_counts_reminders a (k : nat) (r : ToolResult) :
  enabled (pruning_config a) = true → hard_clear_age_turns (pruning_config a) ≤ prompt_index (state a) →
  user_item_count (conversation (state a)) ≤ prompt_index (state a) →
  conversation (state a) !! k = Some (IToolResult r) →
  hard_clear_age_turns (pruning_config a) < user_item_count (drop (S k) (conversation (state a))) →
  conversation (state (prune_retained_conversation a).1) !! k
  = Some (IToolResult (with_result_content r HARD_CLEAR_PLACEHOLDER)).
Proof.
  intros He Hh Hu Hk Ht. pose proof (prune_lookup a k r Hk) as Hl. unfold conv in Hl. rewrite Hl, He. simpl.
  rewrite (proj2 (Nat.ltb_ge _ _)) by done. unfold clear_result.
  rewrite (proj2 (Nat.ltb_ge _ _)) by (unfold effective_threshold; lia). do 2 f_equal.
  destruct (result_content r =b HARD_CLEAR_PLACEHOLDER) eqn:E; [|done]. simpl. apply beq_true in E. destruct r. simpl in *. by subst.
Qed.

(** ** Token totals *)

Lemma reseed_le (s : ChatState) (base : N) :
  ((0 < ChatState.total_tokens s → reseed_total_tokens s base ≤ ChatState.total_tokens s)
   ∧ (ChatState.total_tokens s = 0 → reseed_total_tokens s base = base))%N.
Proof.
  unfold reseed_total_tokens. split.
  - intros Hp. rewrite (proj2 (N.ltb_lt _ _)) by done. lia.
  - intros ->. done.
Qed.

Definition total a : N := ChatState.total_tokens (state a).
Definition since a : N := estimated_tokens_since_model (state a).

Lemma replace_total items (c : bool) a :
  let a' := replace_conversation items c a in
  total a' = reseed_total_tokens (state a) (estimate_conversation_tokens (conv a')) ∧ since a' = 0%N
  ∧ estimate_at_last_response (state a') = estimate_conversation_tokens (conv a').
Proof.
  simpl. unfold replace_conversation, mark_compaction, snapshot_turn_slice, rebase_turn_capture_offset.
  destruct (repair_tool_call_ids items) as [n l]. unfold total, since, conv. simpl.
  destruct (turn_capture (state a)) eqn:E, c; simpl; rewrite ?E; simpl; rewrite ?E; done.
Qed.

Lemma system_head_cases (prompt : bytes) a :
  (replace_system_head prompt a).1 = a ∨ ∃ items, (replace_system_head prompt a).1 = replace_conversation items false a.
Proof.
  unfold replace_system_head. destruct (replace_or_insert_system_head (conv a) prompt) as [changed items].
  destruct (conv a) as [|[sys| | | | |] rest]; try (right; by exists items).
  destruct (canonical_system_prompt_eq _ _); [by left|right; by exists items].
Qed.

(** The commands that rewrite the history. *)
Definition rewrites (cmd : ChatStateCommand) : bool :=
  match cmd with
  | ReplaceConversation _ _ | ReplaceSystemHead _ | RepairHistory _ _ | TruncateToPromptIndex _ => true
  | _ => false
  end.

(** Rewriting the history never makes the session look fuller: a known token
    total can only go down, so that a compaction, a rewind or a repair does not
    trigger the next compaction; and what was counted since the last response is
    either kept with the total or folded into the new one. *)
Theorem rewrites_never_raise_total (cmd : ChatStateCommand) a :
  rewrites cmd = true → (0 < ChatState.total_tokens (state a))%N →
  let s := state (handle_command cmd a).1 in
  (ChatState.total_tokens s ≤ ChatState.total_tokens (state a))%N
  ∧ (estimated_tokens_since_model s = 0%N
     ∨ ChatState.total_tokens s = ChatState.total_tokens (state a)
       ∧ estimated_tokens_since_model s = estimated_tokens_since_model (state a)).
Proof.
  intros Hr Hpos. simpl.
  assert (∀ items c b, total b = total a → (total (replace_conversation items c b) ≤ total a)%N
    ∧ since (replace_conversation items c b) = 0%N) as Hrep.
  { intros items c b Hb. destruct (replace_total items c b) as (-> & -> & _). split; [|done]. rewrite <-Hb.
    apply reseed_le. unfold total in Hb. by rewrite Hb. }
  destruct cmd; try done; cbn [handle_command].
  - destruct (Hrep items is_compaction a eq_refl). split; [done|by left].
  - destruct (default false turn_active); [split; [done|by right]|]. unfold repair_history_command.
    destruct dry_run; [split; [done|by right]|]. destruct (repair_history (conv a)) as [report items].
    destruct (changed report); [|split; [done|by right]]. destruct (Hrep items false (put_conv [] a) eq_refl). split; [done|by left].
  - pose proof (system_head_cases prompt a) as Hc. destruct (replace_system_head prompt a) as [a' changed].
    simpl in *. destruct Hc as [->|[items ->]]; [split; [done|by right]|]. destruct (Hrep items false a eq_refl).
    split; [done|by left].
  - unfold truncate_to_prompt_index. destruct (_ <=? _); [split; [done|by right]|]. simpl. split; [|by left].
    unfold total in *. match goal with |- (reseed_total_tokens ?s ?b ≤ _)%N => apply (reseed_le s b) end. exact Hpos.
Qed.

(** ** Queries *)

(** A leading image does not end the search for the first user text. *)
Lemma first_user_text_scans_on (url : bytes) (parts : list ContentPart) items :
  get_first_user_text (user_with_parts (Image url :: parts) :: items) = get_first_user_text items.
Proof. done. Qed.

End RequestLaws.

(** ** Instances *)

#[local] Existing Instance demo_payloads.
#[local] Existing Instance demo_sizes.
#[local] Existing Instance demo_opaque.

(** A result with [n] prompts behind it, in a session that counts [index] prompts and
    clears results two turns old. *)
Definition demo_aged (n index : nat) (prompt : Item) : @Actor _ _ (list Item) :=
  let pruning := mkPruning true 3 4000 1500 1500 2 in
  let history := [user $"first"; IAssistant demo_calling; tool_result $"c1" $"contents"] ++ replicate n prompt in
  with_state (set_prompt index []) (spawn history demo_config pruning history).

Lemma retained_prune_waits_witness :
  2 < length (List.filter (has_reason Human) (drop 3 (conversation (state (demo_aged 3 4 (user $"next")))))).
Proof.
  apply (retained_prune_waits (has_reason Human) (demo_aged 3 4 (user $"next")) 2
           (mkResult $"c1" $"contents" []) (mkResult $"c1" HARD_CLEAR_PLACEHOLDER [])).
  - by intros [].
  - by vm_compute; lia.
  - by vm_compute; lia.
  - by vm_compute.
  - by vm_compute.
  - done.
Defined.

(** Three reminders clear a result no real message followed. *)
Lemma prune_counts_reminders_witness :
  conversation (state (prune_retained_conversation (demo_aged 3 50 (system_reminder $"note"))).1) !! 2
  = Some (tool_result $"c1" HARD_CLEAR_PLACEHOLDER).
Proof.
  apply (prune_counts_reminders (demo_aged 3 50 (system_reminder $"note")) 2 (mkResult $"c1" $"contents" []));
    by vm_compute; try lia.
Defined.

Lemma rewrites_never_raise_total_witness :
  let s := state (handle_command (ReplaceConversation [system $"rules"; user_meta $"summary"] true) demo_actor).1 in
  (ChatState.total_tokens s ≤ ChatState.total_tokens (state demo_actor))%N
  ∧ (estimated_tokens_since_model s = 0%N
     ∨ ChatState.total_tokens s = ChatState.total_tokens (state demo_actor)
       ∧ estimated_tokens_since_model s = estimated_tokens_since_model (state demo_actor)).
Proof.
  apply (rewrites_never_raise_total (ReplaceConversation [system $"rules"; user_meta $"summary"] true) demo_actor);
    [done|by vm_compute].
Defined.
