(* ===== verification/IpAddr.v ===== *)
(** * Text of IP addresses

    [std::net]: parsing an [Ipv6Addr] with [str::parse] and printing IPv4 and
    IPv6 addresses, as the URL matcher of the managed policy uses them. *)

From stdpp Require Import pretty.
From S2P Require Import Prelude RustStr StrFind.

(** Octets of an IPv4 address, segments of an IPv6 address. *)
Inductive IpAddr := V4 (octets : list N) | V6 (segments : list N).

#[export] Instance IpAddr_eq_dec : EqDecision IpAddr.
Proof. solve_decision. Defined.

(** ** Reading *)

Definition hex_digit (a : ascii) : option N :=
  if is_ascii_digit a then Some (N.of_nat (code a - 48))
  else if (97 <=? code a) && (code a <=? 102) then Some (N.of_nat (code a - 87))
  else if (65 <=? code a) && (code a <=? 70) then Some (N.of_nat (code a - 55))
  else None.

Definition dec_digit (a : ascii) : option N :=
  if is_ascii_digit a then Some (N.of_nat (code a - 48)) else None.

(** The digits read so far: value, count, rest; [None] on overflow. *)
Fixpoint read_digits (digit : ascii → option N) (radix bound acc : N) (count : nat) (s : bytes)
  : option (N * nat * bytes) :=
  match s with
  | [] => Some (acc, count, [])
  | a :: r =>
      match digit a with
      | None => Some (acc, count, s)
      | Some d =>
          let acc := (acc * radix + d)%N in
          if (acc <? bound)%N then read_digits digit radix bound acc (S count) r else None
      end
  end.

Definition read_number (digit : ascii → option N) (radix bound : N) (max_digits : nat)
    (allow_zero_prefix : bool) (s : bytes) : option (N * bytes) :=
  let has_leading_zero := match s with a :: _ => bool_decide (a = "0"%char) | [] => false end in
  '(n, count, rest) ← read_digits digit radix bound 0 0 s;
  if max_digits <? count then None
  else if count =? 0 then None
  else if negb allow_zero_prefix && has_leading_zero && (1 <? count) then None
  else Some (n, rest).

(** [read_separator]: the separator comes before every item but the first. *)
Definition read_separator {A} (sep : ascii) (index : nat) (inner : bytes → option (A * bytes)) (s : bytes)
  : option (A * bytes) :=
  match index with
  | 0 => inner s
  | S _ => match s with
           | a :: r => if bool_decide (a = sep) then inner r else None
           | [] => None
           end
  end.

Fixpoint read_octets (n index : nat) (s : bytes) : option (list N * bytes) :=
  match n with
  | 0 => Some ([], s)
  | S n =>
      '(o, s) ← read_separator "."%char index (read_number dec_digit 10 256 3 false) s;
      '(os, s) ← read_octets n (S index) s;
      Some (o :: os, s)
  end.

Definition read_ipv4_addr (s : bytes) : option (list N * bytes) := read_octets 4 0 s.

Definition ipv4_groups (o : list N) : list N :=
  match o with
  | [a; b; c; d] => [(a * 256 + b)%N; (c * 256 + d)%N]
  | _ => []
  end.

(** [read_groups] into [limit] slots from index [i]: the groups read, whether an
    embedded IPv4 address ended them, and the rest. *)
Fixpoint read_groups (left i : nat) (s : bytes) : list N * bool * bytes :=
  match left with
  | 0 => ([], false, s)
  | S left' =>
      match (if 1 <? left then read_separator ":"%char i read_ipv4_addr s else None) with
      | Some (o, s) => (ipv4_groups o, true, s)
      | None =>
          match read_separator ":"%char i (read_number hex_digit 16 65536 4 true) s with
          | None => ([], false, s)
          | Some (g, s) => let '(gs, v4, s) := read_groups left' (S i) s in (g :: gs, v4, s)
          end
      end
  end.

Definition read_ipv6_addr (s : bytes) : option (list N * bytes) :=
  let '(head, head_ipv4, s) := read_groups 8 0 s in
  if length head =? 8 then Some (head, s)
  else if head_ipv4 then None
  else match strip_prefix $"::" s with
       | None => None
       | Some s =>
           let '(tail, _, s) := read_groups (8 - (length head + 1)) 0 s in
           Some (head ++ replicate (8 - length head - length tail) 0%N ++ tail, s)
       end.

(** [str::parse::<Ipv6Addr>()] *)
Definition parse_ipv6 (s : bytes) : option (list N) :=
  '(segments, rest) ← read_ipv6_addr s;
  if rest =b [] then Some segments else None.

(** ** Printing *)

Definition hex_char (n : N) : ascii :=
  ascii_of_nat (if (n <? 10)%N then 48 + N.to_nat n else 87 + N.to_nat n).

(** [{:x}] of a 16-bit integer *)
Definition hex_u16 (n : N) : bytes :=
  let digits := [(n / 4096)%N; (n / 256 mod 16)%N; (n / 16 mod 16)%N; (n mod 16)%N] in
  map hex_char (match digits with
                | [0%N; 0%N; 0%N; d] => [d]
                | [0%N; 0%N; c; d] => [c; d]
                | [0%N; b; c; d] => [b; c; d]
                | _ => digits
                end).

Definition show_ipv4 (octets : list N) : bytes := join $"." (map show_decimal octets).

(** The first longest run of zero segments, as start and length. *)
Fixpoint zero_run (i : nat) (segments : list N) (longest current : nat * nat) : nat * nat :=
  match segments with
  | [] => longest
  | g :: r =>
      if (g =? 0)%N then
        let current := (if current.2 =? 0 then i else current.1, S current.2) in
        zero_run (S i) r (if longest.2 <? current.2 then current else longest) current
      else zero_run (S i) r longest (0, 0)
  end.

Definition show_groups (segments : list N) : bytes := join $":" (map hex_u16 segments).

(** [to_ipv4_mapped] *)
Definition mapped_ipv4 (segments : list N) : option (list N) :=
  match segments with
  | [0%N; 0%N; 0%N; 0%N; 0%N; 65535%N; a; b] =>
      Some [(a / 256)%N; (a mod 256)%N; (b / 256)%N; (b mod 256)%N]
  | _ => None
  end.

Definition show_ipv6 (segments : list N) : bytes :=
  match mapped_ipv4 segments with
  | Some octets => $"::ffff:" ++ show_ipv4 octets
  | None =>
      let '(start, len) := zero_run 0 segments (0, 0) (0, 0) in
      if 1 <? len then show_groups (take start segments) ++ $"::" ++ show_groups (drop (start + len) segments)
      else show_groups segments
  end.

(** [IpAddr::to_canonical] *)
Definition to_canonical (a : IpAddr) : IpAddr :=
  match a with
  | V4 _ => a
  | V6 segments => match mapped_ipv4 segments with Some octets => V4 octets | None => a end
  end.

(** ** Examples *)

Example parse_ipv6_forms :
  parse_ipv6 $"::1" = Some [0; 0; 0; 0; 0; 0; 0; 1]%N
  ∧ parse_ipv6 $"2001:0db8::1:443" = Some [8193; 3512; 0; 0; 0; 0; 1; 1091]%N
  ∧ parse_ipv6 $"::ffff:10.0.0.1" = Some [0; 0; 0; 0; 0; 65535; 2560; 1]%N
  ∧ parse_ipv6 $"1:2:3:4:5:6:7::" = Some [1; 2; 3; 4; 5; 6; 7; 0]%N
  ∧ parse_ipv6 $"1:2:3:4:5:6:7" = None ∧ parse_ipv6 $"1::2::3" = None
  ∧ parse_ipv6 $"12345::" = None ∧ parse_ipv6 $"::01.2.3.4" = None ∧ parse_ipv6 $"host" = None.
Proof. vm_compute. done. Qed.

Example show_ipv6_forms :
  show_ipv6 [8193; 3512; 0; 0; 0; 0; 1; 1091]%N = $"2001:db8::1:443"
  ∧ show_ipv6 [0; 0; 0; 0; 0; 0; 0; 1]%N = $"::1"
  ∧ show_ipv6 [0; 0; 0; 0; 0; 65535; 2560; 1]%N = $"::ffff:10.0.0.1"
  ∧ show_ipv6 [1; 0; 2; 3; 4; 5; 6; 7]%N = $"1:0:2:3:4:5:6:7".
Proof. vm_compute. done. Qed.
