(* ===== verification/UrlMatch.v ===== *)
(** * URL patterns of the managed policy

    [crates/codegen/xai-grok-permission-rules/src/managed_policy/url_match.rs]:
    how a server URL is matched against an allow pattern (a positive grant that
    fails closed) and against a deny pattern (which must never fail open). *)

From S2P Require Import Prelude RustStr StrFind IpAddr.

Inductive Host := Domain (d : bytes) | Ipv4Host (octets : list N) | Ipv6Host (segments : list N).

(** What [url::Url::parse] reports of a URL: scheme, host, the port unless it is
    the scheme's default, and the path. *)
Record UrlParts := mkUrl { url_scheme : bytes; url_host : option Host; url_port : option N; url_path : bytes }.

(** The [url] crate's parser and the [glob] crate: compiled patterns, and
    matching with the case-sensitivity flag ([*] spans separators). *)
Class UrlEnv := {
  UrlGlob : Type;
  UrlGlob_new : bytes → option UrlGlob;
  url_glob_matches : UrlGlob → bool → bytes → bool;
  Url_parse : bytes → option UrlParts;
  Host_parse : bytes → option Host;
}.

(** ** Pieces of a URL pattern *)

Definition colon : ascii := ":"%char.

Definition split_authority_path (s : bytes) : bytes * bytes :=
  match find_byte slash s with
  | Some i => (take i s, drop i s)
  | None => (s, [])
  end.

Definition split_scheme (s : bytes) : option bytes * bytes :=
  match split_once_str $"://" s with
  | Some (scheme, rest) => (Some scheme, rest)
  | None => (None, s)
  end.

Definition hex_val (a : ascii) : option nat := N.to_nat <$> hex_digit a.

Definition is_unreserved (n : nat) : bool :=
  is_ascii_alphanumeric (ascii_of_nat n) || contains_byte (ascii_of_nat n) $"-._~".

(** Every substituted byte is ASCII, so the final [from_utf8_lossy] changes nothing. *)
Fixpoint decode_unreserved_escapes (path : bytes) : bytes :=
  match path with
  | [] => []
  | b :: r =>
      match (if bool_decide (b = "%"%char) then
               match r with
               | hi_b :: lo_b :: rest =>
                   match hex_val hi_b, hex_val lo_b with
                   | Some hi, Some lo => Some (hi_b, lo_b, hi * 16 + lo)
                   | _, _ => None
                   end
               | _ => None
               end
             else None), r with
      | Some (hi_b, lo_b, decoded), _ :: _ :: rest =>
          (if is_unreserved decoded then [ascii_of_nat decoded]
           else ["%"%char; ascii_upper hi_b; ascii_upper lo_b])
          ++ decode_unreserved_escapes rest
      | _, _ => b :: decode_unreserved_escapes r
      end
  end.

(** The loop over the segments; [out] holds the segments kept, last first. *)
Fixpoint resolve_segments (out : list bytes) (segs : list bytes) : list bytes :=
  match segs with
  | [] => reverse out
  | seg :: r =>
      if seg =b $"." then resolve_segments out r
      else if seg =b $".." then resolve_segments (if 1 <? length out then tl out else out) r
      else resolve_segments (seg :: out) r
  end.

Definition resolve_pattern_dot_segments (path : bytes) : bytes :=
  if negb (contains_str $"/." path) then path
  else
    let last_seg := after_last slash path in
    let ends_dir := (last_seg =b $".") || (last_seg =b $"..") in
    let joined := join $"/" (resolve_segments [] (split_on slash path)) in
    let joined := if joined =b [] then $"/" else joined in
    if ends_dir && negb (ends_with $"/" joined) then joined ++ $"/" else joined.

Definition needs_encoding (b : ascii) : bool :=
  (128 <=? code b) || (code b <? 32) || (code b =? 127) || (code b =? 34) || contains_byte b $" #<>`{}".

(** Upper-case hexadecimal digit of a nibble. *)
Definition hex_upper (n : nat) : ascii := ascii_of_nat (if n <? 10 then 48 + n else 55 + n).

Definition encode_byte (b : ascii) : bytes :=
  if needs_encoding b then ["%"%char; hex_upper (code b / 16); hex_upper (code b mod 16)] else [b].

Definition encode_path (path : bytes) : bytes := flat_map encode_byte path.

Definition canonicalize_pattern_path (path : bytes) : bytes :=
  let path := resolve_pattern_dot_segments (decode_unreserved_escapes path) in
  if negb (existsb needs_encoding path) then path else encode_path path.

Definition scheme_default_port (scheme : bytes) : option bytes :=
  if mem scheme ["http"; "ws"] then Some $"80"
  else if mem scheme ["https"; "wss"] then Some $"443"
  else None.

Definition strip_pattern_default_port (authority scheme : bytes) : bytes :=
  match scheme_default_port scheme ≫= parse_u16 with
  | None => authority
  | Some default =>
      match rsplit_once colon authority with
      | Some (host, port) =>
          if ends_with $"]" host && bool_decide (parse_u16 port = Some default) then host else authority
      | None => authority
      end
  end.

Definition is_bracketed_ipv6 (authority : bytes) : bool :=
  match strip_prefix $"[" authority with
  | Some rest => match split_once "]"%char rest with
                 | Some (addr, _) => bool_decide (is_Some (parse_ipv6 addr))
                 | None => false
                 end
  | None => false
  end.

(** The two helpers of [ipv6_authorities_equal]. *)
Definition parse_bracketed (authority : bytes) : option (list N * bytes) :=
  rest ← strip_prefix $"[" authority;
  '(addr, suffix) ← split_once "]"%char rest;
  segments ← parse_ipv6 addr;
  Some (segments, suffix).

Definition ports_equal (a b : bytes) : bool :=
  match strip_prefix $":" a ≫= parse_u16, strip_prefix $":" b ≫= parse_u16 with
  | Some pa, Some pb => (pa =? pb)%N
  | _, _ => a =b b
  end.

Definition ipv6_authorities_equal (a b : bytes) : bool :=
  match parse_bracketed a, parse_bracketed b with
  | Some (addr_a, port_a), Some (addr_b, port_b) =>
      bool_decide (addr_a = addr_b) && ports_equal port_a port_b
  | _, _ => eq_ignore_ascii_case a b
  end.

Fixpoint collapse_go (prev_slash : bool) (path : bytes) : bytes :=
  match path with
  | [] => []
  | c :: r =>
      if bool_decide (c = slash) then (if prev_slash then collapse_go true r else c :: collapse_go true r)
      else c :: collapse_go false r
  end.

Definition collapse_empty_segments (path : bytes) : bytes := collapse_go false path.

(** ** The scheme of an allow pattern *)

Inductive AllowScheme := SchemeAny | SchemeLiteral (s : bytes) | SchemeNever.

Definition SUPPORTED_REMOTE_SCHEMES : list bytes := [$"http"; $"https"].

Definition AllowScheme_new (scheme : bytes) : AllowScheme :=
  if scheme =b $"*" then SchemeAny
  else if (scheme =b []) || contains_any $"*?[" scheme then SchemeNever
  else SchemeLiteral scheme.

Definition AllowScheme_matches (s : AllowScheme) (runtime_scheme : bytes) : bool :=
  match s with
  | SchemeAny => existsb (fun s => eq_ignore_ascii_case s runtime_scheme) SUPPORTED_REMOTE_SCHEMES
  | SchemeLiteral scheme => eq_ignore_ascii_case scheme runtime_scheme
  | SchemeNever => false
  end.

Record AllowPatternParts := mkParts {
  pt_scheme : option bytes;
  pt_authority : bytes;
  pt_bracketed_ipv6 : bool;
  pt_host : bytes;
  pt_port : option bytes;
  pt_path : bytes;
}.

Definition split_allow_pattern (pattern : bytes) : AllowPatternParts :=
  let '(scheme, rest) := split_scheme pattern in
  let '(authority, path) := split_authority_path rest in
  let authority := after_last "@"%char authority in
  let bracketed := is_bracketed_ipv6 authority in
  let '(host, port) :=
    if bracketed then (authority, None)
    else match rsplit_once colon authority with
         | Some (host, port) => (host, Some port)
         | None => (authority, None)
         end in
  mkParts scheme authority bracketed host port path.

Definition is_ascii (s : bytes) : bool := forallb (fun a => code a <? 128) s.

(** The host and path halves of a deny pattern. *)
Definition split_host_path (s : bytes) : option bytes * bytes :=
  let after_scheme := match split_once_str $"://" s with Some (_, rest) => rest | None => s end in
  let '(authority, path) := split_authority_path after_scheme in
  let authority := after_last "@"%char authority in
  let bracket_ipv6 :=
    rest ← strip_prefix $"[" authority;
    let content := match split_once "]"%char rest with Some (c, _) => c | None => rest end in
    if bool_decide (is_Some (parse_ipv6 content)) then Some content else None in
  let before_colon :=
    if bool_decide (is_Some (parse_ipv6 authority)) then authority
    else match split_once colon authority with Some (h, _) => h | None => authority end in
  let host :=
    match bracket_ipv6 with
    | Some content => content
    | None =>
        match rsplit_once colon authority with
        | Some (before_port, port) =>
            if negb (port =b []) && forallb is_ascii_digit port && bool_decide (is_Some (parse_u16 port))
               && bool_decide (is_Some (parse_ipv6 before_port))
            then before_port else before_colon
        | None => before_colon
        end
    end in
  let host := to_ascii_lowercase (trim_end_any $"." host) in
  (if host =b [] then None else Some host, path).

Section UrlMatch.
Context `{UrlEnv}.

(** ** The URL a client connects to *)

Record RuntimeUrl := mkRuntime { rt_scheme : bytes; rt_host : Host; rt_port : option N; rt_path : bytes }.

Definition RuntimeUrl_parse (url : bytes) : option RuntimeUrl :=
  parsed ← Url_parse url;
  host ← url_host parsed;
  Some (mkRuntime (url_scheme parsed) host (url_port parsed) (decode_unreserved_escapes (url_path parsed))).

Definition host_text (r : RuntimeUrl) : bytes :=
  match rt_host r with
  | Domain d => to_ascii_lowercase (trim_end_any $"." d)
  | Ipv4Host o => show_ipv4 o
  | Ipv6Host s => show_ipv6 s
  end.

Definition authority (r : RuntimeUrl) : bytes :=
  let host := match rt_host r with
              | Ipv6Host s => $"[" ++ show_ipv6 s ++ $"]"
              | _ => host_text r
              end in
  match rt_port r with
  | Some port => host ++ $":" ++ show_decimal port
  | None => host
  end.

(** ** Canonical pattern hosts *)

Definition canonicalize_label (label : bytes) : bytes :=
  if contains_any $"*?[" label || is_ascii label && negb (contains_byte "%"%char label)
  then to_ascii_lowercase label
  else match Host_parse label with
       | Some (Domain canonical) => canonical
       | _ => to_ascii_lowercase label
       end.

Definition canonicalize_pattern_host (host : bytes) : bytes :=
  let host := trim_end_any $"." host in
  if is_ascii host && negb (contains_byte "%"%char host) then to_ascii_lowercase host
  else join $"." (map canonicalize_label (split_on "."%char host)).

Definition parse_ip_host (host : bytes) : option IpAddr :=
  to_canonical <$>
    match parse_ipv6 host with
    | Some s => Some (V6 s)
    | None => match Host_parse host with
              | Some (Ipv4Host o) => Some (V4 o)
              | Some (Ipv6Host s) => Some (V6 s)
              | _ => None
              end
    end.

(** ** Allow patterns *)

Inductive AllowPath := PathAny | PathGlob (p : UrlGlob) | PathNever.

Definition AllowPath_new (canonical : bytes) : AllowPath :=
  if (canonical =b []) || (canonical =b $"/") then PathAny
  else match UrlGlob_new canonical with Some p => PathGlob p | None => PathNever end.

Definition AllowPath_matches (p : AllowPath) (url_path : bytes) : bool :=
  match p with
  | PathAny => true
  | PathGlob p => url_glob_matches p true url_path
  | PathNever => false
  end.

Inductive AllowAuthority :=
| BracketedIpv6 (a : bytes)
| HostPort (host : option UrlGlob) (port : option bytes).

Record CompiledAllow := mkAllow { al_scheme : AllowScheme; al_authority : AllowAuthority; al_path : AllowPath }.

(** [AllowUrlMatcher]: [None] grants nothing. *)
Definition AllowUrlMatcher : Type := option CompiledAllow.

Definition AllowUrlMatcher_new (pattern : bytes) : AllowUrlMatcher :=
  let parts := split_allow_pattern pattern in
  scheme ← pt_scheme parts;
  Some (mkAllow (AllowScheme_new scheme)
    (if pt_bracketed_ipv6 parts then BracketedIpv6 (pt_authority parts)
     else HostPort (UrlGlob_new (canonicalize_pattern_host (pt_host parts))) (pt_port parts))
    (AllowPath_new (canonicalize_pattern_path (pt_path parts)))).

Definition port_ok (pattern_port : option bytes) (runtime : RuntimeUrl) : bool :=
  match pattern_port, rt_port runtime with
  | None, None => true
  | None, Some _ => false
  | Some p, Some port => bool_decide (parse_u16 p = Some port)
  | Some p, None =>
      match scheme_default_port (rt_scheme runtime) with
      | Some default => bool_decide (parse_u16 p = parse_u16 default)
      | None => false
      end
  end.

Definition authority_matches (a : AllowAuthority) (runtime : RuntimeUrl) : bool :=
  match a with
  | BracketedIpv6 pat_authority =>
      ipv6_authorities_equal (strip_pattern_default_port pat_authority (rt_scheme runtime)) (authority runtime)
  | HostPort host port =>
      match host with
      | Some h => url_glob_matches h false (host_text runtime)
      | None => false
      end && port_ok port runtime
  end.

Definition AllowUrlMatcher_matches (m : AllowUrlMatcher) (url : bytes) : bool :=
  match m with
  | None => false
  | Some compiled =>
      match RuntimeUrl_parse url with
      | None => false
      | Some runtime =>
          AllowScheme_matches (al_scheme compiled) (rt_scheme runtime)
          && authority_matches (al_authority compiled) runtime
          && AllowPath_matches (al_path compiled) (rt_path runtime)
      end
  end.

(** ** Deny patterns *)

Inductive DenyHost := DenyHostGlob (p : UrlGlob) | DenyHostLiteral (canonical : bytes).

(** The error text and the pattern text of the source serve its log only. *)
Inductive DenyPath := HostOnly | DenyPathGlob (p : UrlGlob) | DenyPathBroken.

Record CompiledDeny := mkDeny { dn_ip : option IpAddr; dn_host : DenyHost; dn_path : DenyPath }.

Definition DenyUrlMatcher : Type := option CompiledDeny.

Definition DenyUrlMatcher_new (pattern : bytes) : DenyUrlMatcher :=
  match split_host_path pattern with
  | (None, _) => None
  | (Some pat_host, pat_path) =>
      let canonical_host := canonicalize_pattern_host pat_host in
      let host := match UrlGlob_new canonical_host with
                  | Some p => DenyHostGlob p
                  | None => DenyHostLiteral canonical_host
                  end in
      let pat_path := collapse_empty_segments (canonicalize_pattern_path pat_path) in
      let path := if (pat_path =b []) || (pat_path =b $"/") then HostOnly
                  else match UrlGlob_new pat_path with
                       | Some p => DenyPathGlob p
                       | None => DenyPathBroken
                       end in
      Some (mkDeny (parse_ip_host pat_host) host path)
  end.

Definition deny_host_matches (compiled : CompiledDeny) (url_host : bytes) : bool :=
  match dn_ip compiled, parse_ip_host url_host with
  | Some pat_ip, Some url_ip => bool_decide (pat_ip = url_ip)
  | _, _ => match dn_host compiled with
            | DenyHostGlob p => url_glob_matches p false url_host
            | DenyHostLiteral canonical => eq_ignore_ascii_case canonical url_host
            end
  end.

Definition deny_path_matches (path : DenyPath) (url_path : bytes) : bool :=
  match path with
  | HostOnly => true
  | DenyPathGlob p => url_glob_matches p false (collapse_empty_segments url_path)
  | DenyPathBroken => true
  end.

Definition DenyUrlMatcher_matches (m : DenyUrlMatcher) (url : bytes) : bool :=
  match m with
  | None => false
  | Some compiled =>
      match RuntimeUrl_parse url with
      | None => true
      | Some runtime =>
          deny_host_matches compiled (host_text runtime) && deny_path_matches (dn_path compiled) (rt_path runtime)
      end
  end.

(** What the lint of a deny pattern reports: the pattern can never match. *)
Definition dead_unicode_glob_label (host : bytes) : bool :=
  existsb (fun label => negb (is_ascii label) && contains_any $"*?[" label) (split_on "."%char host).

Definition unmatchable_deny_url (pattern : bytes) : bool :=
  match (split_host_path pattern).1 with
  | None => true
  | Some host =>
      bool_decide (UrlGlob_new (canonicalize_pattern_host host) = None) || dead_unicode_glob_label host
  end.

End UrlMatch.

(** ** Pattern paths are in the runtime's normal form *)

Definition dot_segment (w : bytes) : Prop := w = $"." ∨ w = $"..".

Definition no_dot_segments (path : bytes) : Prop := ∀ w, w ∈ split_on slash path → ¬ dot_segment w.

Lemma decode_slash (path : bytes) :
  starts_with $"/" path = true → starts_with $"/" (decode_unreserved_escapes path) = true.
Proof.
  rewrite !starts_with_true. intros [r ->]. simpl. by eexists.
Qed.

Lemma no_slash_dot (s : bytes) :
  contains_str $"/." s = false → ∀ w, w ∈ tl (split_on slash s) → ¬ dot_segment w.
Proof.
  induction s as [|a s IH]; intros Hc w; [intros H; by apply elem_of_nil in H|].
  simpl in Hc. apply orb_false_iff in Hc as [Hs Hc]. specialize (IH Hc). simpl.
  case_bool_decide as Ha.
  - subst a. simpl. intros Hw Hd. destruct (split_on slash s) as [|v vs] eqn:E; [by apply elem_of_nil in Hw|].
    apply elem_of_cons in Hw as [->|Hw]; [|by apply (IH w)].
    assert (∃ r, s = "."%char :: r) as [r ->].
    { rewrite <-(join_split_on slash s), E. destruct Hd as [->| ->], vs; simpl; by eexists. }
    by vm_compute in Hs.
  - destruct (split_on slash s); simpl; [intros H; by apply elem_of_nil in H|]. apply IH.
Qed.

Lemma resolve_segments_spec (segs out : list bytes) (w : bytes) :
  w ∈ resolve_segments out segs → (w ∈ out ∨ w ∈ segs ∧ ¬ dot_segment w).
Proof.
  revert out. induction segs as [|seg segs IH]; intros out Hw; simpl in Hw.
  { left. by apply elem_of_reverse. }
  destruct (seg =b ["."%char]) eqn:E1; [destruct (IH _ Hw); set_solver|].
  destruct (seg =b ["."%char; "."%char]) eqn:E2.
  - destruct (IH _ Hw) as [Ho|?]; [left|set_solver]. destruct (1 <? length out); [|done].
    destruct out; set_solver.
  - destruct (IH _ Hw) as [[->|Ho]%elem_of_cons|?]; [right|by left|set_solver].
    bool_prop. split; [set_solver|]. by intros [|].
Qed.

Lemma slash_no_dot (w : bytes) : w ∈ split_on slash $"/" → ¬ dot_segment w.
Proof. simpl. intros Hw. repeat (apply elem_of_cons in Hw as [->|Hw]; [by intros []|]). by apply elem_of_nil in Hw. Qed.

Lemma resolve_no_dot_segments (path : bytes) :
  starts_with $"/" path = true → no_dot_segments (resolve_pattern_dot_segments path).
Proof.
  intros Hp%starts_with_true. unfold resolve_pattern_dot_segments.
  destruct (contains_str $"/." path) eqn:Hc; simpl negb; cbv iota.
  - set (segs := resolve_segments [] (split_on slash path)).
    assert (∀ w, w ∈ segs → slash ∉ w ∧ ¬ dot_segment w) as Hsegs.
    { intros w Hw. destruct (resolve_segments_spec _ _ _ Hw) as [Hn|[Hin Hd]]; [by apply elem_of_nil in Hn|].
      split; [by eapply split_on_no_sep|done]. }
    set (joined := if join $"/" segs =b [] then $"/" else join $"/" segs).
    assert (no_dot_segments joined) as Hj.
    { unfold joined. destruct (join $"/" segs =b []) eqn:Ej; bool_prop; [intros w; apply slash_no_dot|].
      intros w Hw. change $"/" with [slash] in Hw. rewrite split_join in Hw.
      - by apply Hsegs.
      - intros E. by rewrite E in Ej.
      - apply Forall_forall. intros v Hv. by apply Hsegs. }
    destruct (_ && _); [|exact Hj]. intros w. change $"/" with [slash]. rewrite split_on_snoc.
    intros [Hw|Hw]%elem_of_app; [by apply Hj|]. apply list_elem_of_singleton in Hw as ->. by intros [].
  - intros w Hw. pose proof (no_slash_dot path Hc w) as Hd. destruct Hp as [r ->]. simpl in *.
    apply elem_of_cons in Hw as [->|Hw]; [by intros []|by apply Hd].
Qed.

(** Facts about single bytes, by cases on the byte. *)
Lemma encode_byte_plain (b : ascii) : forallb (fun x => negb (needs_encoding x)) (encode_byte b) = true.
Proof. by destruct b as [[] [] [] [] [] [] [] []]. Qed.

Lemma encode_byte_slash (b : ascii) : contains_byte slash (encode_byte b) = bool_decide (b = slash).
Proof. by destruct b as [[] [] [] [] [] [] [] []]. Qed.

Lemma encode_byte_cases (b : ascii) : encode_byte b = [b] ∨ ∃ r, encode_byte b = "%"%char :: r.
Proof. unfold encode_byte. destruct (needs_encoding b); [right; by eexists|by left]. Qed.

Lemma encode_path_plain (s : bytes) : existsb needs_encoding (encode_path s) = false.
Proof.
  apply not_true_iff_false. rewrite existsb_exists. intros (x & Hx & Hn).
  unfold encode_path in Hx. apply in_flat_map in Hx as (b & _ & Hb).
  pose proof (encode_byte_plain b) as Hf. rewrite forallb_forall in Hf. specialize (Hf x Hb).
  by rewrite Hn in Hf.
Qed.

Lemma split_on_encode (s : bytes) : split_on slash (encode_path s) = map encode_path (split_on slash s).
Proof.
  induction s as [|b s IH]; [done|]. unfold encode_path in *. simpl.
  pose proof (encode_byte_slash b) as Hb. case_bool_decide as E.
  - subst b. simpl. by rewrite IH.
  - assert (slash ∉ encode_byte b) as Hn by (by rewrite <-contains_byte_true, Hb).
    assert (∀ u v, slash ∉ u → split_on slash (u ++ v) = (u ++ default [] (head (split_on slash v))) :: tl (split_on slash v)) as Hu.
    { clear. induction u as [|a u IH]; intros v Hn; simpl.
      - pose proof (split_on_nonempty slash v). by destruct (split_on slash v).
      - rewrite bool_decide_eq_false_2 by set_solver. rewrite IH by set_solver. done. }
    rewrite Hu, IH by done. by destruct (split_on slash s).
Qed.

Lemma encode_path_fixed (w v : bytes) : encode_path w = v → "%"%char ∉ v → w = v.
Proof.
  revert v. induction w as [|b w IH]; intros v <- Hn; [done|].
  unfold encode_path in *. simpl in *. destruct (encode_byte_cases b) as [E|[r E]]; rewrite E in *; simpl in *.
  - f_equal. apply IH; [done|set_solver].
  - set_solver.
Qed.

Lemma encode_no_dot_segments (path : bytes) : no_dot_segments path → no_dot_segments (encode_path path).
Proof.
  intros Hp w. rewrite split_on_encode, list_elem_of_fmap. intros (v & -> & Hv) Hd.
  apply (Hp v Hv). destruct Hd as [Hd|Hd]; [left|right]; apply (encode_path_fixed v _ Hd);
    apply (bool_decide_unpack _); by vm_compute.
Qed.

(** Pattern paths reach the matchers in the normal form of connect-time paths:
    no dot segment is left, and no byte that a URL parser would percent-encode. *)
Theorem canonical_pattern_path (path : bytes) :
  starts_with $"/" path = true →
  no_dot_segments (canonicalize_pattern_path path)
  ∧ existsb needs_encoding (canonicalize_pattern_path path) = false.
Proof.
  intros Hp%decode_slash%resolve_no_dot_segments. unfold canonicalize_pattern_path.
  destruct (existsb needs_encoding (resolve_pattern_dot_segments _)) eqn:E; simpl; [|done].
  split; [by apply encode_no_dot_segments|apply encode_path_plain].
Qed.

(** ** What the two matchers promise *)

Section Promises.
Context `{UrlEnv}.

(** The port a client connects to: the one written, or the scheme's. *)
Definition effective_port (r : RuntimeUrl) : option N :=
  match rt_port r with
  | Some port => Some port
  | None => scheme_default_port (rt_scheme r) ≫= parse_u16
  end.

(** What a written scheme grants. *)
Definition scheme_granted (written runtime_scheme : bytes) : Prop :=
  (written = $"*" ∧ (eq_ignore_ascii_case $"http" runtime_scheme = true
                     ∨ eq_ignore_ascii_case $"https" runtime_scheme = true))
  ∨ (contains_any $"*?[" written = false ∧ written ≠ []
     ∧ eq_ignore_ascii_case written runtime_scheme = true).

Lemma allow_scheme_granted (written runtime_scheme : bytes) :
  AllowScheme_matches (AllowScheme_new written) runtime_scheme = true ↔ scheme_granted written runtime_scheme.
Proof.
  unfold AllowScheme_new, scheme_granted. destruct (written =b $"*") eqn:E1; bool_prop.
  - subst. simpl. rewrite orb_false_r, orb_true_iff. split; [by left|].
    intros [[_ ?]|[? _]]; [done|by vm_compute in H0].
  - destruct ((written =b []) || _) eqn:E2; cbn [AllowScheme_matches].
    + split; [done|]. apply orb_true_iff in E2. rewrite beq_true in E2. intros [[? _]|(? & ? & _)]; [done|].
      destruct E2; congruence.
    + bool_prop. naive_solver.
Qed.

(** Written [scheme_default_port] values are numbers. *)
Lemma default_port_parses (scheme p : bytes) : scheme_default_port scheme = Some p → is_Some (parse_u16 p).
Proof.
  unfold scheme_default_port. destruct (mem _ _); [intros [= <-]; by eexists|].
  destruct (mem _ _); [intros [= <-]; by eexists|done].
Qed.

Lemma port_ok_spec (p : option bytes) (r : RuntimeUrl) :
  port_ok p r = true ↔
  match p with
  | None => rt_port r = None
  | Some p => ∃ n, parse_u16 p = Some n ∧ effective_port r = Some n
  end.
Proof.
  unfold port_ok, effective_port. destruct p as [p|], (rt_port r) as [port|]; try done.
  - rewrite bool_decide_eq_true. naive_solver.
  - destruct (scheme_default_port (rt_scheme r)) as [d|] eqn:E; simpl; [|naive_solver].
    destruct (default_port_parses _ _ E) as [n Hn]. rewrite bool_decide_eq_true, Hn. naive_solver.
Qed.

(** An allow pattern grants a URL only if the URL parses; its scheme is the one
    written, or HTTP(S) for a bare star; its host matches the written host glob
    and it connects to the written port, or with none written to the scheme's
    own, or host and port are those of a bracketed IPv6 address; and its path
    matches.  A pattern without a scheme grants nothing. *)
Theorem allow_grant_sound (pattern url : bytes) :
  let parts := split_allow_pattern pattern in
  AllowUrlMatcher_matches (AllowUrlMatcher_new pattern) url = true →
  ∃ written r, pt_scheme parts = Some written ∧ RuntimeUrl_parse url = Some r
    ∧ scheme_granted written (rt_scheme r)
    ∧ (if pt_bracketed_ipv6 parts
       then ipv6_authorities_equal
              (strip_pattern_default_port (pt_authority parts) (rt_scheme r)) (authority r) = true
       else (∃ h, UrlGlob_new (canonicalize_pattern_host (pt_host parts)) = Some h
                  ∧ url_glob_matches h false (host_text r) = true)
            ∧ match pt_port parts with
              | None => rt_port r = None
              | Some p => ∃ n, parse_u16 p = Some n ∧ effective_port r = Some n
              end)
    ∧ AllowPath_matches (AllowPath_new (canonicalize_pattern_path (pt_path parts))) (rt_path r) = true.
Proof.
  intros parts. unfold AllowUrlMatcher_new. fold parts.
  destruct (pt_scheme parts) as [written|]; simpl; [|done].
  destruct (RuntimeUrl_parse url) as [r|]; [|done]. intros Hm.
  apply andb_true_iff in Hm as [[Hs Ha]%andb_true_iff Hp]. exists written, r.
  split_and!; [done..|by apply allow_scheme_granted| |done].
  destruct (pt_bracketed_ipv6 parts); [done|]. simpl in Ha. apply andb_true_iff in Ha as [Hh Hport].
  rewrite port_ok_spec in Hport. destruct (UrlGlob_new _) as [h|]; [|done]. by split; [exists h|].
Qed.

(** A deny pattern never fails open: it denies every URL that does not parse;
    its answer depends only on the host and on the path with repeated slashes
    collapsed, not on scheme or port; a pattern without a path, or with a broken
    path glob, denies the whole host; and a denied IP address is denied in every
    spelling. *)
Theorem deny_fails_closed (pattern host path url : bytes) :
  split_host_path pattern = (Some host, path) →
  let denies := DenyUrlMatcher_matches (DenyUrlMatcher_new pattern) in
  (RuntimeUrl_parse url = None → denies url = true)
  ∧ ∀ r, RuntimeUrl_parse url = Some r →
    (∀ url' r', RuntimeUrl_parse url' = Some r' → host_text r = host_text r' →
       collapse_empty_segments (rt_path r) = collapse_empty_segments (rt_path r') → denies url = denies url')
    ∧ ((path = [] ∨ UrlGlob_new (collapse_empty_segments (canonicalize_pattern_path path)) = None) →
       ∀ url' r', RuntimeUrl_parse url' = Some r' → host_text r = host_text r' → denies url = denies url')
    ∧ (∀ ip, path = [] → parse_ip_host host = Some ip → parse_ip_host (host_text r) = Some ip →
       denies url = true).
Proof.
  intros Hsplit. unfold DenyUrlMatcher_new. rewrite Hsplit. cbv zeta. unfold DenyUrlMatcher_matches.
  split; [by intros ->|]. intros r ->. split_and!.
  - intros url' r' -> -> Hp. f_equal. cbn [dn_path]. destruct (_ || _); [done|].
    destruct (UrlGlob_new (collapse_empty_segments _)); simpl; by rewrite ?Hp.
  - intros Hbroken url' r' -> ->. f_equal. cbn [dn_path]. destruct Hbroken as [-> | ->]; [done|].
    by destruct (_ || _).
  - intros ip -> Hpat Hurl. unfold deny_host_matches. cbn [dn_ip]. rewrite Hpat, Hurl.
    by rewrite bool_decide_eq_true_2.
Qed.

End Promises.

(** An unbracketed IPv6 glob loses everything from its first colon on when it
    is used to deny: the pattern for a prefix of addresses is compiled as a
    pattern for the host named by its first hextet, and the lint is silent
    whenever that compiles.  As an allow pattern its host half is kept. *)
Theorem deny_v6_glob_truncated `{UrlEnv} :
  DenyUrlMatcher_new $"https://2001:db8*/" = DenyUrlMatcher_new $"https://2001"
  ∧ unmatchable_deny_url $"https://2001:db8*/" = unmatchable_deny_url $"https://2001"
  ∧ pt_host (split_allow_pattern $"https://2001:db8*:443/") = $"2001:db8*".
Proof. by vm_compute. Qed.

(** ** Examples *)

Example path_forms :
  decode_unreserved_escapes $"/%61dmin/%2f%zz" = $"/admin/%2F%zz"
  ∧ resolve_pattern_dot_segments $"/x/../admin/./*" = $"/admin/*"
  ∧ resolve_pattern_dot_segments $"/.." = $"/" ∧ resolve_pattern_dot_segments $"/a/.." = $"/"
  ∧ canonicalize_pattern_path $"/a b/{c}" = $"/a%20b/%7Bc%7D"
  ∧ collapse_empty_segments $"//admin///x/" = $"/admin/x/".
Proof. vm_compute. done. Qed.

Example host_forms :
  split_host_path $"https://user@Host.Example.:8080/a" = (Some $"host.example", $"/a")
  ∧ split_host_path $"https://[2001:DB8::1]:8443/*" = (Some $"2001:db8::1", $"/*")
  ∧ split_host_path $"https://2001:db8::1:443/*" = (Some $"2001:db8::1", $"/*")
  ∧ split_host_path $"https://2001:db8::1:ffff" = (Some $"2001:db8::1:ffff", [])
  ∧ split_host_path $"https://" = (None, []).
Proof. vm_compute. done. Qed.

(** ** A small URL parser and glob matcher for the examples *)

Definition demo_url_parse (url : bytes) : option UrlParts :=
  '(scheme, rest) ← split_once_str $"://" url;
  let '(host, path) := split_authority_path rest in
  Some (mkUrl (to_ascii_lowercase scheme) (Some (Domain host)) None (if path =b [] then $"/" else path)).

Definition demo_glob_matches (p : bytes) (case_sensitive : bool) (text : bytes) : bool :=
  (p =b $"*") || if case_sensitive then p =b text else eq_ignore_ascii_case p text.

Definition demo_urls : UrlEnv :=
  Build_UrlEnv bytes Some demo_glob_matches demo_url_parse (fun h => Some (Domain h)).

Lemma allow_grant_sound_witness :
  ∃ written r, pt_scheme (split_allow_pattern $"https://mcp.corp/tools") = Some written
    ∧ @RuntimeUrl_parse demo_urls $"https://mcp.corp/tools" = Some r
    ∧ scheme_granted written (rt_scheme r).
Proof.
  destruct (@allow_grant_sound demo_urls $"https://mcp.corp/tools" $"https://mcp.corp/tools")
    as (written & r & H1 & H2 & H3 & _); [vm_compute; reflexivity|].
  exists written, r. exact (conj H1 (conj H2 H3)).
Defined.

Lemma deny_fails_closed_witness :
  @DenyUrlMatcher_matches demo_urls (@DenyUrlMatcher_new demo_urls $"https://evil.example") $"no url" = true.
Proof.
  destruct (@deny_fails_closed demo_urls $"https://evil.example" $"evil.example" [] $"no url") as [Hn _];
    [vm_compute; reflexivity|].
  apply Hn. vm_compute. reflexivity.
Defined.
