(* ===== verification/ManagedPolicy.v ===== *)
(** * Managed policy

    [crates/codegen/xai-grok-permission-rules/src/managed_policy]: source tiers
    and tighten-only pins ([layer.rs]), MCP allow and deny lists ([mcp.rs]),
    marketplaces ([marketplace.rs], [source_identity.rs]), the parsers of the
    policy keys ([parse.rs]), the verdict ([verdict.rs]) and the folding of all
    layers into one policy ([mod.rs]). *)

From S2P Require Import Prelude RustStr UrlMatch.

(** ** Layers: [layer.rs] *)

Inductive PolicyLayerTier := Mdm | SystemRequirements | SystemManaged | UserRequirements | UserManaged | Vendor.

(** The derived order of the enum. *)
Definition tier_rank (t : PolicyLayerTier) : nat :=
  match t with
  | Mdm => 0 | SystemRequirements => 1 | SystemManaged => 2
  | UserRequirements => 3 | UserManaged => 4 | Vendor => 5
  end.

Inductive PolicySourceAuthority := Native | Advisory.
Inductive PolicyLayerOwnership := Admin | User.
Inductive PolicySubjectOrigin := GrokNative | Foreign.

#[export] Instance PolicySourceAuthority_eq_dec : EqDecision PolicySourceAuthority.
Proof. solve_decision. Defined.
#[export] Instance PolicyLayerOwnership_eq_dec : EqDecision PolicyLayerOwnership.
Proof. solve_decision. Defined.
#[export] Instance PolicySubjectOrigin_eq_dec : EqDecision PolicySubjectOrigin.
Proof. solve_decision. Defined.

Definition tier_authority (t : PolicyLayerTier) : PolicySourceAuthority :=
  match t with Vendor => Advisory | _ => Native end.

Definition tier_ownership (t : PolicyLayerTier) : PolicyLayerOwnership :=
  match t with
  | UserRequirements | UserManaged => User
  | Mdm | SystemRequirements | SystemManaged | Vendor => Admin
  end.

Inductive PolicyPin := Unpinned | Disabled (source : bytes) (ownership : PolicyLayerOwnership).

Definition is_disabled (p : PolicyPin) : bool := match p with Disabled _ _ => true | Unpinned => false end.

Definition accepts_grant_from (restriction grant : PolicyLayerOwnership) : bool :=
  bool_decide (restriction = User) || bool_decide (grant = Admin).

(** ** Marketplaces: [marketplace.rs], [source_identity.rs] *)

Definition split_at_slash (rest : bytes) : bytes * bytes :=
  let i := default (length rest) (find_byte slash rest) in (take i rest, drop i rest).

Definition canonical_remote (url : bytes) : option bytes :=
  match split_once_str $"://" url with
  | Some (scheme, rest) =>
      let '(authority, path) := split_at_slash rest in
      Some (to_ascii_lowercase scheme ++ $"://" ++ to_ascii_lowercase authority ++ path)
  | None =>
      '(user_host, path) ← split_once ":"%char url;
      if contains_byte "@"%char user_host && negb (contains_byte slash user_host)
      then Some (to_ascii_lowercase user_host ++ $":" ++ path) else None
  end.

Definition normalize_git_url (url : bytes) : bytes :=
  let url := default url (strip_suffix $".git" url) in default url (canonical_remote url).

Definition is_same_source_identity (a b : bytes) : bool :=
  (a =b b)
  || match canonical_remote a with Some _ => normalize_git_url a =b normalize_git_url b | None => false end.

Record MarketplaceAllowlist := mkMarketplaces {
  mk_allowed_urls : list bytes;
  mk_source_path : option bytes;
  mk_authority : PolicySourceAuthority;
}.

Definition authority_binds (a : PolicySourceAuthority) (origin : PolicySubjectOrigin) : bool :=
  bool_decide (a = Native) || bool_decide (origin = Foreign).

Definition mk_url_allowed (m : MarketplaceAllowlist) (url : bytes) : bool :=
  existsb (fun allowed => normalize_git_url allowed =b normalize_git_url url) (mk_allowed_urls m).

Definition marketplace_restricted_for (sources : list MarketplaceAllowlist) (origin : PolicySubjectOrigin) : bool :=
  existsb (fun s => authority_binds (mk_authority s) origin) sources.

Definition marketplace_url_allowed (sources : list MarketplaceAllowlist) (url : bytes)
    (origin : PolicySubjectOrigin) : bool :=
  forallb (fun s => mk_url_allowed s url) (List.filter (fun s => authority_binds (mk_authority s) origin) sources).

Inductive ManagedMarketplaceKind := Git (url : bytes) (git_ref : option bytes) | Local (path : bytes).

Record ManagedMarketplace := mkMarketplace {
  mm_name : bytes;
  mm_kind : ManagedMarketplaceKind;
  mm_ownership : PolicyLayerOwnership;
}.

(** ** MCP servers and policy entries: [mcp.rs] *)

(** The transports of the agent protocol; [OtherTransport] stands for one this
    build does not know. *)
Inductive McpServer :=
| Http (name url : bytes)
| Sse (name url : bytes)
| Stdio (name command : bytes) (args : list bytes)
| OtherTransport.

Inductive AllowedMcpServer :=
| EntryHttp (url_pattern : bytes)
| EntryStdio (command : bytes)
| EntryStdioArgv (argv : list bytes)
| EntryName (name : bytes).

Definition mcp_server_name (server : McpServer) : bytes :=
  match server with
  | Http name _ | Sse name _ | Stdio name _ _ => name
  | OtherTransport => []
  end.

Definition server_url (server : McpServer) : option bytes :=
  match server with Http _ url | Sse _ url => Some url | _ => None end.

Definition mcp_transport_known (server : McpServer) : bool :=
  match server with OtherTransport => false | _ => true end.

Definition argv_matches (argv : list bytes) (command : bytes) (args : list bytes) : bool :=
  match argv with
  | [] => false
  | first :: rest => (first =b command) && bool_decide (rest = args)
  end.

Definition mcp_entry_restricts (entry : AllowedMcpServer) (server : McpServer) : bool :=
  if negb (mcp_transport_known server) then true
  else match entry with
       | EntryName _ => true
       | EntryHttp _ => match server with Http _ _ | Sse _ _ => true | _ => false end
       | EntryStdio _ | EntryStdioArgv _ => match server with Stdio _ _ _ => true | _ => false end
       end.

Definition MANAGED_MCP_PREFIX : bytes := $"grok_com_".
Definition MANAGED_MCP_NAME_MAX_CHARS : nat := 39.

(** [s.chars().count()], and the byte index of the [n]-th character. *)
Definition char_count (s : bytes) : nat := length (List.filter (fun a => negb (is_continuation a)) s).

Fixpoint char_index (n i : nat) (s : bytes) : option nat :=
  match s with
  | [] => None
  | a :: r =>
      if is_continuation a then char_index n (S i) r
      else match n with 0 => Some i | S n => char_index n (S i) r end
  end.

(** Unicode lower-casing of [str::to_lowercase], TOML and JSON values. *)
Class PolicyValues := {
  unicode_lower : bytes → bytes;
  Json : Type;
  Json_eq_dec :: EqDecision Json;
  json_get : Json → bytes → option Json;
  json_bool : Json → option bool;
  json_str : Json → option bytes;
  json_array : Json → option (list Json);
  json_object : Json → option (list (bytes * Json));
  Toml : Type;
  toml_table : Toml → option (list (bytes * Toml));
  (** [serde_json::to_value] of a table *)
  toml_to_json : list (bytes * Toml) → option Json;
}.

Section Managed.
Context `{UrlEnv} `{PolicyValues}.

Definition normalize_managed_name (bare : bytes) : bytes := replace $" " $"_" (unicode_lower bare).

Definition name_key (s : bytes) : bytes :=
  normalize_managed_name (default s (strip_prefix MANAGED_MCP_PREFIX s)).

Definition truncate_key (key : bytes) : bytes :=
  match char_index (MANAGED_MCP_NAME_MAX_CHARS - length MANAGED_MCP_PREFIX) 0 key with
  | Some i => default key (get_to i key)
  | None => key
  end.

Definition mcp_name_matches (pattern name : bytes) : bool :=
  let truncated := starts_with MANAGED_MCP_PREFIX name && (char_count name =? MANAGED_MCP_NAME_MAX_CHARS) in
  let pattern_key := if truncated then truncate_key (name_key pattern) else name_key pattern in
  let key := if truncated then truncate_key (name_key name) else name_key name in
  negb (pattern_key =b []) && (pattern_key =b key).

Definition mcp_entry_matches (entry : AllowedMcpServer) (server : McpServer) : bool :=
  match entry, server with
  | EntryName name, _ => mcp_name_matches name (mcp_server_name server)
  | EntryStdio command, Stdio _ server_command _ => command =b server_command
  | EntryStdioArgv argv, Stdio _ server_command args => argv_matches argv server_command args
  | _, _ => false
  end.

(** An entry with its URL matcher compiled at construction. *)
Record CompiledEntry (M : Type) := mkEntry { ce_entry : AllowedMcpServer; ce_matcher : option M }.
Arguments mkEntry {M}. Arguments ce_entry {M}. Arguments ce_matcher {M}.

Definition compile_entries {M} (compile : bytes → M) (entries : list AllowedMcpServer) : list (CompiledEntry M) :=
  map (fun entry => mkEntry entry (match entry with EntryHttp p => Some (compile p) | _ => None end)) entries.

(** One entry against one server, through its compiled matcher. *)
Definition compiled_matches {M} (matches : M → bytes → bool) (c : CompiledEntry M) (server : McpServer) : bool :=
  match ce_matcher c with
  | Some m => match server_url server with Some url => matches m url | None => false end
  | None => mcp_entry_matches (ce_entry c) server
  end.

Record McpServerAllowlist := mkAllowlist {
  entries : list (CompiledEntry AllowUrlMatcher);
  deny_entries : list (CompiledEntry DenyUrlMatcher);
  managed_only : bool;
  lockdown : bool;
  ownership : PolicyLayerOwnership;
  source_path : option bytes;
  source_authority : PolicySourceAuthority;
}.

Definition McpServerAllowlist_new (es ds : list AllowedMcpServer) (path : option bytes) : McpServerAllowlist :=
  mkAllowlist (compile_entries AllowUrlMatcher_new es) (compile_entries DenyUrlMatcher_new ds)
    false false User path Native.

Definition with_managed_only (s : McpServerAllowlist) : McpServerAllowlist :=
  mkAllowlist (entries s) (deny_entries s) true (lockdown s) (ownership s) (source_path s) (source_authority s).
Definition with_lockdown (s : McpServerAllowlist) : McpServerAllowlist :=
  mkAllowlist (entries s) (deny_entries s) (managed_only s) true (ownership s) (source_path s) (source_authority s).
Definition with_authority (a : PolicySourceAuthority) (s : McpServerAllowlist) : McpServerAllowlist :=
  mkAllowlist (entries s) (deny_entries s) (managed_only s) (lockdown s) (ownership s) (source_path s) a.
Definition with_ownership (o : PolicyLayerOwnership) (s : McpServerAllowlist) : McpServerAllowlist :=
  mkAllowlist (entries s) (deny_entries s) (managed_only s) (lockdown s) o (source_path s) (source_authority s).

Definition binds (s : McpServerAllowlist) (origin : PolicySubjectOrigin) : bool :=
  authority_binds (source_authority s) origin.

Definition is_restricted (s : McpServerAllowlist) : bool :=
  lockdown s || managed_only s || negb (bool_decide (length (entries s) = 0))
  || negb (bool_decide (length (deny_entries s) = 0)).

Definition matches_allow_entry (s : McpServerAllowlist) (server : McpServer) : bool :=
  existsb (fun c => compiled_matches AllowUrlMatcher_matches c server) (entries s).

Definition allows_ignoring_managed_only (s : McpServerAllowlist) (server : McpServer) : bool :=
  if lockdown s then false
  else if negb (is_restricted s) then true
  else
    let restricted := existsb (fun c => mcp_entry_restricts (ce_entry c) server) (entries s) in
    negb restricted || matches_allow_entry s server.

Definition source_denies (s : McpServerAllowlist) (server : McpServer) : bool :=
  if negb (mcp_transport_known server) then negb (bool_decide (length (deny_entries s) = 0))
  else existsb (fun c => compiled_matches DenyUrlMatcher_matches c server) (deny_entries s).

(** *** [McpServerPolicy]: the list of its sources *)

Definition binding_sources (p : list McpServerAllowlist) (origin : PolicySubjectOrigin) : list McpServerAllowlist :=
  List.filter (fun s => binds s origin) p.

Definition denying_source (p : list McpServerAllowlist) (server : McpServer) (origin : PolicySubjectOrigin)
  : option McpServerAllowlist := List.find (fun s => source_denies s server) (binding_sources p origin).

Definition grants_exception (p : list McpServerAllowlist) (server : McpServer) (restriction : PolicyLayerOwnership)
  : bool :=
  existsb (fun s => accepts_grant_from restriction (ownership s) && matches_allow_entry s server) p.

Definition blocking_allow_source (p : list McpServerAllowlist) (server : McpServer) (origin : PolicySubjectOrigin)
  : option McpServerAllowlist :=
  match List.find (fun s => managed_only s && negb (grants_exception p server (ownership s))) (binding_sources p origin) with
  | Some s => Some s
  | None => List.find (fun s => negb (allows_ignoring_managed_only s server)) (binding_sources p origin)
  end.

Definition is_none {A} (o : option A) : bool := match o with None => true | Some _ => false end.

Definition is_server_denied (p : list McpServerAllowlist) (server : McpServer) (origin : PolicySubjectOrigin) : bool :=
  negb (is_none (denying_source p server origin)).

Definition is_server_allowed (p : list McpServerAllowlist) (server : McpServer) (origin : PolicySubjectOrigin) : bool :=
  negb (is_server_denied p server origin) && is_none (blocking_allow_source p server origin).

(** *** The settings: the policy part of [ManagedSettings] *)

Record ManagedSettings := mkSettings {
  mcp_allowlist : list McpServerAllowlist;
  marketplace_allowlist : list MarketplaceAllowlist;
  project_mcp : PolicyPin;
  plugin_auto_update : PolicyPin;
  non_managed_hooks : PolicyPin;
  extra_marketplaces : list ManagedMarketplace;
}.

Definition default_settings : ManagedSettings := mkSettings [] [] Unpinned Unpinned Unpinned [].

Definition push_mcp (s : McpServerAllowlist) (ms : ManagedSettings) : ManagedSettings :=
  mkSettings (mcp_allowlist ms ++ [s]) (marketplace_allowlist ms) (project_mcp ms) (plugin_auto_update ms)
    (non_managed_hooks ms) (extra_marketplaces ms).
Definition push_marketplaces (s : MarketplaceAllowlist) (ms : ManagedSettings) : ManagedSettings :=
  mkSettings (mcp_allowlist ms) (marketplace_allowlist ms ++ [s]) (project_mcp ms) (plugin_auto_update ms)
    (non_managed_hooks ms) (extra_marketplaces ms).
Definition set_extra (l : list ManagedMarketplace) (ms : ManagedSettings) : ManagedSettings :=
  mkSettings (mcp_allowlist ms) (marketplace_allowlist ms) (project_mcp ms) (plugin_auto_update ms)
    (non_managed_hooks ms) l.

(** ** Verdict: [verdict.rs] *)

Inductive McpBlockReason :=
| Deny (source : bytes)
| NotGranted (source : bytes)
| Lockdown (source : bytes)
| ProjectPin (source : bytes).

Inductive McpVerdict := Allowed | Blocked (r : McpBlockReason).

Record McpSubject := mkSubject { origin : PolicySubjectOrigin; project_scoped : bool }.

Definition mcp_project_pin_block (ms : ManagedSettings) (server : McpServer) (subject : McpSubject)
  : option McpBlockReason :=
  match project_mcp ms with
  | Unpinned => None
  | Disabled source owner =>
      if negb (project_scoped subject) || grants_exception (mcp_allowlist ms) server owner then None
      else Some (ProjectPin source)
  end.

Definition mcp_verdict (ms : ManagedSettings) (server : McpServer) (subject : McpSubject) : McpVerdict :=
  let policy := mcp_allowlist ms in
  match denying_source policy server (origin subject) with
  | Some denying => Blocked (Deny (default [] (source_path denying)))
  | None =>
      match blocking_allow_source policy server (origin subject) with
      | Some blocking =>
          let source := default [] (source_path blocking) in
          Blocked (if lockdown blocking then Lockdown source else NotGranted source)
      | None =>
          match mcp_project_pin_block ms server subject with
          | Some reason => Blocked reason
          | None => Allowed
          end
      end
  end.

(** ** Parsing of the policy keys: [parse.rs] *)

Inductive PolicyKey (T : Type) := Absent | Present (t : T) | Malformed.
Arguments Absent {T}. Arguments Present {T}. Arguments Malformed {T}.

Definition key_and_then {T U} (k : PolicyKey T) (f : T → PolicyKey U) : PolicyKey U :=
  match k with Absent => Absent | Present t => f t | Malformed => Malformed end.

Definition key_map {T U} (k : PolicyKey T) (f : T → U) : PolicyKey U := key_and_then k (fun t => Present (f t)).

Definition is_absent {T} (k : PolicyKey T) : bool := match k with Absent => true | _ => false end.
Definition is_malformed {T} (k : PolicyKey T) : bool := match k with Malformed => true | _ => false end.

Definition locks_down {T} (k : PolicyKey (list T)) : bool :=
  match k with Present [] => true | _ => is_malformed k end.

Definition key_entries {T} (k : PolicyKey (list T)) : list T :=
  match k with Present l => l | _ => [] end.

Definition policy_field (json : Json) (keys : list bytes) : PolicyKey Json :=
  match omap (json_get json) keys with
  | [] => Absent
  | first :: present => if existsb (fun v => negb (bool_decide (v = first))) present then Malformed else Present first
  end.

Definition policy_bool (json : Json) (keys : list bytes) (fail_closed : bool) : option bool :=
  match policy_field json keys with
  | Absent => None
  | Malformed => Some fail_closed
  | Present value => Some (default fail_closed (json_bool value))
  end.

Definition policy_array (json : Json) (keys : list bytes) : PolicyKey (list Json) :=
  match policy_field json keys with
  | Absent => Absent
  | Malformed => Malformed
  | Present value => match json_array value with Some arr => Present arr | None => Malformed end
  end.

Inductive McpPolicyList := ListAllow | ListDeny.

Definition list_keys (l : McpPolicyList) : list bytes :=
  match l with
  | ListAllow => [$"allowedMcpServers"; $"allowed_mcp_servers"]
  | ListDeny => [$"deniedMcpServers"; $"denied_mcp_servers"]
  end.

Definition SERVER_URL : list bytes := [$"serverUrl"; $"server_url"].
Definition SERVER_COMMAND : list bytes := [$"serverCommand"; $"server_command"].
Definition SERVER_NAME : list bytes := [$"serverName"; $"server_name"].

(** [keys.iter().find_map(|key| entry.get(key))] *)
Definition entry_field (entry : Json) (keys : list bytes) : option Json := head (omap (json_get entry) keys).

Definition parse_mcp_entry (entry : Json) (l : McpPolicyList) : option AllowedMcpServer :=
  if existsb (fun keys => is_malformed (policy_field entry keys)) [SERVER_URL; SERVER_COMMAND; SERVER_NAME] then None
  else match entry_field entry SERVER_URL ≫= json_str with
  | Some url =>
      let unmatchable := match l with ListDeny => unmatchable_deny_url url | ListAllow => false end in
      if unmatchable then None else Some (EntryHttp url)
  | None =>
      match argv ← entry_field entry SERVER_COMMAND; arr ← json_array argv; mapM json_str arr with
      | Some (a :: argv) => Some (EntryStdioArgv (a :: argv))
      | _ =>
          match json_get entry $"command" ≫= json_str with
          | Some cmd => Some (EntryStdio cmd)
          | None => EntryName <$> (entry_field entry SERVER_NAME ≫= json_str)
          end
      end
  end.

Definition parse_mcp_entries (arr : list Json) (l : McpPolicyList) : option (list AllowedMcpServer) :=
  let parsed := map (fun entry => parse_mcp_entry entry l) arr in
  match l with
  | ListDeny => if existsb is_none parsed then None else Some (omap id parsed)
  | ListAllow => Some (omap id parsed)
  end.

Definition parse_mcp_entry_list (json : Json) (l : McpPolicyList) : PolicyKey (list AllowedMcpServer) :=
  key_and_then (policy_array json (list_keys l)) (fun arr =>
    match parse_mcp_entries arr l with Some es => Present es | None => Malformed end).

Definition marketplace_source_from_json (entry : Json) : option ManagedMarketplaceKind :=
  let git_ref := (match json_get entry $"ref" with
                  | Some v => Some v
                  | None => json_get entry $"branch"
                  end) ≫= json_str in
  source ← json_get entry $"source" ≫= json_str;
  if source =b $"git" then
    url ← json_get entry $"url" ≫= json_str; Some (Git url git_ref)
  else if source =b $"github" then
    repo ← json_get entry $"repo" ≫= json_str;
    Some (Git ($"https://github.com/" ++ repo ++ $".git") git_ref)
  else if source =b $"local" then
    path ← json_get entry $"path" ≫= json_str; Some (Local path)
  else None.

Definition parse_strict_marketplaces (json : Json) : PolicyKey (list bytes) :=
  key_map (policy_array json [$"strictKnownMarketplaces"; $"strict_known_marketplaces"]) (fun arr =>
    omap (fun entry => match marketplace_source_from_json entry with
                       | Some (Git url _) => Some url
                       | _ => None
                       end) arr).

Record ExtraMarketplaces := mkExtras { ex_entries : list ManagedMarketplace; ex_pin_off : bool }.

(** One round of the loop over the table. *)
Definition extra_entry (owner : PolicyLayerOwnership) (out : ExtraMarketplaces) (e : bytes * Json)
  : ExtraMarketplaces :=
  let '(name, entry) := e in
  match json_object entry with
  | None => mkExtras (ex_entries out) true
  | Some fields =>
      let out := if bool_decide (policy_bool entry [$"autoUpdate"; $"auto_update"] false = Some false)
                 then mkExtras (ex_entries out) true else out in
      match json_get entry $"source" ≫= marketplace_source_from_json with
      | None => out
      | Some kind => mkExtras (ex_entries out ++ [mkMarketplace name kind owner]) (ex_pin_off out)
      end
  end.

Definition parse_extra_marketplaces (json : Json) (owner : PolicyLayerOwnership) : ExtraMarketplaces :=
  match policy_field json [$"extraKnownMarketplaces"; $"extra_known_marketplaces"] with
  | Absent => mkExtras [] false
  | Malformed => mkExtras [] true
  | Present value =>
      match json_object value with
      | None => mkExtras [] true
      | Some m => foldl (extra_entry owner) (mkExtras [] false) m
      end
  end.

(** ** Folding the layers: [mod.rs] *)

Inductive BoolPin := PinProjectMcp | PinPluginAutoUpdate | PinNonManagedHooks.

Definition BoolPin_ALL : list BoolPin := [PinProjectMcp; PinPluginAutoUpdate; PinNonManagedHooks].

Definition pin_keys (p : BoolPin) : list bytes :=
  match p with
  | PinProjectMcp => [$"enableAllProjectMcpServers"; $"enable_all_project_mcp_servers"]
  | PinPluginAutoUpdate => [$"pluginAutoUpdate"; $"plugin_auto_update"]
  | PinNonManagedHooks => [$"allowManagedHooksOnly"; $"allow_managed_hooks_only"]
  end.

Definition engages_on (p : BoolPin) : bool :=
  match p with PinProjectMcp | PinPluginAutoUpdate => false | PinNonManagedHooks => true end.

Definition pin_of (ms : ManagedSettings) (p : BoolPin) : PolicyPin :=
  match p with
  | PinProjectMcp => project_mcp ms
  | PinPluginAutoUpdate => plugin_auto_update ms
  | PinNonManagedHooks => non_managed_hooks ms
  end.

(** [*ms.pin_mut(pin) = value] *)
Definition set_pin (p : BoolPin) (v : PolicyPin) (ms : ManagedSettings) : ManagedSettings :=
  mkSettings (mcp_allowlist ms) (marketplace_allowlist ms)
    (match p with PinProjectMcp => v | _ => project_mcp ms end)
    (match p with PinPluginAutoUpdate => v | _ => plugin_auto_update ms end)
    (match p with PinNonManagedHooks => v | _ => non_managed_hooks ms end)
    (extra_marketplaces ms).

Definition pin_disabled (pin : PolicyPin) (path : bytes) (owner : PolicyLayerOwnership) : PolicyPin :=
  let upgrades := match owner, pin with Admin, Disabled _ User => true | _, _ => false end in
  if negb (is_disabled pin) || upgrades then Disabled path owner else pin.

Definition disable_pin (p : BoolPin) (path : bytes) (owner : PolicyLayerOwnership) (ms : ManagedSettings)
  : ManagedSettings := set_pin p (pin_disabled (pin_of ms p) path owner) ms.

Definition apply_unreadable_policy_source (ms : ManagedSettings) (path : bytes) (tier : PolicyLayerTier)
  : ManagedSettings :=
  let ms := push_mcp (with_lockdown (with_ownership (tier_ownership tier) (with_authority (tier_authority tier)
              (McpServerAllowlist_new [] [] (Some path))))) ms in
  let ms := push_marketplaces (mkMarketplaces [] (Some path) (tier_authority tier)) ms in
  foldl (fun ms p => disable_pin p path (tier_ownership tier) ms) ms BoolPin_ALL.

(** The MCP source one layer contributes, if it restricts or grants anything. *)
Definition mcp_source (json : Json) (path : bytes) (tier : PolicyLayerTier) : option McpServerAllowlist :=
  let allow_key := parse_mcp_entry_list json ListAllow in
  let deny_key := parse_mcp_entry_list json ListDeny in
  let only := bool_decide (policy_bool json
    [$"allowManagedMcpServersOnly"; $"allow_managed_mcp_servers_only"] true = Some true) in
  let locked := locks_down allow_key || is_malformed deny_key in
  let allow_entries := key_entries allow_key in
  let denied := key_entries deny_key in
  if locked || negb (bool_decide (length allow_entries = 0)) || negb (bool_decide (length denied = 0)) || only then
    let s := with_ownership (tier_ownership tier) (with_authority (tier_authority tier)
               (McpServerAllowlist_new allow_entries denied (Some path))) in
    let s := if only then with_managed_only s else s in
    Some (if locked then with_lockdown s else s)
  else None.

Definition apply_pin (json : Json) (path : bytes) (owner : PolicyLayerOwnership) (ms : ManagedSettings) (p : BoolPin)
  : ManagedSettings :=
  if bool_decide (policy_bool json (pin_keys p) (engages_on p) = Some (engages_on p))
  then disable_pin p path owner ms else ms.

(** First source wins a name, except that an admin entry replaces a user claim. *)
Fixpoint claim_marketplace (extra : ManagedMarketplace) (l : list ManagedMarketplace) : list ManagedMarketplace :=
  match l with
  | [] => [extra]
  | claimed :: r =>
      if mm_name claimed =b mm_name extra then
        (match mm_ownership claimed, mm_ownership extra with User, Admin => extra | _, _ => claimed end) :: r
      else claimed :: claim_marketplace extra r
  end.

Definition apply_policy_source (ms : ManagedSettings) (json : Json) (path : bytes) (tier : PolicyLayerTier)
  : ManagedSettings :=
  let owner := tier_ownership tier in
  let ms := match mcp_source json path tier with Some s => push_mcp s ms | None => ms end in
  let ms := foldl (apply_pin json path owner) ms BoolPin_ALL in
  let strict := parse_strict_marketplaces json in
  let ms := if negb (is_absent strict)
            then push_marketplaces (mkMarketplaces (key_entries strict) (Some path) (tier_authority tier)) ms
            else ms in
  let extras := parse_extra_marketplaces json owner in
  let ms := if ex_pin_off extras then disable_pin PinPluginAutoUpdate path owner ms else ms in
  foldl (fun ms extra => set_extra (claim_marketplace extra (extra_marketplaces ms)) ms) ms (ex_entries extras).

Definition MANAGED_POLICY_CONFIG_KEYS : list string :=
  ["allowedMcpServers"; "allowed_mcp_servers"; "deniedMcpServers"; "denied_mcp_servers";
   "allowManagedMcpServersOnly"; "allow_managed_mcp_servers_only"; "allowManagedHooksOnly";
   "allow_managed_hooks_only"; "enableAllProjectMcpServers"; "enable_all_project_mcp_servers";
   "pluginAutoUpdate"; "plugin_auto_update"; "strictKnownMarketplaces"; "strict_known_marketplaces";
   "extraKnownMarketplaces"; "extra_known_marketplaces"]%string.

Record PolicyLayer := mkLayer { layer_tier : PolicyLayerTier; layer_path : bytes; layer_value : Toml }.

Definition apply_layer (ms : ManagedSettings) (layer : PolicyLayer) : ManagedSettings :=
  let policy_table := List.filter (fun kv => mem kv.1 MANAGED_POLICY_CONFIG_KEYS)
                        (default [] (toml_table (layer_value layer))) in
  if bool_decide (length policy_table = 0) then ms
  else match toml_to_json policy_table with
       | Some json => apply_policy_source ms json (layer_path layer) (layer_tier layer)
       | None => apply_unreadable_policy_source ms (layer_path layer) (layer_tier layer)
       end.

(** The policy fields of [resolve_managed_settings]; the base parsed from the
    Claude file leaves them at their defaults. *)
Definition resolve_managed_settings (claude : option (Json * bytes)) (toml_layers : list PolicyLayer)
  : ManagedSettings :=
  let ms := foldl apply_layer default_settings (sort_by_key (fun l => tier_rank (layer_tier l)) toml_layers) in
  match claude with
  | Some (json, path) => apply_policy_source ms json path Vendor
  | None => ms
  end.

End Managed.

Arguments Absent {T}. Arguments Present {T}. Arguments Malformed {T}.
