(* ===== verification/ManagedLaws.v ===== *)
(** * What the managed policy guarantees

    The verdict on a server is strictest-wins over all sources, the restrictions
    of a layer bind in the resolved policy, and layers a user can write never
    lift what the administrator's layers block. *)

From S2P Require Import Prelude RustStr UrlMatch ManagedPolicy.

Section ManagedLaws.
Context `{UrlEnv} `{PolicyValues}.

(** ** The verdict *)

Lemma find_none_iff {A} (f : A → bool) (l : list A) : List.find f l = None ↔ ∀ x, x ∈ l → f x = false.
Proof.
  split.
  - intros Hn x Hx. apply (List.find_none _ _ Hn). by apply list_elem_of_In.
  - intros Hf. destruct (List.find f l) eqn:E; [|done]. apply List.find_some in E as [Hin Ht].
    apply list_elem_of_In in Hin. by rewrite Hf in Ht.
Qed.

Lemma elem_of_binding (p : list McpServerAllowlist) (o : PolicySubjectOrigin) (s : McpServerAllowlist) :
  s ∈ binding_sources p o ↔ s ∈ p ∧ binds s o = true.
Proof. unfold binding_sources. by rewrite list_elem_of_In, filter_In, <-list_elem_of_In. Qed.

(** Some source whose layer may lift a restriction owned by [owner] grants the server. *)
Definition granted (p : list McpServerAllowlist) (server : McpServer) (owner : PolicyLayerOwnership) : Prop :=
  ∃ g, g ∈ p ∧ accepts_grant_from owner (ownership g) = true ∧ matches_allow_entry g server = true.

Lemma grants_exception_true (p : list McpServerAllowlist) (server : McpServer) (owner : PolicyLayerOwnership) :
  grants_exception p server owner = true ↔ granted p server owner.
Proof.
  unfold grants_exception, granted. rewrite existsb_exists. setoid_rewrite andb_true_iff.
  by setoid_rewrite list_elem_of_In.
Qed.

(** What one binding source demands of a server. *)
Definition source_passes (p : list McpServerAllowlist) (server : McpServer) (s : McpServerAllowlist) : Prop :=
  source_denies s server = false
  ∧ (managed_only s = true → granted p server (ownership s))
  ∧ allows_ignoring_managed_only s server = true.

Definition pin_passes (ms : ManagedSettings) (server : McpServer) (subject : McpSubject) : Prop :=
  match project_mcp ms with
  | Unpinned => True
  | Disabled _ owner => project_scoped subject = true → granted (mcp_allowlist ms) server owner
  end.

Definition passes (ms : ManagedSettings) (server : McpServer) (subject : McpSubject) : Prop :=
  (∀ s, s ∈ mcp_allowlist ms → binds s (origin subject) = true → source_passes (mcp_allowlist ms) server s)
  ∧ pin_passes ms server subject.

Lemma denying_none (p : list McpServerAllowlist) (server : McpServer) (o : PolicySubjectOrigin) :
  denying_source p server o = None ↔ ∀ s, s ∈ p → binds s o = true → source_denies s server = false.
Proof. unfold denying_source. rewrite find_none_iff. setoid_rewrite elem_of_binding. naive_solver. Qed.

Lemma blocking_none (p : list McpServerAllowlist) (server : McpServer) (o : PolicySubjectOrigin) :
  blocking_allow_source p server o = None ↔
  ∀ s, s ∈ p → binds s o = true →
    (managed_only s = true → granted p server (ownership s)) ∧ allows_ignoring_managed_only s server = true.
Proof.
  unfold blocking_allow_source. destruct (List.find _ _) as [s|] eqn:E.
  - split; [done|]. intros Ha. apply List.find_some in E as [Hin Hf]. apply list_elem_of_In, elem_of_binding in Hin as [Hin Hb].
    apply andb_true_iff in Hf as [Hm Hg]. apply negb_true_iff in Hg.
    destruct (Ha s Hin Hb) as [Hgr _]. specialize (Hgr Hm). apply grants_exception_true in Hgr. congruence.
  - rewrite find_none_iff in *. setoid_rewrite elem_of_binding in E. setoid_rewrite elem_of_binding. split.
    + intros Ha s Hin Hb. split.
      * intros Hm. apply grants_exception_true. specialize (E s (conj Hin Hb)). rewrite Hm in E.
        by apply negb_false_iff in E.
      * specialize (Ha s (conj Hin Hb)). by apply negb_false_iff in Ha.
    + intros Ha s [Hin Hb]. destruct (Ha s Hin Hb) as [_ ->]. done.
Qed.

Lemma pin_block_none (ms : ManagedSettings) (server : McpServer) (subject : McpSubject) :
  mcp_project_pin_block ms server subject = None ↔ pin_passes ms server subject.
Proof.
  unfold mcp_project_pin_block, pin_passes. destruct (project_mcp ms) as [|src owner]; [done|].
  rewrite <-grants_exception_true. destruct (project_scoped subject), (grants_exception _ _ _); naive_solver.
Qed.

Lemma verdict_allowed_iff (ms : ManagedSettings) (server : McpServer) (subject : McpSubject) :
  mcp_verdict ms server subject = Allowed ↔ passes ms server subject.
Proof.
  unfold mcp_verdict, passes, source_passes.
  pose proof (denying_none (mcp_allowlist ms) server (origin subject)) as Hd.
  pose proof (blocking_none (mcp_allowlist ms) server (origin subject)) as Hb.
  pose proof (pin_block_none ms server subject) as Hp.
  destruct (denying_source _ _ _) as [d|].
  { split; [done|]. intros [Ha _]. assert (Some d = None) as [=]. apply Hd. intros. by apply Ha. }
  destruct (blocking_allow_source _ _ _) as [b|].
  { split; [done|]. intros [Ha _]. assert (Some b = None) as [=]. apply Hb. intros s ? ?.
    by destruct (Ha s) as (_ & ? & ?). }
  destruct (mcp_project_pin_block _ _ _) as [r|].
  { split; [done|]. intros [_ Ha]. by apply Hp in Ha. }
  split; [|done]. intros _. split; [|by apply Hp]. intros s Hin Hbi. split; [by apply Hd|by apply Hb].
Qed.

(** ** What a layer contributes *)

(** The JSON the engine reads of a layer: [None] if the layer has no policy key,
    [Some None] if its keys cannot be read. *)
Definition layer_json (layer : PolicyLayer) : option (option Json) :=
  let policy_table := List.filter (fun kv => mem kv.1 MANAGED_POLICY_CONFIG_KEYS)
                        (default [] (toml_table (layer_value layer))) in
  if bool_decide (length policy_table = 0) then None else Some (toml_to_json policy_table).

Definition locked_source (path : bytes) (tier : PolicyLayerTier) : McpServerAllowlist :=
  with_lockdown (with_ownership (tier_ownership tier) (with_authority (tier_authority tier)
    (McpServerAllowlist_new [] [] (Some path)))).

Definition layer_source (layer : PolicyLayer) : option McpServerAllowlist :=
  match layer_json layer with
  | None => None
  | Some None => Some (locked_source (layer_path layer) (layer_tier layer))
  | Some (Some json) => mcp_source json (layer_path layer) (layer_tier layer)
  end.

Definition json_engages (json : Json) (p : BoolPin) : bool :=
  bool_decide (policy_bool json (pin_keys p) (engages_on p) = Some (engages_on p)).

(** Plugin updates are also pinned off by a managed marketplace that asks for it. *)
Definition source_engages (json : Json) (tier : PolicyLayerTier) (p : BoolPin) : bool :=
  json_engages json p
  || match p with PinPluginAutoUpdate => ex_pin_off (parse_extra_marketplaces json (tier_ownership tier)) | _ => false end.

Definition layer_engages (layer : PolicyLayer) (p : BoolPin) : bool :=
  match layer_json layer with
  | None => false
  | Some None => true
  | Some (Some json) => source_engages json (layer_tier layer) p
  end.

(** The marketplaces a layer restricts to, and those it adds. *)
Definition source_marketplaces (json : Json) (path : bytes) (tier : PolicyLayerTier) : option MarketplaceAllowlist :=
  let strict := parse_strict_marketplaces json in
  if is_absent strict then None else Some (mkMarketplaces (key_entries strict) (Some path) (tier_authority tier)).

Definition layer_marketplaces (layer : PolicyLayer) : option MarketplaceAllowlist :=
  match layer_json layer with
  | None => None
  | Some None => Some (mkMarketplaces [] (Some (layer_path layer)) (tier_authority (layer_tier layer)))
  | Some (Some json) => source_marketplaces json (layer_path layer) (layer_tier layer)
  end.

Definition layer_extras (layer : PolicyLayer) : list ManagedMarketplace :=
  match layer_json layer with
  | Some (Some json) => ex_entries (parse_extra_marketplaces json (tier_ownership (layer_tier layer)))
  | _ => []
  end.

Definition claim_all (l es : list ManagedMarketplace) : list ManagedMarketplace := foldl (fun l e => claim_marketplace e l) l es.

(** The parts of the settings, through the folds of one layer. *)
Lemma set_extra_fold (es : list ManagedMarketplace) (ms : ManagedSettings) :
  let ms' := foldl (fun ms extra => set_extra (claim_marketplace extra (extra_marketplaces ms)) ms) ms es in
  mcp_allowlist ms' = mcp_allowlist ms ∧ (∀ p, pin_of ms' p = pin_of ms p) ∧ marketplace_allowlist ms' = marketplace_allowlist ms
  ∧ extra_marketplaces ms' = claim_all (extra_marketplaces ms) es.
Proof.
  revert ms. induction es as [|e es IH]; intros ms; simpl; [done|].
  destruct (IH (set_extra (claim_marketplace e (extra_marketplaces ms)) ms)) as (-> & Hp & -> & ->). split_and!; [done| |done|done].
  intros p. rewrite Hp. by destruct p.
Qed.

Lemma pin_disabled_twice (p : PolicyPin) (path : bytes) (o : PolicyLayerOwnership) :
  pin_disabled (pin_disabled p path o) path o = pin_disabled p path o.
Proof. by destruct p as [|? []], o. Qed.

Record applied (ms ms' : ManagedSettings) (source : option McpServerAllowlist) (engages : BoolPin → bool) (path : bytes) (o : PolicyLayerOwnership)
  (restricts : option MarketplaceAllowlist) (extras : list ManagedMarketplace) : Prop := {
  applied_mcp : mcp_allowlist ms' = mcp_allowlist ms ++ option_list source;
  applied_pin p : pin_of ms' p = if engages p then pin_disabled (pin_of ms p) path o else pin_of ms p;
  applied_marketplaces : marketplace_allowlist ms' = marketplace_allowlist ms ++ option_list restricts;
  applied_extras : extra_marketplaces ms' = claim_all (extra_marketplaces ms) extras;
}.

Lemma apply_source_parts (ms : ManagedSettings) (json : Json) (path : bytes) (tier : PolicyLayerTier) :
  applied ms (apply_policy_source ms json path tier) (mcp_source json path tier) (source_engages json tier) path (tier_ownership tier)
    (source_marketplaces json path tier) (ex_entries (parse_extra_marketplaces json (tier_ownership tier))).
Proof.
  unfold apply_policy_source. set (base := match mcp_source json path tier with Some s => push_mcp s ms | None => ms end).
  set (pinned := foldl _ base BoolPin_ALL). set (strict := parse_strict_marketplaces json).
  set (ms1 := if negb (is_absent strict) then _ else pinned).
  set (ms2 := if ex_pin_off _ then _ else ms1).
  destruct (set_extra_fold (ex_entries (parse_extra_marketplaces json (tier_ownership tier))) ms2) as (E1 & E2 & E3 & E4).
  assert (mcp_allowlist base = mcp_allowlist ms ++ option_list (mcp_source json path tier)
          ∧ (∀ p, pin_of base p = pin_of ms p) ∧ marketplace_allowlist base = marketplace_allowlist ms ∧ extra_marketplaces base = extra_marketplaces ms) as (B1 & B2 & B3 & B4).
  { unfold base. destruct (mcp_source _ _ _); simpl; [by split_and!; [|intros []|..]|by rewrite app_nil_r]. }
  assert (mcp_allowlist pinned = mcp_allowlist base ∧ marketplace_allowlist pinned = marketplace_allowlist base ∧ extra_marketplaces pinned = extra_marketplaces base
    ∧ ∀ p, pin_of pinned p = if json_engages json p then pin_disabled (pin_of base p) path (tier_ownership tier) else pin_of base p) as (P1 & P3 & P4 & P2).
  { unfold pinned, BoolPin_ALL. simpl. unfold apply_pin, json_engages. split_and!; [by repeat case_bool_decide..|]. intros []; by repeat case_bool_decide. }
  assert (mcp_allowlist ms1 = mcp_allowlist pinned ∧ (∀ p, pin_of ms1 p = pin_of pinned p) ∧ extra_marketplaces ms1 = extra_marketplaces pinned
    ∧ marketplace_allowlist ms1 = marketplace_allowlist pinned ++ option_list (source_marketplaces json path tier)) as (M1 & M2 & M4 & M3).
  { unfold ms1, source_marketplaces. fold strict. destruct (is_absent strict); simpl; [by rewrite app_nil_r|]. split_and!; [done|by intros []|done..]. }
  assert (mcp_allowlist ms2 = mcp_allowlist ms1 ∧ marketplace_allowlist ms2 = marketplace_allowlist ms1 ∧ extra_marketplaces ms2 = extra_marketplaces ms1) as (N1 & N3 & N4).
  { unfold ms2. by destruct (ex_pin_off _). }
  split.
  - by rewrite E1, N1, M1, P1, B1.
  - intros p. rewrite E2. unfold ms2, source_engages. destruct (ex_pin_off (parse_extra_marketplaces json (tier_ownership tier))).
    + unfold disable_pin. destruct p; cbn [set_pin pin_of project_mcp plugin_auto_update non_managed_hooks];
        [specialize (M2 PinProjectMcp); specialize (P2 PinProjectMcp); specialize (B2 PinProjectMcp)
        |specialize (M2 PinPluginAutoUpdate); specialize (P2 PinPluginAutoUpdate); specialize (B2 PinPluginAutoUpdate)
        |specialize (M2 PinNonManagedHooks); specialize (P2 PinNonManagedHooks); specialize (B2 PinNonManagedHooks)];
        cbn [pin_of] in *; rewrite M2, P2, B2; destruct (json_engages _ _); cbn [orb]; by rewrite ?pin_disabled_twice.
    + rewrite M2, P2, B2. destruct (json_engages json p); [done|]. by destruct p.
  - by rewrite E3, N3, M3, P3, B3.
  - by rewrite E4, N4, M4, P4, B4.
Qed.

Lemma apply_layer_parts (ms : ManagedSettings) (layer : PolicyLayer) :
  applied ms (apply_layer ms layer) (layer_source layer) (layer_engages layer) (layer_path layer) (tier_ownership (layer_tier layer))
    (layer_marketplaces layer) (layer_extras layer).
Proof.
  unfold apply_layer, layer_source, layer_engages, layer_marketplaces, layer_extras, layer_json.
  destruct (bool_decide _); [by split; simpl; rewrite ?app_nil_r|].
  destruct (toml_to_json _) as [json|]; [apply apply_source_parts|]. split; [done| |done..]. by intros [].
Qed.

Lemma fold_layers_sources (layers : list PolicyLayer) (ms : ManagedSettings) :
  mcp_allowlist (foldl apply_layer ms layers) = mcp_allowlist ms ++ omap layer_source layers.
Proof.
  revert ms. induction layers as [|l layers IH]; intros ms; simpl; [by rewrite app_nil_r|].
  rewrite IH, (applied_mcp _ _ _ _ _ _ _ _ (apply_layer_parts ms l)), <-app_assoc.
  by destruct (layer_source l).
Qed.

(** The pin is one an administrator's layer holds. *)
Definition admin_pinned (p : PolicyPin) : bool := match p with Disabled _ Admin => true | _ => false end.

Definition is_admin (t : PolicyLayerTier) : bool := bool_decide (tier_ownership t = Admin).

Lemma admin_pinned_disabled (p : PolicyPin) (path : bytes) (o : PolicyLayerOwnership) :
  admin_pinned (pin_disabled p path o) = admin_pinned p || bool_decide (o = Admin).
Proof. by destruct p as [|? []], o. Qed.

Lemma fold_layers_admin_pin (p : BoolPin) (layers : list PolicyLayer) (ms : ManagedSettings) :
  admin_pinned (pin_of (foldl apply_layer ms layers) p)
  = admin_pinned (pin_of ms p) || existsb (fun l => layer_engages l p && is_admin (layer_tier l)) layers.
Proof.
  revert ms. induction layers as [|l layers IH]; intros ms; simpl; [by rewrite orb_false_r|].
  rewrite IH, (applied_pin _ _ _ _ _ _ _ _ (apply_layer_parts ms l)). unfold is_admin.
  destruct (layer_engages l p); simpl; [|done]. by rewrite admin_pinned_disabled, orb_assoc.
Qed.

Lemma fold_layers_marketplaces (layers : list PolicyLayer) (ms : ManagedSettings) :
  marketplace_allowlist (foldl apply_layer ms layers) = marketplace_allowlist ms ++ omap layer_marketplaces layers.
Proof.
  revert ms. induction layers as [|l layers IH]; intros ms; simpl; [by rewrite app_nil_r|].
  rewrite IH, (applied_marketplaces _ _ _ _ _ _ _ _ (apply_layer_parts ms l)), <-app_assoc. by destruct (layer_marketplaces l).
Qed.

Lemma fold_layers_extras (layers : list PolicyLayer) (ms : ManagedSettings) :
  extra_marketplaces (foldl apply_layer ms layers) = claim_all (extra_marketplaces ms) (concat (map layer_extras layers)).
Proof.
  revert ms. induction layers as [|l layers IH]; intros ms; simpl; [done|].
  rewrite IH, (applied_extras _ _ _ _ _ _ _ _ (apply_layer_parts ms l)). unfold claim_all. by rewrite foldl_app.
Qed.

(** ** The resolved policy *)

Lemma elem_of_opt {A} (o : option A) (x : A) : x ∈ option_list o ↔ o = Some x.
Proof. destruct o; simpl; [rewrite list_elem_of_singleton; naive_solver|]. split; [by intros ?%elem_of_nil|done]. Qed.

Lemma elem_of_omap_source (layers : list PolicyLayer) (s : McpServerAllowlist) :
  s ∈ omap layer_source layers ↔ ∃ l, l ∈ layers ∧ layer_source l = Some s.
Proof. apply list_elem_of_omap. Qed.

Lemma resolve_sources (claude : option (Json * bytes)) (layers : list PolicyLayer) (s : McpServerAllowlist) :
  s ∈ mcp_allowlist (resolve_managed_settings claude layers) ↔
  (∃ l, l ∈ layers ∧ layer_source l = Some s)
  ∨ ∃ json path, claude = Some (json, path) ∧ mcp_source json path Vendor = Some s.
Proof.
  unfold resolve_managed_settings. destruct claude as [[json path]|].
  - rewrite (applied_mcp _ _ _ _ _ _ _ _ (apply_source_parts (foldl apply_layer default_settings
      (sort_by_key (fun l => tier_rank (layer_tier l)) layers)) json path Vendor)), fold_layers_sources. simpl. rewrite elem_of_app, elem_of_omap_source.
    setoid_rewrite sort_by_key_elem. rewrite elem_of_opt. naive_solver.
  - rewrite fold_layers_sources. simpl. rewrite elem_of_omap_source. setoid_rewrite sort_by_key_elem.
    naive_solver.
Qed.

(** What the source of a layer holds. *)
Lemma mcp_source_fields (json : Json) (path : bytes) (tier : PolicyLayerTier) (s : McpServerAllowlist) :
  mcp_source json path tier = Some s →
  ownership s = tier_ownership tier ∧ source_authority s = tier_authority tier
  ∧ deny_entries s = compile_entries DenyUrlMatcher_new (key_entries (parse_mcp_entry_list json ListDeny))
  ∧ lockdown s = locks_down (parse_mcp_entry_list json ListAllow) || is_malformed (parse_mcp_entry_list json ListDeny).
Proof.
  unfold mcp_source. set (only := bool_decide (policy_bool _ _ _ = _)). set (locked := _ || is_malformed _).
  cbv zeta. destruct (_ || only); [|done]. intros [= <-]. by destruct only, locked.
Qed.

Lemma mcp_source_some (json : Json) (path : bytes) (tier : PolicyLayerTier) :
  locks_down (parse_mcp_entry_list json ListAllow) || is_malformed (parse_mcp_entry_list json ListDeny) = true
  ∨ key_entries (parse_mcp_entry_list json ListDeny) ≠ [] →
  is_Some (mcp_source json path tier).
Proof.
  unfold mcp_source. set (locked := _ || is_malformed _). cbv zeta. intros [->|Hne]; [by eexists|].
  destruct (key_entries (parse_mcp_entry_list json ListDeny)) as [|e es]; [done|].
  rewrite !orb_true_r, !orb_true_l. by eexists.
Qed.

Lemma mcp_source_tier (json : Json) (path : bytes) (tier : PolicyLayerTier) (s : McpServerAllowlist) :
  mcp_source json path tier = Some s →
  ownership s = tier_ownership tier ∧ source_authority s = tier_authority tier.
Proof. intros Hs. by destruct (mcp_source_fields _ _ _ _ Hs) as (? & ? & _). Qed.

Lemma layer_source_tier (l : PolicyLayer) (s : McpServerAllowlist) :
  layer_source l = Some s →
  ownership s = tier_ownership (layer_tier l) ∧ source_authority s = tier_authority (layer_tier l).
Proof.
  unfold layer_source. destruct (layer_json l) as [[json|]|]; [apply mcp_source_tier|by intros [= <-]|done].
Qed.

Lemma resolve_admin_pin (p : BoolPin) (claude : option (Json * bytes)) (layers : list PolicyLayer) :
  admin_pinned (pin_of (resolve_managed_settings claude layers) p) = true ↔
  (∃ l, l ∈ layers ∧ layer_engages l p = true ∧ is_admin (layer_tier l) = true)
  ∨ ∃ json path, claude = Some (json, path) ∧ source_engages json Vendor p = true.
Proof.
  assert (admin_pinned (pin_of (foldl apply_layer default_settings
            (sort_by_key (fun l => tier_rank (layer_tier l)) layers)) p) = true ↔
          ∃ l, l ∈ layers ∧ layer_engages l p = true ∧ is_admin (layer_tier l) = true) as Hf.
  { rewrite fold_layers_admin_pin. assert (admin_pinned (pin_of default_settings p) = false) as -> by by destruct p. cbn [orb].
    rewrite existsb_exists. setoid_rewrite <-list_elem_of_In. setoid_rewrite sort_by_key_elem. by setoid_rewrite andb_true_iff. }
  unfold resolve_managed_settings. destruct claude as [[json path]|]; [|rewrite Hf; naive_solver].
  rewrite (applied_pin _ _ _ _ _ _ _ _ (apply_source_parts (foldl apply_layer default_settings
    (sort_by_key (fun l => tier_rank (layer_tier l)) layers)) json path Vendor) p).
  rewrite <-Hf. clear Hf. destruct (source_engages json Vendor p) eqn:E.
  - rewrite admin_pinned_disabled, orb_true_r. split; [|done]. intros _. right. by exists json, path.
  - split; [by left|]. intros [?|(? & ? & [= <- <-] & ?)]; [done|congruence].
Qed.

Lemma resolve_marketplaces (claude : option (Json * bytes)) (layers : list PolicyLayer) (m : MarketplaceAllowlist) :
  m ∈ marketplace_allowlist (resolve_managed_settings claude layers) ↔
  (∃ l, l ∈ layers ∧ layer_marketplaces l = Some m)
  ∨ ∃ json path, claude = Some (json, path) ∧ source_marketplaces json path Vendor = Some m.
Proof.
  unfold resolve_managed_settings. destruct claude as [[json path]|].
  - rewrite (applied_marketplaces _ _ _ _ _ _ _ _ (apply_source_parts (foldl apply_layer default_settings
      (sort_by_key (fun l => tier_rank (layer_tier l)) layers)) json path Vendor)), fold_layers_marketplaces. simpl.
    rewrite elem_of_app, list_elem_of_omap. setoid_rewrite sort_by_key_elem. rewrite elem_of_opt. naive_solver.
  - rewrite fold_layers_marketplaces. simpl. rewrite list_elem_of_omap. setoid_rewrite sort_by_key_elem. naive_solver.
Qed.

(** ** Layers a user can write *)

Definition admin_layers (layers : list PolicyLayer) : list PolicyLayer :=
  List.filter (fun l => is_admin (layer_tier l)) layers.

Lemma elem_of_admin_layers (l : PolicyLayer) (layers : list PolicyLayer) :
  l ∈ admin_layers layers ↔ l ∈ layers ∧ is_admin (layer_tier l) = true.
Proof. unfold admin_layers. by rewrite list_elem_of_In, filter_In, <-list_elem_of_In. Qed.

Lemma admin_source (claude : option (Json * bytes)) (layers : list PolicyLayer) (s : McpServerAllowlist) :
  s ∈ mcp_allowlist (resolve_managed_settings claude (admin_layers layers)) ↔
  s ∈ mcp_allowlist (resolve_managed_settings claude layers) ∧ ownership s = Admin.
Proof.
  rewrite !resolve_sources. setoid_rewrite elem_of_admin_layers. unfold is_admin.
  setoid_rewrite bool_decide_eq_true. split.
  - intros [(l & [Hl Ha] & Hs)|(json & path & -> & Hs)].
    + destruct (layer_source_tier _ _ Hs) as [-> _]. naive_solver.
    + destruct (mcp_source_tier _ _ _ _ Hs) as [-> _]. naive_solver.
  - intros [[(l & Hl & Hs)|Hv] Ho]; [left|by right]. exists l. split_and!; [done| |done].
    destruct (layer_source_tier _ _ Hs). congruence.
Qed.

Lemma granted_admin (claude : option (Json * bytes)) (layers : list PolicyLayer) (server : McpServer) :
  granted (mcp_allowlist (resolve_managed_settings claude layers)) server Admin →
  granted (mcp_allowlist (resolve_managed_settings claude (admin_layers layers))) server Admin.
Proof.
  intros (g & Hg & Ha & Hm). exists g. split_and!; [|done..]. apply admin_source. split; [done|].
  unfold accepts_grant_from in Ha. simpl in Ha. by apply bool_decide_eq_true in Ha.
Qed.

(** A pin that only administrators' layers set is theirs. *)
Lemma admin_only_pin (p : BoolPin) (claude : option (Json * bytes)) (layers : list PolicyLayer) (src : bytes) (o : PolicyLayerOwnership) :
  pin_of (resolve_managed_settings claude (admin_layers layers)) p = Disabled src o → o = Admin.
Proof.
  intros Hp.
  assert (∀ ls ms, Forall (fun l => is_admin (layer_tier l) = true) ls →
            (pin_of ms p = Unpinned ∨ admin_pinned (pin_of ms p) = true) →
            pin_of (foldl apply_layer ms ls) p = Unpinned
            ∨ admin_pinned (pin_of (foldl apply_layer ms ls) p) = true) as Hf.
  { intros ls ms Hall. revert ms. induction Hall as [|l ls Ha _ IH]; intros ms Hms; [done|]. simpl. apply IH.
    rewrite (applied_pin _ _ _ _ _ _ _ _ (apply_layer_parts ms l)). destruct (layer_engages _ _); [|done]. right.
    rewrite admin_pinned_disabled. unfold is_admin in Ha. by rewrite Ha, orb_true_r. }
  specialize (Hf (sort_by_key (fun l => tier_rank (layer_tier l)) (admin_layers layers)) default_settings).
  set (before := foldl apply_layer default_settings (sort_by_key (fun l => tier_rank (layer_tier l)) (admin_layers layers))) in *.
  assert (pin_of before p = Unpinned ∨ admin_pinned (pin_of before p) = true) as Hb.
  { apply Hf; [|left; by destruct p]. apply Forall_forall. intros l. rewrite sort_by_key_elem. by intros [_ ?]%elem_of_admin_layers. }
  unfold resolve_managed_settings in Hp. fold before in Hp. destruct claude as [[json path]|].
  - rewrite (applied_pin _ _ _ _ _ _ _ _ (apply_source_parts before json path Vendor)) in Hp.
    destruct (source_engages json Vendor p).
    + assert (admin_pinned (Disabled src o) = true) as Ha by (rewrite <-Hp, admin_pinned_disabled; apply orb_true_r). by destruct o.
    + destruct Hb as [Hb|Hb]; [congruence|]. rewrite Hp in Hb. by destruct o.
  - destruct Hb as [Hb|Hb]; [congruence|]. rewrite Hp in Hb. by destruct o.
Qed.

(** A pin of the administrator's is in the full policy as well. *)
Lemma admin_pin_kept (p : BoolPin) (claude : option (Json * bytes)) (layers : list PolicyLayer) :
  is_disabled (pin_of (resolve_managed_settings claude (admin_layers layers)) p) = true →
  admin_pinned (pin_of (resolve_managed_settings claude layers) p) = true.
Proof.
  intros Hd. destruct (pin_of (resolve_managed_settings claude (admin_layers layers)) p) as [|src o] eqn:E; [done|].
  pose proof (admin_only_pin _ _ _ _ _ E) as ->. apply resolve_admin_pin.
  assert (admin_pinned (Disabled src Admin) = true) as Ha by done.
  rewrite <-E in Ha. apply resolve_admin_pin in Ha. setoid_rewrite elem_of_admin_layers in Ha. naive_solver.
Qed.

(** *** Names of marketplaces *)

Definition named_market (name : bytes) (l : list ManagedMarketplace) : option ManagedMarketplace := List.find (fun m => mm_name m =b name) l.

Lemma claim_named (e : ManagedMarketplace) (name : bytes) (l : list ManagedMarketplace) :
  named_market name (claim_marketplace e l)
  = if mm_name e =b name then
      Some match named_market name l with
           | Some c => match mm_ownership c, mm_ownership e with User, Admin => e | _, _ => c end
           | None => e
           end
    else named_market name l.
Proof.
  induction l as [|c l IH]; cbn [claim_marketplace named_market List.find]; [by destruct (mm_name e =b name)|]. unfold named_market in *.
  destruct (mm_name c =b mm_name e) eqn:Ec.
  - apply beq_true in Ec. destruct (mm_name e =b name) eqn:En.
    + apply beq_true in En. cbn [List.find]. rewrite Ec, En, beq_refl. destruct (mm_ownership c), (mm_ownership e); by rewrite ?Ec, ?En, beq_refl.
    + cbn [List.find]. rewrite Ec, En. destruct (mm_ownership c), (mm_ownership e); by rewrite ?Ec, ?En.
  - cbn [List.find]. destruct (mm_name c =b name) eqn:Ecn; [|exact IH].
    destruct (mm_name e =b name) eqn:En; [|done]. apply beq_true in Ecn, En. apply beq_false in Ec. congruence.
Qed.

(** The administrator's entry of a name is the entry; where there is none, a user's may be. *)
Definition outranks (full admin : list ManagedMarketplace) : Prop :=
  ∀ name, match named_market name admin with
          | Some m => mm_ownership m = Admin ∧ named_market name full = Some m
          | None => match named_market name full with Some m => mm_ownership m = User | None => True end
          end.

Lemma outranks_admin (e : ManagedMarketplace) (full admin : list ManagedMarketplace) :
  mm_ownership e = Admin → outranks full admin → outranks (claim_marketplace e full) (claim_marketplace e admin).
Proof.
  intros He Ho name. specialize (Ho name). rewrite !claim_named, He. destruct (mm_name e =b name); [|exact Ho].
  destruct (named_market name admin) as [m|].
  - destruct Ho as [Hm ->]. by rewrite Hm.
  - destruct (named_market name full) as [m|]; [|done]. by rewrite Ho.
Qed.

Lemma outranks_user (e : ManagedMarketplace) (full admin : list ManagedMarketplace) :
  mm_ownership e = User → outranks full admin → outranks (claim_marketplace e full) admin.
Proof.
  intros He Ho name. specialize (Ho name). rewrite claim_named, He. destruct (mm_name e =b name); [|exact Ho].
  destruct (named_market name admin) as [m|].
  - destruct Ho as [Hm ->]. by rewrite Hm.
  - destruct (named_market name full) as [m|]; [|done]. by rewrite Ho.
Qed.

Lemma extras_owned (json : Json) (o : PolicyLayerOwnership) : Forall (fun m => mm_ownership m = o) (ex_entries (parse_extra_marketplaces json o)).
Proof.
  unfold parse_extra_marketplaces. destruct (policy_field _ _) as [|value|]; [constructor| |constructor].
  destruct (json_object value) as [m|]; [|constructor].
  assert (∀ out, Forall (fun m => mm_ownership m = o) (ex_entries out) → Forall (fun m => mm_ownership m = o) (ex_entries (foldl (extra_entry o) out m))) as Hg;
    [|apply Hg; constructor].
  induction m as [|[name entry] m IH]; intros out Hout; [done|]. cbn [foldl]. apply IH. unfold extra_entry.
  destruct (json_object entry); [|done]. case_bool_decide; destruct (json_get entry $"source" ≫= marketplace_source_from_json); try done;
    cbn [ex_entries]; apply Forall_app_2; try done; by apply Forall_singleton.
Qed.

Lemma claim_all_outranks (es full admin : list ManagedMarketplace) (o : PolicyLayerOwnership) :
  Forall (fun m => mm_ownership m = o) es → outranks full admin →
  outranks (claim_all full es) (match o with Admin => claim_all admin es | User => admin end).
Proof.
  intros Hes. revert full admin. induction Hes as [|e es He _ IH]; intros full admin Ho; [by destruct o|]. cbn [claim_all foldl].
  destruct o; [apply (IH (claim_marketplace e full) (claim_marketplace e admin))|apply (IH (claim_marketplace e full) admin)];
    [by apply outranks_admin|by apply outranks_user].
Qed.

Lemma resolve_outranks (claude : option (Json * bytes)) (layers : list PolicyLayer) :
  outranks (extra_marketplaces (resolve_managed_settings claude layers)) (extra_marketplaces (resolve_managed_settings claude (admin_layers layers))).
Proof.
  assert (∀ ls full admin, outranks full admin →
    outranks (claim_all full (concat (map layer_extras ls))) (claim_all admin (concat (map layer_extras (admin_layers ls))))) as Hf.
  { induction ls as [|l ls IH]; intros full admin Ho; [done|]. cbn [map concat admin_layers List.filter]. fold (admin_layers ls).
    assert (Forall (fun m => mm_ownership m = tier_ownership (layer_tier l)) (layer_extras l)) as Hown.
    { unfold layer_extras. destruct (layer_json l) as [[json|]|]; [apply extras_owned|constructor..]. }
    pose proof (claim_all_outranks _ _ _ _ Hown Ho) as H1. unfold is_admin. unfold claim_all in *. rewrite foldl_app.
    destruct (tier_ownership (layer_tier l)) eqn:Et; [rewrite bool_decide_eq_true_2 by done|rewrite bool_decide_eq_false_2 by done].
    - cbn [map concat]. rewrite foldl_app. by apply IH.
    - by apply IH. }
  specialize (Hf (sort_by_key (fun l => tier_rank (layer_tier l)) layers) [] []).
  unfold admin_layers in *. rewrite <-sort_by_key_filter in Hf. unfold resolve_managed_settings. destruct claude as [[json path]|].
  - rewrite !(applied_extras _ _ _ _ _ _ _ _ (apply_source_parts _ json path Vendor)), !fold_layers_extras.
    apply (claim_all_outranks _ _ _ Admin); [apply (extras_owned json Admin)|]. by apply Hf.
  - rewrite !fold_layers_extras. by apply Hf.
Qed.

(** C32: nothing in the layers a user can write lifts a restriction of the
    administrator's.  A server the full policy lets run is one the policy without the
    user's layers lets run as well; a marketplace the full policy allows is one that
    policy allows; each of the three pins (project servers, plugin updates, hooks) that
    policy sets is set in the full one, and by the administrator; and a marketplace name the
    administrator gives out leads to the administrator's entry. *)
Theorem admin_policy_binds (claude : option (Json * bytes)) (layers : list PolicyLayer) :
  let full := resolve_managed_settings claude layers in
  let admin := resolve_managed_settings claude (admin_layers layers) in
  (∀ server subject, mcp_verdict full server subject = Allowed → mcp_verdict admin server subject = Allowed)
  ∧ (∀ url o, marketplace_url_allowed (marketplace_allowlist full) url o = true → marketplace_url_allowed (marketplace_allowlist admin) url o = true)
  ∧ (∀ p, is_disabled (pin_of admin p) = true → ∃ source, pin_of full p = Disabled source Admin)
  ∧ (∀ name m, named_market name (extra_marketplaces admin) = Some m → named_market name (extra_marketplaces full) = Some m).
Proof.
  cbv zeta. split_and!.
  - intros server subject. rewrite !verdict_allowed_iff. intros [Hs Hp]. split.
    + intros s [Hin Ho]%admin_source Hb. destruct (Hs s Hin Hb) as (Hd & Hm & Ha). split_and!; [done| |done].
      intros Honly. specialize (Hm Honly). rewrite Ho in *. by apply granted_admin.
    + unfold pin_passes in *. destruct (project_mcp (resolve_managed_settings claude (admin_layers layers))) as [|src o] eqn:E; [done|].
      pose proof (admin_only_pin PinProjectMcp _ _ _ _ E) as ->.
      assert (admin_pinned (project_mcp (resolve_managed_settings claude layers)) = true) as Hfull
        by (apply (admin_pin_kept PinProjectMcp); cbn [pin_of]; by rewrite E).
      destruct (project_mcp (resolve_managed_settings claude layers)) as [|? []]; try done.
      intros Hscoped. by apply granted_admin, Hp.
  - intros url o. unfold marketplace_url_allowed. rewrite !forallb_forall. intros Hall m Hm. apply Hall.
    rewrite filter_In, <-list_elem_of_In in *. destruct Hm as [Hm Hb]. split; [|done]. apply resolve_marketplaces. apply resolve_marketplaces in Hm.
    setoid_rewrite elem_of_admin_layers in Hm. naive_solver.
  - intros p Hd%admin_pin_kept. destruct (pin_of (resolve_managed_settings claude layers) p) as [|src []]; try done. by exists src.
  - intros name m Hm. pose proof (resolve_outranks claude layers name) as Ho. rewrite Hm in Ho. apply Ho.
Qed.

(** ** The restrictions of one layer *)

Lemma blocked_by_source (ms : ManagedSettings) (s : McpServerAllowlist) (server : McpServer) (subject : McpSubject) :
  s ∈ mcp_allowlist ms → binds s (origin subject) = true → allows_ignoring_managed_only s server = false →
  mcp_verdict ms server subject ≠ Allowed.
Proof. rewrite verdict_allowed_iff. intros Hin Hb Ha [Hs _]. destruct (Hs s Hin Hb) as (_ & _ & ?). congruence. Qed.

Lemma denied_by_source (ms : ManagedSettings) (s : McpServerAllowlist) (server : McpServer) (subject : McpSubject) :
  s ∈ mcp_allowlist ms → binds s (origin subject) = true → source_denies s server = true →
  ∃ source, mcp_verdict ms server subject = Blocked (Deny source).
Proof.
  intros Hin Hb Hd. unfold mcp_verdict. destruct (denying_source _ _ _) as [d|] eqn:E; [by eexists|].
  rewrite denying_none in E. by rewrite E in Hd.
Qed.

Lemma native_binds (l : PolicyLayer) (s : McpServerAllowlist) (o : PolicySubjectOrigin) :
  layer_source l = Some s → layer_tier l ≠ Vendor → binds s o = true.
Proof.
  intros Hs Ht. destruct (layer_source_tier _ _ Hs) as [_ Ha]. unfold binds, authority_binds. rewrite Ha.
  by destruct (layer_tier l).
Qed.

(** Every layer of the agent's own configuration binds in the resolved policy,
    and fails closed: if its keys cannot be read, its deny list is malformed or
    holds an entry that cannot be enforced, or its allow list is empty or
    malformed, no server runs; and a server that one of its deny entries matches
    is blocked as denied. *)
Theorem layer_restrictions_bind (claude : option (Json * bytes)) (layers : list PolicyLayer) (l : PolicyLayer)
    (keys : option Json) (server : McpServer) (subject : McpSubject) :
  l ∈ layers → layer_tier l ≠ Vendor → layer_json l = Some keys →
  let verdict := mcp_verdict (resolve_managed_settings claude layers) server subject in
  match keys with
  | None => verdict ≠ Allowed
  | Some json =>
      (is_malformed (parse_mcp_entry_list json ListDeny) || locks_down (parse_mcp_entry_list json ListAllow) = true →
       verdict ≠ Allowed)
      ∧ ∀ denied entry,
          parse_mcp_entry_list json ListDeny = Present denied → entry ∈ denied → mcp_transport_known server = true →
          match entry with
          | EntryHttp pattern =>
              ∃ url, server_url server = Some url ∧ DenyUrlMatcher_matches (DenyUrlMatcher_new pattern) url = true
          | _ => mcp_entry_matches entry server = true
          end → ∃ source, verdict = Blocked (Deny source)
  end.
Proof.
  intros Hl Ht Hj verdict. destruct keys as [json|].
  2:{ assert (layer_source l = Some (locked_source (layer_path l) (layer_tier l))) as Hs
        by (unfold layer_source; by rewrite Hj).
      eapply blocked_by_source; [apply resolve_sources; left; by eauto|by eapply native_binds|done]. }
  assert (layer_source l = mcp_source json (layer_path l) (layer_tier l)) as Hs by (unfold layer_source; by rewrite Hj).
  split.
  - intros Hlock. rewrite orb_comm in Hlock.
    destruct (mcp_source_some json (layer_path l) (layer_tier l)) as [s E]; [by left|].
    destruct (mcp_source_fields _ _ _ _ E) as (_ & _ & _ & Hlo). rewrite <-Hs in E.
    eapply blocked_by_source; [apply resolve_sources; left; by eauto|by eapply native_binds|].
    unfold allows_ignoring_managed_only. by rewrite Hlo, Hlock.
  - intros denied entry Hd Hin Hk Hm.
    destruct (mcp_source_some json (layer_path l) (layer_tier l)) as [s E].
    { right. rewrite Hd. by destruct denied; [apply elem_of_nil in Hin|]. }
    destruct (mcp_source_fields _ _ _ _ E) as (_ & _ & Hde & _). rewrite <-Hs in E. rewrite Hd in Hde.
    eapply denied_by_source; [apply resolve_sources; left; by eauto|by eapply native_binds|].
    unfold source_denies. rewrite Hk, Hde. simpl. apply existsb_exists.
    eexists. split; [apply in_map; by apply list_elem_of_In|]. unfold compiled_matches. simpl.
    destruct entry; simpl in *; try done. by destruct Hm as (url & -> & ->).
Qed.

(** A server runs exactly when every source binding it passes it: no deny
    entry matches; a managed-only source has a grant from a layer that may lift
    it; a source that restricts the server's kind lists it; and a project server
    under a project pin has such a grant.  Strictest wins over all sources. *)
Theorem mcp_verdict_allowed_iff (ms : ManagedSettings) (server : McpServer) (subject : McpSubject) :
  mcp_verdict ms server subject = Allowed ↔ passes ms server subject.
Proof. apply verdict_allowed_iff. Qed.

End ManagedLaws.

(** ** An organisation's layers *)

(** JSON and TOML values for the examples: strings, booleans, arrays, and tables
    as the list of their keys and values. *)
Definition Value : Type := gen_tree bytes.
Definition value_bool (b : bool) : Value := GenNode (if b then 1 else 0) [].
Definition value_array (l : list Value) : Value := GenNode 2 l.
Definition value_table (l : list (bytes * Value)) : Value :=
  GenNode 3 (flat_map (fun kv => [GenLeaf kv.1; kv.2]) l).

Fixpoint table_pairs (l : list Value) : list (bytes * Value) :=
  match l with
  | GenLeaf k :: v :: r => (k, v) :: table_pairs r
  | _ => []
  end.

Definition value_object (v : Value) : option (list (bytes * Value)) :=
  match v with GenNode 3 l => Some (table_pairs l) | _ => None end.

Definition value_get (v : Value) (key : bytes) : option Value :=
  l ← value_object v; snd <$> List.find (fun kv => kv.1 =b key) l.

Definition demo_values : PolicyValues :=
  Build_PolicyValues to_ascii_lowercase Value _ value_get
    (fun v => match v with GenNode 0 [] => Some false | GenNode 1 [] => Some true | _ => None end)
    (fun v => match v with GenLeaf s => Some s | _ => None end)
    (fun v => match v with GenNode 2 l => Some l | _ => None end)
    value_object Value value_object (fun l => Some (value_table l)).

Definition server_entry (key value : string) : Value := value_table [($key, GenLeaf $value)].

(** The administrator denies one server and runs only listed ones; the user's own
    layer lists another. *)
Definition admin_layer : @PolicyLayer demo_values :=
  @mkLayer demo_values SystemRequirements $"/etc/requirements.toml" (value_table
    [($"allowed_mcp_servers", value_array [server_entry "serverName" "tools"]);
     ($"denied_mcp_servers", value_array [server_entry "serverUrl" "https://evil.example"]);
     ($"allow_managed_mcp_servers_only", value_bool true)]).

Definition user_layer : @PolicyLayer demo_values :=
  @mkLayer demo_values UserManaged $"/home/u/managed_config.toml" (value_table
    [($"allowed_mcp_servers", value_array [server_entry "serverName" "tools"; server_entry "serverName" "mine"])]).

Definition org_layers : list (@PolicyLayer demo_values) := [user_layer; admin_layer].

Definition org_settings : ManagedSettings :=
  @resolve_managed_settings demo_urls demo_values None org_layers.

Definition any_subject : McpSubject := mkSubject GrokNative false.

(** What the organisation's policy says of three servers. *)
Example org_verdicts :
  @mcp_verdict demo_urls demo_values org_settings (Stdio $"tools" $"/bin/tools" []) any_subject = Allowed
  ∧ @mcp_verdict demo_urls demo_values org_settings (Stdio $"mine" $"/bin/mine" []) any_subject
    = Blocked (NotGranted $"/etc/requirements.toml")
  ∧ @mcp_verdict demo_urls demo_values org_settings (Http $"tools" $"http://EVIL.example/x") any_subject
    = Blocked (Deny $"/etc/requirements.toml").
Proof. vm_compute. done. Qed.

Lemma admin_policy_binds_witness :
  @mcp_verdict demo_urls demo_values
    (@resolve_managed_settings demo_urls demo_values None (@admin_layers demo_values org_layers))
    (Stdio $"tools" $"/bin/tools" []) any_subject = Allowed.
Proof.
  destruct (@admin_policy_binds demo_urls demo_values None org_layers) as (H & _). apply H. vm_compute. reflexivity.
Defined.

Definition admin_keys : @Json demo_values :=
  value_table (List.filter (fun kv => mem kv.1 MANAGED_POLICY_CONFIG_KEYS)
                 (default [] (value_object (@layer_value demo_values admin_layer)))).

Lemma layer_restrictions_bind_witness :
  ∃ source, @mcp_verdict demo_urls demo_values org_settings (Sse $"tools" $"https://evil.example/sse") any_subject
            = Blocked (Deny source).
Proof.
  destruct (@layer_restrictions_bind demo_urls demo_values None org_layers admin_layer (Some admin_keys)
    (Sse $"tools" $"https://evil.example/sse") any_subject) as [_ Hd].
  - right. left.
  - discriminate.
  - vm_compute. reflexivity.
  - apply (Hd [EntryHttp $"https://evil.example"] (EntryHttp $"https://evil.example")).
    + vm_compute. reflexivity.
    + left.
    + reflexivity.
    + exists $"https://evil.example/sse". split; vm_compute; reflexivity.
Defined.
