(* ===== verification/WebOrigin.v ===== *)
(** * Website origins and policies

    [codegen/xai-grok-sandbox/src/network_policy.rs]: exact [http]/[https] origins
    and the policy over them; [split_host_port] of [command/grants.rs]; and the
    targets of proxy requests that become origins
    ([xai-grok-egress-proxy/src/request.rs]).  [Url::parse] is that of the [url]
    crate ([UrlMatch.UrlEnv]). *)

From S2P Require Import Prelude RustStr StrFind IpAddr UrlMatch.

#[local] Open Scope nat_scope.

(** [str::parse::<IpAddr>()] succeeds. *)
Definition parses_as_ip (s : bytes) : bool :=
  match read_ipv4_addr s with
  | Some (_, rest) => rest =b []
  | None => match parse_ipv6 s with Some _ => true | None => false end
  end.

(** ** Origins *)

Inductive WebsiteOriginError :=
| InvalidSyntax
| InvalidOrigin (value : bytes)
| Userinfo
| Wildcard
| IpLiteral
| InvalidHost (hostname : bytes)
| PortZero.

Record WebsiteOrigin := mkOrigin { scheme : bytes; hostname : bytes; port : N }.

#[export] Instance WebsiteOrigin_eq_dec : EqDecision WebsiteOrigin.
Proof. solve_decision. Defined.

#[export] Instance WebsiteOrigin_countable : Countable WebsiteOrigin.
Proof.
  apply (inj_countable' (fun o => (scheme o, hostname o, port o)) (fun t => mkOrigin t.1.1 t.1.2 t.2)).
  by intros [].
Defined.

(** A control byte or a space. *)
Definition is_blank_byte (a : ascii) : bool := (code a <=? 32) || (code a =? 127).

Definition validate_raw_origin (value : bytes) : result unit WebsiteOriginError :=
  if existsb is_blank_byte value then Err InvalidSyntax
  else if contains_byte backslash value then Err InvalidSyntax
  else
    match (match strip_prefix $"http://" value with
           | Some rest => Some rest
           | None => strip_prefix $"https://" value
           end) with
    | None => Err InvalidSyntax
    | Some authority =>
        let authority := default authority (strip_suffix $"/" authority) in
        if (authority =b []) || contains_any $"/?#" authority then Err InvalidSyntax
        else if contains_byte "@"%char authority then Err Userinfo
        else if contains_byte "*"%char authority then Err Wildcard
        else Ok tt
    end.

Definition valid_label (label : bytes) : bool :=
  negb (label =b []) && (length label <=? 63)
  && forallb (fun a => is_ascii_alphanumeric a || bool_decide (a = "-"%char)) label
  && match head label with Some a => is_ascii_alphanumeric a | None => false end
  && match last label with Some a => is_ascii_alphanumeric a | None => false end.

Definition valid_dns_hostname (name : bytes) : bool :=
  negb (name =b []) && (length name <=? 253) && forallb valid_label (split_on "."%char name).

(** [url.port_or_known_default()] *)
Definition port_or_known_default (u : UrlParts) : option N :=
  match url_port u with
  | Some p => Some p
  | None => if url_scheme u =b $"ftp" then Some 21%N else scheme_default_port (url_scheme u) ≫= parse_u16
  end.

(** A host name without the dot that ends it. *)
Definition without_root_dot (name : bytes) : bytes := default name (strip_suffix $"." name).

Section WebOrigin.
Context `{UrlEnv}.

(** [WebsiteOrigin::parse] *)
Definition parse_origin (value : bytes) : result WebsiteOrigin WebsiteOriginError :=
  match validate_raw_origin value with
  | Err e => Err e
  | Ok _ =>
      match Url_parse value with
      | None => Err (InvalidOrigin value)
      | Some url =>
          match url_host url with
          | Some (Ipv4Host _ | Ipv6Host _) => Err IpLiteral
          | None => Err InvalidSyntax
          | Some (Domain name) =>
              let name := to_ascii_lowercase (without_root_dot name) in
              if negb (valid_dns_hostname name) || parses_as_ip name then Err (InvalidHost name)
              else
                match port_or_known_default url with
                | None => Err InvalidSyntax
                | Some p => if (p =? 0)%N then Err PortZero else Ok (mkOrigin (url_scheme url) name p)
                end
          end
      end
  end.

End WebOrigin.

(** [Display] of an origin, which is also what it serializes to. *)
Definition show_origin (o : WebsiteOrigin) : bytes :=
  scheme o ++ $"://" ++ hostname o ++ $":" ++ show_decimal (port o).

(** ** Policies *)

Inductive WebsiteAction := Allow | Deny.

#[export] Instance WebsiteAction_eq_dec : EqDecision WebsiteAction.
Proof. solve_decision. Defined.

Record WebsitePolicy := mkPolicy {
  default_action : WebsiteAction;
  allow : gset WebsiteOrigin;
  deny : gset WebsiteOrigin;
}.

Definition evaluate (p : WebsitePolicy) (o : WebsiteOrigin) : WebsiteAction :=
  if bool_decide (o ∈ deny p) then Deny
  else if bool_decide (o ∈ allow p) then Allow
  else default_action p.

Inductive ChildNetworkPolicy := Unrestricted | Blocked | Websites (p : WebsitePolicy).

Definition from_restrict_network (restrict : bool) : ChildNetworkPolicy :=
  if restrict then Blocked else Unrestricted.

(** ** Targets of requests *)

(** [split_host_port] *)
Definition split_host_port (value : bytes) : bytes * option bytes :=
  match strip_prefix $"[" value with
  | Some rest =>
      match split_once "]"%char rest with
      | Some (host, []) => (host, None)
      | Some (host, tail) =>
          match strip_prefix $":" tail with
          | Some p => (host, Some p)
          | None => (value, None)
          end
      | None => (value, None)
      end
  | None =>
      match split_once ":"%char value with
      | Some (host, p) => if negb (contains_byte ":"%char p) then (host, Some p) else (value, None)
      | None => (value, None)
      end
  end.

Section Targets.
Context `{UrlEnv}.

(** The errors of these functions are all [ProxyError::Malformed]. *)
Definition normalize_authority (value proto : bytes) : option bytes :=
  match parse_origin (proto ++ $"://" ++ value) with
  | Ok o => Some (hostname o ++ $":" ++ show_decimal (port o))
  | Err _ => None
  end.

(** [rest.find(['/', '?'])], as the text before and from there on. *)
Fixpoint split_target (rest : bytes) : bytes * bytes :=
  match rest with
  | [] => ([], [])
  | a :: r =>
      if contains_byte a $"/?" then ([], rest)
      else let '(before, after) := split_target r in (a :: before, after)
  end.

Definition parse_http_target (value : bytes) : option (bytes * bytes) :=
  rest ← strip_prefix $"http://" value;
  if contains_any $"#@" rest || contains_byte backslash rest || starts_with $":" rest then None
  else
    let '(raw_authority, suffix) := split_target rest in
    if raw_authority =b [] then None
    else
      authority ← normalize_authority raw_authority $"http";
      Some (authority,
            if suffix =b [] then $"/"
            else if starts_with $"?" suffix then $"/" ++ suffix
            else suffix).

Definition strict_connect_authority (value : bytes) : option bytes :=
  if (value =b []) || contains_any $"/@[]" value || starts_with $":" value || contains_any $"?#" value
     || contains_byte backslash value || existsb is_blank_byte value then None
  else
    let '(host, p) := split_host_port value in
    p ← p;
    n ← parse_u16 p;
    if (host =b []) || (n =? 0)%N then None else normalize_authority value $"https".

End Targets.

(** ** A small URL parser for examples *)

Definition demo_origin_url (url : bytes) : option UrlParts :=
  '(proto, rest) ← split_once_str $"://" url;
  let '(authority, path) := split_authority_path rest in
  let path := if path =b [] then $"/" else path in
  match split_once ":"%char authority with
  | None => Some (mkUrl proto (Some (Domain authority)) None path)
  | Some (name, p) =>
      n ← parse_u16 p;
      Some (mkUrl proto (Some (Domain name))
              (if bool_decide (scheme_default_port proto ≫= parse_u16 = Some n) then None else Some n) path)
  end.

Definition demo_origins : UrlEnv := Build_UrlEnv bytes Some (fun p _ s => p =b s) demo_origin_url (fun h => Some (Domain h)).

Example origin_forms :
  let parse := @parse_origin demo_origins in
  parse $"https://EXAMPLE.com." = Ok (mkOrigin $"https" $"example.com" 443)
  ∧ parse $"http://example.com:8080/" = Ok (mkOrigin $"http" $"example.com" 8080)
  ∧ parse $"ftp://example.com" = Err InvalidSyntax ∧ parse $"https://user@example.com" = Err Userinfo
  ∧ parse $"https://*.example.com" = Err Wildcard ∧ parse $"https://example.com:0" = Err PortZero
  ∧ parse $"https://bad_host.example" = Err (InvalidHost $"bad_host.example")
  ∧ parse $"https://10.0.0.1" = Err (InvalidHost $"10.0.0.1") ∧ parse $"https://example.com/.." = Err InvalidSyntax.
Proof. by vm_compute. Qed.

Example target_forms :
  let http := @parse_http_target demo_origins in
  let connect := @strict_connect_authority demo_origins in
  http $"http://Example.com?q=1" = Some ($"example.com:80", $"/?q=1")
  ∧ http $"http://example.com:81/a" = Some ($"example.com:81", $"/a") ∧ http $"http://u@example.com/" = None
  ∧ connect $"Example.com:443" = Some $"example.com:443" ∧ connect $"example.com" = None
  ∧ connect $"example.com:0" = None ∧ connect $"example.com:443/x" = None.
Proof. by vm_compute. Qed.
