(* ===== verification/PublicIp.v ===== *)
(** * Public addresses

    [codegen/xai-grok-egress-proxy/src/ip.rs]: the test the proxy applies to every
    address a name resolves to, with the predicates of [std::net] it uses; and that
    it agrees with the tables of special-purpose blocks the test stands for.
    Addresses are those of [IpAddr]: four octets or eight 16-bit segments. *)

From S2P Require Import Prelude RustStr StrFind IpAddr.

#[local] Open Scope N_scope.

(** ** The predicates of [std::net] *)

Definition is_private (a b : N) : bool :=
  (a =? 10) || ((a =? 172) && (16 <=? b) && (b <=? 31)) || ((a =? 192) && (b =? 168)).
Definition is_loopback (a : N) : bool := a =? 127.
Definition is_link_local (a b : N) : bool := (a =? 169) && (b =? 254).
Definition is_broadcast (a b c d : N) : bool := (a =? 255) && (b =? 255) && (c =? 255) && (d =? 255).
Definition is_multicast (a : N) : bool := (224 <=? a) && (a <=? 239).
Definition is_documentation (a b c : N) : bool :=
  ((a =? 192) && (b =? 0) && (c =? 2)) || ((a =? 198) && (b =? 51) && (c =? 100))
  || ((a =? 203) && (b =? 0) && (c =? 113)).

(** ** [ip.rs] *)

Definition is_public_ipv4_octets (a b c d : N) : bool :=
  negb ((a =? 0)
    || is_private a b
    || ((a =? 100) && (N.land b 0xc0 =? 0x40))
    || is_loopback a
    || is_link_local a b
    || ((a =? 192) && (b =? 0) && (c =? 0) && negb (d =? 9) && negb (d =? 10))
    || ((a =? 192) && (b =? 88) && (c =? 99))
    || is_documentation a b c
    || ((a =? 198) && (N.land b 0xfe =? 18))
    || ((N.land a 0xf0 =? 0xf0) && negb (is_broadcast a b c d))
    || is_broadcast a b c d
    || is_multicast a).

(** The 128-bit value of eight segments, and the octets of its last two. *)
Definition value128 (s : list N) : N := foldl (fun acc g => acc * 65536 + g) 0 s.

Definition embedded_ipv4 (s : list N) : option (N * N * N * N) :=
  match s with
  | [s0; s1; s2; s3; s4; s5; s6; s7] =>
      if ((s0 =? 0) && (s1 =? 0) && (s2 =? 0) && (s3 =? 0) && (s4 =? 0) && ((s5 =? 0) || (s5 =? 0xffff)))
         || ((s0 =? 0x64) && (s1 =? 0xff9b) && (s2 =? 0) && (s3 =? 0) && (s4 =? 0) && (s5 =? 0))
      then Some (s6 / 256, s6 mod 256, s7 / 256, s7 mod 256)
      else None
  | _ => None
  end.

Definition is_public_ipv6_segments (s : list N) : bool :=
  match embedded_ipv4 s with
  | Some (a, b, c, d) => is_public_ipv4_octets a b c d
  | None =>
      match s with
      | [s0; s1; s2; s3; s4; s5; s6; s7] =>
          negb ((value128 s =? 0)
            || (value128 s =? 1)
            || (s0 / 256 =? 0xff)
            || ((s0 =? 0x64) && (s1 =? 0xff9b) && (s2 =? 1))
            || ((s0 =? 0x100) && (s1 =? 0) && (s2 =? 0) && ((s3 =? 0) || (s3 =? 1)))
            || (N.land s0 0xffc0 =? 0xfec0)
            || ((s0 =? 0x2001) && (s1 <? 0x200)
                && negb ((value128 s =? 0x20010001000000000000000000000001)
                         || (value128 s =? 0x20010001000000000000000000000002)
                         || ((s0 =? 0x2001) && (s1 =? 3))
                         || ((s0 =? 0x2001) && (s1 =? 4) && (s2 =? 0x112))
                         || ((s0 =? 0x2001) && (0x20 <=? s1) && (s1 <=? 0x3f))))
            || (s0 =? 0x2002)
            || (((s0 =? 0x2001) && (s1 =? 0xdb8)) || ((s0 =? 0x3fff) && (s1 <=? 0x0fff)))
            || (s0 =? 0x5f00)
            || (N.land s0 0xfe00 =? 0xfc00)
            || (N.land s0 0xffc0 =? 0xfe80))
      | _ => false
      end
  end.

Definition is_public_ip (ip : IpAddr) : bool :=
  match ip with
  | V4 [a; b; c; d] => is_public_ipv4_octets a b c d
  | V4 _ => false
  | V6 s => is_public_ipv6_segments s
  end.

(** ** Tables of blocks *)

(** A block of addresses: the value its addresses share above [2 ^ low]. *)
Record Block := block { prefix : N; low : N }.

Definition in_block (n : N) (b : Block) : bool := N.shiftr n (low b) =? prefix b.

Definition within (n : N) (blocks : list Block) : bool := existsb (in_block n) blocks.

(** The block [base/len] of [width]-bit addresses. *)
Definition cidr (width base len : N) : Block := block (N.shiftr base (width - len)) (width - len).

Definition ipv4 (a b c d : N) : N := ((a * 256 + b) * 256 + c) * 256 + d.

(** The special-purpose blocks that are not globally reachable, and the addresses
    in them that are. *)
Definition special_ipv4 : list Block :=
  [cidr 32 (ipv4 0 0 0 0) 8; cidr 32 (ipv4 10 0 0 0) 8; cidr 32 (ipv4 100 64 0 0) 10; cidr 32 (ipv4 127 0 0 0) 8;
   cidr 32 (ipv4 169 254 0 0) 16; cidr 32 (ipv4 172 16 0 0) 12; cidr 32 (ipv4 192 0 0 0) 24;
   cidr 32 (ipv4 192 0 2 0) 24; cidr 32 (ipv4 192 88 99 0) 24; cidr 32 (ipv4 192 168 0 0) 16;
   cidr 32 (ipv4 198 18 0 0) 15; cidr 32 (ipv4 198 51 100 0) 24; cidr 32 (ipv4 203 0 113 0) 24;
   cidr 32 (ipv4 224 0 0 0) 4; cidr 32 (ipv4 240 0 0 0) 4].

Definition reachable_ipv4 : list Block := [cidr 32 (ipv4 192 0 0 9) 32; cidr 32 (ipv4 192 0 0 10) 32].

Definition ipv6 (s0 s1 s2 s3 : N) : N := value128 [s0; s1; s2; s3; 0; 0; 0; 0].

(** IPv4 addresses inside IPv6: compatible, mapped, and the well-known prefix of
    address translation. *)
Definition embedding_ipv6 : list Block :=
  [cidr 128 (ipv6 0 0 0 0) 96; cidr 128 (value128 [0; 0; 0; 0; 0; 0xffff; 0; 0]) 96;
   cidr 128 (ipv6 0x64 0xff9b 0 0) 96].

Definition special_ipv6 : list Block :=
  [cidr 128 (ipv6 0x64 0xff9b 1 0) 48; cidr 128 (ipv6 0x100 0 0 0) 64; cidr 128 (ipv6 0x100 0 0 1) 64;
   cidr 128 (ipv6 0x2001 0 0 0) 23; cidr 128 (ipv6 0x2001 0xdb8 0 0) 32; cidr 128 (ipv6 0x2002 0 0 0) 16;
   cidr 128 (ipv6 0x3fff 0 0 0) 20; cidr 128 (ipv6 0x5f00 0 0 0) 16; cidr 128 (ipv6 0xfc00 0 0 0) 7;
   cidr 128 (ipv6 0xfe80 0 0 0) 10; cidr 128 (ipv6 0xfec0 0 0 0) 10; cidr 128 (ipv6 0xff00 0 0 0) 8].

Definition reachable_ipv6 : list Block :=
  [cidr 128 (value128 [0x2001; 1; 0; 0; 0; 0; 0; 1]) 128; cidr 128 (value128 [0x2001; 1; 0; 0; 0; 0; 0; 2]) 128;
   cidr 128 (ipv6 0x2001 3 0 0) 32; cidr 128 (ipv6 0x2001 4 0x112 0) 48; cidr 128 (ipv6 0x2001 0x20 0 0) 28;
   cidr 128 (ipv6 0x2001 0x30 0 0) 28].

Definition reachable_by_table_v4 (n : N) : bool := negb (within n special_ipv4) || within n reachable_ipv4.

(** What the test stands for: an address is public when the tables say so; an IPv6
    address that carries an IPv4 address is as public as that one. *)
Definition public_by_table (ip : IpAddr) : bool :=
  match ip with
  | V4 octets => reachable_by_table_v4 (foldl (fun acc o => acc * 256 + o) 0 octets)
  | V6 segments =>
      let n := value128 segments in
      if within n embedding_ipv6 then reachable_by_table_v4 (n mod 2 ^ 32)
      else negb (within n special_ipv6) || within n reachable_ipv6
  end.

(** Octets and segments of the right number and width. *)
Definition ip_ok (ip : IpAddr) : bool :=
  match ip with
  | V4 o => (length o =? 4)%nat && forallb (fun x => x <? 256) o
  | V6 s => (length s =? 8)%nat && forallb (fun x => x <? 65536) s
  end.

(** ** The test agrees with the tables *)

#[local] Ltac Zify.zify_post_hook ::= Z.to_euclidean_division_equations.

(** A check of every number below a bound, by counting up. *)
Definition forall_below (n : N) (f : N → bool) : bool :=
  (N.iter n (fun p => (N.succ p.1, p.2 && f p.1)) (0, true)).2.

Lemma forall_below_true (n : N) (f : N → bool) : forall_below n f = true → ∀ x, x < n → f x = true.
Proof.
  unfold forall_below. set (g := fun p : N * bool => _).
  assert ((N.iter n g (0, true)).1 = n ∧ ((N.iter n g (0, true)).2 = true → ∀ x, x < n → f x = true)) as [_ Hn]; [|done].
  induction n as [|n [IHf IHn]] using N.peano_ind; [split; [done|lia]|].
  rewrite N.iter_succ. unfold g at 1 3. simpl. rewrite IHf. split; [done|].
  intros [Hp Hf]%andb_true_iff x Hx. destruct (decide (x = n)) as [->|]; [done|]. apply IHn; [done|lia].
Qed.

Lemma byte_masks (b : N) :
  b < 256 →
  (N.land b 0xc0 =? 0x40) = (b / 64 =? 1) ∧ (N.land b 0xfe =? 18) = (b / 2 =? 9)
  ∧ (N.land b 0xf0 =? 0xf0) = (b / 16 =? 15).
Proof.
  intros Hb.
  assert (forall_below 256 (fun b => Bool.eqb (N.land b 0xc0 =? 0x40) (b / 64 =? 1)
    && Bool.eqb (N.land b 0xfe =? 18) (b / 2 =? 9) && Bool.eqb (N.land b 0xf0 =? 0xf0) (b / 16 =? 15)) = true)
    as Hall by (by vm_compute).
  specialize (forall_below_true _ _ Hall b Hb) as Hf. simpl in Hf.
  rewrite !andb_true_iff, !Bool.eqb_true_iff in Hf. tauto.
Qed.

Lemma segment_masks (s : N) :
  s < 65536 →
  (N.land s 0xffc0 =? 0xfec0) = (s / 64 =? 1019) ∧ (N.land s 0xfe00 =? 0xfc00) = (s / 512 =? 126)
  ∧ (N.land s 0xffc0 =? 0xfe80) = (s / 64 =? 1018).
Proof.
  intros Hs.
  assert (forall_below 65536 (fun s => Bool.eqb (N.land s 0xffc0 =? 0xfec0) (s / 64 =? 1019)
    && Bool.eqb (N.land s 0xfe00 =? 0xfc00) (s / 512 =? 126) && Bool.eqb (N.land s 0xffc0 =? 0xfe80) (s / 64 =? 1018)) = true)
    as Hall by (by vm_compute).
  specialize (forall_below_true _ _ Hall s Hs) as Hf. simpl in Hf.
  rewrite !andb_true_iff, !Bool.eqb_true_iff in Hf. tauto.
Qed.

(** A number in base [m] equals a constant digit by digit. *)
Lemma eqb_split (x r m k : N) : r < m → (x * m + r =? k) = (x =? k / m) && (r =? k mod m).
Proof.
  intros Hr. apply eq_true_iff_eq. rewrite andb_true_iff, !N.eqb_eq. split.
  - intros <-. rewrite N.div_add_l, N.div_small, N.add_0_r by lia. split; [done|].
    rewrite N.add_comm, N.Div0.mod_add, N.mod_small; done.
  - intros [-> ->]. rewrite N.mul_comm. symmetry. apply N.div_mod. lia.
Qed.

(** Evaluate the constants of the tables. *)
#[local] Ltac constants :=
  repeat match goal with
  | |- context [N.shiftr ?x ?k] => let v := eval vm_compute in (N.shiftr x k) in
      lazymatch v with N0 => idtac | Npos _ => idtac end; change (N.shiftr x k) with v
  | |- context [?x - ?k] => let v := eval vm_compute in (x - k) in
      lazymatch v with N0 => idtac | Npos _ => idtac end; change (x - k) with v
  | |- context [?x / ?k] => let v := eval vm_compute in (x / k) in
      lazymatch v with N0 => idtac | Npos _ => idtac end; change (x / k) with v
  | |- context [?x mod ?k] => let v := eval vm_compute in (x mod k) in
      lazymatch v with N0 => idtac | Npos _ => idtac end; change (x mod k) with v
  end.

Lemma ipv4_by_table (a b c d : N) : a < 256 → b < 256 → c < 256 → d < 256 →
  is_public_ipv4_octets a b c d = reachable_by_table_v4 (ipv4 a b c d).
Proof.
  intros Ha Hb Hc Hd. unfold is_public_ipv4_octets.
  destruct (byte_masks a Ha) as (_ & _ & ->). destruct (byte_masks b Hb) as (-> & -> & _).
  assert (N.shiftr (ipv4 a b c d) 24 = a) as E24 by (unfold ipv4; rewrite N.shiftr_div_pow2; lia).
  assert (N.shiftr (ipv4 a b c d) 22 = a * 4 + b / 64) as E22 by (unfold ipv4; rewrite N.shiftr_div_pow2; lia).
  assert (N.shiftr (ipv4 a b c d) 20 = a * 16 + b / 16) as E20 by (unfold ipv4; rewrite N.shiftr_div_pow2; lia).
  assert (N.shiftr (ipv4 a b c d) 17 = a * 128 + b / 2) as E17 by (unfold ipv4; rewrite N.shiftr_div_pow2; lia).
  assert (N.shiftr (ipv4 a b c d) 16 = a * 256 + b) as E16 by (unfold ipv4; rewrite N.shiftr_div_pow2; lia).
  assert (N.shiftr (ipv4 a b c d) 8 = (a * 256 + b) * 256 + c) as E8 by (unfold ipv4; rewrite N.shiftr_div_pow2; lia).
  assert (N.shiftr (ipv4 a b c d) 28 = a / 16) as E28 by (unfold ipv4; rewrite N.shiftr_div_pow2; lia).
  assert (N.shiftr (ipv4 a b c d) 0 = ipv4 a b c d) as E0 by done.
  unfold reachable_by_table_v4, within, special_ipv4, reachable_ipv4, cidr. cbn [existsb].
  unfold in_block. cbn [low prefix].
  constants. rewrite E24, E22, E20, E17, E16, E8, E28, E0. unfold ipv4.
  unfold is_private, is_loopback, is_link_local, is_broadcast, is_multicast, is_documentation.
  clear E24 E22 E20 E17 E16 E8 E28 E0.
  assert ((16 <=? b) && (b <=? 31) = (b / 16 =? 1)) as Eb by (apply eq_true_iff_eq; rewrite andb_true_iff, N.eqb_eq, !N.leb_le; lia).
  assert ((224 <=? a) && (a <=? 239) = (a / 16 =? 14)) as Ea by (apply eq_true_iff_eq; rewrite andb_true_iff, N.eqb_eq, !N.leb_le; lia).
  rewrite <-andb_assoc, Eb, Ea. clear Ea Eb.
  rewrite !(eqb_split _ _ 256) by lia. rewrite !(eqb_split a _ 4), !(eqb_split a _ 16), !(eqb_split a _ 128) by lia.
  constants.
  destruct (N.eqb_spec a 0) as [->|]; [reflexivity|].
  destruct (N.eqb_spec a 10) as [->|]; [reflexivity|].
  destruct (N.eqb_spec a 172) as [->|]; [cbn; by destruct (b / 16 =? 1)|].
  destruct (N.eqb_spec a 100) as [->|]; [cbn; by destruct (b / 64 =? 1)|].
  destruct (N.eqb_spec a 127) as [->|]; [reflexivity|].
  destruct (N.eqb_spec a 169) as [->|]; [cbn; by destruct (b =? 254)|].
  destruct (N.eqb_spec a 198) as [->|]; [cbn; by destruct (b / 2 =? 9), (b =? 51), (c =? 100)|].
  destruct (N.eqb_spec a 203) as [->|]; [cbn; by destruct (b =? 0), (c =? 113)|].
  destruct (N.eqb_spec a 192) as [->|].
  { cbn. destruct (N.eqb_spec b 0) as [->|]; [|by destruct (b =? 88), (b =? 168), (c =? 99)]. cbn.
    destruct (N.eqb_spec c 0) as [->|]; [by destruct (d =? 9), (d =? 10)|]. by destruct (c =? 2). }
  cbn. destruct (N.eqb_spec a 255) as [->|]; [cbn; by destruct (b =? 255), (c =? 255), (d =? 255)|].
  cbn. by destruct (a / 16 =? 15), (a / 16 =? 14).
Qed.
(** Shifting a number in base [2 ^ 16] drops whole digits first. *)
Lemma shift_digit (x g k : N) : g < 65536 → N.shiftr (x * 65536 + g) (16 + k) = N.shiftr x k.
Proof.
  intros Hg. rewrite !N.shiftr_div_pow2, N.pow_add_r. change (2 ^ 16) with 65536.
  rewrite <-N.Div0.div_div, N.div_add_l, (N.div_small g), N.add_0_r by lia. done.
Qed.

Lemma shift_digits (x g0 g1 g2 g3 g4 g5 k : N) :
  g0 < 65536 → g1 < 65536 → g2 < 65536 → g3 < 65536 → g4 < 65536 → g5 < 65536 →
  let n1 := x * 65536 + g0 in let n2 := n1 * 65536 + g1 in let n3 := n2 * 65536 + g2 in
  let n4 := n3 * 65536 + g3 in let n5 := n4 * 65536 + g4 in let n6 := n5 * 65536 + g5 in
  N.shiftr n6 (96 + k) = N.shiftr x k ∧ N.shiftr n6 (80 + k) = N.shiftr n1 k ∧ N.shiftr n6 (64 + k) = N.shiftr n2 k
  ∧ N.shiftr n6 (48 + k) = N.shiftr n3 k ∧ N.shiftr n6 (32 + k) = N.shiftr n4 k.
Proof.
  intros B0 B1 B2 B3 B4 B5. cbv zeta.
  assert (∀ j k, 16 + (16 * j + k) = 16 * (1 + j) + k) as Hj by (intros; clear; lia).
  change 96 with (16 * (1 + (1 + (1 + (1 + (1 + (1 + 0))))))). change 80 with (16 * (1 + (1 + (1 + (1 + (1 + 0)))))).
  change 64 with (16 * (1 + (1 + (1 + (1 + 0))))). change 48 with (16 * (1 + (1 + (1 + 0)))). change 32 with (16 * (1 + (1 + 0))).
  rewrite <-!Hj. by rewrite !shift_digit by done.
Qed.

Lemma value128_shifts (s0 s1 s2 s3 s4 s5 s6 s7 : N) :
  s2 < 65536 → s3 < 65536 → s4 < 65536 → s5 < 65536 → s6 < 65536 → s7 < 65536 →
  let n := value128 [s0; s1; s2; s3; s4; s5; s6; s7] in let top := s0 * 65536 + s1 in
  N.shiftr n 32 = (((top * 65536 + s2) * 65536 + s3) * 65536 + s4) * 65536 + s5
  ∧ N.shiftr n 64 = (top * 65536 + s2) * 65536 + s3 ∧ N.shiftr n 80 = top * 65536 + s2 ∧ N.shiftr n 96 = top
  ∧ N.shiftr n 100 = N.shiftr top 4 ∧ N.shiftr n 105 = N.shiftr top 9 ∧ N.shiftr n 108 = N.shiftr top 12
  ∧ N.shiftr n 112 = N.shiftr top 16 ∧ N.shiftr n 118 = N.shiftr top 22 ∧ N.shiftr n 120 = N.shiftr top 24
  ∧ N.shiftr n 121 = N.shiftr top 25.
Proof.
  intros B2 B3 B4 B5 B6 B7 n top.
  pose proof (fun k => shift_digits top s2 s3 s4 s5 s6 s7 k B2 B3 B4 B5 B6 B7) as Hs. cbv zeta in Hs.
  destruct (Hs 0) as (H96 & H80 & H64 & _ & H32).
  split_and!; [apply H32|apply H64|apply H80|apply H96|..];
    [apply (Hs 4)|apply (Hs 9)|apply (Hs 12)|apply (Hs 16)|apply (Hs 22)|apply (Hs 24)|apply (Hs 25)].
Qed.

Lemma top_shifts (s0 s1 : N) :
  s1 < 65536 →
  let top := s0 * 65536 + s1 in
  N.shiftr top 4 = s0 * 4096 + s1 / 16 ∧ N.shiftr top 9 = s0 * 128 + s1 / 512 ∧ N.shiftr top 12 = s0 * 16 + s1 / 4096
  ∧ N.shiftr top 16 = s0 ∧ N.shiftr top 22 = s0 / 64 ∧ N.shiftr top 24 = s0 / 256 ∧ N.shiftr top 25 = s0 / 512.
Proof. intros B1. simpl. rewrite !N.shiftr_div_pow2. split_and!; lia. Qed.

Lemma ipv6_by_table (s0 s1 s2 s3 s4 s5 s6 s7 : N) :
  s0 < 65536 → s1 < 65536 → s2 < 65536 → s3 < 65536 → s4 < 65536 → s5 < 65536 → s6 < 65536 → s7 < 65536 →
  is_public_ipv6_segments [s0; s1; s2; s3; s4; s5; s6; s7] = public_by_table (V6 [s0; s1; s2; s3; s4; s5; s6; s7]).
Proof.
  intros B0 B1 B2 B3 B4 B5 B6 B7. unfold public_by_table, is_public_ipv6_segments, embedded_ipv4.
  assert (value128 [s0; s1; s2; s3; s4; s5; s6; s7] mod 2 ^ 32
          = ipv4 (s6 / 256) (s6 mod 256) (s7 / 256) (s7 mod 256)) as -> by (unfold value128, ipv4; simpl foldl; lia).
  unfold within, embedding_ipv6, special_ipv6, reachable_ipv6, cidr, in_block. cbn [existsb low prefix].
  destruct (segment_masks s0 B0) as (-> & -> & ->).
  set (n := value128 [s0; s1; s2; s3; s4; s5; s6; s7]).
  destruct (value128_shifts s0 s1 s2 s3 s4 s5 s6 s7 B2 B3 B4 B5 B6 B7)
    as (E32 & E64 & E80 & E96 & E100 & E105 & E108 & E112 & E118 & E120 & E121).
  destruct (top_shifts s0 s1 B1) as (T4 & T9 & T12 & T16 & T22 & T24 & T25). cbv zeta in *.
  rewrite T4 in E100. rewrite T9 in E105. rewrite T12 in E108. rewrite T16 in E112. rewrite T22 in E118.
  rewrite T24 in E120. rewrite T25 in E121. clear T4 T9 T12 T16 T22 T24 T25.
  fold n in E32, E64, E80, E96, E100, E105, E108, E112, E118, E120, E121.
  assert ((n =? 0) = (s0 =? 0) && (s1 =? 0) && (s2 =? 0) && (s3 =? 0) && (s4 =? 0) && (s5 =? 0) && (s6 =? 0) && (s7 =? 0)) as En0
    by (unfold n, value128; cbn [foldl]; by rewrite N.mul_0_l, N.add_0_l, !eqb_split by done).
  assert ((n =? 1) = (s0 =? 0) && (s1 =? 0) && (s2 =? 0) && (s3 =? 0) && (s4 =? 0) && (s5 =? 0) && (s6 =? 0) && (s7 =? 1)) as En1
    by (unfold n, value128; cbn [foldl]; by rewrite N.mul_0_l, N.add_0_l, !eqb_split by done).
  assert ((n =? 0x20010001000000000000000000000001) = (s0 =? 0x2001) && (s1 =? 1) && (s2 =? 0) && (s3 =? 0) && (s4 =? 0)
    && (s5 =? 0) && (s6 =? 0) && (s7 =? 1)) as Ep by (unfold n, value128; cbn [foldl]; by rewrite N.mul_0_l, N.add_0_l, !eqb_split by done).
  assert ((n =? 0x20010001000000000000000000000002) = (s0 =? 0x2001) && (s1 =? 1) && (s2 =? 0) && (s3 =? 0) && (s4 =? 0)
    && (s5 =? 0) && (s6 =? 0) && (s7 =? 2)) as Eq by (unfold n, value128; cbn [foldl]; by rewrite N.mul_0_l, N.add_0_l, !eqb_split by done).
  clearbody n. constants. change (N.shiftr n 0) with n.
  rewrite E32, E64, E80, E96, E100, E105, E108, E112, E118, E120, E121, En0, En1, Ep, Eq.
  clear E32 E64 E80 E96 E100 E105 E108 E112 E118 E120 E121 En0 En1 Ep Eq.
  rewrite !(eqb_split _ _ 65536) by done. rewrite (eqb_split s0 _ 128), (eqb_split s0 _ 16), !(eqb_split s0 _ 4096) by lia.
  constants.
  assert ((s1 <? 512) = (s1 / 512 =? 0)) as -> by (apply eq_true_iff_eq; rewrite N.ltb_lt, N.eqb_eq; lia).
  assert ((s1 <=? 4095) = (s1 / 4096 =? 0)) as -> by (apply eq_true_iff_eq; rewrite N.leb_le, N.eqb_eq; lia).
  rewrite <-(andb_assoc (s0 =? 8193) (32 <=? s1)).
  assert ((32 <=? s1) && (s1 <=? 63) = (s1 / 16 =? 2) || (s1 / 16 =? 3)) as ->
    by (apply eq_true_iff_eq; rewrite andb_true_iff, orb_true_iff, !N.leb_le, !N.eqb_eq; lia).
  rewrite andb_orb_distrib_r, <-orb_assoc, !orb_false_r.
  destruct (_ || (_ || _)) eqn:E.
  { apply ipv4_by_table; lia. }
  apply orb_false_iff in E as [-> _]. rewrite !andb_false_l, !orb_false_l.
  destruct (N.eqb_spec s0 100) as [->|]; [cbn; by destruct (s1 =? 65435), (s2 =? 1)|].
  destruct (N.eqb_spec s0 256) as [->|]; [cbn; by destruct (s1 =? 0), (s2 =? 0), (s3 =? 0), (s3 =? 1)|].
  destruct (N.eqb_spec s0 8193) as [->|].
  { destruct (N.eqb_spec s1 3512) as [->|]; [reflexivity|]. cbn.
    destruct (s1 / 512 =? 0); cbn; [|reflexivity]. constants. cbn. by rewrite !orb_false_r, negb_involutive, <-!orb_assoc. }
  destruct (N.eqb_spec s0 8194) as [->|]; [reflexivity|].
  destruct (N.eqb_spec s0 16383) as [->|]; [cbn; by destruct (s1 / 4096 =? 0)|].
  destruct (N.eqb_spec s0 24320) as [->|]; [reflexivity|]. cbn.
  by destruct (s0 / 256 =? 255), (s0 / 64 =? 1019), (s0 / 512 =? 126), (s0 / 64 =? 1018).
Qed.


(** The address test of the proxy, with its octet tricks and nested patterns, is
    the table of special-purpose blocks: an address is let through exactly when it
    lies in no block that is not globally reachable, or in one of the exceptions;
    and an IPv6 address that carries an IPv4 address is judged as that one. *)
Theorem public_iff_table (ip : IpAddr) : ip_ok ip = true → is_public_ip ip = public_by_table ip.
Proof.
  destruct ip as [octets|segments]; unfold ip_ok; rewrite andb_true_iff, Nat.eqb_eq, forallb_forall; intros [Hl Hf].
  - do 4 (destruct octets as [|? octets]; [done|]). destruct octets; [|done].
    change (foldl _ 0 [n; n0; n1; n2]) with (ipv4 n n0 n1 n2).
    apply (ipv4_by_table n n0 n1 n2); apply N.ltb_lt, Hf; simpl; tauto.
  - do 8 (destruct segments as [|? segments]; [done|]). destruct segments; [|done].
    apply ipv6_by_table; apply N.ltb_lt, Hf; simpl; tauto.
Qed.

(** The metadata address behind address translation, and a public one. *)
Lemma public_iff_table_witness :
  is_public_ip (V6 [0x64; 0xff9b; 0; 0; 0; 0; 0xa9fe; 0xa9fe]) = false ∧ is_public_ip (V4 [8; 8; 8; 8]) = true.
Proof.
  split.
  - rewrite (public_iff_table (V6 [0x64; 0xff9b; 0; 0; 0; 0; 0xa9fe; 0xa9fe])); by vm_compute.
  - rewrite (public_iff_table (V4 [8; 8; 8; 8])); by vm_compute.
Defined.
