(* ===== verification/ProxyRequest.v ===== *)
(** * Requests, responses and credentials of the egress proxy

    [codegen/xai-grok-egress-proxy/src]: the errors and outcomes ([error.rs],
    [metrics.rs]), the strict subset of HTTP it relays ([request.rs], the response
    half of [http.rs]) and the per-call credentials ([credential.rs]).  The
    [httparse] and [base64] crates are parameters. *)

From S2P Require Import Prelude RustStr StrFind IpAddr UrlMatch WebOrigin.

#[local] Open Scope nat_scope.

(** ** Errors *)

Inductive ProxyError :=
| InvalidOptions | Malformed | TooLarge | BodyUnsupported | Authentication | PolicyDenied | HoldTimeout | ClientGone
| AddressDenied | Dns | Connect | Timeout | Overloaded | TlsClientHello | TlsSni | TlsEch | ShutdownTimeout | DownstreamIo.

Inductive ProxyOutcome :=
| OutOk | OutMalformed | OutUnauthenticated | OutPolicyDenied | OutAddressDenied | OutDnsFailed | OutConnectFailed
| OutTimeout | OutOverloaded | OutTlsDenied | OutHoldTimeout | OutAbandoned.

#[export] Instance ProxyError_eq_dec : EqDecision ProxyError.
Proof. solve_decision. Defined.
#[export] Instance ProxyOutcome_eq_dec : EqDecision ProxyOutcome.
Proof. solve_decision. Defined.

(** [ProxyError::outcome] *)
Definition outcome (e : ProxyError) : ProxyOutcome :=
  match e with
  | Authentication => OutUnauthenticated
  | PolicyDenied => OutPolicyDenied
  | HoldTimeout => OutHoldTimeout
  | ClientGone => OutAbandoned
  | AddressDenied => OutAddressDenied
  | Dns => OutDnsFailed
  | Connect => OutConnectFailed
  | Timeout | ShutdownTimeout => OutTimeout
  | Overloaded => OutOverloaded
  | TlsClientHello | TlsSni | TlsEch => OutTlsDenied
  | InvalidOptions | Malformed | TooLarge | BodyUnsupported | DownstreamIo => OutMalformed
  end.

(** [ProxyError::status] *)
Definition status (e : ProxyError) : N * bytes :=
  match e with
  | Authentication => (407%N, $"proxy_authentication_required")
  | PolicyDenied | HoldTimeout | AddressDenied | TlsSni | TlsEch => (403%N, $"denied")
  | TlsClientHello => (400%N, $"malformed")
  | Dns | Connect => (502%N, $"upstream_failure")
  | ClientGone | DownstreamIo => (400%N, $"malformed")
  | Overloaded => (503%N, $"overloaded")
  | Timeout | ShutdownTimeout => (504%N, $"timeout")
  | InvalidOptions | Malformed | TooLarge | BodyUnsupported => (400%N, $"malformed")
  end.

(** Before anything reached the client an error is answered, after that only
    counted. *)
Inductive ConnectionError := Precommit (e : ProxyError) | Committed (e : ProxyError).

Definition from_admit (e : ProxyError) : ConnectionError :=
  if bool_decide (e = ClientGone) then Committed e else Precommit e.

Definition connection_outcome (e : ConnectionError) : ProxyOutcome :=
  match e with Precommit e | Committed e => outcome e end.

Definition crlf : bytes := [carriage_return; newline].

(** The response [write_error] sends. *)
Definition error_response (e : ProxyError) : bytes :=
  let '(code, reason) := status e in
  let auth := if (code =? 407)%N
              then $"Proxy-Authenticate: Basic realm=" ++ [ascii_of_nat 34] ++ $"grok-egress" ++ [ascii_of_nat 34]
                   ++ $", Bearer" ++ crlf
              else [] in
  let body := reason ++ [newline] in
  $"HTTP/1.1 " ++ show_decimal code ++ $" " ++ reason ++ crlf ++ auth ++ $"Content-Type: text/plain" ++ crlf
  ++ $"Content-Length: " ++ show_decimal (N.of_nat (length body)) ++ crlf ++ $"Connection: close" ++ crlf ++ crlf ++ body.

(** ** The [httparse] and [base64] crates *)

(** What a parse reports: whether it is complete, the minor version, and the parts. *)
Record HttpHead := mkHead {
  complete : bool;
  version : option N;
  head_method : option bytes;
  head_path : option bytes;
  head_code : option N;
  head_reason : option bytes;
  head_headers : list (bytes * bytes);
}.

Inductive HttparseError := TooManyHeaders | OtherError.

Class HttpEnv := {
  (** with room for the given number of headers *)
  httparse_request : nat → bytes → result HttpHead HttparseError;
  httparse_response : nat → bytes → result HttpHead HttparseError;
  base64_encode : bytes → bytes;
  base64_decode : bytes → option bytes;
}.

(** ** Requests *)

Definition Headers : Type := list (bytes * bytes).

Record ParsedRequest := mkRequest { method : bytes; target : bytes; req_headers : Headers }.

(** A header value as text without control bytes, trimmed. *)
Definition header_text (h : bytes * bytes) : option (bytes * bytes) :=
  if is_utf8 h.2 && negb (existsb (fun a => (code a <? 32) && negb (code a =? 9)) h.2) then Some (h.1, trim h.2) else None.

Definition parse_request `{HttpEnv} (head : bytes) (max_headers : nat) : result ParsedRequest ProxyError :=
  match httparse_request max_headers head with
  | Err TooManyHeaders => Err TooLarge
  | Err OtherError => Err Malformed
  | Ok p =>
      if negb (complete p) || negb (bool_decide (version p = Some 1%N)) then Err Malformed
      else
        match head_method p, head_path p with
        | Some m, path =>
            if negb (forallb (fun a => is_ascii_upper a || bool_decide (a = "-"%char)) m) then Err Malformed
            else
              match path, mapM header_text (head_headers p) with
              | Some path, Some hs => Ok (mkRequest m path hs)
              | _, _ => Err Malformed
              end
        | None, _ => Err Malformed
        end
  end.

Definition named (name : bytes) (h : bytes * bytes) : bool := eq_ignore_ascii_case h.1 name.

(** [single_header]: [None] when the header occurs twice. *)
Definition single_header (hs : Headers) (name : bytes) : option (option bytes) :=
  match List.filter (named name) hs with
  | [] => Some None
  | [h] => Some (Some h.2)
  | _ => None
  end.

Definition parse_content_length (value : bytes) : option N :=
  if (value =b []) || negb (forallb is_ascii_digit value) then None else parse_unsigned (2 ^ 64) value.

Definition critical_connection_token (token : bytes) : bool :=
  mem token ["host"; "content-length"; "transfer-encoding"; "expect"; "proxy-authorization"; "proxy-connection";
             "connection"; "te"; "trailer"; "upgrade"].

Definition static_hop_by_hop (name : bytes) : bool :=
  mem name ["connection"; "keep-alive"; "proxy-authenticate"; "proxy-authentication-info"; "proxy-authorization";
            "proxy-connection"; "te"; "trailer"; "transfer-encoding"; "upgrade"].

(** The comma-separated values of all [Connection] headers, in lower case. *)
Definition connection_values (hs : Headers) : list bytes :=
  map (fun t => to_ascii_lowercase (trim t))
    (flat_map (fun h => split_on ","%char h.2) (List.filter (named $"connection") hs)).

Definition good_token (token : bytes) : bool :=
  negb (token =b []) && forallb (fun a => is_ascii_alphanumeric a || bool_decide (a = "-"%char)) token
  && negb (critical_connection_token token).

Definition connection_tokens (hs : Headers) : option (list bytes) :=
  let tokens := connection_values hs in if forallb good_token tokens then Some tokens else None.

(** [framing]: the content length, with transfer codings and expectations refused.
    All its errors are [Malformed]. *)
Definition framing (hs : Headers) : option (option N) :=
  te ← single_header hs $"transfer-encoding";
  match te with
  | Some _ => None
  | None =>
      expect ← single_header hs $"expect";
      match expect with
      | Some _ => None
      | None =>
          cl ← single_header hs $"content-length";
          len ← match cl with
                | None => Some None
                | Some v => n ← parse_content_length v; Some (Some n)
                end;
          _ ← connection_tokens hs;
          Some len
      end
  end.

(** A header that is not relayed. *)
Definition dropped (tokens : list bytes) (name : bytes) : bool :=
  let lower := to_ascii_lowercase name in
  static_hop_by_hop lower || (lower =b $"host") || (lower =b $"content-length") || (lower =b $"proxy-authorization")
  || (lower =b $"forwarded") || (lower =b $"via") || starts_with $"x-forwarded-" lower
  || bool_decide (lower ∈ tokens).

Definition length_header (len : option N) : Headers :=
  match len with Some n => [($"Content-Length", show_decimal n)] | None => [] end.

Definition sanitized_headers (hs : Headers) (authority : bytes) (content_length : option N) : option Headers :=
  tokens ← connection_tokens hs;
  Some ([($"Host", authority)] ++ List.filter (fun h => negb (dropped tokens h.1)) hs
        ++ length_header content_length ++ [($"Connection", $"close")]).

(** One header on the wire. *)
Definition header_line (h : bytes * bytes) : bytes := h.1 ++ $": " ++ h.2 ++ crlf.

(** The head of a relayed request, [None] when it exceeds the bound. *)
Definition outbound_request (m tgt : bytes) (hs : Headers) (max : nat) : option bytes :=
  (fix go (out : bytes) (hs : Headers) : option bytes :=
     match hs with
     | [] => Some (out ++ crlf)
     | h :: r => let out := out ++ header_line h in if max <? length out then None else go out r
     end) (m ++ $" " ++ tgt ++ $" HTTP/1.1" ++ crlf) hs.

(** ** Responses: [http.rs] *)

Record ParsedResponse := mkResponse { resp_status : N; reason : bytes; resp_headers : Headers }.

Inductive ResponseBody := NoBody (length : option N) | Reset (buffered : bool) | Length (n : N).

Definition plain_reason (r : bytes) : bool := forallb (fun a => (code a =? 9) || between 32 126 a) r.

Definition parse_response `{HttpEnv} (head : bytes) (max_headers : nat) : result ParsedResponse ProxyError :=
  match httparse_response max_headers head with
  | Err TooManyHeaders => Err TooLarge
  | Err OtherError => Err Connect
  | Ok p =>
      if negb (complete p) || negb (bool_decide (version p = Some 1%N)) then Err Connect
      else
        match head_code p with
        | None => Err Connect
        | Some code =>
            if (code <? 200)%N then Err Connect
            else
              let text := match head_reason p with
                          | Some r => if plain_reason r then r else $"Response"
                          | None => $"Response"
                          end in
              match mapM header_text (head_headers p) with
              | Some hs => Ok (mkResponse code text hs)
              | None => Err Connect
              end
        end
  end.

(** [representation_length]; its errors are all [Connect]. *)
Definition representation_length (hs : Headers) : option (option N) :=
  te ← single_header hs $"transfer-encoding";
  match te with
  | Some _ => None
  | None =>
      cl ← single_header hs $"content-length";
      match cl with
      | None => Some None
      | Some v => n ← parse_content_length v; Some (Some n)
      end
  end.

Definition body_mode (r : ParsedResponse) (request_method : bytes) (buffered_body : bool) : option ResponseBody :=
  len ← representation_length (resp_headers r);
  if eq_ignore_ascii_case request_method $"HEAD" || (resp_status r =? 304)%N then
    if buffered_body then None else Some (NoBody len)
  else if (resp_status r =? 204)%N then
    if buffered_body || bool_decide (is_Some len) then None else Some (NoBody None)
  else if (resp_status r =? 205)%N then
    if match len with Some n => negb (n =? 0)%N | None => false end then None else Some (Reset buffered_body)
  else
    n ← len; Some (Length n).

Definition response_headers (hs : Headers) (body : ResponseBody) : option Headers :=
  let tokens := connection_values hs in
  if existsb (fun t => t =b []) tokens then None
  else
    let kept := List.filter (fun h =>
      let lower := to_ascii_lowercase h.1 in
      negb ((lower =b $"content-length") || static_hop_by_hop lower || bool_decide (lower ∈ tokens))) hs in
    let len := match body with
               | NoBody (Some n) | Length n => Some n
               | NoBody None | Reset _ => None
               end in
    Some (kept ++ length_header len ++ [($"Connection", $"close")]).

Definition outbound_response (r : ParsedResponse) (hs : Headers) : bytes :=
  $"HTTP/1.1 " ++ show_decimal (resp_status r) ++ $" " ++ reason r ++ crlf ++ concat (map header_line hs) ++ crlf.

(** ** Credentials: [credential.rs] *)

Definition CommandTag : Type := bytes.
Definition ProxyToken : Type := bytes.

Record ProxyCredential := mkCredential { tag : CommandTag; token : ProxyToken }.

#[export] Instance ProxyCredential_eq_dec : EqDecision ProxyCredential.
Proof. solve_decision. Defined.

Record CredentialRegistry := mkRegistry { session_token : ProxyToken; calls : list ProxyCredential }.

(** [mint], with the token the random source gave. *)
Definition mint (t : CommandTag) (fresh : ProxyToken) (r : CredentialRegistry) : CredentialRegistry :=
  mkRegistry (session_token r) (List.filter (fun c => negb (tag c =b t)) (calls r) ++ [mkCredential t fresh]).

Definition with_calls (cs : list ProxyCredential) (r : CredentialRegistry) : CredentialRegistry :=
  mkRegistry (session_token r) cs.

Definition revoke (t : CommandTag) (r : CredentialRegistry) : bool * CredentialRegistry :=
  let cs := List.filter (fun c => negb (tag c =b t)) (calls r) in
  (negb (length cs =? length (calls r)), with_calls cs r).

Definition revoke_exact (c : ProxyCredential) (r : CredentialRegistry) : bool * CredentialRegistry :=
  let cs := List.filter (fun x => negb (bool_decide (x = c))) (calls r) in
  (negb (length cs =? length (calls r)), with_calls cs r).

Definition PROXY_USERNAME : bytes := $"grok".

Definition basic_credentials `{HttpEnv} (t : ProxyToken) : bytes := base64_encode (PROXY_USERNAME ++ $":" ++ t).

(** [ProxyCredential::proxy_authorization] *)
Definition proxy_authorization `{HttpEnv} (c : ProxyCredential) : bytes := $"Basic " ++ basic_credentials (token c).

(** [presented_token] *)
Definition presented_token `{HttpEnv} (header : bytes) : option ProxyToken :=
  '(proto, value) ← split_once " "%char (trim header);
  let value := trim value in
  if value =b [] then None
  else if eq_ignore_ascii_case proto $"bearer" then Some value
  else if negb (eq_ignore_ascii_case proto $"basic") then None
  else
    decoded ← base64_decode value;
    if negb (is_utf8 decoded) then None
    else
      '(_, password) ← split_once ":"%char decoded;
      if negb (password =b []) then Some password else None.

(** [authenticate]: [Ok None] is the session token. *)
Definition authenticate `{HttpEnv} (r : CredentialRegistry) (header : bytes) : result (option CommandTag) ProxyError :=
  match presented_token header with
  | None => Err Authentication
  | Some t =>
      if t =b session_token r then Ok None
      else match List.find (fun c => token c =b t) (calls r) with
           | Some c => Ok (Some (tag c))
           | None => Err Authentication
           end
  end.

Definition session_authorization (r : CredentialRegistry) : bytes := $"Bearer " ++ session_token r.
