(* ===== verification/ClientHello.v ===== *)
(** * The TLS ClientHello of a tunnel

    [codegen/xai-grok-egress-proxy/src/tls.rs]: before the proxy relays a byte of a
    CONNECT tunnel it collects the client's TLS records until they hold the whole
    ClientHello, and checks that the server name in it is the host that was let
    through.  Lengths on the wire are 16 or 24 bits, so no [usize] sum overflows. *)

From S2P Require Import Prelude RustStr StrFind IpAddr UrlMatch WebOrigin ProxyRequest.

#[local] Open Scope nat_scope.

(** [bytes.get(offset..offset + len)] *)
Definition get_slice (s : bytes) (offset len : nat) : option bytes :=
  if offset + len <=? length s then Some (take len (drop offset s)) else None.

Definition u16_of (a b : ascii) : nat := code a * 256 + code b.

(** [be_u16]; its error is [TlsClientHello]. *)
Definition be_u16 (s : bytes) (offset : nat) : option nat :=
  match get_slice s offset 2 with Some [a; b] => Some (u16_of a b) | _ => None end.

Definition parse_sni (data : bytes) : result bytes ProxyError :=
  match be_u16 data 0 with
  | None => Err TlsClientHello
  | Some list_len =>
      match get_slice data 2 list_len with
      | None => Err TlsClientHello
      | Some names =>
          match names with
          | kind :: _ :: _ :: _ =>
              if negb (code kind =? 0) then Err TlsSni
              else
                match be_u16 names 1 with
                | None => Err TlsClientHello
                | Some name_len =>
                    match get_slice names 3 name_len with
                    | None => Err TlsSni
                    | Some name =>
                        if negb (length name + 3 =? length names) then Err TlsSni
                        else if is_utf8 name then Ok name else Err TlsSni
                    end
                end
          | _ => Err TlsSni
          end
      end
  end.

(** The kind of the encrypted hello extension. *)
Definition ENCRYPTED_CLIENT_HELLO : N := 0xfe0d.

(** The loop over the extensions: the server name found so far and the rest.  Every
    round consumes four bytes or more, so the length of the text is enough fuel. *)
Fixpoint scan_extensions (fuel : nat) (ext : bytes) (sni : option bytes) : result (option bytes) ProxyError :=
  match fuel, ext with
  | _, [] => Ok sni
  | 0, _ => Err TlsClientHello
  | S fuel, _ =>
      match be_u16 ext 0, be_u16 ext 2 with
      | Some kind, Some len =>
          match get_slice ext 4 len with
          | None => Err TlsClientHello
          | Some data =>
              let rest := drop (4 + len) ext in
              if (N.of_nat kind =? ENCRYPTED_CLIENT_HELLO)%N then Err TlsEch
              else if kind =? 0 then
                match sni with
                | Some _ => Err TlsSni
                | None =>
                    match parse_sni data with
                    | Err e => Err e
                    | Ok name => scan_extensions fuel rest (Some name)
                    end
                end
              else scan_extensions fuel rest sni
          end
      | _, _ => Err TlsClientHello
      end
  end.

(** The extensions of a hello: past the version, the random bytes, the session, the
    cipher suites and the compression methods, up to its end. *)
Definition hello_extensions (hello : bytes) : option bytes :=
  let offset := 2 + 32 in
  session ← hello !! offset;
  let offset := offset + (1 + code session) in
  ciphers ← be_u16 hello offset;
  let offset := offset + (2 + ciphers) in
  compression ← hello !! offset;
  let offset := offset + (1 + code compression) in
  len ← be_u16 hello offset;
  let offset := offset + 2 in
  ext ← get_slice hello offset len;
  if offset + len =? length hello then Some ext else None.

Section ClientHello.
Context `{UrlEnv}.

Definition validate_hello (hello : bytes) (o : WebsiteOrigin) : result unit ProxyError :=
  match hello_extensions hello with
  | None => Err TlsClientHello
  | Some ext =>
      match scan_extensions (length ext) ext None with
      | Err e => Err e
      | Ok None => Err TlsSni
      | Ok (Some name) =>
          match parse_origin ($"https://" ++ name ++ $":" ++ show_decimal (port o)) with
          | Err _ => Err TlsSni
          | Ok named => if hostname named =b hostname o then Ok tt else Err TlsSni
          end
      end
  end.

(** [true]: the hello is complete and valid. *)
Fixpoint inspect_go (fuel : nat) (rest handshake : bytes) (o : WebsiteOrigin) : result bool ProxyError :=
  match fuel, rest with
  | _, [] => Ok false
  | 0, _ => Ok false
  | S fuel, kind :: major :: _ :: h :: l :: body =>
      if negb (code kind =? 22) || negb (code major =? 3) then Err TlsClientHello
      else
        let record_len := u16_of h l in
        if length body <? record_len then Ok false
        else
          let handshake := handshake ++ take record_len body in
          let next := drop record_len body in
          match handshake with
          | t :: a :: b :: c :: hs =>
              if negb (code t =? 1) then Err TlsClientHello
              else
                let hello_len := code a * 65536 + code b * 256 + code c in
                if hello_len <=? length hs then
                  match validate_hello (take hello_len hs) o with
                  | Ok _ => Ok true
                  | Err e => Err e
                  end
                else inspect_go fuel next handshake o
          | _ => inspect_go fuel next handshake o
          end
  | S _, _ => Ok false
  end.

Definition inspect_records (prefix : bytes) (o : WebsiteOrigin) : result bool ProxyError :=
  inspect_go (length prefix) prefix [] o.

(** ** The verdict does not depend on how the bytes arrive *)

Lemma inspect_go_more (o : WebsiteOrigin) (r : result bool ProxyError) (more : bytes) :
  r ≠ Ok false →
  ∀ fuel fuel' rest handshake, fuel <= fuel' →
    inspect_go fuel rest handshake o = r → inspect_go fuel' (rest ++ more) handshake o = r.
Proof.
  intros Hr. induction fuel as [|fuel IH]; intros fuel' rest handshake Hle E.
  { destruct rest; by subst. }
  destruct fuel' as [|fuel']; [lia|].
  destruct rest as [|kind [|major [|minor [|h [|l body]]]]]; try (by subst). cbn [app] in *. cbn [inspect_go] in *.
  destruct (negb _ || negb _); [done|]. destruct (Nat.ltb_spec (length body) (u16_of h l)) as [|Hlen]; [by subst|].
  rewrite length_app. destruct (Nat.ltb_spec (length body + length more) (u16_of h l)); [lia|].
  rewrite take_app_le, drop_app_le by done.
  assert (∀ hs, inspect_go fuel (drop (u16_of h l) body) hs o = r →
    inspect_go fuel' (drop (u16_of h l) body ++ more) hs o = r) as IH' by (intros hs; apply IH; lia).
  destruct (handshake ++ _) as [|t [|a [|b [|c hs]]]]; eauto.
  destruct (negb _); [done|]. destruct (_ <=? _); eauto.
Qed.

(** However the client's bytes are cut into reads, the proxy comes to the same
    verdict on its ClientHello: once a prefix is accepted, or refused with some
    error, every longer one is, with the same error. *)
Theorem inspect_prefix_stable (o : WebsiteOrigin) (prefix more : bytes) :
  inspect_records prefix o ≠ Ok false → inspect_records (prefix ++ more) o = inspect_records prefix o.
Proof.
  intros Hr. unfold inspect_records at 1. apply (inspect_go_more o _ more Hr (length prefix)); [|done].
  rewrite length_app. lia.
Qed.

(** ** What an accepted hello holds *)

(** The extensions of a hello, as kinds and data. *)
Inductive Extensions : bytes → list (nat * bytes) → Prop :=
| ext_nil : Extensions [] []
| ext_cons a b c d data rest exts :
    length data = u16_of c d → Extensions rest exts →
    Extensions (a :: b :: c :: d :: data ++ rest) ((u16_of a b, data) :: exts).

Definition of_kind (k : N) (e : nat * bytes) : bool := (N.of_nat e.1 =? k)%N.

Lemma get_slice_Some (s : bytes) (i n : nat) (r : bytes) :
  get_slice s i n = Some r → s = take i s ++ r ++ drop (i + n) s ∧ length r = n.
Proof.
  unfold get_slice. destruct (Nat.leb_spec (i + n) (length s)) as [Hle|]; [|done]. intros [= <-]. split.
  - rewrite <-(drop_drop s n i), take_drop. symmetry. apply take_drop.
  - rewrite length_take, length_drop. lia.
Qed.

Lemma get_slice_four (s : bytes) (a b c d : ascii) :
  get_slice s 0 2 = Some [a; b] → get_slice s 2 2 = Some [c; d] → take 4 s = [a; b; c; d].
Proof.
  unfold get_slice. destruct (_ <=? _); [|done]. destruct (_ <=? _); [|done]. intros [= Ha] [= Hc].
  change [a; b; c; d] with ([a; b] ++ [c; d]). rewrite <-Ha, <-Hc. symmetry. apply (take_take_drop s 2 2).
Qed.

Lemma scan_extensions_sound (fuel : nat) (ext : bytes) (sni : option bytes) (found : option bytes) :
  scan_extensions fuel ext sni = Ok found →
  ∃ exts, Extensions ext exts ∧ List.filter (of_kind ENCRYPTED_CLIENT_HELLO) exts = []
    ∧ match sni with
      | Some _ => found = sni ∧ List.filter (of_kind 0) exts = []
      | None => match found with
                | None => List.filter (of_kind 0) exts = []
                | Some name => ∃ data, List.filter (of_kind 0) exts = [(0, data)] ∧ parse_sni data = Ok name
                end
      end.
Proof.
  revert ext sni found. induction fuel as [|fuel IH]; intros ext sni found.
  { destruct ext; [|done]. intros [= ->]. exists []. split_and!; [constructor|done|]. by destruct found. }
  destruct ext as [|x ext].
  { intros [= ->]. exists []. split_and!; [constructor|done|]. by destruct found. }
  set (text := x :: ext). cbn [scan_extensions]. fold text.
  destruct (be_u16 text 0) as [kind|] eqn:Ek; [|done]. destruct (be_u16 text 2) as [len|] eqn:El; [|done].
  destruct (get_slice text 4 len) as [data|] eqn:Ed; [|done].
  unfold be_u16 in Ek, El.
  destruct (get_slice text 0 2) as [[|a [|b []]]|] eqn:E0; try done. injection Ek as <-.
  destruct (get_slice text 2 2) as [[|c [|d []]]|] eqn:E2; try done. injection El as <-.
  apply get_slice_Some in Ed as [Ht Hd]. pose proof (get_slice_four _ _ _ _ _ E0 E2) as Efour. clear E0 E2.
  assert (text = a :: b :: c :: d :: data ++ drop (4 + u16_of c d) text) as Et.
  { rewrite Ht at 1. change (a :: b :: c :: d :: data ++ drop (4 + u16_of c d) text)
      with ([a; b; c; d] ++ data ++ drop (4 + u16_of c d) text). by rewrite Efour. }
  set (rest := drop (4 + u16_of c d) text) in *.
  assert (∀ exts, Extensions rest exts → Extensions text ((u16_of a b, data) :: exts)) as Hcons
    by (intros exts He; rewrite Et; by constructor).
  destruct (N.of_nat (u16_of a b) =? ENCRYPTED_CLIENT_HELLO)%N eqn:Hne; [done|].
  destruct (Nat.eqb_spec (u16_of a b) 0) as [Hz|Hnz].
  - destruct sni; [done|]. destruct (parse_sni data) as [name|e] eqn:Ep; [|done].
    intros (exts & He & Hech & -> & Hsni)%IH. exists ((u16_of a b, data) :: exts).
    split_and!; [by apply Hcons| |exists data].
    + simpl. unfold of_kind at 1. simpl. by rewrite Hne.
    + simpl. unfold of_kind at 1. simpl. rewrite Hz, Hsni. done.
  - intros (exts & He & Hech & Hsni)%IH. exists ((u16_of a b, data) :: exts).
    split_and!; [by apply Hcons| |].
    + simpl. unfold of_kind at 1. simpl. by rewrite Hne.
    + assert (List.filter (of_kind 0) ((u16_of a b, data) :: exts) = List.filter (of_kind 0) exts) as ->; [|done].
      simpl. unfold of_kind at 1. simpl. destruct (N.eqb_spec (N.of_nat (u16_of a b)) 0); [lia|done].
Qed.

(** Complete handshake records at the start of a text, and what they carry. *)
Inductive Records : bytes → bytes → Prop :=
| records_end rest : Records rest []
| records_cons kind major minor h l body rest payload :
    code kind = 22 → code major = 3 → length body = u16_of h l → Records rest payload →
    Records (kind :: major :: minor :: h :: l :: body ++ rest) (body ++ payload).

(** A handshake that starts with a whole ClientHello. *)
Definition holds_hello (handshake hello : bytes) : Prop :=
  ∃ t a b c tail, handshake = t :: a :: b :: c :: hello ++ tail ∧ code t = 1
    ∧ length hello = code a * 65536 + code b * 256 + code c.

(** The entries of a server name list, as kinds and names. *)
Inductive NameList : bytes → list (nat * bytes) → Prop :=
| name_nil : NameList [] []
| name_cons kind a b name rest names :
    length name = u16_of a b → NameList rest names → NameList (kind :: a :: b :: name ++ rest) ((code kind, name) :: names).

(** A server name extension: a list, and what the client put behind it. *)
Definition server_names (data : bytes) (names : list (nat * bytes)) : Prop :=
  ∃ a b list trailing, data = a :: b :: list ++ trailing ∧ length list = u16_of a b ∧ NameList list names.

(** The kind of a host name. *)
Definition HOST_NAME : nat := 0.

(** The extensions of a hello, behind its version, random bytes, session, cipher suites
    and compression methods. *)
Definition carries_extensions (hello ext : bytes) : Prop :=
  ∃ version random s session c1 c2 ciphers m methods e1 e2,
    hello = version ++ random ++ s :: session ++ c1 :: c2 :: ciphers ++ m :: methods ++ e1 :: e2 :: ext
    ∧ length version = 2 ∧ length random = 32 ∧ length session = code s ∧ length ciphers = u16_of c1 c2
    ∧ length methods = code m ∧ length ext = u16_of e1 e2.

Lemma be_u16_Some (s : bytes) (i n : nat) : be_u16 s i = Some n → ∃ a b, drop i s = a :: b :: drop (i + 2) s ∧ n = u16_of a b.
Proof.
  unfold be_u16. destruct (get_slice s i 2) as [[|a [|b []]]|] eqn:E; try done. intros [= <-]. exists a, b. split; [|done].
  unfold get_slice in E. destruct (_ <=? _); [|done]. injection E as E. rewrite <-(take_drop 2 (drop i s)), E, drop_drop. done.
Qed.

Lemma get_slice_drop (s : bytes) (i n : nat) (r : bytes) : get_slice s i n = Some r → drop i s = r ++ drop (i + n) s ∧ length r = n.
Proof.
  unfold get_slice. destruct (Nat.leb_spec (i + n) (length s)); [|done]. intros [= <-]. split.
  - rewrite <-drop_drop. symmetry. apply take_drop.
  - rewrite length_take, length_drop. lia.
Qed.

(** A server name the proxy takes is the only entry of its list, and a host name. *)
Lemma parse_sni_sound (data name : bytes) : parse_sni data = Ok name → server_names data [(HOST_NAME, name)].
Proof.
  unfold parse_sni. destruct (be_u16 data 0) as [list_len|] eqn:El; [|done]. destruct (get_slice data 2 list_len) as [list|] eqn:En; [|done].
  destruct list as [|kind [|a [|b tail]]] eqn:Elist; try done. rewrite <-Elist in *.
  destruct (Nat.eqb_spec (code kind) 0) as [Hk|]; [|done]. cbn [negb].
  destruct (be_u16 list 1) as [name_len|] eqn:Ea; [|done]. destruct (get_slice list 3 name_len) as [found|] eqn:Ef; [|done].
  destruct (Nat.eqb_spec (length found + 3) (length list)) as [Hlen|]; [|done]. cbn [negb]. destruct (is_utf8 found); [|done]. intros [= <-].
  apply be_u16_Some in El as (x & y & Ex & ->). rewrite drop_0 in Ex. apply get_slice_drop in En as [E2 Hl].
  apply be_u16_Some in Ea as (a' & b' & Ea & ->). apply get_slice_drop in Ef as [E3 Hf]. subst list. cbn in Ea, E3, Hlen. injection Ea as <- <-.
  exists x, y, (kind :: a :: b :: tail), (drop (2 + u16_of x y) data). split_and!; [|done|].
  - cbn [Nat.add] in Ex. rewrite Ex at 1. by rewrite E2.
  - assert (drop (u16_of a b) tail = []) as Hnil by (apply nil_length_inv; rewrite length_drop; lia).
    change (tail = found ++ drop (u16_of a b) tail) in E3. rewrite Hnil in E3. rewrite E3. change HOST_NAME with 0. rewrite <-Hk. constructor; [done|constructor].
Qed.

Lemma nth_drop (s : bytes) (i : nat) (a : ascii) : s !! i = Some a → drop i s = a :: drop (i + 1) s.
Proof. intros Hi. rewrite (drop_S _ _ _ Hi). by replace (i + 1) with (S i) by lia. Qed.

Lemma hello_extensions_sound (hello ext : bytes) : hello_extensions hello = Some ext → carries_extensions hello ext.
Proof.
  unfold hello_extensions. set (o1 := 2 + 32). intros (s & Hs & (ciphers & Hc & (m & Hm & (len & Hl & (e & He & Hend)%bind_Some)%bind_Some)%bind_Some)%bind_Some)%bind_Some.
  set (o2 := o1 + (1 + code s)) in *. set (o3 := o2 + (2 + ciphers)) in *. set (o4 := o3 + (1 + code m)) in *. set (o5 := o4 + 2) in *.
  destruct (Nat.eqb_spec (o5 + len) (length hello)) as [Hall|]; [|done]. injection Hend as ->.
  pose proof (lookup_lt_Some _ _ _ Hs) as L1. pose proof (lookup_lt_Some _ _ _ Hm) as L3.
  apply nth_drop in Hs, Hm. apply be_u16_Some in Hc as (c1 & c2 & Hc & ->), Hl as (e1 & e2 & Hl & ->). apply get_slice_drop in He as [He Hel].
  assert (drop (o5 + u16_of e1 e2) hello = []) as Hnil by (apply nil_length_inv; rewrite length_drop; lia). rewrite Hnil, app_nil_r in He.
  assert (∀ i n, i + n <= length hello → drop i hello = take n (drop i hello) ++ drop (i + n) hello ∧ length (take n (drop i hello)) = n) as Hcut.
  { intros i n Hn. split; [by rewrite <-(drop_drop hello n i), take_drop|]. rewrite length_take, length_drop. lia. }
  destruct (Hcut 0 2) as [T1 U1]; [unfold o1 in *; lia|]. destruct (Hcut 2 32) as [T2 U2]; [unfold o1 in *; lia|].
  destruct (Hcut (o1 + 1) (code s)) as [T3 U3]; [unfold o5, o4, o3, o2 in *; lia|].
  destruct (Hcut (o2 + 2) (u16_of c1 c2)) as [T4 U4]; [unfold o5, o4, o3 in *; lia|].
  destruct (Hcut (o3 + 1) (code m)) as [T5 U5]; [unfold o5, o4 in *; lia|].
  exists (take 2 (drop 0 hello)), (take 32 (drop 2 hello)), s, (take (code s) (drop (o1 + 1) hello)), c1, c2, (take (u16_of c1 c2) (drop (o2 + 2) hello)),
    m, (take (code m) (drop (o3 + 1) hello)), e1, e2. split_and!; [|done..].
  change hello with (drop 0 hello) at 1. rewrite T1 at 1. f_equal. change (0 + 2) with 2. rewrite T2 at 1. f_equal. change (2 + 32) with o1. rewrite Hs. f_equal.
  rewrite T3 at 1. f_equal. replace (o1 + 1 + code s) with o2 by (unfold o2; lia). rewrite Hc. do 2 f_equal.
  rewrite T4 at 1. f_equal. replace (o2 + 2 + u16_of c1 c2) with o3 by (unfold o3; lia). rewrite Hm. f_equal.
  rewrite T5 at 1. f_equal. replace (o3 + 1 + code m) with o4 by (unfold o4; lia). rewrite Hl. do 2 f_equal. exact He.
Qed.

(** A hello that names the origin's host, in the open and once. *)
Definition names_host (hello : bytes) (o : WebsiteOrigin) : Prop :=
  ∃ ext exts data name named, carries_extensions hello ext ∧ Extensions ext exts
    ∧ List.filter (of_kind ENCRYPTED_CLIENT_HELLO) exts = []
    ∧ List.filter (of_kind 0) exts = [(0, data)] ∧ server_names data [(HOST_NAME, name)]
    ∧ parse_origin ($"https://" ++ name ++ $":" ++ show_decimal (port o)) = Ok named ∧ hostname named = hostname o.

Lemma validate_hello_sound (hello : bytes) (o : WebsiteOrigin) :
  validate_hello hello o = Ok tt → names_host hello o.
Proof.
  unfold validate_hello. destruct (hello_extensions hello) as [ext|] eqn:Ex; [|done].
  destruct (scan_extensions _ ext None) as [[name|]|] eqn:Es; try done.
  apply scan_extensions_sound in Es as (exts & He & Hech & data & Hsni & Hp).
  destruct (parse_origin _) as [named|] eqn:Eo; [|done]. destruct (beq _ _) eqn:Eh; [|done]. apply beq_true in Eh.
  intros _. exists ext, exts, data, name, named. split_and!; [by apply hello_extensions_sound|done..|by apply parse_sni_sound|done|done].
Qed.

Lemma inspect_go_sound (o : WebsiteOrigin) (fuel : nat) (rest handshake : bytes) :
  inspect_go fuel rest handshake o = Ok true →
  ∃ payload hello, Records rest payload ∧ holds_hello (handshake ++ payload) hello ∧ names_host hello o.
Proof.
  revert rest handshake. induction fuel as [|fuel IH]; intros rest handshake; [by destruct rest|].
  destruct rest as [|kind [|major [|minor [|h [|l body]]]]]; try done. cbn [inspect_go].
  destruct (negb (code kind =? 22)) eqn:Ek; [done|]. destruct (negb (code major =? 3)) eqn:Em; [done|].
  apply negb_false_iff, Nat.eqb_eq in Ek, Em. cbn [orb].
  destruct (Nat.ltb_spec (length body) (u16_of h l)) as [|Hlen]; [done|].
  set (chunk := take (u16_of h l) body) in *. set (next := drop (u16_of h l) body) in *.
  assert (length chunk = u16_of h l) as Hc by (unfold chunk; rewrite length_take; lia).
  assert (body = chunk ++ next) as Eb by (symmetry; apply take_drop).
  assert (inspect_go fuel next (handshake ++ chunk) o = Ok true →
    ∃ payload hello, Records (kind :: major :: minor :: h :: l :: body) payload
      ∧ holds_hello (handshake ++ payload) hello ∧ names_host hello o) as Hnext.
  { intros (payload & hello & Hr & Hh & Hn)%IH. exists (chunk ++ payload), hello. rewrite Eb.
    split; [by constructor|]. by rewrite app_assoc. }
  destruct (handshake ++ chunk) as [|t [|a [|b [|c hs]]]] eqn:Eh; try (exact Hnext).
  destruct (negb (code t =? 1)) eqn:Et; [done|]. apply negb_false_iff, Nat.eqb_eq in Et.
  set (n := code a * 65536 + code b * 256 + code c) in *.
  destruct (Nat.leb_spec n (length hs)) as [Hle|]; [|exact Hnext].
  destruct (validate_hello (take n hs) o) as [[]|] eqn:Ev; [|done]. intros _.
  exists chunk, (take n hs). split_and!; [|exists t, a, b, c, (drop n hs)|by apply validate_hello_sound].
  - rewrite Eb. rewrite <-(app_nil_r chunk) at 2. constructor; try done. constructor.
  - rewrite Eh, take_drop. split_and!; [done|done|]. by rewrite length_take_le.
Qed.

(** C37: a tunnel that passed the check carries the host the proxy let through: the
    bytes collected start with handshake records whose payload is one whole
    ClientHello, its fields in order and its extensions up to its end; these hold no
    encrypted hello and exactly one server name extension, whose list has exactly one
    entry, a host name; and that name normalises to the host of the origin. *)
Theorem hello_pins_host (prefix : bytes) (o : WebsiteOrigin) :
  inspect_records prefix o = Ok true →
  ∃ payload hello, Records prefix payload ∧ holds_hello payload hello ∧ names_host hello o.
Proof. intros (payload & hello & Hr & Hh & Hn)%inspect_go_sound. by exists payload, hello. Qed.

End ClientHello.

(** ** A hello *)

Definition u16_bytes (n : nat) : bytes := [ascii_of_nat (n / 256); ascii_of_nat (n mod 256)].

Definition tls_record (payload : bytes) : bytes :=
  map ascii_of_nat [22; 3; 3] ++ u16_bytes (length payload) ++ payload.

(** A ClientHello for a host name, as one handshake message. *)
Definition demo_handshake (host : bytes) : bytes :=
  let sni := u16_bytes (length host + 3) ++ [ascii_of_nat 0] ++ u16_bytes (length host) ++ host in
  let ext := u16_bytes 0 ++ u16_bytes (length sni) ++ sni in
  let hello := map ascii_of_nat ([3; 3] ++ replicate 32 0 ++ [0] ++ [0; 2; 19; 1] ++ [1; 0])
               ++ u16_bytes (length ext) ++ ext in
  [ascii_of_nat 1; ascii_of_nat 0] ++ u16_bytes (length hello) ++ hello.

(** The same, cut into two records. *)
Definition demo_hello (host : bytes) : bytes :=
  tls_record (take 20 (demo_handshake host)) ++ tls_record (drop 20 (demo_handshake host)).

Definition demo_host : WebsiteOrigin := mkOrigin $"https" $"example.com" 443.

Example hello_verdicts :
  let inspect h := @inspect_records demo_origins (demo_hello h) demo_host in
  inspect $"Example.com" = Ok true ∧ inspect $"evil.example" = Err TlsSni
  ∧ @inspect_records demo_origins (take 40 (demo_hello $"example.com")) demo_host = Ok false.
Proof. by vm_compute. Qed.

Lemma inspect_prefix_stable_witness :
  @inspect_records demo_origins (demo_hello $"evil.example" ++ $"more") demo_host = Err TlsSni.
Proof.
  assert (@inspect_records demo_origins (demo_hello $"evil.example") demo_host = Err TlsSni) as E by (by vm_compute).
  rewrite (@inspect_prefix_stable demo_origins demo_host (demo_hello $"evil.example") $"more"); [exact E|by rewrite E].
Defined.

Lemma hello_pins_host_witness :
  ∃ payload hello, Records (demo_hello $"example.com") payload ∧ holds_hello payload hello
    ∧ @names_host demo_origins hello demo_host.
Proof. apply (@hello_pins_host demo_origins). by vm_compute. Defined.
