(* ===== verification/ProxyLaws.v ===== *)
(** * Laws of the proxy's messages and credentials

    What a relayed request carries and how its body is framed, and that the
    registry of credentials implements a map from commands to their live token. *)

From stdpp Require Import pretty.
From S2P Require Import Prelude RustStr StrFind IpAddr UrlMatch WebOrigin ProxyRequest.

#[local] Open Scope nat_scope.

(** ** Numbers on the wire *)

Lemma parse_content_length_show (n : N) : (n < 2 ^ 64)%N → parse_content_length (show_decimal n) = Some n.
Proof.
  intros Hn. destruct (show_decimal_digits n) as [Hd Hne]. unfold parse_content_length, beq.
  rewrite bool_decide_eq_false_2, Hd by done. cbn [orb negb]. by apply parse_show_decimal.
Qed.

Lemma parse_digits_bound (bound acc n : N) (s : bytes) :
  (acc < bound)%N → parse_digits bound acc s = Some n → (n < bound)%N.
Proof.
  revert acc. induction s as [|a s IH]; intros acc Ha; [by intros [= <-]|]. cbn [parse_digits].
  destruct (is_ascii_digit a); [|done]. destruct (N.ltb_spec (acc * 10 + N.of_nat (code a - 48)) bound); [|done].
  by apply IH.
Qed.

Lemma parse_content_length_bound (v : bytes) (n : N) : parse_content_length v = Some n → (n < 2 ^ 64)%N.
Proof.
  unfold parse_content_length, parse_unsigned. destruct (_ || _); [done|]. destruct (_ =b _); [done|].
  by apply parse_digits_bound.
Qed.

(** ** Headers of a relayed request *)

(** The values under a name. *)
Definition values (name : bytes) (hs : Headers) : list bytes := map snd (List.filter (named name) hs).

Lemma filter_named_app (name : bytes) (a b : Headers) :
  List.filter (named name) (a ++ b) = List.filter (named name) a ++ List.filter (named name) b.
Proof. apply List.filter_app. Qed.

(** Whether a header is dropped depends on its name up to case. *)
Lemma dropped_named (tokens : list bytes) (name : bytes) (h : bytes * bytes) :
  named name h = true → dropped tokens h.1 = dropped tokens name.
Proof. unfold named, eq_ignore_ascii_case, beq, dropped. intros E%bool_decide_eq_true. by rewrite E. Qed.

Lemma filter_kept (tokens : list bytes) (name : bytes) (hs : Headers) :
  List.filter (named name) (List.filter (fun h => negb (dropped tokens h.1)) hs)
  = if dropped tokens name then [] else List.filter (named name) hs.
Proof.
  induction hs as [|h hs IH]; [by destruct (dropped tokens name)|]. simpl.
  pose proof (dropped_named tokens name h) as Hd. destruct (named name h) eqn:En.
  - rewrite Hd by done. destruct (dropped tokens name) eqn:Ed; simpl; [done|]. by rewrite En, IH.
  - destruct (dropped tokens h.1); simpl; [done|]. by rewrite En.
Qed.

(** The headers the proxy writes itself. *)
Definition own_headers (authority : bytes) (len : option N) : Headers :=
  [($"Host", authority)] ++ length_header len ++ [($"Connection", $"close")].

Lemma own_not_kept (tokens : list bytes) (authority : bytes) (len : option N) (h : bytes * bytes) :
  h ∈ own_headers authority len → dropped tokens h.1 = true.
Proof.
  unfold own_headers, length_header. destruct len; set_unfold; intros Hh; repeat destruct Hh as [->|Hh]; done.
Qed.

(** Of each name the upstream sees the proxy's own headers or the client's, never
    both. *)
Lemma sanitized_named (hs : Headers) (authority : bytes) (len : option N) (out : Headers) (name : bytes) :
  sanitized_headers hs authority len = Some out →
  List.filter (named name) out
  = if dropped (connection_values hs) name then List.filter (named name) (own_headers authority len)
    else List.filter (named name) hs.
Proof.
  unfold sanitized_headers, connection_tokens. destruct (forallb _ _); [|done]. intros <-%(inj Some).
  assert (∀ own, (∀ h, h ∈ own → h ∈ own_headers authority len) →
          dropped (connection_values hs) name = false → List.filter (named name) own = []) as Hown.
  { intros own Ho Hd. apply filter_none. intros h Hh. destruct (named name h) eqn:E; [|done].
    apply (dropped_named (connection_values hs)) in E. rewrite Hd in E.
    by rewrite (own_not_kept _ authority len h) in E by auto. }
  rewrite !filter_named_app, filter_kept. destruct (dropped _ name) eqn:Ed.
  - unfold own_headers. by rewrite !filter_named_app.
  - rewrite (Hown [_]), (Hown (length_header len)), (Hown [_]) by (done || (unfold own_headers; set_solver)).
    apply app_nil_r.
Qed.

Lemma single_header_none (hs : Headers) (name : bytes) : single_header hs name = Some None → List.filter (named name) hs = [].
Proof. unfold single_header. by destruct (List.filter _ hs) as [|h [|]]. Qed.

(** What [framing] found out. *)
Lemma framing_facts (hs : Headers) (len : option N) :
  framing hs = Some len →
  List.filter (named $"transfer-encoding") hs = [] ∧ List.filter (named $"expect") hs = []
  ∧ match len with Some n => (n < 2 ^ 64)%N | None => True end.
Proof.
  unfold framing. intros Hf. destruct (single_header hs $"transfer-encoding") as [[te|]|] eqn:Et;
    cbn [mbind option_bind] in Hf; [done| |done]. destruct (single_header hs $"expect") as [[ex|]|] eqn:Ee;
    cbn [mbind option_bind] in Hf; [done| |done].
  apply single_header_none in Et, Ee. split_and!; [done|done|].
  destruct (single_header hs $"content-length") as [[v|]|]; simpl in Hf; [| |done].
  - destruct (parse_content_length v) as [n|] eqn:Ep; simpl in Hf; [|done].
    destruct (connection_tokens hs); simplify_eq/=. by eapply parse_content_length_bound.
  - by destruct (connection_tokens hs); simplify_eq/=.
Qed.

Definition hop_by_hop : list string :=
  ["connection"; "keep-alive"; "proxy-authenticate"; "proxy-authentication-info"; "proxy-authorization";
   "proxy-connection"; "te"; "trailer"; "transfer-encoding"; "upgrade"].

Lemma connection_values_good (hs : Headers) (authority : bytes) (len : option N) (out : Headers) (token : bytes) :
  sanitized_headers hs authority len = Some out → token ∈ connection_values hs → good_token token = true.
Proof.
  unfold sanitized_headers, connection_tokens. destruct (forallb _ _) eqn:E; [|done]. intros _ Hin.
  rewrite forallb_forall in E. by apply E, list_elem_of_In.
Qed.

(** The proxy's own headers under a name they do not have. *)
Lemma own_named (authority : bytes) (len : option N) (name : bytes) :
  mem (to_ascii_lowercase name) ["host"; "content-length"; "connection"] = false →
  List.filter (named name) (own_headers authority len) = [].
Proof.
  intros Hm. apply filter_none. intros h Hh. destruct (named name h) eqn:E; [|done].
  unfold named, eq_ignore_ascii_case in E. apply beq_true in E. rewrite <-E in Hm.
  unfold own_headers, length_header in Hh. destruct len; set_unfold; repeat destruct Hh as [->|Hh]; done.
Qed.

(** A request the proxy relays carries exactly one [Host], the target the
    policy was asked about, exactly one [Connection: close], and the length the
    proxy itself read; no header of the hop, none that the client's [Connection]
    names, and no proxy credential reaches the upstream; every other header is
    relayed unchanged and in order; and the upstream frames the body as the proxy
    did, so no second request can hide in it. *)
Theorem relayed_headers (hs : Headers) (authority : bytes) (len : option N) (out : Headers) :
  framing hs = Some len → sanitized_headers hs authority len = Some out →
  values $"host" out = [authority]
  ∧ values $"connection" out = [$"close"]
  ∧ values $"content-length" out = match len with Some n => [show_decimal n] | None => [] end
  ∧ (∀ name, mem (to_ascii_lowercase name) hop_by_hop = true ∨ to_ascii_lowercase name ∈ connection_values hs →
     to_ascii_lowercase name ≠ $"connection" → values name out = [])
  ∧ (∀ name, mem (to_ascii_lowercase name) (hop_by_hop ++ ["host"; "content-length"; "forwarded"; "via"]) = false →
     starts_with $"x-forwarded-" (to_ascii_lowercase name) = false → to_ascii_lowercase name ∉ connection_values hs →
     List.filter (named name) out = List.filter (named name) hs)
  ∧ framing out = Some len.
Proof.
  intros Hf Hs. destruct (framing_facts hs len Hf) as (Ht & He & Hn).
  pose proof (fun name => sanitized_named hs authority len out name Hs) as Hout.
  assert (∀ name, to_ascii_lowercase name ∈ connection_values hs → good_token (to_ascii_lowercase name) = true) as Hgood
    by (intros name; by apply (connection_values_good hs authority len out)).
  assert (∀ name, dropped (connection_values hs) name = true →
    mem (to_ascii_lowercase name) ["host"; "content-length"; "connection"] = false → List.filter (named name) out = [])
    as Hgone by (intros name Hd Hm; by rewrite Hout, Hd, own_named).
  split_and!.
  - unfold values. rewrite Hout. by destruct len.
  - unfold values. rewrite Hout. by destruct len.
  - unfold values. rewrite Hout. by destruct len.
  - intros name Hw Hc. unfold values. rewrite Hgone; [done| |].
    + unfold dropped. destruct Hw as [Hw|Hw]; [by change (static_hop_by_hop (to_ascii_lowercase name) = true) in Hw; rewrite Hw|].
      by rewrite (bool_decide_eq_true_2 _ Hw), orb_true_r.
    + apply not_true_is_false. intros (s & Hin & E)%mem_true. rewrite E in Hc, Hw. set_unfold in Hin.
      destruct Hw as [Hw|Hw]; [|rewrite <-E in Hw; apply Hgood in Hw; rewrite E in Hw].
      * repeat destruct Hin as [->|Hin]; by (done || vm_compute in Hw).
      * repeat destruct Hin as [->|Hin]; by (done || vm_compute in Hw).
  - intros name Hm Hx Hc. rewrite Hout. unfold dropped. rewrite (bool_decide_eq_false_2 _ Hc), Hx.
    unfold mem in Hm. rewrite existsb_app in Hm. apply orb_false_iff in Hm as [Hm1 Hm2].
    change (static_hop_by_hop (to_ascii_lowercase name) = false) in Hm1. rewrite Hm1. cbn [existsb] in Hm2.
    assert ((to_ascii_lowercase name =b $"proxy-authorization") = false) as ->
      by (apply not_true_is_false; intros E%beq_true; by rewrite E in Hm1).
    apply orb_false_iff in Hm2 as [-> [-> [-> [-> _]%orb_false_iff]%orb_false_iff]%orb_false_iff]. done.
  - assert (single_header out $"transfer-encoding" = Some None) as Et
      by (unfold single_header; rewrite Hout, Ht; by destruct len, (dropped _ _)).
    assert (single_header out $"expect" = Some None) as Ee
      by (unfold single_header; rewrite Hout, He; by destruct len, (dropped _ _)).
    assert (single_header out $"content-length" = Some (match len with Some n => Some (show_decimal n) | None => None end)) as El
      by (unfold single_header; rewrite Hout; by destruct len).
    assert (connection_tokens out = Some [$"close"]) as Ec
      by (unfold connection_tokens, connection_values; rewrite (Hout $"connection"); by destruct len).
    unfold framing. rewrite Et, Ee, El, Ec. destruct len as [n|]; [|done]. cbn [mbind option_bind].
    by rewrite parse_content_length_show.
Qed.

Lemma relayed_headers_witness :
  let hs := [($"host", $"example.com"); ($"Connection", $"x-secret, close"); ($"X-Secret", $"1"); ($"Accept", $"*/*");
             ($"Proxy-Authorization", $"Bearer t"); ($"Content-Length", $"+0"); ($"content-length", $"7")] in
  let hs := take 5 hs ++ drop 6 hs in
  ∃ out, sanitized_headers hs $"example.com" (Some 7%N) = Some out ∧ values $"x-secret" out = []
         ∧ values $"content-length" out = [$"7"] ∧ framing out = Some (Some 7%N).
Proof.
  intros hs0 hs. destruct (sanitized_headers hs $"example.com" (Some 7%N)) as [out|] eqn:E; [|by vm_compute in E].
  assert (framing hs = Some (Some 7%N)) as Hf by (by vm_compute).
  destruct (relayed_headers hs $"example.com" (Some 7%N) out Hf E) as (_ & _ & Hl & Hgone & _ & Hfr).
  exists out. split_and!; [done| |exact Hl|exact Hfr]. apply Hgone; [right|done].
  apply (bool_decide_unpack _). by vm_compute.
Defined.

(** ** Credentials *)

(** What the session asks of the registry, and what it answers. *)
Inductive CredOp := OpMint (t : CommandTag) (fresh : ProxyToken) | OpRevoke (t : CommandTag) | OpRevokeExact (c : ProxyCredential).

Definition apply_op (op : CredOp) (r : CredentialRegistry) : bool * CredentialRegistry :=
  match op with
  | OpMint t fresh => (true, mint t fresh r)
  | OpRevoke t => revoke t r
  | OpRevokeExact c => revoke_exact c r
  end.

(** The specification: the live token of each command. *)
Abbreviation Live := (gmap CommandTag ProxyToken).

Definition spec_op (op : CredOp) (m : Live) : bool * Live :=
  match op with
  | OpMint t fresh => (true, <[t := fresh]> m)
  | OpRevoke t => (bool_decide (is_Some (m !! t)), delete t m)
  | OpRevokeExact c => if bool_decide (m !! tag c = Some (token c)) then (true, delete (tag c) m) else (false, m)
  end.

Fixpoint run_ops {S} (f : CredOp → S → bool * S) (ops : list CredOp) (s : S) : list bool * S :=
  match ops with
  | [] => ([], s)
  | op :: ops => let '(x, s) := f op s in let '(rs, s) := run_ops f ops s in (x :: rs, s)
  end.

Definition minted (ops : list CredOp) : list ProxyToken :=
  omap (fun op => match op with OpMint _ fresh => Some fresh | _ => None end) ops.

(** The registry holds the credentials of the map, one per command. *)
Record implements (s : ProxyToken) (r : CredentialRegistry) (m : Live) : Prop := {
  impl_session : session_token r = s;
  impl_calls : ∀ c, c ∈ calls r ↔ m !! tag c = Some (token c);
}.

Lemma retain_changed {A} (f : A → bool) (l : list A) :
  negb (length (List.filter f l) =? length l) = existsb (fun x => negb (f x)) l.
Proof.
  induction l as [|x l IH]; [done|]. simpl. destruct (f x); simpl; [by rewrite <-IH|].
  pose proof (List.filter_length_le f l). by destruct (Nat.eqb_spec (length (List.filter f l)) (S (length l))); [lia|].
Qed.

Lemma in_retained {A} (f : A → bool) (l : list A) (x : A) : x ∈ List.filter f l ↔ x ∈ l ∧ f x = true.
Proof. rewrite !list_elem_of_In. apply filter_In. Qed.

Lemma op_implements (s : ProxyToken) (op : CredOp) (r : CredentialRegistry) (m : Live) :
  implements s r m → (apply_op op r).1 = (spec_op op m).1 ∧ implements s (apply_op op r).2 (spec_op op m).2.
Proof.
  intros [Hs Hc]. destruct op as [t fresh|t|c]; simpl.
  - split; [done|]. split; [done|]. intros c. simpl. rewrite elem_of_app, in_retained, Hc, list_elem_of_singleton.
    destruct (decide (tag c = t)) as [<-|Hne].
    + rewrite beq_refl, lookup_insert_eq. split; [by intros [[_ ?]| ->]|]. intros [= ->]. right. by destruct c.
    + rewrite lookup_insert_ne by done. split; [by intros [[? _]| ->]|]. intros Hl. left. split; [done|].
      by apply negb_true_iff, beq_false.
  - split.
    + rewrite retain_changed. apply eq_true_iff_eq. rewrite existsb_exists, bool_decide_eq_true. split.
      * intros (c & Hin%list_elem_of_In%Hc & E). rewrite negb_involutive in E. apply beq_true in E as <-. by eexists.
      * intros [tok Hl]. exists (mkCredential t tok). split; [by apply list_elem_of_In, Hc|by rewrite negb_involutive, beq_refl].
    + split; [done|]. intros c. simpl. rewrite in_retained, Hc, negb_true_iff, beq_false, lookup_delete_Some. naive_solver.
  - assert (c ∈ calls r ↔ m !! tag c = Some (token c)) as Hin by apply Hc.
    split.
    + rewrite retain_changed. destruct (bool_decide_reflect (m !! tag c = Some (token c))) as [Hl|Hl]; simpl.
      * apply existsb_exists. exists c. split; [by apply list_elem_of_In, Hin|by rewrite bool_decide_eq_true_2].
      * apply not_true_is_false. intros (c' & Hc'%list_elem_of_In & E)%existsb_exists. rewrite negb_involutive in E.
        apply bool_decide_eq_true in E as ->. by apply Hl, Hin.
    + destruct (bool_decide_reflect (m !! tag c = Some (token c))) as [Hl|Hl]; (split; [done|]); intros c'; simpl;
        rewrite in_retained, Hc, negb_true_iff, bool_decide_eq_false.
      * rewrite lookup_delete_Some. split; [|naive_solver]. intros [Hl' Hne]. split; [|done]. intros E. apply Hne.
        rewrite <-E, Hl in Hl'. destruct c, c'; simpl in *; congruence.
      * split; [by intros []|]. intros Hl'. split; [done|]. by intros ->.
Qed.

Lemma run_implements (s : ProxyToken) (ops : list CredOp) (r : CredentialRegistry) (m : Live) :
  implements s r m →
  (run_ops apply_op ops r).1 = (run_ops spec_op ops m).1
  ∧ implements s (run_ops apply_op ops r).2 (run_ops spec_op ops m).2.
Proof.
  revert r m. induction ops as [|op ops IH]; intros r m Hi; [done|]. simpl.
  destruct (op_implements s op r m Hi) as [Hx Hi']. destruct (apply_op op r) as [x r'], (spec_op op m) as [y m'].
  simpl in *. subst y. destruct (IH r' m' Hi') as [Hrs Hi'']. clear -Hrs Hi''.
  destruct (run_ops apply_op ops r') as [rs r''], (run_ops spec_op ops m') as [rs' m'']. simpl in *. by subst rs'.
Qed.

(** Tokens are minted once, so each is live for one command at most. *)
Definition unique_within (used : list ProxyToken) (m : Live) : Prop :=
  ∀ t tok, m !! t = Some tok → tok ∈ used ∧ ∀ t', m !! t' = Some tok → t' = t.

Lemma unique_delete (used : list ProxyToken) (m : Live) (t : CommandTag) :
  unique_within used m → unique_within used (delete t m).
Proof. intros Hu t1 tok [_ H1]%lookup_delete_Some. split; [by eapply Hu|]. intros t2 [_ H2]%lookup_delete_Some. by eapply Hu. Qed.

Lemma unique_insert (used : list ProxyToken) (m : Live) (t : CommandTag) (fresh : ProxyToken) :
  unique_within used m → fresh ∉ used → unique_within (used ++ [fresh]) (<[t := fresh]> m).
Proof.
  intros Hu Hf t1 tok H1. rewrite elem_of_app, list_elem_of_singleton.
  apply lookup_insert_Some in H1 as [[<- <-]|[Hne H1]].
  - split; [by right|]. intros t2 [[<- _]|[_ H2]]%lookup_insert_Some; [done|]. by destruct (Hu _ _ H2).
  - destruct (Hu _ _ H1) as [Hin Hun]. split; [by left|]. intros t2 [[_ <-]|[_ H2]]%lookup_insert_Some; [done|by apply Hun].
Qed.

Lemma run_unique (used : list ProxyToken) (ops : list CredOp) (m : Live) :
  unique_within used m → NoDup (used ++ minted ops) →
  unique_within (used ++ minted ops) (run_ops spec_op ops m).2.
Proof.
  revert used m. induction ops as [|op ops IH]; intros used m Hu Hd; [by rewrite app_nil_r|].
  assert (∀ m', unique_within used m' → NoDup (used ++ minted ops) →
          unique_within (used ++ minted ops) (run_ops spec_op ops m').2) as Hsame by auto.
  assert (∀ x, (run_ops spec_op (op :: ops) m).2 = x → unique_within (used ++ minted (op :: ops)) x) as Hgoal; [|by apply Hgoal].
  intros x <-. simpl. destruct (spec_op op m) as [y m'] eqn:Eop.
  replace (let '(rs, s) := run_ops spec_op ops m' in (y :: rs, s)).2 with (run_ops spec_op ops m').2
    by (by destruct (run_ops spec_op ops m')).
  destruct op as [t fresh|t|c]; simpl in Eop.
  - simplify_eq. change (minted (OpMint t fresh :: ops)) with ([fresh] ++ minted ops) in Hd.
    change (fresh :: minted ops) with ([fresh] ++ minted ops).
    rewrite (assoc_L (++)) in Hd |- *. apply IH; [|done]. apply unique_insert; [done|].
    apply NoDup_app in Hd as [Hd _]. apply NoDup_app in Hd as (_ & Hd & _). intros Hin. by apply (Hd _ Hin); left.
  - simplify_eq/=. apply Hsame; [by apply unique_delete|done].
  - destruct (bool_decide _); simplify_eq/=; apply Hsame; auto using unique_delete.
Qed.

(** ** The header a client presents *)

Lemma is_utf8_ascii (s : bytes) : forallb (fun a => code a <? 128) s = true → is_utf8 s = true.
Proof. induction s as [|a s IH]; [done|]. simpl. intros [-> Hs]%andb_true_iff. by apply IH. Qed.

Lemma trim_plain_tail (a : ascii) (s r : bytes) :
  plain a = true → r ≠ [] → forallb plain r = true → trim (a :: s ++ r) = a :: s ++ r.
Proof.
  intros Ha Hne Hr. destruct r as [|b r _] using rev_ind; [done|].
  rewrite forallb_app in Hr. apply andb_true_iff in Hr as [_ [Hb _]%andb_true_iff].
  rewrite (assoc_L (++)). by apply trim_plain_ends.
Qed.

Section Credentials.
Context `{HttpEnv}.

(** A token the random source makes, and what base64 does with its credentials. *)
Record sendable (t : ProxyToken) : Prop := {
  sendable_token : t ≠ [] ∧ forallb plain t = true;
  sendable_encoded : basic_credentials t ≠ [] ∧ forallb plain (basic_credentials t) = true;
  sendable_decoded : base64_decode (basic_credentials t) = Some (PROXY_USERNAME ++ $":" ++ t);
}.

Lemma presented_basic (c : ProxyCredential) :
  sendable (token c) → presented_token (proxy_authorization c) = Some (token c).
Proof.
  intros [[Ht Hp] [He Hpe] Hd]. unfold presented_token, proxy_authorization.
  assert (trim ($"Basic " ++ basic_credentials (token c)) = $"Basic " ++ basic_credentials (token c)) as ->
    by (by apply (trim_plain_tail "B" $"asic ")).
  replace (split_once " " _) with (Some ($"Basic", basic_credentials (token c))) by done. cbn [mbind option_bind].
  assert (trim (basic_credentials (token c)) = basic_credentials (token c)) as ->.
  { apply trim_fix. destruct (basic_credentials (token c)) as [|a r] eqn:E; [done|]. split.
    - apply head_ws_plain. by apply andb_true_iff in Hpe as [? _].
    - destruct (a :: r) as [|b r' _] using rev_ind; [done|]. rewrite reverse_snoc. apply head_ws_rev_plain.
      rewrite forallb_app in Hpe. by apply andb_true_iff in Hpe as [_ [? _]%andb_true_iff]. }
  rewrite (proj2 (beq_false _ _) He). change (eq_ignore_ascii_case $"Basic" $"bearer") with false.
  change (eq_ignore_ascii_case $"Basic" $"basic") with true. cbn [negb]. rewrite Hd. cbn [mbind option_bind].
  assert (forallb (fun a => code a <? 128) (token c) = true) as Ha.
  { rewrite forallb_forall in Hp |- *. intros a Ha. apply Hp in Ha. unfold plain in Ha. by apply andb_true_iff in Ha as [_ ?]. }
  rewrite is_utf8_ascii by (by rewrite !forallb_app, Ha). cbn [negb].
  replace (split_once ":" _) with (Some (PROXY_USERNAME, token c)) by done. cbn [mbind option_bind].
  by rewrite (proj2 (beq_false _ _) Ht).
Qed.

(** C36: the registry implements a map from commands to their live token, whatever
    is minted and revoked in whatever order, with the answers of the map; a
    credential a client presents is accepted as the command whose live token it is,
    as the session when it is the session's, and refused when it is no one's: a
    revoked or replaced credential stops working at once. *)
Theorem credential_lifecycle (s : ProxyToken) (ops : list CredOp) (c : ProxyCredential) :
  NoDup (s :: minted ops) → sendable (token c) →
  let '(answers, r) := run_ops apply_op ops (mkRegistry s []) in
  let '(answers', live) := run_ops spec_op ops ∅ in
  answers = answers'
  ∧ (token c = s → authenticate r (proxy_authorization c) = Ok None)
  ∧ (token c ≠ s → ∀ t, authenticate r (proxy_authorization c) = Ok (Some t) ↔ live !! t = Some (token c))
  ∧ (token c ≠ s → (∀ t, live !! t ≠ Some (token c)) → authenticate r (proxy_authorization c) = Err Authentication).
Proof.
  intros [Hs Hd]%NoDup_cons Hc.
  destruct (run_implements s ops (mkRegistry s []) ∅) as [Ha Hi]; [split; [done|]; set_solver|].
  pose proof (run_unique [] ops ∅ ltac:(intros ??; by rewrite lookup_empty) Hd) as Hu.
  destruct (run_ops apply_op ops _) as [answers r], (run_ops spec_op ops _) as [answers' live]. simpl in *.
  split; [done|]. destruct Hi as [<- Hcalls]. unfold authenticate. rewrite presented_basic by done.
  split; [intros ->; by rewrite beq_refl|].
  split; intros Hne; rewrite (proj2 (beq_false _ _) Hne).
  - intros t. destruct (List.find _ _) as [x|] eqn:Ef.
    + apply find_some in Ef as [Hx%list_elem_of_In%Hcalls E]. apply beq_true in E. rewrite E in Hx.
      split; [by intros [= <-]|]. intros Ht. f_equal. f_equal. by apply (Hu _ _ Ht).
    + split; [done|]. intros Ht. exfalso. assert (In (mkCredential t (token c)) (calls r)) as Hin by (by apply list_elem_of_In, Hcalls).
      pose proof (find_none _ _ Ef _ Hin) as Hn. simpl in Hn. by rewrite beq_refl in Hn.
  - intros Hno. destruct (List.find _ _) as [x|] eqn:Ef; [exfalso|done].
    apply find_some in Ef as [Hx%list_elem_of_In%Hcalls E]. apply beq_true in E. rewrite E in Hx. by apply (Hno (tag x)).
Qed.

End Credentials.

(** A base64 that leaves its input alone. *)
#[local] Instance demo_base64 : HttpEnv :=
  Build_HttpEnv (fun _ _ => Err OtherError) (fun _ _ => Err OtherError) (fun b => b) Some.

Definition demo_ops : list CredOp :=
  [OpMint $"call-1" $"t1"; OpMint $"call-2" $"t2"; OpMint $"call-1" $"t3";
   OpRevoke $"call-2"].

(** A token that was replaced, and the one that replaced it. *)
Lemma credential_lifecycle_witness :
  let r := (run_ops apply_op demo_ops (mkRegistry $"session" [])).2 in
  authenticate r (proxy_authorization (mkCredential $"call-1" $"t1")) = Err Authentication
  ∧ authenticate r (proxy_authorization (mkCredential $"call-1" $"t3")) = Ok (Some $"call-1").
Proof.
  assert (NoDup ($"session" :: minted demo_ops)) as Hd by (apply (bool_decide_unpack _); by vm_compute).
  assert (∀ t, t = $"t1" ∨ t = $"t3" → sendable t) as Hs.
  { intros t [->| ->]; repeat split; done. }
  pose proof (credential_lifecycle $"session" demo_ops (mkCredential $"call-1" $"t1") Hd (Hs _ (or_introl eq_refl))) as H1.
  pose proof (credential_lifecycle $"session" demo_ops (mkCredential $"call-1" $"t3") Hd (Hs _ (or_intror eq_refl))) as H3.
  assert ((run_ops spec_op demo_ops (∅ : Live)).2
          = delete $"call-2" (<[$"call-1" := $"t3"]> (<[$"call-2" := $"t2"]> (<[$"call-1" := $"t1"]> ∅)))) as El by done.
  destruct (run_ops apply_op demo_ops _) as [answers r], (run_ops spec_op demo_ops _) as [answers' live].
  simpl in El. subst live. split.
  - apply H1; [done|]. intros t [_ E]%lookup_delete_Some.
    apply lookup_insert_Some in E as [[_ E]|[Hne [[_ E]|[_ [[Ht _]|[_ E]]%lookup_insert_Some]]%lookup_insert_Some]];
      [discriminate E|discriminate E|by subst t|by rewrite lookup_empty in E].
  - apply H3; [done|]. by rewrite lookup_delete_ne, lookup_insert_eq.
Defined.
