(* ===== verification/EgressProxy.v ===== *)
(** * The egress proxy

    [codegen/xai-grok-egress-proxy/src]: one connection, from its first byte to the
    relay of the tunnel or of the response ([server.rs], [connect.rs], [http.rs],
    [lib.rs]), the decision whether it may go out and the budget of parked requests
    ([decider.rs]).

    A connection is a program of effects: what it reads and writes, the questions
    it asks the decider, resolver and connector, and the shared budget it takes
    from.  Each effect stands for one awaited operation; what the operation
    returns is the environment's choice, a time limit that passes included.  A
    timeout around several operations can pass in each of them. *)

From S2P Require Import Prelude RustStr StrFind IpAddr UrlMatch WebOrigin PublicIp ProxyRequest ClientHello.

#[local] Open Scope nat_scope.

(** ** Decisions: [decider.rs] *)

Inductive DenySource := DenyRow | WebFetchDenylist.
Inductive WouldBe := WouldAllowed | WouldDenied (s : DenySource) | WouldAsked.
Inductive Decision := DAllow | DAllowAndRecord (would : WouldBe) | DDeny | DAsk.
Inductive DeciderOutcome := OAllowed | ODenied | OTimeout | OObserved (would : WouldBe) | OAbandoned.

Definition MAX_HELD_CLIENT_BYTES : N := 64 * 1024.

Record BlockedRequest := mkBlocked {
  host : bytes;
  blocked_port : N;
  call : option CommandTag;
  decided : DeciderOutcome;
  hold_ms : N;
  deadline_unix : option Z;
}.

Record EgressProxyOptions := mkOptions {
  max_connections : nat;
  max_header_bytes : nat;
  max_headers : nat;
  max_tls_client_hello_bytes : nat;
  hold_timeout_secs : N;
  max_held : nat;
  max_held_per_call : nat;
}.

(** The bounds of [EgressProxyOptions::default]. *)
Definition default_options : EgressProxyOptions := mkOptions 64 (32 * 1024) 64 (64 * 1024) 600 16 8.

(** The check [start_with] makes before it binds. *)
Definition valid_options (o : EgressProxyOptions) : bool :=
  negb ((max_connections o =? 0) || (max_headers o =? 0) || (max_header_bytes o <? 4)
        || (max_tls_client_hello_bytes o <? 5) || (max_held o =? 0) || (max_held_per_call o =? 0)).

(** The per-credential half of the hold budget. *)
Record HoldBudget := mkBudget { per_call : nat; held : gmap (option CommandTag) nat }.

(** The budget [start_with] builds. *)
Definition new_budget (o : EgressProxyOptions) : HoldBudget := mkBudget (Nat.min (max_held_per_call o) (max_held o)) ∅.

Definition try_take (c : option CommandTag) (b : HoldBudget) : bool * HoldBudget :=
  let count := default 0 (held b !! c) in
  if per_call b <=? count then (false, mkBudget (per_call b) (<[c := count]> (held b)))
  else (true, mkBudget (per_call b) (<[c := S count]> (held b))).

(** [drop] of a permit. *)
Definition give_back (c : option CommandTag) (b : HoldBudget) : HoldBudget :=
  match held b !! c with
  | Some count =>
      let count := count - 1 in
      mkBudget (per_call b) (if count =? 0 then delete c (held b) else <[c := count]> (held b))
  | None => b
  end.

(** ** Effects *)

Definition SocketAddr : Type := IpAddr * N.

Inductive Read := Bytes (b : bytes) | ReadError | ReadElapsed.
Inductive Write := Written | WriteError | WriteElapsed.
Inductive Timed (A : Type) := Done (a : A) | Elapsed.
Arguments Done {A} a.
Arguments Elapsed {A}.
Inductive Copied := CopyDone | CopyUnexpectedEof | CopyFailed.

(** What ends the wait of a held request, or the next chunk from its client. *)
Inductive Held := Answered (allow : bool) | Stopping | Deadline | FromClient (b : bytes) | ClientFailed.

Inductive Effect :=
| ReadClient (limit : nat)
| ReadUpstream (limit : nat)
| WriteClient (b : bytes)
| WriteUpstream (b : bytes)
| CopyBidirectional
| LiveCalls
| AdmitsUnauthenticated
| Decide (o : WebsiteOrigin) (c : option CommandTag)
| TakeShare (c : option CommandTag)
| ReleaseShare (c : option CommandTag)
| TakePermit
| ReleasePermit
| Park (o : WebsiteOrigin) (c : option CommandTag)
| AwaitHeld
| NowUnix
| HeldMillis
| Resolve (name : bytes) (p : N)
| ConnectTo (addresses : list SocketAddr)
| Publish (r : BlockedRequest)
| RecordOutcome (o : ProxyOutcome).

Definition answer (e : Effect) : Type :=
  match e with
  | ReadClient _ | ReadUpstream _ => Read
  | WriteClient _ | WriteUpstream _ => Write
  | CopyBidirectional => Copied
  | LiveCalls => CredentialRegistry
  | AdmitsUnauthenticated => bool
  | Decide _ _ => Timed Decision
  | TakeShare _ | TakePermit => bool
  | ReleaseShare _ | ReleasePermit => unit
  | Park _ _ => Timed unit
  | AwaitHeld => Held
  | NowUnix => Z
  | HeldMillis => N
  | Resolve _ _ => Timed (option (list SocketAddr))
  | ConnectTo _ => Timed bool
  | Publish _ | RecordOutcome _ => unit
  end.

Inductive proc (A : Type) :=
| Ret (a : A)
| Do (e : Effect) (k : answer e → proc A).
Arguments Ret {A} a.
Arguments Do {A} e k.

Fixpoint bind {A B} (p : proc A) (f : A → proc B) : proc B :=
  match p with
  | Ret a => f a
  | Do e k => Do e (fun x => bind (k x) f)
  end.

#[export] Instance proc_ret : MRet proc := fun A a => Ret a.
#[export] Instance proc_bind : MBind proc := fun A B f p => bind p f.

Definition perform (e : Effect) : proc (answer e) := Do e Ret.

(** Results that stop at the first error, as [?] does. *)
Definition try {A B E} (p : proc (result A E)) (f : A → proc (result B E)) : proc (result B E) :=
  r ← p; match r with Ok a => f a | Err e => Ret (Err e) end.

Notation "'let?' x := p 'in' k" := (try p (fun x => k)) (at level 200, x pattern, right associativity).

(** [map_err] *)
Definition map_err {A E F} (f : E → F) (p : proc (result A E)) : proc (result A F) :=
  r ← p; Ret (match r with Ok a => Ok a | Err e => Err (f e) end).

Definition ok_or {A E} (e : E) (o : option A) : result A E := match o with Some a => Ok a | None => Err e end.

(** ** Reading a head: [read_head] *)

Section ReadHead.
Context (read : nat → proc Read) (max : nat).

Definition head_end : bytes := crlf ++ crlf.

(** Every read that returns brings a byte or more, so [max] reads are enough. *)
Fixpoint read_head_go (fuel : nat) (got : bytes) : proc (result (bytes * bytes) ProxyError) :=
  match find_str head_end got with
  | Some i =>
      let stop := i + 4 in
      Ret (if max <? stop then Err TooLarge else Ok (take stop got, drop stop got))
  | None =>
      if max <=? length got then Ret (Err TooLarge)
      else
        match fuel with
        | 0 => Ret (Err TooLarge)
        | S fuel =>
            r ← read (Nat.min (max - length got) 4096);
            match r with
            | ReadElapsed => Ret (Err Timeout)
            | ReadError => Ret (Err DownstreamIo)
            | Bytes [] => Ret (Err Malformed)
            | Bytes b => read_head_go fuel (got ++ b)
            end
        end
  end.

Definition read_head : proc (result (bytes * bytes) ProxyError) := read_head_go max [].

End ReadHead.

Definition read_client (limit : nat) : proc Read := perform (ReadClient limit).
Definition read_upstream (limit : nat) : proc Read := perform (ReadUpstream limit).

(** [write_committed] *)
Definition write_committed (b : bytes) : proc (result unit ConnectionError) :=
  w ← perform (WriteClient b); Ret (match w with Written => Ok tt | _ => Err (Committed DownstreamIo) end).

Section Proxy.
Context `{UrlEnv} `{HttpEnv}.
Context (options : EgressProxyOptions) (policy : WebsitePolicy).

(** ** Admission: [decider.rs] *)

Definition publish (o : WebsiteOrigin) (c : option CommandTag) (d : DeciderOutcome) (ms : N) (deadline : option Z)
  : proc unit := perform (Publish (mkBlocked (hostname o) (port o) c d ms deadline)).

(** [hold], once the decider parked the request.  The chunks it buffers are bounded,
    so this many waits are enough. *)
Fixpoint hold_go (fuel : nat) (buffered : bytes) : proc (result DeciderOutcome ProxyError * bytes) :=
  match fuel with
  | 0 => Ret (Err TooLarge, buffered)
  | S fuel =>
      h ← perform AwaitHeld;
      match h with
      | Answered allow => Ret (Ok (if allow then OAllowed else ODenied), buffered)
      | Stopping => Ret (Ok ODenied, buffered)
      | Deadline => Ret (Ok OTimeout, buffered)
      | FromClient [] | ClientFailed => Ret (Ok OAbandoned, buffered)
      | FromClient b =>
          if (MAX_HELD_CLIENT_BYTES <? N.of_nat (length buffered + length b))%N then Ret (Err TooLarge, buffered)
          else hold_go fuel (buffered ++ b)
      end
  end.

Definition hold (buffered : bytes) : proc (result DeciderOutcome ProxyError * bytes) :=
  hold_go (S (N.to_nat MAX_HELD_CLIENT_BYTES)) buffered.

Definition i64_saturating_add (a b : Z) : Z := Z.max (- 2 ^ 63) (Z.min (2 ^ 63 - 1) (a + b)).

(** [i64::try_from(secs).unwrap_or(i64::MAX)] *)
Definition i64_of_secs (n : N) : Z := Z.min (2 ^ 63 - 1) (Z.of_N n).

(** What becomes of a held request. *)
Definition hold_result (held : result DeciderOutcome ProxyError) : DeciderOutcome * result unit ProxyError :=
  match held with
  | Ok OAllowed => (OAllowed, Ok tt)
  | Ok ODenied => (ODenied, Err PolicyDenied)
  | Ok OTimeout => (OTimeout, Err HoldTimeout)
  | Ok OAbandoned => (OAbandoned, Err ClientGone)
  | Ok (OObserved _) => (ODenied, Err PolicyDenied)
  | Err e => (ODenied, Err e)
  end.

(** The [Ask] branch past the per-call share: the proxy-wide permit, the park, the
    wait and the record.  The permit goes back when it ends. *)
Definition park_and_hold (o : WebsiteOrigin) (c : option CommandTag) (buffered : bytes)
  : proc (result unit ProxyError * bytes) :=
  permit ← perform TakePermit;
  if negb permit then Ret (Err Overloaded, buffered)
  else
    now ← perform NowUnix;
    let deadline := i64_saturating_add now (i64_of_secs (hold_timeout_secs options)) in
    parked ← perform (Park o c);
    '(held, buffered) ← match parked with
                        | Done _ => hold buffered
                        | Elapsed => Ret (Ok OTimeout, buffered)
                        end;
    ms ← perform HeldMillis;
    let '(outcome, res) := hold_result held in
    publish o c outcome ms (Some deadline);;
    perform ReleasePermit;;
    Ret (res, buffered).

(** [admit], with the bytes the client sent while it was held. *)
Definition admit_origin (o : WebsiteOrigin) (c : option CommandTag) (buffered : bytes)
  : proc (result unit ProxyError * bytes) :=
  if negb (bool_decide (evaluate policy o = Allow)) then Ret (Err PolicyDenied, buffered)
  else
    decision ← perform (Decide o c);
    match decision with
    | Elapsed => Ret (Err Timeout, buffered)
    | Done DAllow => Ret (Ok tt, buffered)
    | Done (DAllowAndRecord would) => publish o c (OObserved would) 0 None;; Ret (Ok tt, buffered)
    | Done DDeny => publish o c ODenied 0 None;; Ret (Err PolicyDenied, buffered)
    | Done DAsk =>
        share ← perform (TakeShare c);
        if negb share then Ret (Err Overloaded, buffered)
        else
          res ← park_and_hold o c buffered;
          perform (ReleaseShare c);;
          Ret res
    end.

(** [admit] as its callers use it, the error in their terms. *)
Definition admitted (o : WebsiteOrigin) (c : option CommandTag) (buffered : bytes)
  : proc (result bytes ConnectionError) :=
  '(r, buffered) ← admit_origin o c buffered;
  Ret (match r with Ok _ => Ok buffered | Err e => Err (from_admit e) end).

(** ** Upstream: [lib.rs] *)

Definition resolve_public (o : WebsiteOrigin) : proc (result (list SocketAddr) ProxyError) :=
  r ← perform (Resolve (hostname o) (port o));
  Ret (match r with
       | Elapsed => Err Timeout
       | Done None => Err Dns
       | Done (Some addresses) =>
           match addresses with
           | [] => Err Dns
           | _ => if existsb (fun a => negb (is_public_ip a.1)) addresses then Err AddressDenied else Ok addresses
           end
       end).

Definition connect_upstream (addresses : list SocketAddr) : proc (result unit ProxyError) :=
  r ← perform (ConnectTo addresses);
  Ret (match r with Elapsed => Err Timeout | Done true => Ok tt | Done false => Err Connect end).

Definition resolve_and_connect (o : WebsiteOrigin) : proc (result unit ProxyError) :=
  let? addresses := resolve_public o in connect_upstream addresses.

(** ** Tunnels: [connect.rs], [tls.rs] *)

(** [read_client_hello]; as for a head, [max] reads are enough. *)
Fixpoint read_client_hello (fuel : nat) (prefix : bytes) (o : WebsiteOrigin) : proc (result bytes ProxyError) :=
  let max := max_tls_client_hello_bytes options in
  match inspect_records prefix o with
  | Err e => Ret (Err e)
  | Ok true => Ret (Ok prefix)
  | Ok false =>
      if max <=? length prefix then Ret (Err TooLarge)
      else
        match fuel with
        | 0 => Ret (Err TooLarge)
        | S fuel =>
            r ← read_client (Nat.min (max - length prefix) 4096);
            match r with
            | ReadElapsed => Ret (Err Timeout)
            | ReadError => Ret (Err DownstreamIo)
            | Bytes [] => Ret (Err TlsClientHello)
            | Bytes b => read_client_hello fuel (prefix ++ b) o
            end
        end
  end.

Definition connect_established : bytes := $"HTTP/1.1 200 Connection Established" ++ crlf ++ crlf.

Definition precommit {A} (r : result A ProxyError) : result A ConnectionError :=
  match r with Ok a => Ok a | Err e => Err (Precommit e) end.

(** The origin a CONNECT request names, if it is one the proxy relays. *)
Definition connect_origin (request : ParsedRequest) : option WebsiteOrigin :=
  length ← framing (req_headers request);
  match length with
  | Some _ => None
  | None =>
      authority ← strict_connect_authority (target request);
      host ← single_header (req_headers request) $"host";
      match host with
      | Some h => a ← strict_connect_authority h; if a =b authority then Some tt else None
      | None => Some tt
      end ≫= fun _ =>
      match parse_origin ($"https://" ++ authority) with Ok o => Some o | Err _ => None end
  end.

(** [connect::handle] *)
Definition handle_connect (request : ParsedRequest) (buffered : bytes) (c : option CommandTag)
  : proc (result unit ConnectionError) :=
  let? o := Ret (ok_or (Precommit Malformed) (connect_origin request)) in
  let? buffered := admitted o c buffered in
  let? addresses := map_err Precommit (resolve_public o) in
  let? _ := map_err Precommit (connect_upstream addresses) in
  let? _ := write_committed connect_established in
  let? prefix := map_err Committed (read_client_hello (max_tls_client_hello_bytes options) buffered o) in
  let? _ := (w ← perform (WriteUpstream prefix);
             Ret (match w with Written => Ok tt | _ => Err (Committed Connect) end)) in
  copied ← perform CopyBidirectional;
  match copied with
  | CopyDone | CopyUnexpectedEof => perform (RecordOutcome OutOk);; Ret (Ok tt)
  | CopyFailed => Ret (Err (Committed Connect))
  end.

(** ** Plain requests: [http.rs] *)

(** The loop of [copy_exact]: every read that returns brings a byte or more, so as
    many reads as bytes remain are enough. *)
Fixpoint copy_exact (fuel : nat) (remaining : N) : proc (result unit ConnectionError) :=
  if (remaining =? 0)%N then Ret (Ok tt)
  else
    match fuel with
    | 0 => Ret (Err (Committed Connect))
    | S fuel =>
        r ← read_upstream (N.to_nat (N.min remaining 16384));
        match r with
        | ReadElapsed => Ret (Err (Committed Timeout))
        | ReadError | Bytes [] => Ret (Err (Committed Connect))
        | Bytes b =>
            w ← perform (WriteClient b);
            match w with
            | WriteElapsed => Ret (Err (Committed Timeout))
            | WriteError => Ret (Err (Committed DownstreamIo))
            | Written => copy_exact fuel (remaining - N.of_nat (length b))
            end
        end
    end.

(** An upstream read error is [Connect], a time limit is [Timeout]. *)
Definition upstream_head_error (e : ProxyError) : ProxyError :=
  if bool_decide (e = Timeout) then Timeout else Connect.

Definition finish_ok : proc (result unit ConnectionError) := perform (RecordOutcome OutOk);; Ret (Ok tt).

Definition forward_response (request_method : bytes) : proc (result unit ConnectionError) :=
  let? (head, buffered) :=
    map_err (fun e => Precommit (upstream_head_error e)) (read_head read_upstream (max_header_bytes options)) in
  let? response := Ret (precommit (parse_response head (max_headers options))) in
  let? body := Ret (ok_or (Precommit Connect) (body_mode response request_method (negb (buffered =b [])))) in
  let? headers := Ret (ok_or (Precommit Connect) (response_headers (resp_headers response) body)) in
  let? _ := write_committed (outbound_response response headers) in
  match body with
  | NoBody _ | Reset false => finish_ok
  | Reset true => Ret (Err (Committed Connect))
  | Length n =>
      let got := N.of_nat (length buffered) in
      if (n <? got)%N then Ret (Err (Committed Malformed))
      else
        let? _ := write_committed buffered in
        let? _ := copy_exact (N.to_nat (n - got)) (n - got) in
        finish_ok
  end.

(** The authority, path and origin of a plain request the proxy relays: bodiless,
    with one [Host] that is the target's, and nothing sent ahead. *)
Definition http_request (request : ParsedRequest) (buffered : bytes)
  : result (bytes * bytes * WebsiteOrigin * option N) ProxyError :=
  match parse_http_target (target request) with
  | None => Err Malformed
  | Some (authority, path) =>
      match parse_origin ($"http://" ++ authority) with
      | Err _ => Err Malformed
      | Ok o =>
          match single_header (req_headers request) $"host" with
          | Some (Some h) =>
              match normalize_authority h $"http" with
              | None => Err Malformed
              | Some a =>
                  if negb (a =b authority) then Err Malformed
                  else
                    match framing (req_headers request) with
                    | None => Err Malformed
                    | Some len =>
                        if (0 <? default 0 len)%N then Err BodyUnsupported
                        else if negb (buffered =b []) then Err Malformed
                        else Ok (authority, path, o, len)
                    end
              end
          | _ => Err Malformed
          end
      end
  end.

(** [http::handle] *)
Definition handle_http (request : ParsedRequest) (buffered : bytes) (c : option CommandTag)
  : proc (result unit ConnectionError) :=
  let? (authority, path, o, len) := Ret (precommit (http_request request buffered)) in
  let? buffered := admitted o c buffered in
  if negb (buffered =b []) then Ret (Err (Precommit Malformed))
  else
    let? _ := map_err Precommit (resolve_and_connect o) in
    let? headers := Ret (ok_or (Precommit Malformed) (sanitized_headers (req_headers request) authority len)) in
    let? outbound := Ret (ok_or (Precommit TooLarge)
                            (outbound_request (method request) path headers (max_header_bytes options))) in
    let? _ := (w ← perform (WriteUpstream outbound);
               Ret (match w with Written => Ok tt | _ => Err (Precommit Connect) end)) in
    forward_response (method request).

(** ** Connections: [server.rs] *)

Definition authenticate_header (header : option bytes) : proc (result (option CommandTag) ProxyError) :=
  match header with
  | None => Ret (Err Authentication)
  | Some h => registry ← perform LiveCalls; Ret (authenticate registry h)
  end.

Definition authenticate_request (request : ParsedRequest) : proc (result (option CommandTag) ProxyError) :=
  match single_header (req_headers request) $"proxy-authorization" with
  | None => Ret (Err Malformed)
  | Some header =>
      authenticated ← authenticate_header header;
      match authenticated with
      | Err Authentication =>
          admits ← perform AdmitsUnauthenticated;
          Ret (if (admits : bool) then Ok None else Err Authentication)
      | _ => Ret authenticated
      end
  end.

Definition handle_connection : proc (result unit ConnectionError) :=
  let? (head, buffered) := map_err Precommit (read_head read_client (max_header_bytes options)) in
  let? request := Ret (precommit (parse_request head (max_headers options))) in
  let? c := map_err Precommit (authenticate_request request) in
  if eq_ignore_ascii_case (method request) $"CONNECT" then handle_connect request buffered c
  else if eq_ignore_ascii_case (method request) $"TRACE" then Ret (Err (Precommit Malformed))
  else handle_http request buffered c.

(** [serve_connection] *)
Definition serve_connection : proc unit :=
  r ← handle_connection;
  match r with
  | Ok _ => Ret tt
  | Err (Precommit e) => perform (RecordOutcome (outcome e));; perform (WriteClient (error_response e));; Ret tt
  | Err (Committed e) => perform (RecordOutcome (outcome e));; Ret tt
  end.

End Proxy.
