(* ===== verification/EgressLaws.v ===== *)
(** * What the egress proxy guarantees

    Over every run of a connection, whatever the network, the client, the decider
    and the clock do: nothing goes out that was not let through, only to public
    addresses, and only once the client named its host in the open; every
    connection is counted once and answered at most once; and over every
    interleaving of connections the budget of parked requests is exact. *)

From S2P Require Import Prelude RustStr StrFind IpAddr UrlMatch WebOrigin PublicIp ProxyRequest ClientHello EgressProxy.

#[local] Open Scope nat_scope.

(** ** Runs of a program *)

(** An effect with what it returned. *)
Abbreviation obs := (sigT answer).
Abbreviation saw e x := (existT (P := answer) e x).

(** The trace of a run, complete or cut short. *)
Fixpoint runs {A} (p : proc A) (t : list obs) : Prop :=
  match p with
  | Ret _ => t = []
  | Do e k => t = [] ∨ ∃ x t', t = saw e x :: t' ∧ runs (k x) t'
  end.

Fixpoint finishes {A} (p : proc A) (t : list obs) (a : A) : Prop :=
  match p with
  | Ret b => t = [] ∧ a = b
  | Do e k => ∃ x t', t = saw e x :: t' ∧ finishes (k x) t' a
  end.

(** After the history [h] the program performs only effects allowed at their time,
    and when it ends, [Q] holds of the history and the result. *)
Section Safe.
Context (allowed : list obs → Effect → Prop).

Fixpoint safe {A} (p : proc A) (h : list obs) (Q : list obs → A → Prop) : Prop :=
  match p with
  | Ret a => Q h a
  | Do e k => allowed h e ∧ ∀ x, safe (k x) (h ++ [saw e x]) Q
  end.

Lemma safe_mono {A} (p : proc A) (h : list obs) (Q Q' : list obs → A → Prop) :
  safe p h Q → (∀ h' a, Q h' a → Q' h' a) → safe p h Q'.
Proof. intros Hs Hq. revert h Hs. induction p as [a|e k IH]; simpl; [auto|]. intros h [Ha Hk]. split; auto. Qed.

Lemma safe_bind {A B} (p : proc A) (f : A → proc B) (h : list obs) (Q : list obs → B → Prop) :
  safe p h (fun h' a => safe (f a) h' Q) → safe (bind p f) h Q.
Proof. revert h. induction p as [a|e k IH]; simpl; [done|]. intros h [Ha Hk]. split; auto. Qed.

Lemma safe_try {A B E} (p : proc (result A E)) (f : A → proc (result B E)) h (Q : list obs → result B E → Prop) :
  safe p h (fun h' r => match r with Ok a => safe (f a) h' Q | Err e => Q h' (Err e) end) → safe (try p f) h Q.
Proof. intros Hs. apply safe_bind. eapply safe_mono; [exact Hs|]. by intros h' [a|e]. Qed.

Lemma safe_map_err {A E F} (g : E → F) (p : proc (result A E)) h (Q : list obs → result A F → Prop) :
  safe p h (fun h' r => Q h' (match r with Ok a => Ok a | Err e => Err (g e) end)) → safe (map_err g p) h Q.
Proof. intros Hs. by apply safe_bind. Qed.

Lemma safe_runs {A} (p : proc A) (h t : list obs) (Q : list obs → A → Prop) :
  safe p h Q → runs p t → ∀ i e x, t !! i = Some (saw e x) → allowed (h ++ take i t) e.
Proof.
  revert h t. induction p as [a|e k IH]; intros h t Hs Hr i e' x' Hi; [by simpl in Hr; subst|].
  simpl in *. destruct Hs as [Ha Hk]. destruct Hr as [->|(x & t' & -> & Hr)]; [done|].
  destruct i as [|i]; simpl in *; [by injection Hi as <- _; rewrite app_nil_r|].
  rewrite cons_middle, app_assoc. by eapply IH.
Qed.

Lemma safe_finishes {A} (p : proc A) (h t : list obs) (a : A) (Q : list obs → A → Prop) :
  safe p h Q → finishes p t a → Q (h ++ t) a.
Proof.
  revert h t. induction p as [b|e k IH]; intros h t Hs; simpl in *.
  - intros [-> ->]. by rewrite app_nil_r.
  - intros (x & t' & -> & Hf). destruct Hs as [_ Hk]. rewrite cons_middle, app_assoc. by eapply IH.
Qed.

(** Only effects in [S], and only results in [R]. *)
Fixpoint only {A} (S : Effect → Prop) (R : A → Prop) (p : proc A) : Prop :=
  match p with Ret a => R a | Do e k => S e ∧ ∀ x, only S R (k x) end.

Definition traced (S : Effect → Prop) (t : list obs) : Prop := Forall (fun o => S (projT1 o)) t.

Lemma safe_only {A} (S : Effect → Prop) (R : A → Prop) (p : proc A) (h : list obs) :
  (∀ h' e, S e → allowed h' e) → only S R p → safe p h (fun h' a => ∃ t, h' = h ++ t ∧ traced S t ∧ R a).
Proof.
  intros Hs. revert h. induction p as [a|e k IH]; simpl; intros h Hp.
  - exists []. split_and!; [by rewrite app_nil_r|constructor|done].
  - destruct Hp as [He Hk]. split; [auto|]. intros x. eapply safe_mono; [by apply IH|].
    intros h' a (t & -> & Ht & Hr). exists (saw e x :: t). split_and!; [by rewrite <-app_assoc|by constructor|done].
Qed.

End Safe.

Lemma only_bind {A B} (S : Effect → Prop) (R : A → Prop) (R' : B → Prop) (p : proc A) (f : A → proc B) :
  only S R p → (∀ a, R a → only S R' (f a)) → only S R' (bind p f).
Proof. induction p as [a|e k IH]; simpl; [auto|]. intros [He Hk] Hf. split; auto. Qed.

Lemma only_mono {A} (S S' : Effect → Prop) (R R' : A → Prop) (p : proc A) :
  only S R p → (∀ e, S e → S' e) → (∀ a, R a → R' a) → only S' R' p.
Proof. intros Hp Hs Hr. induction p as [a|e k IH]; simpl in *; [auto|]. destruct Hp. split; auto. Qed.

(** ** The parts of a connection *)

Section Parts.
Context `{UrlEnv} `{HttpEnv}.
Context (options : EgressProxyOptions) (policy : WebsitePolicy).

Definition reads_client (e : Effect) : Prop := ∃ n, e = ReadClient n.
Definition reads_upstream (e : Effect) : Prop := ∃ n, e = ReadUpstream n.

Lemma read_head_only (S : Effect → Prop) (read : nat → proc Read) (max : nat) :
  (∀ n, only S (fun _ => True) (read n)) → only S (fun _ => True) (read_head read max).
Proof.
  intros Hread. unfold read_head. generalize (@nil ascii) as got. generalize max at 2 as fuel.
  induction fuel as [|fuel IH]; intros got; simpl; destruct (find_str head_end got); try done;
    destruct (max <=? length got); try done.
  eapply only_bind; [apply Hread|]. by intros [[|x b]| |] _.
Qed.

Lemma read_client_hello_only (fuel : nat) (prefix : bytes) (o : WebsiteOrigin) :
  only reads_client (fun r => ∀ b, r = Ok b → inspect_records b o = Ok true) (read_client_hello options fuel prefix o).
Proof.
  revert prefix. induction fuel as [|fuel IH]; intros prefix; simpl;
    destruct (inspect_records prefix o) as [[]|] eqn:E; try (intros b [=]; by subst);
    destruct (max_tls_client_hello_bytes options <=? length prefix); try (by intros).
  split; [by eexists|]. intros [[|x b]| |]; simpl; try (by intros).
Qed.

(** ** What an effect needs to have been preceded by *)

(** The caller presented a live credential, or none is needed. *)
Definition identified (h : list obs) (c : option CommandTag) : Prop :=
  (∃ registry header, saw LiveCalls registry ∈ h ∧ authenticate registry header = Ok c)
  ∨ (c = None ∧ saw AdmitsUnauthenticated true ∈ h).

(** The policy allows the origin, and the decider or the answer it waited for does. *)
Definition let_through (h : list obs) (o : WebsiteOrigin) (c : option CommandTag) : Prop :=
  identified h c ∧ evaluate policy o = Allow
  ∧ (saw (Decide o c) (Done DAllow) ∈ h ∨ (∃ would, saw (Decide o c) (Done (DAllowAndRecord would)) ∈ h)
     ∨ (saw (Decide o c) (Done DAsk) ∈ h ∧ saw (Park o c) (Done tt) ∈ h ∧ saw AwaitHeld (Answered true) ∈ h)).

(** Addresses the origin's name resolved to, all of them public. *)
Definition resolved (h : list obs) (o : WebsiteOrigin) (addresses : list SocketAddr) : Prop :=
  saw (Resolve (hostname o) (port o)) (Done (Some addresses)) ∈ h ∧ addresses ≠ []
  ∧ Forall (fun a => is_public_ip a.1 = true) addresses.

(** A head made of the relayed headers of some request, for the origin it names. *)
Definition relayed_head (b : bytes) (o : WebsiteOrigin) : Prop :=
  ∃ m path headers authority len out max,
    sanitized_headers headers authority len = Some out ∧ outbound_request m path out max = Some b
    ∧ parse_origin ($"http://" ++ authority) = Ok o.

Definition guarded (h : list obs) (e : Effect) : Prop :=
  match e with
  | Decide o c => identified h c ∧ evaluate policy o = Allow
  | Resolve name p => ∃ o c, let_through h o c ∧ name = hostname o ∧ p = port o
  | ConnectTo addresses => ∃ o c, let_through h o c ∧ resolved h o addresses
  | WriteUpstream b =>
      ∃ o c addresses, let_through h o c ∧ resolved h o addresses ∧ saw (ConnectTo addresses) (Done true) ∈ h
        ∧ (inspect_records b o = Ok true ∨ relayed_head b o)
  | CopyBidirectional =>
      ∃ o c b, let_through h o c ∧ inspect_records b o = Ok true ∧ saw (WriteUpstream b) Written ∈ h
  | _ => True
  end.

Lemma identified_mono (h t : list obs) (c : option CommandTag) : identified h c → identified (h ++ t) c.
Proof. unfold identified. setoid_rewrite elem_of_app. naive_solver. Qed.

Lemma let_through_mono (h t : list obs) (o : WebsiteOrigin) (c : option CommandTag) :
  let_through h o c → let_through (h ++ t) o c.
Proof. intros (Hi & He & Hd). split; [by apply identified_mono|]. setoid_rewrite elem_of_app. naive_solver. Qed.

Lemma resolved_mono (h t : list obs) (o : WebsiteOrigin) (addresses : list SocketAddr) :
  resolved h o addresses → resolved (h ++ t) o addresses.
Proof. unfold resolved. setoid_rewrite elem_of_app. naive_solver. Qed.

Lemma just_seen (h : list obs) e x : saw e x ∈ h ++ [saw e x].
Proof. apply elem_of_app. right. by left. Qed.

Lemma seen_before (h t : list obs) (x : obs) : x ∈ h → x ∈ h ++ t.
Proof. intros Hx. apply elem_of_app. by left. Qed.

(** ** Admission *)

(** Unfold the program to its next effect. *)
#[local] Ltac steps := cbn [mbind proc_bind bind safe perform publish negb fst snd].

Lemma hold_safe (fuel : nat) (buffered : bytes) (h : list obs) :
  safe guarded (hold_go fuel buffered) h
    (fun h' r => ∃ t, h' = h ++ t ∧ (r.1 = Ok OAllowed → saw AwaitHeld (Answered true) ∈ h')).
Proof.
  revert buffered h. induction fuel as [|fuel IH]; intros buffered h; simpl; [by exists []; rewrite app_nil_r|].
  split; [done|]. intros [[]| | |[|x b]|]; simpl;
    try (exists [saw AwaitHeld (Answered true)]; split; [done|]; intros _; apply just_seen);
    try (by eexists).
  destruct (_ <? _)%N; [by eexists|]. eapply safe_mono; [apply IH|].
  intros h' r (t & -> & Hr). eexists. split; [rewrite <-!app_assoc; reflexivity|done].
Qed.

Lemma hold_result_ok (r : result DeciderOutcome ProxyError) : (hold_result r).2 = Ok tt → r = Ok OAllowed.
Proof. by destruct r as [[]|]. Qed.

Lemma park_and_hold_safe (o : WebsiteOrigin) (c : option CommandTag) (buffered : bytes) (h : list obs) :
  safe guarded (park_and_hold options o c buffered) h
    (fun h' r => ∃ t, h' = h ++ t
       ∧ (r.1 = Ok tt → saw (Park o c) (Done tt) ∈ h' ∧ saw AwaitHeld (Answered true) ∈ h')).
Proof.
  unfold park_and_hold. steps. split; [done|]. intros []; steps; [|by eexists].
  split; [done|]. intros now. split; [done|]. intros parked. apply safe_bind.
  set (h1 := ((h ++ _) ++ _) ++ [saw (Park o c) parked]).
  assert (h1 = h ++ [saw TakePermit true; saw NowUnix now; saw (Park o c) parked]) as E1
    by (unfold h1; by rewrite <-!app_assoc).
  eapply (safe_mono _ _ _ (fun h' r => ∃ t, h' = h1 ++ t ∧ (r.1 = Ok OAllowed →
    saw (Park o c) (Done tt) ∈ h' ∧ saw AwaitHeld (Answered true) ∈ h'))).
  { destruct parked as [[]|].
    - eapply safe_mono; [apply hold_safe|]. intros h' r (t & -> & Hr). exists t. split; [done|].
      intros Ho. split; [|by apply Hr]. apply seen_before. unfold h1. apply just_seen.
    - exists []. split; [by rewrite app_nil_r|done]. }
  intros h' [held b] (t & -> & Ht). simpl in *. split; [done|]. intros ms.
  destruct (hold_result held) as [outcome res] eqn:Er. steps. split; [done|]. intros []. split; [done|]. intros [].
  eexists. split; [rewrite E1, <-!app_assoc; reflexivity|]. steps. intros ->.
  destruct Ht as [Hp Ha]; [apply hold_result_ok; by rewrite Er|]. split; by repeat first [assumption | apply seen_before].
Qed.

Lemma admit_origin_safe (o : WebsiteOrigin) (c : option CommandTag) (buffered : bytes) (h : list obs) :
  identified h c →
  safe guarded (admit_origin options policy o c buffered) h
    (fun h' r => ∃ t, h' = h ++ t ∧ (r.1 = Ok tt → let_through h' o c)).
Proof.
  intros Hi. unfold admit_origin. destruct (bool_decide _) eqn:Ep; [|by exists []; rewrite app_nil_r].
  apply bool_decide_eq_true in Ep. steps. split; [done|]. intros [[|would| |]|]; steps.
  - eexists. split; [done|]. intros _. split_and!; [by apply identified_mono|done|]. left. apply just_seen.
  - split; [done|]. intros []. eexists. split; [rewrite <-!app_assoc; reflexivity|]. intros _.
    split_and!; [by do 2 apply identified_mono|done|]. right. left. exists would. apply seen_before, just_seen.
  - split; [done|]. intros []. eexists. split; [rewrite <-!app_assoc; reflexivity|done].
  - split; [done|]. intros []; steps; [|eexists; split; [rewrite <-!app_assoc; reflexivity|done]].
    apply safe_bind. eapply safe_mono; [apply park_and_hold_safe|]. intros h' r (t & -> & Hr). steps.
    split; [done|]. intros []. eexists. split; [rewrite <-!app_assoc; reflexivity|]. intros [Hp Ha]%Hr.
    split_and!; [by do 4 apply identified_mono|done|]. right. right.
    split_and!; [by do 3 apply seen_before; apply just_seen| |]; by apply seen_before.
  - by eexists.
Qed.
(** ** Upstream *)

Lemma resolve_public_safe (o : WebsiteOrigin) (c : option CommandTag) (h : list obs) :
  let_through h o c →
  safe guarded (resolve_public o) h (fun h' r => ∃ t, h' = h ++ t ∧ ∀ addresses, r = Ok addresses → resolved h' o addresses).
Proof.
  intros Hl. unfold resolve_public. steps. split; [by exists o, c|]. intros x. eexists. split; [done|].
  intros addresses. destruct x as [[[|a r]|]|]; try done. destruct (existsb _ _) eqn:Ep; [done|]. intros [= <-].
  split_and!; [apply just_seen|done|]. apply Forall_forall. intros b Hb.
  destruct (is_public_ip b.1) eqn:Eb; [done|]. assert (existsb (fun a => negb (is_public_ip a.1)) (a :: r) = true); [|congruence].
  apply existsb_exists. exists b. rewrite Eb. split; [by apply list_elem_of_In|done].
Qed.

Lemma connect_upstream_safe (o : WebsiteOrigin) (c : option CommandTag) (addresses : list SocketAddr) (h : list obs) :
  let_through h o c → resolved h o addresses →
  safe guarded (connect_upstream addresses) h
    (fun h' r => ∃ t, h' = h ++ t ∧ (r = Ok tt → saw (ConnectTo addresses) (Done true) ∈ h')).
Proof.
  intros Hl Hr. unfold connect_upstream. steps. split; [by exists o, c|]. intros [[]|]; eexists; (split; [done|]); try done.
  intros _. apply just_seen.
Qed.

Lemma read_client_hello_safe (fuel : nat) (prefix : bytes) (o : WebsiteOrigin) (h : list obs) :
  safe guarded (read_client_hello options fuel prefix o) h
    (fun h' r => ∃ t, h' = h ++ t ∧ ∀ b, r = Ok b → inspect_records b o = Ok true).
Proof.
  eapply safe_mono; [apply (safe_only _ reads_client), read_client_hello_only|].
  - by intros h' e [n ->].
  - intros h' r (t & -> & _ & Hr). by exists t.
Qed.

(** An admitted request, as its handlers see it. *)
Lemma admitted_safe (o : WebsiteOrigin) (c : option CommandTag) (buffered : bytes) (h : list obs) :
  identified h c →
  safe guarded (admitted options policy o c buffered) h
    (fun h' r => ∀ b, r = Ok b → let_through h' o c).
Proof.
  intros Hi. unfold admitted. apply safe_bind. eapply safe_mono; [by apply admit_origin_safe|].
  intros h' [r b] (t & -> & Hr). steps. intros b'. destruct r as [[]|]; [|done]. intros _. by apply Hr.
Qed.

(** ** The handlers *)

Lemma handle_connect_safe (request : ParsedRequest) (buffered : bytes) (c : option CommandTag) (h : list obs) :
  identified h c → safe guarded (handle_connect options policy request buffered c) h (fun _ _ => True).
Proof.
  intros Hi. unfold handle_connect. apply safe_try. cbn [safe].
  destruct (connect_origin request) as [o|]; [|done]. cbn [ok_or].
  apply safe_try. eapply safe_mono; [by apply admitted_safe|]. intros h1 [b1|]; [|done]. intros Hl. specialize (Hl _ eq_refl).
  apply safe_try, safe_map_err. eapply safe_mono; [by eapply resolve_public_safe|].
  intros h2 [addresses|] (t & -> & Hr); [|done]. specialize (Hr _ eq_refl). apply (let_through_mono _ t) in Hl.
  apply safe_try, safe_map_err. eapply safe_mono; [by eapply connect_upstream_safe|].
  intros h3 [[]|] (t3 & -> & Hc); [|done]. specialize (Hc eq_refl).
  apply (let_through_mono _ t3) in Hl. apply (resolved_mono _ t3) in Hr.
  apply safe_try. unfold write_committed. steps. split; [done|]. intros []; try done.
  apply (let_through_mono _ [saw (WriteClient connect_established) Written]) in Hl.
  apply (resolved_mono _ [saw (WriteClient connect_established) Written]) in Hr.
  apply (seen_before _ [saw (WriteClient connect_established) Written]) in Hc.
  apply safe_try, safe_map_err. eapply safe_mono; [apply read_client_hello_safe|].
  intros h4 [prefix|] (t4 & -> & Hp); [|done]. specialize (Hp _ eq_refl).
  apply (let_through_mono _ t4) in Hl. apply (resolved_mono _ t4) in Hr. apply (seen_before _ t4) in Hc.
  apply safe_try. steps. split; [by exists o, c, addresses; auto|]. intros []; try done.
  steps. split.
  - exists o, c, prefix. split_and!; [by apply let_through_mono|done|apply just_seen].
  - by intros [].
Qed.

Definition harmless (e : Effect) : Prop :=
  reads_upstream e ∨ (∃ b, e = WriteClient b) ∨ ∃ out, e = RecordOutcome out.

Lemma copy_exact_only (fuel : nat) (remaining : N) : only harmless (fun _ => True) (copy_exact fuel remaining).
Proof.
  revert remaining. induction fuel as [|fuel IH]; intros remaining; simpl; destruct (remaining =? 0)%N; try done.
  split; [by left; eexists|]. intros [[|x b]| |]; try done. steps. split; [right; left; by eexists|].
  intros []; [apply IH|done|done].
Qed.

Lemma forward_response_only (m : bytes) : only harmless (fun _ => True) (forward_response options m).
Proof.
  assert (∀ {A B E} (p : proc (result A E)) (f : A → proc (result B E)),
    only harmless (fun _ => True) p → (∀ a, only harmless (fun _ => True) (f a)) → only harmless (fun _ => True) (try p f)) as Htry.
  { intros A B E p f Hp Hf. eapply only_bind; [exact Hp|]. intros [a|e] _; [apply Hf|done]. }
  unfold forward_response. apply Htry.
  { eapply only_bind; [apply read_head_only|done]. intros n. split; [by left; eexists|done]. }
  intros [head buffered]. apply Htry; [done|]. intros response. apply Htry; [done|]. intros body.
  apply Htry; [done|]. intros headers.
  assert (∀ b, only harmless (fun _ => True) (write_committed b)) as Hw by (intros b; split; [right; left; by eexists|done]).
  assert (only harmless (fun _ => True) finish_ok) as Hf by (split; [right; right; by eexists|done]).
  apply Htry; [apply Hw|]. intros _. destruct body as [|[]|n]; try done. destruct (_ <? _)%N; [done|].
  apply Htry; [apply Hw|]. intros _. apply Htry; [apply copy_exact_only|done].
Qed.

Lemma handle_http_safe (request : ParsedRequest) (buffered : bytes) (c : option CommandTag) (h : list obs) :
  identified h c → safe guarded (handle_http options policy request buffered c) h (fun _ _ => True).
Proof.
  intros Hi. unfold handle_http. apply safe_try. cbn [safe].
  destruct (http_request request buffered) as [[[[authority path] o] len]|] eqn:Eq; [|done]. cbn [precommit].
  assert (parse_origin ($"http://" ++ authority) = Ok o) as Eo.
  { revert Eq. unfold http_request. destruct (parse_http_target _) as [[a p]|]; [|done].
    destruct (parse_origin ($"http://" ++ a)) eqn:E; [|done]. repeat case_match; congruence. }
  apply safe_try. eapply safe_mono; [by apply admitted_safe|]. intros h1 [b1|]; [|done]. intros Hl. specialize (Hl _ eq_refl).
  destruct (negb _); [done|]. apply safe_try, safe_map_err. unfold resolve_and_connect. apply safe_try.
  eapply safe_mono; [by eapply resolve_public_safe|].
  intros h2 [addresses|] (t & -> & Hr); [|done]. specialize (Hr _ eq_refl). apply (let_through_mono _ t) in Hl.
  eapply safe_mono; [by eapply connect_upstream_safe|].
  intros h3 [[]|] (t3 & -> & Hc); [|done]. specialize (Hc eq_refl).
  apply (let_through_mono _ t3) in Hl. apply (resolved_mono _ t3) in Hr.
  apply safe_try. cbn [safe]. destruct (sanitized_headers _ _ _) as [headers|] eqn:Es; [|done]. cbn [ok_or].
  apply safe_try. cbn [safe]. destruct (outbound_request _ _ _ _) as [outbound|] eqn:Eb; [|done]. cbn [ok_or].
  apply safe_try. steps. split.
  { exists o, c, addresses. split_and!; auto. right. by repeat eexists. }
  intros []; try done. eapply safe_mono; [eapply safe_only, forward_response_only|done].
  intros h' e [[n ->]|[[b ->]|[out ->]]]; done.
Qed.

Lemma authenticate_header_safe (header : option bytes) (h : list obs) :
  safe guarded (authenticate_header header) h (fun h' r => ∃ t, h' = h ++ t ∧ ∀ c, r = Ok c → identified h' c).
Proof.
  destruct header as [hd|]; simpl; [|exists []; split; [by rewrite app_nil_r|done]].
  split; [done|]. intros registry. eexists. split; [done|]. intros c Hc. left. exists registry, hd. split; [apply just_seen|done].
Qed.

Lemma authenticate_request_safe (request : ParsedRequest) (h : list obs) :
  safe guarded (authenticate_request request) h (fun h' r => ∀ c, r = Ok c → identified h' c).
Proof.
  unfold authenticate_request. destruct (single_header _ _) as [header|]; [|done].
  apply safe_bind. eapply safe_mono; [apply authenticate_header_safe|]. intros h' r (t & -> & Hr).
  destruct r as [c|[]]; try (by intros). steps. split; [done|]. intros []; [|done].
  intros c [= <-]. right. split; [done|apply just_seen].
Qed.

Lemma serve_connection_safe : safe guarded (serve_connection options policy) [] (fun _ _ => True).
Proof.
  unfold serve_connection. apply safe_bind. eapply (safe_mono _ _ _ (fun _ _ => True)).
  2:{ intros h' [[]|[e|e]] _; by repeat split. }
  unfold handle_connection. apply safe_try, safe_map_err.
  eapply safe_mono; [apply (safe_only _ reads_client (fun _ => True)); [by intros h' e [n ->]|]|].
  { apply read_head_only. intros n. split; [by eexists|done]. }
  intros h1 [[head buffered]|] _; [|done]. apply safe_try. cbn [safe].
  destruct (parse_request _ _) as [request|]; [|done]. cbn [precommit].
  apply safe_try, safe_map_err. eapply safe_mono; [apply authenticate_request_safe|].
  intros h2 [c|]; [|done]. intros Hc. specialize (Hc _ eq_refl).
  destruct (eq_ignore_ascii_case _ _); [by apply handle_connect_safe|].
  destruct (eq_ignore_ascii_case _ _); [done|by apply handle_http_safe].
Qed.

(** C5: nothing goes out that was not let through.  In every run of a connection,
    at each moment, whatever client, network, decider and clock did before: a name is
    resolved only for an origin the policy allows, asked for with a live credential
    (or where none is needed), and that the decider allowed, or held until the answer
    was yes; a connection is opened only to the addresses of that origin, all of them
    public; bytes go upstream only over it, and they are the relayed head of a
    request for that origin or start with a ClientHello that names it; and a tunnel
    is opened only behind such a hello. *)
Theorem egress_guarded (t : list obs) :
  runs (serve_connection options policy) t →
  ∀ i e x, t !! i = Some (saw e x) → guarded (take i t) e.
Proof. intros Hr i e x Hi. apply (safe_runs guarded _ [] t _ serve_connection_safe Hr i e x Hi). Qed.

(** ** Outcomes and responses *)

Definition records (e : Effect) : Prop := ∃ out, e = RecordOutcome out.
Definition writes_client (e : Effect) : Prop := ∃ b, e = WriteClient b.

(** Nothing recorded so far; nothing sent to the client either. *)
Definition unrecorded (h : list obs) : Prop := traced (fun e => ¬ records e) h.
Definition silent (e : Effect) : Prop := ¬ records e ∧ ¬ writes_client e.
Definition untouched (h : list obs) : Prop := traced silent h.

Lemma untouched_unrecorded (h : list obs) : untouched h → unrecorded h.
Proof. intros Hh. eapply Forall_impl; [exact Hh|]. by intros o []. Qed.

Lemma traced_app (S : Effect → Prop) (h t : list obs) : traced S (h ++ t) ↔ traced S h ∧ traced S t.
Proof. apply Forall_app. Qed.

(** How a handler leaves the trace, by its result. *)
Definition left_by (h : list obs) (r : result unit ConnectionError) : Prop :=
  match r with
  | Ok _ => ∃ t, h = t ++ [saw (RecordOutcome OutOk) tt] ∧ unrecorded t
  | Err (Precommit _) => untouched h
  | Err (Committed _) => unrecorded h
  end.

Ltac silently := split; [split; by intros [? ?]|].

(** A silent part of a handler, followed by the rest. *)
Lemma silent_then {A B} (p : proc (result A ConnectionError)) (f : A → proc (result B ConnectionError)) h Q :
  untouched h → only silent (fun _ => True) p →
  (∀ h' a, untouched h' → safe (fun _ _ => True) (f a) h' Q) →
  (∀ h' e, untouched h' → Q h' (Err e)) →
  safe (fun _ _ => True) (try p f) h Q.
Proof.
  intros Hh Hp Hf He. apply safe_try. eapply safe_mono; [by eapply safe_only|].
  intros h' r (t & -> & Ht & _). assert (untouched (h ++ t)) as Hu by (by apply traced_app).
  destruct r; [by apply Hf|by apply He].
Qed.

Lemma left_by_err (h : list obs) (e : ConnectionError) : untouched h → left_by h (Err e).
Proof. intros Hh. destruct e; [done|by apply untouched_unrecorded]. Qed.

Lemma map_err_only {A E F} (S : Effect → Prop) (g : E → F) (p : proc (result A E)) :
  only S (fun _ => True) p → only S (fun _ => True) (map_err g p).
Proof. intros Hp. by eapply only_bind. Qed.

Lemma hold_silent (fuel : nat) (buffered : bytes) : only silent (fun _ => True) (hold_go fuel buffered).
Proof.
  revert buffered. induction fuel as [|fuel IH]; intros buffered; simpl; [done|]. silently.
  intros [| | |[|]|]; simpl; try done. by destruct (_ <? _)%N.
Qed.

Lemma admitted_silent (o : WebsiteOrigin) (c : option CommandTag) (buffered : bytes) :
  only silent (fun _ => True) (admitted options policy o c buffered).
Proof.
  eapply (only_bind _ (fun _ => True)); [|by intros []]. unfold admit_origin.
  destruct (negb _); [done|]. silently. intros [[]|]; try done; try (silently; done).
  silently. intros []; [|done]. cbn [negb mbind proc_bind bind perform].
  eapply (only_bind _ (fun _ => True)); [|intros r _; cbn [mbind proc_bind bind perform]; by silently].
  unfold park_and_hold. silently. intros []; [|done]. silently. intros now. silently. intros parked. cbn [mbind proc_bind bind].
  eapply (only_bind _ (fun _ => True)); [destruct parked; [apply hold_silent|done]|].
  intros [held b] _. silently. intros ms. destruct (hold_result held). silently. intros []. by silently.
Qed.

Lemma resolve_public_silent (o : WebsiteOrigin) : only silent (fun _ => True) (resolve_public o).
Proof. by silently. Qed.

Lemma connect_upstream_silent (addresses : list SocketAddr) : only silent (fun _ => True) (connect_upstream addresses).
Proof. by silently. Qed.

Lemma reads_client_silent (e : Effect) : reads_client e → silent e.
Proof. intros [n ->]. split; by intros [? ?]. Qed.

Lemma authenticate_silent (request : ParsedRequest) : only silent (fun _ => True) (authenticate_request request).
Proof.
  unfold authenticate_request. destruct (single_header _ _) as [header|]; [|done].
  eapply (only_bind _ (fun _ => True)); [by destruct header; [silently|]|].
  intros [c|[]] _; try done. by silently.
Qed.

(** Past the first bytes to the client, a part that records nothing. *)
Lemma unrecorded_then {A B} (p : proc (result A ConnectionError)) (f : A → proc (result B ConnectionError)) h Q :
  unrecorded h → only (fun e => ¬ records e) (fun r => match r with Err (Precommit _) => False | _ => True end) p →
  (∀ h' a, unrecorded h' → safe (fun _ _ => True) (f a) h' Q) →
  (∀ h' e, unrecorded h' → Q h' (Err (Committed e))) →
  safe (fun _ _ => True) (try p f) h Q.
Proof.
  intros Hh Hp Hf He. apply safe_try. eapply safe_mono; [by eapply safe_only|].
  intros h' r (t & -> & Ht & Hr). assert (unrecorded (h ++ t)) as Hu by (by apply traced_app).
  destruct r as [a|[e|e]]; [by apply Hf|done|by apply He].
Qed.

Ltac unrecorded_effect := split; [by intros [? ?]|].

Lemma write_committed_unrecorded (b : bytes) :
  only (fun e => ¬ records e) (fun r => match r with Err (Precommit _) => False | _ => True end) (write_committed b).
Proof. unrecorded_effect. by intros []. Qed.

Lemma finish_left (h : list obs) : unrecorded h → safe (fun _ _ => True) finish_ok h left_by.
Proof. intros Hh. split; [done|]. intros []. by exists h. Qed.

Lemma handle_connect_left (request : ParsedRequest) (buffered : bytes) (c : option CommandTag) (h : list obs) :
  untouched h → safe (fun _ _ => True) (handle_connect options policy request buffered c) h left_by.
Proof.
  intros Hh. unfold handle_connect. apply silent_then; [done|done| |apply left_by_err]. clear h Hh. intros h o Hh.
  apply silent_then; [done|apply admitted_silent| |apply left_by_err]. clear h Hh. intros h b Hh.
  apply silent_then; [done|apply map_err_only, resolve_public_silent| |apply left_by_err]. clear h Hh. intros h addresses Hh.
  apply silent_then; [done|apply map_err_only, connect_upstream_silent| |apply left_by_err]. clear h Hh. intros h _ Hh.
  apply untouched_unrecorded in Hh.
  apply unrecorded_then; [done|apply write_committed_unrecorded| |done]. clear h Hh. intros h _ Hh.
  apply unrecorded_then; [done| | |done].
  { eapply (only_bind _ (fun _ => True)); [|by intros []].
    eapply only_mono; [apply read_client_hello_only| |done]. intros e [n ->]. by intros [? ?]. }
  clear h Hh. intros h prefix Hh. apply unrecorded_then; [done| | |done].
  { unrecorded_effect. by intros []. }
  clear h Hh. intros h _ Hh. split; [done|].
  assert (∀ x, unrecorded (h ++ [saw CopyBidirectional x])) as Hx.
  { intros x. apply traced_app. split; [done|]. constructor; [by intros [? ?]|constructor]. }
  intros []; [by apply finish_left..|apply Hx].
Qed.

Lemma copy_exact_unrecorded (fuel : nat) (remaining : N) :
  only (fun e => ¬ records e) (fun r => match r with Err (Precommit _) => False | _ => True end) (copy_exact fuel remaining).
Proof.
  revert remaining. induction fuel as [|fuel IH]; intros remaining; simpl; destruct (remaining =? 0)%N; try done.
  unrecorded_effect. intros [[|x b]| |]; try done. steps. unrecorded_effect. by intros [].
Qed.

Lemma forward_response_left (m : bytes) (h : list obs) :
  untouched h → safe (fun _ _ => True) (forward_response options m) h left_by.
Proof.
  intros Hh. unfold forward_response. apply silent_then; [done| | |apply left_by_err].
  { apply map_err_only, read_head_only. intros n. by silently. }
  clear h Hh. intros h [head buffered] Hh.
  apply silent_then; [done|done| |apply left_by_err]. clear h Hh. intros h response Hh.
  apply silent_then; [done|done| |apply left_by_err]. clear h Hh. intros h body Hh.
  apply silent_then; [done|done| |apply left_by_err]. clear h Hh. intros h headers Hh.
  apply untouched_unrecorded in Hh.
  apply unrecorded_then; [done|apply write_committed_unrecorded| |done]. clear h Hh. intros h _ Hh.
  destruct body as [|[]|n]; [by apply finish_left|done|by apply finish_left|]. destruct (_ <? _)%N; [done|].
  apply unrecorded_then; [done|apply write_committed_unrecorded| |done]. clear h Hh. intros h _ Hh.
  apply unrecorded_then; [done|apply copy_exact_unrecorded| |done]. intros h' _ Hh'. by apply finish_left.
Qed.

Lemma handle_http_left (request : ParsedRequest) (buffered : bytes) (c : option CommandTag) (h : list obs) :
  untouched h → safe (fun _ _ => True) (handle_http options policy request buffered c) h left_by.
Proof.
  intros Hh. unfold handle_http. apply silent_then; [done|done| |apply left_by_err]. clear h Hh.
  intros h [[[authority path] o] len] Hh.
  apply silent_then; [done|apply admitted_silent| |apply left_by_err]. clear h Hh. intros h b Hh.
  destruct (negb _); [done|]. apply silent_then; [done| | |apply left_by_err].
  { apply map_err_only. eapply only_bind; [apply resolve_public_silent|]. intros [a|e] _; [apply connect_upstream_silent|done]. }
  clear h Hh. intros h _ Hh. apply silent_then; [done|done| |apply left_by_err]. clear h Hh. intros h headers Hh.
  apply silent_then; [done|done| |apply left_by_err]. clear h Hh. intros h outbound Hh.
  apply silent_then; [done|by silently| |apply left_by_err]. clear h Hh. intros h _ Hh. by apply forward_response_left.
Qed.

Lemma handle_connection_left : safe (fun _ _ => True) (handle_connection options policy) [] left_by.
Proof.
  assert (untouched []) as Hh by constructor.
  unfold handle_connection. apply silent_then; [done| | |apply left_by_err].
  { apply map_err_only, read_head_only. intros n. by silently. }
  clear Hh. intros h [head buffered] Hh.
  apply silent_then; [done|done| |apply left_by_err]. clear h Hh. intros h request Hh.
  apply silent_then; [done|apply map_err_only, authenticate_silent| |apply left_by_err]. clear h Hh. intros h c Hh.
  destruct (eq_ignore_ascii_case _ _); [by apply handle_connect_left|].
  destruct (eq_ignore_ascii_case _ _); [done|by apply handle_http_left].
Qed.

(** Every connection is counted once and answered at most once.  A run that
    ends has recorded exactly one outcome; the only thing that can follow it is the
    error response, which then is the first thing the client is sent and carries the
    status of the error that was counted. *)
Theorem counted_and_answered_once (t : list obs) :
  finishes (serve_connection options policy) t tt →
  ∃ before out after, t = before ++ saw (RecordOutcome out) tt :: after ∧ unrecorded before
    ∧ (after = [] ∨ ∃ e w, after = [saw (WriteClient (error_response e)) w] ∧ out = outcome e ∧ untouched before).
Proof.
  intros Hf. eapply (safe_finishes (fun _ _ => True) _ [] t tt (fun h _ => ∃ before out after,
    h = before ++ saw (RecordOutcome out) tt :: after ∧ unrecorded before
    ∧ (after = [] ∨ ∃ e w, after = [saw (WriteClient (error_response e)) w] ∧ out = outcome e ∧ untouched before)) ); [|done].
  unfold serve_connection. apply safe_bind. eapply safe_mono; [apply handle_connection_left|].
  intros h [[]|[e|e]] Hl; steps.
  - destruct Hl as (t' & -> & Hu). exists t', OutOk, []. auto.
  - split; [done|]. intros []. split; [done|]. intros w. exists h, (outcome e), [saw (WriteClient (error_response e)) w].
    split_and!; [by rewrite <-app_assoc|by apply untouched_unrecorded|]. right. by exists e, w.
  - split; [done|]. intros []. exists h, (outcome e), []. auto.
Qed.

End Parts.

(** ** A run *)

(** Run a program against an environment that answers each effect by itself. *)
Fixpoint replay {A} (oracle : ∀ e, answer e) (p : proc A) : list obs * A :=
  match p with
  | Ret a => ([], a)
  | Do e k => let '(t, a) := replay oracle (k (oracle e)) in (saw e (oracle e) :: t, a)
  end.

Lemma replay_finishes {A} (oracle : ∀ e, answer e) (p : proc A) :
  finishes p (replay oracle p).1 (replay oracle p).2.
Proof.
  induction p as [a|e k IH]; [done|]. simpl. specialize (IH (oracle e)). destruct (replay oracle (k (oracle e))) as [t a].
  by exists (oracle e), t.
Qed.

Lemma finishes_runs {A} (p : proc A) (t : list obs) (a : A) : finishes p t a → runs p t.
Proof.
  revert t. induction p as [b|e k IH]; intros t; simpl; [by intros []|]. intros (x & t' & -> & Hf). right.
  exists x, t'. auto.
Qed.

(** A parser of heads: a request line and [name: value] lines. *)
Definition demo_head (max : nat) (head : bytes) : result HttpHead HttparseError :=
  match split_on " "%char (default [] (List.hd_error (lines head))) with
  | [m; path; _] =>
      let hs := omap (fun l => '(n, v) ← split_once ":"%char l; Some (n, v)) (tl (lines head)) in
      if max <? length hs then Err TooManyHeaders else Ok (mkHead true (Some 1%N) (Some m) (Some path) None None hs)
  | _ => Err OtherError
  end.

#[local] Instance demo_http : HttpEnv := Build_HttpEnv demo_head (fun _ _ => Err OtherError) (fun b => b) Some.
#[local] Existing Instance demo_origins.

Definition demo_options : EgressProxyOptions := mkOptions 4 512 8 512 600 2 1.
Definition demo_policy : WebsitePolicy := mkPolicy Allow ∅ {[ mkOrigin $"https" $"evil.example" 443 ]}.
Definition demo_registry : CredentialRegistry := mkRegistry $"session" [mkCredential $"grok-1" $"secret"].
Definition demo_address : SocketAddr := (V4 [8; 8; 8; 8]%N, 443%N).

(** A client that asks for a tunnel and sends its hello ahead; the user lets it
    through. *)
Definition demo_request : bytes :=
  $"CONNECT example.com:443 HTTP/1.1" ++ crlf ++ $"Proxy-Authorization: Bearer secret" ++ crlf ++ crlf
  ++ demo_hello $"example.com".

Definition demo_oracle (e : Effect) : answer e :=
  match e with
  | ReadClient _ => Bytes demo_request
  | ReadUpstream _ => ReadError
  | WriteClient _ | WriteUpstream _ => Written
  | CopyBidirectional => CopyDone
  | LiveCalls => demo_registry
  | AdmitsUnauthenticated => false
  | Decide _ _ => Done DAsk
  | TakeShare _ | TakePermit => true
  | ReleaseShare _ | ReleasePermit => tt
  | Park _ _ => Done tt
  | AwaitHeld => Answered true
  | NowUnix => 0%Z
  | HeldMillis => 5%N
  | Resolve _ _ => Done (Some [demo_address])
  | ConnectTo _ => Done true
  | Publish _ | RecordOutcome _ => tt
  end.

Definition demo_run : list obs * unit := replay demo_oracle (serve_connection demo_options demo_policy).

Lemma egress_guarded_witness :
  demo_run.1 !! 13 = Some (saw (ConnectTo [demo_address]) (Done true))
  ∧ ∃ o c, let_through demo_policy (take 13 demo_run.1) o c ∧ resolved (take 13 demo_run.1) o [demo_address].
Proof.
  assert (demo_run.1 !! 13 = Some (saw (ConnectTo [demo_address]) (Done true))) as E by (by vm_compute).
  split; [exact E|].
  apply (egress_guarded demo_options demo_policy demo_run.1
    (finishes_runs _ _ _ (replay_finishes demo_oracle _)) 13 (ConnectTo [demo_address]) (Done true) E).
Defined.

Lemma counted_and_answered_once_witness :
  ∃ before out after, demo_run.1 = before ++ saw (RecordOutcome out) tt :: after ∧ unrecorded before.
Proof.
  destruct (counted_and_answered_once demo_options demo_policy demo_run.1) as (before & out & after & E & Hb & _).
  - pose proof (replay_finishes demo_oracle (serve_connection demo_options demo_policy)) as Hf.
    change (replay _ _).1 with demo_run.1 in Hf. by destruct (replay demo_oracle _).2.
  - by exists before, out, after.
Defined.
