(* ===== verification/EgressBudget.v ===== *)
(** * The hold budget under concurrency

    Connections of the egress proxy run concurrently and share the budget of parked
    requests: a count per credential and a proxy-wide semaphore
    ([xai-grok-egress-proxy/src/decider.rs], [server.rs]).  The permits of a
    connection go back when its handler leaves the scope that holds them, or when
    its task is aborted.  The system below interleaves the effects of any number of
    connections. *)

From S2P Require Import Prelude RustStr StrFind IpAddr UrlMatch WebOrigin PublicIp ProxyRequest ClientHello EgressProxy EgressLaws.

#[local] Open Scope nat_scope.

(** ** The system *)

Record Pool := mkPool { budget : HoldBudget; permits : nat }.

(** A connection and the guards it holds. *)
Record Thread := mkThread { program : proc unit; share : option (option CommandTag); permit : bool }.

(** What the shared state answers to an effect, and how it changes. *)
Definition shared (pool : Pool) (e : Effect) : answer e → Pool → Prop :=
  match e return answer e → Pool → Prop with
  | TakeShare c => fun x pool' =>
      let '(taken, b) := try_take c (budget pool) in x = taken ∧ pool' = mkPool b (permits pool)
  | ReleaseShare c => fun _ pool' => pool' = mkPool (give_back c (budget pool)) (permits pool)
  | TakePermit => fun x pool' =>
      if permits pool =? 0 then x = false ∧ pool' = pool else x = true ∧ pool' = mkPool (budget pool) (permits pool - 1)
  | ReleasePermit => fun _ pool' => pool' = mkPool (budget pool) (S (permits pool))
  | _ => fun _ pool' => pool' = pool
  end.

Definition share_after (e : Effect) : answer e → option (option CommandTag) → option (option CommandTag) :=
  match e return answer e → _ → _ with
  | TakeShare c => fun taken s => if taken : bool then Some c else s
  | ReleaseShare _ => fun _ _ => None
  | _ => fun _ s => s
  end.

Definition permit_after (e : Effect) : answer e → bool → bool :=
  match e return answer e → _ → _ with
  | TakePermit => fun taken p => if taken : bool then true else p
  | ReleasePermit => fun _ _ => false
  | _ => fun _ p => p
  end.

(** The guards of an aborted task are dropped, the permit first. *)
Definition drop_guards (t : Thread) (pool : Pool) : Pool :=
  let pool := if permit t then mkPool (budget pool) (S (permits pool)) else pool in
  match share t with Some c => mkPool (give_back c (budget pool)) (permits pool) | None => pool end.

Definition System : Type := Pool * list Thread.

Section System.
Context `{UrlEnv} `{HttpEnv}.
Context (options : EgressProxyOptions) (policy : WebsitePolicy).

Inductive step : System → System → Prop :=
| step_accept pool ts : step (pool, ts) (pool, ts ++ [mkThread (serve_connection options policy) None false])
| step_effect pool pool' ts i e k s p x :
    ts !! i = Some (mkThread (Do e k) s p) → shared pool e x pool' →
    step (pool, ts) (pool', <[i := mkThread (k x) (share_after e x s) (permit_after e x p)]> ts)
| step_abort pool ts i t :
    ts !! i = Some t → step (pool, ts) (drop_guards t pool, <[i := mkThread (Ret tt) None false]> ts).

Definition start : System := (mkPool (new_budget options) (max_held options), []).

Definition reachable (s : System) : Prop := rtc step start s.

(** ** Guards are taken and given back in brackets *)

Fixpoint bracketed {A} (p : proc A) (s : option (option CommandTag)) (pm : bool) (s' : option (option CommandTag))
    (pm' : bool) : Prop :=
  match p with
  | Ret _ => s = s' ∧ pm = pm'
  | Do e k =>
      match e with
      | TakeShare _ => s = None ∧ pm = false
      | ReleaseShare c => s = Some c ∧ pm = false
      | TakePermit => is_Some s ∧ pm = false
      | ReleasePermit => pm = true
      | _ => True
      end ∧ ∀ x, bracketed (k x) (share_after e x s) (permit_after e x pm) s' pm'
  end.

Lemma bracketed_bind {A B} (p : proc A) (f : A → proc B) s pm s1 pm1 s' pm' :
  bracketed p s pm s1 pm1 → (∀ a, bracketed (f a) s1 pm1 s' pm') → bracketed (bind p f) s pm s' pm'.
Proof.
  revert s pm. induction p as [a|e k IH]; simpl; intros s pm; [by intros [-> ->]|]. intros [He Hk] Hf. split; [done|].
  intros x. by apply IH.
Qed.

(** An effect that does not touch the budget. *)
Definition unbudgeted (e : Effect) : Prop :=
  match e with TakeShare _ | ReleaseShare _ | TakePermit | ReleasePermit => False | _ => True end.

Lemma bracketed_unbudgeted {A} (R : A → Prop) (p : proc A) s pm : only unbudgeted R p → bracketed p s pm s pm.
Proof.
  induction p as [a|e k IH]; simpl; [done|]. intros [He Hk]. split; [by destruct e|]. intros x.
  replace (share_after e x s) with s by (by destruct e). replace (permit_after e x pm) with pm by (by destruct e). auto.
Qed.

Lemma bracketed_try {A B E} (p : proc (result A E)) (f : A → proc (result B E)) :
  bracketed p None false None false → (∀ a, bracketed (f a) None false None false) →
  bracketed (try p f) None false None false.
Proof. intros Hp Hf. eapply bracketed_bind; [exact Hp|]. by intros [a|e]. Qed.

Lemma bracketed_map_err {A E F} (g : E → F) (p : proc (result A E)) :
  bracketed p None false None false → bracketed (map_err g p) None false None false.
Proof. intros Hp. by eapply bracketed_bind. Qed.

#[local] Ltac plain := apply (bracketed_unbudgeted (fun _ => True)).

Lemma park_and_hold_bracketed (o : WebsiteOrigin) (c : option CommandTag) (buffered : bytes) :
  bracketed (park_and_hold options o c buffered) (Some c) false (Some c) false.
Proof.
  unfold park_and_hold. split; [by split; [eexists|]|]. intros []; [|done]. split; [done|]. intros now. split; [done|].
  intros parked. cbn [mbind proc_bind bind]. eapply bracketed_bind.
  - plain. destruct parked; [|done]. unfold hold. generalize (S (N.to_nat MAX_HELD_CLIENT_BYTES)) as fuel.
    intros fuel. generalize buffered. induction fuel as [|fuel IH]; intros b; simpl; [done|]. split; [done|].
    intros [| | |[|]|]; simpl; try done. by destruct (_ <? _)%N.
  - intros [held b]. split; [done|]. intros ms. cbn [bind]. destruct (hold_result held) as [outcome res].
    split; [done|]. intros []. split; [done|]. by intros [].
Qed.

Lemma admitted_bracketed (o : WebsiteOrigin) (c : option CommandTag) (buffered : bytes) :
  bracketed (admitted options policy o c buffered) None false None false.
Proof.
  eapply bracketed_bind; [|by intros []]. unfold admit_origin. destruct (negb _); [done|]. split; [done|].
  intros [[]|]; try done. split; [done|]. intros []; [|done]. cbn [negb mbind proc_bind bind perform].
  eapply bracketed_bind; [apply park_and_hold_bracketed|]. intros r. split; [done|]. by intros [].
Qed.

Lemma serve_connection_bracketed : bracketed (serve_connection options policy) None false None false.
Proof.
  assert (∀ e, reads_client e → unbudgeted e) as Hread by (by intros e [n ->]).
  assert (∀ b, bracketed (write_committed b) None false None false) as Hw by (by intros b).
  assert (∀ o, bracketed (resolve_public o) None false None false) as Hr by (by intros o).
  assert (∀ l, bracketed (connect_upstream l) None false None false) as Hc by (by intros l).
  eapply bracketed_bind; [|by intros [[]|[]]; repeat split].
  unfold handle_connection. apply bracketed_try; [apply bracketed_map_err; plain; by apply read_head_only|].
  intros [head buffered]. apply bracketed_try; [done|]. intros request. apply bracketed_try.
  { apply bracketed_map_err. plain. unfold authenticate_request. destruct (single_header _ _) as [header|]; [|done].
    eapply (only_bind _ (fun _ => True)); [by destruct header|]. by intros [|[]] _. }
  intros c. destruct (eq_ignore_ascii_case _ _); [|destruct (eq_ignore_ascii_case _ _); [done|]].
  - unfold handle_connect. apply bracketed_try; [done|]. intros o. apply bracketed_try; [apply admitted_bracketed|].
    intros b. apply bracketed_try; [by apply bracketed_map_err|]. intros l.
    apply bracketed_try; [by apply bracketed_map_err|]. intros _. apply bracketed_try; [done|]. intros _.
    apply bracketed_try; [|intros prefix; apply bracketed_try; [done|]; intros _; split; [done|]; by intros []].
    apply bracketed_map_err. plain. eapply only_mono; [apply read_client_hello_only|done|done].
  - unfold handle_http. apply bracketed_try; [done|]. intros [[[authority path] o] len].
    apply bracketed_try; [apply admitted_bracketed|]. intros b. destruct (negb _); [done|].
    apply bracketed_try; [apply bracketed_map_err; by apply bracketed_try|]. intros _.
    apply bracketed_try; [done|]. intros headers. apply bracketed_try; [done|]. intros outbound.
    apply bracketed_try; [done|]. intros _. plain. eapply only_mono; [apply forward_response_only| |done].
    by intros e [[n ->]|[[w ->]|[out ->]]].
Qed.

(** ** The budget counts the guards *)

Definition limit : nat := Nat.min (max_held_per_call options) (max_held options).

Definition holds (c : option CommandTag) (t : Thread) : bool := bool_decide (share t = Some c).
Definition sharing (c : option CommandTag) (ts : list Thread) : nat := length (List.filter (holds c) ts).
Definition permitted (ts : list Thread) : nat := length (List.filter permit ts).

(** A map that has exactly the counts that are not zero. *)
Definition tally (m : gmap (option CommandTag) nat) (count : option CommandTag → nat) : Prop :=
  ∀ c, m !! c = if count c =? 0 then None else Some (count c).

Lemma tally_default m count c : tally m count → default 0 (m !! c) = count c.
Proof. intros Ht. rewrite Ht. by destruct (Nat.eqb_spec (count c) 0). Qed.

Lemma tally_take (c : option CommandTag) (b : HoldBudget) count :
  tally (held b) count → 0 < per_call b →
  let '(taken, b') := try_take c b in
  per_call b' = per_call b
  ∧ if taken then count c < per_call b
      ∧ ∀ count', count' c = S (count c) → (∀ d, d ≠ c → count' d = count d) → tally (held b') count'
    else b' = b ∧ per_call b <= count c.
Proof.
  intros Ht Hl. unfold try_take. rewrite (tally_default _ _ _ Ht).
  destruct (Nat.leb_spec (per_call b) (count c)) as [Hle|Hlt]; (split; [done|]).
  - split; [|done]. destruct b as [l m]. simpl in *. f_equal. apply insert_id. rewrite Ht.
    destruct (Nat.eqb_spec (count c) 0); [lia|done].
  - split; [done|]. intros count' Hc Hd d. simpl. destruct (decide (d = c)) as [->|Hne].
    + rewrite lookup_insert_eq, Hc. done.
    + rewrite lookup_insert_ne by done. rewrite Ht, Hd by done. done.
Qed.

Lemma tally_give (c : option CommandTag) (b : HoldBudget) count :
  tally (held b) count → 0 < count c →
  per_call (give_back c b) = per_call b
  ∧ ∀ count', S (count' c) = count c → (∀ d, d ≠ c → count' d = count d) → tally (held (give_back c b)) count'.
Proof.
  intros Ht Hc. assert (held b !! c = Some (count c)) as E by (rewrite Ht; destruct (Nat.eqb_spec (count c) 0); [lia|done]).
  unfold give_back. rewrite !E. cbn [per_call].
  split; [done|]. intros count' Hc' Hd d.
  cbn [held]. replace (count c - 1) with (count' c) by lia. destruct (decide (d = c)) as [->|Hne].
  - destruct (count' c =? 0); [by rewrite lookup_delete_eq|by rewrite lookup_insert_eq].
  - rewrite (Hd d Hne), <-Ht. destruct (count' c =? 0); [by rewrite lookup_delete_ne|by rewrite lookup_insert_ne].
Qed.

(** The number of threads that satisfy a test, after one of them moved. *)
Lemma filter_insert (f : Thread → bool) (ts : list Thread) (i : nat) (t t' : Thread) :
  ts !! i = Some t →
  length (List.filter f (<[i := t']> ts)) + Nat.b2n (f t) = length (List.filter f ts) + Nat.b2n (f t').
Proof.
  revert i. induction ts as [|u ts IH]; intros [|i] Hi; simplify_eq/=.
  - destruct (f t), (f t'); simpl; lia.
  - specialize (IH i Hi). destruct (f u); simpl; lia.
Qed.

Lemma filter_has (f : Thread → bool) (ts : list Thread) (i : nat) (t : Thread) :
  ts !! i = Some t → f t = true → 0 < length (List.filter f ts).
Proof.
  intros Hi Hf. assert (t ∈ List.filter f ts) as Hin.
  { apply list_elem_of_In, filter_In. split; [by apply list_elem_of_In, (list_elem_of_lookup_2 _ i)|done]. }
  destruct (List.filter f ts); [by apply elem_of_nil in Hin|simpl; lia].
Qed.

(** The pool accounts for the guards of the threads. *)
Record counted (pool : Pool) (ts : list Thread) : Prop := {
  ok_limit : per_call (budget pool) = limit;
  ok_tally : tally (held (budget pool)) (fun c => sharing c ts);
  ok_bound : ∀ c, sharing c ts <= limit;
  ok_permits : permits pool + permitted ts = max_held options;
}.

Lemma sharing_insert (c : option CommandTag) (ts : list Thread) (i : nat) (t t' : Thread) :
  ts !! i = Some t →
  sharing c (<[i := t']> ts) + Nat.b2n (holds c t) = sharing c ts + Nat.b2n (holds c t').
Proof. apply filter_insert. Qed.

Lemma permitted_insert (ts : list Thread) (i : nat) (t t' : Thread) :
  ts !! i = Some t →
  permitted (<[i := t']> ts) + Nat.b2n (permit t) = permitted ts + Nat.b2n (permit t').
Proof. apply filter_insert. Qed.

(** Keep the shares: only the permit of thread [i] moves, with the pool's. *)
Lemma counted_permit (pool : Pool) (ts : list Thread) (i : nat) (t t' : Thread) (n : nat) :
  counted pool ts → ts !! i = Some t → share t' = share t →
  n + Nat.b2n (permit t') = permits pool + Nat.b2n (permit t) →
  counted (mkPool (budget pool) n) (<[i := t']> ts).
Proof.
  intros [Hl Ht Hb Hp] Hi Hs Hn.
  assert (∀ c, sharing c (<[i := t']> ts) = sharing c ts) as Es.
  { intros c. pose proof (sharing_insert c ts i t t' Hi) as Hc.
    assert (holds c t' = holds c t) as E by (unfold holds; by rewrite Hs). rewrite E in Hc. lia. }
  pose proof (permitted_insert ts i t t' Hi). split; simpl; [done| | |lia].
  - intros c. rewrite Es. apply Ht.
  - intros c. by rewrite Es.
Qed.

Lemma counted_same (pool : Pool) (ts : list Thread) (i : nat) (t t' : Thread) :
  counted pool ts → ts !! i = Some t → share t' = share t → permit t' = permit t → counted pool (<[i := t']> ts).
Proof.
  intros Hc Hi Hs Hp. destruct pool as [b n]. apply (counted_permit (mkPool b n) ts i t); try done. by rewrite Hp.
Qed.

Lemma counted_take (pool : Pool) (ts : list Thread) (i : nat) (t t' : Thread) (c : option CommandTag) (b : HoldBudget) :
  counted pool ts → ts !! i = Some t → 0 < limit → share t = None → share t' = Some c → permit t' = permit t →
  try_take c (budget pool) = (true, b) → counted (mkPool b (permits pool)) (<[i := t']> ts).
Proof.
  intros [Hl Ht Hb Hp] Hi Hpos Hs Hs' Hpm E.
  pose proof (tally_take c (budget pool) _ Ht) as Htake. rewrite E, Hl in Htake. destruct (Htake Hpos) as (Hl' & Hlt & Htally).
  assert (∀ d, sharing d (<[i := t']> ts) = sharing d ts + Nat.b2n (bool_decide (d = c))) as Es.
  { intros d. pose proof (sharing_insert d ts i t t' Hi) as Hc. unfold holds in Hc. rewrite Hs, Hs' in Hc. simpl in Hc.
    destruct (decide (d = c)) as [->|Hne].
    - rewrite !bool_decide_eq_true_2 in * by done. simpl in *. lia.
    - rewrite (bool_decide_eq_false_2 (Some c = Some d)) in Hc by congruence. rewrite bool_decide_eq_false_2 by done. simpl in *. lia. }
  pose proof (permitted_insert ts i t t' Hi) as Hpi. rewrite Hpm in Hpi. split; simpl; [done| | |lia].
  - apply Htally; [|intros d Hd]; rewrite Es; [rewrite bool_decide_eq_true_2 by done; simpl; lia|].
    rewrite bool_decide_eq_false_2 by done. simpl. lia.
  - intros d. rewrite Es. specialize (Hb d). destruct (bool_decide_reflect (d = c)) as [->|]; simpl; lia.
Qed.

Lemma counted_give (pool : Pool) (ts : list Thread) (i : nat) (t t' : Thread) (c : option CommandTag) :
  counted pool ts → ts !! i = Some t → share t = Some c → share t' = None → permit t' = permit t →
  counted (mkPool (give_back c (budget pool)) (permits pool)) (<[i := t']> ts).
Proof.
  intros [Hl Ht Hb Hp] Hi Hs Hs' Hpm.
  assert (0 < sharing c ts) as Hc0 by (apply (filter_has _ ts i t Hi); unfold holds; by rewrite Hs, bool_decide_eq_true_2).
  destruct (tally_give c (budget pool) _ Ht Hc0) as [Hl' Htally].
  assert (∀ d, sharing d (<[i := t']> ts) + Nat.b2n (bool_decide (d = c)) = sharing d ts) as Es.
  { intros d. pose proof (sharing_insert d ts i t t' Hi) as Hc. unfold holds in Hc. rewrite Hs, Hs' in Hc. simpl in Hc.
    destruct (decide (d = c)) as [->|Hne].
    - rewrite !bool_decide_eq_true_2 in * by done. simpl in *. lia.
    - rewrite (bool_decide_eq_false_2 (Some c = Some d)) in Hc by congruence. rewrite bool_decide_eq_false_2 by done. simpl in *. lia. }
  pose proof (permitted_insert ts i t t' Hi) as Hpi. rewrite Hpm in Hpi. split; simpl; [by rewrite Hl'| | |lia].
  - apply Htally; [|intros d Hd].
    + pose proof (Es c) as E. rewrite bool_decide_eq_true_2 in E by done. simpl in E. lia.
    + pose proof (Es d) as E. rewrite bool_decide_eq_false_2 in E by done. simpl in E. lia.
  - intros d. specialize (Hb d). specialize (Es d). lia.
Qed.

(** What holds of every thread: its guards are in brackets, and a permit is only
    held next to a share. *)
Definition orderly (t : Thread) : Prop :=
  bracketed (program t) (share t) (permit t) None false ∧ (permit t = true → is_Some (share t)).

Definition pool_ok (s : System) : Prop := counted s.1 s.2 ∧ Forall orderly s.2.

Lemma drop_guards_counted (pool : Pool) (ts : list Thread) (i : nat) (t : Thread) :
  counted pool ts → ts !! i = Some t → counted (drop_guards t pool) (<[i := mkThread (Ret tt) None false]> ts).
Proof.
  intros Hc Hi. pose proof (lookup_lt_Some _ _ _ Hi) as Hlt. destruct t as [p s pm].
  assert (counted (if pm then mkPool (budget pool) (S (permits pool)) else pool) (<[i := mkThread p s false]> ts)) as Hc'.
  { destruct pm; [|by apply (counted_same pool ts i (mkThread p s false))].
    apply (counted_permit pool ts i (mkThread p s true)); simpl; auto; lia. }
  unfold drop_guards. simpl. rewrite <-(list_insert_insert_eq ts i (mkThread (Ret tt) None false) (mkThread p s false)).
  destruct s as [c|].
  - apply (counted_give _ _ i (mkThread p (Some c) false)); try done. by apply list_lookup_insert_eq.
  - apply (counted_same _ _ i (mkThread p None false)); try done. by apply list_lookup_insert_eq.
Qed.

Lemma effect_counted (pool pool' : Pool) (ts : list Thread) (i : nat) e k s pm x :
  0 < limit → pool_ok (pool, ts) → ts !! i = Some (mkThread (Do e k) s pm) → shared pool e x pool' →
  pool_ok (pool', <[i := mkThread (k x) (share_after e x s) (permit_after e x pm)]> ts).
Proof.
  intros Hpos [Hc Ho] Hi Hsh. simpl in *. set (t := mkThread (Do e k) s pm) in *.
  pose proof (Forall_lookup_1 _ _ _ _ Ho Hi) as [[He Hk] Hsome]. simpl in *. split; simpl.
  - destruct e; simpl in *; subst; try (by apply (counted_same pool ts i t)).
    + destruct He as [-> ->]. destruct (try_take c (budget pool)) as [taken b] eqn:E. destruct Hsh as [-> ->].
      destruct taken; [by apply (counted_take pool ts i t _ c)|].
      pose proof (tally_take c (budget pool) _ (ok_tally _ _ Hc)) as Htake. rewrite E, (ok_limit _ _ Hc) in Htake.
      destruct (Htake Hpos) as (_ & -> & _). destruct pool. by apply (counted_same _ ts i t).
    + destruct He as [-> ->]. by apply (counted_give pool ts i t).
    + destruct He as [_ ->]. destruct (Nat.eqb_spec (permits pool) 0); destruct Hsh as [-> ->]; simpl.
      * by apply (counted_same pool ts i t).
      * apply (counted_permit pool ts i t); simpl; auto; lia.
    + apply (counted_permit pool ts i t); simpl; auto; lia.
  - apply Forall_insert; [done|]. split; simpl; [apply Hk|]. destruct e; simpl in *; try done.
    + destruct He as [-> ->]. done.
    + destruct He as [-> ->]. done.
    + by destruct He as [Hs ->].
Qed.

Lemma reachable_ok (s : System) : 0 < limit → reachable s → pool_ok s.
Proof.
  intros Hpos Hr. unfold reachable in Hr. assert (pool_ok start) as Hs.
  { split; [|constructor]. split; simpl; [done|by intros c|intros c; apply Nat.le_0_l|apply Nat.add_0_r]. }
  revert Hs. induction Hr as [|s s' s'' Hstep _ IH]; [done|]. intros Hok. apply IH. clear IH.
  destruct Hstep as [pool ts|pool pool' ts i e k s pm x Hi Hsh|pool ts i t Hi].
  - destruct Hok as [[Hl Ht Hb Hp] Ho]. simpl in *.
    assert (∀ c, sharing c (ts ++ [mkThread (serve_connection options policy) None false]) = sharing c ts) as Es
      by (intros c; unfold sharing; rewrite List.filter_app, app_nil_r; done).
    split; simpl; [split; simpl; auto|].
    + intros c. rewrite Es. apply Ht.
    + intros c. by rewrite Es.
    + unfold permitted. by rewrite List.filter_app, app_nil_r.
    + apply Forall_app. split; [done|]. constructor; [|constructor]. split; [apply serve_connection_bracketed|done].
  - by apply (effect_counted pool).
  - destruct Hok as [Hc Ho]. split; simpl in *; [by apply drop_guards_counted|]. apply Forall_insert; [done|]. by split.
Qed.

(** C6: the budget of parked requests is exact in every state any number of
    connections can reach, in any interleaving, aborted tasks included: each
    credential is charged for exactly the connections it parks, never more than its
    share; the permits left and the permits out are all there are; a parked
    connection holds a share of its credential, so one command cannot take more of
    the proxy's permits than that; and when nothing is parked, nothing is charged. *)
Theorem hold_budget_exact (pool : Pool) (ts : list Thread) :
  valid_options options = true → reachable (pool, ts) →
  (∀ c, default 0 (held (budget pool) !! c) = sharing c ts ∧ sharing c ts <= limit)
  ∧ permits pool + permitted ts = max_held options
  ∧ (∀ t, t ∈ ts → permit t = true → is_Some (share t))
  ∧ ((∀ t, t ∈ ts → share t = None) → held (budget pool) = ∅ ∧ permits pool = max_held options).
Proof.
  intros Hv Hr. assert (0 < limit) as Hpos.
  { unfold valid_options in Hv. bool_prop. unfold limit.
    repeat match goal with H : (_ =? _) = false |- _ => apply Nat.eqb_neq in H end. lia. }
  destruct (reachable_ok _ Hpos Hr) as [[Hl Ht Hb Hp] Ho]. simpl in *. rewrite Forall_forall in Ho.
  split_and!; [intros c; split; [by apply (tally_default _ (fun c => sharing c ts))|apply Hb]|done|by intros t []%Ho|].
  intros Hnone. split.
  - apply map_empty. intros c. rewrite Ht. replace (sharing c ts) with 0; [done|]. symmetry.
    unfold sharing. rewrite filter_none; [done|]. intros t Hin. unfold holds. by rewrite (Hnone t Hin).
  - replace (permitted ts) with 0 in Hp; [lia|]. symmetry. unfold permitted. rewrite filter_none; [done|]. intros t Hin.
    destruct (permit t) eqn:E; [|done]. destruct (Ho t Hin) as [_ Hs]. destruct (Hs E) as [c Hc]. by rewrite Hnone in Hc.
Qed.

End System.

(** ** A run that parks a request *)

Definition respond (oracle : ∀ e, answer e) (pool : Pool) (e : Effect) : answer e * Pool :=
  match e return answer e * Pool with
  | TakeShare c => let '(taken, b) := try_take c (budget pool) in (taken, mkPool b (permits pool))
  | ReleaseShare c => (tt, mkPool (give_back c (budget pool)) (permits pool))
  | TakePermit => if permits pool =? 0 then (false, pool) else (true, mkPool (budget pool) (permits pool - 1))
  | ReleasePermit => (tt, mkPool (budget pool) (S (permits pool)))
  | e => (oracle e, pool)
  end.

Lemma respond_shared (oracle : ∀ e, answer e) (pool : Pool) (e : Effect) :
  shared pool e (respond oracle pool e).1 (respond oracle pool e).2.
Proof. destruct e; simpl; try done; [by destruct (try_take _ _)|by destruct (permits pool =? 0)]. Qed.

(** The first [n] effects of a connection that is alone. *)
Fixpoint drive (oracle : ∀ e, answer e) (n : nat) (pool : Pool) (t : Thread) : Pool * Thread :=
  match n, t with
  | S n, mkThread (Do e k) s p =>
      let '(x, pool) := respond oracle pool e in
      drive oracle n pool (mkThread (k x) (share_after e x s) (permit_after e x p))
  | _, _ => (pool, t)
  end.

Lemma drive_reaches `{UrlEnv} `{HttpEnv} (options : EgressProxyOptions) (policy : WebsitePolicy) (oracle : ∀ e, answer e)
    (n : nat) (pool : Pool) (t : Thread) :
  rtc (step options policy) (pool, [t]) ((drive oracle n pool t).1, [(drive oracle n pool t).2]).
Proof.
  revert pool t. induction n as [|n IH]; intros pool [[a|e k] s p]; try done. simpl.
  pose proof (respond_shared oracle pool e) as Hs. destruct (respond oracle pool e) as [x pool'].
  eapply rtc_l; [|apply IH]. by apply (step_effect options policy pool pool' [_] 0 e k s p x).
Qed.

#[local] Existing Instance demo_origins.
#[local] Existing Instance demo_http.

Definition demo_thread : Thread := mkThread (serve_connection demo_options demo_policy) None false.
Definition demo_parked : Pool * Thread :=
  drive demo_oracle 7 (mkPool (new_budget demo_options) (max_held demo_options)) demo_thread.

Lemma hold_budget_exact_witness :
  permit demo_parked.2 = true ∧ default 0 (held (budget demo_parked.1) !! Some $"grok-1") = 1
  ∧ permits demo_parked.1 + 1 = 2.
Proof.
  split; [by vm_compute|].
  destruct (hold_budget_exact demo_options demo_policy demo_parked.1 [demo_parked.2]) as (Hh & Hp & _).
  - by vm_compute.
  - eapply rtc_l; [apply (step_accept demo_options demo_policy _ [])|]. apply drive_reaches.
  - destruct (Hh (Some $"grok-1")) as [E _]. split; [etrans; [exact E|by vm_compute]|exact Hp].
Defined.
