(* ===== verification/TextLines.v ===== *)
(** * Texts as lists of lines, and files

    A text of complete lines, what [str::lines] makes of it and how lines are put
    together again; replacing stretches of lines.  At the end the files that hold texts,
    as the tools see them. *)

From S2P Require Import Prelude RustStr StrFind.

#[local] Open Scope nat_scope.

(** ** Texts of complete lines *)

(** A line without its line end, and with it. *)
Definition clean (w : bytes) : Prop := newline ∉ w ∧ carriage_return ∉ w.
Definition ended (w : bytes) : bytes := w ++ [newline].
Definition text (ws : list bytes) : bytes := concat (map ended ws).

Lemma text_app (a b : list bytes) : text (a ++ b) = text a ++ text b.
Proof. unfold text. by rewrite map_app, concat_app. Qed.

Lemma lines_text (ws : list bytes) : Forall clean ws → lines (text ws) = ws.
Proof.
  induction 1 as [|w ws [Hn Hc] _ IH]; [done|]. unfold text. cbn [map concat]. unfold ended at 1.
  rewrite <-app_assoc. cbn [app]. rewrite lines_cons by done. f_equal. exact IH.
Qed.

Lemma join_ended (w : bytes) (ws : list bytes) : join [newline] (w :: ws) ++ [newline] = text (w :: ws).
Proof.
  revert w. induction ws as [|v ws IH]; intros w; [by unfold text; cbn; rewrite app_nil_r|].
  change (join [newline] (w :: v :: ws)) with (w ++ [newline] ++ join [newline] (v :: ws)).
  rewrite <-!app_assoc, IH. unfold text. cbn [map concat]. unfold ended at 3.
  by rewrite <-app_assoc.
Qed.

Lemma text_ends (w : bytes) (ws : list bytes) : ends_with [newline] (text (w :: ws)) = true.
Proof. rewrite <-join_ended. apply ends_with_true. by eexists. Qed.

Lemma text_nil (ws : list bytes) : text ws = [] ↔ ws = [].
Proof. destruct ws as [|w ws]; [done|]. split; [|done]. unfold text. cbn. by destruct w. Qed.

(** Replace [n] lines behind the first [k]. *)
Definition splice (k n : nat) (ins ws : list bytes) : list bytes := take k ws ++ ins ++ drop (k + n) ws.

Lemma splice_length (k n : nat) (ins ws : list bytes) : length ws <= length (splice k n ins ws) + n.
Proof. unfold splice. rewrite !length_app, length_take, length_drop. lia. Qed.

Lemma splice_clean (k n : nat) (ins ws : list bytes) : Forall clean ins → Forall clean ws → Forall clean (splice k n ins ws).
Proof. intros Hi Hw. apply Forall_app. split; [by apply Forall_take|]. apply Forall_app. split; [done|by apply Forall_drop]. Qed.

Lemma take_min (k : nat) (ws : list bytes) : take (Nat.min k (length ws)) ws = take k ws.
Proof. destruct (Nat.min_spec k (length ws)) as [[_ ->]|[H ->]]; [done|]. by rewrite !take_ge. Qed.

Lemma drop_min (k : nat) (ws : list bytes) : drop (Nat.min k (length ws)) ws = drop k ws.
Proof. destruct (Nat.min_spec k (length ws)) as [[_ ->]|[H ->]]; [done|]. by rewrite !drop_ge. Qed.

(** A text of complete lines. *)
Definition plain_text (t : bytes) : Prop := t = text (lines t) ∧ Forall clean (lines t).

#[export] Instance clean_dec (w : bytes) : Decision (clean w).
Proof. unfold clean. apply _. Defined.
#[export] Instance plain_text_dec (t : bytes) : Decision (plain_text t).
Proof. unfold plain_text. apply _. Defined.

(** Lines joined without a line feed at the end. *)
Lemma lines_join (ws : list bytes) (w : bytes) :
  Forall clean ws → newline ∉ w → w ≠ [] → lines (join [newline] (ws ++ [w])) = ws ++ [w].
Proof.
  intros Hws Hn Hw. induction Hws as [|v ws [Hv Hc] _ IH]; [by apply lines_single|].
  change ((v :: ws) ++ [w]) with (v :: (ws ++ [w])). assert (∃ x l, ws ++ [w] = x :: l) as (x & l & E) by (destruct ws; eauto).
  rewrite E in *. change (join [newline] (v :: x :: l)) with (v ++ [newline] ++ join [newline] (x :: l)).
  cbn [app]. rewrite lines_cons by done. by rewrite IH.
Qed.

Lemma join_blank (ls : list bytes) : ls ≠ [] → join [newline] (ls ++ [[]]) = join [newline] ls ++ [newline].
Proof.
  induction ls as [|l ls IH]; [done|]. intros _. destruct ls as [|m ls]; [done|].
  change (l ++ [newline] ++ join [newline] ((m :: ls) ++ [[]]) = (l ++ [newline] ++ join [newline] (m :: ls)) ++ [newline]).
  by rewrite IH, <-!app_assoc.
Qed.

Lemma elem_of_join (sep w : bytes) (x : ascii) (ps : list bytes) : w ∈ ps → x ∈ w → x ∈ join sep ps.
Proof.
  induction ps as [|v ps IH]; intros Hw Hx; [by apply elem_of_nil in Hw|]. apply elem_of_cons in Hw as [->|Hw].
  - destruct ps as [|u ps]; [done|]. change (x ∈ v ++ sep ++ join sep (u :: ps)). set_solver.
  - destruct ps as [|u ps]; [by apply elem_of_nil in Hw|]. change (x ∈ v ++ sep ++ join sep (u :: ps)). set_solver.
Qed.

(** The last piece is empty when the text ends in a line feed. *)
Lemma last_piece (c : bytes) : c ≠ [] → bool_decide (last (split_on newline c) = Some []) = ends_with [newline] c.
Proof.
  intros Hc. case_bool_decide as Hl; symmetry.
  - apply last_Some in Hl as [ps Hps]. apply ends_with_true. exists (join [newline] ps).
    rewrite <-(join_split_on newline c), Hps. apply join_blank. intros ->. apply Hc. by rewrite <-(join_split_on newline c), Hps.
  - apply not_true_is_false. intros [r ->]%ends_with_true. apply Hl. by rewrite split_on_snoc, last_snoc.
Qed.

(** ** Edits

    An edit is where it starts, how many lines it removes and the lines it puts there. *)
Definition start_of (r : nat * nat * list bytes) : nat := r.1.1.

(** Edits one behind the other from [pos] on. *)
Fixpoint chain (pos len : nat) (rs : list (nat * nat * list bytes)) : Prop :=
  match rs with
  | [] => pos <= len
  | (i, n, _) :: rs => pos <= i ∧ chain (i + n) len rs
  end.

(** The text from [pos] on with the stretches replaced. *)
Fixpoint rewritten (pos : nat) (ls : list bytes) (rs : list (nat * nat * list bytes)) : list bytes :=
  match rs with
  | [] => drop pos ls
  | (i, n, new) :: rs => take (i - pos) (drop pos ls) ++ new ++ rewritten (i + n) ls rs
  end.

Lemma chain_le (pos len : nat) (rs : list (nat * nat * list bytes)) : chain pos len rs → pos <= len ∧ Forall (fun r => pos <= start_of r) rs.
Proof.
  revert pos. induction rs as [|[[i n] new] rs IH]; intros pos; simpl; [by split|]. intros [Hp Hc]. destruct (IH _ Hc) as [Hl Hf].
  split; [lia|]. constructor; [done|]. eapply Forall_impl; [exact Hf|]. simpl. lia.
Qed.

Lemma chain_sorted (pos len : nat) (rs : list (nat * nat * list bytes)) : chain pos len rs → StronglySorted (fun x y => start_of x <= start_of y) rs.
Proof.
  revert pos. induction rs as [|[[i n] new] rs IH]; intros pos; simpl; [constructor|]. intros [Hp Hc]. constructor; [by eapply IH|].
  destruct (chain_le _ _ _ Hc) as [_ Hf]. eapply Forall_impl; [exact Hf|]. unfold start_of. simpl. lia.
Qed.

(** ** The files a tool call meets

    [codegen/xai-grok-tools]: the file system behind the tools
    ([computer/types.rs], [AsyncFileSystem]) and the policy of memory directories
    ([types/memory_v2.rs]) as interfaces.  Files are a finite map by path; which
    accesses fail, and the policy, are parameters of the tools that use them. *)

Abbreviation Files := (gmap bytes bytes).

(** An error of the file system: its message, and whether its kind is [NotFound]. *)
Record FsError := mkFsError { fs_message : bytes; fs_not_found : bool }.

(** The answers of the file system: the error of an access that fails, which then changes
    nothing, and the message
    for a path that is not there. *)
Class EditFs := {
  read_fault : bytes → option FsError;
  not_found : bytes → bytes;
  write_fault : bytes → option FsError;
  delete_fault : bytes → option FsError;
  dirs_fault : bytes → option FsError;
}.

(** The policy of memory directories: whether a write would pass, whether a path is
    inside, and the write itself, which leaves paths outside to the tool. *)
Class MemoryPolicy := {
  preflight_write : bytes → bytes → result bool bytes;
  validate_read : bytes → result bool bytes;
  write_memory : bytes → bytes → Files → result (option Files) bytes;
}.

Section Disk.
Context {disk : EditFs}.

Definition read_file (p : bytes) (f : Files) : result bytes FsError :=
  match read_fault p, f !! p with
  | Some e, _ => Err e
  | None, Some b => Ok b
  | None, None => Err (mkFsError (not_found p) true)
  end.

Definition write_file (p b : bytes) (f : Files) : result Files FsError :=
  match write_fault p with Some e => Err e | None => Ok (<[p := b]> f) end.

Definition delete_file (p : bytes) (f : Files) : result Files FsError :=
  match delete_fault p, f !! p with
  | Some e, _ => Err e
  | None, Some _ => Ok (delete p f)
  | None, None => Err (mkFsError (not_found p) true)
  end.

Definition ensure_parent_dirs (p : bytes) : result unit FsError :=
  match dirs_fault p with Some e => Err e | None => Ok tt end.

Definition read_file_as_string (p : bytes) (f : Files) : result bytes FsError :=
  match read_file p f with Ok b => Ok (from_utf8_lossy b) | Err e => Err e end.

End Disk.
