(* ===== verification/HunkTypes.v ===== *)
(** * Hunks and file contents

    [codegen/xai-hunk-tracker/src]: the data of the hunk tracker ([types.rs],
    [events.rs], [actor/state.rs]) and how the content of a file is classified
    ([actor/file_utils.rs]).  Time stamps and the selection flag of the interface,
    which no operation reads, are left out of a hunk. *)

From S2P Require Import Prelude RustStr StrFind Paths.

#[local] Open Scope nat_scope.

Definition Path : Type := bytes.
Definition HunkId : Type := bytes.

(** ** Hunks *)

(** Line numbers count from one. *)
Record HunkLineInfo := mkLines { old_start : nat; old_count : nat; new_start : nat; new_count : nat }.

#[export] Instance HunkLineInfo_eq_dec : EqDecision HunkLineInfo.
Proof. solve_decision. Defined.

Inductive HunkSource := AgentEdit (prompt_index : nat) | ExternalEditOnAgentFile | External.

#[export] Instance HunkSource_eq_dec : EqDecision HunkSource.
Proof. solve_decision. Defined.

Definition is_agent_edit (s : HunkSource) : bool := match s with AgentEdit _ => true | _ => false end.
Definition is_agent_tracked (s : HunkSource) : bool :=
  match s with AgentEdit _ | ExternalEditOnAgentFile => true | External => false end.
Definition is_external (s : HunkSource) : bool := match s with External | ExternalEditOnAgentFile => true | _ => false end.
Definition prompt_index (s : HunkSource) : option nat := match s with AgentEdit p => Some p | _ => None end.

Record Hunk := mkHunk {
  hunk_id : HunkId;
  hunk_path : Path;
  line_info : HunkLineInfo;
  source : HunkSource;
  old_text : option bytes;
  new_text : bytes;
  patch : option bytes;
}.

#[export] Instance Hunk_eq_dec : EqDecision Hunk.
Proof. solve_decision. Defined.

Definition with_id (i : HunkId) (h : Hunk) : Hunk :=
  mkHunk i (hunk_path h) (line_info h) (source h) (old_text h) (new_text h) (patch h).
Definition with_source (s : HunkSource) (h : Hunk) : Hunk :=
  mkHunk (hunk_id h) (hunk_path h) (line_info h) s (old_text h) (new_text h) (patch h).
Definition with_path (p : Path) (h : Hunk) : Hunk :=
  mkHunk (hunk_id h) p (line_info h) (source h) (old_text h) (new_text h) (patch h).
Definition with_patch (p : option bytes) (h : Hunk) : Hunk :=
  mkHunk (hunk_id h) (hunk_path h) (line_info h) (source h) (old_text h) (new_text h) p.

Definition file_created (i : HunkId) (path : Path) (content : bytes) (s : HunkSource) : Hunk :=
  mkHunk i path (mkLines 0 0 1 (Nat.max 1 (length (lines content)))) s None content None.

Definition file_deleted (i : HunkId) (path : Path) (content : bytes) (s : HunkSource) : Hunk :=
  mkHunk i path (mkLines 1 (Nat.max 1 (length (lines content))) 0 0) s (Some content) [] None.

Inductive HunkAction := Accept | Reject.

Inductive HunkActionError := HunkNotFound (i : HunkId) | WriteError (p : Path) | DeleteError (p : Path).

Inductive HunkSourceFilter := FilterAgent | FilterExternal.

Inductive TrackingMode := AgentOnly | AllDirty.

#[export] Instance TrackingMode_eq_dec : EqDecision TrackingMode.
Proof. solve_decision. Defined.

(** Counters of 64 bits. *)
Record SessionStats := mkStats {
  accepted_hunks : N;
  rejected_hunks : N;
  accepted_lines_added : N;
  accepted_lines_removed : N;
  rejected_lines_added : N;
  rejected_lines_removed : N;
}.

Definition no_stats : SessionStats := mkStats 0 0 0 0 0 0.

(** ** Events *)

Inductive HunkRemovalReason := Accepted | Rejected | Superseded.

Inductive HunkEvent :=
| HunkAdded (path : Path) (h : Hunk)
| HunkRemoved (path : Path) (i : HunkId) (reason : HunkRemovalReason)
| HunkMoved (path : Path) (i : HunkId) (info : HunkLineInfo)
| HunkContentChanged (path : Path) (h : Hunk) (trigger : HunkSource) (prev_added prev_removed : nat)
| FileAdded (path : Path) (is_agent : bool)
| FileRemoved (path : Path)
| BaselineUpdated (path : Path).

(** ** File contents *)

Definition MAX_TRACKED_TEXT_BYTES : N := 1024 * 1024.

Inductive FileContentState :=
| Missing
| Binary (len : option N)
| TooLarge (len : N)
| LfsPointer (len : N)
| Symlink
| Full (text : bytes).

#[export] Instance FileContentState_eq_dec : EqDecision FileContentState.
Proof. solve_decision. Defined.

Definition as_str (c : FileContentState) : option bytes := match c with Full s => Some s | _ => None end.
Definition is_diffable (c : FileContentState) : bool := match c with Full _ => true | _ => false end.

Definition byte_count (s : bytes) : N := N.of_nat (length s).

Definition content_byte_len (c : FileContentState) : option N :=
  match c with
  | Missing => Some 0%N
  | Binary len => len
  | TooLarge len | LfsPointer len => Some len
  | Symlink => None
  | Full s => Some (byte_count s)
  end.

Inductive FileContentStatus := SMissing | SBinary | STooLarge | SLfsPointer | SSymlink | SFull.

Record FileContentView := mkView { view_status : FileContentStatus; view_len : option N; view_content : option bytes }.

(** [FileContentView::from_content_state] *)
Definition from_content_state (c : FileContentState) : FileContentView :=
  match c with
  | Missing => mkView SMissing None None
  | Binary len => mkView SBinary len None
  | TooLarge len => mkView STooLarge (Some len) None
  | LfsPointer len => mkView SLfsPointer (Some len) None
  | Symlink => mkView SSymlink None None
  | Full s => mkView SFull (Some (byte_count s)) (Some s)
  end.

Definition LFS_POINTER_PREFIX : bytes := $"version https://git-lfs.github.com/spec/v1" ++ [newline].

Definition is_lfs_pointer (b : bytes) : bool := (byte_count b <? 1024)%N && starts_with LFS_POINTER_PREFIX b.

Definition BINARY_PREFIX : N := 8000.

Definition is_binary (b : bytes) : bool := existsb (fun a => code a =? 0) (take (N.to_nat BINARY_PREFIX) b).

Definition text_or_binary (b : bytes) : FileContentState :=
  if is_utf8 b then Full b else Binary (Some (byte_count b)).

Definition classify_bytes (b : bytes) : FileContentState :=
  if (MAX_TRACKED_TEXT_BYTES <? byte_count b)%N then TooLarge (byte_count b)
  else if is_lfs_pointer b then LfsPointer (byte_count b)
  else if is_binary b then Binary (Some (byte_count b))
  else text_or_binary b.

(** A [String] is UTF-8 already. *)
Definition classify_string (s : bytes) : FileContentState :=
  if (MAX_TRACKED_TEXT_BYTES <? byte_count s)%N then TooLarge (byte_count s)
  else if is_lfs_pointer s then LfsPointer (byte_count s)
  else if is_binary s then Binary (Some (byte_count s))
  else Full s.

(** What the disk answers for a path: the metadata, whether it opens, what the first
    read returns and what [read_to_end] adds. *)
Record DiskFile := mkFile {
  is_link : bool;
  file_len : N;
  opens : bool;
  first_read : nat → option bytes;
  rest_read : option bytes;
}.

(** [read_file_bounded] *)
Definition read_file_bounded (f : option DiskFile) : FileContentState :=
  match f with
  | None => Missing
  | Some f =>
      if is_link f then Symlink
      else if (MAX_TRACKED_TEXT_BYTES <? file_len f)%N then TooLarge (file_len f)
      else if negb (opens f) then Missing
      else
        let prefix_size := N.min BINARY_PREFIX (file_len f) in
        match first_read f (N.to_nat prefix_size) with
        | None => Missing
        | Some prefix =>
            if is_lfs_pointer prefix then LfsPointer (file_len f)
            else if is_binary prefix then Binary (Some (file_len f))
            else
              let all := if (prefix_size <? file_len f)%N then r ← rest_read f; Some (prefix ++ r) else Some prefix in
              match all with
              | None => Missing
              | Some all => if is_utf8 all then Full all else Binary (Some (file_len f))
              end
        end
  end.

(** A regular file with the given bytes, read whole. *)
Definition plain_file (b : bytes) : DiskFile :=
  mkFile false (byte_count b) true (fun n => Some (take n b)) (Some (drop (N.to_nat BINARY_PREFIX) b)).

(** ** The state of a file *)

Record FileHunkState := mkState {
  baseline : FileContentState;
  current_content : FileContentState;
  hunks : list Hunk;
  is_agent_file : bool;
  baseline_accepted : bool;
}.

Definition with_baseline (b : FileContentState) (s : FileHunkState) : FileHunkState :=
  mkState b (current_content s) (hunks s) (is_agent_file s) (baseline_accepted s).
Definition with_current (c : FileContentState) (s : FileHunkState) : FileHunkState :=
  mkState (baseline s) c (hunks s) (is_agent_file s) (baseline_accepted s).
Definition with_hunks (hs : list Hunk) (s : FileHunkState) : FileHunkState :=
  mkState (baseline s) (current_content s) hs (is_agent_file s) (baseline_accepted s).
Definition with_agent_file (b : bool) (s : FileHunkState) : FileHunkState :=
  mkState (baseline s) (current_content s) (hunks s) b (baseline_accepted s).
Definition with_accepted (b : bool) (s : FileHunkState) : FileHunkState :=
  mkState (baseline s) (current_content s) (hunks s) (is_agent_file s) b.

(** [HunkTrackerSnapshot] and [HunkTurnDelta]; a file's snapshot has the fields of its
    state. *)
Record HunkTrackerSnapshot := mkSnapshot {
  snap_files : gmap Path FileHunkState;
  snap_turns : gmap nat (gset HunkId);
  snap_stats : SessionStats;
}.

Record HunkTurnDelta := mkDelta {
  delta_prompt : nat;
  delta_files : gmap Path FileHunkState;
  delta_ids : gset HunkId;
}.

(** [rewrite_single_path] *)
Definition rewrite_single_path (path old_cwd canonical_old new_cwd : Path) : option Path :=
  let relative := match path_strip_prefix path canonical_old with
                  | Some r => Some r
                  | None => path_strip_prefix path old_cwd
                  end in
  r ← relative; Some (push new_cwd r).

(** [HunkTrackerSnapshot::rewrite_paths]; of two paths that are rewritten to one the
    last in the map's order stays. *)
Definition rewrite_paths (old_cwd canonical_old new_cwd : Path) (s : HunkTrackerSnapshot) : HunkTrackerSnapshot :=
  let moved := map (fun '(path, st) =>
    let target := default path (rewrite_single_path path old_cwd canonical_old new_cwd) in
    (target, with_hunks (map (with_path target) (hunks st)) st)) (map_to_list (snap_files s)) in
  mkSnapshot (fold_left (fun m '(p, st) => <[p := st]> m) moved ∅) (snap_turns s) (snap_stats s).
