(* ===== verification/HunkDiff.v ===== *)
(** * Diffing and patching

    [codegen/xai-hunk-tracker/src/diff.rs]: hunks out of a line diff, their patches,
    replacing lines of a text, and matching the hunks of two diffs.  The diff itself
    is the [similar] crate's and a parameter. *)

From S2P Require Import Prelude RustStr StrFind HunkTypes.

#[local] Open Scope nat_scope.

Inductive ChangeTag := Equal | Delete | Insert.

#[export] Instance ChangeTag_eq_dec : EqDecision ChangeTag.
Proof. solve_decision. Defined.

(** One line of a diff, with its line end. *)
Definition Change : Type := ChangeTag * bytes.

(** [TextDiff::diff_lines], [None] when it ran into its time limit; and the unified
    form of a diff. *)
Class DiffEnv := {
  diff_lines : bytes → bytes → option (list Change);
  unified_diff : Path → bytes → bytes → bytes;
}.

Definition CONTEXT_LINES : nat := 3.
Definition MAX_DIFF_FILE_SIZE : N := 1024 * 1024.

Definition too_large (baseline current : bytes) : bool :=
  (MAX_DIFF_FILE_SIZE <? byte_count baseline)%N || (MAX_DIFF_FILE_SIZE <? byte_count current)%N.

(** [generate_unified_patch] *)
Definition generate_unified_patch `{DiffEnv} (path : Path) (baseline current : bytes) : option bytes :=
  if baseline =b current then None
  else if too_large baseline current then None
  else
    match diff_lines baseline current with
    | None => None
    | Some _ => let unified := unified_diff path baseline current in if unified =b [] then None else Some unified
    end.

(** ** Building hunks *)

(** [HunkBuilder], its lines in order. *)
Record HunkBuilder := mkBuilder { at_old : nat; at_new : nat; old_lines : list bytes; new_lines : list bytes }.

Definition add_old_line (line : bytes) (b : HunkBuilder) : HunkBuilder :=
  mkBuilder (at_old b) (at_new b) (old_lines b ++ [line]) (new_lines b).
Definition add_new_line (line : bytes) (b : HunkBuilder) : HunkBuilder :=
  mkBuilder (at_old b) (at_new b) (old_lines b) (new_lines b ++ [line]).

Definition build (i : HunkId) (path : Path) (s : HunkSource) (b : HunkBuilder) : Hunk :=
  mkHunk i path (mkLines (at_old b) (length (old_lines b)) (at_new b) (length (new_lines b))) s
    (match old_lines b with [] => None | _ => Some (concat (old_lines b)) end) (concat (new_lines b)) None.

(** The loop over the changes; it finishes builders in order. *)
Fixpoint builders (old_line new_line : nat) (open : option HunkBuilder) (cs : list Change) : list HunkBuilder :=
  match cs with
  | [] => match open with Some b => [b] | None => [] end
  | (Equal, _) :: cs =>
      match open with Some b => [b] | None => [] end ++ builders (S old_line) (S new_line) None cs
  | (Delete, v) :: cs =>
      builders (S old_line) new_line (Some (add_old_line v (default (mkBuilder old_line new_line [] []) open))) cs
  | (Insert, v) :: cs =>
      builders old_line (S new_line) (Some (add_new_line v (default (mkBuilder old_line new_line [] []) open))) cs
  end.

Definition hunk_builders (cs : list Change) : list HunkBuilder := builders 1 1 None cs.

(** [compute_hunks]; the identifiers come from the random source, one per hunk. *)
Definition compute_hunks `{DiffEnv} (ids : nat → HunkId) (path : Path) (baseline current : bytes) (s : HunkSource)
  : list Hunk :=
  if baseline =b current then []
  else if too_large baseline current then []
  else
    match diff_lines baseline current with
    | None => []
    | Some cs => imap (fun n b => build (ids n) path s b) (hunk_builders cs)
    end.

(** ** Patches *)

(** [lines.iter().skip(a).take(b - a)] where they exist. *)
Definition window (ls : list bytes) (a b : nat) : list bytes := take (b - a) (drop a ls).

Definition prefixed (c : ascii) (l : bytes) : bytes := c :: l ++ [newline].

Definition show_nat (n : nat) : bytes := show_decimal (N.of_nat n).

Definition hunk_header (old_start old_count new_start new_count : nat) : bytes :=
  $"@@ -" ++ show_nat old_start ++ $"," ++ show_nat old_count ++ $" +" ++ show_nat new_start ++ $","
  ++ show_nat new_count ++ $" @@".

(** Subtraction of unsigned integers: [None] below zero. *)
Definition sub_checked (a b : nat) : option nat := if a <? b then None else Some (a - b).

(** [generate_hunk_patch]; [None] when a hunk reaches past the end of its text, where
    the subtraction of the source panics (or wraps around without overflow checks). *)
Definition generate_hunk_patch (baseline current : bytes) (h : Hunk) : option bytes :=
  let old := lines baseline in
  let new := lines current in
  let info := line_info h in
  let old_start_idx := old_start info - 1 in
  let new_start_idx := new_start info - 1 in
  let before_start := old_start_idx - CONTEXT_LINES in
  let changes_end_new := new_start_idx + new_count info in
  let after_end := Nat.min (changes_end_new + CONTEXT_LINES) (length new) in
  let changes_end_old := old_start_idx + old_count info in
  let after_end_old := Nat.min (changes_end_old + CONTEXT_LINES) (length old) in
  after_old ← sub_checked after_end_old changes_end_old;
  after_new ← sub_checked after_end changes_end_new;
  let total_old := old_start_idx - before_start + old_count info + after_old in
  let total_new := old_start_idx - before_start + new_count info + after_new in
  Some (hunk_header (before_start + 1) total_old (before_start + 1) total_new ++ [newline]
  ++ concat (map (prefixed " ") (window old before_start old_start_idx))
  ++ concat (map (prefixed "-") (default [] (lines <$> old_text h)))
  ++ concat (map (prefixed "+") (lines (new_text h)))
  ++ concat (map (prefixed " ") (window new changes_end_new after_end))).

(** [format_unified_diff] *)
Definition format_unified_diff (h : Hunk) : bytes :=
  let info := line_info h in
  $"--- a/" ++ hunk_path h ++ [newline] ++ $"+++ b/" ++ hunk_path h ++ [newline]
  ++ hunk_header (old_start info) (old_count info) (new_start info) (new_count info) ++ [newline]
  ++ concat (map (prefixed "-") (default [] (lines <$> old_text h)))
  ++ concat (map (prefixed "+") (lines (new_text h))).

(** [patch_lines] *)
Definition patch_lines (content : bytes) (start_line remove_count : nat) (insert_text : bytes) : bytes :=
  let ls := lines content in
  let start_idx := start_line - 1 in
  let result := take (Nat.min start_idx (length ls)) ls
                ++ (if insert_text =b [] then [] else lines insert_text)
                ++ drop (Nat.min (start_idx + remove_count) (length ls)) ls in
  let output := join [newline] result in
  if ends_with [newline] content && negb (output =b []) then output ++ [newline] else output.

(** A hunk put into the baseline, and taken out of the current text. *)
Definition apply_hunk (h : Hunk) (baseline : bytes) : bytes :=
  patch_lines baseline (old_start (line_info h)) (old_count (line_info h)) (new_text h).
Definition revert_hunk (h : Hunk) (current : bytes) : bytes :=
  patch_lines current (new_start (line_info h)) (new_count (line_info h)) (default [] (old_text h)).

(** ** Matching hunks *)

Definition hunks_match_content (a b : Hunk) : bool :=
  (hunk_path a =b hunk_path b) && bool_decide (old_text a = old_text b) && (new_text a =b new_text b).

Definition hunk_moved (old new : Hunk) : bool :=
  hunks_match_content old new && negb (bool_decide (line_info old = line_info new)).

Definition hunks_overlap (a b : Hunk) : bool :=
  if negb (hunk_path a =b hunk_path b) then false
  else
    let a_start := old_start (line_info a) in
    let a_count := old_count (line_info a) in
    let b_start := old_start (line_info b) in
    let b_count := old_count (line_info b) in
    let a_end := a_start + a_count in
    let b_end := b_start + b_count in
    if (a_count =? 0) && (b_count =? 0) then a_start =? b_start
    else if a_count =? 0 then (b_start <=? a_start) && (a_start <=? b_end)
    else if b_count =? 0 then (a_start <=? b_start) && (b_start <=? a_end)
    else negb ((a_end <? b_start) || (b_end <? a_start)).

Definition calculate_overlap_size (a b : HunkLineInfo) : nat :=
  Nat.min (old_start a + old_count a) (old_start b + old_count b) - Nat.max (old_start a) (old_start b).

Definition abs_diff (a b : nat) : nat := (a - b) + (b - a).

(** [min_by_key]: the first of the least; [max_by_key]: the last of the greatest. *)
Fixpoint min_by {A} (key : A → nat) (l : list A) : option A :=
  match l with
  | [] => None
  | x :: l => match min_by key l with
              | Some y => if key y <? key x then Some y else Some x
              | None => Some x
              end
  end.

Fixpoint max_by {A} (key : A → nat) (l : list A) : option A :=
  match l with
  | [] => None
  | x :: l => match max_by key l with
              | Some y => if key x <=? key y then Some y else Some x
              | None => Some x
              end
  end.

Definition find_matching_old_hunk (new : Hunk) (old : list Hunk) : option Hunk :=
  match List.filter (fun o => hunks_match_content o new) old with
  | [] => max_by (fun o => calculate_overlap_size (line_info o) (line_info new))
            (List.filter (fun o => hunks_overlap o new) old)
  | matches => min_by (fun o => abs_diff (new_start (line_info o)) (new_start (line_info new))) matches
  end.

Definition find_overlapping_hunks (new : Hunk) (old : list Hunk) : list Hunk :=
  List.filter (fun o => hunks_overlap o new) old.

(** [sort_by_key] with [Reverse]: stable, descending. *)
Section SortDesc.
Context {A : Type} (key : A → nat).

Fixpoint insert_desc (x : A) (l : list A) : list A :=
  match l with
  | [] => [x]
  | y :: r => if key x <=? key y then y :: insert_desc x r else x :: l
  end.

Definition sort_desc (l : list A) : list A := foldl (fun acc x => insert_desc x acc) [] l.

End SortDesc.

(** ** Examples *)

Example patch_replaces : patch_lines ($"a" ++ [newline] ++ $"b" ++ [newline]) 2 1 ($"c" ++ [newline]) = $"a" ++ [newline] ++ $"c" ++ [newline].
Proof. by vm_compute. Qed.

Example builders_of_changes :
  hunk_builders [(Equal, $"a"); (Delete, $"b"); (Insert, $"c"); (Insert, $"d"); (Equal, $"e"); (Insert, $"f")]
  = [mkBuilder 2 2 [$"b"] [$"c"; $"d"]; mkBuilder 4 5 [] [$"f"]].
Proof. by vm_compute. Qed.
