(* ===== verification/DiffLaws.v ===== *)
(** * Laws of hunks and patches

    The hunks of a diff, applied as patches from the end of the text to its start,
    lead from one side of the diff to the other and back. *)

From S2P Require Import Prelude RustStr StrFind TextLines HunkTypes HunkDiff.

#[local] Open Scope nat_scope.

(** ** Patches of texts *)

(** A patch of complete lines is a splice, unless the result is no line or a blank one. *)
Lemma patch_text (ws ins : list bytes) (start n : nat) :
  Forall clean ws → Forall clean ins → ws ≠ [] → splice (start - 1) n ins ws ≠ [[]] →
  patch_lines (text ws) start n (text ins) = text (splice (start - 1) n ins ws).
Proof.
  intros Hw Hi Hne Hr. unfold patch_lines. rewrite lines_text by done.
  assert ((if text ins =b [] then [] else lines (text ins)) = ins) as ->.
  { destruct (bool_decide_reflect (text ins = [])) as [E|E]; unfold beq.
    - rewrite bool_decide_eq_true_2 by done. by apply text_nil in E.
    - rewrite bool_decide_eq_false_2 by done. by apply lines_text. }
  rewrite take_min, drop_min. fold (splice (start - 1) n ins ws). revert Hr. generalize (splice (start - 1) n ins ws).
  intros r Hr. destruct ws as [|w ws]; [done|]. rewrite text_ends. destruct r as [|v r]; [done|].
  assert (join [newline] (v :: r) ≠ []) as Hj by (destruct r as [|u r]; [intros E; change (v = []) in E; by subst v|by destruct v]).
  rewrite (proj2 (beq_false _ _) Hj). apply join_ended.
Qed.

(** ** Sorting from the end *)

Lemma insert_desc_front {A} (key : A → nat) (x : A) (l : list A) :
  Forall (fun y => key y < key x) l → insert_desc key x l = x :: l.
Proof. destruct 1 as [|y l Hy _]; [done|]. simpl. by destruct (Nat.leb_spec (key x) (key y)); [lia|]. Qed.

(** A list that strictly ascends is only turned around. *)
Lemma sort_desc_ascending {A} (key : A → nat) (l : list A) :
  StronglySorted (fun x y => key x < key y) l → sort_desc key l = reverse l.
Proof.
  intros Hs. unfold sort_desc. assert (∀ acc, Forall (fun y => Forall (fun x => key y < key x) l) acc →
    foldl (fun acc x => insert_desc key x acc) acc l = reverse l ++ acc) as Hgo; [|by rewrite Hgo, app_nil_r].
  induction Hs as [|x l Hl IH Hx]; intros acc Ha; simpl; [done|].
  rewrite insert_desc_front by (eapply Forall_impl; [exact Ha|]; by intros y Hy; inversion Hy).
  rewrite IH, reverse_cons, <-app_assoc; [done|]. constructor; [done|].
  eapply Forall_impl; [exact Ha|]. intros y Hy. by inversion Hy.
Qed.

(** ** The hunks of a diff *)

(** The texts of a diff: what it says of the lines of each side. *)
Definition old_side (cs : list Change) : list bytes :=
  omap (fun c => match c.1 with Equal | Delete => Some c.2 | Insert => None end) cs.
Definition new_side (cs : list Change) : list bytes :=
  omap (fun c => match c.1 with Equal | Insert => Some c.2 | Delete => None end) cs.

(** A builder as a change of line lists, in both directions. *)
Definition forward (b : HunkBuilder) (ws : list bytes) : list bytes :=
  splice (at_old b - 1) (length (old_lines b)) (new_lines b) ws.
Definition backward (b : HunkBuilder) (ws : list bytes) : list bytes :=
  splice (at_new b - 1) (length (new_lines b)) (old_lines b) ws.

Definition pending_old (open : option HunkBuilder) : list bytes := match open with Some b => old_lines b | None => [] end.
Definition pending_new (open : option HunkBuilder) : list bytes := match open with Some b => new_lines b | None => [] end.
Definition pending_list (open : option HunkBuilder) : list HunkBuilder := match open with Some b => [b] | None => [] end.

Definition open_at (open : option HunkBuilder) (k j : nat) : Prop :=
  match open with Some b => at_old b = S k ∧ at_new b = S j | None => True end.

Lemma splice_middle (P o w Q : list bytes) : splice (length P) (length o) w (P ++ o ++ Q) = P ++ w ++ Q.
Proof.
  unfold splice. rewrite take_app_length. f_equal. f_equal. rewrite (assoc_L (++)), drop_app_length'; [done|].
  by rewrite length_app.
Qed.

Lemma forward_open (open : option HunkBuilder) (P Q : list bytes) (k j : nat) :
  open_at open k j → k = length P →
  foldr forward (P ++ pending_old open ++ Q) (pending_list open) = P ++ pending_new open ++ Q.
Proof.
  destruct open as [b|]; [|done]. intros [Ho _] ->. simpl. unfold forward. rewrite Ho. simpl. rewrite Nat.sub_0_r.
  apply splice_middle.
Qed.

Lemma backward_open (open : option HunkBuilder) (P Q : list bytes) (k j : nat) :
  open_at open k j → j = length P →
  foldr backward (P ++ pending_new open ++ Q) (pending_list open) = P ++ pending_old open ++ Q.
Proof.
  destruct open as [b|]; [|done]. intros [_ Hn] ->. simpl. unfold backward. rewrite Hn. simpl. rewrite Nat.sub_0_r.
  apply splice_middle.
Qed.

(** Applied from the last to the first, the hunks lead from the old side to the new
    and back. *)
Lemma builders_apply (cs : list Change) (open : option HunkBuilder) (P R : list bytes) :
  open_at open (length P) (length R) →
  let bs := builders (S (length P + length (pending_old open))) (S (length R + length (pending_new open))) open cs in
  foldr forward (P ++ pending_old open ++ old_side cs) bs = P ++ pending_new open ++ new_side cs
  ∧ foldr backward (R ++ pending_new open ++ new_side cs) bs = R ++ pending_old open ++ old_side cs.
Proof.
  revert open P R. induction cs as [|[[| |] v] cs IH]; intros open P R Hat; simpl.
  - rewrite !app_nil_r. split.
    + pose proof (forward_open open P [] _ _ Hat eq_refl) as H. by rewrite !app_nil_r in H.
    + pose proof (backward_open open R [] _ _ Hat eq_refl) as H. by rewrite !app_nil_r in H.
  - (* an unchanged line *)
    destruct (IH None (P ++ pending_old open ++ [v]) (R ++ pending_new open ++ [v]) I) as [Hf Hb].
    rewrite !length_app in Hf, Hb. simpl in Hf, Hb. rewrite !Nat.add_0_r, !Nat.add_1_r, !Nat.add_succ_r in Hf, Hb.
    rewrite <-!app_assoc in Hf, Hb. simpl in Hf, Hb. rewrite !foldr_app. split.
    + rewrite Hf. by apply (forward_open open P _ _ _ Hat).
    + rewrite Hb. by apply (backward_open open R _ _ _ Hat).
  - (* a deleted line *)
    specialize (IH (Some (add_old_line v (default (mkBuilder (S (length P + length (pending_old open)))
      (S (length R + length (pending_new open))) [] []) open))) P R).
    destruct open as [b|]; simpl in *.
    + rewrite last_length, Nat.add_succ_r, <-!app_assoc in IH. apply (IH Hat).
    + rewrite !Nat.add_0_r in IH |- *. rewrite Nat.add_1_r in IH. by apply IH.
  - (* an inserted line *)
    specialize (IH (Some (add_new_line v (default (mkBuilder (S (length P + length (pending_old open)))
      (S (length R + length (pending_new open))) [] []) open))) P R).
    destruct open as [b|]; simpl in *.
    + rewrite last_length, Nat.add_succ_r, <-!app_assoc in IH. apply (IH Hat).
    + rewrite !Nat.add_0_r in IH |- *. rewrite Nat.add_1_r in IH. by apply IH.
Qed.

Lemma hunks_apply (cs : list Change) :
  foldr forward (old_side cs) (hunk_builders cs) = new_side cs
  ∧ foldr backward (new_side cs) (hunk_builders cs) = old_side cs.
Proof. exact (builders_apply cs None [] [] I). Qed.

(** Their positions strictly ascend on both sides. *)
Definition before (x y : HunkBuilder) : Prop := at_old x < at_old y ∧ at_new x < at_new y.

Definition from (k j : nat) (b : HunkBuilder) : Prop := k <= at_old b ∧ j <= at_new b.

Lemma builders_ascend (cs : list Change) (k j : nat) (open : option HunkBuilder) :
  (match open with Some b => at_old b <= k ∧ at_new b <= j | None => True end) →
  StronglySorted before (builders k j open cs)
  ∧ Forall (match open with Some b => from (at_old b) (at_new b) | None => from k j end) (builders k j open cs).
Proof.
  revert k j open. induction cs as [|[[| |] v] cs IH]; intros k j open Ho; simpl.
  - destruct open as [b|]; repeat constructor; done.
  - destruct (IH (S k) (S j) None I) as [Hs Hf]. destruct open as [b|]; simpl.
    + split; [constructor; [done|]|constructor; [by split|]]; eapply Forall_impl; [exact Hf| |exact Hf|];
        intros b' [? ?]; split; lia.
    + split; [done|]. eapply Forall_impl; [exact Hf|]. intros b' [? ?]. split; lia.
  - set (b := add_old_line v (default (mkBuilder k j [] []) open)).
    assert (at_old b = match open with Some b => at_old b | None => k end
            ∧ at_new b = match open with Some b => at_new b | None => j end) as [E1 E2] by (by destruct open).
    destruct (IH (S k) j (Some b)) as [Hs Hf]; [rewrite E1, E2; destruct open; lia|].
    split; [done|]. rewrite E1, E2 in Hf. by destruct open.
  - set (b := add_new_line v (default (mkBuilder k j [] []) open)).
    assert (at_old b = match open with Some b => at_old b | None => k end
            ∧ at_new b = match open with Some b => at_new b | None => j end) as [E1 E2] by (by destruct open).
    destruct (IH k (S j) (Some b)) as [Hs Hf]; [rewrite E1, E2; destruct open; lia|].
    split; [done|]. rewrite E1, E2 in Hf. by destruct open.
Qed.

(** Their lines are the lines of the diff, and every position lies in its text. *)
Lemma builders_lines (Q : bytes → Prop) (cs : list Change) (k j : nat) (open : option HunkBuilder) :
  Forall (fun c => Q c.2) cs → (match open with Some b => Forall Q (old_lines b) ∧ Forall Q (new_lines b) | None => True end) →
  Forall (fun b => Forall Q (old_lines b) ∧ Forall Q (new_lines b)) (builders k j open cs).
Proof.
  intros Hcs. revert k j open. induction Hcs as [|[[| |] v] cs Hv _ IH]; intros k j open Ho; simpl.
  - destruct open; [by apply Forall_singleton|constructor].
  - apply Forall_app. split; [destruct open; [by apply Forall_singleton|constructor]|by apply IH].
  - apply IH. destruct open as [b|]; simpl; [split; [apply Forall_app; split; [|repeat constructor]|]|]; try apply Ho;
      repeat constructor; done.
  - apply IH. destruct open as [b|]; simpl; [split; [|apply Forall_app; split; [|repeat constructor]]|]; try apply Ho;
      repeat constructor; done.
Qed.

(** ** Hunks as patches of texts *)

(** A line as a diff shows it: with its line feed, no other line end in it. *)
Definition complete_line (l : bytes) : Prop := ∃ w, l = ended w ∧ clean w.

Lemma complete_words (ls : list bytes) : Forall complete_line ls → ∃ ws, ls = map ended ws ∧ Forall clean ws.
Proof.
  induction 1 as [|l ls (w & -> & Hw) _ (ws & -> & Hws)]; [by exists []|]. exists (w :: ws). split; [done|by constructor].
Qed.

Lemma splice_map (k n : nat) (ins ws : list bytes) :
  splice k n (map ended ins) (map ended ws) = map ended (splice k n ins ws).
Proof. unfold splice. by rewrite !map_app, <-firstn_map, <-skipn_map. Qed.

Lemma patch_complete (ls ins : list bytes) (start n : nat) :
  Forall complete_line ls → Forall complete_line ins → 2 + n <= length ls →
  patch_lines (concat ls) start n (concat ins) = concat (splice (start - 1) n ins ls).
Proof.
  intros (ws & -> & Hw)%complete_words (us & -> & Hi)%complete_words Hl. rewrite splice_map. rewrite length_map in Hl.
  apply patch_text; [done|done|intros ->; simpl in Hl; lia|]. intros E.
  pose proof (splice_length (start - 1) n us ws) as Hs. rewrite E in Hs. simpl in Hs. lia.
Qed.

(** A hunk that shows what a builder holds. *)
Definition shows (h : Hunk) (b : HunkBuilder) : Prop :=
  line_info h = mkLines (at_old b) (length (old_lines b)) (at_new b) (length (new_lines b))
  ∧ old_text h = match old_lines b with [] => None | _ => Some (concat (old_lines b)) end
  ∧ new_text h = concat (new_lines b).

Definition complete_builder (b : HunkBuilder) : Prop :=
  Forall complete_line (old_lines b) ∧ Forall complete_line (new_lines b).

Definition removed (hs : list Hunk) : nat := sum_list_with (fun h => old_count (line_info h)) hs.
Definition added (hs : list Hunk) : nat := sum_list_with (fun h => new_count (line_info h)) hs.

Lemma splice_complete (k n : nat) (ins ls : list bytes) :
  Forall complete_line ins → Forall complete_line ls → Forall complete_line (splice k n ins ls).
Proof. intros Hi Hl. apply Forall_app. split; [by apply Forall_take|]. apply Forall_app. split; [done|by apply Forall_drop]. Qed.

(** Two lines the hunks do not touch are enough for every stage to be a text again. *)
Lemma apply_hunks (hs : list Hunk) (bs : list HunkBuilder) (ls : list bytes) :
  Forall2 shows hs bs → Forall complete_builder bs → Forall complete_line ls → 2 + removed hs <= length ls →
  foldr apply_hunk (concat ls) hs = concat (foldr forward ls bs)
  ∧ Forall complete_line (foldr forward ls bs) ∧ length ls <= length (foldr forward ls bs) + removed hs.
Proof.
  intros Hs. induction Hs as [|h b hs bs (Hi & Ho & Hn) _ IH]; intros Hb Hl Hlen; simpl; [split_and!; [done|done|lia]|].
  inversion Hb as [|? ? [Hbo Hbn] Hbs]; subst. unfold removed in *. simpl in *.
  destruct IH as (E & Hc & Hlen'); [done|done|lia|]. rewrite E. clear E. revert Hc Hlen'.
  generalize (foldr forward ls bs). intros r Hc Hlen'. unfold apply_hunk, forward. rewrite Hi, Hn in *. simpl in *.
  split_and!.
  - apply patch_complete; [done|done|lia].
  - by apply splice_complete.
  - pose proof (splice_length (at_old b - 1) (length (old_lines b)) (new_lines b) r). lia.
Qed.

Lemma revert_hunks (hs : list Hunk) (bs : list HunkBuilder) (ls : list bytes) :
  Forall2 shows hs bs → Forall complete_builder bs → Forall complete_line ls → 2 + added hs <= length ls →
  foldr revert_hunk (concat ls) hs = concat (foldr backward ls bs)
  ∧ Forall complete_line (foldr backward ls bs) ∧ length ls <= length (foldr backward ls bs) + added hs.
Proof.
  intros Hs. induction Hs as [|h b hs bs (Hi & Ho & Hn) _ IH]; intros Hb Hl Hlen; simpl; [split_and!; [done|done|lia]|].
  inversion Hb as [|? ? [Hbo Hbn] Hbs]; subst. unfold added in *. simpl in *.
  destruct IH as (E & Hc & Hlen'); [done|done|lia|]. rewrite E. clear E. revert Hc Hlen'.
  generalize (foldr backward ls bs). intros r Hc Hlen'. unfold revert_hunk, backward. rewrite Hi, Ho in *. simpl in *.
  replace (default [] match old_lines b with [] => None | _ => Some (concat (old_lines b)) end) with (concat (old_lines b))
    by (by destruct (old_lines b)).
  split_and!.
  - apply patch_complete; [done|done|lia].
  - by apply splice_complete.
  - pose proof (splice_length (at_new b - 1) (length (new_lines b)) (old_lines b) r). lia.
Qed.

Lemma shows_build (ids : nat → HunkId) (path : Path) (s : HunkSource) (bs : list HunkBuilder) :
  Forall2 shows (imap (fun n b => build (ids n) path s b) bs) bs.
Proof. revert ids. induction bs as [|b bs IH]; intros ids; constructor; [done|]. apply (IH (ids ∘ S)). Qed.

(** What [similar] documents: the changes are the lines of both texts, in order and
    with their line ends. *)
Definition faithful_diff (b c : bytes) (cs : list Change) : Prop :=
  (plain_text b → old_side cs = map ended (lines b)) ∧ (plain_text c → new_side cs = map ended (lines c)).

Class DiffSpec `{DiffEnv} : Prop := diff_faithful b c cs : diff_lines b c = Some cs → faithful_diff b c cs.

Definition counts (f : HunkBuilder → list bytes) (bs : list HunkBuilder) : nat := sum_list_with (fun b => length (f b)) bs.

Lemma counts_app (f : HunkBuilder → list bytes) (a b : list HunkBuilder) : counts f (a ++ b) = counts f a + counts f b.
Proof. unfold counts. apply sum_list_with_app. Qed.

(** Both sides keep the same lines. *)
Lemma builders_count (cs : list Change) (k j : nat) (open : option HunkBuilder) :
  length (pending_old open) + length (old_side cs) + counts new_lines (builders k j open cs)
  = length (pending_new open) + length (new_side cs) + counts old_lines (builders k j open cs).
Proof.
  revert k j open. induction cs as [|[[| |] v] cs IH]; intros k j open; simpl.
  - destruct open; unfold counts; simpl; lia.
  - rewrite !counts_app. specialize (IH (S k) (S j) None). simpl in IH. destruct open; unfold counts in *; simpl; lia.
  - specialize (IH (S k) j (Some (add_old_line v (default (mkBuilder k j [] []) open)))).
    destruct open; simpl in IH |- *; rewrite ?last_length in IH; simpl in IH; lia.
  - specialize (IH k (S j) (Some (add_new_line v (default (mkBuilder k j [] []) open)))).
    destruct open; simpl in IH |- *; rewrite ?last_length in IH; simpl in IH; lia.
Qed.

Lemma shows_counts (hs : list Hunk) (bs : list HunkBuilder) :
  Forall2 shows hs bs → removed hs = counts old_lines bs ∧ added hs = counts new_lines bs.
Proof.
  unfold removed, added, counts. induction 1 as [|h b hs bs (Hi & _) _ [IH1 IH2]]; [done|]. simpl. rewrite Hi, IH1, IH2. done.
Qed.

Lemma complete_map (ws : list bytes) : Forall clean ws → Forall complete_line (map ended ws).
Proof. induction 1; constructor; [by eexists|done]. Qed.

Lemma sides_complete (cs : list Change) :
  Forall complete_line (old_side cs) → Forall complete_line (new_side cs) → Forall (fun c => complete_line c.2) cs.
Proof.
  induction cs as [|[[| |] v] cs IH]; simpl; [constructor| | |]; intros Ho Hn;
    try (inversion Ho; subst); try (inversion Hn; subst); constructor; auto.
Qed.

(** The hunks of a diff between texts of complete lines that leaves two of them alone:
    put into the baseline from the end they give the current text, and taken out of
    the current text they give the baseline. *)
Lemma hunks_settle (b c : bytes) (cs : list Change) (hs : list Hunk) :
  faithful_diff b c cs → plain_text b → plain_text c → Forall2 shows hs (hunk_builders cs) →
  2 + removed hs <= length (lines b) →
  foldr apply_hunk b hs = c ∧ foldr revert_hunk c hs = b.
Proof.
  intros [Ho Hn] Hb Hc Hs Hl. specialize (Ho Hb). specialize (Hn Hc). destruct Hb as [Eb Fb], Hc as [Ec Fc].
  assert (b = concat (old_side cs) ∧ c = concat (new_side cs)) as [Eb' Ec'] by (by rewrite Ho, Hn).
  assert (Forall complete_line (old_side cs) ∧ Forall complete_line (new_side cs)) as [Co Cn]
    by (rewrite Ho, Hn; split; by apply complete_map).
  assert (Forall complete_builder (hunk_builders cs)) as Cb
    by (apply (builders_lines complete_line); [by apply sides_complete|done]).
  assert (length (lines b) = length (old_side cs)) as Lb by (by rewrite Ho, length_map).
  destruct (shows_counts _ _ Hs) as [Er Ea]. pose proof (builders_count cs 1 1 None) as Hcount. simpl in Hcount.
  destruct (hunks_apply cs) as [Hf Hr].
  destruct (apply_hunks hs (hunk_builders cs) (old_side cs)) as [E1 _]; [done..|lia|].
  destruct (revert_hunks hs (hunk_builders cs) (new_side cs)) as [E2 _]; [done..|unfold hunk_builders in *; lia|].
  rewrite Hf in E1. rewrite Hr in E2. rewrite Eb', E1, Ec', E2. done.
Qed.

(** The order in which the tracker applies them. *)
Lemma shows_sorted (R : HunkBuilder → HunkBuilder → Prop) (key : Hunk → nat) (hs : list Hunk) (bs : list HunkBuilder) :
  (∀ h h' b b', shows h b → shows h' b' → R b b' → key h < key h') →
  Forall2 shows hs bs → StronglySorted R bs → StronglySorted (fun x y => key x < key y) hs.
Proof.
  intros HR Hs. induction Hs as [|h b hs bs Hhb Hs IH]; intros Hb; inversion Hb as [|? ? Hbs Hall]; subst; constructor; [auto|].
  clear -HR Hhb Hs Hall. induction Hs as [|h' b' hs bs Hh' _ IH]; inversion Hall; subst; constructor; eauto.
Qed.

Lemma sorted_fold {B} (f : Hunk → B → B) (key : Hunk → nat) (hs : list Hunk) (x : B) :
  StronglySorted (fun x y => key x < key y) hs → fold_left (fun t h => f h t) (sort_desc key hs) x = foldr f x hs.
Proof. intros Hs. rewrite sort_desc_ascending by done. unfold reverse. rewrite rev_append_rev, app_nil_r, <-fold_left_rev_right, rev_involutive. done. Qed.

Lemma hunks_ascend (cs : list Change) (hs : list Hunk) :
  Forall2 shows hs (hunk_builders cs) →
  StronglySorted (fun x y => old_start (line_info x) < old_start (line_info y)) hs
  ∧ StronglySorted (fun x y => new_start (line_info x) < new_start (line_info y)) hs.
Proof.
  intros Hs. destruct (builders_ascend cs 1 1 None I) as [Hb _]. split.
  - eapply (shows_sorted before (fun h => old_start (line_info h))); [|exact Hs|exact Hb].
    intros h h' b b' (-> & _) (-> & _) [? ?]. done.
  - eapply (shows_sorted before (fun h => new_start (line_info h))); [|exact Hs|exact Hb].
    intros h h' b b' (-> & _) (-> & _) [? ?]. done.
Qed.
