(* ===== verification/HunkTracker.v ===== *)
(** * The hunk tracker

    [codegen/xai-hunk-tracker/src/actor]: one actor owns the baseline, the current
    content and the pending hunks of every tracked file; it is told of agent writes and
    of file events, and it accepts or rejects hunks.  A command runs against the
    disk and the repository as they are then ([World]); what it sends and what it
    writes is recorded in [output], in order.

    The actor's hash maps are finite maps; where the source iterates over one, the
    order is the map's.  Paths are absolute and written in one way, so that equality
    of texts is equality of paths. *)

From S2P Require Import Prelude RustStr StrFind Paths HunkTypes HunkDiff.

#[local] Open Scope nat_scope.

(** ** The outside *)

(** An entry of the tree at HEAD. *)
Inductive HeadEntry := HeadLink | HeadBlob (b : bytes).

Record RepoSyncState := mkSync { head_oid : option bytes; index_mtime : option N }.

#[export] Instance RepoSyncState_eq_dec : EqDecision RepoSyncState.
Proof. solve_decision. Defined.

(** The disk and the repository during one command. *)
Record World := mkWorld {
  disk : Path → option DiskFile;
  path_exists : Path → bool;
  path_is_dir : Path → bool;
  (** the prefix of a working directory in its repository *)
  discover : Path → option Path;
  (** working directory, prefix and path *)
  head_entry : Path → Path → Path → option HeadEntry;
  (** changed paths relative to the repository, and whether each is staged; [None] when
      the status fails *)
  git_status : Path → Path → option (list Path) → option (list (Path * bool));
  sync_state : Path → RepoSyncState;
  write_ok : Path → bytes → bool;
  remove_ok : Path → bool;
}.

Inductive Output := Sent (e : HunkEvent) | Wrote (p : Path) (b : bytes) | Deleted (p : Path).

(** ** The state *)

Inductive GitRepoState := RepoUnknown | NotARepo | Discovered (prefix : Path).

#[export] Instance GitRepoState_eq_dec : EqDecision GitRepoState.
Proof. solve_decision. Defined.

Record HunkTrackerActor := mkActor {
  working_dir : Path;
  file_states : gmap Path FileHunkState;
  turn_index : gmap nat (gset HunkId);
  git_dirty_cache : gset Path;
  git_staged_cache : gset Path;
  git_repo_state : GitRepoState;
  repo_sync_state : RepoSyncState;
  mode : TrackingMode;
  session_stats : SessionStats;
  (** how many identifiers were drawn *)
  drawn : nat;
  output : list Output;
}.

Definition with_working_dir (x : Path) (a : HunkTrackerActor) : HunkTrackerActor :=
  mkActor x (file_states a) (turn_index a) (git_dirty_cache a) (git_staged_cache a) (git_repo_state a)
    (repo_sync_state a) (mode a) (session_stats a) (drawn a) (output a).
Definition with_files (x : gmap Path FileHunkState) (a : HunkTrackerActor) : HunkTrackerActor :=
  mkActor (working_dir a) x (turn_index a) (git_dirty_cache a) (git_staged_cache a) (git_repo_state a)
    (repo_sync_state a) (mode a) (session_stats a) (drawn a) (output a).
Definition with_turns (x : gmap nat (gset HunkId)) (a : HunkTrackerActor) : HunkTrackerActor :=
  mkActor (working_dir a) (file_states a) x (git_dirty_cache a) (git_staged_cache a) (git_repo_state a)
    (repo_sync_state a) (mode a) (session_stats a) (drawn a) (output a).
Definition with_caches (dirty staged : gset Path) (a : HunkTrackerActor) : HunkTrackerActor :=
  mkActor (working_dir a) (file_states a) (turn_index a) dirty staged (git_repo_state a)
    (repo_sync_state a) (mode a) (session_stats a) (drawn a) (output a).
Definition with_repo (x : GitRepoState) (a : HunkTrackerActor) : HunkTrackerActor :=
  mkActor (working_dir a) (file_states a) (turn_index a) (git_dirty_cache a) (git_staged_cache a) x
    (repo_sync_state a) (mode a) (session_stats a) (drawn a) (output a).
Definition with_sync (x : RepoSyncState) (a : HunkTrackerActor) : HunkTrackerActor :=
  mkActor (working_dir a) (file_states a) (turn_index a) (git_dirty_cache a) (git_staged_cache a) (git_repo_state a)
    x (mode a) (session_stats a) (drawn a) (output a).
Definition with_mode (x : TrackingMode) (a : HunkTrackerActor) : HunkTrackerActor :=
  mkActor (working_dir a) (file_states a) (turn_index a) (git_dirty_cache a) (git_staged_cache a) (git_repo_state a)
    (repo_sync_state a) x (session_stats a) (drawn a) (output a).
Definition with_stats (x : SessionStats) (a : HunkTrackerActor) : HunkTrackerActor :=
  mkActor (working_dir a) (file_states a) (turn_index a) (git_dirty_cache a) (git_staged_cache a) (git_repo_state a)
    (repo_sync_state a) (mode a) x (drawn a) (output a).
Definition with_drawn (x : nat) (a : HunkTrackerActor) : HunkTrackerActor :=
  mkActor (working_dir a) (file_states a) (turn_index a) (git_dirty_cache a) (git_staged_cache a) (git_repo_state a)
    (repo_sync_state a) (mode a) (session_stats a) x (output a).
Definition with_output (x : list Output) (a : HunkTrackerActor) : HunkTrackerActor :=
  mkActor (working_dir a) (file_states a) (turn_index a) (git_dirty_cache a) (git_staged_cache a) (git_repo_state a)
    (repo_sync_state a) (mode a) (session_stats a) (drawn a) x.

Definition no_sync : RepoSyncState := mkSync None None.

(** [HunkTrackerActor::new] *)
Definition new_actor (dir : Path) (m : TrackingMode) : HunkTrackerActor :=
  mkActor dir ∅ ∅ ∅ ∅ RepoUnknown no_sync m no_stats 0 [].

Definition send_event (e : HunkEvent) (a : HunkTrackerActor) : HunkTrackerActor := with_output (output a ++ [Sent e]) a.
Definition send_all (es : list HunkEvent) (a : HunkTrackerActor) : HunkTrackerActor := with_output (output a ++ map Sent es) a.

Definition set_file (p : Path) (s : FileHunkState) (a : HunkTrackerActor) : HunkTrackerActor :=
  with_files (<[p := s]> (file_states a)) a.
Definition update_file (p : Path) (f : FileHunkState → FileHunkState) (a : HunkTrackerActor) : HunkTrackerActor :=
  with_files (alter f p (file_states a)) a.
Definition tracked (p : Path) (a : HunkTrackerActor) : bool := bool_decide (is_Some (file_states a !! p)).

(** [tokio::fs::write] and [remove_file]; only what succeeds is recorded. *)
Definition write_file (w : World) (p : Path) (b : bytes) (a : HunkTrackerActor) : option HunkTrackerActor :=
  if write_ok w p b then Some (with_output (output a ++ [Wrote p b]) a) else None.
Definition remove_file (w : World) (p : Path) (a : HunkTrackerActor) : option HunkTrackerActor :=
  if remove_ok w p then Some (with_output (output a ++ [Deleted p]) a) else None.

(** ** The turn index *)

Definition turn_remove (i : HunkId) (s : HunkSource) (m : gmap nat (gset HunkId)) : gmap nat (gset HunkId) :=
  match prompt_index s with
  | Some p => match m !! p with Some ids => <[p := ids ∖ {[ i ]}]> m | None => m end
  | None => m
  end.

Definition turn_add (h : Hunk) (m : gmap nat (gset HunkId)) : gmap nat (gset HunkId) :=
  match prompt_index (source h) with
  | Some p => <[p := {[ hunk_id h ]} ∪ default ∅ (m !! p)]> m
  | None => m
  end.

Definition turns_remove (hs : list Hunk) (m : gmap nat (gset HunkId)) : gmap nat (gset HunkId) :=
  fold_left (fun m h => turn_remove (hunk_id h) (source h) m) hs m.
Definition turns_add (hs : list Hunk) (m : gmap nat (gset HunkId)) : gmap nat (gset HunkId) :=
  fold_left (fun m h => turn_add h m) hs m.

(** [remove_from_turn_index] *)
Definition remove_from_turn_index (i : HunkId) (s : HunkSource) (a : HunkTrackerActor) : HunkTrackerActor :=
  with_turns (turn_remove i s (turn_index a)) a.

(** ** Recomputation: [hunks.rs] *)

(** New hunks take over the identifier of the old hunk they match, each old one once;
    an external edit keeps the attribution to the agent. *)
Fixpoint claim (old : list Hunk) (claimed : gset HunkId) (new : list Hunk) : list Hunk :=
  match new with
  | [] => []
  | h :: new =>
      match find_matching_old_hunk h old with
      | Some m =>
          if bool_decide (hunk_id m ∈ claimed) then h :: claim old claimed new
          else
            let h := with_id (hunk_id m) h in
            let h := if is_external (source h) && is_agent_edit (source m) then with_source (source m) h else h in
            h :: claim old ({[ hunk_id m ]} ∪ claimed) new
      | None => h :: claim old claimed new
      end
  end.

(** [emit_hunk_diff_events] *)
Definition removed_events (path : Path) (old new : list Hunk) : list HunkEvent :=
  omap (fun o => if existsb (fun n => hunks_overlap o n || hunks_match_content o n) new then None
                 else Some (HunkRemoved path (hunk_id o) Superseded)) old.

Definition changed_event (path : Path) (old : list Hunk) (trigger : HunkSource) (n : Hunk) : option HunkEvent :=
  match List.find (fun o => hunks_match_content o n) old with
  | Some o => if hunk_moved o n then Some (HunkMoved path (hunk_id o) (line_info n)) else None
  | None =>
      if negb (existsb (fun o => hunks_overlap o n) old) then Some (HunkAdded path n)
      else
        let prev := match List.find (fun o => hunk_id o =b hunk_id n) old with
                    | Some o => Some o
                    | None => List.find (fun o => hunks_overlap o n) old
                    end in
        Some (HunkContentChanged path n trigger (default 0 ((fun o => new_count (line_info o)) <$> prev))
                (default 0 ((fun o => old_count (line_info o)) <$> prev)))
  end.

Definition diff_events (path : Path) (old new : list Hunk) (trigger : HunkSource) : list HunkEvent :=
  removed_events path old new ++ omap (changed_event path old trigger) new.

Section Handlers.
Context `{DiffEnv} (uuid : nat → HunkId).

Definition hunks_between (ids : nat → HunkId) (path : Path) (b c : FileContentState) (s : HunkSource) : list Hunk :=
  match b, c with
  | Full b, Full c => compute_hunks ids path b c s
  | Full b, Missing => if b =b [] then [] else [file_deleted (ids 0) path b s]
  | Missing, Full c => if c =b [] then [] else [file_created (ids 0) path c s]
  | _, _ => []
  end.

(** [recompute_hunks] *)
Definition recompute_hunks (path : Path) (new_current : option FileContentState) (s : HunkSource) (a : HunkTrackerActor)
  : HunkTrackerActor :=
  match file_states a !! path with
  | None => a
  | Some st =>
      let old := hunks st in
      let current := default Missing new_current in
      let fresh := hunks_between (fun n => uuid (drawn a + n)) path (baseline st) current s in
      let new := claim old ∅ fresh in
      let a := with_drawn (drawn a + length fresh) a in
      let a := set_file path (with_hunks new (with_current current st)) a in
      let a := with_turns (turns_add new (turns_remove old (turn_index a))) a in
      send_all (diff_events path old new s) a
  end.

(** The source that a recomputation after an action uses: the first remaining hunk's. *)
Definition remaining_source (path : Path) (a : HunkTrackerActor) : HunkSource :=
  default External (st ← file_states a !! path; h ← hd_error (hunks st); Some (source h)).

(** ** Actions: [actions.rs] *)

Definition update_session_stats (info : HunkLineInfo) (accepted : bool) (a : HunkTrackerActor) : HunkTrackerActor :=
  let s := session_stats a in
  let plus x n := saturating_add x (N.of_nat n) in
  with_stats
    (if accepted then
       mkStats (plus (accepted_hunks s) 1) (rejected_hunks s) (plus (accepted_lines_added s) (new_count info))
         (plus (accepted_lines_removed s) (old_count info)) (rejected_lines_added s) (rejected_lines_removed s)
     else
       mkStats (accepted_hunks s) (plus (rejected_hunks s) 1) (accepted_lines_added s) (accepted_lines_removed s)
         (plus (rejected_lines_added s) (new_count info)) (plus (rejected_lines_removed s) (old_count info))) a.

(** [state.hunks.retain(..)] for the hunks of an action. *)
Definition drop_hunks (ids : list HunkId) (st : FileHunkState) : FileHunkState :=
  with_hunks (List.filter (fun h => negb (bool_decide (hunk_id h ∈ ids))) (hunks st)) st.

Definition removal_events (path : Path) (hs : list Hunk) (reason : HunkRemovalReason) : list HunkEvent :=
  map (fun h => HunkRemoved path (hunk_id h) reason) hs.

(** [accept_hunks_batch]; [accept_hunk] is the batch of one hunk. *)
Definition accept_hunks (path : Path) (hs : list Hunk) (a : HunkTrackerActor) : HunkTrackerActor :=
  match hs, file_states a !! path with
  | [], _ | _, None => a
  | _, Some st =>
      let ids := map hunk_id hs in
      let sent := removal_events path hs Accepted ++ [BaselineUpdated path] in
      if bool_decide (baseline st = Missing) then
        send_all sent (set_file path (drop_hunks ids (with_accepted true (with_baseline (current_content st) st))) a)
      else
        let patched := fold_left (fun b h => match b with Full t => Full (apply_hunk h t) | b => b end)
                         (sort_desc (fun h => old_start (line_info h)) hs) (baseline st) in
        let a := send_all sent (set_file path (drop_hunks ids (with_accepted true (with_baseline patched st))) a) in
        recompute_hunks path (Some (current_content st)) (remaining_source path a) a
  end.

(** [reject_hunks_batch] *)
Definition reject_hunks (w : World) (path : Path) (hs : list Hunk) (a : HunkTrackerActor)
  : result unit HunkActionError * HunkTrackerActor :=
  match hs, file_states a !! path with
  | [], _ | _, None => (Ok tt, a)
  | _, Some st =>
      let ids := map hunk_id hs in
      let sent := removal_events path hs Rejected in
      match current_content st, baseline st with
      | Missing, Full b =>
          match write_file w path b a with
          | None => (Err (WriteError path), a)
          | Some a => (Ok tt, send_all sent (set_file path (drop_hunks ids (with_current (Full b) st)) a))
          end
      | Full _, Missing =>
          match remove_file w path a with
          | None => (Err (DeleteError path), a)
          | Some a => (Ok tt, send_all sent (set_file path (drop_hunks ids (with_current Missing st)) a))
          end
      | Full c, _ =>
          let patched := fold_left (fun t h => revert_hunk h t) (sort_desc (fun h => new_start (line_info h)) hs) c in
          match write_file w path patched a with
          | None => (Err (WriteError path), a)
          | Some a =>
              let a := send_all sent (set_file path (drop_hunks ids (with_current (Full patched) st)) a) in
              (Ok tt, recompute_hunks path (Some (Full patched)) (remaining_source path a) a)
          end
      | _, _ => (Ok tt, a)
      end
  end.

(** [accept_hunk] and [reject_hunk] *)
Definition accept_hunk (path : Path) (h : Hunk) : HunkTrackerActor → HunkTrackerActor := accept_hunks path [h].
Definition reject_hunk (w : World) (path : Path) (h : Hunk)
  : HunkTrackerActor → result unit HunkActionError * HunkTrackerActor := reject_hunks w path [h].

(** The bookkeeping of one hunk before the action. *)
Definition note_action (action : HunkAction) (h : Hunk) (a : HunkTrackerActor) : HunkTrackerActor :=
  remove_from_turn_index (hunk_id h) (source h)
    (update_session_stats (line_info h) (match action with Accept => true | Reject => false end) a).

Definition act (w : World) (action : HunkAction) (path : Path) (hs : list Hunk) (a : HunkTrackerActor)
  : result unit HunkActionError * HunkTrackerActor :=
  match action with Accept => (Ok tt, accept_hunks path hs a) | Reject => reject_hunks w path hs a end.

Definition find_hunk (i : HunkId) (a : HunkTrackerActor) : option (Path * Hunk) :=
  hd_error (omap (fun '(p, st) => h ← List.find (fun h => hunk_id h =b i) (hunks st); Some (p, h))
              (map_to_list (file_states a))).

(** [apply_hunk_action] *)
Definition apply_hunk_action (w : World) (i : HunkId) (action : HunkAction) (a : HunkTrackerActor)
  : result unit HunkActionError * HunkTrackerActor :=
  match find_hunk i a with
  | None => (Err (HunkNotFound i), a)
  | Some (path, h) => act w action path [h] (note_action action h a)
  end.

(** [apply_action_batch]: the identifiers of the hunks of every file, until one fails. *)
Fixpoint apply_action_batch (w : World) (files : list (Path * list Hunk)) (action : HunkAction) (affected : list HunkId)
    (a : HunkTrackerActor) : result (list HunkId) HunkActionError * HunkTrackerActor :=
  match files with
  | [] => (Ok affected, a)
  | (path, hs) :: files =>
      let a := fold_left (fun a h => note_action action h a) hs a in
      let '(r, a) := act w action path hs a in
      match r with
      | Err e => (Err e, a)
      | Ok _ => apply_action_batch w files action (affected ++ map hunk_id hs) a
      end
  end.

Definition apply_file_action (w : World) (path : Path) (action : HunkAction) (a : HunkTrackerActor)
  : result (list HunkId) HunkActionError * HunkTrackerActor :=
  match file_states a !! path with
  | None => (Ok [], a)
  | Some st => match hunks st with
               | [] => (Ok [], a)
               | hs => apply_action_batch w [(path, hs)] action [] a
               end
  end.

(** The files with a hunk that passes, each with those hunks. *)
Definition files_with (f : Hunk → bool) (a : HunkTrackerActor) : list (Path * list Hunk) :=
  omap (fun '(p, st) => match List.filter f (hunks st) with [] => None | hs => Some (p, hs) end)
    (map_to_list (file_states a)).

Definition apply_all_action (w : World) (action : HunkAction) (a : HunkTrackerActor)
  : result (list HunkId) HunkActionError * HunkTrackerActor :=
  apply_action_batch w (files_with (fun _ => true) a) action [] a.

Definition apply_turn_action (w : World) (p : nat) (action : HunkAction) (a : HunkTrackerActor)
  : result (list HunkId) HunkActionError * HunkTrackerActor :=
  apply_action_batch w (files_with (fun h => bool_decide (prompt_index (source h) = Some p)) a) action [] a.

(** ** The repository: [git.rs] *)

(** [open_or_discover]: the prefix, and what is known of the repository then. *)
Definition open_or_discover (w : World) (dir : Path) (s : GitRepoState) : option Path * GitRepoState :=
  match s with
  | Discovered prefix => (Some prefix, s)
  | RepoUnknown => match discover w dir with Some prefix => (Some prefix, Discovered prefix) | None => (None, NotARepo) end
  | NotARepo => (None, NotARepo)
  end.

Definition head_content (e : option HeadEntry) : FileContentState :=
  match e with None => Missing | Some HeadLink => Symlink | Some (HeadBlob b) => classify_bytes b end.

Definition read_baseline (w : World) (path : Path) (a : HunkTrackerActor) : FileContentState * HunkTrackerActor :=
  let '(prefix, repo) := open_or_discover w (working_dir a) (git_repo_state a) in
  (match prefix with
   | Some prefix => head_content (head_entry w (working_dir a) prefix path)
   | None => Missing
   end, with_repo repo a).

Definition read_baselines_batch (w : World) (paths : list Path) (a : HunkTrackerActor)
  : gmap Path FileContentState * HunkTrackerActor :=
  if match paths with [] => true | _ => false end || bool_decide (git_repo_state a = NotARepo) then (∅, a)
  else
    let '(prefix, repo) := open_or_discover w (working_dir a) (git_repo_state a) in
    (list_to_map (map (fun p => (p, match prefix with
                                    | Some prefix => head_content (head_entry w (working_dir a) prefix p)
                                    | None => Missing
                                    end)) paths), with_repo repo a).

Definition read_repo_sync_state (w : World) (a : HunkTrackerActor) : option RepoSyncState * HunkTrackerActor :=
  let '(prefix, repo) := open_or_discover w (working_dir a) (git_repo_state a) in
  (match prefix with Some _ => Some (sync_state w (working_dir a)) | None => None end, with_repo repo a).

(** ** Changes: [mutations.rs] *)

Definition strip_single_trailing_newline (s : bytes) : bytes :=
  match strip_suffix [carriage_return; newline] s with
  | Some r => r
  | None => default s (strip_suffix [newline] s)
  end.

Definition same_but_newline (a b : bytes) : bool := strip_single_trailing_newline a =b strip_single_trailing_newline b.

Definition rel_path (path : Path) (a : HunkTrackerActor) : Path := default path (path_strip_prefix path (working_dir a)).

Definition git_dirty (path : Path) (a : HunkTrackerActor) : bool := bool_decide (rel_path path a ∈ git_dirty_cache a).

(** [record_agent_write] *)
Definition record_agent_write (w : World) (path : Path) (content : bytes) (p : nat) (previous : option bytes)
    (a : HunkTrackerActor) : HunkTrackerActor :=
  let current := classify_string content in
  if negb (is_diffable current) then
    match file_states a !! path with
    | None =>
        let '(b, a) := match previous with Some prev => (classify_string prev, a) | None => read_baseline w path a end in
        send_event (FileAdded path true) (set_file path (mkState b current [] true false) a)
    | Some st => set_file path (with_hunks [] (with_current current (with_agent_file true st))) a
    end
  else
    let a := match file_states a !! path with
             | None =>
                 let '(b, a) := read_baseline w path a in
                 let b := match b with Missing => default Missing (classify_string <$> previous) | b => b end in
                 send_event (FileAdded path true) (set_file path (mkState b current [] true false) a)
             | Some st => set_file path (with_agent_file true st) a
             end in
    recompute_hunks path (Some current) (AgentEdit p) a.

(** A file that enters the tracker through a file event. *)
Definition start_tracking (path : Path) (b c : FileContentState) (a : HunkTrackerActor) : HunkTrackerActor :=
  send_event (FileAdded path false) (set_file path (mkState b c [] false false) a).

Definition preloaded_or_read (w : World) (path : Path) (pre : option FileContentState) (a : HunkTrackerActor)
  : FileContentState * HunkTrackerActor := match pre with Some b => (b, a) | None => read_baseline w path a end.

(** Not in HEAD and not dirty: ignored by git. *)
Definition ignored (w : World) (path : Path) (b : FileContentState) (a : HunkTrackerActor) : bool :=
  bool_decide (mode a = AllDirty) && bool_decide (b = Missing) && negb (path_is_dir w path) && negb (git_dirty path a).

Definition content_matches_head (path : Path) (current head : FileContentState) (a : HunkTrackerActor) : bool :=
  match current, head with
  | Full c, Full h => same_but_newline c h
  | Missing, Missing | Binary _, Binary _ | TooLarge _, TooLarge _ | LfsPointer _, LfsPointer _ | Symlink, Symlink => true
  | Symlink, Full _ | Full _, Symlink => negb (git_dirty path a)
  | _, _ => false
  end.

Definition external_source (path : Path) (a : HunkTrackerActor) : HunkSource :=
  match file_states a !! path with
  | Some st => if is_agent_file st then ExternalEditOnAgentFile else External
  | None => External
  end.

(** [process_file_change] *)
Definition process_file_change (w : World) (path : Path) (pre : option FileContentState) (a : HunkTrackerActor)
  : HunkTrackerActor :=
  let known := tracked path a in
  if bool_decide (mode a = AgentOnly) && negb known then a
  else
    let current := read_file_bounded (disk w path) in
    if negb (is_diffable current) && negb known then
      let '(b, a) := if bool_decide (mode a = AllDirty) then preloaded_or_read w path pre a else (Missing, a) in
      if ignored w path b a then a
      else
        let a := start_tracking path b current a in
        if is_diffable b then recompute_hunks path None External a else a
    else
      match file_states a !! path with
      | None =>
          let '(b, a) := preloaded_or_read w path pre a in
          if ignored w path b a then a
          else
            let a := start_tracking path b Missing a in
            recompute_hunks path (Some current) (external_source path a) a
      | Some st =>
          if baseline_accepted st then
            let '(head, a) := preloaded_or_read w path pre a in
            if content_matches_head path current head a then
              set_file path (with_hunks [] (with_accepted false (with_current head (with_baseline head st)))) a
            else recompute_hunks path (Some current) (external_source path a) a
          else recompute_hunks path (Some current) (external_source path a) a
      end.

Definition handle_file_change (w : World) (path : Path) : HunkTrackerActor → HunkTrackerActor :=
  process_file_change w path None.

(** [handle_file_changes_batch] *)
Definition handle_file_changes_batch (w : World) (paths : list Path) (a : HunkTrackerActor) : HunkTrackerActor :=
  match paths with
  | [] => a
  | _ =>
      let needs p := if bool_decide (mode a = AgentOnly) && negb (tracked p a) then false
                     else negb (tracked p a) || match file_states a !! p with Some s => baseline_accepted s | None => false end in
      let '(bs, a) := read_baselines_batch w (List.filter needs paths) a in
      (fold_left (fun '(bs, a) p => (delete p bs, process_file_change w p (bs !! p) a)) paths (bs, a)).2
  end.

(** [handle_file_deleted] *)
Definition handle_file_deleted (w : World) (path : Path) (a : HunkTrackerActor) : HunkTrackerActor :=
  match file_states a !! path with
  | None =>
      if bool_decide (mode a = AgentOnly) then a
      else if path_exists w path then a
      else
        let '(b, a) := read_baseline w path a in
        if bool_decide (b = Missing) then a
        else recompute_hunks path None External (start_tracking path b Missing a)
  | Some _ =>
      if path_exists w path then handle_file_change w path a
      else recompute_hunks path None (external_source path a) a
  end.

(** Hunks that go away with their file or its baseline. *)
Definition supersede (path : Path) (hs : list Hunk) (a : HunkTrackerActor) : HunkTrackerActor :=
  send_all (removal_events path hs Superseded) (with_turns (turns_remove hs (turn_index a)) a).

(** [reset_baseline] *)
Definition reset_baseline (path : Path) (a : HunkTrackerActor) : HunkTrackerActor :=
  match file_states a !! path with
  | None => a
  | Some st =>
      let a := set_file path (with_hunks [] (with_accepted false (with_baseline (current_content st) st))) a in
      send_event (BaselineUpdated path) (supersede path (hunks st) a)
  end.

(** [refresh_git_dirty_cache] *)
Definition refresh_git_dirty_cache (w : World) (scope : option (list Path)) (a : HunkTrackerActor) : HunkTrackerActor :=
  if bool_decide (git_repo_state a = NotARepo) then a
  else
    let '(prefix, repo) := open_or_discover w (working_dir a) (git_repo_state a) in
    let items := match prefix with
                 | Some prefix =>
                     omap (fun '(p, staged) => r ← path_strip_prefix p prefix; Some (r, staged))
                       (default [] (git_status w (working_dir a) prefix scope))
                 | None => []
                 end in
    let dirty : gset Path := list_to_set (map fst items) in
    let staged : gset Path := list_to_set (map fst (List.filter snd items)) in
    let to_track := List.filter (fun r => negb (tracked (push (working_dir a) r) a)) (elements dirty) in
    let a := with_caches dirty staged (with_repo repo a) in
    if bool_decide (mode a = AllDirty) then
      fold_left (fun a r => handle_file_change w (push (working_dir a) r) a) to_track a
    else a.

(** Whether a file is clean against the HEAD it was just read from. *)
Definition is_clean (w : World) (path : Path) (b c : FileContentState) (a : HunkTrackerActor) : bool :=
  match b, c with
  | Full b, Full c => same_but_newline b c
  | Binary _, Binary _ | TooLarge _, TooLarge _ | LfsPointer _, LfsPointer _ | Symlink, Symlink
  | LfsPointer _, _ | _, LfsPointer _ | Symlink, Full _ | Full _, Symlink => negb (git_dirty path a)
  | Missing, Missing => negb (path_exists w path)
  | Missing, _ => negb (git_dirty path a)
  | _, _ => false
  end.

(** One file of [refresh_all_baselines]. *)
Definition refresh_file (w : World) (bs : gmap Path FileContentState) (path : Path) (a : HunkTrackerActor)
  : HunkTrackerActor :=
  match file_states a !! path with
  | None => a
  | Some st =>
      let b := default Missing (bs !! path) in
      let c := read_file_bounded (disk w path) in
      let st' := with_accepted false (with_current c (with_baseline b st)) in
      let a := set_file path st' a in
      if is_clean w path b c a then
        if is_agent_file st then
          send_event (BaselineUpdated path) (supersede path (hunks st) (set_file path (with_hunks [] st') a))
        else
          send_event (FileRemoved path) (supersede path (hunks st) (with_files (delete path (file_states a)) a))
      else
        send_event (BaselineUpdated path)
          (recompute_hunks path (Some c) (if is_agent_file st then ExternalEditOnAgentFile else External) a)
  end.

Definition tracked_paths (a : HunkTrackerActor) : list Path := map fst (map_to_list (file_states a)).

(** [refresh_all_baselines_except] *)
Definition refresh_all_baselines_except (w : World) (skip : gset Path) (a : HunkTrackerActor) : HunkTrackerActor :=
  if bool_decide (mode a = AgentOnly) && bool_decide (file_states a = ∅) then a
  else
    let '(sync, a) := read_repo_sync_state w a in
    if bool_decide (sync = Some (repo_sync_state a)) then a
    else
      let a := match sync with Some s => with_sync s a | None => a end in
      let a := match mode a with
               | AllDirty => refresh_git_dirty_cache w None a
               | AgentOnly =>
                   match omap (fun p => path_strip_prefix p (working_dir a)) (tracked_paths a) with
                   | [] => with_caches ∅ ∅ a
                   | rels => refresh_git_dirty_cache w (Some rels) a
                   end
               end in
      let paths := List.filter (fun p => negb (bool_decide (p ∈ skip))) (tracked_paths a) in
      let '(bs, a) := read_baselines_batch w paths a in
      fold_left (fun a p => refresh_file w bs p a) paths a.

Definition refresh_all_baselines (w : World) : HunkTrackerActor → HunkTrackerActor := refresh_all_baselines_except w ∅.

(** [set_mode] *)
Definition set_mode (w : World) (m : TrackingMode) (a : HunkTrackerActor) : HunkTrackerActor :=
  let old := mode a in
  let a := with_mode m a in
  match old, m with
  | AgentOnly, AllDirty => refresh_git_dirty_cache w None a
  | AllDirty, AgentOnly =>
      fold_left (fun a p =>
        match file_states a !! p with
        | Some st => send_event (FileRemoved p) (supersede p (hunks st) (with_files (delete p (file_states a)) a))
        | None => a
        end) (map fst (List.filter (fun x => negb (is_agent_file x.2)) (map_to_list (file_states a)))) a
  | _, _ => a
  end.

(** [rekey_paths_for_working_dir] *)
Definition under (dir p : Path) : bool := bool_decide (is_Some (path_strip_prefix p dir)).

Definition rekey (old new_cwd p : Path) : Path :=
  if under new_cwd p then p else default p (rewrite_single_path p old old new_cwd).

Definition merge_states (dest st : FileHunkState) : FileHunkState :=
  mkState (baseline dest) (current_content dest) (hunks dest ++ hunks st) (is_agent_file dest || is_agent_file st)
    (baseline_accepted dest || baseline_accepted st).

Definition rekey_paths_for_working_dir (new_cwd : Path) (a : HunkTrackerActor) : HunkTrackerActor :=
  if new_cwd =b working_dir a then a
  else
    let rewrite := rekey (working_dir a) new_cwd in
    let moved x := let p := rewrite x.1 in (p, with_hunks (map (with_path p) (hunks x.2)) x.2) in
    let pairs := map_to_list (file_states a) in
    let already := List.filter (fun x : Path * FileHunkState => under new_cwd x.1) pairs in
    let others := List.filter (fun x : Path * FileHunkState => negb (under new_cwd x.1)) pairs in
    let next := fold_left (fun m '(p, st) => <[p := st]> m) (map moved already) ∅ in
    let next := fold_left (fun m '(p, st) =>
      <[p := match m !! p with Some dest => merge_states dest st | None => st end]> m) (map moved others) next in
    with_caches (set_map rewrite (git_dirty_cache a)) (set_map rewrite (git_staged_cache a)) (with_files next a).

(** ** Snapshots *)

Definition take_snapshot (a : HunkTrackerActor) : HunkTrackerSnapshot :=
  mkSnapshot (file_states a) (turn_index a) (session_stats a).

Definition take_turn_delta (p : nat) (a : HunkTrackerActor) : HunkTurnDelta :=
  let ids := default ∅ (turn_index a !! p) in
  mkDelta p (filter (fun x => existsb (fun h => bool_decide (hunk_id h ∈ ids)) (hunks x.2) = true) (file_states a)) ids.

Definition restore_snapshot (s : HunkTrackerSnapshot) (a : HunkTrackerActor) : HunkTrackerActor :=
  with_stats (snap_stats s) (with_turns (snap_turns s) (with_files (snap_files s) a)).

(** ** Queries: [queries.rs] *)

Definition get_all_hunks (a : HunkTrackerActor) : list Hunk := flat_map (fun x => hunks x.2) (map_to_list (file_states a)).

Definition get_hunks_for_path (p : Path) (a : HunkTrackerActor) : list Hunk := default [] (hunks <$> file_states a !! p).

Definition get_hunks_by_source (f : HunkSourceFilter) (a : HunkTrackerActor) : list Hunk :=
  List.filter (fun h => match f with FilterAgent => is_agent_edit (source h) | FilterExternal => is_external (source h) end)
    (get_all_hunks a).

Definition get_hunk (i : HunkId) (a : HunkTrackerActor) : option Hunk :=
  List.find (fun h => hunk_id h =b i) (get_all_hunks a).

Definition get_hunks_for_turn (p : nat) (a : HunkTrackerActor) : list Hunk :=
  match turn_index a !! p with None => [] | Some ids => omap (fun i => get_hunk i a) (elements ids) end.

Record FileHunkData := mkFileData { data_hunks : list Hunk; data_baseline : FileContentView; data_current : FileContentView }.

Definition hunk_patch (b c : option bytes) (h : Hunk) : option (option bytes) :=
  match b, c with
  | None, None => Some None
  | _, _ => p ← generate_hunk_patch (default [] b) (default [] c) h; Some (Some p)
  end.

(** [get_file_hunk_data]; [None] when a patch panics.  The legacy text fields repeat
    the content of the views. *)
Definition get_file_hunk_data (p : Path) (a : HunkTrackerActor) : option FileHunkData :=
  match file_states a !! p with
  | None => Some (mkFileData [] (mkView SMissing None None) (mkView SMissing None None))
  | Some st =>
      hs ← mapM (fun h => p ← hunk_patch (as_str (baseline st)) (as_str (current_content st)) h; Some (with_patch p h))
             (hunks st);
      Some (mkFileData hs (from_content_state (baseline st)) (from_content_state (current_content st)))
  end.

Record FileContentEntry := mkEntry {
  entry_path : Path; entry_baseline : FileContentView; entry_current : FileContentView;
  entry_agent : bool; entry_staged : bool }.

Definition get_all_file_contents (a : HunkTrackerActor) : list FileContentEntry :=
  map (fun '(p, st) => mkEntry p (from_content_state (baseline st)) (from_content_state (current_content st))
         (is_agent_file st) (bool_decide (rel_path p a ∈ git_staged_cache a))) (map_to_list (file_states a)).

Definition get_staged_files (a : HunkTrackerActor) : gset Path := set_map (push (working_dir a)) (git_staged_cache a).

Record TurnSummary := mkTurn {
  turn_prompt : nat; turn_files : gset Path; turn_pending : list Hunk; turn_added : nat; turn_removed : nat }.

Record SessionSummary := mkSummary {
  summary_stats : SessionStats;
  turns : list TurnSummary;
  files_modified : nat;
  files_with_pending : nat;
  pending_hunks : nat;
  pending_lines_added : nat;
  pending_lines_removed : nat;
  unattributed_pending : nat;
}.

(** A hunk entered under its turn. *)
Definition enter_turn (path : Path) (h : Hunk) (m : gmap nat TurnSummary) : gmap nat TurnSummary :=
  match prompt_index (source h) with
  | None => m
  | Some p =>
      let t := default (mkTurn p ∅ [] 0 0) (m !! p) in
      <[p := mkTurn p ({[ path ]} ∪ turn_files t) (turn_pending t ++ [h]) (turn_added t + new_count (line_info h))
               (turn_removed t + old_count (line_info h))]> m
  end.

(** [compute_session_summary] *)
Definition compute_session_summary (a : HunkTrackerActor) : SessionSummary :=
  let files := map_to_list (file_states a) in
  let by_prompt := fold_left (fun m x => fold_left (fun m h => enter_turn x.1 h m) (hunks x.2) m) files ∅ in
  let ts := sort_by_key turn_prompt (map snd (map_to_list by_prompt)) in
  let attributed h := bool_decide (is_Some (prompt_index (source h))) in
  let modified : gset Path := list_to_set (map fst (List.filter (fun x => existsb attributed (hunks x.2)) files)) in
  mkSummary (session_stats a) ts (size modified) (size modified)
    (sum_list (map (fun t => length (turn_pending t)) ts)) (sum_list (map turn_added ts)) (sum_list (map turn_removed ts))
    (length (List.filter (fun h => negb (attributed h)) (get_all_hunks a))).

(** ** Commands: [commands.rs], [actor/mod.rs] *)

Inductive HunkTrackerCommand :=
| RecordAgentWrite (path : Path) (content : bytes) (p : nat) (previous : option bytes)
| HandleFileChange (path : Path)
| HandleFileDeleted (path : Path)
| RefreshGitDirtyCache
| ResetBaseline (path : Path)
| SetMode (m : TrackingMode)
| SetWorkingDir (dir : Path)
| ActOnHunk (i : HunkId) (action : HunkAction)
| FileAction (path : Path) (action : HunkAction)
| AllAction (action : HunkAction)
| TurnAction (p : nat) (action : HunkAction)
| GetAllHunks
| GetHunksForPath (path : Path)
| GetFileHunkData (path : Path)
| GetHunksBySource (f : HunkSourceFilter)
| GetHunk (i : HunkId)
| IsAgentFile (path : Path)
| GetAllTrackedPaths
| GetStagedFiles
| GetAllFileContents
| GetSessionSummary
| GetTurnHunks (p : nat)
| ResetStats
| RefreshAllBaselines
| SnapshotState
| SnapshotTurnDelta (p : nat)
| RestoreState (s : HunkTrackerSnapshot).

(** What a command sends back over its reply channel. *)
Inductive Reply :=
| NoReply
| RDone
| RAction (r : result unit HunkActionError)
| RAffected (r : result (list HunkId) HunkActionError)
| RHunks (hs : list Hunk)
| RHunk (h : option Hunk)
| RFileData (d : option FileHunkData)
| RBool (b : bool)
| RPaths (ps : list Path)
| RPathSet (ps : gset Path)
| REntries (es : list FileContentEntry)
| RSummary (s : SessionSummary)
| RSnapshot (s : HunkTrackerSnapshot)
| RDelta (d : HunkTurnDelta).

(** [handle_command] *)
Definition handle_command (w : World) (c : HunkTrackerCommand) (a : HunkTrackerActor) : Reply * HunkTrackerActor :=
  match c with
  | RecordAgentWrite path content p previous => (NoReply, record_agent_write w path content p previous a)
  | HandleFileChange path => (NoReply, handle_file_change w path a)
  | HandleFileDeleted path => (NoReply, handle_file_deleted w path a)
  | RefreshGitDirtyCache => (NoReply, refresh_git_dirty_cache w None a)
  | ResetBaseline path => (NoReply, reset_baseline path a)
  | SetMode m => (NoReply, set_mode w m a)
  | SetWorkingDir dir =>
      (RDone, with_sync no_sync (with_repo RepoUnknown (with_working_dir dir (rekey_paths_for_working_dir dir a))))
  | ActOnHunk i action => let '(r, a) := apply_hunk_action w i action a in (RAction r, a)
  | FileAction path action => let '(r, a) := apply_file_action w path action a in (RAffected r, a)
  | AllAction action => let '(r, a) := apply_all_action w action a in (RAffected r, a)
  | TurnAction p action => let '(r, a) := apply_turn_action w p action a in (RAffected r, a)
  | GetAllHunks => (RHunks (get_all_hunks a), a)
  | GetHunksForPath path => (RHunks (get_hunks_for_path path a), a)
  | GetFileHunkData path => (RFileData (get_file_hunk_data path a), a)
  | GetHunksBySource f => (RHunks (get_hunks_by_source f a), a)
  | GetHunk i => (RHunk (get_hunk i a), a)
  | IsAgentFile path => (RBool (default false (is_agent_file <$> file_states a !! path)), a)
  | GetAllTrackedPaths => (RPaths (tracked_paths a), a)
  | GetStagedFiles => (RPathSet (get_staged_files a), a)
  | GetAllFileContents => (REntries (get_all_file_contents a), a)
  | GetSessionSummary => (RSummary (compute_session_summary a), a)
  | GetTurnHunks p => (RHunks (get_hunks_for_turn p a), a)
  | ResetStats => (NoReply, with_stats no_stats a)
  | RefreshAllBaselines => (NoReply, refresh_all_baselines w a)
  | SnapshotState => (RSnapshot (take_snapshot a), a)
  | SnapshotTurnDelta p => (RDelta (take_turn_delta p a), a)
  | RestoreState s => (NoReply, restore_snapshot s a)
  end.

(** File events that wait in the channel are handled together, one action per path. *)
Inductive CoalescedPathAction := CChanged | CDeleted | CDeletedThenChanged.

Record CoalescedBatch := mkBatch {
  file_actions : gmap Path CoalescedPathAction;
  refresh_all : bool;
  refresh_dirty : bool;
  other_commands : list HunkTrackerCommand;
}.

Definition empty_batch : CoalescedBatch := mkBatch ∅ false false [].

(** [CoalescedBatch::add] *)
Definition batch_add (b : CoalescedBatch) (c : HunkTrackerCommand) : CoalescedBatch :=
  match c with
  | HandleFileChange p =>
      let action := match file_actions b !! p with
                    | Some CDeleted => CDeletedThenChanged
                    | Some x => x
                    | None => CChanged
                    end in
      mkBatch (<[p := action]> (file_actions b)) (refresh_all b) (refresh_dirty b) (other_commands b)
  | HandleFileDeleted p => mkBatch (<[p := CDeleted]> (file_actions b)) (refresh_all b) (refresh_dirty b) (other_commands b)
  | RefreshAllBaselines => mkBatch (file_actions b) true (refresh_dirty b) (other_commands b)
  | RefreshGitDirtyCache => mkBatch (file_actions b) (refresh_all b) true (other_commands b)
  | c => mkBatch (file_actions b) (refresh_all b) (refresh_dirty b) (other_commands b ++ [c])
  end.

(** [drain_and_coalesce] *)
Definition coalesce (cs : list HunkTrackerCommand) : CoalescedBatch := fold_left batch_add cs empty_batch.

Definition is_coalescable (c : HunkTrackerCommand) : bool :=
  match c with HandleFileChange _ | HandleFileDeleted _ | RefreshAllBaselines | RefreshGitDirtyCache => true | _ => false end.

Fixpoint handle_commands (w : World) (cs : list HunkTrackerCommand) (a : HunkTrackerActor) : list Reply * HunkTrackerActor :=
  match cs with
  | [] => ([], a)
  | c :: cs =>
      let '(r, a) := handle_command w c a in
      let '(rs, a) := handle_commands w cs a in
      (r :: rs, a)
  end.

Definition is_deletion (x : CoalescedPathAction) : bool := match x with CDeleted => true | _ => false end.

(** [handle_coalesced_batch] *)
Definition handle_coalesced_batch (w : World) (b : CoalescedBatch) (a : HunkTrackerActor) : list Reply * HunkTrackerActor :=
  let a := if refresh_dirty b && negb (refresh_all b) then refresh_git_dirty_cache w None a else a in
  let actions := map_to_list (file_actions b) in
  let a :=
    if refresh_all b then
      let '(done, a) := fold_left (fun '(done, a) '(p, x) =>
        if is_deletion x then (done, if tracked p a then handle_file_deleted w p a else a)
        else if tracked p a then (done, a)
        else ({[ p ]} ∪ done, handle_file_change w p a)) actions (∅, a) in
      refresh_all_baselines_except w done a
    else
      let a := fold_left (fun a '(p, x) => if is_deletion x then handle_file_deleted w p a else a) actions a in
      handle_file_changes_batch w (map fst (List.filter (fun x => negb (is_deletion x.2)) actions)) a in
  handle_commands w (other_commands b) a.

(** One round of the actor's loop: the first command, and those behind it in the
    channel when it can be handled with them; what is left. *)
Definition handle_next (w : World) (c : HunkTrackerCommand) (queued : list HunkTrackerCommand) (a : HunkTrackerActor)
  : list Reply * list HunkTrackerCommand * HunkTrackerActor :=
  if is_coalescable c then
    let '(rs, a) := handle_coalesced_batch w (coalesce (c :: queued)) a in (rs, [], a)
  else let '(r, a) := handle_command w c a in ([r], queued, a).

(** The start of the loop. *)
Definition spawn (w : World) (dir : Path) (m : TrackingMode) : HunkTrackerActor :=
  let a := new_actor dir m in if bool_decide (m = AllDirty) then refresh_git_dirty_cache w None a else a.

(** The states the loop reaches with what waits in the channel: commands that satisfy
    [Q] are sent at any time, and every round meets a world of its own that satisfies
    [P]. *)
Inductive reachable (P : World → Prop) (Q : HunkTrackerCommand → Prop) : list HunkTrackerCommand → HunkTrackerActor → Prop :=
| reach_spawn w dir m : P w → reachable P Q [] (spawn w dir m)
| reach_sent q c a : Q c → reachable P Q q a → reachable P Q (q ++ [c]) a
| reach_round w c q a : P w → reachable P Q (c :: q) a →
    reachable P Q (handle_next w c q a).1.2 (handle_next w c q a).2.

End Handlers.
