(* ===== verification/HunkLaws.v ===== *)
(** * Invariants of the hunk tracker

    Pending hunks are exact, identified once and listed under their turn, in every
    state the tracker reaches while its writes succeed. *)

From S2P Require Import Prelude RustStr StrFind Paths HunkTypes HunkDiff TextLines DiffLaws HunkTracker.

#[local] Open Scope nat_scope.

(** ** Claiming identifiers *)

(** Claiming changes identifiers and sources only. *)
Lemma claim_shape (old new : list Hunk) (cl : gset HunkId) :
  Forall2 (fun h h' => line_info h = line_info h' ∧ old_text h = old_text h' ∧ new_text h = new_text h' ∧ hunk_path h = hunk_path h')
    (claim old cl new) new.
Proof.
  revert cl. induction new as [|h new IH]; intros cl; simpl; [constructor|].
  destruct (find_matching_old_hunk h old) as [m|]; [|by constructor]. destruct (bool_decide _); [by constructor|].
  constructor; [|apply IH]. by destruct (_ && _).
Qed.

Lemma find_matching_in (h m : Hunk) (old : list Hunk) : find_matching_old_hunk h old = Some m → m ∈ old.
Proof.
  assert (∀ key l, (min_by key l = Some m ∨ max_by key l = Some m) → m ∈ l) as Hby.
  { intros key l. induction l as [|x l IH]; simpl; [by intros [?|?]|]. intros [E|E].
    - destruct (min_by key l); [|simplify_eq; by left]. destruct (_ <? _); simplify_eq; [right; auto|by left].
    - destruct (max_by key l); [|simplify_eq; by left]. destruct (_ <=? _); simplify_eq; [right; auto|by left]. }
  unfold find_matching_old_hunk. destruct (List.filter (fun o => hunks_match_content o h) old) as [|x l] eqn:E; intros Hm.
  - pose proof (Hby _ _ (or_intror Hm)) as Hin. by apply list_elem_of_In, filter_In in Hin as [Hin%list_elem_of_In _].
  - pose proof (Hby _ _ (or_introl Hm)) as Hin. rewrite <-E in Hin. by apply list_elem_of_In, filter_In in Hin as [Hin%list_elem_of_In _].
Qed.

Lemma claim_ids (old new : list Hunk) (cl : gset HunkId) :
  NoDup (map hunk_id new) → (∀ h o, h ∈ new → o ∈ old → hunk_id h ≠ hunk_id o) →
  NoDup (map hunk_id (claim old cl new))
  ∧ ∀ i, i ∈ map hunk_id (claim old cl new) → i ∈ map hunk_id new ∨ (i ∈ map hunk_id old ∧ i ∉ cl).
Proof.
  revert cl. induction new as [|h new IH]; intros cl Hnd Hdis; [split; [constructor|by intros i ?%elem_of_nil]|].
  cbn [map] in Hnd. apply NoDup_cons in Hnd as [Hh Hnd].
  assert (∀ h' o, h' ∈ new → o ∈ old → hunk_id h' ≠ hunk_id o) as Hdis' by (intros; apply Hdis; [by right|done]).
  assert (∀ cl', NoDup (map hunk_id (h :: claim old cl' new)) ∧
    ∀ i, i ∈ map hunk_id (h :: claim old cl' new) → i ∈ map hunk_id (h :: new) ∨ (i ∈ map hunk_id old ∧ i ∉ cl')) as Hkeep.
  { intros cl'. destruct (IH cl' Hnd Hdis') as [H1 H2]. cbn [map]. split.
    - constructor; [|done]. intros [Hi|[Hi _]]%H2; [done|]. apply list_elem_of_fmap in Hi as (o & Ho & Hin).
      by apply (Hdis h o); [left| |].
    - intros i Hi. apply elem_of_cons in Hi as [->|Hi]; [left; by left|]. apply H2 in Hi as [Hi|Hi]; [left; by right|by right]. }
  cbn [claim]. destruct (find_matching_old_hunk h old) as [m|] eqn:Em; [|apply Hkeep].
  destruct (bool_decide_reflect (hunk_id m ∈ cl)) as [Hcl|Hcl]; [apply Hkeep|].
  apply find_matching_in in Em. assert (hunk_id m ∈ map hunk_id old) as Hm by (by apply list_elem_of_fmap_2).
  destruct (IH ({[ hunk_id m ]} ∪ cl) Hnd Hdis') as [H1 H2].
  assert (hunk_id (if is_external (source (with_id (hunk_id m) h)) && is_agent_edit (source m)
            then with_source (source m) (with_id (hunk_id m) h) else with_id (hunk_id m) h) = hunk_id m) as Ei
    by (by destruct (_ && _)).
  cbn [map]. rewrite Ei. split.
  - constructor; [|done]. intros [Hi|[_ Hi]]%H2; [|set_solver]. apply list_elem_of_fmap in Hi as (h' & Eh & Hin).
    by apply (Hdis' h' m).
  - intros i Hi. apply elem_of_cons in Hi as [->|Hi]; [by right|]. apply H2 in Hi as [Hi|[Hi ?]]; [left; by right|right; set_solver].
Qed.

Lemma claim_path (path : Path) (old new : list Hunk) (cl : gset HunkId) :
  Forall (fun h => hunk_path h = path) new → Forall (fun h => hunk_path h = path) (claim old cl new).
Proof.
  intros Hn. pose proof (claim_shape old new cl) as Hs. clear -Hn Hs.
  induction Hs as [|h h' l l' (_ & _ & _ & E) _ IH]; inversion Hn; subst; constructor; auto.
Qed.

(** ** Exact hunks *)

(** The tracker finds nothing to show between these contents: they agree but for a
    final newline, one of them is not text, they are too large, or the diff ran into
    its time limit. *)
Definition nothing_between `{DiffEnv} (b c : FileContentState) : Prop :=
  match b, c with
  | Full b, Full c => same_but_newline b c = true ∨ too_large b c = true ∨ diff_lines b c = None
  | Full t, Missing | Missing, Full t => t = []
  | _, _ => True
  end.

(** The hunks of the diff between the two contents; none where there is nothing
    between them, or in a file of the agent's that the repository ignores. *)
Definition pending_exact `{DiffEnv} (agent : bool) (b c : FileContentState) (hs : list Hunk) : Prop :=
  hs = [] ∧ (nothing_between b c ∨ b = Missing ∧ agent = true) ∨
  match b, c with
  | Full b, Full c => ∃ cs, diff_lines b c = Some cs ∧ faithful_diff b c cs ∧ Forall2 shows hs (hunk_builders cs)
  | Full b, Missing => ∃ h, hs = [h] ∧ line_info h = mkLines 1 (Nat.max 1 (length (lines b))) 0 0 ∧ old_text h = Some b ∧ new_text h = []
  | Missing, Full c => ∃ h, hs = [h] ∧ old_text h = None ∧ new_text h = c
  | _, _ => False
  end.

Lemma pending_none `{DiffEnv} (agent : bool) (b c : FileContentState) : nothing_between b c → pending_exact agent b c [].
Proof. intros Hn. left. auto. Qed.

Lemma nothing_between_same `{DiffEnv} (c : FileContentState) : nothing_between c c.
Proof. destruct c; try done. left. by apply beq_true. Qed.

Lemma pending_exact_lax `{DiffEnv} (agent agent' : bool) (b c : FileContentState) (hs : list Hunk) :
  (agent = true → agent' = true) → pending_exact agent b c hs → pending_exact agent' b c hs.
Proof. intros Ha [[-> [?|[? ?]]]|?]; [left; auto|left; auto|by right]. Qed.

Lemma pending_exact_claim `{DiffEnv} (agent : bool) (b c : FileContentState) (old hs : list Hunk) (cl : gset HunkId) :
  pending_exact agent b c hs → pending_exact agent b c (claim old cl hs).
Proof.
  pose proof (claim_shape old hs cl) as Hs. intros [[-> ?]|He]; [by left|]. right. revert Hs. generalize (claim old cl hs).
  intros hs' Hs. destruct b, c; try done.
  - destruct He as (h & -> & E1 & E2). inversion Hs as [|h' ? ? ? (_ & F1 & F2 & _) Hn]; subst. inversion Hn; subst.
    exists h'. by rewrite F1, F2.
  - destruct He as (h & -> & E0 & E1 & E2). inversion Hs as [|h' ? ? ? (F0 & F1 & F2 & _) Hn]; subst. inversion Hn; subst.
    exists h'. by rewrite F0, F1, F2.
  - destruct He as (cs & Hd & Hf & Hb). exists cs. do 2 (split; [done|]). revert Hb. generalize (hunk_builders cs).
    induction Hs as [|h h' l l' (E1 & E2 & E3 & _) _ IH]; intros bs Hb; inversion Hb as [|? ? ? ? (G1 & G2 & G3) Hl]; subst; constructor; auto.
    split_and!; congruence.
Qed.

(** ** The state of the tracker *)

(** A hunk that is pending in a file. *)
Definition lives (a : HunkTrackerActor) (p : Path) (h : Hunk) : Prop := ∃ st, file_states a !! p = Some st ∧ h ∈ hunks st.

(** A hunk that is listed under its turn, if it has one. *)
Definition in_turn (m : gmap nat (gset HunkId)) (h : Hunk) : Prop :=
  ∀ n, prompt_index (source h) = Some n → ∃ ids, m !! n = Some ids ∧ hunk_id h ∈ ids.

Section State.
Context `{DiffEnv} (uuid : nat → HunkId).

(** The invariant, up to hunks that an action is about to drop ([I]) and files that
    are about to be recomputed ([X]). *)
Record ok (I : gset HunkId) (X : gset Path) (a : HunkTrackerActor) : Prop := {
  ok_path : ∀ p h, lives a p h → hunk_path h = p;
  ok_nodup : ∀ p st, file_states a !! p = Some st → NoDup (map hunk_id (hunks st));
  ok_unique : ∀ p p' h h', lives a p h → lives a p' h' → hunk_id h = hunk_id h' → p = p';
  ok_drawn : ∀ p h n, lives a p h → drawn a <= n → hunk_id h ≠ uuid n;
  ok_turns : ∀ p h, lives a p h → hunk_id h ∉ I → in_turn (turn_index a) h;
  ok_exact : ∀ p st, file_states a !! p = Some st → p ∉ X → pending_exact (is_agent_file st) (baseline st) (current_content st) (hunks st);
}.

(** Nothing but the files, the turn index and the identifiers matters. *)
Lemma ok_same (I : gset HunkId) (X : gset Path) (a a' : HunkTrackerActor) :
  file_states a' = file_states a → turn_index a' = turn_index a → drawn a' = drawn a → ok I X a → ok I X a'.
Proof.
  intros Ef Et Ed [H1 H2 H3 H4 H5 H6]. unfold lives in *. split; unfold lives; rewrite ?Ef, ?Et, ?Ed; done.
Qed.

(** Hunks may go; those that stay keep their turns. *)
Lemma ok_shrink (I J : gset HunkId) (X Y : gset Path) (a a' : HunkTrackerActor) :
  ok I X a → drawn a <= drawn a' →
  (∀ p st', file_states a' !! p = Some st' →
     (hunks st' = [] ∨ ∃ st, file_states a !! p = Some st ∧ hunks st' `sublist_of` hunks st)
     ∧ (p ∉ Y → pending_exact (is_agent_file st') (baseline st') (current_content st') (hunks st'))) →
  (∀ p h, lives a' p h → lives a p h → hunk_id h ∉ J → (hunk_id h ∉ I → in_turn (turn_index a) h) → in_turn (turn_index a') h) →
  ok J Y a'.
Proof.
  intros [H1 H2 H3 H4 H5 H6] Hd Hf Ht.
  assert (∀ p h, lives a' p h → lives a p h) as Hl.
  { intros p h (st' & E & Hin). destruct (Hf p st' E) as [[Hn|(st & Es & Hsub)] _]; [rewrite Hn in Hin; by apply elem_of_nil in Hin|].
    exists st. split; [done|]. by eapply elem_of_sublist. }
  split; [eauto| |eauto| |eauto|].
  - intros p st' E. destruct (Hf p st' E) as [[->|(st & Es & Hsub)] _]; [constructor|].
    eapply sublist_NoDup; [by eapply H2|]. by apply fmap_sublist.
  - intros p h n Hh Hn. apply (H4 p); [auto|lia].
  - intros p st' E Hp. by destruct (Hf p st' E) as [_ He]; apply He.
Qed.

End State.

Lemma turn_remove_in (i : HunkId) (s : HunkSource) (m : gmap nat (gset HunkId)) (h : Hunk) :
  in_turn m h → hunk_id h ≠ i → in_turn (turn_remove i s m) h.
Proof.
  intros Ht Hne n Hn. destruct (Ht n Hn) as (ids & E & Hin). unfold turn_remove. destruct (prompt_index s) as [q|]; [|by eexists].
  destruct (m !! q) as [ids'|] eqn:Eq; [|by eexists]. destruct (decide (q = n)) as [->|Hq].
  - exists (ids' ∖ {[ i ]}). rewrite lookup_insert_eq. split; [done|]. simplify_eq. set_solver.
  - exists ids. by rewrite lookup_insert_ne.
Qed.

Lemma turns_remove_in (hs : list Hunk) (m : gmap nat (gset HunkId)) (h : Hunk) :
  in_turn m h → hunk_id h ∉ map hunk_id hs → in_turn (turns_remove hs m) h.
Proof.
  unfold turns_remove. revert m. induction hs as [|x hs IH]; intros m Ht Hni; [done|]. simpl in *.
  apply not_elem_of_cons in Hni as [Hne Hni]. apply IH; [by apply turn_remove_in|done].
Qed.

Lemma turn_add_in (x h : Hunk) (m : gmap nat (gset HunkId)) : in_turn m h → in_turn (turn_add x m) h.
Proof.
  intros Ht n Hn. destruct (Ht n Hn) as (ids & E & Hin). unfold turn_add. destruct (prompt_index (source x)) as [q|]; [|by eexists].
  destruct (decide (q = n)) as [->|Hq].
  - rewrite lookup_insert_eq. eexists. split; [done|]. rewrite E. simpl. set_solver.
  - rewrite lookup_insert_ne by done. by eexists.
Qed.

Lemma turns_add_in (hs : list Hunk) (m : gmap nat (gset HunkId)) (h : Hunk) :
  in_turn m h ∨ h ∈ hs → in_turn (turns_add hs m) h.
Proof.
  unfold turns_add. revert m. induction hs as [|x hs IH]; intros m; simpl; [by intros [?|?%elem_of_nil]|].
  intros [Ht|Hin]; [apply IH; left; by apply turn_add_in|]. apply elem_of_cons in Hin as [->|Hin]; [|apply IH; by right].
  apply IH. left. intros n Hn. unfold turn_add. rewrite Hn, lookup_insert_eq. eexists. split; [done|]. set_solver.
Qed.

(** ** Recomputation *)

Section Laws.
Context `{DiffEnv, !DiffSpec} (uuid : nat → HunkId).

Lemma hunks_between_exact (ids : nat → HunkId) (path : Path) (b c : FileContentState) (s : HunkSource) :
  pending_exact false b c (hunks_between ids path b c s).
Proof.
  destruct b as [| | | | |b], c as [| | | | |c]; try (by apply pending_none); simpl.
  - destruct (c =b []) eqn:E; [by apply pending_none, beq_true|]. right. by eexists.
  - destruct (b =b []) eqn:E; [by apply pending_none, beq_true|]. right. by eexists.
  - unfold compute_hunks. destruct (b =b c) eqn:E; [apply beq_true in E as ->; apply pending_none, nothing_between_same|].
    destruct (too_large b c) eqn:El; [apply pending_none; simpl; auto|].
    destruct (diff_lines b c) as [cs|] eqn:Ed; [|apply pending_none; simpl; auto]. right. exists cs.
    split_and!; [done|by apply diff_faithful|apply shows_build].
Qed.

Lemma build_ids (ids : nat → HunkId) (path : Path) (s : HunkSource) (bs : list HunkBuilder) :
  map hunk_id (imap (fun n b => build (ids n) path s b) bs) = map ids (seq 0 (length bs)).
Proof.
  revert ids. induction bs as [|b bs IH]; intros ids; [done|]. cbn [imap map length seq]. f_equal.
  rewrite <-seq_shift, map_map. apply (IH (ids ∘ S)).
Qed.

Lemma hunks_between_ids (ids : nat → HunkId) (path : Path) (b c : FileContentState) (s : HunkSource) :
  map hunk_id (hunks_between ids path b c s) = map ids (seq 0 (length (hunks_between ids path b c s)))
  ∧ Forall (fun h => hunk_path h = path) (hunks_between ids path b c s).
Proof.
  assert (∀ bs, Forall (fun h => hunk_path h = path) (imap (fun n b => build (ids n) path s b) bs)) as Hp.
  { intros bs. revert ids. induction bs as [|x bs IH]; intros ids; constructor; [done|]. apply (IH (ids ∘ S)). }
  destruct b as [| | | | |b], c as [| | | | |c]; try (by repeat constructor); simpl.
  - destruct (c =b []); by repeat constructor.
  - destruct (b =b []); by repeat constructor.
  - unfold compute_hunks. destruct (b =b c); [by repeat constructor|]. destruct (too_large b c); [by repeat constructor|].
    destruct (diff_lines b c) as [cs|]; [|by repeat constructor]. rewrite build_ids, length_imap. split; [done|apply Hp].
Qed.

(** Where the identifiers of a recomputed file come from. *)
Lemma recomputed_ids (Huuid : Inj (=) (=) uuid) (I : gset HunkId) (X : gset Path) (path : Path) (c : FileContentState)
    (s : HunkSource) (a : HunkTrackerActor) (st : FileHunkState) :
  ok uuid I X a → file_states a !! path = Some st →
  let fresh := hunks_between (fun n => uuid (drawn a + n)) path (baseline st) c s in
  let new := claim (hunks st) ∅ fresh in
  NoDup (map hunk_id new)
  ∧ ∀ h, h ∈ new → hunk_path h = path
      ∧ ((∃ n, hunk_id h = uuid (drawn a + n) ∧ n < length fresh) ∨ ∃ o, lives a path o ∧ hunk_id o = hunk_id h).
Proof.
  intros Hok Est fresh new. destruct (hunks_between_ids (fun n => uuid (drawn a + n)) path (baseline st) c s) as [Eids Hpath].
  fold fresh in Eids, Hpath. assert (∀ i, i ∈ map hunk_id fresh → ∃ n, i = uuid (drawn a + n) ∧ n < length fresh) as Hfresh.
  { intros i Hi. rewrite Eids in Hi. apply list_elem_of_fmap in Hi as (n & -> & Hn%elem_of_seq). exists n. split; [done|lia]. }
  destruct (claim_ids (hunks st) fresh ∅) as [Hnd Hid].
  - rewrite Eids. apply NoDup_fmap_2; [|apply NoDup_seq]. intros x y E. apply Huuid in E. lia.
  - intros h o Hh Ho E. destruct (Hfresh (hunk_id h)) as (n & En & _); [by apply list_elem_of_fmap_2|].
    apply (ok_drawn _ _ _ _ Hok path o (drawn a + n)); [by exists st|lia|congruence].
  - split; [done|]. intros h Hh. split.
    + pose proof (claim_path path (hunks st) fresh ∅ Hpath) as Hp. rewrite Forall_forall in Hp. by apply Hp.
    + apply (list_elem_of_fmap_2 hunk_id) in Hh. apply Hid in Hh as [Hh|[Hh _]]; [left; by apply Hfresh|right].
      apply list_elem_of_fmap in Hh as (x & -> & Hx). exists x. split; [by exists st|done].
Qed.

(** Another state for a file whose hunks bring no identifier of another file. *)
Lemma replace_ok (I : gset HunkId) (X : gset Path) (path : Path) (st st' : FileHunkState) (d : nat) (a a' : HunkTrackerActor) :
  ok uuid I X a → file_states a !! path = Some st →
  file_states a' = <[path := st']> (file_states a) → drawn a' = drawn a + d →
  turn_index a' = turns_add (hunks st') (turns_remove (hunks st) (turn_index a)) →
  NoDup (map hunk_id (hunks st')) → pending_exact (is_agent_file st') (baseline st') (current_content st') (hunks st') →
  (∀ h, h ∈ hunks st' → hunk_path h = path ∧ (∀ n, drawn a + d <= n → hunk_id h ≠ uuid n)
     ∧ ∀ p o, p ≠ path → lives a p o → hunk_id o ≠ hunk_id h) →
  ok uuid I (X ∖ {[ path ]}) a'.
Proof.
  intros [H1 H2 H3 H4 H5 H6] Est Ef Ed Et Hnd Hex Hnew.
  assert (∀ p h, lives a' p h → (p = path ∧ h ∈ hunks st') ∨ (p ≠ path ∧ lives a p h)) as Hlives.
  { intros p h (s & E & Hin). rewrite Ef in E. destruct (decide (p = path)) as [->|Hne].
    - rewrite lookup_insert_eq in E. simplify_eq. by left.
    - rewrite lookup_insert_ne in E by done. right. split; [done|]. by exists s. }
  split.
  - intros p h [[-> Hh]|[_ Hh]]%Hlives; [by apply Hnew|eauto].
  - intros p s E. rewrite Ef in E. destruct (decide (p = path)) as [->|Hne]; [rewrite lookup_insert_eq in E; by simplify_eq|].
    rewrite lookup_insert_ne in E by done. eauto.
  - intros p p' h h' [[-> Hh]|[Hp Hh]]%Hlives [[-> Hh']|[Hp' Hh']]%Hlives E; [done| | |eauto].
    + by destruct (proj2 (proj2 (Hnew h Hh)) p' h').
    + by destruct (proj2 (proj2 (Hnew h' Hh')) p h).
  - intros p h n Hh Hn. rewrite Ed in Hn. apply Hlives in Hh as [[-> Hh]|[_ Hh]]; [by apply Hnew|apply (H4 p h n); [done|lia]].
  - intros p h [[-> Hh]|[Hp Hh]]%Hlives Hi; rewrite Et; apply turns_add_in; [by right|left].
    apply turns_remove_in; [eauto|]. intros Hin. apply list_elem_of_fmap in Hin as (o & E & Ho).
    apply Hp, (H3 p path h o); [done|by exists st|done].
  - intros p s E Hp. rewrite Ef in E. destruct (decide (p = path)) as [->|Hne]; [rewrite lookup_insert_eq in E; by simplify_eq|].
    rewrite lookup_insert_ne in E by done. apply (H6 p); [done|]. set_solver.
Qed.

(** Recomputing a file keeps the invariant and makes the file exact. *)
Lemma recompute_ok (Huuid : Inj (=) (=) uuid) (I : gset HunkId) (X : gset Path) (path : Path)
    (c : option FileContentState) (s : HunkSource) (a : HunkTrackerActor) :
  ok uuid I X a → ok uuid I (X ∖ {[ path ]}) (recompute_hunks uuid path c s a).
Proof.
  intros Hok. unfold recompute_hunks. destruct (file_states a !! path) as [st|] eqn:Est.
  2:{ destruct Hok as [H1 H2 H3 H4 H5 H6]. split; try done. intros p st E Hp. apply (H6 p); [done|]. intros Hx. apply Hp.
      apply elem_of_difference. split; [done|]. intros ->%elem_of_singleton. by rewrite Est in E. }
  destruct (recomputed_ids Huuid I X path (default Missing c) s a st Hok Est) as [Hnd Hid]. cbv zeta.
  set (fresh := hunks_between _ _ _ _ _) in *. set (new := claim _ _ _) in *.
  eapply (replace_ok I X path st (with_hunks new (with_current (default Missing c) st)) (length fresh)); [done..| |].
  - apply (pending_exact_lax false), pending_exact_claim, hunks_between_exact. done.
  - intros h Hh. destruct (Hid h Hh) as [Hp [(k & Ek & Hk)|(o & Ho & Eo)]]; (split; [done|split]).
    + intros n Hn E. rewrite Ek in E. apply Huuid in E. lia.
    + intros p x _ Hx E. apply (ok_drawn _ _ _ _ Hok p x (drawn a + k)); [done|lia|congruence].
    + intros n Hn E. apply (ok_drawn _ _ _ _ Hok path o n); [done|lia|congruence].
    + intros p x Hpx Hx E. apply Hpx. apply (ok_unique _ _ _ _ Hok p path x o); [done|done|congruence].
Qed.

End Laws.
