(* ===== verification/HunkInvariant.v ===== *)
(** * The tracker keeps its invariant

    Every handler of the tracker keeps [ok] while its writes succeed, so every state
    the actor's loop reaches has it. *)

From S2P Require Import Prelude RustStr StrFind Paths HunkTypes HunkDiff TextLines DiffLaws HunkTracker HunkLaws.

#[local] Open Scope nat_scope.

(** ** Handlers in general *)

Section Generic.
Context `{DiffEnv} (uuid : nat → HunkId).

Lemma ok_mono (I J : gset HunkId) (X Y : gset Path) (a : HunkTrackerActor) :
  ok uuid I X a → I ⊆ J → X ⊆ Y → ok uuid J Y a.
Proof. intros [H1 H2 H3 H4 H5 H6] HI HX. split; try done; [intros p h Hl Hi; apply (H5 p h Hl)|intros p st E Hp; apply (H6 p st E)]; set_solver. Qed.

(** Another state of a file, with its hunks or without. *)
Lemma ok_set (I : gset HunkId) (X Y : gset Path) (path : Path) (st' : FileHunkState) (a : HunkTrackerActor) :
  ok uuid I X a → X ⊆ Y →
  hunks st' = [] ∨ (∃ st, file_states a !! path = Some st ∧ hunks st' = hunks st) →
  (path ∉ Y → pending_exact (is_agent_file st') (baseline st') (current_content st') (hunks st')) → ok uuid I Y (set_file path st' a).
Proof.
  intros Hok HX Hh He. apply (ok_shrink _ I I X Y a); [done|simpl; lia| |intros; simpl; auto]. intros p s E. simpl in E.
  destruct (decide (p = path)) as [->|Hne].
  - rewrite lookup_insert_eq in E. simplify_eq. split; [|done]. destruct Hh as [?|(st & E & ->)]; [by left|]. right. by exists st.
  - rewrite lookup_insert_ne in E by done. split; [right; by exists s|]. intros Hp. apply (ok_exact _ _ _ _ Hok p); [done|set_solver].
Qed.

(** The hunks of a file go, with their entries in the turn index. *)
Lemma ok_retire (I : gset HunkId) (X : gset Path) (path : Path) (st : FileHunkState) (a a' : HunkTrackerActor) :
  ok uuid I X a → file_states a !! path = Some st →
  (∀ p s, file_states a' !! p = Some s →
     p = path ∧ hunks s = [] ∧ pending_exact (is_agent_file s) (baseline s) (current_content s) []
     ∨ p ≠ path ∧ file_states a !! p = Some s) →
  turn_index a' = turns_remove (hunks st) (turn_index a) → drawn a' = drawn a → ok uuid I X a'.
Proof.
  intros Hok Est Hf Ht Hd. apply (ok_shrink _ I I X X a); [done|lia| |].
  - intros p s E. destruct (Hf p s E) as [(-> & Hn & He)|[Hp Es]].
    + split; [by left|]. by rewrite Hn.
    + split; [right; by exists s|]. by apply (ok_exact _ _ _ _ Hok p).
  - intros p h (s & E & Hin) Hl Hi Hturn. rewrite Ht. apply turns_remove_in; [by apply Hturn|].
    destruct (Hf p s E) as [(-> & Hn & _)|[Hp Es]]; [rewrite Hn in Hin; by apply elem_of_nil in Hin|].
    intros (o & Eo & Ho)%list_elem_of_fmap. apply Hp. apply (ok_unique _ _ _ _ Hok p path h o); [done|by exists st|done].
Qed.

Lemma ok_new (dir : Path) (m : TrackingMode) : ok uuid ∅ ∅ (new_actor dir m).
Proof.
  assert (∀ p h, ¬ lives (new_actor dir m) p h) as Hno by (intros p h (st & E & _); simpl in E; by rewrite lookup_empty in E).
  split; simpl; [by intros p h ?%Hno| |by intros p p' h h' ?%Hno|by intros p h n ?%Hno|by intros p h ?%Hno|];
    intros p st E; by rewrite lookup_empty in E.
Qed.

Lemma fold_ok {A : Type} (I : gset HunkId) (X : gset Path) (f : HunkTrackerActor → A → HunkTrackerActor) (l : list A) (a : HunkTrackerActor) :
  (∀ a x, ok uuid I X a → ok uuid I X (f a x)) → ok uuid I X a → ok uuid I X (fold_left f l a).
Proof. intros Hf. revert a. induction l as [|x l IH]; intros a Hok; simpl; auto. Qed.

Lemma fold_snd_ok {A B : Type} (I : gset HunkId) (X : gset Path) (f : B * HunkTrackerActor → A → B * HunkTrackerActor) (l : list A)
    (s : B * HunkTrackerActor) :
  (∀ s x, ok uuid I X s.2 → ok uuid I X (f s x).2) → ok uuid I X s.2 → ok uuid I X (fold_left f l s).2.
Proof. intros Hf. revert s. induction l as [|x l IH]; intros s Hok; simpl; auto. Qed.

(** Reading the repository changes nothing that matters. *)
Lemma read_baseline_ok (I : gset HunkId) (X : gset Path) (w : World) (path : Path) (a : HunkTrackerActor) :
  ok uuid I X a → ok uuid I X (read_baseline w path a).2.
Proof. intros Hok. unfold read_baseline. destruct (open_or_discover _ _ _). by apply (ok_same _ _ _ a). Qed.

Lemma preloaded_or_read_ok (I : gset HunkId) (X : gset Path) (w : World) (path : Path) (pre : option FileContentState) (a : HunkTrackerActor) :
  ok uuid I X a → ok uuid I X (preloaded_or_read w path pre a).2.
Proof. intros Hok. destruct pre; [done|by apply read_baseline_ok]. Qed.

Lemma read_baselines_batch_ok (I : gset HunkId) (X : gset Path) (w : World) (ps : list Path) (a : HunkTrackerActor) :
  ok uuid I X a → ok uuid I X (read_baselines_batch w ps a).2.
Proof.
  intros Hok. unfold read_baselines_batch. destruct (_ || _); [done|]. destruct (open_or_discover _ _ _).
  by apply (ok_same _ _ _ a).
Qed.

Lemma read_repo_sync_state_ok (I : gset HunkId) (X : gset Path) (w : World) (a : HunkTrackerActor) :
  ok uuid I X a → ok uuid I X (read_repo_sync_state w a).2.
Proof. intros Hok. unfold read_repo_sync_state. destruct (open_or_discover _ _ _). by apply (ok_same _ _ _ a). Qed.

End Generic.

(** Goals about a state that differs in what does not matter. *)
Ltac same := match goal with |- ok _ _ _ ?b => match b with
  | send_event _ ?a => apply (ok_same _ _ _ a); [done..|]
  | send_all _ ?a => apply (ok_same _ _ _ a); [done..|]
  | with_caches _ _ ?a => apply (ok_same _ _ _ a); [done..|]
  | with_repo _ ?a => apply (ok_same _ _ _ a); [done..|]
  | with_sync _ ?a => apply (ok_same _ _ _ a); [done..|]
  | with_mode _ ?a => apply (ok_same _ _ _ a); [done..|]
  | with_stats _ ?a => apply (ok_same _ _ _ a); [done..|]
  end end.

(** ** Actions in general *)

(** Every write and every removal succeeds. *)
Definition writable (w : World) : Prop := (∀ p b, write_ok w p b = true) ∧ ∀ p, remove_ok w p = true.

(** The commands that replace the state of the tracker, or the paths in it, aside. *)
Definition steady (c : HunkTrackerCommand) : Prop :=
  match c with SetWorkingDir _ | RestoreState _ => False | _ => True end.

Definition ids_of (hs : list Hunk) : gset HunkId := list_to_set (map hunk_id hs).

(** Hunks of one file that are chosen for an action. *)
Definition chosen (a : HunkTrackerActor) (x : Path * list Hunk) : Prop :=
  x.2 ≠ [] ∧ ∃ st, file_states a !! x.1 = Some st ∧ ∀ h, h ∈ x.2 → h ∈ hunks st.

Lemma filter_sublist {A : Type} (f : A → bool) (l : list A) : List.filter f l `sublist_of` l.
Proof. induction l as [|x l IH]; simpl; [done|]. destruct (f x); by constructor. Qed.

Lemma omap_fst {A B : Type} (f : Path * A → option (Path * B)) (l : list (Path * A)) :
  (∀ x y, f x = Some y → y.1 = x.1) → map fst (omap f l) `sublist_of` map fst l.
Proof.
  intros Hf. induction l as [|x l IH]; [done|]. cbn [omap list_omap map]. destruct (f x) as [y|] eqn:E; [|by constructor].
  cbn [map]. rewrite (Hf x y E). by constructor.
Qed.

Lemma notes_frame (action : HunkAction) (hs : list Hunk) (a : HunkTrackerActor) :
  let a' := fold_left (fun a h => note_action action h a) hs a in
  file_states a' = file_states a ∧ turn_index a' = turns_remove hs (turn_index a) ∧ drawn a' = drawn a ∧ output a' = output a.
Proof.
  simpl. revert a. induction hs as [|h hs IH]; intros a; [done|]. simpl. destruct (IH (note_action action h a)) as (-> & -> & -> & ->).
  by destruct action.
Qed.

Lemma drop_one (hs : list Hunk) (st : FileHunkState) (h : Hunk) :
  hunks st = [h] → hs ≠ [] → (∀ x, x ∈ hs → x ∈ hunks st) → hunks (drop_hunks (map hunk_id hs) st) = [].
Proof.
  intros E Hne Hin. simpl. rewrite E in *. destruct hs as [|x hs]; [done|].
  assert (x = h) as -> by (apply list_elem_of_singleton, Hin; by left). simpl.
  by rewrite bool_decide_eq_true_2 by left.
Qed.

Lemma find_hunk_lives (i : HunkId) (a : HunkTrackerActor) (p : Path) (h : Hunk) :
  find_hunk i a = Some (p, h) → lives a p h ∧ hunk_id h = i.
Proof.
  unfold find_hunk. intros E. assert ((p, h) ∈ omap (fun '(p, st) => h ← List.find (fun h => hunk_id h =b i) (hunks st); Some (p, h))
    (map_to_list (file_states a))) as Hin by (destruct (omap _ _); simplify_eq/=; by left).
  apply list_elem_of_omap in Hin as ([q st] & Hq%elem_of_map_to_list & Es).
  destruct (List.find _ (hunks st)) as [x|] eqn:Ef; simplify_eq/=. apply find_some in Ef as [Hx Ei%beq_true].
  split; [|done]. exists st. split; [done|by apply list_elem_of_In].
Qed.

Lemma files_with_chosen (f : Hunk → bool) (a : HunkTrackerActor) :
  NoDup (map fst (files_with f a)) ∧ Forall (chosen a) (files_with f a).
Proof.
  unfold files_with. split.
  - eapply sublist_NoDup; [apply (NoDup_fst_map_to_list (file_states a))|]. apply omap_fst. intros [p st] y. by destruct (List.filter f (hunks st)); intros [= <-].
  - apply Forall_forall. intros x Hx. apply list_elem_of_omap in Hx as ([p st] & Hp%elem_of_map_to_list & E).
    destruct (List.filter f (hunks st)) as [|h hs] eqn:Ef; simplify_eq. split; [done|]. exists st. split; [done|].
    intros y Hy. cbn [snd] in Hy. rewrite <-Ef in Hy. eapply elem_of_sublist; [exact Hy|apply filter_sublist].
Qed.

Section Acting.
Context `{DiffEnv} (uuid : nat → HunkId) (I : gset HunkId).

Lemma ok_noted (action : HunkAction) (hs : list Hunk) (a : HunkTrackerActor) :
  ok uuid I ∅ a → ok uuid (ids_of hs ∪ I) ∅ (fold_left (fun a h => note_action action h a) hs a).
Proof.
  intros Hok. destruct (notes_frame action hs a) as (Ef & Et & Ed & _).
  apply (ok_shrink _ I _ ∅ _ a); [done|by rewrite Ed| |].
  - intros p st. rewrite Ef. intros E. split; [right; by exists st|]. by apply (ok_exact _ _ _ _ Hok p).
  - intros p h _ _ Hi Ht. rewrite Et. apply turns_remove_in; [apply Ht; set_solver|]. unfold ids_of in Hi. set_solver.
Qed.

(** The chosen hunks of a file go. *)
Lemma ok_drop (path : Path) (hs : list Hunk) (st st' : FileHunkState) (Y : gset Path) (a : HunkTrackerActor) :
  ok uuid (ids_of hs ∪ I) ∅ a → file_states a !! path = Some st → (∀ h, h ∈ hs → h ∈ hunks st) →
  hunks st' = hunks (drop_hunks (map hunk_id hs) st) →
  (path ∉ Y → pending_exact (is_agent_file st') (baseline st') (current_content st') (hunks st')) → ok uuid I Y (set_file path st' a).
Proof.
  intros Hok Est Hin Eh He. apply (ok_shrink _ (ids_of hs ∪ I) I ∅ Y a); [done|done| |].
  - intros p s E. simpl in E. destruct (decide (p = path)) as [->|Hne].
    + rewrite lookup_insert_eq in E. simplify_eq. split; [|done]. right. exists st. split; [done|]. rewrite Eh. apply filter_sublist.
    + rewrite lookup_insert_ne in E by done. split; [right; by exists s|]. intros _. apply (ok_exact _ _ _ _ Hok p); [done|set_solver].
  - intros p h (s & E & Hh) Hl Hni Ht. apply Ht. intros [Hi|?]%elem_of_union; [|done]. unfold ids_of in Hi. rewrite elem_of_list_to_set in Hi.
    assert (p = path) as ->.
    { apply list_elem_of_fmap in Hi as (o & Eo & Ho). apply (ok_unique _ _ _ _ Hok p path h o); [done| |done]. exists st. auto. }
    simpl in E. rewrite lookup_insert_eq in E. simplify_eq. rewrite Eh in Hh. simpl in Hh.
    apply list_elem_of_In, filter_In in Hh as [_ Hh%negb_true_iff%bool_decide_eq_false]. done.
Qed.

(** What the two actions do when there is something to act on. *)
Lemma accept_tracked (path : Path) (hs : list Hunk) (st : FileHunkState) (a : HunkTrackerActor) :
  hs ≠ [] → file_states a !! path = Some st →
  accept_hunks uuid path hs a =
    let sent := removal_events path hs Accepted ++ [BaselineUpdated path] in
    let settled b := set_file path (drop_hunks (map hunk_id hs) (with_accepted true (with_baseline b st))) a in
    if bool_decide (baseline st = Missing) then send_all sent (settled (current_content st))
    else
      let a := send_all sent (settled (fold_left (fun b h => match b with Full t => Full (apply_hunk h t) | b => b end)
                 (sort_desc (fun h => old_start (line_info h)) hs) (baseline st))) in
      recompute_hunks uuid path (Some (current_content st)) (remaining_source path a) a.
Proof. intros Hne E. unfold accept_hunks. rewrite E. by destruct hs. Qed.

Lemma reject_tracked (w : World) (path : Path) (hs : list Hunk) (st : FileHunkState) (a : HunkTrackerActor) :
  hs ≠ [] → file_states a !! path = Some st →
  reject_hunks uuid w path hs a =
    let settled c a := send_all (removal_events path hs Rejected) (set_file path (drop_hunks (map hunk_id hs) (with_current c st)) a) in
    match current_content st, baseline st with
    | Missing, Full b =>
        match write_file w path b a with None => (Err (WriteError path), a) | Some a => (Ok tt, settled (Full b) a) end
    | Full _, Missing =>
        match remove_file w path a with None => (Err (DeleteError path), a) | Some a => (Ok tt, settled Missing a) end
    | Full c, _ =>
        let patched := fold_left (fun t h => revert_hunk h t) (sort_desc (fun h => new_start (line_info h)) hs) c in
        match write_file w path patched a with
        | None => (Err (WriteError path), a)
        | Some a => let a := settled (Full patched) a in
                    (Ok tt, recompute_hunks uuid path (Some (Full patched)) (remaining_source path a) a)
        end
    | _, _ => (Ok tt, a)
    end.
Proof. intros Hne E. unfold reject_hunks. rewrite E. by destruct hs. Qed.

Lemma recompute_others (path q : Path) (c : option FileContentState) (s : HunkSource) (a : HunkTrackerActor) :
  q ≠ path → file_states (recompute_hunks uuid path c s a) !! q = file_states a !! q.
Proof. intros Hq. unfold recompute_hunks. destruct (file_states a !! path); [|done]. simpl. by rewrite lookup_insert_ne. Qed.

(** An action on one file leaves the others alone. *)
Lemma act_others (w : World) (action : HunkAction) (path : Path) (hs : list Hunk) (a : HunkTrackerActor) (q : Path) :
  q ≠ path → file_states (act uuid w action path hs a).2 !! q = file_states a !! q.
Proof.
  intros Hq. destruct action; unfold act; [unfold accept_hunks|unfold reject_hunks]; (destruct hs; [done|]);
    (destruct (file_states a !! path) as [st|]; [|done]); cbv zeta.
  - destruct (bool_decide _); [simpl; by rewrite lookup_insert_ne|]. simpl. rewrite recompute_others by done. simpl. by rewrite lookup_insert_ne.
  - unfold write_file, remove_file. destruct (current_content st), (baseline st); try done; destruct (_ : bool);
      try done; simpl; rewrite ?recompute_others by done; simpl; by rewrite ?lookup_insert_ne.
Qed.

End Acting.

Section Invariant.
Context `{DiffEnv} {Hdiff : DiffSpec} (uuid : nat → HunkId) {Huuid : Inj (=) (=) uuid} (I : gset HunkId).

#[local] Notation okay := (ok uuid I ∅).

Lemma recompute_settles (path : Path) (c : option FileContentState) (s : HunkSource) (a : HunkTrackerActor) :
  ok uuid I {[ path ]} a → ok uuid I ∅ (recompute_hunks uuid path c s a).
Proof. intros Hok%(recompute_ok uuid Huuid _ _ path c s). eapply ok_mono; [exact Hok|done|set_solver]. Qed.

Lemma recompute_keeps (path : Path) (c : option FileContentState) (s : HunkSource) (a : HunkTrackerActor) :
  okay a → okay (recompute_hunks uuid path c s a).
Proof. intros Hok. apply recompute_settles. eapply ok_mono; [exact Hok|done|set_solver]. Qed.

Lemma start_tracking_ok (path : Path) (b c : FileContentState) (a : HunkTrackerActor) :
  okay a → ok uuid I {[ path ]} (start_tracking path b c a) ∧ (nothing_between b c → okay (start_tracking path b c a)).
Proof.
  intros Hok. unfold start_tracking. split; [|intros Hn]; same; (eapply ok_set; [exact Hok|set_solver|by left|]); [set_solver|].
  intros _. by apply pending_none.
Qed.

Lemma not_text_none (b c : FileContentState) : is_diffable c = false → c ≠ Missing → nothing_between b c.
Proof. by destruct b, c. Qed.

Lemma neither_text_none (b c : FileContentState) : is_diffable b = false → is_diffable c = false → nothing_between b c.
Proof. by destruct b, c. Qed.

Lemma classified_present (s : bytes) : classify_string s ≠ Missing.
Proof. unfold classify_string. by repeat case_match. Qed.

Lemma start_recompute_ok (path : Path) (b c : FileContentState) (c' : option FileContentState) (s : HunkSource) (a : HunkTrackerActor) :
  okay a → okay (recompute_hunks uuid path c' s (start_tracking path b c a)).
Proof. intros Hok. by apply recompute_settles, start_tracking_ok. Qed.

Lemma record_agent_write_ok (w : World) (path : Path) (content : bytes) (p : nat) (previous : option bytes) (a : HunkTrackerActor) :
  okay a → okay (record_agent_write uuid w path content p previous a).
Proof.
  intros Hok. unfold record_agent_write. pose proof (read_baseline_ok uuid I ∅ w path a Hok) as Hr.
  destruct (read_baseline w path a) as [b a1]. simpl in Hr. destruct (is_diffable (classify_string content)) eqn:Ed; cbn [negb];
    destruct (file_states a !! path) as [st|] eqn:E.
  - apply recompute_settles. eapply ok_set; [exact Hok|set_solver|right; by exists st|set_solver].
  - apply recompute_settles. same. eapply ok_set; [exact Hr|set_solver|by left|set_solver].
  - eapply ok_set; [done..|by left|]. intros _. by apply pending_none, not_text_none; [|apply classified_present].
  - destruct previous; same; (eapply ok_set; [done..|by left|]); intros _; (by apply pending_none, not_text_none; [|apply classified_present]).
Qed.

Lemma process_file_change_ok (w : World) (path : Path) (pre : option FileContentState) (a : HunkTrackerActor) :
  okay a → okay (process_file_change uuid w path pre a).
Proof.
  intros Hok. unfold process_file_change. pose proof (preloaded_or_read_ok uuid I ∅ w path pre a Hok) as Hr.
  destruct (preloaded_or_read w path pre a) as [b a1]. simpl in Hr. destruct (_ && _); [done|].
  set (c := read_file_bounded _). destruct (negb (is_diffable c) && _) eqn:Ec.
  - apply andb_true_iff in Ec as [Hc%negb_true_iff _].
    destruct (bool_decide _); (destruct (ignored _ _ _ _); [done|]); (match goal with |- context [if is_diffable ?x then _ else _] => destruct (is_diffable x) eqn:Ed end; [by apply start_recompute_ok|]);
      apply start_tracking_ok; try done; by apply neither_text_none.
  - destruct (file_states a !! path) as [st|].
    + destruct (baseline_accepted st); [destruct (content_matches_head _ _ _ _)|]; try by apply recompute_keeps.
      eapply ok_set; [done..|by left|]. intros _. by apply pending_none, nothing_between_same.
    + destruct (ignored _ _ _ _); [done|]. by apply start_recompute_ok.
Qed.

Lemma handle_file_changes_batch_ok (w : World) (ps : list Path) (a : HunkTrackerActor) :
  okay a → okay (handle_file_changes_batch uuid w ps a).
Proof.
  intros Hok. unfold handle_file_changes_batch. destruct ps as [|p ps]; [done|]. set (qs := List.filter _ _).
  pose proof (read_baselines_batch_ok uuid I ∅ w qs a Hok) as Hr. destruct (read_baselines_batch w qs a) as [bs a1]. simpl in Hr.
  apply fold_snd_ok; [|done]. intros [d a2] q H2. by apply process_file_change_ok.
Qed.

Lemma handle_file_deleted_ok (w : World) (path : Path) (a : HunkTrackerActor) : okay a → okay (handle_file_deleted uuid w path a).
Proof.
  intros Hok. unfold handle_file_deleted. destruct (file_states a !! path).
  - destruct (path_exists w path); [by apply process_file_change_ok|by apply recompute_keeps].
  - destruct (bool_decide _); [done|]. destruct (path_exists w path); [done|].
    pose proof (read_baseline_ok uuid I ∅ w path a Hok) as Hr. destruct (read_baseline w path a) as [b a1]. simpl in Hr.
    destruct (bool_decide _); [done|]. by apply start_recompute_ok.
Qed.

Lemma reset_baseline_ok (path : Path) (a : HunkTrackerActor) : okay a → okay (reset_baseline path a).
Proof.
  intros Hok. unfold reset_baseline. destruct (file_states a !! path) as [st|] eqn:E; [|done].
  apply (ok_retire uuid I ∅ path st a); [done..| |done|done]. intros p s. simpl. destruct (decide (p = path)) as [->|Hne].
  - rewrite lookup_insert_eq. intros [= <-]. left. split_and!; [done..|]. apply pending_none, nothing_between_same.
  - rewrite lookup_insert_ne by done. by right.
Qed.

Lemma refresh_git_dirty_cache_ok (w : World) (scope : option (list Path)) (a : HunkTrackerActor) :
  okay a → okay (refresh_git_dirty_cache uuid w scope a).
Proof.
  intros Hok. unfold refresh_git_dirty_cache. destruct (bool_decide _); [done|]. destruct (open_or_discover _ _ _) as [prefix repo].
  destruct (bool_decide _); [apply fold_ok|]; [intros; by apply process_file_change_ok| |]; by repeat same.
Qed.

(** A file that is clean has nothing to show, unless git ignores it. *)
Lemma clean_none (w : World) (path : Path) (b c : FileContentState) (a : HunkTrackerActor) :
  is_clean w path b c a = true → pending_exact true b c [].
Proof. intros Hc. left. split; [done|]. destruct b, c; simpl in *; auto; congruence. Qed.

Lemma refresh_file_ok (w : World) (bs : gmap Path FileContentState) (path : Path) (a : HunkTrackerActor) :
  okay a → okay (refresh_file uuid w bs path a).
Proof.
  intros Hok. unfold refresh_file. destruct (file_states a !! path) as [st|] eqn:E; [|done].
  destruct (is_clean _ _ _ _ _) eqn:Hclean; [destruct (is_agent_file st) eqn:Ha|].
  - apply (ok_retire uuid I ∅ path st a); [done..| |done|done]. intros p s. simpl. destruct (decide (p = path)) as [->|Hne].
    + rewrite lookup_insert_eq. intros [= <-]. left. simpl. rewrite Ha. split_and!; [done..|]. by apply clean_none in Hclean.
    + rewrite !lookup_insert_ne by done. by right.
  - apply (ok_retire uuid I ∅ path st a); [done..| |done|done]. intros p s. simpl. destruct (decide (p = path)) as [->|Hne].
    + by rewrite lookup_delete_eq.
    + rewrite lookup_delete_ne, lookup_insert_ne by done. by right.
  - same. apply recompute_settles. eapply ok_set; [exact Hok|set_solver|right; by exists st|set_solver].
Qed.

Lemma refresh_all_baselines_except_ok (w : World) (skip : gset Path) (a : HunkTrackerActor) :
  okay a → okay (refresh_all_baselines_except uuid w skip a).
Proof.
  intros Hok. unfold refresh_all_baselines_except. destruct (_ && _); [done|].
  pose proof (read_repo_sync_state_ok uuid I ∅ w a Hok) as H1. destruct (read_repo_sync_state w a) as [sync a1]. simpl in H1.
  destruct (bool_decide _); [done|]. set (a2 := match sync with Some s => with_sync s a1 | None => a1 end).
  assert (okay a2) as H2 by (unfold a2; destruct sync; [by same|done]). clearbody a2. clear H1 a1.
  set (a3 := match mode a2 with AgentOnly => _ | AllDirty => _ end).
  assert (okay a3) as H3.
  { unfold a3. destruct (mode a2); [destruct (omap _ _); [by same|]|]; by apply refresh_git_dirty_cache_ok. }
  clearbody a3. set (ps := List.filter _ _). pose proof (read_baselines_batch_ok uuid I ∅ w ps a3 H3) as H4.
  destruct (read_baselines_batch w ps a3) as [bs a4]. apply fold_ok; [intros; by apply refresh_file_ok|done].
Qed.

Lemma set_mode_ok (w : World) (m : TrackingMode) (a : HunkTrackerActor) : okay a → okay (set_mode uuid w m a).
Proof.
  intros Hok. unfold set_mode. destruct (mode a), m; try by same.
  - apply refresh_git_dirty_cache_ok. by same.
  - apply fold_ok; [|by same]. clear a Hok. intros a p Hok. destruct (file_states a !! p) as [st|] eqn:E; [|done].
    apply (ok_retire uuid I ∅ p st a); [done..| |done|done]. intros q s. simpl. destruct (decide (q = p)) as [->|Hne].
    + by rewrite lookup_delete_eq.
    + rewrite lookup_delete_ne by done. by right.
Qed.

(** *** Actions *)

(** What an action leaves: the invariant, without the turns of the hunks it was about
    to drop when a write failed. *)
Lemma act_ok (w : World) (action : HunkAction) (path : Path) (hs : list Hunk) (st : FileHunkState) (a : HunkTrackerActor) :
  ok uuid (ids_of hs ∪ I) ∅ a → hs ≠ [] → file_states a !! path = Some st → (∀ h, h ∈ hs → h ∈ hunks st) →
  let '(r, a') := act uuid w action path hs a in
  (writable w → r = Ok tt) ∧ match r with Ok _ => okay a' | Err _ => ok uuid (ids_of hs ∪ I) ∅ a' end.
Proof.
  intros Hok Hne Est Hin. assert (∀ st' Y a', file_states a' = file_states a → turn_index a' = turn_index a →
    drawn a' = drawn a → hunks st' = hunks (drop_hunks (map hunk_id hs) st) →
    (path ∉ Y → pending_exact (is_agent_file st') (baseline st') (current_content st') (hunks st')) → ok uuid I Y (set_file path st' a')) as Hdrop.
  { intros st' Y a' Ef Et Ed Eh He. apply (ok_drop uuid I path hs st); [by apply (ok_same _ _ _ a)|by rewrite Ef|done..]. }
  pose proof (ok_exact _ _ _ _ Hok path st Est (not_elem_of_empty _)) as Hex.
  assert (∀ h, hunks st = [h] → hunks (drop_hunks (map hunk_id hs) st) = []) as Hone by (intros h E; by apply (drop_one hs st h)).
  assert (hunks st ≠ []) as Hns
    by (destruct hs as [|h hs]; [done|]; intros E; specialize (Hin h); rewrite E in Hin; by apply (not_elem_of_nil h), Hin; left).
  destruct Hex as [[? _]|Hex]; [done|]. destruct action; unfold act.
  - split; [done|]. rewrite (accept_tracked _ path hs st a) by done. cbv zeta.
    destruct (bool_decide_reflect (baseline st = Missing)) as [Eb|_].
    + same. apply Hdrop; [done..|]. intros _. rewrite Eb in Hex. destruct (current_content st) eqn:Ec; try done.
      destruct Hex as (h & E & _). pose proof (Hone h E) as Hd. simpl in *. rewrite Hd, Ec. apply pending_none, nothing_between_same.
    + apply recompute_settles. same. apply Hdrop; [done..|set_solver].
  - rewrite (reject_tracked _ w path hs st a) by done. cbv zeta. unfold write_file, remove_file.
    destruct (current_content st) as [| | | | |c], (baseline st) as [| | | | |b] eqn:Eb; try done;
      match goal with |- context [if ?t then _ else _] => destruct t eqn:Hw end; try (split; [intros [Ht Hr]; congruence|done]);
      (split; [done|]).
    + same. apply Hdrop; [done..|]. intros _. destruct Hex as (h & E & _). pose proof (Hone h E) as Hd. simpl in *.
      rewrite Hd, Eb. apply pending_none, nothing_between_same.
    + same. apply Hdrop; [done..|]. intros _. destruct Hex as (h & E & _). pose proof (Hone h E) as Hd. simpl in *.
      rewrite Hd, Eb. apply pending_none, nothing_between_same.
    + apply recompute_settles. same. apply Hdrop; [done..|set_solver].
Qed.

End Invariant.

(** ** Commands, whatever the disk answers *)

Section Commands.
Context `{DiffEnv} {Hdiff : DiffSpec} (uuid : nat → HunkId) {Huuid : Inj (=) (=) uuid}.

(** The invariant with other hunks aside, the same ones while every write succeeds. *)
Definition kept (w : World) (I : gset HunkId) (a : HunkTrackerActor) : Prop := ∃ J, ok uuid J ∅ a ∧ (writable w → J = I).

Lemma kept_ok (w : World) (I : gset HunkId) (a : HunkTrackerActor) : ok uuid I ∅ a → kept w I a.
Proof. intros Hok. by exists I. Qed.

Lemma kept_bind (w : World) (I : gset HunkId) (f : HunkTrackerActor → HunkTrackerActor) (a : HunkTrackerActor) :
  (∀ J a, ok uuid J ∅ a → kept w J (f a)) → kept w I a → kept w I (f a).
Proof.
  intros Hf (J & Hok & HJ). destruct (Hf J a Hok) as (K & Hk & HK). exists K. split; [done|]. intros Hw. by rewrite HK, HJ.
Qed.

(** An action on chosen hunks, behind its bookkeeping. *)
Lemma noted_act_ok (w : World) (I : gset HunkId) (action : HunkAction) (path : Path) (hs : list Hunk) (a : HunkTrackerActor) :
  ok uuid I ∅ a → chosen a (path, hs) →
  let '(r, a') := act uuid w action path hs (fold_left (fun a h => note_action action h a) hs a) in
  (writable w → r = Ok tt) ∧ match r with Ok _ => ok uuid I ∅ a' | Err _ => kept w I a' end.
Proof.
  intros Hok (Hne & st & Est & Hin). destruct (notes_frame action hs a) as (Ef & _). pose proof (ok_noted uuid I action hs a Hok) as Hn.
  set (a1 := fold_left _ _ _) in *. pose proof (act_ok uuid I w action path hs st a1 Hn Hne ltac:(by rewrite Ef) Hin) as Ha.
  destruct (act _ _ _ _ _ _) as [[|e] a']; destruct Ha as [Hr Ha]; split; try done.
  exists (ids_of hs ∪ I). split; [done|]. by intros Hw%Hr.
Qed.

Lemma apply_action_batch_ok (w : World) (I : gset HunkId) (files : list (Path * list Hunk)) (action : HunkAction)
    (affected : list HunkId) (a : HunkTrackerActor) :
  ok uuid I ∅ a → NoDup (map fst files) → Forall (chosen a) files → kept w I (apply_action_batch uuid w files action affected a).2.
Proof.
  revert affected a. induction files as [|[path hs] files IH]; intros affected a Hok Hnd Hf; cbn [apply_action_batch]; [by apply kept_ok|].
  inversion Hf as [|? ? Hc Hfs]; subst. apply NoDup_cons in Hnd as [Hp Hnd]. pose proof (noted_act_ok w I action path hs a Hok Hc) as Ha.
  destruct (notes_frame action hs a) as (Ef & _). set (a1 := fold_left _ _ _) in *.
  assert (∀ q, q ∈ map fst files → file_states (act uuid w action path hs a1).2 !! q = file_states a !! q) as Ho
    by (intros q Hq; rewrite <-Ef; apply act_others; by intros ->).
  destruct (act _ _ _ _ _ _) as [[|e] a']; destruct Ha as [_ Ha]; [|done]. apply IH; [done..|].
  rewrite Forall_forall in Hfs |- *. intros x Hx. destruct (Hfs x Hx) as (Hg & st & Es & Hi). split; [done|]. exists st.
  split; [|done]. rewrite <-Es. apply Ho. by apply list_elem_of_fmap_2.
Qed.

Lemma files_with_ok (w : World) (I : gset HunkId) (f : Hunk → bool) (action : HunkAction) (a : HunkTrackerActor) :
  ok uuid I ∅ a → kept w I (apply_action_batch uuid w (files_with f a) action [] a).2.
Proof. intros Hok. destruct (files_with_chosen f a) as [H1 H2]. by apply apply_action_batch_ok. Qed.

Lemma apply_hunk_action_ok (w : World) (I : gset HunkId) (i : HunkId) (action : HunkAction) (a : HunkTrackerActor) :
  ok uuid I ∅ a → kept w I (apply_hunk_action uuid w i action a).2.
Proof.
  intros Hok. unfold apply_hunk_action. destruct (find_hunk i a) as [[path h]|] eqn:E; [|by apply kept_ok].
  apply find_hunk_lives in E as [(st & Est & Hin) _]. pose proof (noted_act_ok w I action path [h] a Hok) as Ha. simpl in Ha.
  destruct (act _ _ _ _ _ _) as [[|e] a']; destruct Ha as [_ Ha]; try done.
  1, 3: split; [done|]; exists st; split; [done|]; by intros h' ->%list_elem_of_singleton. by apply kept_ok.
Qed.

Lemma apply_file_action_ok (w : World) (I : gset HunkId) (path : Path) (action : HunkAction) (a : HunkTrackerActor) :
  ok uuid I ∅ a → kept w I (apply_file_action uuid w path action a).2.
Proof.
  intros Hok. unfold apply_file_action. destruct (file_states a !! path) as [st|] eqn:E; [|by apply kept_ok].
  destruct (hunks st) as [|h hs] eqn:Eh; [by apply kept_ok|]. apply apply_action_batch_ok; [done| |].
  - apply NoDup_singleton.
  - apply Forall_singleton. split; [done|]. exists st. by rewrite Eh.
Qed.

Lemma handle_command_ok (w : World) (I : gset HunkId) (c : HunkTrackerCommand) (a : HunkTrackerActor) :
  steady c → ok uuid I ∅ a → kept w I (handle_command uuid w c a).2.
Proof.
  intros Hc Hok. destruct c; simpl; try done; try by apply kept_ok.
  - by apply kept_ok, record_agent_write_ok.
  - by apply kept_ok, process_file_change_ok.
  - by apply kept_ok, handle_file_deleted_ok.
  - by apply kept_ok, refresh_git_dirty_cache_ok.
  - by apply kept_ok, reset_baseline_ok.
  - by apply kept_ok, set_mode_ok.
  - pose proof (apply_hunk_action_ok w I i action a Hok). by destruct (apply_hunk_action _ _ _ _ _).
  - pose proof (apply_file_action_ok w I path action a Hok). by destruct (apply_file_action _ _ _ _ _).
  - pose proof (files_with_ok w I (fun _ => true) action a Hok). unfold apply_all_action. by destruct (apply_action_batch _ _ _ _ _ _).
  - unfold apply_turn_action. set (f := fun h => _). pose proof (files_with_ok w I f action a Hok).
    by destruct (apply_action_batch _ _ _ _ _ _).
  - apply kept_ok. by same.
  - by apply kept_ok, refresh_all_baselines_except_ok.
Qed.

Lemma handle_commands_ok (w : World) (I : gset HunkId) (cs : list HunkTrackerCommand) (a : HunkTrackerActor) :
  Forall steady cs → kept w I a → kept w I (handle_commands uuid w cs a).2.
Proof.
  intros Hcs. revert a. induction Hcs as [|c cs Hc _ IH]; intros a Hk; simpl; [done|].
  pose proof (kept_bind w I (fun a => (handle_command uuid w c a).2) a (fun J a => handle_command_ok w J c a Hc) Hk) as H1. cbv beta in H1.
  destruct (handle_command uuid w c a) as [r a1]. specialize (IH a1 H1). by destruct (handle_commands uuid w cs a1).
Qed.

Lemma handle_coalesced_batch_ok (w : World) (I : gset HunkId) (b : CoalescedBatch) (a : HunkTrackerActor) :
  Forall steady (other_commands b) → ok uuid I ∅ a → kept w I (handle_coalesced_batch uuid w b a).2.
Proof.
  intros Hcs Hok. unfold handle_coalesced_batch. apply handle_commands_ok; [done|]. apply kept_ok.
  set (a1 := if refresh_dirty b && negb (refresh_all b) then _ else a).
  assert (ok uuid I ∅ a1) as H1 by (unfold a1; destruct (_ && _); [by apply refresh_git_dirty_cache_ok|done]). clearbody a1.
  destruct (refresh_all b).
  - match goal with |- context [fold_left ?f ?l (∅, a1)] => pose proof (fold_snd_ok uuid I ∅ f l (∅, a1)) as Hl; destruct (fold_left f l (∅, a1)) as [d a2] end.
    apply refresh_all_baselines_except_ok, Hl; [done| |done]. intros [d' a3] [p x] H3. simpl in H3.
    destruct (is_deletion x); destruct (tracked p a3); try done; [by apply handle_file_deleted_ok|by apply process_file_change_ok].
  - apply handle_file_changes_batch_ok, fold_ok; [done| |done]. intros a2 [p x] H2. destruct (is_deletion x); [by apply handle_file_deleted_ok|done].
Qed.

(** A write of text by the agent shows all of it. *)
Lemma record_agent_write_shows (w : World) (path : Path) (content : bytes) (p : nat) (previous : option bytes) (a : HunkTrackerActor) :
  is_diffable (classify_string content) = true →
  ∃ st, file_states (record_agent_write uuid w path content p previous a) !! path = Some st
    ∧ current_content st = Full content ∧ pending_exact false (baseline st) (Full content) (hunks st)
    ∧ (∀ old, file_states a !! path = Some old → baseline st = baseline old).
Proof.
  intros Hd. unfold record_agent_write. rewrite Hd. cbn [negb]. assert (classify_string content = Full content) as Ec
    by (unfold classify_string in *; by repeat case_match).
  rewrite Ec. assert (∀ st a', file_states a' !! path = Some st →
    ∃ st', file_states (recompute_hunks uuid path (Some (Full content)) (AgentEdit p) a') !! path = Some st'
      ∧ current_content st' = Full content ∧ pending_exact false (baseline st') (Full content) (hunks st') ∧ baseline st' = baseline st) as Hr.
  { intros st a' E. unfold recompute_hunks. rewrite E. cbv zeta. eexists. split; [apply lookup_insert_eq|]. split_and!; [done| |done].
    apply pending_exact_claim, hunks_between_exact. }
  destruct (file_states a !! path) as [st|] eqn:E.
  - destruct (Hr (with_agent_file true st) (set_file path (with_agent_file true st) a)) as (st' & ? & ? & ? & Eb);
      [apply lookup_insert_eq|]. exists st'. split_and!; [done..|]. by intros ? [= <-].
  - destruct (read_baseline w path a) as [b a1]. set (b' := match b with Missing => _ | _ => b end).
    destruct (Hr (mkState b' (Full content) [] true false) (send_event (FileAdded path true) (set_file path (mkState b' (Full content) [] true false) a1)))
      as (st' & ? & ? & ? & _); [apply lookup_insert_eq|]. exists st'. by split_and!.
Qed.

End Commands.
