(* ===== verification/HunkWrites.v ===== *)
(** * What the tracker does to the disk

    Only the rejection of a hunk writes or removes a file; everything else the tracker
    does is read and told. *)

From S2P Require Import Prelude RustStr StrFind Paths HunkTypes HunkDiff TextLines DiffLaws HunkTracker HunkLaws HunkInvariant.

#[local] Open Scope nat_scope.

(** The part of the output that changes the disk. *)
Definition is_touch (o : Output) : bool := match o with Sent _ => false | _ => true end.
Definition touched_path (o : Output) : option Path := match o with Sent _ => None | Wrote p _ | Deleted p => Some p end.
Definition touches (a : HunkTrackerActor) : list Output := List.filter is_touch (output a).

Lemma touches_sent (es : list HunkEvent) (a a' : HunkTrackerActor) :
  output a' = output a ++ map Sent es → touches a' = touches a.
Proof. intros E. unfold touches. rewrite E, List.filter_app. rewrite (filter_none is_touch (map Sent es)); [apply app_nil_r|]. by intros x (e & -> & _)%list_elem_of_fmap. Qed.

Lemma touches_send (e : HunkEvent) (a : HunkTrackerActor) : touches (send_event e a) = touches a.
Proof. by apply (touches_sent [e]). Qed.

Lemma touches_send_all (es : list HunkEvent) (a : HunkTrackerActor) : touches (send_all es a) = touches a.
Proof. by apply (touches_sent es). Qed.

Lemma touches_set_file (p : Path) (st : FileHunkState) (a : HunkTrackerActor) : touches (set_file p st a) = touches a.
Proof. done. Qed.

Lemma touches_note (action : HunkAction) (hs : list Hunk) (a : HunkTrackerActor) :
  touches (fold_left (fun a h => note_action action h a) hs a) = touches a.
Proof. destruct (notes_frame action hs a) as (_ & _ & _ & E). unfold touches. by rewrite E. Qed.

Lemma touches_supersede (p : Path) (hs : list Hunk) (a : HunkTrackerActor) : touches (supersede p hs a) = touches a.
Proof. unfold supersede. by rewrite touches_send_all. Qed.

Lemma touches_read_baseline (w : World) (p : Path) (a : HunkTrackerActor) : touches (read_baseline w p a).2 = touches a.
Proof. unfold read_baseline. by destruct (open_or_discover _ _ _). Qed.

Lemma touches_preloaded (w : World) (p : Path) (pre : option FileContentState) (a : HunkTrackerActor) :
  touches (preloaded_or_read w p pre a).2 = touches a.
Proof. destruct pre; [done|apply touches_read_baseline]. Qed.

Lemma touches_read_batch (w : World) (ps : list Path) (a : HunkTrackerActor) : touches (read_baselines_batch w ps a).2 = touches a.
Proof. unfold read_baselines_batch. destruct (_ || _); [done|]. by destruct (open_or_discover _ _ _). Qed.

Lemma touches_read_sync (w : World) (a : HunkTrackerActor) : touches (read_repo_sync_state w a).2 = touches a.
Proof. unfold read_repo_sync_state. by destruct (open_or_discover _ _ _). Qed.

Lemma touches_start (p : Path) (b c : FileContentState) (a : HunkTrackerActor) : touches (start_tracking p b c a) = touches a.
Proof. unfold start_tracking. by rewrite touches_send. Qed.

Lemma touches_reset (p : Path) (a : HunkTrackerActor) : touches (reset_baseline p a) = touches a.
Proof. unfold reset_baseline. destruct (file_states a !! p); [|done]. by rewrite touches_send, touches_supersede. Qed.

Lemma fold_touches {A : Type} (f : HunkTrackerActor → A → HunkTrackerActor) (l : list A) (a : HunkTrackerActor) :
  (∀ a x, touches (f a x) = touches a) → touches (fold_left f l a) = touches a.
Proof. intros Hf. revert a. induction l as [|x l IH]; intros a; simpl; [done|]. by rewrite IH. Qed.

Lemma fold_snd_touches {A B : Type} (f : B * HunkTrackerActor → A → B * HunkTrackerActor) (l : list A) (s : B * HunkTrackerActor) :
  (∀ s x, touches (f s x).2 = touches s.2) → touches (fold_left f l s).2 = touches s.2.
Proof. intros Hf. revert s. induction l as [|x l IH]; intros s; simpl; [done|]. by rewrite IH. Qed.

#[export] Hint Rewrite touches_send touches_send_all touches_set_file touches_supersede touches_start : touches.

Section Writes.
Context `{DiffEnv} (uuid : nat → HunkId).

Lemma touches_recompute (p : Path) (c : option FileContentState) (s : HunkSource) (a : HunkTrackerActor) :
  touches (recompute_hunks uuid p c s a) = touches a.
Proof. unfold recompute_hunks. destruct (file_states a !! p); [|done]. by rewrite touches_send_all. Qed.

#[local] Hint Rewrite touches_recompute : touches.

Lemma touches_record (w : World) (p : Path) (content : bytes) (n : nat) (previous : option bytes) (a : HunkTrackerActor) :
  touches (record_agent_write uuid w p content n previous a) = touches a.
Proof.
  unfold record_agent_write. pose proof (touches_read_baseline w p a) as Hr. destruct (read_baseline w p a) as [b a1]. simpl in Hr.
  destruct (negb _), (file_states a !! p), previous; by autorewrite with touches.
Qed.

Lemma touches_change (w : World) (p : Path) (pre : option FileContentState) (a : HunkTrackerActor) :
  touches (process_file_change uuid w p pre a) = touches a.
Proof.
  unfold process_file_change. pose proof (touches_preloaded w p pre a) as Hr. destruct (preloaded_or_read w p pre a) as [b a1]. simpl in Hr.
  destruct (_ && _); [done|]. destruct (_ && _).
  - destruct (bool_decide _); (destruct (ignored _ _ _ _); [done|]); destruct (is_diffable _); by autorewrite with touches.
  - destruct (file_states a !! p) as [st|].
    + destruct (baseline_accepted st); [destruct (content_matches_head _ _ _ _)|]; by autorewrite with touches.
    + destruct (ignored _ _ _ _); [done|]. by autorewrite with touches.
Qed.

Lemma touches_changes (w : World) (ps : list Path) (a : HunkTrackerActor) : touches (handle_file_changes_batch uuid w ps a) = touches a.
Proof.
  unfold handle_file_changes_batch. destruct ps as [|p ps]; [done|]. set (qs := List.filter _ _).
  pose proof (touches_read_batch w qs a) as Hr. destruct (read_baselines_batch w qs a) as [bs a1]. simpl in Hr.
  rewrite fold_snd_touches; [done|]. intros [d a2] q. apply touches_change.
Qed.

Lemma touches_deleted (w : World) (p : Path) (a : HunkTrackerActor) : touches (handle_file_deleted uuid w p a) = touches a.
Proof.
  unfold handle_file_deleted. destruct (file_states a !! p).
  - destruct (path_exists w p); [apply touches_change|by autorewrite with touches].
  - destruct (bool_decide _); [done|]. destruct (path_exists w p); [done|].
    pose proof (touches_read_baseline w p a) as Hr. destruct (read_baseline w p a) as [b a1]. simpl in Hr.
    destruct (bool_decide _); [done|]. by autorewrite with touches.
Qed.

Lemma touches_dirty (w : World) (scope : option (list Path)) (a : HunkTrackerActor) : touches (refresh_git_dirty_cache uuid w scope a) = touches a.
Proof.
  unfold refresh_git_dirty_cache. destruct (bool_decide _); [done|]. destruct (open_or_discover _ _ _) as [prefix repo].
  destruct (bool_decide _); [|done]. rewrite fold_touches; [done|]. intros a1 x. apply touches_change.
Qed.

Lemma touches_refresh_file (w : World) (bs : gmap Path FileContentState) (p : Path) (a : HunkTrackerActor) :
  touches (refresh_file uuid w bs p a) = touches a.
Proof.
  unfold refresh_file. destruct (file_states a !! p) as [st|]; [|done].
  destruct (is_clean _ _ _ _ _); [destruct (is_agent_file st)|]; by autorewrite with touches.
Qed.

Lemma touches_refresh_all (w : World) (skip : gset Path) (a : HunkTrackerActor) :
  touches (refresh_all_baselines_except uuid w skip a) = touches a.
Proof.
  unfold refresh_all_baselines_except. destruct (_ && _); [done|].
  pose proof (touches_read_sync w a) as H1. destruct (read_repo_sync_state w a) as [sync a1]. simpl in H1.
  destruct (bool_decide _); [done|]. set (a2 := match sync with Some s => with_sync s a1 | None => a1 end).
  assert (touches a2 = touches a) as H2 by (unfold a2; by destruct sync). clearbody a2.
  set (a3 := match mode a2 with AgentOnly => _ | AllDirty => _ end).
  assert (touches a3 = touches a) as H3 by (unfold a3; destruct (mode a2); [destruct (omap _ _)|]; by rewrite ?touches_dirty).
  clearbody a3. set (ps := List.filter _ _). pose proof (touches_read_batch w ps a3) as H4.
  destruct (read_baselines_batch w ps a3) as [bs a4]. simpl in H4. rewrite fold_touches; [congruence|].
  intros a5 p. apply touches_refresh_file.
Qed.

Lemma touches_set_mode (w : World) (m : TrackingMode) (a : HunkTrackerActor) : touches (set_mode uuid w m a) = touches a.
Proof.
  unfold set_mode. destruct (mode a), m; try done; [by rewrite touches_dirty|]. rewrite fold_touches; [done|].
  intros a1 p. destruct (file_states a1 !! p); by autorewrite with touches.
Qed.

(** ** Actions *)

Definition is_reject (action : HunkAction) : bool := match action with Reject => true | Accept => false end.

(** More was touched, only by a rejection and only in [P]. *)
Definition touched_in (action : HunkAction) (P : Path → Prop) (a a' : HunkTrackerActor) : Prop :=
  ∃ os, touches a' = touches a ++ os ∧ Forall (fun o => action = Reject ∧ ∃ p, touched_path o = Some p ∧ P p) os.

Lemma touched_none (action : HunkAction) (P : Path → Prop) (a a' : HunkTrackerActor) :
  touches a' = touches a → touched_in action P a a'.
Proof. intros E. exists []. rewrite app_nil_r. split; [done|constructor]. Qed.

Lemma touched_trans (action : HunkAction) (P : Path → Prop) (a b c : HunkTrackerActor) :
  touched_in action P a b → touched_in action P b c → touched_in action P a c.
Proof. intros (l & E & Hl) (r & F & Hr). exists (l ++ r). rewrite F, E, app_assoc. split; [done|by apply Forall_app]. Qed.

Lemma act_touches (w : World) (action : HunkAction) (path : Path) (hs : list Hunk) (a : HunkTrackerActor) :
  touched_in action (fun p => p = path ∧ hs ≠ [] ∧ tracked p a = true) a (act uuid w action path hs a).2.
Proof.
  destruct hs as [|h hs']; [by destruct action; apply touched_none|]. set (hs := h :: hs').
  destruct (file_states a !! path) as [st|] eqn:E.
  2:{ destruct action; apply touched_none; simpl; by rewrite E. }
  assert (tracked path a = true) as Ht by (unfold tracked; rewrite E; by apply bool_decide_eq_true_2).
  destruct action; unfold act.
  - apply touched_none. cbn [snd]. rewrite (accept_tracked _ path hs st a) by done. cbv zeta.
    destruct (bool_decide _); by autorewrite with touches.
  - rewrite (reject_tracked _ w path hs st a) by done. cbv zeta. unfold write_file, remove_file.
    assert (∀ o a' a2, touches a2 = touches a' → output a' = output a ++ [o] → touched_path o = Some path →
      touched_in Reject (fun p => p = path ∧ hs ≠ [] ∧ tracked p a = true) a a2) as Hone.
    { intros o a' a2 E2 Ea Ho. exists [o]. split; [rewrite E2; unfold touches; rewrite Ea, List.filter_app; by destruct o|].
      apply Forall_singleton. split; [done|]. by exists path. }
    destruct (current_content st), (baseline st); try (by apply touched_none);
      first [destruct (write_ok _ _ _)|destruct (remove_ok _ _)]; try (by apply touched_none);
      (eapply Hone; [cbn [snd]; autorewrite with touches; reflexivity|reflexivity|done]).
Qed.

Lemma batch_touches (w : World) (files : list (Path * list Hunk)) (action : HunkAction) (affected : list HunkId) (a : HunkTrackerActor) :
  touched_in action (fun p => ∃ hs, hs ≠ [] ∧ (p, hs) ∈ files) a (apply_action_batch uuid w files action affected a).2.
Proof.
  revert affected a. induction files as [|[path hs] files IH]; intros affected a; simpl; [by apply touched_none|].
  pose proof (touches_note action hs a) as Hn. set (a1 := fold_left (fun a h => note_action action h a) hs a) in *.
  assert (touched_in action (fun p => ∃ hs0, hs0 ≠ [] ∧ (p, hs0) ∈ (path, hs) :: files) a (act uuid w action path hs a1).2) as H1.
  { destruct (act_touches w action path hs a1) as (os & E & Hos). exists os. rewrite E, Hn. split; [done|].
    eapply Forall_impl; [exact Hos|]. intros o (Ha & p & Ho & -> & Hne & _). split; [done|]. exists path. split; [done|]. exists hs. split; [done|by left]. }
  destruct (act uuid w action path hs a1) as [r a2]. destruct r as [|e]; [|done]. eapply touched_trans; [exact H1|].
  destruct (IH (affected ++ map hunk_id hs) a2) as (os & E & Hos). exists os. split; [done|]. eapply Forall_impl; [exact Hos|].
  intros o (Ha & p & Ho & gs & Hg & Hin). split; [done|]. exists p. split; [done|]. exists gs. split; [done|by right].
Qed.

(** ** Commands and rounds *)

Definition action_of (c : HunkTrackerCommand) : option HunkAction :=
  match c with ActOnHunk _ x | FileAction _ x | AllAction x | TurnAction _ x => Some x | _ => None end.

(** More was touched, only by a rejection and only where a hunk is pending. *)
Definition rejected_in (c : HunkTrackerCommand) (a a' : HunkTrackerActor) : Prop :=
  ∃ os, touches a' = touches a ++ os
    ∧ Forall (fun o => action_of c = Some Reject ∧ ∃ p h, touched_path o = Some p ∧ lives a p h) os.

Lemma rejected_none (c : HunkTrackerCommand) (a a' : HunkTrackerActor) : touches a' = touches a → rejected_in c a a'.
Proof. intros E. exists []. rewrite app_nil_r. split; [done|constructor]. Qed.

Lemma batch_rejected (w : World) (c : HunkTrackerCommand) (action : HunkAction) (files : list (Path * list Hunk))
    (affected : list HunkId) (a : HunkTrackerActor) :
  action_of c = Some action → Forall (chosen a) files → rejected_in c a (apply_action_batch uuid w files action affected a).2.
Proof.
  intros Hc Hf. destruct (batch_touches w files action affected a) as (os & E & Hos). exists os. split; [done|].
  eapply Forall_impl; [exact Hos|]. intros o (-> & p & Ho & hs & Hne & Hin). split; [done|].
  rewrite Forall_forall in Hf. destruct (Hf _ Hin) as (_ & st & Es & Hh). destruct hs as [|h hs]; [done|].
  exists p, h. split; [done|]. exists st. split; [done|]. apply Hh. by left.
Qed.

Lemma command_touches (w : World) (c : HunkTrackerCommand) (a : HunkTrackerActor) : rejected_in c a (handle_command uuid w c a).2.
Proof.
  destruct c; simpl; try (by apply rejected_none).
  - apply rejected_none, touches_record.
  - apply rejected_none, touches_change.
  - apply rejected_none, touches_deleted.
  - apply rejected_none, touches_dirty.
  - apply rejected_none, touches_reset.
  - apply rejected_none, touches_set_mode.
  - apply rejected_none. unfold rekey_paths_for_working_dir. by destruct (_ =b _).
  - unfold apply_hunk_action. destruct (find_hunk i a) as [[path h]|] eqn:E; [|by apply rejected_none].
    apply find_hunk_lives in E as [Hl _]. destruct (act_touches w action path [h] (note_action action h a)) as (os & Eo & Hos).
    destruct (act _ _ _ _ _ _) as [r a']. exists os. split; [done|]. eapply Forall_impl; [exact Hos|].
    intros o (-> & p & Ho & -> & _). split; [done|]. by exists path, h.
  - unfold apply_file_action. destruct (file_states a !! path) as [st|] eqn:E; [|by apply rejected_none].
    destruct (hunks st) as [|h hs] eqn:Eh; [by apply rejected_none|].
    pose proof (batch_rejected w (FileAction path action) action [(path, h :: hs)] [] a eq_refl) as Hb.
    destruct (apply_action_batch _ _ _ _ _ _). apply Hb, Forall_singleton. split; [done|]. exists st. by rewrite Eh.
  - pose proof (batch_rejected w (AllAction action) action (files_with (fun _ => true) a) [] a eq_refl (proj2 (files_with_chosen _ a))) as Hb.
    unfold apply_all_action. by destruct (apply_action_batch _ _ _ _ _ _).
  - unfold apply_turn_action. set (f := fun h => _).
    pose proof (batch_rejected w (TurnAction p action) action (files_with f a) [] a eq_refl (proj2 (files_with_chosen f a))) as Hb.
    by destruct (apply_action_batch _ _ _ _ _ _).
  - apply rejected_none, touches_refresh_all.
Qed.

Lemma command_quiet (w : World) (c : HunkTrackerCommand) (a : HunkTrackerActor) :
  action_of c ≠ Some Reject → touches (handle_command uuid w c a).2 = touches a.
Proof. intros Hc. destruct (command_touches w c a) as (os & E & Hos). destruct Hos as [|o os [? _] _]; [by rewrite E, app_nil_r|done]. Qed.

Lemma commands_quiet (w : World) (cs : list HunkTrackerCommand) (a : HunkTrackerActor) :
  Forall (fun c => action_of c ≠ Some Reject) cs → touches (handle_commands uuid w cs a).2 = touches a.
Proof.
  intros Hcs. revert a. induction Hcs as [|c cs Hc _ IH]; intros a; simpl; [done|].
  pose proof (command_quiet w c a Hc) as H1. destruct (handle_command uuid w c a) as [r a1]. simpl in H1.
  specialize (IH a1). destruct (handle_commands uuid w cs a1). simpl in *. congruence.
Qed.

Lemma coalesced_quiet (w : World) (b : CoalescedBatch) (a : HunkTrackerActor) :
  Forall (fun c => action_of c ≠ Some Reject) (other_commands b) → touches (handle_coalesced_batch uuid w b a).2 = touches a.
Proof.
  intros Hcs. unfold handle_coalesced_batch. rewrite commands_quiet by done.
  set (a1 := if refresh_dirty b && negb (refresh_all b) then _ else a).
  assert (touches a1 = touches a) as H1 by (unfold a1; destruct (_ && _); [apply touches_dirty|done]). clearbody a1.
  destruct (refresh_all b).
  - match goal with |- context [fold_left ?f ?l (∅, a1)] => pose proof (fold_snd_touches f l (∅, a1)) as Hl; destruct (fold_left f l (∅, a1)) as [d a2] end.
    rewrite touches_refresh_all. simpl in Hl. rewrite Hl; [done|]. intros [d' a3] [p x].
    destruct (is_deletion x); simpl; destruct (tracked p a3); try done; [apply touches_deleted|apply touches_change].
  - rewrite touches_changes, fold_touches; [done|]. intros a2 [p x]. destruct (is_deletion x); [apply touches_deleted|done].
Qed.

End Writes.

(** ** What the operations promise *)

#[local] Open Scope nat_scope.

(** ** A diff for examples *)

(** A common prefix, and the rest replaced. *)
Fixpoint prefix_changes (old new : list bytes) : list Change :=
  match old, new with
  | x :: old', y :: new' =>
      if x =b y then (Equal, ended x) :: prefix_changes old' new'
      else map (fun l => (Delete, ended l)) old ++ map (fun l => (Insert, ended l)) new
  | _, _ => map (fun l => (Delete, ended l)) old ++ map (fun l => (Insert, ended l)) new
  end.

Definition prefix_diff : DiffEnv := {|
  diff_lines := fun b c => Some (prefix_changes (lines b) (lines c));
  unified_diff := fun _ _ _ => [];
|}.

Lemma replaced_sides (old new : list bytes) :
  let cs := map (fun l => (Delete, ended l)) old ++ map (fun l => (Insert, ended l)) new in
  old_side cs = map ended old ∧ new_side cs = map ended new.
Proof.
  cbn zeta. unfold old_side, new_side. induction old as [|x old [IH1 IH2]]; simpl.
  - induction new as [|y new [IH1 IH2]]; simpl; [done|]. split; [done|by f_equal].
  - split; [by f_equal|done].
Qed.

Lemma prefix_sides (old new : list bytes) :
  old_side (prefix_changes old new) = map ended old ∧ new_side (prefix_changes old new) = map ended new.
Proof.
  revert new. induction old as [|x old IH]; intros [|y new]; try apply replaced_sides. cbn [prefix_changes].
  destruct (x =b y) eqn:E; [|apply replaced_sides]. apply beq_true in E as ->. destruct (IH new) as [H1 H2].
  unfold old_side, new_side in *. simpl in *. split; by f_equal.
Qed.

Lemma prefix_diff_spec : @DiffSpec prefix_diff.
Proof. intros b c cs [= <-]. destruct (prefix_sides (lines b) (lines c)). by split. Qed.

(** Identifiers that count. *)
Definition counted (n : nat) : HunkId := replicate n "x"%char.

#[export] Instance counted_inj : Inj (=) (=) counted.
Proof. intros x y E. apply (f_equal length) in E. unfold counted in E. by rewrite !length_replicate in E. Qed.

(** ** Reachable states *)

Lemma coalesce_others (Q : HunkTrackerCommand → Prop) (cs : list HunkTrackerCommand) :
  Forall Q cs → Forall Q (other_commands (coalesce cs)).
Proof.
  intros Hcs. unfold coalesce. assert (Forall Q (other_commands empty_batch)) as Hb by constructor. revert Hb.
  generalize empty_batch. induction Hcs as [|c cs Hc _ IH]; intros b Hb; simpl; [done|].
  apply IH. destruct c; simpl; try done; apply Forall_app; by repeat constructor.
Qed.

Section Reachable.
Context `{DiffEnv} {Hdiff : DiffSpec} (uuid : nat → HunkId) {Huuid : Inj (=) (=) uuid}.

Lemma spawn_ok (w : World) (dir : Path) (m : TrackingMode) : ok uuid ∅ ∅ (spawn uuid w dir m).
Proof. unfold spawn. destruct (bool_decide _); [apply refresh_git_dirty_cache_ok|]; auto using ok_new. Qed.

Lemma handle_next_ok (w : World) (I : gset HunkId) (c : HunkTrackerCommand) (q : list HunkTrackerCommand) (a : HunkTrackerActor) :
  Forall steady (c :: q) → ok uuid I ∅ a →
  Forall steady (handle_next uuid w c q a).1.2 ∧ kept uuid w I (handle_next uuid w c q a).2.
Proof.
  intros Hq Hok. inversion Hq as [|? ? Hc Hq']; subst. unfold handle_next. destruct (is_coalescable c).
  - pose proof (handle_coalesced_batch_ok uuid w I (coalesce (c :: q)) a (coalesce_others steady _ Hq) Hok) as H1.
    by destruct (handle_coalesced_batch _ _ _ _).
  - pose proof (handle_command_ok uuid w I c a Hc Hok) as H1. by destruct (handle_command _ _ _ _).
Qed.

(** Every state has the invariant; when every write succeeded, no hunk is aside. *)
Lemma reachable_kept (P : World → Prop) (q : list HunkTrackerCommand) (a : HunkTrackerActor) :
  reachable uuid P steady q a → Forall steady q ∧ ∃ I, ok uuid I ∅ a ∧ ((∀ w, P w → writable w) → I = ∅).
Proof.
  induction 1 as [w dir m Hw|q c a Hc _ [Hq Hok]|w c q a Hw _ [Hq (I & Hok & HI)]].
  - split; [constructor|]. exists ∅. split; [apply spawn_ok|done].
  - split; [|done]. apply Forall_app. by repeat constructor.
  - destruct (handle_next_ok w I c q a Hq Hok) as [H1 (J & H2 & HJ)]. split; [done|]. exists J. split; [done|].
    intros HP. rewrite HJ by auto. auto.
Qed.

Lemma reachable_steady (q : list HunkTrackerCommand) (a : HunkTrackerActor) :
  reachable uuid writable steady q a → ok uuid ∅ ∅ a.
Proof. intros Hr. destruct (reachable_kept writable q a Hr) as [_ (I & Hok & HI)]. rewrite HI in Hok; auto. Qed.

End Reachable.

(** ** A file whose hunks are all acted on *)

(** Texts of complete lines of which the hunks leave two alone; a created or a deleted
    file. *)
Definition settleable (b c : FileContentState) (hs : list Hunk) : Prop :=
  match b, c with
  | Full b, Full c => plain_text b ∧ plain_text c ∧ 2 + removed hs <= length (lines b)
  | Missing, Full _ | Full _, Missing => True
  | _, _ => False
  end.

(** What an accepted content is as a baseline: a deleted file is an empty one. *)
Definition accepted_as (b c : FileContentState) : FileContentState :=
  match b, c with Full _, Missing => Full [] | _, _ => c end.

(** What puts a content back. *)
Definition put_back (p : Path) (b : FileContentState) : Output := match b with Full t => Wrote p t | _ => Deleted p end.

Lemma drop_all (st st' : FileHunkState) :
  hunks st' = hunks st → drop_hunks (map hunk_id (hunks st)) st' = with_hunks [] st'.
Proof.
  intros E. unfold drop_hunks. f_equal. apply filter_none. intros h Hh. rewrite E in Hh.
  apply negb_false_iff, bool_decide_eq_true. by apply list_elem_of_fmap_2.
Qed.

Lemma fold_full (f : Hunk → bytes → bytes) (hs : list Hunk) (t : bytes) :
  fold_left (fun b h => match b with Full t => Full (f h t) | b => b end) hs (Full t) = Full (fold_left (fun t h => f h t) hs t).
Proof. revert t. induction hs as [|h hs IH]; intros t; simpl; auto. Qed.

(** A deletion applied to the text it deletes. *)
Lemma apply_deletion (b : bytes) (h : Hunk) :
  line_info h = mkLines 1 (Nat.max 1 (length (lines b))) 0 0 → new_text h = [] → apply_hunk h b = [].
Proof.
  intros Hi Hn. unfold apply_hunk, patch_lines. rewrite Hi, Hn. cbn [old_start old_count].
  rewrite drop_ge by lia. simpl. by rewrite andb_comm.
Qed.

Section Settles.
Context `{DiffEnv} {Hdiff : DiffSpec} (uuid : nat → HunkId).

Lemma compute_hunks_same (ids : nat → HunkId) (p : Path) (t : bytes) (s : HunkSource) : compute_hunks ids p t t s = [].
Proof. unfold compute_hunks. by rewrite (proj2 (beq_true t t) eq_refl). Qed.

(** Nothing is pending between a content and itself, as a baseline. *)
Lemma recompute_settled (p : Path) (c : FileContentState) (b : FileContentState) (s : HunkSource) (st : FileHunkState) (a : HunkTrackerActor) :
  file_states a !! p = Some st → hunks st = [] → c = accepted_as b c ∨ c = Missing → baseline st = accepted_as b c → current_content st = c →
  file_states (recompute_hunks uuid p (Some c) s a) !! p = Some st.
Proof.
  intros E Eh Hc Eb Ec. unfold recompute_hunks. rewrite E. cbv zeta. cbn [default]. unfold send_all. simpl. rewrite lookup_insert_eq.
  assert (∀ ids, hunks_between ids p (baseline st) c s = []) as ->; [|destruct st; simpl in *; by subst].
  intros ids. rewrite Eb. destruct b, c; simpl; try done; try (apply compute_hunks_same).
Qed.

(** Accepting, and rejecting, all the hunks of a file. *)
Lemma accept_settles (p : Path) (st : FileHunkState) (a : HunkTrackerActor) :
  file_states a !! p = Some st → hunks st ≠ [] → pending_exact (is_agent_file st) (baseline st) (current_content st) (hunks st) →
  settleable (baseline st) (current_content st) (hunks st) →
  file_states (accept_hunks uuid p (hunks st) a) !! p
  = Some (mkState (accepted_as (baseline st) (current_content st)) (current_content st) [] (is_agent_file st) true)
  ∧ touches (accept_hunks uuid p (hunks st) a) = touches a.
Proof.
  intros E Hne [[Hn _]|He] Hs; [done|]. rewrite (accept_tracked uuid p (hunks st) st a) by done. cbv beta zeta.
  rewrite !drop_all by done. unfold with_hunks, with_accepted, with_baseline. cbn [baseline current_content is_agent_file baseline_accepted].
  destruct (baseline st) as [| | | | |b], (current_content st) as [| | | | |c]; try done.
  - rewrite bool_decide_eq_true_2 by done. split; [apply lookup_insert_eq|by autorewrite with touches].
  - destruct He as (h & Eh & Ei & Eo & Et). rewrite bool_decide_eq_false_2 by done. rewrite fold_full, Eh. cbn [sort_desc foldl insert_desc fold_left].
    rewrite apply_deletion by done. split; [|by rewrite touches_recompute, touches_send_all].
    apply (recompute_settled p Missing (Full b)); [apply lookup_insert_eq|done|by right|done|done].
  - destruct He as (cs & _ & Hf & Hb). destruct Hs as (Hpb & Hpc & Hl). rewrite bool_decide_eq_false_2 by done. rewrite fold_full.
    destruct (hunks_ascend cs _ Hb) as [Ha _]. rewrite (sorted_fold apply_hunk) by done.
    destruct (hunks_settle b c cs (hunks st)) as [-> _]; [done..|]. split; [|by rewrite touches_recompute, touches_send_all].
    apply (recompute_settled p (Full c) (Full b)); [apply lookup_insert_eq|done|by left|done|done].
Qed.

Lemma reject_settles (w : World) (p : Path) (st : FileHunkState) (a : HunkTrackerActor) :
  writable w → file_states a !! p = Some st → hunks st ≠ [] → pending_exact (is_agent_file st) (baseline st) (current_content st) (hunks st) →
  settleable (baseline st) (current_content st) (hunks st) →
  let r := reject_hunks uuid w p (hunks st) a in
  r.1 = Ok tt ∧ file_states r.2 !! p = Some (mkState (baseline st) (baseline st) [] (is_agent_file st) (baseline_accepted st))
  ∧ touches r.2 = touches a ++ [put_back p (baseline st)].
Proof.
  intros [Hw Hr] E Hne [[Hn _]|He] Hs r; [done|]. subst r. rewrite (reject_tracked uuid w p (hunks st) st a) by done. cbv beta zeta.
  unfold write_file, remove_file. destruct (baseline st) as [| | | | |b] eqn:Eb, (current_content st) as [| | | | |c]; try done;
    rewrite ?Hw, ?Hr; cbn [fst snd]; (split; [done|]); rewrite ?drop_all by done; unfold with_hunks, with_current;
    cbn [baseline current_content is_agent_file baseline_accepted]; rewrite ?Eb.
  - split; [apply lookup_insert_eq|autorewrite with touches; apply List.filter_app].
  - split; [apply lookup_insert_eq|autorewrite with touches; apply List.filter_app].
  - destruct He as (cs & _ & Hf & Hb). destruct Hs as (Hpb & Hpc & Hl).
    destruct (hunks_ascend cs _ Hb) as [_ Ha]. rewrite (sorted_fold revert_hunk) by done.
    destruct (hunks_settle b c cs (hunks st)) as [_ ->]; [done..|].
    split; [|rewrite touches_recompute; autorewrite with touches; apply List.filter_app].
    apply (recompute_settled p (Full b) (Full b)); [apply lookup_insert_eq|done|by left|done|done].
Qed.

(** Whatever the texts are, accepting writes nothing and rejecting does one thing to
    the file. *)
Lemma accept_touches (p : Path) (hs : list Hunk) (a : HunkTrackerActor) : touches (accept_hunks uuid p hs a) = touches a.
Proof.
  unfold accept_hunks. destruct hs; [done|]. destruct (file_states a !! p); [|done]. cbv zeta.
  destruct (bool_decide _); rewrite ?touches_recompute; by autorewrite with touches.
Qed.

Lemma reject_touches_once (w : World) (p : Path) (st : FileHunkState) (a : HunkTrackerActor) :
  writable w → file_states a !! p = Some st → hunks st ≠ [] →
  pending_exact (is_agent_file st) (baseline st) (current_content st) (hunks st) →
  let r := reject_hunks uuid w p (hunks st) a in
  r.1 = Ok tt ∧ ∃ o, touched_path o = Some p ∧ touches r.2 = touches a ++ [o].
Proof.
  intros [Hw Hr] E Hne [[Hn _]|He] r; [done|]. subst r. rewrite (reject_tracked uuid w p (hunks st) st a) by done. cbv beta zeta.
  unfold write_file, remove_file. destruct (baseline st), (current_content st); try done; rewrite ?Hw, ?Hr; cbn [fst snd];
    (split; [done|]); [exists (Deleted p)|eexists (Wrote p _)..]; (split; [done|]);
    rewrite ?touches_recompute; autorewrite with touches; unfold touches; simpl output; rewrite List.filter_app; reflexivity.
Qed.

(** The action on a file, where there is something to act on. *)
Lemma file_action_tracked (w : World) (p : Path) (action : HunkAction) (st : FileHunkState) (a : HunkTrackerActor) :
  file_states a !! p = Some st → hunks st ≠ [] →
  apply_file_action uuid w p action a
  = let '(r, a) := act uuid w action p (hunks st) (fold_left (fun a h => note_action action h a) (hunks st) a) in
    (match r with Ok _ => Ok (map hunk_id (hunks st)) | Err e => Err e end, a).
Proof.
  intros E Hne. unfold apply_file_action. rewrite E. destruct (hunks st) as [|h hs]; [done|]. cbn [apply_action_batch].
  by destruct (act _ _ _ _ _ _) as [[|] ?].
Qed.

End Settles.

(** ** States without a rejection *)

Lemma reachable_quiet `{DiffEnv} (uuid : nat → HunkId) (q : list HunkTrackerCommand) (a : HunkTrackerActor) :
  reachable uuid (fun _ => True) (fun c => action_of c ≠ Some Reject) q a →
  touches a = [] ∧ Forall (fun c => action_of c ≠ Some Reject) q.
Proof.
  induction 1 as [w dir m _|q c a Hc _ [Ht Hq]|w c q a _ _ [Ht Hq]].
  - split; [|constructor]. unfold spawn. destruct (bool_decide _); [by rewrite touches_dirty|done].
  - split; [done|]. apply Forall_app. by repeat constructor.
  - inversion Hq as [|? ? Hc Hq']; subst. unfold handle_next. destruct (is_coalescable c).
    + pose proof (coalesced_quiet uuid w (coalesce (c :: q)) a (coalesce_others _ _ Hq)) as H1.
      destruct (handle_coalesced_batch _ _ _ _). simpl in *. split; [congruence|constructor].
    + pose proof (command_quiet uuid w c a Hc) as H1. destruct (handle_command _ _ _ _). simpl in *. split; [congruence|done].
Qed.

(** ** The prefix of a file that is read first *)

Section ReadPrefix.
Context (b : bytes).

Let n : nat := N.to_nat (N.min BINARY_PREFIX (byte_count b)).

Lemma prefix_take : take n b = take (N.to_nat BINARY_PREFIX) b.
Proof.
  unfold n, byte_count. destruct (N.min_spec BINARY_PREFIX (N.of_nat (length b))) as [[_ ->]|[H ->]]; [done|].
  rewrite Nat2N.id, !take_ge; [done|lia|done].
Qed.

Lemma prefix_binary : is_binary (take n b) = is_binary b.
Proof. rewrite prefix_take. unfold is_binary. by rewrite take_take, Nat.min_id. Qed.

Lemma prefix_lfs : is_lfs_pointer (take n b) = is_lfs_pointer b.
Proof.
  rewrite prefix_take. destruct (decide (length b <= N.to_nat BINARY_PREFIX)) as [Hl|Hl]; [by rewrite take_ge|].
  unfold is_lfs_pointer, byte_count. rewrite length_take, Nat.min_l by lia.
  unfold BINARY_PREFIX in *. rewrite (proj2 (N.ltb_ge _ _)) by lia. by rewrite (proj2 (N.ltb_ge _ _)) by lia.
Qed.

Lemma prefix_rest :
  (if (N.min BINARY_PREFIX (byte_count b) <? byte_count b)%N
   then r ← Some (drop (N.to_nat BINARY_PREFIX) b); Some (take n b ++ r) else Some (take n b)) = Some b.
Proof.
  rewrite prefix_take. unfold byte_count. destruct (N.ltb_spec (N.min BINARY_PREFIX (N.of_nat (length b))) (N.of_nat (length b))) as [H|H].
  - cbn [mbind option_bind]. by rewrite take_drop.
  - by rewrite take_ge by lia.
Qed.

End ReadPrefix.
