(* ===== verification/HunkLoc.v ===== *)
(** * Lines of code by author

    [codegen/xai-hunk-tracker/src/loc/mod.rs]: the sink of the tracker's events keeps,
    per hunk, what it has recorded so far and appends records whose sum is the lines a
    hunk contributes.  The writer behind it may drop a record.  Time stamps are left
    out; the signed 64-bit totals are far from their bounds, for a tracked text has at
    most [MAX_TRACKED_TEXT_BYTES] lines. *)

From S2P Require Import Prelude RustStr HunkTypes.

#[local] Open Scope Z_scope.

Inductive AuthorType := Agent | Human.
Inductive SourceType := TAgentEdit | TExternalEditOnAgentFile | TExternal.
Inductive EventType := Added | Updated | Removed.

Record HunkRecord := mkRecord {
  record_hunk : HunkId;
  file_path : Path;
  hunk_start : nat;
  hunk_end : nat;
  lines_added : Z;
  lines_removed : Z;
  author_type : option AuthorType;
  author_id : option bytes;
  agent_id : bytes;
  session_id : bytes;
  record_prompt : option nat;
  source_type : option SourceType;
  event_type : EventType;
  removal_reason : option HunkRemovalReason;
}.

Inductive LocAggregate :=
| LinesChanged (author : AuthorType) (added removed : Z) (path : Path)
| LinesReverted (added removed : Z).

Record LocSinkContext := mkContext {
  ctx_session : bytes;
  ctx_agent : bytes;
  ctx_user : option bytes;
  has_aggregates : bool;
}.

(** [HunkRecord::from_hunk] *)
Definition from_hunk (h : Hunk) (session agent : bytes) (user : option bytes) (t : EventType) (attribution : HunkSource) : HunkRecord :=
  let '(author, who, p, src) := match attribution with
    | AgentEdit p => (Agent, Some agent, Some p, TAgentEdit)
    | ExternalEditOnAgentFile => (Human, user, None, TExternalEditOnAgentFile)
    | External => (Human, user, None, TExternal)
    end in
  let info := line_info h in
  let '(start, count) := if (new_count info =? 0)%nat then (old_start info, old_count info) else (new_start info, new_count info) in
  mkRecord (hunk_id h) (hunk_path h) start (if (count =? 0)%nat then start else (start + count - 1)%nat)
    (Z.of_nat (new_count info)) (Z.of_nat (old_count info)) (Some author) who agent session p (Some src) t None.

Definition with_lines (added removed : Z) (r : HunkRecord) : HunkRecord :=
  mkRecord (record_hunk r) (file_path r) (hunk_start r) (hunk_end r) added removed (author_type r) (author_id r)
    (agent_id r) (session_id r) (record_prompt r) (source_type r) (event_type r) (removal_reason r).

(** The sink: the totals per hunk, the records that reached the writer's file and the
    aggregates that were sent. *)
Record LocSink := mkSink {
  acc : gmap HunkId (Z * Z);
  records : list HunkRecord;
  aggregates : list LocAggregate;
}.

Definition no_records : LocSink := mkSink ∅ [] [].

Section Sink.
(** Which records the writer takes. *)
Context (write_record : HunkRecord → bool) (ctx : LocSinkContext).

Definition write (r : HunkRecord) (s : LocSink) : LocSink :=
  if write_record r then mkSink (acc s) (records s ++ [r]) (aggregates s) else s.

Definition aggregate (g : LocAggregate) (s : LocSink) : LocSink :=
  if has_aggregates ctx then mkSink (acc s) (records s) (aggregates s ++ [g]) else s.

(** The entry of a hunk, advanced by a record. *)
Definition accumulate (i : HunkId) (r : HunkRecord) (s : LocSink) : LocSink :=
  let '(x, y) := default (0, 0) (acc s !! i) in
  mkSink (<[i := (x + lines_added r, y + lines_removed r)]> (acc s)) (records s) (aggregates s).

Definition forget (i : HunkId) (s : LocSink) : LocSink := mkSink (delete i (acc s)) (records s) (aggregates s).

Definition changed (who : AuthorType) (r : HunkRecord) : LocAggregate :=
  LinesChanged (default who (author_type r)) (lines_added r) (lines_removed r) (file_path r).

Definition removed_record (i : HunkId) (path : Path) (x y : Z) (reason : HunkRemovalReason) : HunkRecord :=
  mkRecord i path 0 0 (- x) (- y) None None (ctx_agent ctx) (ctx_session ctx) None None Removed (Some reason).

(** [handle_event] *)
Definition handle_event (s : LocSink) (e : HunkEvent) : LocSink :=
  match e with
  | HunkAdded _ h =>
      let r := from_hunk h (ctx_session ctx) (ctx_agent ctx) (ctx_user ctx) Added (source h) in
      write r (aggregate (changed Agent r) (accumulate (hunk_id h) r s))
  | HunkContentChanged _ h trigger prev_added prev_removed =>
      let r := from_hunk h (ctx_session ctx) (ctx_agent ctx) (ctx_user ctx) Updated trigger in
      let r := with_lines (Z.of_nat (new_count (line_info h)) - Z.of_nat prev_added)
                 (Z.of_nat (old_count (line_info h)) - Z.of_nat prev_removed) r in
      write r (aggregate (changed Human r) (accumulate (hunk_id h) r s))
  | HunkRemoved _ i Accepted => forget i s
  | HunkRemoved path i reason =>
      match acc s !! i with
      | Some (x, y) =>
          if (x =? 0) && (y =? 0) then forget i s
          else write (removed_record i path x y reason)
                 (aggregate (LinesReverted (Z.max x 0) (Z.max y 0)) (forget i s))
      | None => s
      end
  | _ => s
  end.

(** [run_loc_sink]: a cancelled sink drains what is left, so it handles all events
    either way. *)
Definition run_loc_sink (es : list HunkEvent) : LocSink := fold_left handle_event es no_records.

End Sink.

(** ** The ledger *)

(** What the events say of one hunk: the lines that are open and those that are kept
    for good. *)
Record Entry := mkLedger { open_lines : Z * Z; kept_lines : Z * Z }.

Definition plus (a b : Z * Z) : Z * Z := (a.1 + b.1, a.2 + b.2).

Definition counts_of (h : Hunk) : Z * Z := (Z.of_nat (new_count (line_info h)), Z.of_nat (old_count (line_info h))).

Definition enter (i : HunkId) (t : Entry) (e : HunkEvent) : Entry :=
  match e with
  | HunkAdded _ h => if hunk_id h =b i then mkLedger (plus (open_lines t) (counts_of h)) (kept_lines t) else t
  | HunkContentChanged _ h _ x y =>
      if hunk_id h =b i
      then mkLedger (plus (open_lines t) (plus (counts_of h) (- Z.of_nat x, - Z.of_nat y))) (kept_lines t) else t
  | HunkRemoved _ j reason =>
      if j =b i then mkLedger (0, 0) (match reason with Accepted => plus (kept_lines t) (open_lines t) | _ => kept_lines t end)
      else t
  | _ => t
  end.

Definition ledger (i : HunkId) (es : list HunkEvent) : Entry := fold_left (enter i) es (mkLedger (0, 0) (0, 0)).

(** The sum of the records of a hunk. *)
Definition sum_for (i : HunkId) (rs : list HunkRecord) : Z * Z :=
  foldr (fun r t => if record_hunk r =b i then plus (lines_added r, lines_removed r) t else t) (0, 0) rs.

Lemma sum_for_snoc (i : HunkId) (rs : list HunkRecord) (r : HunkRecord) :
  sum_for i (rs ++ [r]) = plus (sum_for i rs) (if record_hunk r =b i then (lines_added r, lines_removed r) else (0, 0)).
Proof.
  unfold sum_for. rewrite foldr_app. simpl. induction rs as [|x rs IH]; simpl.
  - destruct (_ =b _); unfold plus; simpl; f_equal; lia.
  - rewrite IH. destruct (record_hunk x =b i); unfold plus; simpl; [f_equal; lia|done].
Qed.

Lemma from_hunk_fields (h : Hunk) (session agent : bytes) (user : option bytes) (t : EventType) (src : HunkSource) :
  let r := from_hunk h session agent user t src in
  record_hunk r = hunk_id h ∧ lines_added r = Z.of_nat (new_count (line_info h)) ∧ lines_removed r = Z.of_nat (old_count (line_info h)).
Proof. unfold from_hunk. destruct src, (new_count (line_info h) =? 0)%nat; done. Qed.

Section Ledger.
Context (write_record : HunkRecord → bool) (ctx : LocSinkContext) (Hw : ∀ r, write_record r = true).

(** What the sink holds of a hunk agrees with the ledger. *)
Definition agrees (i : HunkId) (s : LocSink) (t : Entry) : Prop :=
  default (0, 0) (acc s !! i) = open_lines t ∧ sum_for i (records s) = plus (kept_lines t) (open_lines t).

Lemma write_records (r : HunkRecord) (s : LocSink) : write write_record r s = mkSink (acc s) (records s ++ [r]) (aggregates s).
Proof. unfold write. by rewrite Hw. Qed.

Lemma aggregate_keeps (g : LocAggregate) (s : LocSink) : acc (aggregate ctx g s) = acc s ∧ records (aggregate ctx g s) = records s.
Proof. unfold aggregate. by destruct (has_aggregates ctx). Qed.

(** A record that is accumulated and written. *)
Lemma agrees_record (i : HunkId) (s : LocSink) (t : Entry) (r : HunkRecord) (g : LocAggregate) :
  agrees i s t →
  agrees i (write write_record r (aggregate ctx g (accumulate (record_hunk r) r s)))
    (if record_hunk r =b i then mkLedger (plus (open_lines t) (lines_added r, lines_removed r)) (kept_lines t) else t).
Proof.
  intros [Ha Hs]. rewrite write_records. destruct (aggregate_keeps g (accumulate (record_hunk r) r s)) as [E1 E2].
  unfold agrees. cbn [acc records]. rewrite E1, E2, sum_for_snoc. unfold accumulate.
  destruct (default (0, 0) (acc s !! record_hunk r)) as [x y] eqn:E. cbn [acc records]. rewrite Hs.
  destruct (record_hunk r =b i) eqn:Ei.
  - apply beq_true in Ei. rewrite Ei, E in *. rewrite lookup_insert_eq. unfold plus. simpl. destruct (open_lines t). simplify_eq. simpl.
    split; [done|f_equal; lia].
  - apply beq_false in Ei. rewrite lookup_insert_ne by done. split; [done|]. unfold plus. simpl. f_equal; lia.
Qed.

Lemma agrees_forget (i j : HunkId) (s : LocSink) :
  default (0, 0) (acc (forget j s) !! i) = if j =b i then (0, 0) else default (0, 0) (acc s !! i).
Proof.
  simpl. destruct (j =b i) eqn:E; [apply beq_true in E as ->; by rewrite lookup_delete_eq|apply beq_false in E; by rewrite lookup_delete_ne].
Qed.

Lemma agrees_event (i : HunkId) (s : LocSink) (t : Entry) (e : HunkEvent) :
  agrees i s t → agrees i (handle_event write_record ctx s e) (enter i t e).
Proof.
  intros Hst. destruct e as [p h|p j reason|p j info|p h trigger x y|p b|p|p]; try done.
  - cbn [handle_event enter]. cbv zeta. set (r := from_hunk _ _ _ _ _ _). destruct (from_hunk_fields h (ctx_session ctx) (ctx_agent ctx) (ctx_user ctx) Added (source h)) as (E1 & E2 & E3).
    fold r in E1, E2, E3. pose proof (agrees_record i s t r (changed Agent r) Hst) as H. by rewrite E1, E2, E3 in H.
  - destruct Hst as [Ha Hs]. cbn [handle_event enter]. assert (∀ r, r ≠ Accepted →
      agrees i (match acc s !! j with
                | Some (x, y) => if (x =? 0) && (y =? 0) then forget j s
                    else write write_record (removed_record ctx j p x y r) (aggregate ctx (LinesReverted (Z.max x 0) (Z.max y 0)) (forget j s))
                | None => s end) (if j =b i then mkLedger (0, 0) (kept_lines t) else t)) as Hgone.
    { intros r _. unfold agrees. destruct (acc s !! j) as [[x y]|] eqn:E.
      - destruct ((x =? 0) && (y =? 0)) eqn:E0.
        + rewrite agrees_forget. cbn [records forget]. destruct (j =b i) eqn:Ei; [|done]. apply beq_true in Ei as ->. rewrite E in Ha.
          apply andb_true_iff in E0 as [->%Z.eqb_eq ->%Z.eqb_eq]. split; [done|]. simpl in *. by rewrite Hs, <-Ha.
        + rewrite write_records. cbn [acc records]. match goal with |- context [aggregate ctx ?g ?s'] => destruct (aggregate_keeps g s') as [-> ->] end.
          rewrite agrees_forget, sum_for_snoc. cbn [records forget record_hunk removed_record lines_added lines_removed]. rewrite Hs.
          destruct (j =b i) eqn:Ei; [|split; [done|unfold plus; simpl; f_equal; lia]].
          apply beq_true in Ei as ->. rewrite E in Ha. simpl in Ha. rewrite <-Ha. split; [done|]. unfold plus. simpl. f_equal; lia.
      - destruct (j =b i) eqn:Ei; [|done]. apply beq_true in Ei as ->. rewrite E in *. simpl in *. by rewrite Hs, <-Ha. }
    destruct reason; [|by apply Hgone..]. unfold agrees. rewrite agrees_forget. cbn [records forget]. rewrite Hs.
    destruct (j =b i); [|done]. split; [done|]. unfold plus. simpl. f_equal; lia.
  - cbn [handle_event enter]. cbv zeta. set (r := from_hunk _ _ _ _ _ _). destruct (from_hunk_fields h (ctx_session ctx) (ctx_agent ctx) (ctx_user ctx) Updated trigger) as (E1 & _).
    fold r in E1. set (r' := with_lines _ _ r). pose proof (agrees_record i s t r' (changed Human r') Hst) as H.
    change (record_hunk r') with (record_hunk r) in H. rewrite E1 in H. exact H.
Qed.

Lemma ledger_agrees (i : HunkId) (es : list HunkEvent) : agrees i (run_loc_sink write_record ctx es) (ledger i es).
Proof.
  unfold run_loc_sink, ledger. assert (agrees i no_records (mkLedger (0, 0) (0, 0))) as H0 by done. revert H0.
  generalize no_records, (mkLedger (0, 0) (0, 0)). induction es as [|e es IH]; intros s t Hst; simpl; [done|]. apply IH. by apply agrees_event.
Qed.

End Ledger.
