(* ===== verification/HunkClaims.v ===== *)
(** * Claims about the hunk tracker *)

From S2P Require Import Prelude RustStr StrFind Paths HunkTypes HunkDiff TextLines DiffLaws HunkTracker HunkLaws HunkInvariant HunkWrites HunkLoc.

#[local] Open Scope nat_scope.

(** ** A tracked file *)

(** A disk with the given files, outside any repository. *)
Definition plain_world (files : Path → option bytes) : World := {|
  disk := fun p => plain_file <$> files p;
  path_exists := fun p => bool_decide (is_Some (files p));
  path_is_dir := fun _ => false;
  discover := fun _ => None;
  head_entry := fun _ _ _ => None;
  git_status := fun _ _ _ => None;
  sync_state := fun _ => no_sync;
  write_ok := fun _ _ => true;
  remove_ok := fun _ => true;
|}.

Definition ex_path : Path := $"/w/f".
Definition ex_before : bytes := text [$"a"; $"b"; $"c"].
Definition ex_after : bytes := text [$"a"; $"b"; $"x"; $"y"].
Definition ex_world : World := plain_world (fun _ => None).

Lemma ex_writable : writable ex_world.
Proof. done. Qed.

(** The agent replaces the last line of the file by two. *)
Definition ex_round : list Reply * list HunkTrackerCommand * HunkTrackerActor :=
  handle_next (H := prefix_diff) counted ex_world (RecordAgentWrite ex_path ex_after 1 (Some ex_before)) []
    (spawn (H := prefix_diff) counted ex_world ($"/w") AgentOnly).

Definition ex_state : HunkTrackerActor := ex_round.2.

Definition ex_file : FileHunkState :=
  mkState (Full ex_before) (Full ex_after)
    [mkHunk (counted 0) ex_path (mkLines 3 1 3 2) (AgentEdit 1) (Some (text [$"c"])) (text [$"x"; $"y"]) None] true false.

Example ex_tracked : file_states ex_state !! ex_path = Some ex_file.
Proof. by vm_compute. Qed.

Lemma ex_reachable (Q : HunkTrackerCommand → Prop) :
  Q (RecordAgentWrite ex_path ex_after 1 (Some ex_before)) →
  @reachable prefix_diff counted writable Q [] ex_state.
Proof.
  intros HQ. apply (@reach_round prefix_diff counted writable Q ex_world (RecordAgentWrite ex_path ex_after 1 (Some ex_before)) []); [done|].
  apply (@reach_sent prefix_diff counted writable Q [] _ _ HQ). by apply reach_spawn.
Qed.

(** ** What is claimed *)

(** Every file's pending hunks are exact, its own and identified once. *)
Definition sound `{DiffEnv} (a : HunkTrackerActor) : Prop :=
  (∀ p st, file_states a !! p = Some st →
     pending_exact (is_agent_file st) (baseline st) (current_content st) (hunks st)
     ∧ NoDup (map hunk_id (hunks st)) ∧ ∀ h, h ∈ hunks st → hunk_path h = p)
  ∧ ∀ p p' h h', lives a p h → lives a p' h' → hunk_id h = hunk_id h' → p = p'.

(** A write of the agent leaves its text as the current content, with the hunks of a
    diff against the baseline, which stays. *)
Definition write_shown `{DiffEnv} (a a' : HunkTrackerActor) (path : Path) (content : bytes) : Prop :=
  ∃ st, file_states a' !! path = Some st ∧ current_content st = Full content
    ∧ pending_exact false (baseline st) (Full content) (hunks st)
    ∧ (∀ old, file_states a !! path = Some old → baseline st = baseline old).

(** A file after all its hunks were accepted, or rejected. *)
Definition all_accepted (st : FileHunkState) : FileHunkState :=
  mkState (accepted_as (baseline st) (current_content st)) (current_content st) [] (is_agent_file st) true.
Definition all_rejected (st : FileHunkState) : FileHunkState :=
  mkState (baseline st) (baseline st) [] (is_agent_file st) (baseline_accepted st).

(** A change of the disk that a command may make. *)
Definition may_touch (c : HunkTrackerCommand) (a : HunkTrackerActor) (o : Output) : Prop :=
  action_of c = Some Reject ∧ ∃ p h, touched_path o = Some p ∧ lives a p h.

(** A hunk is listed under its turn. *)
Definition indexed (a : HunkTrackerActor) (h : Hunk) : Prop :=
  ∃ n ids, prompt_index (source h) = Some n ∧ turn_index a !! n = Some ids ∧ hunk_id h ∈ ids.

(** The lines of a hunk that count. *)
Definition counted_lines (i : HunkId) (es : list HunkEvent) : Z * Z :=
  HunkLoc.plus (kept_lines (ledger i es)) (open_lines (ledger i es)).

(** ** Claims *)

(** C13: In every state that the actor's loop reaches from its start through commands
    other than SetWorkingDir and RestoreState, whatever the disk and the repository
    answer, the pending hunks of every file are those of a diff between its baseline
    and its current content, and there are none only when the two agree but for a final
    newline, one is not text, the diff was refused (size) or timed out, or the file is
    the agent's and has no baseline; they carry the file's path and identifiers are
    unique over all files.  While no write has failed, every hunk of an agent's turn is
    listed in the index under that turn.  And when the agent writes a text in any such
    state, the file's pending hunks are those of the diff to that text, without the
    last exception, against the baseline it had. *)
Theorem tracker_sound `{DiffEnv} {Hdiff : DiffSpec} (uuid : nat → HunkId) {Huuid : Inj (=) (=) uuid}
    (P : World → Prop) (q : list HunkTrackerCommand) (a : HunkTrackerActor) :
  reachable uuid P steady q a →
  sound a
  ∧ ((∀ w, P w → writable w) → ∀ p h, lives a p h → in_turn (turn_index a) h)
  ∧ ∀ w path content n previous, is_diffable (classify_string content) = true →
      write_shown a (handle_command uuid w (RecordAgentWrite path content n previous) a).2 path content.
Proof.
  intros Hr. destruct (reachable_kept uuid P q a Hr) as (_ & I & Hok & HI). split_and!.
  - split; [|apply Hok]. intros p st E. split_and!; [apply (ok_exact _ _ _ _ Hok p); set_solver|by apply (ok_nodup _ _ _ _ Hok p)|].
    intros h Hh. apply (ok_path _ _ _ _ Hok). by exists st.
  - intros HP p h Hl. apply (ok_turns _ _ _ _ Hok p h Hl). rewrite (HI HP). set_solver.
  - intros w path content n previous Hd. by apply record_agent_write_shows.
Qed.

Lemma tracker_sound_witness :
  reachable (H := prefix_diff) counted writable steady [] ex_state
  ∧ in_turn (turn_index ex_state) (mkHunk (counted 0) ex_path (mkLines 3 1 3 2) (AgentEdit 1) (Some (text [$"c"])) (text [$"x"; $"y"]) None)
  ∧ write_shown (H := prefix_diff) ex_state
      (handle_command (H := prefix_diff) counted ex_world (RecordAgentWrite ex_path ex_before 2 None) ex_state).2 ex_path ex_before.
Proof.
  split; [by apply ex_reachable|].
  destruct (@tracker_sound prefix_diff prefix_diff_spec counted _ writable [] ex_state (ex_reachable _ I)) as (_ & Ht & Hs).
  split; [|apply Hs; by vm_compute]. apply (Ht (fun _ Hw => Hw) ex_path). exists ex_file. split; [apply ex_tracked|by left].
Defined.

(** C14: Acting on all hunks of a file of a reachable state (reached without SetWorkingDir
    and RestoreState, while writes succeed) answers with all their identifiers;
    accepting touches nothing on the disk, rejecting does one thing to the file and
    nothing to another.  If moreover the file was created, or deleted, or both texts
    consist of complete lines without carriage returns of which the hunks leave at
    least two of the baseline's alone, then none is pending afterwards: accepting makes
    the current content the baseline (a deleted file an empty one); rejecting makes the
    baseline the current content and writes the baseline to the file, or removes a file
    that was created.  Outside that condition hunks can stay pending and line ends can
    change ([accepting_never_settles], [rejecting_drops_carriage_returns]). *)
Theorem file_action_settles `{DiffEnv} {Hdiff : DiffSpec} (uuid : nat → HunkId) {Huuid : Inj (=) (=) uuid}
    (q : list HunkTrackerCommand) (a : HunkTrackerActor) (w : World) (p : Path) (st : FileHunkState) :
  reachable uuid writable steady q a → writable w → file_states a !! p = Some st → hunks st ≠ [] →
  let accepted := apply_file_action uuid w p Accept a in
  let rejected := apply_file_action uuid w p Reject a in
  accepted.1 = Ok (map hunk_id (hunks st)) ∧ touches accepted.2 = touches a
  ∧ rejected.1 = Ok (map hunk_id (hunks st))
  ∧ (∃ o, touched_path o = Some p ∧ touches rejected.2 = touches a ++ [o])
  ∧ (settleable (baseline st) (current_content st) (hunks st) →
     file_states accepted.2 !! p = Some (all_accepted st)
     ∧ file_states rejected.2 !! p = Some (all_rejected st)
     ∧ touches rejected.2 = touches a ++ [put_back p (baseline st)]).
Proof.
  intros Hr Hw E Hne. pose proof (reachable_steady uuid q a Hr) as Hok.
  pose proof (ok_exact _ _ _ _ Hok p st E (not_elem_of_empty _)) as He. cbv zeta.
  rewrite !(file_action_tracked uuid w p _ st a) by done.
  destruct (notes_frame Accept (hunks st) a) as (Ef & _ & _ & Eo). set (a1 := fold_left _ _ a) in *.
  destruct (notes_frame Reject (hunks st) a) as (Ef' & _ & _ & Eo'). set (a2 := fold_left _ _ a) in Ef', Eo' |- *.
  assert (touches a1 = touches a) as Et by (unfold touches; by rewrite Eo).
  assert (touches a2 = touches a) as Et' by (unfold touches; by rewrite Eo').
  rewrite <-Ef in E. pose proof (accept_settles uuid p st a1 E Hne He) as Ha. rewrite Ef, <-Ef' in E.
  pose proof (reject_settles uuid w p st a2 Hw E Hne He) as Hj.
  destruct (reject_touches_once uuid w p st a2 Hw E Hne He) as (H1 & o & Hp & Ho). unfold act.
  destruct (reject_hunks uuid w p (hunks st) a2) as [r b]. simpl in *. subst r.
  split_and!; [done|by rewrite accept_touches|done| |].
  - exists o. by rewrite Ho, Et'.
  - intros Hs. destruct (Ha Hs) as [-> _], (Hj Hs) as (_ & -> & ->). by rewrite Et'.
Qed.

Lemma file_action_settles_witness :
  (apply_file_action (H := prefix_diff) counted ex_world ex_path Reject ex_state).1 = Ok [counted 0]
  ∧ touches (apply_file_action (H := prefix_diff) counted ex_world ex_path Reject ex_state).2 = [Wrote ex_path ex_before].
Proof.
  assert (settleable (baseline ex_file) (current_content ex_file) (hunks ex_file)) as Hs
    by (split_and!; [apply (bool_decide_unpack (plain_text _)); by vm_compute|apply (bool_decide_unpack (plain_text _)); by vm_compute|vm_compute; lia]).
  destruct (@file_action_settles prefix_diff prefix_diff_spec counted _ [] ex_state ex_world ex_path ex_file
    (ex_reachable _ I) ex_writable ex_tracked ltac:(done)) as (_ & _ & -> & _ & Hr).
  split; [done|]. destruct (Hr Hs) as (_ & _ & ->). by vm_compute.
Defined.

(** C15: A command changes the disk only when it rejects hunks, and then only files
    that have a hunk pending; while no rejection is sent, the tracker never writes or
    removes a file, whatever the disk and the repository answer. *)
Theorem only_rejections_touch `{DiffEnv} (uuid : nat → HunkId) :
  (∀ w c a, ∃ os, touches (handle_command uuid w c a).2 = touches a ++ os
     ∧ Forall (may_touch c a) os)
  ∧ ∀ q a, reachable uuid (fun _ => True) (fun c => action_of c ≠ Some Reject) q a → touches a = [].
Proof.
  split; [intros; apply command_touches|]. intros q a Hr. apply (reachable_quiet uuid q a Hr).
Qed.

(** Rejecting a hunk of an edited file whose write fails answers with the error and
    leaves every file and its pending hunks as they were and nothing sent; yet the hunk
    has already left the index of its turn and is counted as rejected. *)
Theorem failed_rejection `{DiffEnv} (uuid : nat → HunkId) (w : World) (i : HunkId) (p : Path) (h : Hunk) (st : FileHunkState)
    (b c : bytes) (a : HunkTrackerActor) :
  find_hunk i a = Some (p, h) → file_states a !! p = Some st → baseline st = Full b → current_content st = Full c →
  (∀ t, write_ok w p t = false) →
  let '(r, a') := apply_hunk_action uuid w i Reject a in
  r = Err (WriteError p) ∧ file_states a' = file_states a ∧ output a' = output a
  ∧ rejected_hunks (session_stats a') = saturating_add (rejected_hunks (session_stats a)) 1
  ∧ ¬ indexed a' h.
Proof.
  intros Hf E Eb Ec Hw. unfold apply_hunk_action. rewrite Hf. unfold act.
  rewrite (reject_tracked uuid w p [h] st) by done. cbv zeta. rewrite Eb, Ec. unfold write_file. rewrite Hw.
  split_and!; try done. intros (n & ids & Hn & Hids & Hin). revert Hids. simpl. unfold turn_remove. rewrite Hn.
  destruct (turn_index a !! n) as [old|] eqn:Eo; [|congruence]. rewrite lookup_insert_eq. intros [= <-]. set_solver.
Qed.

Definition ex_full_disk : World := mkWorld (fun _ => None) (fun _ => false) (fun _ => false) (fun _ => None) (fun _ _ _ => None)
  (fun _ _ _ => None) (fun _ => no_sync) (fun _ _ => false) (fun _ => false).

Lemma failed_rejection_witness :
  (apply_hunk_action (H := prefix_diff) counted ex_full_disk (counted 0) Reject ex_state).1 = Err (WriteError ex_path)
  ∧ counted 0 ∈ default ∅ (turn_index ex_state !! 1).
Proof.
  split; [|by vm_compute]. destruct (hunks ex_file) as [|h hs] eqn:E; [done|].
  assert (find_hunk (counted 0) ex_state = Some (ex_path, h)) as Hf by (injection E as <- _; by vm_compute).
  pose proof (@failed_rejection prefix_diff counted ex_full_disk (counted 0) ex_path h ex_file ex_before ex_after ex_state
    Hf ex_tracked eq_refl eq_refl (fun _ => eq_refl)) as H.
  destruct (apply_hunk_action _ _ _ _ _) as [r a']. by destruct H as [-> _].
Defined.

(** ** Coalesced events *)

(** What an event says of a path: [true] for a deletion. *)
Definition file_event (p : Path) (c : HunkTrackerCommand) : option bool :=
  match c with
  | HandleFileChange q => if q =b p then Some false else None
  | HandleFileDeleted q => if q =b p then Some true else None
  | _ => None
  end.

Definition is_refresh_all (c : HunkTrackerCommand) : bool := match c with RefreshAllBaselines => true | _ => false end.
Definition is_refresh_dirty (c : HunkTrackerCommand) : bool := match c with RefreshGitDirtyCache => true | _ => false end.

Lemma coalesce_snoc (cs : list HunkTrackerCommand) (c : HunkTrackerCommand) : coalesce (cs ++ [c]) = batch_add (coalesce cs) c.
Proof. unfold coalesce. by rewrite fold_left_app. Qed.

(** Of the file events that wait in the channel, the last one of each path decides:
    the path is handled as deleted when that was a deletion, as changed when it was a
    change, and not at all without one; a refresh is done when one was asked for; every
    other command is kept, in order. *)
Theorem last_event_decides (cs : list HunkTrackerCommand) :
  (∀ p, is_deletion <$> file_actions (coalesce cs) !! p = last (omap (file_event p) cs))
  ∧ other_commands (coalesce cs) = List.filter (fun c => negb (is_coalescable c)) cs
  ∧ refresh_all (coalesce cs) = existsb is_refresh_all cs
  ∧ refresh_dirty (coalesce cs) = existsb is_refresh_dirty cs.
Proof.
  induction cs as [|c cs (Hp & Ho & Ha & Hd)] using rev_ind; [by split_and!; [intros p; simpl; rewrite lookup_empty|..]|].
  rewrite coalesce_snoc, List.filter_app, !existsb_app, <-Ho, <-Ha, <-Hd.
  assert (∀ p, last (omap (file_event p) (cs ++ [c])) = match file_event p c with Some x => Some x | None => is_deletion <$> file_actions (coalesce cs) !! p end) as Hl.
  { intros p. rewrite Hp, omap_app. simpl. destruct (file_event p c); [by rewrite last_snoc|by rewrite app_nil_r]. }
  split; [intros p; rewrite Hl|]; destruct c; simpl; rewrite ?orb_false_r, ?orb_true_r, ?app_nil_r; try done.
  - destruct (path =b p) eqn:E; [apply beq_true in E as ->; rewrite lookup_insert_eq|apply beq_false in E; by rewrite lookup_insert_ne].
    by destruct (file_actions _ !! p) as [[]|].
  - destruct (path =b p) eqn:E; [apply beq_true in E as ->; by rewrite lookup_insert_eq|apply beq_false in E; by rewrite lookup_insert_ne].
Qed.

(** ** Reading *)

(** Reading a file from the disk in two steps, a prefix of 8000 bytes first, gives
    what classifying all its bytes at once gives. *)
Theorem read_agrees_with_classify (b : bytes) : read_file_bounded (Some (plain_file b)) = classify_bytes b.
Proof.
  unfold read_file_bounded, classify_bytes, plain_file. cbn [is_link file_len opens first_read rest_read]. cbv zeta.
  destruct (_ <? _)%N; [done|]. cbn [negb]. rewrite prefix_lfs, prefix_binary. destruct (is_lfs_pointer b); [done|].
  destruct (is_binary b); [done|]. rewrite prefix_rest. done.
Qed.

(** ** Lines of code *)

(** While the writer takes every record, the records of each hunk sum to the lines
    its events leave open plus those of its accepted stretches, and the sink's total is
    what is open; so a hunk that was never accepted sums to zero once it is rejected or
    superseded. *)
Theorem records_balance (write_record : HunkRecord → bool) (ctx : LocSinkContext) (i : HunkId) (es : list HunkEvent) :
  (∀ r, write_record r = true) →
  let s := run_loc_sink write_record ctx es in
  default (0, 0)%Z (acc s !! i) = open_lines (ledger i es)
  ∧ sum_for i (records s) = counted_lines i es
  ∧ ∀ p reason, reason ≠ Accepted → kept_lines (ledger i es) = (0, 0)%Z →
      sum_for i (records (run_loc_sink write_record ctx (es ++ [HunkRemoved p i reason]))) = (0, 0)%Z.
Proof.
  intros Hw s. destruct (ledger_agrees write_record ctx Hw i es) as [H1 H2]. split_and!; [done..|].
  intros p reason Hr Hk. destruct (ledger_agrees write_record ctx Hw i (es ++ [HunkRemoved p i reason])) as [_ ->].
  unfold ledger in *. rewrite fold_left_app. simpl. rewrite (proj2 (beq_true i i) eq_refl). simpl. rewrite Hk. by destruct reason.
Qed.

Definition ex_hunk : Hunk := mkHunk (counted 0) ex_path (mkLines 3 1 3 2) (AgentEdit 1) (Some (text [$"c"])) (text [$"x"; $"y"]) None.
Definition ex_ctx : LocSinkContext := mkContext ($"s") ($"agent") None true.

Lemma records_balance_witness :
  sum_for (counted 0) (records (run_loc_sink (fun _ => true) ex_ctx [HunkAdded ex_path ex_hunk])) = (2, 1)%Z
  ∧ sum_for (counted 0) (records (run_loc_sink (fun _ => true) ex_ctx ([HunkAdded ex_path ex_hunk] ++ [HunkRemoved ex_path (counted 0) Rejected]))) = (0, 0)%Z.
Proof.
  destruct (records_balance (fun _ => true) ex_ctx (counted 0) [HunkAdded ex_path ex_hunk] (fun _ => eq_refl)) as (_ & H1 & H2).
  split; [rewrite H1; by vm_compute|]. apply H2; [done|by vm_compute].
Defined.

(** ** The hunk tracker on small inputs

    Runs that show behaviour the comments of the source do not promise. *)

#[local] Open Scope nat_scope.

(** Lines compared one by one. *)
Fixpoint lockstep_changes (old new : list bytes) : list Change :=
  match old, new with
  | x :: old, y :: new =>
      (if x =b y then [(Equal, ended x)] else [(Delete, ended x); (Insert, ended y)]) ++ lockstep_changes old new
  | _, _ => map (fun l => (Delete, ended l)) old ++ map (fun l => (Insert, ended l)) new
  end.

Definition lockstep_diff : DiffEnv := {|
  diff_lines := fun b c => Some (lockstep_changes (lines b) (lines c));
  unified_diff := fun _ _ _ => [];
|}.

Definition handle (w : World) (c : HunkTrackerCommand) (a : HunkTrackerActor) : HunkTrackerActor :=
  (handle_command (H := lockstep_diff) counted w c a).2.

Definition start : HunkTrackerActor := new_actor ($"/w") AgentOnly.

Definition events (a : HunkTrackerActor) : list HunkEvent := omap (fun o => match o with Sent e => Some e | _ => None end) (output a).

(** The agent changes the first and the third of three lines, then the second: the two
    hunks become one of three lines, but the second hunk is never taken back, so the
    records sum to four. *)
Definition merged : HunkTrackerActor :=
  handle ex_world (RecordAgentWrite ex_path (text [$"1"; $"2"; $"3"]) 1 None)
    (handle ex_world (RecordAgentWrite ex_path (text [$"1"; $"b"; $"3"]) 1 (Some (text [$"a"; $"b"; $"c"]))) start).

Example merged_hunk_counted_twice :
  map (fun h => new_count (line_info h)) (get_all_hunks merged) = [3]
  ∧ foldr (fun r n => (lines_added r + n)%Z) 0%Z (records (run_loc_sink (fun _ => true) ex_ctx (events merged))) = 4%Z.
Proof. by vm_compute. Qed.

(** The records of a rejected hunk name no author, so the sum per author keeps its
    lines. *)
Definition sum_by (who : AuthorType) (rs : list HunkRecord) : Z :=
  foldr (fun r n => match author_type r, who with
                    | Some Agent, Agent | Some Human, Human => (lines_added r + n)%Z
                    | _, _ => n
                    end) 0%Z rs.

Example rejected_lines_stay_with_their_author :
  let rs := records (run_loc_sink (fun _ => true) ex_ctx [HunkAdded ex_path ex_hunk; HunkRemoved ex_path (counted 0) Rejected]) in
  sum_for (counted 0) rs = (0, 0)%Z ∧ sum_by Agent rs = 2%Z.
Proof. by vm_compute. Qed.

(** The agent changes the first line and the user the third and the fifth: when the
    fifth is accepted, the third becomes the agent's. *)
Definition edited_by_both : HunkTrackerActor :=
  handle (plain_world (fun _ => Some (text [$"1"; $"b"; $"3"; $"d"; $"5"]))) (HandleFileChange ex_path)
    (handle ex_world (RecordAgentWrite ex_path (text [$"1"; $"b"; $"c"; $"d"; $"e"]) 1 (Some (text [$"a"; $"b"; $"c"; $"d"; $"e"]))) start).

Definition sources (a : HunkTrackerActor) : list (nat * HunkSource) :=
  map (fun h => (new_start (line_info h), source h)) (get_all_hunks a).

Example accepting_reattributes_the_rest :
  sources edited_by_both = [(1, AgentEdit 1); (3, ExternalEditOnAgentFile); (5, ExternalEditOnAgentFile)]
  ∧ sources (handle ex_world (ActOnHunk (counted 3) Accept) edited_by_both) = [(1, AgentEdit 1); (3, AgentEdit 1)].
Proof. by vm_compute. Qed.

(** Rejecting one line of a file with carriage returns rewrites all its line ends. *)
Definition crlf (ls : list bytes) : bytes := concat (map (fun l => l ++ [carriage_return; newline]) ls).

Definition edited_crlf : HunkTrackerActor :=
  handle ex_world (RecordAgentWrite ex_path (crlf [$"a"; $"2"; $"c"]) 1 (Some (crlf [$"a"; $"b"; $"c"]))) start.

Example rejecting_drops_carriage_returns :
  touches (handle ex_world (FileAction ex_path Reject) edited_crlf) = [Wrote ex_path (text [$"a"; $"b"; $"c"])].
Proof. by vm_compute. Qed.

(** Accepting the first line of an empty file that was tracked leaves a hunk pending
    for ever: the patched baseline has no line feed at its end. *)
Definition filled : HunkTrackerActor :=
  handle ex_world (RecordAgentWrite ex_path (text [$"a"]) 1 (Some [])) start.

Definition unended_diff : DiffEnv := {|
  diff_lines := fun b c => Some (match b with [] => [] | _ => [(Delete, b)] end ++ match c with [] => [] | _ => [(Insert, c)] end);
  unified_diff := fun _ _ _ => [];
|}.

Example accepting_never_settles :
  let a := (handle_command (H := unended_diff) counted ex_world (FileAction ex_path Accept) filled).2 in
  baseline <$> file_states a !! ex_path = Some (Full ($"a")) ∧ length (get_all_hunks a) = 1
  ∧ (let a' := (handle_command (H := unended_diff) counted ex_world (FileAction ex_path Accept) a).2 in
     baseline <$> file_states a' !! ex_path = Some (Full ($"a")) ∧ length (get_all_hunks a') = 1).
Proof. by vm_compute. Qed.

(** An event that waits behind an agent's write is handled before it when the round
    starts with another event: the user's edit of the written file is read first and
    then replaced by the older content of the write. *)
Definition other_path : Path := $"/w/g".
Definition user_text : bytes := text [$"a"; $"user"].
Definition agent_text : bytes := text [$"a"; $"agent"].
Definition edited_world : World := plain_world (fun p => if p =b ex_path then Some user_text else None).
Definition queued : list HunkTrackerCommand := [RecordAgentWrite ex_path agent_text 1 (Some (text [$"a"])); HandleFileChange ex_path].

Example batched_write_hides_edit :
  (current_content <$> file_states (handle_next (H := lockstep_diff) counted edited_world (HandleFileChange other_path) queued start).2 !! ex_path)
  = Some (Full agent_text)
  ∧ (current_content <$> file_states (handle_commands (H := lockstep_diff) counted edited_world (HandleFileChange other_path :: queued) start).2 !! ex_path)
    = Some (Full user_text).
Proof. by vm_compute. Qed.
