(* ===== verification/PatchText.v ===== *)
(** * The patch format

    [codegen/xai-grok-tools/src/implementations/codex/apply_patch/parser.rs] and
    [errors.rs]: a patch adds, deletes and updates files; an update is a list of
    chunks, each the lines it removes and the lines it puts there. *)

From S2P Require Import Prelude RustStr StrFind Paths.

#[local] Open Scope nat_scope.

Definition BEGIN_PATCH_MARKER : bytes := $"*** Begin Patch".
Definition END_PATCH_MARKER : bytes := $"*** End Patch".
Definition ADD_FILE_MARKER : bytes := $"*** Add File: ".
Definition DELETE_FILE_MARKER : bytes := $"*** Delete File: ".
Definition UPDATE_FILE_MARKER : bytes := $"*** Update File: ".
Definition MOVE_TO_MARKER : bytes := $"*** Move to: ".
Definition EOF_MARKER : bytes := $"*** End of File".
Definition CHANGE_CONTEXT_MARKER : bytes := $"@@ ".
Definition EMPTY_CHANGE_CONTEXT_MARKER : bytes := $"@@".

Inductive ParseError :=
| InvalidPatchError (message : bytes)
| InvalidHunkError (message : bytes) (line_number : nat).

#[export] Instance ParseError_eq_dec : EqDecision ParseError.
Proof. solve_decision. Defined.

Record UpdateFileChunk := mkChunk {
  change_context : option bytes;
  old_lines : list bytes;
  new_lines : list bytes;
  is_end_of_file : bool;
}.

#[export] Instance UpdateFileChunk_eq_dec : EqDecision UpdateFileChunk.
Proof. solve_decision. Defined.

Inductive Hunk :=
| AddFile (path contents : bytes)
| DeleteFile (path : bytes)
| UpdateFile (path : bytes) (move_path : option bytes) (chunks : list UpdateFileChunk).

#[export] Instance Hunk_eq_dec : EqDecision Hunk.
Proof. solve_decision. Defined.

Record ParsedPatch := mkPatch { hunks : list Hunk; patch : bytes }.

(** ** Boundaries *)

Definition first_line_error : ParseError := InvalidPatchError $"The first line of the patch must be '*** Begin Patch'".
Definition last_line_error : ParseError := InvalidPatchError $"The last line of the patch must be '*** End Patch'".

Definition check_start_and_end_lines_strict (first_line last_line : option bytes) : result unit ParseError :=
  match trim <$> first_line, trim <$> last_line with
  | Some f, Some l =>
      if (f =b BEGIN_PATCH_MARKER) && (l =b END_PATCH_MARKER) then Ok tt
      else if negb (f =b BEGIN_PATCH_MARKER) then Err first_line_error
      else Err last_line_error
  | Some f, None => if negb (f =b BEGIN_PATCH_MARKER) then Err first_line_error else Err last_line_error
  | None, _ => Err last_line_error
  end.

Definition check_patch_boundaries_strict (ls : list bytes) : result unit ParseError :=
  check_start_and_end_lines_strict (hd_error ls) (last ls).

Definition heredoc_start (l : bytes) : bool := (l =b $"<<EOF") || (l =b $"<<'EOF'") || (l =b $"<<" ++ ["034"%char] ++ $"EOF" ++ ["034"%char]).

(** The lines inside of a here-document. *)
Definition check_patch_boundaries_lenient (ls : list bytes) (original : ParseError) : result (list bytes) ParseError :=
  match ls, last ls with
  | first :: (_ :: _) as rest, Some lst =>
      if heredoc_start first && ends_with $"EOF" lst && (4 <=? length ls) then
        let inner := removelast rest in
        match check_patch_boundaries_strict inner with Ok _ => Ok inner | Err e => Err e end
      else Err original
  | _, _ => Err original
  end.

(** ** Chunks *)

Definition with_old (l : bytes) (c : UpdateFileChunk) : UpdateFileChunk :=
  mkChunk (change_context c) (old_lines c ++ [l]) (new_lines c) (is_end_of_file c).
Definition with_new (l : bytes) (c : UpdateFileChunk) : UpdateFileChunk :=
  mkChunk (change_context c) (old_lines c) (new_lines c ++ [l]) (is_end_of_file c).
Definition at_end (c : UpdateFileChunk) : UpdateFileChunk := mkChunk (change_context c) (old_lines c) (new_lines c) true.

Definition no_lines : bytes := $"Update hunk does not contain any lines".

Definition unexpected_line (l : bytes) : bytes :=
  $"Unexpected line found in update hunk: '" ++ l
  ++ $"'. Every line should start with ' ' (context line), '+' (added line), or '-' (removed line)".

(** The lines of a chunk; [n] were read. *)
Fixpoint chunk_lines (line_number : nat) (ls : list bytes) (n : nat) (c : UpdateFileChunk) : result (UpdateFileChunk * nat) ParseError :=
  match ls with
  | [] => Ok (c, n)
  | l :: ls =>
      if l =b EOF_MARKER then
        if n =? 0 then Err (InvalidHunkError no_lines (line_number + 1)) else Ok (at_end c, n + 1)
      else
        match l with
        | [] => chunk_lines line_number ls (n + 1) (with_new [] (with_old [] c))
        | a :: r =>
            if bool_decide (a = " "%char) then chunk_lines line_number ls (n + 1) (with_new r (with_old r c))
            else if bool_decide (a = "+"%char) then chunk_lines line_number ls (n + 1) (with_new r c)
            else if bool_decide (a = "-"%char) then chunk_lines line_number ls (n + 1) (with_old r c)
            else if n =? 0 then Err (InvalidHunkError (unexpected_line l) (line_number + 1))
            else Ok (c, n)
        end
  end.

(** [parse_update_file_chunk] *)
Definition parse_update_file_chunk (ls : list bytes) (line_number : nat) (allow_missing_context : bool)
  : result (UpdateFileChunk * nat) ParseError :=
  match ls with
  | [] => Err (InvalidHunkError no_lines line_number)
  | first :: _ =>
      let head :=
        if first =b EMPTY_CHANGE_CONTEXT_MARKER then Ok (None, 1)
        else match strip_prefix CHANGE_CONTEXT_MARKER first with
             | Some context => Ok (Some context, 1)
             | None =>
                 if negb allow_missing_context then
                   Err (InvalidHunkError ($"Expected update hunk to start with a @@ context marker, got: '" ++ first ++ $"'") line_number)
                 else Ok (None, 0)
             end in
      match head with
      | Err e => Err e
      | Ok (context, start_index) =>
          if length ls <=? start_index then Err (InvalidHunkError no_lines (line_number + 1))
          else
            match chunk_lines line_number (drop start_index ls) 0 (mkChunk context [] [] false) with
            | Ok (c, n) => Ok (c, n + start_index)
            | Err e => Err e
            end
      end
  end.

(** ** Hunks *)

(** The added lines, and how many there are. *)
Fixpoint add_lines (ls : list bytes) : list bytes :=
  match ls with
  | l :: ls => match strip_prefix $"+" l with Some r => r :: add_lines ls | None => [] end
  | [] => []
  end.

Definition stops_update (l : bytes) : bool := starts_with $"***" l.

(** The chunks of an update, and how many lines were read; a chunk takes a line at
    least, so [fuel] need not exceed the number of lines. *)
Fixpoint update_chunks (fuel : nat) (ls : list bytes) (line_number parsed_lines : nat) (chunks : list UpdateFileChunk)
  : result (list UpdateFileChunk * nat) ParseError :=
  match ls, fuel with
  | [], _ | _, 0 => Ok (chunks, parsed_lines)
  | l :: rest, S fuel =>
      if trim l =b [] then update_chunks fuel rest line_number (parsed_lines + 1) chunks
      else if stops_update l then Ok (chunks, parsed_lines)
      else
        match parse_update_file_chunk ls (line_number + parsed_lines) (match chunks with [] => true | _ => false end) with
        | Ok (c, n) => update_chunks fuel (drop n ls) line_number (parsed_lines + n) (chunks ++ [c])
        | Err e => Err e
        end
  end.

Definition invalid_header (first_line : bytes) : bytes :=
  $"'" ++ first_line ++ $"' is not a valid hunk header. Valid hunk headers: '*** Add File: {path}', "
  ++ $"'*** Delete File: {path}', '*** Update File: {path}'".

(** [parse_one_hunk] *)
Definition parse_one_hunk (ls : list bytes) (line_number : nat) : result (Hunk * nat) ParseError :=
  match ls with
  | [] => Err (InvalidHunkError $"hunk is empty" line_number)
  | first :: rest =>
      let first_line := trim first in
      match strip_prefix ADD_FILE_MARKER first_line with
      | Some path => Ok (AddFile path (concat (map (fun l => l ++ [newline]) (add_lines rest))), 1 + length (add_lines rest))
      | None =>
      match strip_prefix DELETE_FILE_MARKER first_line with
      | Some path => Ok (DeleteFile path, 1)
      | None =>
      match strip_prefix UPDATE_FILE_MARKER first_line with
      | Some path =>
          let move_path := l ← hd_error rest; strip_prefix MOVE_TO_MARKER l in
          let '(rest, parsed_lines) := match move_path with Some _ => (drop 1 rest, 2) | None => (rest, 1) end in
          match update_chunks (length rest) rest line_number parsed_lines [] with
          | Err e => Err e
          | Ok ([], _) => Err (InvalidHunkError ($"Update file hunk for path '" ++ path ++ $"' is empty") line_number)
          | Ok (chunks, parsed_lines) => Ok (UpdateFile path move_path chunks, parsed_lines)
          end
      | None => Err (InvalidHunkError (invalid_header first_line) line_number)
      end end end
  end.

(** The hunks of a patch; each takes a line at least. *)
Fixpoint parse_hunks (fuel : nat) (ls : list bytes) (line_number : nat) : result (list Hunk) ParseError :=
  match ls, fuel with
  | [], _ | _, 0 => Ok []
  | _, S fuel =>
      match parse_one_hunk ls line_number with
      | Err e => Err e
      | Ok (h, n) =>
          match parse_hunks fuel (drop n ls) (line_number + n) with Ok hs => Ok (h :: hs) | Err e => Err e end
      end
  end.

Inductive ParseMode := Strict | Lenient.

(** [parse_patch_text] *)
Definition parse_patch_text (p : bytes) (mode : ParseMode) : result ParsedPatch ParseError :=
  let ls := lines (trim p) in
  let inner := match check_patch_boundaries_strict ls with
               | Ok _ => Ok ls
               | Err e => match mode with Strict => Err e | Lenient => check_patch_boundaries_lenient ls e end
               end in
  match inner with
  | Err e => Err e
  | Ok ls =>
      let body := removelast (drop 1 ls) in
      match parse_hunks (length body) body 2 with
      | Err e => Err e
      | Ok hs => Ok (mkPatch hs (join [newline] ls))
      end
  end.

Definition parse_patch (p : bytes) : result ParsedPatch ParseError := parse_patch_text p Lenient.

(** ** Examples *)

Definition unlines (ls : list bytes) : bytes := join [newline] ls.

Example parse_update :
  parse_patch (unlines [$"*** Begin Patch"; $"*** Update File: f"; $"@@ fn"; $" a"; $"-b"; $"+c"; $"*** End of File"; $"*** End Patch"])
  = Ok (mkPatch [UpdateFile $"f" None [mkChunk (Some $"fn") [$"a"; $"b"] [$"a"; $"c"] true]]
      (unlines [$"*** Begin Patch"; $"*** Update File: f"; $"@@ fn"; $" a"; $"-b"; $"+c"; $"*** End of File"; $"*** End Patch"])).
Proof. by vm_compute. Qed.

Example parse_heredoc :
  hunks <$> (match parse_patch (unlines [$"<<'EOF'"; $"*** Begin Patch"; $"*** Add File: f"; $"+a"; $"*** End Patch"; $"EOF"]) with Ok p => Some p | Err _ => None end)
  = Some [AddFile $"f" ($"a" ++ [newline])].
Proof. by vm_compute. Qed.

Example parse_bad : parse_patch $"bad" = Err first_line_error.
Proof. by vm_compute. Qed.
