(* ===== verification/PatchEngine.v ===== *)
(** * Applying patches

    [codegen/xai-grok-tools/src/implementations/codex/apply_patch]: the search for the
    lines of a chunk ([seek_sequence.rs]), the new contents of a file ([apply.rs]) and
    the tool that changes the files ([tool.rs]). *)

From S2P Require Import Prelude RustStr StrFind Paths TextLines PatchText.

#[local] Open Scope nat_scope.

(** ** Finding lines: [seek_sequence.rs] *)

(** Punctuation and spaces of two and three bytes that count as ASCII. *)
Definition ascii_of_2 (a b : ascii) : option ascii :=
  if (code a =? 194) && (code b =? 160) then Some " "%char else None.

Definition ascii_of_3 (a b c : ascii) : option ascii :=
  let z := code c in
  if (code a =? 226) && (code b =? 128) then
    if (144 <=? z) && (z <=? 149) then Some "-"%char
    else if (152 <=? z) && (z <=? 155) then Some "'"%char
    else if (156 <=? z) && (z <=? 159) then Some "034"%char
    else if (130 <=? z) && (z <=? 138) || (z =? 175) then Some " "%char
    else None
  else if (code a =? 226) && (code b =? 136) && (z =? 146) then Some "-"%char
  else if (code a =? 226) && (code b =? 129) && (z =? 159) then Some " "%char
  else if (code a =? 227) && (code b =? 128) && (z =? 128) then Some " "%char
  else None.

Fixpoint normalise_chars (s : bytes) : bytes :=
  match s with
  | a :: r =>
      match r with
      | b :: r2 =>
          match ascii_of_2 a b with
          | Some x => x :: normalise_chars r2
          | None =>
              match r2 with
              | c :: r3 =>
                  match ascii_of_3 a b c with
                  | Some x => x :: normalise_chars r3
                  | None => a :: normalise_chars r
                  end
              | [] => a :: normalise_chars r
              end
          end
      | [] => [a]
      end
  | [] => []
  end.

Definition normalise (s : bytes) : bytes := normalise_chars (trim s).

(** The four strengths of a match: two lines agree when their images do. *)
Definition strengths : list (bytes → bytes) := [fun l => l; trim_end; trim; normalise].

(** The pattern stands at [i]. *)
Definition stands_at (f : bytes → bytes) (ls pattern : list bytes) (i : nat) : bool :=
  bool_decide (map f (take (length pattern) (drop i ls)) = map f pattern).

(** [for i in from..=last]: the first of [n] positions from [i]. *)
Fixpoint first_at (p : nat → bool) (i n : nat) : option nat :=
  match n with
  | 0 => None
  | S n => if p i then Some i else first_at p (S i) n
  end.

Fixpoint first_strength (fs : list (bytes → bytes)) (ls pattern : list bytes) (from : nat) : option nat :=
  match fs with
  | [] => None
  | f :: fs =>
      match first_at (stands_at f ls pattern) from (length ls - length pattern + 1 - from) with
      | Some i => Some i
      | None => first_strength fs ls pattern from
      end
  end.

Definition seek_sequence (ls pattern : list bytes) (start : nat) (eof : bool) : option nat :=
  match pattern with
  | [] => Some start
  | _ =>
      if length ls <? length pattern then None
      else first_strength strengths ls pattern (if eof then length ls - length pattern else start)
  end.

(** ** New contents: [apply.rs] *)

Inductive ApplyPatchError := ComputeReplacements (message : bytes).

(** Start, number of lines removed, lines put there. *)
Definition Replacement : Type := nat * nat * list bytes.

Definition ends_blank (ls : list bytes) : bool := bool_decide (last ls = Some []).

Definition context_error (ctx_line path : bytes) : ApplyPatchError :=
  ComputeReplacements ($"Failed to find context '" ++ ctx_line ++ $"' in " ++ path).

Definition lines_error (path : bytes) (c : UpdateFileChunk) : ApplyPatchError :=
  ComputeReplacements ($"Failed to find expected lines in " ++ path ++ $":" ++ [newline] ++ join [newline] (old_lines c)).

(** One chunk: its replacement and where the next one is looked for. *)
Definition place_chunk (original : list bytes) (path : bytes) (c : UpdateFileChunk) (line_index : nat)
  : result (Replacement * nat) ApplyPatchError :=
  let from := match change_context c with
              | Some ctx => match seek_sequence original [ctx] line_index false with Some i => Ok (i + 1) | None => Err (context_error ctx path) end
              | None => Ok line_index
              end in
  match from with
  | Err e => Err e
  | Ok line_index =>
      match old_lines c with
      | [] =>
          let at_ := if ends_blank original then length original - 1 else length original in
          Ok (at_, 0, new_lines c, line_index)
      | old =>
          let seek pattern := seek_sequence original pattern line_index (is_end_of_file c) in
          let '(pattern, new, found) :=
            match seek old with
            | Some i => (old, new_lines c, Some i)
            | None =>
                if ends_blank old then
                  let pattern := removelast old in
                  (pattern, if ends_blank (new_lines c) then removelast (new_lines c) else new_lines c, seek pattern)
                else (old, new_lines c, None)
            end in
          match found with
          | Some i => Ok (i, length pattern, new, i + length pattern)
          | None => Err (lines_error path c)
          end
      end
  end.

Fixpoint place_chunks (original : list bytes) (path : bytes) (cs : list UpdateFileChunk) (line_index : nat)
  : result (list Replacement) ApplyPatchError :=
  match cs with
  | [] => Ok []
  | c :: cs =>
      match place_chunk original path c line_index with
      | Err e => Err e
      | Ok (r, line_index) =>
          match place_chunks original path cs line_index with Ok rs => Ok (r :: rs) | Err e => Err e end
      end
  end.

(** [compute_replacements] *)
Definition compute_replacements (original : list bytes) (path : bytes) (cs : list UpdateFileChunk)
  : result (list Replacement) ApplyPatchError :=
  match place_chunks original path cs 0 with
  | Ok rs => Ok (sort_by_key (fun r : Replacement => r.1.1) rs)
  | Err e => Err e
  end.

(** [lines.remove(i)] [n] times while there is a line, and [lines.insert], which panics
    past the end. *)
Fixpoint remove_at (i n : nat) (ls : list bytes) : list bytes :=
  match n with 0 => ls | S n => remove_at i n (take i ls ++ drop (S i) ls) end.

Fixpoint insert_at (i : nat) (new ls : list bytes) : option (list bytes) :=
  match new with
  | [] => Some ls
  | l :: new => if length ls <? i then None else insert_at (S i) new (take i ls ++ l :: drop i ls)
  end.

Definition replace_at (ls : list bytes) (r : Replacement) : option (list bytes) :=
  let '(i, n, new) := r in insert_at i new (remove_at i n ls).

(** [apply_replacements], from the last to the first; [None] when an insertion panics. *)
Fixpoint apply_replacements (ls : list bytes) (rs : list Replacement) : option (list bytes) :=
  match rs with
  | [] => Some ls
  | r :: rs => ls ← apply_replacements ls rs; replace_at ls r
  end.

(** [derive_new_contents]; [None] when it panics. *)
Definition original_lines (content : bytes) : list bytes :=
  let ls := split_on newline content in if ends_blank ls then removelast ls else ls.

Definition final_newline (ls : list bytes) : list bytes := if ends_blank ls then ls else ls ++ [[]].

Definition derive_new_contents (content path : bytes) (cs : list UpdateFileChunk) : option (result bytes ApplyPatchError) :=
  let original := original_lines content in
  match compute_replacements original path cs with
  | Err e => Some (Err e)
  | Ok rs => ls ← apply_replacements original rs; Some (Ok (join [newline] (final_newline ls)))
  end.

(** ** The tool: [tool.rs] *)

Inductive FileChange :=
| Add (path content : bytes)
| Delete (path original_content : bytes)
| Update (path original_content new_content : bytes)
| Move (source_path dest_path original_content new_content : bytes).

Record FileWritten := mkWritten {
  absolute_path : bytes;
  content : bytes;
  previous_content : option bytes;
  is_new_file : bool;
}.

Record ApplyPatchFileResult := mkFileResult {
  result_path : bytes;
  action : bytes;
  old_text : option bytes;
  new_text : bytes;
  move_to : option bytes;
}.

Inductive ApplyPatchOutput :=
| Success (files : list ApplyPatchFileResult) (tool_output_for_prompt : bytes)
| PatchParseError (message : bytes)
| ApplicationError (message : bytes)
| EmptyPatch (message : bytes).

(** What a call leaves: the files, and the notifications in order. *)
Record ToolState := mkToolState { files : Files; notified : list FileWritten }.

Definition with_files (f : Files) (s : ToolState) : ToolState := mkToolState f (notified s).
Definition notify (n : FileWritten) (s : ToolState) : ToolState := mkToolState (files s) (notified s ++ [n]).

Section Tool.
Context {disk : EditFs} {policy : MemoryPolicy}.

(** One hunk of [compute_all_changes]; [None] when it panics. *)
Definition compute_change (cwd : bytes) (f : Files) (h : Hunk) : option (result FileChange bytes) :=
  match h with
  | AddFile path contents => Some (Ok (Add (push cwd path) contents))
  | DeleteFile path =>
      let resolved := push cwd path in
      Some match read_file_as_string resolved f with
           | Ok original => Ok (Delete resolved original)
           | Err e => Err ($"Failed to read file: " ++ resolved ++ $", " ++ fs_message e)
           end
  | UpdateFile path move_path chunks =>
      let resolved := push cwd path in
      match read_file_as_string resolved f with
      | Err e => Some (Err ($"Failed to read file to update: " ++ resolved ++ $", " ++ fs_message e))
      | Ok original =>
          r ← derive_new_contents original resolved chunks;
          Some match r with
               | Err (ComputeReplacements msg) => Err msg
               | Ok new =>
                   Ok match move_path with
                      | Some dest => Move resolved (push cwd dest) original new
                      | None => Update resolved original new
                      end
               end
      end
  end.

(** [compute_all_changes] *)
Fixpoint compute_all_changes (cwd : bytes) (f : Files) (hs : list Hunk) : option (result (list FileChange) bytes) :=
  match hs with
  | [] => Some (Ok [])
  | h :: hs =>
      r ← compute_change cwd f h;
      match r with
      | Err e => Some (Err e)
      | Ok c =>
          rs ← compute_all_changes cwd f hs;
          Some match rs with Ok cs => Ok (c :: cs) | Err e => Err e end
      end
  end.

Definition destructive_error (p : bytes) : bytes :=
  p ++ $" is inside a memory directory; apply_patch cannot delete or move memory files. Use the memory workflow instead: edit topic files in place or manage memories with the memory tools.".

(** [reject_memory_v2_destructive_path] *)
Definition reject_destructive_path (p : bytes) : result unit bytes :=
  match validate_read p with
  | Ok true => Err (destructive_error p)
  | Ok false => Ok tt
  | Err e => Err e
  end.

Definition preflight_change (c : FileChange) : result unit bytes :=
  let write p b := match preflight_write p b with Ok _ => Ok tt | Err e => Err e end in
  match c with
  | Add p b => write p b
  | Update p _ b => write p b
  | Delete p _ => reject_destructive_path p
  | Move p d _ _ => match reject_destructive_path p with Ok _ => reject_destructive_path d | Err e => Err e end
  end.

(** [preflight_memory_v2_changes] *)
Fixpoint preflight_changes (cs : list FileChange) : result unit bytes :=
  match cs with
  | [] => Ok tt
  | c :: cs => match preflight_change c with Ok _ => preflight_changes cs | Err e => Err e end
  end.

(** How the application of one change ends: done, reported to the model, or an error of
    the tool. *)
Inductive Applied := Done (r : ApplyPatchFileResult) | Reported (message : bytes) | Failed (message : bytes).

(** A create or replace, through the memory policy or to the disk. *)
Definition store (create : bool) (p b : bytes) (s : ToolState) : option Applied * ToolState :=
  match write_memory p b (files s) with
  | Err e => (Some (Reported e), s)
  | Ok (Some f) => (None, with_files f s)
  | Ok None =>
      match (if create then ensure_parent_dirs p else Ok tt) with
      | Err e => (Some (Failed (fs_message e)), s)
      | Ok _ => match write_file p b (files s) with Err e => (Some (Failed (fs_message e)), s) | Ok f => (None, with_files f s) end
      end
  end.

(** One change of phase 3. *)
Definition apply_change (c : FileChange) (s : ToolState) : Applied * ToolState :=
  match c with
  | Add p b =>
      match store true p b s with
      | (Some r, s) => (r, s)
      | (None, s) => (Done (mkFileResult p $"added" None b None), notify (mkWritten p b None true) s)
      end
  | Delete p original =>
      match delete_file p (files s) with
      | Err e => (Failed (fs_message e), s)
      | Ok f => (Done (mkFileResult p $"deleted" (Some original) [] None),
                 notify (mkWritten p [] (Some original) false) (with_files f s))
      end
  | Update p original new =>
      match store false p new s with
      | (Some r, s) => (r, s)
      | (None, s) => (Done (mkFileResult p $"modified" (Some original) new None), notify (mkWritten p new (Some original) false) s)
      end
  | Move p d original new =>
      match ensure_parent_dirs d with
      | Err e => (Failed (fs_message e), s)
      | Ok _ =>
          match write_file d new (files s) with
          | Err e => (Failed (fs_message e), s)
          | Ok f =>
              let s := with_files f s in
              match delete_file p f with
              | Err e => (Failed (fs_message e), s)
              | Ok f =>
                  (Done (mkFileResult p $"moved" (Some original) new (Some d)),
                   notify (mkWritten p [] (Some original) false) (notify (mkWritten d new None true) (with_files f s)))
              end
          end
      end
  end.

Definition summary_line (r : ApplyPatchFileResult) : bytes :=
  (if action r =b $"added" then $"A " else if action r =b $"deleted" then $"D " else $"M ") ++ result_path r ++ [newline].

(** [build_summary] *)
Definition build_summary (rs : list ApplyPatchFileResult) : bytes :=
  $"Success. Updated the following files:" ++ [newline] ++ concat (map summary_line rs).

(** Phase 3; the error of the tool is [Err]. *)
Fixpoint apply_changes (cs : list FileChange) (results : list ApplyPatchFileResult) (s : ToolState)
  : result ApplyPatchOutput bytes * ToolState :=
  match cs with
  | [] => (Ok (Success results (build_summary results)), s)
  | c :: cs =>
      match apply_change c s with
      | (Done r, s) => apply_changes cs (results ++ [r]) s
      | (Reported e, s) => (Ok (ApplicationError e), s)
      | (Failed e, s) => (Err e, s)
      end
  end.

Definition parse_message (e : ParseError) : bytes :=
  match e with
  | InvalidPatchError m => $"Invalid patch: " ++ m
  | InvalidHunkError m n => $"Invalid patch hunk on line " ++ show_decimal (N.of_nat n) ++ $": " ++ m
  end.

(** [ApplyPatchTool::run]; [None] when it panics. *)
Definition run (cwd input : bytes) (s : ToolState) : option (result ApplyPatchOutput bytes * ToolState) :=
  match parse_patch input with
  | Err e => Some (Ok (PatchParseError (parse_message e)), s)
  | Ok parsed =>
      match hunks parsed with
      | [] => Some (Ok (EmptyPatch $"No files were modified."), s)
      | hs =>
          r ← compute_all_changes cwd (files s) hs;
          Some match r with
               | Err e => (Ok (ApplicationError e), s)
               | Ok cs =>
                   match preflight_changes cs with
                   | Err e => (Ok (ApplicationError e), s)
                   | Ok _ => apply_changes cs [] s
                   end
               end
      end
  end.

End Tool.
