(* ===== verification/PatchFormat.v ===== *)
(** * Printing and parsing patches

    A printer of patches as the grammar of the format has them, and that the parser
    reads what it prints. *)

From S2P Require Import Prelude RustStr StrFind Paths TextLines PatchText.

#[local] Open Scope nat_scope.

(** ** The printer *)

Definition print_chunk (c : UpdateFileChunk) : list bytes :=
  [match change_context c with Some x => CHANGE_CONTEXT_MARKER ++ x | None => EMPTY_CHANGE_CONTEXT_MARKER end]
  ++ map (cons "-"%char) (old_lines c) ++ map (cons "+"%char) (new_lines c)
  ++ (if is_end_of_file c then [EOF_MARKER] else []).

Definition print_hunk (h : Hunk) : list bytes :=
  match h with
  | AddFile p contents => (ADD_FILE_MARKER ++ p) :: map (cons "+"%char) (lines contents)
  | DeleteFile p => [DELETE_FILE_MARKER ++ p]
  | UpdateFile p m cs =>
      (UPDATE_FILE_MARKER ++ p) :: match m with Some d => [MOVE_TO_MARKER ++ d] | None => [] end ++ concat (map print_chunk cs)
  end.

Definition print_patch (hs : list Hunk) : bytes :=
  unlines (BEGIN_PATCH_MARKER :: concat (map print_hunk hs) ++ [END_PATCH_MARKER]).

(** What can be printed: lines without line ends in them, paths that white space does
    not end, chunks and updates that are not empty. *)
Definition printable_path (p : bytes) : Prop := clean p ∧ p ≠ [] ∧ head_ws_rev (reverse p) = false.

Definition printable_chunk (c : UpdateFileChunk) : Prop :=
  Forall clean (option_list (change_context c)) ∧ Forall clean (old_lines c) ∧ Forall clean (new_lines c)
  ∧ old_lines c ++ new_lines c ≠ [].

Definition printable (h : Hunk) : Prop :=
  match h with
  | AddFile p contents => printable_path p ∧ plain_text contents
  | DeleteFile p => printable_path p
  | UpdateFile p m cs => printable_path p ∧ Forall clean (option_list m) ∧ cs ≠ [] ∧ Forall printable_chunk cs
  end.

#[export] Instance printable_path_dec (p : bytes) : Decision (printable_path p).
Proof. unfold printable_path. apply _. Defined.
#[export] Instance printable_chunk_dec (c : UpdateFileChunk) : Decision (printable_chunk c).
Proof. unfold printable_chunk. apply _. Defined.
#[export] Instance printable_dec (h : Hunk) : Decision (printable h).
Proof. destruct h; cbn [printable]; apply _. Defined.

(** ** Headers *)

(** What may follow a chunk or a hunk. *)
Definition stops (ls : list bytes) : Prop :=
  match ls with
  | [] => True
  | l :: _ => (∃ r, l = "@"%char :: r) ∨ starts_with $"*** " l = true ∧ l ≠ EOF_MARKER
  end.

(** What may follow a hunk. *)
Definition stops_hunk (ls : list bytes) : Prop :=
  match ls with [] => True | l :: _ => ∃ r, l = $"*** " ++ r ∧ head_ws_rev (reverse l) = false ∧ l ≠ EOF_MARKER end.

Lemma head_ws_rev_join (m p : bytes) : p ≠ [] → head_ws_rev (reverse p) = false →
  last m = Some " "%char → head_ws_rev (reverse (m ++ p)) = false.
Proof.
  intros Hp Hr [r ->]%last_Some. rewrite reverse_app, reverse_app. cbn [reverse app]. set (a := " "%char).
  assert (code a < 128) as Ha by (vm_compute; lia). clearbody a. change (reverse [a]) with [a]. cbn [app]. generalize (reverse r). clear r. intros r.
  destruct (reverse p) as [|x [|y [|z s]]] eqn:Ep; try done.
  - apply (f_equal length) in Ep. rewrite length_reverse in Ep. by destruct p.
  - simpl in Hr |- *. apply orb_false_iff in Hr as [-> _]. rewrite ws2_ascii by auto. destruct r; [done|]. by rewrite ws3_ascii by auto.
  - simpl in Hr |- *. apply orb_false_iff in Hr as [-> [-> _]%orb_false_iff]. by rewrite ws3_ascii by auto.
Qed.

(** A header is what it is when it is trimmed. *)
Lemma trim_header (m p : bytes) :
  head_ws (m ++ p) = false → last m = Some " "%char → printable_path p → trim (m ++ p) = m ++ p.
Proof. intros Hm Ha (_ & Hp & Hr). apply trim_fix. split; [done|by apply head_ws_rev_join]. Qed.

(** ** Chunks *)

Lemma with_olds (ls : list bytes) (c : UpdateFileChunk) :
  fold_left (fun c l => with_old l c) ls c = mkChunk (change_context c) (old_lines c ++ ls) (new_lines c) (is_end_of_file c).
Proof.
  revert c. induction ls as [|l ls IH]; intros [x o n e]; simpl; [by rewrite app_nil_r|]. rewrite IH. simpl. by rewrite <-app_assoc.
Qed.

Lemma with_news (ls : list bytes) (c : UpdateFileChunk) :
  fold_left (fun c l => with_new l c) ls c = mkChunk (change_context c) (old_lines c) (new_lines c ++ ls) (is_end_of_file c).
Proof.
  revert c. induction ls as [|l ls IH]; intros [x o n e]; simpl; [by rewrite app_nil_r|]. rewrite IH. simpl. by rewrite <-app_assoc.
Qed.

Lemma chunk_lines_old (k : nat) (ls rest : list bytes) (n : nat) (c : UpdateFileChunk) :
  chunk_lines k (map (cons "-"%char) ls ++ rest) n c = chunk_lines k rest (n + length ls) (fold_left (fun c l => with_old l c) ls c).
Proof.
  revert n c. induction ls as [|l ls IH]; intros n c; [by rewrite Nat.add_0_r|]. cbn [map app chunk_lines fold_left length].
  rewrite (proj2 (beq_false _ _)) by done. simpl. rewrite IH. f_equal. lia.
Qed.

Lemma chunk_lines_new (k : nat) (ls rest : list bytes) (n : nat) (c : UpdateFileChunk) :
  chunk_lines k (map (cons "+"%char) ls ++ rest) n c = chunk_lines k rest (n + length ls) (fold_left (fun c l => with_new l c) ls c).
Proof.
  revert n c. induction ls as [|l ls IH]; intros n c; [by rewrite Nat.add_0_r|]. cbn [map app chunk_lines fold_left length].
  rewrite (proj2 (beq_false _ _)) by done. simpl. rewrite IH. f_equal. lia.
Qed.

Lemma chunk_lines_end (k n : nat) (c : UpdateFileChunk) (rest : list bytes) :
  stops rest → n ≠ 0 → chunk_lines k rest n c = Ok (c, n).
Proof.
  intros Hs Hn. destruct rest as [|l rest]; [done|]. destruct Hs as [[r ->]|[Hl Hne]].
  - cbn [chunk_lines]. rewrite (proj2 (beq_false _ _)) by done. simpl. by destruct (Nat.eqb_spec n 0).
  - apply starts_with_true in Hl as [r ->]. cbn [chunk_lines]. rewrite (proj2 (beq_false _ _)) by done.
    simpl. by destruct (Nat.eqb_spec n 0).
Qed.

(** The head of a chunk. *)
Definition context_line (c : UpdateFileChunk) : bytes :=
  match change_context c with Some x => CHANGE_CONTEXT_MARKER ++ x | None => EMPTY_CHANGE_CONTEXT_MARKER end.

Definition chunk_body (c : UpdateFileChunk) : list bytes :=
  map (cons "-"%char) (old_lines c) ++ map (cons "+"%char) (new_lines c) ++ (if is_end_of_file c then [EOF_MARKER] else []).

Lemma chunk_lines_body (k : nat) (c : UpdateFileChunk) (rest : list bytes) :
  old_lines c ++ new_lines c ≠ [] → stops rest →
  chunk_lines k (chunk_body c ++ rest) 0 (mkChunk (change_context c) [] [] false) = Ok (c, length (chunk_body c)).
Proof.
  intros Hne Hs. assert (length (old_lines c) + length (new_lines c) ≠ 0) as Hl
    by (rewrite <-length_app; by destruct (old_lines c ++ new_lines c)).
  unfold chunk_body. rewrite <-!app_assoc, chunk_lines_old, chunk_lines_new, with_olds, with_news, !length_app, !length_map. simpl.
  destruct c as [x o n e]. simpl in *. destruct e; simpl.
  - destruct (Nat.eqb_spec (length o + length n) 0); [lia|]. unfold at_end. simpl. do 2 f_equal. lia.
  - rewrite chunk_lines_end by done. do 2 f_equal. lia.
Qed.

Lemma parse_chunk (k : nat) (b : bool) (c : UpdateFileChunk) (rest : list bytes) :
  printable_chunk c → stops rest →
  parse_update_file_chunk (print_chunk c ++ rest) k b = Ok (c, length (print_chunk c)).
Proof.
  intros (_ & _ & _ & Hne) Hs. change (print_chunk c) with (context_line c :: chunk_body c).
  cbn [app length]. unfold parse_update_file_chunk.
  assert (length (chunk_body c) ≠ 0) as Hl.
  { unfold chunk_body. rewrite !length_app, !length_map. destruct (old_lines c), (new_lines c); simpl; try lia. done. }
  assert ((if context_line c =b EMPTY_CHANGE_CONTEXT_MARKER then Ok (None, 1)
    else match strip_prefix CHANGE_CONTEXT_MARKER (context_line c) with
         | Some context => Ok (Some context, 1)
         | None => if negb b then Err (InvalidHunkError ($"Expected update hunk to start with a @@ context marker, got: '" ++ context_line c ++ $"'") k) else Ok (None, 0)
         end) = Ok (change_context c, 1)) as ->.
  { unfold context_line. destruct (change_context c) as [x|]; [|by rewrite beq_refl].
    rewrite (proj2 (beq_false _ _)) by done. by rewrite (proj2 (strip_prefix_Some _ _ x)). }
  cbn [length]. destruct (Nat.leb_spec (S (length (chunk_body c ++ rest))) 1) as [H|_]; [rewrite length_app in H; lia|].
  change (drop 1 (context_line c :: chunk_body c ++ rest)) with (chunk_body c ++ rest). rewrite chunk_lines_body by done. do 2 f_equal. lia.
Qed.

(** ** Updates *)

Lemma stops_update_hunk (l : bytes) (ls : list bytes) : stops_hunk (l :: ls) → stops_update l = true ∧ trim l ≠ [].
Proof.
  intros (r & -> & Hr & _). split; [unfold stops_update; apply starts_with_true; by exists (" "%char :: r)|].
  rewrite (proj2 (trim_fix _)); [done|]. by split.
Qed.

Lemma stops_hunk_stops (ls : list bytes) : stops_hunk ls → stops ls.
Proof.
  destruct ls as [|l ls]; [done|]. intros (r & -> & _ & Hne). right. split; [apply starts_with_app|done].
Qed.

Lemma context_line_trim (c : UpdateFileChunk) : trim (context_line c) =b [] = false ∧ stops_update (context_line c) = false.
Proof.
  assert (∃ r, context_line c = "@"%char :: r) as [r ->] by (unfold context_line; destruct (change_context c); eexists; reflexivity).
  split; [|done]. apply beq_false. by apply trim_nonempty.
Qed.

Lemma update_chunks_parse (k n : nat) (cs acc : list UpdateFileChunk) (rest : list bytes) (fuel : nat) :
  Forall printable_chunk cs → stops_hunk rest → length (concat (map print_chunk cs) ++ rest) <= fuel →
  update_chunks fuel (concat (map print_chunk cs) ++ rest) k n acc = Ok (acc ++ cs, n + length (concat (map print_chunk cs))).
Proof.
  intros Hcs Hr. revert acc n fuel. induction Hcs as [|c cs Hc Hcs IH]; intros acc n fuel Hf.
  - simpl. rewrite app_nil_r, Nat.add_0_r. destruct rest as [|l rest]; [by destruct fuel|]. destruct fuel; [simpl in Hf; lia|].
    cbn [update_chunks]. destruct (stops_update_hunk l rest Hr) as [Hs Ht]. by rewrite (proj2 (beq_false _ _) Ht), Hs.
  - cbn [map concat] in *. rewrite <-app_assoc in *. destruct (context_line_trim c) as [Ht Hs].
    assert (print_chunk c = context_line c :: chunk_body c) as Ep by done.
    destruct fuel; [rewrite Ep in Hf; simpl in Hf; lia|]. rewrite length_app in Hf. rewrite Ep at 1. cbn [app update_chunks].
    rewrite Ht, Hs. rewrite app_comm_cons, <-Ep.
    rewrite parse_chunk; [|done|destruct cs as [|c' cs]; [by apply stops_hunk_stops|]].
    + assert (1 <= length (print_chunk c)) by (rewrite Ep; simpl; lia).
      rewrite drop_app_length. rewrite IH by (done || lia). rewrite length_app, <-app_assoc. do 2 f_equal. lia.
    + cbn [map concat]. rewrite <-app_assoc. change (print_chunk c') with (context_line c' :: chunk_body c'). left.
      unfold context_line. destruct (change_context c'); eexists; reflexivity.
Qed.

(** ** Hunks *)

Lemma add_lines_plus (ls rest : list bytes) :
  match rest with [] => True | l :: _ => ∃ r, l = "*"%char :: r end →
  add_lines (map (cons "+"%char) ls ++ rest) = ls.
Proof.
  intros Hr. induction ls as [|l ls IH]; [destruct rest as [|l rest]; [done|]; destruct Hr as [r ->]; done|].
  simpl. by rewrite IH.
Qed.

Lemma stops_hunk_star (ls : list bytes) : stops_hunk ls → match ls with [] => True | l :: _ => ∃ r, l = "*"%char :: r end.
Proof. destruct ls as [|l ls]; [done|]. intros (r & -> & _). by eexists. Qed.

Lemma parse_hunk (h : Hunk) (rest : list bytes) (k : nat) :
  printable h → stops_hunk rest → parse_one_hunk (print_hunk h ++ rest) k = Ok (h, length (print_hunk h)).
Proof.
  intros Hp Hr. destruct h as [p contents|p|p m cs]; cbn [print_hunk printable app parse_one_hunk] in *.
  - destruct Hp as [Hp [Ht Hc]]. rewrite trim_header by done.
    rewrite (proj2 (strip_prefix_Some _ _ p)) by done. rewrite add_lines_plus by (by apply stops_hunk_star).
    cbn [length]. rewrite length_map. do 3 f_equal. by rewrite Ht at 2.
  - rewrite trim_header by done.
    destruct (strip_prefix ADD_FILE_MARKER (DELETE_FILE_MARKER ++ p)) eqn:E; [by apply strip_prefix_Some in E|].
    by rewrite (proj2 (strip_prefix_Some _ _ p)).
  - destruct Hp as (Hp & Hm & Hne & Hcs). rewrite trim_header by done.
    destruct (strip_prefix ADD_FILE_MARKER (UPDATE_FILE_MARKER ++ p)) eqn:E1; [by apply strip_prefix_Some in E1|].
    destruct (strip_prefix DELETE_FILE_MARKER (UPDATE_FILE_MARKER ++ p)) eqn:E2; [by apply strip_prefix_Some in E2|].
    rewrite (proj2 (strip_prefix_Some _ _ p)) by done. rewrite <-app_assoc.
    assert ((l ← hd_error ((match m with Some d => [MOVE_TO_MARKER ++ d] | None => [] end) ++ concat (map print_chunk cs) ++ rest);
      strip_prefix MOVE_TO_MARKER l) = m) as ->.
    { destruct m as [d|]; [cbn [app hd_error mbind option_bind]; by rewrite (proj2 (strip_prefix_Some _ _ d))|]. destruct cs as [|c cs]; [done|].
      cbn [map concat app]. change (print_chunk c) with (context_line c :: chunk_body c). cbn [app hd_error mbind option_bind].
      destruct (strip_prefix MOVE_TO_MARKER (context_line c)) eqn:E; [|done]. apply strip_prefix_Some in E.
      unfold context_line in E. by destruct (change_context c). }
    match goal with |- context [let '(r, n) := ?x in _] =>
      replace x with (concat (map print_chunk cs) ++ rest, 1 + length (match m with Some d => [MOVE_TO_MARKER ++ d] | None => [] end)) by (by destruct m) end.
    rewrite update_chunks_parse by (done || lia). destruct cs as [|c cs]; [done|]. cbn [app length]. rewrite length_app. done.
Qed.

Lemma print_hunk_stops (h : Hunk) (rest : list bytes) : printable h → stops_hunk (print_hunk h ++ rest).
Proof.
  assert (∀ m p, printable_path p → last m = Some " "%char → head_ws_rev (reverse (m ++ p)) = false) as Hm
    by (intros m p (_ & Hp & Hr) Ha; by apply head_ws_rev_join).
  destruct h as [p c|p|p m cs]; cbn [print_hunk printable app stops_hunk].
  - intros [Hp _]. eexists. split; [reflexivity|]. split; [by apply Hm|done].
  - intros Hp. eexists. split; [reflexivity|]. split; [by apply Hm|done].
  - intros [Hp _]. eexists. split; [reflexivity|]. split; [by apply Hm|done].
Qed.

Lemma parse_hunks_print (hs : list Hunk) (k fuel : nat) :
  Forall printable hs → length (concat (map print_hunk hs)) <= fuel → parse_hunks fuel (concat (map print_hunk hs)) k = Ok hs.
Proof.
  intros Hhs. revert k fuel. induction Hhs as [|h hs Hh Hhs IH]; intros k fuel Hf; [by destruct fuel|]. cbn [map concat] in *.
  assert (∃ l ls, print_hunk h ++ concat (map print_hunk hs) = l :: ls) as (l & ls & E) by (destruct h; by eexists _, _).
  assert (stops_hunk (concat (map print_hunk hs))) as Hs by (destruct Hhs; [done|by apply print_hunk_stops]).
  pose proof (parse_hunk h (concat (map print_hunk hs)) k Hh Hs) as Hp.
  rewrite length_app in Hf. destruct fuel; [destruct h; simpl in Hf; lia|]. rewrite E in *. cbn [parse_hunks]. rewrite Hp.
  rewrite <-E, drop_app_length, IH; [done|]. destruct h; simpl in Hf; lia.
Qed.

(** ** Patches *)

Lemma clean_app (a b : bytes) : clean a → clean b → clean (a ++ b).
Proof. unfold clean. set_solver. Qed.

#[local] Ltac clean_marker := apply (bool_decide_unpack (clean _)); by vm_compute.

Lemma clean_cons (m : ascii) (ls : list bytes) : clean [m] → Forall clean ls → Forall clean (map (cons m) ls).
Proof. intros Hm. induction 1 as [|l ls Hl _ IH]; constructor; [by apply (clean_app [m])|done]. Qed.

Lemma print_chunk_clean (c : UpdateFileChunk) : printable_chunk c → Forall clean (print_chunk c).
Proof.
  intros (Hx & Ho & Hn & _). unfold print_chunk. apply Forall_app. split; [apply Forall_singleton|].
  { destruct (change_context c) as [x|]; [apply clean_app; [clean_marker|by inversion Hx]|clean_marker]. }
  apply Forall_app. split; [apply clean_cons; [clean_marker|done]|]. apply Forall_app.
  split; [apply clean_cons; [clean_marker|done]|]. destruct (is_end_of_file c); [apply Forall_singleton; clean_marker|constructor].
Qed.

Lemma print_hunk_clean (h : Hunk) : printable h → Forall clean (print_hunk h).
Proof.
  destruct h as [p c|p|p m cs]; cbn [printable print_hunk].
  - intros [[Hp _] [_ Hc]]. constructor; [apply clean_app; [clean_marker|done]|apply clean_cons; [clean_marker|done]].
  - intros [Hp _]. apply Forall_singleton, clean_app; [clean_marker|done].
  - intros ([Hp _] & Hm & _ & Hcs). constructor; [apply clean_app; [clean_marker|done]|]. apply Forall_app. split.
    + destruct m as [d|]; [apply Forall_singleton, clean_app; [clean_marker|by inversion Hm]|constructor].
    + induction Hcs; [constructor|]. apply Forall_app. split; [by apply print_chunk_clean|done].
Qed.

Lemma print_hunks_clean (hs : list Hunk) : Forall printable hs → Forall clean (concat (map print_hunk hs)).
Proof. induction 1; [constructor|]. apply Forall_app. split; [by apply print_hunk_clean|done]. Qed.

Lemma join_cons (w : bytes) (ls : list bytes) : ls ≠ [] → join [newline] (w :: ls) = w ++ newline :: join [newline] ls.
Proof. by destruct ls. Qed.

Lemma join_snoc (ls : list bytes) (w : bytes) : ls ≠ [] → join [newline] (ls ++ [w]) = join [newline] ls ++ newline :: w.
Proof.
  induction ls as [|v ls IH]; [done|]. intros _. destruct ls as [|u ls]; [done|].
  change ((v :: u :: ls) ++ [w]) with (v :: (u :: ls) ++ [w]). rewrite join_cons by done. rewrite IH by done.
  rewrite (join_cons v (u :: ls)) by done. by rewrite <-app_assoc.
Qed.

(** C39: The parser reads every printed patch back: hunks that add, delete, update or
    move files, with their contexts, removed and added lines and end markers, in order;
    and the normalised text is the patch itself. *)
Theorem printed_patch_parses (hs : list Hunk) :
  Forall printable hs → parse_patch (print_patch hs) = Ok (mkPatch hs (print_patch hs)).
Proof.
  intros Hhs. pose proof (print_hunks_clean hs Hhs) as Hc. set (body := concat (map print_hunk hs)) in *.
  assert (trim (print_patch hs) = print_patch hs) as Ht.
  { assert (∃ mid, print_patch hs = "*"%char :: mid ++ ["h"%char]) as [mid ->]; [|by apply trim_plain_ends].
    unfold print_patch, unlines. fold body. rewrite app_comm_cons, join_snoc by done.
    assert (∃ r, join [newline] (BEGIN_PATCH_MARKER :: body) = "*"%char :: r) as [r ->]
      by (destruct body; [by eexists|rewrite join_cons by done; by eexists]).
    exists (r ++ newline :: $"*** End Patc"). by rewrite <-app_assoc. }
  assert (lines (print_patch hs) = (BEGIN_PATCH_MARKER :: body) ++ [END_PATCH_MARKER]) as El.
  { unfold print_patch, unlines. fold body. rewrite app_comm_cons.
    apply lines_join; [constructor; [clean_marker|done]|apply (bool_decide_unpack (newline ∉ _)); by vm_compute|done]. }
  unfold parse_patch, parse_patch_text. rewrite Ht, El.
  assert (check_patch_boundaries_strict ((BEGIN_PATCH_MARKER :: body) ++ [END_PATCH_MARKER]) = Ok tt) as ->.
  { unfold check_patch_boundaries_strict. rewrite last_snoc. by vm_compute. }
  change (drop 1 ((BEGIN_PATCH_MARKER :: body) ++ [END_PATCH_MARKER])) with (body ++ [END_PATCH_MARKER]).
  cbv zeta. rewrite removelast_last. unfold body at 1 2. by rewrite parse_hunks_print.
Qed.

Definition ex_hunks : list Hunk :=
  [UpdateFile $"src/a" (Some $"src/b") [mkChunk (Some $"fn") [$"x"] [$"y"; []] true]; AddFile $"c" ($"+" ++ [newline]); DeleteFile $"d"].

Lemma printed_patch_parses_witness : Forall printable ex_hunks ∧ parse_patch (print_patch ex_hunks) = Ok (mkPatch ex_hunks (print_patch ex_hunks)).
Proof.
  assert (Forall printable ex_hunks) as Hp by (apply (bool_decide_unpack (Forall printable ex_hunks)); by vm_compute).
  split; [exact Hp|by apply printed_patch_parses].
Defined.
