(* ===== verification/PatchLaws.v ===== *)
(** * What applying a patch does

    The search finds the first place of the strongest match; replacements in order
    rewrite exactly the lines they name; the tool changes all named files or none. *)

From S2P Require Import Prelude RustStr StrFind Paths TextLines PatchText PatchEngine PatchFormat.

#[local] Open Scope nat_scope.

(** ** The search *)

Lemma first_at_Some (p : nat → bool) (i n k : nat) :
  first_at p i n = Some k ↔ i <= k < i + n ∧ p k = true ∧ ∀ j, i <= j < k → p j = false.
Proof.
  revert i. induction n as [|n IH]; intros i; simpl; [split; [done|lia]|]. destruct (p i) eqn:E.
  - split; [intros [= <-]; split; [lia|]; split; [done|lia]|]. intros (H1 & H2 & H3).
    destruct (decide (i = k)) as [->|]; [done|]. rewrite H3 in E by lia. done.
  - rewrite IH. split; intros (H1 & H2 & H3).
    + split; [lia|]. split; [done|]. intros j Hj. destruct (decide (j = i)) as [->|]; [done|apply H3; lia].
    + split; [destruct (decide (i = k)) as [->|]; [congruence|lia]|]. split; [done|]. intros j Hj. apply H3. lia.
Qed.

Lemma first_at_None (p : nat → bool) (i n : nat) : first_at p i n = None ↔ ∀ j, i <= j < i + n → p j = false.
Proof.
  split.
  - intros E j Hj. destruct (p j) eqn:Ej; [|done]. exfalso. revert i Hj E. induction n as [|n IH]; intros i Hj; simpl; [lia|].
    destruct (p i) eqn:Ei; [done|]. apply IH. destruct (decide (i = j)) as [->|]; [congruence|lia].
  - intros H. destruct (first_at p i n) as [k|] eqn:E; [|done]. apply first_at_Some in E as (H1 & H2 & _). rewrite H in H2; [done|lia].
Qed.

(** The first place, from [from] on, of the strongest way in which the pattern stands
    anywhere there. *)
Definition strongest_match (ls pattern : list bytes) (from k : nat) : Prop :=
  from <= k ∧ k + length pattern <= length ls ∧
  ∃ n f, strengths !! n = Some f ∧ stands_at f ls pattern k = true
    ∧ (∀ j, from <= j < k → stands_at f ls pattern j = false)
    ∧ ∀ m g j, m < n → strengths !! m = Some g → from <= j → j + length pattern <= length ls → stands_at g ls pattern j = false.

Lemma first_strength_Some (fs : list (bytes → bytes)) (ls pattern : list bytes) (from k : nat) :
  length pattern <= length ls →
  first_strength fs ls pattern from = Some k ↔
  from <= k ∧ k + length pattern <= length ls ∧
  ∃ n f, fs !! n = Some f ∧ stands_at f ls pattern k = true
    ∧ (∀ j, from <= j < k → stands_at f ls pattern j = false)
    ∧ ∀ m g j, m < n → fs !! m = Some g → from <= j → j + length pattern <= length ls → stands_at g ls pattern j = false.
Proof.
  intros Hl. induction fs as [|f fs IH]; simpl; [split; [done|by intros (_ & _ & n & f & ? & _)]|].
  set (n := length ls - length pattern + 1 - from). destruct (first_at (stands_at f ls pattern) from n) as [k'|] eqn:E.
  - apply first_at_Some in E as (H1 & H2 & H3). split.
    + intros [= <-]. split; [lia|]. split; [unfold n in *; lia|]. exists 0, f. split_and!; try done. intros m g j Hm. lia.
    + intros (Hk & Hkl & m & g & Eg & Hg & Hfirst & Hbefore). f_equal. destruct m as [|m].
      * injection Eg as <-. destruct (decide (k' < k)); [rewrite Hfirst in H2 by lia; done|].
        destruct (decide (k < k')); [rewrite H3 in Hg by lia; done|lia].
      * rewrite (Hbefore 0 f k') in H2; [done|lia|done|lia|unfold n in *; lia].
  - rewrite first_at_None in E. rewrite IH. split.
    + intros (Hk & Hkl & m & g & Eg & Hg & Hfirst & Hbefore). split; [done|]. split; [done|]. exists (S m), g. split_and!; try done.
      intros [|m'] g' j Hm Eg' Hj Hjl; [injection Eg' as <-; apply E; unfold n; lia|by apply (Hbefore m' g'); [lia|..]].
    + intros (Hk & Hkl & [|m] & g & Eg & Hg & Hfirst & Hbefore).
      * injection Eg as <-. rewrite E in Hg by (unfold n; lia). done.
      * split; [done|]. split; [done|]. exists m, g. split_and!; try done. intros m' g' j Hm Eg' Hj Hjl. by apply (Hbefore (S m') g'); [lia|..].
Qed.

(** Where a pattern is looked for. *)
Definition search_start (ls pattern : list bytes) (start : nat) (eof : bool) : nat :=
  if eof then length ls - length pattern else start.

Lemma seek_finds_range (ls pattern : list bytes) (start k : nat) (eof : bool) :
  pattern ≠ [] →
  seek_sequence ls pattern start eof = Some k ↔ strongest_match ls pattern (search_start ls pattern start eof) k.
Proof.
  intros Hp. unfold seek_sequence. destruct pattern as [|l pattern]; [done|]. set (pat := l :: pattern). unfold strongest_match.
  destruct (Nat.ltb_spec (length ls) (length pat)) as [Hl|Hl]; [split; [done|intros (_ & ? & _); lia]|].
  by apply first_strength_Some.
Qed.

(** The search for the lines of a chunk finds a place exactly when they stand
    somewhere in its range in one of four ways (as they are, without trailing white
    space, trimmed, with typographic punctuation taken as ASCII), and then the first
    place of the strictest way that occurs; at the end of a file the range is the last
    lines only. *)
Theorem seek_finds_strongest (ls pattern : list bytes) (start k : nat) (eof : bool) :
  pattern ≠ [] →
  seek_sequence ls pattern start eof = Some k ↔ strongest_match ls pattern (search_start ls pattern start eof) k.
Proof. apply seek_finds_range. Qed.

Lemma seek_finds_strongest_witness :
  [$"b"] ≠ [] ∧ strongest_match [$" b"; $"b"] [$"b"] 0 1.
Proof. split; [done|]. apply (seek_finds_strongest [$" b"; $"b"] [$"b"] 0 1 false); [done|by vm_compute]. Defined.

(** What a found place means, for a pattern that may be empty. *)
Lemma seek_sound (ls pattern : list bytes) (start k : nat) (eof : bool) :
  seek_sequence ls pattern start eof = Some k → start <= length ls →
  k + length pattern <= length ls ∧ (eof = false → start <= k)
  ∧ ∃ f, f ∈ strengths ∧ map f (take (length pattern) (drop k ls)) = map f pattern.
Proof.
  unfold seek_sequence. destruct pattern as [|l pattern].
  - intros [= <-] Hs. simpl. split; [lia|]. split; [done|]. exists (fun l => l). split; [left|done].
  - set (pat := l :: pattern). destruct (Nat.ltb_spec (length ls) (length pat)) as [|Hl]; [done|]. intros E Hs.
    apply first_strength_Some in E as (Hk & Hkl & n & f & Ef & Hf & _); [|done]. split; [done|]. split; [by intros ->|].
    exists f. split; [by apply list_elem_of_lookup_2 in Ef|]. by apply bool_decide_eq_true in Hf.
Qed.

(** ** Replacing *)

Lemma remove_at_spec (i n : nat) (ls : list bytes) : i <= length ls → remove_at i n ls = take i ls ++ drop (i + n) ls.
Proof.
  revert ls. induction n as [|n IH]; intros ls Hi; simpl; [by rewrite Nat.add_0_r, take_drop|].
  assert (length (take i ls) = i) as Hl by (rewrite length_take; lia).
  rewrite IH by (rewrite length_app; lia). rewrite take_app_le, take_take, Nat.min_id by lia. f_equal.
  rewrite drop_app_ge by lia. rewrite Hl, drop_drop. f_equal. lia.
Qed.

Lemma insert_at_spec (i : nat) (new ls : list bytes) : i <= length ls → insert_at i new ls = Some (take i ls ++ new ++ drop i ls).
Proof.
  revert i ls. induction new as [|l new IH]; intros i ls Hi; simpl; [by rewrite take_drop|].
  destruct (Nat.ltb_spec (length ls) i); [lia|]. assert (length (take i ls) = i) as Hl by (rewrite length_take; lia).
  rewrite IH by (rewrite length_app; simpl; lia). f_equal.
  rewrite take_app_ge, Hl by lia. replace (S i - i) with 1 by lia. cbn [take]. rewrite take_0, <-app_assoc. f_equal. cbn [app]. f_equal. f_equal.
  rewrite drop_app_ge, Hl by lia. replace (S i - i) with 1 by lia. done.
Qed.

Lemma replace_at_spec (i n : nat) (new ls : list bytes) :
  i <= length ls → replace_at ls (i, n, new) = Some (take i ls ++ new ++ drop (i + n) ls).
Proof.
  intros Hi. unfold replace_at. assert (length (take i ls) = i) as Hl by (rewrite length_take; lia).
  rewrite remove_at_spec by done. rewrite insert_at_spec by (rewrite length_app; lia).
  rewrite take_app_le, take_take, Nat.min_id, drop_app_ge by lia. by rewrite Hl, Nat.sub_diag.
Qed.

(** Sorted replacements inside of the text never panic. *)
Lemma apply_sorted (ls : list bytes) (rs : list Replacement) :
  StronglySorted (fun x y => start_of x <= start_of y) rs → Forall (fun r => start_of r <= length ls) rs →
  ∃ ls', apply_replacements ls rs = Some ls' ∧ ∀ i, i <= length ls → Forall (fun r => i <= start_of r) rs → i <= length ls'.
Proof.
  induction 1 as [|[[i n] new] rs Hs IH Hr]; intros Hl; cbn [apply_replacements]; [by exists ls|].
  inversion Hl as [|? ? Hi Hls]; subst. destruct (IH Hls) as (ls' & E & Hlen). rewrite E. cbn [mbind option_bind].
  assert (i <= length ls') as Hi' by (apply Hlen; [done|exact Hr]).
  rewrite replace_at_spec by done. eexists. split; [done|]. intros j Hj Hjs. inversion Hjs as [|? ? Hji _]; subst.
  unfold start_of in *. simpl in *. rewrite !length_app, length_take. lia.
Qed.

Lemma apply_chain (pos : nat) (ls : list bytes) (rs : list Replacement) :
  chain pos (length ls) rs → apply_replacements ls rs = Some (take pos ls ++ rewritten pos ls rs).
Proof.
  revert pos. induction rs as [|[[i n] new] rs IH]; intros pos; cbn [apply_replacements chain rewritten]; [by rewrite take_drop|]. intros [Hp Hc].
  rewrite (IH _ Hc). cbn [mbind option_bind]. destruct (chain_le _ _ _ Hc) as [Hl _].
  assert (length (take (i + n) ls) = i + n) as Hlt by (rewrite length_take; lia).
  rewrite replace_at_spec by (rewrite length_app; lia). f_equal.
  rewrite take_app_le, take_take, Nat.min_l by lia. rewrite drop_app_ge, Hlt, Nat.sub_diag, drop_0 by lia.
  assert (take i ls = take pos ls ++ take (i - pos) (drop pos ls)) as ->
    by (rewrite take_take_drop; f_equal; lia).
  by rewrite <-!app_assoc.
Qed.

(** ** Placing chunks *)

(** Chunks that name the lines they replace, none of them at the end of the file. *)
Definition in_order (c : UpdateFileChunk) : Prop := old_lines c ≠ [] ∧ is_end_of_file c = false.

(** Where lines that replace none go: behind the last line, before a blank one. *)
Definition end_of (ls : list bytes) : nat := if ends_blank ls then length ls - 1 else length ls.

(** The lines a chunk removes and puts there, or both without a blank last line. *)
Definition sides (c : UpdateFileChunk) (old new : list bytes) : Prop :=
  (old, new) = (old_lines c, new_lines c)
  ∨ ends_blank (old_lines c) = true ∧ old = removelast (old_lines c)
    ∧ new = (if ends_blank (new_lines c) then removelast (new_lines c) else new_lines c).

(** The lines [old] stand at [i] in one of the four ways. *)
Definition stand (ls old : list bytes) (i : nat) : Prop :=
  i + length old <= length ls ∧ ∃ f, f ∈ strengths ∧ map f (take (length old) (drop i ls)) = map f old.

(** What a replacement does for its chunk: added lines alone go to the end; otherwise
    the removed lines are the chunk's, the last ones of the file for a chunk tied to
    its end, and its new lines take their place.  Its context stands in the file, and
    before the stretch unless the chunk belongs to the end. *)
Definition explains (ls : list bytes) (c : UpdateFileChunk) (r : Replacement) : Prop :=
  let '(i, n, new) := r in
  (if bool_decide (old_lines c = []) then (i, n, new) = (end_of ls, 0, new_lines c)
   else ∃ old, sides c old new ∧ n = length old ∧ stand ls old i ∧ (is_end_of_file c = true → i + n = length ls ∨ old = []))
  ∧ ∀ x, change_context c = Some x → ∃ j, stand ls [x] j ∧ (in_order c → j < i).

Lemma seek_at_end (ls pattern : list bytes) (start k : nat) :
  seek_sequence ls pattern start true = Some k → k + length pattern = length ls ∨ pattern = [].
Proof.
  destruct pattern as [|l pattern]; [by right|]. intros E. left. set (pat := l :: pattern) in *.
  apply seek_finds_range in E; [|done]. unfold strongest_match, search_start in E. lia.
Qed.

Lemma place_chunk_ok (ls : list bytes) (path : bytes) (c : UpdateFileChunk) (pos pos' : nat) (r : Replacement) :
  place_chunk ls path c pos = Ok (r, pos') → pos <= length ls →
  pos' <= length ls ∧ start_of r <= length ls ∧ explains ls c r
  ∧ (in_order c → pos <= start_of r ∧ pos' = start_of r + r.1.2).
Proof.
  unfold place_chunk. intros E Hpos.
  destruct (match change_context c with
            | Some ctx => match seek_sequence ls [ctx] pos false with Some i => Ok (i + 1) | None => Err (context_error ctx path) end
            | None => Ok pos end) as [pos1|] eqn:Ec; [|done].
  assert (pos <= pos1 <= length ls ∧ ∀ x, change_context c = Some x → ∃ j, stand ls [x] j ∧ j < pos1) as [Hp1 Hctx].
  { destruct (change_context c) as [x|]; [|simplify_eq; split; [lia|done]].
    destruct (seek_sequence ls [x] pos false) as [j|] eqn:Ej; simplify_eq.
    destruct (seek_sound _ _ _ _ _ Ej Hpos) as (H1 & H2 & H3). specialize (H2 eq_refl). simpl in H1. split; [lia|].
    intros y [= <-]. exists j. split; [done|lia]. }
  unfold explains. destruct (old_lines c) as [|o old] eqn:Eo.
  { simplify_eq. unfold start_of. simpl. split; [lia|]. split; [destruct (ends_blank ls); lia|]. split; [split; [done|]|by intros [? _]].
    intros x Hx. destruct (Hctx x Hx) as (j & Hj & _). exists j. split; [done|]. by intros [? _]. }
  rewrite bool_decide_eq_false_2 by done. rewrite <-Eo in *. clear o old Eo.
  assert (∀ old new i, seek_sequence ls old pos1 (is_end_of_file c) = Some i → sides c old new →
    r = (i, length old, new) → pos' = i + length old →
    pos' <= length ls ∧ start_of r <= length ls
    ∧ (let '(i, n, new) := r in
       (∃ old, sides c old new ∧ n = length old ∧ stand ls old i ∧ (is_end_of_file c = true → i + n = length ls ∨ old = []))
       ∧ ∀ x, change_context c = Some x → ∃ j, stand ls [x] j ∧ (in_order c → j < i))
    ∧ (in_order c → pos <= start_of r ∧ pos' = start_of r + r.1.2)) as Hgo.
  { intros old new i Ei Hsides -> ->. destruct (seek_sound _ _ _ _ _ Ei (proj2 Hp1)) as (H1 & H2 & Hf). unfold start_of. simpl.
    split_and!; [lia|lia| | |].
    - exists old. split_and!; [done..|]. intros He. rewrite He in Ei. by apply seek_at_end in Ei.
    - intros x Hx. destruct (Hctx x Hx) as (j & Hj & Hlt). exists j. split; [done|]. intros [_ He]. specialize (H2 He). lia.
    - intros [_ He]. specialize (H2 He). lia. }
  destruct (seek_sequence ls (old_lines c) pos1 (is_end_of_file c)) as [i|] eqn:Ei; [simplify_eq; by apply (Hgo _ (new_lines c) i Ei); [left|..]|].
  destruct (ends_blank (old_lines c)) eqn:Eb; [|done].
  destruct (seek_sequence ls (removelast (old_lines c)) pos1 (is_end_of_file c)) as [i|] eqn:Er; [|done].
  simplify_eq. apply (Hgo (removelast (old_lines c)) (if ends_blank (new_lines c) then removelast (new_lines c) else new_lines c) i Er); [by right|done..].
Qed.

Lemma place_chunks_starts (ls : list bytes) (path : bytes) (cs : list UpdateFileChunk) (pos : nat) (rs : list Replacement) :
  place_chunks ls path cs pos = Ok rs → pos <= length ls → Forall (fun r => start_of r <= length ls) rs.
Proof.
  revert pos rs. induction cs as [|c cs IH]; intros pos rs; simpl; [intros [= <-]; constructor|].
  destruct (place_chunk ls path c pos) as [[r pos']|] eqn:Ec; [|done].
  destruct (place_chunks ls path cs pos') as [rs'|] eqn:Er; [|done]. intros [= <-] Hp.
  destruct (place_chunk_ok _ _ _ _ _ _ Ec Hp) as (H1 & H2 & _). constructor; [done|by eapply IH].
Qed.

Lemma place_chunks_explained (ls : list bytes) (path : bytes) (cs : list UpdateFileChunk) (pos : nat) (rs : list Replacement) :
  place_chunks ls path cs pos = Ok rs → pos <= length ls →
  Forall2 (explains ls) cs rs ∧ (Forall in_order cs → chain pos (length ls) rs).
Proof.
  revert pos rs. induction cs as [|c cs IH]; intros pos rs; simpl; [intros [= <-] Hp; by split|].
  destruct (place_chunk ls path c pos) as [[r pos']|] eqn:Ec; [|done].
  destruct (place_chunks ls path cs pos') as [rs'|] eqn:Er; [|done]. intros [= <-] Hp.
  destruct (place_chunk_ok _ _ _ _ _ _ Ec Hp) as (H1 & _ & Hex & H3). destruct (IH _ _ Er H1) as [Hall Hch].
  split; [by constructor|]. intros [Ho Hcs]%Forall_cons. destruct (H3 Ho) as (Hs & Hpos).
  destruct r as [[i n] new]. unfold start_of in *. simpl in *. subst pos'. split; [done|by apply Hch].
Qed.

(** The text [new] is [old] with its lines rewritten by the chunks: each has a stretch
    that it explains; stretches that do not overlap are replaced, all at once, and
    every other line is kept; and they do not overlap, and lie in the order of the
    chunks, when every chunk names lines it replaces and none belongs to the end. *)
Definition rewrites_chunks (cs : list UpdateFileChunk) (old new : bytes) : Prop :=
  let ls := original_lines old in
  ∃ rs, Forall2 (explains ls) cs rs
    ∧ (let sorted := sort_by_key start_of rs in
       chain 0 (length ls) sorted → new = join [newline] (final_newline (rewritten 0 ls sorted)))
    ∧ (Forall in_order cs →
       chain 0 (length ls) rs ∧ new = join [newline] (final_newline (rewritten 0 ls rs))).

Lemma derive_rewrites (content path new : bytes) (cs : list UpdateFileChunk) :
  derive_new_contents content path cs = Some (Ok new) → rewrites_chunks cs content new.
Proof.
  unfold derive_new_contents, compute_replacements. destruct (place_chunks _ path cs 0) as [rs|e] eqn:E; [|done].
  destruct (place_chunks_explained _ _ _ _ _ E) as [Hall Hch]; [lia|].
  destruct (apply_replacements _ _) as [ls|] eqn:Ea; [|done]. intros [= <-]. exists rs.
  assert (∀ rs', rs' = sort_by_key start_of rs → chain 0 (length (original_lines content)) rs' →
    join [newline] (final_newline ls) = join [newline] (final_newline (rewritten 0 (original_lines content) rs'))) as Hgo.
  { intros rs' -> Hc. unfold start_of in Hc. rewrite (apply_chain 0) in Ea by done. by injection Ea as <-. }
  split_and!; [done|by apply Hgo|]. intros Hcs%Hch. split; [done|]. apply Hgo; [|done].
  symmetry. apply sort_by_key_fixed. by eapply chain_sorted.
Qed.

(** A text that is empty or ends in a line feed. *)
Definition whole_lines (b : bytes) : Prop := b = [] ∨ last b = Some newline.

Lemma final_whole (ls : list bytes) : whole_lines (join [newline] (final_newline ls)).
Proof.
  unfold final_newline, ends_blank. case_bool_decide as Hl.
  - apply last_Some in Hl as [r ->]. destruct (decide (r = [])) as [->|Hr]; [by left|]. right. by rewrite join_blank, last_snoc.
  - destruct (decide (ls = [])) as [->|Hr]; [by left|]. right. by rewrite join_blank, last_snoc.
Qed.

(** C38: Deriving the new contents of a file never panics, whatever the text and the
    chunks: no insertion is past the end, also when replacements overlap.  What comes
    out, if anything does, is empty or ends in a line feed. *)
Theorem derive_total (content path : bytes) (cs : list UpdateFileChunk) :
  ∃ r, derive_new_contents content path cs = Some r ∧ ∀ b, r = Ok b → whole_lines b.
Proof.
  unfold derive_new_contents, compute_replacements. destruct (place_chunks (original_lines content) path cs 0) as [rs|e] eqn:E; [|by eexists].
  apply place_chunks_starts in E; [|lia].
  destruct (apply_sorted (original_lines content) (sort_by_key (fun r : Replacement => r.1.1) rs)) as (ls & -> & _); [apply sort_by_key_sorted| |].
  - rewrite Forall_forall in E |- *. intros r Hr. apply E. by apply sort_by_key_elem in Hr.
  - eexists. split; [done|]. intros b [= <-]. apply final_whole.
Qed.

(** C18: When new contents can be derived, there is a stretch of the old lines for every
    chunk: its removed lines, as they stand in the file in one of the four ways, to
    become its new lines; an empty one at the end of the file for a chunk that only
    adds lines, and the last lines for a chunk tied to the end.  The chunk's context
    stands in the file, before the stretch for the other chunks.  If no two stretches
    overlap, the new contents are the old lines with exactly these stretches replaced.
    They do not overlap, and lie in the order of the chunks, if every chunk names lines
    it replaces and none is tied to the end; with such chunks they can overlap
    ([end_chunk_overlaps]). *)
Theorem chunks_rewrite_their_lines (content path new : bytes) (cs : list UpdateFileChunk) :
  derive_new_contents content path cs = Some (Ok new) →
  let ls := original_lines content in
  ∃ rs, Forall2 (explains ls) cs rs
    ∧ (let sorted := sort_by_key start_of rs in
       chain 0 (length ls) sorted → new = join [newline] (final_newline (rewritten 0 ls sorted)))
    ∧ (Forall in_order cs →
       chain 0 (length ls) rs ∧ new = join [newline] (final_newline (rewritten 0 ls rs))).
Proof. apply derive_rewrites. Qed.

Lemma chunks_rewrite_their_lines_witness :
  ∃ rs, chain 0 3 rs ∧ text [$"a"; $"B"; $"c"] = join [newline] (final_newline (rewritten 0 [$"a"; $"b"; $"c"] rs)).
Proof.
  destruct (chunks_rewrite_their_lines (text [$"a"; $"b"; $"c"]) $"f" (text [$"a"; $"B"; $"c"]) [mkChunk (Some $"a") [$"b"] [$"B"] false]
    ltac:(by vm_compute)) as (rs & _ & _ & H). exists rs. apply H. by repeat constructor.
Defined.
