(* ===== verification/PatchClaims.v ===== *)
(** * Claims about the patch tool

    Which files a call changes, what a successful call leaves in them, and runs that
    show what the tool's description does not promise. *)

From S2P Require Import Prelude RustStr StrFind Paths TextLines PatchText PatchEngine PatchFormat PatchLaws.

#[local] Open Scope nat_scope.

(** The files a hunk names, under the working directory. *)
Definition named (cwd : bytes) (h : Hunk) : list bytes :=
  match h with
  | AddFile p _ | DeleteFile p | UpdateFile p None _ => [push cwd p]
  | UpdateFile p (Some d) _ => [push cwd p; push cwd d]
  end.

Definition touched (c : FileChange) : list bytes :=
  match c with Add p _ | Delete p _ | Update p _ _ => [p] | Move p d _ _ => [p; d] end.

(** What a change makes of the file [q], which holds [v]. *)
Definition effect_at (c : FileChange) (q : bytes) (v : option bytes) : option bytes :=
  match c with
  | Add p b | Update p _ b => if decide (q = p) then Some b else v
  | Delete p _ => if decide (q = p) then None else v
  | Move p d _ b => if decide (q = p) then None else if decide (q = d) then Some b else v
  end.

(** What the hunk says of a file it names: its contents [v] after the call, from the
    files [f] before it.  A file that is moved onto itself is gone. *)
Definition leaves (cwd : bytes) (f : Files) (h : Hunk) (q : bytes) (v : option bytes) : Prop :=
  match h with
  | AddFile p b => v = Some b
  | DeleteFile p => is_Some (f !! push cwd p) ∧ v = None
  | UpdateFile p m cs =>
      ∃ old new, f !! push cwd p = Some old ∧ rewrites_chunks cs (from_utf8_lossy old) new
        ∧ v = match m with
              | Some _ => if decide (q = push cwd p) then None else Some new
              | None => Some new
              end
  end.

(** The file of a hunk, and the file a change's result is about. *)
Definition subject (cwd : bytes) (h : Hunk) : bytes :=
  match h with AddFile p _ | DeleteFile p | UpdateFile p _ _ => push cwd p end.

Definition change_path (c : FileChange) : bytes :=
  match c with Add p _ | Delete p _ | Update p _ _ | Move p _ _ _ => p end.




Section Tool.
Context {disk : EditFs} {policy : MemoryPolicy}.

Lemma read_as_string_ok (p b : bytes) (f : Files) :
  read_file_as_string p f = Ok b → ∃ raw, f !! p = Some raw ∧ b = from_utf8_lossy raw.
Proof.
  unfold read_file_as_string, read_file. destruct (read_fault p); [done|]. destruct (f !! p) as [raw|]; [|done].
  intros [= <-]. by exists raw.
Qed.

Lemma compute_change_spec (cwd : bytes) (f : Files) (h : Hunk) (c : FileChange) :
  compute_change cwd f h = Some (Ok c) →
  match h with
  | AddFile p b => c = Add (push cwd p) b
  | DeleteFile p => ∃ raw, f !! push cwd p = Some raw ∧ c = Delete (push cwd p) (from_utf8_lossy raw)
  | UpdateFile p m cs => ∃ raw new, f !! push cwd p = Some raw
      ∧ derive_new_contents (from_utf8_lossy raw) (push cwd p) cs = Some (Ok new)
      ∧ c = match m with
            | Some d => Move (push cwd p) (push cwd d) (from_utf8_lossy raw) new
            | None => Update (push cwd p) (from_utf8_lossy raw) new
            end
  end.
Proof.
  destruct h as [p b|p|p m cs]; cbn [compute_change]; cbv zeta; [by intros [= <-]|..];
    (destruct (read_file_as_string (push cwd p) f) as [b|e] eqn:E; [|done]);
    apply read_as_string_ok in E as (raw & E & ->).
  - intros [= <-]. by exists raw.
  - destruct (derive_new_contents _ _ cs) as [[new|[msg]]|] eqn:Ed; [|done..]. intros [= <-]. by exists raw, new.
Qed.

Lemma compute_change_touched (cwd : bytes) (f : Files) (h : Hunk) (c : FileChange) :
  compute_change cwd f h = Some (Ok c) → touched c = named cwd h.
Proof.
  intros E%compute_change_spec. destruct h as [p b|p|p m cs]; [by subst|by destruct E as (raw & _ & ->)|].
  destruct E as (raw & new & _ & _ & ->). by destruct m.
Qed.

Lemma compute_all_spec (cwd : bytes) (f : Files) (hs : list Hunk) (cs : list FileChange) :
  compute_all_changes cwd f hs = Some (Ok cs) → Forall2 (fun h c => compute_change cwd f h = Some (Ok c)) hs cs.
Proof.
  revert cs. induction hs as [|h hs IH]; intros cs; cbn [compute_all_changes]; [by intros [= <-]|].
  destruct (compute_change cwd f h) as [[c|e]|] eqn:E; [|done..]. cbn [mbind option_bind].
  destruct (compute_all_changes cwd f hs) as [[cs'|e]|]; [|done..]. intros [= <-]. constructor; [done|by apply IH].
Qed.

Lemma all_touched (cwd : bytes) (f : Files) (hs : list Hunk) (cs : list FileChange) :
  Forall2 (fun h c => compute_change cwd f h = Some (Ok c)) hs cs → concat (map touched cs) = concat (map (named cwd) hs).
Proof. induction 1 as [|h c hs cs E _ IH]; simpl; [done|]. by rewrite (compute_change_touched _ _ _ _ E), IH. Qed.








(** A call that succeeds reports each change, in order. *)
Lemma apply_changes_results (cs : list FileChange) (rs fs : list ApplyPatchFileResult) (m : bytes) (s s' : ToolState) :
  apply_changes cs rs s = (Ok (Success fs m), s') → m = build_summary fs ∧ map result_path fs = map result_path rs ++ map change_path cs.
Proof.
  revert rs s. induction cs as [|c cs IH]; intros rs s; cbn [apply_changes map]; [intros [= <- <- _]; by rewrite app_nil_r|].
  destruct (apply_change c s) as [[r|e|e] s1] eqn:E; [|done..]. intros Hs. destruct (IH _ _ Hs) as [-> ->]. split; [done|].
  assert (result_path r = change_path c) as <- by
    (destruct c as [p b|p o|p o b|p d o b]; cbn [apply_change change_path] in *; unfold store in *;
     repeat case_match; simplify_eq; done).
  by rewrite map_app, <-app_assoc.
Qed.

(** The memory policy stores what it is given, and changes no other file but those it
    keeps itself: the manifest and the database of its directory. *)
Definition policy_stores (own : bytes → Prop) : Prop :=
  ∀ p b f f', write_memory p b f = Ok (Some f') → f' !! p = Some b ∧ ∀ q, q ≠ p → ¬ own q → f' !! q = f !! q.

Lemma store_at (own : bytes → Prop) (create : bool) (p b q : bytes) (s s' : ToolState) :
  policy_stores own → ¬ own q → store create p b s = (None, s') → files s' !! q = if decide (q = p) then Some b else files s !! q.
Proof.
  intros Hp Hq. unfold store. destruct (write_memory p b (files s)) as [[f|]|e] eqn:E; [| |done].
  - intros [= <-]. destruct (Hp _ _ _ _ E) as [H1 H2]. destruct (decide (q = p)) as [->|]; [done|by apply H2].
  - destruct (if create then ensure_parent_dirs p else Ok tt); [|done]. unfold write_file. destruct (write_fault p); [done|].
    intros [= <-]. simpl. destruct (decide (q = p)) as [->|]; [by rewrite lookup_insert_eq|by rewrite lookup_insert_ne].
Qed.

(** A change that is done has its effect. *)
Lemma apply_change_at (own : bytes → Prop) (c : FileChange) (r : ApplyPatchFileResult) (q : bytes) (s s' : ToolState) :
  policy_stores own → ¬ own q → apply_change c s = (Done r, s') → files s' !! q = effect_at c q (files s !! q).
Proof.
  intros Hp Hq. destruct c as [p b|p o|p o b|p d o b]; cbn [apply_change effect_at].
  - destruct (store true p b s) as [[?|] s1] eqn:E; [intros [= ->]; unfold store in E; by repeat case_match|]. intros [= _ <-].
    by apply (store_at own true p b q s s1).
  - unfold delete_file. destruct (delete_fault p); [done|]. destruct (files s !! p); [|done]. intros [= _ <-]. simpl.
    destruct (decide (q = p)) as [->|]; [by rewrite lookup_delete_eq|by rewrite lookup_delete_ne].
  - destruct (store false p b s) as [[?|] s1] eqn:E; [intros [= ->]; unfold store in E; by repeat case_match|]. intros [= _ <-].
    by apply (store_at own false p b q s s1).
  - unfold ensure_parent_dirs, write_file, delete_file. destruct (dirs_fault d); [done|]. destruct (write_fault d); [done|].
    destruct (delete_fault p); [done|]. destruct (<[d:=b]> (files s) !! p); [|done]. intros [= _ <-]. simpl.
    destruct (decide (q = p)) as [->|Hqp]; [by rewrite lookup_delete_eq|]. rewrite lookup_delete_ne by done.
    destruct (decide (q = d)) as [->|]; [by rewrite lookup_insert_eq|by rewrite lookup_insert_ne].
Qed.

Lemma apply_changes_at (own : bytes → Prop) (cs : list FileChange) (rs fs : list ApplyPatchFileResult) (m q : bytes) (s s' : ToolState) :
  policy_stores own → ¬ own q → apply_changes cs rs s = (Ok (Success fs m), s') →
  files s' !! q = fold_left (fun v c => effect_at c q v) cs (files s !! q).
Proof.
  intros Hp Hq. revert rs s. induction cs as [|c cs IH]; intros rs s; cbn [apply_changes fold_left]; [by intros [= _ _ <-]|].
  destruct (apply_change c s) as [[r|e|e] s1] eqn:E; [|done..]. intros Hs.
  rewrite (IH _ _ Hs). by rewrite (apply_change_at own _ _ _ _ _ Hp Hq E).
Qed.

(** Changes of other files do not matter. *)
Lemma effects_frame (cs : list FileChange) (q : bytes) (v : option bytes) :
  q ∉ concat (map touched cs) → fold_left (fun v c => effect_at c q v) cs v = v.
Proof.
  induction cs as [|c cs IH]; intros Hq; [done|]. cbn [map concat fold_left] in *.
  assert (effect_at c q v = v) as ->; [|apply IH; set_solver].
  destruct c; cbn [effect_at touched] in *; repeat case_decide; set_solver.
Qed.

(** The last hunk that names a file decides. *)
Lemma last_hunk_decides (cwd : bytes) (f : Files) (v : option bytes) (hs : list Hunk) (cs : list FileChange)
    (before after : list Hunk) (h : Hunk) (q : bytes) :
  Forall2 (fun h c => compute_change cwd f h = Some (Ok c)) hs cs → hs = before ++ h :: after →
  q ∈ named cwd h → q ∉ concat (map (named cwd) after) →
  leaves cwd f h q (fold_left (fun v c => effect_at c q v) cs v).
Proof.
  intros Hall -> Hq Hafter. apply Forall2_app_inv_l in Hall as (cs1 & cs2 & _ & Hall & ->).
  inversion Hall as [|? c ? cs3 E Hrest]; subst. rewrite fold_left_app. cbn [fold_left].
  rewrite effects_frame by (by rewrite (all_touched cwd f after cs3)). generalize (fold_left (fun v c => effect_at c q v) cs1 v). intros u.
  apply compute_change_spec in E. destruct h as [p b|p|p m ks]; cbn [named leaves] in *.
  - subst c. apply list_elem_of_singleton in Hq as ->. simpl. by rewrite decide_True.
  - destruct E as (raw & E & ->). apply list_elem_of_singleton in Hq as ->. split; [by eexists|]. simpl. by rewrite decide_True.
  - destruct E as (raw & new & E & Ed & ->). exists raw, new. split_and!; [done|by eapply derive_rewrites|].
    destruct m as [d|]; cbn [effect_at named] in *; [|apply list_elem_of_singleton in Hq as ->; by rewrite decide_True].
    destruct (decide (q = push cwd p)); [done|]. rewrite decide_True; [done|]. set_solver.
Qed.

Lemma hunk_subjects (cwd : bytes) (f : Files) (hs : list Hunk) (cs : list FileChange) :
  Forall2 (fun h c => compute_change cwd f h = Some (Ok c)) hs cs → map change_path cs = map (subject cwd) hs.
Proof.
  induction 1 as [|h c hs cs E _ IH]; cbn [map]; [done|]. rewrite IH. f_equal. apply compute_change_spec in E.
  destruct h as [p b|p|p m ks]; cbn [subject]; [by subst|by destruct E as (raw & _ & ->)|].
  destruct E as (raw & new & _ & _ & ->). by destruct m.
Qed.


(** The files a patch names. *)
Definition named_by (cwd input : bytes) : list bytes :=
  match parse_patch input with Ok parsed => concat (map (named cwd) (hunks parsed)) | Err _ => [] end.


(** C16: A call that succeeds has done exactly what the patch says.  Every file the patch
    names holds afterwards what the last hunk that names it says: the contents of an
    added file; nothing where a file is deleted, which was there before the call, or was
    moved away; and for an updated file, under its new name when it is moved, the text
    it had before the call with its lines rewritten by the hunk's chunks (earlier hunks
    of the same file are lost, and a file moved onto itself is gone:
    [first_update_lost], [moved_onto_itself]).  Every other file is as before, but for
    the files the memory policy keeps itself; and the answer lists the hunks' files in
    order. *)
Theorem patch_success_exact (own : bytes → Prop) (cwd input : bytes) (parsed : ParsedPatch) (s s' : ToolState)
    (rs : list ApplyPatchFileResult) (m : bytes) :
  policy_stores own → parse_patch input = Ok parsed → run cwd input s = Some (Ok (Success rs m), s') →
  (∀ before h after q, hunks parsed = before ++ h :: after → q ∈ named cwd h → q ∉ concat (map (named cwd) after) → ¬ own q →
     leaves cwd (files s) h q (files s' !! q))
  ∧ (∀ q, q ∉ named_by cwd input → ¬ own q → files s' !! q = files s !! q)
  ∧ map result_path rs = map (subject cwd) (hunks parsed) ∧ m = build_summary rs.
Proof.
  intros Hm Eparse. unfold run, named_by. rewrite Eparse.
  destruct (hunks parsed) as [|h hs] eqn:Eh; [done|]. rewrite <-Eh in *.
  destruct (compute_all_changes cwd (files s) (hunks parsed)) as [[cs|e]|] eqn:Ec; cbn [mbind option_bind]; [|done..].
  destruct (preflight_changes cs); [|done]. intros [= Ea].
  apply compute_all_spec in Ec. destruct (apply_changes_results _ _ _ _ _ _ Ea) as [-> Hr]. split_and!.
  - intros before h' after q E Hq Hafter Ho. rewrite (apply_changes_at own _ _ _ _ q _ _ Hm Ho Ea).
    by apply (last_hunk_decides cwd (files s) _ (hunks parsed) cs before after).
  - intros q Hq Ho. rewrite (apply_changes_at own _ _ _ _ q _ _ Hm Ho Ea). apply effects_frame.
    by rewrite (all_touched cwd (files s) (hunks parsed) cs).
  - by rewrite Hr, (hunk_subjects cwd (files s) (hunks parsed) cs).
  - done.
Qed.

End Tool.

(** ** Runs *)

Definition sound_disk : EditFs :=
  {| read_fault _ := None; not_found _ := $"no such file"; write_fault _ := None; delete_fault _ := None; dirs_fault _ := None |}.

Definition no_memory : MemoryPolicy :=
  {| preflight_write _ _ := Ok false; validate_read _ := Ok false; write_memory _ _ _ := Ok None |}.

(** A run at [/w] on files given by their lines. *)
Definition call (input : list bytes) (fs : list (bytes * bytes)) : option (result ApplyPatchOutput bytes * ToolState) :=
  run (disk := sound_disk) (policy := no_memory) $"/w" (unlines input) (mkToolState (list_to_map fs) []).

Definition after (input : list bytes) (fs : list (bytes * bytes)) (p : bytes) : option bytes :=
  match call input fs with Some (_, s) => files s !! p | None => None end.

Definition example_patch : list bytes :=
  [$"*** Begin Patch"; $"*** Add File: new"; $"+hello"; $"*** Update File: a"; $"*** Move to: b"; $"@@"; $" one"; $"-two"; $"+TWO";
   $"*** Delete File: old"; $"*** End Patch"].

Definition example_files : list (bytes * bytes) :=
  [($"/w/a", text [$"one"; $"two"; $"three"]); ($"/w/old", $"x"); ($"/w/other", $"y")].

Definition example_hunks : list Hunk :=
  [AddFile $"new" (text [$"hello"]);
   UpdateFile $"a" (Some $"b") [mkChunk None [$"one"; $"two"] [$"one"; $"TWO"] false];
   DeleteFile $"old"].


Lemma patch_success_exact_witness :
  after example_patch example_files $"/w/b" = Some (text [$"one"; $"TWO"; $"three"])
  ∧ ∃ s', (∃ r, call example_patch example_files = Some (r, s')) ∧ files s' !! $"/w/a" = None ∧ files s' !! $"/w/new" = Some (text [$"hello"])
    ∧ files s' !! $"/w/other" = Some $"y".
Proof.
  split; [by vm_compute|].
  destruct (call example_patch example_files) as [[[[rs m|msg|msg|msg]|e] s']|] eqn:E; [|by vm_compute in E..].
  exists s'. split; [by eexists|].
  assert (parse_patch (unlines example_patch) = Ok (mkPatch example_hunks (unlines example_patch))) as Ep by by vm_compute.
  destruct (patch_success_exact (disk := sound_disk) (policy := no_memory) (fun _ => False) $"/w" (unlines example_patch) _
    (mkToolState (list_to_map example_files) []) s' rs m ltac:(by intros ????) Ep E) as (Hd & Hk & _). clear E Ep. split_and!.
  - destruct (Hd [AddFile $"new" (text [$"hello"])] _ [DeleteFile $"old"] ($"/w/a") eq_refl) as (old & new & _ & _ & ->); [| |by intros []|].
    + apply (bool_decide_unpack ($"/w/a" ∈ _)). by vm_compute.
    + apply (bool_decide_unpack (¬ ($"/w/a" ∈ _))). by vm_compute.
    + rewrite decide_True; [done|by vm_compute].
  - apply (Hd [] (AddFile $"new" (text [$"hello"])) (drop 1 example_hunks) ($"/w/new") eq_refl); [| |by intros []].
    + apply (bool_decide_unpack ($"/w/new" ∈ _)). by vm_compute.
    + apply (bool_decide_unpack (¬ ($"/w/new" ∈ _))). by vm_compute.
  - rewrite Hk; [by vm_compute| |by intros []]. apply (bool_decide_unpack (¬ ($"/w/other" ∈ named_by $"/w" (unlines example_patch)))). by vm_compute.
Defined.

Definition update (hunk_lines : list bytes) : list bytes :=
  [$"*** Begin Patch"; $"*** Update File: f"] ++ hunk_lines ++ [$"*** End Patch"].

Definition message_of (r : option (result ApplyPatchOutput bytes * ToolState)) : option bytes :=
  match r with Some (Ok (PatchParseError m | ApplicationError m | EmptyPatch m), _) => Some m | _ => None end.

(** The description's way to reach a method of a class, two [@@] lines, does not parse. *)
Example stacked_contexts_rejected :
  message_of (call (update [$"@@ class A"; $"@@  def m():"; $"-x"; $"+y"]) [($"/w/f", text [$"class A"; $" def m():"; $"x"])])
  = Some ($"Invalid patch hunk on line 4: Unexpected line found in update hunk: '@@  def m():'. Every line should start with ' ' (context line), '+' (added line), or '-' (removed line)").
Proof. by vm_compute. Qed.

(** A sequence tied to the end of the file is not looked for from [start] when the end
    does not match. *)
Example end_only : seek_sequence [$"a"; $"b"] [$"a"] 0 true = None ∧ seek_sequence [$"a"; $"b"] [$"a"] 0 false = Some 0.
Proof. by vm_compute. Qed.

(** Of two updates of one file only the second remains. *)
Example first_update_lost :
  after ([$"*** Begin Patch"; $"*** Update File: f"; $"@@"; $"-a"; $"+A"; $"*** Update File: f"; $"@@"; $"-b"; $"+B"; $"*** End Patch"])
    [($"/w/f", text [$"a"; $"b"])] $"/w/f" = Some (text [$"a"; $"B"]).
Proof. by vm_compute. Qed.

(** A file renamed to its own name is deleted. *)
Example moved_onto_itself :
  after (update [$"*** Move to: f"; $"@@"; $"-a"; $"+A"]) [($"/w/f", text [$"a"])] $"/w/f" = None.
Proof. by vm_compute. Qed.

(** An added file that was there is told of as new, without what it held. *)
Example overwritten_as_new :
  match call [$"*** Begin Patch"; $"*** Add File: f"; $"+new"; $"*** End Patch"] [($"/w/f", $"precious")] with
  | Some (_, s) => map (fun n => (previous_content n, is_new_file n)) (notified s) = [(None, true)] | None => False end.
Proof. by vm_compute. Qed.

(** A chunk tied to the end of the file may lie on the lines of an earlier chunk: the call
    succeeds, and its new lines are lost. *)
Example end_chunk_overlaps :
  after (update [$"@@"; $"-a"; $"-b"; $"+1"; $"@@"; $"-b"; $"+2"; $"*** End of File"]) [($"/w/f", text [$"a"; $"b"])] $"/w/f" = Some (text [$"1"]).
Proof. by vm_compute. Qed.

(** Added lines alone go to the end of the file, not behind their context. *)
Example addition_ignores_context :
  after (update [$"@@ top"; $"+x"]) [($"/w/f", text [$"top"; $"mid"; $"end"])] $"/w/f" = Some (text [$"top"; $"mid"; $"end"; $"x"]).
Proof. by vm_compute. Qed.

(** A byte that is not UTF-8, far from the change, is rewritten. *)
Example foreign_bytes_rewritten :
  after (update [$"@@"; $"-a"; $"+A"]) [($"/w/f", text [$"a"; ["255"%char]])] $"/w/f" = Some (text [$"A"; REPLACEMENT]).
Proof. by vm_compute. Qed.
