(* ===== verification/Anchors.v ===== *)
(** * Line anchors

    [codegen/xai-grok-tools]: the hashes of lines ([util/hash.rs]) and the anchor
    schemes built on them ([implementations/grok_build_hashline/scheme.rs],
    [anchor.rs]).  A line is named by its number, a hash of its own text and, in two of
    the three schemes, a fingerprint of the lines around it.  A scheme is a record of
    operations, as the trait object the tools hold. *)

From S2P Require Import Prelude RustStr StrFind.

#[local] Open Scope nat_scope.

(** ** Hashes: [util/hash.rs] *)

Definition FNV_OFFSET : N := 2166136261.
Definition FNV_PRIME : N := 16777619.

(** [h ^= x; h = h.wrapping_mul(FNV_PRIME)] on 32 bits. *)
Definition mix (h x : N) : N := (N.lxor h x * FNV_PRIME mod 2 ^ 32)%N.

Definition byte_value (a : ascii) : N := N.of_nat (code a).

Definition fnv1a_32 (data : bytes) : N := fold_left (fun h a => mix h (byte_value a)) data FNV_OFFSET.

(** One byte of [line_hash]; the flag says that the byte before was white space. *)
Definition hash_byte (st : N * bool) (a : ascii) : N * bool :=
  let '(h, prev_ws) := st in
  if is_ascii_whitespace a then (if prev_ws then (h, true) else (mix h 32, true))
  else (mix h (byte_value a), false).

Definition line_hash (line : bytes) : N := (fold_left hash_byte (trim line) (FNV_OFFSET, false)).1.

Definition letter (n : N) : ascii := ascii_of_nat (N.to_nat (n + 97)).

(** [encode_hash]; its assertion on [len] holds of every scheme ([build_scheme]). *)
Definition encode_hash (h : N) (len : nat) : bytes :=
  map (fun i => letter (N.shiftr h (8 * N.of_nat i) mod 26)) (seq 0 len).

Definition DEFAULT_HASH_LEN : nat := 3.

(** ** Anchors: [scheme.rs] *)

(** A rendered anchor, and one parsed from what the model writes: the line counts from
    one. *)
Record Anchor := mkAnchor { line : nat; local : bytes; context : option bytes }.
Record ParsedAnchor := mkParsed { p_line : nat; p_local : bytes; p_context : option bytes }.

#[export] Instance Anchor_eq_dec : EqDecision Anchor.
Proof. solve_decision. Defined.
#[export] Instance ParsedAnchor_eq_dec : EqDecision ParsedAnchor.
Proof. solve_decision. Defined.

Definition show_nat (n : nat) : bytes := show_decimal (N.of_nat n).

(** [Anchor::render], [ParsedAnchor::render]. *)
Definition render_parts (n : nat) (loc : bytes) (ctx : option bytes) : bytes :=
  match ctx with
  | Some c => show_nat n ++ $":" ++ loc ++ $":" ++ c
  | None => show_nat n ++ $":" ++ loc
  end.
Definition render (a : Anchor) : bytes := render_parts (line a) (local a) (context a).
Definition parsed_render (p : ParsedAnchor) : bytes := render_parts (p_line p) (p_local p) (p_context p).

Definition all_lower (s : bytes) : bool := forallb is_ascii_lower s.

(** [line_str.parse::<usize>()]: an optional plus sign and digits, below 2^64. *)
Definition parse_usize (s : bytes) : option nat := N.to_nat <$> parse_unsigned (2 ^ 64) s.

(** The parts of [s.splitn(3, ':')]. *)
Definition anchor_parts (s : bytes) : option (bytes * bytes * option bytes) :=
  '(line_str, rest) ← split_once ":"%char s;
  Some match split_once ":"%char rest with
       | Some (loc, ctx) => (line_str, loc, Some ctx)
       | None => (line_str, rest, None)
       end.

(** [ParsedAnchor::parse] *)
Definition parse_anchor (s : bytes) : option ParsedAnchor :=
  '(line_str, loc, ctx) ← anchor_parts s;
  match line_str, loc with
  | [], _ | _, [] => None
  | _, _ =>
      n ← parse_usize line_str;
      if n =? 0 then None
      else if negb (all_lower loc) then None
      else match ctx with
           | Some c => match c with [] => None | _ => if all_lower c then Some (mkParsed n loc (Some c)) else None end
           | None => Some (mkParsed n loc None)
           end
  end.

Inductive ValidationResult := Valid | Stale | OutOfRange.

#[export] Instance ValidationResult_eq_dec : EqDecision ValidationResult.
Proof. solve_decision. Defined.

Inductive ShiftResult :=
| Found (new_line : nat)
| Ambiguous (candidates : list nat)
| NotFound.

#[export] Instance ShiftResult_eq_dec : EqDecision ShiftResult.
Proof. solve_decision. Defined.

Definition DEFAULT_SEARCH_RADIUS : nat := 15.

(** [dyn AnchorScheme] *)
Record AnchorScheme := mkScheme {
  scheme_name : bytes;
  hash_len : nat;
  generate_anchors : list bytes → list Anchor;
  validate : ParsedAnchor → list bytes → ValidationResult;
  validation_window_lines : nat → nat → nat;
  find_shifted : ParsedAnchor → list bytes → nat → ShiftResult;
}.

(** ** The search for a shifted anchor *)

(** The line at [idx] is a candidate. *)
Definition is_candidate (len : nat) (valid : ParsedAnchor → list bytes → ValidationResult) (p : ParsedAnchor)
    (ls : list bytes) (idx : nat) : bool :=
  if idx =? p_line p - 1 then false
  else
    match ls !! idx with
    | None => false
    | Some l =>
        let loc := encode_hash (line_hash l) len in
        if negb (loc =b p_local p) then false
        else
          match p_context p with
          | Some c => bool_decide (valid (mkParsed (idx + 1) loc (Some c)) ls = Valid)
          | None => true
          end
    end.

(** [find_shifted_generic], from the scheme's hash length and validation. *)
Definition find_shifted_generic (len : nat) (valid : ParsedAnchor → list bytes → ValidationResult)
    (p : ParsedAnchor) (ls : list bytes) (search_radius : nat) : ShiftResult :=
  let orig_idx := p_line p - 1 in
  let start := orig_idx - search_radius in
  let end_ := Nat.min (orig_idx + search_radius + 1) (length ls) in
  match map S (List.filter (is_candidate len valid p ls) (seq start (end_ - start))) with
  | [] => NotFound
  | [n] => Found n
  | ns => Ambiguous ns
  end.

(** The line an anchor names. *)
Definition named_line (p : ParsedAnchor) (ls : list bytes) : option bytes :=
  match p_line p with 0 => None | S i => ls !! i end.

(** ** Content only *)

Definition content_generate (len : nat) (ls : list bytes) : list Anchor :=
  imap (fun i l => mkAnchor (i + 1) (encode_hash (line_hash l) len) None) ls.

Definition content_validate (len : nat) (p : ParsedAnchor) (ls : list bytes) : ValidationResult :=
  match named_line p ls with
  | None => OutOfRange
  | Some l => if p_local p =b encode_hash (line_hash l) len then Valid else Stale
  end.

Definition content_only (len : nat) : AnchorScheme := {|
  scheme_name := $"content_only_v1";
  hash_len := len;
  generate_anchors := content_generate len;
  validate := content_validate len;
  validation_window_lines _ _ := 1;
  find_shifted := find_shifted_generic len (content_validate len);
|}.

(** ** Chunk fingerprints *)

Definition DEFAULT_CHUNK_SIZE : nat := 16.

(** The hash of the lines from [start] on, at most [n] of them. *)
Definition chunk_hash (start n : nat) (ls : list bytes) : N :=
  fold_left mix (map line_hash (take n (drop start ls))) (fnv1a_32 $"chunk").

Definition chunk_fingerprint (len size : nat) (ls : list bytes) (idx : nat) : bytes :=
  let chunk_start := idx / size * size in
  let chunk_end := Nat.min (chunk_start + size) (length ls) in
  encode_hash (chunk_hash chunk_start (chunk_end - chunk_start) ls) len.

(** [usize::div_ceil] *)
Definition div_ceil (n d : nat) : nat := if n mod d =? 0 then n / d else n / d + 1.

(** The fingerprints of all chunks. *)
Definition chunk_fps (len size : nat) (ls : list bytes) : list bytes :=
  map (fun c => encode_hash (chunk_hash (c * size) (Nat.min (c * size + size) (length ls) - c * size) ls) len)
    (seq 0 (div_ceil (length ls) size)).

Definition chunk_generate (len size : nat) (ls : list bytes) : list Anchor :=
  let fps := chunk_fps len size ls in
  imap (fun i l => mkAnchor (i + 1) (encode_hash (line_hash l) len) (fps !! (i / size))) ls.

Definition chunk_validate (len size : nat) (p : ParsedAnchor) (ls : list bytes) : ValidationResult :=
  match named_line p ls with
  | None => OutOfRange
  | Some l =>
      if negb (p_local p =b encode_hash (line_hash l) len) then Stale
      else match p_context p with
           | None => Stale
           | Some c => if c =b chunk_fingerprint len size ls (p_line p - 1) then Valid else Stale
           end
  end.

Definition chunk_scheme (len size : nat) : AnchorScheme := {|
  scheme_name := $"chunk_v1";
  hash_len := len;
  generate_anchors := chunk_generate len size;
  validate := chunk_validate len size;
  validation_window_lines _ total := Nat.min size total;
  find_shifted := find_shifted_generic len (chunk_validate len size);
|}.

(** ** Checkpoint chains *)

Definition DEFAULT_CHECKPOINT_INTERVAL : nat := 32.

Definition checkpoint_fingerprint (len interval : nat) (ls : list bytes) (idx : nat) : bytes :=
  let start := idx / interval * interval in
  encode_hash (fold_left mix (map line_hash (take (idx + 1 - start) (drop start ls))) (fnv1a_32 $"ckpt")) len.

(** The loop of [generate_anchors], from line [i] with the chain so far. *)
Fixpoint checkpoint_from (len interval i : nat) (chain : N) (ls : list bytes) : list Anchor :=
  match ls with
  | [] => []
  | l :: ls =>
      let chain := if i mod interval =? 0 then fnv1a_32 $"ckpt" else chain in
      let chain := mix chain (line_hash l) in
      mkAnchor (i + 1) (encode_hash (line_hash l) len) (Some (encode_hash chain len)) :: checkpoint_from len interval (i + 1) chain ls
  end.

Definition checkpoint_generate (len interval : nat) (ls : list bytes) : list Anchor :=
  checkpoint_from len interval 0 (fnv1a_32 $"ckpt") ls.

Definition checkpoint_validate (len interval : nat) (p : ParsedAnchor) (ls : list bytes) : ValidationResult :=
  match named_line p ls with
  | None => OutOfRange
  | Some l =>
      if negb (p_local p =b encode_hash (line_hash l) len) then Stale
      else match p_context p with
           | None => Stale
           | Some c => if c =b checkpoint_fingerprint len interval ls (p_line p - 1) then Valid else Stale
           end
  end.

Definition checkpoint_scheme (len interval : nat) : AnchorScheme := {|
  scheme_name := $"checkpoint_v1";
  hash_len := len;
  generate_anchors := checkpoint_generate len interval;
  validate := checkpoint_validate len interval;
  validation_window_lines idx _ := idx - idx / interval * interval + 1;
  find_shifted := find_shifted_generic len (checkpoint_validate len interval);
|}.

(** ** Texts: [anchor.rs] *)

Definition split_lines (content : bytes) : list bytes :=
  match content with
  | [] => [[]]
  | _ => lines content ++ (if ends_with [newline] content then [[]] else [])
  end.

Definition generate_for_content (s : AnchorScheme) (content : bytes) : list Anchor :=
  generate_anchors s (split_lines content).

Definition validate_against_content (s : AnchorScheme) (p : ParsedAnchor) (content : bytes) : ValidationResult :=
  validate s p (split_lines content).

Definition find_shifted_in_content (s : AnchorScheme) (p : ParsedAnchor) (content : bytes) (search_radius : nat) : ShiftResult :=
  find_shifted s p (split_lines content) search_radius.

Example fnv_test_vectors : fnv1a_32 $"a" = 0xE40C292C%N ∧ fnv1a_32 $"foobar" = 0xBF9CF968%N.
Proof. by vm_compute. Qed.

Example plus_sign_accepted : parse_anchor $"+22:abc:rst" = Some (mkParsed 22 $"abc" (Some $"rst")) ∧ parse_anchor $"22:abc:rst:x" = None.
Proof. by vm_compute. Qed.
