(* ===== verification/HashlineEdit.v ===== *)
(** * Editing by anchors

    [codegen/xai-grok-tools/src/implementations/grok_build_hashline]: how lines are
    shown with their anchors ([read_file.rs]), and the application of a batch of edits
    that name lines by anchors ([edit/types.rs], [edit/range_policy.rs],
    [edit/apply.rs]). *)

From S2P Require Import Prelude RustStr StrFind Anchors.

#[local] Open Scope nat_scope.

Definition ARROW : bytes := map ascii_of_nat [226; 134; 146].
Definition quote : bytes := ["034"%char].
Definition quoted (s : bytes) : bytes := quote ++ s ++ quote.

(** ** Operations and answers: [types.rs] *)

Inductive HashlineOp :=
| Replace (anchor : bytes) (end_anchor : option bytes) (content : bytes)
| InsertAfter (anchor content : bytes)
| Write (content : bytes).

Inductive HashlineEditErrorKind :=
| AnchorStale | AmbiguousAnchor | AnchorNotFound | FileNotFound | OverlappingEdits | InvalidInput | IoError.

#[export] Instance HashlineEditErrorKind_eq_dec : EqDecision HashlineEditErrorKind.
Proof. solve_decision. Defined.

Record HashlineEditError := mkError {
  error : HashlineEditErrorKind;
  message : bytes;
  requested_anchor : option bytes;
  current : option bytes;
  error_context : option bytes;
  context_start_line : option nat;
  shifted_to : option nat;
  shifted_anchor : option bytes;
  ambiguous_candidates : list nat;
}.

Record HashlineEditsApplied := mkApplied {
  applied : nat;
  scheme_used : bytes;
  snippet_start_line : nat;
  snippet : bytes;
  absolute_path : bytes;
  warnings : list bytes;
}.

Inductive HashlineEditOutput :=
| EditsApplied (a : HashlineEditsApplied)
| EditError (e : HashlineEditError).

(** An error with no more than a message and an anchor. *)
Definition plain_error (kind : HashlineEditErrorKind) (msg : bytes) (anchor : option bytes) : HashlineEditError :=
  mkError kind msg anchor None None None None None [].

Definition with_message (msg : bytes) (e : HashlineEditError) : HashlineEditError :=
  mkError (error e) msg (requested_anchor e) (current e) (error_context e) (context_start_line e) (shifted_to e) (shifted_anchor e) (ambiguous_candidates e).

(** ** Lines with their anchors *)

(** [anchor_suffix] *)
Definition anchor_suffix (a : Anchor) : bytes :=
  match context a with Some c => local a ++ $":" ++ c | None => local a end.

(** [render_anchored_line], and a line as [format_hashline_content] writes it. *)
Definition shown_line (n : nat) (a : Anchor) (content : bytes) : bytes :=
  show_nat n ++ $":" ++ anchor_suffix a ++ ARROW ++ content.

Definition render_anchored_line (a : Anchor) (content : bytes) : bytes := shown_line (line a) a content.

(** The lines of a window with their zero-based numbers. *)
Definition window_lines (offset limit : option nat) (ls : list bytes) : list (nat * bytes) :=
  let rest := drop (default 1 offset - 1) (imap pair ls) in
  match limit with Some n => take n rest | None => rest end.

(** [format_hashline_content] *)
Definition format_hashline_content (content : bytes) (offset limit : option nat) (s : AnchorScheme) : bytes * bytes :=
  let all_lines := split_lines content in
  let anchors := generate_anchors s all_lines in
  let window := window_lines offset limit all_lines in
  (join [newline] (map (fun il => match anchors !! il.1 with Some a => shown_line (il.1 + 1) a il.2 | None => [] end) window),
   join [newline] (map (fun il => match anchors !! il.1 with Some _ => il.2 | None => [] end) window)).

(** ** Copied anchors in new text *)

Definition anchor_like (before : bytes) : bool :=
  (length before <=? 25) && contains_byte ":"%char before && negb (contains_byte " "%char before).

Definition line_has_prefix (l : bytes) : bool :=
  let s := trim_start l in
  (match split_once_str ARROW s with Some (before, _) => anchor_like before | None => false end)
  || (match split_once_str $"->" s with Some (before, _) => anchor_like before | None => false end).

Fixpoint first_prefixed (i : nat) (ls : list bytes) : option nat :=
  match ls with
  | [] => None
  | l :: ls => if line_has_prefix l then Some (i + 1) else first_prefixed (i + 1) ls
  end.

(** [detect_anchor_prefix_in_content]: the number of the first such line, from one. *)
Definition detect_anchor_prefix_in_content (content : bytes) : option nat := first_prefixed 0 (lines content).

Definition anchor_content_error (op_label content : bytes) (line_num : nat) : HashlineEditError :=
  let ls := lines content in
  let ctx_start := line_num - 1 - 1 in
  let ctx_end := Nat.min (line_num + 1) (length ls) in
  let shown i := (if i + 1 =? line_num then $">>>" else $"   ") ++ $" line " ++ show_nat (i + 1) ++ $": " ++ default [] (ls !! i) in
  mkError InvalidInput
    (op_label ++ $" content contains anchor prefixes (e.g. " ++ quoted ($"22:abc:rst" ++ ARROW)
     ++ $") copied from hashline_read output. The first offending line is line " ++ show_nat line_num
     ++ $". Strip the anchor prefixes and the " ++ ARROW ++ $" separator from every line, keeping only the actual file content, then retry.")
    None (Some (default [] (ls !! (line_num - 1)))) (Some (join [newline] (map shown (seq ctx_start (ctx_end - ctx_start)))))
    (Some (ctx_start + 1)) None None [].

(** ** Resolving anchors *)

(** [anchor_format_hint] *)
Definition anchor_format_hint (s : AnchorScheme) : bytes * bytes :=
  let len := Nat.min (Nat.max (hash_len s) 1) 4 in
  let has_context := match head (generate_anchors s [$"x"]) with Some a => bool_decide (is_Some (context a)) | None => false end in
  if has_context then ($"LINE:HASH1:HASH2", $"22:" ++ take len $"abcd" ++ $":" ++ take len $"rstu")
  else ($"LINE:HASH", $"22:" ++ take len $"abcd").

Definition suffix_matches (suffix : bytes) (a : Anchor) : bool :=
  match context a, split_once ":"%char suffix with
  | Some ctx, Some (loc, sfx_ctx) => (local a =b loc) && (ctx =b sfx_ctx)
  | None, None => local a =b suffix
  | _, _ => false
  end.

(** [recover_anchor_by_suffix] *)
Definition recover_anchor_by_suffix (suffix : bytes) (ls : list bytes) (s : AnchorScheme) : option ParsedAnchor :=
  match List.filter (suffix_matches suffix) (generate_anchors s ls) with
  | [a] => Some (mkParsed (line a) (local a) (context a))
  | _ => None
  end.

(** The anchor before an arrow the model copied. *)
Definition strip_arrow (anchor_str : bytes) : bytes :=
  match split_once_str ARROW anchor_str with
  | Some (pre, _) => pre
  | None => match split_once_str $"->" anchor_str with Some (pre, _) => pre | None => anchor_str end
  end.

(** [{:?}] of a vector of numbers. *)
Definition show_lines (ns : list nat) : bytes := $"[" ++ join $", " (map show_nat ns) ++ $"]".

(** The lines around a stale anchor with their anchors, from [ctx_start] on. *)
Definition fresh_context (s : AnchorScheme) (ls : list bytes) (ctx_start ctx_end : nat) : bytes :=
  let anchors := generate_anchors s ls in
  join [newline] (omap (fun i => a ← anchors !! i; l ← ls !! i; Some (render_anchored_line a l)) (seq ctx_start (ctx_end - ctx_start))).

(** The anchor suggested for a line. *)
Definition fresh_anchor (s : AnchorScheme) (ls : list bytes) (n : nat) : bytes :=
  match (match n with 0 => None | S i => generate_anchors s ls !! i end) with
  | Some a => show_nat n ++ $":" ++ anchor_suffix a
  | None => show_nat n
  end.

(** The error for a stale anchor. *)
Definition stale_error (anchor_str : bytes) (p : ParsedAnchor) (ls : list bytes) (s : AnchorScheme) : HashlineEditError :=
  let recovery_ctx := 5 in
  let ctx_start := p_line p - 1 - recovery_ctx in
  let ctx_end := Nat.min (p_line p + recovery_ctx) (length ls) in
  let ctx := fresh_context s ls ctx_start ctx_end in
  let idx := p_line p - 1 in
  let cur := a ← generate_anchors s ls !! idx; l ← ls !! idx; Some (render_anchored_line a l) in
  let at_ := $"Anchor stale at line " ++ show_nat (p_line p) in
  match find_shifted s p ls DEFAULT_SEARCH_RADIUS with
  | Found n =>
      let fresh := fresh_anchor s ls n in
      mkError AnchorStale
        (at_ ++ $". Content appears to have shifted to line " ++ show_nat n ++ $". Retry with anchor " ++ quoted fresh ++ $".")
        (Some anchor_str) cur (Some ctx) (Some (ctx_start + 1)) (Some n) (Some fresh) []
  | Ambiguous ns =>
      mkError AmbiguousAnchor
        (at_ ++ $". Multiple candidates at lines " ++ show_lines ns ++ $". Use the fresh anchors from the context below to retry your edit.")
        (Some anchor_str) cur (Some ctx) (Some (ctx_start + 1)) None None ns
  | NotFound =>
      mkError AnchorStale (at_ ++ $". Use the fresh anchors from the context below to retry your edit.")
        (Some anchor_str) cur (Some ctx) (Some (ctx_start + 1)) None None []
  end.

(** [validate_anchor]: the zero-based line. *)
Definition validate_anchor (anchor_str : bytes) (ls : list bytes) (s : AnchorScheme) : result nat HashlineEditError :=
  let anchor_str := strip_arrow anchor_str in
  match (match parse_anchor anchor_str with Some p => Some p | None => recover_anchor_by_suffix anchor_str ls s end) with
  | None =>
      let '(fmt, ex) := anchor_format_hint s in
      Err (plain_error InvalidInput
        ($"Malformed anchor: " ++ quoted anchor_str ++ $". Expected format: " ++ quoted fmt ++ $" (e.g. " ++ quoted ex ++ $").") (Some anchor_str))
  | Some p =>
      match validate s p ls with
      | Valid => Ok (p_line p - 1)
      | OutOfRange =>
          Err (plain_error AnchorNotFound
            ($"Line " ++ show_nat (p_line p) ++ $" is out of range (file has " ++ show_nat (length ls) ++ $" lines).") (Some anchor_str))
      | Stale => Err (stale_error anchor_str p ls s)
      end
  end.

(** ** Resolving operations *)

(** A validated edit: lines [op_start] to [op_end], counted from zero, are replaced; an
    insertion has the two equal. *)
Record ResolvedOp := mkResolved {
  original_idx : nat;
  op_start : nat;
  op_end : nat;
  new_lines : list bytes;
}.

Definition insertion_point (ls : list bytes) : nat :=
  if (1 <? length ls) && bool_decide (last ls = Some []) then length ls - 1 else length ls.

(** [resolve_op] *)
Definition resolve_op (op : HashlineOp) (idx : nat) (ls : list bytes) (s : AnchorScheme) : result ResolvedOp HashlineEditError :=
  match op with
  | Replace anchor end_anchor content =>
      match validate_anchor anchor ls s with
      | Err e => Err e
      | Ok start =>
          let end_ :=
            match end_anchor with
            | None => Ok (start + 1)
            | Some ea =>
                match validate_anchor ea ls s with
                | Err e => Err e
                | Ok e =>
                    if e <? start then
                      Err (plain_error InvalidInput
                        ($"end_anchor line " ++ show_nat (e + 1) ++ $" is before start anchor line " ++ show_nat (start + 1) ++ $".") (Some ea))
                    else Ok (e + 1)
                end
            end in
          match end_ with
          | Err e => Err e
          | Ok e =>
              match detect_anchor_prefix_in_content content with
              | Some n => Err (anchor_content_error $"replace" content n)
              | None => Ok (mkResolved idx start e (match content with [] => [] | _ => lines content end))
              end
          end
      end
  | InsertAfter anchor content =>
      let at_ :=
        if anchor =b $"0:" then Ok 0
        else if anchor =b $"EOF" then Ok (insertion_point ls)
        else match validate_anchor anchor ls s with Ok n => Ok (n + 1) | Err e => Err e end in
      match at_ with
      | Err e => Err e
      | Ok i =>
          match detect_anchor_prefix_in_content content with
          | Some n => Err (anchor_content_error $"insert_after" content n)
          | None => Ok (mkResolved idx i i (match content with [] => [[]] | _ => lines content end))
          end
      end
  | Write _ =>
      Err (plain_error InvalidInput
        $"Write op must be the only operation in a batch. Either use write alone (to replace the entire file) or use replace/insert_after ops without write." None)
  end.

Definition op_label (op : HashlineOp) : bytes :=
  match op with Replace _ _ _ => $"replace" | InsertAfter _ _ => $"insert_after" | Write _ => $"write" end.

Definition blank_line : bytes := [newline; newline].

(** The message of an operation that does not resolve, in a batch of [total]. *)
Definition batch_message (idx total : nat) (op : HashlineOp) (e : HashlineEditError) : HashlineEditError :=
  if 1 <? total then
    with_message ($"Edit " ++ show_nat (idx + 1) ++ $"/" ++ show_nat total ++ $" (" ++ op_label op ++ $"): " ++ message e ++ blank_line
      ++ $"This batch contained " ++ show_nat total ++ $" edits. Because this anchor failed validation, none of the edits were applied. Retry all "
      ++ show_nat total ++ $" edits with fresh anchors, not just the failed one.") e
  else e.

Fixpoint resolve_all (idx total : nat) (ops : list HashlineOp) (ls : list bytes) (s : AnchorScheme) : result (list ResolvedOp) HashlineEditError :=
  match ops with
  | [] => Ok []
  | op :: ops =>
      match resolve_op op idx ls s with
      | Err e => Err (batch_message idx total op e)
      | Ok r => match resolve_all (idx + 1) total ops ls s with Ok rs => Ok (r :: rs) | Err e => Err e end
      end
  end.

(** ** Overlaps *)

Definition describe (start end_ idx : nat) : bytes :=
  if start =? end_ then $"edit #" ++ show_nat (idx + 1) ++ $" (insertion at line " ++ show_nat (start + 1) ++ $")"
  else $"edit #" ++ show_nat (idx + 1) ++ $" (lines " ++ show_nat (start + 1) ++ $"-" ++ show_nat end_ ++ $")".

Definition overlap_error (a b : nat * nat * nat) : HashlineEditError :=
  plain_error OverlappingEdits
    ($"Overlapping edits: " ++ describe a.1.1 a.1.2 a.2 ++ $" and " ++ describe b.1.1 b.1.2 b.2 ++ $".") None.

(** The first overlap of neighbours among the replaced ranges. *)
Fixpoint ranges_overlap (rs : list (nat * nat * nat)) : option HashlineEditError :=
  match rs with
  | a :: rest =>
      match rest with
      | b :: _ => if b.1.1 <? a.1.2 then Some (overlap_error a b) else ranges_overlap rest
      | [] => None
      end
  | [] => None
  end.

Definition is_insertion (op : ResolvedOp) : bool := op_start op =? op_end op.

Definition range_of (op : ResolvedOp) : nat * nat * nat := (op_start op, op_end op, original_idx op).

Definition holds_point (i : nat) (r : nat * nat * nat) : bool := (r.1.1 <=? i) && (i <? r.1.2).

(** The first insertion inside of a replaced range. *)
Fixpoint insertion_overlap (ops : list ResolvedOp) (rs : list (nat * nat * nat)) : option HashlineEditError :=
  match ops with
  | [] => None
  | op :: ops =>
      if negb (is_insertion op) then insertion_overlap ops rs
      else match List.find (holds_point (op_start op)) rs with
           | Some r => Some (overlap_error r (range_of op))
           | None => insertion_overlap ops rs
           end
  end.

(** [check_overlaps] *)
Definition check_overlaps (ops : list ResolvedOp) : option HashlineEditError :=
  let ranges := sort_by_key (fun r : nat * nat * nat => r.1.1) (map range_of (List.filter (fun op => negb (is_insertion op)) ops)) in
  match ranges_overlap ranges with
  | Some e => Some e
  | None => insertion_overlap ops ranges
  end.

(** ** Range sizes: [range_policy.rs] *)

Inductive RangeSize := Small | Medium | Large.

Definition SMALL_MAX : nat := 5.
Definition MEDIUM_MAX : nat := 20.

Definition classify (line_count : nat) : RangeSize :=
  if line_count <=? SMALL_MAX then Small else if line_count <=? MEDIUM_MAX then Medium else Large.

Definition range_warning (start end_ : nat) : option bytes :=
  let count := end_ - start in
  let span := show_nat (start + 1) ++ $"-" ++ show_nat end_ in
  match classify count with
  | Large => Some ($"Caution: large range edit (" ++ show_nat count ++ $" lines, lines " ++ span ++ $"). Verify the target range is correct.")
  | Medium => Some ($"Note: medium range edit (" ++ show_nat count ++ $" lines, lines " ++ span ++ $").")
  | Small => None
  end.

(** ** Snippets *)

Definition SNIPPET_CONTEXT : nat := 3.
Definition MAX_CONTIGUOUS_SNIPPET : nat := 80.

(** The regions with their context, those that touch merged; the last is at the head of
    [acc]. *)
Fixpoint merge_regions (total : nat) (acc : list (nat * nat)) (rs : list (nat * nat)) : list (nat * nat) :=
  match rs with
  | [] => reverse acc
  | (start, end_) :: rs =>
      let ctx_start := start - SNIPPET_CONTEXT in
      let ctx_end := Nat.min (end_ + SNIPPET_CONTEXT) total in
      match acc with
      | (a, b) :: acc' => if ctx_start <=? b then merge_regions total ((a, Nat.max b ctx_end) :: acc') rs else merge_regions total ((ctx_start, ctx_end) :: acc) rs
      | [] => merge_regions total [(ctx_start, ctx_end)] rs
      end
  end.

Definition gap_line (n : nat) : bytes := $"... " ++ show_nat n ++ $" lines not shown ...".

(** The parts of the merged regions; [i] counts them. *)
Fixpoint region_parts (content : bytes) (s : AnchorScheme) (i prev_end : nat) (rs : list (nat * nat)) : list bytes * nat :=
  match rs with
  | [] => ([], prev_end)
  | (start, end_) :: rs =>
      let gap := if 0 <? i then [gap_line (start - prev_end)] else if 0 <? start then [gap_line start] else [] in
      let region := (format_hashline_content content (Some (start + 1)) (Some (end_ - start)) s).1 in
      let '(parts, last_end) := region_parts content s (i + 1) end_ rs in
      (gap ++ [region] ++ parts, last_end)
  end.

(** [build_snippet] *)
Definition build_snippet (content : bytes) (regions : list (nat * nat)) (total : nat) (s : AnchorScheme) : bytes :=
  match head regions, last regions with
  | Some f, Some l =>
      let global_start := f.1 - SNIPPET_CONTEXT in
      let global_end := Nat.min (l.2 + SNIPPET_CONTEXT) total in
      if global_end - global_start <=? MAX_CONTIGUOUS_SNIPPET then
        (format_hashline_content content (Some (global_start + 1)) (Some (global_end - global_start)) s).1
      else
        let '(parts, prev_end) := region_parts content s 0 0 (merge_regions total [] regions) in
        join [newline] (parts ++ (if prev_end <? total then [gap_line (total - prev_end)] else []))
  | _, _ => []
  end.

(** ** Applying a batch *)

Record EditRegionDetail := mkDetail { old_line : nat; old_text : bytes; new_line : nat; new_text : bytes }.

Record ApplyResult := mkApplyResult {
  output : HashlineEditOutput;
  new_content : option bytes;
  edit_details : list EditRegionDetail;
}.

Definition rejected (e : HashlineEditError) : ApplyResult := mkApplyResult (EditError e) None [].

Definition build_write_result (content file_path : bytes) (s : AnchorScheme) : HashlineEditOutput :=
  let total := length (split_lines content) in
  let snippet_end := Nat.min (SNIPPET_CONTEXT * 2) total in
  EditsApplied (mkApplied 1 (scheme_name s) 1 (format_hashline_content content (Some 1) (Some snippet_end) s).1 file_path []).

(** The order in which edits are applied: from the last line up, later requests first. *)
Definition applied_before (a b : ResolvedOp) : Prop :=
  op_start b < op_start a ∨ (op_start a = op_start b ∧ original_idx b <= original_idx a).

#[export] Instance applied_before_dec : RelDecision applied_before.
Proof. intros a b. unfold applied_before. apply _. Defined.

(** The regions and details of the edits in the order of their lines; [shift] is how far
    the edits above moved them. *)
Fixpoint regions_of (ls : list bytes) (shift : Z) (ops : list ResolvedOp) : list ((nat * nat) * EditRegionDetail) :=
  match ops with
  | [] => []
  | op :: ops =>
      let shifted_start := Z.to_nat (Z.of_nat (op_start op) + shift) in
      let replaced := op_end op - op_start op in
      let inserted := length (new_lines op) in
      let old := if (op_start op <? op_end op) && (op_end op <=? length ls) then join [newline] (take replaced (drop (op_start op) ls)) else [] in
      ((shifted_start, shifted_start + inserted), mkDetail (op_start op + 1) old (shifted_start + 1) (join [newline] (new_lines op)))
      :: regions_of ls (shift + Z.of_nat inserted - Z.of_nat replaced)%Z ops
  end.

(** [Vec::splice], which panics past the end. *)
Definition splice_op (ls : list bytes) (op : ResolvedOp) : option (list bytes) :=
  if (op_start op <=? op_end op) && (op_end op <=? length ls) then Some (take (op_start op) ls ++ new_lines op ++ drop (op_end op) ls) else None.

Fixpoint splice_all (ls : list bytes) (ops : list ResolvedOp) : option (list bytes) :=
  match ops with
  | [] => Some ls
  | op :: ops => ls ← splice_op ls op; splice_all ls ops
  end.

(** [apply_edits]; [None] when it panics. *)
Definition apply_edits (content : bytes) (ops : list HashlineOp) (file_path : bytes) (s : AnchorScheme) : option ApplyResult :=
  let ls := split_lines content in
  match ops with
  | [Write new] =>
      Some match detect_anchor_prefix_in_content new with
           | Some n => rejected (anchor_content_error $"write" new n)
           | None => mkApplyResult (build_write_result new file_path s) (Some new) []
           end
  | _ =>
      match resolve_all 0 (length ops) ops ls s with
      | Err e => Some (rejected e)
      | Ok resolved =>
          match check_overlaps resolved with
          | Some e =>
              Some (rejected (if 1 <? length ops then
                with_message (message e ++ blank_line ++ $"This batch contained " ++ show_nat (length ops)
                  ++ $" edits. Because of the overlap, none were applied. Fix the overlapping ranges and retry all edits.") e
              else e))
          | None =>
              let warnings := omap (fun op => range_warning (op_start op) (op_end op)) resolved in
              let sorted := merge_sort applied_before resolved in
              let found := regions_of ls 0 (reverse sorted) in
              let regions := sort_by_key fst (map fst found) in
              result_lines ← splice_all ls sorted;
              let new := join [newline] result_lines in
              let total := length (split_lines new) in
              Some (mkApplyResult
                (EditsApplied (mkApplied (length ops) (scheme_name s) (match head regions with Some r => r.1 - SNIPPET_CONTEXT + 1 | None => 1 end)
                  (build_snippet new regions total s) file_path warnings))
                (Some new) (map snd found))
          end
      end
  end.
