(* ===== verification/AnchorLaws.v ===== *)
(** * The promise of an anchor scheme

    What the editor relies on is a class of laws: one well-formed anchor for each line,
    and validation accepts exactly the anchors that would be generated.  The three
    schemes of the source keep it. *)

From S2P Require Import Prelude RustStr StrFind Anchors.

#[local] Open Scope nat_scope.

(** ** The interface *)

(** An anchor that survives being written and parsed. *)
Definition wellformed (a : Anchor) : Prop :=
  line a ≠ 0 ∧ local a ≠ [] ∧ all_lower (local a) = true
  ∧ ∀ c, context a = Some c → c ≠ [] ∧ all_lower c = true.

(** The anchor generated for the line a parsed anchor names. *)
Definition anchor_at (s : AnchorScheme) (ls : list bytes) (p : ParsedAnchor) : option Anchor :=
  match p_line p with 0 => None | S i => generate_anchors s ls !! i end.

(** The hashes of a parsed anchor are those of a generated one. *)
Definition agrees (p : ParsedAnchor) (a : Anchor) : bool :=
  (p_local p =b local a) && match context a with Some c => bool_decide (p_context p = Some c) | None => true end.

Class LawfulScheme (s : AnchorScheme) : Prop := {
  scheme_lines : ∀ ls, map line (generate_anchors s ls) = seq 1 (length ls);
  scheme_wellformed : ∀ ls, Forall wellformed (generate_anchors s ls);
  scheme_local : ∀ ls i a l, generate_anchors s ls !! i = Some a → ls !! i = Some l → local a = encode_hash (line_hash l) (hash_len s);
  scheme_validate : ∀ p ls, validate s p ls =
    match anchor_at s ls p with
    | None => OutOfRange
    | Some a => if agrees p a then Valid else Stale
    end;
  scheme_hashes : ∀ ls ls', map line_hash ls = map line_hash ls' → generate_anchors s ls = generate_anchors s ls';
  scheme_shifted : ∀ p ls r, find_shifted s p ls r = find_shifted_generic (hash_len s) (validate s) p ls r;
}.

(** ** Hashes are letters *)

Lemma letter_lower (n : N) : (n < 26)%N → is_ascii_lower (letter n) = true.
Proof.
  intros Hn. unfold is_ascii_lower, letter, code. rewrite nat_ascii_embedding by lia.
  apply andb_true_iff. split; apply Nat.leb_le; lia.
Qed.

Lemma encode_lower (h : N) (len : nat) : all_lower (encode_hash h len) = true.
Proof.
  unfold all_lower, encode_hash. apply forallb_forall. intros a (i & <- & _)%in_map_iff.
  apply letter_lower. apply N.mod_lt. lia.
Qed.

Lemma encode_length (h : N) (len : nat) : length (encode_hash h len) = len.
Proof. unfold encode_hash. by rewrite length_map, length_seq. Qed.

Lemma encode_nonempty (h : N) (len : nat) : 0 < len → encode_hash h len ≠ [].
Proof. intros Hl E. pose proof (encode_length h len) as H. rewrite E in H. simpl in H. lia. Qed.

(** An anchor of hashes is well formed. *)
Lemma hashes_wellformed (n len : nat) (h : N) (c : option bytes) :
  0 < len → (∀ x, c = Some x → ∃ h', x = encode_hash h' len) → wellformed (mkAnchor (n + 1) (encode_hash h len) c).
Proof.
  intros Hl Hc. unfold wellformed. cbn [line local context]. split; [lia|]. split; [by apply encode_nonempty|]. split; [apply encode_lower|].
  intros x [h' ->]%Hc. split; [by apply encode_nonempty|apply encode_lower].
Qed.

(** A numbering by [imap] from one. *)
Lemma imap_lines {A} (f : nat → bytes → A) (g : A → nat) (ls : list bytes) (k : nat) :
  (∀ i l, g (f (k + i) l) = k + i + 1) → map g (imap (fun i => f (k + i)) ls) = seq (k + 1) (length ls).
Proof.
  revert k. induction ls as [|l ls IH]; intros k Hf; [done|]. simpl. f_equal; [rewrite Hf; lia|].
  change (S (k + 1)) with (S k + 1). rewrite <-(IH (S k)).
  - f_equal. apply imap_ext. intros i x _. simpl. f_equal. lia.
  - intros i x. replace (S k + i) with (k + S i) by lia. rewrite Hf. lia.
Qed.

Lemma lookup_imap_hash (f : nat → bytes → Anchor) (ls : list bytes) (i : nat) : imap f ls !! i = f i <$> ls !! i.
Proof. by rewrite list_lookup_imap. Qed.

(** What is computed from the hashes of lines, by their positions. *)
Lemma imap_hash {A} (f : nat → N → A) (ls ls' : list bytes) :
  map line_hash ls = map line_hash ls' → imap (fun i l => f i (line_hash l)) ls = imap (fun i l => f i (line_hash l)) ls'.
Proof.
  revert f ls'. induction ls as [|l ls IH]; intros f [|l' ls'] E; try done. injection E as El E. simpl. f_equal; [by rewrite El|].
  exact (IH (fun i => f (S i)) ls' E).
Qed.

Lemma map_hash_window (a n : nat) (ls ls' : list bytes) :
  map line_hash ls = map line_hash ls' → map line_hash (take n (drop a ls)) = map line_hash (take n (drop a ls')).
Proof. intros E. by rewrite <-!firstn_map, <-!skipn_map, E. Qed.

(** ** Content only *)

#[export] Instance content_only_lawful (len : nat) : 0 < len → LawfulScheme (content_only len).
Proof.
  intros Hl. split.
  - intros ls. exact (imap_lines (fun i l => mkAnchor (i + 1) (encode_hash (line_hash l) len) None) line ls 0 (fun i l => eq_refl)).
  - intros ls. apply Forall_lookup. intros i a. simpl. unfold content_generate. rewrite lookup_imap_hash.
    destruct (ls !! i); [|done]. intros [= <-]. by apply hashes_wellformed.
  - intros ls i a l E El. simpl in *. unfold content_generate in E. rewrite lookup_imap_hash, El in E. by injection E as <-.
  - intros p ls. simpl. unfold content_validate, anchor_at, named_line, agrees. destruct (p_line p) as [|i]; [done|].
    simpl. unfold content_generate. rewrite lookup_imap_hash. destruct (ls !! i) as [l|]; [|done]. simpl. by rewrite andb_true_r.
  - intros ls ls' E. exact (imap_hash (fun i h => mkAnchor (i + 1) (encode_hash h len) None) ls ls' E).
  - done.
Qed.

(** ** Chunks *)

Lemma div_ceil_holds (n d i : nat) : 0 < d → i < n → i / d < div_ceil n d.
Proof.
  intros Hd Hi. unfold div_ceil. pose proof (Nat.div_mod_eq n d) as E. pose proof (Nat.mod_upper_bound n d) as Hm.
  destruct (Nat.eqb_spec (n mod d) 0) as [H0|H0].
  - apply Nat.Div0.div_lt_upper_bound. lia.
  - apply Nat.Div0.div_lt_upper_bound. nia.
Qed.

Lemma chunk_fps_lookup (len size : nat) (ls : list bytes) (i : nat) :
  0 < size → i < length ls → chunk_fps len size ls !! (i / size) = Some (chunk_fingerprint len size ls i).
Proof.
  intros Hs Hi. unfold chunk_fps. change (@map nat bytes) with (@fmap list _ nat bytes). rewrite list_lookup_fmap.
  rewrite lookup_seq_lt by (by apply div_ceil_holds). done.
Qed.

#[export] Instance chunk_lawful (len size : nat) : 0 < len → 0 < size → LawfulScheme (chunk_scheme len size).
Proof.
  intros Hl Hs. split.
  - intros ls. exact (imap_lines (fun i l => mkAnchor (i + 1) (encode_hash (line_hash l) len) (chunk_fps len size ls !! (i / size))) line ls 0 (fun i l => eq_refl)).
  - intros ls. apply Forall_lookup. intros i a. simpl. unfold chunk_generate. rewrite lookup_imap_hash.
    destruct (ls !! i) as [l|] eqn:E; [|done]. intros [= <-]. apply hashes_wellformed; [done|]. intros x.
    apply lookup_lt_Some in E. rewrite chunk_fps_lookup by done. intros [= <-]. by eexists.
  - intros ls i a l E El. simpl in *. unfold chunk_generate in E. rewrite lookup_imap_hash, El in E. by injection E as <-.
  - intros p ls. simpl. unfold chunk_validate, anchor_at, named_line, agrees. destruct (p_line p) as [|i]; [done|].
    simpl. unfold chunk_generate. rewrite lookup_imap_hash. destruct (ls !! i) as [l|] eqn:E; [|done]. simpl.
    apply lookup_lt_Some in E. rewrite chunk_fps_lookup, Nat.sub_0_r by done.
    destruct (p_local p =b encode_hash (line_hash l) len); [|done]. simpl. destruct (p_context p) as [c|]; [|done].
    unfold beq. by repeat case_bool_decide; simplify_eq.
  - intros ls ls' E. simpl. unfold chunk_generate. assert (chunk_fps len size ls = chunk_fps len size ls') as ->.
    { unfold chunk_fps, chunk_hash. assert (length ls = length ls') as -> by (apply (f_equal length) in E; by rewrite !length_map in E).
      apply map_ext. intros c. by rewrite (map_hash_window _ _ ls ls'). }
    exact (imap_hash (fun i h => mkAnchor (i + 1) (encode_hash h len) (chunk_fps len size ls' !! (i / size))) ls ls' E).
  - done.
Qed.

(** ** Checkpoints *)

Definition chain_at (interval : nat) (ls : list bytes) (idx : nat) : N :=
  let start := idx / interval * interval in
  fold_left mix (map line_hash (take (idx + 1 - start) (drop start ls))) (fnv1a_32 $"ckpt").

(** One line further along the chain, or the start of the next. *)
Lemma chain_at_step (interval : nat) (ls : list bytes) (i : nat) (l : bytes) :
  0 < interval → ls !! i = Some l →
  chain_at interval ls i = mix (if i mod interval =? 0 then fnv1a_32 $"ckpt" else chain_at interval ls (i - 1)) (line_hash l).
Proof.
  intros Hn El. unfold chain_at. cbv zeta. pose proof (Nat.div_mod_eq i interval) as E. pose proof (Nat.mod_upper_bound i interval) as Hm.
  set (q := i / interval) in *. set (m := i mod interval) in *.
  assert (take (i + 1 - q * interval) (drop (q * interval) ls) = take (i - q * interval) (drop (q * interval) ls) ++ [l]) as ->.
  { replace (i + 1 - q * interval) with (S (i - q * interval)) by nia. apply take_S_r.
    rewrite lookup_drop. replace (q * interval + (i - q * interval)) with i by nia. done. }
  rewrite map_app, fold_left_app. cbn [map fold_left]. f_equal. destruct (Nat.eqb_spec m 0) as [H0|H0].
  - replace (i - q * interval) with 0 by nia. done.
  - assert ((i - 1) / interval = q) as -> by (symmetry; apply (Nat.div_unique _ _ _ (m - 1)); nia).
    by replace (i - 1 + 1 - q * interval) with (i - q * interval) by nia.
Qed.

Lemma checkpoint_from_spec (len interval : nat) (pre suf : list bytes) (chain : N) :
  0 < interval → (length pre mod interval ≠ 0 → chain = chain_at interval (pre ++ suf) (length pre - 1)) →
  checkpoint_from len interval (length pre) chain suf
  = imap (fun k l => mkAnchor (length pre + k + 1) (encode_hash (line_hash l) len) (Some (encode_hash (chain_at interval (pre ++ suf) (length pre + k)) len))) suf.
Proof.
  intros Hn. revert pre chain. induction suf as [|l suf IH]; intros pre chain Hc; [done|]. cbn [checkpoint_from imap]. cbv zeta.
  assert (mix (if length pre mod interval =? 0 then fnv1a_32 $"ckpt" else chain) (line_hash l) = chain_at interval (pre ++ l :: suf) (length pre)) as ->.
  { rewrite (chain_at_step _ _ _ l) by (done || (rewrite list_lookup_middle by done; done)). f_equal.
    destruct (Nat.eqb_spec (length pre mod interval) 0) as [|H0]; [done|by apply Hc]. }
  rewrite Nat.add_0_r. f_equal. assert (pre ++ l :: suf = (pre ++ [l]) ++ suf) as E by by rewrite <-app_assoc.
  rewrite E. specialize (IH (pre ++ [l])). rewrite length_app in IH. simpl in IH. rewrite IH.
  - apply imap_ext. intros k x _. simpl. replace (length pre + S k) with (length pre + 1 + k) by lia. done.
  - intros _. f_equal. lia.
Qed.

(** The running chain is the fingerprint computed anew from the last checkpoint. *)
Lemma checkpoint_generate_spec (len interval : nat) (ls : list bytes) :
  0 < interval → checkpoint_generate len interval ls
  = imap (fun i l => mkAnchor (i + 1) (encode_hash (line_hash l) len) (Some (checkpoint_fingerprint len interval ls i))) ls.
Proof.
  intros Hn. unfold checkpoint_generate. rewrite (checkpoint_from_spec len interval [] ls); [done|done|].
  simpl. rewrite Nat.Div0.mod_0_l. done.
Qed.

#[export] Instance checkpoint_lawful (len interval : nat) : 0 < len → 0 < interval → LawfulScheme (checkpoint_scheme len interval).
Proof.
  intros Hl Hs. split; simpl; try done.
  - intros ls. rewrite checkpoint_generate_spec by done.
    exact (imap_lines (fun i l => mkAnchor (i + 1) (encode_hash (line_hash l) len) (Some (checkpoint_fingerprint len interval ls i))) line ls 0 (fun i l => eq_refl)).
  - intros ls. apply Forall_lookup. intros i a. rewrite checkpoint_generate_spec, lookup_imap_hash by done.
    destruct (ls !! i) as [l|] eqn:E; [|done]. intros [= <-]. apply hashes_wellformed; [done|]. intros x [= <-]. by eexists.
  - intros ls i a l E El. rewrite checkpoint_generate_spec, lookup_imap_hash, El in E by done. by injection E as <-.
  - intros p ls. unfold checkpoint_validate, anchor_at, named_line, agrees. destruct (p_line p) as [|i]; [done|].
    simpl. rewrite checkpoint_generate_spec, lookup_imap_hash by done. destruct (ls !! i) as [l|] eqn:E; [|done]. simpl. rewrite Nat.sub_0_r.
    destruct (p_local p =b encode_hash (line_hash l) len); [|done]. simpl. destruct (p_context p) as [c|]; [|done].
    unfold beq. by repeat case_bool_decide; simplify_eq.
  - intros ls ls' E. rewrite !checkpoint_generate_spec by done. unfold checkpoint_fingerprint.
    etransitivity; [|exact (imap_hash (fun i h => mkAnchor (i + 1) (encode_hash h len) (Some (encode_hash (fold_left mix
      (map line_hash (take (i + 1 - i / interval * interval) (drop (i / interval * interval) ls'))) (fnv1a_32 $"ckpt")) len))) ls ls' E)].
    apply imap_ext. intros i l _. by rewrite (map_hash_window _ _ ls ls').
Qed.

(** ** White space does not count *)

(** Runs of ASCII white space become one space; the flag says that one was written. *)
Fixpoint collapse (prev_ws : bool) (s : bytes) : bytes :=
  match s with
  | [] => []
  | a :: s =>
      if is_ascii_whitespace a then (if prev_ws then collapse true s else " "%char :: collapse true s)
      else a :: collapse false s
  end.

(** The normal form the documentation of [line_hash] describes. *)
Definition normalised (l : bytes) : bytes := collapse false (trim l).

Lemma fold_hash_byte (s : bytes) (h : N) (prev_ws : bool) :
  (fold_left hash_byte s (h, prev_ws)).1 = fold_left (fun h a => mix h (byte_value a)) (collapse prev_ws s) h.
Proof.
  revert h prev_ws. induction s as [|a s IH]; intros h prev_ws; [done|]. cbn [fold_left hash_byte collapse].
  destruct (is_ascii_whitespace a); [|apply IH]. destruct prev_ws; apply IH.
Qed.

Lemma line_hash_normal (l : bytes) : line_hash l = fnv1a_32 (normalised l).
Proof. apply fold_hash_byte. Qed.

(** Indentation by spaces and tabs. *)
Definition indent_byte (a : ascii) : bool := (code a =? 32) || (code a =? 9).

Lemma trim_start_indent (ind s : bytes) : forallb indent_byte ind = true → trim_start (ind ++ s) = trim_start s.
Proof.
  induction ind as [|a ind IH]; [done|]. simpl. intros [Ha Hind]%andb_true_iff.
  assert (ws1 a = true) as ->; [|by apply IH]. unfold ws1, indent_byte in *. apply orb_true_iff.
  apply orb_true_iff in Ha as [->|Ha%Nat.eqb_eq]; [by right|left; rewrite Ha; done].
Qed.

Lemma reindent_normal (ind l : bytes) : forallb indent_byte ind = true → normalised (ind ++ trim_start l) = normalised l.
Proof. intros Hi. unfold normalised, trim. by rewrite trim_start_indent, trim_start_idem. Qed.

(** The anchors of a text are those of its lines trimmed, with runs of white space
    as one space: texts that agree up to that have the same anchors under every scheme;
    in particular a formatter that indents a line anew keeps all of them. *)
Theorem anchors_ignore_white_space (s : AnchorScheme) `{!LawfulScheme s} (ls : list bytes) :
  (∀ ls', map normalised ls' = map normalised ls → generate_anchors s ls' = generate_anchors s ls)
  ∧ ∀ i l ind, ls !! i = Some l → forallb indent_byte ind = true →
    generate_anchors s (<[i := ind ++ trim_start l]> ls) = generate_anchors s ls.
Proof.
  assert (∀ ls', map normalised ls' = map normalised ls → generate_anchors s ls' = generate_anchors s ls) as Hn.
  { intros ls' E. apply scheme_hashes. rewrite !(map_ext line_hash (fun l => fnv1a_32 (normalised l))) by apply line_hash_normal.
    by rewrite <-!(map_map normalised fnv1a_32), E. }
  split; [done|]. intros i l ind El Hi. apply Hn. change (@map bytes bytes) with (@fmap list _ bytes bytes).
  rewrite list_fmap_insert, reindent_normal by done. apply list_insert_id. by rewrite list_lookup_fmap, El.
Qed.

Lemma anchors_ignore_white_space_witness :
  LawfulScheme (chunk_scheme 3 8)
  ∧ generate_anchors (chunk_scheme 3 8) [$"f() {"; $"        g();"] = generate_anchors (chunk_scheme 3 8) [$"f() {"; $"  g();"].
Proof.
  assert (LawfulScheme (chunk_scheme 3 8)) as Hs by (apply chunk_lawful; lia). split; [done|].
  destruct (anchors_ignore_white_space (chunk_scheme 3 8) [$"f() {"; $"  g();"]) as [_ H].
  assert (<[1 := $"        " ++ trim_start $"  g();"]> [$"f() {"; $"  g();"] = [$"f() {"; $"        g();"]) as <- by by vm_compute.
  by apply H.
Defined.

(** ** What validation reads *)

(** Validating an anchor reads a window of lines around its line, not longer than the
    scheme says; changes of other lines do not matter. *)
Definition window_bounded (s : AnchorScheme) : Prop :=
  ∀ ls i, i < length ls → ∃ start n,
    start <= i < start + n ∧ start + n <= length ls ∧ n <= validation_window_lines s i (length ls)
    ∧ ∀ p ls', p_line p = S i → length ls' = length ls → take n (drop start ls') = take n (drop start ls) → validate s p ls' = validate s p ls.

Lemma window_lookup (start n i : nat) (ls ls' : list bytes) :
  start <= i < start + n → take n (drop start ls') = take n (drop start ls) → ls' !! i = ls !! i.
Proof.
  intros Hi E. apply (f_equal (lookup (i - start))) in E. rewrite !lookup_take_lt, !lookup_drop in E by lia.
  by replace (start + (i - start)) with i in E by lia.
Qed.

(** Under each of the three schemes, validating an anchor reads at most as many lines
    as the scheme declares: the line itself, the lines of its chunk, or the lines from
    the last checkpoint; a change outside of them leaves the answer as it is. *)
Theorem validation_window (len size : nat) :
  0 < size → window_bounded (content_only len) ∧ window_bounded (chunk_scheme len size) ∧ window_bounded (checkpoint_scheme len size).
Proof.
  intros Hs. split_and!; intros ls i Hi.
  - exists i, 1. simpl. split_and!; [lia..|]. intros p ls' Ep _ E. unfold content_validate, named_line. rewrite Ep.
    by rewrite (window_lookup i 1 i ls ls') by (lia || done).
  - pose proof (Nat.div_mod_eq i size) as Ed. pose proof (Nat.mod_upper_bound i size) as Hm. set (q := i / size) in *.
    exists (q * size), (Nat.min (q * size + size) (length ls) - q * size). simpl. split_and!; [nia|nia|nia|nia|]. intros p ls' Ep El E.
    unfold chunk_validate, named_line, chunk_fingerprint, chunk_hash. rewrite Ep. cbn [Nat.sub]. rewrite Nat.sub_0_r. fold q.
    rewrite El, E. rewrite (window_lookup (q * size) (Nat.min (q * size + size) (length ls) - q * size) i ls ls') by (nia || done). done.
  - pose proof (Nat.div_mod_eq i size) as Ed. pose proof (Nat.mod_upper_bound i size) as Hm. set (q := i / size) in *.
    exists (q * size), (i + 1 - q * size). simpl. fold q. split_and!; [nia|nia|nia|nia|]. intros p ls' Ep El E.
    unfold checkpoint_validate, named_line, checkpoint_fingerprint. rewrite Ep. cbn [Nat.sub]. rewrite Nat.sub_0_r. fold q.
    rewrite E. rewrite (window_lookup (q * size) (i + 1 - q * size) i ls ls') by (nia || done). done.
Qed.

Lemma validation_window_witness : window_bounded (chunk_scheme 3 8) ∧ validation_window_lines (chunk_scheme 3 8) 5 20 = 8.
Proof. split; [|done]. destruct (validation_window 3 8) as (_ & H & _); [lia|exact H]. Defined.

(** ** Anchors as text *)

(** A byte that is not of a class stands in no text of the class. *)
Lemma not_in_class (f : ascii → bool) (c : ascii) (s : bytes) : f c = false → forallb f s = true → c ∉ s.
Proof. intros Hc Hs Hin. rewrite forallb_forall in Hs. specialize (Hs c). rewrite Hs in Hc; [done|by apply list_elem_of_In]. Qed.

Lemma colon_not_in_number (n : nat) : ":"%char ∉ show_nat n.
Proof. apply (not_in_class is_ascii_digit); [done|]. apply show_decimal_digits. Qed.

Lemma colon_not_in_letters (s : bytes) : all_lower s = true → ":"%char ∉ s.
Proof. by apply not_in_class. Qed.

Lemma parse_usize_show (n : nat) : (N.of_nat n < 2 ^ 64)%N → parse_usize (show_nat n) = Some n.
Proof. intros Hn. unfold parse_usize, show_nat. rewrite parse_show_decimal by done. simpl. by rewrite Nat2N.id. Qed.

(** The parsed form of a generated anchor. *)
Definition as_parsed (a : Anchor) : ParsedAnchor := mkParsed (line a) (local a) (context a).

Lemma parse_rendered (a : Anchor) : wellformed a → (N.of_nat (line a) < 2 ^ 64)%N → parse_anchor (render a) = Some (as_parsed a).
Proof.
  destruct a as [n loc ctx]. unfold wellformed, render, as_parsed. cbn [line local context]. intros (Hn & Hne & Hlow & Hctx) Hb.
  assert (show_nat n ≠ []) as Hs by apply show_decimal_digits. pose proof (colon_not_in_letters loc Hlow) as Hc.
  unfold parse_anchor, anchor_parts. destruct ctx as [c|]; unfold render_parts; cbn [app].
  - change ($":" ++ loc ++ $":" ++ c) with (":"%char :: (loc ++ ":"%char :: c)). rewrite split_once_first by apply colon_not_in_number.
    cbn [mbind option_bind]. rewrite split_once_first by done. cbn [mbind option_bind]. destruct (show_nat n) eqn:En; [done|]. rewrite <-En.
    destruct loc as [|x loc]; [done|]. rewrite parse_usize_show by done. cbn [mbind option_bind]. destruct (Nat.eqb_spec n 0); [done|].
    rewrite Hlow. cbn [negb]. destruct (Hctx c eq_refl) as [Hcn ->]. by destruct c.
  - change ($":" ++ loc) with (":"%char :: loc). rewrite split_once_first by apply colon_not_in_number. cbn [mbind option_bind].
    rewrite split_once_absent by done. cbn [mbind option_bind]. destruct (show_nat n) eqn:En; [done|]. rewrite <-En.
    destruct loc as [|x loc]; [done|]. rewrite parse_usize_show by done. cbn [mbind option_bind]. destruct (Nat.eqb_spec n 0); [done|].
    by rewrite Hlow.
Qed.

Section Lawful.
Context (s : AnchorScheme) `{!LawfulScheme s}.

Lemma anchors_length (ls : list bytes) : length (generate_anchors s ls) = length ls.
Proof. by rewrite <-(length_map line), scheme_lines, length_seq. Qed.

(** The anchor of the line [i] counts from one. *)
Lemma anchor_line (ls : list bytes) (i : nat) (a : Anchor) : generate_anchors s ls !! i = Some a → line a = i + 1 ∧ i < length ls ∧ wellformed a.
Proof.
  intros E. pose proof (lookup_lt_Some _ _ _ E) as Hi. rewrite anchors_length in Hi. split_and!; [|done|].
  - pose proof (scheme_lines ls) as Hl. apply (f_equal (lookup i)) in Hl. change (@map Anchor nat) with (@fmap list _ Anchor nat) in Hl.
    rewrite list_lookup_fmap, E, lookup_seq_lt in Hl by done. simpl in Hl. injection Hl as ->. lia.
  - by eapply Forall_lookup_1; [apply (scheme_wellformed ls)|].
Qed.

Lemma anchor_exists (ls : list bytes) (i : nat) : i < length ls → ∃ a, generate_anchors s ls !! i = Some a.
Proof. intros Hi. apply lookup_lt_is_Some_2. by rewrite anchors_length. Qed.

Lemma generated_validates (ls : list bytes) (i : nat) (a : Anchor) : generate_anchors s ls !! i = Some a → validate s (as_parsed a) ls = Valid.
Proof.
  intros E. destruct (anchor_line ls i a E) as (Hl & _ & _). rewrite scheme_validate. unfold anchor_at, as_parsed, agrees. cbn [p_line p_local p_context].
  rewrite Hl, Nat.add_1_r, E, beq_refl. cbn [andb]. destruct (context a); [by rewrite bool_decide_eq_true_2|done].
Qed.
End Lawful.
