(* ===== verification/HashlineLaws.v ===== *)
(** * Laws of editing by anchors

    An anchor the tools show resolves to its line; an anchor resolves exactly when it is
    the one that would be shown; what a stale anchor's error suggests resolves. *)

From S2P Require Import Prelude RustStr StrFind Anchors AnchorLaws HashlineEdit.

#[local] Open Scope nat_scope.

(** ** Arrows *)

(** Bytes of a rendered anchor. *)
Definition anchor_byte (a : ascii) : bool := is_ascii_digit a || is_ascii_lower a || bool_decide (a = ":"%char).

Lemma forallb_weaken (f g : ascii → bool) (s : bytes) : (∀ a, f a = true → g a = true) → forallb f s = true → forallb g s = true.
Proof. intros Hfg. rewrite !forallb_forall. auto. Qed.

Lemma render_bytes (a : Anchor) : wellformed a → forallb anchor_byte (render a) = true.
Proof.
  destruct a as [n loc ctx]. intros (_ & _ & Hlow & Hctx). unfold render, render_parts. cbn [line local context] in *.
  assert (forallb anchor_byte (show_nat n) = true) as Hn.
  { apply (forallb_weaken is_ascii_digit); [|apply show_decimal_digits]. intros a. unfold anchor_byte. by intros ->. }
  assert (∀ s, all_lower s = true → forallb anchor_byte s = true) as Hl.
  { intros s. apply forallb_weaken. intros a. unfold anchor_byte. intros ->. by rewrite orb_true_r. }
  destruct ctx as [c|]; rewrite !forallb_app, Hn, (Hl loc) by done; [|done]. rewrite (Hl c); [done|]. by apply Hctx.
Qed.

Lemma no_arrow (c : ascii) (p s : bytes) : c ∉ s → split_once_str (c :: p) s = None.
Proof.
  intros Hc. destruct (split_once_str (c :: p) s) as [[x y]|] eqn:E; [|done]. exfalso. apply Hc.
  apply split_once_str_Some in E as [-> _]. set_solver.
Qed.

Lemma render_suffix (a : Anchor) : render a = show_nat (line a) ++ $":" ++ anchor_suffix a.
Proof. unfold render, render_parts, anchor_suffix. by destruct (context a). Qed.

(** The anchor the model copied, with or without the line behind it. *)
Lemma strip_arrow_render (a : Anchor) : wellformed a → strip_arrow (render a) = render a.
Proof.
  intros Hw. pose proof (render_bytes a Hw) as Hb. unfold strip_arrow, ARROW. cbn [map].
  change $"->" with ["-"%char; ">"%char]. rewrite !no_arrow; [done|..]; by apply (not_in_class anchor_byte).
Qed.

Lemma strip_arrow_shown (a : Anchor) (text : bytes) : wellformed a → strip_arrow (shown_line (line a) a text) = render a.
Proof.
  intros Hw. pose proof (render_bytes a Hw) as Hb. assert (shown_line (line a) a text = render a ++ ARROW ++ text) as -> by by (unfold shown_line; rewrite render_suffix, <-!app_assoc).
  unfold strip_arrow, ARROW. cbn [map]. rewrite split_once_str_unique; [done|]. by apply (not_in_class anchor_byte).
Qed.

Section Lawful.
Context (s : AnchorScheme) `{!LawfulScheme s}.

(** A text whose lines can be numbered. *)
Definition countable_lines (ls : list bytes) : Prop := (N.of_nat (length ls) < 2 ^ 64)%N.

Lemma resolve_rendered (ls : list bytes) (i : nat) (a : Anchor) (str : bytes) :
  countable_lines ls → generate_anchors s ls !! i = Some a → strip_arrow str = render a → validate_anchor str ls s = Ok i.
Proof.
  intros Hc E Hstr. destruct (anchor_line s ls i a E) as (Hl & Hi & Hw). unfold validate_anchor. rewrite Hstr.
  rewrite parse_rendered; [|done|unfold countable_lines in Hc; lia]. rewrite (generated_validates s ls i) by done.
  unfold as_parsed. cbn [p_line]. f_equal. lia.
Qed.

Lemma shown_resolves (ls : list bytes) (i : nat) (a : Anchor) (text : bytes) :
  countable_lines ls → generate_anchors s ls !! i = Some a →
  validate_anchor (render a) ls s = Ok i ∧ validate_anchor (shown_line (i + 1) a text) ls s = Ok i.
Proof.
  intros Hc E. destruct (anchor_line s ls i a E) as (Hl & _ & Hw). split; apply (resolve_rendered ls i a); try done.
  - by apply strip_arrow_render.
  - rewrite <-Hl. by apply strip_arrow_shown.
Qed.

(** ** What the tools show *)

Lemma window_lookup_line (offset limit : option nat) (ls : list bytes) (k : nat) (il : nat * bytes) :
  window_lines offset limit ls !! k = Some il → il.1 = default 1 offset - 1 + k ∧ ls !! il.1 = Some il.2.
Proof.
  unfold window_lines. intros E. assert (drop (default 1 offset - 1) (imap pair ls) !! k = Some il) as E'.
  { destruct limit as [n|]; [|done]. by apply lookup_take_Some in E as [E _]. }
  rewrite lookup_drop, list_lookup_imap in E'. destruct (ls !! (default 1 offset - 1 + k)) eqn:El; [|done]. by injection E' as <-.
Qed.

(** C21: What reading a file shows, and the snippet an edit answers with, are lines that
    each resolve: a shown line, copied whole with its anchor, arrow and text, names
    exactly the line it shows, and so does its anchor alone, as long as the file is the
    same. *)
Theorem shown_lines_resolve (content : bytes) (offset limit : option nat) :
  countable_lines (split_lines content) →
  ∃ shown, (format_hashline_content content offset limit s).1 = join [newline] shown
    ∧ ∀ k piece, shown !! k = Some piece → ∃ a text,
        let i := default 1 offset - 1 + k in
        split_lines content !! i = Some text ∧ piece = render a ++ ARROW ++ text
        ∧ validate_anchor piece (split_lines content) s = Ok i ∧ validate_anchor (render a) (split_lines content) s = Ok i.
Proof.
  intros Hc. unfold format_hashline_content. cbn [fst]. eexists. split; [reflexivity|]. intros k piece.
  change (@map (nat * bytes) bytes) with (@fmap list _ (nat * bytes) bytes). rewrite list_lookup_fmap.
  destruct (window_lines offset limit (split_lines content) !! k) as [[j l]|] eqn:E; [|done]. apply window_lookup_line in E as [Ej El].
  cbn [fst snd] in *. subst j. pose proof (lookup_lt_Some _ _ _ El) as Hi. destruct (anchor_exists s _ _ Hi) as (a & Ea).
  cbn [fmap option_fmap option_map]. cbn [fst snd]. rewrite Ea. intros [= <-]. exists a, l. destruct (shown_resolves _ _ a l Hc Ea) as [H1 H2].
  destruct (anchor_line s _ _ a Ea) as (Hl & _ & _). split_and!; [done| |done|done].
  unfold shown_line. rewrite <-Hl, render_suffix. by rewrite <-!app_assoc.
Qed.

(** ** Which anchors resolve *)

(** The anchor string is the one of the line [i]. *)
Definition names (str : bytes) (ls : list bytes) (i : nat) : Prop :=
  ∃ a, generate_anchors s ls !! i = Some a ∧
    match parse_anchor (strip_arrow str) with
    | Some p => p_line p = i + 1 ∧ agrees p a = true
    | None => suffix_matches (strip_arrow str) a = true
        ∧ ∀ j b, generate_anchors s ls !! j = Some b → suffix_matches (strip_arrow str) b = true → j = i
    end.

Lemma filter_unique (f : Anchor → bool) (l : list Anchor) (a : Anchor) :
  List.filter f l = [a] ↔ ∃ i, l !! i = Some a ∧ f a = true ∧ ∀ j b, l !! j = Some b → f b = true → j = i.
Proof.
  split.
  - intros E. assert (a ∈ List.filter f l) as Ha by (rewrite E; left). apply list_elem_of_In, filter_In in Ha as [Hin Hf].
    apply list_elem_of_In, list_elem_of_lookup_1 in Hin as [i Hi]. exists i. split_and!; [done..|]. intros j b Hj Hb.
    destruct (decide (j = i)) as [|Hne]; [done|]. exfalso.
    rewrite <-(take_drop_middle l i a) in E by done. rewrite List.filter_app in E. simpl in E. rewrite Hf in E.
    apply (f_equal length) in E. rewrite length_app in E. cbn [length] in E.
    destruct (decide (j < i)).
    + assert (b ∈ List.filter f (take i l)) as Hx by (apply list_elem_of_In, filter_In; split; [|done]; apply list_elem_of_In, (list_elem_of_lookup_2 _ j); by rewrite lookup_take_lt).
      destruct (List.filter f (take i l)); [by apply elem_of_nil in Hx|simpl in E; lia].
    + assert (b ∈ List.filter f (drop (S i) l)) as Hx by (apply list_elem_of_In, filter_In; split; [|done]; apply list_elem_of_In, (list_elem_of_lookup_2 _ (j - S i));
        rewrite lookup_drop; by replace (S i + (j - S i)) with j by lia).
      destruct (List.filter f (drop (S i) l)); [by apply elem_of_nil in Hx|simpl in E; lia].
  - intros (i & Hi & Hf & Hu). rewrite <-(take_drop_middle l i a) by done. rewrite List.filter_app. simpl. rewrite Hf.
    rewrite !filter_none; [done|..]; intros b [j Hj]%list_elem_of_lookup_1; apply not_true_is_false; intros Hb.
    + rewrite lookup_drop in Hj. specialize (Hu _ _ Hj Hb). lia.
    + apply lookup_take_Some in Hj as [Hj Hlt]. specialize (Hu _ _ Hj Hb). lia.
Qed.

(** An anchor resolves to a line exactly when its line number is that line's and its
    hashes are those the line has now; an anchor without a number resolves only when a
    single line has its hashes. *)
Theorem resolution_exact (str : bytes) (ls : list bytes) (i : nat) : validate_anchor str ls s = Ok i ↔ names str ls i.
Proof.
  unfold validate_anchor, names. destruct (parse_anchor (strip_arrow str)) as [p|].
  - rewrite scheme_validate. unfold anchor_at. destruct (p_line p) as [|n] eqn:En.
    { split; [done|]. intros (a & _ & H & _). lia. }
    destruct (generate_anchors s ls !! n) as [a|] eqn:Ea.
    + destruct (agrees p a) eqn:Eg.
      * cbn [Nat.sub]. rewrite Nat.sub_0_r. split.
        -- intros [= <-]. exists a. split_and!; [done|lia|done].
        -- intros (a' & Ea' & H & _). f_equal. lia.
      * split; [done|]. intros (a' & Ea' & H & Hg). assert (n = i) as -> by lia. congruence.
    + split; [done|]. intros (a' & Ea' & H & _). assert (n = i) as -> by lia. congruence.
  - unfold recover_anchor_by_suffix. destruct (List.filter (suffix_matches (strip_arrow str)) (generate_anchors s ls)) as [|a [|b l]] eqn:E.
    + destruct (anchor_format_hint s). split; [done|]. intros (a & Ea & Hf & _). exfalso. apply list_elem_of_lookup_2, list_elem_of_In in Ea.
      assert (In a []) as []. rewrite <-E. by apply filter_In.
    + apply filter_unique in E as (j & Ej & Hf & Hu). change (mkParsed (line a) (local a) (context a)) with (as_parsed a).
      rewrite (generated_validates s ls j) by done. destruct (anchor_line s ls j a Ej) as (Hl & _ & _). unfold as_parsed. cbn [p_line]. split.
      * intros [= <-]. replace (line a - 1) with j by lia. by exists a.
      * intros (a' & Ea' & Hf' & _). f_equal. rewrite <-(Hu _ _ Ea' Hf') in *. lia.
    + destruct (anchor_format_hint s). split; [done|]. intros (c & Ec & Hf & Hu). exfalso.
      assert (List.filter (suffix_matches (strip_arrow str)) (generate_anchors s ls) = [c]) as E' by (apply filter_unique; by exists i). congruence.
Qed.

(** ** Stale anchors *)

(** The content of a stale anchor is at the line [n] now: it is another line nearby, with
    the anchor's hash and, when the anchor has one, its fingerprint. *)
Definition shifted_here (p : ParsedAnchor) (ls : list bytes) (n : nat) : Prop :=
  n ≠ p_line p - 1 ∧ p_line p - 1 - DEFAULT_SEARCH_RADIUS <= n <= p_line p - 1 + DEFAULT_SEARCH_RADIUS
  ∧ ∃ a, generate_anchors s ls !! n = Some a ∧ local a = p_local p ∧ (p_context p = None ∨ agrees p a = true).

Lemma is_candidate_spec (p : ParsedAnchor) (ls : list bytes) (n : nat) :
  is_candidate (hash_len s) (validate s) p ls n = true ↔
  n ≠ p_line p - 1 ∧ ∃ a, generate_anchors s ls !! n = Some a ∧ local a = p_local p ∧ (p_context p = None ∨ agrees p a = true).
Proof.
  unfold is_candidate. destruct (Nat.eqb_spec n (p_line p - 1)) as [|Hn]; [naive_solver|]. destruct (ls !! n) as [l|] eqn:El.
  - destruct (anchor_exists s ls n) as (a & Ea); [by eapply lookup_lt_Some|]. pose proof (scheme_local ls n a l Ea El) as Hloc. rewrite <-Hloc.
    destruct (local a =b p_local p) eqn:Ep; [apply beq_true in Ep|apply beq_false in Ep]; cbn [negb].
    + destruct (p_context p) as [c|] eqn:Ec; [|split; [intros _; split; [done|]; exists a; by auto|done]].
      rewrite bool_decide_eq_true, scheme_validate. unfold anchor_at, agrees. cbn [p_line p_local p_context]. rewrite Nat.add_1_r, Ea, beq_refl. cbn [andb]. rewrite Ec. split.
      * intros Hv. split; [done|]. exists a. split_and!; [done..|]. right. rewrite Ep, beq_refl. cbn [andb].
        destruct (context a); [|done]. by destruct (bool_decide _).
      * intros (_ & a' & Ea' & _ & [?|Hg]); [done|]. injection Ea' as <-. apply andb_true_iff in Hg as [_ ->]. done.
    + split; [done|]. intros (_ & a' & Ea' & H & _). rewrite Ea in Ea'. by injection Ea' as <-.
  - split; [done|]. intros (_ & a & Ea & _). apply anchor_line in Ea as (_ & Hi & _); [|done]. apply lookup_lt_is_Some_2 in Hi as [? ?]. congruence.
Qed.

Lemma candidates_spec (p : ParsedAnchor) (ls : list bytes) (n : nat) :
  let start := p_line p - 1 - DEFAULT_SEARCH_RADIUS in
  let end_ := Nat.min (p_line p - 1 + DEFAULT_SEARCH_RADIUS + 1) (length ls) in
  n ∈ List.filter (is_candidate (hash_len s) (validate s) p ls) (seq start (end_ - start)) ↔ shifted_here p ls n.
Proof.
  cbv zeta. rewrite list_elem_of_In, filter_In, in_seq, is_candidate_spec. unfold shifted_here. split; [intuition lia|].
  intros (Hn & Hr & a & Ea & Ha). destruct (anchor_line s ls n a Ea) as (_ & Hi & _). split; [lia|]. split; [done|]. by exists a.
Qed.

(** What the search reports. *)
Lemma find_shifted_spec (p : ParsedAnchor) (ls : list bytes) :
  match find_shifted s p ls DEFAULT_SEARCH_RADIUS with
  | Found k => ∃ n, k = n + 1 ∧ ∀ m, shifted_here p ls m ↔ m = n
  | Ambiguous ns => 2 <= length ns ∧ NoDup ns ∧ ∀ k, k ∈ ns ↔ ∃ m, k = m + 1 ∧ shifted_here p ls m
  | NotFound => ∀ m, ¬ shifted_here p ls m
  end.
Proof.
  rewrite scheme_shifted. unfold find_shifted_generic. pose proof (candidates_spec p ls) as Hc. cbv zeta in Hc.
  set (l := List.filter _ _) in *. assert (NoDup l) as Hnd by (apply NoDup_ListNoDup, List.NoDup_filter, seq_NoDup). clearbody l.
  destruct l as [|n [|m l]]; cbn [map].
  - intros m Hm%Hc. by apply elem_of_nil in Hm.
  - exists n. split; [lia|]. intros m. rewrite <-Hc. apply list_elem_of_singleton.
  - split; [simpl; lia|]. change (S n :: S m :: map S l) with (S <$> n :: m :: l). split; [by apply NoDup_fmap_2; [apply _|]|].
    intros k. rewrite list_elem_of_fmap. setoid_rewrite <-Hc. split; intros (j & -> & Hj); exists j; (split; [lia|done]).
Qed.

(** The lines of a context, as shown. *)
Lemma fresh_context_shown (ls : list bytes) (from to : nat) :
  countable_lines ls → to <= length ls →
  ∃ shown, fresh_context s ls from to = join [newline] shown ∧ length shown = to - from
    ∧ ∀ k piece, shown !! k = Some piece → validate_anchor piece ls s = Ok (from + k).
Proof.
  intros Hc Hto. unfold fresh_context. eexists. split; [reflexivity|].
  assert (∀ n a, a + n <= length ls → ∃ shown, omap (fun i => a ← generate_anchors s ls !! i; l ← ls !! i; Some (render_anchored_line a l)) (seq a n) = shown
    ∧ length shown = n ∧ ∀ k piece, shown !! k = Some piece → validate_anchor piece ls s = Ok (a + k)) as Hgo.
  { induction n as [|n IH]; intros a Ha; [by exists []|]. destruct (anchor_exists s ls a) as (x & Ex); [lia|].
    destruct (lookup_lt_is_Some_2 ls a) as [l El]; [lia|]. destruct (IH (S a)) as (shown & E & Hlen & Hk); [lia|].
    exists (render_anchored_line x l :: shown). cbn [seq omap list_omap]. rewrite Ex, El. cbn [mbind option_bind]. split; [by rewrite <-E|]. split; [by simpl; lia|].
    intros [|k] piece; [|intros Hp; rewrite (Hk k piece) by done; f_equal; lia]. intros [= <-]. rewrite Nat.add_0_r.
    unfold render_anchored_line. destruct (anchor_line s ls a x Ex) as (-> & _ & _). by apply shown_resolves. }
  destruct (decide (from <= to)) as [Hft|Hft].
  - destruct (Hgo (to - from) from) as (shown & -> & Hlen & Hk); [lia|]. done.
  - replace (to - from) with 0 by lia. done.
Qed.

(** C40: When a stale anchor is rejected, the error suggests another anchor exactly when
    the content can be at one line nearby only, and the suggested anchor resolves to
    that line; every line of the context in the error resolves to itself. *)
Theorem stale_error_helps (str : bytes) (p : ParsedAnchor) (ls : list bytes) (e : HashlineEditError) :
  countable_lines ls → parse_anchor (strip_arrow str) = Some p → validate s p ls = Stale → validate_anchor str ls s = Err e →
  match shifted_anchor e with
  | Some fresh => ∃ n, (∀ m, shifted_here p ls m ↔ m = n) ∧ shifted_to e = Some (n + 1) ∧ validate_anchor fresh ls s = Ok n
  | None => ∀ n, ¬ ∀ m, shifted_here p ls m ↔ m = n
  end
  ∧ ∃ from shown, context_start_line e = Some (from + 1) ∧ error_context e = Some (join [newline] shown)
    ∧ ∀ k piece, shown !! k = Some piece → validate_anchor piece ls s = Ok (from + k).
Proof.
  intros Hc Ep Ev. unfold validate_anchor. rewrite Ep, Ev. intros [= <-]. unfold stale_error.
  destruct (fresh_context_shown ls (p_line p - 1 - 5) (Nat.min (p_line p + 5) (length ls)) Hc) as (shown & Ectx & _ & Hshown); [lia|].
  pose proof (find_shifted_spec p ls) as Hf.
  destruct (find_shifted s p ls DEFAULT_SEARCH_RADIUS) as [k|ns|]; cbn [shifted_anchor shifted_to context_start_line error_context]; rewrite Ectx.
  - destruct Hf as (n & -> & Hn). split; [|by eexists _, shown]. exists n. split; [done|]. split; [done|].
    destruct (proj2 (Hn n) eq_refl) as (_ & _ & a & Ea & _). destruct (anchor_line s ls n a Ea) as (Hl & _ & Hw).
    unfold fresh_anchor. rewrite Nat.add_1_r, Ea. assert (show_nat (S n) ++ $":" ++ anchor_suffix a = render a) as -> by (rewrite render_suffix, Hl; do 2 f_equal; lia).
    by apply shown_resolves.
  - destruct Hf as (H2 & Hnd & Hns). split; [|by eexists _, shown]. intros n Hn.
    destruct ns as [|x [|y ns]]; simpl in H2; [lia..|]. apply NoDup_cons in Hnd as [Hx _]. apply Hx.
    destruct (proj1 (Hns x)) as (i & -> & ->%Hn); [left|]. destruct (proj1 (Hns y)) as (j & -> & ->%Hn); [right; left|]. left.
  - split; [|by eexists _, shown]. intros n Hn. apply (Hf n), Hn. done.
Qed.

End Lawful.

(** ** Runs *)

Definition sample : list bytes := [$"fn f() {"; $"    g();"; $"}"].

Definition sample_scheme : AnchorScheme := chunk_scheme 3 8.

#[export] Instance sample_lawful : LawfulScheme sample_scheme.
Proof. apply chunk_lawful; lia. Qed.

Lemma shown_lines_resolve_witness :
  ∃ shown, (format_hashline_content (join [newline] sample) None None sample_scheme).1 = join [newline] shown.
Proof.
  destruct (shown_lines_resolve sample_scheme (join [newline] sample) None None) as (shown & E & _); [by vm_compute|]. by exists shown.
Defined.

Lemma resolution_exact_witness : ∃ str, validate_anchor str sample sample_scheme = Ok 1 ∧ names sample_scheme str sample 1.
Proof.
  exists $"2:gew:bbn". assert (validate_anchor $"2:gew:bbn" sample sample_scheme = Ok 1) as H by by vm_compute.
  split; [done|]. by apply (resolution_exact sample_scheme).
Defined.

Lemma stale_error_helps_witness :
  ∃ e fresh, validate_anchor $"1:gew:bbn" sample sample_scheme = Err e ∧ shifted_anchor e = Some fresh ∧ validate_anchor fresh sample sample_scheme = Ok 1.
Proof.
  destruct (validate_anchor $"1:gew:bbn" sample sample_scheme) as [|e] eqn:E; [by vm_compute in E|].
  destruct (stale_error_helps sample_scheme $"1:gew:bbn" (mkParsed 1 $"gew" (Some $"bbn")) sample e) as [H _]; [by vm_compute|by vm_compute|by vm_compute|done|].
  destruct (shifted_anchor e) as [fresh|] eqn:Ef; [|by vm_compute in E; injection E as <-].
  destruct H as (n & Hn & Hto & Hv). assert (shifted_to e = Some 2) as H2 by (vm_compute in E; by injection E as <-).
  rewrite H2 in Hto. injection Hto as Hto. exists e, fresh. split_and!; [done..|]. by replace 1 with n by lia.
Defined.
