(* ===== verification/HashlineClaims.v ===== *)
(** * What a batch of anchor edits does

    A batch is all or nothing, and what it does is to rewrite disjoint stretches of
    lines, in the order of the lines and, at one place, of the request. *)

From S2P Require Import Prelude RustStr StrFind TextLines Anchors AnchorLaws HashlineEdit HashlineLaws.

#[local] Open Scope nat_scope.

(** ** Resolved edits *)

Definition edit_of (op : ResolvedOp) : nat * nat * list bytes := (op_start op, op_end op - op_start op, new_lines op).

Definition in_text (ls : list bytes) (op : ResolvedOp) : Prop := op_start op <= op_end op <= length ls.

(** The order of the lines, and of the request at one place. *)
Definition above (a b : ResolvedOp) : Prop :=
  op_start a < op_start b ∨ (op_start b = op_start a ∧ original_idx a <= original_idx b).

(** The edit [a] ends where [b] starts, or before. *)
Definition disjoint_above (a b : ResolvedOp) : Prop := op_end a <= op_start b.

#[export] Instance applied_before_total : Total applied_before.
Proof. intros a b. unfold applied_before. lia. Qed.
#[export] Instance applied_before_trans : Transitive applied_before.
Proof. intros a b c. unfold applied_before. lia. Qed.

Lemma sorted_reverse {A} (R : A → A → Prop) (l : list A) : StronglySorted R l → StronglySorted (fun a b => R b a) (reverse l).
Proof.
  induction 1 as [|x l Hl IH Hx]; [constructor|]. rewrite reverse_cons. apply StronglySorted_app. split_and!; [|done|by repeat constructor].
  intros a b Ha Hb. apply list_elem_of_singleton in Hb as ->. rewrite Forall_forall in Hx. apply Hx. by apply elem_of_reverse.
Qed.

(** Sorted elements with distinct keys are also sorted by what holds of two of them. *)
Lemma sorted_pairs {A B} (R Q : A → A → Prop) (key : A → B) (l : list A) :
  StronglySorted R l → NoDup (map key l) → (∀ a b, a ∈ l → b ∈ l → key a ≠ key b → R a b → Q a b) → StronglySorted Q l.
Proof.
  induction 1 as [|x l Hl IH Hx]; intros Hnd Hq; [constructor|]. cbn [map] in Hnd. apply NoDup_cons in Hnd as [Hn Hnd]. constructor.
  - apply IH; [done|]. intros a b Ha Hb. apply Hq; by right.
  - rewrite Forall_forall in *. intros y Hy. apply Hq; [left|by right| |by apply Hx].
    intros E. apply Hn. rewrite E. by apply list_elem_of_fmap_2.
Qed.

(** ** Overlaps *)

Lemma ranges_disjoint (rs : list (nat * nat * nat)) :
  ranges_overlap rs = None → Forall (fun r => r.1.1 < r.1.2) rs → StronglySorted (fun a b => a.1.2 <= b.1.1) rs.
Proof.
  induction rs as [|a rs IH]; intros E Hf; [constructor|]. inversion Hf as [|? ? Ha Hrs]; subst. destruct rs as [|b rs]; [by repeat constructor|].
  change (ranges_overlap (a :: b :: rs)) with (if b.1.1 <? a.1.2 then Some (overlap_error a b) else ranges_overlap (b :: rs)) in E.
  destruct (Nat.ltb_spec b.1.1 a.1.2) as [|Hab]; [done|]. specialize (IH E Hrs). constructor; [done|].
  inversion IH as [|? ? _ Hb]; subst. inversion Hrs as [|? ? Hb' _]; subst. constructor; [done|]. eapply Forall_impl; [exact Hb|]. simpl. lia.
Qed.

Lemma insertion_outside (ops : list ResolvedOp) (rs : list (nat * nat * nat)) (op : ResolvedOp) (r : nat * nat * nat) :
  insertion_overlap ops rs = None → op ∈ ops → op_start op = op_end op → r ∈ rs → ¬ (r.1.1 <= op_start op < r.1.2).
Proof.
  induction ops as [|o ops IH]; intros E Hin Hop Hr; [by apply elem_of_nil in Hin|]. cbn [insertion_overlap] in E.
  apply elem_of_cons in Hin as [->|Hin].
  - unfold is_insertion in E. rewrite (proj2 (Nat.eqb_eq _ _) Hop) in E. cbn [negb] in E.
    destruct (List.find (holds_point (op_start o)) rs) eqn:Ef; [done|]. apply list_elem_of_In in Hr. pose proof (List.find_none _ _ Ef _ Hr) as Hn.
    unfold holds_point in Hn. intros [H1 H2]. rewrite (proj2 (Nat.leb_le _ _) H1), (proj2 (Nat.ltb_lt _ _) H2) in Hn. done.
  - destruct (negb (is_insertion o)); [by apply IH|]. destruct (List.find (holds_point (op_start o)) rs); [done|by apply IH].
Qed.

Lemma sorted_either {A} (Q : A → A → Prop) (l : list A) (x y : A) : StronglySorted Q l → x ∈ l → y ∈ l → x ≠ y → Q x y ∨ Q y x.
Proof.
  induction 1 as [|z l Hl IH Hz]; intros Hx Hy Hne; [by apply elem_of_nil in Hx|]. rewrite Forall_forall in Hz.
  apply elem_of_cons in Hx as [->|Hx], Hy as [->|Hy]; [done|left; by apply Hz|right; by apply Hz|by apply IH].
Qed.

Lemma overlaps_none (ops : list ResolvedOp) (ls : list bytes) (a b : ResolvedOp) :
  check_overlaps ops = None → Forall (in_text ls) ops → a ∈ ops → b ∈ ops → original_idx a ≠ original_idx b → above a b → disjoint_above a b.
Proof.
  unfold check_overlaps. set (rs := sort_by_key _ _). intros E Hf Ha Hb Hne Hab. destruct (ranges_overlap rs) eqn:Er; [done|].
  rewrite Forall_forall in Hf. pose proof (Hf a Ha) as Hia. pose proof (Hf b Hb) as Hib. unfold in_text, above, applied_before, disjoint_above in *.
  assert (∀ op, op ∈ ops → op_start op < op_end op → range_of op ∈ rs) as Hin.
  { intros op Hop Hlt. unfold rs. apply sort_by_key_elem, list_elem_of_fmap_2, list_elem_of_In, filter_In. split; [by apply list_elem_of_In|].
    unfold is_insertion. by rewrite (proj2 (Nat.eqb_neq _ _)) by lia. }
  destruct (decide (op_start a = op_end a)) as [|Hra]; [lia|]. destruct (decide (op_start b = op_end b)) as [Hrb|Hrb].
  - pose proof (insertion_outside _ _ _ _ E Hb Hrb (Hin a Ha ltac:(lia))) as Hn. unfold range_of in Hn. simpl in Hn. lia.
  - apply ranges_disjoint in Er.
    + destruct (sorted_either _ _ (range_of a) (range_of b) Er) as [H|H]; [apply Hin; [done|lia]..| | |]; unfold range_of in *; simpl in *; [congruence|lia|lia].
    + apply Forall_forall. intros r Hr. unfold rs in Hr. apply sort_by_key_elem in Hr. apply list_elem_of_fmap in Hr as (op & -> & Hop).
      apply list_elem_of_In, filter_In in Hop as [Hop Hi]. apply list_elem_of_In, Hf in Hop. unfold is_insertion in Hi.
      destruct (Nat.eqb_spec (op_start op) (op_end op)); [done|]. unfold range_of. simpl. lia.
Qed.

(** ** Splicing *)

Lemma sorted_chain (ls : list bytes) (pos : nat) (ops : list ResolvedOp) :
  StronglySorted disjoint_above ops → Forall (in_text ls) ops → Forall (fun op => pos <= op_start op) ops → pos <= length ls →
  chain pos (length ls) (map edit_of ops).
Proof.
  intros Hs. revert pos. induction Hs as [|op ops Hs IH Hop]; intros pos Hf Hp Hl; [done|].
  inversion Hf as [|? ? Hi Hfs]; subst. inversion Hp as [|? ? Hpo _]; subst. unfold in_text in Hi. cbn [map chain edit_of]. split; [done|].
  replace (op_start op + (op_end op - op_start op)) with (op_end op) by lia. apply IH; [done|exact Hop|lia].
Qed.

Lemma splice_chain (ls : list bytes) (pos : nat) (ops : list ResolvedOp) :
  Forall (in_text ls) ops → chain pos (length ls) (map edit_of ops) →
  splice_all ls (reverse ops) = Some (take pos ls ++ rewritten pos ls (map edit_of ops)).
Proof.
  revert pos. induction ops as [|op ops IH]; intros pos Hf Hc; [simpl; by rewrite take_drop|].
  inversion Hf as [|? ? Hi Hfs]; subst. unfold in_text in Hi. cbn [map chain edit_of] in Hc. destruct Hc as [Hp Hc].
  replace (op_start op + (op_end op - op_start op)) with (op_end op) in Hc by lia.
  assert (∀ l x y, splice_all x (l ++ [y]) = (x' ← splice_all x l; splice_op x' y)) as Happ.
  { clear. intros l. induction l as [|z l IH]; intros x y; simpl; [by destruct (splice_op x y)|]. destruct (splice_op x z); [apply IH|done]. }
  rewrite reverse_cons, Happ, (IH _ Hfs Hc). cbn [mbind option_bind]. unfold splice_op.
  assert (length (take (op_end op) ls) = op_end op) as Hlt by (rewrite length_take; lia).
  rewrite (proj2 (Nat.leb_le _ _)) by lia. rewrite (proj2 (Nat.leb_le _ _)) by (rewrite length_app; lia). cbn [andb]. f_equal.
  rewrite take_app_le, take_take, Nat.min_l by lia. rewrite drop_app_ge, Hlt, Nat.sub_diag, drop_0 by lia. cbn [map rewritten edit_of].
  replace (op_start op + (op_end op - op_start op)) with (op_end op) by lia.
  assert (take (op_start op) ls = take pos ls ++ take (op_start op - pos) (drop pos ls)) as -> by (rewrite take_take_drop; f_equal; lia).
  by rewrite <-!app_assoc.
Qed.

(** ** Details *)

(** The detail of an edit in the text [out]: what is put there stands where the detail
    says, and what was there stood where it says. *)
Definition located (ls out : list bytes) (op : ResolvedOp) (d : EditRegionDetail) : Prop :=
  old_line d = op_start op + 1 ∧ old_text d = join [newline] (take (op_end op - op_start op) (drop (old_line d - 1) ls))
  ∧ new_text d = join [newline] (new_lines op) ∧ take (length (new_lines op)) (drop (new_line d - 1) out) = new_lines op.

Lemma details_located (ls pre : list bytes) (pos : nat) (shift : Z) (ops : list ResolvedOp) :
  Forall (in_text ls) ops → chain pos (length ls) (map edit_of ops) → Z.of_nat (length pre) = (Z.of_nat pos + shift)%Z →
  Forall2 (located ls (pre ++ rewritten pos ls (map edit_of ops))) ops (map snd (regions_of ls shift ops)).
Proof.
  revert pre pos shift. induction ops as [|op ops IH]; intros pre pos shift Hf Hc Hpre; [constructor|].
  inversion Hf as [|? ? Hi Hfs]; subst. unfold in_text in Hi. cbn [map chain edit_of] in Hc. destruct Hc as [Hp Hc].
  cbn [map regions_of snd edit_of rewritten]. replace (op_start op + (op_end op - op_start op)) with (op_end op) in * by lia.
  set (mid := take (op_start op - pos) (drop pos ls)).
  assert (length mid = op_start op - pos) as Hmid by (unfold mid; rewrite length_take, length_drop; lia).
  assert (Z.to_nat (Z.of_nat (op_start op) + shift) = length (pre ++ mid)) as Ep by (rewrite length_app; lia).
  assert (pre ++ mid ++ new_lines op ++ rewritten (op_end op) ls (map edit_of ops)
    = ((pre ++ mid) ++ new_lines op) ++ rewritten (op_end op) ls (map edit_of ops)) as Eout by by rewrite <-!app_assoc.
  constructor.
  - unfold located. cbn [old_line old_text new_line new_text]. rewrite !Nat.add_sub. split_and!; [done| |done|].
    + destruct (Nat.ltb_spec (op_start op) (op_end op)); [by rewrite (proj2 (Nat.leb_le _ _)) by lia|].
      cbn [andb]. by replace (op_end op - op_start op) with 0 by lia.
    + rewrite Ep, app_assoc, drop_app_length. by rewrite take_app_length.
  - rewrite Eout. apply IH; [done|done|]. rewrite !length_app. rewrite Nat2Z.inj_add, Nat2Z.inj_add, Hmid. lia.
Qed.

(** ** Texts *)

Lemma strip_ends_join (ps : list bytes) :
  Forall (fun w => carriage_return ∉ w) ps → ps ≠ [] →
  strip_line_ends ps ++ (if bool_decide (last ps = Some []) then [[]] else []) = ps.
Proof.
  induction 1 as [|w ps Hw Hps IH]; [done|]. intros _. destruct ps as [|v ps].
  - cbn [strip_line_ends last]. destruct w as [|x w]; [done|]. by rewrite bool_decide_eq_false_2.
  - specialize (IH ltac:(done)). change (last (w :: v :: ps)) with (last (v :: ps)).
    change (strip_line_ends (w :: v :: ps)) with (default w (strip_suffix [carriage_return] w) :: strip_line_ends (v :: ps)).
    cbn [app]. rewrite IH. f_equal. destruct (strip_suffix [carriage_return] w) as [r|] eqn:E; [|done].
    apply strip_suffix_Some in E as ->. exfalso. apply Hw. set_solver.
Qed.

Lemma split_lines_on (content : bytes) : carriage_return ∉ content → split_lines content = split_on newline content.
Proof.
  intros Hc. unfold split_lines. destruct content as [|x content]; [done|]. set (c := x :: content) in *. unfold lines.
  rewrite <-(strip_ends_join (split_on newline c)) at 2; [| |apply split_on_nonempty].
  - by rewrite last_piece.
  - apply Forall_forall. intros w Hw Hin. apply Hc. rewrite <-(join_split_on newline c). by eapply elem_of_join.
Qed.

(** ** Resolution *)

Section Lawful.
Context (s : AnchorScheme) `{!LawfulScheme s}.

Lemma resolved_in_text (str : bytes) (ls : list bytes) (i : nat) : validate_anchor str ls s = Ok i → i < length ls.
Proof.
  unfold validate_anchor. destruct (match parse_anchor (strip_arrow str) with Some p => Some p | None => _ end) as [p|]; [|by destruct (anchor_format_hint s)].
  rewrite scheme_validate. unfold anchor_at. destruct (p_line p) as [|n]; [done|]. destruct (generate_anchors s ls !! n) as [a|] eqn:Ea; [|done].
  destruct (agrees p a); [|done]. intros [= <-]. destruct (anchor_line s ls n a Ea) as (_ & Hi & _). lia.
Qed.

Lemma resolve_op_in_text (op : HashlineOp) (idx : nat) (ls : list bytes) (r : ResolvedOp) :
  resolve_op op idx ls s = Ok r → in_text ls r ∧ original_idx r = idx.
Proof.
  unfold resolve_op, in_text. destruct op as [anchor ea content|anchor content|content]; [| |done].
  - destruct (validate_anchor anchor ls s) as [i|] eqn:Ei; [|done]. apply resolved_in_text in Ei.
    assert (∀ e, (match ea with
             | None => Ok (i + 1)
             | Some ea => match validate_anchor ea ls s with
                          | Ok e => if e <? i then Err (plain_error InvalidInput ($"end_anchor line " ++ show_nat (e + 1) ++ $" is before start anchor line " ++ show_nat (i + 1) ++ $".") (Some ea)) else Ok (e + 1)
                          | Err e => Err e
                          end
             end) = Ok e → i <= e <= length ls) as He.
    { intros e. destruct ea as [ea|]; [|intros [= <-]; lia]. destruct (validate_anchor ea ls s) as [j|] eqn:Ej; [|done].
      apply resolved_in_text in Ej. destruct (Nat.ltb_spec j i); [done|]. intros [= <-]. lia. }
    cbv zeta. destruct (match ea with None => _ | Some _ => _ end) as [e|]; [|done]. specialize (He e eq_refl).
    destruct (detect_anchor_prefix_in_content content); [done|]. intros [= <-]. simpl. split; [lia|done].
  - set (at_ := if anchor =b $"0:" then _ else _). cbv zeta. destruct at_ as [i|] eqn:Ei; [|done].
    assert (i <= length ls) as Hi.
    { unfold at_ in Ei. destruct (anchor =b $"0:"); [injection Ei as <-; lia|]. destruct (anchor =b $"EOF").
      - injection Ei as <-. unfold insertion_point. destruct (_ && _); lia.
      - destruct (validate_anchor anchor ls s) as [j|] eqn:Ej; [|done]. apply resolved_in_text in Ej. injection Ei as <-. lia. }
    destruct (detect_anchor_prefix_in_content content); [done|]. intros [= <-]. simpl. split; [lia|done].
Qed.

Lemma resolve_all_spec (idx total : nat) (ops : list HashlineOp) (ls : list bytes) (rs : list ResolvedOp) :
  resolve_all idx total ops ls s = Ok rs →
  length rs = length ops ∧ (∀ k op, ops !! k = Some op → ∃ r, rs !! k = Some r ∧ resolve_op op (idx + k) ls s = Ok r)
  ∧ Forall (in_text ls) rs ∧ map original_idx rs = seq idx (length rs).
Proof.
  revert idx rs. induction ops as [|op ops IH]; intros idx rs; cbn [resolve_all]; [intros [= <-]; split_and!; [done|by intros|done|done]|].
  destruct (resolve_op op idx ls s) as [r|] eqn:Er; [|done]. destruct (resolve_all (idx + 1) total ops ls s) as [rs'|] eqn:Ers; [|done].
  intros [= <-]. destruct (IH _ _ Ers) as (Hlen & Hk & Hf & Hidx). destruct (resolve_op_in_text op idx ls r Er) as [Hin Ho]. split_and!.
  - simpl. by rewrite Hlen.
  - intros [|k] o; [intros [= <-]; exists r; by rewrite Nat.add_0_r|]. intros Ho'. destruct (Hk k o Ho') as (x & Hx & Ex).
    exists x. split; [done|]. by replace (idx + S k) with (idx + 1 + k) by lia.
  - by constructor.
  - cbn [map length seq]. rewrite Ho, Hidx. by rewrite Nat.add_1_r.
Qed.

(** ** Batches *)

(** The operations resolve one by one to [rs], and [order] is their order in the text:
    they lie one behind the other. *)
Definition resolves_to (ls : list bytes) (ops : list HashlineOp) (order : list ResolvedOp) : Prop :=
  ∃ rs, length rs = length ops ∧ (∀ k op, ops !! k = Some op → ∃ r, rs !! k = Some r ∧ resolve_op op k ls s = Ok r)
    ∧ order ≡ₚ rs ∧ StronglySorted above order ∧ chain 0 (length ls) (map edit_of order).

Definition is_write (ops : list HashlineOp) : Prop := ∃ new, ops = [Write new].

(** Rejected as a whole. *)
Definition untouched (r : ApplyResult) : Prop := ∃ e, r = rejected e.

Lemma apply_batch (content path : bytes) (ops : list HashlineOp) :
  let ls := split_lines content in
  ¬ is_write ops → ∃ r, apply_edits content ops path s = Some r ∧
    (untouched r ∨ ∃ order a, resolves_to ls ops order ∧ output r = EditsApplied a
      ∧ new_content r = Some (join [newline] (rewritten 0 ls (map edit_of order)))
      ∧ edit_details r = map snd (regions_of ls 0 order) ∧ Forall (in_text ls) order).
Proof.
  cbv zeta. set (ls := split_lines content). intros Hw.
  assert (apply_edits content ops path s = match resolve_all 0 (length ops) ops ls s with
    | Err e => Some (rejected e)
    | Ok resolved => match check_overlaps resolved with
        | Some e => Some (rejected (if 1 <? length ops then
            with_message (message e ++ blank_line ++ $"This batch contained " ++ show_nat (length ops)
              ++ $" edits. Because of the overlap, none were applied. Fix the overlapping ranges and retry all edits.") e else e))
        | None =>
            let found := regions_of ls 0 (reverse (merge_sort applied_before resolved)) in
            let regions := sort_by_key fst (map fst found) in
            result_lines ← splice_all ls (merge_sort applied_before resolved);
            let new := join [newline] result_lines in
            Some (mkApplyResult
              (EditsApplied (mkApplied (length ops) (scheme_name s) (match head regions with Some r => r.1 - SNIPPET_CONTEXT + 1 | None => 1 end)
                (build_snippet new regions (length (split_lines new)) s) path (omap (fun op => range_warning (op_start op) (op_end op)) resolved)))
              (Some new) (map snd found))
        end
    end) as ->.
  { unfold apply_edits. destruct ops as [|[a e c|a c|c] [|op ops]]; try done. exfalso. apply Hw. by exists c. }
  destruct (resolve_all 0 (length ops) ops ls s) as [rs|e] eqn:Er; [|eexists; split; [done|]; left; by eexists].
  destruct (check_overlaps rs) as [e|] eqn:Eo; [eexists; split; [done|]; left; by eexists|].
  destruct (resolve_all_spec 0 (length ops) ops ls rs Er) as (Hlen & Hk & Hf & Hidx).
  set (order := reverse (merge_sort applied_before rs)).
  assert (order ≡ₚ rs) as Hperm by (unfold order; by rewrite reverse_Permutation, merge_sort_Permutation).
  assert (Forall (in_text ls) order) as Hfo by by rewrite Hperm.
  assert (StronglySorted above order) as Hs by (apply (sorted_reverse applied_before), StronglySorted_merge_sort; apply _).
  assert (NoDup (map original_idx order)) as Hnd.
  { change (@map ResolvedOp nat) with (@fmap list _ ResolvedOp nat). rewrite Hperm. change (@fmap list _ ResolvedOp nat) with (@map ResolvedOp nat).
    rewrite Hidx. apply NoDup_ListNoDup, seq_NoDup. }
  assert (StronglySorted disjoint_above order) as Hd.
  { apply (sorted_pairs above disjoint_above original_idx); [done..|]. intros a b Ha Hb Hne Hab.
    apply (overlaps_none rs ls); [done..|by rewrite <-Hperm|by rewrite <-Hperm|done|done]. }
  assert (chain 0 (length ls) (map edit_of order)) as Hc by (apply sorted_chain; [done..|apply Forall_forall; lia|lia]).
  assert (merge_sort applied_before rs = reverse order) as Emerge by (unfold order; by rewrite reverse_involutive).
  rewrite Emerge, (splice_chain ls 0 order Hfo Hc). cbn [mbind option_bind take app].
  eexists. split; [done|]. right. exists order. eexists. split_and!; [exists rs; by split_and!|done..].
Qed.

Lemma is_write_or_not (ops : list HashlineOp) : is_write ops ∨ ¬ is_write ops.
Proof. destruct ops as [|[a e c|a c|c] [|op ops]]; try (right; by intros [? ?]). left. by exists c. Qed.

Lemma apply_write (content new path : bytes) :
  ∃ r, apply_edits content [Write new] path s = Some r ∧ (untouched r ∨ ∃ a, output r = EditsApplied a ∧ new_content r = Some new).
Proof.
  cbn [apply_edits]. eexists. split; [done|]. destruct (detect_anchor_prefix_in_content new); [left; by eexists|]. right. by eexists.
Qed.

(** What the tool builds on: an answer, with a new text exactly when edits were applied. *)
Lemma apply_total (content path : bytes) (ops : list HashlineOp) :
  ∃ r, apply_edits content ops path s = Some r ∧ (untouched r ∨ ∃ a new, output r = EditsApplied a ∧ new_content r = Some new).
Proof.
  destruct (is_write_or_not ops) as [[new ->]|Hw].
  - destruct (apply_write content new path) as (r & Er & Hr). exists r. naive_solver.
  - destruct (apply_batch content path ops Hw) as (r & Er & Hr). exists r. split; [done|].
    destruct Hr as [Hu|(order & a & _ & Ha & Hn & _)]; [by left|]. right. by eexists _, _.
Qed.

(** The answer names the file it was given. *)
Lemma apply_path (content path : bytes) (ops : list HashlineOp) (r : ApplyResult) (a : HashlineEditsApplied) :
  apply_edits content ops path s = Some r → output r = EditsApplied a → absolute_path a = path.
Proof.
  unfold apply_edits, build_write_result. intros E Ha. repeat case_match; simplify_eq; try done.
  7: by injection Ha as <-.
  all: match goal with E : splice_all ?a ?b ≫= _ = Some _ |- _ => destruct (splice_all a b); [injection E as <-; by injection Ha as <-|done] end.
Qed.

(** C19: Applying a batch never panics.  It is all or nothing: either no text comes out
    and the answer is an error, or every operation has resolved by its anchors against
    the text before, the edits lie one behind the other, and the new text is the old one
    with exactly these stretches replaced, insertions at one place in the order of the
    request; text without carriage returns that no edit names stays byte for byte.  A
    single write replaces the whole text. *)
Theorem batch_rewrites (content path : bytes) (ops : list HashlineOp) :
  ∃ r, apply_edits content ops path s = Some r ∧
    (untouched r
     ∨ (∃ new a, ops = [Write new] ∧ output r = EditsApplied a ∧ new_content r = Some new)
     ∨ ∃ order a, resolves_to (split_lines content) ops order ∧ output r = EditsApplied a
       ∧ new_content r = Some (join [newline] (rewritten 0 (split_lines content) (map edit_of order)))
       ∧ (carriage_return ∉ content → join [newline] (split_lines content) = content)).
Proof.
  destruct (is_write_or_not ops) as [[new ->]|Hw].
  - destruct (apply_write content new path) as (r & Er & Hr). exists r. split; [done|]. naive_solver.
  - destruct (apply_batch content path ops Hw) as (r & Er & Hr). exists r. split; [done|].
    destruct Hr as [Hu|(order & a & Ho & Ha & Hn & _)]; [by left|]. right. right. exists order, a. split_and!; [done..|].
    intros Hc. by rewrite split_lines_on, join_split_on.
Qed.

(** The details an answer gives of a batch are exact: for every edit, in the order of
    the lines, the old text is what stood at the old line number and the new text stands
    at the new line number of the new text. *)
Theorem details_exact (content path : bytes) (ops : list HashlineOp) (r : ApplyResult) (a : HashlineEditsApplied) :
  ¬ is_write ops → apply_edits content ops path s = Some r → output r = EditsApplied a →
  ∃ order out, resolves_to (split_lines content) ops order ∧ new_content r = Some (join [newline] out)
    ∧ Forall2 (located (split_lines content) out) order (edit_details r).
Proof.
  intros Hw Er Ha. destruct (apply_batch content path ops Hw) as (r' & Er' & Hr). rewrite Er in Er'. injection Er' as <-.
  destruct Hr as [[e ->]|(order & a' & Ho & Ha' & Hn & Hd & Hf)]; [done|].
  exists order. eexists. split_and!; [done|exact Hn|]. rewrite Hd. destruct Ho as (rs & _ & _ & _ & _ & Hc).
  by apply (details_located (split_lines content) [] 0 0 order).
Qed.

End Lawful.

(** ** Runs *)

Definition sample_batch : list HashlineOp :=
  [Replace $"2:gew:bbn" None $"    h();"; InsertAfter $"2:gew:bbn" $"    i();"; InsertAfter $"2:gew:bbn" $"    j();"; InsertAfter $"0:" $"// top"].

Lemma batch_rewrites_witness :
  ∃ r, apply_edits (join [newline] sample) sample_batch $"/w/f" sample_scheme = Some r
    ∧ new_content r = Some (join [newline] [$"// top"; $"fn f() {"; $"    h();"; $"    i();"; $"    j();"; $"}"]) ∧ LawfulScheme sample_scheme.
Proof.
  destruct (batch_rewrites sample_scheme (join [newline] sample) $"/w/f" sample_batch) as (r & E & _). exists r. split; [done|].
  split; [|apply _]. vm_compute in E. by injection E as <-.
Defined.

Lemma details_exact_witness :
  ∃ r order out, apply_edits (join [newline] sample) sample_batch $"/w/f" sample_scheme = Some r
    ∧ Forall2 (located (split_lines (join [newline] sample)) out) order (edit_details r) ∧ map new_line (edit_details r) = [1; 3; 4; 5].
Proof.
  destruct (apply_edits (join [newline] sample) sample_batch $"/w/f" sample_scheme) as [r|] eqn:E; [|by vm_compute in E].
  assert (∃ a, output r = EditsApplied a) as [a Ha] by (vm_compute in E; injection E as <-; by eexists).
  destruct (details_exact sample_scheme (join [newline] sample) $"/w/f" sample_batch r a) as (order & out & _ & _ & Hd); [by intros [? ?]|done|done|].
  exists r, order, out. split_and!; [done..|]. vm_compute in E. by injection E as <-.
Defined.
