(* ===== verification/HashlineTool.v ===== *)
(** * The anchor tools

    [codegen/xai-grok-tools/src/implementations/grok_build_hashline]: the parameters of
    the scheme ([config.rs]), the anchors in search results ([grep.rs]) and the edit tool
    ([edit/mod.rs]), with the resolution of the path a model writes
    ([types/resources.rs]). *)

From S2P Require Import Prelude RustStr StrFind Paths TextLines Anchors HashlineEdit.

#[local] Open Scope nat_scope.

(** ** Parameters: [config.rs] *)

Record HashlineSchemeParams := mkParams { scheme : bytes; param_hash_len : nat; chunk_size : nat }.

Definition default_params : HashlineSchemeParams := mkParams $"chunk" 3 8.

Definition validate_params (p : HashlineSchemeParams) : result unit bytes :=
  if negb (mem (scheme p) ["chunk"; "content_only"]%string) then
    Err ($"unknown scheme " ++ quoted (scheme p) ++ $": expected " ++ quoted $"chunk" ++ $" or " ++ quoted $"content_only")
  else if (param_hash_len p =? 0) || (4 <? param_hash_len p) then Err ($"hash_len must be 1..=4, got " ++ show_nat (param_hash_len p))
  else if (scheme p =b $"chunk") && (chunk_size p =? 0) then Err $"chunk_size must be > 0"
  else Ok tt.

Record ExampleAnchors := mkExamples {
  ex_anchor : bytes; read_line1 : bytes; read_line2 : bytes; grep_match : bytes; grep_context : bytes
}.

Definition example_anchors (p : HashlineSchemeParams) : ExampleAnchors :=
  let len := Nat.min (Nat.max (param_hash_len p) 1) 4 in
  let hash := take len $"abcd" in
  let suffix := if scheme p =b $"content_only" then hash else hash ++ $":" ++ take len $"rstu" in
  mkExamples ($"22:" ++ suffix)
    ($"   1:" ++ suffix ++ ARROW ++ $"fn main() {") ($"   2:" ++ suffix ++ ARROW ++ $"    let x = 1;")
    ($"2:" ++ suffix ++ $":    let x = 1;") ($"3:" ++ suffix ++ $"-    let y = 2;").

Definition render_description (p : HashlineSchemeParams) (template : bytes) : bytes :=
  let ex := example_anchors p in
  replace $"{grep_context}" (grep_context ex)
    (replace $"{grep_match}" (grep_match ex)
      (replace $"{example_line2}" (read_line2 ex)
        (replace $"{example_line1}" (read_line1 ex)
          (replace $"{example_anchor}" (ex_anchor ex) template)))).

Definition build_scheme (p : HashlineSchemeParams) : result AnchorScheme bytes :=
  match validate_params p with
  | Err e => Err e
  | Ok _ =>
      Ok (if scheme p =b $"content_only" then content_only (param_hash_len p) else chunk_scheme (param_hash_len p) (chunk_size p))
  end.

(** ** Paths a model writes: [resources.rs] *)

Definition quotes : bytes := ["034"%char; "'"%char].

Definition is_quote (a : option ascii) : bool := match a with Some a => contains_byte a quotes | None => false end.

(** The loop that strips literal escapes; each round takes two bytes. *)
Fixpoint strip_escapes (fuel : nat) (s : bytes) : bytes :=
  match fuel with
  | 0 => s
  | S fuel =>
      match strip_suffix $"\n" s with
      | Some r => strip_escapes fuel (trim_end r)
      | None =>
          match strip_suffix $"\r" s with
          | Some r => strip_escapes fuel (trim_end r)
          | None => match strip_suffix $"\t" s with Some r => strip_escapes fuel (trim_end r) | None => s end
          end
      end
  end.

Definition sanitize_model_path_arg (input : bytes) : bytes :=
  let trimmed := trim input in
  let quote_wrapped := (2 <=? length trimmed) && is_quote (head trimmed) && is_quote (last trimmed) in
  let unquoted := trim (trim_matches_any quotes trimmed) in
  if negb quote_wrapped then unquoted else strip_escapes (length unquoted) unquoted.

(** ** The surroundings of a call *)

(** What the environment answers: [shellexpand::tilde], the canonical form of a path that
    exists, the one file whose name differs in look-alike characters only, the path after
    a file was created, and the hint for a path that is not there. *)
Class PathEnv := {
  tilde : bytes → bytes;
  try_canonicalize : bytes → Files → option bytes;
  resolve_unicode_filename : bytes → Files → option bytes;
  canonicalize : bytes → Files → bytes;
  path_not_found_hint : bytes → bytes → bytes → bytes;
}.

Section Tool.
Context {disk : EditFs} {policy : MemoryPolicy} {env : PathEnv}.

(** [resolve_model_path] *)
Definition resolve_model_path (cwd : bytes) (display_cwd : option bytes) (input : bytes) : bytes :=
  let expanded := tilde (sanitize_model_path_arg input) in
  match display_cwd, is_absolute expanded with
  | Some display, true => match path_strip_prefix expanded display with Some suffix => push cwd suffix | None => expanded end
  | _, _ =>
      let dropped_slash :=
        if negb (is_absolute expanded) && negb (expanded =b []) then path_strip_prefix ($"/" ++ expanded) (default cwd display_cwd) else None in
      match dropped_slash with Some suffix => push cwd suffix | None => push cwd expanded end
  end.

(** ** Search results: [grep.rs] *)

(** [parse_rg_line]: number, separator and content of a numbered line. *)
Fixpoint digit_prefix (s : bytes) : bytes * bytes :=
  match s with
  | a :: r => if is_ascii_digit a then let '(d, t) := digit_prefix r in (a :: d, t) else ([], s)
  | [] => ([], [])
  end.

Definition parse_rg_line (l : bytes) : option (nat * ascii * bytes) :=
  let '(digits, rest) := digit_prefix l in
  match digits, rest with
  | _ :: _, sep :: content =>
      if bool_decide (sep = ":"%char) || bool_decide (sep = "-"%char) then n ← parse_usize digits; Some (n, sep, content) else None
  | _, _ => None
  end.

Definition AnchorCache : Type := gmap bytes (list Anchor).

(** [get_or_generate] *)
Definition get_or_generate (cache : AnchorCache) (path : bytes) (s : AnchorScheme) (f : Files) : option (list Anchor) * AnchorCache :=
  match cache !! path with
  | Some anchors => (Some anchors, cache)
  | None =>
      match read_file path f with
      | Err _ => (None, cache)
      | Ok b => let anchors := generate_anchors s (split_lines (from_utf8_lossy b)) in (Some anchors, <[path := anchors]> cache)
      end
  end.

Record Injection := mkInjection { result_text : bytes; current_file : option bytes; file_anchors : AnchorCache }.

(** The end of the pass for a line that is not anchored. *)
Definition pass_through (cwd l : bytes) (st : Injection) : Injection :=
  let header := bool_decide (parse_rg_line l = None) && negb (starts_with $"Found " l) && negb (starts_with $"... [" l) && negb (l =b []) in
  mkInjection (result_text st ++ l) (if header then Some (push cwd l) else current_file st) (file_anchors st).

(** The line feed before a line. *)
Definition with_break (st : Injection) : Injection :=
  if negb (ends_with [newline] (result_text st)) && negb (ends_with $">" (result_text st))
  then mkInjection (result_text st ++ [newline]) (current_file st) (file_anchors st) else st.

(** One line of the body. *)
Definition inject_line (cwd : bytes) (s : AnchorScheme) (f : Files) (st : Injection) (l : bytes) : Injection :=
  let st := with_break st in
  if l =b $"--" then mkInjection (result_text st ++ l) (current_file st) (file_anchors st)
  else
    match parse_rg_line l, current_file st with
    | Some (n, sep, content), Some path =>
        let '(found, cache) := get_or_generate (file_anchors st) path s f in
        let st := mkInjection (result_text st) (current_file st) cache in
        match found with
        | Some anchors =>
            if n - 1 <? length anchors then
              match (match n with 0 => None | S i => anchors !! i end) with
              | None => mkInjection (result_text st ++ l) (current_file st) cache
              | Some a => mkInjection (result_text st ++ show_nat n ++ $":" ++ anchor_suffix a ++ [sep] ++ content) (current_file st) cache
              end
            else pass_through cwd l st
        | None => pass_through cwd l st
        end
    | _, _ => pass_through cwd l st
    end.

Definition RESULT_END : bytes := newline :: $"</workspace_result>".

(** [inject_anchors] *)
Definition inject_anchors (stdout_bytes cwd : bytes) (f : Files) (s : AnchorScheme) : bytes :=
  let stdout := from_utf8_lossy stdout_bytes in
  match find_str [">"%char; newline] stdout, rfind_str RESULT_END stdout with
  | Some start, Some end_ =>
      let body_start := start + 2 in
      match get_to body_start stdout, get_range body_start end_ stdout, get_from end_ stdout with
      | Some prefix, Some body, Some suffix =>
          result_text (fold_left (inject_line cwd s f) (lines body) (mkInjection prefix None ∅)) ++ suffix
      | _, _, _ => stdout_bytes
      end
  | _, _ => stdout_bytes
  end.

(** ** Answers of the edit tool: [mod.rs] *)

Record SearchReplaceEditDetail := mkEditDetail {
  old_string : bytes;
  detail_old_line : nat;
  new_string : bytes;
  detail_new_line : nat;
  context_before : bytes;
  context_after : bytes;
}.

Record SearchReplaceEditsApplied := mkEditsApplied {
  whole_old : bytes;
  whole_new : bytes;
  tool_output_for_prompt : bytes;
  edited_path : bytes;
  details : list SearchReplaceEditDetail;
}.

Inductive SearchReplaceOutput :=
| OutApplied (a : SearchReplaceEditsApplied)
| OutNoMatchesFound (message file_path : bytes)
| OutInvalidInput (message : bytes)
| OutFileNotFound (message : bytes).

(** The lines [from] to [to] with line feeds, when there are any. *)
Definition context_span (ls : list bytes) (from to : nat) : bytes :=
  if (from <? to) && (to <=? length ls) then join [newline] (take (to - from) (drop from ls)) ++ [newline] else [].

(** One detail with three lines around it. *)
Definition edit_detail (old_lines : list bytes) (d : EditRegionDetail) : SearchReplaceEditDetail :=
  let old_idx := old_line d - 1 in
  let line_count := match old_text d with [] => 0 | _ => length (split_on newline (old_text d)) end in
  let after_start := old_idx + line_count in
  mkEditDetail (old_text d) (old_line d) (new_text d) (new_line d)
    (context_span old_lines (old_idx - 3) old_idx) (context_span old_lines after_start (Nat.min (after_start + 3) (length old_lines))).

(** [to_search_replace] *)
Definition to_search_replace (result : HashlineEditOutput) (file_path old_content : bytes) (new_content : option bytes)
    (edit_details : list EditRegionDetail) : SearchReplaceOutput :=
  match result with
  | EditsApplied a =>
      let new_text := default [] new_content in
      let details := match edit_details with
                     | [] => [mkEditDetail old_content 1 new_text 1 [] []]
                     | _ => map (edit_detail (split_on newline old_content)) edit_details
                     end in
      let prompt := match warnings a with [] => snippet a | ws => join [newline] ws ++ blank_line ++ snippet a end in
      OutApplied (mkEditsApplied old_content new_text prompt (absolute_path a) details)
  | EditError e =>
      let msg := message e
        ++ match error_context e with
           | Some ctx =>
               blank_line
               ++ match context_start_line e with
                  | Some start => $"Fresh anchors around line " ++ show_nat start ++ $" — use these to retry your edit:"
                  | None => $"Fresh anchors — use these to retry your edit:"
                  end
               ++ [newline] ++ ctx
           | None => []
           end
        ++ match shifted_anchor e with Some a => blank_line ++ $"Suggested anchor: " ++ a | None => [] end in
      match error e with
      | FileNotFound => OutFileNotFound msg
      | InvalidInput => OutInvalidInput msg
      | _ => OutNoMatchesFound msg file_path
      end
  end.

(** [format_not_found_error] *)
Definition format_not_found_error (display_path resolved cwd display_cwd : bytes) (hints_enabled : bool) : bytes :=
  let base := $"Error: " ++ display_path ++ $" does not exist." in
  if hints_enabled then base ++ path_not_found_hint resolved cwd display_cwd else base.

(** What a session gives a call. *)
Record CallContext := mkContext {
  cwd : bytes;
  display_cwd : option bytes;
  params : HashlineSchemeParams;
  hints_enabled : bool;
}.

Definition display_dcwd (c : CallContext) : bytes := default (cwd c) (display_cwd c).

(** [HashlineEditTool::file_not_found] *)
Definition file_not_found (c : CallContext) (file_path path : bytes) : SearchReplaceOutput :=
  OutFileNotFound (format_not_found_error (push (display_dcwd c) file_path) path (cwd c) (display_dcwd c) (hints_enabled c)).

(** A write through the memory policy or to the disk; an error of the disk is given to
    [on_fault]. *)
Definition store_text (policy_path path text : bytes) (on_fault : FsError → SearchReplaceOutput) (f : Files) : result Files SearchReplaceOutput :=
  match write_memory policy_path text f with
  | Err e => Err (OutInvalidInput e)
  | Ok (Some f) => Ok f
  | Ok None => match write_file path text f with Ok f => Ok f | Err e => Err (on_fault e) end
  end.

(** The write of a file that is not there. *)
Definition create_file (c : CallContext) (file_path joined text : bytes) (s : AnchorScheme) (f : Files) : option (SearchReplaceOutput * Files) :=
  let on_fault e := if fs_not_found e then file_not_found c file_path joined else OutInvalidInput ($"Failed to write file: " ++ fs_message e) in
  match store_text joined joined text on_fault f with
  | Err out => Some (out, f)
  | Ok f =>
      let abs := canonicalize joined f in
      r ← apply_edits text [Write text] abs s;
      Some (to_search_replace (output r) abs [] (new_content r) (edit_details r), f)
  end.

Definition write_failed (e : FsError) : HashlineEditError :=
  plain_error IoError ($"Edits validated but failed to write file: " ++ fs_message e ++ $".") None.

(** The edits of a file at [path]. *)
Definition edit_file (c : CallContext) (file_path policy_path path : bytes) (edits : list HashlineOp) (s : AnchorScheme) (f : Files)
  : option (SearchReplaceOutput * Files) :=
  match read_file path f with
  | Err e => Some (if fs_not_found e then file_not_found c file_path path else OutInvalidInput ($"Failed to read file: " ++ fs_message e), f)
  | Ok file_bytes =>
      let old_content := from_utf8_lossy file_bytes in
      r ← apply_edits old_content edits path s;
      let answer f := (to_search_replace (output r) path old_content (new_content r) (edit_details r), f) in
      Some match new_content r with
           | None => answer f
           | Some new =>
               let on_fault e := to_search_replace (EditError (write_failed e)) path old_content None [] in
               match store_text policy_path path new on_fault f with
               | Err out => (out, f)
               | Ok f => answer f
               end
           end
  end.

(** The call for edits there are; [Err] is an error of the tool, [None] a panic. *)
Definition run_edits (c : CallContext) (file_path : bytes) (edits : list HashlineOp) (f : Files) : option (result SearchReplaceOutput bytes * Files) :=
  match build_scheme (params c) with
  | Err e => Some (Err e, f)
  | Ok s =>
      let joined := resolve_model_path (cwd c) (display_cwd c) file_path in
      let done (x : option (SearchReplaceOutput * Files)) := '(out, f) ← x; Some (Ok out, f) in
      match try_canonicalize joined f with
      | Some path => done (edit_file c file_path joined path edits s f)
      | None =>
          match resolve_unicode_filename joined f with
          | Some path => done (edit_file c file_path joined path edits s f)
          | None =>
              match edits with
              | [Write text] => done (create_file c file_path joined text s f)
              | _ => Some (Ok (file_not_found c file_path joined), f)
              end
          end
      end
  end.

(** [HashlineEditTool::run] *)
Definition run (c : CallContext) (file_path : bytes) (edits : list HashlineOp) (f : Files) : option (result SearchReplaceOutput bytes * Files) :=
  match edits with
  | [] => Some (Ok (OutInvalidInput $"No edit operations provided."), f)
  | _ => run_edits c file_path edits f
  end.

End Tool.
