(* ===== verification/HashlineToolClaims.v ===== *)
(** * Claims about the anchor tools

    What a call of the edit tool leaves of the files, the anchors in search results, and
    runs that show what the tools' descriptions do not promise. *)

From S2P Require Import Prelude RustStr StrFind Paths TextLines Anchors AnchorLaws HashlineEdit HashlineLaws HashlineClaims HashlineTool.

#[local] Open Scope nat_scope.

(** Every scheme the parameters can select is lawful; the assertions on hash lengths and
    chunk sizes hold. *)
Lemma build_scheme_lawful (p : HashlineSchemeParams) (s : AnchorScheme) :
  build_scheme p = Ok s → LawfulScheme s ∧ 1 <= hash_len s <= 4.
Proof.
  unfold build_scheme, validate_params. destruct (negb (mem (scheme p) _)) eqn:Em; [done|].
  destruct (Nat.eqb_spec (param_hash_len p) 0); [done|]. destruct (Nat.ltb_spec 4 (param_hash_len p)); [done|]. cbn [orb].
  destruct (scheme p =b $"chunk") eqn:Ec; destruct (Nat.eqb_spec (chunk_size p) 0) as [|Hsize]; cbn [andb]; try done;
    destruct (scheme p =b $"content_only") eqn:Eo; intros [= <-]; (split; [|simpl; lia]);
    try (apply content_only_lawful; lia); try (apply chunk_lawful; lia).
  all: exfalso; unfold mem in Em; cbn [existsb] in Em; rewrite Ec, Eo in Em; done.
Qed.

Section Tool.
Context {disk : EditFs} {policy : MemoryPolicy} {env : PathEnv}.

(** The path a call names, and the file that is there. *)
Definition named_path (c : CallContext) (file_path : bytes) : bytes := resolve_model_path (cwd c) (display_cwd c) file_path.

Definition target (c : CallContext) (file_path : bytes) (f : Files) : option bytes :=
  match try_canonicalize (named_path c file_path) f with
  | Some path => Some path
  | None => resolve_unicode_filename (named_path c file_path) f
  end.

(** A text stored under a path: by the memory policy where it takes the write, else in
    that file, every other file as it was. *)
Definition stored (joined path text : bytes) (f f' : Files) : Prop :=
  match write_memory joined text f with
  | Ok (Some g) => f' = g
  | Ok None => f' = <[path := text]> f
  | Err _ => False
  end.

(** What the edits make of a text, under the scheme the session selects. *)
Definition edited (c : CallContext) (edits : list HashlineOp) (path old new : bytes) : Prop :=
  ∃ s r, build_scheme (params c) = Ok s ∧ apply_edits old edits path s = Some r ∧ new_content r = Some new.

(** What an answer tells of the files before and after. *)
Definition truthful (c : CallContext) (file_path : bytes) (edits : list HashlineOp) (out : SearchReplaceOutput) (f f' : Files) : Prop :=
  match out, target c file_path f with
  | OutApplied a, Some path =>
      edited_path a = path
      ∧ (∃ raw, f !! path = Some raw ∧ whole_old a = from_utf8_lossy raw)
      ∧ edited c edits path (whole_old a) (whole_new a)
      ∧ stored (named_path c file_path) path (whole_new a) f f'
  | OutApplied a, None =>
      edited_path a = canonicalize (named_path c file_path) f'
      ∧ edits = [Write (whole_new a)] ∧ whole_old a = []
      ∧ stored (named_path c file_path) (named_path c file_path) (whole_new a) f f'
  | _, Some _ => f' = f
  | _, None =>
      f' = f
      ∨ ∃ new, edits = [Write new] ∧ detect_anchor_prefix_in_content new ≠ None
          ∧ stored (named_path c file_path) (named_path c file_path) new f f'
  end.

Lemma store_text_ok (joined path text : bytes) (on_fault : FsError → SearchReplaceOutput) (f f' : Files) :
  store_text joined path text on_fault f = Ok f' → stored joined path text f f'.
Proof.
  unfold store_text, stored, write_file. destruct (write_memory joined text f) as [[g|]|e]; [by intros [= ->]| |done].
  destruct (write_fault path); [done|]. by intros [= <-].
Qed.

Lemma store_text_refused (joined path text : bytes) (on_fault : FsError → SearchReplaceOutput) (f : Files) (out : SearchReplaceOutput) :
  store_text joined path text on_fault f = Err out → (∃ m, out = OutInvalidInput m) ∨ ∃ e, out = on_fault e.
Proof.
  unfold store_text, write_file. destruct (write_memory joined text f) as [[g|]|e]; [done| |intros [= <-]; left; by eexists].
  destruct (write_fault path); [|done]. intros [= <-]. right. by eexists.
Qed.

(** An answer that tells of no edit. *)
Definition refusal (out : SearchReplaceOutput) : Prop := ∀ a, out ≠ OutApplied a.

Lemma not_applied (e : HashlineEditError) (path old : bytes) (new : option bytes) (ds : list EditRegionDetail) :
  refusal (to_search_replace (EditError e) path old new ds).
Proof. intros a. unfold to_search_replace. by destruct (error e). Qed.

Lemma truthful_refusal (c : CallContext) (file_path : bytes) (edits : list HashlineOp) (out : SearchReplaceOutput) (f : Files) :
  refusal out → truthful c file_path edits out f f.
Proof. intros Hr. unfold truthful. destruct out; [by destruct (Hr a)|..]; destruct (target c file_path f); by try left. Qed.

Lemma file_not_found_refuses (c : CallContext) (file_path path : bytes) : refusal (file_not_found c file_path path).
Proof. done. Qed.

Lemma edit_file_truthful (c : CallContext) (file_path path : bytes) (edits : list HashlineOp) (s : AnchorScheme) `{!LawfulScheme s} (f : Files) :
  build_scheme (params c) = Ok s → target c file_path f = Some path →
  ∃ out f', edit_file c file_path (named_path c file_path) path edits s f = Some (out, f') ∧ truthful c file_path edits out f f'.
Proof.
  intros Es Et. unfold edit_file, read_file. destruct (read_fault path) as [e|].
  { eexists _, _. split; [done|]. apply truthful_refusal. by destruct (fs_not_found e). }
  destruct (f !! path) as [raw|] eqn:Ef; [|by eexists _, _; split; [done|apply truthful_refusal]].
  destruct (apply_total s (from_utf8_lossy raw) path edits) as (r & Er & Hr). rewrite Er. cbn [mbind option_bind].
  destruct Hr as [[e ->]|(a & new & Ha & Hn)]; [eexists _, _; split; [done|]; apply truthful_refusal, not_applied|].
  pose proof (apply_path s _ _ _ _ _ Er Ha) as Hpath. rewrite Hn. set (on_fault := fun e : FsError => _).
  destruct (store_text _ path new on_fault f) as [f'|out] eqn:Est; eexists _, _; (split; [done|]).
  - apply store_text_ok in Est. rewrite Ha. unfold truthful. cbn [to_search_replace]. rewrite Et.
    cbn [edited_path whole_old whole_new default]. split_and!; [done|by exists raw| |done]. by exists s, r.
  - apply truthful_refusal. apply store_text_refused in Est as [[m ->]|[e ->]]; [done|apply not_applied].
Qed.

Lemma create_file_truthful (c : CallContext) (file_path new : bytes) (s : AnchorScheme) (f : Files) :
  target c file_path f = None →
  ∃ out f', create_file c file_path (named_path c file_path) new s f = Some (out, f') ∧ truthful c file_path [Write new] out f f'.
Proof.
  intros Et. unfold create_file. set (on_fault := fun e : FsError => _). destruct (store_text _ _ new on_fault f) as [f'|out] eqn:Est.
  2:{ eexists _, _. split; [done|]. apply truthful_refusal. apply store_text_refused in Est as [[m ->]|[e ->]]; [done|].
      unfold on_fault. by destruct (fs_not_found e). }
  apply store_text_ok in Est. cbn [apply_edits mbind option_bind]. eexists _, _. split; [done|]. unfold truthful. rewrite Et.
  destruct (detect_anchor_prefix_in_content new) as [n|] eqn:Ed.
  - pose proof (not_applied (anchor_content_error $"write" new n) (canonicalize (named_path c file_path) f') [] None []) as Hr.
    cbn [rejected output new_content edit_details]. destruct (to_search_replace _ _ _ _ _); [by destruct (Hr a)|..]; right; exists new; by rewrite Ed.
  - by cbn.
Qed.

(** C20: A call of the edit tool never panics, and its answer tells what it did.  Edits are
    answered as applied only when they were: for a file that is there, the answer names
    just the file that the path resolves to, its old text is what that file held, its
    new text is what the edits make of it, and that text is stored in that file and
    nothing else changes; for a file that is not there, the edits are one write, and
    its text is stored under the named path.  (Where the memory policy takes the write,
    the files are those it leaves.)  Any other answer, and an error of the tool, means
    that no file changed, with one exception: a write of a new file that is refused
    because its text looks like copied anchors has stored the text
    ([refused_write_creates]). *)
Theorem edit_tool_truthful (c : CallContext) (file_path : bytes) (edits : list HashlineOp) (f : Files) :
  ∃ r f', run c file_path edits f = Some (r, f') ∧
    match r with
    | Err _ => f' = f
    | Ok out => truthful c file_path edits out f f'
    end.
Proof.
  unfold run. destruct edits as [|op ops] eqn:Eops; [eexists _, _; split; [done|by apply truthful_refusal]|]. rewrite <-Eops. clear Eops op ops.
  unfold run_edits. destruct (build_scheme (params c)) as [s|e] eqn:Es; [|by eexists _, _]. pose proof (build_scheme_lawful _ _ Es) as [Hs _].
  cbv zeta. fold (named_path c file_path). destruct (target c file_path f) as [path|] eqn:Et.
  - destruct (edit_file_truthful c file_path path edits s f Es Et) as (out & f' & E & Ht). exists (Ok out), f'. split; [|done].
    unfold target in Et. destruct (try_canonicalize _ f) as [q|]; [injection Et as ->; by rewrite E|]. by rewrite Et, E.
  - assert (try_canonicalize (named_path c file_path) f = None ∧ resolve_unicode_filename (named_path c file_path) f = None) as [-> ->]
      by (unfold target in Et; by destruct (try_canonicalize _ f)).
    destruct (is_write_or_not edits) as [[new ->]|Hw].
    + destruct (create_file_truthful c file_path new s f Et) as (out & f' & E & Ht). exists (Ok out), f'. by rewrite E.
    + exists (Ok (file_not_found c file_path (named_path c file_path))), f. split; [|by apply truthful_refusal].
      destruct edits as [|[a e x|a x|x] [|op ops]]; try done. exfalso. apply Hw. by exists x.
Qed.

(** ** Search results *)

(** A line that names the file of the lines behind it. *)
Definition is_header (l : bytes) : bool :=
  negb (l =b $"--") && bool_decide (parse_rg_line l = None) && negb (starts_with $"Found " l) && negb (starts_with $"... [" l) && negb (l =b []).

(** Every cached anchor is the one generated now. *)
Definition cache_fresh (s : AnchorScheme) (f : Files) (cache : AnchorCache) : Prop :=
  ∀ path anchors, cache !! path = Some anchors → ∃ b, read_file path f = Ok b ∧ anchors = generate_anchors s (split_lines (from_utf8_lossy b)).

Lemma get_or_generate_fresh (cache : AnchorCache) (path : bytes) (s : AnchorScheme) (f : Files) :
  cache_fresh s f cache →
  cache_fresh s f (get_or_generate cache path s f).2
  ∧ ∀ b, read_file path f = Ok b → (get_or_generate cache path s f).1 = Some (generate_anchors s (split_lines (from_utf8_lossy b))).
Proof.
  intros Hc. unfold get_or_generate. destruct (cache !! path) as [anchors|] eqn:E; cbn [fst snd].
  - split; [done|]. intros b Hb. destruct (Hc _ _ E) as (b' & Hb' & ->). congruence.
  - destruct (read_file path f) as [b|e] eqn:Er; cbn [fst snd]; [|by split; [done|]]. split; [|by intros b' [= <-]].
    intros q anchors Hq. unfold AnchorCache in *. destruct (decide (q = path)) as [->|Hne].
    + rewrite lookup_insert_eq in Hq. injection Hq as <-. by exists b.
    + rewrite lookup_insert_ne in Hq by done. by apply Hc.
Qed.

Lemma with_break_same (st : Injection) : current_file (with_break st) = current_file st ∧ file_anchors (with_break st) = file_anchors st
  ∧ ∃ nl, (nl = [] ∨ nl = [newline]) ∧ result_text (with_break st) = result_text st ++ nl.
Proof. unfold with_break. destruct (_ && _); split_and!; try done; [exists [newline]|exists []; rewrite app_nil_r]; auto. Qed.

Lemma inject_line_state (cwd l : bytes) (s : AnchorScheme) (f : Files) (st : Injection) :
  cache_fresh s f (file_anchors st) →
  cache_fresh s f (file_anchors (inject_line cwd s f st l))
  ∧ current_file (inject_line cwd s f st l) = if is_header l then Some (push cwd l) else current_file st.
Proof.
  intros Hc. unfold inject_line. destruct (with_break_same st) as (<- & Hca & _). rewrite <-Hca in Hc. generalize dependent (with_break st).
  intros st1 Hc _. clear st. rename st1 into st. unfold is_header. cbv zeta. destruct (l =b $"--"); [by split|]. cbn [negb andb].
  destruct (parse_rg_line l) as [[[n sep] content]|] eqn:Ep; [|split; [done|]; unfold pass_through; by rewrite Ep].
  rewrite bool_decide_eq_false_2 by done. cbn [andb].
  assert (∀ st', current_file (pass_through cwd l st') = current_file st' ∧ file_anchors (pass_through cwd l st') = file_anchors st') as Hpass
    by (intros st'; unfold pass_through; rewrite Ep; by rewrite bool_decide_eq_false_2).
  destruct (current_file st) as [path|] eqn:Ecur; [|destruct (Hpass st) as [-> ->]; by rewrite Ecur].
  destruct (get_or_generate (file_anchors st) path s f) as [found cache] eqn:Eg.
  pose proof (get_or_generate_fresh (file_anchors st) path s f Hc) as [Hc' _]. rewrite Eg in Hc'. cbn [snd] in Hc'.
  destruct found as [anchors|]; [|by destruct (Hpass (mkInjection (result_text st) (Some path) cache)) as [-> ->]].
  destruct (n - 1 <? length anchors); [|by destruct (Hpass (mkInjection (result_text st) (Some path) cache)) as [-> ->]].
  by destruct (match n with 0 => None | S i => anchors !! i end).
Qed.

Lemma inject_state (cwd prefix : bytes) (s : AnchorScheme) (f : Files) (ls : list bytes) :
  let st := fold_left (inject_line cwd s f) ls (mkInjection prefix None ∅) in
  cache_fresh s f (file_anchors st) ∧ current_file st = push cwd <$> last (List.filter is_header ls).
Proof.
  cbv zeta. induction ls as [|l ls IH] using rev_ind; [split; [|done]; intros p a; unfold AnchorCache; cbn; by rewrite lookup_empty|].
  rewrite fold_left_app, List.filter_app. cbn [fold_left List.filter]. destruct IH as [Hc Hcur]. destruct (inject_line_state cwd l s f _ Hc) as [Hc' ->].
  split; [done|]. rewrite Hcur. destruct (is_header l); [by rewrite last_snoc|by rewrite app_nil_r].
Qed.

(** In anchored search results every numbered line stands behind the last line that
    names a file, and carries the anchor that resolves to just that line of just that
    file, whatever came before and was cached. *)
Theorem grep_anchors_resolve (cwd prefix file l content b : bytes) (sep : ascii) (n : nat) (s : AnchorScheme) `{!LawfulScheme s} (f : Files) (before : list bytes) :
  let st := fold_left (inject_line cwd s f) before (mkInjection prefix None ∅) in
  let ls := split_lines (from_utf8_lossy b) in
  last (List.filter is_header before) = Some file → parse_rg_line l = Some (n, sep, content) →
  read_file (push cwd file) f = Ok b → countable_lines ls → 1 <= n <= length ls →
  ∃ nl a, (nl = [] ∨ nl = [newline]) ∧ result_text (inject_line cwd s f st l) = result_text st ++ nl ++ render a ++ sep :: content
    ∧ validate_anchor (render a) ls s = Ok (n - 1).
Proof.
  cbv zeta. intros Hlast Ep Hb Hcount Hn. destruct (inject_state cwd prefix s f before) as [Hc Hcur]. set (st := fold_left _ _ _) in *. clearbody st.
  rewrite Hlast in Hcur. cbn in Hcur. unfold inject_line. destruct (with_break_same st) as (Hcur' & Hca & nl & Hnl & Htext).
  rewrite <-Hcur' in Hcur. rewrite <-Hca in Hc. generalize dependent (with_break st). intros st1 Hc Hcur _ _ Htext. cbv zeta.
  assert ((l =b $"--") = false) as -> by (apply beq_false; by intros ->). rewrite Ep.
  rewrite Hcur.
  destruct (get_or_generate_fresh (file_anchors st1) (push cwd file) s f Hc) as [_ Hg]. specialize (Hg b Hb).
  destruct (get_or_generate (file_anchors st1) (push cwd file) s f) as [found cache]. cbn [fst] in Hg. subst found.
  rewrite anchors_length by done. rewrite (proj2 (Nat.ltb_lt _ _)) by lia. destruct n as [|i]; [lia|].
  destruct (anchor_exists s (split_lines (from_utf8_lossy b)) i) as (a & Ea); [lia|]. rewrite Ea. cbn [result_text].
  exists nl, a. split; [done|]. destruct (anchor_line s _ _ _ Ea) as (Hl & _ & _). split.
  - rewrite Htext, <-app_assoc. do 2 f_equal. rewrite render_suffix, Hl, <-!app_assoc, Nat.add_1_r. done.
  - rewrite Nat.sub_succ, Nat.sub_0_r. by apply (shown_resolves s _ _ a []).
Qed.

End Tool.

(** ** Runs *)

Definition sound_fs : EditFs :=
  {| read_fault _ := None; not_found _ := $"no such file"; write_fault _ := None; delete_fault _ := None; dirs_fault _ := None |}.

Definition no_policy : MemoryPolicy :=
  {| preflight_write _ _ := Ok false; validate_read _ := Ok false; write_memory _ _ _ := Ok None |}.

Definition plain_env : PathEnv :=
  {| tilde p := p; try_canonicalize p f := if f !! p then Some p else None; resolve_unicode_filename _ _ := None;
     canonicalize p _ := p; path_not_found_hint _ _ _ := [] |}.

Definition at_w : CallContext := mkContext $"/w" None default_params false.

(** A run at [/w] on files given by path and text. *)
Definition call (file : bytes) (edits : list HashlineOp) (fs : list (bytes * bytes)) : option (result SearchReplaceOutput bytes * Files) :=
  run (disk := sound_fs) (policy := no_policy) (env := plain_env) at_w file edits (list_to_map fs).

Definition text_after (file : bytes) (edits : list HashlineOp) (fs : list (bytes * bytes)) (p : bytes) : option bytes :=
  match call file edits fs with Some (_, f) => f !! p | None => None end.

Definition refused (r : option (result SearchReplaceOutput bytes * Files)) : bool :=
  match r with Some (Ok (OutInvalidInput _ | OutNoMatchesFound _ _ | OutFileNotFound _), _) => true | _ => false end.

Definition applied_text (r : option (result SearchReplaceOutput bytes * Files)) : option bytes :=
  match r with Some (Ok (OutApplied a), _) => Some (whole_new a) | _ => None end.

Example append_applied : applied_text (call $"f" [InsertAfter $"EOF" $"two"] [($"/w/f", $"one")]) = Some (text [$"one"] ++ $"two").
Proof. by vm_compute. Qed.

Definition search_files : Files := list_to_map [($"/w/a.txt", text [$"x"; $"y"])].

Definition searched : Injection :=
  fold_left (inject_line (disk := sound_fs) $"/w" sample_scheme search_files) [$"a.txt"] (mkInjection $">" None ∅).

Lemma grep_anchors_resolve_witness :
  ∃ nl a, result_text (inject_line (disk := sound_fs) $"/w" sample_scheme search_files searched $"2:y") = result_text searched ++ nl ++ render a ++ $":y"
    ∧ validate_anchor (render a) (split_lines (from_utf8_lossy (text [$"x"; $"y"]))) sample_scheme = Ok 1.
Proof.
  destruct (grep_anchors_resolve (disk := sound_fs) $"/w" $">" $"a.txt" $"2:y" $"y" (text [$"x"; $"y"]) ":"%char 2 sample_scheme search_files [$"a.txt"])
    as (nl & a & Hnl & E & Hv); [by vm_compute..|split; apply Nat.leb_le; by vm_compute|].
  exists nl, a. split; [exact E|exact Hv].
Defined.

(** A write of a new file is refused for what its text looks like, after the file was
    written. *)
Example refused_write_creates :
  refused (call $"new" [Write $"A::b()->c();"] []) = true ∧ text_after $"new" [Write $"A::b()->c();"] [] $"/w/new" = Some $"A::b()->c();".
Proof. by vm_compute. Qed.

(** A static call followed by an arrow is taken for a copied anchor. *)
Example static_call_refused :
  refused (call $"f" [InsertAfter $"EOF" $"Foo::get()->run();"] [($"/w/f", $"<?php")]) = true
  ∧ detect_anchor_prefix_in_content $"Foo::get()->run();" = Some 1.
Proof. by vm_compute. Qed.

(** One edit rewrites every line end of a file. *)
Example carriage_returns_dropped :
  text_after $"f" [InsertAfter $"0:" $"top"] [($"/w/f", $"a" ++ [carriage_return; newline] ++ $"b" ++ [carriage_return; newline])] $"/w/f"
  = Some (text [$"top"; $"a"; $"b"]).
Proof. by vm_compute. Qed.

(** Appending to an empty file leaves a blank line above. *)
Example append_to_empty : text_after $"f" [InsertAfter $"EOF" $"x"] [($"/w/f", [])] $"/w/f" = Some ([newline] ++ $"x").
Proof. by vm_compute. Qed.

(** A line cannot be inserted before one that the same batch replaces. *)
Example insertion_above_refused :
  match apply_edits (join [newline] sample) [InsertAfter $"1:xia:bbn" $"x"; Replace $"2:gew:bbn" None $"y"] $"f" sample_scheme with
  | Some r => match output r with EditError e => error e = OverlappingEdits | _ => False end | None => False end.
Proof. by vm_compute. Qed.

(** The context behind a replaced blank line starts with that line. *)
Example blank_line_in_context :
  context_after (edit_detail [$"a"; []; $"b"] (mkDetail 2 [] 2 $"x")) = text [[]; $"b"].
Proof. by vm_compute. Qed.

(** A file whose name starts with digits and a dash is not recognized: its lines get the
    anchors of the file before. *)
Example dated_file_gets_wrong_anchors :
  let f : Files := list_to_map [($"/w/a.txt", $"x"); ($"/w/2024-plan.md", $"y")] in
  lines (inject_anchors (disk := sound_fs) ($"<workspace_result>" ++ [newline] ++ join [newline] [$"a.txt"; $"1:x"; $"2024-plan.md"; $"1:y"] ++ RESULT_END) $"/w" f sample_scheme)
  = [$"<workspace_result>"; $"a.txt"; $"1:nyo:dnr:x"; $"2024-plan.md"; $"1:nyo:dnr:y"; $"</workspace_result>"]
  ∧ map render (generate_for_content sample_scheme $"y") = [$"1:mgs:gmo"].
Proof. by vm_compute. Qed.
