(* ===== verification/Journal.v ===== *)
(** * The journal of a workflow

    [codegen/xai-workflow/src/journal.rs]: a workflow run records the result of every
    call it makes to its host, one JSON line each, in a file that is only appended to.
    When the run is resumed the journal is loaded and answers the calls it holds.  JSON
    text and SHA-256 are parameters; a file that is read, appended to or truncated may
    fail. *)

From S2P Require Import Prelude RustStr StrFind.

#[local] Open Scope N_scope.

(** ** JSON values *)

(** [serde_json::Value]; a number is its text, an object its members in their order. *)
Inductive Value :=
| VNull
| VBool (b : bool)
| VNumber (text : bytes)
| VString (s : bytes)
| VArray (items : list Value)
| VObject (members : list (bytes * Value)).

Definition VNat (n : N) : Value := VNumber (show_decimal n).

(** [Map::get] *)
Fixpoint member (k : bytes) (m : list (bytes * Value)) : option Value :=
  match m with
  | [] => None
  | (k', v) :: m => if k =b k' then Some v else member k m
  end.

(** [Value::get] with a string *)
Definition get (k : bytes) (v : Value) : option Value :=
  match v with VObject m => member k m | _ => None end.

Definition as_str (v : Value) : option bytes := match v with VString s => Some s | _ => None end.

Definition key_le (a b : bytes * Value) : Prop := bytes_leb a.1 b.1 = true.

#[export] Instance key_le_dec : RelDecision key_le.
Proof. intros a b. unfold key_le. apply _. Defined.

(** [canonical_json]; sorting by keys and rewriting the values commute. *)
Fixpoint canonical_json (v : Value) : Value :=
  match v with
  | VObject m => VObject (merge_sort key_le (map (fun kv => (kv.1, canonical_json kv.2)) m))
  | VArray items => VArray (map canonical_json items)
  | other => other
  end.

(** ** Entries and errors *)

Definition MAX_HOST_CALLS : N := 10000.
Definition MAX_JOURNAL_BYTES : N := 64 * 1024 * 1024.
Definition MAX_JOURNAL_ENTRIES : N := MAX_HOST_CALLS.

Definition HOST_ERROR_KEY : bytes := $"__xai_workflow_host_error".

Record JournalEntry := mkEntry {
  seq : N;
  kind : bytes;
  req_hash : bytes;
  result_ : Value;
  at_ms : N;
}.

Inductive JournalError :=
| Io (message : bytes)
| ParseAt (line : N) (error : bytes)
| UnsafeRestore (limit : N) (reason : bytes)
| Full (at_seq limit : N)
| OutOfSequence (index expected actual : N)
| Divergence (at_seq : N) (of_kind : bytes).

(** [JournalError::to_string] *)
Definition journal_message (e : JournalError) : bytes :=
  match e with
  | Io m => $"journal io: " ++ m
  | ParseAt l m => $"journal parse at line " ++ show_decimal l ++ $": " ++ m
  | UnsafeRestore l r => $"journal restore rejected (limit " ++ show_decimal l ++ $"): " ++ r
  | Full s l => $"journal full: appending seq " ++ show_decimal s ++ $" would exceed the " ++ show_decimal l
      ++ $"-byte cap that restore enforces, which would strand the run unresumable"
  | OutOfSequence i x a => $"journal is not dense at entry " ++ show_decimal i ++ $": expected sequence " ++ show_decimal x
      ++ $", found " ++ show_decimal a
  | Divergence s k => $"replay divergence at seq " ++ show_decimal s ++ $" (" ++ k
      ++ $"): the script issued a different call than the recorded run — the workflow script is nondeterministic or was edited mid-run"
  end.

(** [serde_json] on entries and values, and the hash; the line of an entry is written
    without its end. *)
Class JsonText := {
  to_line : JournalEntry → result bytes bytes;
  of_line : bytes → result JournalEntry bytes;
  show_value : Value → bytes;
  sha256 : bytes → bytes;
}.

(** ** The file *)

(** The journal's file, [None] when it is not there. *)
Definition Disk : Type := option bytes.

Inductive ReadError := NotFound | InvalidData (message : bytes) | ReadFailed (message : bytes).

(** Which accesses fail: a file that cannot be read or is no regular file; an append,
    with the number of bytes that reached the file before; a truncation, and whether it
    was done. *)
Class DiskFaults := {
  read_fault : Disk → option ReadError;
  append_fault : Disk → bytes → option (nat * bytes);
  truncate_fault : bytes → N → option (bool * bytes);
}.

Section Files.
Context {faults : DiskFaults}.

Definition contents (d : Disk) : bytes := default [] d.

Definition read_journal_bounded (d : Disk) : result bytes ReadError :=
  match read_fault d, d with
  | Some e, _ => Err e
  | None, None => Err NotFound
  | None, Some c =>
      if MAX_JOURNAL_BYTES <? N.of_nat (length c) then Err (InvalidData ($"journal exceeds " ++ show_decimal MAX_JOURNAL_BYTES ++ $" bytes"))
      else Ok c
  end.

(** [write_all] at the end of the file. *)
Definition append (b : bytes) (d : Disk) : result unit bytes * Disk :=
  match append_fault d b with
  | Some (n, m) => (Err m, Some (contents d ++ take n b))
  | None => (Ok tt, Some (contents d ++ b))
  end.

Definition truncate_tail (len : N) (d : Disk) : result unit bytes * Disk :=
  let cut := take (N.to_nat len) (contents d) in
  match truncate_fault (contents d) len with
  | Some (done, m) => (Err m, if done then Some cut else d)
  | None => (Ok tt, Some cut)
  end.

Definition terminate_line (d : Disk) : result unit bytes * Disk := append [newline] d.

Definition append_line (line : bytes) (d : Disk) : result unit bytes * Disk := append line d.

End Files.

(** ** The journal *)

Record Journal := mkJournal {
  entries : list JournalEntry;
  path : option bytes;
  size : N;
  last_line_start : option N;
}.

Definition Journal_new (path : option bytes) : Journal := mkJournal [] path 0 None.

Definition validate_sequence (es : list JournalEntry) (e : JournalEntry) : result unit JournalError :=
  let expected := N.of_nat (length es) in
  if seq e =? expected then Ok tt else Err (OutOfSequence expected expected (seq e)).

(** The checks of a loaded entry. *)
Definition push_entry (es : list JournalEntry) (e : JournalEntry) : result (list JournalEntry) JournalError :=
  if MAX_JOURNAL_ENTRIES <=? N.of_nat (length es) then Err (UnsafeRestore MAX_JOURNAL_ENTRIES $"too many journal entries")
  else match validate_sequence es e with Err x => Err x | Ok _ => Ok (es ++ [e]) end.

Definition all_whitespace (s : bytes) : bool := forallb is_ascii_whitespace s.

Section Loading.
Context {json : JsonText} {faults : DiskFaults}.

(** The last line, which has no end: a whole entry gets one, a torn one is cut off. *)
Definition load_tail (p : bytes) (size offset : N) (es : list JournalEntry) (last : option N) (tail : bytes) (d : Disk)
  : result Journal JournalError * Disk :=
  let cut_off :=
    match truncate_tail offset d with
    | (Err m, d) => (Err (Io m), d)
    | (Ok _, d) => (Ok (mkJournal es (Some p) offset last), d)
    end in
  if all_whitespace tail then cut_off
  else match of_line tail with
       | Err _ => cut_off
       | Ok e =>
           match push_entry es e with
           | Err x => (Err x, d)
           | Ok es =>
               match terminate_line d with
               | (Err m, d) => (Err (Io m), d)
               | (Ok _, d) => (Ok (mkJournal es (Some p) (saturating_add size 1) (Some offset)), d)
               end
           end
       end.

(** The loop of [load] over the lines of the file, from [offset] on. *)
Fixpoint load_lines (p : bytes) (size line_number offset : N) (es : list JournalEntry) (last : option N) (pieces : list bytes) (d : Disk)
  : result Journal JournalError * Disk :=
  match pieces with
  | [] | [[]] => (Ok (mkJournal es (Some p) size last), d)
  | [tail] => load_tail p size offset es last tail d
  | line :: pieces =>
      let line_number := line_number + 1 in
      let next := offset + N.of_nat (length line) + 1 in
      if all_whitespace line then load_lines p size line_number next es last pieces d
      else match of_line line with
           | Err m => (Err (ParseAt line_number m), d)
           | Ok e =>
               match push_entry es e with
               | Err x => (Err x, d)
               | Ok es => load_lines p size line_number next es (Some offset) pieces d
               end
           end
  end.

(** [Journal::load] *)
Definition load (p : bytes) (d : Disk) : result Journal JournalError * Disk :=
  let from content := load_lines p (N.of_nat (length content)) 0 0 [] None (split_on newline content) d in
  match read_journal_bounded d with
  | Ok content => from content
  | Err NotFound => from []
  | Err (InvalidData m) => (Err (UnsafeRestore MAX_JOURNAL_BYTES m), d)
  | Err (ReadFailed m) => (Err (Io m), d)
  end.

Definition agent_reservation_count (j : Journal) : N :=
  N.of_nat (length (List.filter (fun e => kind e =b $"spawn_agent") (entries j))).

Definition covers (n : N) (j : Journal) : bool := n <? N.of_nat (length (entries j)).

(** [Journal::replay] *)
Definition replay (n : N) (k hash : bytes) (j : Journal) : result (option Value) JournalError :=
  match entries j !! N.to_nat n with
  | None => Ok None
  | Some e =>
      if (seq e =? n) && (kind e =b k) && (req_hash e =b hash) then Ok (Some (result_ e)) else Err (Divergence n k)
  end.

(** [Journal::record], at the time [now]. *)
Definition record (n : N) (k hash : bytes) (v : Value) (now : N) (j : Journal) (d : Disk) : result unit JournalError * (Journal * Disk) :=
  let e := mkEntry n k hash v now in
  match validate_sequence (entries j) e with
  | Err x => (Err x, (j, d))
  | Ok _ =>
      match to_line e with
      | Err m => (Err (Io m), (j, d))
      | Ok text =>
          let line := text ++ [newline] in
          if MAX_JOURNAL_BYTES <? saturating_add (size j) (N.of_nat (length line)) then (Err (Full n MAX_JOURNAL_BYTES), (j, d))
          else
            let '(written, d) := match path j with Some _ => append_line line d | None => (Ok tt, d) end in
            match written with
            | Err m => (Err (Io m), (j, d))
            | Ok _ => (Ok tt, (mkJournal (entries j ++ [e]) (path j) (saturating_add (size j) (N.of_nat (length line))) (Some (size j)), d))
            end
      end
  end.

(** [Journal::prune_trailing_host_error] *)
Definition prune_trailing_host_error (failure_detail : bytes) (j : Journal) (d : Disk) : result bool JournalError * (Journal * Disk) :=
  match e ← last (entries j); get HOST_ERROR_KEY (result_ e) ≫= as_str with
  | None => (Ok false, (j, d))
  | Some message =>
      if (message =b []) || negb (contains_str message failure_detail) then (Ok false, (j, d))
      else match last_line_start j with
           | None => (Err (Io $"journal cannot locate the trailing entry's byte offset"), (j, d))
           | Some new_len =>
               let '(cut, d) := match path j with Some _ => truncate_tail new_len d | None => (Ok tt, d) end in
               match cut with
               | Err m => (Err (Io m), (j, d))
               | Ok _ => (Ok true, (mkJournal (removelast (entries j)) (path j) new_len None, d))
               end
           end
  end.

Definition hex_digit (n : nat) : ascii := ascii_of_nat (if (n <? 10)%nat then n + 48 else n + 87).
Definition hex_byte (a : ascii) : bytes := [hex_digit (code a / 16); hex_digit (code a mod 16)].

(** [request_hash] *)
Definition request_hash (k : bytes) (payload : Value) : bytes :=
  concat (map hex_byte (take 16 (sha256 (k ++ [ascii_of_nat 0] ++ show_value (canonical_json payload))))).

End Loading.
