(* ===== verification/Workflow.v ===== *)
(** * The workflow engine

    [codegen/xai-workflow/src]: a script in Rhai orchestrates agents through calls to its
    host ([host.rs], [engine.rs], [run.rs]).  The interpreter of the language is a
    parameter: a compiled script is the tree of the host functions it calls, each with
    what the script does next for every answer it can catch.  The host is a world that
    answers each request by the sequence number of the call; the journal answers before
    it. *)

From S2P Require Import Prelude RustStr StrFind Journal.

#[local] Open Scope N_scope.

(** ** Host requests: [host.rs] *)

Record AgentOpts := mkOpts {
  prompt : bytes;
  label : option bytes;
  model : option bytes;
  effort : option bytes;
  max_output_tokens : option N;
  agent_type : option bytes;
  capability_mode : option bytes;
  isolation_worktree : bool;
  fork_context : bool;
  resume_from : option bytes;
  output_schema : option Value;
  opts_phase : option bytes;
}.

(** [AgentOpts { prompt, ..Default::default() }] *)
Definition prompt_only (p : bytes) : AgentOpts := mkOpts p None None None None None None false false None None None.

Record AgentResult := mkAgentResult {
  agent_id : bytes;
  success : bool;
  agent_output : Value;
  was_cancelled : bool;
  tokens_used : N;
  duration_ms : N;
}.

Record BudgetState := mkBudget { total : option N; spent : N; reserved : N; remaining : option N }.

Inductive HostError :=
| AgentCallQuotaExceeded (requested maximum : N)
| BudgetExceeded
| HostCancelled
| Unsupported (message : bytes)
| HostFailed (message : bytes).

(** A request without the channel its reply is sent on. *)
Inductive WorkflowHostRequest :=
| ReserveAgentCalls (count : N)
| ReleaseAgentCalls (count : N)
| SpawnAgent (opts : AgentOpts)
| PhaseMsg (title : bytes) (replayed : bool)
| LogMsg (message : bytes) (replayed : bool)
| TelemetryMsg (name : bytes) (fields : Value) (replayed : bool)
| BudgetQuery
| RenderTemplate (name : bytes) (vars : Value)
| WriteScratchFile (name content : bytes)
| ReadScratchFile (name : bytes)
| GitDiffSince (commit : bytes).

(** How a request ends: the channel of the host is closed, the reply is dropped, or it
    comes. *)
Inductive Reply (T : Type) := Closed | Dropped | Replied (r : result T HostError).
Arguments Closed {T}.
Arguments Dropped {T}.
Arguments Replied {T}.

(** The derived serialisations. *)
Definition opt_value {T} (f : T → Value) (o : option T) : Value := match o with Some x => f x | None => VNull end.

Definition opts_value (o : AgentOpts) : list (bytes * Value) :=
  [($"prompt", VString (prompt o)); ($"label", opt_value VString (label o)); ($"model", opt_value VString (model o))]
  ++ (match effort o with Some e => [($"effort", VString e)] | None => [] end)
  ++ [($"max_output_tokens", opt_value VNat (max_output_tokens o)); ($"agent_type", opt_value VString (agent_type o));
      ($"capability_mode", opt_value VString (capability_mode o)); ($"isolation_worktree", VBool (isolation_worktree o));
      ($"fork_context", VBool (fork_context o)); ($"resume_from", opt_value VString (resume_from o));
      ($"output_schema", opt_value id (output_schema o)); ($"phase", opt_value VString (opts_phase o))].

Definition result_value (r : AgentResult) : Value :=
  VObject [($"agent_id", VString (agent_id r)); ($"success", VBool (success r)); ($"output", agent_output r);
           ($"cancelled", VBool (was_cancelled r)); ($"tokens_used", VNat (tokens_used r)); ($"duration_ms", VNat (duration_ms r))].

Definition budget_value (b : BudgetState) : Value :=
  VObject [($"total", opt_value VNat (total b)); ($"spent", VNat (spent b)); ($"reserved", VNat (reserved b)); ($"remaining", opt_value VNat (remaining b))].

(** ** Outcomes: [run.rs] *)

Inductive PauseKind := PauseUser | BackOff | NoProgress | Verification | Infra.

(** [PauseKind::from_str] *)
Definition parse_pause_kind (s : bytes) : result PauseKind bytes :=
  if s =b $"user" then Ok PauseUser
  else if (s =b $"back_off") || (s =b $"backoff") then Ok BackOff
  else if s =b $"no_progress" then Ok NoProgress
  else if (s =b $"verification") || (s =b $"blocked") then Ok Verification
  else if s =b $"infra" then Ok Infra
  else Err ($"unknown pause kind: " ++ s).

Inductive WorkflowOutcome :=
| Completed (v : Value)
| Paused (k : PauseKind) (message : bytes)
| OutOfBudget (message : bytes)
| RunCancelled
| RunFailed (error : bytes).

Inductive ControlToken :=
| TComplete (v : Value)
| TPause (k : PauseKind) (message : bytes)
| TBudget (message : bytes)
| TCancelled
| TFatal (error : bytes).

(** Errors of a host function: a control token ends the run, a runtime error can be
    caught by the script. *)
Inductive Stop := Terminated (t : ControlToken) | RuntimeError (message : bytes).

Definition terminated_outcome (t : ControlToken) : WorkflowOutcome :=
  match t with
  | TComplete v => Completed v
  | TPause k m => Paused k m
  | TBudget m => OutOfBudget m
  | TCancelled => RunCancelled
  | TFatal e => RunFailed e
  end.

(** ** Scripts *)

(** The host functions a script calls; the options of an agent are what [serde] makes of
    the map the script wrote, and [None] stands for an item that is no map. *)
Inductive HostFn :=
| Agent (p : bytes)
| AgentWith (p : bytes) (parsed : result AgentOpts bytes)
| Parallel (items : list (option (result AgentOpts bytes)))
| Phase (title : bytes)
| Log (message : bytes)
| TelemetryEvent (name : bytes) (fields : Value)
| Complete (v : Value)
| Pause (kind message : bytes)
| AwaitUser (kind message : bytes)
| Budget
| RenderTemplateFn (name : bytes) (vars : Value)
| WriteScratchFileFn (name content : bytes)
| ReadScratchFileFn (name : bytes)
| GitDiffSinceFn (commit : bytes).

(** A script that ends with a value or an error of its own, or calls the host and goes
    on with the value or the error it caught. *)
Inductive Script :=
| Finish (v : Value)
| Throw (error : bytes)
| Do (f : HostFn) (next : result Value bytes → Script).

(** The interpreter: what a text compiles to, and whether the arguments are accepted. *)
Class Rhai := {
  compile : bytes → result (Value → Script) bytes;
  args_error : Value → option bytes;
}.

(** ** The world of a run *)

(** What the host answers to the call with a sequence number, the clock when a result is
    recorded, whether the run is cancelled before its [n]th call of the host, and whether
    the host still listens during that call, for the requests whose reply does not matter. *)
Record World := mkWorld {
  reserve_reply : N → N → Reply unit;
  spawn_reply : N → AgentOpts → Reply AgentResult;
  budget_reply : N → Reply BudgetState;
  text_reply : N → WorkflowHostRequest → Reply bytes;
  clock : N → N;
  cancelled_before : nat → bool;
  listening : nat → bool;
}.

(** [Ctx], with the journal's file, the requests sent (each beside the sequence number
    it is sent at) and the number of host functions called so far. *)
Record Ctx := mkCtx {
  journal : Journal;
  disk : Disk;
  ctx_seq : N;
  sent : list (N * WorkflowHostRequest);
  calls : nat;
}.

Definition with_journal (jd : Journal * Disk) (c : Ctx) : Ctx := mkCtx jd.1 jd.2 (ctx_seq c) (sent c) (calls c).
Definition with_seq (n : N) (c : Ctx) : Ctx := mkCtx (journal c) (disk c) n (sent c) (calls c).
Definition send (n : N) (r : WorkflowHostRequest) (c : Ctx) : Ctx := mkCtx (journal c) (disk c) (ctx_seq c) (sent c ++ [(n, r)]) (calls c).
Definition count_call (c : Ctx) : Ctx := mkCtx (journal c) (disk c) (ctx_seq c) (sent c) (S (calls c)).

Definition replaying (c : Ctx) : bool := covers (ctx_seq c) (journal c).

(** [ScriptResult] over the context. *)
Definition M (A : Type) : Type := Ctx → result A Stop * Ctx.

Definition ret {A} (a : A) : M A := fun c => (Ok a, c).
Definition stop {A} (s : Stop) : M A := fun c => (Err s, c).
Definition bind {A B} (m : M A) (f : A → M B) : M B :=
  fun c => match m c with (Ok a, c) => f a c | (Err s, c) => (Err s, c) end.
Definition modify (f : Ctx → Ctx) : M unit := fun c => (Ok tt, f c).
Definition read {A} (f : Ctx → A) : M A := fun c => (Ok (f c), c).

Declare Scope workflow_scope.
Delimit Scope workflow_scope with workflow.
Notation "'let*' x := m 'in' k" := (bind m (fun x => k)) (at level 200, x binder, right associativity) : workflow_scope.
Notation "m ';;;' k" := (bind m (fun _ => k)) (at level 100, right associativity) : workflow_scope.
#[local] Open Scope workflow_scope.

Definition lift {A} (r : result A Stop) : M A := fun c => (r, c).

Definition journal_fatal (e : JournalError) : Stop := Terminated (TFatal (journal_message e)).

(** A result of the journal, whose errors end the run. *)
Definition of_journal {A} (r : result A JournalError) : M A :=
  lift match r with Ok a => Ok a | Err e => Err (journal_fatal e) end.

Definition MAX_PARALLEL : nat := 1024.

Definition overflowed : Stop := Terminated (TFatal $"workflow host-call count overflowed").
Definition channel_closed : Stop := Terminated (TFatal $"workflow host channel closed").
Definition dropped_reply : Stop := Terminated (TFatal $"workflow host dropped reply").
Definition agent_budget_exceeded : Stop := Terminated (TBudget $"workflow agent budget exceeded").

(** [Ctx::reserve_seqs] for one call *)
Definition next_seq : M N := fun c =>
  let end_ := ctx_seq c + 1 in
  if U64_MAX <? end_ then (Err overflowed, c)
  else if MAX_HOST_CALLS <? end_ then
    (Err (Terminated (TFatal ($"workflow exceeded the maximum of " ++ show_decimal MAX_HOST_CALLS ++ $" result-bearing host calls"))), c)
  else (Ok (ctx_seq c), with_seq end_ c).

Section Engine.
Context {json : JsonText} {faults : DiskFaults}.
Variable w : World.

(** [Ctx::record] *)
Definition record_result (n : N) (k hash : bytes) (v : Value) : M unit := fun c =>
  match record n k hash v (clock w n) (journal c) (disk c) with
  | (Ok _, jd) => (Ok tt, with_journal jd c)
  | (Err e, jd) => (Err (journal_fatal e), with_journal jd c)
  end.

(** ** Markers in the journal *)

Definition HOST_TERMINAL_KEY : bytes := $"__xai_workflow_parallel_terminal".
Definition TERMINAL_BUDGET : bytes := $"budget_exceeded".
Definition TERMINAL_CANCELLED : bytes := $"cancelled".
Definition TERMINAL_DROPPED_REPLY : bytes := $"dropped_reply".

Definition host_error_sentinel (m : bytes) : Value := VObject [(HOST_ERROR_KEY, VString m)].

Definition replay_host_error (recorded : Value) : option Stop :=
  RuntimeError <$> (get HOST_ERROR_KEY recorded ≫= as_str).

Definition host_terminal_sentinel (k : bytes) : Value := VObject [(HOST_TERMINAL_KEY, VString k)].

Definition host_terminal_error (k : bytes) : Stop :=
  if k =b TERMINAL_BUDGET then agent_budget_exceeded
  else if k =b TERMINAL_CANCELLED then Terminated TCancelled
  else if k =b TERMINAL_DROPPED_REPLY then dropped_reply
  else Terminated (TFatal $"workflow journal contains an unknown terminal marker").

Definition is_host_terminal_sentinel (recorded : Value) : bool := bool_decide (is_Some (get HOST_TERMINAL_KEY recorded)).

(** ** Calls *)

Definition SPAWN_AGENT : bytes := $"spawn_agent".

(** [Map::remove] *)
Definition without (k : bytes) (m : list (bytes * Value)) : list (bytes * Value) := List.filter (fun kv => negb (kv.1 =b k)) m.

(** [replay_spawn_agent]: entries of before options had an effort are accepted by the
    hash without it. *)
Definition replay_spawn_agent (j : Journal) (n : N) (payload : Value) (hash : bytes) : result (option Value) JournalError :=
  let normal := replay n SPAWN_AGENT hash j in
  let legacy :=
    match payload with
    | VObject m =>
        match member $"effort" m with
        | None => normal
        | Some _ => replay n SPAWN_AGENT (request_hash SPAWN_AGENT (VObject (without $"effort" m))) j
        end
    | _ => normal
    end in
  match normal with
  | Ok (Some _) => normal
  | Ok None | Err (Divergence _ _) => legacy
  | Err _ => normal
  end.

Definition replay_call (j : Journal) (n : N) (k : bytes) (payload : Value) (hash : bytes) : result (option Value) JournalError :=
  if k =b SPAWN_AGENT then replay_spawn_agent j n payload hash else replay n k hash j.

Definition quota_message (requested maximum : N) : bytes :=
  $"exceeded: requested " ++ show_decimal requested ++ $", maximum " ++ show_decimal maximum.

(** [host_call]: from the journal, or from the host and then into the journal. *)
Definition host_call {T} (k : bytes) (payload : Value) (request : WorkflowHostRequest) (reply : N → Reply T) (to_result : T → Value) : M Value :=
  let hash := request_hash k payload in
  let* n := next_seq in
  let* replayed := (fun c => of_journal (replay_call (journal c) n k payload hash) c) in
  match replayed with
  | Some recorded => match replay_host_error recorded with Some e => stop e | None => ret recorded end
  | None =>
      match reply n with
      | Closed => stop channel_closed
      | Dropped => modify (send n request);;; stop dropped_reply
      | Replied r =>
          modify (send n request);;;
          match r with
          | Ok v => record_result n k hash (to_result v);;; ret (to_result v)
          | Err (AgentCallQuotaExceeded q m) => stop (RuntimeError ($"workflow agent-call quota " ++ quota_message q m))
          | Err BudgetExceeded => stop agent_budget_exceeded
          | Err HostCancelled => stop (Terminated TCancelled)
          | Err (Unsupported m) | Err (HostFailed m) => record_result n k hash (host_error_sentinel m);;; stop (RuntimeError m)
          end
      end
  end.

(** [host_emit] *)
Definition host_emit (build : bool → WorkflowHostRequest) : M Value :=
  let* replayed := read replaying in
  let* n := read ctx_seq in
  let* k := read calls in
  (if listening w k then modify (send n (build replayed)) else ret tt);;; ret VNull.

(** [reserve_agent_calls] *)
Definition reserve_agent_calls (count : nat) : M unit :=
  if (count =? 0)%nat then ret tt
  else
    let* n := read ctx_seq in
    match reserve_reply w n (N.of_nat count) with
    | Closed => stop channel_closed
    | Dropped => modify (send n (ReserveAgentCalls (N.of_nat count)));;; stop dropped_reply
    | Replied r =>
        modify (send n (ReserveAgentCalls (N.of_nat count)));;;
        match r with
        | Ok _ => ret tt
        | Err (AgentCallQuotaExceeded q m) => stop (Terminated (TBudget ($"workflow agent budget " ++ quota_message q m)))
        | Err HostCancelled => stop (Terminated TCancelled)
        | Err BudgetExceeded => stop agent_budget_exceeded
        | Err (Unsupported m) | Err (HostFailed m) => stop (RuntimeError m)
        end
    end.

(** [release_agent_calls]; it waits for a reply and does not look at it. *)
Definition release_agent_calls (count : nat) : M unit :=
  if (count =? 0)%nat then ret tt
  else
    let* n := read ctx_seq in
    let* k := read calls in
    if listening w k then modify (send n (ReleaseAgentCalls (N.of_nat count))) else ret tt.

Definition is_resumable_unjournaled_terminal (s : Stop) : bool :=
  match s with Terminated TCancelled | Terminated (TBudget _) => true | _ => false end.

Definition agent_payload (o : AgentOpts) : Value := VObject (opts_value o).
Definition agent_hash (o : AgentOpts) : bytes := request_hash SPAWN_AGENT (agent_payload o).

(** [spawn_agent_call] *)
Definition spawn_agent_call (o : AgentOpts) : M Value :=
  let* found := (fun c => of_journal (replay_spawn_agent (journal c) (ctx_seq c) (agent_payload o) (agent_hash o)) c) in
  let is_live := match found with Some _ => false | None => true end in
  (if is_live then reserve_agent_calls 1 else ret tt);;;
  fun c =>
    match host_call SPAWN_AGENT (agent_payload o) (SpawnAgent o) (fun n => spawn_reply w n o) result_value c with
    | (Ok v, c) => (Ok v, c)
    | (Err e, c) =>
        if is_live && is_resumable_unjournaled_terminal e then (release_agent_calls 1;;; stop e) c else (Err e, c)
    end.

(** [agent_opts_from_map] *)
Definition agent_opts_from_map (p : option bytes) (parsed : result AgentOpts bytes) : result AgentOpts Stop :=
  match parsed with
  | Err m => Err (RuntimeError ($"invalid agent options: " ++ m))
  | Ok o =>
      let o := match p with
               | Some p => mkOpts p (label o) (model o) (effort o) (max_output_tokens o) (agent_type o) (capability_mode o)
                             (isolation_worktree o) (fork_context o) (resume_from o) (output_schema o) (opts_phase o)
               | None => o
               end in
      if trim (prompt o) =b [] then Err (RuntimeError $"agent prompt must not be empty") else Ok o
  end.

(** ** Batches of agents *)

Inductive PendingAgent :=
| ReplayedAgent (v : Value)
| LiveAgent (n : N) (hash : bytes) (reply : option (result AgentResult HostError)).

Fixpoint parallel_opts (items : list (option (result AgentOpts bytes))) : result (list AgentOpts) Stop :=
  match items with
  | [] => Ok []
  | None :: _ => Err (RuntimeError $"parallel() items must be option maps")
  | Some parsed :: items =>
      match agent_opts_from_map None parsed with
      | Err e => Err e
      | Ok o => match parallel_opts items with Ok os => Ok (o :: os) | Err e => Err e end
      end
  end.

(** How many of the agents the journal does not hold, from [n] on. *)
Fixpoint count_live (j : Journal) (n : N) (os : list AgentOpts) : result nat Stop :=
  match os with
  | [] => Ok 0%nat
  | o :: os =>
      match replay_spawn_agent j n (agent_payload o) (agent_hash o) with
      | Err e => Err (journal_fatal e)
      | Ok found =>
          if U64_MAX <? n + 1 then Err overflowed
          else match count_live j (n + 1) os with
               | Err e => Err e
               | Ok live => Ok (match found with Some _ => live | None => S live end)
               end
      end
  end.

(** The loop that starts the agents. *)
Fixpoint start_all (os : list AgentOpts) : M (list PendingAgent) :=
  match os with
  | [] => ret []
  | o :: os =>
      let* n := next_seq in
      let* found := (fun c => of_journal (replay_spawn_agent (journal c) n (agent_payload o) (agent_hash o)) c) in
      let* pending :=
        match found with
        | Some v => ret (ReplayedAgent v)
        | None =>
            match spawn_reply w n o with
            | Closed => stop channel_closed
            | Dropped => modify (send n (SpawnAgent o));;; ret (LiveAgent n (agent_hash o) None)
            | Replied r => modify (send n (SpawnAgent o));;; ret (LiveAgent n (agent_hash o) (Some r))
            end
        end in
      let* rest := start_all os in
      ret (pending :: rest)
  end.

(** What the loop over the replies has so far. *)
Record Gathered := mkGathered {
  resolved : list (option (N * bytes) * Value);
  terminal_kind : option bytes;
  terminal_error : option Stop;
  resumable : bool;
}.

(** [Option::get_or_insert] *)
Definition get_or_insert {A} (o : option A) (a : A) : option A := match o with Some _ => o | None => Some a end.

Definition with_terminal (k : bytes) (g : Gathered) : Gathered :=
  mkGathered (resolved g) (get_or_insert (terminal_kind g) k) (terminal_error g)
    (resumable g || (k =b TERMINAL_BUDGET) || (k =b TERMINAL_CANCELLED)).

Definition with_resolved (x : option (N * bytes) * Value) (g : Gathered) : Gathered :=
  mkGathered (resolved g ++ [x]) (terminal_kind g) (terminal_error g) (resumable g).

Definition with_error (e : Stop) (g : Gathered) : Gathered :=
  mkGathered (resolved g) (terminal_kind g) (get_or_insert (terminal_error g) e) (resumable g).

Definition gather_one (g : Gathered) (p : PendingAgent) : Gathered :=
  match p with
  | ReplayedAgent v =>
      if is_host_terminal_sentinel v then with_terminal (default $"unknown" (get HOST_TERMINAL_KEY v ≫= as_str)) g
      else match replay_host_error v with
           | Some e => with_error e g
           | None => with_resolved (None, v) g
           end
  | LiveAgent n hash reply =>
      let live v := with_resolved (Some (n, hash), v) in
      match reply with
      | Some (Ok r) => live (result_value r) g
      | Some (Err BudgetExceeded) => live (host_terminal_sentinel TERMINAL_BUDGET) (with_terminal TERMINAL_BUDGET g)
      | Some (Err HostCancelled) => live (host_terminal_sentinel TERMINAL_CANCELLED) (with_terminal TERMINAL_CANCELLED g)
      | None => live (host_terminal_sentinel TERMINAL_DROPPED_REPLY) (with_terminal TERMINAL_DROPPED_REPLY g)
      | Some (Err (AgentCallQuotaExceeded _ _ | Unsupported _ | HostFailed _)) => live VNull g
      end
  end.

Definition gather (ps : list PendingAgent) : Gathered := fold_left gather_one ps (mkGathered [] None None false).

(** The live results are recorded in their order, up to the first that cannot be. *)
Fixpoint record_all (rs : list (option (N * bytes) * Value)) (error : option Stop) : M (option Stop) :=
  match rs with
  | [] => ret error
  | (None, _) :: rs => record_all rs error
  | (Some (n, hash), v) :: rs => fun c =>
      match record_result n SPAWN_AGENT hash v c with
      | (Ok _, c) => record_all rs error c
      | (Err e, c) => (Ok (get_or_insert error e), c)
      end
  end.

(** [parallel] *)
Definition parallel (items : list (option (result AgentOpts bytes))) : M Value :=
  if (MAX_PARALLEL <? length items)%nat then
    stop (RuntimeError ($"parallel() accepts at most " ++ show_decimal (N.of_nat MAX_PARALLEL) ++ $" items per call (got "
      ++ show_decimal (N.of_nat (length items)) ++ $")"))
  else
    let* os := lift (parallel_opts items) in
    let* live_count := (fun c => (count_live (journal c) (ctx_seq c) os, c)) in
    reserve_agent_calls live_count;;;
    let* pending := start_all os in
    let g := gather pending in
    let* error := (if resumable g then release_agent_calls live_count;;; ret (terminal_error g) else record_all (resolved g) (terminal_error g)) in
    match terminal_kind g, error with
    | Some k, _ => stop (host_terminal_error k)
    | None, Some e => stop e
    | None, None => ret (VArray (map snd (resolved g)))
    end.

(** ** Host functions: [register_host_fns] *)

Definition await_user (k message : bytes) : M Value :=
  match parse_pause_kind k with
  | Err e => stop (RuntimeError e)
  | Ok parsed =>
      let hash := request_hash $"await_user" (VObject [($"kind", VString k); ($"message", VString message)]) in
      let* n := next_seq in
      let* replayed := (fun c => of_journal (replay n $"await_user" hash (journal c)) c) in
      match replayed with
      | Some _ => ret VNull
      | None => record_result n $"await_user" hash VNull;;; stop (Terminated (TPause parsed message))
      end
  end.

Definition text_call (k : bytes) (payload : Value) (request : WorkflowHostRequest) : M Value :=
  host_call k payload request (fun n => text_reply w n request) VString.

Definition call_host (f : HostFn) : M Value :=
  match f with
  | Agent p => spawn_agent_call (prompt_only p)
  | AgentWith p parsed => let* o := lift (agent_opts_from_map (Some p) parsed) in spawn_agent_call o
  | Parallel items => parallel items
  | Phase t => host_emit (PhaseMsg t)
  | Log m => host_emit (LogMsg m)
  | TelemetryEvent n v => host_emit (TelemetryMsg n v)
  | Complete v => stop (Terminated (TComplete v))
  | Pause k m => match parse_pause_kind k with Ok k => stop (Terminated (TPause k m)) | Err e => stop (RuntimeError e) end
  | AwaitUser k m => await_user k m
  | Budget => host_call $"budget" VNull BudgetQuery (budget_reply w) budget_value
  | RenderTemplateFn n vars => text_call $"render_template" (VObject [($"name", VString n); ($"vars", vars)]) (RenderTemplate n vars)
  | WriteScratchFileFn n t => text_call $"write_scratch_file" (VObject [($"name", VString n); ($"content", VString t)]) (WriteScratchFile n t)
  | ReadScratchFileFn n => text_call $"read_scratch_file" (VObject [($"name", VString n)]) (ReadScratchFile n)
  | GitDiffSinceFn commit => text_call $"git_diff_since" (VObject [($"commit", VString commit)]) (GitDiffSince commit)
  end.

(** ** Runs *)

Definition with_rhai_hint (msg : bytes) : bytes :=
  let hinted hint := msg ++ newline :: $"hint: " ++ hint in
  if contains_str $"Expression exceeds maximum complexity" msg then
    hinted $"a single expression nests too deep — usually one long chained `+` string concatenation. Split it into multiple `+=` statements."
  else if contains_str $"reserved keyword" msg then
    hinted $"Rhai reserves identifiers it doesn't use — `shared`, `sync`, `async`, `await`, `spawn`, `go`, `thread`, `new`, `match`, `case`, `default`, `void`, `null`, `nil`, `exit`, `static`, `var` — rename the variable (`shared` → `has_shared`)."
  else if contains_str $"getter is not registered for type 'char'" msg then
    hinted $"indexing a string yields a `char`, so field access on it fails — you likely indexed a string you expected to be an array (e.g. unparsed JSON in an agent output). Check with `type_of(x)`; slice strings with `s.sub_string(start, len)`."
  else msg.

(** The evaluation of a script; cancellation is seen between the calls. *)
Fixpoint eval (s : Script) (c : Ctx) : WorkflowOutcome * Ctx :=
  if cancelled_before w (calls c) then (RunCancelled, c)
  else match s with
       | Finish v => (Completed v, c)
       | Throw e => (RunFailed (with_rhai_hint e), c)
       | Do f next =>
           match call_host f c with
           | (Ok v, c) => eval (next (Ok v)) (count_call c)
           | (Err (RuntimeError m), c) => eval (next (Err m)) (count_call c)
           | (Err (Terminated t), c) => (terminated_outcome t, c)
           end
       end.

Definition ctx_new (j : Journal) (d : Disk) : Ctx := mkCtx j d 0 [] 0.

Context {rhai : Rhai}.

(** [run_workflow] *)
Definition run_workflow (script : bytes) (args : Value) (j : Journal) (d : Disk) : WorkflowOutcome * Ctx :=
  match compile script with
  | Err e => (RunFailed ($"script failed to compile: " ++ e), ctx_new j d)
  | Ok program =>
      match args_error args with
      | Some e => (RunFailed ($"invalid workflow args: " ++ e), ctx_new j d)
      | None => eval (program args) (ctx_new j d)
      end
  end.

End Engine.
