(* ===== verification/JournalLaws.v ===== *)
(** * Laws of the journal

    A journal file is the lines of its entries; a crash leaves the start of it, and
    loading that start gives the entries that were whole. *)

From stdpp Require Import countable.
From S2P Require Import Prelude RustStr StrFind TextLines Journal.

#[local] Open Scope N_scope.

(** What JSON text promises: an entry has one line, which is read back, and no proper
    part of it from the start is an entry. *)
Class JsonLaws {json : JsonText} : Prop := {
  entry_text e : ∃ t, to_line e = Ok t ∧ of_line t = Ok e ∧ newline ∉ t ∧ all_whitespace t = false;
  torn_text e t p q : to_line e = Ok t → t = p ++ q → p ≠ [] → q ≠ [] → all_whitespace p = false ∧ ∃ m, of_line p = Err m;
}.

(** A disk that does not fail. *)
Class SoundDisk {faults : DiskFaults} : Prop := {
  reads d : read_fault d = None;
  appends d b : append_fault d b = None;
  truncates c n : truncate_fault c n = None;
}.

Definition text_of {json : JsonText} (e : JournalEntry) : bytes := match to_line e with Ok t => t | Err _ => [] end.

(** The file of a journal. *)
Definition file_of {json : JsonText} (es : list JournalEntry) : bytes := text (map text_of es).

Definition size_of {json : JsonText} (es : list JournalEntry) : N := N.of_nat (length (file_of es)).

(** The entries are numbered from zero. *)
Definition dense (es : list JournalEntry) : Prop := ∀ i e, es !! i = Some e → seq e = N.of_nat i.

(** The journal in memory and its file agree. *)
Record on_disk {json : JsonText} (p : bytes) (j : Journal) (d : Disk) : Prop := {
  at_path : path j = Some p;
  file_agrees : contents d = file_of (entries j);
  size_agrees : size j = size_of (entries j);
  size_bounded : size_of (entries j) <= MAX_JOURNAL_BYTES;
  entries_dense : dense (entries j);
}.

Section Laws.
Context {json : JsonText} {faults : DiskFaults} {laws : JsonLaws}.

Lemma text_of_spec (e : JournalEntry) : to_line e = Ok (text_of e) ∧ of_line (text_of e) = Ok e ∧ newline ∉ text_of e ∧ all_whitespace (text_of e) = false.
Proof. unfold text_of. destruct (entry_text e) as (t & -> & ?). done. Qed.

Lemma file_of_snoc (es : list JournalEntry) (e : JournalEntry) : file_of (es ++ [e]) = file_of es ++ text_of e ++ [newline].
Proof. unfold file_of, text. rewrite !map_app, concat_app. cbn. by rewrite app_nil_r. Qed.

Lemma size_of_snoc (es : list JournalEntry) (e : JournalEntry) : size_of (es ++ [e]) = size_of es + N.of_nat (length (text_of e) + 1).
Proof. unfold size_of. rewrite file_of_snoc, !length_app. cbn. lia. Qed.

Lemma dense_snoc (es : list JournalEntry) (e : JournalEntry) : dense es → seq e = N.of_nat (length es) → dense (es ++ [e]).
Proof.
  intros Hd He i x. destruct (decide (i < length es)%nat) as [H|H].
  - rewrite lookup_app_l by done. apply Hd.
  - rewrite lookup_app_r by lia. destruct (i - length es)%nat as [|k] eqn:Ei; [|done]. intros [= <-]. rewrite He. f_equal. lia.
Qed.

Lemma dense_prefix (es es' : list JournalEntry) : dense es → es' `prefix_of` es → dense es'.
Proof. intros Hd Hp i e Hi. apply Hd. by eapply prefix_lookup_Some. Qed.

(** ** Loading *)

Lemma validate_next (es : list JournalEntry) (e : JournalEntry) : seq e = N.of_nat (length es) → validate_sequence es e = Ok tt.
Proof. intros H. unfold validate_sequence. by rewrite H, N.eqb_refl. Qed.

Lemma push_next (es : list JournalEntry) (e : JournalEntry) :
  seq e = N.of_nat (length es) → N.of_nat (length es) < MAX_JOURNAL_ENTRIES → push_entry es e = Ok (es ++ [e]).
Proof. intros H Hl. unfold push_entry. rewrite validate_next by done. by destruct (N.leb_spec MAX_JOURNAL_ENTRIES (N.of_nat (length es))); [lia|]. Qed.

Lemma load_lines_texts (p : bytes) (total ln : N) (pre es : list JournalEntry) (last : option N) (t : bytes) (d : Disk) :
  dense (pre ++ es) → N.of_nat (length (pre ++ es)) <= MAX_JOURNAL_ENTRIES →
  ∃ last' ln', load_lines p total ln (size_of pre) pre last (map text_of es ++ [t]) d = load_lines p total ln' (size_of (pre ++ es)) (pre ++ es) last' [t] d
    ∧ (es = [] → last' = last) ∧ (∀ es' e, es = es' ++ [e] → last' = Some (size_of (pre ++ es'))).
Proof.
  revert pre ln last. induction es as [|e es IH]; intros pre ln last Hd Hl.
  { exists last, ln. rewrite app_nil_r. split_and!; [done..|]. intros es' e E. by destruct es'. }
  destruct (text_of_spec e) as (_ & Hof & _ & Hws). cbn [map app].
  assert (seq e = N.of_nat (length pre)) as He by (apply Hd; rewrite lookup_app_r, Nat.sub_diag by lia; done).
  assert (pre ++ e :: es = (pre ++ [e]) ++ es) as Eapp by by rewrite <-app_assoc.
  destruct (IH (pre ++ [e]) (ln + 1) (Some (size_of pre))) as (last' & ln' & E & H1 & H2); [by rewrite <-Eapp..|].
  exists last', ln'. rewrite Eapp, <-E. split_and!; [|done|].
  - rewrite size_of_snoc. destruct (text_of e) as [|a x] eqn:Et; [done|]. destruct (map text_of es ++ [t]) as [|y ys] eqn:Ey; [by destruct (map text_of es)|].
    cbn [load_lines]. rewrite Hws, Hof, push_next; [|done|].
    { by replace (size_of pre + N.of_nat (length (a :: x)) + 1) with (size_of pre + N.of_nat (length (a :: x) + 1)) by lia. }
    rewrite Eapp, !length_app in Hl. cbn in Hl. lia.
  - intros es' x Ex. destruct es' as [|y es'].
    + injection Ex as [= -> ->]. rewrite app_nil_r. by apply H1.
    + injection Ex as [= -> ->]. rewrite (H2 es' x eq_refl). by rewrite <-app_assoc.
Qed.

(** Where the start of a file ends: behind some whole lines and a part of the next. *)
Lemma file_prefix (es : list JournalEntry) (c : bytes) :
  c `prefix_of` file_of es → ∃ k t, c = file_of (take k es) ++ t ∧ (k <= length es)%nat ∧ newline ∉ t
    ∧ (t = [] ∨ ∃ e q, es !! k = Some e ∧ text_of e = t ++ q).
Proof.
  revert c. induction es as [|e es IH]; intros c [r Hr].
  { exists 0%nat, []. unfold file_of, text in *. cbn in *. symmetry in Hr. apply app_eq_nil in Hr as [-> _]. split_and!; [done..|apply not_elem_of_nil|by left]. }
  destruct (text_of_spec e) as (_ & _ & Hn & _). change (file_of (e :: es)) with ((text_of e ++ [newline]) ++ file_of es) in Hr.
  apply app_eq_inv in Hr as [(l & E1 & E2)|(l & E1 & E2)].
  - destruct l as [|a l].
    { rewrite app_nil_r in E1. exists 1%nat, []. split_and!; [|cbn; lia|apply not_elem_of_nil|by left].
      unfold file_of, text. cbn. rewrite take_0. cbn. by rewrite !app_nil_r. }
    exists 0%nat, c. assert (∃ l', text_of e = c ++ l') as [l' El].
    { destruct (decide (l = [])) as [->|Hl]; [apply app_inj_tail in E1 as [E1 _]; by exists []; rewrite app_nil_r|].
      destruct (exists_last Hl) as (x & y & ->). rewrite app_comm_cons, app_assoc in E1. apply app_inj_tail in E1 as [E1 _]. by exists (a :: x). }
    split_and!; [done|lia| |by right; exists e, l']. intros Hc. apply Hn. rewrite El. set_solver.
  - destruct (IH l) as (k & t & -> & Hk & Ht & Hq); [by exists r|]. exists (S k), t. split_and!; [|cbn; lia|done|done].
    rewrite E1. change (take (S k) (e :: es)) with (e :: take k es). change (file_of (e :: take k es)) with ((text_of e ++ [newline]) ++ file_of (take k es)).
    by rewrite <-!app_assoc.
Qed.

Context {sound : SoundDisk}.

(** Where the last line of a journal's file starts. *)
Definition last_start (es : list JournalEntry) : option N := match es with [] => None | _ => Some (size_of (removelast es)) end.

Lemma last_start_snoc (es : list JournalEntry) (e : JournalEntry) : last_start (es ++ [e]) = Some (size_of es).
Proof. unfold last_start. rewrite removelast_last. by destruct es. Qed.

Lemma split_file (es : list JournalEntry) (t : bytes) : newline ∉ t → split_on newline (file_of es ++ t) = map text_of es ++ [t].
Proof.
  intros Ht. induction es as [|e es IH]; [by apply split_on_none|].
  change (file_of (e :: es)) with ((text_of e ++ [newline]) ++ file_of es). rewrite <-!app_assoc. cbn [app map].
  destruct (text_of_spec e) as (_ & _ & Hn & _). by rewrite split_on_app_sep, IH.
Qed.

Lemma file_of_newlines (es : list JournalEntry) : length (List.filter (fun a => bool_decide (a = newline)) (file_of es)) = length es.
Proof.
  induction es as [|e es IH]; [done|]. change (file_of (e :: es)) with ((text_of e ++ [newline]) ++ file_of es).
  rewrite !List.filter_app, !length_app, IH. destruct (text_of_spec e) as (_ & _ & Hn & _).
  rewrite filter_none; [done|]. intros a Ha. apply bool_decide_eq_false. by intros ->.
Qed.

Lemma size_of_prefix (es es' : list JournalEntry) : es' `prefix_of` es → size_of es' <= size_of es.
Proof. intros [r ->]. unfold size_of, file_of, text. rewrite !map_app, concat_app, length_app. lia. Qed.

(** No entry that is whole in the start of a file is lost. *)
Lemma whole_entries (es es' : list JournalEntry) (c t : bytes) (k : nat) :
  c = file_of (take k es) ++ t → newline ∉ t → es' `prefix_of` es → file_of es' `prefix_of` c → es' `prefix_of` take k es.
Proof.
  intros Ec Ht Hes' [r Hr]. destruct (prefix_weak_total es' (take k es) es) as [H|H]; [done|apply prefix_take|exact H|].
  apply (f_equal (List.filter (fun a => bool_decide (a = newline)))) in Hr. rewrite Ec, !List.filter_app in Hr.
  apply (f_equal length) in Hr. rewrite !length_app, !file_of_newlines, (filter_none _ t) in Hr.
  2: { intros a Ha. apply bool_decide_eq_false. by intros ->. }
  cbn in Hr. assert (es' = take k es) as ->; [|done]. symmetry. apply prefix_length_eq; [done|lia].
Qed.

(** A torn tail is cut off, a tail that only misses its end gets it. *)
Lemma load_tail_spec (p : bytes) (es : list JournalEntry) (e : JournalEntry) (t q : bytes) (d : Disk) (last : option N) :
  contents d = file_of es ++ t → text_of e = t ++ q → t ≠ [] → seq e = N.of_nat (length es) → N.of_nat (length es) < MAX_JOURNAL_ENTRIES →
  ∃ j d', load_tail p (N.of_nat (length (contents d))) (size_of es) es last t d = (Ok j, d') ∧ path j = Some p ∧
    match q with
    | [] => entries j = es ++ [e] ∧ contents d' = file_of (es ++ [e]) ∧ size j = saturating_add (N.of_nat (length (contents d))) 1 ∧ last_line_start j = Some (size_of es)
    | _ => entries j = es ∧ contents d' = file_of es ∧ size j = size_of es ∧ last_line_start j = last
    end.
Proof.
  intros Hd Et Ht Hs Hl. destruct (text_of_spec e) as (Hto & Hof & _ & Hws). unfold load_tail. destruct q as [|a q].
  - rewrite app_nil_r in Et. subst t. rewrite Hws, Hof, push_next by done. unfold terminate_line, append. rewrite appends, Hd.
    eexists _, _. split; [done|]. cbn. by rewrite file_of_snoc, <-app_assoc.
  - destruct (torn_text e (text_of e) t (a :: q) Hto Et Ht) as (-> & m & ->); [done|]. unfold truncate_tail. rewrite truncates.
    eexists _, _. split; [done|]. cbn. rewrite Hd. unfold size_of. rewrite Nat2N.id, take_app_le, take_ge by lia. done.
Qed.

(** What loading finds after a crash. *)
Lemma load_prefix (p : bytes) (es : list JournalEntry) (d : Disk) :
  dense es → N.of_nat (length es) <= MAX_JOURNAL_ENTRIES → size_of es <= MAX_JOURNAL_BYTES → contents d `prefix_of` file_of es →
  ∃ j d', load p d = (Ok j, d') ∧ on_disk p j d' ∧ entries j `prefix_of` es ∧ last_line_start j = last_start (entries j)
    ∧ file_of (entries j) `prefix_of` contents d ++ [newline]
    ∧ ∀ es', es' `prefix_of` es → file_of es' `prefix_of` contents d → es' `prefix_of` entries j.
Proof.
  intros Hd Hn Hs Hp. destruct (file_prefix es (contents d) Hp) as (k & t & Ec & Hk & Ht & Hq).
  assert (load p d = load_lines p (N.of_nat (length (contents d))) 0 0 [] None (map text_of (take k es) ++ [t]) d) as ->.
  { unfold load, read_journal_bounded. rewrite reads, <-split_file, <-Ec by done. destruct d as [c|]; [|done].
    destruct (N.ltb_spec MAX_JOURNAL_BYTES (N.of_nat (length c))) as [Hlt|]; [|done].
    apply prefix_length in Hp. unfold size_of in Hs. cbn in Hp. lia. }
  assert (take k es `prefix_of` es) as Htk by apply prefix_take.
  assert (length (take k es) = k) as Hlk by (rewrite length_take; lia).
  destruct (load_lines_texts p (N.of_nat (length (contents d))) 0 [] (take k es) None t d) as (last & ln & E & Hl0 & Hl1).
  { by eapply dense_prefix. }
  { cbn [app]. rewrite Hlk. lia. }
  change (load_lines p (N.of_nat (length (contents d))) 0 0 [] None (map text_of (take k es) ++ [t]) d = load_lines p (N.of_nat (length (contents d))) ln (size_of (take k es)) (take k es) last [t] d) in E.
  rewrite E. clear E. cbn [app] in Hl0, Hl1.
  assert (last = last_start (take k es)) as ->.
  { destruct (decide (take k es = [])) as [E0|E0]; [by rewrite E0, (Hl0 E0)|]. destruct (exists_last E0) as (x & y & Exy).
    rewrite Exy, last_start_snoc. by apply Hl1 in Exy. }
  assert (size_of (take k es) <= size_of es) as Hsz by by apply size_of_prefix.
  pose proof (fun es' => whole_entries es es' (contents d) t k Ec Ht) as Hmax.
  destruct t as [|a t].
  - cbn [load_lines]. exists (mkJournal (take k es) (Some p) (N.of_nat (length (contents d))) (last_start (take k es))), d.
    rewrite app_nil_r in Ec. split_and!; try done; [split; cbn; try done|cbn; exists [newline]; by rewrite Ec].
    + unfold size_of. by rewrite Ec.
    + lia.
    + by eapply dense_prefix.
  - destruct Hq as [?|(e & q & He & Eq)]; [done|].
    assert (seq e = N.of_nat k) as Hse by by apply Hd.
    assert (k < length es)%nat as Hke by by eapply lookup_lt_Some.
    destruct (load_tail_spec p (take k es) e (a :: t) q d (last_start (take k es)) Ec Eq) as (j & d' & E & Hpath & Hj); [done|by rewrite Hlk|rewrite Hlk; lia|].
    exists j, d'. split; [exact E|]. destruct q as [|b q].
    + destruct Hj as (He' & Hf & Hz & Hll). assert (take k es ++ [e] = take (S k) es) as Etk by by rewrite (take_S_r es k e).
      rewrite He'. assert (take (S k) es `prefix_of` es) as Hpk by apply prefix_take.
      assert (size_of (take (S k) es) <= size_of es) as Hsz' by by apply size_of_prefix.
      assert (file_of (take k es ++ [e]) = contents d ++ [newline]) as Ef.
      { rewrite file_of_snoc, Ec, <-app_assoc, Eq. by rewrite app_nil_r. }
      split_and!; [split|rewrite Etk; done|by rewrite last_start_snoc, Hll|by rewrite Ef|].
      * done.
      * by rewrite He'.
      * rewrite Hz, He'. unfold size_of. rewrite Ef, length_app. unfold saturating_add, U64_MAX. cbn.
        assert (N.of_nat (length (contents d)) <= MAX_JOURNAL_BYTES); [|unfold MAX_JOURNAL_BYTES in *; lia].
        apply prefix_length in Hp. unfold size_of in Hs. lia.
      * rewrite He', Etk. lia.
      * rewrite He'. apply dense_snoc; [by eapply dense_prefix|]. by rewrite Hlk.
      * intros es' H1 H2. etrans; [by apply Hmax|]. by exists [e].
    + destruct Hj as (He' & Hf & Hz & Hll). rewrite He', Hll. split_and!; [split|done|done|rewrite Ec, <-app_assoc; by eexists|done].
      * done.
      * by rewrite He'.
      * by rewrite Hz, He'.
      * rewrite He'. lia.
      * rewrite He'. by eapply dense_prefix.
Qed.

(** ** Recording and pruning *)

(** Whether there is room for the line of one more entry. *)
Definition fits (es : list JournalEntry) (e : JournalEntry) : bool := size_of (es ++ [e]) <=? MAX_JOURNAL_BYTES.

Lemma saturates_late (a b limit : N) : limit < U64_MAX → (limit <? saturating_add a b) = negb (a + b <=? limit).
Proof. unfold saturating_add. intros H. destruct (N.ltb_spec limit (N.min (a + b) U64_MAX)), (N.leb_spec (a + b) limit); (done || lia). Qed.

Lemma room_left (es : list JournalEntry) (e : JournalEntry) :
  (MAX_JOURNAL_BYTES <? saturating_add (size_of es) (N.of_nat (length (text_of e ++ [newline])))) = negb (fits es e).
Proof. rewrite saturates_late by done. unfold fits. by rewrite size_of_snoc, length_app. Qed.

Lemma size_after (es : list JournalEntry) (e : JournalEntry) :
  fits es e = true → saturating_add (size_of es) (N.of_nat (length (text_of e ++ [newline]))) = size_of (es ++ [e]).
Proof.
  unfold fits. intros H%N.leb_le. rewrite size_of_snoc in *. rewrite length_app. unfold saturating_add. apply N.min_l.
  assert (MAX_JOURNAL_BYTES <= U64_MAX) by done. cbn [length] in *. lia.
Qed.

Lemma record_on_disk (p : bytes) (n : N) (k hash : bytes) (v : Value) (now : N) (j : Journal) (d : Disk) :
  on_disk p j d → n = N.of_nat (length (entries j)) →
  let e := mkEntry n k hash v now in
  (fits (entries j) e = false ∧ record n k hash v now j d = (Err (Full n MAX_JOURNAL_BYTES), (j, d)))
  ∨ (fits (entries j) e = true ∧ ∃ j' d', record n k hash v now j d = (Ok tt, (j', d')) ∧ entries j' = entries j ++ [e] ∧ on_disk p j' d').
Proof.
  intros [Hp Hf Hz Hb Hd] Hn e. destruct (text_of_spec e) as (Et & _). unfold record. fold e. rewrite validate_next, Et, Hz, Hp, room_left by done.
  destruct (fits (entries j) e) eqn:Hfit; [right|by left]. split; [done|]. unfold append_line, append. rewrite appends, size_after by done.
  assert (seq e = N.of_nat (length (entries j))) as Hse by done.
  eexists _, _. split; [done|]. split; [done|]. clearbody e. apply N.leb_le in Hfit.
  split; cbn [path entries size contents default from_option id]; [done|by rewrite Hf, file_of_snoc|done|exact Hfit|by apply dense_snoc].
Qed.

(** Pruning takes the last entry off the journal and off its file. *)
Lemma prune_on_disk (p detail : bytes) (j : Journal) (d : Disk) (es : list JournalEntry) (e : JournalEntry) :
  on_disk p j d → entries j = es ++ [e] → last_line_start j = Some (size_of es) →
  (∃ m, get HOST_ERROR_KEY (result_ e) = Some (VString m) ∧ m ≠ [] ∧ contains_str m detail = true) →
  ∃ j' d', prune_trailing_host_error detail j d = (Ok true, (j', d')) ∧ entries j' = es ∧ on_disk p j' d'.
Proof.
  intros [Hp Hf Hz Hb Hd] He Hll (m & Hm & Hne & Hc). unfold prune_trailing_host_error. rewrite He, last_snoc. cbn [mbind option_bind]. rewrite Hm. cbn.
  assert ((m =b []) = false) as -> by by apply beq_false. rewrite Hc, Hll, Hp. cbn. unfold truncate_tail. rewrite truncates.
  eexists _, _. split; [done|]. rewrite removelast_last. split; [done|]. rewrite He in *. split; cbn [path entries size contents default from_option id].
  - done.
  - rewrite Hf, file_of_snoc. unfold size_of. by rewrite Nat2N.id, take_app_length.
  - done.
  - etrans; [|exact Hb]. apply size_of_prefix. by exists [e].
  - eapply dense_prefix; [done|]. by exists [e].
Qed.

End Laws.

(** ** Request hashes *)

Section Values.

Fixpoint value_ind_nested (P : Value → Prop) (Hnull : P VNull) (Hb : ∀ b, P (VBool b)) (Hn : ∀ t, P (VNumber t)) (Hs : ∀ s, P (VString s))
  (Ha : ∀ l, Forall P l → P (VArray l)) (Ho : ∀ m, Forall (fun kv => P kv.2) m → P (VObject m)) (v : Value) : P v :=
  match v with
  | VNull => Hnull | VBool b => Hb b | VNumber t => Hn t | VString s => Hs s
  | VArray l => Ha l ((fix go l := match l return Forall P l with [] => List.Forall_nil _ | v :: l => @List.Forall_cons _ P v l (value_ind_nested P Hnull Hb Hn Hs Ha Ho v) (go l) end) l)
  | VObject m => Ho m ((fix go m := match m return Forall (fun kv => P kv.2) m with [] => List.Forall_nil _ | kv :: m => @List.Forall_cons _ (fun kv => P kv.2) kv m (value_ind_nested P Hnull Hb Hn Hs Ha Ho kv.2) (go m) end) m)
  end.

(** Equal up to the order of the members of objects, at any depth; the keys of an object
    are distinct. *)
Inductive same_value : Value → Value → Prop :=
| same_refl v : same_value v v
| same_array l l' : Forall2 same_value l l' → same_value (VArray l) (VArray l')
| same_object m m1 m' : Forall2 (fun a b => a.1 = b.1 ∧ same_value a.2 b.2) m m1 → m1 ≡ₚ m' → NoDup (map fst m) → same_value (VObject m) (VObject m').

#[export] Instance key_le_total : Total key_le.
Proof. intros a b. apply bytes_leb_total. Qed.
#[export] Instance key_le_trans : Transitive key_le.
Proof. intros a b c. apply bytes_leb_trans. Qed.

(** Sorted lists of members with distinct keys are equal when they have the same
    members. *)
Lemma sorted_members_unique (m m' : list (bytes * Value)) :
  StronglySorted key_le m → StronglySorted key_le m' → NoDup (map fst m) → m ≡ₚ m' → m = m'.
Proof.
  revert m'. induction m as [|a m IH]; intros m' Hs Hs' Hnd Hp; [by apply Permutation_nil in Hp|].
  destruct m' as [|b m']; [by apply Permutation_sym, Permutation_nil in Hp|].
  apply StronglySorted_inv in Hs as [Hs Ha]. apply StronglySorted_inv in Hs' as [Hs' Hb]. cbn in Hnd. apply NoDup_cons in Hnd as [Hnin Hnd].
  rewrite Forall_forall in Ha, Hb.
  assert (a = b) as ->.
  { assert (a ∈ b :: m') as Hab by (rewrite <-Hp; left). assert (b ∈ a :: m) as Hba by (rewrite Hp; left).
    apply elem_of_cons in Hab as [?|Hab]; [done|]. apply elem_of_cons in Hba as [?|Hba]; [done|].
    exfalso. apply Hnin. pose proof (bytes_leb_antisym a.1 b.1 (Ha b Hba) (Hb a Hab)) as ->. apply (list_elem_of_fmap_2 fst). done. }
  f_equal. apply IH; [done..|]. by apply Permutation_cons_inv in Hp.
Qed.

Lemma canonical_members (m m' : list (bytes * Value)) :
  m ≡ₚ m' → NoDup (map fst m) → merge_sort key_le m = merge_sort key_le m'.
Proof.
  intros Hp Hnd. apply sorted_members_unique; [apply (StronglySorted_merge_sort key_le)..| |].
  - change (@map (bytes * Value) bytes) with (@fmap list _ (bytes * Value) bytes) in *. by rewrite (merge_sort_Permutation key_le m).
  - by rewrite !(merge_sort_Permutation key_le).
Qed.

Lemma canonical_same (v v' : Value) : same_value v v' → canonical_json v = canonical_json v'.
Proof.
  revert v'. induction v as [| | | |l IH|m IH] using value_ind_nested; intros v' Hv; inversion Hv as [|? l' Hl|? m1 m' Hm Hp Hnd]; subst; try done; cbn [canonical_json]; f_equal.
  - clear Hv. induction Hl as [|x y l l' Hxy Hl IHl]; [done|]. apply Forall_cons in IH as [Hx IH]. cbn. f_equal; [by apply Hx|by apply IHl].
  - assert (map (fun kv => (kv.1, canonical_json kv.2)) m = map (fun kv => (kv.1, canonical_json kv.2)) m1) as ->.
    { clear Hv Hp Hnd. induction Hm as [|x y m m1 [Hk Hxy] Hm IHm]; [done|]. apply Forall_cons in IH as [Hx IH]. cbn. f_equal; [by rewrite Hk, (Hx _ Hxy)|by apply IHm]. }
    apply canonical_members; [by apply Permutation_map|]. rewrite map_map. cbn.
    assert (map (fun x => x.1) m1 = map fst m) as ->; [|done]. clear Hv Hp Hnd IH. induction Hm as [|x y m m1 [Hk _] Hm IHm]; [done|]. cbn. by rewrite Hk, IHm.
Qed.

End Values.

(** ** A text format for journals

    The laws asked of JSON text and of the disk can be met: entries as their binary
    encodings between braces, and a disk without faults. *)

(** ** Encodings of values *)

Fixpoint value_tree (v : Value) : gen_tree bytes :=
  match v with
  | VNull => GenNode 0 []
  | VBool false => GenNode 1 []
  | VBool true => GenNode 2 []
  | VNumber t => GenNode 3 [GenLeaf t]
  | VString s => GenNode 4 [GenLeaf s]
  | VArray l => GenNode 5 (map value_tree l)
  | VObject m => GenNode 6 (map (fun kv => GenNode 0 [GenLeaf kv.1; value_tree kv.2]) m)
  end.

Fixpoint tree_value (t : gen_tree bytes) : Value :=
  match t with
  | GenNode 1 _ => VBool false
  | GenNode 2 _ => VBool true
  | GenNode 3 [GenLeaf t] => VNumber t
  | GenNode 4 [GenLeaf s] => VString s
  | GenNode 5 l => VArray (map tree_value l)
  | GenNode 6 l => VObject (map (fun t => match t with GenNode _ [GenLeaf k; v] => (k, tree_value v) | _ => ([], VNull) end) l)
  | _ => VNull
  end.

Lemma tree_value_tree (v : Value) : tree_value (value_tree v) = v.
Proof.
  induction v as [|[]|t|s|l IH|m IH] using value_ind_nested; cbn [value_tree tree_value]; try done; f_equal.
  - induction IH as [|v l Hv _ IH]; [done|]. cbn. by rewrite Hv, IH.
  - induction IH as [|[k v] m Hv _ IH]; [done|]. cbn in *. by rewrite Hv, IH.
Qed.

Definition entry_tree (e : JournalEntry) : gen_tree bytes :=
  GenNode (N.to_nat (Journal.seq e)) [GenLeaf (kind e); GenLeaf (req_hash e); value_tree (result_ e); GenNode (N.to_nat (at_ms e)) []].

Definition tree_entry (t : gen_tree bytes) : option JournalEntry :=
  match t with
  | GenNode n [GenLeaf k; GenLeaf h; v; GenNode t []] => Some (mkEntry (N.of_nat n) k h (tree_value v) (N.of_nat t))
  | _ => None
  end.

Lemma tree_entry_tree (e : JournalEntry) : tree_entry (entry_tree e) = Some e.
Proof. destruct e. unfold tree_entry, entry_tree. cbn. by rewrite tree_value_tree, !N2Nat.id. Qed.

(** ** Numbers as text *)

Definition ZERO : ascii := "0".
Definition ONE : ascii := "1".
Definition OPEN : ascii := "{".
Definition CLOSE : ascii := "}".

Fixpoint bits (n : positive) : bytes := match n with xH => [CLOSE] | xO n => ZERO :: bits n | xI n => ONE :: bits n end.

Fixpoint unbits (s : bytes) : option positive :=
  match s with
  | [] => None
  | a :: s =>
      if Ascii.eqb a ZERO then xO <$> unbits s
      else if Ascii.eqb a ONE then xI <$> unbits s
      else if Ascii.eqb a CLOSE then match s with [] => Some xH | _ => None end else None
  end.

Lemma unbits_bits (n : positive) : unbits (bits n) = Some n.
Proof. induction n as [n IH|n IH|]; cbn; [by rewrite IH..|done]. Qed.

Lemma unbits_torn (n : positive) (p q : bytes) : bits n = p ++ q → q ≠ [] → unbits p = None.
Proof.
  revert p. induction n as [n IH|n IH|]; intros [|a p] E Hq; try done; cbn in E; injection E as <- E; cbn; [by rewrite (IH p)..|].
  symmetry in E. by apply app_eq_nil in E as [_ ->].
Qed.

Lemma no_newline (n : positive) : newline ∉ bits n.
Proof. induction n as [n IH|n IH|]; cbn; rewrite ?not_elem_of_cons; (split; [done|]); [done..|apply not_elem_of_nil]. Qed.

(** ** The instances *)

Definition entry_line (e : JournalEntry) : bytes := OPEN :: bits (encode (entry_tree e)).

Definition line_entry (s : bytes) : result JournalEntry bytes :=
  match s with
  | a :: s =>
      if Ascii.eqb a OPEN then match (n ← unbits s; t ← decode (A:=gen_tree bytes) n; tree_entry t) with Some e => Ok e | None => Err $"no entry" end
      else Err $"expected value"
  | [] => Err $"EOF while parsing a value"
  end.

#[export] Instance brace_text : JsonText := {
  to_line e := Ok (entry_line e);
  of_line := line_entry;
  show_value v := bits (encode (value_tree v));
  sha256 s := take 32 (s ++ repeat newline 32);
}.

#[export] Instance brace_laws : JsonLaws.
Proof.
  split.
  - intros e. eexists. split; [reflexivity|]. split_and!; [|apply not_elem_of_cons; split; [done|apply no_newline]|done].
    cbn [of_line brace_text]. unfold line_entry, entry_line. rewrite Ascii.eqb_refl, unbits_bits. cbn [mbind option_bind].
    rewrite decode_encode. cbn [mbind option_bind]. by rewrite tree_entry_tree.
  - intros e t [|a p] q E Ht Hp Hq; [done|]. injection E as <-. cbn [app] in Ht. injection Ht as <- Ht. split; [done|]. eexists. cbn [of_line brace_text]. unfold line_entry.
    by rewrite Ascii.eqb_refl, (unbits_torn _ p q Ht Hq).
Qed.

#[export] Instance steady_disk : DiskFaults := { read_fault _ := None; append_fault _ _ := None; truncate_fault _ _ := None }.

#[export] Instance steady_disk_sound : SoundDisk.
Proof. done. Qed.

(** ** Hashes of calls *)

(** The hash that ties a journal entry to its call does not depend on the order in
    which the members of the call's options come, at any depth: calls equal up to that
    order are taken for each other on replay. *)
Theorem hash_ignores_member_order {json : JsonText} (k : bytes) (v v' : Value) : same_value v v' → request_hash k v = request_hash k v'.
Proof. intros H. unfold request_hash. by rewrite (canonical_same v v' H). Qed.

Lemma hash_ignores_member_order_witness :
  request_hash $"spawn_agent" (VObject [($"prompt", VNull); ($"label", VNull)]) = request_hash $"spawn_agent" (VObject [($"label", VNull); ($"prompt", VNull)]).
Proof.
  apply (hash_ignores_member_order (json := brace_text)). eapply same_object; [|apply perm_swap|].
  - by repeat constructor.
  - apply (bool_decide_unpack _). vm_compute. exact I.
Defined.
