(* ===== verification/WorkflowLaws.v ===== *)
(** * Laws of the workflow engine

    What each host function does to the journal: it only appends, on the disk as in
    memory; from equal journals it does the same; and a call that is recorded is answered
    from its entry later. *)

From S2P Require Import Prelude RustStr StrFind TextLines Journal Workflow JournalLaws.

#[local] Open Scope N_scope.
#[local] Open Scope workflow_scope.

Definition es (c : Ctx) : list JournalEntry := entries (journal c).

Section Laws.
Context {json : JsonText} {faults : DiskFaults} {laws : JsonLaws} {sound : SoundDisk}.
Variable p : bytes.

Definition settled (c : Ctx) : Prop := on_disk p (journal c) (disk c).

Lemma bind_eq {A B} (m : M A) (f : A → M B) (c : Ctx) :
  bind m f c = match m c with (Ok a, c) => f a c | (Err s, c) => (Err s, c) end.
Proof. done. Qed.

(** ** The journal only grows *)

Definition keeps {A} (m : M A) : Prop :=
  ∀ c, settled c → settled (m c).2 ∧ es c `prefix_of` es (m c).2 ∧ calls (m c).2 = calls c.

Lemma keeps_lift {A} (r : Ctx → result A Stop) : keeps (fun c => (r c, c)).
Proof. intros c Hc. done. Qed.

Lemma keeps_bind {A B} (m : M A) (f : A → M B) : keeps m → (∀ a, keeps (f a)) → keeps (bind m f).
Proof.
  intros Hm Hf c Hc. unfold bind. destruct (Hm c Hc) as (H1 & H2 & H3). destruct (m c) as [[a|s] c1]; [|done].
  destruct (Hf a c1 H1) as (H4 & H5 & H6). split_and!; [done|by etrans|cbn in *; congruence].
Qed.

Lemma keeps_send (n : N) (r : WorkflowHostRequest) : keeps (modify (send n r)).
Proof. intros c Hc. done. Qed.

Lemma keeps_next_seq : keeps next_seq.
Proof. intros c Hc. unfold next_seq. destruct (U64_MAX <? _); [done|]. by destruct (MAX_HOST_CALLS <? _). Qed.

(** Recording on a settled journal: at the next number, with room, or not at all. *)
Lemma record_result_cases (w : World) (n : N) (k hash : bytes) (v : Value) (c : Ctx) :
  settled c →
  let e := mkEntry n k hash v (clock w n) in
  (n = N.of_nat (length (es c)) ∧ fits (es c) e = true ∧ ∃ c1, record_result w n k hash v c = (Ok tt, c1) ∧ es c1 = es c ++ [e] ∧ settled c1
     ∧ ctx_seq c1 = ctx_seq c ∧ calls c1 = calls c ∧ sent c1 = sent c)
  ∨ (n = N.of_nat (length (es c)) ∧ fits (es c) e = false ∧ record_result w n k hash v c = (Err (journal_fatal (Full n MAX_JOURNAL_BYTES)), c))
  ∨ (n ≠ N.of_nat (length (es c)) ∧ record_result w n k hash v c = (Err (journal_fatal (OutOfSequence (N.of_nat (length (es c))) (N.of_nat (length (es c))) n)), c)).
Proof.
  intros Hc e. destruct (decide (n = N.of_nat (length (es c)))) as [Hn|Hn].
  - destruct (record_on_disk p n k hash v (clock w n) (journal c) (disk c) Hc Hn) as [[Hf E]|(Hf & j' & d' & E & He & Hd)].
    + right. left. split_and!; [done..|]. unfold record_result. rewrite E. by destruct c.
    + left. split_and!; [done..|]. eexists. unfold record_result. rewrite E. split; [done|]. done.
  - right. right. split; [done|]. unfold record_result, record, validate_sequence. cbn [seq]. fold (es c).
    rewrite (proj2 (N.eqb_neq _ _) Hn). by destruct c.
Qed.

Lemma keeps_record (w : World) (n : N) (k hash : bytes) (v : Value) : keeps (record_result w n k hash v).
Proof.
  intros c Hc. destruct (record_result_cases w n k hash v c Hc) as [(_ & _ & c1 & -> & He & Hs & _ & Hk & _)|[(_ & _ & ->)|(_ & ->)]]; cbn; [|done..].
  split_and!; [done|rewrite He; by eexists|done].
Qed.

Create HintDb keeps discriminated.
#[local] Hint Resolve keeps_lift keeps_send keeps_next_seq keeps_record : keeps.

Ltac keep :=
  repeat match goal with
  | |- keeps (bind _ _) => apply keeps_bind; [|intros ?]
  | |- keeps (ret _) => apply (keeps_lift (fun _ => Ok _))
  | |- keeps (stop _) => apply (keeps_lift (fun _ => Err _))
  | |- keeps (read _) => apply (keeps_lift (fun _ => Ok _))
  | |- keeps (lift _) => apply (keeps_lift (fun _ => _))
  | |- keeps (match ?x with _ => _ end) => destruct x
  | |- keeps _ => solve [auto with keeps]
  end.

Variable w : World.

Lemma keeps_host_call {T} (k : bytes) (payload : Value) (request : WorkflowHostRequest) (reply : N → Reply T) (to_result : T → Value) :
  keeps (host_call w k payload request reply to_result).
Proof. unfold host_call. keep; apply keeps_lift. Qed.

Lemma keeps_host_emit (build : bool → WorkflowHostRequest) : keeps (host_emit w build).
Proof. unfold host_emit. keep. Qed.

Lemma keeps_reserve (n : nat) : keeps (reserve_agent_calls w n).
Proof. unfold reserve_agent_calls. keep. Qed.

Lemma keeps_release (n : nat) : keeps (release_agent_calls w n).
Proof. unfold release_agent_calls. keep. Qed.

#[local] Hint Resolve keeps_host_call keeps_host_emit keeps_reserve keeps_release : keeps.

(** An error that is handled before it goes on. *)
Lemma keeps_handled {A B} (m : M A) (f : A → M B) (h : Stop → M B) :
  keeps m → (∀ a, keeps (f a)) → (∀ s, keeps (h s)) → keeps (fun c => match m c with (Ok a, c) => f a c | (Err s, c) => h s c end).
Proof.
  intros Hm Hf Hh c Hc. destruct (Hm c Hc) as (H1 & H2 & H3). destruct (m c) as [[a|s] c1].
  - destruct (Hf a c1 H1) as (H4 & H5 & H6). split_and!; [done|by etrans|cbn in *; congruence].
  - destruct (Hh s c1 H1) as (H4 & H5 & H6). split_and!; [done|by etrans|cbn in *; congruence].
Qed.

(** [spawn_agent_call] behind the reservation. *)
Definition spawn_and_release (o : AgentOpts) (is_live : bool) : M Value := fun c =>
  match host_call w SPAWN_AGENT (agent_payload o) (SpawnAgent o) (fun n => spawn_reply w n o) result_value c with
  | (Ok v, c) => ret v c
  | (Err e, c) => (if is_live && is_resumable_unjournaled_terminal e then release_agent_calls w 1;;; stop e else stop e) c
  end.

Lemma spawn_agent_call_eq (o : AgentOpts) (c : Ctx) :
  spawn_agent_call w o c =
  (let* found := (fun c => of_journal (replay_spawn_agent (journal c) (ctx_seq c) (agent_payload o) (agent_hash o)) c) in
   let is_live := match found with Some _ => false | None => true end in
   (if is_live then reserve_agent_calls w 1 else ret tt);;; spawn_and_release o is_live) c.
Proof.
  unfold spawn_agent_call, bind. destruct (of_journal _ c) as [[found|e] c1]; [|done].
  destruct found; (match goal with |- context [match ?m c1 with _ => _ end] => destruct (m c1) as [[[]|e] c2] end; [|done]);
    unfold spawn_and_release; destruct (host_call _ _ _ _ _ _ c2) as [[v'|e] c3]; try done; by destruct (is_resumable_unjournaled_terminal e).
Qed.

Lemma keeps_spawn_and_release (o : AgentOpts) (is_live : bool) : keeps (spawn_and_release o is_live).
Proof.
  refine (keeps_handled _ ret (fun e => if is_live && is_resumable_unjournaled_terminal e then release_agent_calls w 1;;; stop e else stop e) _ _ _);
    [auto with keeps|intros; keep|intros e; destruct (is_live && _); keep].
Qed.

#[local] Hint Resolve keeps_spawn_and_release : keeps.

Lemma keeps_spawn (o : AgentOpts) : keeps (spawn_agent_call w o).
Proof.
  intros c. rewrite spawn_agent_call_eq. revert c. change (keeps (let* found := (fun c => of_journal (replay_spawn_agent (journal c) (ctx_seq c) (agent_payload o) (agent_hash o)) c) in
   (if match found with Some _ => false | None => true end then reserve_agent_calls w 1 else ret tt);;; spawn_and_release o (match found with Some _ => false | None => true end))).
  keep; apply keeps_lift.
Qed.

Lemma keeps_start_all (os : list AgentOpts) : keeps (start_all w os).
Proof. induction os as [|o os IH]; cbn [start_all]; keep; apply keeps_lift. Qed.

Lemma keeps_record_all (rs : list (option (N * bytes) * Value)) (error : option Stop) : keeps (record_all w rs error).
Proof.
  induction rs as [|[[[n hash]|] v] rs IH]; cbn [record_all]; [keep| |done].
  apply (keeps_handled (record_result w n SPAWN_AGENT hash v) (fun _ => record_all w rs error) (fun e => ret (get_or_insert error e)));
    [auto with keeps|done|intros; keep].
Qed.

#[local] Hint Resolve keeps_spawn keeps_start_all keeps_record_all : keeps.

Lemma keeps_parallel (items : list (option (result AgentOpts bytes))) : keeps (parallel w items).
Proof. unfold parallel. keep; apply keeps_lift. Qed.

Lemma keeps_await (k m : bytes) : keeps (await_user w k m).
Proof. unfold await_user. keep; apply keeps_lift. Qed.

Lemma keeps_call_host (f : HostFn) : keeps (call_host w f).
Proof. destruct f; cbn [call_host]; unfold text_call; keep; auto using keeps_parallel, keeps_await with keeps. Qed.

(** A run only appends to its journal and the journal's file follows. *)
Lemma eval_keeps (s : Script) (c : Ctx) : settled c → settled (eval w s c).2 ∧ es c `prefix_of` es (eval w s c).2.
Proof.
  revert c. induction s as [v|e|f next IH]; intros c Hc; cbn [eval]; (destruct (cancelled_before w (calls c)); [done|]); [done..|].
  destruct (keeps_call_host f c Hc) as (H1 & H2 & _). destruct (call_host w f c) as [[v|[t|m]] c1]; cbn in *; [|done|].
  all: destruct (IH (Ok v) (count_call c1) H1) as [H3 H4] || destruct (IH (Err m) (count_call c1) H1) as [H3 H4]; split; [done|]; by etrans.
Qed.

End Laws.

(** ** Twin runs

    Two runs of a script from one journal that get the same replies do the same. *)

#[local] Open Scope N_scope.
#[local] Open Scope workflow_scope.

(** Two worlds give the same answers to the calls from number [b] on; what the first
    grants of a reservation, the second grants of any smaller one. *)
Record agree (b : N) (w w' : World) : Prop := {
  same_reserve n k : b <= n → reserve_reply w n k = reserve_reply w' n k;
  same_spawn n o : b <= n → spawn_reply w n o = spawn_reply w' n o;
  same_budget n : b <= n → budget_reply w n = budget_reply w' n;
  same_text n r : b <= n → text_reply w n r = text_reply w' n r;
  same_clock n : b <= n → clock w n = clock w' n;
  same_cancel k : cancelled_before w k = cancelled_before w' k;
  still_granted n k k' : k' <= k → reserve_reply w n k = Replied (Ok tt) → reserve_reply w' n k' = Replied (Ok tt);
}.

Section Twins.
Context {json : JsonText} {faults : DiskFaults} {laws : JsonLaws} {sound : SoundDisk}.
Variable p : bytes.

(** The same place of a run. *)
Record twin (c c' : Ctx) : Prop := {
  twin_es : es c = es c';
  twin_left : settled p c;
  twin_right : settled p c';
  twin_seq : ctx_seq c = ctx_seq c';
  twin_calls : calls c = calls c';
}.

Variable b : N.

Definition mirrors {A} (Q : A → Prop) (m m' : M A) : Prop :=
  ∀ c c', twin c c' → b <= ctx_seq c →
    (m c).1 = (m' c').1 ∧ twin (m c).2 (m' c').2 ∧ ctx_seq c <= ctx_seq (m c).2 ∧ ∀ a, (m c).1 = Ok a → Q a.

Definition any {A} (_ : A) : Prop := True.

Lemma mirrors_pure {A} (Q : A → Prop) (r r' : Ctx → result A Stop) :
  (∀ c c', twin c c' → b <= ctx_seq c → r c = r' c' ∧ ∀ a, r c = Ok a → Q a) → mirrors Q (fun c => (r c, c)) (fun c => (r' c, c)).
Proof. intros H c c' Hc Hb. destruct (H c c' Hc Hb) as [E HQ]. by split_and!. Qed.

Lemma mirrors_ret {A} (Q : A → Prop) (a : A) : Q a → mirrors Q (ret a) (ret a).
Proof. intros Ha. apply (mirrors_pure Q (fun _ => Ok a) (fun _ => Ok a)). intros c c' _ _. split; [done|]. by intros ? [= <-]. Qed.

Lemma mirrors_stop {A} (Q : A → Prop) (s : Stop) : mirrors Q (stop s) (stop s).
Proof. by apply (mirrors_pure Q (fun _ => Err s) (fun _ => Err s)). Qed.

Lemma mirrors_lift {A} (r : result A Stop) : mirrors any (lift r) (lift r).
Proof. by apply (mirrors_pure any (fun _ => r) (fun _ => r)). Qed.

Lemma mirrors_read_seq : mirrors (fun n => b <= n) (read ctx_seq) (read ctx_seq).
Proof.
  apply (mirrors_pure _ (fun c => Ok (ctx_seq c)) (fun c => Ok (ctx_seq c))). intros c c' Hc Hb. rewrite (twin_seq _ _ Hc) in *.
  split; [done|]. by intros ? [= <-].
Qed.

Lemma mirrors_read {A} (f : Ctx → A) : (∀ c c', twin c c' → f c = f c') → mirrors any (read f) (read f).
Proof. intros H. apply (mirrors_pure any (fun c => Ok (f c)) (fun c => Ok (f c))). intros c c' Hc _. by rewrite (H c c' Hc). Qed.

Lemma mirrors_of_journal {A} (f : Ctx → result A JournalError) :
  (∀ c c', twin c c' → f c = f c') → mirrors any (fun c => of_journal (f c) c) (fun c => of_journal (f c) c).
Proof.
  intros H. apply (mirrors_pure any (fun c => match f c with Ok a => Ok a | Err e => Err (journal_fatal e) end) (fun c => match f c with Ok a => Ok a | Err e => Err (journal_fatal e) end)).
  intros c c' Hc _. by rewrite (H c c' Hc).
Qed.

Lemma mirrors_bind {A B} (P : A → Prop) (Q : B → Prop) (m m' : M A) (f f' : A → M B) :
  mirrors P m m' → (∀ a, P a → mirrors Q (f a) (f' a)) → mirrors Q (bind m f) (bind m' f').
Proof.
  intros Hm Hf c c' Hc Hb. destruct (Hm c c' Hc Hb) as (E & H1 & H2 & H3). unfold bind.
  destruct (m c) as [[a|s] c1], (m' c') as [[a'|s'] c1']; cbn in *; try done; [|split_and!; [congruence|done..]].
  injection E as <-. destruct (Hf a (H3 a eq_refl) c1 c1' H1) as (E & H4 & H5 & H6); [lia|]. split_and!; [done..|lia|done].
Qed.

(** Errors that are handled, as in [bind]. *)
Lemma mirrors_handled {A B} (Q : B → Prop) (m m' : M A) (f f' : A → M B) (h h' : Stop → M B) :
  mirrors any m m' → (∀ a, mirrors Q (f a) (f' a)) → (∀ s, mirrors Q (h s) (h' s)) →
  mirrors Q (fun c => match m c with (Ok a, c) => f a c | (Err s, c) => h s c end) (fun c => match m' c with (Ok a, c) => f' a c | (Err s, c) => h' s c end).
Proof.
  intros Hm Hf Hh c c' Hc Hb. destruct (Hm c c' Hc Hb) as (E & H1 & H2 & H3).
  destruct (m c) as [[a|s] c1], (m' c') as [[a'|s'] c1']; cbn in *; try done; injection E as <-.
  - destruct (Hf a c1 c1' H1) as (E & H4 & H5 & H6); [lia|]. split_and!; [done..|lia|done].
  - destruct (Hh s c1 c1' H1) as (E & H4 & H5 & H6); [lia|]. split_and!; [done..|lia|done].
Qed.

Lemma mirrors_send (n n' : N) (r r' : WorkflowHostRequest) : mirrors any (modify (send n r)) (modify (send n' r')).
Proof. intros c c' [] Hb. split_and!; cbn; [done|by split|lia|done]. Qed.

(** Requests whose reply does not matter may be heard in one world only. *)
Lemma mirrors_tell (h h' : bool) (n n' : N) (r r' : WorkflowHostRequest) :
  mirrors any (if h then modify (send n r) else ret tt) (if h' then modify (send n' r') else ret tt).
Proof. intros c c' Hc Hb. destruct Hc. destruct h, h'; split_and!; cbn; (done || lia || by split). Qed.

Lemma mirrors_next_seq : mirrors (fun n => b <= n) next_seq next_seq.
Proof.
  intros c c' Hc Hb. unfold next_seq. rewrite <-(twin_seq _ _ Hc). destruct (U64_MAX <? _); [by split_and!|]. destruct (MAX_HOST_CALLS <? _); [by split_and!|].
  destruct Hc. split_and!; cbn; [done|by split|lia|by intros ? [= <-]].
Qed.

Lemma mirrors_record (w w' : World) (n : N) (k hash : bytes) (v : Value) :
  agree b w w' → b <= n → mirrors any (record_result w n k hash v) (record_result w' n k hash v).
Proof.
  intros Hw Hn c c' Hc Hb. pose proof (same_clock _ _ _ Hw n Hn) as Hclock. destruct Hc as [He Hl Hr Hs Hk].
  pose proof (record_result_cases p w n k hash v c Hl) as H. pose proof (record_result_cases p w' n k hash v c' Hr) as H'.
  cbv zeta in *. rewrite <-Hclock, <-He in H'.
  destruct H as [(E & F & c1 & -> & E1 & S1 & Q1 & K1 & _)|[(E & F & ->)|(E & ->)]];
    destruct H' as [(E' & F' & c1' & -> & E1' & S1' & Q1' & K1' & _)|[(E' & F' & ->)|(E' & ->)]]; try congruence;
    split_and!; cbn; try done; try lia; try (split; congruence).
Qed.

Lemma replay_entries (n : N) (k hash : bytes) (j j' : Journal) : entries j = entries j' → replay n k hash j = replay n k hash j'.
Proof. intros E. unfold replay. by rewrite E. Qed.

Lemma replay_spawn_entries (n : N) (payload : Value) (hash : bytes) (j j' : Journal) :
  entries j = entries j' → replay_spawn_agent j n payload hash = replay_spawn_agent j' n payload hash.
Proof. intros E. unfold replay_spawn_agent. rewrite (replay_entries n _ hash j j' E). destruct payload; try done. destruct (member _ _); [|done]. by rewrite (replay_entries _ _ _ j j' E). Qed.

Lemma replay_call_entries (n : N) (k : bytes) (payload : Value) (hash : bytes) (j j' : Journal) :
  entries j = entries j' → replay_call j n k payload hash = replay_call j' n k payload hash.
Proof. intros E. unfold replay_call. by rewrite (replay_spawn_entries _ _ _ j j' E), (replay_entries _ _ _ j j' E). Qed.

Variables w w' : World.
Hypothesis Hw : agree b w w'.

Create HintDb mirrors discriminated.
#[local] Hint Resolve mirrors_ret mirrors_stop mirrors_lift mirrors_read_seq mirrors_send mirrors_tell mirrors_next_seq mirrors_record : mirrors.
#[local] Hint Extern 1 (any _) => exact I : mirrors.

Ltac mirror :=
  repeat match goal with
  | |- mirrors _ (bind next_seq _) _ => apply (mirrors_bind (fun n => b <= n)); [solve [auto with mirrors]|intros ? ?]
  | |- mirrors _ (bind (read ctx_seq) _) _ => apply (mirrors_bind (fun n => b <= n)); [solve [auto with mirrors]|intros ? ?]
  | |- mirrors _ (bind _ _) _ => apply (mirrors_bind any); [|intros ? _]
  | |- mirrors _ _ _ => solve [auto with mirrors]
  | |- mirrors _ (match ?x with _ => _ end) _ => destruct x
  end.

Lemma mirrors_host_call {T} (k : bytes) (payload : Value) (request : WorkflowHostRequest) (reply reply' : N → Reply T) (to_result : T → Value) :
  (∀ n, b <= n → reply n = reply' n) → mirrors any (host_call w k payload request reply to_result) (host_call w' k payload request reply' to_result).
Proof.
  intros Hr. unfold host_call. apply (mirrors_bind (fun n => b <= n)); [auto with mirrors|intros n Hn].
  apply (mirrors_bind any); [apply mirrors_of_journal; intros c c' Hc; apply replay_call_entries, Hc|intros found _].
  rewrite <-Hr by done. mirror.
Qed.

Lemma mirrors_host_emit (build : bool → WorkflowHostRequest) : mirrors any (host_emit w build) (host_emit w' build).
Proof.
  unfold host_emit. mirror.
  - apply mirrors_read. intros c c' Hc. unfold replaying, covers. rewrite (twin_seq _ _ Hc). by rewrite (twin_es _ _ Hc : entries _ = _).
  - apply mirrors_read. intros c c' Hc. apply Hc.
Qed.

Lemma mirrors_reserve (n : nat) : mirrors any (reserve_agent_calls w n) (reserve_agent_calls w' n).
Proof.
  unfold reserve_agent_calls. destruct (n =? 0)%nat; [mirror|]. apply (mirrors_bind (fun n => b <= n)); [auto with mirrors|intros k Hk].
  rewrite <-(same_reserve _ _ _ Hw) by done. mirror.
Qed.

Lemma mirrors_release (n : nat) : mirrors any (release_agent_calls w n) (release_agent_calls w' n).
Proof. unfold release_agent_calls. mirror. apply mirrors_read. intros c c' Hc. apply Hc. Qed.

#[local] Hint Resolve mirrors_host_call mirrors_host_emit mirrors_reserve mirrors_release : mirrors.

Lemma mirrors_spawn (o : AgentOpts) : mirrors any (spawn_agent_call w o) (spawn_agent_call w' o).
Proof.
  intros c c'. rewrite !spawn_agent_call_eq. revert c c'.
  apply (mirrors_bind any); [apply mirrors_of_journal; intros c c' Hc; rewrite (twin_seq _ _ Hc); apply replay_spawn_entries, Hc|].
  intros found _. apply (mirrors_bind any); [mirror|intros _ _]. set (is_live := match found with Some _ => false | None => true end).
  refine (mirrors_handled any _ _ ret ret (fun e => if is_live && is_resumable_unjournaled_terminal e then release_agent_calls w 1;;; stop e else stop e)
    (fun e => if is_live && is_resumable_unjournaled_terminal e then release_agent_calls w' 1;;; stop e else stop e) _ _ _); [|intros a; mirror|intros e; destruct (is_live && _); mirror].
  apply mirrors_host_call. intros n Hn. by apply (same_spawn _ _ _ Hw).
Qed.

Definition from_b (x : PendingAgent) : Prop := match x with LiveAgent n _ _ => b <= n | ReplayedAgent _ => True end.

Lemma mirrors_start_all (os : list AgentOpts) : mirrors (Forall from_b) (start_all w os) (start_all w' os).
Proof.
  induction os as [|o os IH]; cbn [start_all]; [apply mirrors_ret, Forall_nil_2|].
  apply (mirrors_bind (fun n => b <= n)); [auto with mirrors|intros n Hn].
  apply (mirrors_bind any); [apply mirrors_of_journal; intros c c' Hc; apply replay_spawn_entries, Hc|intros found _].
  apply (mirrors_bind from_b).
  - rewrite <-(same_spawn _ _ _ Hw) by done. destruct found; [by apply mirrors_ret|]. destruct (spawn_reply w n o); [apply mirrors_stop|..].
    all: by apply (mirrors_bind any); [auto with mirrors|intros _ _; apply mirrors_ret].
  - intros x Hx. apply (mirrors_bind (Forall from_b)); [done|]. intros xs Hxs. by apply mirrors_ret, Forall_cons.
Qed.

Lemma count_live_entries (j j' : Journal) (n : N) (os : list AgentOpts) : entries j = entries j' → count_live j n os = count_live j' n os.
Proof. intros E. revert n. induction os as [|o os IH]; intros n; cbn [count_live]; [done|]. by rewrite (replay_spawn_entries _ _ _ j j' E), IH. Qed.

Lemma mirrors_record_all (rs : list (option (N * bytes) * Value)) (error : option Stop) :
  Forall (fun r => ∀ n hash, r.1 = Some (n, hash) → b <= n) rs → mirrors any (record_all w rs error) (record_all w' rs error).
Proof.
  intros Hrs. induction Hrs as [|[[[n hash]|] v] rs Hn Hrs IH]; cbn [record_all]; [mirror| |done].
  refine (mirrors_handled any _ _ (fun _ => record_all w rs error) (fun _ => record_all w' rs error) (fun e => ret (get_or_insert error e)) (fun e => ret (get_or_insert error e)) _ _ _);
    [|done|intros; mirror]. apply mirrors_record; [done|by eapply Hn].
Qed.

Definition row_from_b (r : option (N * bytes) * Value) : Prop := ∀ n hash, r.1 = Some (n, hash) → b <= n.

Lemma gather_from_b (ps : list PendingAgent) : Forall from_b ps → Forall row_from_b (resolved (gather ps)).
Proof.
  unfold gather. assert (Forall row_from_b (resolved (mkGathered [] None None false))) as Hg by constructor.
  revert Hg. generalize (mkGathered [] None None false). intros g Hg Hps. revert g Hg. induction Hps as [|x ps Hx Hps IH]; intros g Hg; [done|]. cbn [fold_left]. apply IH.
  assert (∀ k e r, resolved (with_terminal k g) = resolved g ∧ resolved (with_error e g) = resolved g ∧ (row_from_b r → Forall row_from_b (resolved (with_resolved r g)))) as Hkeep.
  { intros k e r. split_and!; [done..|]. intros Hr. cbn. apply Forall_app_2; [done|by repeat constructor]. }
  destruct x as [v|n hash reply]; cbn [gather_one].
  - destruct (is_host_terminal_sentinel v); [done|]. destruct (replay_host_error v); [done|]. by apply (Hkeep [] overflowed).
  - assert (row_from_b (Some (n, hash), VNull)) as Hr by by intros ? ? [= <- <-].
    destruct reply as [[?|[]]|]; cbn; apply Forall_app_2; (done || by repeat constructor).
Qed.

Lemma mirrors_parallel (items : list (option (result AgentOpts bytes))) : mirrors any (parallel w items) (parallel w' items).
Proof.
  unfold parallel. destruct (_ <? _)%nat; [mirror|]. apply (mirrors_bind any); [mirror|intros os _].
  apply (mirrors_bind any).
  { apply (mirrors_pure any (fun c => count_live (journal c) (ctx_seq c) os) (fun c => count_live (journal c) (ctx_seq c) os)). intros c c' Hc _.
    rewrite (twin_seq _ _ Hc). by rewrite (count_live_entries (journal c) (journal c')) by apply Hc. }
  intros live _. apply (mirrors_bind any); [mirror|intros _ _]. apply (mirrors_bind (Forall from_b)); [apply mirrors_start_all|intros ps Hps].
  apply (mirrors_bind any); [|intros error _; mirror]. destruct (resumable (gather ps)); [mirror|]. by apply mirrors_record_all, gather_from_b.
Qed.

Lemma mirrors_await (k m : bytes) : mirrors any (await_user w k m) (await_user w' k m).
Proof.
  unfold await_user. destruct (parse_pause_kind k); [|mirror]. apply (mirrors_bind (fun n => b <= n)); [auto with mirrors|intros n Hn].
  apply (mirrors_bind any); [apply mirrors_of_journal; intros c c' Hc; apply replay_entries, Hc|intros found _]. mirror.
Qed.

(** From twin places one host function does the same in both worlds. *)
Lemma mirrors_call_host (f : HostFn) : mirrors any (call_host w f) (call_host w' f).
Proof.
  destruct f; cbn [call_host]; unfold text_call; mirror.
  - apply mirrors_spawn.
  - apply mirrors_spawn.
  - apply mirrors_parallel.
  - apply mirrors_await.
  - apply mirrors_host_call, (same_budget _ _ _ Hw).
  - apply mirrors_host_call. intros n Hn. by apply (same_text _ _ _ Hw).
  - apply mirrors_host_call. intros n Hn. by apply (same_text _ _ _ Hw).
  - apply mirrors_host_call. intros n Hn. by apply (same_text _ _ _ Hw).
  - apply mirrors_host_call. intros n Hn. by apply (same_text _ _ _ Hw).
Qed.

End Twins.

(** ** Resuming

    A run from an empty journal, and a run that starts from a part of what the first
    recorded: call by call the second follows the first. *)

#[local] Open Scope N_scope.
#[local] Open Scope workflow_scope.

(** A host whose errors are the ones a journal can hold: reservations are granted or end
    the run, and quotas are what reservations are for. *)
Record steady (w : World) : Prop := {
  reserve_decides n k m : reserve_reply w n k ≠ Replied (Err (Unsupported m)) ∧ reserve_reply w n k ≠ Replied (Err (HostFailed m));
  spawn_no_quota n o q m : spawn_reply w n o ≠ Replied (Err (AgentCallQuotaExceeded q m));
  budget_no_quota n q m : budget_reply w n ≠ Replied (Err (AgentCallQuotaExceeded q m));
  text_no_quota n r q m : text_reply w n r ≠ Replied (Err (AgentCallQuotaExceeded q m));
}.

(** What a recorded result answers. *)
Definition recorded_answer (v : Value) : result Value Stop := match replay_host_error v with Some e => Err e | None => Ok v end.

Definition pauses (a : result Value Stop) : Prop := ∃ k m, a = Err (Terminated (TPause k m)).

Section Resume.
Context {json : JsonText} {faults : DiskFaults} {laws : JsonLaws} {sound : SoundDisk}.
Variable p : bytes.

(** Between two calls of a run from an empty journal. *)
Definition fresh (c : Ctx) : Prop := settled p c ∧ ctx_seq c = N.of_nat (length (es c)).

Lemma replay_unheld (n : N) (k hash : bytes) (j : Journal) : N.of_nat (length (entries j)) <= n → replay n k hash j = Ok None.
Proof. intros H. unfold replay. by rewrite lookup_ge_None_2 by lia. Qed.

Lemma replay_spawn_unheld (n : N) (payload : Value) (hash : bytes) (j : Journal) :
  N.of_nat (length (entries j)) <= n → replay_spawn_agent j n payload hash = Ok None.
Proof. intros H. unfold replay_spawn_agent. rewrite replay_unheld by done. destruct payload; try done. destruct (member _ _); [|done]. by rewrite replay_unheld. Qed.

Lemma replay_call_unheld (n : N) (k : bytes) (payload : Value) (hash : bytes) (j : Journal) :
  N.of_nat (length (entries j)) <= n → replay_call j n k payload hash = Ok None.
Proof. intros H. unfold replay_call. rewrite replay_spawn_unheld, replay_unheld by done. by destruct (_ =b _). Qed.

(** The entry [e] holds the result of a call. *)
Definition holds (c : Ctx) (n : N) (k hash : bytes) (e : JournalEntry) : Prop :=
  es c !! N.to_nat n = Some e ∧ seq e = n ∧ kind e = k ∧ req_hash e = hash.

Lemma replay_held (c : Ctx) (n : N) (k hash : bytes) (e : JournalEntry) : holds c n k hash e → replay n k hash (journal c) = Ok (Some (result_ e)).
Proof. intros (E & H & <- & <-). unfold replay, es in *. by rewrite E, H, N.eqb_refl, !beq_refl. Qed.

Lemma replay_spawn_held (c : Ctx) (n : N) (payload : Value) (hash : bytes) (e : JournalEntry) :
  holds c n SPAWN_AGENT hash e → replay_spawn_agent (journal c) n payload hash = Ok (Some (result_ e)).
Proof. intros H. unfold replay_spawn_agent. by rewrite (replay_held c n _ hash e H). Qed.

Lemma replay_call_held (c : Ctx) (n : N) (k : bytes) (payload : Value) (hash : bytes) (e : JournalEntry) :
  holds c n k hash e → replay_call (journal c) n k payload hash = Ok (Some (result_ e)).
Proof.
  intros H. unfold replay_call. destruct (k =b SPAWN_AGENT) eqn:K; [|by apply replay_held].
  apply beq_true in K as ->. by apply replay_spawn_held.
Qed.

Lemma next_seq_ok (c : Ctx) : ctx_seq c + 1 <= MAX_HOST_CALLS → next_seq c = (Ok (ctx_seq c), with_seq (ctx_seq c + 1) c).
Proof.
  intros H. unfold next_seq. destruct (N.ltb_spec U64_MAX (ctx_seq c + 1)) as [Hl|]; [assert (MAX_HOST_CALLS <= U64_MAX) by done; lia|].
  by destruct (N.ltb_spec MAX_HOST_CALLS (ctx_seq c + 1)); [lia|].
Qed.

Lemma next_seq_cases (c : Ctx) :
  (ctx_seq c + 1 <= MAX_HOST_CALLS ∧ next_seq c = (Ok (ctx_seq c), with_seq (ctx_seq c + 1) c)) ∨ ∃ m, next_seq c = (Err (Terminated (TFatal m)), c).
Proof.
  destruct (N.leb_spec (ctx_seq c + 1) MAX_HOST_CALLS) as [H|H]; [left; split; [done|by apply next_seq_ok]|right].
  unfold next_seq. destruct (U64_MAX <? _); [by eexists|]. destruct (N.ltb_spec MAX_HOST_CALLS (ctx_seq c + 1)); [by eexists|lia].
Qed.

(** A host function that makes one call: from a fresh place it ends the run unrecorded,
    or records one entry; where the journal has that entry, it answers the same and asks
    nobody. *)
Definition once_at (k hash : bytes) (c : Ctx) (x : result Value Stop * Ctx) (m' : M Value) : Prop :=
  (∃ t, x.1 = Err (Terminated t) ∧ es x.2 = es c)
  ∨ ∃ e, es x.2 = es c ++ [e] ∧ seq e = ctx_seq c ∧ kind e = k ∧ req_hash e = hash ∧ ctx_seq c + 1 <= MAX_HOST_CALLS ∧
      (pauses x.1 ∨ (fresh x.2 ∧ ctx_seq x.2 = ctx_seq c + 1 ∧ calls x.2 = calls c ∧ (∀ t, x.1 ≠ Err (Terminated t))
        ∧ ∀ c', ctx_seq c' = ctx_seq c → holds c' (ctx_seq c) k hash e → m' c' = (x.1, with_seq (ctx_seq c + 1) c'))).

Definition once (k hash : bytes) (m m' : M Value) : Prop := ∀ c, fresh c → once_at k hash c (m c) m'.

(** Recording from a fresh place. *)
Lemma record_fresh (w : World) (n : N) (k hash : bytes) (v : Value) (c : Ctx) :
  settled p c → n = N.of_nat (length (es c)) →
  (∃ m, record_result w n k hash v c = (Err (Terminated (TFatal m)), c))
  ∨ ∃ c1, record_result w n k hash v c = (Ok tt, c1) ∧ es c1 = es c ++ [mkEntry n k hash v (clock w n)] ∧ settled p c1
      ∧ ctx_seq c1 = ctx_seq c ∧ calls c1 = calls c.
Proof.
  intros Hc Hn. destruct (record_result_cases p w n k hash v c Hc) as [(_ & _ & c1 & -> & E & S & Q & K & _)|[(_ & _ & ->)|(? & _)]];
    [right; by exists c1|left; by eexists|done].
Qed.

Lemma record_once (w : World) (m' : M Value) (k hash : bytes) (v : Value) (a : result Value Stop) (c c0 : Ctx) :
  let n := ctx_seq c in
  fresh c → n + 1 <= MAX_HOST_CALLS → settled p c0 → es c0 = es c → ctx_seq c0 = n + 1 → calls c0 = calls c →
  pauses a ∨ ((∀ t, a ≠ Err (Terminated t))
    ∧ ∀ c', ctx_seq c' = n → holds c' n k hash (mkEntry n k hash v (clock w n)) → m' c' = (a, with_seq (n + 1) c')) →
  once_at k hash c (match record_result w n k hash v c0 with (Ok _, c1) => (a, c1) | (Err e, c1) => (Err e, c1) end) m'.
Proof.
  intros n [Hs Hn] Hmax Hs0 He0 Hq0 Hk0 Hm. destruct (record_fresh w n k hash v c0 Hs0) as [[m ->]|(c1 & -> & E & S & Q & K)]; [by rewrite He0|left; by eexists|].
  right. eexists. rewrite <-He0. split_and!; [exact E|done..|]. destruct Hm as [Hp|[Ht Hm]]; [by left|]. right. cbn [fst snd].
  split_and!; [split; [done|rewrite E, length_app, Q, Hq0, He0; cbn; lia]|by rewrite Q, Hq0|by rewrite K, Hk0|done|done].
Qed.

Lemma host_call_held {T} (w : World) (k : bytes) (payload : Value) (request : WorkflowHostRequest) (reply : N → Reply T) (to_result : T → Value) (c : Ctx) (e : JournalEntry) :
  ctx_seq c + 1 <= MAX_HOST_CALLS → holds c (ctx_seq c) k (request_hash k payload) e →
  host_call w k payload request reply to_result c = (recorded_answer (result_ e), with_seq (ctx_seq c + 1) c).
Proof.
  intros Hmax He. unfold host_call, bind. rewrite next_seq_ok by done. unfold of_journal, lift.
  rewrite (replay_call_held (with_seq (ctx_seq c + 1) c) _ _ _ _ e He). unfold recorded_answer. by destruct (replay_host_error (result_ e)).
Qed.

Lemma host_call_once {T} (w w' : World) (k : bytes) (payload : Value) (request : WorkflowHostRequest) (reply reply' : N → Reply T) (to_result : T → Value) :
  (∀ x, replay_host_error (to_result x) = None) → (∀ n q m, reply n ≠ Replied (Err (AgentCallQuotaExceeded q m))) →
  once k (request_hash k payload) (host_call w k payload request reply to_result) (host_call w' k payload request reply' to_result).
Proof.
  intros Hclean Hq c [Hs Hn]. unfold host_call at 1, bind at 1 2. destruct (next_seq_cases c) as [[Hmax ->]|[m ->]]; [|left; by eexists].
  unfold of_journal, lift. rewrite replay_call_unheld by (cbn; unfold es in Hn; lia).
  set (hash := request_hash k payload).
  assert (∀ a v, a = recorded_answer v → (∀ t, a ≠ Err (Terminated t)) → ∀ r, once_at k hash c (match record_result w (ctx_seq c) k hash v (send (ctx_seq c) r (with_seq (ctx_seq c + 1) c)) with (Ok _, c1) => (a, c1) | (Err e, c1) => (Err e, c1) end)
    (host_call w' k payload request reply' to_result)) as Hrec.
  { intros a v Ha Ht r. apply record_once; [done..|]. right. split; [done|]. intros c' Hc' He. rewrite <-Hc' in *. rewrite (host_call_held w' k payload request reply' to_result c' _ Hmax He). by rewrite Ha. }
  destruct (reply (ctx_seq c)) as [| |[x|[q m| | |m|m]]] eqn:Er; try (left; by eexists).
  - apply (Hrec (Ok (to_result x)) (to_result x)); [|done]. unfold recorded_answer. by rewrite Hclean.
  - by exfalso; eapply Hq.
  - by apply (Hrec (Err (RuntimeError m)) (host_error_sentinel m)).
  - by apply (Hrec (Err (RuntimeError m)) (host_error_sentinel m)).
Qed.

(** ** Agents and pauses *)

(** Only requests were sent. *)
Definition quiet (c c1 : Ctx) : Prop := journal c1 = journal c ∧ disk c1 = disk c ∧ ctx_seq c1 = ctx_seq c ∧ calls c1 = calls c.

Lemma quiet_fresh (c c1 : Ctx) : quiet c c1 → fresh c → fresh c1.
Proof. intros (Ej & Ed & Es & _) [Hs Hn]. unfold fresh, settled, es in *. by rewrite Ej, Ed, Es. Qed.

Lemma reserve_cases (w : World) (k : nat) (c : Ctx) :
  steady w → ∃ c1, quiet c c1 ∧
    ((reserve_agent_calls w k c = (Ok tt, c1) ∧ (k = 0%nat ∨ reserve_reply w (ctx_seq c) (N.of_nat k) = Replied (Ok tt)))
     ∨ ∃ t, reserve_agent_calls w k c = (Err (Terminated t), c1)).
Proof.
  intros Hw. unfold reserve_agent_calls. destruct (Nat.eqb_spec k 0) as [->|Hk]; [exists c; split; [done|]; left; by split; [|left]|].
  unfold bind, read. destruct (reserve_reply w (ctx_seq c) (N.of_nat k)) as [| |[[]|[q m| | |m|m]]] eqn:E; try (eexists; split; [|right; eexists; done]; done).
  - eexists. split; [|left; split; [done|by right]]. done.
  - by destruct (reserve_decides w Hw (ctx_seq c) (N.of_nat k) m).
  - by destruct (reserve_decides w Hw (ctx_seq c) (N.of_nat k) m).
Qed.

Lemma reserve_granted (w : World) (k : nat) (c : Ctx) :
  k = 0%nat ∨ reserve_reply w (ctx_seq c) (N.of_nat k) = Replied (Ok tt) → ∃ c1, reserve_agent_calls w k c = (Ok tt, c1) ∧ quiet c c1.
Proof.
  intros H. unfold reserve_agent_calls. destruct (Nat.eqb_spec k 0) as [->|Hk]; [by exists c|]. destruct H as [?|H]; [done|].
  unfold bind, read. rewrite H. by eexists.
Qed.

Lemma release_quiet (w : World) (k : nat) (c : Ctx) : ∃ c1, release_agent_calls w k c = (Ok tt, c1) ∧ quiet c c1.
Proof. unfold release_agent_calls. destruct (k =? 0)%nat; [by exists c|]. unfold bind, read. destruct (listening w (calls c)); by eexists. Qed.

Lemma once_at_quiet (k hash : bytes) (c c1 : Ctx) (x : result Value Stop * Ctx) (m' : M Value) :
  quiet c c1 → once_at k hash c1 x m' → once_at k hash c x m'.
Proof. intros (Ej & Ed & Es & Ec). unfold once_at, es. by rewrite Ej, Es, Ec. Qed.

Lemma result_value_clean (r : AgentResult) : replay_host_error (result_value r) = None.
Proof. done. Qed.

Lemma spawn_held (w : World) (o : AgentOpts) (c : Ctx) (e : JournalEntry) :
  holds c (ctx_seq c) SPAWN_AGENT (agent_hash o) e →
  spawn_agent_call w o c = host_call w SPAWN_AGENT (agent_payload o) (SpawnAgent o) (fun n => spawn_reply w n o) result_value c.
Proof.
  intros He. rewrite spawn_agent_call_eq. unfold bind at 1, of_journal, lift. rewrite (replay_spawn_held c _ _ _ e He). unfold bind, ret.
  unfold spawn_and_release. by destruct (host_call _ _ _ _ _ _ c) as [[v|x] c1].
Qed.

Lemma spawn_once (w w' : World) (o : AgentOpts) :
  steady w → once SPAWN_AGENT (agent_hash o) (spawn_agent_call w o) (spawn_agent_call w' o).
Proof.
  intros Hw c Hc. rewrite spawn_agent_call_eq. unfold bind at 1. unfold of_journal at 1, lift at 1.
  rewrite replay_spawn_unheld by (destruct Hc; unfold es in *; lia). unfold bind.
  destruct (reserve_cases w 1 c Hw) as (c1 & Hq & [[-> _]|[t ->]]).
  2: { left. exists t. split; [done|]. cbn. unfold es. by destruct Hq as [-> _]. }
  apply (once_at_quiet _ _ c c1 _ _ Hq). pose proof (quiet_fresh _ _ Hq Hc) as Hc1.
  pose proof (host_call_once w w' SPAWN_AGENT (agent_payload o) (SpawnAgent o) (fun n => spawn_reply w n o) (fun n => spawn_reply w' n o) result_value
    result_value_clean (fun n => spawn_no_quota w Hw n o) c1 Hc1) as Honce.
  assert (∀ x, once_at SPAWN_AGENT (agent_hash o) c1 x (host_call w' SPAWN_AGENT (agent_payload o) (SpawnAgent o) (fun n => spawn_reply w' n o) result_value) →
    once_at SPAWN_AGENT (agent_hash o) c1 x (spawn_agent_call w' o)) as Hheld.
  { intros x [Ht|(e & He & Hq' & Hk & Hh & Hx & [Hp|(H1 & H2 & H3 & H4 & H5)])]; [by left|right; exists e; by split_and!; [..|left]|].
    right. exists e. split_and!; [done..|]. right. split_and!; [done..|]. intros c' Hc' Hl. rewrite (spawn_held w' o c' e) by by rewrite Hc'. by apply H5. }
  unfold spawn_and_release. destruct (host_call _ _ _ _ _ _ c1) as [[v|e] c2]; [by apply Hheld|].
  destruct (is_resumable_unjournaled_terminal e) eqn:Er; [|by apply Hheld]. unfold bind.
  destruct (release_quiet w 1 c2) as (c3 & E3 & Hq3). cbn [andb]. rewrite E3. left. destruct e as [t|]; [|done]. exists t. split; [done|].
  assert (es c3 = es c2) as E by (unfold es; by destruct Hq3 as [-> _]). cbn. rewrite E.
  destruct Honce as [(t' & _ & H)|(e' & _ & _ & _ & _ & _ & [(k & m & Hp)|(_ & _ & _ & Hn & _)])]; [exact H|by injection Hp as ->|by exfalso; eapply Hn].
Qed.

Lemma await_once (w w' : World) (k m : bytes) (kind : PauseKind) :
  parse_pause_kind k = Ok kind →
  once $"await_user" (request_hash $"await_user" (VObject [($"kind", VString k); ($"message", VString m)])) (await_user w k m) (await_user w' k m).
Proof.
  intros Hk c Hc. unfold await_user at 1. rewrite Hk. unfold bind at 1. destruct (next_seq_cases c) as [[Hmax ->]|[x ->]]; [|left; by eexists].
  unfold bind, of_journal, lift. rewrite replay_unheld by (destruct Hc; unfold es in *; cbn; lia).
  apply (record_once w _ _ _ VNull (Err (Terminated (TPause kind m))) c (with_seq (ctx_seq c + 1) c)); [done|done|apply Hc|done..|]. left. by exists kind, m.
Qed.

(** ** Following a run *)

(** The place [c'] of a resumed run follows [c] of the first: as long as the journal it
    started with, [JB], is ahead, its journal is that one, and then the first's. *)
Record follows (JB : list JournalEntry) (c c' : Ctx) : Prop := {
  follows_settled : settled p c';
  follows_seq : ctx_seq c' = ctx_seq c;
  follows_calls : calls c' = calls c;
  follows_es : (es c `prefix_of` JB ∧ es c' = JB) ∨ (JB `prefix_of` es c ∧ es c' = es c);
}.

(** A step of the first run on the way to its last journal, [JF]; it does not end in the
    pause that is the last entry of what the second has. *)
Record leads (JB JF : list JournalEntry) (x : result Value Stop * Ctx) : Prop := {
  leads_to : es x.2 `prefix_of` JF;
  leads_end t : x.1 = Err (Terminated t) → es x.2 = JF;
  leads_past : pauses x.1 → JB ≠ JF;
}.

Definition followed (JB JF : list JournalEntry) (x x' : result Value Stop * Ctx) : Prop :=
  x'.1 = x.1 ∧
  match x.1 with
  | Err (Terminated _) => settled p x'.2 ∧ es x'.2 = JF
  | _ => fresh x.2 ∧ follows JB x.2 x'.2
  end.

Lemma leads_unrecorded (JB JF : list JournalEntry) (c : Ctx) (x : result Value Stop * Ctx) (t : ControlToken) :
  leads JB JF x → JB `prefix_of` JF → (length (es c) < length JB)%nat → x.1 = Err (Terminated t) → es x.2 = es c → False.
Proof. intros Hl Hp Hlt Hx He. pose proof (leads_end _ _ _ Hl t Hx) as E. apply prefix_length in Hp. rewrite <-E, He in Hp. lia. Qed.

Lemma resume_once (k hash : bytes) (m m' : M Value) (c c' : Ctx) (JB JF : list JournalEntry) :
  once k hash m m' → fresh c → follows JB c c' → es c `prefix_of` JB → es c' = JB → (length (es c) < length JB)%nat → JB `prefix_of` JF →
  leads JB JF (m c) → followed JB JF (m c) (m' c').
Proof.
  intros Ho Hc Hf Hp He Hlt HJ Hl. destruct (Ho c Hc) as [(t & Ht & E)|(e & E & Hse & Hke & Hhe & _ & H)]; [by exfalso; eapply leads_unrecorded|].
  assert (es (m c).2 `prefix_of` JB) as Hpb.
  { destruct (prefix_weak_total (es (m c).2) JB JF) as [?|Hx]; [apply Hl|done|done|].
    apply prefix_length_eq in Hx as <-; [done|]. rewrite E, length_app. cbn. lia. }
  destruct H as [(kd & x & Ha)|(Hf1 & Hs1 & Hk1 & Ht & Hm)].
  { exfalso. apply (leads_past _ _ _ Hl); [by exists kd, x|]. pose proof (leads_end _ _ _ Hl _ Ha) as Ej.
    apply prefix_length_eq; [done|]. rewrite <-Ej. by apply prefix_length. }
  assert (JB !! length (es c) = Some e) as Hlook.
  { eapply prefix_lookup_Some; [|exact Hpb]. rewrite E. by rewrite lookup_app_r, Nat.sub_diag by lia. }
  rewrite (Hm c').
  - split; [done|]. cbn [fst snd]. destruct (m c) as [[v|[t|r]] c1]; cbn [fst snd] in *; [|by exfalso; eapply Ht|];
      (split; [done|]); destruct Hf; (split; [done|cbn; congruence|cbn; congruence|left; by split]).
  - apply Hf.
  - split_and!; [|done..]. destruct Hc as [_ Hn]. by rewrite Hn, Nat2N.id, He.
Qed.

(** Behind the journal it started with, a resumed run is the twin of the first. *)
Lemma resume_live (w w' : World) (f : HostFn) (c c' : Ctx) (JB JF : list JournalEntry) :
  agree (N.of_nat (length JB)) w w' → fresh c → follows JB c c' → JB `prefix_of` es c → es c' = es c →
  leads JB JF (call_host w f c) → ((∀ t, (call_host w f c).1 ≠ Err (Terminated t)) → fresh (call_host w f c).2) →
  followed JB JF (call_host w f c) (call_host w' f c').
Proof.
  intros Hw Hc Hf Hp He Hl Hfresh.
  assert (twin p c c') as Htwin by (destruct Hf, Hc; by split).
  destruct (mirrors_call_host p (N.of_nat (length JB)) w w' Hw f c c' Htwin) as (E & Ht & _ & _).
  { destruct Hc as [_ ->]. apply prefix_length in Hp. lia. }
  pose proof (proj1 (proj2 (keeps_call_host p w f c (proj1 Hc)))) as Hgrow.
  split; [done|]. destruct (call_host w f c) as [[v|[t|m]] c1]; cbn [fst snd] in *; destruct Ht as [Te Tl Tr Ts Tk].
  - split; [by apply Hfresh|]. split; [done..|right; split; [by etrans|done]].
  - split; [done|]. rewrite <-Te. by apply (leads_end _ _ _ Hl t).
  - split; [by apply Hfresh|]. split; [done..|right; split; [by etrans|done]].
Qed.

End Resume.
