(* ===== verification/WorkflowBatch.v ===== *)
(** * Batches of agents, resumed

    [parallel] starts its agents together and records their results one after the other:
    a crash may leave the start of a batch in the journal.  Here a batch run from a fresh
    place is compared with the same batch where the journal holds a part of it. *)

From S2P Require Import Prelude RustStr StrFind TextLines Journal Workflow JournalLaws WorkflowLaws.

#[local] Open Scope N_scope.
#[local] Open Scope workflow_scope.

Section Values.

(** What a reply becomes in a batch. *)
Definition live_value (r : option (result AgentResult HostError)) : Value :=
  match r with
  | Some (Ok x) => result_value x
  | Some (Err BudgetExceeded) => host_terminal_sentinel TERMINAL_BUDGET
  | Some (Err HostCancelled) => host_terminal_sentinel TERMINAL_CANCELLED
  | None => host_terminal_sentinel TERMINAL_DROPPED_REPLY
  | _ => VNull
  end.

Definition live_kind (r : option (result AgentResult HostError)) : option bytes :=
  match r with
  | Some (Err BudgetExceeded) => Some TERMINAL_BUDGET
  | Some (Err HostCancelled) => Some TERMINAL_CANCELLED
  | None => Some TERMINAL_DROPPED_REPLY
  | _ => None
  end.

Definition after_kind (k : option bytes) (g : Gathered) : Gathered := match k with Some k => with_terminal k g | None => g end.

Lemma gather_live (n : N) (hash : bytes) (r : option (result AgentResult HostError)) (g : Gathered) :
  gather_one g (LiveAgent n hash r) = with_resolved (Some (n, hash), live_value r) (after_kind (live_kind r) g).
Proof. by destruct r as [[|[]]|]. Qed.

(** A replayed result of a batch does what it did live, but is not recorded again. *)
Lemma gather_replayed (r : option (result AgentResult HostError)) (g : Gathered) :
  live_kind r ≠ Some TERMINAL_BUDGET → live_kind r ≠ Some TERMINAL_CANCELLED →
  gather_one g (ReplayedAgent (live_value r)) =
  match live_kind r with Some k => with_terminal k g | None => with_resolved (None, live_value r) g end.
Proof. intros H1 H2. by destruct r as [[|[]]|]. Qed.

Definition like (g g' : Gathered) : Prop :=
  terminal_kind g = terminal_kind g' ∧ terminal_error g = terminal_error g' ∧ resumable g = resumable g'
  ∧ (terminal_kind g = None → map snd (resolved g) = map snd (resolved g')).

Lemma like_live (n : N) (hash : bytes) (r : option (result AgentResult HostError)) (g g' : Gathered) :
  like g g' → like (gather_one g (LiveAgent n hash r)) (gather_one g' (LiveAgent n hash r)).
Proof.
  intros (H1 & H2 & H3 & H4). rewrite !gather_live. unfold like. destruct (live_kind r) as [k|]; cbn; rewrite <-?H1, <-?H2, <-?H3; split_and!; try done.
  - by destruct (terminal_kind g).
  - intros Hk. by rewrite !map_app, H4.
Qed.

Lemma like_replayed (n : N) (hash : bytes) (r : option (result AgentResult HostError)) (g g' : Gathered) :
  like g g' → resumable (gather_one g (LiveAgent n hash r)) = false → like (gather_one g (LiveAgent n hash r)) (gather_one g' (ReplayedAgent (live_value r))).
Proof.
  intros (H1 & H2 & H3 & H4) Hres. rewrite gather_live in *. rewrite gather_replayed.
  2,3: intros Hk; rewrite Hk in Hres; cbn in Hres; by rewrite orb_true_r in Hres.
  unfold like. destruct (live_kind r) as [k|]; cbn; rewrite <-?H1, <-?H2, <-?H3; split_and!; try done.
  - by destruct (terminal_kind g).
  - intros Hk. by rewrite !map_app, H4.
Qed.

Lemma resumable_stays (ps : list PendingAgent) (g : Gathered) : resumable (fold_left gather_one ps g) = false → resumable g = false.
Proof.
  revert g. induction ps as [|x ps IH]; intros g H; [done|]. apply IH in H. destruct x as [v|n hash r].
  - cbn in H. destruct (is_host_terminal_sentinel v); [|by destruct (replay_host_error v)]. cbn in H. by destruct (resumable g).
  - rewrite gather_live in H. cbn in H. destruct (live_kind r); [|done]. cbn in H. by destruct (resumable g).
Qed.

End Values.

Section Batch.
Context {json : JsonText} {faults : DiskFaults} {laws : JsonLaws} {sound : SoundDisk}.
Variable p : bytes.

Definition reply_of (r : Reply AgentResult) : option (result AgentResult HostError) := match r with Replied r => Some r | _ => None end.

Fixpoint live_from (w : World) (n : N) (os : list AgentOpts) : list PendingAgent :=
  match os with
  | [] => []
  | o :: os => LiveAgent n (agent_hash o) (reply_of (spawn_reply w n o)) :: live_from w (n + 1) os
  end.

(** The results of a batch as they are recorded. *)
Fixpoint rows (w : World) (n : N) (os : list AgentOpts) : list (option (N * bytes) * Value) :=
  match os with
  | [] => []
  | o :: os => (Some (n, agent_hash o), live_value (reply_of (spawn_reply w n o))) :: rows w (n + 1) os
  end.

Fixpoint row_entries (w : World) (n : N) (os : list AgentOpts) : list JournalEntry :=
  match os with
  | [] => []
  | o :: os => mkEntry n SPAWN_AGENT (agent_hash o) (live_value (reply_of (spawn_reply w n o))) (clock w n) :: row_entries w (n + 1) os
  end.

(** The channel is open for every agent of the batch. *)
Fixpoint open_from (w : World) (n : N) (os : list AgentOpts) : Prop :=
  match os with [] => True | o :: os => spawn_reply w n o ≠ Closed ∧ open_from w (n + 1) os end.

Lemma gather_live_from (w : World) (n : N) (os : list AgentOpts) (g : Gathered) :
  terminal_error (fold_left gather_one (live_from w n os) g) = terminal_error g
  ∧ resolved (fold_left gather_one (live_from w n os) g) = resolved g ++ rows w n os.
Proof.
  revert n g. induction os as [|o os IH]; intros n g; cbn [live_from fold_left rows]; [by rewrite app_nil_r|].
  destruct (IH (n + 1) (gather_one g (LiveAgent n (agent_hash o) (reply_of (spawn_reply w n o))))) as [-> ->]. rewrite gather_live.
  split; [by destruct (live_kind _)|]. destruct (live_kind _); cbn; by rewrite <-app_assoc.
Qed.

(** The journal holds the results of these agents. *)
Fixpoint held_from (w : World) (c : Ctx) (n : N) (os : list AgentOpts) : Prop :=
  match os with
  | [] => True
  | o :: os => (∃ e, holds c n SPAWN_AGENT (agent_hash o) e ∧ result_ e = live_value (reply_of (spawn_reply w n o))) ∧ held_from w c (n + 1) os
  end.

Lemma held_from_same (w : World) (c c1 : Ctx) (n : N) (os : list AgentOpts) : journal c1 = journal c → held_from w c n os → held_from w c1 n os.
Proof. intros E. revert n. induction os as [|o os IH]; intros n; [done|]. cbn. unfold holds, es. rewrite E. intros [? ?]. by split; [|apply IH]. Qed.

Definition replays (w : World) (n : N) (os : list AgentOpts) : list PendingAgent := map (fun r => ReplayedAgent r.2) (rows w n os).

Lemma live_from_live (w : World) (n : N) (os : list AgentOpts) :
  Forall (fun x => match x with LiveAgent _ _ _ => True | ReplayedAgent _ => False end) (live_from w n os).
Proof. revert n. induction os as [|o os IH]; intros n; [apply Forall_nil_2|]. by apply Forall_cons. Qed.

Lemma gather_like (w w' : World) (n : N) (os1 : list AgentOpts) (ps : list PendingAgent) (g g' : Gathered) :
  Forall (fun x => match x with LiveAgent _ _ _ => True | ReplayedAgent _ => False end) ps →
  like g g' → resumable (fold_left gather_one (live_from w n os1 ++ ps) g) = false →
  like (fold_left gather_one (live_from w n os1 ++ ps) g) (fold_left gather_one (replays w n os1 ++ ps) g').
Proof.
  intros Hps. revert n g g'. induction os1 as [|o os IH]; intros n g g' Hl Hres; cbn in *.
  - revert g g' Hl Hres. induction Hps as [|x ps Hx Hps IHp]; intros g g' Hl Hres; [done|]. cbn in *. apply IHp; [|done].
    destruct x; [done|]. by apply like_live.
  - apply IH; [|done]. apply like_replayed; [done|]. by eapply resumable_stays.
Qed.

(** What is replayed is not recorded. *)
Lemma replays_resolved (w : World) (n : N) (os : list AgentOpts) (g : Gathered) :
  Forall (fun r => r.1 = None) (resolved g) → Forall (fun r => r.1 = None) (resolved (fold_left gather_one (replays w n os) g)).
Proof.
  revert n g. induction os as [|o os IH]; intros n g Hg; [done|]. cbn. apply IH. destruct (is_host_terminal_sentinel _); [done|].
  destruct (replay_host_error _); [done|]. cbn. apply Forall_app_2; [done|by repeat constructor].
Qed.

Lemma record_all_none (w : World) (rs rs' : list (option (N * bytes) * Value)) (error : option Stop) :
  Forall (fun r => r.1 = None) rs → record_all w (rs ++ rs') error = record_all w rs' error.
Proof. induction 1 as [|[r v] rs Hr Hrs IH]; [done|]. cbn in Hr. subst r. exact IH. Qed.

(** ** Starting the agents *)

Lemma start_all_cons (w : World) (o : AgentOpts) (os : list AgentOpts) (c : Ctx) :
  N.of_nat (length (es c)) <= ctx_seq c → ctx_seq c + 1 <= MAX_HOST_CALLS →
  start_all w (o :: os) c =
    let c1 := with_seq (ctx_seq c + 1) c in
    match spawn_reply w (ctx_seq c) o with
    | Closed => (Err channel_closed, c1)
    | r =>
        match start_all w os (send (ctx_seq c) (SpawnAgent o) c1) with
        | (Ok ps, c2) => (Ok (LiveAgent (ctx_seq c) (agent_hash o) (reply_of r) :: ps), c2)
        | (Err e, c2) => (Err e, c2)
        end
    end.
Proof.
  intros Hc Hmax. cbn [start_all]. unfold bind at 1. rewrite next_seq_ok by done. unfold bind at 1, of_journal, lift.
  rewrite replay_spawn_unheld by (cbn; unfold es in Hc; lia). unfold bind, modify, ret, stop. cbv zeta. by destruct (spawn_reply w (ctx_seq c) o).
Qed.

Lemma start_all_live (w : World) (os : list AgentOpts) (c : Ctx) :
  N.of_nat (length (es c)) <= ctx_seq c →
  ∃ c1, journal c1 = journal c ∧ disk c1 = disk c ∧ calls c1 = calls c ∧
    ((start_all w os c = (Ok (live_from w (ctx_seq c) os), c1) ∧ ctx_seq c1 = ctx_seq c + N.of_nat (length os)
        ∧ open_from w (ctx_seq c) os ∧ (os = [] ∨ ctx_seq c1 <= MAX_HOST_CALLS))
     ∨ ∃ t, start_all w os c = (Err (Terminated t), c1)).
Proof.
  revert c. induction os as [|o os IH]; intros c Hc.
  { exists c. split_and!; [done..|]. left. cbn. split_and!; [done|lia|done|by left]. }
  destruct (next_seq_cases c) as [[Hmax _]|[m Em]].
  2: { exists c. split_and!; [done..|]. right. eexists. cbn [start_all]. unfold bind at 1. by rewrite Em. }
  rewrite start_all_cons by done. cbv zeta. set (c2 := send (ctx_seq c) (SpawnAgent o) (with_seq (ctx_seq c + 1) c)).
  destruct (IH c2) as (c1 & E1 & E2 & E3 & Hcase); [cbn; unfold es in *; cbn; lia|]. change (ctx_seq c2) with (ctx_seq c + 1) in Hcase.
  cbn [live_from open_from length]. destruct (spawn_reply w (ctx_seq c) o) as [| |r] eqn:Er.
  { eexists. split_and!; [..|right; by eexists]; done. }
  all: exists c1; (split_and!; [done..|]); destruct Hcase as [(-> & Hs & Ho & Hb)|[t ->]]; [left|right; by eexists];
    (split_and!; [done|lia|done|done|right; destruct Hb as [->|?]; [cbn in *; lia|done]]).
Qed.

Lemma start_all_open (w : World) (os : list AgentOpts) (c : Ctx) :
  os = [] ∨ N.of_nat (length (es c)) <= ctx_seq c → open_from w (ctx_seq c) os → ctx_seq c + N.of_nat (length os) <= MAX_HOST_CALLS →
  ∃ c1, journal c1 = journal c ∧ disk c1 = disk c ∧ calls c1 = calls c ∧ start_all w os c = (Ok (live_from w (ctx_seq c) os), c1)
    ∧ ctx_seq c1 = ctx_seq c + N.of_nat (length os).
Proof.
  revert c. induction os as [|o os IH]; intros c Hc Ho Hb.
  { exists c. split_and!; [done..|cbn; lia]. }
  cbn [length open_from] in *. destruct Ho as [Ho Hos]. destruct Hc as [?|Hc]; [done|]. rewrite start_all_cons by lia. cbv zeta.
  set (c2 := send (ctx_seq c) (SpawnAgent o) (with_seq (ctx_seq c + 1) c)).
  destruct (IH c2) as (c1 & E1 & E2 & E3 & E4 & E5); [right; cbn; unfold es in *; cbn; lia|exact Hos|cbn; lia|].
  exists c1. rewrite E4. cbn [live_from]. split_and!; [done..| |cbn in *; lia]. by destruct (spawn_reply w (ctx_seq c) o).
Qed.

Lemma start_all_held (w w' : World) (os1 os2 : list AgentOpts) (c : Ctx) :
  held_from w c (ctx_seq c) os1 → (os1 = [] ∨ ctx_seq c + N.of_nat (length os1) <= MAX_HOST_CALLS) →
  start_all w' (os1 ++ os2) c =
    match start_all w' os2 (with_seq (ctx_seq c + N.of_nat (length os1)) c) with
    | (Ok ps, c1) => (Ok (replays w (ctx_seq c) os1 ++ ps), c1)
    | (Err e, c1) => (Err e, c1)
    end.
Proof.
  revert c. induction os1 as [|o os IH]; intros c Hh Hb.
  { cbn [app length]. change (N.of_nat 0) with 0. rewrite N.add_0_r. assert (with_seq (ctx_seq c) c = c) as -> by by destruct c.
    by destruct (start_all w' os2 c) as [[]]. }
  destruct Hb as [?|Hb]; [done|]. cbn [length held_from] in *. destruct Hh as [(e & He & Hv) Hh].
  cbn [app start_all]. unfold bind at 1. rewrite next_seq_ok by lia. unfold bind at 1, of_journal, lift.
  rewrite (replay_spawn_held (with_seq (ctx_seq c + 1) c) _ _ _ e He). unfold bind, ret.
  rewrite (IH (with_seq (ctx_seq c + 1) c)); [|by apply (held_from_same w c)|right; cbn; lia].
  change (ctx_seq (with_seq (ctx_seq c + 1) c)) with (ctx_seq c + 1).
  assert (with_seq (ctx_seq c + 1 + N.of_nat (length os)) (with_seq (ctx_seq c + 1) c) = with_seq (ctx_seq c + N.of_nat (S (length os))) c) as ->.
  { unfold with_seq. cbn. f_equal. lia. }
  destruct (start_all w' os2 _) as [[ps|x] c1]; [|done]. by rewrite Hv.
Qed.

Lemma count_live_unheld (j : Journal) (n : N) (os : list AgentOpts) :
  N.of_nat (length (entries j)) <= n → count_live j n os = Ok (length os) ∨ ∃ t, count_live j n os = Err (Terminated t).
Proof.
  revert n. induction os as [|o os IH]; intros n Hn; cbn [count_live]; [by left|]. rewrite replay_spawn_unheld by done.
  destruct (U64_MAX <? n + 1); [right; by eexists|]. destruct (IH (n + 1)) as [->|[t ->]]; [lia|by left|right; by eexists].
Qed.

Lemma count_live_held (w : World) (c : Ctx) (n : N) (os1 os2 : list AgentOpts) :
  held_from w c n os1 → os2 = [] ∨ N.of_nat (length (es c)) <= n + N.of_nat (length os1) → n + N.of_nat (length (os1 ++ os2)) <= MAX_HOST_CALLS →
  count_live (journal c) n (os1 ++ os2) = Ok (length os2).
Proof.
  assert (MAX_HOST_CALLS <= U64_MAX) as Hmax by done. revert n. induction os1 as [|o os IH]; intros n Hh Hl Hb; cbn [app length] in *.
  - clear Hh. destruct Hl as [->|Hl]; [done|]. revert n Hl Hb. induction os2 as [|o os IH]; intros n Hl Hb; cbn [count_live length] in *; [done|].
    rewrite replay_spawn_unheld by (unfold es in Hl; lia). destruct (N.ltb_spec U64_MAX (n + 1)); [lia|]. by rewrite IH by lia.
  - cbn [count_live]. destruct Hh as [(e & He & _) Hh]. rewrite (replay_spawn_held c n _ _ e He). destruct (N.ltb_spec U64_MAX (n + 1)); [lia|].
    rewrite IH; [done..| |lia]. destruct Hl as [?|Hl]; [by left|right; lia].
Qed.

(** ** Recording the results *)

Lemma record_rows (w : World) (n : N) (os : list AgentOpts) (c : Ctx) :
  settled p c → n = N.of_nat (length (es c)) →
  ∃ r error c1, record_all w (rows w n os) None c = (Ok error, c1) ∧ (r <= length os)%nat ∧ es c1 = es c ++ take r (row_entries w n os)
    ∧ settled p c1 ∧ ctx_seq c1 = ctx_seq c ∧ calls c1 = calls c
    ∧ ((r = length os ∧ error = None) ∨ ∃ m, error = Some (Terminated (TFatal m)))
    ∧ ∀ j, (j <= r)%nat → ∃ cj, record_all w (rows w n os) None c = record_all w (rows w (n + N.of_nat j) (drop j os)) None cj
        ∧ es cj = es c ++ take j (row_entries w n os) ∧ settled p cj ∧ ctx_seq cj = ctx_seq c ∧ calls cj = calls c.
Proof.
  revert n c. induction os as [|o os IH]; intros n c Hs Hn.
  { exists 0%nat, None, c. split_and!; try done; [by rewrite app_nil_r|by left|]. intros j Hj. exists c. destruct j; [|lia]. cbn. by rewrite app_nil_r. }
  cbn [rows record_all row_entries]. set (v := live_value (reply_of (spawn_reply w n o))).
  destruct (record_fresh p w n SPAWN_AGENT (agent_hash o) v c Hs Hn) as [[m E]|(c2 & E & Ee & Hs2 & Hq & Hk)].
  - exists 0%nat, (Some (Terminated (TFatal m))), c. rewrite E. split_and!; try done; [cbn; lia|by rewrite app_nil_r|right; by eexists|].
    intros j Hj. assert (j = 0%nat) as -> by lia. exists c. cbn [drop take rows record_all]. rewrite N.add_0_r. fold v. rewrite E. by rewrite app_nil_r.
  - destruct (IH (n + 1) c2 Hs2) as (r & error & c1 & E1 & Hr & Ee1 & Hs1 & Hq1 & Hk1 & Herr & Hj).
    { rewrite Ee, length_app. cbn. lia. }
    exists (S r), error, c1. rewrite E. split_and!; [done|cbn; lia|by rewrite Ee1, Ee, <-app_assoc|done|congruence|congruence|..].
    + destruct Herr as [[-> ->]|[m ->]]; [by left|right; by eexists].
    + intros [|j] Hjr.
      * exists c. cbn [drop take]. rewrite N.add_0_r. cbn [rows record_all]. fold v. rewrite E. by rewrite app_nil_r.
      * destruct (Hj j ltac:(lia)) as (cj & E2 & Ecj & Hsj & Hqj & Hkj). exists cj. cbn [drop take].
        replace (n + N.of_nat (S j)) with (n + 1 + N.of_nat j) by lia. split_and!; [done|by rewrite Ecj, Ee, <-app_assoc|done|congruence|congruence].
Qed.

Lemma rows_agree (b : N) (w w' : World) (n : N) (os : list AgentOpts) :
  agree b w w' → b <= n → rows w n os = rows w' n os ∧ live_from w n os = live_from w' n os ∧ (open_from w n os → open_from w' n os).
Proof.
  intros Hw. revert n. induction os as [|o os IH]; intros n Hn; [done|]. destruct (IH (n + 1)) as (H1 & H2 & H3); [lia|].
  cbn. rewrite <-(same_spawn _ _ _ Hw n o Hn), H1, H2. split_and!; [done..|]. intros [? ?]. by split; [|apply H3].
Qed.

Lemma from_app (w : World) (n : N) (os1 os2 : list AgentOpts) :
  live_from w n (os1 ++ os2) = live_from w n os1 ++ live_from w (n + N.of_nat (length os1)) os2
  ∧ (open_from w n (os1 ++ os2) → open_from w (n + N.of_nat (length os1)) os2).
Proof.
  revert n. induction os1 as [|o os IH]; intros n; cbn [app length live_from open_from].
  - change (N.of_nat 0) with 0. by rewrite N.add_0_r.
  - destruct (IH (n + 1)) as [-> H]. replace (n + N.of_nat (S (length os))) with (n + 1 + N.of_nat (length os)) by lia. split; [done|]. intros [_ ?]. by apply H.
Qed.

Lemma row_entries_length (w : World) (n : N) (os : list AgentOpts) : length (row_entries w n os) = length os.
Proof. revert n. induction os as [|o os IH]; intros n; [done|]. cbn. by rewrite IH. Qed.

(** A journal that goes on with the first results of a batch holds them. *)
Lemma entries_held (w : World) (c : Ctx) (es0 : list JournalEntry) (os : list AgentOpts) (j : nat) :
  es0 ++ take j (row_entries w (N.of_nat (length es0)) os) `prefix_of` es c → held_from w c (N.of_nat (length es0)) (take j os).
Proof.
  revert es0 j. induction os as [|o os IH]; intros es0 j Hp; [by rewrite take_nil|]. destruct j as [|j]; [done|]. cbn [take row_entries held_from] in *.
  set (e := mkEntry _ _ _ _ _) in Hp. split.
  - exists e. split; [|done]. split_and!; [|done..]. rewrite Nat2N.id. destruct Hp as [k ->]. rewrite <-!app_assoc. cbn. by rewrite lookup_app_r, Nat.sub_diag by lia.
  - assert (N.of_nat (length es0) + 1 = N.of_nat (length (es0 ++ [e]))) as Hlen by (rewrite length_app; cbn; lia). rewrite Hlen in Hp |- *.
    apply IH. by rewrite <-app_assoc.
Qed.

(** ** The batch *)

(** [parallel] behind the options of its agents, and behind their replies. *)
Definition answer_batch (g : Gathered) (error : option Stop) : M Value :=
  match terminal_kind g, error with
  | Some k, _ => stop (host_terminal_error k)
  | None, Some e => stop e
  | None, None => ret (VArray (map snd (resolved g)))
  end.

Definition batch_end (w : World) (g : Gathered) (live_count : nat) : M Value :=
  let* error := (if resumable g then release_agent_calls w live_count;;; ret (terminal_error g) else record_all w (resolved g) (terminal_error g)) in
  answer_batch g error.

Definition batch (w : World) (os : list AgentOpts) : M Value :=
  let* live_count := (fun c => (count_live (journal c) (ctx_seq c) os, c)) in
  reserve_agent_calls w live_count;;;
  let* pending := start_all w os in
  batch_end w (gather pending) live_count.

Lemma parallel_eq (items : list (option (result AgentOpts bytes))) :
  (∃ m, ∀ w c, parallel w items c = (Err (RuntimeError m), c)) ∨ ∃ os, ∀ w c, parallel w items c = batch w os c.
Proof.
  unfold parallel. destruct (_ <? _)%nat; [left; by eexists|].
  assert ((∃ m, parallel_opts items = Err (RuntimeError m)) ∨ ∃ os, parallel_opts items = Ok os) as [[m E]|[os E]].
  { induction items as [|[parsed|] items IH]; cbn [parallel_opts]; [right; by eexists| |left; by eexists].
    unfold agent_opts_from_map. destruct parsed as [o|m]; [|left; by eexists]. destruct (_ =b _); [left; by eexists|].
    destruct IH as [[m ->]|[os ->]]; [left|right]; by eexists. }
  - left. exists m. intros w c. by rewrite E.
  - right. exists os. intros w c. by rewrite E.
Qed.

Lemma gather_terminal (ps : list PendingAgent) (g : Gathered) :
  (resumable g = true → is_Some (terminal_kind g)) → resumable (fold_left gather_one ps g) = true → is_Some (terminal_kind (fold_left gather_one ps g)).
Proof.
  revert g. induction ps as [|x ps IH]; intros g Hg H; [by apply Hg|]. cbn [fold_left] in *. apply IH; [|done].
  assert (∀ k g, is_Some (terminal_kind (with_terminal k g))) as Hk by (intros k g0; cbn; by destruct (terminal_kind g0)).
  destruct x as [v|n hash r].
  - cbn [gather_one]. destruct (is_host_terminal_sentinel v); [intros _; apply Hk|]. by destruct (replay_host_error v).
  - rewrite gather_live. destruct (live_kind r); [intros _; apply Hk|exact Hg].
Qed.

Lemma terminal_ends (k : bytes) : ∃ t, host_terminal_error k = Terminated t ∧ ∀ q m, t ≠ TPause q m.
Proof. unfold host_terminal_error. destruct (k =b _), (k =b TERMINAL_CANCELLED), (k =b TERMINAL_DROPPED_REPLY); by eexists. Qed.

Lemma batch_eq (w : World) (os : list AgentOpts) (c : Ctx) :
  batch w os c =
    match count_live (journal c) (ctx_seq c) os with
    | Err e => (Err e, c)
    | Ok live =>
        match reserve_agent_calls w live c with
        | (Err e, c) => (Err e, c)
        | (Ok _, c) => match start_all w os c with (Err e, c) => (Err e, c) | (Ok ps, c) => batch_end w (gather ps) live c end
        end
    end.
Proof. unfold batch, bind. by destruct (count_live _ _ _). Qed.

(** A batch from a fresh place ends the run unrecorded, or starts all of its agents and
    records what it can of their results. *)
Lemma batch_fresh (w : World) (os : list AgentOpts) (c : Ctx) :
  steady w → fresh p c →
  let n := ctx_seq c in
  let g := gather (live_from w n os) in
  (∃ t, (batch w os c).1 = Err (Terminated t) ∧ es (batch w os c).2 = es c)
  ∨ ∃ cs, batch w os c = (let* error := record_all w (rows w n os) None in answer_batch g error) cs
      ∧ journal cs = journal c ∧ disk cs = disk c ∧ calls cs = calls c ∧ ctx_seq cs = n + N.of_nat (length os)
      ∧ open_from w n os ∧ (os = [] ∨ n + N.of_nat (length os) <= MAX_HOST_CALLS)
      ∧ (os = [] ∨ reserve_reply w n (N.of_nat (length os)) = Replied (Ok tt)) ∧ resumable g = false.
Proof.
  intros Hw Hc n g. rewrite batch_eq. assert (N.of_nat (length (entries (journal c))) <= ctx_seq c) as Hle by (destruct Hc; unfold es in *; lia).
  destruct (count_live_unheld (journal c) (ctx_seq c) os Hle) as [->|[t ->]]; [|left; by eexists].
  destruct (reserve_cases w (length os) c Hw) as (c1 & (Ej & Ed & Es & Ec) & [[-> Hgrant]|[t ->]]); [|left; exists t; split; [done|]; unfold es; cbn; congruence].
  destruct (start_all_live w os c1) as (c2 & Ej2 & Ed2 & Ec2 & [(-> & Hs2 & Ho & Hb)|[t ->]]); [unfold es; by rewrite Ej, Es| |left; exists t; split; [done|]; unfold es; cbn; congruence].
  rewrite Es in *. fold n in Hs2, Ho |- *. fold g. unfold batch_end. destruct (resumable g) eqn:Hres.
  - left. destruct (gather_terminal (live_from w n os) (mkGathered [] None None false)) as [k Hk]; [done|exact Hres|]. fold (gather (live_from w n os)) in Hk. fold g in Hk.
    unfold bind. destruct (release_quiet w (length os) c2) as (c3 & -> & Ej3 & _). unfold ret. unfold answer_batch. rewrite Hk.
    destruct (terminal_ends k) as (t & Ht & _). exists t. rewrite Ht. split; [done|]. unfold es. cbn. by rewrite Ej3, Ej2, Ej.
  - right. exists c2. destruct (gather_live_from w n os (mkGathered [] None None false)) as [He Hr]. fold (gather (live_from w n os)) in He, Hr. fold g in He, Hr.
    rewrite He, Hr. split_and!; [done|congruence|congruence|congruence|done|done| | |done].
    + destruct Hb as [->|Hb]; [by left|right; lia].
    + destruct Hgrant as [E|E]; [left; by destruct os|right; exact E].
Qed.

(** What a batch does from a fresh place once its agents run. *)
Lemma batch_recorded (w : World) (os : list AgentOpts) (c cs : Ctx) :
  let n := ctx_seq c in
  let g := gather (live_from w n os) in
  fresh p c → journal cs = journal c → disk cs = disk c → calls cs = calls c → ctx_seq cs = n + N.of_nat (length os) →
  let x := (let* error := record_all w (rows w n os) None in answer_batch g error) cs in
  ∃ r error c1, record_all w (rows w n os) None cs = (Ok error, c1) ∧ x = answer_batch g error c1
    ∧ (r <= length os)%nat ∧ es c1 = es c ++ take r (row_entries w n os) ∧ settled p c1 ∧ ctx_seq c1 = ctx_seq cs ∧ calls c1 = calls c
    ∧ (r = length os ∨ ∃ t, x.1 = Err (Terminated t))
    ∧ ((∀ t, x.1 ≠ Err (Terminated t)) → fresh p c1)
    ∧ ∀ j, (j <= r)%nat → ∃ cj, record_all w (rows w n os) None cs = record_all w (rows w (n + N.of_nat j) (drop j os)) None cj
        ∧ es cj = es c ++ take j (row_entries w n os) ∧ settled p cj ∧ ctx_seq cj = ctx_seq cs ∧ calls cj = calls c.
Proof.
  intros n g [Hs Hn] Ej Ed Ec Eq x. assert (es cs = es c) as Ees by (unfold es; by rewrite Ej).
  destruct (record_rows w n os cs) as (r & error & c1 & E & Hr & Ee & Hs1 & Hq & Hk & Herr & Hj).
  { unfold settled. by rewrite Ej, Ed. }
  { unfold n. rewrite Ees. exact Hn. }
  assert (x = answer_batch g error c1) as Ex by (unfold x, bind; by rewrite E).
  assert (r = length os ∨ ∃ t, x.1 = Err (Terminated t)) as Hend.
  { destruct Herr as [[-> _]|[m ->]]; [by left|right]. rewrite Ex. unfold answer_batch. destruct (terminal_kind g) as [k|]; [|by eexists].
    destruct (terminal_ends k) as (t & -> & _). by eexists. }
  rewrite Ees in Ee, Hj. rewrite Ec in Hk, Hj. exists r, error, c1. split_and!; [done..| |done]. intros Hcont. destruct Hend as [->|[t Ht]]; [|by destruct (Hcont t)].
  split; [done|]. rewrite Hq, Eq, Ee, length_app, take_ge, row_entries_length by (by rewrite row_entries_length). unfold n. lia.
Qed.

Lemma answer_batch_like (g g' : Gathered) (error : option Stop) (c c' : Ctx) :
  like g g' → (answer_batch g error c).1 = (answer_batch g' error c').1 ∧ (answer_batch g' error c').2 = c'.
Proof.
  intros (Hk & _ & _ & Hr). unfold answer_batch. rewrite <-Hk. destruct (terminal_kind g); [done|]. destruct error; [done|]. by rewrite Hr.
Qed.

Lemma answer_batch_ctx (g : Gathered) (error : option Stop) (c : Ctx) : (answer_batch g error c).2 = c.
Proof. unfold answer_batch. destruct (terminal_kind g); [done|]. by destruct error. Qed.

Lemma batch_nil (w : World) (c : Ctx) : batch w [] c = (Ok (VArray []), c).
Proof. done. Qed.

(** The same batch where the journal holds its first [j] results. *)
Lemma batch_resumed (w w' : World) (os : list AgentOpts) (c' : Ctx) (n : N) (j : nat) (B : N) :
  let b := n + N.of_nat j in
  let g := gather (live_from w n os) in
  agree B w w' → (j = length os ∨ B = b) → ctx_seq c' = n → (j <= length os)%nat → held_from w c' n (take j os) → (j = length os ∨ N.of_nat (length (es c')) = b) →
  open_from w n os → n + N.of_nat (length os) <= MAX_HOST_CALLS → reserve_reply w n (N.of_nat (length os)) = Replied (Ok tt) →
  resumable g = false →
  ∃ c2 g', like g g' ∧ batch w' os c' = (let* error := record_all w' (rows w b (drop j os)) None in answer_batch g' error) c2
    ∧ journal c2 = journal c' ∧ disk c2 = disk c' ∧ calls c2 = calls c' ∧ ctx_seq c2 = n + N.of_nat (length os).
Proof.
  intros b g Hw HB Hn Hj Hh Hlen Ho Hm Hgrant Hres. set (os1 := take j os). set (os2 := drop j os).
  assert (os = os1 ++ os2) as Eos by (symmetry; apply take_drop). assert (length os1 = j) as Hl1 by (unfold os1; rewrite length_take; lia).
  assert (os2 = [] ∨ N.of_nat (length (es c')) <= n + N.of_nat (length os1)) as Hun.
  { destruct Hlen as [->|Hlen]; [left; unfold os2; by rewrite drop_all|right; unfold b in *; rewrite Hl1; lia]. }
  assert (live_from w b os2 = live_from w' b os2 ∧ (open_from w b os2 → open_from w' b os2)) as [El Hopen].
  { destruct HB as [->| ->]; [unfold os2; by rewrite drop_all|]. by destruct (rows_agree b w w' b os2 Hw) as (_ & H); [lia|]. }
  destruct (from_app w n os1 os2) as [Elive Hopen2]. rewrite <-Eos, Hl1 in Elive, Hopen2. fold b in Elive, Hopen2.
  rewrite batch_eq, Hn.
  assert (count_live (journal c') n os = Ok (length os2)) as ->.
  { rewrite Eos. apply (count_live_held w); [done..|by rewrite <-Eos]. }
  destruct (reserve_granted w' (length os2) c') as (c1 & -> & Ej & Ed & Es & Ec).
  { rewrite Hn. destruct os2 as [|o2 r2] eqn:E2; [by left|right].
    apply (still_granted _ _ _ Hw n (N.of_nat (length os))); [|done]. rewrite Eos, length_app. lia. }
  replace (start_all w' os c1) with (start_all w' (os1 ++ os2) c1) by by rewrite <-Eos.
  rewrite (start_all_held w w' os1 os2 c1).
  2: { rewrite Es, Hn. by apply (held_from_same w c'). }
  2: { right. rewrite Es, Hn, Hl1. lia. }
  rewrite Es, Hn, Hl1. fold b.
  destruct (start_all_open w' os2 (with_seq b c1)) as (c2 & Ej2 & Ed2 & Ec2 & -> & Es2).
  { destruct Hun as [?|Hun]; [by left|right]. unfold es in *. cbn. rewrite Ej. rewrite Hl1 in Hun. fold b in Hun. lia. }
  { by apply Hopen, Hopen2. }
  { cbn. unfold b. rewrite Eos, length_app, Hl1 in Hm. lia. }
  change (ctx_seq (with_seq b c1)) with b. rewrite <-El.
  set (g' := gather (replays w n os1 ++ live_from w b os2)).
  assert (like g g') as Hlike.
  { unfold g, g', gather. rewrite Elive. apply (gather_like w w'); [|by split_and!|by rewrite <-Elive]. apply live_from_live. }
  exists c2, g'. split; [done|]. unfold batch_end. assert (resumable g' = false) as -> by by destruct Hlike as (_ & _ & <- & _).
  assert (terminal_error g' = None ∧ ∃ rs, resolved g' = rs ++ rows w b os2 ∧ Forall (fun r => r.1 = None) rs) as (-> & rs & -> & Hrs).
  { split.
    - destruct Hlike as (_ & <- & _). unfold g, gather. by destruct (gather_live_from w n os (mkGathered [] None None false)) as [-> _].
    - unfold g', gather. rewrite fold_left_app. eexists. split; [apply gather_live_from|]. apply replays_resolved. constructor. }
  unfold bind. rewrite record_all_none by done. split_and!; [done|cbn in *; congruence..|]. rewrite Es2. cbn. unfold b. rewrite Eos, length_app, Hl1. lia.
Qed.

Lemma rows_from (w : World) (b n : N) (os : list AgentOpts) : b <= n → Forall (fun r => ∀ k hash, r.1 = Some (k, hash) → b <= k) (rows w n os).
Proof.
  revert n. induction os as [|o os IH]; intros n Hn; [apply Forall_nil_2|]. apply Forall_cons. split; [by intros k hash [= <- _]|]. apply IH. lia.
Qed.

Lemma common_prefix (l1 l2 l : list JournalEntry) : l1 `prefix_of` l → l2 `prefix_of` l → (length l1 <= length l2)%nat → l1 `prefix_of` l2.
Proof. intros H1 H2 Hl. destruct (prefix_weak_total l1 l2 l H1 H2) as [?|H]; [done|]. by rewrite (prefix_length_eq l2 l1). Qed.

(** How far the journal of a resumed run reaches into a batch of the first. *)
Lemma batch_reach (JB JF es0 es1 : list JournalEntry) (all : list JournalEntry) (r : nat) (ended : Prop) :
  es1 = es0 ++ take r all → (r <= length all)%nat → es0 `prefix_of` JB → JB `prefix_of` JF → es1 `prefix_of` JF →
  (r = length all ∨ ended) → (ended → es1 = JF) →
  let j := Nat.min (length all) (length JB - length es0) in
  (j <= r)%nat ∧ es0 ++ take j all `prefix_of` JB ∧ es0 ++ take j all `prefix_of` es1 ∧ (j = length all ∨ (es0 ++ take j all = JB ∧ length JB = length es0 + j)%nat).
Proof.
  intros E Hr H0 HB H1 Hend HF j. pose proof (prefix_length _ _ H0) as Hl0.
  assert (j <= r)%nat as Hj.
  { destruct Hend as [->|He]; [lia|]. apply prefix_length in HB. rewrite <-(HF He), E, length_app, length_take in HB. lia. }
  assert (es0 ++ take j all `prefix_of` es1) as Hp1.
  { rewrite E. apply prefix_app. replace (take j all) with (take j (take r all)) by (rewrite take_take; f_equal; lia). apply prefix_take. }
  assert (length (es0 ++ take j all) = length es0 + j)%nat as Hlen by (rewrite length_app, length_take; lia).
  assert (es0 ++ take j all `prefix_of` JB) as HpB by (apply (common_prefix _ _ JF); [by etrans|done|lia]).
  split_and!; [done..|]. destruct (decide (j = length all)) as [?|Hne]; [by left|right]. split; [apply prefix_length_eq; [done|]|]; lia.
Qed.

Lemma resume_batch (w w' : World) (os : list AgentOpts) (c c' : Ctx) (JB JF : list JournalEntry) :
  steady w → agree (N.of_nat (length JB)) w w' → fresh p c → follows p JB c c' → es c `prefix_of` JB → es c' = JB →
  (length (es c) < length JB)%nat → JB `prefix_of` JF → leads JB JF (batch w os c) → followed p JB JF (batch w os c) (batch w' os c').
Proof.
  intros Hst Hw Hc Hf Hp He Hlt HJ Hl. destruct (decide (os = [])) as [->|Hos]; [by rewrite !batch_nil|].
  destruct (batch_fresh w os c Hst Hc) as [(t & Ht & E)|(cs & Ex & Ej & Ed & Ec & Es & Ho & Hmax & Hgrant & Hres)]; [by exfalso; eapply leads_unrecorded|].
  destruct Hmax as [?|Hmax]; [done|]. destruct Hgrant as [?|Hgrant]; [done|].
  destruct (batch_recorded w os c cs Hc Ej Ed Ec Es) as (r & error & c1 & Erec & Ex1 & Hr & Ee1 & Hs1 & Hq1 & Hk1 & Hend & Hfresh & Hskip).
  rewrite Ex, Ex1 in *. clear Ex Ex1. set (n := ctx_seq c) in *. set (g := gather (live_from w n os)) in *. set (x := answer_batch g error c1) in *.
  assert (x.2 = c1) as Ex2 by apply answer_batch_ctx. assert (n = N.of_nat (length (es c))) as Hn by apply Hc.
  pose proof (row_entries_length w n os) as Hlen.
  destruct (batch_reach JB JF (es c) (es c1) (row_entries w n os) r (∃ t, x.1 = Err (Terminated t))) as (Hj & HjB & Hj1 & Hcase); [done|by rewrite Hlen|done|done| |by rewrite Hlen| |].
  { rewrite <-Ex2. apply Hl. }
  { intros [t Ht]. rewrite <-Ex2. by eapply leads_end. }
  rewrite Hlen in *. set (j := Nat.min (length os) (length JB - length (es c))) in *.
  destruct (batch_resumed w w' os c' n j (N.of_nat (length JB)) Hw) as (c2 & g' & Hlike & -> & Ej2 & Ed2 & Ec2 & Es2); try done.
  { destruct Hcase as [?|[_ E]]; [by left|right]. lia. }
  { rewrite (follows_seq _ _ _ _ Hf). done. }
  { lia. }
  { rewrite Hn. apply entries_held. rewrite He, <-Hn. done. }
  { destruct Hcase as [?|[_ E]]; [by left|right]. rewrite He. lia. }
  destruct (Hskip j Hj) as (cj & Ecj & Eej & Hsj & Hqj & Hkj). rewrite Erec in Ecj.
  assert (settled p c2) as Hs2 by (destruct Hf; unfold settled; by rewrite Ej2, Ed2). assert (es c2 = JB) as Ee2 by (unfold es in *; by rewrite Ej2).
  destruct Hcase as [Hall|[EJB HJB]].
  - rewrite Hall, drop_all in Ecj |- *. cbn [rows record_all] in *. injection Ecj as -> <-. unfold bind, ret.
    destruct (answer_batch_like g g' None c1 c2 Hlike) as [E1 E2]. split; [by rewrite <-E1|]. rewrite E2.
    assert (es c1 `prefix_of` JB) as Hc1B by (rewrite <-(prefix_length_eq _ _ Hj1); [done|rewrite Ee1, !length_app, !length_take; lia]).
    destruct x as [[v|[t|m]] cx] eqn:Exx; cbn [fst snd] in *; subst cx.
    2: { split; [done|]. rewrite Ee2. apply prefix_length_eq; [done|]. rewrite <-(leads_end _ _ _ Hl t eq_refl). by apply prefix_length. }
    all: split; [by apply Hfresh|]; split; [done|rewrite Es2; congruence|destruct Hf; congruence|left; by split].
  - assert (twin p cj c2) as Htwin by (split; [congruence|done|done|congruence|destruct Hf; congruence]).
    assert (N.of_nat (length JB) = n + N.of_nat j) as EB by lia.
    destruct (mirrors_record_all p (N.of_nat (length JB)) w w' Hw (rows w (n + N.of_nat j) (drop j os)) None) with (c := cj) (c' := c2) as (E & Ht & _ & _);
      [apply rows_from; lia|done|rewrite Hqj, Es; lia|].
    rewrite <-Ecj in E, Ht. unfold bind. destruct (record_all w' _ None c2) as [error' c1']. cbn [fst snd] in *. subst error'.
    destruct (answer_batch_like g g' error c1 c1' Hlike) as [E1 E2]. split; [by rewrite <-E1|]. rewrite E2. destruct Ht as [Te Tl Tr Ts Tk].
    destruct x as [[v|[t|m]] cx] eqn:Exx; cbn [fst snd] in *; subst cx.
    2: { split; [done|]. rewrite <-Te. by apply (leads_end _ _ _ Hl t). }
    all: split; [by apply Hfresh|]; split; [done|by rewrite <-Ts, Hq1, Es, <-Es|congruence|right; split; [by rewrite <-EJB|done]].
Qed.

End Batch.
