(* ===== verification/WorkflowTrace.v ===== *)
(** * What a workflow asks of its host

    The requests a run sends, on any disk and in any world: a result that the journal
    holds is not asked for again, no agent is started that was not reserved, and what is
    reserved and not released covers the agents in the journal. *)

From S2P Require Import Prelude RustStr StrFind Journal Workflow JournalLaws WorkflowLaws WorkflowBatch.

#[local] Open Scope N_scope.
#[local] Open Scope workflow_scope.

(** Requests for a result. *)
Definition asks (r : WorkflowHostRequest) : bool :=
  match r with
  | SpawnAgent _ | BudgetQuery | RenderTemplate _ _ | WriteScratchFile _ _ | ReadScratchFile _ | GitDiffSince _ => true
  | ReserveAgentCalls _ | ReleaseAgentCalls _ | PhaseMsg _ _ | LogMsg _ _ | TelemetryMsg _ _ _ => false
  end.

Definition spawned_by (x : N * WorkflowHostRequest) : N := match x.2 with SpawnAgent _ => 1 | _ => 0 end.
Definition released_by (x : N * WorkflowHostRequest) : N := match x.2 with ReleaseAgentCalls k => k | _ => 0 end.
Definition granted_by (w : World) (x : N * WorkflowHostRequest) : N :=
  match x.2 with
  | ReserveAgentCalls k => match reserve_reply w x.1 k with Replied (Ok _) => k | _ => 0 end
  | _ => 0
  end.

Definition total_of (f : N * WorkflowHostRequest → N) (l : list (N * WorkflowHostRequest)) : N := foldr (fun x n => f x + n) 0 l.

(** The agents a journal holds. *)
Definition agents (l : list JournalEntry) : N := N.of_nat (length (List.filter (fun e => kind e =b SPAWN_AGENT) l)).

Lemma total_of_app (f : N * WorkflowHostRequest → N) (l k : list (N * WorkflowHostRequest)) : total_of f (l ++ k) = total_of f l + total_of f k.
Proof. unfold total_of. induction l as [|x l IH]; cbn; [done|]. rewrite IH. lia. Qed.

Lemma prefix_of_app {A} (l k l' : list A) : l' `prefix_of` l ++ k → l' `prefix_of` l ∨ ∃ k', l' = l ++ k' ∧ k' `prefix_of` k.
Proof.
  intros H. destruct (prefix_weak_total l' l (l ++ k)) as [?|[k' ->]]; [done|by apply prefix_app_r|by left|]. right. exists k'. split; [done|]. by apply prefix_app_inv in H.
Qed.

Lemma agents_snoc (l : list JournalEntry) (e : JournalEntry) : agents (l ++ [e]) = agents l + (if kind e =b SPAWN_AGENT then 1 else 0).
Proof. unfold agents. rewrite List.filter_app, length_app. cbn [List.filter]. destruct (kind e =b SPAWN_AGENT); cbn; lia. Qed.

Section Trace.
Context {json : JsonText} {faults : DiskFaults}.
Variable w : World.
Variable b : N.

(** The requests [l] of a part of a run: new questions only, reservations before the
    agents, and the journal's new agents paid for. *)
Record accounted (c c1 : Ctx) (l : list (N * WorkflowHostRequest)) : Prop := {
  acc_sent : sent c1 = sent c ++ l;
  acc_new : Forall (fun x => asks x.2 = true → b <= x.1) l;
  acc_reserved l' : l' `prefix_of` l → total_of spawned_by l' <= total_of (granted_by w) l';
  acc_paid : agents (es c1) + total_of released_by l <= agents (es c) + total_of (granted_by w) l;
  acc_grows : es c `prefix_of` es c1;
}.

Lemma accounted_app (c c1 c2 : Ctx) (l k : list (N * WorkflowHostRequest)) : accounted c c1 l → accounted c1 c2 k → accounted c c2 (l ++ k).
Proof.
  intros [A1 A2 A3 A4 A5] [B1 B2 B3 B4 B5]. split.
  - by rewrite B1, A1, app_assoc.
  - by apply Forall_app_2.
  - intros l' Hl'. apply prefix_of_app in Hl' as [H|(k' & -> & Hk')]; [by apply A3|]. rewrite !total_of_app. pose proof (A3 l (reflexivity l)). pose proof (B3 k' Hk'). lia.
  - rewrite !total_of_app. lia.
  - by etrans.
Qed.

Lemma record_any (n : N) (k hash : bytes) (v : Value) (c : Ctx) :
  ∃ r c1, record_result w n k hash v c = (r, c1) ∧ sent c1 = sent c ∧ ctx_seq c1 = ctx_seq c ∧
    ((r = Ok tt ∧ es c1 = es c ++ [mkEntry n k hash v (clock w n)]) ∨ ((∃ m, r = Err (Terminated (TFatal m))) ∧ es c1 = es c)).
Proof.
  unfold record_result, record. destruct (validate_sequence _ _); [|eexists _, _; split_and!; [done..|right; split; [by eexists|done]]].
  destruct (to_line _) as [t|m]; [|eexists _, _; split_and!; [done..|right; split; [by eexists|done]]].
  destruct (_ <? _); [eexists _, _; split_and!; [done..|right; split; [by eexists|done]]|].
  destruct (match path (journal c) with Some _ => _ | None => _ end) as [[[]|m] d]; eexists _, _; (split_and!; [done..|]); [left|right]; [done|split; [by eexists|done]].
Qed.

Lemma replay_none (n : N) (k hash : bytes) (j : Journal) : replay n k hash j = Ok None → N.of_nat (length (entries j)) <= n.
Proof.
  unfold replay. destruct (entries j !! N.to_nat n) as [e|] eqn:E; [by destruct (_ && _)|]. intros _. apply lookup_ge_None in E. lia.
Qed.

Lemma replay_spawn_none (n : N) (payload : Value) (hash : bytes) (j : Journal) :
  replay_spawn_agent j n payload hash = Ok None → N.of_nat (length (entries j)) <= n.
Proof.
  unfold replay_spawn_agent. destruct (replay n SPAWN_AGENT hash j) as [[v|]|e] eqn:E; [done|intros _; by eapply replay_none|].
  destruct e; try done. destruct payload; try done. destruct (member _ _); [apply replay_none|done].
Qed.

Lemma replay_call_none (n : N) (k : bytes) (payload : Value) (hash : bytes) (j : Journal) :
  replay_call j n k payload hash = Ok None → N.of_nat (length (entries j)) <= n.
Proof. unfold replay_call. destruct (k =b SPAWN_AGENT); [apply replay_spawn_none|apply replay_none]. Qed.

(** A call sends at most its request, and only when the journal does not answer; what it
    records is of its kind. *)
Definition call_traced (k : bytes) (payload : Value) (request : WorkflowHostRequest) (c : Ctx) (x : result Value Stop * Ctx) : Prop :=
  let found := replay_call (journal c) (ctx_seq c) k payload (request_hash k payload) in
  ∃ l, sent x.2 = sent c ++ l ∧ (l = [] ∨ found = Ok None ∧ ∃ n, l = [(n, request)] ∧ N.of_nat (length (es c)) <= n)
    ∧ (es x.2 = es c ∨ found = Ok None ∧ ∃ e, es x.2 = es c ++ [e] ∧ kind e = k ∧ ∀ s, x.1 = Err s → is_resumable_unjournaled_terminal s = false).

Lemma untraced (k : bytes) (payload : Value) (request : WorkflowHostRequest) (c c1 : Ctx) (a : result Value Stop) :
  sent c1 = sent c → es c1 = es c → call_traced k payload request c (a, c1).
Proof. intros Hs He. exists []. rewrite app_nil_r. split_and!; [done|by left|by left]. Qed.

Lemma host_call_trace {T} (k : bytes) (payload : Value) (request : WorkflowHostRequest) (reply : N → Reply T) (to_result : T → Value) (c : Ctx) :
  call_traced k payload request c (host_call w k payload request reply to_result c).
Proof.
  unfold host_call, bind at 1. unfold next_seq. destruct (U64_MAX <? _); [by apply untraced|]. destruct (MAX_HOST_CALLS <? _); [by apply untraced|].
  unfold bind at 1, of_journal, lift. cbn [journal with_seq].
  destruct (replay_call (journal c) (ctx_seq c) k payload (request_hash k payload)) as [[v|]|e] eqn:E; [by destruct (replay_host_error v); apply untraced| |by apply untraced].
  pose proof (replay_call_none (ctx_seq c) k payload _ (journal c) E) as Hn. set (c0 := send (ctx_seq c) request (with_seq (ctx_seq c + 1) c)).
  assert (∀ (a : result Value Stop) (v : Value), (∀ s, a = Err s → is_resumable_unjournaled_terminal s = false) →
    call_traced k payload request c
      (match record_result w (ctx_seq c) k (request_hash k payload) v c0 with (Ok _, c1) => (a, c1) | (Err e, c1) => (Err e, c1) end)) as Hrec.
  { intros a v Ha. destruct (record_any (ctx_seq c) k (request_hash k payload) v c0) as (r & c1 & -> & Es & _ & [[-> Ee]|[[m ->] Ee]]);
      exists [(ctx_seq c, request)]; (split_and!; [done|right; split; [done|by eexists]|]); [right|by left]. split; [done|]. eexists. by split_and!. }
  assert (∀ s, call_traced k payload request c (Err s, c0)) as Hstop.
  { intros s. exists [(ctx_seq c, request)]. split_and!; [done|right; split; [done|by eexists]|by left]. }
  destruct (reply (ctx_seq c)) as [| |[x|[q m| | |m|m]]]; try apply Hstop; [by apply untraced|by apply (Hrec (Ok (to_result x)))|..].
  all: apply (Hrec (Err (RuntimeError m)) (host_error_sentinel m)); by intros ? [= <-].
Qed.

(** ** Reservations *)

Definition no_journal (c c1 : Ctx) : Prop := journal c1 = journal c ∧ ctx_seq c1 = ctx_seq c.

Lemma reserve_trace (k : nat) (c : Ctx) :
  ∃ r c1 l, reserve_agent_calls w k c = (r, c1) ∧ no_journal c c1 ∧ sent c1 = sent c ++ l
    ∧ (l = [] ∨ l = [(ctx_seq c, ReserveAgentCalls (N.of_nat k))]) ∧ (r = Ok tt → total_of (granted_by w) l = N.of_nat k).
Proof.
  unfold reserve_agent_calls. destruct (Nat.eqb_spec k 0) as [->|Hk]; [eexists _, _, []; rewrite app_nil_r; split_and!; [done..|by left|done]|].
  unfold bind, read. destruct (reserve_reply w (ctx_seq c) (N.of_nat k)) as [| |[[]|[q m| | |m|m]]] eqn:E.
  1: eexists _, _, []; rewrite app_nil_r; split_and!; [done..|by left|done].
  all: eexists _, _, [_]; split_and!; [done..|by right|]; (intros H; try done). cbn. rewrite E. lia.
Qed.

Lemma release_trace (k : nat) (c : Ctx) :
  ∃ c1 l, release_agent_calls w k c = (Ok tt, c1) ∧ no_journal c c1 ∧ sent c1 = sent c ++ l ∧ (l = [] ∨ l = [(ctx_seq c, ReleaseAgentCalls (N.of_nat k))]).
Proof.
  unfold release_agent_calls. destruct (k =? 0)%nat; [eexists _, []; rewrite app_nil_r; split_and!; [done..|by left]|].
  unfold bind, read. destruct (listening w (calls c)); [eexists _, [_]; split_and!; [done..|by right]|eexists _, []; rewrite app_nil_r; split_and!; [done..|by left]].
Qed.

(** Requests of a part of a run: a reservation, then agents, then a release. *)
Lemma accounted_parts (c c1 : Ctx) (k n : nat) (l1 l2 l3 : list (N * WorkflowHostRequest)) :
  sent c1 = sent c ++ l1 ++ l2 ++ l3 →
  (l1 = [] ∨ ∃ s, l1 = [(s, ReserveAgentCalls (N.of_nat k))]) → (l2 ≠ [] ∨ agents (es c1) ≠ agents (es c) ∨ l3 ≠ [] → total_of (granted_by w) l1 = N.of_nat k) →
  Forall (fun x => b <= x.1 ∧ ∃ o, x.2 = SpawnAgent o) l2 → (length l2 <= k)%nat → (l3 = [] ∨ es c1 = es c ∧ ∃ s, l3 = [(s, ReleaseAgentCalls (N.of_nat k))]) →
  agents (es c1) <= agents (es c) + N.of_nat k → es c `prefix_of` es c1 →
  accounted c c1 (l1 ++ l2 ++ l3).
Proof.
  intros Hs H1 Hg H2 Hk H3 Ha Hp.
  assert (total_of spawned_by l1 = 0 ∧ total_of released_by l1 = 0) as [Hs1 Hr1] by by destruct H1 as [->|[s ->]].
  assert (∀ l, Forall (fun x => b <= x.1 ∧ ∃ o, x.2 = SpawnAgent o) l → total_of spawned_by l = N.of_nat (length l) ∧ total_of released_by l = 0 ∧ total_of (granted_by w) l = 0) as Hspawn.
  { induction 1 as [|[s r] l [_ [o Ho]] Hl (I1 & I2 & I3)]; [done|]. cbn in *. subst r. unfold total_of in *. cbn. rewrite I1, I2, I3. cbn. split_and!; lia. }
  destruct (Hspawn l2 H2) as (Hs2 & Hr2 & Hg2).
  assert (total_of spawned_by l3 = 0 ∧ total_of (granted_by w) l3 = 0) as [Hs3 Hg3] by by destruct H3 as [->|[_ [s ->]]].
  split; [done|..|done].
  - apply Forall_app_2; [by destruct H1 as [->|[s ->]]; [apply Forall_nil_2|apply Forall_singleton]|]. apply Forall_app_2; [|by destruct H3 as [->|[_ [s ->]]]; [apply Forall_nil_2|apply Forall_singleton]].
    eapply Forall_impl; [exact H2|]. by intros x [? _].
  - intros l' Hl'. apply prefix_of_app in Hl' as [Hl'|(k1 & -> & Hl')].
    + destruct H1 as [->|[s ->]]; [apply prefix_nil_inv in Hl' as ->; done|]. destruct l' as [|y l']; [done|]. apply prefix_cons_inv_1 in Hl' as Hy. apply prefix_cons_inv_2, prefix_nil_inv in Hl' as ->. subst y. cbn. lia.
    + rewrite !total_of_app, Hs1. apply prefix_of_app in Hl' as [Hl'|(k2 & -> & Hl')].
      * destruct (decide (l2 = [])) as [->|Hne]; [apply prefix_nil_inv in Hl' as ->; cbn; lia|]. rewrite Hg by by left.
        destruct (Hspawn k1) as (-> & _ & ->); [destruct Hl' as [r ->]; by apply Forall_app in H2 as [? _]|]. apply prefix_length in Hl'. lia.
      * rewrite !total_of_app, Hs2. assert (total_of spawned_by k2 = 0) as ->.
        { destruct H3 as [->|[_ [s ->]]]; [by apply prefix_nil_inv in Hl' as ->|]. destruct k2 as [|y k2]; [done|]. apply prefix_cons_inv_1 in Hl' as Hy. apply prefix_cons_inv_2, prefix_nil_inv in Hl' as ->. by subst y. }
        destruct (decide (l2 = [])) as [->|Hne]; [cbn; lia|]. rewrite Hg by by left. lia.
  - rewrite !total_of_app, Hr1, Hr2, Hg2, Hg3. destruct H3 as [->|[E [s ->]]].
    + destruct (decide (agents (es c1) = agents (es c))) as [->|Hne]; [cbn; lia|]. rewrite Hg by by right; left. cbn. lia.
    + rewrite E, Hg by by right; right. cbn. lia.
Qed.

Lemma call_accounted (k : bytes) (payload : Value) (request : WorkflowHostRequest) (c : Ctx) (x : result Value Stop * Ctx) :
  call_traced k payload request c x → k ≠ SPAWN_AGENT → (∀ s, spawned_by (s, request) = 0 ∧ released_by (s, request) = 0 ∧ granted_by w (s, request) = 0) →
  b <= N.of_nat (length (es c)) → ∃ l, accounted c x.2 l.
Proof.
  intros (l & Hs & Hl & He) Hk Hr Hb. exists l. assert (total_of spawned_by l = 0 ∧ total_of released_by l = 0 ∧ total_of (granted_by w) l = 0 ∧ (∀ l', l' `prefix_of` l → total_of spawned_by l' = 0) ∧ Forall (fun x => b <= x.1) l) as (H1 & H2 & H3 & H4 & H5).
  { destruct Hl as [->|[_ (n & -> & Hn)]].
    - split_and!; [done..|by intros l' ->%prefix_nil_inv|apply Forall_nil_2].
    - destruct (Hr n) as (R1 & R2 & R3). unfold total_of. cbn. rewrite R1, R2, R3. split_and!; [done..| |apply Forall_singleton; cbn; lia].
      intros [|y l'] Hl'; [done|]. apply prefix_cons_inv_1 in Hl' as Hy. apply prefix_cons_inv_2, prefix_nil_inv in Hl' as ->. subst y. cbn. by rewrite R1. }
  split; [done|by eapply Forall_impl|intros l' Hl'; rewrite H4 by done; lia|rewrite H2, H3|].
  - destruct He as [->|[_ (e & -> & Hke & _)]]; [lia|]. rewrite agents_snoc, Hke, (proj2 (beq_false k SPAWN_AGENT) Hk). lia.
  - destruct He as [->|[_ (e & -> & _)]]; [done|by eexists].
Qed.

Lemma accounted_nil (c c1 : Ctx) : sent c1 = sent c → es c1 = es c → accounted c c1 [].
Proof. intros Hs He. split; [by rewrite app_nil_r|apply Forall_nil_2|by intros l' ->%prefix_nil_inv|rewrite He; cbn; lia|by rewrite He]. Qed.

Lemma no_journal_es (c c1 : Ctx) : no_journal c c1 → es c1 = es c.
Proof. intros [E _]. unfold es. by rewrite E. Qed.

(** A reservation that was not granted. *)
Lemma accounted_refused (c c1 : Ctx) (k : nat) (l : list (N * WorkflowHostRequest)) :
  sent c1 = sent c ++ l → (l = [] ∨ ∃ s, l = [(s, ReserveAgentCalls (N.of_nat k))]) → es c1 = es c → accounted c c1 l.
Proof.
  intros Hs Hl He. rewrite <-(app_nil_r l). apply (accounted_parts c c1 k 1 l [] []); rewrite ?He, ?app_nil_r; try done; [by intros [?|[?|?]]|cbn; lia|by left|lia].
Qed.

(** One agent. *)
Lemma spawn_accounted (o : AgentOpts) (c : Ctx) : b <= N.of_nat (length (es c)) → ∃ l, accounted c (spawn_agent_call w o c).2 l.
Proof.
  intros Hb. rewrite spawn_agent_call_eq. unfold bind at 1, of_journal, lift.
  pose proof (host_call_trace SPAWN_AGENT (agent_payload o) (SpawnAgent o) (fun n => spawn_reply w n o) result_value) as Hcall.
  destruct (replay_spawn_agent (journal c) (ctx_seq c) (agent_payload o) (agent_hash o)) as [found|e] eqn:E; [|exists []; by apply accounted_nil].
  unfold spawn_and_release, bind. cbv zeta. destruct found as [v|].
  - destruct (Hcall c) as (l & Hs & Hl & He). change (replay_call _ _ SPAWN_AGENT _ _) with (replay_spawn_agent (journal c) (ctx_seq c) (agent_payload o) (agent_hash o)) in *. rewrite E in *.
    destruct Hl as [->|[? _]]; [|done]. destruct He as [He|[? _]]; [|done]. rewrite app_nil_r in Hs. exists [].
    unfold ret. destruct (host_call _ _ _ _ _ _ c) as [[a|s] c1]; by apply accounted_nil.
  - destruct (reserve_trace 1 c) as (r & c1 & l1 & -> & Hnj1 & Hs1 & Hl1 & Hg1). pose proof (no_journal_es _ _ Hnj1) as E1.
    assert (l1 = [] ∨ ∃ s, l1 = [(s, ReserveAgentCalls (N.of_nat 1))]) as Hl1' by (destruct Hl1 as [->| ->]; [by left|right; by eexists]).
    destruct r as [[]|e].
    2: { exists l1. by apply (accounted_refused c c1 1). }
    destruct (Hcall c1) as (l2 & Hs2 & Hl2 & He2).
    assert (Forall (fun x => b <= x.1 ∧ ∃ o, x.2 = SpawnAgent o) l2 ∧ (length l2 <= 1)%nat) as [H2 Hk2].
    { destruct Hl2 as [->|[_ (n & -> & Hn)]]; (split; [|cbn; lia]); [apply Forall_nil_2|apply Forall_singleton]. split; [cbn; rewrite E1 in Hn; lia|by eexists]. }
    destruct (host_call _ _ _ _ _ _ c1) as [a c2]. cbn [fst snd] in *. rewrite E1, ?Hs1 in *.
    assert (agents (es c2) <= agents (es c) + 1 ∧ es c `prefix_of` es c2) as [Ha Hp].
    { destruct He2 as [->|[_ (e & -> & _)]]; [split; [lia|done]|]. rewrite agents_snoc. split; [destruct (_ =b _); lia|by eexists]. }
    assert (sent c2 = sent c ++ l1 ++ l2 ++ []) as Hs3 by by rewrite Hs2, app_nil_r, <-app_assoc.
    assert (accounted c c2 (l1 ++ l2 ++ [])) as Hplain.
    { apply (accounted_parts c c2 1 1); [done|done|intros _; by apply Hg1|done|done|by left|done|done]. }
    destruct a as [v|e]; [by eexists|]. destruct (is_resumable_unjournaled_terminal e) eqn:Hr; [|by eexists]. cbn [andb].
    destruct He2 as [He2|[_ (x & _ & _ & Hx)]]; [|by rewrite Hx in Hr].
    destruct (release_trace 1 c2) as (c3 & l3 & -> & Hnj3 & Hs4 & Hl3). pose proof (no_journal_es _ _ Hnj3) as E3. cbn [snd stop].
    exists (l1 ++ l2 ++ l3). apply (accounted_parts c c3 1 1); rewrite ?E3, ?He2; [|done|intros _; by apply Hg1|done|done| |lia|done].
    + rewrite Hs4, Hs3. by rewrite app_nil_r, <-!app_assoc.
    + destruct Hl3 as [->| ->]; [by left|right; split; [done|by eexists]].
Qed.

(** ** Batches *)

Definition is_live_agent (x : PendingAgent) : bool := match x with LiveAgent _ _ _ => true | ReplayedAgent _ => false end.
Definition to_record (r : option (N * bytes) * Value) : bool := match r.1 with Some _ => true | None => false end.

Definition live_agents (ps : list PendingAgent) : nat := length (List.filter is_live_agent ps).
Definition records_due (rs : list (option (N * bytes) * Value)) : nat := length (List.filter to_record rs).

(** The agents that are started are the ones counted before. *)
Lemma start_all_trace (os : list AgentOpts) (c : Ctx) (live : nat) :
  b <= N.of_nat (length (es c)) → count_live (journal c) (ctx_seq c) os = Ok live →
  ∃ r c1 l, start_all w os c = (r, c1) ∧ journal c1 = journal c ∧ sent c1 = sent c ++ l
    ∧ Forall (fun x => b <= x.1 ∧ ∃ o, x.2 = SpawnAgent o) l ∧ (length l <= live)%nat ∧ ∀ ps, r = Ok ps → (live_agents ps <= live)%nat.
Proof.
  revert c live. induction os as [|o os IH]; intros c live Hb; cbn [count_live start_all].
  { intros [= <-]. eexists _, _, []. rewrite app_nil_r. split_and!; [done..|apply Forall_nil_2|done|by intros ? [= <-]]. }
  destruct (replay_spawn_agent (journal c) (ctx_seq c) (agent_payload o) (agent_hash o)) as [found|e] eqn:E; [|done].
  unfold bind, next_seq. destruct (U64_MAX <? _); [done|]. destruct (count_live (journal c) (ctx_seq c + 1) os) as [k|] eqn:Ek; [|done].
  intros [= <-]. assert (k <= match found with Some _ => k | None => S k end)%nat as Hk by (destruct found; lia).
  destruct (MAX_HOST_CALLS <? _); [eexists _, _, []; rewrite app_nil_r; split_and!; [done..|apply Forall_nil_2|cbn; lia|done]|].
  unfold of_journal, lift. cbn [journal with_seq]. rewrite E.
  assert (∀ x l1 c1, journal c1 = journal c → ctx_seq c1 = ctx_seq c + 1 → sent c1 = sent c ++ l1 → Forall (fun x => b <= x.1 ∧ ∃ o, x.2 = SpawnAgent o) l1 →
    (length l1 + k <= match found with Some _ => k | None => S k end)%nat → (is_live_agent x = true → found = None) →
    ∃ r c2 l, match start_all w os c1 with (Ok rest, c2) => ret (x :: rest) c2 | (Err e, c2) => (Err e, c2) end = (r, c2) ∧ journal c2 = journal c ∧ sent c2 = sent c ++ l
      ∧ Forall (fun x => b <= x.1 ∧ ∃ o, x.2 = SpawnAgent o) l ∧ (length l <= match found with Some _ => k | None => S k end)%nat
      ∧ ∀ ps, r = Ok ps → (live_agents ps <= match found with Some _ => k | None => S k end)%nat) as Hrest.
  { intros x l1 c1 Ej Es Hs Hl Hlen Hx. destruct (IH c1 k) as (r & c2 & l2 & -> & Ej2 & Hs2 & Hl2 & Hn2 & Hps); [unfold es; by rewrite Ej|by rewrite Ej, Es|].
    assert (sent c2 = sent c ++ l1 ++ l2) as Hs3 by by rewrite Hs2, Hs, <-app_assoc.
    destruct r as [rest|e]; (eexists _, _, (l1 ++ l2); split_and!; [done|congruence|done|by apply Forall_app_2|rewrite length_app; lia|]); [|done].
    intros ps [= <-]. specialize (Hps rest eq_refl). unfold live_agents in *. cbn [List.filter]. destruct (is_live_agent x); [rewrite (Hx eq_refl) in *; cbn; lia|lia]. }
  destruct found as [v|].
  - apply (Hrest (ReplayedAgent v) [] (with_seq (ctx_seq c + 1) c)); [done|done|by rewrite app_nil_r|apply Forall_nil_2|done|done].
  - apply replay_spawn_none in E. assert (Forall (fun x => b <= x.1 ∧ ∃ o, x.2 = SpawnAgent o) [(ctx_seq c, SpawnAgent o)]) as H1.
    { apply Forall_singleton. unfold es in Hb. split; [cbn; lia|by eexists]. }
    destruct (spawn_reply w (ctx_seq c) o) as [| |a].
    + eexists _, _, []. rewrite app_nil_r. split_and!; [done..|apply Forall_nil_2|cbn; lia|done].
    + by apply (Hrest (LiveAgent (ctx_seq c) (agent_hash o) None) [(ctx_seq c, SpawnAgent o)] (send (ctx_seq c) (SpawnAgent o) (with_seq (ctx_seq c + 1) c))).
    + by apply (Hrest (LiveAgent (ctx_seq c) (agent_hash o) (Some a)) [(ctx_seq c, SpawnAgent o)] (send (ctx_seq c) (SpawnAgent o) (with_seq (ctx_seq c + 1) c))).
Qed.

(** One result for each live agent. *)
Lemma gather_due (ps : list PendingAgent) : (records_due (resolved (gather ps)) <= live_agents ps)%nat.
Proof.
  unfold gather. enough (∀ g, (records_due (resolved (fold_left gather_one ps g)) <= records_due (resolved g) + live_agents ps)%nat) as H by apply H.
  induction ps as [|x ps IH]; intros g; cbn [fold_left]; [unfold live_agents; cbn; lia|]. etrans; [apply IH|]. unfold live_agents. cbn [List.filter].
  assert (∀ r k, records_due (resolved (with_resolved r (after_kind k g))) = (records_due (resolved g) + if to_record r then 1 else 0)%nat) as Hr.
  { intros r k. unfold records_due. destruct k; cbn; rewrite List.filter_app, length_app; cbn; destruct (to_record r); cbn; lia. }
  destruct x as [v|n hash r]; [|rewrite gather_live, Hr; cbn; lia]. cbn [gather_one is_live_agent]. destruct (is_host_terminal_sentinel v); [done|].
  destruct (replay_host_error v); [done|]. apply Nat.add_le_mono_r. pose proof (Hr (None, v) None) as E. cbn [after_kind to_record fst] in E. rewrite E. lia.
Qed.

Lemma record_all_trace (rs : list (option (N * bytes) * Value)) (error : option Stop) (c : Ctx) :
  ∃ r c1, record_all w rs error c = (Ok r, c1) ∧ sent c1 = sent c ∧ es c `prefix_of` es c1 ∧ agents (es c1) <= agents (es c) + N.of_nat (records_due rs).
Proof.
  revert c. induction rs as [|[[[n hash]|] v] rs IH]; intros c; cbn [record_all]; [eexists _, _; split_and!; [done..|cbn; lia]| |apply IH].
  destruct (record_any n SPAWN_AGENT hash v c) as (r & c1 & -> & Hs & _ & [[-> Ee]|[[m ->] Ee]]).
  - destruct (IH c1) as (r & c2 & -> & Hs2 & Hp & Ha). eexists _, _. split_and!; [done|congruence|etrans; [|exact Hp]; rewrite Ee; by eexists|].
    rewrite Ee, agents_snoc in Ha. change (records_due (_ :: rs)) with (S (records_due rs)). destruct (_ =b _) in Ha; lia.
  - eexists _, _. split_and!; [done..|by rewrite Ee|rewrite Ee; unfold records_due; cbn; lia].
Qed.

Lemma batch_accounted (os : list AgentOpts) (c : Ctx) : b <= N.of_nat (length (es c)) → ∃ l, accounted c (batch w os c).2 l.
Proof.
  intros Hb. rewrite batch_eq. destruct (count_live (journal c) (ctx_seq c) os) as [live|e] eqn:E; [|exists []; by apply accounted_nil].
  destruct (reserve_trace live c) as (r & c1 & l1 & -> & Hnj1 & Hs1 & Hl1 & Hg1). pose proof (no_journal_es _ _ Hnj1) as E1. destruct Hnj1 as [Ej1 Eq1].
  assert (l1 = [] ∨ ∃ s, l1 = [(s, ReserveAgentCalls (N.of_nat live))]) as Hl1' by (destruct Hl1 as [->| ->]; [by left|right; by eexists]).
  destruct r as [[]|e]; [|exists l1; by apply (accounted_refused c c1 live)].
  destruct (start_all_trace os c1 live) as (r & c2 & l2 & -> & Ej2 & Hs2 & Hl2 & Hk2 & Hps); [by rewrite E1|by rewrite Ej1, Eq1|].
  assert (es c2 = es c) as E2 by (unfold es in *; congruence). rewrite Hs1, <-app_assoc in Hs2.
  destruct r as [ps|e].
  2: { exists (l1 ++ l2 ++ []). apply (accounted_parts c c2 live live); rewrite ?E2, ?app_nil_r; [done|done|intros _; by apply Hg1|done|done|by left|lia|done]. }
  unfold batch_end, bind. destruct (resumable (gather ps)).
  - destruct (release_trace live c2) as (c3 & l3 & -> & Hnj3 & Hs3 & Hl3). pose proof (no_journal_es _ _ Hnj3) as E3. unfold ret. rewrite answer_batch_ctx.
    exists (l1 ++ l2 ++ l3). apply (accounted_parts c c3 live live); rewrite ?E3, ?E2; [by rewrite Hs3, Hs2, <-!app_assoc|done|intros _; by apply Hg1|done|done| |lia|done].
    destruct Hl3 as [->| ->]; [by left|right; split; [done|by eexists]].
  - destruct (record_all_trace (resolved (gather ps)) (terminal_error (gather ps)) c2) as (error & c3 & -> & Hs3 & Hp3 & Ha3). rewrite answer_batch_ctx.
    pose proof (gather_due ps) as Hdue. specialize (Hps ps eq_refl). rewrite E2 in *.
    exists (l1 ++ l2 ++ []). apply (accounted_parts c c3 live live); rewrite ?app_nil_r; [by rewrite Hs3|done|intros _; by apply Hg1|done|done|by left|lia|done].
Qed.

(** ** Runs *)

(** Requests that no agent comes of. *)
Lemma accounted_idle (c c1 : Ctx) (n : N) (r : WorkflowHostRequest) :
  sent c1 = sent c ++ [(n, r)] → es c1 = es c → asks r = false → spawned_by (n, r) = 0 ∧ released_by (n, r) = 0 ∧ granted_by w (n, r) = 0 → accounted c c1 [(n, r)].
Proof.
  intros Hs He Ha (H1 & H2 & H3). unfold total_of. split; [done|apply Forall_singleton; cbn; congruence| |unfold total_of; cbn; rewrite He, H2, H3; lia|by rewrite He].
  intros [|y l'] Hl'; [done|]. apply prefix_cons_inv_1 in Hl' as Hy. apply prefix_cons_inv_2, prefix_nil_inv in Hl' as ->. subst y. unfold total_of. cbn. rewrite H1. lia.
Qed.

Lemma emit_accounted (build : bool → WorkflowHostRequest) (c : Ctx) :
  (∀ n x, asks (build x) = false ∧ spawned_by (n, build x) = 0 ∧ released_by (n, build x) = 0 ∧ granted_by w (n, build x) = 0) → ∃ l, accounted c (host_emit w build c).2 l.
Proof.
  intros H. unfold host_emit, bind, read. destruct (listening w (calls c)); [|exists []; by apply accounted_nil].
  exists [(ctx_seq c, build (replaying c))]. apply accounted_idle; [done|done|apply (H (ctx_seq c))..].
Qed.

Lemma await_accounted (k m : bytes) (c : Ctx) : ∃ l, accounted c (await_user w k m c).2 l.
Proof.
  exists []. unfold await_user. destruct (parse_pause_kind k); [|by apply accounted_nil]. unfold bind, next_seq.
  destruct (U64_MAX <? _); [by apply accounted_nil|]. destruct (MAX_HOST_CALLS <? _); [by apply accounted_nil|].
  unfold of_journal, lift. destruct (replay _ _ _ _) as [[v|]|e]; [by apply accounted_nil| |by apply accounted_nil].
  match goal with |- context [record_result w ?n ?k ?h ?v ?c] => destruct (record_any n k h v c) as (r & c1 & -> & Hs & _ & [[-> Ee]|[[x ->] Ee]]) end; [|by apply accounted_nil].
  change (es (with_seq _ c)) with (es c) in Ee. cbn [stop snd].
  split; [by rewrite Hs, app_nil_r|apply Forall_nil_2|by intros l' ->%prefix_nil_inv|rewrite Ee, agents_snoc; change (kind _ =b SPAWN_AGENT) with false; unfold total_of; cbn [foldr]; lia|rewrite Ee; by eexists].
Qed.

Lemma call_host_accounted (f : HostFn) (c : Ctx) : b <= N.of_nat (length (es c)) → ∃ l, accounted c (call_host w f c).2 l.
Proof.
  intros Hb. assert (∀ (m : M Value), (m c).2 = c → ∃ l, accounted c (m c).2 l) as Hpure by (intros m ->; exists []; by apply accounted_nil).
  destruct f as [pr|pr parsed|items|t|t|n fl|v|k m|k m| |n v|n t|n|n]; cbn [call_host].
  - by apply spawn_accounted.
  - destruct (agent_opts_from_map (Some pr) parsed) as [o|e]; [by apply spawn_accounted|by apply (Hpure (stop e))].
  - destruct (parallel_eq items) as [[m E]|(os & E)]; rewrite E; [exists []; by apply accounted_nil|by apply batch_accounted].
  - by apply emit_accounted.
  - by apply emit_accounted.
  - by apply emit_accounted.
  - by apply (Hpure (stop _)).
  - destruct (parse_pause_kind k); by apply (Hpure (stop _)).
  - apply await_accounted.
  - by eapply call_accounted; [apply host_call_trace|..].
  - by eapply call_accounted; [apply host_call_trace|..].
  - by eapply call_accounted; [apply host_call_trace|..].
  - by eapply call_accounted; [apply host_call_trace|..].
  - by eapply call_accounted; [apply host_call_trace|..].
Qed.

Lemma eval_accounted (s : Script) (c : Ctx) : b <= N.of_nat (length (es c)) → ∃ l, accounted c (eval w s c).2 l.
Proof.
  revert c. induction s as [v|e|f next IH]; intros c Hb; cbn [eval]; (destruct (cancelled_before w (calls c)); [exists []; by apply accounted_nil|]);
    [exists []; by apply accounted_nil..|].
  destruct (call_host_accounted f c Hb) as [l Hl]. destruct (call_host w f c) as [a c1]. cbn [snd] in Hl.
  assert (b <= N.of_nat (length (es (count_call c1)))) as Hb1 by (pose proof (prefix_length _ _ (acc_grows _ _ _ Hl)); change (es (count_call c1)) with (es c1); lia).
  assert (∀ a, ∃ l, accounted c (eval w (next a) (count_call c1)).2 l) as Hnext.
  { intros a'. destruct (IH a' (count_call c1) Hb1) as [k [K1 K2 K3 K4 K5]]. exists (l ++ k). by apply (accounted_app c c1). }
  destruct a as [v|[t|m]]; [apply Hnext|by exists l|apply Hnext].
Qed.

End Trace.

(** C8: No agent starts without a reservation, and no result the journal holds is asked
    for again.  Whatever the script, the replies, the journal a run starts with and the
    failures of its disk: every request for a result bears a number behind the journal's
    entries; at any time the agents started are at most the calls that were granted; and
    what was granted and not released covers every agent the journal has gained. *)
Theorem agents_reserved {json : JsonText} {faults : DiskFaults} (w : World) (s : Script) (j : Journal) (d : Disk) :
  let c := (eval w s (ctx_new j d)).2 in
  Forall (fun x => asks x.2 = true → N.of_nat (length (entries j)) <= x.1) (sent c)
  ∧ (∀ l, l `prefix_of` sent c → total_of spawned_by l <= total_of (granted_by w) l)
  ∧ agents (entries (journal c)) + total_of released_by (sent c) <= agents (entries j) + total_of (granted_by w) (sent c)
  ∧ entries j `prefix_of` entries (journal c).
Proof.
  destruct (eval_accounted w (N.of_nat (length (entries j))) s (ctx_new j d) (N.le_refl _)) as [l [H1 H2 H3 H4 H5]]. cbn [ctx_new sent app] in H1.
  cbv zeta. rewrite H1. by split_and!.
Qed.
