(* ===== verification/WorkflowClaims.v ===== *)
(** * Workflows survive crashes

    The runs of a script, whole: a run that is cut off at any byte of its journal's file
    is resumed to the outcome it would have had; what the journal holds is never asked
    again; no agent starts without a reservation. *)

From S2P Require Import Prelude RustStr StrFind TextLines Journal Workflow JournalLaws WorkflowLaws WorkflowBatch.

#[local] Open Scope N_scope.
#[local] Open Scope workflow_scope.

Section Runs.
Context {json : JsonText} {faults : DiskFaults} {laws : JsonLaws} {sound : SoundDisk}.
Variable p : bytes.

(** Host functions that neither ask the journal nor the host. *)
Lemma idle_followed (w w' : World) (f : HostFn) (c c' : Ctx) (JB JF : list JournalEntry) :
  (∀ w c, ∃ c1, quiet c c1 ∧ call_host w f c = ((call_host w f c).1, c1)) → (∀ w w' c c', (call_host w f c).1 = (call_host w' f c').1) →
  fresh p c → follows p JB c c' → leads JB JF (call_host w f c) → JB `prefix_of` JF → followed p JB JF (call_host w f c) (call_host w' f c').
Proof.
  intros Hq Hsame Hc Hf Hl HJ. destruct (Hq w c) as (c1 & Hq1 & E1). destruct (Hq w' c') as (c1' & Hq1' & E1').
  split; [apply Hsame|]. pose proof (Hsame w' w c' c) as Ea. rewrite E1, E1' in *. cbn [fst snd] in *. clear E1 E1'.
  assert (follows p JB c1 c1') as Hf1.
  { destruct Hf as [H1 H2 H3 H4], Hq1 as (Q1 & Q2 & Q3 & Q4), Hq1' as (R1 & R2 & R3 & R4). unfold settled, es in *. split; unfold settled, es in *; congruence || (rewrite Q1, R1; done) || by rewrite R1, R2. }
  destruct ((call_host w f c).1) as [v|[t|m]] eqn:Ex; (split; [by eapply quiet_fresh|done]) || idtac.
  split; [apply Hf1|]. pose proof (leads_end _ _ _ Hl t eq_refl) as E. cbn in E.
  destruct (follows_es _ _ _ _ Hf1) as [[Hp ->]|[Hp ->]]; [|done]. apply prefix_length_eq; [done|]. rewrite <-E. by apply prefix_length.
Qed.

(** Behind a call that does not end the run, a fresh run is fresh again. *)
Lemma once_fresh (k hash : bytes) (m m' : M Value) (c : Ctx) :
  once p k hash m m' → fresh p c → (∀ t, (m c).1 ≠ Err (Terminated t)) → fresh p (m c).2.
Proof. intros Ho Hc Ht. destruct (Ho c Hc) as [(t & E & _)|(e & _ & _ & _ & _ & _ & [(q & x & E)|(Hf & _)])]; [by destruct (Ht t)|by destruct (Ht (TPause q x))|done]. Qed.

Lemma batch_keeps_fresh (w : World) (os : list AgentOpts) (c : Ctx) :
  steady w → fresh p c → (∀ t, (batch w os c).1 ≠ Err (Terminated t)) → fresh p (batch w os c).2.
Proof.
  intros Hw Hc Ht. destruct (batch_fresh p w os c Hw Hc) as [(t & E & _)|(cs & Ex & Ej & Ed & Ec & Es & _)]; [by destruct (Ht t)|].
  destruct (batch_recorded p w os c cs Hc Ej Ed Ec Es) as (r & error & c1 & _ & Ex1 & _ & _ & _ & _ & _ & _ & Hf & _).
  rewrite Ex, Ex1 in *. rewrite answer_batch_ctx. by apply Hf.
Qed.

Lemma host_text_once (w w' : World) (k : bytes) (payload : Value) (r : WorkflowHostRequest) :
  steady w → once p k (request_hash k payload) (text_call w k payload r) (text_call w' k payload r).
Proof. intros Hw. apply host_call_once; [done|]. intros n. apply (text_no_quota w Hw). Qed.

(** Every host function makes one call, is a batch, or is idle. *)
Lemma call_kinds (f : HostFn) :
  (∃ k hash, ∀ w w', steady w → once p k hash (call_host w f) (call_host w' f))
  ∨ (∃ os, ∀ w c, call_host w f c = batch w os c)
  ∨ ((∀ w c, ∃ c1, quiet c c1 ∧ call_host w f c = ((call_host w f c).1, c1)) ∧ ∀ w w' c c', (call_host w f c).1 = (call_host w' f c').1).
Proof.
  assert (∀ build, (∀ w c, ∃ c1, quiet c c1 ∧ host_emit w build c = ((host_emit w build c).1, c1)) ∧ ∀ w w' c c', (host_emit w build c).1 = (host_emit w' build c').1) as Hemit.
  { intros build. split.
    - intros w c. unfold host_emit, bind, read. destruct (listening w (calls c)); eexists; (split; [|done]); done.
    - intros w w' c c'. unfold host_emit, bind, read. by destruct (listening w (calls c)), (listening w' (calls c')). }
  assert (∀ m : M Value, (∀ c, (m c).2 = c ∧ ∀ c', (m c).1 = (m c').1) → (∀ (w : World) c, ∃ c1, quiet c c1 ∧ m c = ((m c).1, c1)) ∧ ∀ (w w' : World) c c', (m c).1 = (m c').1) as Hpure.
  { intros m Hm. split; [|intros; apply Hm]. intros w c. exists c. split; [done|]. destruct (Hm c) as [E _]. destruct (m c) as [a c0]. cbn in *. by rewrite E. }
  destruct f as [pr|pr parsed|items|t|t|n fl|v|k m|k m| |n v|n t|n|n]; cbn [call_host].
  - left. eexists _, _. intros w w' Hw. by apply spawn_once.
  - destruct (agent_opts_from_map (Some pr) parsed) as [o|e]; [left|right; right; apply (Hpure (stop e)); done].
    eexists _, _. intros w w' Hw. by apply spawn_once.
  - destruct (parallel_eq items) as [[m E]|(os & E)]; [|right; left; by exists os]. right. right. split; [|intros; by rewrite !E].
    intros w c. exists c. by rewrite E.
  - right. right. apply Hemit.
  - right. right. apply Hemit.
  - right. right. apply Hemit.
  - right. right. by apply (Hpure (stop _)).
  - right. right. destruct (parse_pause_kind k); by apply (Hpure (stop _)).
  - unfold await_user. destruct (parse_pause_kind k) as [kd|e] eqn:Ek; [left|right; right; by apply (Hpure (stop _))].
    eexists _, _. intros w w' _. pose proof (await_once p w w' k m kd Ek) as H. unfold await_user in H. by rewrite Ek in H.
  - left. eexists _, _. intros w w' Hw. apply host_call_once; [done|]. intros n. apply (budget_no_quota w Hw).
  - left. eexists _, _. intros w w' Hw. by apply host_text_once.
  - left. eexists _, _. intros w w' Hw. by apply host_text_once.
  - left. eexists _, _. intros w w' Hw. by apply host_text_once.
  - left. eexists _, _. intros w w' Hw. by apply host_text_once.
Qed.

Lemma call_fresh (w : World) (f : HostFn) (c : Ctx) :
  steady w → fresh p c → (∀ t, (call_host w f c).1 ≠ Err (Terminated t)) → fresh p (call_host w f c).2.
Proof.
  intros Hw Hc Ht. destruct (call_kinds f) as [(k & hash & Ho)|[(os & Ho)|[Hq _]]].
  - by apply (once_fresh k hash _ (call_host w f)); [apply Ho|..].
  - rewrite Ho in *. by apply batch_keeps_fresh.
  - destruct (Hq w c) as (c1 & Hq1 & ->). by eapply quiet_fresh.
Qed.

(** A fresh run has at most as many entries as it may make calls. *)
Lemma call_capped (w : World) (f : HostFn) (c : Ctx) :
  steady w → fresh p c → N.of_nat (length (es c)) <= MAX_HOST_CALLS → N.of_nat (length (es (call_host w f c).2)) <= MAX_HOST_CALLS.
Proof.
  intros Hw Hc Hb. destruct (call_kinds f) as [(k & hash & Ho)|[(os & Ho)|[Hq _]]].
  - destruct (Ho w w Hw c Hc) as [(t & _ & ->)|(e & -> & _ & _ & _ & Hm & _)]; [done|]. destruct Hc as [_ Hn]. rewrite length_app. cbn. lia.
  - rewrite Ho. destruct (batch_fresh p w os c Hw Hc) as [(t & _ & ->)|(cs & Ex & Ej & Ed & Ec & Es & _ & Hm & _)]; [done|].
    destruct (batch_recorded p w os c cs Hc Ej Ed Ec Es) as (r & error & c1 & _ & Ex1 & Hr & E & _). rewrite Ex, Ex1, answer_batch_ctx, E, length_app, length_take, row_entries_length.
    destruct Hc as [_ Hn]. destruct Hm as [->|Hm]; [cbn; lia|lia].
  - destruct (Hq w c) as (c1 & (Ej & _) & ->). unfold es in *. cbn. by rewrite Ej.
Qed.

Lemma eval_capped (w : World) (s : Script) (c : Ctx) :
  steady w → fresh p c → N.of_nat (length (es c)) <= MAX_HOST_CALLS → N.of_nat (length (es (eval w s c).2)) <= MAX_HOST_CALLS.
Proof.
  intros Hw. revert c. induction s as [v|e|f next IH]; intros c Hc Hb; cbn [eval]; (destruct (cancelled_before w (calls c)); [done|]); [done..|].
  pose proof (call_capped w f c Hw Hc Hb) as Hb1. pose proof (call_fresh w f c Hw Hc) as Hf1.
  destruct (call_host w f c) as [[v|[t|m]] c1]; cbn in *; [|done|].
  all: apply IH; [by apply Hf1|done].
Qed.

(** One host function of a resumed run. *)
Lemma resume_call (w w' : World) (f : HostFn) (c c' : Ctx) (JB JF : list JournalEntry) :
  steady w → agree (N.of_nat (length JB)) w w' → fresh p c → follows p JB c c' → JB `prefix_of` JF → leads JB JF (call_host w f c) →
  followed p JB JF (call_host w f c) (call_host w' f c').
Proof.
  intros Hst Hw Hc Hf HJ Hl. pose proof (call_fresh w f c Hst Hc) as Hfresh.
  destruct (follows_es _ _ _ _ Hf) as [[Hp He]|[Hp He]]; [|by apply resume_live].
  destruct (decide (length (es c) < length JB)%nat) as [Hlt|Hge].
  - destruct (call_kinds f) as [(k & hash & Ho)|[(os & Ho)|[Hq Hsame]]].
    + eapply resume_once; [by apply Ho|done..].
    + rewrite !Ho in *. by apply resume_batch.
    + by apply idle_followed.
  - assert (es c = JB) as E by (apply prefix_length_eq; [done|lia]). apply resume_live; [done..|by rewrite E|by rewrite E|done|done].
Qed.

(** A run that starts with a part of the journal of another ends as the other does. *)
Lemma resume_eval (w w' : World) (s : Script) (c c' : Ctx) (JB : list JournalEntry) :
  steady w → agree (N.of_nat (length JB)) w w' → fresh p c → follows p JB c c' →
  JB `prefix_of` es (eval w s c).2 → (JB = es (eval w s c).2 → ∀ k m, (eval w s c).1 ≠ Paused k m) →
  (eval w' s c').1 = (eval w s c).1 ∧ es (eval w' s c').2 = es (eval w s c).2 ∧ settled p (eval w' s c').2.
Proof.
  intros Hst Hw. revert c c'.
  assert (∀ c c', fresh p c → follows p JB c c' → JB `prefix_of` es c → es c' = es c ∧ settled p c') as Hstop.
  { intros c c' Hc Hf HJ. split; [|apply Hf]. destruct (follows_es _ _ _ _ Hf) as [[Hp ->]|[_ ->]]; [|done]. apply prefix_length_eq; [done|by apply prefix_length]. }
  induction s as [v|e|f next IH]; intros c c' Hc Hf HJ Hp; cbn [eval] in *; rewrite <-(same_cancel _ _ _ Hw), (follows_calls _ _ _ _ Hf);
    (destruct (cancelled_before w (calls c)); [split; [done|by apply Hstop]|]); [split; [done|by apply Hstop]..|].
  pose proof (keeps_call_host p w f c (proj1 Hc)) as (Hs1 & _ & _).
  pose proof (resume_call w w' f c c' JB) as Hcall. pose proof (call_fresh w f c Hst Hc) as Hfresh.
  destruct (call_host w f c) as [[v|[t|m]] c1]; cbn [fst snd] in *.
  - destruct (Hcall (es (eval w (next (Ok v)) (count_call c1)).2)) as [Ea [Hf1 Hfo]]; [done..| |].
    { split; [|done|by intros (? & ? & ?)]. by destruct (eval_keeps p w (next (Ok v)) (count_call c1) Hs1) as [_ ?]. }
    destruct (call_host w' f c') as [a c1']. cbn [fst snd] in *. subst a. apply IH; [done| |done|done]. destruct Hfo. split; [done..|cbn; congruence|done].
  - destruct (Hcall (es c1)) as [Ea [Hs2 He2]]; [done..| |].
    { split; [done|done|]. intros (k & m & [= ->]) E. by apply (Hp E k m). }
    destruct (call_host w' f c') as [a c1']. cbn [fst snd] in *. by subst a.
  - destruct (Hcall (es (eval w (next (Err m)) (count_call c1)).2)) as [Ea [Hf1 Hfo]]; [done..| |].
    { split; [|done|by intros (? & ? & ?)]. by destruct (eval_keeps p w (next (Err m)) (count_call c1) Hs1) as [_ ?]. }
    destruct (call_host w' f c') as [a c1']. cbn [fst snd] in *. subst a. apply IH; [done| |done|done]. destruct Hfo. split; [done..|cbn; congruence|done].
Qed.

(** An empty journal and no file. *)
Lemma starts_fresh : fresh p (ctx_new (Journal_new (Some p)) None).
Proof. split; [|done]. split; [done|done|done| |by intros i e Hi]. apply N.le_0_l. Qed.

End Runs.

(** A run over a new journal in the file [p]. *)
Definition first_run {json : JsonText} {faults : DiskFaults} (w : World) (s : Script) (p : bytes) : WorkflowOutcome * Ctx :=
  eval w s (ctx_new (Journal_new (Some p)) None).

(** C7: Workflows survive crashes.  A run over a journal in a file stops at any moment,
    with any start of what it would have written in the file, an entry torn in its middle
    included.  The file is loaded again: the journal is a start of the run's entries, and
    none whose line was whole is lost.  The script, run again from that journal by a host
    that answers the calls behind it in the same way, ends with the outcome, the journal
    and the file of the run that was not interrupted.  The one exception is a run that
    paused and was recorded whole, which goes on instead. *)
Theorem crash_resume {json : JsonText} {faults : DiskFaults} {laws : JsonLaws} {sound : SoundDisk}
  (p : bytes) (w : World) (s : Script) (d : Disk) :
  let x := first_run w s p in
  steady w → contents d `prefix_of` contents (disk x.2) →
  ∃ j d', load p d = (Ok j, d') ∧ entries j `prefix_of` es x.2
    ∧ (∀ l, l `prefix_of` es x.2 → file_of l `prefix_of` contents d → l `prefix_of` entries j)
    ∧ ∀ w', agree (N.of_nat (length (entries j))) w w' → (entries j = es x.2 → ∀ k m, x.1 ≠ Paused k m) →
        let x' := eval w' s (ctx_new j d') in
        x'.1 = x.1 ∧ es x'.2 = es x.2 ∧ contents (disk x'.2) = contents (disk x.2).
Proof.
  intros x Hw Hd. unfold first_run in x. pose proof (starts_fresh p) as Hf.
  destruct (eval_keeps p w s _ (proj1 Hf)) as [Hs _]. fold x in Hs.
  pose proof (eval_capped p w s _ Hw Hf (N.le_0_l _)) as Hcap. fold x in Hcap.
  rewrite (file_agrees _ _ _ Hs) in Hd. fold (es x.2) in Hd.
  destruct (load_prefix p (es x.2) d) as (j & d' & El & Hj & Hp & _ & _ & Hmax); [apply Hs|exact Hcap|apply Hs|done|].
  exists j, d'. split_and!; [done..|]. intros w' Hag Hpause x'.
  destruct (resume_eval p w w' s (ctx_new (Journal_new (Some p)) None) (ctx_new j d') (entries j) Hw Hag Hf) as (H1 & H2 & H3); [|done|done|].
  - split; [done..|]. left. split; [apply prefix_nil|done].
  - subst x'. split_and!; [done..|]. rewrite (file_agrees _ _ _ H3), (file_agrees _ _ _ Hs). fold (es x.2) (es (eval w' s (ctx_new j d')).2). by rewrite H2.
Qed.

(** ** A run with the interfaces met *)

(** A host that answers every call. *)
Definition friendly : World := {|
  reserve_reply _ _ := Replied (Ok tt);
  spawn_reply n o := Replied (Ok (mkAgentResult (prompt o) true (VNat n) false 1 1));
  budget_reply _ := Replied (Ok (mkBudget None 0 0 None));
  text_reply _ _ := Replied (Err (HostFailed $"no such file"));
  clock n := n;
  cancelled_before _ := false;
  listening _ := true;
|}.

(** An agent, then two at a time, then a question whose error the script catches. *)
Definition plan_then_check : Script :=
  Do (Agent $"plan") (fun _ =>
  Do (Parallel [Some (Ok (prompt_only $"a")); Some (Ok (prompt_only $"b"))]) (fun r =>
  Do (ReadScratchFileFn $"notes") (fun _ =>
  match r with Ok v => Finish v | Err m => Throw m end))).

Lemma friendly_steady : steady friendly.
Proof. by split. Qed.

Lemma friendly_agrees (b : N) : agree b friendly friendly.
Proof. by split. Qed.

#[local] Notation demo_run := (first_run friendly plan_then_check $"run.jsonl").

Definition completed (o : WorkflowOutcome) : bool := match o with Completed _ => true | _ => false end.

Lemma demo_completes : completed demo_run.1 = true.
Proof. vm_compute. reflexivity. Qed.

(** Cut off in the second result of the batch. *)
Definition demo_cut : Disk := Some (take 9000 (contents (disk demo_run.2))).

Lemma demo_cut_prefix : contents demo_cut `prefix_of` contents (disk demo_run.2).
Proof. unfold demo_cut. generalize (contents (disk demo_run.2)). intros c. apply prefix_take. Qed.

Lemma crash_resume_witness :
  ∃ j d', load $"run.jsonl" demo_cut = (Ok j, d') ∧ entries j `prefix_of` es demo_run.2
    ∧ (eval friendly plan_then_check (ctx_new j d')).1 = demo_run.1
    ∧ es (eval friendly plan_then_check (ctx_new j d')).2 = es demo_run.2.
Proof.
  destruct (crash_resume $"run.jsonl" friendly plan_then_check demo_cut friendly_steady demo_cut_prefix) as (j & d' & El & Hp & _ & H).
  exists j, d'. split; [exact El|]. split; [exact Hp|].
  destruct (H friendly (friendly_agrees _)) as (H1 & H2 & _); [|by split].
  intros _ k m E. pose proof demo_completes as C. rewrite E in C. discriminate C.
Defined.

Example demo_reload : (match (load $"run.jsonl" demo_cut).1 with Ok j => length (entries j) | Err _ => 0%nat end) = 2%nat.
Proof. vm_compute. reflexivity. Qed.

(** A host whose reservations fail with an error that scripts can catch. *)
Definition unreserved : World := {|
  reserve_reply _ _ := Replied (Err (HostFailed $"reservation could not be persisted"));
  spawn_reply n o := spawn_reply friendly n o;
  budget_reply n := budget_reply friendly n;
  text_reply n r := text_reply friendly n r;
  clock n := n;
  cancelled_before _ := false;
  listening _ := true;
|}.

Definition agent_or_notes : Script := Do (Agent $"plan") (fun _ => Do (ReadScratchFileFn $"notes") (fun _ => Finish VNull)).

(** Why [steady] is asked of the host: the failure of a reservation is not in the
    journal.  A script that catches it completes, with its next call recorded under the
    number of the agent that never started; resumed from this journal, by a host that
    reserves again or by the same one, it fails as nondeterministic. *)
Example caught_reservation_failure_diverges :
  let x := first_run unreserved agent_or_notes $"run.jsonl" in
  x.1 = Completed VNull ∧ map kind (es x.2) = [$"read_scratch_file"]
  ∧ Forall (fun w => (eval w agent_or_notes (ctx_new (journal x.2) (disk x.2))).1 = RunFailed (journal_message (Divergence 0 SPAWN_AGENT))) [friendly; unreserved].
Proof. split_and!; [vm_compute; reflexivity..|]. repeat constructor; vm_compute; reflexivity. Qed.
