(* ===== verification/RunTracker.v ===== *)
(** * The runs of workflows

    [codegen/xai-grok-shell/src/session/workflow/tracker.rs]: the workflow runs of a
    session, each with its status, the agents it may call and has called, its history and
    the time it was active; and the two requests of a run that the session's host answers
    from here ([host_service.rs]).  The clock is an argument. *)

From S2P Require Import Prelude RustStr StrFind Journal Workflow.

#[local] Open Scope N_scope.

(** ** Data *)

Inductive WorkflowRunStatus :=
| Active | UserPaused | BackOffPaused | NoProgressPaused | InfraPaused | Blocked
| BudgetLimited | Interrupted | Complete | Failed | Cancelled.

#[export] Instance WorkflowRunStatus_eq_dec : EqDecision WorkflowRunStatus.
Proof. solve_decision. Defined.

Definition is_terminal (s : WorkflowRunStatus) : bool :=
  match s with Interrupted | Complete | Failed | Cancelled => true | _ => false end.

Definition is_completion_reportable (s : WorkflowRunStatus) : bool := is_terminal s || bool_decide (s = BudgetLimited).

Definition is_paused (s : WorkflowRunStatus) : bool :=
  match s with UserPaused | BackOffPaused | NoProgressPaused | InfraPaused | Blocked | BudgetLimited => true | _ => false end.

Definition is_resumable (s : WorkflowRunStatus) : bool := is_paused s || bool_decide (s = Failed) || bool_decide (s = Cancelled).

Inductive WorkflowControl := ControlPause | ControlStop.

(** [WorkflowRunStatus::accepts] *)
Definition accepts (c : WorkflowControl) (s : WorkflowRunStatus) : bool :=
  match c with
  | ControlPause => bool_decide (s = Active)
  | ControlStop => negb (is_completion_reportable s)
  end.

Definition from_pause (k : PauseKind) : WorkflowRunStatus :=
  match k with
  | PauseUser => UserPaused
  | BackOff => BackOffPaused
  | NoProgress => NoProgressPaused
  | Verification => Blocked
  | Infra => InfraPaused
  end.

(** The names of [strum]. *)
Definition status_name (s : WorkflowRunStatus) : bytes :=
  match s with
  | Active => $"active" | UserPaused => $"user_paused" | BackOffPaused => $"back_off_paused"
  | NoProgressPaused => $"no_progress_paused" | InfraPaused => $"infra_paused" | Blocked => $"blocked"
  | BudgetLimited => $"budget_limited" | Interrupted => $"interrupted" | Complete => $"complete"
  | Failed => $"failed" | Cancelled => $"cancelled"
  end.

Definition pause_name (k : PauseKind) : bytes :=
  match k with
  | PauseUser => $"user" | BackOff => $"back_off" | NoProgress => $"no_progress"
  | Verification => $"verification" | Infra => $"infra"
  end.

Record WorkflowHistoryEntry := mkEvent { event : bytes; detail : option bytes; happened_at : bytes }.

Definition WORKFLOW_HISTORY_MAX : nat := 64.
Definition WORKFLOW_PAUSE_MESSAGE_MAX_BYTES : nat := 4 * 1024.

(** [truncate_str] *)
Definition truncate_str (s : bytes) (max_bytes : nat) : bytes :=
  if (length s <=? max_bytes)%nat then s else take (floor_char_boundary s max_bytes) s.

Definition capped_pause_message (m : bytes) : bytes := truncate_str m WORKFLOW_PAUSE_MESSAGE_MAX_BYTES.

Record PhaseMeta := mkPhase { phase_title : bytes; phase_detail : option bytes }.

Record WorkflowTokenLease := mkLease { lease_id : bytes; grant : N }.

Record WorkflowAgentRow := mkRow {
  row_agent_id : bytes;
  row_label : bytes;
  row_phase : option bytes;
  row_model : option bytes;
  row_state : bytes;
  row_tokens_used : N;
  row_duration_ms : N;
}.

Definition WORKFLOW_AGENT_ROWS_MAX : nat := 256.

Record WorkflowRunState := mkRunState {
  run_id : bytes;
  revision : N;
  name : bytes;
  objective : bytes;
  status : WorkflowRunStatus;
  phases : list PhaseMeta;
  current_phase : option bytes;
  agent_budget : option N;
  agents_used : N;
  token_leases : list WorkflowTokenLease;
  agent_usage_incomplete : bool;
  elapsed_ms_floor : N;
  pause_message : option bytes;
  history : list WorkflowHistoryEntry;
  journal_path : option bytes;
  result_summary : option bytes;
  agent_rows : list WorkflowAgentRow;
}.

Definition with_revision (x : N) (s : WorkflowRunState) : WorkflowRunState :=
  mkRunState (run_id s) x (name s) (objective s) (status s) (phases s) (current_phase s) (agent_budget s) (agents_used s) (token_leases s) (agent_usage_incomplete s) (elapsed_ms_floor s) (pause_message s) (history s) (journal_path s) (result_summary s) (agent_rows s).
Definition with_run_status (x : WorkflowRunStatus) (s : WorkflowRunState) : WorkflowRunState :=
  mkRunState (run_id s) (revision s) (name s) (objective s) x (phases s) (current_phase s) (agent_budget s) (agents_used s) (token_leases s) (agent_usage_incomplete s) (elapsed_ms_floor s) (pause_message s) (history s) (journal_path s) (result_summary s) (agent_rows s).
Definition with_current_phase (x : option bytes) (s : WorkflowRunState) : WorkflowRunState :=
  mkRunState (run_id s) (revision s) (name s) (objective s) (status s) (phases s) x (agent_budget s) (agents_used s) (token_leases s) (agent_usage_incomplete s) (elapsed_ms_floor s) (pause_message s) (history s) (journal_path s) (result_summary s) (agent_rows s).
Definition with_agent_budget (x : option N) (s : WorkflowRunState) : WorkflowRunState :=
  mkRunState (run_id s) (revision s) (name s) (objective s) (status s) (phases s) (current_phase s) x (agents_used s) (token_leases s) (agent_usage_incomplete s) (elapsed_ms_floor s) (pause_message s) (history s) (journal_path s) (result_summary s) (agent_rows s).
Definition with_agents_used (x : N) (s : WorkflowRunState) : WorkflowRunState :=
  mkRunState (run_id s) (revision s) (name s) (objective s) (status s) (phases s) (current_phase s) (agent_budget s) x (token_leases s) (agent_usage_incomplete s) (elapsed_ms_floor s) (pause_message s) (history s) (journal_path s) (result_summary s) (agent_rows s).
Definition with_token_leases (x : list WorkflowTokenLease) (s : WorkflowRunState) : WorkflowRunState :=
  mkRunState (run_id s) (revision s) (name s) (objective s) (status s) (phases s) (current_phase s) (agent_budget s) (agents_used s) x (agent_usage_incomplete s) (elapsed_ms_floor s) (pause_message s) (history s) (journal_path s) (result_summary s) (agent_rows s).
Definition with_usage_incomplete (x : bool) (s : WorkflowRunState) : WorkflowRunState :=
  mkRunState (run_id s) (revision s) (name s) (objective s) (status s) (phases s) (current_phase s) (agent_budget s) (agents_used s) (token_leases s) x (elapsed_ms_floor s) (pause_message s) (history s) (journal_path s) (result_summary s) (agent_rows s).
Definition with_elapsed (x : N) (s : WorkflowRunState) : WorkflowRunState :=
  mkRunState (run_id s) (revision s) (name s) (objective s) (status s) (phases s) (current_phase s) (agent_budget s) (agents_used s) (token_leases s) (agent_usage_incomplete s) x (pause_message s) (history s) (journal_path s) (result_summary s) (agent_rows s).
Definition with_pause_message (x : option bytes) (s : WorkflowRunState) : WorkflowRunState :=
  mkRunState (run_id s) (revision s) (name s) (objective s) (status s) (phases s) (current_phase s) (agent_budget s) (agents_used s) (token_leases s) (agent_usage_incomplete s) (elapsed_ms_floor s) x (history s) (journal_path s) (result_summary s) (agent_rows s).
Definition with_history (x : list WorkflowHistoryEntry) (s : WorkflowRunState) : WorkflowRunState :=
  mkRunState (run_id s) (revision s) (name s) (objective s) (status s) (phases s) (current_phase s) (agent_budget s) (agents_used s) (token_leases s) (agent_usage_incomplete s) (elapsed_ms_floor s) (pause_message s) x (journal_path s) (result_summary s) (agent_rows s).
Definition with_result_summary (x : option bytes) (s : WorkflowRunState) : WorkflowRunState :=
  mkRunState (run_id s) (revision s) (name s) (objective s) (status s) (phases s) (current_phase s) (agent_budget s) (agents_used s) (token_leases s) (agent_usage_incomplete s) (elapsed_ms_floor s) (pause_message s) (history s) (journal_path s) x (agent_rows s).
Definition with_agent_rows (x : list WorkflowAgentRow) (s : WorkflowRunState) : WorkflowRunState :=
  mkRunState (run_id s) (revision s) (name s) (objective s) (status s) (phases s) (current_phase s) (agent_budget s) (agents_used s) (token_leases s) (agent_usage_incomplete s) (elapsed_ms_floor s) (pause_message s) (history s) (journal_path s) (result_summary s) x.

(** ** Labels *)

(** What Unicode says of characters, each a character's bytes. *)
Class CharTables := {
  str_lowercase : bytes → bytes;
  is_alphanumeric : bytes → bool;
}.

(** [str::chars], as the bytes of each. *)
Definition chars (s : bytes) : list bytes :=
  foldr (fun a acc => match acc with (b :: g) :: gs => if is_continuation b then (a :: b :: g) :: gs else [a] :: acc | _ => [a] :: acc end) [] s.

Section Tracker.
Context {json : JsonText} {tables : CharTables}.

Definition slug (p : bytes) : bytes :=
  let dashed := concat (map (fun c => if is_alphanumeric c then c else $"-") (chars (str_lowercase p))) in
  join $"-" (List.filter (fun s => negb (s =b [])) (split_on "-"%char dashed)).

Definition default_label_for (rows : list WorkflowAgentRow) (phase : option bytes) : bytes :=
  let ordinal := show_decimal (N.of_nat (length (List.filter (fun a => bool_decide (row_phase a = phase)) rows) + 1)) in
  match phase with
  | Some p => slug p ++ $"-" ++ ordinal
  | None => $"agent-" ++ ordinal
  end.

(** ** One run *)

(** The clock of an operation: [Instant::now] in milliseconds and [now_rfc3339]. *)
Record Moment := mkMoment { instant : N; stamp : bytes }.

Definition advance_revision (s : WorkflowRunState) : WorkflowRunState := with_revision (saturating_add (revision s) 1) s.

Definition record_event (t : Moment) (e : bytes) (d : option bytes) (s : WorkflowRunState) : WorkflowRunState :=
  let s := advance_revision s in
  let h := history s ++ [mkEvent e d (stamp t)] in
  with_history (if (WORKFLOW_HISTORY_MAX <? length h)%nat then drop (length h - WORKFLOW_HISTORY_MAX) h else h) s.

Record TrackedRun := mkTracked {
  state : WorkflowRunState;
  active_since : option N;
  execution_epoch_ : N;
}.

Definition with_state (f : WorkflowRunState → WorkflowRunState) (r : TrackedRun) : TrackedRun := mkTracked (f (state r)) (active_since r) (execution_epoch_ r).

(** [TrackedRun::live_elapsed_ms] *)
Definition live_elapsed_ms (t : Moment) (r : TrackedRun) : N :=
  saturating_add (elapsed_ms_floor (state r)) (match active_since r with Some since => (instant t - since) mod (U64_MAX + 1) | None => 0 end).

Definition fold_elapsed (t : Moment) (r : TrackedRun) : TrackedRun :=
  match active_since r with
  | Some _ => mkTracked (with_elapsed (live_elapsed_ms t r) (state r)) None (execution_epoch_ r)
  | None => r
  end.

(** ** All runs *)

Record WorkflowTracker := mkTracker {
  runs : list TrackedRun;
  reported_terminal_run_ids : gset bytes;
  terminal_at_restore_run_ids : gset bytes;
  status_reported_revisions : gmap bytes N;
}.

Definition WorkflowTracker_default : WorkflowTracker := mkTracker [] ∅ ∅ ∅.

Definition with_runs (rs : list TrackedRun) (t : WorkflowTracker) : WorkflowTracker :=
  mkTracker rs (reported_terminal_run_ids t) (terminal_at_restore_run_ids t) (status_reported_revisions t).

Definition has_id (id : bytes) (r : TrackedRun) : bool := run_id (state r) =b id.

(** [run_mut] and what is done with the run it finds. *)
Fixpoint update_run (id : bytes) (f : TrackedRun → TrackedRun) (rs : list TrackedRun) : list TrackedRun :=
  match rs with
  | [] => []
  | r :: rs => if has_id id r then f r :: rs else r :: update_run id f rs
  end.

Definition find_run (id : bytes) (t : WorkflowTracker) : option TrackedRun := List.find (has_id id) (runs t).

Definition run_mut (id : bytes) (f : TrackedRun → TrackedRun) (t : WorkflowTracker) : option WorkflowRunState * WorkflowTracker :=
  (state ∘ f <$> find_run id t, with_runs (update_run id f (runs t)) t).

Definition taken (candidate : bytes) (t : WorkflowTracker) : bool := existsb (fun r => name (state r) =b candidate) (runs t).

Definition numbered (base : bytes) (n : N) : bytes := base ++ $"-" ++ show_decimal n.

(** The loop of [start_run]; one more round than there are runs ends it. *)
Fixpoint free_name (fuel : nat) (base : bytes) (n : N) (t : WorkflowTracker) : bytes :=
  match fuel with
  | O => numbered base n
  | S fuel => if taken (numbered base n) t then free_name fuel base (n + 1) t else numbered base n
  end.

Definition start_run (now : Moment) (id name_ objective_ : bytes) (phases_ : list PhaseMeta) (budget : option N) (journal_ : option bytes) (t : WorkflowTracker)
  : WorkflowRunState * WorkflowTracker :=
  let name_ := if taken name_ t then free_name (length (runs t)) name_ 2 t else name_ in
  let s := mkRunState id 0 name_ objective_ Active phases_ None budget 0 [] false 0 None [] journal_ None [] in
  let s := record_event now $"workflow_started" None s in
  (s, with_runs (runs t ++ [mkTracked s (Some (instant now)) 0]) t).

(** A row that was running when its run stopped. *)
Definition cancel_row (a : WorkflowAgentRow) : WorkflowAgentRow :=
  if row_state a =b $"running" then mkRow (row_agent_id a) (row_label a) (row_phase a) (row_model a) $"cancelled" (row_tokens_used a) (row_duration_ms a) else a.

Definition candidate_budget (new_budget current : option N) : option N :=
  match new_budget with Some raised => Some (N.max raised (default 0 current)) | None => current end.

(** Whether a run goes on with a new budget. *)
Definition resumes (new_budget : option N) (s : WorkflowRunState) : bool :=
  is_resumable (status s)
  && negb (bool_decide (status s = BudgetLimited)
           && (negb (match new_budget with Some b => default 0 (agent_budget s) <? b | None => false end)
               || match candidate_budget new_budget (agent_budget s) with Some limit => limit <=? agents_used s | None => false end)).

Definition resumed (now : Moment) (new_budget : option N) (r : TrackedRun) : TrackedRun :=
  let s := state r in
  let s := match candidate_budget new_budget (agent_budget s) with Some b => with_agent_budget (Some b) s | None => s end in
  let s := with_result_summary None (with_pause_message None (with_run_status Active s)) in
  let s := with_agent_rows (map cancel_row (agent_rows s)) s in
  mkTracked (record_event now $"workflow_resumed" None s) (Some (instant now)) ((execution_epoch_ r + 1) mod (U64_MAX + 1)).

Definition resume_run (now : Moment) (id : bytes) (new_budget : option N) (t : WorkflowTracker) : option WorkflowRunState * WorkflowTracker :=
  match find_run id t with
  | None => (None, t)
  | Some r =>
      if resumes new_budget (state r) then
        let '(s, t) := run_mut id (resumed now new_budget) t in
        (s, mkTracker (runs t) (reported_terminal_run_ids t ∖ {[id]}) (terminal_at_restore_run_ids t ∖ {[id]}) (status_reported_revisions t))
      else (None, t)
  end.

Definition phase_entered (now : Moment) (title : bytes) (s : WorkflowRunState) : WorkflowRunState :=
  if bool_decide (current_phase s = Some title) then s else record_event now $"phase_entered" (Some title) (with_current_phase (Some title) s).

Definition set_phase (now : Moment) (id title : bytes) (t : WorkflowTracker) : option WorkflowRunState * WorkflowTracker :=
  run_mut id (with_state (phase_entered now title)) t.

(** ** Agent calls *)

Definition reserve_agents (id : bytes) (count : N) (t : WorkflowTracker) : result WorkflowRunState (N * N) * WorkflowTracker :=
  match find_run id t with
  | None => (Err (count, 0), t)
  | Some r =>
      let requested := saturating_add (agents_used (state r)) count in
      let grant :=
        let s := advance_revision (with_agents_used requested (state r)) in
        (Ok s, with_runs (update_run id (with_state (fun _ => s)) (runs t)) t) in
      match agent_budget (state r) with
      | Some limit => if limit <? requested then (Err (requested, limit), t) else grant
      | None => grant
      end
  end.

Definition release_agents (id : bytes) (count : N) (t : WorkflowTracker) : option WorkflowRunState * WorkflowTracker :=
  run_mut id (with_state (fun s => advance_revision (with_agents_used (saturating_sub (agents_used s) count) s))) t.

Definition execution_epoch (id : bytes) (t : WorkflowTracker) : option N := execution_epoch_ <$> find_run id t.

Definition reconcile_agents_used (id : bytes) (used : N) (t : WorkflowTracker) : option WorkflowRunState * WorkflowTracker :=
  run_mut id (with_state (fun s => if agents_used s =? used then s else advance_revision (with_agents_used used s))) t.

(** The first row that is not running leaves when there are too many. *)
Definition drop_finished (rows : list WorkflowAgentRow) : list WorkflowAgentRow :=
  if (WORKFLOW_AGENT_ROWS_MAX <? length rows)%nat then
    match list_find (fun a => (row_state a =b $"running") = false) rows with
    | Some (i, _) => take i rows ++ drop (S i) rows
    | None => rows
    end
  else rows.

Definition named_row (row : WorkflowAgentRow) (s : WorkflowRunState) : WorkflowAgentRow :=
  let phase := match row_phase row with None => current_phase s | Some p => Some p end in
  let label := if row_label row =b [] then default_label_for (agent_rows s) phase else row_label row in
  mkRow (row_agent_id row) label phase (row_model row) (row_state row) (row_tokens_used row) (row_duration_ms row).

Definition agent_started (id : bytes) (row : WorkflowAgentRow) (t : WorkflowTracker) : bytes * WorkflowTracker :=
  match find_run id t with
  | None => (if row_label row =b [] then $"agent" else row_label row, t)
  | Some r =>
      let row := named_row row (state r) in
      (row_label row, (run_mut id (with_state (fun s => with_agent_rows (drop_finished (agent_rows s ++ [row])) (advance_revision s))) t).2)
  end.

(** The first row of an agent. *)
Fixpoint update_row (agent : bytes) (f : WorkflowAgentRow → WorkflowAgentRow) (rows : list WorkflowAgentRow) : option (list WorkflowAgentRow) :=
  match rows with
  | [] => None
  | a :: rows => if row_agent_id a =b agent then Some (f a :: rows) else cons a <$> update_row agent f rows
  end.

Definition on_row (agent : bytes) (f : WorkflowAgentRow → WorkflowAgentRow) (s : WorkflowRunState) : WorkflowRunState :=
  match update_row agent f (agent_rows s) with Some rows => advance_revision (with_agent_rows rows s) | None => s end.

Definition rebind_agent_id (id agent new_agent : bytes) (t : WorkflowTracker) : WorkflowTracker :=
  (run_mut id (with_state (on_row agent (fun a =>
    mkRow new_agent (row_label a) (row_phase a) (row_model a) (row_state a) (row_tokens_used a) (row_duration_ms a)))) t).2.

Definition agent_finished (id agent state_ : bytes) (tokens duration : N) (t : WorkflowTracker) : WorkflowTracker :=
  (run_mut id (with_state (on_row agent (fun a => mkRow (row_agent_id a) (row_label a) (row_phase a) (row_model a) state_ tokens duration))) t).2.

Definition log_message (now : Moment) (id message : bytes) (t : WorkflowTracker) : option WorkflowRunState * WorkflowTracker :=
  run_mut id (with_state (record_event now $"log" (Some message))) t.

(** ** Pauses and ends *)

Definition paused_by_user (now : Moment) (message : option bytes) (r : TrackedRun) : TrackedRun :=
  if bool_decide (status (state r) = Active) then
    with_state (fun s => record_event now $"workflow_paused" (Some $"user") (with_pause_message (capped_pause_message <$> message) (with_run_status UserPaused s)))
      (fold_elapsed now r)
  else r.

Definition pause_user (now : Moment) (id : bytes) (message : option bytes) (t : WorkflowTracker) : option WorkflowRunState * WorkflowTracker :=
  run_mut id (paused_by_user now message) t.

Definition interrupted (now : Moment) (message : bytes) (r : TrackedRun) : TrackedRun :=
  let message := capped_pause_message message in
  with_state (fun s => record_event now $"workflow_interrupted" (Some message)
      (with_result_summary None (with_pause_message (Some message) (with_run_status Interrupted s)))) (fold_elapsed now r).

Definition interrupt (now : Moment) (id message : bytes) (t : WorkflowTracker) : option WorkflowRunState * WorkflowTracker :=
  run_mut id (interrupted now message) t.

Definition outcome_kind (o : WorkflowOutcome) : bytes :=
  match o with
  | Completed _ => $"completed"
  | Paused _ _ => $"paused"
  | OutOfBudget _ => $"budget_exceeded"
  | RunCancelled => $"cancelled"
  | RunFailed _ => $"failed"
  end.

Definition SUMMARY_MAX : nat := 16 * 1024.

Definition summary_text (v : Value) : bytes :=
  match v with
  | VString s => s
  | VNull => $"done"
  | VObject _ =>
      match get $"report" v ≫= as_str, get $"path" v ≫= as_str with
      | Some report, Some p => report ++ [newline; newline] ++ $"_Full report: " ++ p ++ $"_"
      | Some report, None => report
      | _, _ => show_value v
      end
  | _ => show_value v
  end.

Definition summarize_result (v : Value) : bytes :=
  let text := summary_text v in
  if (SUMMARY_MAX <? length text)%nat then take (floor_char_boundary text SUMMARY_MAX) text ++ $"…" else text.

Definition MAX_AGENT_BUDGET : N := 1024.

Definition budget_hint (s : WorkflowRunState) : bytes :=
  if MAX_AGENT_BUDGET <=? agents_used s
  then $"finished work is kept, but this run reached the maximum agent budget and cannot be resumed; start a new run"
  else $"finished work is kept; resume the run with a higher absolute agent budget to continue".

(** What an outcome does to a run that is not stopped yet. *)
Definition take_outcome (now : Moment) (o : WorkflowOutcome) (s : WorkflowRunState) : WorkflowRunState :=
  match o with
  | Completed v => record_event now $"workflow_completed" None (with_result_summary (Some (summarize_result v)) (with_run_status Complete s))
  | Paused k m =>
      record_event now $"workflow_paused" (Some (pause_name k)) (with_pause_message (Some (capped_pause_message m)) (with_run_status (from_pause k) s))
  | OutOfBudget m =>
      record_event now $"workflow_budget_limited" None
        (with_pause_message (Some (capped_pause_message (m ++ $" — " ++ budget_hint s))) (with_run_status BudgetLimited s))
  | RunCancelled => record_event now $"workflow_cancelled" None (with_run_status Cancelled s)
  | RunFailed e =>
      let e := capped_pause_message e in
      record_event now $"workflow_failed" (Some e) (with_pause_message (Some e) (with_run_status Failed s))
  end.

Definition ignores_outcomes (s : WorkflowRunStatus) : bool := match s with Interrupted | Failed | Cancelled => true | _ => false end.

Definition outcome_applied (now : Moment) (o : WorkflowOutcome) (s : WorkflowRunState) : WorkflowRunState :=
  if ignores_outcomes (status s) then
    record_event now $"workflow_outcome_ignored" (Some ($"ignored " ++ outcome_kind o ++ $" while status is " ++ status_name (status s))) s
  else take_outcome now o s.

Definition apply_outcome (now : Moment) (id : bytes) (o : WorkflowOutcome) (t : WorkflowTracker) : option WorkflowRunState * WorkflowTracker :=
  run_mut id (fun r => with_state (outcome_applied now o) (fold_elapsed now r)) t.

Fixpoint remove_run (id : bytes) (rs : list TrackedRun) : list TrackedRun :=
  match rs with
  | [] => []
  | r :: rs => if has_id id r then rs else r :: remove_run id rs
  end.

Definition clear_run (now : Moment) (id : bytes) (t : WorkflowTracker) : option WorkflowRunState * WorkflowTracker :=
  ((fun r => record_event now $"workflow_cleared" None (state (fold_elapsed now r))) <$> find_run id t, with_runs (remove_run id (runs t)) t).

(** ** Queries *)

Definition get_run (id : bytes) (t : WorkflowTracker) : option WorkflowRunState := state <$> find_run id t.

Definition list_runs (t : WorkflowTracker) : list WorkflowRunState := map state (runs t).

Definition find_run_id (key : bytes) (t : WorkflowTracker) : option bytes :=
  run_id ∘ state <$> List.find (fun r => (run_id (state r) =b key) || (name (state r) =b key)) (runs t).

Definition elapsed_ms (now : Moment) (id : bytes) (t : WorkflowTracker) : N := from_option (live_elapsed_ms now) 0 (find_run id t).

(** ** Restoring *)

Definition charge (ls : list WorkflowTokenLease) : N := fold_left (fun n l => saturating_add n (grant l)) ls 0.

Definition is_running (a : WorkflowAgentRow) : bool := row_state a =b $"running".

Definition restore_state (now : Moment) (s : WorkflowRunState) : WorkflowRunState :=
  let s :=
    match token_leases s with
    | [] => s
    | ls => record_event now $"workflow_budget_accounting_incomplete" (Some $"unresolved reservations charged on restore")
              (with_usage_incomplete true (with_agents_used (saturating_add (agents_used s) (charge ls)) (with_token_leases [] s)))
    end in
  let s :=
    if bool_decide (status s = Active) then
      record_event now $"workflow_interrupted" (Some $"restored_without_stable_operation_identity")
        (with_pause_message (Some $"the session ended while this workflow was active; start a new run") (with_run_status Interrupted s))
    else s in
  if existsb is_running (agent_rows s) then advance_revision (with_agent_rows (map cancel_row (agent_rows s)) s) else s.

Definition from_snapshot (now : Moment) (snapshots : list WorkflowRunState) : WorkflowTracker :=
  let rs := map (fun s => mkTracked (restore_state now s) None 0) snapshots in
  mkTracker rs ∅ (list_to_set (map (run_id ∘ state) (List.filter (fun r => is_completion_reportable (status (state r))) rs))) ∅.

(** ** Reports *)

Definition mark_completion_reported (id : bytes) (t : WorkflowTracker) : WorkflowTracker :=
  mkTracker (runs t) ({[id]} ∪ reported_terminal_run_ids t) (terminal_at_restore_run_ids t) (status_reported_revisions t).

Definition is_unreported_completion (id : bytes) (rev : N) (t : WorkflowTracker) : bool :=
  existsb (fun r => has_id id r && (revision (state r) =? rev) && is_completion_reportable (status (state r))
    && bool_decide (id ∉ reported_terminal_run_ids t)) (runs t).

Definition unreported (t : WorkflowTracker) (r : TrackedRun) : bool :=
  is_completion_reportable (status (state r)) && bool_decide (run_id (state r) ∉ reported_terminal_run_ids t).

Definition take_unreported_terminal_runs (t : WorkflowTracker) : (list WorkflowRunState * list WorkflowRunState) * WorkflowTracker :=
  let due := map state (List.filter (unreported t) (runs t)) in
  let at_restore s := bool_decide (run_id s ∈ terminal_at_restore_run_ids t) in
  let restored := List.filter at_restore due in
  let fresh := List.filter (fun s => negb (at_restore s)) due in
  ((restored, fresh),
   mkTracker (runs t) (list_to_set (map run_id (restored ++ fresh)) ∪ reported_terminal_run_ids t) (terminal_at_restore_run_ids t) (status_reported_revisions t)).

Definition live_runs (t : WorkflowTracker) : list TrackedRun := List.filter (fun r => negb (is_completion_reportable (status (state r)))) (runs t).

Definition moved (t : WorkflowTracker) (r : TrackedRun) : bool :=
  negb (bool_decide (status_reported_revisions t !! run_id (state r) = Some (revision (state r)))).

Definition take_status_report (now : Moment) (t : WorkflowTracker) : list WorkflowRunState * WorkflowTracker :=
  let live := live_runs t in
  if existsb (moved t) live then
    let report := map (fun r => with_elapsed (live_elapsed_ms now r) (state r)) live in
    let kept := filter (fun kv => kv.1 ∈ map (run_id ∘ state) (runs t)) (status_reported_revisions t) in
    (report, mkTracker (runs t) (reported_terminal_run_ids t) (terminal_at_restore_run_ids t) (fold_left (fun m s => <[run_id s := revision s]> m) report kept))
  else ([], t).

(** ** Requests of a run: [host_service.rs] *)

(** [persist_now], [Some] for its error. *)
Variable persist_now : WorkflowRunState → option bytes.

(** [HostService::dispatch] on a reservation and on a release *)
Definition dispatch_reserve (id : bytes) (count : N) (t : WorkflowTracker) : result unit HostError * WorkflowTracker :=
  match reserve_agents id count t with
  | (Err (requested, maximum), t) => (Err (AgentCallQuotaExceeded requested maximum), t)
  | (Ok s, t) =>
      match persist_now s with
      | Some e => (Err (HostFailed ($"workflow agent-budget reservation could not be persisted: " ++ e)), (release_agents id count t).2)
      | None => (Ok tt, t)
      end
  end.

Definition dispatch_release (id : bytes) (count : N) (t : WorkflowTracker) : result unit HostError * WorkflowTracker :=
  match release_agents id count t with
  | (Some _, t) => (Ok tt, t)
  | (None, t) => (Err (HostFailed ($"workflow run not found for agent-budget release: " ++ id)), t)
  end.

(** [budget_state] *)
Definition budget_state (id : bytes) (t : WorkflowTracker) : BudgetState :=
  let total := get_run id t ≫= agent_budget in
  let spent := from_option agents_used 0 (get_run id t) in
  mkBudget total spent 0 ((fun l => saturating_sub l spent) <$> total).

End Tracker.
