(* ===== verification/RunTrackerLaws.v ===== *)
(** * Laws of the runs of workflows

    What every sequence of operations keeps, that each end of a run is reported once,
    and that a run's budget bounds the agents its script calls. *)

From S2P Require Import Prelude RustStr StrFind Journal Workflow JournalLaws WorkflowLaws WorkflowBatch WorkflowTrace WorkflowClaims RunTracker.

#[local] Open Scope N_scope.

Section Laws.
Context {json : JsonText} {tables : CharTables}.

Definition rid (r : TrackedRun) : bytes := run_id (state r).
Definition ids (t : WorkflowTracker) : list bytes := map rid (runs t).
Definition names (t : WorkflowTracker) : list bytes := map (fun r => name (state r)) (runs t).

(** ** Operations *)

Inductive Op :=
| StartRun (id name_ objective_ : bytes) (phases_ : list PhaseMeta) (budget : option N) (journal_ : option bytes)
| ResumeRun (id : bytes) (new_budget : option N)
| SetPhase (id title : bytes)
| ReserveAgents (id : bytes) (count : N)
| ReleaseAgents (id : bytes) (count : N)
| ReconcileAgents (id : bytes) (used : N)
| StartAgent (id : bytes) (row : WorkflowAgentRow)
| RebindAgent (id agent new_agent : bytes)
| FinishAgent (id agent state_ : bytes) (tokens duration : N)
| LogText (id message : bytes)
| PauseRun (id : bytes) (message : option bytes)
| InterruptRun (id message : bytes)
| ApplyOutcome (id : bytes) (o : WorkflowOutcome)
| ClearRun (id : bytes)
| MarkReported (id : bytes)
| TakeTerminal
| TakeStatus.

Definition perform (now : Moment) (op : Op) (t : WorkflowTracker) : WorkflowTracker :=
  match op with
  | StartRun id n o ph b j => (start_run now id n o ph b j t).2
  | ResumeRun id b => (resume_run now id b t).2
  | SetPhase id title => (set_phase now id title t).2
  | ReserveAgents id k => (reserve_agents id k t).2
  | ReleaseAgents id k => (release_agents id k t).2
  | ReconcileAgents id k => (reconcile_agents_used id k t).2
  | StartAgent id row => (agent_started id row t).2
  | RebindAgent id a a' => rebind_agent_id id a a' t
  | FinishAgent id a s tk ms => agent_finished id a s tk ms t
  | LogText id m => (log_message now id m t).2
  | PauseRun id m => (pause_user now id m t).2
  | InterruptRun id m => (interrupt now id m t).2
  | ApplyOutcome id o => (apply_outcome now id o t).2
  | ClearRun id => (clear_run now id t).2
  | MarkReported id => mark_completion_reported id t
  | TakeTerminal => (take_unreported_terminal_runs t).2
  | TakeStatus => (take_status_report now t).2
  end.

(** ** One run *)

Definition timed (r : TrackedRun) : Prop := status (state r) = Active ↔ is_Some (active_since r).

(** A step of one run: its identity stays, its clock runs just while it is active, its
    history is bounded, and whatever changes shows in its revision. *)
Record evolves (r r' : TrackedRun) : Prop := {
  same_id : rid r' = rid r;
  same_name : name (state r') = name (state r);
  clock_kept : timed r → timed r';
  history_kept : (length (history (state r)) <= WORKFLOW_HISTORY_MAX)%nat → (length (history (state r')) <= WORKFLOW_HISTORY_MAX)%nat;
  revised : state r' = state r ∨ revision (state r') = saturating_add (revision (state r)) 1;
}.

Lemma evolves_refl (r : TrackedRun) : evolves r r.
Proof. split; auto. Qed.

Lemma record_event_history (now : Moment) (e : bytes) (d : option bytes) (s : WorkflowRunState) :
  (length (history (record_event now e d s)) <= WORKFLOW_HISTORY_MAX)%nat.
Proof.
  unfold record_event. cbn [history with_history advance_revision with_revision]. destruct (Nat.ltb_spec WORKFLOW_HISTORY_MAX (length (history s ++ [mkEvent e d (stamp now)]))); [|done].
  rewrite length_drop. lia.
Qed.

(** The fields an event leaves alone. *)
Lemma record_event_fields (now : Moment) (e : bytes) (d : option bytes) (s : WorkflowRunState) :
  let s' := record_event now e d s in
  run_id s' = run_id s ∧ name s' = name s ∧ status s' = status s ∧ revision s' = saturating_add (revision s) 1
  ∧ agents_used s' = agents_used s ∧ agent_budget s' = agent_budget s.
Proof. done. Qed.

(** An event behind changes of fields other than these. *)
Lemma evolves_event (now : Moment) (e : bytes) (d : option bytes) (r r' : TrackedRun) (s : WorkflowRunState) :
  state r' = record_event now e d s → run_id s = rid r → name s = name (state r) → revision s = revision (state r) →
  (timed r → (status s = Active ↔ is_Some (active_since r'))) → evolves r r'.
Proof.
  intros E Hi Hn Hr Ht. unfold rid in *. split; unfold rid, timed; rewrite E; [done|done|exact Ht|intros _; apply record_event_history|right; cbn; by rewrite Hr].
Qed.

Lemma evolves_fields (f : WorkflowRunState → WorkflowRunState) (r : TrackedRun) :
  run_id (f (state r)) = run_id (state r) → name (f (state r)) = name (state r) → status (f (state r)) = status (state r) →
  history (f (state r)) = history (state r) → revision (f (state r)) = saturating_add (revision (state r)) 1 → evolves r (with_state f r).
Proof. intros Hi Hn Hs Hh Hr. split; unfold rid, timed; cbn; rewrite ?Hi, ?Hn, ?Hs, ?Hh; auto. Qed.

Lemma timed_folded (now : Moment) (r : TrackedRun) : active_since (fold_elapsed now r) = None ∧ status (state (fold_elapsed now r)) = status (state r)
  ∧ rid (fold_elapsed now r) = rid r ∧ name (state (fold_elapsed now r)) = name (state r) ∧ revision (state (fold_elapsed now r)) = revision (state r).
Proof. unfold fold_elapsed. destruct (active_since r) eqn:E; by rewrite ?E. Qed.

Lemma resumed_evolves (now : Moment) (b : option N) (r : TrackedRun) : evolves r (resumed now b r).
Proof. eapply (evolves_event now); [done|..]; try (by destruct (candidate_budget _ _)). Qed.

Lemma paused_evolves (now : Moment) (m : option bytes) (r : TrackedRun) : evolves r (paused_by_user now m r).
Proof.
  unfold paused_by_user. case_bool_decide; [|apply evolves_refl]. destruct (timed_folded now r) as (Ha & Hs & Hi & Hn & Hr).
  eapply (evolves_event now); [done|done|done|done|]. intros _. cbn. rewrite Ha. split; [done|by intros []].
Qed.

Lemma interrupted_evolves (now : Moment) (m : bytes) (r : TrackedRun) : evolves r (interrupted now m r).
Proof.
  destruct (timed_folded now r) as (Ha & Hs & Hi & Hn & Hr). eapply (evolves_event now); [done|done|done|done|]. intros _. cbn. rewrite Ha. split; [done|by intros []].
Qed.

Lemma outcome_evolves (now : Moment) (o : WorkflowOutcome) (r : TrackedRun) : evolves r (with_state (outcome_applied now o) (fold_elapsed now r)).
Proof.
  destruct (timed_folded now r) as (Ha & Hs & Hi & Hn & Hr).
  assert (∃ e d s, outcome_applied now o (state (fold_elapsed now r)) = record_event now e d s ∧ run_id s = rid r ∧ name s = name (state r) ∧ revision s = revision (state r) ∧ status s ≠ Active) as (e & d & s & E & H1 & H2 & H3 & H4).
  { unfold outcome_applied. destruct (ignores_outcomes (status (state (fold_elapsed now r)))) eqn:Hig.
    - eexists _, _, _. split_and!; [done..|]. intros Hx. by rewrite Hx in Hig.
    - destruct o as [v|k m|m| |e]; (eexists _, _, _; split_and!; [done..|]); try done. by destruct k. }
  eapply (evolves_event now e d r _ s); [exact E|done..|]. intros _. cbn. rewrite Ha. split; [done|by intros []].
Qed.

Lemma row_evolves (agent : bytes) (f : WorkflowAgentRow → WorkflowAgentRow) (r : TrackedRun) : evolves r (with_state (on_row agent f) r).
Proof. unfold on_row. destruct (update_row agent f (agent_rows (state r))) as [rows|] eqn:E; [by apply evolves_fields; rewrite E|]. split; unfold rid, timed, with_state; cbn; rewrite E; auto. Qed.

Lemma phase_evolves (now : Moment) (title : bytes) (r : TrackedRun) : evolves r (with_state (phase_entered now title) r).
Proof.
  unfold with_state, phase_entered. case_bool_decide; [split; auto|]. by eapply (evolves_event now).
Qed.

(** ** All runs *)

(** At most one run is edited. *)
Definition edits (rs rs' : list TrackedRun) : Prop :=
  rs' = rs ∨ ∃ l r r' k, rs = l ++ r :: k ∧ rs' = l ++ r' :: k ∧ evolves r r'.

Lemma has_id_spec (id : bytes) (r : TrackedRun) : has_id id r = true ↔ rid r = id.
Proof. apply beq_true. Qed.

(** The run an operation finds, and its place. *)
Lemma update_run_cases (id : bytes) (f : TrackedRun → TrackedRun) (rs : list TrackedRun) :
  (List.find (has_id id) rs = None ∧ update_run id f rs = rs)
  ∨ ∃ l r k, List.find (has_id id) rs = Some r ∧ rid r = id ∧ rs = l ++ r :: k ∧ update_run id f rs = l ++ f r :: k ∧ Forall (fun x => rid x ≠ id) l.
Proof.
  induction rs as [|r rs IH]; [by left|]. cbn [List.find update_run]. destruct (has_id id r) eqn:E.
  - right. apply has_id_spec in E. exists [], r, rs. split_and!; [done..|apply Forall_nil_2].
  - assert (rid r ≠ id) as Hne by (rewrite <-has_id_spec; by rewrite E). destruct IH as [[-> ->]|(l & x & k & Hf & Hi & -> & -> & Hl)]; [by left|right].
    exists (r :: l), x, k. split_and!; [done..|by apply Forall_cons].
Qed.

Lemma find_run_Some (id : bytes) (t : WorkflowTracker) (r : TrackedRun) : find_run id t = Some r → r ∈ runs t ∧ rid r = id.
Proof. intros H. apply find_some in H as [H1 H2%has_id_spec]. by rewrite list_elem_of_In. Qed.

Lemma find_run_only (id : bytes) (t : WorkflowTracker) (r : TrackedRun) : NoDup (ids t) → r ∈ runs t → rid r = id → find_run id t = Some r.
Proof.
  unfold find_run, ids. induction (runs t) as [|x rs IH]; intros Hnd Hr Hi; [by apply elem_of_nil in Hr|]. cbn [map] in Hnd. apply NoDup_cons in Hnd as [Hx Hnd].
  cbn [List.find]. apply elem_of_cons in Hr as [->|Hr].
  - by rewrite (proj2 (has_id_spec id x) Hi).
  - destruct (has_id id x) eqn:E; [|by apply IH]. apply has_id_spec in E. destruct Hx. rewrite E, <-Hi. by apply (list_elem_of_fmap_2 rid).
Qed.

Lemma edits_update (id : bytes) (f : TrackedRun → TrackedRun) (rs : list TrackedRun) :
  (∀ r, List.find (has_id id) rs = Some r → evolves r (f r)) → edits rs (update_run id f rs).
Proof. intros H. destruct (update_run_cases id f rs) as [[_ ->]|(l & r & k & Hf & _ & -> & -> & _)]; [by left|right]. exists l, r, (f r), k. split_and!; [done..|by apply H]. Qed.

Lemma edits_run_mut (id : bytes) (f : TrackedRun → TrackedRun) (t : WorkflowTracker) : (∀ r, evolves r (f r)) → edits (runs t) (runs (run_mut id f t).2).
Proof. intros H. by apply edits_update. Qed.

(** What every operation but two does to the runs. *)
Lemma perform_edits (now : Moment) (op : Op) (t : WorkflowTracker) :
  match op with StartRun _ _ _ _ _ _ | ClearRun _ => True | _ => edits (runs t) (runs (perform now op t)) end.
Proof.
  destruct op as [id n o ph b j|id b|id title|id k|id k|id k|id row|id a a'|id a st tk ms|id m|id m|id m|id o|id|id| |]; cbn [perform]; try done.
  - unfold resume_run. destruct (find_run id t) as [r|] eqn:E; [|by left]. destruct (resumes b (state r)); [|by left]. cbn. apply edits_update. intros r' _. apply resumed_evolves.
  - apply edits_run_mut, phase_evolves.
  - unfold reserve_agents. destruct (find_run id t) as [r|] eqn:E; [|by left].
    assert (edits (runs t) (update_run id (with_state (fun _ => advance_revision (with_agents_used (saturating_add (agents_used (state r)) k) (state r)))) (runs t))) as Hed.
    { apply edits_update. intros r' Hr'. unfold find_run in E. rewrite E in Hr'. injection Hr' as <-. by apply evolves_fields. }
    destruct (agent_budget (state r)) as [limit|]; [destruct (_ <? _); [by left|]|]; exact Hed.
  - apply edits_run_mut. intros r. by apply evolves_fields.
  - apply edits_run_mut. intros r. destruct (agents_used (state r) =? k) eqn:E; [split; unfold rid, timed, with_state; cbn; rewrite E; auto|]. by apply evolves_fields; rewrite E.
  - unfold agent_started. destruct (find_run id t); [|by left]. cbn [snd]. apply edits_run_mut. intros r'. by apply evolves_fields.
  - apply edits_run_mut. intros r. apply row_evolves.
  - apply edits_run_mut. intros r. apply row_evolves.
  - apply edits_run_mut. intros r. by eapply (evolves_event now).
  - apply edits_run_mut, paused_evolves.
  - apply edits_run_mut, interrupted_evolves.
  - apply edits_run_mut, outcome_evolves.
  - by left.
  - by left.
  - unfold take_status_report. destruct (existsb _ _); by left.
Qed.

Lemma remove_run_sub (id : bytes) (rs : list TrackedRun) : remove_run id rs `sublist_of` rs.
Proof. induction rs as [|r rs IH]; [done|]. cbn. destruct (has_id id r); [by apply sublist_cons|by apply sublist_skip]. Qed.

(** ** Names *)

Lemma taken_spec (n : bytes) (t : WorkflowTracker) : taken n t = true ↔ n ∈ names t.
Proof.
  unfold taken, names. rewrite existsb_exists. split.
  - intros (r & Hr & E%beq_true). rewrite <-E. apply (list_elem_of_fmap_2 (fun r => name (state r))). by apply list_elem_of_In.
  - intros (r & -> & Hr)%list_elem_of_fmap. exists r. split; [by apply list_elem_of_In|by apply beq_true].
Qed.

Lemma numbered_inj (base : bytes) (a b : N) : numbered base a = numbered base b → a = b.
Proof. unfold numbered. intros H%app_inv_head%app_inv_head. by apply show_decimal_inj in H. Qed.

Lemma free_name_tried (fuel : nat) (base : bytes) (n : N) (t : WorkflowTracker) :
  taken (free_name fuel base n t) t = true → ∀ i, (i <= fuel)%nat → taken (numbered base (n + N.of_nat i)) t = true.
Proof.
  revert n. induction fuel as [|fuel IH]; intros n; cbn [free_name].
  - intros H i Hi. replace i with 0%nat by lia. by rewrite N.add_0_r.
  - destruct (taken (numbered base n) t) eqn:E; [|congruence]. intros H [|i] Hi; [by rewrite N.add_0_r|].
    replace (n + N.of_nat (S i)) with (n + 1 + N.of_nat i) by lia. apply IH; [done|lia].
Qed.

(** The loop that looks for a name ends with one no run has. *)
Lemma free_name_free (base : bytes) (t : WorkflowTracker) : free_name (length (runs t)) base 2 t ∉ names t.
Proof.
  rewrite <-taken_spec. intros H. pose proof (free_name_tried _ _ _ _ H) as Hall.
  set (f := fun i => numbered base (2 + N.of_nat i)).
  assert (NoDup (f <$> List.seq 0 (S (length (runs t))))) as Hnd.
  { apply NoDup_fmap_2; [|apply NoDup_seq]. intros i j Hij%numbered_inj. lia. }
  assert (f <$> List.seq 0 (S (length (runs t))) ⊆ names t) as Hsub.
  { intros x (i & -> & Hi)%list_elem_of_fmap. apply elem_of_seq in Hi. apply taken_spec, Hall. lia. }
  pose proof (NoDup_submseteq _ _ Hnd Hsub) as Hlen%submseteq_length. unfold names in Hlen. rewrite length_fmap, length_seq, length_map in Hlen. lia.
Qed.

(** ** Sequences of operations *)

(** An identifier that is new to the tracker, as those of new runs are. *)
Definition unused (id : bytes) (t : WorkflowTracker) : Prop :=
  id ∉ ids t ∧ id ∉ reported_terminal_run_ids t ∧ status_reported_revisions t !! id = None.

#[export] Instance unused_dec (id : bytes) (t : WorkflowTracker) : Decision (unused id t).
Proof. unfold unused. apply _. Defined.

Definition allowed (op : Op) (t : WorkflowTracker) : Prop := match op with StartRun id _ _ _ _ _ => unused id t | _ => True end.

Fixpoint execute (l : list (Moment * Op)) (t : WorkflowTracker) : WorkflowTracker :=
  match l with [] => t | (now, op) :: l => execute l (perform now op t) end.

Fixpoint all_allowed (l : list (Moment * Op)) (t : WorkflowTracker) : Prop :=
  match l with [] => True | (now, op) :: l => allowed op t ∧ all_allowed l (perform now op t) end.

Record sane (t : WorkflowTracker) : Prop := {
  ids_distinct : NoDup (ids t);
  names_distinct : NoDup (names t);
  all_timed : Forall timed (runs t);
  histories_bounded : Forall (fun r => length (history (state r)) <= WORKFLOW_HISTORY_MAX)%nat (runs t);
}.

Lemma sane_runs (t t' : WorkflowTracker) : runs t' = runs t → sane t → sane t'.
Proof. intros E [H1 H2 H3 H4]. unfold ids, names in *. split; unfold ids, names; by rewrite E. Qed.

Lemma sane_edits (t t' : WorkflowTracker) : edits (runs t) (runs t') → sane t → sane t'.
Proof.
  intros [E|(l & r & r' & k & E & E' & Hev)]; [by apply sane_runs|]. intros [H1 H2 H3 H4]. unfold ids, names in *.
  rewrite E in *. split; unfold ids, names; rewrite E', ?map_app in *; cbn [map] in *.
  - by rewrite (same_id _ _ Hev).
  - by rewrite (same_name _ _ Hev).
  - apply Forall_app in H3 as [Ha Hb]. apply Forall_cons in Hb as [Hr Hb]. apply Forall_app_2; [done|apply Forall_cons; split; [by apply (clock_kept _ _ Hev)|done]].
  - apply Forall_app in H4 as [Ha Hb]. apply Forall_cons in Hb as [Hr Hb]. apply Forall_app_2; [done|apply Forall_cons; split; [by apply (history_kept _ _ Hev)|done]].
Qed.

Lemma sane_start (now : Moment) (id n o : bytes) (ph : list PhaseMeta) (b : option N) (j : option bytes) (t : WorkflowTracker) :
  id ∉ ids t → sane t → sane (start_run now id n o ph b j t).2.
Proof.
  intros Hid [H1 H2 H3 H4]. unfold start_run. split; unfold ids, names in *; cbn [snd runs with_runs]; rewrite ?map_app; cbn [map].
  - apply NoDup_app. split_and!; [done|set_solver|apply NoDup_singleton].
  - apply NoDup_app. split_and!; [done| |apply NoDup_singleton]. intros x Hx Hn%list_elem_of_singleton. subst x. revert Hx. cbn.
    destruct (taken n t) eqn:E; [apply free_name_free|]. intros Hx. by rewrite (proj2 (taken_spec n t) Hx) in E.
  - apply Forall_app_2; [done|]. apply Forall_singleton. split; [by eexists|done].
  - apply Forall_app_2; [done|]. apply Forall_singleton. apply record_event_history.
Qed.

Lemma sane_clear (now : Moment) (id : bytes) (t : WorkflowTracker) : sane t → sane (clear_run now id t).2.
Proof.
  intros [H1 H2 H3 H4]. pose proof (remove_run_sub id (runs t)) as Hsub. split; unfold ids, names in *; cbn [clear_run snd runs with_runs].
  - eapply sublist_NoDup; [exact H1|by apply (fmap_sublist rid)].
  - eapply sublist_NoDup; [exact H2|by apply (fmap_sublist (fun r => name (state r)))].
  - apply Forall_forall. intros r Hr. rewrite Forall_forall in H3. apply H3. by eapply elem_of_sublist.
  - apply Forall_forall. intros r Hr. rewrite Forall_forall in H4. apply H4. by eapply elem_of_sublist.
Qed.

Lemma sane_perform (now : Moment) (op : Op) (t : WorkflowTracker) : allowed op t → sane t → sane (perform now op t).
Proof.
  intros Ha Hs. pose proof (perform_edits now op t) as He. destruct op; try (by eapply sane_edits); [|by apply sane_clear].
  apply sane_start; [apply Ha|done].
Qed.

Lemma sane_execute (l : list (Moment * Op)) (t : WorkflowTracker) : all_allowed l t → sane t → sane (execute l t).
Proof. revert t. induction l as [|[now op] l IH]; intros t Ha Hs; [done|]. destruct Ha as [Ha Hl]. apply IH; [done|by apply sane_perform]. Qed.

(** What restoring does to the state of a run. *)
Lemma restore_state_spec (now : Moment) (s : WorkflowRunState) :
  let s' := restore_state now s in
  run_id s' = run_id s ∧ name s' = name s ∧ status s' ≠ Active ∧ token_leases s' = [] ∧ existsb is_running (agent_rows s') = false
  ∧ ((length (history s) <= WORKFLOW_HISTORY_MAX)%nat → (length (history s') <= WORKFLOW_HISTORY_MAX)%nat).
Proof.
  unfold restore_state. set (s1 := match token_leases s with [] => s | _ => _ end). set (s2 := if bool_decide (status s1 = Active) then _ else s1).
  assert (∀ rows, existsb is_running (map cancel_row rows) = false) as Hrows.
  { intros rows. induction rows as [|a rows IH]; [done|]. cbn [map existsb]. rewrite IH, orb_false_r. unfold cancel_row.
    destruct (row_state a =b $"running") eqn:E; [done|exact E]. }
  assert (run_id s1 = run_id s ∧ name s1 = name s ∧ token_leases s1 = [] ∧ ((length (history s) <= WORKFLOW_HISTORY_MAX)%nat → (length (history s1) <= WORKFLOW_HISTORY_MAX)%nat)) as (A1 & A2 & A3 & A4).
  { unfold s1. destruct (token_leases s) eqn:E; split_and!; try done. intros _. apply record_event_history. }
  assert (run_id s2 = run_id s ∧ name s2 = name s ∧ status s2 ≠ Active ∧ token_leases s2 = [] ∧ ((length (history s) <= WORKFLOW_HISTORY_MAX)%nat → (length (history s2) <= WORKFLOW_HISTORY_MAX)%nat)) as (B1 & B2 & B3 & B4 & B5).
  { unfold s2. case_bool_decide; [|by split_and!]. split_and!; try done. intros _. apply record_event_history. }
  clearbody s2. destruct (existsb is_running (agent_rows s2)) eqn:E; [|by split_and!]. split_and!; try done. apply Hrows.
Qed.

Lemma sane_restore (now : Moment) (ss : list WorkflowRunState) :
  NoDup (map run_id ss) → NoDup (map name ss) → Forall (fun s => length (history s) <= WORKFLOW_HISTORY_MAX)%nat ss → sane (from_snapshot now ss).
Proof.
  intros H1 H2 H3. unfold from_snapshot. split; unfold ids, names; cbn [runs]; rewrite ?map_map.
  - replace (map _ ss) with (map run_id ss); [done|]. apply map_ext. intros s. symmetry. apply (restore_state_spec now s).
  - replace (map _ ss) with (map name ss); [done|]. apply map_ext. intros s. symmetry. apply (restore_state_spec now s).
  - apply Forall_forall. intros r (s & -> & _)%list_elem_of_fmap. split; [intros Ha; by destruct (restore_state_spec now s) as (_ & _ & [] & _)|by intros []].
  - apply Forall_forall. intros r (s & -> & Hs)%list_elem_of_fmap. rewrite Forall_forall in H3. by apply (restore_state_spec now s), H3.
Qed.

Lemma find_by_name (t : WorkflowTracker) (r : TrackedRun) :
  NoDup (names t) → r ∈ runs t → (∀ x, x ∈ runs t → rid x ≠ name (state r)) → find_run_id (name (state r)) t = Some (rid r).
Proof.
  unfold find_run_id, names. intros Hnd Hr Hid. enough (List.find (fun x => (run_id (state x) =b name (state r)) || (name (state x) =b name (state r))) (runs t) = Some r) as -> by done.
  induction (runs t) as [|x rs IH]; [by apply elem_of_nil in Hr|]. cbn [map List.find] in *. apply NoDup_cons in Hnd as [Hx Hnd].
  assert ((run_id (state x) =b name (state r)) = false) as -> by (apply beq_false, Hid; by left).
  apply elem_of_cons in Hr as [->|Hr]; [by rewrite (proj2 (beq_true _ _) eq_refl)|].
  assert ((name (state x) =b name (state r)) = false) as ->.
  { apply beq_false. intros E. apply Hx. rewrite E. by apply (list_elem_of_fmap_2 (fun r => name (state r))). }
  apply IH; [done|done|]. intros y Hy. apply Hid. by right.
Qed.

(** ** Reports of ended runs *)

Definition times (id : bytes) (l : list bytes) : nat := length (List.filter (fun x => x =b id) l).

Lemma times_app (id : bytes) (l k : list bytes) : times id (l ++ k) = (times id l + times id k)%nat.
Proof. unfold times. by rewrite List.filter_app, length_app. Qed.

Lemma times_NoDup (id : bytes) (l : list bytes) : NoDup l → (times id l <= 1)%nat ∧ (id ∉ l → times id l = 0%nat).
Proof.
  unfold times. induction 1 as [|x l Hx Hl [IH1 IH2]]; [split; [cbn; lia|done]|]. cbn [List.filter]. destruct (x =b id) eqn:E.
  - apply beq_true in E as ->. split; [cbn; rewrite IH2 by done; lia|]. intros []. by left.
  - split; [done|]. intros H. apply IH2. intros H2. apply H. by right.
Qed.

(** The runs an operation reports as ended, and the run it resumes. *)
Definition reports (op : Op) (t : WorkflowTracker) : list bytes :=
  match op with
  | TakeTerminal => let '((restored, fresh), _) := take_unreported_terminal_runs t in map run_id (restored ++ fresh)
  | _ => []
  end.

Definition revives (now : Moment) (op : Op) (t : WorkflowTracker) : list bytes :=
  match op with
  | ResumeRun id b => match (resume_run now id b t).1 with Some _ => [id] | None => [] end
  | _ => []
  end.

Fixpoint reported_in (l : list (Moment * Op)) (t : WorkflowTracker) : list bytes :=
  match l with [] => [] | (now, op) :: l => reports op t ++ reported_in l (perform now op t) end.

Fixpoint revived_in (l : list (Moment * Op)) (t : WorkflowTracker) : list bytes :=
  match l with [] => [] | (now, op) :: l => revives now op t ++ revived_in l (perform now op t) end.

(** Whether a report of the run may still come. *)
Definition due (id : bytes) (t : WorkflowTracker) : nat := if decide (id ∈ reported_terminal_run_ids t) then 0 else 1.

Lemma perform_reported (now : Moment) (op : Op) (t : WorkflowTracker) :
  match op with ResumeRun _ _ | MarkReported _ | TakeTerminal => True | _ => reported_terminal_run_ids (perform now op t) = reported_terminal_run_ids t end.
Proof.
  destruct op as [id n o ph b j|id b|id title|id k|id k|id k|id row|id a a'|id a st tk ms|id m|id m|id m|id o|id|id| |]; cbn [perform]; try done.
  - unfold reserve_agents. destruct (find_run id t) as [r|]; [|done]. destruct (agent_budget (state r)); [|done]. by destruct (_ <? _).
  - unfold agent_started. by destruct (find_run id t).
  - unfold take_status_report. by destruct (existsb _ _).
Qed.

Lemma filter_halves {A} (f : A → bool) (l : list A) : List.filter f l ++ List.filter (fun x => negb (f x)) l ≡ₚ l.
Proof. induction l as [|x l IH]; [done|]. cbn. destruct (f x); cbn; [by rewrite IH|]. by rewrite <-Permutation_middle, IH. Qed.

Lemma reports_perm (t : WorkflowTracker) : reports TakeTerminal t ≡ₚ map rid (List.filter (unreported t) (runs t)).
Proof.
  unfold reports, take_unreported_terminal_runs. set (l := map state (List.filter (unreported t) (runs t))).
  etrans; [apply Permutation_map, filter_halves|]. unfold l. by rewrite map_map.
Qed.

Lemma elem_of_reports (t : WorkflowTracker) (id : bytes) :
  id ∈ reports TakeTerminal t ↔ ∃ r, r ∈ runs t ∧ rid r = id ∧ is_completion_reportable (status (state r)) = true ∧ id ∉ reported_terminal_run_ids t.
Proof.
  rewrite reports_perm. split.
  - intros (r & -> & Hr)%list_elem_of_fmap. apply list_elem_of_In, filter_In in Hr as [Hr Hu]. unfold unreported in Hu.
    apply andb_true_iff in Hu as [Hc Hu%bool_decide_eq_true]. exists r. split_and!; [by apply list_elem_of_In|done..].
  - intros (r & Hr & <- & Hc & Hu). apply (list_elem_of_fmap_2 rid), list_elem_of_In, filter_In. split; [by apply list_elem_of_In|].
    unfold unreported. rewrite Hc. by apply bool_decide_eq_true.
Qed.

Lemma reports_NoDup (t : WorkflowTracker) : NoDup (ids t) → NoDup (reports TakeTerminal t).
Proof.
  intros H. rewrite reports_perm. eapply sublist_NoDup; [exact H|]. apply (fmap_sublist rid). generalize (unreported t). intros f.
  induction (runs t) as [|r rs IH]; [done|]. cbn. destruct (f r); [by apply sublist_skip|by apply sublist_cons].
Qed.

Lemma take_reported (t : WorkflowTracker) (id : bytes) :
  id ∈ reported_terminal_run_ids (take_unreported_terminal_runs t).2 ↔ id ∈ reports TakeTerminal t ∨ id ∈ reported_terminal_run_ids t.
Proof. unfold reports. cbn. by rewrite elem_of_union, elem_of_list_to_set. Qed.

Lemma report_step (now : Moment) (op : Op) (t : WorkflowTracker) (id : bytes) :
  NoDup (ids t) → (times id (reports op t) + due id (perform now op t) <= times id (revives now op t) + due id t)%nat.
Proof.
  intros Hnd. pose proof (perform_reported now op t) as Hr. assert (∀ t, due id t <= 1)%nat as Hle by (intros t'; unfold due; case_decide; lia).
  destruct op as [i n o ph b j|i b|i title|i k|i k|i k|i row|i a a'|i a st tk ms|i m|i m|i m|i o|i|i| |];
    try (unfold due in *; by rewrite Hr); cbn [perform reports revives].
  - unfold resume_run. destruct (find_run i t) as [r|] eqn:E; [|done]. destruct (resumes b (state r)); [|done]. cbn [run_mut]. rewrite E. cbn [fmap option_fmap option_map fst snd]. unfold times. cbn [List.filter].
    destruct (i =b id) eqn:Ei.
    + assert (∀ t1 t2, due id t1 <= 1 + due id t2)%nat as Hd by (intros t1 t2; pose proof (Hle t1); lia). apply Hd.
    + apply beq_false in Ei. unfold due. cbn [reported_terminal_run_ids]. repeat case_decide; cbn; (lia || set_solver).
  - unfold due, mark_completion_reported. cbn [reported_terminal_run_ids]. repeat case_decide; cbn; (lia || set_solver).
  - pose proof (times_NoDup id _ (reports_NoDup t Hnd)) as [H1 H0]. change (reports TakeTerminal t) with (let '((restored, fresh), _) := take_unreported_terminal_runs t in map run_id (restored ++ fresh)) in *.
    pose proof (take_reported t id) as Hiff. unfold due. cbn [times List.filter length] in *.
    destruct (decide (id ∈ reported_terminal_run_ids t)) as [Hin|Hout].
    + rewrite decide_True by (apply Hiff; by right). rewrite H0; [done|]. intros Hx. change (id ∈ reports TakeTerminal t) in Hx. apply elem_of_reports in Hx as (? & ? & ? & ? & ?). done.
    + case_decide as Hd; [lia|]. rewrite H0; [done|]. intros Hx. apply Hd, Hiff. by left.
Qed.

(** ** Status reports *)

Lemma fold_insert {A B} (k : A → bytes) (v : A → B) (l : list A) (m : gmap bytes B) :
  NoDup (map k l) →
  (∀ x, x ∈ l → fold_left (fun m x => <[k x := v x]> m) l m !! k x = Some (v x))
  ∧ ∀ i, i ∉ map k l → fold_left (fun m x => <[k x := v x]> m) l m !! i = m !! i.
Proof.
  revert m. induction l as [|y l IH]; intros m Hnd; [split; [by intros x Hx%elem_of_nil|done]|]. cbn [map fold_left] in *. apply NoDup_cons in Hnd as [Hy Hnd].
  destruct (IH (<[k y := v y]> m) Hnd) as [H1 H2]. split.
  - intros x [->|Hx]%elem_of_cons; [|by apply H1]. by rewrite H2, lookup_insert_eq.
  - intros i Hi. apply not_elem_of_cons in Hi as [Hne Hi]. by rewrite H2, lookup_insert_ne.
Qed.

(** The states of the runs in the last report that mentioned them. *)
Definition note (op : Op) (t : WorkflowTracker) (last : gmap bytes WorkflowRunState) : gmap bytes WorkflowRunState :=
  match op with
  | TakeStatus => if existsb (moved t) (live_runs t) then fold_left (fun m r => <[rid r := state r]> m) (live_runs t) last else last
  | _ => last
  end.

Fixpoint noted (l : list (Moment * Op)) (t : WorkflowTracker) (last : gmap bytes WorkflowRunState) : gmap bytes WorkflowRunState :=
  match l with [] => last | (now, op) :: l => noted l (perform now op t) (note op t last) end.

(** A run whose revision is the reported one is as it was reported. *)
Definition remembers (t : WorkflowTracker) (last : gmap bytes WorkflowRunState) : Prop :=
  ∀ id v, status_reported_revisions t !! id = Some v → v < U64_MAX →
    ∃ s, last !! id = Some s ∧ ∀ r, r ∈ runs t → rid r = id → v <= revision (state r) ∧ (v = revision (state r) → state r = s).

Lemma remembers_edits (t t' : WorkflowTracker) (last : gmap bytes WorkflowRunState) :
  edits (runs t) (runs t') → status_reported_revisions t' = status_reported_revisions t → remembers t last → remembers t' last.
Proof.
  intros He Hs Hr id v Hv Hm. rewrite Hs in Hv. destruct (Hr id v Hv Hm) as (s & Hl & H). exists s. split; [done|]. intros r' Hr' Hi.
  destruct He as [E|(l & r & x & k & E & E' & Hev)]; [apply H; [by rewrite <-E|done]|]. rewrite E' in Hr'.
  apply elem_of_app in Hr' as [Hin|Hin]; [apply H; [rewrite E; set_solver|done]|]. apply elem_of_cons in Hin as [->|Hin]; [|apply H; [rewrite E; set_solver|done]].
  destruct (H r) as [H1 H2]; [rewrite E; set_solver|by rewrite <-(same_id _ _ Hev)|]. destruct (revised _ _ Hev) as [->|Hrev]; [done|]. rewrite Hrev. unfold saturating_add. split; [lia|intros Hx; lia].
Qed.

Lemma perform_status (now : Moment) (op : Op) (t : WorkflowTracker) :
  match op with TakeStatus => True | _ => status_reported_revisions (perform now op t) = status_reported_revisions t end.
Proof.
  destruct op as [id n o ph b j|id b|id title|id k|id k|id k|id row|id a a'|id a st tk ms|id m|id m|id m|id o|id|id| |]; cbn [perform]; try done.
  - unfold resume_run. destruct (find_run id t) as [r|] eqn:E; [|done]. destruct (resumes b (state r)); [|done]. cbn [run_mut]. by rewrite E.
  - unfold reserve_agents. destruct (find_run id t) as [r|]; [|done]. destruct (agent_budget (state r)); [|done]. by destruct (_ <? _).
  - unfold agent_started. by destruct (find_run id t).
Qed.

Lemma live_sub (t : WorkflowTracker) : live_runs t `sublist_of` runs t.
Proof.
  unfold live_runs. induction (runs t) as [|r rs IH]; [done|]. cbn. destruct (is_completion_reportable _); [by apply sublist_cons|by apply sublist_skip].
Qed.

Lemma elem_of_live (t : WorkflowTracker) (r : TrackedRun) : r ∈ live_runs t ↔ r ∈ runs t ∧ is_completion_reportable (status (state r)) = false.
Proof. unfold live_runs. rewrite !list_elem_of_In, filter_In, negb_true_iff. done. Qed.

Lemma remembers_report (now : Moment) (t : WorkflowTracker) (last : gmap bytes WorkflowRunState) :
  NoDup (ids t) → remembers t last → remembers (perform now TakeStatus t) (note TakeStatus t last).
Proof.
  intros Hnd Hr. cbn [perform note]. unfold take_status_report. destruct (existsb (moved t) (live_runs t)) eqn:Hm; [|done].
  set (report := map (fun r => with_elapsed (live_elapsed_ms now r) (state r)) (live_runs t)).
  set (kept := filter (fun kv => kv.1 ∈ map (run_id ∘ state) (runs t)) (status_reported_revisions t)).
  assert (NoDup (map rid (live_runs t))) as Hlive by (eapply sublist_NoDup; [exact Hnd|apply (fmap_sublist rid), live_sub]).
  assert (map run_id report = map rid (live_runs t)) as Ereport by (unfold report; by rewrite map_map).
  destruct (fold_insert run_id revision report kept) as [Hin Hout]; [by rewrite Ereport|].
  destruct (fold_insert rid state (live_runs t) last Hlive) as [Lin Lout].
  intros id v Hv Hmax. cbn [snd status_reported_revisions runs] in Hv |- *. destruct (decide (id ∈ map rid (live_runs t))) as [Hid|Hid].
  - apply (list_elem_of_fmap rid) in Hid as (r & -> & Hr0). exists (state r). split; [by apply Lin|]. intros r' Hr' Hi.
    assert (r' = r) as ->.
    { apply elem_of_live in Hr0 as [Hr0 _]. pose proof (find_run_only (rid r) t r Hnd Hr0 eq_refl) as E. rewrite (find_run_only (rid r) t r' Hnd Hr' Hi) in E. by injection E. }
    pose proof (Hin (with_elapsed (live_elapsed_ms now r) (state r))) as E. cbn [run_id revision with_elapsed] in E. unfold rid in Hv. rewrite E in Hv.
    + injection Hv as <-. split; [apply N.le_refl|done].
    + unfold report. apply (list_elem_of_fmap_2 (fun r => with_elapsed (live_elapsed_ms now r) (state r))). done.
  - rewrite Hout in Hv by by rewrite Ereport. apply map_lookup_filter_Some in Hv as [Hv _]. rewrite Lout by done. by apply Hr.
Qed.

Lemma remembers_perform (now : Moment) (op : Op) (t : WorkflowTracker) (last : gmap bytes WorkflowRunState) :
  allowed op t → NoDup (ids t) → remembers t last → remembers (perform now op t) (note op t last).
Proof.
  intros Ha Hnd Hr. pose proof (perform_edits now op t) as He. pose proof (perform_status now op t) as Hs.
  destruct op; try (by eapply remembers_edits); [..|by apply remembers_report].
  - intros i v Hv Hm. rewrite Hs in Hv. destruct (Hr i v Hv Hm) as (s & Hl & H). exists s. split; [done|]. intros r Hin Hi.
    cbn [perform start_run snd runs with_runs] in Hin. apply elem_of_app in Hin as [Hin|Hin]; [by apply H|]. apply list_elem_of_singleton in Hin as ->.
    destruct Ha as (_ & _ & Hnone). unfold rid in Hi. cbn in Hi. subst i. by rewrite Hnone in Hv.
  - intros i v Hv Hm. destruct (Hr i v Hv Hm) as (s & Hl & H). exists s. split; [done|]. intros r Hin. apply H. eapply elem_of_sublist; [exact Hin|apply remove_run_sub].
Qed.

Lemma execute_remembers (l : list (Moment * Op)) (t : WorkflowTracker) (last : gmap bytes WorkflowRunState) :
  all_allowed l t → sane t → remembers t last → sane (execute l t) ∧ remembers (execute l t) (noted l t last).
Proof.
  revert t last. induction l as [|[now op] l IH]; intros t last Ha Hs Hr; [done|]. destruct Ha as [Ha Hl]. cbn [execute noted].
  apply IH; [done|by apply sane_perform|by apply remembers_perform; [..|apply Hs|]].
Qed.

(** ** Budgets *)

(** What a run may call and has called. *)
Definition account (id : bytes) (t : WorkflowTracker) : option (N * option N) := (fun r => (agents_used (state r), agent_budget (state r))) <$> find_run id t.

(** Operations that leave the account of the run [id] alone. *)
Definition spares (id : bytes) (op : Op) : bool :=
  match op with
  | StartRun i _ _ _ _ _ | ResumeRun i _ | ReserveAgents i _ | ReleaseAgents i _ | ReconcileAgents i _ | ClearRun i => negb (i =b id)
  | _ => true
  end.

Lemma find_app {A} (f : A → bool) (l k : list A) : List.find f (l ++ k) = match List.find f l with Some x => Some x | None => List.find f k end.
Proof. induction l as [|x l IH]; [done|]. cbn. by destruct (f x). Qed.

Lemma find_updated (id i : bytes) (f : TrackedRun → TrackedRun) (rs : list TrackedRun) :
  (∀ r, rid (f r) = rid r) → List.find (has_id id) (update_run i f rs) = (if i =b id then f <$> List.find (has_id id) rs else List.find (has_id id) rs).
Proof.
  intros Hf. assert (∀ r, has_id id (f r) = has_id id r) as Hh by (intros r; unfold has_id; unfold rid in Hf; by rewrite Hf).
  induction rs as [|r rs IH]; [by destruct (i =b id)|]. cbn [update_run]. destruct (has_id i r) eqn:Ei; cbn [List.find].
  - rewrite Hh. apply has_id_spec in Ei. destruct (i =b id) eqn:E; [apply beq_true in E as ->; by rewrite (proj2 (has_id_spec id r) Ei)|].
    apply beq_false in E. destruct (has_id id r) eqn:Er; [apply has_id_spec in Er; congruence|done].
  - destruct (has_id id r) eqn:Er; [|exact IH]. destruct (i =b id) eqn:E; [|done]. apply beq_true in E. subst i. congruence.
Qed.

Lemma account_run_mut (id i : bytes) (f : TrackedRun → TrackedRun) (t : WorkflowTracker) :
  (∀ r, rid (f r) = rid r) → (i = id → ∀ r, agents_used (state (f r)) = agents_used (state r) ∧ agent_budget (state (f r)) = agent_budget (state r)) →
  account id (run_mut i f t).2 = account id t.
Proof.
  intros Hf Hk. unfold account, find_run. cbn [run_mut snd runs with_runs]. rewrite find_updated by done. destruct (i =b id) eqn:E; [|done].
  apply beq_true in E. destruct (List.find (has_id id) (runs t)) as [r|]; [|done]. cbn. by destruct (Hk E r) as [-> ->].
Qed.

Lemma folded_account (now : Moment) (r : TrackedRun) :
  agents_used (state (fold_elapsed now r)) = agents_used (state r) ∧ agent_budget (state (fold_elapsed now r)) = agent_budget (state r).
Proof. unfold fold_elapsed. by destruct (active_since r). Qed.

Lemma outcome_account (now : Moment) (o : WorkflowOutcome) (s : WorkflowRunState) :
  agents_used (outcome_applied now o s) = agents_used s ∧ agent_budget (outcome_applied now o s) = agent_budget s.
Proof. unfold outcome_applied. destruct (ignores_outcomes (status s)); [done|]. by destruct o. Qed.

Lemma spares_account (now : Moment) (id : bytes) (op : Op) (t : WorkflowTracker) (a : N * option N) :
  spares id op = true → account id t = Some a → account id (perform now op t) = Some a.
Proof.
  intros Hs Ha. rewrite <-Ha.
  destruct op as [i n o ph b j|i b|i title|i k|i k|i k|i row|i ag ag'|i ag st tk ms|i m|i m|i m|i o|i|i| |]; cbn [perform spares] in *;
    try (apply negb_true_iff in Hs as Hne; pose proof (proj1 (beq_false _ _) Hne) as Hi).
  - unfold account, find_run in *. cbn [start_run snd runs with_runs]. rewrite find_app. by destruct (List.find (has_id id) (runs t)).
  - unfold resume_run. destruct (find_run i t) as [r|] eqn:E; [|done]. destruct (resumes b (state r)); [|done]. cbn [run_mut]. rewrite E.
    change (account id (run_mut i (resumed now b) t).2 = account id t). apply account_run_mut; [intros r'; apply resumed_evolves|done].
  - apply account_run_mut; [intros r; apply phase_evolves|]. intros _ r. unfold phase_entered, with_state. cbn. by case_bool_decide.
  - unfold reserve_agents. destruct (find_run i t) as [r|] eqn:E; [|done].
    assert (account id (with_runs (update_run i (with_state (fun _ => advance_revision (with_agents_used (saturating_add (agents_used (state r)) k) (state r)))) (runs t)) t) = account id t) as Hu.
    { unfold account, find_run. cbn [runs with_runs]. destruct (update_run_cases i (with_state (fun _ => advance_revision (with_agents_used (saturating_add (agents_used (state r)) k) (state r)))) (runs t)) as [[_ ->]|(l & x & l' & Hx & Hix & E1 & -> & _)]; [done|].
      rewrite E1, !find_app. destruct (List.find (has_id id) l); [done|]. cbn [List.find]. unfold find_run in E. rewrite E in Hx. injection Hx as ->.
      assert (has_id id x = false) as Hf by (apply beq_false; unfold rid in Hix; congruence). unfold has_id in *. cbn [state with_state run_id advance_revision with_revision with_agents_used]. by rewrite Hf. }
    destruct (agent_budget (state r)) as [limit|]; [destruct (_ <? _); [done|]|]; exact Hu.
  - by apply account_run_mut.
  - apply account_run_mut; [intros r; unfold rid, with_state; cbn; by destruct (agents_used (state r) =? k)|done].
  - unfold agent_started. destruct (find_run i t); [|done]. by apply account_run_mut.
  - apply account_run_mut; [intros r; apply row_evolves|]. intros _ r. unfold on_row, with_state. cbn. by destruct (update_row _ _ _).
  - apply account_run_mut; [intros r; apply row_evolves|]. intros _ r. unfold on_row, with_state. cbn. by destruct (update_row _ _ _).
  - by apply account_run_mut.
  - apply account_run_mut; [intros r; apply paused_evolves|]. intros _ r. unfold paused_by_user. case_bool_decide; [|done]. apply (folded_account now r).
  - apply account_run_mut; [intros r; apply interrupted_evolves|]. intros _ r. apply (folded_account now r).
  - apply account_run_mut; [intros r; apply outcome_evolves|]. intros _ r. cbn. destruct (outcome_account now o (state (fold_elapsed now r))) as [-> ->]. apply folded_account.
  - unfold account, find_run. cbn [clear_run snd runs with_runs]. clear Ha. induction (runs t) as [|r rs IH]; [done|]. cbn [remove_run List.find]. destruct (has_id i r) eqn:Er; cbn [List.find].
    + assert (has_id id r = false) as ->; [|done]. apply has_id_spec in Er. apply beq_false. unfold rid in Er. congruence.
    + by destruct (has_id id r).
  - done.
  - done.
  - unfold take_status_report. by destruct (existsb _ _).
Qed.

Definition used_of (id : bytes) (t : WorkflowTracker) : N := from_option fst 0 (account id t).

(** A run that is there has a budget of at most [bound]. *)
Definition within (bound : N) (id : bytes) (t : WorkflowTracker) : Prop :=
  match account id t with Some (_, Some limit) => limit <= bound | Some (_, None) => False | None => True end.

(** What an operation takes off the account of the run [id]: only three can. *)
Definition taken_off (now : Moment) (id : bytes) (op : Op) (t : WorkflowTracker) : N :=
  match op with
  | ReleaseAgents i _ | ReconcileAgents i _ | ClearRun i => if i =b id then used_of id t - used_of id (perform now op t) else 0
  | _ => 0
  end.

(** The requests of a script of the run [id], answered from the tracker, while any other
    operations come between them, those of other runs, of resumptions and of other
    scripts of the same run among them, as long as the budgets given to the run stay
    within [bound]; the last argument is what those operations took off the account.  When the host shuts down it
    grants no reservation and takes no calls back. *)
Inductive served (w : World) (persist : WorkflowRunState → option bytes) (bound : N) (id : bytes) (t : WorkflowTracker)
  : list (N * WorkflowHostRequest) → WorkflowTracker → N → Prop :=
| served_nil : served w persist bound id t [] t 0
| served_between l t1 f now op :
    served w persist bound id t l t1 f → within bound id (perform now op t1) →
    served w persist bound id t l (perform now op t1) (f + taken_off now id op t1)
| served_reserve l t1 f n k :
    served w persist bound id t l t1 f → reserve_reply w n k = Replied (dispatch_reserve persist id k t1).1 →
    served w persist bound id t (l ++ [(n, ReserveAgentCalls k)]) (dispatch_reserve persist id k t1).2 f
| served_refused l t1 f n k :
    served w persist bound id t l t1 f → (∀ x, reserve_reply w n k ≠ Replied (Ok x)) → served w persist bound id t (l ++ [(n, ReserveAgentCalls k)]) t1 f
| served_release l t1 f n k :
    served w persist bound id t l t1 f → served w persist bound id t (l ++ [(n, ReleaseAgentCalls k)]) (dispatch_release id k t1).2 f
| served_cancelled l t1 f n k : served w persist bound id t l t1 f → served w persist bound id t (l ++ [(n, ReleaseAgentCalls k)]) t1 f
| served_other l t1 f n r :
    served w persist bound id t l t1 f → (∀ k, r ≠ ReserveAgentCalls k ∧ r ≠ ReleaseAgentCalls k) → served w persist bound id t (l ++ [(n, r)]) t1 f.

Lemma served_prefix (w : World) (persist : WorkflowRunState → option bytes) (bound : N) (id : bytes) (t t' : WorkflowTracker) (l k : list (N * WorkflowHostRequest)) (f : N) :
  served w persist bound id t (l ++ k) t' f → ∃ t1 f1, served w persist bound id t l t1 f1 ∧ f1 <= f.
Proof.
  revert t' f. induction k as [|x k IH] using rev_ind; intros t' f H; [rewrite app_nil_r in H; by exists t', f|]. rewrite app_assoc in H.
  remember ((l ++ k) ++ [x]) as m eqn:E. induction H as [|m t1 f now op H IHs Hw|m t1 f n c H _ Hr|m t1 f n c H _ Hr|m t1 f n c H _|m t1 f n c H _|m t1 f n r H _ Hr];
    [by destruct (l ++ k)| |..]; [|apply app_inj_tail in E as [-> _]; by eapply IH..].
  destruct (IHs E) as (t2 & f2 & Hs & Hle). exists t2, f2. split; [done|lia].
Qed.

Lemma account_find (id : bytes) (t : WorkflowTracker) (u : N) (b : option N) :
  account id t = Some (u, b) → ∃ r, find_run id t = Some r ∧ agents_used (state r) = u ∧ agent_budget (state r) = b.
Proof. unfold account. destruct (find_run id t) as [r|]; [|done]. intros [= <- <-]. by exists r. Qed.

(** A reservation is granted in full within the limit, or changes nothing. *)
Lemma reserve_account (persist : WorkflowRunState → option bytes) (id : bytes) (k u limit : N) (t : WorkflowTracker) :
  account id t = Some (u, Some limit) → limit < U64_MAX →
  ((dispatch_reserve persist id k t).1 = Ok tt ∧ u + k <= limit ∧ account id (dispatch_reserve persist id k t).2 = Some (u + k, Some limit))
  ∨ ((∀ x, (dispatch_reserve persist id k t).1 ≠ Ok x) ∧ account id (dispatch_reserve persist id k t).2 = Some (u, Some limit)).
Proof.
  intros Ha Hl. destruct (account_find _ _ _ _ Ha) as (r & Hf & Hu & Hb). unfold dispatch_reserve, reserve_agents. rewrite Hf, Hb, Hu.
  destruct (N.ltb_spec limit (saturating_add u k)) as [Hlt|Hge]; [right; by split|].
  assert (saturating_add u k = u + k) as Esat by (unfold saturating_add in *; lia). rewrite Esat in *.
  set (s := advance_revision (with_agents_used (u + k) (state r))). set (t1 := with_runs (update_run id (with_state (fun _ => s)) (runs t)) t).
  assert (find_run id t1 = Some (with_state (fun _ => s) r)) as E1.
  { unfold t1, find_run in *. cbn [runs with_runs]. destruct (update_run_cases id (with_state (fun _ => s)) (runs t)) as [[Hn _]|(l & x & m & Hx & Hi & E & -> & Hpre)]; [congruence|].
    rewrite Hx in Hf. injection Hf as ->. rewrite E, find_app in Hx. rewrite find_app. destruct (List.find (has_id id) l) as [y|] eqn:Ey.
    - apply find_some in Ey as [Hy Hy2%has_id_spec]. rewrite Forall_forall in Hpre. exfalso. apply (Hpre y); [by apply list_elem_of_In|done].
    - cbn [List.find]. unfold has_id. cbn [state with_state]. change (run_id s) with (rid r). by rewrite Hi, (proj2 (beq_true id id) eq_refl). }
  assert (account id t1 = Some (u + k, Some limit)) as A1 by (unfold account; rewrite E1; cbn; by rewrite Hb).
  destruct (persist s) as [e|]; [right|left; by split_and!]. split; [done|]. cbn [snd]. unfold release_agents, account, find_run in *. cbn [run_mut snd runs with_runs].
  rewrite find_updated by done. rewrite (proj2 (beq_true id id) eq_refl). change (runs t1) with (runs t1) in *. rewrite E1. cbn. rewrite Hb. unfold saturating_sub. do 2 f_equal. lia.
Qed.

Lemma release_account (id : bytes) (k u : N) (b : option N) (t : WorkflowTracker) :
  account id t = Some (u, b) → account id (dispatch_release id k t).2 = Some (u - k, b).
Proof.
  intros Ha. destruct (account_find _ _ _ _ Ha) as (r & Hf & Hu & Hb). unfold dispatch_release, release_agents, run_mut. rewrite Hf. cbn [fmap option_fmap option_map snd].
  unfold account, find_run in *. cbn [runs with_runs]. rewrite find_updated by done. rewrite (proj2 (beq_true id id) eq_refl), Hf. cbn. by rewrite Hu, Hb.
Qed.

Lemma total_of_snoc (f : N * WorkflowHostRequest → N) (l : list (N * WorkflowHostRequest)) (x : N * WorkflowHostRequest) : total_of f (l ++ [x]) = total_of f l + f x.
Proof. rewrite total_of_app. unfold total_of. cbn [foldr]. lia. Qed.

Lemma dispatch_reserve_absent (persist : WorkflowRunState → option bytes) (id : bytes) (k : N) (t : WorkflowTracker) :
  account id t = None → (∀ x, (dispatch_reserve persist id k t).1 ≠ Ok x) ∧ (dispatch_reserve persist id k t).2 = t.
Proof. unfold account, dispatch_reserve, reserve_agents. by destruct (find_run id t). Qed.

Lemma release_used (id : bytes) (k : N) (bound : N) (t : WorkflowTracker) :
  within bound id t → within bound id (dispatch_release id k t).2 ∧ used_of id t <= used_of id (dispatch_release id k t).2 + k.
Proof.
  unfold within, used_of. intros Hw. destruct (account id t) as [[u b]|] eqn:Ha.
  - rewrite (release_account id k u b t Ha). split; [done|]. cbn. lia.
  - assert (account id (dispatch_release id k t).2 = None) as ->; [|by split; cbn; lia]. unfold account in *.
    unfold dispatch_release, release_agents, run_mut. destruct (find_run id t) as [r|] eqn:E; [done|]. cbn [fmap option_fmap option_map snd].
    unfold find_run in *. cbn [runs with_runs]. rewrite find_updated by done. by rewrite (proj2 (beq_true id id) eq_refl), E.
Qed.

(** The operations that take something off an account are the three of [taken_off]. *)
Lemma taken_off_used (now : Moment) (bound : N) (id : bytes) (op : Op) (t : WorkflowTracker) :
  within bound id t → bound < U64_MAX → used_of id t <= used_of id (perform now op t) + taken_off now id op t.
Proof.
  intros Hw Hbound. assert (spares id op = true → used_of id t <= used_of id (perform now op t)) as Hspares.
  { intros Hs. unfold used_of. destruct (account id t) as [a|] eqn:Ha; [|cbn; lia]. by rewrite (spares_account now id op t a Hs Ha). }
  destruct (spares id op) eqn:Hs; [specialize (Hspares eq_refl); lia|clear Hspares].
  destruct op as [i n o ph b j|i b|i title|i k|i k|i k|i row|i ag ag'|i ag st tk ms|i m|i m|i m|i o|i|i| |]; try done;
    cbn [spares] in Hs; apply negb_false_iff in Hs as Hi; apply beq_true in Hi as ->; cbn [taken_off]; rewrite ?beq_refl; try lia; cbn [perform].
  - rewrite N.add_0_r. unfold used_of, account, find_run. cbn [start_run snd runs with_runs]. rewrite find_app. destruct (List.find (has_id id) (runs t)); [done|cbn; lia].
  - rewrite N.add_0_r. unfold resume_run. destruct (find_run id t) as [r|] eqn:E; [|done]. destruct (resumes b (state r)); [|done]. cbn [run_mut]. rewrite E.
    unfold used_of, account, find_run in *. cbn [snd fmap option_fmap option_map runs with_runs]. rewrite find_updated by (intros r'; apply resumed_evolves). rewrite beq_refl, E. cbn.
    by destruct (candidate_budget b (agent_budget (state r))).
  - rewrite N.add_0_r. unfold reserve_agents. destruct (find_run id t) as [r|] eqn:E; [|done].
    assert (saturating_add (agents_used (state r)) k < U64_MAX →
      used_of id t <= used_of id (with_runs (update_run id (with_state (fun _ => advance_revision (with_agents_used (saturating_add (agents_used (state r)) k) (state r)))) (runs t)) t)) as Hu.
    { intros Hsat. destruct (update_run_cases id (with_state (fun _ => advance_revision (with_agents_used (saturating_add (agents_used (state r)) k) (state r)))) (runs t)) as [[Hn _]|(l & x & m & Hx & Hix & E1 & E2 & Hpre)]; [unfold find_run in E; congruence|].
      unfold used_of, account, find_run in *. cbn [runs with_runs]. rewrite E in Hx. injection Hx as ->. rewrite E, E2, find_app.
      destruct (List.find (has_id id) l) as [y|] eqn:Ey; [apply find_some in Ey as [Hy Hy2%has_id_spec]; rewrite Forall_forall in Hpre; exfalso; apply (Hpre y); [by apply list_elem_of_In|done]|].
      cbn [List.find]. unfold has_id. cbn [state with_state run_id advance_revision with_revision with_agents_used]. unfold rid in Hix. rewrite Hix, beq_refl. cbn. unfold saturating_add in *. lia. }
    unfold within, account in Hw. rewrite E in Hw. cbn in Hw. destruct (agent_budget (state r)) as [limit|]; [|done].
    destruct (N.ltb_spec limit (saturating_add (agents_used (state r)) k)); [done|]. apply Hu. lia.
Qed.

(** What is granted and not taken back is in the account but for what others took off it,
    and within the bound. *)
Lemma served_account (w : World) (persist : WorkflowRunState → option bytes) (bound : N) (id : bytes) (t t' : WorkflowTracker) (l : list (N * WorkflowHostRequest)) (f u : N) :
  served w persist bound id t l t' f → within bound id t → used_of id t = u → u <= bound → bound < U64_MAX →
  within bound id t' ∧ u + total_of (granted_by w) l <= used_of id t' + total_of released_by l + f
  ∧ u + total_of (granted_by w) l <= bound + total_of released_by l + f.
Proof.
  intros H Ht Eu Hu Hl. induction H as [|l t1 f now op H (W & A & B) Hs|l t1 f n k H (W & A & B) Hr|l t1 f n k H (W & A & B) Hr|l t1 f n k H (W & A & B)|l t1 f n k H (W & A & B)|l t1 f n r H (W & A & B) Hr].
  - split_and!; [done|cbn; lia..].
  - split_and!; [done| |lia]. pose proof (taken_off_used now bound id op t1 W Hl). lia.
  - rewrite !total_of_snoc. unfold granted_by at 2 4, released_by at 2 4. cbn [fst snd]. rewrite Hr. unfold within, used_of in *.
    destruct (account id t1) as [[u1 [limit|]]|] eqn:Ha; [|done|].
    + destruct (reserve_account persist id k u1 limit t1 Ha) as [(E & Hk & A2)|(E & A2)]; [lia|..]; rewrite A2.
      * rewrite E. cbn in *. split_and!; [done|lia..].
      * cbn in *. destruct (dispatch_reserve persist id k t1).1 as [x|]; [by destruct (E x)|]. split_and!; [done|lia..].
    + destruct (dispatch_reserve_absent persist id k t1 Ha) as [E ->]. rewrite Ha. destruct (dispatch_reserve persist id k t1).1 as [x|]; [by destruct (E x)|]. split_and!; [done|lia..].
  - rewrite !total_of_snoc. unfold granted_by at 2 4, released_by at 2 4. cbn [fst snd]. destruct (reserve_reply w n k) as [| |[x|]]; try (by destruct (Hr x)); split_and!; (done || lia).
  - rewrite !total_of_snoc. unfold granted_by at 2 4, released_by at 2 4. cbn [fst snd]. destruct (release_used id k bound t1 W). split_and!; [done|lia..].
  - rewrite !total_of_snoc. unfold granted_by at 2 4, released_by at 2 4. cbn [fst snd]. split_and!; [done|lia..].
  - rewrite !total_of_snoc. unfold granted_by at 2 4, released_by at 2 4. cbn [fst snd]. destruct r; try (split_and!; [done|lia..]); by destruct (Hr count).
Qed.

(** ** The claims *)

(** The model has been told of the end of the run: it was reported, or marked as reported, and the
    run was not resumed since. *)
Definition told (id : bytes) (l : list (Moment * Op)) (t : WorkflowTracker) : Prop :=
  (∃ pre now op post, l = pre ++ (now, op) :: post ∧ (op = MarkReported id ∨ id ∈ reports op (execute pre t))
     ∧ id ∉ revived_in post (execute (pre ++ [(now, op)]) t))
  ∨ (id ∈ reported_terminal_run_ids t ∧ id ∉ revived_in l t).

Lemma execute_app (l k : list (Moment * Op)) (t : WorkflowTracker) : execute (l ++ k) t = execute k (execute l t).
Proof. revert t. induction l as [|[now op] l IH]; intros t; [done|]. apply IH. Qed.

Lemma revived_app (l k : list (Moment * Op)) (t : WorkflowTracker) : revived_in (l ++ k) t = revived_in l t ++ revived_in k (execute l t).
Proof. revert t. induction l as [|[now op] l IH]; intros t; [done|]. cbn. by rewrite IH, app_assoc. Qed.

(** What one operation does to the set of the runs told of. *)
Lemma reported_step (now : Moment) (op : Op) (t : WorkflowTracker) (id : bytes) :
  id ∈ reported_terminal_run_ids (perform now op t)
  ↔ (op = MarkReported id ∨ id ∈ reports op t) ∨ (id ∈ reported_terminal_run_ids t ∧ id ∉ revives now op t).
Proof.
  pose proof (perform_reported now op t) as Hr.
  destruct op as [i n o ph b j|i b|i title|i k|i k|i k|i row|i a a'|i a st tk ms|i m|i m|i m|i o|i|i| |];
    try (rewrite Hr; cbn [reports revives]; rewrite !elem_of_nil; naive_solver); cbn [perform].
  - cbn [reports revives]. unfold resume_run. destruct (find_run i t) as [r|] eqn:E; [|cbn; rewrite !elem_of_nil; naive_solver].
    destruct (resumes b (state r)); [|cbn; rewrite !elem_of_nil; naive_solver]. cbn [run_mut]. rewrite E. cbn [fmap option_fmap option_map fst snd reported_terminal_run_ids].
    rewrite elem_of_nil, list_elem_of_singleton. set_unfold. naive_solver.
  - unfold mark_completion_reported. cbn [reported_terminal_run_ids reports revives]. rewrite elem_of_union, elem_of_singleton, !elem_of_nil. naive_solver.
  - rewrite take_reported. cbn [revives]. rewrite elem_of_nil. naive_solver.
Qed.

Lemma reported_told (id : bytes) (l : list (Moment * Op)) (t : WorkflowTracker) : id ∈ reported_terminal_run_ids (execute l t) ↔ told id l t.
Proof.
  induction l as [|[now op] l IH] using rev_ind.
  - unfold told. cbn [execute revived_in]. split; [intros H; right; split; [done|by apply not_elem_of_nil]|]. intros [(pre & ? & ? & ? & E & _)|[H _]]; [by destruct pre|done].
  - rewrite execute_app. cbn [execute]. rewrite reported_step, IH. unfold told at 2. rewrite revived_app. cbn [revived_in]. rewrite app_nil_r, elem_of_app. split.
    + intros [H|[[(pre & now' & op' & post & -> & H & Hn)|[H Hn]] Hv]].
      * left. exists l, now, op, []. split_and!; [done|done|by apply not_elem_of_nil].
      * left. exists pre, now', op', (post ++ [(now, op)]). split_and!; [by rewrite <-app_assoc|done|].
        rewrite revived_app, <-execute_app, <-app_assoc. cbn [app revived_in]. rewrite app_nil_r. by apply not_elem_of_app.
      * right. split; [done|]. naive_solver.
    + intros [(pre & now' & op' & post & E & H & Hn)|[H Hn]].
      * induction post as [|[now2 op2] post _] using rev_ind.
        { apply app_inj_tail in E as [-> [= -> ->]]. by left. }
        rewrite app_comm_cons, app_assoc in E. apply app_inj_tail in E as [-> [= -> ->]]. right.
        rewrite revived_app, <-execute_app, <-app_assoc in Hn. cbn [app revived_in] in Hn. rewrite app_nil_r in Hn. apply not_elem_of_app in Hn as [Hn1 Hn2].
        split; [|done]. left. by exists pre, now', op', post.
      * right. split; [right; split; [done|]|]; naive_solver.
Qed.

(** C11: What a session keeps of its workflow runs, over any operations from any restored
    snapshot: identifiers and names are distinct, a new name being found whatever the
    names in use, so that both lead to their run; a run's clock runs exactly while the
    run is active; histories stay bounded; and a restored session has no active run. *)
Theorem run_tracker_invariant (now : Moment) (ss : list WorkflowRunState) (l : list (Moment * Op)) :
  NoDup (map run_id ss) → NoDup (map name ss) → Forall (fun s => length (history s) <= WORKFLOW_HISTORY_MAX)%nat ss →
  all_allowed l (from_snapshot now ss) →
  let t := execute l (from_snapshot now ss) in
  sane t ∧ Forall (fun r => status (state r) ≠ Active) (runs (from_snapshot now ss))
  ∧ ∀ r, r ∈ runs t → get_run (rid r) t = Some (state r) ∧ ((∀ x, x ∈ runs t → rid x ≠ name (state r)) → find_run_id (name (state r)) t = Some (rid r)).
Proof.
  intros H1 H2 H3 Ha t. assert (sane t) as Hs by by apply sane_execute, sane_restore. split_and!; [done| |].
  - apply Forall_forall. intros r (s & -> & _)%list_elem_of_fmap. apply (restore_state_spec now s).
  - intros r Hr. split; [|by apply find_by_name; [apply Hs|..]]. unfold get_run. by rewrite (find_run_only (rid r) t r (ids_distinct _ Hs) Hr eq_refl).
Qed.

(** C10: The end of a run is reported to the model exactly once.  Over any operations, the
    next report names just the runs that have ended and of which the model has not been
    told since they were last resumed: so an end is reported by the first report behind
    it, unless it was marked as reported, that of a resumed run again; and a run is
    reported at most once more than it is resumed, and at most once in one report. *)
Theorem ends_reported_once (l : list (Moment * Op)) (t : WorkflowTracker) :
  sane t → all_allowed l t →
  (∀ id, id ∈ reports TakeTerminal (execute l t)
     ↔ (∃ r, r ∈ runs (execute l t) ∧ rid r = id ∧ is_completion_reportable (status (state r)) = true) ∧ ¬ told id l t)
  ∧ (∀ id, times id (reported_in l t) <= times id (revived_in l t) + if decide (id ∈ reported_terminal_run_ids t) then 0 else 1)%nat
  ∧ NoDup (reports TakeTerminal (execute l t)).
Proof.
  intros Hs Ha. split_and!.
  - intros id. rewrite elem_of_reports, <-reported_told. naive_solver.
  - intros id. enough (times id (reported_in l t) + due id (execute l t) <= times id (revived_in l t) + due id t)%nat as H by (unfold due in H at 2; lia).
    revert t Hs Ha. induction l as [|[now op] l IH]; intros t Hs Ha; [done|]. destruct Ha as [Ha Hl]. cbn [reported_in revived_in execute]. rewrite !times_app.
    pose proof (report_step now op t id (ids_distinct _ Hs)). pose proof (IH _ (sane_perform now op t Ha Hs) Hl). lia.
  - apply reports_NoDup. apply (ids_distinct _ (sane_execute l t Ha Hs)).
Qed.

(** C12: A status report is left out only when nothing has changed: when the report is
    empty, every run that has not ended is in exactly the state in which the last report
    that mentioned it showed it (but for the time that passes). *)
Theorem silent_report_unchanged (now : Moment) (ss : list WorkflowRunState) (l : list (Moment * Op)) :
  NoDup (map run_id ss) → NoDup (map name ss) → Forall (fun s => length (history s) <= WORKFLOW_HISTORY_MAX)%nat ss →
  all_allowed l (from_snapshot now ss) →
  let t := execute l (from_snapshot now ss) in
  ∀ now', (take_status_report now' t).1 = [] → ∀ r, r ∈ runs t → is_completion_reportable (status (state r)) = false → revision (state r) < U64_MAX →
    noted l (from_snapshot now ss) ∅ !! rid r = Some (state r).
Proof.
  intros H1 H2 H3 Ha t now' He r Hr Hc Hm.
  destruct (execute_remembers l (from_snapshot now ss) ∅ Ha) as [_ Hrem]; [by apply sane_restore|by intros id v|]. fold t in Hrem.
  assert (r ∈ live_runs t) as Hlive by by apply elem_of_live.
  assert (moved t r = false) as Hmoved.
  { unfold take_status_report in He. destruct (existsb (moved t) (live_runs t)) eqn:E.
    - cbn [fst] in He. apply (f_equal length) in He. rewrite length_map in He. by destruct (live_runs t); [apply elem_of_nil in Hlive|].
    - destruct (moved t r) eqn:Em; [|done]. rewrite <-E. symmetry. apply existsb_exists. exists r. split; [by apply list_elem_of_In|done]. }
  apply negb_false_iff, bool_decide_eq_true in Hmoved. destruct (Hrem _ _ Hmoved Hm) as (s & Hs & H). unfold rid. rewrite Hs. f_equal. symmetry. by apply (H r Hr eq_refl).
Qed.

(** C9: A workflow's budget bounds the agents it calls.  A script runs, its requests are
    answered from the tracker of the session, with any operations of the tracker between
    them, on other runs and on the same one (resumptions, other scripts of it that reserve and
    release, reconciliation, clearing), and with writes to the store that fail.  Then the agents its journal
    holds in the end are covered by the account of the run, and within the greatest
    budget the run was given; and at any time the agents started and those accounted
    before are no more than that budget and the calls the script gave back: in both cases but for
    what releases by others, reconciliations and clearing took off the account, which
    is nothing when there are none of these. *)
Theorem agents_within_budget {faults : DiskFaults} (persist : WorkflowRunState → option bytes) (w : World) (s : Script) (j : Journal) (d : Disk)
  (id : bytes) (t t' : WorkflowTracker) (u limit bound f : N) :
  let c := (eval w s (ctx_new j d)).2 in
  served w persist bound id t (sent c) t' f → account id t = Some (u, Some limit) →
  agent_reservation_count j <= u → u <= limit → limit <= bound → bound < U64_MAX →
  agent_reservation_count (journal c) <= used_of id t' + f ∧ agent_reservation_count (journal c) <= bound + f
  ∧ ∀ l, l `prefix_of` sent c → u + total_of spawned_by l <= bound + total_of released_by l + f.
Proof.
  intros c Hserved Ha Hj Hu Hb Hl.
  assert (within bound id t) as Hw by (unfold within; by rewrite Ha). assert (used_of id t = u) as Eu by (unfold used_of; by rewrite Ha).
  destruct (eval_accounted w (N.of_nat (length (entries j))) s (ctx_new j d) (N.le_refl _)) as [l [H1 _ H3 H4 _]]. fold c in H1, H4. cbn [ctx_new sent app] in H1. rewrite <-H1 in *.
  destruct (served_account _ _ _ _ _ _ _ _ _ Hserved Hw Eu) as (_ & A & B); [lia|done|].
  change (agent_reservation_count j) with (agents (es (ctx_new j d))) in Hj. change (agent_reservation_count (journal c)) with (agents (es c)).
  split_and!; [lia..|]. intros k [k' Ek]. rewrite Ek in Hserved. destruct (served_prefix _ _ _ _ _ _ _ _ _ Hserved) as (t1 & f1 & Hk & Hf).
  destruct (served_account _ _ _ _ _ _ _ _ _ Hk Hw Eu) as (_ & A' & B'); [lia|done|].
  pose proof (H3 k) as H5. rewrite Ek in H5. specialize (H5 (prefix_app_r _ _ _ (reflexivity k))). lia.
Qed.

End Laws.

(** ** Small runs *)

(** The letters and digits of ASCII. *)
#[export] Instance ascii_tables : CharTables := { str_lowercase := to_ascii_lowercase; is_alphanumeric := forallb is_ascii_alphanumeric }.

Definition at_ms (n : N) : Moment := mkMoment n $"2026-01-01T00:00:00Z".

Definition stored_run : WorkflowRunState :=
  mkRunState $"wf_0" 4 $"review" $"read it" Active [] None (Some 8) 1 [] false 250 None [] None None [].

Definition two_reviews : list (Moment * Op) :=
  [(at_ms 1, StartRun $"wf_1" $"review" $"read it again" [] (Some 8) None);
   (at_ms 2, ApplyOutcome $"wf_1" (Paused BackOff $"later"));
   (at_ms 3, ResumeRun $"wf_1" None);
   (at_ms 4, TakeStatus)].

Definition ended_twice : list (Moment * Op) :=
  [(at_ms 5, ApplyOutcome $"wf_1" (RunFailed $"no answer")); (at_ms 6, TakeTerminal); (at_ms 7, TakeTerminal);
   (at_ms 8, ResumeRun $"wf_1" None); (at_ms 9, ApplyOutcome $"wf_1" (Completed (VString $"done")))].

#[local] Notation restored_session := (from_snapshot (at_ms 0) [stored_run]).
#[local] Notation running_session := (execute two_reviews restored_session).

Lemma two_reviews_allowed : all_allowed two_reviews restored_session.
Proof. split; [apply (bool_decide_unpack _); vm_compute; exact I|by repeat split]. Qed.

Lemma stored_distinct : NoDup (map run_id [stored_run]) ∧ NoDup (map name [stored_run]).
Proof. split; apply NoDup_singleton. Qed.

Lemma stored_history : Forall (fun s => length (history s) <= WORKFLOW_HISTORY_MAX)%nat [stored_run].
Proof. apply Forall_singleton. cbn. unfold WORKFLOW_HISTORY_MAX. lia. Qed.

Lemma restored_sane : sane restored_session.
Proof. apply sane_restore; [apply stored_distinct..|apply stored_history]. Qed.

Lemma running_sane : sane running_session.
Proof. apply sane_execute; [exact two_reviews_allowed|exact restored_sane]. Qed.

Lemma run_tracker_invariant_witness : sane running_session.
Proof.
  exact (proj1 (run_tracker_invariant (at_ms 0) [stored_run] two_reviews (proj1 stored_distinct) (proj2 stored_distinct) stored_history two_reviews_allowed)).
Defined.

Example session_names : names running_session = [$"review"; $"review-2"].
Proof. vm_compute. reflexivity. Qed.

Lemma ended_twice_allowed : all_allowed ended_twice running_session.
Proof. by repeat split. Qed.

(** The end of a resumed run is due again. *)
Lemma ends_reported_once_witness :
  (times $"wf_1" (reported_in ended_twice running_session) <= times $"wf_1" (revived_in ended_twice running_session)
     + if decide ($"wf_1" ∈ reported_terminal_run_ids running_session) then 0 else 1)%nat
  ∧ ¬ told $"wf_1" ended_twice running_session.
Proof.
  destruct (ends_reported_once ended_twice running_session running_sane ended_twice_allowed) as (H1 & H2 & _). split; [exact (H2 $"wf_1")|].
  apply (H1 $"wf_1"). apply (bool_decide_unpack _). vm_compute. exact I.
Defined.

Example session_reports : reported_in ended_twice running_session = [$"wf_0"; $"wf_1"] ∧ reports TakeTerminal (execute ended_twice running_session) = [$"wf_1"].
Proof. split; vm_compute; reflexivity. Qed.

Lemma running_silent : (take_status_report (at_ms 9) running_session).1 = [].
Proof. vm_compute. reflexivity. Qed.

Lemma running_run : ∃ r, r ∈ runs running_session ∧ rid r = $"wf_1" ∧ is_completion_reportable (status (state r)) = false ∧ revision (state r) < U64_MAX.
Proof.
  assert (existsb (fun r => has_id $"wf_1" r && negb (is_completion_reportable (status (state r))) && (revision (state r) <? U64_MAX)) (runs running_session) = true) as E by (vm_compute; reflexivity).
  apply existsb_exists in E as (r & Hr & [[H1%has_id_spec H2%negb_true_iff]%andb_true_iff H3%N.ltb_lt]%andb_true_iff). exists r. split_and!; [by apply list_elem_of_In|done..].
Qed.

Lemma silent_report_unchanged_witness :
  ∃ r, r ∈ runs running_session ∧ noted two_reviews restored_session ∅ !! rid r = Some (state r).
Proof.
  destruct running_run as (r & Hr & _ & Hc & Hm). exists r. split; [exact Hr|].
  exact (silent_report_unchanged (at_ms 0) [stored_run] two_reviews (proj1 stored_distinct) (proj2 stored_distinct) stored_history two_reviews_allowed (at_ms 9) running_silent r Hr Hc Hm).
Defined.

(** The run of [plan_then_check] in a session. *)
Definition fresh_session : WorkflowTracker := (start_run (at_ms 1) $"wf_1" $"plan" $"plan it" [] (Some 8) None WorkflowTracker_default).2.

Definition asked : list (N * WorkflowHostRequest) :=
  [(0, ReserveAgentCalls 1); (0, SpawnAgent (prompt_only $"plan")); (1, ReserveAgentCalls 2); (1, SpawnAgent (prompt_only $"a"));
   (2, SpawnAgent (prompt_only $"b")); (3, ReadScratchFile $"notes")].

Lemma plan_asks : sent (eval friendly plan_then_check (ctx_new (Journal_new None) None)).2 = asked.
Proof. vm_compute. reflexivity. Qed.

Definition one_reserved : WorkflowTracker := (dispatch_reserve (fun _ => None) $"wf_1" 1 fresh_session).2.
Definition three_reserved : WorkflowTracker := (dispatch_reserve (fun _ => None) $"wf_1" 2 one_reserved).2.

#[local] Notation served_by l t1 := (served friendly (fun _ => None) 8 $"wf_1" fresh_session l t1 0).

Lemma asked_served : served_by asked three_reserved.
Proof.
  assert (∀ l t1 n r, served_by l t1 → asks r = true → served_by (l ++ [(n, r)]) t1) as Hother.
  { intros l t1 n r H Hr. apply served_other; [done|]. intros k. by split; intros ->. }
  apply (Hother [_; _; _; _; _]); [|done]. apply (Hother [_; _; _; _]); [|done]. apply (Hother [_; _; _]); [|done].
  apply (served_reserve _ _ _ _ _ [_; _]); [|vm_compute; reflexivity]. apply (Hother [_]); [|done].
  apply (served_reserve _ _ _ _ _ []); [apply served_nil|vm_compute; reflexivity].
Qed.

Lemma fresh_account : account $"wf_1" fresh_session = Some (0, Some 8).
Proof. vm_compute. reflexivity. Qed.

Lemma plan_served : served_by (sent (eval friendly plan_then_check (ctx_new (Journal_new None) None)).2) three_reserved.
Proof. rewrite plan_asks. exact asked_served. Qed.

Lemma agents_within_budget_witness :
  agent_reservation_count (journal (eval friendly plan_then_check (ctx_new (Journal_new None) None)).2) <= used_of $"wf_1" three_reserved + 0
  ∧ used_of $"wf_1" three_reserved = 3.
Proof.
  split; [|vm_compute; reflexivity].
  refine (proj1 (agents_within_budget (fun _ => None) friendly plan_then_check (Journal_new None) None $"wf_1" fresh_session three_reserved 0 8 8 0 plan_served fresh_account _ _ _ _)).
  - apply N.le_refl.
  - lia.
  - apply N.le_refl.
  - apply N.ltb_lt. vm_compute. reflexivity.
Defined.
